(* ===== verification/_CoqProject ===== *)
-Q . S2P
Prelude.v
RustStr.v
MachInt.v
Paths.v
Seek.v
PatchParser.v
PatchGrammar.v
PatchApply.v
Invocation.v
ExecPolicy.v
Bash.v
CommandSafety.v
HeadTail.v
Truncate.v
Protocol.v
Normalize.v
History.v
EventMapping.v
Session.v
ModelApi.v
Compaction.v
Resume.v
TaggedLines.v
Approval.v
Orchestrator.v
PatchSafety.v
Tools.v
ToolRouter.v
PlanMode.v
Sampling.v
Turn.v
Tasks.v
Toml.v
ConfigLayers.v
Requirements.v
ConfigLoader.v
SessionPolicy.v
RateLimit.v
Chunker.v
NetAddr.v
PublicAddr.v
HostPolicy.v
ProxyConfig.v
ProxyState.v
ProxyServers.v
Ssrf.v
ExecutionPolicy.v
CommandExec.v
LinuxSandbox.v
UnifiedOutput.v
CoreApprovals.v
Coroutine.v
UnifiedExec.v
Runtimes.v
GatewayApprovals.v
Coordinator.v
AgentRouting.v
Trigger.v
Ambient.v
Pairing.v
Stopwatch.v
Frames.v
Escalation.v
SubAgents.v
