(* ===== verification/Prelude.v ===== *)
(** * Savfox: verification library (root file)

    Savfox is a coding agent: a model asks for commands and patches, and the
    program decides whether to ask the user, in which sandbox to run them, and
    what to put back into the conversation.  This library models that path from
    the Rust sources, with the turns and tasks that drive it, the configuration
    and the rules that govern it and the guards of the network, and proves what
    makes them correct.  Target: the Unix build.

    ** The parts, file by file

    Foundations.  This file holds the result type of fallible code and generic
    lemmas, among them a stable sort and sums over finite maps.  [RustStr] is [str] of the Rust standard library (a string is the list
    of its scalar values), [MachInt] the saturating integer arithmetic, [Paths]
    the part of [std::path] in use and [FileSystem], the interface of [std::fs]
    with its laws ([FileSystemLaws]) and an in-memory instance.

    Patches (crates/apply-patch).  [Seek] is seek_sequence.rs, the search for a
    block of lines.  [PatchParser] is parser.rs; [PatchGrammar] is the documented
    grammar with a printer, as the specification of the parser.  [PatchApply] is
    lib.rs: the computation of replacements and the run over the files.
    [Invocation] is invocation.rs: recognising a patch in a command and previewing
    its changes.

    Rules (crates/exec-policy).  [ExecPolicy] has decisions, prefix rules, the
    policy, the [prefix_rule] builtin and the amendment of a rules file.

    Commands (crates/core).  [Bash] extracts the commands of a shell script from
    its syntax tree (bash.rs); [CommandSafety] has the allow list and the deny
    heuristics.  [Approval] is exec_policy.rs: rules, heuristics and settings give
    one requirement for a command.

    Running tools (crates/core).  [Orchestrator] is tools/orchestrator.rs with the
    tool interface and the approval cache of tools/sandboxing.rs; the user and the
    operating system are an arbitrary environment and every exchange is an event
    of a trace.  [PatchSafety] is safety.rs and core/src/apply_patch.rs with the
    writable roots of a sandbox policy.  [Tools] has the shell and patch tools:
    their handlers and runtimes, composed as the code composes them.
    [ToolRouter] is tools/router.rs, registry.rs, context.rs and parallel.rs: from
    the call of the model to the output it is answered with.

    Processes (crates/core, crates/linux-sandbox, crates/arg0).  [CommandExec] is
    exec.rs with sandboxing/mod.rs, landlock.rs and spawn.rs: the command line under
    the sandbox, the process, the capture of its output and the result.
    [LinuxSandbox] is the helper that this command line names: the dispatch of
    arg0/src/lib.rs, linux_run_main.rs, landlock.rs and mounts.rs, over a kernel with
    its laws ([KernelLaws], [HelperLaws]).  [Runtimes] is tools/runtimes/: an attempt
    from the request to the process, for the shell tool and for [exec_command].
    [UnifiedOutput] is unified_exec/async_watcher.rs and the poll of
    process_manager.rs; [UnifiedExec] is the rest of unified_exec/: the store of open
    processes under interleaved calls.

    Escalation (crates/exec-server).  The MCP server whose shell asks about every
    command it executes.  [Escalation] is its policy, the server and the client of a
    request and the tool (posix.rs, posix/mcp_escalation_policy.rs,
    escalate_server.rs, escalate_client.rs, mcp.rs), [Frames] the messages with
    descriptors between them (socket.rs), [Stopwatch] the time limit that stands
    still while the user is asked (stopwatch.rs).

    Conversation (crates/core).  [HeadTail] is the output buffer of a running
    command, [Truncate] the truncation of outputs, [Protocol] the items of a
    conversation and the token counters, [Normalize] the pairing of calls and
    outputs, [History] the session history (context_manager/).  [EventMapping]
    turns items into what the user sees (event_mapping.rs, the user's input, the
    legacy events), [Session] is the state of a session and the functions through
    which it records and reports (savfox/event_pipeline.rs), [ModelApi] the errors
    and the events of a response (error.rs, api-client/src/common.rs).
    [Compaction] is compact.rs and compact_remote.rs, [Resume] the replay of a
    rollout with the operations that rewrite the history.  [TaggedLines] is the
    parser of tagged blocks in streamed text (tagged_block_parser.rs,
    proposed_plan_parser.rs).

    Turns and tasks (crates/core).  [PlanMode] is the state of a response that is
    streamed in plan mode, [Sampling] one request to the model with its attempts
    and retries, [Turn] is [run_turn] (all three from savfox/tool_orchestrator.rs,
    with stream_events_utils.rs).  [Tasks] is the lifecycle of tasks (tasks/mod.rs,
    state/turn.rs) as interleaved steps of the submission loop and the processes.
    [CoreApprovals] is what waits for the user's decisions inside a turn
    (savfox/mod.rs, savfox/task_coordinator.rs).  [SubAgents] has the agents that an
    agent starts: their number and depth (agent/guards.rs), their control
    (agent/control.rs) and the tools (tools/handlers/collab.rs).

    Configuration.  [Toml] has the values and their merge, overrides and
    placeholders, [ConfigLayers] the stack of layers (config_loader/state.rs),
    [Requirements] the constraints a managed file puts on settings and the rules
    it adds, [ConfigLoader] the loading of user, project and managed files,
    [SessionPolicy] the policies a session starts with.

    Network (crates/network-proxy, crates/gateway-server).  [NetAddr] parses and
    compares addresses, [PublicAddr] classifies them, [HostPolicy] matches hosts
    against the lists, [ProxyConfig] is the configuration with its constraints,
    [ProxyState] the shared state of the proxy under interleaved requests and
    reloads, [ProxyServers] the HTTP and SOCKS servers.  [Ssrf] is the guard of the
    gateway's own requests, [RateLimit] its rate limits, [Chunker] the splitting of
    its replies.

    Gateway (crates/gateway-server).  [ExecutionPolicy] decides under which sandbox
    and approval policy an agent runs for a client (security/execution_policy.rs,
    path_safety.rs).  [Coroutine] has programs whose actions on a shared state
    interleave, with a rule to prove what each of them preserves;
    [GatewayApprovals] is written with it: the coordinator of approvals
    (security/approval_coordinator.rs), its audit file (exec_approval.rs), the
    collector of a turn (channel/session_bridge.rs) and the calls of the API.
    Messages from chat platforms: [Coordinator] admits and orders them
    (channels/runtime/coordinator.rs), [AgentRouting] finds the agent
    (channels/runtime/routing.rs, runtime/agent_routing.rs), [Trigger] decides
    whether it answers (channels/runtime/trigger.rs), [Ambient] keeps what it does
    not answer and replies to it when a room falls silent
    (runtime/session/ambient.rs, channels/runtime/idle_reply.rs).  [Pairing] has the
    devices that an agent may use (pairing_store.rs, ws_rpc/handlers/node.rs).

    ** How the parts meet

    [Tasks] runs one task at a time; the task of a chat is [Turn.run_turn], which
    records input through [Session], asks the model through
    [Sampling.run_sampling_request] and compacts through
    [Compaction.run_auto_compact].  A request streams items into the history,
    through [PlanMode] in plan mode, and hands calls to [ToolRouter], whose
    handlers are values of a registry: [Tools] has those of shell and patch calls.
    [Tools.run_exec_like] calls [Invocation] to intercept a patch and then
    [PatchSafety] to decide about it, or [Approval] for a command, which calls
    [Bash] for the parts of a script, [ExecPolicy] for the rules and
    [CommandSafety] for what no rule matches.  Both ways end in
    [Orchestrator.run], which is written against the class [ToolRuntime]; its
    theorems use the laws of [ToolLaws], which [Tools] proves for both tools.
    [PatchApply] and [Invocation] use the file system through [FileSystem] only.
    What is recorded goes to the history of [History] and to the rollout, which
    [Resume] replays.  [ConfigLoader] builds the layers of [ConfigLayers] under the
    constraints of [Requirements]; [SessionPolicy] takes the settings of approvals
    and sandboxes from them.  [ProxyServers] asks [ProxyState], which holds the
    lists of [ProxyConfig] and decides with [HostPolicy] and [PublicAddr].
    What [Orchestrator] executes is [Runtimes], which makes the command line, takes
    the environment from [SessionPolicy.populate_env] and hands it to [CommandExec];
    the helper of [LinuxSandbox] gets its policy through the arguments, and the
    writable roots from [PatchSafety].  [Runtimes.open_session_with_sandbox] is the
    opening of a process that [UnifiedExec], a program of [Coroutine] over buffers
    of [HeadTail], takes as an answer of its environment.
    An approval that [Orchestrator] asks for waits in [CoreApprovals]; through the
    gateway it is answered by [GatewayApprovals], whose clients have the
    capabilities that [ExecutionPolicy] gives them.
    [Escalation] judges with [ExecPolicy] and [CommandSafety] and starts its shell
    through [CommandExec], cancelled by the token of [Stopwatch]; its requests and
    answers are the messages of [Frames], which it takes to arrive or to fail.
    A message of a chat is dispatched by [Coordinator], whose executions are an
    argument; what an execution does first is [Trigger.inbound], which calls the
    routing of [AgentRouting] and leaves answers to approvals to
    [GatewayApprovals]; what it does not answer goes to [Ambient].  [Ambient],
    [Pairing] and [SubAgents] are programs of [Coroutine] and their invariants are
    proved with its rule; [Coordinator] and [Stopwatch] are step relations, as
    [Tasks] is.  [Tasks], [Coordinator] and [SubAgents] count what is held with the
    sums of this file.

    ** What the theorems show

    - A command or a patch from the model runs in the sandbox the policy selects,
      or after an approval, or because rules let it escape; forbidden commands do
      nothing; with approvals off nothing is asked ([Tools], [Orchestrator],
      [Approval]).
    - A patch that is approved unasked changes no file outside the writable roots,
      and the preview of a patch is what applying it does ([PatchSafety],
      [Invocation]).
    - A process of [exec_command] obeys the same discipline as a command of the shell
      tool.  What an attempt starts under the Linux sandbox is the helper, which runs
      the command of the request or nothing, and only once the kernel confines it:
      changes beneath the writable roots alone, no network but local sockets, no new
      privileges, whichever system call fails ([Runtimes], [LinuxSandbox]).
    - The script that is judged is the script that runs ([Runtimes]); every end of a
      command has its result, and what is kept of its output is a prefix of it, up to
      the cap ([CommandExec]).
    - The reader of an interactive command ends and cuts exactly what it was given; a
      poll returns what was written since the last one, once and in order
      ([UnifiedOutput]).  Under all interleavings at most 64 processes are in the
      store, each under an identifier of its own, and none is lost; room is made by
      closing one that was not used lately ([UnifiedExec]).
    - Under escalation only the command that was judged is run outside the sandbox,
      and only if rules or the user allow it; each command of the shell comes to its
      place and ends with its exit code ([Escalation]).  The messages arrive as they
      were sent ([Frames]); the limit counts the time in which nobody is asked
      ([Stopwatch]).
    - Every turn that was started ends with exactly one event, in every
      interleaving of the submission loop with the processes, at most one task
      runs, and the session comes to rest ([Tasks]).  A turn ends as soon as the
      model asks for nothing more, whatever happened on the way ([Turn]).
    - A request ends within its budget of attempts; an attempt records what its
      stream says and answers the calls it started ([Sampling], [ToolRouter]);
      what is shown of a streamed plan is a start, deltas and an end ([PlanMode]).
    - A session never has more agents than configured, nor deeper ones than allowed,
      whatever its tools do side by side ([SubAgents]).
    - A compaction ends and keeps what it promises; the rollout replays to the
      history ([Compaction], [Resume]).
    - The parser reads back what the grammar prints and is total; an update is the
      splice of its chunks; a run touches only the files its hunks name ([PatchGrammar],
      [PatchParser], [PatchApply], [Seek]).
    - The decision of a policy is the worst of the matching rules; amending does
      what it says; the script analysis accepts plain command lists only; no
      command is both on the allow list and dangerous ([ExecPolicy], [Bash],
      [CommandSafety]).
    - The output buffer keeps exactly a head and a tail; truncation keeps its
      budget and its counts; calls and outputs stay paired through every change of
      the history; token totals are exact up to one clamp ([HeadTail], [Truncate],
      [Normalize], [History]).
    - What the user typed is read back from the conversation, and what the session
      adds is not taken for it ([EventMapping]).
    - Merged settings are those of the highest layer that has them, a project's
      files cannot set what is denied to them, and the rules and policies of a
      managed file hold whatever else is configured ([Toml], [ConfigLayers],
      [ConfigLoader], [Requirements], [SessionPolicy]).
    - A connection through the proxy goes to a host the lists permit, on a public
      address unless local ones are allowed, under the managed constraints, through
      reloads and changes of mode; the gateway's own requests stay on public
      addresses ([ProxyServers], [ProxyState], [ProxyConfig], [HostPolicy], [Ssrf]).
    - A request for a decision is answered by a decision for its turn and by nothing
      else ([CoreApprovals]).  Through the gateway, under every interleaving, an
      answer reaches the request it was given for, at most once, from the
      conversation that was asked or with its nonce; the audit file claims no more
      than Core was told; and an agent's file that cannot be used leaves a read-only,
      unattended agent ([GatewayApprovals], [ExecutionPolicy]).
    - An accepted message is executed, in the order of its conversation, within the
      bounds of the gateway, and none is lost ([Coordinator]); the agent is that of
      the best rule ([AgentRouting]), and it answers exactly the messages that
      channel, sender and activation select ([Trigger]).  The context kept of the
      others is bounded and in order, and an idle reply follows silence only
      ([Ambient]).  A device is used only after somebody approved it ([Pairing]).
    - The rate limits admit what their buckets hold; the parts of a reply fit its
      platform and lose nothing ([RateLimit], [Chunker]).

    Files end with examples that record behaviour worth knowing, among them where
    code and documentation disagree.

    ** Conventions and bounds

    A definition has the name of the Rust item it models; loop bodies are
    definitions of their own.  [None] of an outer option is a panic (of a debug
    build, where a flag [debug] is an argument) or exhausted fuel.  Fuel is the
    number of lines in the patch parser, the size of the tree in the walk over a
    script, the number of attempts in a request or a compaction and the number of
    requests in a turn; each is proved to be enough ([PatchParser], [Bash],
    [Sampling.sampling_request_terminates], [Compaction.compact_task_terminates],
    [Turn.turn_ends]).  The poll of an interactive command runs over the sequence of
    its rounds, and [UnifiedOutput.poll_returns_output] says at which it ends; the
    loop over a chunk has the length of the chunk as fuel
    ([UnifiedOutput.streamed_output]).  The fuel of [SubAgents.exchange_loop] is how
    often other calls are faster; any is enough without them
    ([SubAgents.slot_decided]).  Loops over sockets run along the list of the
    kernel's answers, and [Frames.messages_arrive] says how many are enough.  [usize] and [i64] saturate or wrap where the code does.
    Third-party code (tree-sitter, Starlark, shlex, serde_json, similar, url,
    path-absolutize) and the services (the model, DNS, servers) are parameters of
    the section that uses them, with what is relied on as named hypotheses; the
    regular expressions and parsers of the crates themselves are written out.

    ** Not modelled

    The kernel itself, pseudo-terminals, the sandboxes of macOS and Windows, the
    mount system calls (nothing calls them) and what tools do outside a sandbox.
    The transports of the network, user interfaces, telemetry, serialisation, the
    files of rollouts and SQLite, the text of the initial context, the time that
    retries wait, ghost snapshots that run beside a turn, the asynchronous runtime
    other than as interleaved steps.  Windows-only code, managed preferences of
    macOS.  The components of the manifest that are not modelled are of this kind,
    or adapters to services (the chat platforms of the gateway, MCP servers,
    authentication, browsers) whose behaviour is that of code that is not in the
    repository.  Of what is modelled: the reading of channel and agent files and the
    registry of commands behind [Trigger], the resumption of idle replies after a
    start, the start of the escalation programs and the loading of their rules,
    the configuration and workspace of an agent's agents.  The stores and pages of the gateway and of the terminal interface
    have logic of their own that could be modelled in the same way. *)
From Stdlib Require Export Ascii String NArith ZArith Lia.
From stdpp Require Export base strings gmap numbers option list sorting.

(** ** Results: Rust's [Result<A, E>] *)
Inductive result (E A : Type) : Type :=
| Ok (a : A)
| Err (e : E).
Arguments Ok {E A} a.
Arguments Err {E A} e.

#[export] Instance result_ret E : MRet (result E) := λ A a, Ok a.
#[export] Instance result_bind E : MBind (result E) := λ A B f r,
  match r with Ok a => f a | Err e => Err e end.
#[export] Instance result_fmap E : FMap (result E) := λ A B f r,
  match r with Ok a => Ok (f a) | Err e => Err e end.

Definition is_ok {E A} (r : result E A) : bool :=
  match r with Ok _ => true | Err _ => false end.

(** [Result::map_err]. *)
Definition map_err {E F A} (f : E → F) (r : result E A) : result F A :=
  match r with Ok a => Ok a | Err e => Err (f e) end.

Lemma map_err_Ok {E F A} (f : E → F) (r : result E A) a : map_err f r = Ok a → r = Ok a.
Proof. destruct r; cbn; [by intros [= ->]|done]. Qed.

Lemma bind_Ok {E A B} (f : A → result E B) r b :
  r ≫= f = Ok b ↔ ∃ a, r = Ok a ∧ f a = Ok b.
Proof. destruct r; cbn; split; [eauto|by intros (? & [= <-] & ?)|done|by intros (? & ? & ?)]. Qed.

Lemma bind_Err {E A B} (f : A → result E B) r e :
  r ≫= f = Err e ↔ r = Err e ∨ ∃ a, r = Ok a ∧ f a = Err e.
Proof.
  destruct r; cbn; split; try (by intros [= <-]; left).
  - eauto.
  - by intros [?|(? & [= <-] & ?)].
  - by intros [[= <-]|(? & ? & ?)].
Qed.

(** ** First index of a range that satisfies a test: the shape of a Rust
    [for i in lo..hi { if p(i) { return Some(i) } }] loop. *)
Fixpoint find_from (p : nat → bool) (i n : nat) : option nat :=
  match n with
  | 0 => None
  | S n' => if p i then Some i else find_from p (S i) n'
  end.

(** [for i in lo..=hi] visits [S hi - lo] indices. *)
Definition find_range (p : nat → bool) (lo hi : nat) : option nat :=
  find_from p lo (S hi - lo).

Lemma find_from_Some p i n k :
  find_from p i n = Some k ↔
  i ≤ k < i + n ∧ p k = true ∧ ∀ j, i ≤ j < k → p j = false.
Proof.
  revert i. induction n as [|n IH]; intros i; cbn.
  - split; [done|]. lia.
  - destruct (p i) eqn:Hp.
    + split.
      * intros [= <-]. split_and!; [lia|lia|done|]. intros; lia.
      * intros (H1 & H2 & H3). destruct (decide (k = i)) as [->|]; [done|].
        specialize (H3 i). rewrite H3 in Hp; [done|lia].
    + rewrite IH. split; intros (H1 & H2 & H3); split_and!; try lia; try done.
      * intros j Hj. destruct (decide (j = i)) as [->|]; [done|]. apply H3. lia.
      * assert (k ≠ i) by congruence. lia.
      * intros j Hj. apply H3. lia.
Qed.

Lemma find_from_None p i n :
  find_from p i n = None ↔ ∀ j, i ≤ j < i + n → p j = false.
Proof.
  revert i. induction n as [|n IH]; intros i; cbn.
  - split; [intros _ j Hj; lia|done].
  - destruct (p i) eqn:Hp.
    + split; [done|]. intros H. rewrite H in Hp; [done|lia].
    + rewrite IH. split; intros H j Hj; [|apply H; lia].
      destruct (decide (j = i)) as [->|]; [done|]. apply H. lia.
Qed.

Lemma find_range_Some p lo hi k :
  find_range p lo hi = Some k ↔
  lo ≤ k ≤ hi ∧ p k = true ∧ ∀ j, lo ≤ j < k → p j = false.
Proof. unfold find_range. rewrite find_from_Some. split; intros (? & ? & ?); split_and!; try done; lia. Qed.

Lemma find_range_None p lo hi :
  find_range p lo hi = None ↔ ∀ j, lo ≤ j ≤ hi → p j = false.
Proof.
  unfold find_range. rewrite find_from_None.
  split; intros H j Hj; apply H; lia.
Qed.

(** ** List helpers *)

(** Rust's [Vec::remove(i)] on an index that is in range, and a no-op otherwise
    (callers guard the call). *)
Lemma delete_eq_take_drop {A} (l : list A) i :
  delete i l = take i l ++ drop (S i) l.
Proof.
  revert i. induction l as [|x l IH]; intros [|i]; cbn; try done.
  f_equal. apply IH.
Qed.

(** [Vec::insert(i, x)]: panics ([None]) when [i > len]. *)
Definition vec_insert {A} (i : nat) (x : A) (l : list A) : option (list A) :=
  if decide (i ≤ length l) then Some (take i l ++ x :: drop i l) else None.

(** Last element of a slice tested by a predicate: [v.last().is_some_and(p)]. *)
Definition last_is {A} (p : A → bool) (l : list A) : bool :=
  match last l with Some x => p x | None => false end.

Lemma last_is_true {A} (p : A → bool) l :
  last_is p l = true ↔ ∃ l' x, l = l' ++ [x] ∧ p x = true.
Proof.
  unfold last_is. split.
  - destruct (last l) as [x|] eqn:E; [|done].
    apply last_Some in E as [l' ->]. eauto.
  - intros (l' & x & -> & ?). by rewrite last_snoc.
Qed.

Lemma length_filter_le {A} (P : A → Prop) `{∀ x, Decision (P x)} l :
  length (filter P l) ≤ length l.
Proof. induction l as [|x l IH]; [done|]. rewrite filter_cons. case_decide; cbn; lia. Qed.

Lemma filter_length_eq {A} (P : A → Prop) `{∀ x, Decision (P x)} l :
  length (filter P l) = length l → filter P l = l.
Proof.
  induction l as [|x l IH]; [done|]. rewrite filter_cons. pose proof (length_filter_le P l).
  case_decide; cbn; intros; [f_equal; apply IH; lia|lia].
Qed.

Lemma filter_all_id {A} (P : A → Prop) `{∀ x, Decision (P x)} l :
  Forall P l → filter P l = l.
Proof.
  induction 1 as [|x l Hx _ IH]; [done|]. by rewrite filter_cons, decide_True, IH.
Qed.

Lemma filter_none {A} (P : A → Prop) `{∀ x, Decision (P x)} l :
  Forall (λ x, ¬ P x) l → filter P l = [].
Proof. induction 1 as [|x l Hx _ IH]; [done|]. by rewrite filter_cons, decide_False, IH. Qed.

Ltac bool_tac :=
  repeat match goal with
  | H : _ && _ = true |- _ => apply andb_true_iff in H as [? ?]
  | H : _ || _ = false |- _ => apply orb_false_iff in H as [? ?]
  | H : negb _ = true |- _ => apply negb_true_iff in H
  | H : negb _ = false |- _ => apply negb_false_iff in H
  | H : bool_decide _ = true |- _ => apply bool_decide_eq_true in H
  | H : bool_decide _ = false |- _ => apply bool_decide_eq_false in H
  end.

(** ** [sort_by_key], which is stable *)
Section Sorting.
Local Open Scope Z_scope.
Context {A : Type} (key : A → Z).
Fixpoint insert_by_key (x : A) (l : list A) : list A :=
  match l with
  | [] => [x]
  | y :: l' => if key x <=? key y then x :: l else y :: insert_by_key x l'
  end.
Definition sort_by_key (l : list A) : list A := foldr insert_by_key [] l.
Definition key_le (x y : A) : Prop := key x ≤ key y.

Lemma insert_by_key_perm x l : insert_by_key x l ≡ₚ x :: l.
Proof. induction l as [|y l IH]; cbn; [done|]. case_match; [done|]. rewrite IH. apply Permutation_swap. Qed.
Lemma sort_by_key_perm l : sort_by_key l ≡ₚ l.
Proof. induction l as [|x l IH]; cbn; [done|]. by rewrite insert_by_key_perm, IH. Qed.

Lemma insert_by_key_sorted x l : StronglySorted key_le l → StronglySorted key_le (insert_by_key x l).
Proof.
  induction 1 as [|y l Hs IH Hy]; cbn; [by repeat constructor|]. case_match eqn:Hxy.
  - apply Z.leb_le in Hxy. constructor; [by constructor|]. constructor; [done|].
    eapply Forall_impl; [exact Hy|]. unfold key_le. intros; lia.
  - apply Z.leb_gt in Hxy. constructor; [done|]. rewrite insert_by_key_perm. constructor; [unfold key_le; lia|done].
Qed.
Lemma sort_by_key_sorted l : StronglySorted key_le (sort_by_key l).
Proof. induction l as [|x l IH]; cbn; [constructor|by apply insert_by_key_sorted]. Qed.

(** Elements with the same key keep their order. *)
Lemma insert_by_key_stable (P : A → Prop) `{∀ x, Decision (P x)} k x l :
  (∀ y, P y → key y = k) → filter P (insert_by_key x l) = filter P (x :: l).
Proof.
  intros HP. induction l as [|y l IH]; cbn [insert_by_key]; [done|]. case_match eqn:Hxy; [done|].
  apply Z.leb_gt in Hxy. rewrite !filter_cons in *. rewrite IH. destruct (decide (P x)) as [Hx|], (decide (P y)) as [Hy|]; try done.
  apply HP in Hx, Hy. lia.
Qed.
Lemma sort_by_key_stable (P : A → Prop) `{∀ x, Decision (P x)} k l :
  (∀ y, P y → key y = k) → filter P (sort_by_key l) = filter P l.
Proof.
  intros HP. induction l as [|x l IH]; [done|]. change (sort_by_key (x :: l)) with (insert_by_key x (sort_by_key l)).
  rewrite (insert_by_key_stable P k) by done.
  rewrite !filter_cons. by rewrite IH.
Qed.

(** The first element with a property is the least of them. *)
Lemma list_find_least (P : A → Prop) `{∀ x, Decision (P x)} l i x :
  StronglySorted key_le l → list_find P l = Some (i, x) → x ∈ l ∧ P x ∧ ∀ y, y ∈ l → P y → key x ≤ key y.
Proof.
  intros Hs (Hi & HP & Hbefore)%list_find_Some. split_and!; [by eapply list_elem_of_lookup_2|done|].
  pose proof (take_drop_middle l i x Hi) as Hl. rewrite <-Hl in Hs. apply StronglySorted_app in Hs as (_ & _ & Hs).
  intros y Hy HPy. rewrite <-Hl in Hy. apply elem_of_app in Hy as [[j Hj]%list_elem_of_lookup|Hy].
  - apply lookup_take_Some in Hj as [Hj Hlt]. by eapply Hbefore in Hj.
  - apply elem_of_cons in Hy as [->|Hy]; [done|]. apply StronglySorted_inv in Hs as [_ Hs].
    rewrite Forall_forall in Hs. by apply Hs.
Qed.
End Sorting.

(** ** Sums over a map *)
Section Sums.
Context {K A : Type} `{Countable K}.
Implicit Types (f g : A → nat) (m : gmap K A).

Definition total f m : nat := map_fold (λ _ a n, f a + n) 0 m.
Lemma sum_insert f m c a :
  m !! c = None → total f (<[c := a]> m) = f a + total f m.
Proof. intros Hc. unfold total. rewrite map_fold_insert_L; [done| |done]. intros; lia. Qed.
Lemma sum_delete f m c a :
  m !! c = Some a → total f m = f a + total f (delete c m).
Proof. intros Hc. rewrite <-(insert_delete_id m c a) at 1 by done. apply sum_insert, lookup_delete_eq. Qed.
Lemma sum_update f m c a a' :
  m !! c = Some a → f a + total f (<[c := a']> m) = f a' + total f m.
Proof.
  intros Hc. rewrite (sum_delete f m c a), <-insert_delete_eq, sum_insert by (done || apply lookup_delete_eq). lia.
Qed.
Lemma sum_empty f : total f ∅ = 0.
Proof. done. Qed.
Lemma sum_elem f m c a : m !! c = Some a → f a ≤ total f m.
Proof. intros Hc. rewrite (sum_delete f m c a) by done. lia. Qed.

Lemma sum_le f g m : (∀ c a, m !! c = Some a → f a ≤ g a) → total f m ≤ total g m.
Proof.
  induction m as [|c a m Hc IH] using map_ind; intros Hfg; [done|]. rewrite !sum_insert by done.
  specialize (Hfg c a (lookup_insert_eq _ _ _)) as Hca.
  assert (total f m ≤ total g m); [|lia]. apply IH. intros c' a' Ha'. apply (Hfg c').
  rewrite lookup_insert_ne; [done|]. congruence.
Qed.
Lemma sum_zero f m : (∀ c a, m !! c = Some a → f a = 0) → total f m = 0.
Proof.
  intros Hf. pose proof (sum_le f (λ _, 0) m) as Hle. assert (total (λ _, 0) m = 0) as H0.
  { clear. induction m as [|c a m Hc IH] using map_ind; [done|]. by rewrite sum_insert. }
  rewrite H0 in Hle. apply Nat.le_0_r, Hle. intros c a Hc. by rewrite (Hf c a Hc).
Qed.
End Sums.
