(* ===== verification/RustStr.v ===== *)
(** * Rust strings

    A Rust [&str] or [String] is a sequence of Unicode scalar values.  It is
    modelled as the list of these values, [list N], so that the character
    operations of the standard library ([trim], [lines], [split],
    [strip_prefix], ...) are written once here and every component uses
    them.  Byte lengths are those of the UTF-8 encoding ([str_len]). *)
From S2P Require Export Prelude.

Abbreviation char := N (only parsing).
Abbreviation str := (list N) (only parsing).

(** ASCII literals: [§ "abc"] is the string the Rust literal denotes. *)
Definition lit (s : string) : str := N_of_ascii <$> list_ascii_of_string s.
Notation "§ s" := (lit s%string) (at level 1, s at level 0, format "§ s").

Arguments lit _ : simpl never.

(** The ASCII characters the sources name. *)
Definition LF : char := 10%N.
Definition CR : char := 13%N.
Definition SP : char := 32%N.
Definition PLUS : char := 43%N.
Definition MINUS : char := 45%N.
Definition STAR : char := 42%N.
Definition AT : char := 64%N.
Definition DOT : char := 46%N.
Definition SLASH : char := 47%N.
Definition COLON : char := 58%N.

(** [char::is_whitespace]: the Unicode property White_Space. *)
Definition is_whitespace (c : char) : bool :=
  ((9 <=? c) && (c <=? 13) || (c =? 32) || (c =? 0x85) || (c =? 0xA0)
   || (c =? 0x1680) || (0x2000 <=? c) && (c <=? 0x200A)
   || (c =? 0x2028) || (c =? 0x2029) || (c =? 0x202F) || (c =? 0x205F)
   || (c =? 0x3000))%N.

Fixpoint drop_while {A} (p : A → bool) (l : list A) : list A :=
  match l with
  | [] => []
  | x :: l' => if p x then drop_while p l' else l
  end.

Fixpoint take_while {A} (p : A → bool) (l : list A) : list A :=
  match l with
  | [] => []
  | x :: l' => if p x then x :: take_while p l' else []
  end.

Definition trim_start (s : str) : str := drop_while is_whitespace s.
Definition trim_end (s : str) : str := reverse (drop_while is_whitespace (reverse s)).
Definition trim (s : str) : str := trim_end (trim_start s).

(** [str::strip_prefix], [starts_with], [ends_with]. *)
Fixpoint strip_prefix (p s : str) : option str :=
  match p, s with
  | [], _ => Some s
  | x :: p', y :: s' => if decide (x = y) then strip_prefix p' s' else None
  | _ :: _, [] => None
  end.
Definition starts_with (s p : str) : bool :=
  match strip_prefix p s with Some _ => true | None => false end.
Definition strip_suffix (p s : str) : option str :=
  reverse <$> strip_prefix (reverse p) (reverse s).
Definition ends_with (s p : str) : bool :=
  match strip_suffix p s with Some _ => true | None => false end.

(** [s.split(c)]: always at least one piece. *)
Fixpoint split_on (c : char) (s : str) : list str :=
  match s with
  | [] => [[]]
  | x :: s' =>
      if decide (x = c) then [] :: split_on c s'
      else match split_on c s' with
           | [] => [[x]]
           | l :: ls => (x :: l) :: ls
           end
  end.

(** [s.split_inclusive('\n')]: the pieces keep their terminator. *)
Fixpoint split_inclusive (c : char) (s : str) : list str :=
  match s with
  | [] => []
  | x :: s' =>
      if decide (x = c) then [x] :: split_inclusive c s'
      else match split_inclusive c s' with
           | [] => [[x]]
           | l :: ls => (x :: l) :: ls
           end
  end.

(** [str::lines]: the terminator [\n] or [\r\n] is removed; a last line
    without [\n] keeps a final [\r]. *)
Definition strip_line (l : str) : str :=
  match strip_suffix [LF] l with
  | None => l
  | Some l' => match strip_suffix [CR] l' with None => l' | Some l'' => l'' end
  end.
Definition lines (s : str) : list str := strip_line <$> split_inclusive LF s.

(** [v.join(sep)]. *)
Fixpoint join (sep : str) (ls : list str) : str :=
  match ls with
  | [] => []
  | [l] => l
  | l :: ls' => l ++ sep ++ join sep ls'
  end.

(** Length of the UTF-8 encoding: [char::len_utf8], [str::len]. *)
Definition len_utf8 (c : char) : nat :=
  if (c <? 0x80)%N then 1 else if (c <? 0x800)%N then 2
  else if (c <? 0x10000)%N then 3 else 4.
Fixpoint str_len (s : str) : nat :=
  match s with [] => 0 | c :: s' => len_utf8 c + str_len s' end.

(** [char::to_ascii_lowercase], [str::to_ascii_lowercase], [eq_ignore_ascii_case]. *)
Definition ascii_lower (c : char) : char :=
  if ((65 <=? c) && (c <=? 90))%N then (c + 32)%N else c.
Definition to_ascii_lowercase (s : str) : str := ascii_lower <$> s.
Definition eq_ignore_ascii_case (s t : str) : bool :=
  bool_decide (to_ascii_lowercase s = to_ascii_lowercase t).

(** [trim_matches], [trim_start_matches] for a set of characters. *)
Definition trim_start_matches (p : char → bool) (s : str) : str := drop_while p s.
Definition trim_end_matches (p : char → bool) (s : str) : str :=
  reverse (drop_while p (reverse s)).
Definition trim_matches (p : char → bool) (s : str) : str :=
  trim_end_matches p (trim_start_matches p s).

Definition is_ascii_digit (c : char) : bool := ((48 <=? c) && (c <=? 57))%N.

(** [s.split_once(c)]. *)
Fixpoint split_once (c : char) (s : str) : option (str * str) :=
  match s with
  | [] => None
  | x :: s' =>
      if decide (x = c) then Some ([], s')
      else match split_once c s' with
           | Some (a, b) => Some (x :: a, b)
           | None => None
           end
  end.

(** [s.parse()] of an unsigned integer up to [max]. *)
Definition parse_uint (max : Z) (s : str) : option Z :=
  let digits := match s with c :: s' => if bool_decide (c = PLUS) then s' else s | [] => s end in
  if bool_decide (digits = []) || negb (forallb is_ascii_digit digits) then None
  else
    let n := foldl (λ acc c, acc * 10 + (Z.of_N c - 48))%Z 0%Z digits in
    if (n <=? max)%Z then Some n else None.

(** [s.contains(sub)]. *)
Fixpoint str_contains (s sub : str) : bool :=
  starts_with s sub || match s with [] => false | _ :: s' => str_contains s' sub end.

(** [[..].contains(&s)], and the patterns of a [matches!] on string literals. *)
Definition one_of (s : str) (l : list str) : bool := bool_decide (s ∈ l).

(** ** Laws *)

Lemma drop_while_skip {A} (p : A → bool) l :
  (∀ x, head l = Some x → p x = false) → drop_while p l = l.
Proof. destruct l as [|x l]; cbn; [done|]. intros H. by rewrite H. Qed.

Lemma drop_while_suffix {A} (p : A → bool) l :
  ∃ l', l = l' ++ drop_while p l ∧ Forall (λ x, p x = true) l'.
Proof.
  induction l as [|x l (l' & Hl & Hp)]; cbn.
  - by exists [].
  - destruct (p x) eqn:E.
    + exists (x :: l'). cbn. split; [congruence|by constructor].
    + exists []. split; [done|constructor].
Qed.

Lemma drop_while_head {A} (p : A → bool) l x :
  head (drop_while p l) = Some x → p x = false.
Proof.
  induction l as [|y l IH]; cbn; [done|].
  destruct (p y) eqn:E; [apply IH|]. cbn. naive_solver.
Qed.

Lemma strip_prefix_Some p s r : strip_prefix p s = Some r ↔ s = p ++ r.
Proof.
  revert s. induction p as [|x p IH]; intros s; cbn; [naive_solver|].
  destruct s as [|y s]; [naive_solver|].
  case_decide; [subst; rewrite IH; naive_solver|naive_solver].
Qed.

Lemma strip_prefix_app p s : strip_prefix p (p ++ s) = Some s.
Proof. by apply strip_prefix_Some. Qed.

Lemma starts_with_true s p : starts_with s p = true ↔ ∃ r, s = p ++ r.
Proof.
  unfold starts_with. destruct (strip_prefix p s) as [r|] eqn:E.
  - apply strip_prefix_Some in E. naive_solver.
  - split; [done|]. intros [r Hr]. apply strip_prefix_Some in Hr. congruence.
Qed.

Lemma strip_suffix_Some p s r : strip_suffix p s = Some r ↔ s = r ++ p.
Proof.
  unfold strip_suffix. rewrite fmap_Some. split.
  - intros (x & Hx & ->). apply strip_prefix_Some in Hx.
    apply (f_equal reverse) in Hx. by rewrite reverse_app, !reverse_involutive in Hx.
  - intros ->. exists (reverse r). rewrite reverse_involutive. split; [|done].
    apply strip_prefix_Some. by rewrite reverse_app.
Qed.

Lemma strip_suffix_None p s : strip_suffix p s = None ↔ ∀ r, s ≠ r ++ p.
Proof.
  destruct (strip_suffix p s) as [r|] eqn:E.
  - apply strip_suffix_Some in E. naive_solver.
  - split; [|done]. intros _ r Hr. apply strip_suffix_Some in Hr. congruence.
Qed.

Lemma ends_with_true s p : ends_with s p = true ↔ ∃ r, s = r ++ p.
Proof.
  unfold ends_with. destruct (strip_suffix p s) as [r|] eqn:E.
  - apply strip_suffix_Some in E. naive_solver.
  - rewrite strip_suffix_None in E. naive_solver.
Qed.

(** *** Trimming *)

(** A string that trimming leaves alone: no white space at either end. *)
Definition trimmed (s : str) : Prop :=
  (∀ c, head s = Some c → is_whitespace c = false) ∧
  (∀ c, last s = Some c → is_whitespace c = false).

Lemma head_reverse {A} (l : list A) : head (reverse l) = last l.
Proof.
  destruct l as [|x l] using rev_ind; [done|].
  by rewrite reverse_snoc, last_snoc.
Qed.

Lemma trim_end_last s c : last (trim_end s) = Some c → is_whitespace c = false.
Proof.
  unfold trim_end. rewrite <-head_reverse, reverse_involutive.
  apply drop_while_head.
Qed.

Lemma trim_end_prefix s : ∃ w, s = trim_end s ++ w ∧ Forall (λ c, is_whitespace c = true) w.
Proof.
  unfold trim_end.
  destruct (drop_while_suffix is_whitespace (reverse s)) as (l' & Hl & Hw).
  exists (reverse l'). split.
  - rewrite <-reverse_app, <-Hl. by rewrite reverse_involutive.
  - by apply Forall_reverse.
Qed.

Lemma trim_start_suffix s : ∃ w, s = w ++ trim_start s ∧ Forall (λ c, is_whitespace c = true) w.
Proof. apply drop_while_suffix. Qed.

Lemma trim_trimmed s : trimmed (trim s).
Proof.
  unfold trimmed, trim. split; intros c Hc.
  - destruct (trim_end_prefix (trim_start s)) as (w & Hs & _).
    apply (drop_while_head is_whitespace s).
    change (head (trim_start s) = Some c). rewrite Hs.
    destruct (trim_end (trim_start s)); [done|by cbn in *].
  - by apply (trim_end_last (trim_start s)).
Qed.

Lemma trim_id s : trimmed s → trim s = s.
Proof.
  intros [Hh Hl]. unfold trim, trim_end, trim_start.
  rewrite (drop_while_skip _ s Hh).
  rewrite drop_while_skip; [by rewrite reverse_involutive|].
  intros c. rewrite head_reverse. apply Hl.
Qed.

Lemma trim_idemp s : trim (trim s) = trim s.
Proof. apply trim_id, trim_trimmed. Qed.

Lemma trimmed_trim s : trim s = s ↔ trimmed s.
Proof. split; [intros <-; apply trim_trimmed|apply trim_id]. Qed.

Lemma trimmed_app p s :
  (∀ c, head p = Some c → is_whitespace c = false) → p ≠ [] →
  trimmed s → s ≠ [] → trimmed (p ++ s).
Proof.
  intros Hp Hne [_ Hs] Hsne. split.
  - destruct p; [done|]. apply Hp.
  - destruct s as [|x s _] using rev_ind; [done|].
    rewrite app_assoc, last_snoc. rewrite last_snoc in Hs. done.
Qed.

(** *** Lines *)

(** A line as [str::lines] yields it and as [join] can put it back. *)
Definition clean_line (l : str) : Prop := LF ∉ l ∧ last l ≠ Some CR.

Lemma split_inclusive_app c l s :
  c ∉ l → split_inclusive c (l ++ [c] ++ s) = (l ++ [c]) :: split_inclusive c s.
Proof.
  induction l as [|x l IH]; intros Hl.
  - change ([] ++ [c] ++ s) with (c :: s). cbn [split_inclusive].
    by rewrite decide_True.
  - change ((x :: l) ++ ([c] ++ s)) with (x :: (l ++ ([c] ++ s))). cbn [split_inclusive].
    apply not_elem_of_cons in Hl as [? Hl]. rewrite decide_False by done.
    by rewrite IH.
Qed.

Lemma split_inclusive_last c l :
  c ∉ l → l ≠ [] → split_inclusive c l = [l].
Proof.
  induction l as [|x l IH]; intros Hl Hne; [done|]. cbn [split_inclusive].
  apply not_elem_of_cons in Hl as [? Hl]. rewrite decide_False by done.
  destruct l as [|y l]; [done|]. by rewrite IH.
Qed.

Lemma strip_line_clean_LF l : clean_line l → strip_line (l ++ [LF]) = l.
Proof.
  intros [_ Hl]. unfold strip_line.
  rewrite (proj2 (strip_suffix_Some [LF] _ l) eq_refl).
  destruct (strip_suffix [CR] l) as [r|] eqn:E; [|done].
  apply strip_suffix_Some in E. subst. by rewrite last_snoc in Hl.
Qed.

Lemma strip_line_clean l : clean_line l → strip_line l = l.
Proof.
  intros [Hl _]. unfold strip_line.
  destruct (strip_suffix [LF] l) as [r|] eqn:E; [|done].
  apply strip_suffix_Some in E. subst. set_solver.
Qed.

Lemma lines_join ls :
  Forall clean_line ls → (∀ l, last ls = Some l → l ≠ []) →
  lines (join [LF] ls) = ls.
Proof.
  unfold lines. induction ls as [|l ls IH]; intros Hc Hlast; [done|].
  apply Forall_cons in Hc as [Hl Hc]. destruct ls as [|l' ls].
  - cbn [join]. rewrite split_inclusive_last; [|apply Hl|by apply Hlast].
    cbn. by rewrite strip_line_clean.
  - cbn [join]. rewrite split_inclusive_app by apply Hl. rewrite fmap_cons.
    rewrite strip_line_clean_LF by done. f_equal. by apply IH.
Qed.

Lemma join_cons sep l ls : ls ≠ [] → join sep (l :: ls) = l ++ sep ++ join sep ls.
Proof. by destruct ls. Qed.

Lemma join_snoc sep ls l : ls ≠ [] → join sep (ls ++ [l]) = join sep ls ++ sep ++ l.
Proof.
  induction ls as [|x ls IH]; intros Hne; [done|].
  destruct ls as [|y ls]; [done|].
  rewrite <-app_comm_cons, !join_cons by done. rewrite IH by done.
  by rewrite !app_assoc.
Qed.

(** Two strings with different first characters. *)
Lemma head_ne (s t : str) : head s ≠ head t → s ≠ t.
Proof. congruence. Qed.

Lemma strip_prefix_head_ne p s :
  p ≠ [] → head p ≠ head s → strip_prefix p s = None.
Proof.
  destruct p as [|x p], s as [|y s]; cbn; try done. intros _ H.
  rewrite decide_False; congruence.
Qed.

(** [trim] may be read from either end. *)
Lemma drop_while_app {A} (p : A → bool) l1 l2 :
  Forall (λ x, p x = true) l1 → drop_while p (l1 ++ l2) = drop_while p l2.
Proof. induction 1 as [|x l1 Hx _ IH]; cbn; [done|]. by rewrite Hx. Qed.

Lemma take_while_app {A} (p : A → bool) l1 l2 :
  Forall (λ x, p x = true) l1 → take_while p (l1 ++ l2) = l1 ++ take_while p l2.
Proof. induction 1 as [|x l1 Hx _ IH]; cbn; [done|]. by rewrite Hx, IH. Qed.

Lemma trim_end_app_ws s w :
  Forall (λ c, is_whitespace c = true) w → trim_end (s ++ w) = trim_end s.
Proof.
  intros Hw. unfold trim_end. rewrite reverse_app, drop_while_app; [done|].
  by apply Forall_reverse.
Qed.

Lemma trim_end_fixed s :
  (∀ c, last s = Some c → is_whitespace c = false) → trim_end s = s.
Proof.
  intros H. unfold trim_end. rewrite drop_while_skip; [by rewrite reverse_involutive|].
  intros c. rewrite head_reverse. apply H.
Qed.

Lemma trim_start_end s : trim s = trim_start (trim_end s).
Proof.
  unfold trim. destruct (trim_start_suffix s) as (w & Hs & Hw).
  destruct (trim_end_prefix (trim_start s)) as (v & Ht & Hv).
  assert (trim_end s = trim_end (w ++ trim_end (trim_start s))) as ->.
  { rewrite Hs at 1. rewrite Ht at 1.
    rewrite assoc_L by apply _. by rewrite trim_end_app_ws. }
  destruct (decide (trim_end (trim_start s) = [])) as [->|Hne].
  - rewrite app_nil_r, <-(app_nil_l w), trim_end_app_ws by done. done.
  - rewrite (trim_end_fixed (w ++ _)).
    + unfold trim_start at 2. rewrite drop_while_app by done.
      rewrite drop_while_skip; [done|]. intros c Hc.
      apply (drop_while_head is_whitespace s). fold (trim_start s). rewrite Ht.
      by destruct (trim_end (trim_start s)).
    + intros c. destruct (trim_end (trim_start s)) as [|x l _] eqn:E using rev_ind; [done|].
      rewrite assoc_L, last_snoc by apply _. intros [= ->].
      apply (trim_end_last (trim_start s)). by rewrite E, last_snoc.
Qed.

Lemma trim_of_trim_end s t : trim_end s = trim_end t → trim s = trim t.
Proof. intros H. by rewrite !trim_start_end, H. Qed.

(** *** Splitting a text at its last newline *)

Lemma split_inclusive_nil c s : split_inclusive c s = [] → s = [].
Proof.
  destruct s as [|x s]; [done|]. cbn. case_decide; [done|]. by case_match.
Qed.

Lemma split_inclusive_snoc_LF s t :
  (s = [] ∨ ∃ s', s = s' ++ [LF]) →
  split_inclusive LF (s ++ t) = split_inclusive LF s ++ split_inclusive LF t.
Proof.
  intros [->|[s' ->]]; [done|]. induction s' as [|c s' IH]; [done|].
  cbn [app split_inclusive]. rewrite IH. case_decide; [done|].
  destruct (split_inclusive LF (s' ++ [LF])) eqn:E; [|done].
  apply split_inclusive_nil in E. by destruct s'.
Qed.

Lemma lines_app_LF s t :
  (s = [] ∨ ∃ s', s = s' ++ [LF]) → lines (s ++ t) = lines s ++ lines t.
Proof. intros H. unfold lines. by rewrite split_inclusive_snoc_LF, fmap_app. Qed.

Lemma lines_single l : clean_line l → lines (l ++ [LF]) = [l].
Proof.
  intros Hl. unfold lines. replace (l ++ [LF]) with (l ++ [LF] ++ []) by done.
  rewrite split_inclusive_app by apply Hl. cbn.
  by rewrite strip_line_clean_LF.
Qed.

Lemma lines_join_LF ls :
  Forall clean_line ls → lines (join [LF] ls ++ [LF]) = ls ∨ ls = [].
Proof.
  induction ls as [|l ls IH]; intros Hc; [by right|left].
  apply Forall_cons in Hc as [Hl Hc]. destruct ls as [|l' ls].
  - by apply lines_single.
  - rewrite join_cons by done. rewrite <-!(assoc_L (++)). rewrite (assoc_L (++) l).
    rewrite lines_app_LF by (right; eauto). rewrite lines_single by done.
    destruct (IH Hc) as [->|?]; done.
Qed.

Lemma split_inclusive_pieces s l :
  l ∈ split_inclusive LF s → ∃ b, LF ∉ b ∧ (l = b ++ [LF] ∨ l = b).
Proof.
  revert l. induction s as [|c s IH]; intros l; cbn; [by intros ?%elem_of_nil|].
  case_decide as Hc.
  - subst. intros [->|?]%elem_of_cons; [|by apply IH]. exists []. split; [set_solver|by left].
  - destruct (split_inclusive LF s) as [|m ms] eqn:E.
    + intros ->%list_elem_of_singleton. exists [c]. split; [set_solver|by right].
    + intros [->|?]%elem_of_cons; [|apply IH; by right].
      destruct (IH m) as (b & Hb & Hm); [by left|]. exists (c :: b).
      split; [set_solver|]. destruct Hm as [->| ->]; auto.
Qed.

(** No line contains a newline. *)
Lemma lines_no_LF s l : l ∈ lines s → LF ∉ l.
Proof.
  unfold lines. intros (m & -> & Hm)%list_elem_of_fmap.
  destruct (split_inclusive_pieces s m Hm) as (b & Hb & Hmb). unfold strip_line.
  destruct (strip_suffix [LF] m) as [r|] eqn:E.
  - apply strip_suffix_Some in E. subst m.
    assert (r = b) as -> by (destruct Hmb as [H|H]; [by apply app_inj_tail in H as [H _]|subst; set_solver]).
    destruct (strip_suffix [CR] b) as [r'|] eqn:E'; [|done].
    apply strip_suffix_Some in E'. subst. set_solver.
  - destruct Hmb as [->| ->]; [|done]. rewrite strip_suffix_None in E. by destruct (E b).
Qed.

(** *** [split] and [join] are inverse *)

Lemma split_on_ne c s : split_on c s ≠ [].
Proof. destruct s as [|x s]; cbn; [done|]. case_decide; [done|]. by case_match. Qed.

Lemma join_split c s : join [c] (split_on c s) = s.
Proof.
  induction s as [|x s IH]; cbn; [done|]. pose proof (split_on_ne c s) as Hne.
  case_decide as Hx.
  - subst. rewrite join_cons by done. by rewrite IH.
  - destruct (split_on c s) as [|l ls]; [done|]. rewrite <-IH. by destruct ls.
Qed.

Lemma split_on_pieces c s : Forall (λ l, c ∉ l) (split_on c s).
Proof.
  induction s as [|x s IH]; cbn; [repeat constructor; set_solver|].
  case_decide; [constructor; [set_solver|done]|].
  destruct (split_on c s) as [|l ls]; [repeat constructor; set_solver|].
  apply Forall_cons in IH as [? ?]. constructor; [set_solver|done].
Qed.

Lemma split_on_free c l : c ∉ l → split_on c l = [l].
Proof.
  induction l as [|x l IH]; intros H; cbn; [done|].
  rewrite decide_False by set_solver. by rewrite IH by set_solver.
Qed.

Lemma split_on_app c l s : c ∉ l → split_on c (l ++ [c] ++ s) = l :: split_on c s.
Proof.
  induction l as [|x l IH]; intros H.
  - cbn. by rewrite decide_True.
  - cbn in *. rewrite decide_False by set_solver. by rewrite IH by set_solver.
Qed.

Lemma split_on_join c ls : Forall (λ l, c ∉ l) ls → ls ≠ [] → split_on c (join [c] ls) = ls.
Proof.
  induction 1 as [|l ls Hl Hls IH]; [done|]. intros _. destruct ls as [|l' ls].
  - by apply split_on_free.
  - rewrite join_cons, split_on_app, IH by done. done.
Qed.
