(* ===== verification/MachInt.v ===== *)
(** * Machine integers: saturating arithmetic at a fixed width *)
From S2P Require Import Prelude.
Local Open Scope Z_scope.

Definition USIZE_MAX : Z := 2 ^ 64 - 1.
Definition U64_MAX : Z := 2 ^ 64 - 1.
Definition U32_MAX : Z := 2 ^ 32 - 1.
Definition I64_MAX : Z := 2 ^ 63 - 1.
Definition ISIZE_MAX : Z := 2 ^ 63 - 1.
Definition I64_MIN : Z := - 2 ^ 63.

(** [usize::saturating_add] and [saturating_sub], on the values 0..=[USIZE_MAX]. *)
Definition usat_add (a b : Z) : Z := Z.min (a + b) USIZE_MAX.
Definition usat_sub (a b : Z) : Z := Z.max (a - b) 0.
Definition usat_mul (a b : Z) : Z := Z.min (a * b) USIZE_MAX.

(** [i64::saturating_add]. *)
Definition i64_clamp (a : Z) : Z := Z.max I64_MIN (Z.min a I64_MAX).
Definition isat_add (a b : Z) : Z := i64_clamp (a + b).

(** The length of a slice as a [usize]. *)
Definition zlen {A} (l : list A) : Z := Z.of_nat (length l).

(** ** Laws *)
Lemma zlen_nonneg {A} (l : list A) : 0 ≤ zlen l.
Proof. unfold zlen. lia. Qed.

Lemma zlen_app {A} (l k : list A) : zlen (l ++ k) = zlen l + zlen k.
Proof. unfold zlen. rewrite length_app. lia. Qed.

Lemma zlen_nil {A} : zlen (@nil A) = 0.
Proof. done. Qed.

Lemma zlen_cons {A} (x : A) l : zlen (x :: l) = zlen l + 1.
Proof. unfold zlen. cbn. lia. Qed.

Lemma usat_add_exact a b : a + b ≤ USIZE_MAX → usat_add a b = a + b.
Proof. unfold usat_add. lia. Qed.

(** Clamping commutes with a chain of saturating additions. *)
Lemma usat_add_clamp a b : 0 ≤ b → usat_add (Z.min a USIZE_MAX) b = Z.min (a + b) USIZE_MAX.
Proof. unfold usat_add. lia. Qed.

Lemma usat_sub_exact a b : b ≤ a → usat_sub a b = a - b.
Proof. unfold usat_sub. lia. Qed.

Lemma usat_sub_zero a b : a ≤ b → usat_sub a b = 0.
Proof. unfold usat_sub. lia. Qed.

Lemma i64_clamp_range a : I64_MIN ≤ i64_clamp a ≤ I64_MAX.
Proof. unfold i64_clamp, I64_MIN, I64_MAX. lia. Qed.

Lemma i64_clamp_id a : I64_MIN ≤ a ≤ I64_MAX → i64_clamp a = a.
Proof. unfold i64_clamp. lia. Qed.

(** Saturating sums of non-negative terms are the clamped sum. *)
Lemma isat_add_clamp a b : 0 ≤ a → 0 ≤ b → isat_add (i64_clamp a) b = i64_clamp (a + b).
Proof. unfold isat_add, i64_clamp, I64_MIN, I64_MAX. lia. Qed.

(** Unfolds the saturating operations, for [lia]. *)
Ltac unfold_sat :=
  unfold usat_add, usat_sub, usat_mul, isat_add, i64_clamp, zlen in *;
  unfold USIZE_MAX, U64_MAX, U32_MAX, I64_MAX, ISIZE_MAX, I64_MIN in *.

Create HintDb sat.
#[export] Hint Rewrite @zlen_app @zlen_cons @zlen_nil : sat.
#[export] Hint Resolve zlen_nonneg : sat.
