(* ===== verification/Paths.v ===== *)
(** * Files and paths: what the components use of [std::path] and [std::fs]

    A path is its string (Unix conventions).  The file system is an interface:
    [FileSystem] names the operations of [std::fs] that the sources call and
    [FileSystemLaws] what their documentation promises; [MemFs] is the
    in-memory instance the examples run on. *)
From S2P Require Import Prelude RustStr.


(** [Components] ignores trailing separators and trailing [/.]; on the
    reversed path, a component [.] is dropped when a separator precedes it. *)
Fixpoint trim_trailing_rev (fuel : nat) (r : str) : str :=
  match fuel with
  | 0 => r
  | S fuel' =>
      match r with
      | c :: c' :: r' =>
          if decide (c = SLASH) then trim_trailing_rev fuel' (c' :: r')
          else if decide (c = DOT ∧ c' = SLASH) then trim_trailing_rev fuel' (c' :: r')
          else r
      | _ => r
      end
  end.
Definition trim_trailing (p : str) : str :=
  reverse (trim_trailing_rev (length p) (reverse p)).

(** [Path::parent] *)
Definition path_parent (p : str) : option str :=
  let r := reverse (trim_trailing p) in
  if bool_decide (r = [] ∨ r = [SLASH]) then None
  else
    let dir := drop_while (λ c, negb (bool_decide (c = SLASH))) r in
    Some (trim_trailing (reverse dir)).

(** [Path::file_name]: the last component when it is a normal one. *)
Definition last_component (p : str) : str :=
  reverse (take_while (λ c, negb (bool_decide (c = SLASH))) (reverse (trim_trailing p))).
Definition file_name (p : str) : option str :=
  let name := last_component p in
  if one_of name [[]; [DOT]; [DOT; DOT]] then None else Some name.

(** [rsplit_once] at a dot, as [Path::file_stem] uses it: a name that starts
    with its only dot is its own stem. *)
Definition stem_of (name : str) : str :=
  match drop_while (λ c, negb (bool_decide (c = DOT))) (reverse name) with
  | _ :: (x :: xs) => reverse (x :: xs)
  | _ => name
  end.
Definition file_stem (p : str) : option str := stem_of <$> file_name p.

(** [Path] equality compares components: empty ones are ignored, and [.] too
    except at the start of a relative path. *)
Fixpoint keep_components (at_start : bool) (parts : list str) : list str :=
  match parts with
  | [] => []
  | x :: parts' =>
      if bool_decide (x = []) || (negb at_start && bool_decide (x = [DOT]))
      then keep_components false parts' else x :: keep_components false parts'
  end.
Definition components (p : str) : bool * list str :=
  let root := bool_decide (head p = Some SLASH) in
  (root, keep_components (negb root) (split_on SLASH p)).
Definition path_eq (p q : str) : bool := bool_decide (components p = components q).

Example file_name_examples :
  file_name §"/bin/ls" = Some §"ls" ∧ file_name §"a/." = Some §"a" ∧ file_name §"a/.." = None ∧
  file_name §"/" = None ∧ file_name §"." = None ∧
  file_stem §"/x/a.tar.gz" = Some §"a.tar" ∧ file_stem §".bashrc" = Some §".bashrc" ∧
  file_stem §"b." = Some §"b" ∧ path_eq §"./a" §"a" = false ∧ path_eq §"a//b/." §"a/b" = true.
Proof. by vm_compute. Qed.

Example path_parent_examples :
  path_parent §"a/b" = Some §"a" ∧ path_parent §"a" = Some [] ∧
  path_parent §"/a" = Some §"/" ∧ path_parent §"/" = None ∧ path_parent [] = None ∧
  path_parent §"a/./b/" = Some §"a" ∧ path_parent §"x/.." = Some §"x".
Proof. by vm_compute. Qed.

(** [Path::is_absolute] and [Path::join] *)
Definition is_absolute (p : str) : bool := bool_decide (head p = Some SLASH).
Definition path_join (base p : str) : str :=
  if is_absolute p then p
  else if bool_decide (base = [] ∨ last base = Some SLASH) then base ++ p
  else base ++ [SLASH] ++ p.

Example path_join_examples :
  path_join §"/w" §"a/b" = §"/w/a/b" ∧ path_join §"/w/" §"a" = §"/w/a" ∧
  path_join §"/w" §"/etc/x" = §"/etc/x" ∧ path_join [] §"a" = §"a".
Proof. by vm_compute. Qed.

(** ** The file system *)

Inductive io_error := IoErr (message : str).

Class FileSystem (FS : Type) := {
  fs_read_to_string : FS → str → result io_error str;
  fs_write : FS → str → str → FS * result io_error unit;
  fs_remove_file : FS → str → FS * result io_error unit;
  fs_create_dir_all : FS → str → FS * result io_error unit;
  (** two paths that may name the same file *)
  same_file : str → str → Prop;
}.

Class FileSystemLaws (FS : Type) `{FileSystem FS} := {
  same_file_refl p : same_file p p;
  write_read fs p c fs' :
    fs_write fs p c = (fs', Ok tt) → fs_read_to_string fs' p = Ok c;
  write_frame fs p c fs' r q :
    fs_write fs p c = (fs', r) → ¬ same_file q p →
    fs_read_to_string fs' q = fs_read_to_string fs q;
  remove_read fs p fs' :
    fs_remove_file fs p = (fs', Ok tt) → ∃ e, fs_read_to_string fs' p = Err e;
  remove_frame fs p fs' r q :
    fs_remove_file fs p = (fs', r) → ¬ same_file q p →
    fs_read_to_string fs' q = fs_read_to_string fs q;
  create_dir_all_frame fs p fs' r q :
    fs_create_dir_all fs p = (fs', r) → fs_read_to_string fs' q = fs_read_to_string fs q;
}.

(** ** An in-memory instance *)
Module MemFs.
Record memfs := { files : gmap str str; dirs : gset str }.

Definition has_parent (fs : memfs) (p : str) : bool :=
  match path_parent p with
  | None => false
  | Some d => bool_decide (d = [] ∨ d ∈ dirs fs)
  end.

Definition read (fs : memfs) (p : str) : result io_error str :=
  match files fs !! p with Some c => Ok c | None => Err (IoErr §"not found") end.

Definition write (fs : memfs) (p c : str) : memfs * result io_error unit :=
  if has_parent fs p && bool_decide (p ∉ dirs fs)
  then ({| files := <[p := c]> (files fs); dirs := dirs fs |}, Ok tt)
  else (fs, Err (IoErr §"cannot write")).

Definition remove (fs : memfs) (p : str) : memfs * result io_error unit :=
  match files fs !! p with
  | Some _ => ({| files := delete p (files fs); dirs := dirs fs |}, Ok tt)
  | None => (fs, Err (IoErr §"not found"))
  end.

Definition create_dir_all (fs : memfs) (p : str) : memfs * result io_error unit :=
  match files fs !! p with
  | Some _ => (fs, Err (IoErr §"not a directory"))
  | None => ({| files := files fs; dirs := {[p]} ∪ dirs fs |}, Ok tt)
  end.

#[global] Instance memfs_FileSystem : FileSystem memfs := {
  fs_read_to_string := read;
  fs_write := write;
  fs_remove_file := remove;
  fs_create_dir_all := create_dir_all;
  same_file := eq;
}.

#[global] Instance memfs_laws : FileSystemLaws memfs.
Proof.
  split; cbn; unfold read, write, remove, create_dir_all; intros;
    repeat case_match; simplify_eq; cbn in *; simplify_map_eq; eauto.
Qed.
End MemFs.
