(* ===== verification/Seek.v ===== *)
(** * Locating a block of lines: [crates/apply-patch/src/seek_sequence.rs] *)
From S2P Require Import Prelude RustStr.

(** The inner [fn normalise]: common Unicode punctuation becomes ASCII. *)
Definition normalise_char (c : char) : char :=
  if bool_decide (c ∈ [0x2010; 0x2011; 0x2012; 0x2013; 0x2014; 0x2015; 0x2212]%N) then 45%N
  else if bool_decide (c ∈ [0x2018; 0x2019; 0x201A; 0x201B]%N) then 39%N
  else if bool_decide (c ∈ [0x201C; 0x201D; 0x201E; 0x201F]%N) then 34%N
  else if bool_decide (c ∈ [0xA0; 0x2002; 0x2003; 0x2004; 0x2005; 0x2006; 0x2007;
                            0x2008; 0x2009; 0x200A; 0x202F; 0x205F; 0x3000]%N) then 32%N
  else c.
Definition normalise (s : str) : str := normalise_char <$> trim s.

(** The body of one pass: every pattern line agrees, under [key], with the line
    of the file at the same offset from [i].  An index out of range would panic
    in the source; the callers keep [i + len pattern <= len lines]. *)
Fixpoint block_matches (key : str → str) (ls pattern : list str) (i : nat) : bool :=
  match pattern with
  | [] => true
  | pat :: rest =>
      match ls !! i with
      | Some l => bool_decide (key l = key pat) && block_matches key ls rest (S i)
      | None => false
      end
  end.

(** The four passes, from the strictest to the most permissive. *)
Definition seek_keys : list (str → str) := [id; trim_end; trim; normalise].

Fixpoint seek_passes (keys : list (str → str)) (ls pattern : list str) (lo hi : nat)
  : option nat :=
  match keys with
  | [] => None
  | key :: keys' =>
      match find_range (block_matches key ls pattern) lo hi with
      | Some i => Some i
      | None => seek_passes keys' ls pattern lo hi
      end
  end.

Definition seek_start (ls pattern : list str) (start : nat) (eof : bool) : nat :=
  if eof && bool_decide (length pattern ≤ length ls)
  then length ls - length pattern else start.

Definition seek_sequence (ls pattern : list str) (start : nat) (eof : bool) : option nat :=
  if bool_decide (pattern = []) then Some start
  else if bool_decide (length ls < length pattern) then None
  else seek_passes seek_keys ls pattern (seek_start ls pattern start eof)
         (length ls - length pattern).

(** ** Specification *)

(** The block of [ls] at [i] agrees with [pattern] once both are read through
    [key]. *)
Definition occurs_at (key : str → str) (ls pattern : list str) (i : nat) : Prop :=
  key <$> take (length pattern) (drop i ls) = key <$> pattern.

Lemma block_matches_spec key ls pattern i :
  block_matches key ls pattern i = true ↔ occurs_at key ls pattern i.
Proof.
  unfold occurs_at. revert i. induction pattern as [|pat rest IH]; intros i; cbn; [done|].
  destruct (ls !! i) as [l|] eqn:Hi.
  - rewrite (drop_S _ _ _ Hi). cbn. rewrite andb_true_iff, bool_decide_eq_true, IH.
    split; [intros [-> ->]; done|intros [= -> ->]; done].
  - apply lookup_ge_None in Hi. rewrite drop_ge by done. by cbn.
Qed.

Lemma block_matches_false key ls pattern i :
  block_matches key ls pattern i = false ↔ ¬ occurs_at key ls pattern i.
Proof. by rewrite <-block_matches_spec, not_true_iff_false. Qed.

(** Every pass accepts what the stricter passes accept. *)
Lemma occurs_at_coarser f g ls pattern i :
  (∀ s t : str, f s = f t → g s = g t) → occurs_at f ls pattern i → occurs_at g ls pattern i.
Proof.
  unfold occurs_at. intros Hfg. generalize (take (length pattern) (drop i ls)) as l.
  induction pattern as [|p ps IH]; intros [|x l] H; try done; cbn in *.
  injection H as Hx Hl. rewrite (Hfg _ _ Hx). f_equal. by apply IH.
Qed.

Lemma normalise_occurs key ls pattern i :
  key ∈ seek_keys → occurs_at key ls pattern i → occurs_at normalise ls pattern i.
Proof.
  intros Hk. apply occurs_at_coarser. intros s t. unfold seek_keys in Hk.
  repeat (apply elem_of_cons in Hk; destruct Hk as [->|Hk]);
    [| | | |by apply elem_of_nil in Hk].
  - cbn. by intros ->.
  - intros H%trim_of_trim_end. unfold normalise. by rewrite H.
  - intros H. unfold normalise. by rewrite H.
  - done.
Qed.

Lemma seek_passes_Some keys ls pattern lo hi i :
  seek_passes keys ls pattern lo hi = Some i ↔
  ∃ k key, keys !! k = Some key ∧ lo ≤ i ≤ hi ∧ occurs_at key ls pattern i
    ∧ (∀ j, lo ≤ j < i → ¬ occurs_at key ls pattern j)
    ∧ (∀ k' key' j, k' < k → keys !! k' = Some key' → lo ≤ j ≤ hi →
         ¬ occurs_at key' ls pattern j).
Proof.
  setoid_rewrite <-block_matches_false. setoid_rewrite <-block_matches_spec.
  induction keys as [|key keys IH]; cbn.
  - split; [done|]. intros (k & key & H & _). by rewrite lookup_nil in H.
  - destruct (find_range _ lo hi) as [i'|] eqn:E.
    + apply find_range_Some in E as (Hi & Hm & Hfirst). split.
      * intros [= <-]. exists 0, key. split_and!; try done; intros; lia.
      * intros ([|k] & key0 & Hk & Hi0 & Hm0 & Hf0 & Hno); cbn in Hk.
        -- simplify_eq. f_equal. destruct (Nat.lt_trichotomy i i') as [Hlt|[->|Hlt]]; [|done|].
           ++ rewrite Hfirst in Hm0; [done|lia].
           ++ rewrite Hf0 in Hm; [done|lia].
        -- rewrite (Hno 0 key i') in Hm; [done|lia|done|lia].
    + rewrite find_range_None in E. rewrite IH. split.
      * intros (k & key0 & Hk & ? & ? & ? & Hno). exists (S k), key0. split_and!; try done; try lia.
        intros [|k'] key' j Hk' Hkey Hj; cbn in Hkey; [simplify_eq; by apply E|].
        eapply Hno; [|done|done]. lia.
      * intros ([|k] & key0 & Hk & Hi & Hm & Hf & Hno); cbn in Hk.
        { simplify_eq. rewrite E in Hm; [done|lia]. }
        exists k, key0. split_and!; try done; try lia.
        intros k' key' j Hk' Hkey Hj. apply (Hno (S k') key' j); [lia|done|done].
Qed.

Lemma seek_passes_None keys ls pattern lo hi :
  seek_passes keys ls pattern lo hi = None ↔
  ∀ key j, key ∈ keys → lo ≤ j ≤ hi → ¬ occurs_at key ls pattern j.
Proof.
  setoid_rewrite <-block_matches_false. induction keys as [|key keys IH]; cbn.
  - split; [|done]. by intros _ ? ? ?%elem_of_nil.
  - destruct (find_range _ lo hi) as [i'|] eqn:E.
    + apply find_range_Some in E as (Hi & Hm & _). split; [done|].
      intros H. rewrite H in Hm; [done|by left|lia].
    + rewrite find_range_None in E. rewrite IH. split.
      * intros H key' j [->|Hk]%elem_of_cons Hj; [by apply E|by apply H].
      * intros H key' j Hk. apply H. by right.
Qed.

Lemma seek_sequence_first ls pattern start eof i :
  pattern ≠ [] →
  seek_sequence ls pattern start eof = Some i ↔
  length pattern ≤ length ls ∧
  let lo := if eof then length ls - length pattern else start in
  ∃ k key, seek_keys !! k = Some key
    ∧ lo ≤ i ≤ length ls - length pattern ∧ occurs_at key ls pattern i
    ∧ (∀ j, lo ≤ j < i → ¬ occurs_at key ls pattern j)
    ∧ (∀ k' key' j, k' < k → seek_keys !! k' = Some key' →
         lo ≤ j ≤ length ls - length pattern → ¬ occurs_at key' ls pattern j).
Proof.
  intros Hne. unfold seek_sequence, seek_start. rewrite bool_decide_false by done.
  case_bool_decide as Hlen; [split; [done|]; intros [? _]; lia|].
  rewrite bool_decide_true, andb_true_r by lia. rewrite seek_passes_Some.
  split; [intros H; split; [lia|exact H]|by intros [_ H]].
Qed.

(** Functional specification of [seek_sequence] for a non-empty pattern.
    The result is [Some i] exactly when the pattern fits into the file, [i] is
    the first index of the search window at which the block agrees under some
    comparison of the list exact / trailing blanks / both-side blanks /
    normalised punctuation, and no stricter comparison has any match in the
    window.  With [eof] the window is the single last position. *)
Theorem seek_sequence_spec ls pattern start eof i :
  pattern ≠ [] →
  seek_sequence ls pattern start eof = Some i ↔
  length pattern ≤ length ls ∧
  let lo := if eof then length ls - length pattern else start in
  ∃ k key, seek_keys !! k = Some key
    ∧ lo ≤ i ≤ length ls - length pattern ∧ occurs_at key ls pattern i
    ∧ (∀ j, lo ≤ j < i → ¬ occurs_at key ls pattern j)
    ∧ (∀ k' key' j, k' < k → seek_keys !! k' = Some key' →
         lo ≤ j ≤ length ls - length pattern → ¬ occurs_at key' ls pattern j).
Proof. apply seek_sequence_first. Qed.

Lemma seek_sequence_None ls pattern start eof :
  pattern ≠ [] →
  seek_sequence ls pattern start eof = None ↔
  length ls < length pattern ∨
  ∀ j, (if eof then length ls - length pattern else start) ≤ j ≤ length ls - length pattern →
    ¬ occurs_at normalise ls pattern j.
Proof.
  intros Hne. unfold seek_sequence, seek_start. rewrite bool_decide_false by done.
  case_bool_decide as Hlen; [by split; [left|]|].
  rewrite bool_decide_true, andb_true_r by lia. rewrite seek_passes_None. split.
  - intros H. right. intros j Hj. apply H; [|done]. by do 3 right; left.
  - intros [?|H]; [lia|]. intros key j Hk Hj Hocc. apply (H j Hj).
    by eapply normalise_occurs.
Qed.

(** What the callers rely on. *)
Lemma seek_sequence_bounds ls pattern start eof i :
  seek_sequence ls pattern start eof = Some i → pattern ≠ [] →
  i + length pattern ≤ length ls ∧ (eof = false → start ≤ i).
Proof.
  intros H Hne. apply seek_sequence_first in H as (Hlen & k & key & _ & Hi & _); [|done].
  split; [destruct eof; lia|]. intros ->. lia.
Qed.

Lemma seek_sequence_nil ls start eof : seek_sequence ls [] start eof = Some start.
Proof. done. Qed.

Lemma seek_sequence_spec_witness :
  [§"b "] ≠ [] ∧ seek_sequence [§"a"; §"b"; §"b "; §"b"] [§"b "] 0 false = Some 2.
Proof.
  split; [done|]. apply (seek_sequence_spec [§"a"; §"b"; §"b "; §"b"] [§"b "] 0 false 2); [done|].
  split; [cbn; lia|]. exists 0, id. split_and!; [done|cbn; lia|cbn; lia|done| |intros; lia].
  intros j Hj. rewrite <-block_matches_false. destruct j as [|[|]]; [done|done|lia].
Defined.
