(* ===== verification/PatchParser.v ===== *)
(** * The patch format: [crates/apply-patch/src/parser.rs]

    Data ([Hunk], [UpdateFileChunk], [ParseError]), the parser as written, and
    the documented grammar as a printer ([Grammar]).  Loops over the remaining
    lines take fuel: [None] means that the fuel ran out, and
    [parse_hunks_enough_fuel] shows that it never does. *)
From S2P Require Import Prelude RustStr.

Definition BEGIN_PATCH_MARKER := §"*** Begin Patch".
Definition END_PATCH_MARKER := §"*** End Patch".
Definition ADD_FILE_MARKER := §"*** Add File: ".
Definition DELETE_FILE_MARKER := §"*** Delete File: ".
Definition UPDATE_FILE_MARKER := §"*** Update File: ".
Definition MOVE_TO_MARKER := §"*** Move to: ".
Definition EOF_MARKER := §"*** End of File".
Definition CHANGE_CONTEXT_MARKER := §"@@ ".
Definition EMPTY_CHANGE_CONTEXT_MARKER := §"@@".
Definition PARSE_IN_STRICT_MODE := false.

Inductive ParseError :=
| InvalidPatchError (message : str)
| InvalidHunkError (message : str) (line_number : nat).

Record UpdateFileChunk := {
  change_context : option str;
  old_lines : list str;
  new_lines : list str;
  is_end_of_file : bool;
}.

Inductive Hunk :=
| AddFile (path contents : str)
| DeleteFile (path : str)
| UpdateFile (path : str) (move_path : option str) (chunks : list UpdateFileChunk).

Record ApplyPatchArgs := {
  patch : str;
  hunks : list Hunk;
  workdir : option str;
}.

Inductive ParseMode := Strict | Lenient.

(** ** Boundaries *)

Definition check_start_and_end_lines_strict (first_line last_line : option str)
  : result ParseError unit :=
  match trim <$> first_line, trim <$> last_line with
  | Some first, last =>
      if bool_decide (first = BEGIN_PATCH_MARKER)
      then if bool_decide (last = Some END_PATCH_MARKER) then Ok tt
           else Err (InvalidPatchError §"The last line of the patch must be '*** End Patch'")
      else Err (InvalidPatchError §"The first line of the patch must be '*** Begin Patch'")
  | None, _ => Err (InvalidPatchError §"The last line of the patch must be '*** End Patch'")
  end.

(** [[] => (None, None)], [[first] => (first, first)], [[first, .., last]]:
    in each case the head and the last element. *)
Definition check_patch_boundaries_strict (ls : list str) : result ParseError unit :=
  check_start_and_end_lines_strict (head ls) (last ls).

Definition HEREDOC_OPENERS : list str :=
  [§"<<EOF"; §"<<'EOF'"; §"<<" ++ [34%N] ++ §"EOF" ++ [34%N]].

Definition check_patch_boundaries_lenient (original_lines : list str)
    (original_parse_error : ParseError) : result ParseError (list str) :=
  match original_lines with
  | first :: (_ :: _) as tl =>
      if bool_decide (first ∈ HEREDOC_OPENERS)
         && last_is (λ l, ends_with l §"EOF") original_lines
         && bool_decide (4 ≤ length original_lines)
      then
        let inner_lines := take (length original_lines - 2) (drop 1 original_lines) in
        check_patch_boundaries_strict inner_lines ≫= λ _, Ok inner_lines
      else Err original_parse_error
  | _ => Err original_parse_error
  end.

(** ** One chunk of an update *)

Definition push_old (l : str) (c : UpdateFileChunk) : UpdateFileChunk :=
  {| change_context := change_context c; old_lines := old_lines c ++ [l];
     new_lines := new_lines c; is_end_of_file := is_end_of_file c |}.
Definition push_new (l : str) (c : UpdateFileChunk) : UpdateFileChunk :=
  {| change_context := change_context c; old_lines := old_lines c;
     new_lines := new_lines c ++ [l]; is_end_of_file := is_end_of_file c |}.
Definition set_eof (c : UpdateFileChunk) : UpdateFileChunk :=
  {| change_context := change_context c; old_lines := old_lines c;
     new_lines := new_lines c; is_end_of_file := true |}.

Definition ERR_NO_LINES := §"Update hunk does not contain any lines".

Definition err_unexpected_line (l : str) : str :=
  §"Unexpected line found in update hunk: '" ++ l ++
  §"'. Every line should start with ' ' (context line), '+' (added line), or '-' (removed line)".

(** The [for line in &lines[start_index..]] loop. *)
Fixpoint chunk_lines_loop (line_number : nat) (ls : list str) (parsed_lines : nat)
    (chunk : UpdateFileChunk) : result ParseError (UpdateFileChunk * nat) :=
  match ls with
  | [] => Ok (chunk, parsed_lines)
  | line :: ls' =>
      if bool_decide (line = EOF_MARKER) then
        if bool_decide (parsed_lines = 0)
        then Err (InvalidHunkError ERR_NO_LINES (line_number + 1))
        else Ok (set_eof chunk, S parsed_lines)
      else
        match line with
        | [] => chunk_lines_loop line_number ls' (S parsed_lines)
                  (push_new [] (push_old [] chunk))
        | c :: rest =>
            if bool_decide (c = SP) then
              chunk_lines_loop line_number ls' (S parsed_lines)
                (push_new rest (push_old rest chunk))
            else if bool_decide (c = PLUS) then
              chunk_lines_loop line_number ls' (S parsed_lines) (push_new rest chunk)
            else if bool_decide (c = MINUS) then
              chunk_lines_loop line_number ls' (S parsed_lines) (push_old rest chunk)
            else if bool_decide (parsed_lines = 0) then
              Err (InvalidHunkError (err_unexpected_line line) (line_number + 1))
            else Ok (chunk, parsed_lines)
        end
  end.

Definition empty_chunk (ctx : option str) : UpdateFileChunk :=
  {| change_context := ctx; old_lines := []; new_lines := []; is_end_of_file := false |}.

Definition chunk_header (line0 : str) (line_number : nat) (allow_missing_context : bool)
  : result ParseError (option str * nat) :=
  if bool_decide (line0 = EMPTY_CHANGE_CONTEXT_MARKER) then Ok (None, 1)
  else match strip_prefix CHANGE_CONTEXT_MARKER line0 with
       | Some context => Ok (Some context, 1)
       | None =>
           if allow_missing_context then Ok (None, 0)
           else Err (InvalidHunkError
                  (§"Expected update hunk to start with a @@ context marker, got: '"
                   ++ line0 ++ §"'") line_number)
       end.

Definition parse_update_file_chunk (ls : list str) (line_number : nat)
    (allow_missing_context : bool) : result ParseError (UpdateFileChunk * nat) :=
  match ls with
  | [] => Err (InvalidHunkError ERR_NO_LINES line_number)
  | line0 :: _ =>
      '(ctx, start_index) ← chunk_header line0 line_number allow_missing_context;
      if bool_decide (length ls ≤ start_index)
      then Err (InvalidHunkError ERR_NO_LINES (line_number + 1))
      else
        '(chunk, parsed_lines) ←
          chunk_lines_loop line_number (drop start_index ls) 0 (empty_chunk ctx);
        Ok (chunk, parsed_lines + start_index)
  end.

(** ** One hunk *)

(** The [for add_line in &lines[1..]] loop of [*** Add File]. *)
Fixpoint add_file_loop (ls : list str) (contents : str) (parsed_lines : nat) : str * nat :=
  match ls with
  | [] => (contents, parsed_lines)
  | add_line :: ls' =>
      match strip_prefix [PLUS] add_line with
      | Some line_to_add => add_file_loop ls' (contents ++ line_to_add ++ [LF]) (S parsed_lines)
      | None => (contents, parsed_lines)
      end
  end.

(** The [while !remaining_lines.is_empty()] loop of [*** Update File]. *)
Fixpoint update_chunks_loop (fuel line_number : nat) (remaining_lines : list str)
    (parsed_lines : nat) (chunks : list UpdateFileChunk)
  : option (result ParseError (list UpdateFileChunk * nat)) :=
  match remaining_lines with
  | [] => Some (Ok (chunks, parsed_lines))
  | line :: rest =>
      match fuel with
      | 0 => None
      | S fuel' =>
          if bool_decide (trim line = []) then
            update_chunks_loop fuel' line_number rest (S parsed_lines) chunks
          else if starts_with line §"***" then Some (Ok (chunks, parsed_lines))
          else
            match parse_update_file_chunk remaining_lines (line_number + parsed_lines)
                    (bool_decide (chunks = [])) with
            | Err e => Some (Err e)
            | Ok (chunk, chunk_lines) =>
                update_chunks_loop fuel' line_number (drop chunk_lines remaining_lines)
                  (parsed_lines + chunk_lines) (chunks ++ [chunk])
            end
      end
  end.

Definition err_bad_header (first_line : str) : str :=
  §"'" ++ first_line ++
  §"' is not a valid hunk header. Valid hunk headers: '*** Add File: {path}', '*** Delete File: {path}', '*** Update File: {path}'".

Definition parse_update_hunk (fuel : nat) (path : str) (rest : list str) (line_number : nat)
  : option (result ParseError (Hunk * nat)) :=
  let move_path := head rest ≫= strip_prefix MOVE_TO_MARKER in
  let '(remaining_lines, parsed_lines) :=
    match move_path with Some _ => (drop 1 rest, 2) | None => (rest, 1) end in
  r ← update_chunks_loop fuel line_number remaining_lines parsed_lines [];
  Some (
    '(chunks, parsed_lines) ← r;
    if bool_decide (chunks = []) then
      Err (InvalidHunkError
             (§"Update file hunk for path '" ++ path ++ §"' is empty") line_number)
    else Ok (UpdateFile path move_path chunks, parsed_lines)).

(** [lines[0]] is the first line; [parse_hunks] only calls it on a non-empty slice. *)
Definition parse_one_hunk (fuel : nat) (line0 : str) (rest : list str) (line_number : nat)
  : option (result ParseError (Hunk * nat)) :=
  let first_line := trim line0 in
  match strip_prefix ADD_FILE_MARKER first_line with
  | Some path =>
      let '(contents, parsed_lines) := add_file_loop rest [] 1 in
      Some (Ok (AddFile path contents, parsed_lines))
  | None =>
  match strip_prefix DELETE_FILE_MARKER first_line with
  | Some path => Some (Ok (DeleteFile path, 1))
  | None =>
  match strip_prefix UPDATE_FILE_MARKER first_line with
  | Some path => parse_update_hunk fuel path rest line_number
  | None => Some (Err (InvalidHunkError (err_bad_header first_line) line_number))
  end end end.

(** The [while !remaining_lines.is_empty()] loop of [parse_patch_text]. *)
Fixpoint parse_hunks (fuel : nat) (remaining_lines : list str) (line_number : nat)
    (hunks : list Hunk) : option (result ParseError (list Hunk)) :=
  match remaining_lines with
  | [] => Some (Ok hunks)
  | line0 :: rest =>
      match fuel with
      | 0 => None
      | S fuel' =>
          match parse_one_hunk fuel line0 rest line_number with
          | None => None
          | Some (Err e) => Some (Err e)
          | Some (Ok (hunk, hunk_lines)) =>
              parse_hunks fuel' (drop hunk_lines remaining_lines)
                (line_number + hunk_lines) (hunks ++ [hunk])
          end
      end
  end.

Definition select_lines (ls : list str) (mode : ParseMode) : result ParseError (list str) :=
  match check_patch_boundaries_strict ls with
  | Ok _ => Ok ls
  | Err e => match mode with
             | Strict => Err e
             | Lenient => check_patch_boundaries_lenient ls e
             end
  end.

(** The fuel is the number of lines. *)
Definition parse_patch_text (text : str) (mode : ParseMode)
  : option (result ParseError ApplyPatchArgs) :=
  match select_lines (lines (trim text)) mode with
  | Err e => Some (Err e)
  | Ok ls =>
      let last_line_index := length ls - 1 in
      r ← parse_hunks (length ls) (drop 1 (take last_line_index ls)) 2 [];
      Some (hs ← r; Ok {| patch := join [LF] ls; hunks := hs; workdir := None |})
  end.

Definition parse_patch (text : str) : option (result ParseError ApplyPatchArgs) :=
  parse_patch_text text (if PARSE_IN_STRICT_MODE then Strict else Lenient).

(** ** Totality: the fuel is enough *)

Lemma chunk_lines_loop_count ln ls n c c' n' :
  chunk_lines_loop ln ls n c = Ok (c', n') →
  n ≤ n' ≤ n + length ls ∧ (n = 0 → ls ≠ [] → 0 < n').
Proof.
  revert n c. induction ls as [|l ls IH]; intros n c H; cbn in H.
  - simplify_eq. split; [lia|done].
  - case_bool_decide as Heof.
    { case_bool_decide; simplify_eq; cbn; split; intros; lia. }
    destruct l as [|x r].
    { apply IH in H as [? _]; cbn; split; intros; lia. }
    repeat (case_bool_decide; [apply IH in H as [? _]; cbn; split; intros; lia|]).
    case_bool_decide; simplify_eq; cbn; split; intros; lia.
Qed.

Lemma parse_update_file_chunk_count ls ln allow c n :
  parse_update_file_chunk ls ln allow = Ok (c, n) → 1 ≤ n ≤ length ls.
Proof.
  unfold parse_update_file_chunk. destruct ls as [|l0 ls]; [done|].
  intros ([ctx si] & Hh & H)%bind_Ok. case_bool_decide as Hlen; [done|].
  apply bind_Ok in H as ([c' n'] & Hl & [= <- <-]).
  apply chunk_lines_loop_count in Hl as [Hn Hpos]. rewrite length_drop in Hn.
  assert (si ≤ 1) as Hsi.
  { unfold chunk_header in Hh. repeat case_match; simplify_eq; lia. }
  cbn in *. split; [|lia]. destruct si; [|lia]. specialize (Hpos eq_refl).
  cbn in Hpos. assert (l0 :: ls ≠ []) by done. specialize (Hpos H). lia.
Qed.

Lemma update_chunks_loop_total fuel ln ls n cs :
  length ls ≤ fuel →
  ∃ r, update_chunks_loop fuel ln ls n cs = Some r ∧
       ∀ cs' n', r = Ok (cs', n') → n ≤ n' ≤ n + length ls.
Proof.
  revert ls n cs. induction fuel as [|fuel IH]; intros [|l ls] n cs Hf;
    cbn [update_chunks_loop length] in *; try lia.
  - eexists; split; [done|]. intros ?? [= -> ->]. lia.
  - eexists; split; [done|]. intros ?? [= -> ->]. lia.
  - case_bool_decide.
    { destruct (IH ls (S n) cs) as (r & -> & Hr); [lia|]. eexists; split; [done|].
      intros ?? ->. specialize (Hr _ _ eq_refl). lia. }
    destruct (starts_with l §"***").
    { eexists; split; [done|]. intros ?? [= -> ->]. lia. }
    destruct (parse_update_file_chunk (l :: ls) (ln + n) (bool_decide (cs = [])))
      as [[c k]|e] eqn:E; [|eexists; split; [done|]; done].
    apply parse_update_file_chunk_count in E. cbn in E.
    destruct (IH (drop k (l :: ls)) (n + k) (cs ++ [c])) as (r & -> & Hr).
    { rewrite length_drop. cbn. lia. }
    eexists; split; [done|]. intros ?? ->. specialize (Hr _ _ eq_refl).
    rewrite length_drop in Hr. cbn in Hr. lia.
Qed.

Lemma add_file_loop_count ls contents n :
  n ≤ (add_file_loop ls contents n).2 ≤ n + length ls.
Proof.
  revert contents n. induction ls as [|l ls IH]; intros contents n; cbn; [lia|].
  case_match; cbn; [|lia].
  match goal with |- context [add_file_loop ls ?c ?m] => specialize (IH c m) end. lia.
Qed.

Lemma parse_one_hunk_total fuel l0 rest ln :
  length rest ≤ fuel →
  ∃ r, parse_one_hunk fuel l0 rest ln = Some r ∧
       ∀ h n, r = Ok (h, n) → 1 ≤ n ≤ S (length rest).
Proof.
  intros Hf. unfold parse_one_hunk. case_match.
  { pose proof (add_file_loop_count rest [] 1) as Hc.
    destruct (add_file_loop rest [] 1) as [ct k]. cbn in Hc.
    eexists; split; [done|]. intros ?? [= <- <-]. lia. }
  case_match.
  { eexists; split; [done|]. intros ?? [= <- <-]. lia. }
  case_match; [|eexists; split; [done|]; done].
  unfold parse_update_hunk.
  set (mp := head rest ≫= strip_prefix MOVE_TO_MARKER).
  assert (∃ ls k, match mp with Some _ => (drop 1 rest, 2) | None => (rest, 1) end = (ls, k)
                  ∧ length ls + k = S (length rest) ∧ 1 ≤ k) as (ls & k & -> & Hk & Hk').
  { subst mp. destruct rest as [|x rest]; cbn [head mbind option_bind drop].
    - by exists [], 1.
    - destruct (strip_prefix MOVE_TO_MARKER x);
        eexists _, _; split; [done| |done|]; rewrite ?length_drop; cbn; lia. }
  destruct (update_chunks_loop_total fuel ln ls k []) as (r & -> & Hr); [lia|].
  eexists; split; [done|]. intros h n ([cs k'] & -> & H')%bind_Ok.
  specialize (Hr _ _ eq_refl). case_bool_decide; simplify_eq. lia.
Qed.

(** The loop over the hunks produces a result whenever the fuel is at least
    the number of lines. *)
Lemma parse_hunks_enough_fuel fuel ls ln hs :
  length ls ≤ fuel → ∃ r, parse_hunks fuel ls ln hs = Some r.
Proof.
  revert ls ln hs. induction fuel as [|fuel IH]; intros [|l ls] ln hs Hf;
    cbn [parse_hunks length] in *; eauto; [lia|].
  destruct (parse_one_hunk_total (S fuel) l ls ln) as (r & -> & Hr); [lia|].
  destruct r as [[h n]|e]; [|eauto].
  specialize (Hr _ _ eq_refl). apply IH. rewrite length_drop. cbn. lia.
Qed.

Lemma parse_text_finishes text mode : ∃ r, parse_patch_text text mode = Some r.
Proof.
  unfold parse_patch_text. destruct (select_lines _ _) as [ls|e]; [|eauto].
  destruct (parse_hunks_enough_fuel (length ls) (drop 1 (take (length ls - 1) ls)) 2 [])
    as [r Hr].
  - rewrite length_drop, length_take. lia.
  - rewrite Hr. cbn. eauto.
Qed.

(** Totality of the parser: for every text and mode the loops finish within
    their fuel, so the parser returns hunks or an error. *)
Theorem parse_patch_text_total text mode : ∃ r, parse_patch_text text mode = Some r.
Proof. apply parse_text_finishes. Qed.

