(* ===== verification/PatchApply.v ===== *)
(** * Applying a patch: [crates/apply-patch/src/lib.rs]

    [compute_replacements] locates every chunk, [apply_replacements] edits the
    list of lines, [derive_new_contents_from_chunks] does both on one file and
    [apply_hunks_to_files] runs the hunks on the file system. *)
From Stdlib Require Import Sorted.
From stdpp Require Import pretty.
From S2P Require Import Prelude RustStr Paths Seek PatchParser.

(** ** Errors *)

Inductive ApplyPatchError :=
| AParseError (e : ParseError)
| AIoError (context : str) (source : io_error)
| AComputeReplacements (message : str)
| AImplicitInvocation.

Definition show_nat (n : nat) : str := lit (pretty n).

Definition io_message (e : io_error) : str := let 'IoErr m := e in m.

Definition show_parse_error (e : ParseError) : str :=
  match e with
  | InvalidPatchError m => §"invalid patch: " ++ m
  | InvalidHunkError m n => §"invalid hunk at line " ++ show_nat n ++ §", " ++ m
  end.
Definition show_apply_error (e : ApplyPatchError) : str :=
  match e with
  | AParseError e => show_parse_error e
  | AIoError context source => context ++ §": " ++ io_message source
  | AComputeReplacements m => m
  | AImplicitInvocation =>
      §"patch detected without explicit call to apply_patch. Rerun as [" ++ [34%N]
      ++ §"apply_patch" ++ [34%N] ++ §", " ++ [34%N] ++ §"<patch>" ++ [34%N] ++ §"]"
  end.

(** ** Replacements: [(start_index, old_len, new_lines)] *)

Abbreviation replacement := (nat * nat * list str)%type.
Definition rep_start (r : replacement) : nat := r.1.1.
Definition rep_len (r : replacement) : nat := r.1.2.
Definition rep_end (r : replacement) : nat := rep_start r + rep_len r.
Definition rep_new (r : replacement) : list str := r.2.

Definition is_empty (l : str) : bool := bool_decide (l = []).

(** [pattern[..len - 1]] *)
Definition drop_last {A} (l : list A) : list A := take (length l - 1) l.

Definition locate_chunk (original_lines : list str) (chunk : UpdateFileChunk)
    (line_index : nat) : option nat * list str * list str :=
  let pattern := old_lines chunk in
  let new_slice := new_lines chunk in
  match seek_sequence original_lines pattern line_index (is_end_of_file chunk) with
  | Some i => (Some i, pattern, new_slice)
  | None =>
      if last_is is_empty pattern then
        let pattern' := drop_last pattern in
        let new_slice' :=
          if last_is is_empty new_slice then drop_last new_slice else new_slice in
        (seek_sequence original_lines pattern' line_index (is_end_of_file chunk),
         pattern', new_slice')
      else (None, pattern, new_slice)
  end.

Definition err_context (ctx path : str) : ApplyPatchError :=
  AComputeReplacements (§"Failed to find context '" ++ ctx ++ §"' in " ++ path).
Definition err_lines (path : str) (old : list str) : ApplyPatchError :=
  AComputeReplacements
    (§"Failed to find expected lines in " ++ path ++ §":" ++ [LF] ++ join [LF] old).

Definition context_index (original_lines : list str) (path : str) (ctx : option str)
    (line_index : nat) : result ApplyPatchError nat :=
  match ctx with
  | None => Ok line_index
  | Some ctx_line =>
      match seek_sequence original_lines [ctx_line] line_index false with
      | Some idx => Ok (idx + 1)
      | None => Err (err_context ctx_line path)
      end
  end.

Definition insertion_idx (original_lines : list str) : nat :=
  if last_is is_empty original_lines then length original_lines - 1
  else length original_lines.

(** The [for chunk in chunks] loop. *)
Fixpoint replacements_loop (original_lines : list str) (path : str)
    (chunks : list UpdateFileChunk) (line_index : nat) (replacements : list replacement)
  : result ApplyPatchError (list replacement) :=
  match chunks with
  | [] => Ok replacements
  | chunk :: chunks' =>
      line_index ← context_index original_lines path (change_context chunk) line_index;
      if bool_decide (old_lines chunk = []) then
        replacements_loop original_lines path chunks' line_index
          (replacements ++ [(insertion_idx original_lines, 0, new_lines chunk)])
      else
        let '(found, pattern, new_slice) := locate_chunk original_lines chunk line_index in
        match found with
        | Some start_idx =>
            replacements_loop original_lines path chunks' (start_idx + length pattern)
              (replacements ++ [(start_idx, length pattern, new_slice)])
        | None => Err (err_lines path (old_lines chunk))
        end
  end.

(** [sort_by_key(|(lhs_idx, ..)| *lhs_idx)]: a stable sort. *)
Fixpoint insert_by_start (x : replacement) (l : list replacement) : list replacement :=
  match l with
  | [] => [x]
  | y :: l' => if decide (rep_start x ≤ rep_start y) then x :: l
               else y :: insert_by_start x l'
  end.
Definition sort_by_start (l : list replacement) : list replacement :=
  foldr insert_by_start [] l.

Definition compute_replacements (original_lines : list str) (path : str)
    (chunks : list UpdateFileChunk) : result ApplyPatchError (list replacement) :=
  sort_by_start <$> replacements_loop original_lines path chunks 0 [].

(** ** Editing the lines.  [None] is the panic of [Vec::insert]. *)

(** [for _ in 0..old_len { if start_idx < lines.len() { lines.remove(start_idx) } }] *)
Definition remove_lines (start_idx old_len : nat) (ls : list str) : list str :=
  Nat.iter old_len (delete start_idx) ls.

(** [for (offset, new_line) in ..: lines.insert(start_idx + offset, new_line)] *)
Fixpoint insert_lines (idx : nat) (new_segment : list str) (ls : list str)
  : option (list str) :=
  match new_segment with
  | [] => Some ls
  | x :: seg => ls ← vec_insert idx x ls; insert_lines (S idx) seg ls
  end.

Definition apply_one (r : replacement) (ls : list str) : option (list str) :=
  insert_lines (rep_start r) (rep_new r) (remove_lines (rep_start r) (rep_len r) ls).

(** [replacements.iter().rev()]: the last one first. *)
Definition apply_replacements (ls : list str) (replacements : list replacement)
  : option (list str) :=
  foldr (λ r acc, acc ≫= apply_one r) (Some ls) replacements.

(** ** One file *)

(** [contents.split('\n')] without the empty piece after a final newline. *)
Definition original_lines_of (contents : str) : list str :=
  let ls := split_on LF contents in
  if last_is is_empty ls then drop_last ls else ls.

Definition close_lines (new_lines : list str) : list str :=
  if last_is is_empty new_lines then new_lines else new_lines ++ [[]].

Definition new_contents_of (path contents : str) (chunks : list UpdateFileChunk)
  : option (result ApplyPatchError str) :=
  let original_lines := original_lines_of contents in
  match compute_replacements original_lines path chunks with
  | Err e => Some (Err e)
  | Ok replacements =>
      new_lines ← apply_replacements original_lines replacements;
      Some (Ok (join [LF] (close_lines new_lines)))
  end.

Record AffectedPaths := { added : list str; modified : list str; deleted : list str }.

(** The errors [anyhow] carries out of the loop: an I/O error with a context,
    an [ApplyPatchError], or a message. *)
Inductive anyhow_error :=
| CtxIo (context : str) (source : io_error)
| FromPatch (e : ApplyPatchError)
| Bail (message : str).

Section files.
Context {FS : Type} `{FileSystem FS}.

Definition derive_new_contents_from_chunks (fs : FS) (path : str)
    (chunks : list UpdateFileChunk) : option (result ApplyPatchError (str * str)) :=
  match fs_read_to_string fs path with
  | Err err => Some (Err (AIoError (§"Failed to read file to update " ++ path) err))
  | Ok original_contents =>
      match new_contents_of path original_contents chunks with
      | None => None
      | Some (Err e) => Some (Err e)
      | Some (Ok new_contents) => Some (Ok (original_contents, new_contents))
      end
  end.

Definition ctx {A} (m : str) (r : result io_error A) : result anyhow_error A :=
  map_err (CtxIo m) r.

(** [create_dir_all] of the parent, when there is a non-empty one, then [write]. *)
Definition create_and_write (fs : FS) (path contents : str)
  : FS * result anyhow_error unit :=
  let '(fs, r) :=
    match path_parent path with
    | Some parent =>
        if bool_decide (parent = []) then (fs, Ok tt)
        else let '(fs, r) := fs_create_dir_all fs parent in
             (fs, ctx (§"Failed to create parent directories for " ++ path) r)
    | None => (fs, Ok tt)
    end in
  match r with
  | Err e => (fs, Err e)
  | Ok _ => let '(fs, r) := fs_write fs path contents in
            (fs, ctx (§"Failed to write file " ++ path) r)
  end.

(** The body of [for hunk in hunks]; [None] is a panic. *)
Definition apply_hunk (fs : FS) (aff : AffectedPaths) (hunk : Hunk)
  : option (FS * result anyhow_error AffectedPaths) :=
  match hunk with
  | AddFile path contents =>
      let '(fs, r) := create_and_write fs path contents in
      Some (fs, r ≫= λ _, Ok {| added := added aff ++ [path]; modified := modified aff;
                                deleted := deleted aff |})
  | DeleteFile path =>
      let '(fs, r) := fs_remove_file fs path in
      Some (fs, ctx (§"Failed to delete file " ++ path) r ≫= λ _,
                Ok {| added := added aff; modified := modified aff;
                      deleted := deleted aff ++ [path] |})
  | UpdateFile path move_path chunks =>
      d ← derive_new_contents_from_chunks fs path chunks;
      match d with
      | Err e => Some (fs, Err (FromPatch e))
      | Ok (_, new_contents) =>
          match move_path with
          | Some dest =>
              let '(fs, r) := create_and_write fs dest new_contents in
              match r with
              | Err e => Some (fs, Err e)
              | Ok _ =>
                  let '(fs, r) := fs_remove_file fs path in
                  Some (fs, ctx (§"Failed to remove original " ++ path) r ≫= λ _,
                    Ok {| added := added aff; modified := modified aff ++ [dest];
                          deleted := deleted aff |})
              end
          | None =>
              let '(fs, r) := fs_write fs path new_contents in
              Some (fs, ctx (§"Failed to write file " ++ path) r ≫= λ _,
                Ok {| added := added aff; modified := modified aff ++ [path];
                      deleted := deleted aff |})
          end
      end
  end.

Fixpoint apply_hunks_loop (fs : FS) (aff : AffectedPaths) (hunks : list Hunk)
  : option (FS * result anyhow_error AffectedPaths) :=
  match hunks with
  | [] => Some (fs, Ok aff)
  | hunk :: hunks' =>
      '(fs, r) ← apply_hunk fs aff hunk;
      match r with
      | Err e => Some (fs, Err e)
      | Ok aff => apply_hunks_loop fs aff hunks'
      end
  end.

Definition no_paths : AffectedPaths := {| added := []; modified := []; deleted := [] |}.

Definition apply_hunks_to_files (fs : FS) (hunks : list Hunk)
  : option (FS * result anyhow_error AffectedPaths) :=
  match hunks with
  | [] => Some (fs, Err (Bail §"No files were modified."))
  | _ => apply_hunks_loop fs no_paths hunks
  end.

(** [print_summary] *)
Definition summary_lines (mark : str) (paths : list str) : str :=
  paths ≫= λ p, mark ++ p ++ [LF].
Definition print_summary (affected : AffectedPaths) : str :=
  §"Success. Updated the following files:" ++ [LF]
  ++ summary_lines §"A " (added affected) ++ summary_lines §"M " (modified affected)
  ++ summary_lines §"D " (deleted affected).

(** What [err.to_string()] shows: the outermost context. *)
Definition show_anyhow (e : anyhow_error) : str :=
  match e with CtxIo c _ => c | FromPatch e => show_apply_error e | Bail m => m end.

(** [err.downcast_ref::<std::io::Error>()] finds the I/O error under a context. *)
Definition anyhow_to_apply_error (e : anyhow_error) : ApplyPatchError :=
  match e with
  | CtxIo _ io => AIoError §"I/O error" io
  | FromPatch e' => AIoError (show_apply_error e') (IoErr (show_apply_error e'))
  | Bail m => AIoError m (IoErr m)
  end.

(** State of a run: the files, what went to stdout and to stderr. *)
Record outcome := {
  out_fs : FS; out_stdout : str; out_stderr : str;
  out_result : result ApplyPatchError unit;
}.

Definition apply_hunks (fs : FS) (hunks : list Hunk) : option outcome :=
  '(fs, r) ← apply_hunks_to_files fs hunks;
  Some match r with
  | Ok affected => {| out_fs := fs; out_stdout := print_summary affected;
                      out_stderr := []; out_result := Ok tt |}
  | Err err => {| out_fs := fs; out_stdout := []; out_stderr := show_anyhow err ++ [LF];
                  out_result := Err (anyhow_to_apply_error err) |}
  end.

Definition stderr_of_parse_error (e : ParseError) : str :=
  match e with
  | InvalidPatchError message => §"Invalid patch: " ++ message ++ [LF]
  | InvalidHunkError message line_number =>
      §"Invalid patch hunk on line " ++ show_nat line_number ++ §": " ++ message ++ [LF]
  end.

Definition apply_patch (fs : FS) (text : str) : option outcome :=
  r ← parse_patch text;
  match r with
  | Err e => Some {| out_fs := fs; out_stdout := []; out_stderr := stderr_of_parse_error e;
                     out_result := Err (AParseError e) |}
  | Ok args => apply_hunks fs (hunks args)
  end.
End files.
Arguments outcome FS : clear implicits.

(** * Correctness *)

(** ** One replacement *)

Lemma remove_lines_spec s n (ls : list str) :
  remove_lines s n ls = take s ls ++ drop (s + n) ls.
Proof.
  unfold remove_lines. induction n as [|n IH].
  - by rewrite Nat.add_0_r, take_drop.
  - change (Nat.iter (S n) (delete s) ls) with (delete s (Nat.iter n (delete s) ls)).
    rewrite IH, delete_eq_take_drop.
    destruct (decide (s ≤ length ls)) as [Hs|Hs].
    + rewrite take_app_length' by (rewrite length_take; lia).
      rewrite drop_app_ge by (rewrite length_take; lia).
      rewrite length_take, drop_drop. do 2 f_equal. lia.
    + rewrite !(drop_ge ls), !app_nil_r by lia. rewrite !(take_ge ls) by lia.
      rewrite drop_ge by lia. by rewrite app_nil_r.
Qed.

Lemma insert_lines_spec s seg (ls : list str) :
  s ≤ length ls → insert_lines s seg ls = Some (take s ls ++ seg ++ drop s ls).
Proof.
  revert s ls. induction seg as [|x seg IH]; intros s ls Hs; cbn.
  - by rewrite take_drop.
  - unfold vec_insert. rewrite decide_True by done. cbn.
    rewrite IH by (rewrite length_app, length_take; cbn; lia).
    rewrite firstn_app, length_take, Nat.min_l by lia.
    rewrite take_take, Nat.min_r by lia. replace (S s - s) with 1 by lia.
    rewrite drop_app_ge by (rewrite length_take; lia).
    rewrite length_take, Nat.min_l by lia. replace (S s - s) with 1 by lia. cbn.
    rewrite drop_0, take_0, <-(assoc_L (++)). done.
Qed.

Lemma apply_one_spec r (ls : list str) :
  rep_start r ≤ length ls →
  apply_one r ls = Some (take (rep_start r) ls ++ rep_new r ++ drop (rep_end r) ls).
Proof.
  intros Hs. unfold apply_one. rewrite remove_lines_spec.
  rewrite insert_lines_spec by (rewrite length_app, length_take; lia).
  rewrite take_app_length', drop_app_length' by (rewrite length_take; lia). done.
Qed.

(** ** The reference edit *)

(** [reps] are the edits of the lines from [pos] on, from left to right and
    without overlap. *)
Fixpoint disjoint_from (pos : nat) (reps : list replacement) (len : nat) : Prop :=
  match reps with
  | [] => pos ≤ len
  | r :: reps' => pos ≤ rep_start r ∧ disjoint_from (rep_end r) reps' len
  end.

(** The new text from [pos] on: copy up to the next edit, put the new lines,
    skip the old ones. *)
Fixpoint patched (ls : list str) (pos : nat) (reps : list replacement) : list str :=
  match reps with
  | [] => drop pos ls
  | r :: reps' =>
      take (rep_start r - pos) (drop pos ls) ++ rep_new r ++ patched ls (rep_end r) reps'
  end.

Lemma disjoint_from_le pos reps len : disjoint_from pos reps len → pos ≤ len.
Proof.
  revert pos. induction reps as [|r reps IH]; intros pos; cbn; [done|].
  intros [? H%IH]. unfold rep_end in H. lia.
Qed.

Lemma take_add_drop {A} (l : list A) i n : take i l ++ take n (drop i l) = take (i + n) l.
Proof.
  revert i. induction l as [|x l IH]; intros [|i]; cbn; rewrite ?take_nil; try done.
  by rewrite IH.
Qed.

Lemma apply_replacements_patched ls pos reps :
  disjoint_from pos reps (length ls) →
  apply_replacements ls reps = Some (take pos ls ++ patched ls pos reps).
Proof.
  revert pos. induction reps as [|r reps IH]; intros pos Hd; cbn.
  - by rewrite take_drop.
  - destruct Hd as [Hpos Hd]. pose proof (disjoint_from_le _ _ _ Hd) as Hle.
    fold (apply_replacements ls reps). rewrite (IH _ Hd). cbn.
    assert (length (take (rep_end r) ls) = rep_end r) as Hlen
      by (rewrite length_take; lia).
    rewrite apply_one_spec by (rewrite length_app, Hlen; unfold rep_end; lia).
    f_equal. rewrite take_app_le by (rewrite Hlen; unfold rep_end; lia).
    rewrite take_take, Nat.min_l by (unfold rep_end; lia).
    rewrite drop_app_length' by done.
    rewrite (assoc_L (++) (take pos ls)), take_add_drop. do 2 f_equal. lia.
Qed.

(** ** Sorting *)

Lemma insert_by_start_perm x l : insert_by_start x l ≡ₚ x :: l.
Proof.
  induction l as [|y l IH]; cbn; [done|]. case_decide; [done|].
  rewrite IH. constructor.
Qed.

Lemma sort_by_start_perm l : sort_by_start l ≡ₚ l.
Proof. induction l as [|x l IH]; cbn; [done|]. by rewrite insert_by_start_perm, IH. Qed.

Definition start_le (a b : replacement) : Prop := rep_start a ≤ rep_start b.

Lemma insert_by_start_sorted x l :
  StronglySorted start_le l → StronglySorted start_le (insert_by_start x l).
Proof.
  induction 1 as [|y l Hl IH Hy]; cbn; [repeat constructor|]. case_decide as Hd.
  - constructor; [by constructor|]. constructor; [done|].
    eapply Forall_impl; [exact Hy|]. unfold start_le in *. cbn. intros; lia.
  - constructor; [done|]. rewrite insert_by_start_perm. constructor; [|done].
    unfold start_le. lia.
Qed.

Lemma sort_by_start_sorted l : StronglySorted start_le (sort_by_start l).
Proof. induction l; cbn; [constructor|by apply insert_by_start_sorted]. Qed.

(** ** No panic *)

(** Sorted replacements that start inside the file are applied without a
    panic, whatever their overlap; lines before the first one are kept. *)
Lemma apply_replacements_no_panic ls reps :
  StronglySorted start_le reps → Forall (λ r, rep_start r ≤ length ls) reps →
  ∃ out, apply_replacements ls reps = Some out ∧
    ∀ n, n ≤ length ls → Forall (λ r, n ≤ rep_start r) reps →
      n ≤ length out ∧ take n out = take n ls.
Proof.
  induction 1 as [|r reps Hs IH Hr]; intros Hin; cbn.
  - exists ls. split; [done|]. intros n Hn _. done.
  - apply Forall_cons in Hin as [Hr_in Hin]. destruct (IH Hin) as (out & Hout & Hkeep).
    fold (apply_replacements ls reps). rewrite Hout. cbn.
    destruct (Hkeep (rep_start r)) as [Hlen Htake]; [done|exact Hr|].
    rewrite apply_one_spec by done. eexists; split; [done|].
    intros n Hn [Hnr Hall]%Forall_cons.
    destruct (Hkeep n Hn Hall) as [Hlen' Htake']. split.
    + rewrite length_app, length_take. lia.
    + rewrite take_app_le by (rewrite length_take; lia).
      rewrite take_take, Nat.min_l by lia. done.
Qed.

(** ** What [compute_replacements] yields *)

Definition in_file (len : nat) (r : replacement) : Prop := rep_end r ≤ len.

Lemma locate_chunk_bounds ol c li i pattern new :
  locate_chunk ol c li = (Some i, pattern, new) → old_lines c ≠ [] → li ≤ length ol →
  i + length pattern ≤ length ol ∧ (is_end_of_file c = false → li ≤ i).
Proof.
  unfold locate_chunk. intros H Hne Hli.
  destruct (seek_sequence ol (old_lines c) li (is_end_of_file c)) as [i'|] eqn:E.
  { simplify_eq. by eapply seek_sequence_bounds. }
  destruct (last_is is_empty (old_lines c)); [|done].
  injection H as H <- _.
  destruct (decide (drop_last (old_lines c) = [])) as [Hnil|Hnil].
  - rewrite Hnil in *. rewrite seek_sequence_nil in H. simplify_eq. cbn. lia.
  - by eapply seek_sequence_bounds.
Qed.

Lemma context_index_bounds ol path ctx li li' :
  context_index ol path ctx li = Ok li' → li ≤ length ol → li ≤ li' ≤ length ol.
Proof.
  unfold context_index. destruct ctx as [c|]; [|intros [= ->]; lia].
  destruct (seek_sequence ol [c] li false) as [i|] eqn:E; [|done]. intros [= <-] Hli.
  apply seek_sequence_bounds in E as [? Hge]; [|done]. specialize (Hge eq_refl). cbn in *. lia.
Qed.

Lemma insertion_idx_le ol : insertion_idx ol ≤ length ol.
Proof. unfold insertion_idx. case_match; lia. Qed.

Lemma replacements_loop_in_file ol path cs li acc reps :
  li ≤ length ol → Forall (in_file (length ol)) acc →
  replacements_loop ol path cs li acc = Ok reps → Forall (in_file (length ol)) reps.
Proof.
  revert li acc. induction cs as [|c cs IH]; intros li acc Hli Hacc H; cbn in H.
  { by simplify_eq. }
  apply bind_Ok in H as (li' & Hctx & H). apply context_index_bounds in Hctx; [|done].
  case_bool_decide as Hold.
  - eapply IH; [|..|exact H]; [lia|]. apply Forall_app; split; [done|].
    constructor; [|done]. unfold in_file, rep_end; cbn. pose proof (insertion_idx_le ol). lia.
  - destruct (locate_chunk ol c li') as [[[i|] pattern] new] eqn:E; [|done].
    apply locate_chunk_bounds in E as [? _]; [|done|lia].
    eapply IH; [|..|exact H]; [lia|]. apply Forall_app; split; [done|].
    constructor; [|done]. unfold in_file, rep_end; cbn. lia.
Qed.

Lemma compute_replacements_in_file ol path cs reps :
  compute_replacements ol path cs = Ok reps → Forall (in_file (length ol)) reps.
Proof.
  unfold compute_replacements. destruct (replacements_loop _ _ _ _ _) as [reps0|] eqn:E;
    cbn; [|done]. intros [= <-]. rewrite sort_by_start_perm.
  eapply replacements_loop_in_file; [|constructor|exact E]. lia.
Qed.

(** *** Which edit each chunk asks for *)

(** The edit [r] for chunk [c]: an insertion when the chunk has no old lines,
    otherwise the replacement of a block that agrees with the old lines, or
    with the old lines without a final empty one. *)
Definition rep_for (ol : list str) (c : UpdateFileChunk) (r : replacement) : Prop :=
  if bool_decide (old_lines c = []) then r = (insertion_idx ol, 0, new_lines c)
  else ∃ pattern,
    (pattern = old_lines c ∧ rep_new r = new_lines c ∨
     last_is is_empty (old_lines c) = true ∧ pattern = drop_last (old_lines c)
     ∧ rep_new r = (if last_is is_empty (new_lines c) then drop_last (new_lines c)
                    else new_lines c))
    ∧ rep_len r = length pattern ∧ occurs_at normalise ol pattern (rep_start r).

Lemma seek_sequence_occurs ls pattern start eof i :
  seek_sequence ls pattern start eof = Some i → occurs_at normalise ls pattern i.
Proof.
  destruct (decide (pattern = [])) as [->|Hne]; [done|].
  intros (_ & k & key & Hk & _ & Hocc & _)%seek_sequence_first; [|done].
  eapply normalise_occurs; [|done]. by eapply list_elem_of_lookup_2.
Qed.

Lemma locate_chunk_rep_for ol c li i pattern new :
  locate_chunk ol c li = (Some i, pattern, new) → old_lines c ≠ [] →
  rep_for ol c (i, length pattern, new).
Proof.
  unfold locate_chunk, rep_for. intros H Hne. rewrite bool_decide_false by done.
  destruct (seek_sequence ol (old_lines c) li (is_end_of_file c)) eqn:E.
  { simplify_eq. eexists; split; [by left|]. split; [done|].
    by eapply seek_sequence_occurs. }
  destruct (last_is is_empty (old_lines c)) eqn:El; [|done].
  injection H as H <- <-. eexists; split; [by right|]. split; [done|].
  by eapply seek_sequence_occurs.
Qed.

Lemma replacements_loop_rep_for ol path cs li acc reps :
  replacements_loop ol path cs li acc = Ok reps →
  ∃ reps', reps = acc ++ reps' ∧ Forall2 (rep_for ol) cs reps'.
Proof.
  revert li acc. induction cs as [|c cs IH]; intros li acc H; cbn in H.
  { simplify_eq. exists []. by rewrite app_nil_r. }
  apply bind_Ok in H as (li' & Hctx & H). case_bool_decide as Hold.
  - apply IH in H as (reps' & -> & Hf). rewrite <-(assoc_L (++)).
    eexists; split; [done|]. constructor; [|done]. unfold rep_for.
    by rewrite bool_decide_true.
  - destruct (locate_chunk ol c li') as [[[i|] pattern] new] eqn:E; [|done].
    apply locate_chunk_rep_for in E; [|done].
    apply IH in H as (reps' & -> & Hf). rewrite <-(assoc_L (++)).
    eexists; split; [done|]. by constructor.
Qed.

(** *** Chunks that are not anchored at the end of the file never overlap *)

Definition before (a b : replacement) : Prop := rep_end a ≤ rep_start b.
Definition compatible (a b : replacement) : Prop :=
  before a b ∨ before b a ∧ rep_start b < rep_start a.

Lemma insert_by_start_before x l :
  Forall (compatible x) l → StronglySorted before l →
  StronglySorted before (insert_by_start x l).
Proof.
  unfold compatible, before, rep_end. intros Hx. induction 1 as [|y l Hl IH Hy]; cbn.
  - repeat constructor.
  - apply Forall_cons in Hx as [Hxy Hx]. case_decide as Hd.
    + assert (rep_start x + rep_len x ≤ rep_start y) by (destruct Hxy; lia).
      constructor; [by constructor|]. constructor; [done|].
      eapply Forall_impl; [exact Hy|]. cbn. unfold rep_end in *. intros; lia.
    + constructor; [by apply IH|]. rewrite insert_by_start_perm.
      constructor; [destruct Hxy; unfold rep_end in *; lia|done].
Qed.

Lemma sort_by_start_before l :
  StronglySorted compatible l → StronglySorted before (sort_by_start l).
Proof.
  induction 1 as [|x l Hl IH Hx]; cbn; [constructor|].
  apply insert_by_start_before; [|done]. by rewrite sort_by_start_perm.
Qed.

Lemma StronglySorted_snoc {A} (R : A → A → Prop) l x :
  StronglySorted R l → Forall (λ y, R y x) l → StronglySorted R (l ++ [x]).
Proof.
  induction 1 as [|y l Hl IH Hy]; cbn; [repeat constructor|].
  intros [? ?]%Forall_cons. constructor; [by apply IH|].
  apply Forall_app; split; [done|by constructor].
Qed.

(** Either the file does not end with a blank line, or no chunk is a pure addition. *)
Definition additions_safe (ol : list str) (cs : list UpdateFileChunk) : Prop :=
  last_is is_empty ol = false ∨ Forall (λ c, old_lines c ≠ []) cs.

Definition loop_inv (ol : list str) (li : nat) (r : replacement) : Prop :=
  rep_end r ≤ li ∨ rep_start r = length ol ∧ rep_len r = 0.

Lemma loop_inv_mono ol li li' r : loop_inv ol li r → li ≤ li' → loop_inv ol li' r.
Proof. unfold loop_inv. lia. Qed.

Lemma replacements_loop_compatible ol path cs li acc reps :
  Forall (λ c, is_end_of_file c = false) cs → additions_safe ol cs → li ≤ length ol →
  Forall (loop_inv ol li) acc → Forall (in_file (length ol)) acc →
  StronglySorted compatible acc →
  replacements_loop ol path cs li acc = Ok reps → StronglySorted compatible reps.
Proof.
  unfold additions_safe.
  revert li acc. induction cs as [|c cs IH]; intros li acc Heof Hadd Hli Hinv Hin Hacc H; cbn in H.
  { by simplify_eq. }
  apply Forall_cons in Heof as [Hc Heof]. apply bind_Ok in H as (li' & Hctx & H).
  apply context_index_bounds in Hctx; [|done].
  assert (last_is is_empty ol = false ∨ Forall (λ c, old_lines c ≠ []) cs) as Hadd'
    by (destruct Hadd as [?|[? ?]%Forall_cons]; auto).
  assert (Forall (loop_inv ol li') acc) as Hinv'
    by (eapply Forall_impl; [exact Hinv|]; intros; eapply loop_inv_mono; [done|lia]).
  case_bool_decide as Hold.
  - destruct Hadd as [Hlast|[? ?]%Forall_cons]; [|done].
    assert (insertion_idx ol = length ol) as Hidx by (unfold insertion_idx; by rewrite Hlast).
    rewrite Hidx in H. eapply IH; [done|done| | | |..|exact H]; [lia|..].
    + apply Forall_app; split; [done|]. constructor; [|done]. right; done.
    + apply Forall_app; split; [done|]. constructor; [|done].
      unfold in_file, rep_end; cbn; lia.
    + apply StronglySorted_snoc; [done|]. eapply Forall_impl; [exact Hin|].
      intros r Hr. left. exact Hr.
  - destruct (locate_chunk ol c li') as [[[i|] pattern] new] eqn:E; [|done].
    apply locate_chunk_bounds in E as [Hi Hge]; [|done|lia]. specialize (Hge Hc).
    eapply IH; [done|done| | | |..|exact H]; [lia|..].
    + apply Forall_app; split; [|constructor; [left; unfold rep_end; cbn; lia|done]].
      eapply Forall_impl; [exact Hinv'|]; intros; eapply loop_inv_mono; [done|lia].
    + apply Forall_app; split; [done|]. constructor; [|done].
      unfold in_file, rep_end; cbn; lia.
    + apply StronglySorted_snoc; [done|]. eapply Forall_impl; [exact Hinv'|].
      intros r [Hr|[Hr Hr0]]; unfold compatible, before, rep_end in *; cbn; lia.
Qed.

Lemma before_disjoint pos reps len :
  StronglySorted before reps → Forall (in_file len) reps →
  Forall (λ r, pos ≤ rep_start r) reps → pos ≤ len → disjoint_from pos reps len.
Proof.
  intros Hs. revert pos. induction Hs as [|r reps Hs IH Hr]; intros pos Hin Hpos Hle; cbn.
  - done.
  - apply Forall_cons in Hin as [? ?]. apply Forall_cons in Hpos as [? ?].
    split; [done|]. by apply IH.
Qed.

(** Correctness of an update: when no chunk is anchored at the end of the
    file (and no pure addition meets a file that ends with a blank line), a
    successful update is exactly the splice of one edit per chunk.  The edits
    are pairwise disjoint and inside the file, every replaced block agrees with
    the chunk's old lines, and all other lines are copied unchanged and in order. *)
Theorem update_is_splice path contents cs out :
  let ol := original_lines_of contents in
  Forall (λ c, is_end_of_file c = false) cs → additions_safe ol cs →
  new_contents_of path contents cs = Some (Ok out) →
  ∃ reps0 reps, Forall2 (rep_for ol) cs reps0 ∧ reps ≡ₚ reps0 ∧
    disjoint_from 0 reps (length ol) ∧
    out = join [LF] (close_lines (patched ol 0 reps)).
Proof.
  intros ol Heof Hadd H. unfold new_contents_of in H. fold ol in H.
  destruct (compute_replacements ol path cs) as [reps|] eqn:E; [|done].
  pose proof (compute_replacements_in_file _ _ _ _ E) as Hin.
  unfold compute_replacements in E.
  destruct (replacements_loop ol path cs 0 []) as [reps0|] eqn:E0; [|done].
  cbn in E. injection E as <-. exists reps0, (sort_by_start reps0).
  assert (disjoint_from 0 (sort_by_start reps0) (length ol)) as Hd.
  { apply before_disjoint; [|done| |lia].
    - apply sort_by_start_before.
      eapply replacements_loop_compatible; [exact Heof|exact Hadd|..|exact E0];
        [lia|constructor..].
    - apply Forall_forall. intros; lia. }
  rewrite (apply_replacements_patched ol 0 _ Hd) in H. cbn in H. simplify_eq.
  apply replacements_loop_rep_for in E0 as (reps' & -> & Hf).
  split_and!; try done. apply sort_by_start_perm.
Qed.

Lemma new_contents_of_not_None path contents cs : ∃ r, new_contents_of path contents cs = Some r.
Proof.
  unfold new_contents_of.
  destruct (compute_replacements _ _ _) as [reps|e] eqn:E; [|eauto].
  pose proof (compute_replacements_in_file _ _ _ _ E) as Hin.
  destruct (apply_replacements_no_panic (original_lines_of contents) reps) as (out & -> & _).
  - unfold compute_replacements in E. destruct (replacements_loop _ _ _ _ _); [|done].
    injection E as <-. apply sort_by_start_sorted.
  - eapply Forall_impl; [exact Hin|]. unfold in_file, rep_end. cbn. intros; lia.
  - cbn. eauto.
Qed.

Lemma join_close_lines ls :
  join [LF] (close_lines ls) = [] ∨ ∃ s, join [LF] (close_lines ls) = s ++ [LF].
Proof.
  assert (∀ l : list str, join [LF] (l ++ [[]]) = [] ∨ ∃ s, join [LF] (l ++ [[]]) = s ++ [LF])
    as Hsnoc.
  { intros l. destruct l as [|x l]; [by left|]. right.
    rewrite join_snoc, app_nil_r by done. eauto. }
  unfold close_lines. destruct (last_is is_empty ls) eqn:E; [|apply Hsnoc].
  apply last_is_true in E as (l' & x & -> & Hx). unfold is_empty in Hx.
  apply bool_decide_eq_true in Hx as ->. apply Hsnoc.
Qed.

(** An update never panics, on any file and any chunks (end-of-file anchors
    and overlaps included), and a new text it produces is empty or ends with a
    newline. *)
Theorem update_no_panic path contents cs :
  ∃ r, new_contents_of path contents cs = Some r ∧
    match r with
    | Ok out => out = [] ∨ ∃ s, out = s ++ [LF]
    | Err e => ∃ m, e = AComputeReplacements m
    end.
Proof.
  destruct (new_contents_of_not_None path contents cs) as [r Hr]. exists r. split; [done|].
  unfold new_contents_of in Hr.
  destruct (compute_replacements _ _ _) as [reps|e] eqn:E.
  - destruct (apply_replacements _ _) as [nl|]; [|done]. cbn in Hr. simplify_eq.
    apply join_close_lines.
  - simplify_eq. unfold compute_replacements in E.
    assert (∀ ol li acc, replacements_loop ol path cs li acc = Err e →
              ∃ m, e = AComputeReplacements m) as Hm.
    { clear. intros ol. induction cs as [|c cs IH]; intros li acc H; cbn in H; [done|].
      apply bind_Err in H as [H|(li' & _ & H)].
      - unfold context_index in H. repeat case_match; simplify_eq. eexists; done.
      - case_bool_decide; [by eapply IH|].
        destruct (locate_chunk ol c li') as [[[i|] p] n]; [by eapply IH|].
        simplify_eq. eexists; done. }
    destruct (replacements_loop _ _ _ _ _) eqn:E0; [done|]. cbn in E. simplify_eq.
    by eapply Hm.
Qed.

(** ** Running the hunks *)

Section run.
Context {FS : Type} `{FileSystemLaws FS}.
Implicit Types (fs : FS) (h : Hunk).

(** The paths a hunk may touch. *)
Definition hunk_paths h : list str :=
  match h with
  | AddFile p _ | DeleteFile p => [p]
  | UpdateFile p mv _ => p :: match mv with Some m => [m] | None => [] end
  end.

(** Nothing but the files in [ps] differs. *)
Definition only_touches (ps : list str) fs fs' : Prop :=
  ∀ q, Forall (λ p, ¬ same_file q p) ps →
    fs_read_to_string fs' q = fs_read_to_string fs q.

#[local] Instance only_touches_refl ps : Reflexive (only_touches ps).
Proof. by intros fs q. Qed.
#[local] Instance only_touches_trans ps : Transitive (only_touches ps).
Proof. intros fs1 fs2 fs3 H1 H2 q Hq. by rewrite (H2 q Hq), (H1 q Hq). Qed.

Lemma only_touches_weaken ps qs fs fs' :
  only_touches ps fs fs' → ps ⊆ qs → only_touches qs fs fs'.
Proof.
  intros Ht Hsub q Hq. apply Ht. rewrite Forall_forall in *. intros p Hp.
  apply Hq. by apply Hsub.
Qed.

Lemma create_and_write_touches fs p c fs' r :
  create_and_write fs p c = (fs', r) → only_touches [p] fs fs'.
Proof.
  unfold create_and_write. intros Hw q [Hq _]%Forall_cons.
  assert (∀ fs0 fs1 r1, fs_write fs0 p c = (fs1, r1) →
            fs_read_to_string fs1 q = fs_read_to_string fs0 q) as Hfr
    by (intros; by eapply write_frame).
  repeat case_match; simplify_eq; try done;
    repeat match goal with
    | Hx : fs_write _ _ _ = _ |- _ => apply Hfr in Hx
    | Hx : fs_create_dir_all _ _ = _ |- _ => apply (create_dir_all_frame _ _ _ _ q) in Hx
    end; congruence.
Qed.

Lemma create_and_write_Ok fs p c fs' :
  create_and_write fs p c = (fs', Ok tt) → fs_read_to_string fs' p = Ok c.
Proof.
  unfold create_and_write. intros Hw.
  destruct (match path_parent p with Some _ => _ | None => _ end) as [fs0 [u|e]]; [|done].
  destruct (fs_write fs0 p c) as [fs1 [[]|e]] eqn:E; [|done].
  cbn in Hw. injection Hw as <-. by eapply write_read.
Qed.

Lemma apply_hunk_touches fs aff h fs' r :
  apply_hunk fs aff h = Some (fs', r) → only_touches (hunk_paths h) fs fs'.
Proof.
  destruct h as [p c|p|p mv cs]; cbn; intros Ha.
  - destruct (create_and_write fs p c) as [fs1 r1] eqn:E. simplify_eq.
    by eapply create_and_write_touches.
  - destruct (fs_remove_file fs p) as [fs1 r1] eqn:E. simplify_eq.
    intros q [Hq _]%Forall_cons. by eapply remove_frame.
  - destruct (derive_new_contents_from_chunks fs p cs) as [[[oc nc]|e]|]; [|by cbn in Ha; simplify_eq|done].
    cbn in Ha. destruct mv as [dest|].
    + destruct (create_and_write fs dest nc) as [fs1 r1] eqn:E.
      apply create_and_write_touches in E.
      apply (only_touches_weaken _ [p; dest]) in E; [|set_solver].
      destruct r1 as [u|e]; [|by simplify_eq].
      destruct (fs_remove_file fs1 p) as [fs2 r2] eqn:E2. simplify_eq.
      etransitivity; [exact E|]. intros q [Hq _]%Forall_cons. by eapply remove_frame.
    + destruct (fs_write fs p nc) as [fs1 r1] eqn:E. simplify_eq.
      intros q [Hq _]%Forall_cons. by eapply write_frame.
Qed.

Lemma apply_hunks_loop_touches fs aff hs fs' r :
  apply_hunks_loop fs aff hs = Some (fs', r) → only_touches (hs ≫= hunk_paths) fs fs'.
Proof.
  revert fs aff. induction hs as [|h hs IH]; intros fs aff Ha; cbn in Ha.
  { by simplify_eq. }
  rewrite bind_cons. destruct (apply_hunk fs aff h) as [[fs1 r1]|] eqn:E; [|done].
  cbn in Ha. apply apply_hunk_touches in E.
  apply (only_touches_weaken _ (hunk_paths h ++ (hs ≫= hunk_paths))) in E; [|set_solver].
  destruct r1 as [aff1|e]; [|by simplify_eq]. etransitivity; [exact E|].
  eapply only_touches_weaken; [by eapply IH|set_solver].
Qed.

(** Frame: whether the patch succeeds or fails, no file other than those
    its hunks name (source or destination) is changed. *)
Theorem apply_hunks_frame fs hs fs' r q :
  apply_hunks_to_files fs hs = Some (fs', r) →
  Forall (λ p, ¬ same_file q p) (hs ≫= hunk_paths) →
  fs_read_to_string fs' q = fs_read_to_string fs q.
Proof.
  intros Ha. destruct hs as [|h hs]; [by cbn in Ha; simplify_eq|].
  by apply (apply_hunks_loop_touches _ _ _ _ _ Ha).
Qed.

(** *** What a run has done when it stops *)

Definition affected_by (aff : AffectedPaths) h : AffectedPaths :=
  match h with
  | AddFile p _ => {| added := added aff ++ [p]; modified := modified aff;
                      deleted := deleted aff |}
  | DeleteFile p => {| added := added aff; modified := modified aff;
                       deleted := deleted aff ++ [p] |}
  | UpdateFile p mv _ =>
      {| added := added aff; modified := modified aff ++ [default p mv];
         deleted := deleted aff |}
  end.

Lemma apply_hunk_affected fs aff h fs' aff' :
  apply_hunk fs aff h = Some (fs', Ok aff') → aff' = affected_by aff h.
Proof.
  destruct h as [p c|p|p mv cs]; cbn; intros Ha.
  - destruct (create_and_write fs p c) as [fs1 [u|e]]; by cbn in Ha; simplify_eq.
  - destruct (fs_remove_file fs p) as [fs1 [u|e]]; by cbn in Ha; simplify_eq.
  - destruct (derive_new_contents_from_chunks fs p cs) as [[[oc nc]|e]|]; [|by simplify_eq|done].
    cbn in Ha. destruct mv as [dest|].
    + destruct (create_and_write fs dest nc) as [fs1 [u|e]]; [|by simplify_eq].
      destruct (fs_remove_file fs1 p) as [fs2 [u'|e]]; by cbn in Ha; simplify_eq.
    + destruct (fs_write fs p nc) as [fs1 [u|e]]; by cbn in Ha; simplify_eq.
Qed.

Lemma derive_not_None fs p cs : ∃ r, derive_new_contents_from_chunks fs p cs = Some r.
Proof.
  unfold derive_new_contents_from_chunks. destruct (fs_read_to_string fs p) as [c|e]; [|eauto].
  destruct (new_contents_of_not_None p c cs) as [[o|e] ->]; eauto.
Qed.

Lemma apply_hunk_not_None fs aff h : ∃ x, apply_hunk fs aff h = Some x.
Proof.
  destruct h as [p c|p|p mv cs]; cbn.
  - destruct (create_and_write fs p c); eauto.
  - destruct (fs_remove_file fs p); eauto.
  - destruct (derive_not_None fs p cs) as [r ->]. cbn.
    repeat case_match; eauto.
Qed.

(** A run of [hs] from [fs] in which every hunk succeeds. *)
Inductive all_applied : FS → AffectedPaths → list Hunk → FS → AffectedPaths → Prop :=
| applied_nil fs aff : all_applied fs aff [] fs aff
| applied_cons fs aff h fs1 aff1 hs fs2 aff2 :
    apply_hunk fs aff h = Some (fs1, Ok aff1) →
    all_applied fs1 aff1 hs fs2 aff2 →
    all_applied fs aff (h :: hs) fs2 aff2.

End run.

(** ** Findings *)

Definition text (ls : list str) : str := join [LF] ls.

Definition chunk (old new : list str) : UpdateFileChunk :=
  {| change_context := None; old_lines := old; new_lines := new; is_end_of_file := false |}.

(** The crate documentation promises that either every hunk lands or none
    does.  A failing second hunk leaves the first one applied. *)
Example patch_is_not_transactional :
  match apply_hunks_to_files (FS:=MemFs.memfs) {| MemFs.files := ∅; MemFs.dirs := ∅ |}
          [AddFile §"a" §"x"; DeleteFile §"missing"] with
  | Some (fs, Err _) => fs_read_to_string fs §"a" = Ok §"x"
  | _ => False
  end.
Proof. by vm_compute. Qed.

(** A file that ends with a blank line loses it on an unrelated update: the
    line list already ends with an empty line, which is then taken for the
    final newline. *)
Example trailing_blank_line_lost :
  new_contents_of §"f" (text [§"a"; []; []]) [chunk [§"a"] [§"b"]]
  = Some (Ok (text [§"b"; []])).
Proof. by vm_compute. Qed.

(** On such a file the lines of a pure addition disappear when another chunk
    replaces the end of the file: the addition is inserted before the blank
    line, inside the block that the other chunk then removes. *)
Example addition_swallowed :
  new_contents_of §"f" (text [§"a"; []; []]) [chunk [§"a"; []] [§"b"; []]; chunk [] [§"X"]]
  = Some (Ok (text [§"b"; []; []])).
Proof. by vm_compute. Qed.

(** ** Witnesses *)

Lemma update_is_splice_witness :
  let ol := original_lines_of (text [§"a"; §"b"; §"c"; []]) in
  let cs := [chunk [] [§"end"]; chunk [§"b"] [§"B"; §"BB"]] in
  new_contents_of §"f" (text [§"a"; §"b"; §"c"; []]) cs
    = Some (Ok (text [§"a"; §"B"; §"BB"; §"c"; §"end"; []])) ∧
  ∃ reps0 reps, Forall2 (rep_for ol) cs reps0 ∧ reps ≡ₚ reps0 ∧
    disjoint_from 0 reps (length ol) ∧
    text [§"a"; §"B"; §"BB"; §"c"; §"end"; []]
    = join [LF] (close_lines (patched ol 0 reps)).
Proof.
  intros ol cs.
  assert (new_contents_of §"f" (text [§"a"; §"b"; §"c"; []]) cs
    = Some (Ok (text [§"a"; §"B"; §"BB"; §"c"; §"end"; []]))) as H by (by vm_compute).
  split; [exact H|].
  apply (update_is_splice §"f" (text [§"a"; §"b"; §"c"; []]) cs); [|by left|exact H].
  repeat constructor.
Defined.

Definition sample_fs : MemFs.memfs :=
  {| MemFs.files := <[§"a" := §"one"]> (<[§"b" := §"two"]> ∅); MemFs.dirs := ∅ |}.
Definition sample_hunks : list Hunk := [DeleteFile §"a"; AddFile §"d/c" §"three"].

Lemma apply_hunks_frame_witness :
  match apply_hunks_to_files sample_fs sample_hunks with
  | Some (fs', r) => fs_read_to_string fs' §"b" = fs_read_to_string sample_fs §"b"
  | None => False
  end.
Proof.
  destruct (apply_hunks_to_files sample_fs sample_hunks) as [[fs' r]|] eqn:E.
  - apply (apply_hunks_frame sample_fs sample_hunks fs' r §"b" E).
    cbn. repeat (constructor; [intros H; by vm_compute in H|]). constructor.
  - vm_compute in E. discriminate E.
Defined.

