(* ===== verification/Invocation.v ===== *)
(** * Recognising and previewing a patch: [crates/apply-patch/src/invocation.rs]

    [maybe_parse_apply_patch_verified] decides whether a command is a patch and
    works out, from the files as they are, the changes it is going to make.
    The changes are what the safety check judges and the user is shown; the
    patch itself is applied later by [apply_patch].  The theorems relate both. *)
From S2P Require Import Prelude RustStr Paths PatchParser PatchApply.

(** ** Data *)
Inductive ApplyPatchFileChange :=
| ChangeAdd (content : str)
| ChangeDelete (content : str)
| ChangeUpdate (unified_diff : str) (move_path : option str) (new_content : str).

(** [HashMap<PathBuf, _>]: keys are compared as paths; an insertion under a key
    that is present replaces the value.  The order stands for the unspecified
    order of iteration. *)
Abbreviation Changes := (list (str * ApplyPatchFileChange)).

Fixpoint insert_change (path : str) (change : ApplyPatchFileChange) (changes : Changes) : Changes :=
  match changes with
  | [] => [(path, change)]
  | (k, v) :: changes' =>
      if path_eq k path then (k, change) :: changes'
      else (k, v) :: insert_change path change changes'
  end.

Record ApplyPatchAction := { changes : Changes; action_patch : str; action_cwd : str }.

Definition action_is_empty (action : ApplyPatchAction) : bool :=
  bool_decide (length (changes action) = 0).

Inductive ExtractHeredocError :=
| CommandDidNotStartWithApplyPatch
| FailedToLoadBashGrammar
| HeredocNotUtf8
| FailedToParsePatchIntoAst
| FailedToFindHeredocBody.

Inductive MaybeApplyPatch :=
| MaybeBody (args : ApplyPatchArgs)
| MaybeShellParseError (e : ExtractHeredocError)
| MaybePatchParseError (e : ParseError)
| MaybeNotApplyPatch.

Inductive MaybeApplyPatchVerified :=
| VerifiedBody (action : ApplyPatchAction)
| VerifiedShellParseError (e : ExtractHeredocError)
| VerifiedCorrectnessError (e : ApplyPatchError)
| VerifiedNotApplyPatch.

(** ** The shell a script is for *)
Inductive ApplyPatchShell := Unix | PowerShell | Cmd.

Definition APPLY_PATCH_COMMANDS : list str := [§"apply_patch"; §"applypatch"].

Definition classify_shell_name (shell : str) : option str :=
  to_ascii_lowercase <$> file_stem shell.

Definition classify_shell (shell flag : str) : option ApplyPatchShell :=
  name ← classify_shell_name shell;
  if one_of name [§"bash"; §"zsh"; §"sh"] && one_of flag [§"-lc"; §"-c"] then Some Unix
  else if one_of name [§"pwsh"; §"powershell"] && eq_ignore_ascii_case flag §"-command"
  then Some PowerShell
  else if bool_decide (name = §"cmd") && eq_ignore_ascii_case flag §"/c" then Some Cmd
  else None.

Definition can_skip_flag (shell flag : str) : bool :=
  match classify_shell_name shell with
  | Some name => one_of name [§"pwsh"; §"powershell"] && eq_ignore_ascii_case flag §"-noprofile"
  | None => false
  end.

Definition parse_shell_script (argv : list str) : option (ApplyPatchShell * str) :=
  match argv with
  | [shell; flag; script] => (λ t, (t, script)) <$> classify_shell shell flag
  | [shell; skip_flag; flag; script] =>
      if can_skip_flag shell skip_flag then (λ t, (t, script)) <$> classify_shell shell flag
      else None
  | _ => None
  end.

(** ** The patch in a shell script *)

(** A capture: its name in the query and its text, when that is UTF-8. *)
Abbreviation capture := (str * option str)%type.

Definition SINGLE_QUOTE : char := 39%N.

(** The body of the loop over the captures; the state is the heredoc and the
    directory. *)
Definition capture_step (st : option str * option str) (c : capture)
    : result ExtractHeredocError (option str * option str) :=
  let '(name, text) := c in
  if bool_decide (name = §"heredoc") then
    match text with
    | None => Err HeredocNotUtf8
    | Some t => Ok (Some (trim_end_matches (λ c, bool_decide (c = LF)) t), st.2)
    end
  else if bool_decide (name = §"cd_path") then
    match text with None => Err HeredocNotUtf8 | Some t => Ok (st.1, Some t) end
  else if bool_decide (name = §"cd_raw_string") then
    match text with
    | None => Err HeredocNotUtf8
    | Some raw =>
        Ok (st.1, Some (default raw (strip_prefix [SINGLE_QUOTE] raw ≫=
                                     strip_suffix [SINGLE_QUOTE])))
    end
  else Ok st.

Fixpoint captures_loop (st : option str * option str) (cs : list capture)
    : result ExtractHeredocError (option str * option str) :=
  match cs with
  | [] => Ok st
  | c :: cs' => st ← capture_step st c; captures_loop st cs'
  end.

Fixpoint matches_loop (ms : list (list capture))
    : result ExtractHeredocError (str * option str) :=
  match ms with
  | [] => Err CommandDidNotStartWithApplyPatch
  | m :: ms' =>
      '(heredoc_text, cd_path) ← captures_loop (None, None) m;
      match heredoc_text with
      | Some heredoc => Ok (heredoc, cd_path)
      | None => matches_loop ms'
      end
  end.

Section Verify.
Context {FS : Type} `{FileSystem FS}.
(** The tree-sitter parser with the query of [extract_apply_patch_from_bash],
    and the unified diff of the [similar] crate. *)
Context (query_matches : str → result ExtractHeredocError (list (list capture)))
        (unified_diff_text : str → str → nat → str).

Definition extract_apply_patch_from_bash (src : str)
    : result ExtractHeredocError (str * option str) :=
  query_matches src ≫= matches_loop.

Definition extract_apply_patch_from_shell (shell : ApplyPatchShell) (script : str)
    : result ExtractHeredocError (str * option str) :=
  match shell with Unix | PowerShell | Cmd => extract_apply_patch_from_bash script end.

Definition maybe_of_patch (workdir : option str) (r : result ParseError ApplyPatchArgs)
    : MaybeApplyPatch :=
  match r with
  | Ok source =>
      MaybeBody {| patch := patch source; hunks := hunks source; workdir := workdir |}
  | Err e => MaybePatchParseError e
  end.

Definition maybe_parse_from_shell (argv : list str) : option MaybeApplyPatch :=
  match parse_shell_script argv with
  | Some (shell, script) =>
      match extract_apply_patch_from_shell shell script with
      | Ok (body, workdir) => maybe_of_patch workdir <$> parse_patch body
      | Err CommandDidNotStartWithApplyPatch => Some MaybeNotApplyPatch
      | Err e => Some (MaybeShellParseError e)
      end
  | None => Some MaybeNotApplyPatch
  end.

(** [None]: out of fuel in the patch parser, which never happens. *)
Definition maybe_parse_apply_patch (argv : list str) : option MaybeApplyPatch :=
  match argv with
  | [cmd; body] =>
      if bool_decide (cmd ∈ APPLY_PATCH_COMMANDS) then maybe_of_patch None <$> parse_patch body
      else maybe_parse_from_shell argv
  | _ => maybe_parse_from_shell argv
  end.

Definition is_patch (text : str) : bool :=
  match parse_patch text with Some (Ok _) => true | _ => false end.

(** A patch given where an explicit call was expected. *)
Definition implicit_invocation (argv : list str) : bool :=
  match argv with [body] => is_patch body | _ => false end
  || match parse_shell_script argv with Some (_, script) => is_patch script | None => false end.

Record ApplyPatchFileUpdate := { update_unified_diff : str; update_content : str }.

Definition unified_diff_from_chunks_with_context (fs : FS) (path : str)
    (chunks : list UpdateFileChunk) (context : nat)
    : option (result ApplyPatchError ApplyPatchFileUpdate) :=
  r ← derive_new_contents_from_chunks fs path chunks;
  Some ('(original_contents, new_contents) ← r;
        Ok {| update_unified_diff := unified_diff_text original_contents new_contents context;
              update_content := new_contents |}).

Definition unified_diff_from_chunks (fs : FS) (path : str) (chunks : list UpdateFileChunk)
    : option (result ApplyPatchError ApplyPatchFileUpdate) :=
  unified_diff_from_chunks_with_context fs path chunks 1.

Definition hunk_resolve_path (cwd : str) (hunk : Hunk) : str :=
  match hunk with
  | AddFile path _ | DeleteFile path | UpdateFile path _ _ => path_join cwd path
  end.

(** The change a hunk stands for; [None] is a panic. *)
Definition change_of_hunk (fs : FS) (effective_cwd : str) (hunk : Hunk)
    : option (result ApplyPatchError ApplyPatchFileChange) :=
  let path := hunk_resolve_path effective_cwd hunk in
  match hunk with
  | AddFile _ contents => Some (Ok (ChangeAdd contents))
  | DeleteFile _ =>
      Some match fs_read_to_string fs path with
           | Ok content => Ok (ChangeDelete content)
           | Err e => Err (AIoError (§"Failed to read " ++ path) e)
           end
  | UpdateFile _ move_path chunks =>
      r ← unified_diff_from_chunks fs path chunks;
      Some (u ← r;
            Ok (ChangeUpdate (update_unified_diff u) (path_join effective_cwd <$> move_path)
                  (update_content u)))
  end.

Fixpoint changes_loop (fs : FS) (effective_cwd : str) (hunks : list Hunk) (changes : Changes)
    : option (result ApplyPatchError Changes) :=
  match hunks with
  | [] => Some (Ok changes)
  | hunk :: hunks' =>
      r ← change_of_hunk fs effective_cwd hunk;
      match r with
      | Err e => Some (Err e)
      | Ok change =>
          changes_loop fs effective_cwd hunks'
            (insert_change (hunk_resolve_path effective_cwd hunk) change changes)
      end
  end.

Definition maybe_parse_apply_patch_verified (fs : FS) (argv : list str) (cwd : str)
    : option MaybeApplyPatchVerified :=
  if implicit_invocation argv then Some (VerifiedCorrectnessError AImplicitInvocation)
  else
    m ← maybe_parse_apply_patch argv;
    match m with
    | MaybeBody args =>
        let effective_cwd :=
          match workdir args with Some dir => path_join cwd dir | None => cwd end in
        r ← changes_loop fs effective_cwd (hunks args) [];
        Some match r with
             | Err e => VerifiedCorrectnessError e
             | Ok changes =>
                 VerifiedBody {| changes := changes; action_patch := patch args;
                                 action_cwd := effective_cwd |}
             end
    | MaybeShellParseError e => Some (VerifiedShellParseError e)
    | MaybePatchParseError e => Some (VerifiedCorrectnessError (AParseError e))
    | MaybeNotApplyPatch => Some VerifiedNotApplyPatch
    end.
End Verify.

(** * Correctness *)

(** ** The patch that is kept reads back *)

Lemma trim_start_app s t : trim_start s ≠ [] → trim_start (s ++ t) = trim_start s ++ t.
Proof.
  unfold trim_start. induction s as [|x s IH]; cbn; [done|].
  destruct (is_whitespace x); [apply IH|done].
Qed.

Lemma trim_end_app s t : trim_end t ≠ [] → trim_end (s ++ t) = s ++ trim_end t.
Proof.
  unfold trim_end. intros H. rewrite reverse_app.
  pose proof (trim_start_app (reverse t) (reverse s)) as Ha. unfold trim_start in Ha.
  rewrite Ha; [by rewrite reverse_app, reverse_involutive|]. intros E. apply H. by rewrite E.
Qed.

Lemma trim_ne_start s : trim s ≠ [] → trim_start s ≠ [].
Proof. unfold trim. intros H E. by rewrite E in H. Qed.
Lemma trim_ne_end s : trim s ≠ [] → trim_end s ≠ [].
Proof. rewrite trim_start_end. intros H E. by rewrite E in H. Qed.

Lemma trim_join f mid l :
  trim f ≠ [] → trim l ≠ [] →
  trim (join [LF] (f :: mid ++ [l])) = join [LF] (trim_start f :: mid ++ [trim_end l]).
Proof.
  intros Hf%trim_ne_start Hl%trim_ne_end. unfold trim.
  rewrite !join_cons by (by destruct mid).
  rewrite trim_start_app by done.
  destruct mid as [|m mid].
  - rewrite !app_nil_l. change (join [LF] [l]) with l. change (join [LF] [trim_end l]) with (trim_end l).
    by rewrite !app_assoc, trim_end_app.
  - rewrite !join_snoc by done. by rewrite !app_assoc, trim_end_app.
Qed.

Lemma trim_trim_start s : trim (trim_start s) = trim s.
Proof.
  unfold trim, trim_start. by rewrite (drop_while_skip _ (drop_while is_whitespace s))
    by apply drop_while_head.
Qed.
Lemma trim_trim_end s : trim (trim_end s) = trim s.
Proof. apply trim_of_trim_end, trim_end_fixed, trim_end_last. Qed.

Lemma check_strict_Ok ls :
  check_patch_boundaries_strict ls = Ok tt →
  ∃ f mid l, ls = f :: mid ++ [l] ∧ trim f = BEGIN_PATCH_MARKER ∧ trim l = END_PATCH_MARKER.
Proof.
  unfold check_patch_boundaries_strict, check_start_and_end_lines_strict.
  destruct ls as [|f ls]; [done|]. cbn [head]. destruct ls as [|l mid _] using rev_ind.
  - cbn. do 2 (case_bool_decide; [|done]). intros _.
    match goal with H : _ = BEGIN_PATCH_MARKER |- _ => rewrite H in * end. done.
  - rewrite app_comm_cons, last_snoc. cbn. do 2 (case_bool_decide; [|done]). intros _.
    exists f, mid, l. split_and!; [done..|]. by simplify_eq.
Qed.

Lemma select_lines_strict ls mode ls' :
  select_lines ls mode = Ok ls' → check_patch_boundaries_strict ls' = Ok tt.
Proof.
  unfold select_lines. destruct (check_patch_boundaries_strict ls) as [[]|e] eqn:E.
  { by intros [= <-]. }
  destruct mode; [done|]. unfold check_patch_boundaries_lenient.
  destruct ls as [|x [|y ls]]; [done..|]. case_match; [|done].
  match goal with |- context [check_patch_boundaries_strict ?i] => set (inner := i) end.
  destruct (check_patch_boundaries_strict inner) as [[]|] eqn:E'; cbn; [|done].
  by intros [= <-].
Qed.

Lemma elem_of_join c ls l : l ∈ ls → c ∈ l → c ∈ join [LF] ls.
Proof.
  induction ls as [|x ls IH]; [by intros ?%elem_of_nil|]. destruct ls as [|y ls].
  - intros ->%list_elem_of_singleton. done.
  - rewrite join_cons by done. intros [->|Hin]%elem_of_cons Hc; [set_solver|].
    specialize (IH Hin Hc). set_solver.
Qed.

Lemma last_elem {A} (l : list A) x : last l = Some x → x ∈ l.
Proof. intros (l' & ->)%last_Some. set_solver. Qed.

Lemma elem_of_trim_start c s : c ∈ trim_start s → c ∈ s.
Proof. destruct (trim_start_suffix s) as (w & Hs & _). rewrite Hs at 2. set_solver. Qed.
Lemma elem_of_trim_end c s : c ∈ trim_end s → c ∈ s.
Proof. destruct (trim_end_prefix s) as (w & Hs & _). rewrite Hs at 2. set_solver. Qed.

Lemma lines_LF_free s l : l ∈ lines s → LF ∉ l.
Proof. apply lines_no_LF. Qed.

Lemma select_lines_sub ls mode ls' :
  select_lines ls mode = Ok ls' → ls' ⊆ ls.
Proof.
  unfold select_lines. destruct (check_patch_boundaries_strict ls) as [[]|e]; [by intros [= <-]|].
  destruct mode; [done|]. unfold check_patch_boundaries_lenient.
  destruct ls as [|x [|y ls]]; [done..|]. case_match; [|done].
  match goal with |- context [check_patch_boundaries_strict ?i] => set (inner := i) end.
  destruct (check_patch_boundaries_strict inner); cbn; [|done]. intros [= <-] z Hz.
  apply (subseteq_drop 1 (x :: y :: ls)). by eapply subseteq_take.
Qed.

Lemma parse_patch_again text args :
  parse_patch text = Some (Ok args) → CR ∉ patch args →
  ∃ p, parse_patch (patch args) = Some (Ok {| patch := p; hunks := hunks args; workdir := None |}).
Proof.
  unfold parse_patch. generalize (if PARSE_IN_STRICT_MODE then Strict else Lenient). intros mode.
  unfold parse_patch_text. destruct (select_lines (lines (trim text)) mode) as [ls|] eqn:Es; [|done].
  pose proof (select_lines_sub _ _ _ Es) as Hsub.
  apply select_lines_strict in Es. apply check_strict_Ok in Es as (f & mid & l & -> & Hf & Hl).
  remember (join [LF] (f :: mid ++ [l])) as kept eqn:Ekept.
  destruct (parse_hunks _ _ 2 []) as [[hs|e]|] eqn:Eh; cbn [mbind option_bind]; [|done..].
  intros [= <-] Hcr. cbn [patch hunks] in *. rewrite Ekept in *.
  rewrite trim_join by (by rewrite ?Hf, ?Hl).
  assert (∀ x, x ∈ f :: mid ++ [l] → clean_line x) as Hclean.
  { intros x Hx. split; [by eapply lines_LF_free, Hsub|].
    intros E%last_elem. apply Hcr. by eapply elem_of_join. }
  rewrite lines_join.
  - unfold select_lines at 1, check_patch_boundaries_strict. cbn [head].
    rewrite app_comm_cons, last_snoc. unfold check_start_and_end_lines_strict.
    cbn [fmap option_fmap option_map].
    rewrite trim_trim_start, trim_trim_end, Hf, Hl, !bool_decide_true by done.
    rewrite <-app_comm_cons.
    rewrite !length_cons, !length_app in *. cbn [length] in *.
    assert (∀ a b : str, drop 1 (take (S (length mid + 1) - 1) (a :: mid ++ [b])) = mid) as Hmid.
    { intros a b. replace (S (length mid + 1) - 1) with (S (length mid)) by lia. cbn.
      by rewrite take_app_length. }
    rewrite Hmid in Eh. rewrite Hmid, Eh. cbn. eauto.
  - apply Forall_forall. intros x Hx. rewrite !elem_of_cons, elem_of_app in Hx.
    rewrite list_elem_of_singleton in Hx. destruct Hx as [->|[Hx| ->]].
    + destruct (Hclean f) as [H1 H2]; [by left|]. split; [by intros ?%elem_of_trim_start|].
      intros E. apply H2. destruct (trim_start_suffix f) as (w & Hs & _).
      rewrite Hs, last_app, E. done.
    + apply Hclean. set_solver.
    + destruct (Hclean l) as [H1 _]; [set_solver|]. split; [by intros ?%elem_of_trim_end|].
      intros E%trim_end_last. done.
  - intros x. rewrite app_comm_cons, last_snoc. intros [= <-]. apply trim_ne_end. by rewrite Hl.
Qed.

(** ** The preview always comes to a result *)
Section Preview.
Context {FS : Type} `{FileSystemLaws FS}.
Context (query_matches : str → result ExtractHeredocError (list (list capture)))
        (unified_diff_text : str → str → nat → str).
Notation verified := (maybe_parse_apply_patch_verified query_matches unified_diff_text).
Notation hunk_change := (change_of_hunk unified_diff_text).
Notation changes_run := (changes_loop unified_diff_text).
Implicit Types (fs : FS).

Lemma change_of_hunk_total fs cwd h : ∃ r, hunk_change fs cwd h = Some r.
Proof.
  destruct h as [p c|p|p mv cs]; cbn [change_of_hunk]; eauto.
  unfold unified_diff_from_chunks, unified_diff_from_chunks_with_context.
  destruct (derive_not_None fs (hunk_resolve_path cwd (UpdateFile p mv cs)) cs) as [r ->].
  cbn. eauto.
Qed.

Lemma changes_loop_total fs cwd hs acc : ∃ r, changes_run fs cwd hs acc = Some r.
Proof.
  revert acc. induction hs as [|h hs IH]; intros acc; cbn [changes_loop]; [eauto|].
  destruct (change_of_hunk_total fs cwd h) as [[ch|e] ->]; cbn; eauto.
Qed.

Lemma parse_patch_total text : ∃ r, parse_patch text = Some r.
Proof. apply parse_text_finishes. Qed.

Lemma verified_total fs argv cwd : ∃ v, verified fs argv cwd = Some v.
Proof.
  unfold maybe_parse_apply_patch_verified. destruct (implicit_invocation argv); [eauto|].
  assert (∃ m, maybe_parse_apply_patch query_matches argv = Some m) as [m ->].
  { assert (∃ m, maybe_parse_from_shell query_matches argv = Some m) as Hsh.
    { unfold maybe_parse_from_shell. destruct (parse_shell_script argv) as [[sh script]|]; [|eauto].
      destruct (extract_apply_patch_from_shell _ _ _) as [[body wd]|[]]; eauto.
      destruct (parse_patch_total body) as [r ->]. cbn. eauto. }
    unfold maybe_parse_apply_patch. repeat (case_match; try done); subst; eauto.
    match goal with |- context [parse_patch ?b] => destruct (parse_patch_total b) as [r ->] end.
    cbn. eauto. }
  cbn. destruct m as [args|e|e|]; eauto.
  destruct (changes_loop_total fs (match workdir args with Some dir => path_join cwd dir | None => cwd end)
              (hunks args) []) as [r ->]. cbn. eauto.
Qed.

(** ** The preview and what applying the patch does *)

Fixpoint pairwise {A} (R : A → A → Prop) (l : list A) : Prop :=
  match l with [] => True | x :: l' => Forall (R x) l' ∧ pairwise R l' end.

Lemma pairwise_app {A} (R : A → A → Prop) l k :
  pairwise R (l ++ k) ↔ pairwise R l ∧ pairwise R k ∧ Forall (λ x, Forall (R x) k) l.
Proof.
  induction l as [|x l IH]; cbn; [by split; [intros; split_and!|intros (_ & ? & _)]|].
  rewrite IH, Forall_app, Forall_cons. tauto.
Qed.

(** A relative path of the patch names a file of the directory it is run in. *)
Definition resolve_hunk (cwd : str) (h : Hunk) : Hunk :=
  match h with
  | AddFile p c => AddFile (path_join cwd p) c
  | DeleteFile p => DeleteFile (path_join cwd p)
  | UpdateFile p mv cs => UpdateFile (path_join cwd p) (path_join cwd <$> mv) cs
  end.

Definition entry_paths (e : str * ApplyPatchFileChange) : list str :=
  e.1 :: match e.2 with ChangeUpdate _ (Some d) _ => [d] | _ => [] end.
Definition change_paths (cs : Changes) : list str := cs ≫= entry_paths.

(** No two hunks are about the same path, and no two paths of the patch (source
    or destination) name the same file. *)
Definition keys_apart (hs : list Hunk) (cwd : str) : Prop :=
  pairwise (λ p q, path_eq p q = false) (hunk_resolve_path cwd <$> hs).
Definition files_apart (ps : list str) : Prop :=
  pairwise (λ p q, ¬ same_file p q ∧ ¬ same_file q p) ps.

(** What an entry of the preview says about the files before and after. *)
Definition realised fs fs' (e : str * ApplyPatchFileChange) : Prop :=
  match e.2 with
  | ChangeAdd c => fs_read_to_string fs' e.1 = Ok c
  | ChangeDelete c =>
      fs_read_to_string fs e.1 = Ok c ∧ ∃ err, fs_read_to_string fs' e.1 = Err err
  | ChangeUpdate _ None c => fs_read_to_string fs' e.1 = Ok c
  | ChangeUpdate _ (Some d) c =>
      fs_read_to_string fs' d = Ok c ∧ ∃ err, fs_read_to_string fs' e.1 = Err err
  end.

Definition entry_of fs cwd (h : Hunk) (e : str * ApplyPatchFileChange) : Prop :=
  e.1 = hunk_resolve_path cwd h ∧ hunk_change fs cwd h = Some (Ok e.2).

Lemma insert_change_new p ch cs :
  Forall (λ k, path_eq k p = false) cs.*1 → insert_change p ch cs = cs ++ [(p, ch)].
Proof.
  induction cs as [|[k v] cs IH]; cbn; [done|]. intros [Hk Hcs]%Forall_cons.
  by rewrite Hk, IH.
Qed.

Lemma changes_loop_entries fs cwd hs acc cs :
  changes_run fs cwd hs acc = Some (Ok cs) →
  pairwise (λ p q, path_eq p q = false) (acc.*1 ++ (hunk_resolve_path cwd <$> hs)) →
  ∃ cs', cs = acc ++ cs' ∧ Forall2 (entry_of fs cwd) hs cs'.
Proof.
  revert acc. induction hs as [|h hs IH]; intros acc; cbn [changes_loop].
  { intros [= <-] _. exists []. by rewrite app_nil_r. }
  destruct (hunk_change fs cwd h) as [[ch|e]|] eqn:Eh; cbn; [|done..].
  intros Hl Hp. pose proof Hp as (_ & _ & Hcross)%pairwise_app.
  rewrite insert_change_new in Hl.
  - apply IH in Hl as (cs' & -> & Hf).
    + exists ((hunk_resolve_path cwd h, ch) :: cs'). rewrite <-(assoc_L (++)). split; [done|].
      by constructor.
    + by rewrite fmap_app, <-(assoc_L (++)).
  - eapply Forall_impl; [exact Hcross|]. cbn. by intros k [? _]%Forall_cons.
Qed.

Lemma entry_of_paths fs cwd h e :
  entry_of fs cwd h e → entry_paths e = hunk_paths (resolve_hunk cwd h).
Proof.
  intros [He Hc]. unfold entry_paths. rewrite He. destruct h as [p c|p|p mv cs]; cbn in Hc |- *.
  - simplify_eq. by rewrite <-Hc.
  - destruct (fs_read_to_string _ _); simplify_eq. by rewrite <-Hc.
  - destruct (unified_diff_from_chunks _ _ _ _) as [[u|?]|]; cbn in Hc; simplify_eq.
    rewrite <-Hc. by destruct mv.
Qed.

Lemma change_paths_eq fs cwd hs cs :
  Forall2 (entry_of fs cwd) hs cs → change_paths cs = (resolve_hunk cwd <$> hs) ≫= hunk_paths.
Proof.
  induction 1 as [|h e hs cs He _ IH]; [done|]. unfold change_paths in *.
  rewrite fmap_cons, !bind_cons, IH. f_equal. by eapply entry_of_paths.
Qed.

Lemma derive_same_reads fs fs1 p cs :
  fs_read_to_string fs1 p = fs_read_to_string fs p →
  derive_new_contents_from_chunks fs1 p cs = derive_new_contents_from_chunks fs p cs.
Proof. unfold derive_new_contents_from_chunks. by intros ->. Qed.

(** One hunk, applied where its files are still as the preview saw them. *)
Lemma hunk_realised fs fs0 cwd h e aff fs1 aff1 :
  entry_of fs cwd h e →
  Forall (λ p, fs_read_to_string fs0 p = fs_read_to_string fs p) (entry_paths e) →
  files_apart (entry_paths e) →
  apply_hunk fs0 aff (resolve_hunk cwd h) = Some (fs1, Ok aff1) →
  realised fs fs1 e.
Proof.
  intros He. rewrite (entry_of_paths _ _ _ _ He). destruct e as [k ch]. destruct He as [Hk Hch].
  cbn in Hk, Hch. subst k. unfold realised. destruct h as [p c|p|p mv cs]; cbn in *; intros Hr Hsep Ha.
  - simplify_eq. destruct (create_and_write fs0 _ c) as [fs2 [[]|err]] eqn:Ew; cbn in *; simplify_eq.
    by eapply create_and_write_Ok.
  - apply Forall_cons in Hr as [Hr _].
    destruct (fs_read_to_string fs _) as [c|err] eqn:E; simplify_eq.
    destruct (fs_remove_file fs0 _) as [fs2 [[]|err]] eqn:Er; cbn in *; simplify_eq.
    split; [done|]. by eapply remove_read.
  - apply Forall_cons in Hr as [Hr _].
    unfold unified_diff_from_chunks, unified_diff_from_chunks_with_context in Hch.
    rewrite (derive_same_reads _ _ _ cs Hr) in Ha.
    destruct (derive_new_contents_from_chunks fs _ cs) as [[[oc nc]|err]|]; cbn in *; simplify_eq.
    destruct mv as [d|]; cbn in *.
    + destruct (create_and_write fs0 _ nc) as [fs2 [[]|err]] eqn:Ew; [|by simplify_eq].
      apply create_and_write_Ok in Ew.
      destruct (fs_remove_file fs2 _) as [fs3 [[]|err]] eqn:Er; cbn in *; simplify_eq.
      destruct Hsep as [[[_ Hne] _]%Forall_cons _]. split; [|by eapply remove_read].
      by rewrite (remove_frame _ _ _ _ _ Er).
    + destruct (fs_write fs0 _ nc) as [fs2 [[]|err]] eqn:Ew; cbn in *; simplify_eq.
      by eapply write_read.
Qed.

Lemma realised_stable fs fs1 fs2 e :
  realised fs fs1 e →
  Forall (λ p, fs_read_to_string fs2 p = fs_read_to_string fs1 p) (entry_paths e) →
  realised fs fs2 e.
Proof.
  destruct e as [k ch]. unfold realised, entry_paths. cbn.
  destruct ch as [c|c|d [m|] c]; cbn; intros Hr Hs; decompose_Forall_hyps; by rewrite ?H0, ?H1, ?H2.
Qed.

Lemma run_realises fs cwd hs cs fs0 aff fs' aff' :
  Forall2 (entry_of fs cwd) hs cs →
  Forall (λ p, fs_read_to_string fs0 p = fs_read_to_string fs p) (change_paths cs) →
  files_apart (change_paths cs) →
  apply_hunks_loop fs0 aff (resolve_hunk cwd <$> hs) = Some (fs', Ok aff') →
  Forall (realised fs fs') cs.
Proof.
  intros Hf. revert fs0 aff. induction Hf as [|h e hs cs He Hf IH]; intros fs0 aff; [done|].
  assert (change_paths (e :: cs) = entry_paths e ++ change_paths cs) as -> by done.
  rewrite Forall_app. intros [Hre Hrs] (Hse & Hss & Hx)%pairwise_app. cbn.
  destruct (apply_hunk fs0 aff (resolve_hunk cwd h)) as [[fs1 [aff1|err]]|] eqn:Ea; cbn; [|done..].
  intros Hl.
  pose proof (apply_hunk_touches _ _ _ _ _ Ea) as Ht1. rewrite <-(entry_of_paths _ _ _ _ He) in Ht1.
  pose proof (apply_hunks_loop_touches _ _ _ _ _ Hl) as Ht2.
  rewrite <-(change_paths_eq _ _ _ _ Hf) in Ht2.
  constructor.
  - apply (realised_stable fs fs1); [by eapply hunk_realised|].
    eapply Forall_impl; [exact Hx|]. intros p Hp. apply Ht2.
    eapply Forall_impl; [exact Hp|]. by intros q [? _].
  - eapply IH; [|done|exact Hl]. rewrite Forall_forall in *. intros q Hq.
    rewrite <-(Hrs q Hq). apply Ht1. apply Forall_forall. intros p Hp.
    specialize (Hx p Hp). rewrite Forall_forall in Hx. by destruct (Hx q Hq).
Qed.

(** Where an accepted patch comes from. *)
Lemma verified_body_inv fs argv cwd action :
  verified fs argv cwd = Some (VerifiedBody action) →
  implicit_invocation argv = false ∧
  ∃ text args, parse_patch text = Some (Ok args) ∧ action_patch action = patch args ∧
    changes_run fs (action_cwd action) (hunks args) [] = Some (Ok (changes action)).
Proof.
  unfold maybe_parse_apply_patch_verified. destruct (implicit_invocation argv); [done|].
  destruct (maybe_parse_apply_patch query_matches argv) as [m|] eqn:Em; cbn; [|done].
  destruct m as [args|e|e|]; [|done..]. intros H'. split; [done|].
  assert (∃ text args0, parse_patch text = Some (Ok args0) ∧ patch args = patch args0 ∧
            hunks args = hunks args0) as (text & args0 & Hp & Hpe & Hhe).
  { assert (∀ text wd, maybe_of_patch wd <$> parse_patch text = Some (MaybeBody args) →
              ∃ text args0, parse_patch text = Some (Ok args0) ∧ patch args = patch args0 ∧
                hunks args = hunks args0) as Hof.
    { intros text wd. destruct (parse_patch text) as [[a|e]|] eqn:E; cbn; intros; simplify_eq.
      by exists text, a. }
    assert (maybe_parse_from_shell query_matches argv = Some (MaybeBody args) →
            ∃ text args0, parse_patch text = Some (Ok args0) ∧ patch args = patch args0 ∧
              hunks args = hunks args0) as Hsh.
    { unfold maybe_parse_from_shell. destruct (parse_shell_script argv) as [[sh script]|]; [|done].
      destruct (extract_apply_patch_from_shell _ _ _) as [[body wd]|[]]; try done. apply Hof. }
    revert Em. unfold maybe_parse_apply_patch. repeat (case_match; try done); eauto. }
  exists text, args0. rewrite <-Hhe, <-Hpe. split; [done|].
  destruct (changes_run fs _ (hunks args) []) as [[cs|e]|] eqn:Ec; cbn in H'; simplify_eq.
  by split.
Qed.

Lemma preview_effect fs argv cwd action :
  verified fs argv cwd = Some (VerifiedBody action) →
  CR ∉ action_patch action →
  ∃ p hs, parse_patch (action_patch action)
            = Some (Ok {| patch := p; hunks := hs; workdir := None |}) ∧
    (keys_apart hs (action_cwd action) →
     ∀ out, apply_hunks fs (resolve_hunk (action_cwd action) <$> hs) = Some out →
       (∀ q, Forall (λ p, ¬ same_file q p) (change_paths (changes action)) →
             fs_read_to_string (out_fs out) q = fs_read_to_string fs q) ∧
       (out_result out = Ok tt → files_apart (change_paths (changes action)) →
          Forall (realised fs (out_fs out)) (changes action))).
Proof.
  intros (_ & text & args & Hp & Hpe & Hc)%verified_body_inv Hcr. rewrite Hpe in *.
  destruct (parse_patch_again _ _ Hp Hcr) as [p Hp']. exists p, (hunks args). split; [done|].
  intros Hk out Ho.
  destruct (changes_loop_entries _ _ _ _ _ Hc Hk) as (cs & Hcs & Hf). cbn in Hcs.
  rewrite Hcs. unfold apply_hunks, apply_hunks_to_files in Ho.
  rewrite (change_paths_eq _ _ _ _ Hf).
  destruct (resolve_hunk (action_cwd action) <$> hunks args) as [|h0 hs0] eqn:Ehs.
  { cbn in Ho. simplify_eq. cbn. by split. }
  rewrite <-Ehs in *.
  destruct (apply_hunks_loop fs no_paths _) as [[fs' r]|] eqn:El; cbn in Ho; [|done].
  split.
  - intros q Hq. assert (out_fs out = fs') as -> by (by destruct r; simplify_eq).
    by eapply apply_hunks_loop_touches.
  - intros Hok Hsep. destruct r as [aff|err]; simplify_eq. cbn in *.
    eapply run_realises; [done| |by rewrite (change_paths_eq _ _ _ _ Hf)|exact El].
    by apply Forall_forall.
Qed.

(** What is previewed is what happens.  Let a command be accepted as a patch
    with its changes.  The patch kept for later parses again, to the hunks the
    preview was made from (unless it holds a carriage return).  Applied in the
    action's directory, on the files as they were, it changes no file but those
    of the previewed changes; and when it succeeds, every previewed change is
    realised, with exactly the previewed contents.  The hunks have to be about
    different paths, and for the second part no two paths may name one file. *)
Theorem preview_is_effect fs argv cwd action :
  verified fs argv cwd = Some (VerifiedBody action) →
  CR ∉ action_patch action →
  ∃ p hs, parse_patch (action_patch action)
            = Some (Ok {| patch := p; hunks := hs; workdir := None |}) ∧
    (keys_apart hs (action_cwd action) →
     ∀ out, apply_hunks fs (resolve_hunk (action_cwd action) <$> hs) = Some out →
       (∀ q, Forall (λ p, ¬ same_file q p) (change_paths (changes action)) →
             fs_read_to_string (out_fs out) q = fs_read_to_string fs q) ∧
       (out_result out = Ok tt → files_apart (change_paths (changes action)) →
          Forall (realised fs (out_fs out)) (changes action))).
Proof. apply preview_effect. Qed.
End Preview.

(** ** Witness and findings *)

Definition no_query (_ : str) : result ExtractHeredocError (list (list capture)) := Ok [].
Definition no_diff (_ _ : str) (_ : nat) : str := [].
Definition preview_fs : MemFs.memfs :=
  {| MemFs.files := <[§"/w/a" := text [§"one"; §"two"; []]]> (<[§"/w/b" := §"x"]> ∅);
     MemFs.dirs := {[§"/w"]} |}.
Definition preview_patch : str :=
  text [§"*** Begin Patch"; §"*** Update File: a"; §"*** Move to: c"; §"@@"; §" one"; §"-two";
        §"+2"; §"*** Delete File: b"; §"*** End Patch"].

Definition preview_hunks : list Hunk :=
  match parse_patch preview_patch with Some (Ok a) => hunks a | _ => [] end.
Definition preview_entries : Changes :=
  [(§"/w/a", ChangeUpdate [] (Some §"/w/c") (text [§"one"; §"2"; []])); (§"/w/b", ChangeDelete §"x")].
Definition preview_action : ApplyPatchAction :=
  {| changes := preview_entries; action_patch := preview_patch; action_cwd := §"/w" |}.

Lemma preview_is_effect_witness :
  maybe_parse_apply_patch_verified no_query no_diff preview_fs
    [§"apply_patch"; preview_patch] §"/w" = Some (VerifiedBody preview_action) ∧
  ∃ out, apply_hunks preview_fs (resolve_hunk §"/w" <$> preview_hunks) = Some out ∧
    Forall (realised preview_fs (out_fs out)) preview_entries.
Proof.
  assert (maybe_parse_apply_patch_verified no_query no_diff preview_fs
    [§"apply_patch"; preview_patch] §"/w" = Some (VerifiedBody preview_action)) as E by by vm_compute.
  split; [exact E|].
  destruct (preview_is_effect no_query no_diff preview_fs _ _ _ E) as (p & hs & Hp & Hrun);
    [by apply (bool_decide_unpack _); vm_compute|].
  assert (hs = preview_hunks) as ->.
  { unfold preview_hunks. cbn [action_patch preview_action] in Hp. by rewrite Hp. }
  destruct (apply_hunks preview_fs (resolve_hunk §"/w" <$> preview_hunks)) as [out|] eqn:Eo;
    [|vm_compute in Eo; discriminate Eo].
  exists out. split; [done|].
  destruct (Hrun ltac:(by vm_compute; repeat constructor) out Eo) as [_ Hr].
  vm_compute in Eo. injection Eo as <-. apply Hr; [done|].
  clear. vm_compute. repeat first [discriminate | constructor].
Defined.

(** Two hunks about one path: the later one replaces the earlier in the preview,
    so a move is neither judged nor shown, and is made all the same. *)
Example second_hunk_hides_a_move :
  let p := text [§"*** Begin Patch"; §"*** Update File: a"; §"*** Move to: /etc/x"; §"@@"; §"-one";
                 §"*** Add File: a"; §"+new"; §"*** End Patch"] in
  let fs := {| MemFs.files := MemFs.files preview_fs; MemFs.dirs := {[§"/w"; §"/etc"]} |} in
  (maybe_parse_apply_patch_verified no_query no_diff fs [§"apply_patch"; p] §"/w"
   = Some (VerifiedBody {| changes := [(§"/w/a", ChangeAdd (text [§"new"; []]))];
                           action_patch := p; action_cwd := §"/w" |})) ∧
  match parse_patch p with
  | Some (Ok args) =>
      match apply_hunks fs (resolve_hunk §"/w" <$> hunks args) with
      | Some out => out_result out = Ok tt ∧
                    fs_read_to_string (out_fs out) §"/etc/x" = Ok (text [§"two"; []])
      | None => False
      end
  | _ => False
  end.
Proof. by vm_compute. Qed.

(** A file moved onto itself is written and then removed. *)
Example move_onto_itself_deletes :
  match apply_hunks preview_fs [UpdateFile §"/w/b" (Some §"/w/b") [chunk [§"x"] [§"y"]]] with
  | Some out => out_result out = Ok tt ∧ is_ok (fs_read_to_string (out_fs out) §"/w/b") = false
  | None => False
  end.
Proof. by vm_compute. Qed.

(** Two carriage returns before a newline: the preview keeps one, the kept patch
    when it is parsed again loses it. *)
Example carriage_return_lost :
  let p := text [§"*** Begin Patch"; §"*** Add File: n"; §"+x" ++ [CR; CR]; §"*** End Patch"] in
  match maybe_parse_apply_patch_verified no_query no_diff preview_fs [§"apply_patch"; p] §"/w" with
  | Some (VerifiedBody action) =>
      changes action = [(§"/w/n", ChangeAdd (§"x" ++ [CR; LF]))] ∧
      match parse_patch (action_patch action) with
      | Some (Ok args) => hunks args = [AddFile §"n" (§"x" ++ [LF])]
      | _ => False
      end
  | _ => False
  end.
Proof. by vm_compute. Qed.
