(* ===== verification/ExecPolicy.v ===== *)
(** * Execution policy: [crates/exec-policy/src]

    Decisions, prefix rules and their matching ([decision.rs], [rule.rs]), the
    policy and its evaluation ([policy.rs]), the [prefix_rule] builtin that
    builds a policy ([parser.rs]) and the policy file edits ([amend.rs]). *)
From S2P Require Import Prelude RustStr.

(** ** [decision.rs], [error.rs] *)

Inductive Decision := Allow | Prompt | Forbidden.
#[export] Instance Decision_eq : EqDecision Decision.
Proof. solve_decision. Defined.

(** The derived [Ord]: the order of the constructors. *)
Definition rank (d : Decision) : nat :=
  match d with Allow => 0 | Prompt => 1 | Forbidden => 2 end.
Definition decision_le (a b : Decision) : Prop := rank a ≤ rank b.
#[export] Instance decision_le_dec a b : base.Decision (decision_le a b).
Proof. unfold decision_le. apply _. Defined.
Definition decision_max (a b : Decision) : Decision :=
  if decide (decision_le b a) then a else b.

Inductive Error :=
| InvalidDecision (raw : str)
| InvalidPattern (message : str)
| InvalidExample (message : str)
| InvalidRule (message : str)
| ExampleDidNotMatch (rules examples : list str)
| ExampleDidMatch (rule example : str).

Definition parse_decision (raw : str) : result Error Decision :=
  if bool_decide (raw = §"allow") then Ok Allow
  else if bool_decide (raw = §"prompt") then Ok Prompt
  else if bool_decide (raw = §"forbidden") then Ok Forbidden
  else Err (InvalidDecision raw).

(** ** [rule.rs] *)

Inductive PatternToken := Single (s : str) | Alts (alternatives : list str).

Definition token_matches (t : PatternToken) (token : str) : bool :=
  match t with
  | Single expected => bool_decide (expected = token)
  | Alts alternatives => existsb (λ alt, bool_decide (alt = token)) alternatives
  end.

Definition alternatives (t : PatternToken) : list str :=
  match t with Single expected => [expected] | Alts alts => alts end.

Record PrefixPattern := { first : str; rest : list PatternToken }.

(** The loop over [rest.iter().zip(&cmd[1..pattern_length])]. *)
Fixpoint tokens_match (ts : list PatternToken) (cmd : list str) : bool :=
  match ts, cmd with
  | t :: ts', c :: cmd' => token_matches t c && tokens_match ts' cmd'
  | _, _ => true
  end.

Definition matches_prefix (p : PrefixPattern) (cmd : list str) : option (list str) :=
  let pattern_length := length (rest p) + 1 in
  if bool_decide (length cmd < pattern_length)
     || negb (bool_decide (head cmd = Some (first p))) then None
  else if tokens_match (rest p) (take (length (rest p)) (drop 1 cmd))
  then Some (take pattern_length cmd) else None.

Inductive RuleMatch :=
| PrefixRuleMatch (matched_prefix : list str) (decision : Decision) (justification : option str)
| HeuristicsRuleMatch (command : list str) (decision : Decision).

Definition match_decision (m : RuleMatch) : Decision :=
  match m with PrefixRuleMatch _ d _ => d | HeuristicsRuleMatch _ d => d end.

Record PrefixRule := {
  pattern : PrefixPattern;
  decision : Decision;
  justification : option str;
}.

(** [trait Rule] *)
Class Rule (R : Type) := {
  program : R → str;
  rule_matches : R → list str → option RuleMatch;
  (** [as_any().downcast_ref::<PrefixRule>()] *)
  downcast_prefix_rule : R → option PrefixRule;
}.

#[export] Instance PrefixRule_Rule : Rule PrefixRule := {
  program r := first (pattern r);
  rule_matches r cmd :=
    (λ matched_prefix, PrefixRuleMatch matched_prefix (decision r) (justification r))
      <$> matches_prefix (pattern r) cmd;
  downcast_prefix_rule r := Some r;
}.

(** ** [policy.rs] *)

Definition BACKSLASH : char := 92%N.
Definition FSLASH : char := 47%N.
Definition is_sep (c : char) : bool := bool_decide (c = FSLASH ∨ c = BACKSLASH).

(** [program.rsplit(['/', '\\']).next()]: what follows the last separator. *)
Definition after_last_sep (program : str) : str :=
  reverse (take_while (λ c, negb (is_sep c)) (reverse program)).

Definition program_basename (program : str) : option str :=
  let base := after_last_sep program in
  if bool_decide (base = []) then None else Some base.

Record Evaluation := { ev_decision : Decision; ev_matched_rules : list RuleMatch }.

(** [matched_rules.iter().map(RuleMatch::decision).max()] *)
Definition max_decision (ms : list RuleMatch) : option Decision :=
  match ms with
  | [] => None
  | m :: ms' => Some (foldl (λ a m, decision_max (match_decision m) a) (match_decision m) ms')
  end.

(** [Evaluation::from_matches]; [None] is the panic of its [expect]. *)
Definition from_matches (matched_rules : list RuleMatch) : option Evaluation :=
  d ← max_decision matched_rules;
  Some {| ev_decision := d; ev_matched_rules := matched_rules |}.

Section policy.
Context {R : Type} `{Rule R}.

(** [MultiMap<String, RuleRef>] *)
Record Policy := { rules_by_program : gmap str (list R) }.

Definition empty_policy : Policy := {| rules_by_program := ∅ |}.

(** [MultiMap::insert]: appended to the rules of its key. *)
Definition insert_rule (key : str) (r : R) (p : Policy) : Policy :=
  {| rules_by_program :=
       <[key := default [] (rules_by_program p !! key) ++ [r]]> (rules_by_program p) |}.

Definition with_program (base : str) (cmd : list str) : list str :=
  match cmd with [] => [] | _ :: args => base :: args end.

(** The rules that match before any fallback to heuristics. *)
Definition rules_for (p : Policy) (cmd : list str) : list RuleMatch :=
  match cmd with
  | [] => []
  | first_tok :: _ =>
      match rules_by_program p !! first_tok with
      | Some rules => omap (λ r, rule_matches r cmd) rules
      | None =>
          match program_basename first_tok with
          | Some base =>
              if bool_decide (base = first_tok) then []
              else match rules_by_program p !! base with
                   | Some rules => omap (λ r, rule_matches r (with_program base cmd)) rules
                   | None => []
                   end
          | None => []
          end
      end
  end.

Definition matches_for_command (p : Policy) (cmd : list str)
    (heuristics_fallback : option (list str → Decision)) : list RuleMatch :=
  let matched_rules := rules_for p cmd in
  match matched_rules, heuristics_fallback with
  | [], Some h => [HeuristicsRuleMatch cmd (h cmd)]
  | _, _ => matched_rules
  end.

Definition check (p : Policy) (cmd : list str) (h : list str → Decision) : option Evaluation :=
  from_matches (matches_for_command p cmd (Some h)).

Definition check_multiple (p : Policy) (commands : list (list str))
    (h : list str → Decision) : option Evaluation :=
  from_matches (commands ≫= λ command, matches_for_command p command (Some h)).
End policy.
Arguments Policy R : clear implicits.

Definition add_prefix_rule (prefix : list str) (d : Decision) (p : Policy PrefixRule)
  : result Error (Policy PrefixRule) :=
  match prefix with
  | [] => Err (InvalidPattern §"prefix cannot be empty")
  | first_token :: rest_tokens =>
      Ok (insert_rule first_token
            {| pattern := {| first := first_token; rest := Single <$> rest_tokens |};
               decision := d; justification := None |} p)
  end.

(** [get_allowed_prefixes] sorts byte-wise, which for UTF-8 is the order of the
    scalar values. *)
Fixpoint str_leb (s t : str) : bool :=
  match s, t with
  | [], _ => true
  | _ :: _, [] => false
  | x :: s', y :: t' => (x <? y)%N || ((x =? y)%N && str_leb s' t')
  end.
Fixpoint strs_leb (s t : list str) : bool :=
  match s, t with
  | [], _ => true
  | _ :: _, [] => false
  | x :: s', y :: t' =>
      if bool_decide (x = y) then strs_leb s' t' else str_leb x y
  end.

Fixpoint insert_strs (x : list str) (l : list (list str)) : list (list str) :=
  match l with
  | [] => [x]
  | y :: l' => if strs_leb x y then x :: l else y :: insert_strs x l'
  end.
Definition sort_strs (l : list (list str)) : list (list str) := foldr insert_strs [] l.

(** [Vec::dedup]: removes consecutive repetitions. *)
Fixpoint dedup {A} `{EqDecision A} (l : list A) : list A :=
  match l with
  | x :: (y :: _) as l' => if decide (x = y) then dedup l' else x :: dedup l'
  | _ => l
  end.

Definition render_pattern_token (t : PatternToken) : str :=
  match t with
  | Single value => value
  | Alts alts => §"[" ++ join §"|" alts ++ §"]"
  end.

Definition allowed_prefix {R} `{Rule R} (r : R) : option (list str) :=
  prefix_rule ← downcast_prefix_rule r;
  if bool_decide (decision prefix_rule = Allow)
  then Some (first (pattern prefix_rule)
             :: (render_pattern_token <$> rest (pattern prefix_rule)))
  else None.

Definition get_allowed_prefixes {R} `{Rule R} (p : Policy R) : list (list str) :=
  dedup (sort_strs (map_to_list (rules_by_program p) ≫= λ kv, omap allowed_prefix kv.2)).

(** ** [parser.rs]: the [prefix_rule] builtin *)

(** A Starlark value, as far as the builtin inspects it; [VOther] carries
    [get_type()]. *)
Inductive Value := VStr (s : str) | VList (content : list Value) | VOther (type_name : str).

Definition get_type (v : Value) : str :=
  match v with VStr _ => §"string" | VList _ => §"list" | VOther t => t end.

(** [iter().map(f).collect::<Result<_>>()]: stops at the first error. *)
Fixpoint collect {E A B} (f : A → result E B) (l : list A) : result E (list B) :=
  match l with
  | [] => Ok []
  | x :: l' => y ← f x; ys ← collect f l'; Ok (y :: ys)
  end.

Definition unpack_string (err : str → str) (mk : str → Error) (v : Value) : result Error str :=
  match v with VStr s => Ok s | _ => Err (mk (err (get_type v))) end.

Definition parse_pattern_token (value : Value) : result Error PatternToken :=
  match value with
  | VStr s => Ok (Single s)
  | VList content =>
      tokens ← collect (unpack_string
        (λ t, §"pattern alternative must be a string (got " ++ t ++ §")") InvalidPattern) content;
      match tokens with
      | [] => Err (InvalidPattern §"pattern alternatives cannot be empty")
      | [single] => Ok (Single single)
      | _ => Ok (Alts tokens)
      end
  | VOther t => Err (InvalidPattern
      (§"pattern element must be a string or list of strings (got " ++ t ++ §")"))
  end.

Definition parse_pattern (items : list Value) : result Error (list PatternToken) :=
  tokens ← collect parse_pattern_token items;
  match tokens with
  | [] => Err (InvalidPattern §"pattern cannot be empty")
  | _ => Ok tokens
  end.

Section builtin.
(** [shlex] (a third-party crate) splits and renders command lines; [show_rule]
    is the derived [Debug] rendering that only appears in messages. *)
Context (shlex_split : str → option (list str)) (shlex_try_join : list str → option str)
        (show_rule : PrefixRule → str).

Definition parse_string_example (raw : str) : result Error (list str) :=
  match shlex_split raw with
  | None => Err (InvalidExample §"example string has invalid shell syntax")
  | Some [] => Err (InvalidExample §"example cannot be an empty string")
  | Some tokens => Ok tokens
  end.

Definition parse_list_example (content : list Value) : result Error (list str) :=
  tokens ← collect (unpack_string
    (λ t, §"example tokens must be strings (got " ++ t ++ §")") InvalidExample) content;
  match tokens with
  | [] => Err (InvalidExample §"example cannot be an empty list")
  | _ => Ok tokens
  end.

Definition parse_example (value : Value) : result Error (list str) :=
  match value with
  | VStr raw => parse_string_example raw
  | VList content => parse_list_example content
  | VOther t => Err (InvalidExample
      (§"example must be a string or list of strings (got " ++ t ++ §")"))
  end.

Definition parse_examples (items : list Value) : result Error (list (list str)) :=
  collect parse_example items.

Definition render_example (example : list str) : str :=
  default §"unable to render example" (shlex_try_join example).

Definition rule_matches_b (r : PrefixRule) (cmd : list str) : bool :=
  match rule_matches r cmd with Some _ => true | None => false end.

Definition validate_match_examples (rules : list PrefixRule) (matches : list (list str))
  : result Error unit :=
  let unmatched := filter (λ e, existsb (λ r, rule_matches_b r e) rules = false) matches in
  match unmatched with
  | [] => Ok tt
  | _ => Err (ExampleDidNotMatch (show_rule <$> rules) (render_example <$> unmatched))
  end.

Fixpoint validate_not_match_examples (rules : list PrefixRule) (not_matches : list (list str))
  : result Error unit :=
  match not_matches with
  | [] => Ok tt
  | example :: not_matches' =>
      match List.find (λ r, rule_matches_b r example) rules with
      | Some rule => Err (ExampleDidMatch (show_rule rule) (render_example example))
      | None => validate_not_match_examples rules not_matches'
      end
  end.

Definition parse_justification (j : option str) : result Error (option str) :=
  match j with
  | Some raw => if bool_decide (trim raw = [])
                then Err (InvalidRule §"justification cannot be empty") else Ok (Some raw)
  | None => Ok None
  end.

Definition opt_examples (v : option (list Value)) : result Error (list (list str)) :=
  match v with Some items => parse_examples items | None => Ok [] end.

Definition expand_rules (tokens : list PatternToken) (d : Decision) (j : option str)
  : list PrefixRule :=
  match tokens with
  | [] => []
  | first_token :: remaining =>
      (λ h, {| pattern := {| first := h; rest := remaining |};
               decision := d; justification := j |}) <$> alternatives first_token
  end.

(** [fn prefix_rule]; the error keeps the policy as it was. *)
Definition prefix_rule (pattern_arg : list Value) (decision_arg : option str)
    (match_arg not_match_arg : option (list Value)) (justification_arg : option str)
    (builder : Policy PrefixRule) : result Error (Policy PrefixRule) :=
  d ← match decision_arg with Some raw => parse_decision raw | None => Ok Allow end;
  j ← parse_justification justification_arg;
  tokens ← parse_pattern pattern_arg;
  matches ← opt_examples match_arg;
  not_matches ← opt_examples not_match_arg;
  let rules := expand_rules tokens d j in
  _ ← validate_not_match_examples rules not_matches;
  _ ← validate_match_examples rules matches;
  Ok (foldl (λ b r, insert_rule (program r) r b) builder rules).
End builtin.

(** ** [amend.rs]: the text of a policy file *)

Definition QUOTE : char := 34%N.

Section amend.
(** [serde_json::to_string] on a string. *)
Context (json_string : str → option str).

Inductive AmendError := EmptyPrefix | SerializePrefix | MissingParent.

Definition show_decision (d : Decision) : str :=
  match d with Allow => §"allow" | Prompt => §"prompt" | Forbidden => §"forbidden" end.

Fixpoint serialize_tokens (prefix : list str) : result AmendError (list str) :=
  match prefix with
  | [] => Ok []
  | t :: prefix' =>
      match json_string t with
      | Some s => ss ← serialize_tokens prefix'; Ok (s :: ss)
      | None => Err SerializePrefix
      end
  end.

Definition format_prefix_rule (prefix : list str) (d : Decision) : result AmendError str :=
  if bool_decide (prefix = []) then Err EmptyPrefix
  else
    tokens ← serialize_tokens prefix;
    Ok (§"prefix_rule(pattern=[" ++ join §", " tokens ++ §"], decision="
        ++ [QUOTE] ++ show_decision d ++ [QUOTE] ++ §")").

(** [append_locked_line] on the contents of the file ([""] for a new file). *)
Definition append_locked_line (contents line : str) : str :=
  if existsb (λ existing, bool_decide (existing = line)) (lines contents) then contents
  else
    (if negb (bool_decide (contents = [])) && negb (ends_with contents [LF])
     then contents ++ [LF] else contents) ++ line ++ [LF].

(** [blocking_remove_prefix_rule] after the rule is rendered: [None] when
    nothing changed (the file is not rewritten). *)
Definition remove_line (contents rule : str) : option str :=
  let retained := filter (λ l, l ≠ rule) (lines contents) in
  if bool_decide (length retained = length (lines contents)) then None
  else Some (if bool_decide (retained = []) then [] else join [LF] retained ++ [LF]).
End amend.

(** * Correctness *)

(** ** Matching *)

Lemma tokens_match_spec ts args :
  length args = length ts →
  tokens_match ts args = true ↔ Forall2 (λ t c, token_matches t c = true) ts args.
Proof.
  revert args. induction ts as [|t ts IH]; intros [|c args] Hlen; cbn in *; try done.
  rewrite andb_true_iff, IH by lia. split; [intros [? ?]; by constructor|].
  by inversion 1; subst.
Qed.

Lemma matches_prefix_iff p cmd m :
  matches_prefix p cmd = Some m ↔
  ∃ args suffix, cmd = first p :: args ++ suffix
    ∧ Forall2 (λ t c, token_matches t c = true) (rest p) args ∧ m = first p :: args.
Proof.
  unfold matches_prefix. split.
  - destruct cmd as [|c cmd]; cbn [head length].
    { rewrite bool_decide_true by lia. done. }
    case_bool_decide as Hlen; [done|]. cbn [orb].
    case_bool_decide as Hf; [|done]. injection Hf as ->. cbn [negb drop].
    rewrite drop_0. destruct (tokens_match _ _) eqn:Ht; [|done]. intros [= <-].
    apply tokens_match_spec in Ht; [|rewrite length_take; cbn in Hlen; lia].
    exists (take (length (rest p)) cmd), (drop (length (rest p)) cmd).
    rewrite take_drop, Nat.add_1_r. done.
  - intros (args & suffix & -> & Hm & ->). pose proof (Forall2_length _ _ _ Hm) as Hlen.
    rewrite bool_decide_false by (cbn; rewrite length_app; lia).
    rewrite bool_decide_true by done. cbn [orb negb drop]. rewrite drop_0.
    rewrite take_app_length' by done.
    rewrite (proj2 (tokens_match_spec _ _ (eq_sym Hlen)) Hm).
    rewrite Nat.add_1_r. cbn. by rewrite take_app_length'.
Qed.

(** Prefix matching: a pattern matches a command exactly when the command
    starts with the pattern's first token followed by one accepted token for
    each further pattern token, and the reported prefix is that part of the
    command. *)
Theorem matches_prefix_spec p cmd m :
  matches_prefix p cmd = Some m ↔
  ∃ args suffix, cmd = first p :: args ++ suffix
    ∧ Forall2 (λ t c, token_matches t c = true) (rest p) args ∧ m = first p :: args.
Proof. apply matches_prefix_iff. Qed.

Lemma matches_prefix_app p args suffix :
  Forall2 (λ t c, token_matches t c = true) (rest p) args →
  matches_prefix p (first p :: args ++ suffix) = Some (first p :: args).
Proof. intros H. apply matches_prefix_iff. by exists args, suffix. Qed.

(** ** Evaluation *)

Lemma decision_le_antisym a b : decision_le a b → decision_le b a → a = b.
Proof. destruct a, b; unfold decision_le; cbn; try done; lia. Qed.

#[export] Instance decision_le_preorder : PreOrder decision_le.
Proof. split; unfold decision_le; [intros ?; lia|intros ? ? ? ? ?; lia]. Qed.

Lemma decision_max_ub a b : decision_le a (decision_max a b) ∧ decision_le b (decision_max a b).
Proof. unfold decision_max, decision_le. case_decide; lia. Qed.

Lemma decision_max_or a b : decision_max a b = a ∨ decision_max a b = b.
Proof. unfold decision_max. case_decide; auto. Qed.

Lemma max_fold_spec a (ms : list RuleMatch) :
  let d := foldl (λ a m, decision_max (match_decision m) a) a ms in
  decision_le a d ∧ (∀ m, m ∈ ms → decision_le (match_decision m) d)
  ∧ (d = a ∨ ∃ m, m ∈ ms ∧ d = match_decision m).
Proof.
  revert a. induction ms as [|m ms IH]; intros a; cbn.
  - split_and!; [done| |by left]. by intros m ?%elem_of_nil.
  - destruct (IH (decision_max (match_decision m) a)) as (Ha & Hms & Hd).
    destruct (decision_max_ub (match_decision m) a) as [Hm1 Hm2]. split_and!.
    + by etransitivity.
    + intros m' [->|Hm']%elem_of_cons; [by etransitivity|by apply Hms].
    + destruct Hd as [->|(m' & ? & ->)].
      * destruct (decision_max_or (match_decision m) a) as [->| ->]; [right|by left].
        exists m. split; [by left|done].
      * right. exists m'. split; [by right|done].
Qed.

(** The decision of a list of matches: the most severe one. *)
Definition severest (ms : list RuleMatch) (d : Decision) : Prop :=
  (∀ m, m ∈ ms → decision_le (match_decision m) d) ∧ ∃ m, m ∈ ms ∧ match_decision m = d.

Lemma from_matches_spec ms :
  ms ≠ [] → ∃ d, from_matches ms = Some {| ev_decision := d; ev_matched_rules := ms |}
                 ∧ severest ms d.
Proof.
  destruct ms as [|m ms]; [done|]. intros _. unfold from_matches. cbn.
  destruct (max_fold_spec (match_decision m) ms) as (Ha & Hms & Hd).
  eexists; split; [done|]. split.
  - intros m' [->|?]%elem_of_cons; [done|by apply Hms].
  - destruct Hd as [->|(m' & ? & ->)]; [exists m|exists m']; (split; [|done]); [by left|by right].
Qed.

Lemma severest_unique ms d d' : severest ms d → severest ms d' → d = d'.
Proof.
  intros [Hub (m & Hm & <-)] [Hub' (m' & Hm' & <-)].
  apply decision_le_antisym; [by apply Hub'|by apply Hub].
Qed.

Section policy_facts.
Context {R : Type} `{Rule R}.
Implicit Types (p : Policy R) (cmd : list str) (h : list str → Decision).

Lemma matches_for_command_ne p cmd h : matches_for_command p cmd (Some h) ≠ [].
Proof. unfold matches_for_command. by destruct (rules_for p cmd). Qed.

Lemma check_cases p cmd h :
  ∃ ev, check p cmd h = Some ev ∧ severest (ev_matched_rules ev) (ev_decision ev) ∧
    (rules_for p cmd ≠ [] → ev_matched_rules ev = rules_for p cmd) ∧
    (rules_for p cmd = [] → ev_matched_rules ev = [HeuristicsRuleMatch cmd (h cmd)]
                            ∧ ev_decision ev = h cmd).
Proof.
  unfold check. destruct (from_matches_spec _ (matches_for_command_ne p cmd h)) as (d & -> & Hd).
  eexists; split; [done|]. split; [done|]. unfold matches_for_command in *. cbn.
  destruct (rules_for p cmd) as [|m ms]; split; try done. intros _. split; [done|].
  destruct Hd as [_ (m & Hm & <-)]. by apply list_elem_of_singleton in Hm as ->.
Qed.

(** Evaluating a command never panics and its decision is the most severe
    one among the matching rules (Forbidden over Prompt over Allow); the
    heuristics decide exactly when no rule matches. *)
Theorem check_severest p cmd h :
  ∃ ev, check p cmd h = Some ev ∧ severest (ev_matched_rules ev) (ev_decision ev) ∧
    (rules_for p cmd ≠ [] → ev_matched_rules ev = rules_for p cmd) ∧
    (rules_for p cmd = [] → ev_matched_rules ev = [HeuristicsRuleMatch cmd (h cmd)]
                            ∧ ev_decision ev = h cmd).
Proof. apply check_cases. Qed.

(** A compound command is judged as severely as its worst part: the
    decision on several commands is an upper bound of the decisions on each of
    them and equals one of them; with at least one command there is no panic. *)
Theorem check_multiple_worst p cmds h :
  cmds ≠ [] →
  ∃ ev, check_multiple p cmds h = Some ev ∧
    (∀ cmd ev', cmd ∈ cmds → check p cmd h = Some ev' →
       decision_le (ev_decision ev') (ev_decision ev)) ∧
    ∃ cmd ev', cmd ∈ cmds ∧ check p cmd h = Some ev' ∧ ev_decision ev' = ev_decision ev.
Proof.
  intros Hne. unfold check_multiple, check.
  set (ms := cmds ≫= λ command, matches_for_command p command (Some h)).
  assert (∀ m, m ∈ ms ↔ ∃ cmd, m ∈ matches_for_command p cmd (Some h) ∧ cmd ∈ cmds) as Hms
    by (intros; apply list_elem_of_bind).
  assert (ms ≠ []) as Hms_ne.
  { destruct cmds as [|c cs]; [done|]. subst ms. rewrite bind_cons.
    pose proof (matches_for_command_ne p c h). by destruct (matches_for_command p c (Some h)). }
  destruct (from_matches_spec ms Hms_ne) as (d & -> & Hub & m & Hm & <-).
  eexists; split; [done|]. cbn. split.
  - intros cmd ev' Hin Hev.
    destruct (from_matches_spec _ (matches_for_command_ne p cmd h)) as (d' & Hd' & _ & m' & Hm' & <-).
    rewrite Hd' in Hev. simplify_eq. cbn. apply Hub, Hms. eauto.
  - apply Hms in Hm as (cmd & Hm & Hin).
    destruct (from_matches_spec _ (matches_for_command_ne p cmd h)) as (d' & Hd' & Hub' & m' & Hm' & Hmd).
    eexists cmd, _. split; [done|]. split; [done|]. cbn.
    apply decision_le_antisym; [|by apply Hub'].
    rewrite <-Hmd. apply Hub, Hms. eauto.
Qed.

End policy_facts.

(** ** Adding a rule *)

Definition literal_rule (prefix0 : str) (args : list str) (d : Decision) : PrefixRule :=
  {| pattern := {| first := prefix0; rest := Single <$> args |};
     decision := d; justification := None |}.

Lemma single_tokens_match (args : list str) :
  Forall2 (λ t c, token_matches t c = true) (Single <$> args) args.
Proof.
  induction args; cbn; constructor; [|done]. cbn. by apply bool_decide_eq_true_2.
Qed.

Lemma literal_rule_matches f args d suffix :
  rule_matches (literal_rule f args d) (f :: args ++ suffix)
  = Some (PrefixRuleMatch (f :: args) d None).
Proof.
  cbn. change f with (first (pattern (literal_rule f args d))) at 2.
  rewrite matches_prefix_app by apply single_tokens_match. done.
Qed.

Lemma omap_snoc_in {A B} (g : A → option B) l x y :
  g x = Some y → y ∈ omap g (l ++ [x]).
Proof.
  intros Hx. apply list_elem_of_omap. exists x. split; [|done].
  apply elem_of_app. right. by left.
Qed.

(** How a command reaches the rules of a program name: by that name, or by a
    path with that base name when no rule is keyed by the path itself. *)
Definition reaches {R} `{Rule R} (p : Policy R) (cmd0 name : str) : Prop :=
  cmd0 = name ∨ rules_by_program p !! cmd0 = None ∧ program_basename cmd0 = Some name.

Lemma rules_for_literal p f args d p' cmd0 suffix :
  add_prefix_rule (f :: args) d p = Ok p' → reaches p cmd0 f →
  PrefixRuleMatch (f :: args) d None ∈ rules_for p' (cmd0 :: args ++ suffix).
Proof.
  intros [= <-] Hr. unfold rules_for. fold (literal_rule f args d). cbn [rules_by_program insert_rule].
  destruct (decide (cmd0 = f)) as [->|Hne].
  - rewrite lookup_insert_eq. apply omap_snoc_in, literal_rule_matches.
  - destruct Hr as [?|[Hnone Hbase]]; [done|].
    rewrite lookup_insert_ne, Hnone by done. rewrite Hbase.
    rewrite bool_decide_false by done. rewrite lookup_insert_eq.
    apply omap_snoc_in, literal_rule_matches.
Qed.

Lemma rules_for_other p f args d p' cmd0 tl :
  add_prefix_rule (f :: args) d p = Ok p' → cmd0 ≠ f → program_basename cmd0 ≠ Some f →
  rules_for p' (cmd0 :: tl) = rules_for p (cmd0 :: tl).
Proof.
  intros [= <-] Hne Hb. unfold rules_for. cbn [rules_by_program insert_rule].
  rewrite lookup_insert_ne by done. destruct (rules_by_program p !! cmd0); [done|].
  destruct (program_basename cmd0) as [b|]; [|done]. case_bool_decide; [done|].
  rewrite lookup_insert_ne by congruence. done.
Qed.

(** Effect of [add_prefix_rule]: afterwards every command that starts with
    the prefix (the program given by its name, or by a path with that base name
    that has no rules of its own) is judged at least as severely as the new
    rule, so a Forbidden prefix is forbidden; commands of other programs are
    judged as before. *)
Theorem add_prefix_rule_effect p f args d p' h :
  add_prefix_rule (f :: args) d p = Ok p' →
  (∀ cmd0 suffix ev, reaches p cmd0 f →
     check p' (cmd0 :: args ++ suffix) h = Some ev → decision_le d (ev_decision ev)) ∧
  (∀ cmd0 tl, cmd0 ≠ f → program_basename cmd0 ≠ Some f →
     check p' (cmd0 :: tl) h = check p (cmd0 :: tl) h).
Proof.
  intros Hadd. split.
  - intros cmd0 suffix ev Hr Hev.
    pose proof (rules_for_literal _ _ _ _ _ _ suffix Hadd Hr) as Hin.
    destruct (check_cases p' (cmd0 :: args ++ suffix) h) as (ev' & Hev' & [Hub _] & Hrules & _).
    rewrite Hev' in Hev. simplify_eq.
    rewrite Hrules in Hub by (intros E; rewrite E in Hin; by apply elem_of_nil in Hin).
    exact (Hub _ Hin).
  - intros cmd0 tl Hne Hb. unfold check, matches_for_command.
    by rewrite (rules_for_other _ _ _ _ _ _ tl Hadd Hne Hb).
Qed.

(** A rule keyed by a full path hides the rules of the base name from that
    path: with [rm] forbidden, allowing [/bin/rm --version] hands every other
    [/bin/rm] command to the heuristics. *)
Example path_rule_hides_basename_rules :
  let forbid := add_prefix_rule [§"rm"] Forbidden empty_policy in
  let both := forbid ≫= add_prefix_rule [§"/bin/rm"; §"--version"] Allow in
  let ask := λ p, ev_decision <$> check p [§"/bin/rm"; §"-rf"; §"/"] (λ _, Allow) in
  (ask <$> forbid) = Ok (Some Forbidden) ∧ (ask <$> both) = Ok (Some Allow).
Proof. by vm_compute. Qed.

(** ** The [prefix_rule] builtin *)

Lemma collect_Ok {E A B} (f : A → result E B) l ys :
  collect f l = Ok ys ↔ Forall2 (λ x y, f x = Ok y) l ys.
Proof.
  revert ys. induction l as [|x l IH]; intros ys; cbn.
  - split; [intros [= <-]; constructor|by inversion 1].
  - rewrite bind_Ok. setoid_rewrite bind_Ok. split.
    + intros (y & Hy & ys' & Hys & [= <-]). constructor; [done|by apply IH].
    + inversion 1; subst. eexists; split; [done|]. eexists; split; [by apply IH|done].
Qed.

Section builtin_facts.
Context (shlex_split : str → option (list str)) (shlex_try_join : list str → option str)
        (show_rule : PrefixRule → str).

Lemma validate_match_Ok rules ms :
  validate_match_examples shlex_try_join show_rule rules ms = Ok tt →
  ∀ e, e ∈ ms → ∃ r, r ∈ rules ∧ rule_matches_b r e = true.
Proof.
  unfold validate_match_examples.
  destruct (filter _ ms) as [|x l] eqn:E; [|done]. intros _ e He.
  destruct (existsb (λ r, rule_matches_b r e) rules) eqn:Ex.
  - apply existsb_exists in Ex as (r & Hr & Hm). exists r. by rewrite list_elem_of_In.
  - assert (e ∈ filter (λ e, existsb (λ r, rule_matches_b r e) rules = false) ms) as Hin
      by (by apply list_elem_of_filter).
    rewrite E in Hin. by apply elem_of_nil in Hin.
Qed.

Lemma validate_not_match_Ok rules ms :
  validate_not_match_examples shlex_try_join show_rule rules ms = Ok tt →
  ∀ e r, e ∈ ms → r ∈ rules → rule_matches_b r e = false.
Proof.
  induction ms as [|m ms IH]; cbn; [by intros _ ? ? ?%elem_of_nil|].
  destruct (List.find _ rules) eqn:E; [done|]. intros H e r [->|He]%elem_of_cons Hr.
  - apply (List.find_none _ _ E). by apply list_elem_of_In.
  - by apply IH.
Qed.

Definition rules_at (p : Policy PrefixRule) (key : str) : list PrefixRule :=
  default [] (rules_by_program p !! key).

Lemma rules_at_insert key r p k :
  rules_at (insert_rule key r p) k = rules_at p k ++ (if decide (key = k) then [r] else []).
Proof.
  unfold rules_at, insert_rule. cbn. destruct (decide (key = k)) as [->|].
  - by rewrite lookup_insert_eq.
  - by rewrite lookup_insert_ne, app_nil_r.
Qed.

Lemma rules_at_add_all rules b k :
  rules_at (foldl (λ b r, insert_rule (program r) r b) b rules) k
  = rules_at b k ++ filter (λ r, program r = k) rules.
Proof.
  revert b. induction rules as [|r rules IH]; intros b; cbn [foldl].
  - by rewrite app_nil_r.
  - rewrite IH, rules_at_insert, filter_cons, <-(assoc_L (++)). f_equal.
    by case_decide.
Qed.

(** The [prefix_rule] builtin: when it succeeds, the decision and the
    justification are the parsed ones, one rule per alternative of the first
    token is appended to the rules of its program and nothing else changes,
    every [match] example is matched by one of the new rules and no
    [not_match] example by any of them. *)
Theorem prefix_rule_effect pat d_arg m_arg nm_arg j_arg b b' :
  prefix_rule shlex_split shlex_try_join show_rule pat d_arg m_arg nm_arg j_arg b = Ok b' →
  ∃ d tokens matches not_matches,
    (d_arg = None ∧ d = Allow ∨ ∃ raw, d_arg = Some raw ∧ parse_decision raw = Ok d) ∧
    parse_pattern pat = Ok tokens ∧
    opt_examples shlex_split m_arg = Ok matches ∧
    opt_examples shlex_split nm_arg = Ok not_matches ∧
    let rules := expand_rules tokens d j_arg in
    (∀ key, rules_at b' key = rules_at b key ++ filter (λ r, program r = key) rules) ∧
    (∀ e, e ∈ matches → ∃ r, r ∈ rules ∧ rule_matches_b r e = true) ∧
    (∀ e r, e ∈ not_matches → r ∈ rules → rule_matches_b r e = false).
Proof.
  unfold prefix_rule. intros H.
  apply bind_Ok in H as (d & Hd & H). apply bind_Ok in H as (j & Hj & H).
  apply bind_Ok in H as (tokens & Ht & H). apply bind_Ok in H as (ms & Hm & H).
  apply bind_Ok in H as (nms & Hn & H). apply bind_Ok in H as ([] & Hvn & H).
  apply bind_Ok in H as ([] & Hvm & [= <-]).
  assert (j = j_arg) as ->.
  { destruct j_arg; cbn in Hj; [case_bool_decide|]; by simplify_eq. }
  exists d, tokens, ms, nms. split_and!; try done.
  - destruct d_arg; [right; eauto|left; by simplify_eq].
  - intros key. apply rules_at_add_all.
  - by apply validate_match_Ok.
  - by apply validate_not_match_Ok.
Qed.
End builtin_facts.

(** ** The policy file *)

Lemma existsb_line line (ls : list str) :
  existsb (λ existing, bool_decide (existing = line)) ls = true ↔ line ∈ ls.
Proof.
  rewrite existsb_exists, list_elem_of_In. setoid_rewrite bool_decide_eq_true. naive_solver.
Qed.

(** The contents [append_locked_line] writes after: closed by a newline. *)
Definition closed (contents : str) : str :=
  if negb (bool_decide (contents = [])) && negb (ends_with contents [LF])
  then contents ++ [LF] else contents.

Lemma closed_LF contents : closed contents = [] ∨ ∃ s, closed contents = s ++ [LF].
Proof.
  unfold closed. case_bool_decide as Hnil; cbn; [by left|].
  destruct (ends_with contents [LF]) eqn:E; cbn; right; [|eauto].
  by apply ends_with_true in E.
Qed.

(** Appending a rule to the policy file: the file gains exactly that line
    at its end when the line is missing (earlier lines keep their order) and is
    untouched when it is there; so the line is present afterwards and a second
    append changes nothing. *)
Theorem append_locked_line_spec contents line :
  clean_line line →
  let contents' := append_locked_line contents line in
  (line ∈ lines contents → contents' = contents) ∧
  (line ∉ lines contents → lines contents' = lines (closed contents) ++ [line]) ∧
  append_locked_line contents' line = contents'.
Proof.
  intros Hl contents'.
  assert (∀ c, line ∈ lines c → append_locked_line c line = c) as Hid.
  { intros c Hc. unfold append_locked_line. by rewrite (proj2 (existsb_line _ _) Hc). }
  destruct (existsb (λ existing, bool_decide (existing = line)) (lines contents)) eqn:E.
  - apply existsb_line in E. subst contents'. rewrite !(Hid contents E). done.
  - assert (line ∉ lines contents) as Hn by (rewrite <-existsb_line; congruence).
    assert (lines contents' = lines (closed contents) ++ [line]) as Hls.
    { subst contents'. unfold append_locked_line. rewrite E. fold (closed contents).
      rewrite lines_app_LF by apply closed_LF. by rewrite lines_single. }
    split_and!; [done|done|]. apply Hid. rewrite Hls. apply elem_of_app. right. by left.
Qed.

(** Removing a rule: afterwards the line is gone and the other lines
    remain, in order; the file is left alone exactly when the line was absent. *)
Theorem remove_line_spec contents rule :
  Forall clean_line (lines contents) →
  match remove_line contents rule with
  | None => rule ∉ lines contents
  | Some contents' => rule ∈ lines contents ∧
      lines contents' = filter (λ l, l ≠ rule) (lines contents)
  end.
Proof.
  intros Hc. unfold remove_line. case_bool_decide as Hlen.
  - intros Hin. rewrite <-(filter_length_eq _ _ Hlen) in Hin.
    by apply list_elem_of_filter in Hin as [? _].
  - split.
    + destruct (decide (rule ∈ lines contents)) as [|Hn]; [done|]. destruct Hlen. f_equal.
      apply filter_all_id. apply Forall_forall. by intros l Hl ->.
    + case_bool_decide as Hnil; [by rewrite Hnil|].
      destruct (lines_join_LF (filter (λ l, l ≠ rule) (lines contents))) as [|]; [|done..].
      rewrite Forall_forall in *. intros l [_ Hl]%list_elem_of_filter. by apply Hc.
Qed.

(** ** Witnesses *)

Definition sample_policy : Policy PrefixRule :=
  insert_rule §"git" (literal_rule §"git" [§"push"] Prompt)
    (insert_rule §"rm" (literal_rule §"rm" [] Forbidden) empty_policy).

Lemma check_multiple_worst_witness :
  [[§"ls"]; [§"/bin/rm"; §"x"]] ≠ [] ∧
  ∃ ev, check_multiple sample_policy [[§"ls"]; [§"/bin/rm"; §"x"]] (λ _, Allow) = Some ev ∧
    (∀ cmd ev', cmd ∈ [[§"ls"]; [§"/bin/rm"; §"x"]] →
       check sample_policy cmd (λ _, Allow) = Some ev' →
       decision_le (ev_decision ev') (ev_decision ev)) ∧
    ∃ cmd ev', cmd ∈ [[§"ls"]; [§"/bin/rm"; §"x"]] ∧
       check sample_policy cmd (λ _, Allow) = Some ev' ∧ ev_decision ev' = ev_decision ev.
Proof. split; [done|]. apply check_multiple_worst. done. Defined.

Lemma add_prefix_rule_effect_witness :
  ∃ p', add_prefix_rule [§"git"; §"status"] Allow sample_policy = Ok p' ∧
  (∀ cmd0 suffix ev, reaches sample_policy cmd0 §"git" →
     check p' (cmd0 :: [§"status"] ++ suffix) (λ _, Prompt) = Some ev →
     decision_le Allow (ev_decision ev)) ∧
  (∀ cmd0 tl, cmd0 ≠ §"git" → program_basename cmd0 ≠ Some §"git" →
     check p' (cmd0 :: tl) (λ _, Prompt) = check sample_policy (cmd0 :: tl) (λ _, Prompt)).
Proof.
  eexists. split; [reflexivity|].
  apply (add_prefix_rule_effect sample_policy §"git" [§"status"] Allow). reflexivity.
Defined.

Definition split_words (s : str) : option (list str) := Some (split_on SP s).

Lemma prefix_rule_effect_witness :
  ∃ b', prefix_rule split_words (λ l, Some (join [SP] l)) (λ _, §"rule")
          [VStr §"git"; VList [VStr §"push"; VStr §"fetch"]] (Some §"prompt")
          (Some [VStr §"git push"]) (Some [VStr §"git status"]) None empty_policy = Ok b' ∧
  ∃ d tokens matches not_matches,
    (Some §"prompt" = None ∧ d = Allow ∨
     ∃ raw, Some §"prompt" = Some raw ∧ parse_decision raw = Ok d) ∧
    parse_pattern [VStr §"git"; VList [VStr §"push"; VStr §"fetch"]] = Ok tokens ∧
    opt_examples split_words (Some [VStr §"git push"]) = Ok matches ∧
    opt_examples split_words (Some [VStr §"git status"]) = Ok not_matches ∧
    let rules := expand_rules tokens d None in
    (∀ key, rules_at b' key = rules_at empty_policy key ++ filter (λ r, program r = key) rules) ∧
    (∀ e, e ∈ matches → ∃ r, r ∈ rules ∧ rule_matches_b r e = true) ∧
    (∀ e r, e ∈ not_matches → r ∈ rules → rule_matches_b r e = false).
Proof.
  eexists. split; [vm_compute; reflexivity|].
  apply (prefix_rule_effect split_words (λ l, Some (join [SP] l)) (λ _, §"rule")).
  vm_compute. reflexivity.
Defined.

Lemma append_locked_line_spec_witness :
  clean_line §"b" ∧
  let contents' := append_locked_line §"a" §"b" in
  (§"b" ∈ lines §"a" → contents' = §"a") ∧
  (§"b" ∉ lines §"a" → lines contents' = lines (closed §"a") ++ [§"b"]) ∧
  append_locked_line contents' §"b" = contents'.
Proof.
  assert (clean_line §"b") as H
    by (split; [apply (bool_decide_eq_true_1 _); by vm_compute|by vm_compute]).
  split; [exact H|]. apply (append_locked_line_spec §"a" §"b" H).
Defined.

Lemma remove_line_spec_witness :
  Forall clean_line (lines (join [LF] [§"a"; §"b"; §"a"])) ∧
  match remove_line (join [LF] [§"a"; §"b"; §"a"]) §"a" with
  | None => §"a" ∉ lines (join [LF] [§"a"; §"b"; §"a"])
  | Some contents' => §"a" ∈ lines (join [LF] [§"a"; §"b"; §"a"]) ∧
      lines contents' = filter (λ l, l ≠ §"a") (lines (join [LF] [§"a"; §"b"; §"a"]))
  end.
Proof.
  assert (Forall clean_line (lines (join [LF] [§"a"; §"b"; §"a"]))) as H.
  { apply (bool_decide_eq_true_1 (Forall (λ l, LF ∉ l ∧ last l ≠ Some CR) _)). by vm_compute. }
  split; [exact H|]. apply (remove_line_spec _ §"a" H).
Defined.
