(* ===== verification/Bash.v ===== *)
(** * Shell scripts made of plain commands: [crates/core/src/commands/bash.rs]

    The syntax tree is produced by tree-sitter, which is a parameter
    ([try_parse_shell]); everything the source does with a tree is modelled. *)
From Stdlib Require Import Sorted.
From S2P Require Import Prelude RustStr Paths.

(** A tree-sitter node: kind, source text ([utf8_text]), [is_named],
    [start_byte] and children in order. *)
Inductive Node := mkNode
  (kind text : str) (is_named : bool) (start_byte : nat) (children : list Node).

Definition kind (n : Node) : str := let 'mkNode k _ _ _ _ := n in k.
Definition text (n : Node) : str := let 'mkNode _ t _ _ _ := n in t.
Definition is_named (n : Node) : bool := let 'mkNode _ _ b _ _ := n in b.
Definition start_byte (n : Node) : nat := let 'mkNode _ _ _ s _ := n in s.
Definition children (n : Node) : list Node := let 'mkNode _ _ _ _ c := n in c.
Definition named_children (n : Node) : list Node := filter (λ c, is_named c = true) (children n).

(** A parse: the root and its [has_error] flag. *)
Record Tree := { root_node : Node; has_error : bool }.

Definition ALLOWED_KINDS : list str :=
  [§"program"; §"list"; §"pipeline"; §"command"; §"command_name"; §"word"; §"string";
   §"string_content"; §"raw_string"; §"number"; §"concatenation"].
Definition DQUOTE : str := [34%N].
Definition SQUOTE : str := [39%N].
Definition ALLOWED_PUNCT_TOKENS : list str :=
  [§"&&"; §"||"; §";"; §"|"; DQUOTE; SQUOTE].

(** The two guards of the walk. *)
Definition node_allowed (n : Node) : bool :=
  if is_named n then one_of (kind n) ALLOWED_KINDS
  else
    negb (existsb (λ c, bool_decide (c ∈ §"&;|")) (kind n)
          && negb (one_of (kind n) ALLOWED_PUNCT_TOKENS))
    && (one_of (kind n) ALLOWED_PUNCT_TOKENS || bool_decide (trim (kind n) = [])).

(** [while let Some(node) = stack.pop()]; the top of the stack is the head of
    the list, so the children are pushed in order and popped last first.
    [None] out of fuel, [Some None] rejected. *)
Fixpoint walk (fuel : nat) (stack : list Node) (command_nodes : list Node)
  : option (option (list Node)) :=
  match stack with
  | [] => Some (Some command_nodes)
  | node :: stack' =>
      match fuel with
      | 0 => None
      | S fuel' =>
          if node_allowed node then
            walk fuel' (reverse (children node) ++ stack')
              (if is_named node && bool_decide (kind node = §"command")
               then command_nodes ++ [node] else command_nodes)
          else Some None
      end
  end.

Fixpoint node_size (n : Node) : nat :=
  let 'mkNode _ _ _ _ c := n in S (sum_list_with node_size c).

(** [command_nodes.sort_by_key(Node::start_byte)] (stable) *)
Fixpoint insert_node (x : Node) (l : list Node) : list Node :=
  match l with
  | [] => [x]
  | y :: l' => if decide (start_byte x ≤ start_byte y) then x :: l else y :: insert_node x l'
  end.
Definition sort_nodes (l : list Node) : list Node := foldr insert_node [] l.

Definition parse_double_quoted_string (n : Node) : option str :=
  if negb (bool_decide (kind n = §"string")) then None
  else if existsb (λ part, negb (bool_decide (kind part = §"string_content"))) (named_children n)
  then None
  else strip_prefix DQUOTE (text n) ≫= strip_suffix DQUOTE.

Definition parse_raw_string (n : Node) : option str :=
  if negb (bool_decide (kind n = §"raw_string")) then None
  else strip_prefix SQUOTE (text n) ≫= strip_suffix SQUOTE.

(** The parts of a [concatenation]. *)
Fixpoint concat_parts (parts : list Node) (concatenated : str) : option str :=
  match parts with
  | [] => Some concatenated
  | part :: parts' =>
      s ← (if one_of (kind part) [§"word"; §"number"] then Some (text part)
           else if bool_decide (kind part = §"string") then parse_double_quoted_string part
           else if bool_decide (kind part = §"raw_string") then parse_raw_string part
           else None);
      concat_parts parts' (concatenated ++ s)
  end.

(** One child of a [command] node. *)
Definition parse_word (child : Node) : option str :=
  if bool_decide (kind child = §"command_name") then
    word_node ← head (named_children child);
    if bool_decide (kind word_node = §"word") then Some (text word_node) else None
  else if one_of (kind child) [§"word"; §"number"] then Some (text child)
  else if bool_decide (kind child = §"string") then parse_double_quoted_string child
  else if bool_decide (kind child = §"raw_string") then parse_raw_string child
  else if bool_decide (kind child = §"concatenation") then
    c ← concat_parts (named_children child) [];
    if bool_decide (c = []) then None else Some c
  else None.

Definition parse_plain_command_from_node (cmd : Node) : option (list str) :=
  if negb (bool_decide (kind cmd = §"command")) then None
  else mapM parse_word (named_children cmd).

Definition try_parse_word_only_commands_sequence (tree : Tree) : option (list (list str)) :=
  if has_error tree then None
  else
    r ← walk (node_size (root_node tree)) [root_node tree] [];
    command_nodes ← r;
    mapM parse_plain_command_from_node (sort_nodes command_nodes).

(** ** [shell.rs]: the kind of a shell from its path *)

Inductive ShellType := Zsh | Bash | PowerShell | Sh | Cmd.

(** The recursion is on the stem, which is shorter than the path unless it is
    equal to it; the fuel is the length of the path. *)
Fixpoint detect_shell_type_fuel (fuel : nat) (shell_path : str) : option ShellType :=
  if bool_decide (shell_path = §"zsh") then Some Zsh
  else if bool_decide (shell_path = §"sh") then Some Sh
  else if bool_decide (shell_path = §"cmd") then Some Cmd
  else if bool_decide (shell_path = §"bash") then Some Bash
  else if bool_decide (shell_path = §"pwsh") then Some PowerShell
  else if bool_decide (shell_path = §"powershell") then Some PowerShell
  else
    match file_stem shell_path with
    | Some shell_name =>
        if path_eq shell_name shell_path then None
        else match fuel with
             | 0 => None
             | S fuel' => detect_shell_type_fuel fuel' shell_name
             end
    | None => None
    end.
Definition detect_shell_type (shell_path : str) : option ShellType :=
  detect_shell_type_fuel (length shell_path) shell_path.

Definition extract_bash_command (command : list str) : option (str * str) :=
  match command with
  | [shell; flag; script] =>
      if one_of flag [§"-lc"; §"-c"] &&
         match detect_shell_type shell with Some (Zsh | Bash | Sh) => true | _ => false end
      then Some (shell, script) else None
  | _ => None
  end.

Section parser.
Context (try_parse_shell : str → option Tree).

Definition parse_shell_lc_plain_commands (command : list str) : option (list (list str)) :=
  '(_, script) ← extract_bash_command command;
  tree ← try_parse_shell script;
  try_parse_word_only_commands_sequence tree.
End parser.

(** * Correctness *)

(** The nodes of a tree. *)
Inductive in_tree : Node → Node → Prop :=
| in_here n : in_tree n n
| in_child n m c : c ∈ children m → in_tree n c → in_tree n m.

Definition is_command (n : Node) : bool := is_named n && bool_decide (kind n = §"command").

(** Whatever the order of the walk, acceptance means that every node below the
    stack is allowed, and the collected nodes are exactly the commands. *)
Lemma walk_sound fuel stack acc cs :
  walk fuel stack acc = Some (Some cs) →
  ∀ n, (∃ m, m ∈ stack ∧ in_tree n m) →
    node_allowed n = true ∧ (is_command n = true → n ∈ cs).
Proof.
  assert (∀ fuel stack acc cs, walk fuel stack acc = Some (Some cs) → acc ⊆ cs) as Hacc.
  { clear. induction fuel as [|fuel IH]; intros [|node stack] acc cs H; cbn in H; simplify_eq; try done.
    destruct (node_allowed node); [|done]. apply IH in H.
    intros x Hx. apply H. case_match; set_solver. }
  revert stack acc. induction fuel as [|fuel IH]; intros [|node stack] acc H n (m & Hm & Hn);
    cbn in H; simplify_eq; try (by apply elem_of_nil in Hm).
  destruct (node_allowed node) eqn:Hall; [|done].
  apply elem_of_cons in Hm as [->|Hm].
  - inversion Hn as [|? ? c Hc Hin]; subst.
    + split; [done|]. intros Hcmd. apply (Hacc _ _ _ _ H). unfold is_command in Hcmd.
      rewrite Hcmd. apply elem_of_app. right. by left.
    + eapply IH; [exact H|]. exists c. split; [|done]. apply elem_of_app. left.
      by apply elem_of_reverse.
  - eapply IH; [exact H|]. exists m. split; [|done]. apply elem_of_app. by right.
Qed.

Lemma walk_collects fuel stack acc cs :
  walk fuel stack acc = Some (Some cs) →
  ∀ n, n ∈ cs → n ∈ acc ∨ is_command n = true ∧ ∃ m, m ∈ stack ∧ in_tree n m.
Proof.
  revert stack acc. induction fuel as [|fuel IH]; intros [|node stack] acc H n Hn;
    cbn in H; simplify_eq; try (by left).
  destruct (node_allowed node); [|done].
  destruct (IH _ _ H n Hn) as [Hin|(Hc & m & Hm & Hnm)].
  - fold (is_command node) in Hin. destruct (is_command node) eqn:E; [|by left].
    apply elem_of_app in Hin as [?| ->%list_elem_of_singleton]; [by left|right].
    split; [done|]. exists node. split; [by left|constructor].
  - right. split; [done|]. apply elem_of_app in Hm as [Hm|Hm].
    + exists node. split; [by left|]. rewrite elem_of_reverse in Hm.
      eapply in_child; [exact Hm|exact Hnm].
    + exists m. split; [by right|done].
Qed.

Definition stack_size (stack : list Node) : nat := sum_list_with node_size stack.

Lemma walk_enough_fuel fuel stack acc :
  stack_size stack ≤ fuel → ∃ r, walk fuel stack acc = Some r.
Proof.
  revert stack acc. induction fuel as [|fuel IH]; intros [|node stack] acc Hf; cbn; eauto.
  - destruct node; unfold stack_size in Hf; cbn in Hf. lia.
  - destruct (node_allowed node); [|eauto]. apply IH.
    destruct node as [k t b s c]. unfold stack_size in *. cbn in Hf. cbn [children].
    etransitivity; [|exact (le_S_n _ _ Hf)].
    by rewrite sum_list_with_app, sum_list_with_reverse.
Qed.

Lemma sort_nodes_perm l : sort_nodes l ≡ₚ l.
Proof.
  induction l as [|x l IH]; cbn; [done|].
  assert (∀ k, insert_node x k ≡ₚ x :: k) as Hins.
  { induction k as [|y k IHk]; cbn; [done|]. case_decide; [done|]. rewrite IHk. constructor. }
  by rewrite Hins, IH.
Qed.

Definition node_le (a b : Node) : Prop := start_byte a ≤ start_byte b.

Lemma insert_node_sorted x l : Sorted node_le l → Sorted node_le (insert_node x l).
Proof.
  unfold node_le. induction 1 as [|y k Hk IHk Hy]; cbn; [repeat constructor|].
  case_decide; [repeat constructor; done|]. constructor; [done|].
  destruct k as [|z k]; cbn; [constructor; lia|].
  case_decide; constructor; [lia|]. by inversion Hy.
Qed.

Lemma sort_nodes_sorted l : Sorted node_le (sort_nodes l).
Proof. induction l; cbn; [constructor|by apply insert_node_sorted]. Qed.

(** Soundness of the script analysis: when a parse tree is accepted, the
    tree has no error, every node of it is of an allowed kind, and the result
    lists one word list per command node of the tree, in source order. *)
Theorem word_only_sequence_sound tree cmds :
  try_parse_word_only_commands_sequence tree = Some cmds →
  has_error tree = false ∧
  (∀ n, in_tree n (root_node tree) → node_allowed n = true) ∧
  ∃ nodes, Forall2 (λ n ws, parse_plain_command_from_node n = Some ws) nodes cmds
    ∧ Sorted node_le nodes
    ∧ (∀ n, n ∈ nodes ↔ in_tree n (root_node tree) ∧ is_command n = true).
Proof.
  unfold try_parse_word_only_commands_sequence. destruct (has_error tree); [done|].
  destruct (walk _ _ _) as [[cs|]|] eqn:E; [|done..]. cbn. intros H%mapM_Some.
  pose proof (walk_sound _ _ _ _ E) as Hs. pose proof (walk_collects _ _ _ _ E) as Hc.
  split; [done|]. split.
  - intros n Hn. apply Hs. exists (root_node tree). split; [by left|done].
  - exists (sort_nodes cs). split_and!; [done|apply sort_nodes_sorted|].
    intros n. rewrite sort_nodes_perm. split.
    + intros Hn. destruct (Hc n Hn) as [?%elem_of_nil|(? & m & Hm & ?)]; [done|].
      by apply list_elem_of_singleton in Hm as ->.
    + intros [Hin Hcmd]. by apply (Hs n (ex_intro _ (root_node tree) (conj (list_elem_of_here _ _) Hin))).
Qed.

Lemma word_only_sequence_total tree :
  has_error tree = false → ∃ r, walk (node_size (root_node tree)) [root_node tree] [] = Some r.
Proof. intros _. apply walk_enough_fuel. cbn. lia. Qed.

(** ** A tree, as tree-sitter builds it for [ls -l && pwd] *)
Definition word (s : string) (start : nat) : Node := mkNode §"word" (lit s) true start [].
Definition command (name : string) (start : nat) (args : list Node) : Node :=
  mkNode §"command" (lit name) true start
    (mkNode §"command_name" (lit name) true start [word name start] :: args).
Definition sample_tree : Tree :=
  {| root_node := mkNode §"program" §"ls -l && pwd" true 0
       [mkNode §"list" §"ls -l && pwd" true 0
          [command "ls" 0 [word "-l" 3]; mkNode §"&&" §"&&" false 6 []; command "pwd" 9 []]];
     has_error := false |}.

Lemma word_only_sequence_sound_witness :
  try_parse_word_only_commands_sequence sample_tree = Some [[§"ls"; §"-l"]; [§"pwd"]] ∧
  has_error sample_tree = false ∧
  (∀ n, in_tree n (root_node sample_tree) → node_allowed n = true) ∧
  ∃ nodes, Forall2 (λ n ws, parse_plain_command_from_node n = Some ws) nodes
             [[§"ls"; §"-l"]; [§"pwd"]]
    ∧ Sorted node_le nodes
    ∧ (∀ n, n ∈ nodes ↔ in_tree n (root_node sample_tree) ∧ is_command n = true).
Proof.
  assert (try_parse_word_only_commands_sequence sample_tree = Some [[§"ls"; §"-l"]; [§"pwd"]])
    as H by (vm_compute; reflexivity).
  split; [exact H|]. apply (word_only_sequence_sound sample_tree _ H).
Defined.
