(* ===== verification/CommandSafety.v ===== *)
(** * Which commands may run without asking: [crates/core/src/commands/safety]

    The allow list ([is_safe_command.rs]), the deny heuristics
    ([is_dangerous_command.rs]) and the PowerShell allow list
    ([windows_safe_commands.rs]).  [cfg!(target_os = "linux")] holds. *)
From S2P Require Import Prelude RustStr Paths Bash.

Definition any (p : str → bool) (args : list str) : bool := existsb p args.

(** ** [is_dangerous_command.rs]: options of [git] *)

Definition is_git_global_option_with_value (arg : str) : bool :=
  one_of arg [§"-C"; §"-c"; §"--config-env"; §"--exec-path"; §"--git-dir"; §"--namespace";
              §"--super-prefix"; §"--work-tree"].

Definition inline_value_prefixes : list str :=
  [§"--config-env="; §"--exec-path="; §"--git-dir="; §"--namespace="; §"--super-prefix=";
   §"--work-tree="].

Definition is_git_global_option_with_inline_value (arg : str) : bool :=
  existsb (starts_with arg) inline_value_prefixes
  || ((starts_with arg §"-C" || starts_with arg §"-c") && (2 <? str_len arg)).

Definition git_global_option_requires_prompt (arg : str) : bool :=
  one_of arg [§"-c"; §"--config-env"; §"--exec-path"; §"--git-dir"; §"--namespace";
              §"--super-prefix"; §"--work-tree"]
  || (starts_with arg §"-c" && (2 <? str_len arg))
  || existsb (starts_with arg) inline_value_prefixes.

(** The loop over [command.iter().enumerate().skip(1)]. *)
Fixpoint find_git_loop (subcommands : list str) (args : list str) (idx : nat) (skip_next : bool)
  : option (nat * str) :=
  match args with
  | [] => None
  | arg :: args' =>
      if skip_next then find_git_loop subcommands args' (S idx) false
      else if is_git_global_option_with_inline_value arg
      then find_git_loop subcommands args' (S idx) false
      else if is_git_global_option_with_value arg
      then find_git_loop subcommands args' (S idx) true
      else if bool_decide (arg = §"--") || starts_with arg §"-"
      then find_git_loop subcommands args' (S idx) false
      else if one_of arg subcommands then Some (idx, arg)
      else None
  end.

Definition find_git_subcommand (command subcommands : list str) : option (nat * str) :=
  match command with
  | [] => None
  | cmd0 :: args =>
      if ends_with cmd0 §"git" then find_git_loop subcommands args 1 false else None
  end.

Definition is_any_sep (c : char) : bool := bool_decide (c = SLASH ∨ c = 92%N).

(** [cmd.rsplit(['/', '\\']).next()] *)
Definition command_basename (cmd : str) : str :=
  reverse (take_while (λ c, negb (is_any_sep c)) (reverse cmd)).

Definition short_flag_group_contains (arg : str) (target : char) : bool :=
  starts_with arg §"-" && negb (starts_with arg §"--")
  && existsb (λ c, bool_decide (c = target)) (drop 1 arg).

Definition rm_is_force (args : list str) : bool :=
  any (λ arg, bool_decide (arg = §"--force") || short_flag_group_contains arg 102%N) args.

Definition git_branch_is_delete (branch_args : list str) : bool :=
  any (λ arg, one_of arg [§"-d"; §"-D"; §"--delete"] || starts_with arg §"--delete="
              || short_flag_group_contains arg 100%N || short_flag_group_contains arg 68%N)
      branch_args.

Definition git_push_refspec_is_dangerous (arg : str) : bool :=
  (starts_with arg §"+" || starts_with arg §":") && (1 <? str_len arg).

Definition git_push_is_dangerous (push_args : list str) : bool :=
  any (λ arg, one_of arg [§"--force"; §"--force-with-lease"; §"--force-if-includes";
                          §"--delete"; §"-f"; §"-d"]
              || starts_with arg §"--force-with-lease=" || starts_with arg §"--force-if-includes="
              || starts_with arg §"--delete="
              || short_flag_group_contains arg 102%N || short_flag_group_contains arg 100%N
              || git_push_refspec_is_dangerous arg) push_args.

Definition git_clean_is_force (clean_args : list str) : bool :=
  any (λ arg, one_of arg [§"--force"; §"-f"] || starts_with arg §"--force="
              || short_flag_group_contains arg 102%N) clean_args.

Definition dangerous_git_subcommands : list str :=
  [§"reset"; §"rm"; §"branch"; §"push"; §"clean"].

Definition git_is_dangerous (command : list str) : bool :=
  match find_git_subcommand command dangerous_git_subcommands with
  | None => false
  | Some (subcommand_idx, subcommand) =>
      let args := drop (subcommand_idx + 1) command in
      if one_of subcommand [§"reset"; §"rm"] then true
      else if bool_decide (subcommand = §"branch") then git_branch_is_delete args
      else if bool_decide (subcommand = §"push") then git_push_is_dangerous args
      else if bool_decide (subcommand = §"clean") then git_clean_is_force args
      else false
  end.

(** Recursion on the rest of the command for [sudo]. *)
Fixpoint is_dangerous_to_call_with_exec (command : list str) : bool :=
  match command with
  | [] => false
  | cmd :: args =>
      if ends_with cmd §"git" then git_is_dangerous command
      else if bool_decide (cmd = §"sudo") then is_dangerous_to_call_with_exec args
      else
        let name := command_basename cmd in
        if bool_decide (name = §"rm") then rm_is_force args
        else if one_of name [§"dd"; §"shred"; §"truncate"] then true
        else bool_decide (name = §"mkfs") || starts_with name §"mkfs."
  end.

(** ** [is_safe_command.rs] *)

Definition SAFE_NAMES : list str :=
  [§"cat"; §"cd"; §"cut"; §"echo"; §"expr"; §"false"; §"grep"; §"head"; §"id"; §"ls"; §"nl";
   §"paste"; §"pwd"; §"rev"; §"seq"; §"stat"; §"tail"; §"tr"; §"true"; §"uname"; §"uniq";
   §"wc"; §"which"; §"whoami"].

Definition base64_is_safe (command : list str) : bool :=
  negb (any (λ arg, one_of arg [§"-o"; §"--output"] || starts_with arg §"--output="
                    || (starts_with arg §"-o" && negb (bool_decide (arg = §"-o"))))
            (drop 1 command)).

Definition UNSAFE_FIND_OPTIONS : list str :=
  [§"-exec"; §"-execdir"; §"-ok"; §"-okdir"; §"-delete"; §"-fls"; §"-fprint"; §"-fprint0";
   §"-fprintf"].
Definition find_is_safe (command : list str) : bool :=
  negb (any (λ arg, one_of arg UNSAFE_FIND_OPTIONS) command).

Definition UNSAFE_RIPGREP_OPTIONS_WITH_ARGS : list str := [§"--pre"; §"--hostname-bin"].
Definition UNSAFE_RIPGREP_OPTIONS_WITHOUT_ARGS : list str := [§"--search-zip"; §"-z"].
Definition ripgrep_arg_is_unsafe (arg : str) : bool :=
  one_of arg UNSAFE_RIPGREP_OPTIONS_WITHOUT_ARGS
  || existsb (λ opt, bool_decide (arg = opt) || starts_with arg (opt ++ §"="))
       UNSAFE_RIPGREP_OPTIONS_WITH_ARGS.
Definition rg_is_safe (command : list str) : bool := negb (any ripgrep_arg_is_unsafe command).

Definition is_valid_sed_n_arg (arg : option str) : bool :=
  match arg with
  | None => false
  | Some s =>
      match strip_suffix §"p" s with
      | None => false
      | Some core =>
          match split_on 44%N core with
          | [num] => negb (bool_decide (num = [])) && forallb is_ascii_digit num
          | [a; b] => negb (bool_decide (a = [])) && negb (bool_decide (b = []))
                      && forallb is_ascii_digit a && forallb is_ascii_digit b
          | _ => false
          end
      end
  end.

Definition is_paren (c : char) : bool := bool_decide (c = 40%N ∨ c = 41%N).

Definition git_has_unsafe_global_option (command : list str) : bool :=
  any git_global_option_requires_prompt (drop 1 command).

Definition UNSAFE_GIT_FLAGS : list str :=
  [§"--output"; §"--ext-diff"; §"--textconv"; §"--exec"; §"--paginate";
   §"--open-files-in-pager"; §"--filters"].
Definition git_subcommand_args_are_read_only (args : list str) : bool :=
  negb (any (λ arg, one_of arg UNSAFE_GIT_FLAGS || starts_with arg §"--output="
                    || starts_with arg §"--exec=") args).

Definition BRANCH_READ_ONLY_FLAGS : list str :=
  [§"--list"; §"-l"; §"--show-current"; §"-a"; §"--all"; §"-r"; §"--remotes"; §"-v"; §"-vv";
   §"--verbose"].
(** The loop returns [false] at the first other argument; it ends with
    [saw_read_only_flag], true after at least one argument. *)
Fixpoint git_branch_loop (args : list str) (saw_read_only_flag : bool) : bool :=
  match args with
  | [] => saw_read_only_flag
  | arg :: args' =>
      if one_of arg BRANCH_READ_ONLY_FLAGS then git_branch_loop args' true
      else if starts_with arg §"--format=" then git_branch_loop args' true
      else false
  end.
Definition git_branch_is_read_only (branch_args : list str) : bool :=
  if bool_decide (branch_args = []) then true else git_branch_loop branch_args false.

Definition read_only_git_subcommands : list str :=
  [§"status"; §"log"; §"diff"; §"show"; §"branch"; §"rev-parse"; §"cat-file"].

Definition is_safe_git_command (command : list str) : bool :=
  match command with
  | [] => false
  | program :: _ =>
      match file_name (trim_matches is_paren program) with
      | Some name =>
          if negb (eq_ignore_ascii_case name §"git") then false
          else if git_has_unsafe_global_option command then false
          else
            match find_git_subcommand command read_only_git_subcommands with
            | None => false
            | Some (subcommand_idx, subcommand) =>
                let args := drop (subcommand_idx + 1) command in
                if one_of subcommand [§"status"; §"log"; §"diff"; §"show"; §"rev-parse";
                                      §"cat-file"]
                then git_subcommand_args_are_read_only args
                else if bool_decide (subcommand = §"branch")
                then git_subcommand_args_are_read_only args && git_branch_is_read_only args
                else false
            end
      | None => false
      end
  end.

Definition sed_is_safe (command : list str) : bool :=
  (length command <=? 4) && bool_decide (command !! 1 = Some §"-n")
  && is_valid_sed_n_arg (command !! 2).

Definition is_safe_to_call_with_exec (command : list str) : bool :=
  match command with
  | [] => false
  | cmd0 :: _ =>
      match file_name cmd0 with
      | None => false
      | Some cmd =>
          if one_of cmd [§"numfmt"; §"tac"] then true
          else if one_of cmd SAFE_NAMES then true
          else if bool_decide (cmd = §"base64") then base64_is_safe command
          else if bool_decide (cmd = §"find") then find_is_safe command
          else if bool_decide (cmd = §"rg") then rg_is_safe command
          else if bool_decide (cmd = §"git") then is_safe_git_command command
          else if bool_decide (cmd = §"sed") then sed_is_safe command
          else false
      end
  end.

(** ** [windows_safe_commands.rs] *)

Definition is_powershell_executable (exe : str) : bool :=
  one_of (to_ascii_lowercase (default exe (file_name exe)))
    [§"powershell"; §"powershell.exe"; §"pwsh"; §"pwsh.exe"].

(** [arg.replace('\'', QQ)], doubling the quotes. *)
Definition double_quotes (arg : str) : str :=
  arg ≫= λ c, if bool_decide (c = 39%N) then [39%N; 39%N] else [c].
Definition quote_argument (arg : str) : str :=
  if bool_decide (arg = []) then [39%N; 39%N]
  else if forallb (λ ch, negb (is_whitespace ch)) arg then arg
  else [39%N] ++ double_quotes arg ++ [39%N].
Definition join_arguments_as_script (args : list str) : str :=
  match args with
  | [] => []
  | first :: rest => join §" " (first :: (quote_argument <$> rest))
  end.

Definition FORBIDDEN_CMDLETS : list str :=
  [§"set-content"; §"add-content"; §"out-file"; §"new-item"; §"remove-item"; §"move-item";
   §"copy-item"; §"rename-item"; §"start-process"; §"stop-process"].
Definition ALLOWED_CMDLETS : list str :=
  [§"echo"; §"write-output"; §"write-host"; §"dir"; §"ls"; §"get-childitem"; §"gci"; §"cat";
   §"type"; §"gc"; §"get-content"; §"select-string"; §"sls"; §"findstr"; §"measure-object";
   §"measure"; §"get-location"; §"gl"; §"pwd"; §"test-path"; §"tp"; §"resolve-path"; §"rvpa";
   §"select-object"; §"select"; §"get-item"].

Definition is_safe_ripgrep (words : list str) : bool :=
  negb (any (λ arg, ripgrep_arg_is_unsafe (to_ascii_lowercase arg)) (drop 1 words)).

Definition word_is_forbidden (w : str) : bool :=
  one_of (to_ascii_lowercase
            (trim_start_matches (λ c, bool_decide (c = 45%N)) (trim_matches is_paren w)))
    FORBIDDEN_CMDLETS.

Definition is_safe_powershell_command (words : list str) : bool :=
  match words with
  | [] => false
  | word0 :: _ =>
      if any word_is_forbidden words then false
      else
        let command := to_ascii_lowercase (trim_matches is_paren word0) in
        if one_of command ALLOWED_CMDLETS then true
        else if bool_decide (command = §"git") then is_safe_git_command words
        else if bool_decide (command = §"rg") then is_safe_ripgrep words
        else false
  end.

Section powershell.
(** [parse_with_powershell_ast] runs PowerShell itself: [Some commands] is the
    outcome [Commands(commands)]. *)
Context (parse_with_powershell_ast : str → str → option (list (list str))).

(** The [while idx < args.len()] loop; [args] is what remains at [idx]. *)
Fixpoint parse_powershell_invocation (executable : str) (args : list str)
  : option (list (list str)) :=
  match args with
  | [] => None
  | arg :: rest =>
      let lower := to_ascii_lowercase arg in
      if one_of lower [§"-command"; §"/command"; §"-c"] then
        match rest with
        | [script] => parse_with_powershell_ast executable script
        | _ => None
        end
      else if starts_with lower §"-command:" || starts_with lower §"/command:" then
        match rest with
        | [] => '(_, script) ← split_once 58%N arg; parse_with_powershell_ast executable script
        | _ => None
        end
      else if one_of lower [§"-nologo"; §"-noprofile"; §"-noninteractive"; §"-mta"; §"-sta"]
      then parse_powershell_invocation executable rest
      else if one_of lower [§"-encodedcommand"; §"-ec"; §"-file"; §"/file"; §"-windowstyle";
                            §"-executionpolicy"; §"-workingdirectory"] then None
      else if starts_with lower §"-" then None
      else parse_with_powershell_ast executable (join_arguments_as_script args)
  end.

Definition try_parse_powershell_command_sequence (command : list str)
  : option (list (list str)) :=
  match command with
  | [] => None
  | exe :: rest =>
      if is_powershell_executable exe then parse_powershell_invocation exe rest else None
  end.

Definition is_safe_command_windows (command : list str) : bool :=
  match try_parse_powershell_command_sequence command with
  | Some commands => forallb is_safe_powershell_command commands
  | None => false
  end.

(** ** The two entry points *)

Context (try_parse_shell : str → option Tree).

Definition normalise_zsh (command : list str) : list str :=
  (λ s, if bool_decide (s = §"zsh") then §"bash" else s) <$> command.

Definition is_known_safe_command (command : list str) : bool :=
  let command := normalise_zsh command in
  is_safe_command_windows command
  || is_safe_to_call_with_exec command
  || match parse_shell_lc_plain_commands try_parse_shell command with
     | Some all_commands =>
         negb (bool_decide (all_commands = [])) && forallb is_safe_to_call_with_exec all_commands
     | None => false
     end.

Definition command_might_be_dangerous (command : list str) : bool :=
  is_dangerous_to_call_with_exec command
  || match parse_shell_lc_plain_commands try_parse_shell command with
     | Some all_commands => existsb is_dangerous_to_call_with_exec all_commands
     | None => false
     end.
End powershell.

(** * Correctness *)

(** ** The scan for the subcommand of [git] *)

(** The scan stops at the first positional argument, whatever list it is asked
    for; the list only decides whether that argument is reported. *)
Lemma find_git_loop_agree subs1 subs2 args idx skip i a :
  find_git_loop subs1 args idx skip = Some (i, a) →
  one_of a subs1 = true ∧
  find_git_loop subs2 args idx skip = (if one_of a subs2 then Some (i, a) else None).
Proof.
  revert idx skip. induction args as [|arg args IH]; intros idx skip; cbn [find_git_loop]; [done|].
  destruct skip; [apply IH|].
  destruct (is_git_global_option_with_inline_value arg); [apply IH|].
  destruct (is_git_global_option_with_value arg); [apply IH|].
  destruct (bool_decide (arg = §"--") || starts_with arg §"-"); [apply IH|].
  destruct (one_of arg subs1) eqn:E; [|done]. by intros [= <- <-].
Qed.

(** ** Names and paths *)

Lemma take_while_weaken {A} (p q : A → bool) l :
  (∀ x, p x = true → q x = true) → ∃ y, take_while q l = take_while p l ++ y.
Proof.
  intros Hpq. induction l as [|x l [y IH]]; cbn; [by exists []|].
  destruct (p x) eqn:Hp.
  - rewrite (Hpq x Hp), IH. by exists y.
  - eexists. by rewrite app_nil_l.
Qed.

Lemma trim_trailing_id p :
  (∀ c, last p = Some c → c ≠ SLASH) → (∀ q, p ≠ q ++ [SLASH; DOT]) → trim_trailing p = p.
Proof.
  intros H1 H2. unfold trim_trailing. assert (∀ n, trim_trailing_rev n (reverse p) = reverse p) as ->.
  { intros n. destruct n as [|n]; [done|]. destruct (reverse p) as [|c [|c' r]] eqn:E; try done.
    cbn. assert (p = reverse r ++ [c'; c]) as ->.
    { rewrite <-(reverse_involutive p), E, !reverse_cons. by rewrite <-(assoc_L (++)). }
    rewrite decide_False; [|apply H1; by rewrite (last_app_cons _ [c]) || by rewrite last_app].
    rewrite decide_False; [done|]. intros [-> ->]. by apply (H2 (reverse r)). }
  apply reverse_involutive.
Qed.

(** The last component of a path ends with what follows its last separator. *)
Lemma last_component_basename cmd :
  command_basename cmd ≠ [] → command_basename cmd ≠ [DOT] →
  ∃ x, last_component cmd = x ++ command_basename cmd.
Proof.
  unfold command_basename, last_component. intros Hne Hdot.
  rewrite trim_trailing_id.
  - destruct (take_while_weaken (λ c, negb (is_any_sep c)) (λ c, negb (bool_decide (c = SLASH)))
      (reverse cmd)) as [y ->].
    + unfold is_any_sep. intros c Hc. apply negb_true_iff, bool_decide_eq_false in Hc.
      apply negb_true_iff, bool_decide_eq_false. tauto.
    + exists (reverse y). by rewrite reverse_app.
  - intros c Hc ->. apply Hne. rewrite <-head_reverse in Hc.
    destruct (reverse cmd); [done|]. cbn in Hc. by simplify_eq.
  - intros q ->. apply Hdot. by rewrite reverse_app.
Qed.

Lemma last_component_ends_git cmd :
  ends_with cmd §"git" = true → ends_with (last_component cmd) §"git" = true.
Proof.
  intros [y ->]%ends_with_true. unfold last_component. rewrite trim_trailing_id.
  - rewrite reverse_app, take_while_app by (by repeat constructor).
    rewrite reverse_app, reverse_involutive. apply ends_with_true. eauto.
  - intros c. change §"git" with ([103; 105] ++ [116])%N. rewrite (assoc_L (++)), last_snoc.
    by intros [= <-].
  - intros q Hq. change §"git" with ([103] ++ [105; 116])%N in Hq.
    rewrite (assoc_L (++)) in Hq. by apply app_inj_2 in Hq as [_ ?].
Qed.

(** Every program the allow list knows. *)
Definition SAFE_EXEC_NAMES : list str :=
  [§"numfmt"; §"tac"] ++ SAFE_NAMES ++ [§"base64"; §"find"; §"rg"; §"git"; §"sed"].

Lemma one_of_true s l : one_of s l = true ↔ s ∈ l.
Proof. apply bool_decide_eq_true. Qed.

Lemma safe_exec_name cmd0 args :
  is_safe_to_call_with_exec (cmd0 :: args) = true →
  file_name cmd0 = Some (last_component cmd0) ∧ last_component cmd0 ∈ SAFE_EXEC_NAMES ∧
  (last_component cmd0 = §"git" → is_safe_git_command (cmd0 :: args) = true).
Proof.
  unfold is_safe_to_call_with_exec. destruct (file_name cmd0) as [n|] eqn:E; [|done].
  assert (n = last_component cmd0) as ->.
  { unfold file_name in E. by destruct (one_of _ _); simplify_eq. }
  intros H. split; [done|]. unfold SAFE_EXEC_NAMES. split.
  - repeat (case_match; [rewrite ?one_of_true, ?bool_decide_eq_true in *; set_solver|]). done.
  - intros Hg. rewrite Hg in H. exact H.
Qed.

Definition basename_is_dangerous (name : str) : bool :=
  bool_decide (name = §"rm") || one_of name [§"dd"; §"shred"; §"truncate"]
  || bool_decide (name = §"mkfs") || starts_with name §"mkfs.".

(** No allowed name ends with a name the deny heuristics look for. *)
Lemma safe_names_no_dangerous_suffix name x b :
  name ∈ SAFE_EXEC_NAMES → name = x ++ b → basename_is_dangerous b = false.
Proof.
  intros Hin ->. assert (b = drop (length x) (x ++ b)) as Hb by by rewrite drop_app_length.
  assert (forallb (λ n, forallb (λ i, negb (basename_is_dangerous (drop i n)))
            (seq 0 (S (length n)))) SAFE_EXEC_NAMES = true) as Hall by (by vm_compute).
  rewrite forallb_forall in Hall. apply list_elem_of_In in Hin. specialize (Hall _ Hin).
  rewrite forallb_forall in Hall. specialize (Hall (length x)).
  rewrite <-Hb in Hall. apply negb_true_iff, Hall, in_seq. rewrite length_app. lia.
Qed.

Lemma safe_names_git name :
  name ∈ SAFE_EXEC_NAMES → ends_with name §"git" = true → name = §"git".
Proof.
  intros Hin Hg. assert (forallb (λ n, negb (ends_with n §"git") || bool_decide (n = §"git"))
    SAFE_EXEC_NAMES = true) as Hall by (by vm_compute).
  rewrite forallb_forall in Hall. apply list_elem_of_In in Hin. specialize (Hall _ Hin).
  rewrite Hg in Hall. by apply bool_decide_eq_true in Hall.
Qed.

(** ** [git branch] *)

Lemma branch_flag_not_delete arg :
  one_of arg BRANCH_READ_ONLY_FLAGS || starts_with arg §"--format=" = true →
  one_of arg [§"-d"; §"-D"; §"--delete"] || starts_with arg §"--delete="
  || short_flag_group_contains arg 100%N || short_flag_group_contains arg 68%N = false.
Proof.
  intros [H|H]%orb_true_iff.
  - rewrite one_of_true in H. unfold BRANCH_READ_ONLY_FLAGS in H.
    repeat (apply elem_of_cons in H as [->|H]; [by vm_compute|]). by apply elem_of_nil in H.
  - apply starts_with_true in H as [r ->]. unfold short_flag_group_contains.
    replace (starts_with (§"--format=" ++ r) §"--") with true by done.
    replace (starts_with (§"--format=" ++ r) §"--delete=") with false by done.
    rewrite !andb_false_r, !orb_false_r || rewrite !andb_false_r. cbn [negb andb].
    rewrite ?andb_false_r, ?orb_false_r. apply bool_decide_eq_false.
    intros Hin. repeat (apply elem_of_cons in Hin as [Hin|Hin]; [by apply (f_equal (take 3)) in Hin|]).
    by apply elem_of_nil in Hin.
Qed.

Lemma branch_read_only_not_delete args :
  git_branch_is_read_only args = true → git_branch_is_delete args = false.
Proof.
  unfold git_branch_is_read_only, git_branch_is_delete, any.
  case_bool_decide as Hnil; [by subst|]. clear Hnil. intros H.
  assert (∀ b, git_branch_loop args b = true →
    Forall (λ a, one_of a BRANCH_READ_ONLY_FLAGS || starts_with a §"--format=" = true) args) as Hall.
  { clear. induction args as [|a args IH]; intros b Hb; [constructor|]. cbn in Hb.
    destruct (one_of a BRANCH_READ_ONLY_FLAGS) eqn:E1.
    { constructor; [by rewrite E1|by eapply IH]. }
    destruct (starts_with a §"--format=") eqn:E2; [|done].
    constructor; [by rewrite E1, E2|by eapply IH]. }
  specialize (Hall _ H). clear H. induction Hall as [|a args Ha _ IH]; [done|].
  cbn [existsb]. by rewrite (branch_flag_not_delete a Ha), IH.
Qed.

Lemma safe_git_not_dangerous cmd :
  is_safe_git_command cmd = true → git_is_dangerous cmd = false.
Proof.
  unfold is_safe_git_command, git_is_dangerous. destruct cmd as [|cmd0 args]; [done|].
  destruct (file_name _) as [n|]; [|done]. destruct (negb _); [done|].
  destruct (git_has_unsafe_global_option _); [done|].
  unfold find_git_subcommand. destruct (ends_with cmd0 §"git"); [|done].
  destruct (find_git_loop read_only_git_subcommands args 1 false) as [[i a]|] eqn:E; [|done].
  apply (find_git_loop_agree _ dangerous_git_subcommands) in E as [Ha ->].
  rewrite one_of_true in Ha. unfold read_only_git_subcommands in Ha.
  repeat (apply elem_of_cons in Ha as [->|Ha];
    [first [by vm_compute|
       intros H; cbn [negb one_of] in H; apply andb_prop in H as [_ H];
       by apply branch_read_only_not_delete in H]|]).
  by apply elem_of_nil in Ha.
Qed.

(** The allow list and the deny heuristics never disagree: a command that
    may be executed without asking is not one the heuristics call dangerous,
    whatever path the program is given by. *)
Theorem safe_exec_not_dangerous command :
  is_safe_to_call_with_exec command = true → is_dangerous_to_call_with_exec command = false.
Proof.
  destruct command as [|cmd0 args]; [done|]. intros Hsafe.
  destruct (safe_exec_name cmd0 args Hsafe) as (Hfn & Hin & Hgit).
  cbn [is_dangerous_to_call_with_exec].
  destruct (ends_with cmd0 §"git") eqn:Eg.
  { apply safe_git_not_dangerous, Hgit. apply safe_names_git; [done|].
    by apply last_component_ends_git. }
  case_bool_decide as Hsudo; [subst; by vm_compute in Hin|].
  enough (basename_is_dangerous (command_basename cmd0) = false) as Hb.
  { unfold basename_is_dangerous in Hb. cbv zeta.
    by repeat (apply orb_false_iff in Hb as [Hb ->]); rewrite Hb. }
  destruct (decide (command_basename cmd0 = [])) as [->|Hne]; [by vm_compute|].
  destruct (decide (command_basename cmd0 = [DOT])) as [->|Hdot]; [by vm_compute|].
  destruct (last_component_basename cmd0 Hne Hdot) as [x Hx].
  by eapply safe_names_no_dangerous_suffix.
Qed.

Lemma safe_exec_not_dangerous_witness :
  is_dangerous_to_call_with_exec [§"/usr/bin/git"; §"status"; §"--short"] = false.
Proof. apply safe_exec_not_dangerous. by vm_compute. Defined.

(** ** The argument of [sed -n] *)

Definition digits (s : str) : Prop := s ≠ [] ∧ Forall (λ c, is_ascii_digit c = true) s.

Lemma digits_bool s :
  negb (bool_decide (s = [])) && forallb is_ascii_digit s = true ↔ digits s.
Proof.
  unfold digits. rewrite andb_true_iff, negb_true_iff, bool_decide_eq_false, forallb_forall.
  rewrite Forall_forall. by setoid_rewrite list_elem_of_In.
Qed.

Lemma digits_no_comma s : digits s → 44%N ∉ s.
Proof. intros [_ H] Hin. rewrite Forall_forall in H. by specialize (H _ Hin). Qed.

(** [is_valid_sed_n_arg] accepts exactly the strings of the documented
    regular expression: a line number, or two of them with a comma, then [p]. *)
Theorem is_valid_sed_n_arg_spec s :
  is_valid_sed_n_arg (Some s) = true ↔
  ∃ a, digits a ∧ (s = a ++ §"p" ∨ ∃ b, digits b ∧ s = (a ++ [44%N] ++ b) ++ §"p").
Proof.
  unfold is_valid_sed_n_arg. split.
  - destruct (strip_suffix §"p" s) as [core|] eqn:E; [|done]. apply strip_suffix_Some in E as ->.
    pose proof (join_split 44 core) as Hj. destruct (split_on 44 core) as [|a [|b [|]]]; try done.
    + intros H%digits_bool. exists a. split; [done|]. left. by rewrite <-Hj.
    + intros H. rewrite !andb_true_iff in H. destruct H as [[[Ha Hb] Ha'] Hb'].
      exists a. split; [apply digits_bool; by rewrite Ha, Ha'|]. right. exists b.
      split; [apply digits_bool; by rewrite Hb, Hb'|]. by rewrite <-Hj.
  - intros (a & Ha & [->|(b & Hb & ->)]).
    + rewrite (proj2 (strip_suffix_Some _ _ a) eq_refl), split_on_free by by apply digits_no_comma.
      by apply digits_bool.
    + rewrite (proj2 (strip_suffix_Some _ _ (a ++ [44%N] ++ b)) eq_refl).
      rewrite split_on_app, split_on_free by by apply digits_no_comma.
      apply digits_bool in Ha, Hb. apply andb_prop in Ha as [-> ->].
      by apply andb_prop in Hb as [-> ->].
Qed.

(** ** A directory prefix does not hide a dangerous program *)

Lemma command_basename_path dir name :
  Forall (λ c, is_any_sep c = false) name → command_basename (dir ++ [SLASH] ++ name) = name.
Proof.
  intros Hn. unfold command_basename. rewrite !reverse_app, <-(assoc_L (++)).
  rewrite take_while_app.
  - cbn. rewrite app_nil_r. by rewrite reverse_involutive.
  - apply Forall_reverse. eapply Forall_impl; [exact Hn|]. cbn. by intros c ->.
Qed.

Lemma command_basename_bare name :
  Forall (λ c, is_any_sep c = false) name → command_basename name = name.
Proof.
  intros Hn. unfold command_basename.
  rewrite <-(app_nil_r (reverse name)), take_while_app.
  - cbn. by rewrite app_nil_r, reverse_involutive.
  - apply Forall_reverse. eapply Forall_impl; [exact Hn|]. cbn. by intros c ->.
Qed.

Lemma dangerous_by_basename cmd args :
  ends_with cmd §"git" = false → cmd ≠ §"sudo" →
  is_dangerous_to_call_with_exec (cmd :: args)
  = let name := command_basename cmd in
    if bool_decide (name = §"rm") then rm_is_force args
    else if one_of name [§"dd"; §"shred"; §"truncate"] then true
    else bool_decide (name = §"mkfs") || starts_with name §"mkfs.".
Proof.
  intros Hg Hs. cbn [is_dangerous_to_call_with_exec].
  by rewrite Hg, (bool_decide_false (cmd = _)).
Qed.

(** The deny heuristics look through the path of a program: running it by
    any path, or under any number of [sudo], gives the verdict of the bare
    name (other than for [git], matched by its ending, and for [sudo] itself). *)
Theorem dangerous_path_and_sudo n dir name args :
  Forall (λ c, is_any_sep c = false) name →
  ends_with name §"git" = false → ends_with (dir ++ [SLASH] ++ name) §"git" = false →
  name ≠ §"sudo" →
  is_dangerous_to_call_with_exec (replicate n §"sudo" ++ (dir ++ [SLASH] ++ name) :: args)
  = is_dangerous_to_call_with_exec (name :: args).
Proof.
  intros Hn Hg Hg' Hs. induction n as [|n IH].
  - cbn [replicate]. rewrite app_nil_l, !dangerous_by_basename; [|done..|].
    + by rewrite command_basename_path, command_basename_bare.
    + intros H. assert (SLASH ∈ §"sudo") as Hin by (rewrite <-H; set_solver).
      revert Hin. by apply (bool_decide_eq_false (SLASH ∈ §"sudo")); vm_compute.
  - rewrite <-IH. done.
Qed.

Lemma dangerous_path_and_sudo_witness :
  is_dangerous_to_call_with_exec [§"sudo"; §"/bin/rm"; §"-rf"; §"x"] = true.
Proof.
  change [§"sudo"; §"/bin/rm"; §"-rf"; §"x"]
    with (replicate 1 §"sudo" ++ (§"/bin" ++ [SLASH] ++ §"rm") :: [§"-rf"; §"x"]).
  rewrite dangerous_path_and_sudo; [by vm_compute|by repeat constructor|done..].
Defined.

(** Only the bare word [sudo] is looked through: with a path in front of it the
    command it runs is not examined. *)
Example sudo_path_not_examined :
  is_dangerous_to_call_with_exec [§"sudo"; §"rm"; §"-rf"; §"/"] = true ∧
  is_dangerous_to_call_with_exec [§"/usr/bin/sudo"; §"rm"; §"-rf"; §"/"] = false.
Proof. by vm_compute. Qed.
