(* ===== verification/HeadTail.v ===== *)
(** * The head/tail buffer of a command's output
    ([core/src/unified_exec/head_tail_buffer.rs]).

    The buffer keeps a prefix and a suffix of everything pushed into it, in
    chunks; the specification [represents] says which bytes those are. *)
From S2P Require Import Prelude MachInt.
From Stdlib Require Import Strings.Byte.
Local Open Scope Z_scope.

Record HeadTailBuffer := {
  max_bytes : Z;
  head_budget : Z;
  tail_budget : Z;
  head : list (list byte);
  tail : list (list byte);
  head_bytes : Z;
  tail_bytes : Z;
  omitted_bytes : Z;
}.

Definition new (max : Z) : HeadTailBuffer := {|
  max_bytes := max;
  head_budget := max / 2;
  tail_budget := usat_sub max (max / 2);
  head := []; tail := []; head_bytes := 0; tail_bytes := 0; omitted_bytes := 0;
|}.

Definition UNIFIED_EXEC_OUTPUT_MAX_BYTES : Z := 1024 * 1024.
Definition default : HeadTailBuffer := new UNIFIED_EXEC_OUTPUT_MAX_BYTES.

Definition retained_bytes (b : HeadTailBuffer) : Z := usat_add (head_bytes b) (tail_bytes b).

Definition set_omitted (n : Z) (b : HeadTailBuffer) : HeadTailBuffer := {|
  max_bytes := max_bytes b; head_budget := head_budget b; tail_budget := tail_budget b;
  head := head b; tail := tail b; head_bytes := head_bytes b; tail_bytes := tail_bytes b;
  omitted_bytes := n |}.

Definition set_head (h : list (list byte)) (n : Z) (b : HeadTailBuffer) : HeadTailBuffer := {|
  max_bytes := max_bytes b; head_budget := head_budget b; tail_budget := tail_budget b;
  head := h; tail := tail b; head_bytes := n; tail_bytes := tail_bytes b;
  omitted_bytes := omitted_bytes b |}.

Definition set_tail (t : list (list byte)) (n om : Z) (b : HeadTailBuffer) : HeadTailBuffer := {|
  max_bytes := max_bytes b; head_budget := head_budget b; tail_budget := tail_budget b;
  head := head b; tail := t; head_bytes := head_bytes b; tail_bytes := n;
  omitted_bytes := om |}.

(** The loop of [trim_tail_to_budget]: pops whole chunks off the front of the
    tail, then cuts the first one it may only shorten. *)
Fixpoint trim_loop (excess : Z) (t : list (list byte)) (n om : Z) : list (list byte) * Z * Z :=
  if bool_decide (excess ≤ 0) then (t, n, om)
  else
    match t with
    | [] => ([], n, om)
    | front :: t' =>
        if bool_decide (zlen front ≤ excess) then
          trim_loop (excess - zlen front) t' (usat_sub n (zlen front)) (usat_add om (zlen front))
        else (drop (Z.to_nat excess) front :: t', usat_sub n excess, usat_add om excess)
    end.

Definition trim_tail_to_budget (b : HeadTailBuffer) : HeadTailBuffer :=
  let '(t, n, om) :=
    trim_loop (usat_sub (tail_bytes b) (tail_budget b)) (tail b) (tail_bytes b) (omitted_bytes b) in
  set_tail t n om b.

Definition push_to_tail (chunk : list byte) (b : HeadTailBuffer) : HeadTailBuffer :=
  if bool_decide (tail_budget b = 0) then
    set_omitted (usat_add (omitted_bytes b) (zlen chunk)) b
  else if bool_decide (tail_budget b ≤ zlen chunk) then
    let start := usat_sub (zlen chunk) (tail_budget b) in
    let kept := drop (Z.to_nat start) chunk in
    let dropped := usat_sub (zlen chunk) (zlen kept) in
    set_tail [kept] (zlen kept)
      (usat_add (usat_add (omitted_bytes b) (tail_bytes b)) dropped) b
  else
    trim_tail_to_budget
      (set_tail (tail b ++ [chunk]) (usat_add (tail_bytes b) (zlen chunk)) (omitted_bytes b) b).

Definition push_chunk (chunk : list byte) (b : HeadTailBuffer) : HeadTailBuffer :=
  if bool_decide (max_bytes b = 0) then
    set_omitted (usat_add (omitted_bytes b) (zlen chunk)) b
  else if bool_decide (head_bytes b < head_budget b) then
    let remaining_head := usat_sub (head_budget b) (head_bytes b) in
    if bool_decide (zlen chunk ≤ remaining_head) then
      set_head (head b ++ [chunk]) (usat_add (head_bytes b) (zlen chunk)) b
    else
      let head_part := take (Z.to_nat remaining_head) chunk in
      let tail_part := drop (Z.to_nat remaining_head) chunk in
      let b' := if bool_decide (head_part = []) then b
                else set_head (head b ++ [head_part]) (usat_add (head_bytes b) (zlen head_part)) b in
      push_to_tail tail_part b'
  else push_to_tail chunk b.

Definition snapshot_chunks (b : HeadTailBuffer) : list (list byte) := head b ++ tail b.
Definition to_bytes (b : HeadTailBuffer) : list byte := concat (head b) ++ concat (tail b).
Definition drain_chunks (b : HeadTailBuffer) : list (list byte) * HeadTailBuffer :=
  (head b ++ tail b,
   {| max_bytes := max_bytes b; head_budget := head_budget b; tail_budget := tail_budget b;
      head := []; tail := []; head_bytes := 0; tail_bytes := 0; omitted_bytes := 0 |}).

(** * Specification *)

(** The last [t] elements of a list. *)
Definition suffix_of {A} (t : nat) (l : list A) : list A := drop (length l - t) l.

(** [represents b max s]: [b] has capacity [max] and holds what it should of
    the stream [s]: the first half of the capacity as a prefix, the rest of the
    capacity as a suffix of what follows, and exact byte counts (the count of
    dropped bytes saturates). *)
Record represents (b : HeadTailBuffer) (max : Z) (s : list byte) : Prop := {
  rep_max : max_bytes b = max;
  rep_hb : head_budget b = max / 2;
  rep_tb : tail_budget b = max - max / 2;
  rep_head : concat (head b) = take (Z.to_nat (max / 2)) s;
  rep_tail : concat (tail b) = suffix_of (Z.to_nat (max - max / 2)) (drop (Z.to_nat (max / 2)) s);
  rep_hn : head_bytes b = zlen (concat (head b));
  rep_tn : tail_bytes b = zlen (concat (tail b));
  rep_om : omitted_bytes b =
           Z.min (zlen s - zlen (concat (head b)) - zlen (concat (tail b))) USIZE_MAX;
}.

Lemma suffix_of_length {A} t (l : list A) : length (suffix_of t l) = (length l `min` t)%nat.
Proof. unfold suffix_of. rewrite length_drop. lia. Qed.

(** Taking a suffix of a list and then of its extension is taking it once. *)
Lemma suffix_of_app {A} t (l k : list A) : suffix_of t (suffix_of t l ++ k) = suffix_of t (l ++ k).
Proof.
  unfold suffix_of. rewrite !length_app, length_drop, !drop_app, length_drop, drop_drop.
  apply f_equal2; f_equal; lia.
Qed.

Lemma suffix_of_long {A} t (l k : list A) : (t ≤ length k)%nat → suffix_of t (l ++ k) = suffix_of t k.
Proof.
  intros H. unfold suffix_of. rewrite length_app, drop_app, drop_ge by lia. cbn. f_equal. lia.
Qed.

Lemma suffix_of_short {A} t (l : list A) : (length l ≤ t)%nat → suffix_of t l = l.
Proof. intros H. unfold suffix_of. by replace (length l - t)%nat with 0%nat by lia. Qed.

(** The trimming loop drops [excess] bytes off the front, and accounts for them. *)
Lemma trim_loop_spec excess t n om :
  0 ≤ excess ≤ zlen (concat t) → n = zlen (concat t) → 0 ≤ om →
  ∃ t', trim_loop excess t n (Z.min om USIZE_MAX)
        = (t', n - excess, Z.min (om + excess) USIZE_MAX) ∧
        concat t' = drop (Z.to_nat excess) (concat t).
Proof.
  revert excess n om. induction t as [|front t IH]; intros excess n om Hex Hn Hom; cbn [trim_loop].
  - assert (excess = 0) as -> by (unfold zlen in Hex; cbn in Hex; lia). rewrite bool_decide_true by done.
    exists []. split; [|done]. f_equal; [f_equal|]; lia.
  - cbn [concat] in *. rewrite zlen_app in *. pose proof (zlen_nonneg front).
    case_bool_decide as H0.
    { assert (excess = 0) as -> by lia. exists (front :: t). split; [|done].
      f_equal; [f_equal|]; lia. }
    case_bool_decide as H1.
    + rewrite usat_add_clamp, usat_sub_exact by lia.
      destruct (IH (excess - zlen front) (n - zlen front) (om + zlen front)) as (t' & -> & Ht');
        [lia..|].
      exists t'. split; [f_equal; [f_equal|]; lia|]. rewrite Ht'.
      rewrite drop_app_ge by (unfold zlen in *; lia). f_equal. unfold zlen in *. lia.
    + rewrite usat_add_clamp, usat_sub_exact by lia. eexists. split; [done|]. cbn [concat].
      rewrite drop_app_le; [done|]. unfold zlen in *. lia.
Qed.

Lemma half_bounds max : 0 ≤ max → 0 ≤ max / 2 ≤ max - max / 2 ∧ max - max / 2 ≤ max / 2 + 1.
Proof. intros H. Z.to_euclidean_division_equations. lia. Qed.

Lemma new_represents max : 0 ≤ max → represents (new max) max [].
Proof.
  intros H%half_bounds.
  split; cbn -[Z.div]; try done; try (rewrite ?take_nil, ?drop_nil; done).
  apply usat_sub_exact. lia.
Qed.

Section Steps.
Context (max : Z) (Hmax : 0 ≤ max ≤ USIZE_MAX).
Implicit Types (b : HeadTailBuffer) (s chunk : list byte).

Lemma rep_tail_len b s : represents b max s → zlen (concat (tail b)) ≤ max - max / 2.
Proof.
  intros R. rewrite (rep_tail _ _ _ R). unfold zlen. rewrite suffix_of_length.
  destruct (half_bounds max); lia.
Qed.

(** The dropped bytes as an exact number, before saturation. *)
Definition dropped b s : Z := zlen s - zlen (concat (head b)) - zlen (concat (tail b)).

Lemma dropped_nonneg b s : represents b max s → 0 ≤ dropped b s.
Proof.
  intros R. unfold dropped. rewrite (rep_head _ _ _ R), (rep_tail _ _ _ R). unfold zlen.
  rewrite suffix_of_length, length_drop, length_take. lia.
Qed.

(** Once the head is full, pushing to the tail keeps the representation. *)
Lemma push_to_tail_represents b s chunk :
  max ≠ 0 → represents b max s → max / 2 ≤ zlen s →
  represents (push_to_tail chunk b) max (s ++ chunk).
Proof.
  intros Hne R Hfull. destruct (half_bounds max) as [Hh Ht]; [lia|].
  pose proof (rep_tail_len b s R) as Htl. pose proof (dropped_nonneg b s R) as Hd.
  pose proof (zlen_nonneg chunk) as Hc. pose proof (zlen_nonneg (concat (tail b))) as Htn.
  destruct R as [R1 R2 R3 R4 R5 R6 R7 R8]. fold (dropped b s) in R8.
  assert (take (Z.to_nat (max / 2)) (s ++ chunk) = take (Z.to_nat (max / 2)) s) as Htake.
  { apply take_app_le. unfold zlen in Hfull. lia. }
  assert (drop (Z.to_nat (max / 2)) (s ++ chunk) = drop (Z.to_nat (max / 2)) s ++ chunk) as Hdrop.
  { apply drop_app_le. unfold zlen in Hfull. lia. }
  unfold push_to_tail. rewrite R3, bool_decide_false by lia.
  case_bool_decide as Hbig.
  - rewrite (usat_sub_exact (zlen chunk)) by done.
    set (kept := drop _ chunk).
    assert (kept = suffix_of (Z.to_nat (max - max / 2)) chunk) as Hk.
    { unfold kept, suffix_of. f_equal. unfold zlen. lia. }
    assert (zlen kept = max - max / 2) as Hkl.
    { rewrite Hk. unfold zlen in *. rewrite suffix_of_length. lia. }
    split; cbn [set_tail max_bytes head_budget tail_budget head tail head_bytes tail_bytes
                omitted_bytes concat]; rewrite ?app_nil_r, ?Htake, ?Hdrop; try done.
    + rewrite Hk. symmetry. apply suffix_of_long. unfold zlen in Hbig. lia.
    + rewrite R8, R7, usat_sub_exact, !usat_add_clamp by lia.
      unfold dropped. rewrite zlen_app. f_equal. lia.
  - unfold trim_tail_to_budget.
    cbn [set_tail max_bytes head_budget tail_budget head tail head_bytes tail_bytes omitted_bytes].
    rewrite R3, R7, usat_add_exact by (unfold USIZE_MAX in *; lia).
    rewrite R8.
    assert (zlen (concat (tail b ++ [chunk])) = zlen (concat (tail b)) + zlen chunk) as Hcat.
    { by rewrite concat_app, zlen_app; cbn; rewrite app_nil_r. }
    destruct (trim_loop_spec
                (usat_sub (zlen (concat (tail b)) + zlen chunk) (max - max / 2))
                (tail b ++ [chunk]) (zlen (concat (tail b)) + zlen chunk) (dropped b s))
      as (t' & -> & Ht'); [rewrite Hcat; unfold usat_sub; lia|lia..|].
    rewrite concat_app in Ht'; cbn in Ht'; rewrite app_nil_r in Ht'.
    assert (concat t' = suffix_of (Z.to_nat (max - max / 2)) (concat (tail b) ++ chunk)) as Hsuf.
    { rewrite Ht'. unfold suffix_of. f_equal. rewrite length_app. unfold usat_sub, zlen. lia. }
    assert (zlen (concat t') = zlen (concat (tail b)) + zlen chunk
                               - usat_sub (zlen (concat (tail b)) + zlen chunk) (max - max / 2))
      as Hlen.
    { rewrite Ht'. unfold zlen, usat_sub. rewrite length_drop, length_app. lia. }
    split; cbn [set_tail max_bytes head_budget tail_budget head tail head_bytes tail_bytes
                omitted_bytes]; rewrite ?Htake, ?Hdrop; try done.
    + by rewrite Hsuf, R5, suffix_of_app.
    + rewrite Hlen. unfold dropped. rewrite zlen_app. f_equal. lia.
Qed.

(** Every push extends the represented stream by the chunk. *)
Lemma push_chunk_represents b s chunk :
  represents b max s → represents (push_chunk chunk b) max (s ++ chunk).
Proof.
  intros R. destruct (half_bounds max) as [Hh Ht]; [lia|].
  pose proof (zlen_nonneg chunk) as Hc. pose proof (zlen_nonneg s) as Hs.
  pose proof (dropped_nonneg b s R) as Hd.
  unfold push_chunk. rewrite (rep_max _ _ _ R). case_bool_decide as H0.
  { destruct R as [R1 R2 R3 R4 R5 R6 R7 R8]. fold (dropped b s) in R8. rewrite H0 in R4, R5.
    split; cbn [set_omitted max_bytes head_budget tail_budget head tail head_bytes tail_bytes
                omitted_bytes]; rewrite ?R1, ?R2, ?R3, ?H0; try done.
    - rewrite R5. change (0 `div` 2) with 0. change (Z.to_nat (0 - 0)) with 0%nat.
      unfold suffix_of. by rewrite !Nat.sub_0_r, !drop_all.
    - rewrite R8, usat_add_clamp by done. unfold dropped. rewrite zlen_app. f_equal. lia. }
  assert (zlen (concat (head b)) = Z.min (zlen s) (max / 2)) as Hhl.
  { rewrite (rep_head _ _ _ R). unfold zlen. rewrite length_take. lia. }
  rewrite (rep_hb _ _ _ R). case_bool_decide as H1;
    rewrite (rep_hn _ _ _ R), Hhl in H1; [|apply push_to_tail_represents; done || lia].
  rewrite (rep_hn _ _ _ R), Hhl, Z.min_l, usat_sub_exact by lia.
  assert (concat (head b) = s) as Hhead.
  { rewrite (rep_head _ _ _ R). apply take_ge. unfold zlen in *. lia. }
  assert (concat (tail b) = []) as Htail.
  { rewrite (rep_tail _ _ _ R), drop_ge by (unfold zlen in *; lia). done. }
  assert (∀ part, zlen s + zlen part ≤ max / 2 →
    represents (set_head (head b ++ [part]) (usat_add (zlen s) (zlen part)) b) max (s ++ part))
    as Hgrow.
  { intros part Hp. destruct R as [R1 R2 R3 R4 R5 R6 R7 R8].
    split; cbn [set_head max_bytes head_budget tail_budget head tail head_bytes tail_bytes
                omitted_bytes]; rewrite ?concat_app; cbn [concat]; rewrite ?app_nil_r, ?Hhead, ?Htail;
      try done; rewrite ?zlen_app.
    - symmetry. apply take_ge. rewrite length_app. unfold zlen in *. lia.
    - rewrite drop_ge by (rewrite length_app; unfold zlen in *; lia). done.
    - apply usat_add_exact. lia.
    - by rewrite <-Htail.
    - rewrite R8, Hhead, Htail, zlen_nil. f_equal. lia. }
  case_bool_decide as H2; [apply Hgrow; lia|].
  set (k := Z.to_nat (max / 2 - zlen s)).
  assert (zlen (take k chunk) = max / 2 - zlen s) as Hk.
  { unfold k, zlen in *. rewrite length_take. unfold zlen. lia. }
  rewrite bool_decide_false by (intros E; rewrite E, zlen_nil in Hk; lia).
  rewrite <-(take_drop k chunk) at 4. rewrite (assoc_L (++)).
  apply push_to_tail_represents; [done|apply Hgrow; lia|rewrite zlen_app; lia].
Qed.
End Steps.

(** Any number of pushes, from an empty buffer. *)
Definition push_all (cs : list (list byte)) (b : HeadTailBuffer) : HeadTailBuffer :=
  foldl (λ b c, push_chunk c b) b cs.

Lemma push_all_represents max cs b s :
  0 ≤ max ≤ USIZE_MAX → represents b max s → represents (push_all cs b) max (s ++ concat cs).
Proof.
  intros Hmax. revert b s. induction cs as [|c cs IH]; intros b s R; cbn; [by rewrite app_nil_r|].
  rewrite (assoc_L (++)). by apply IH, push_chunk_represents.
Qed.

(** What a representing buffer shows to its users. *)
Lemma represents_observe b max s :
  0 ≤ max ≤ USIZE_MAX → represents b max s →
  let h := Z.to_nat (max / 2) in
  let t := Z.to_nat (max - max / 2) in
  to_bytes b = take h s ++ suffix_of t (drop h s) ∧
  concat (snapshot_chunks b) = to_bytes b ∧
  retained_bytes b = zlen (to_bytes b) ∧
  retained_bytes b = Z.min (zlen s) max ∧
  omitted_bytes b = Z.min (zlen s - retained_bytes b) USIZE_MAX.
Proof.
  intros Hmax R h t. pose proof (half_bounds max) as Hm.
  assert (to_bytes b = take h s ++ suffix_of t (drop h s)) as Hb.
  { unfold to_bytes. by rewrite (rep_head _ _ _ R), (rep_tail _ _ _ R). }
  assert (zlen (to_bytes b) = Z.min (zlen s) max) as Hl.
  { rewrite Hb, zlen_app. unfold zlen. rewrite suffix_of_length, length_take, length_drop. lia. }
  assert (retained_bytes b = zlen (to_bytes b)) as Hr.
  { unfold retained_bytes. rewrite (rep_hn _ _ _ R), (rep_tn _ _ _ R).
    unfold to_bytes in *. rewrite zlen_app in *. apply usat_add_exact. lia. }
  split_and!; [done|by unfold snapshot_chunks; rewrite concat_app|done|by rewrite Hr|].
  rewrite (rep_om _ _ _ R), Hr. unfold to_bytes. rewrite zlen_app. f_equal. lia.
Qed.

(** The output buffer of a command: after any sequence of chunks the
    retained bytes are the first half of the capacity and the last half of the
    rest of everything that was pushed, in order; at most [max] bytes are kept,
    nothing is lost while the output fits, and the count of omitted bytes is
    exact (up to the width of [usize]). *)
Theorem buffer_keeps_head_and_tail max cs :
  0 ≤ max ≤ USIZE_MAX →
  let b := push_all cs (new max) in
  let s := concat cs in
  let h := Z.to_nat (max / 2) in
  let t := Z.to_nat (max - max / 2) in
  to_bytes b = take h s ++ suffix_of t (drop h s) ∧
  concat (snapshot_chunks b) = to_bytes b ∧
  retained_bytes b = Z.min (zlen s) max ∧
  omitted_bytes b = Z.min (zlen s - retained_bytes b) USIZE_MAX ∧
  (zlen s ≤ max → to_bytes b = s).
Proof.
  intros Hmax b s h t. pose proof (half_bounds max) as Hm.
  assert (represents b max s) as R.
  { apply (push_all_represents max cs _ []); [done|]. apply new_represents; lia. }
  destruct (represents_observe b max s Hmax R) as (H1 & H2 & H3 & H4 & H5).
  split_and!; try done. intros Hfit. rewrite H1.
  rewrite suffix_of_short; [by rewrite take_drop|]. rewrite length_drop. unfold zlen, t, h in *. lia.
Qed.

Lemma buffer_keeps_head_and_tail_witness :
  to_bytes (push_all [[x00; x01; x02]; [x03; x04]; [x05; x06; x07; x08; x09]] (new 5))
  = [x00; x01; x07; x08; x09].
Proof.
  destruct (buffer_keeps_head_and_tail 5
    [[x00; x01; x02]; [x03; x04]; [x05; x06; x07; x08; x09]]) as (-> & _); [unfold USIZE_MAX; lia|].
  by vm_compute.
Defined.

(** Draining returns the snapshot and leaves a buffer that starts over. *)
Lemma drain_chunks_resets max b s :
  0 ≤ max ≤ USIZE_MAX → represents b max s →
  fst (drain_chunks b) = snapshot_chunks b ∧ snd (drain_chunks b) = new max.
Proof.
  intros Hmax R. split; [done|]. pose proof (half_bounds max) as Hm.
  unfold drain_chunks, new. cbn [snd]. rewrite (rep_max _ _ _ R), (rep_hb _ _ _ R), (rep_tb _ _ _ R).
  by rewrite usat_sub_exact by lia.
Qed.
