(* ===== verification/Truncate.v ===== *)
(** * Truncation of tool output ([core/src/truncate.rs])

    Strings are lists of characters; byte offsets are computed from the UTF-8
    length of each character, and a slice at an offset that is not a character
    boundary is a panic ([None]). *)
From S2P Require Import Prelude RustStr MachInt.
From stdpp Require Import pretty.
From Stdlib Require Import Floats.SpecFloat.
Local Open Scope Z_scope.

(** [str::len] as a [usize], and [to_string] of an unsigned integer. *)
Definition zstr (s : str) : Z := Z.of_nat (str_len s).
Definition show_uint (n : Z) : str := lit (pretty (Z.to_N n)).

Definition APPROX_BYTES_PER_TOKEN : Z := 4.

Inductive TruncationPolicy := Bytes (bytes : Z) | Tokens (tokens : Z).

Definition approx_token_count (text : str) : Z :=
  usat_add (zstr text) (usat_sub APPROX_BYTES_PER_TOKEN 1) / APPROX_BYTES_PER_TOKEN.
Definition approx_bytes_for_tokens (tokens : Z) : Z := usat_mul tokens APPROX_BYTES_PER_TOKEN.
Definition approx_tokens_from_byte_count (bytes : Z) : Z :=
  usat_add bytes (usat_sub APPROX_BYTES_PER_TOKEN 1) / APPROX_BYTES_PER_TOKEN.

Definition token_budget (p : TruncationPolicy) : Z :=
  match p with
  | Bytes bytes => approx_tokens_from_byte_count bytes
  | Tokens tokens => tokens
  end.
Definition byte_budget (p : TruncationPolicy) : Z :=
  match p with
  | Bytes bytes => bytes
  | Tokens tokens => approx_bytes_for_tokens tokens
  end.

(** ** [policy * multiplier], in IEEE double precision *)
Definition f64_of_usize (n : Z) : spec_float := binary_normalize 53 1024 n 0 false.
(** [(x.ceil()) as usize]: saturating, [NaN] and negative values to 0. *)
Definition f64_ceil_as_usize (x : spec_float) : Z :=
  match x with
  | S754_finite false m e =>
      Z.min USIZE_MAX (if 0 <=? e then Zpos m * 2 ^ e else - (- Zpos m / 2 ^ (- e)))
  | S754_infinity false => USIZE_MAX
  | _ => 0
  end.
Definition scale (n : Z) (multiplier : spec_float) : Z :=
  f64_ceil_as_usize (SFmul 53 1024 (f64_of_usize n) multiplier).
Definition mul (p : TruncationPolicy) (multiplier : spec_float) : TruncationPolicy :=
  match p with
  | Bytes bytes => Bytes (scale bytes multiplier)
  | Tokens tokens => Tokens (scale tokens multiplier)
  end.
(** The double closest to 1.2. *)
Definition f64_1_2 : spec_float := S754_finite false 5404319552844595 (-52).

(** ** Splitting a string *)

(** [&s[..n]] and [&s[n..]]. *)
Fixpoint slice_to (n : Z) (s : str) : option str :=
  if bool_decide (n = 0) then Some []
  else match s with
       | [] => None
       | c :: s' => if bool_decide (Z.of_nat (len_utf8 c) ≤ n)
                    then cons c <$> slice_to (n - Z.of_nat (len_utf8 c)) s' else None
       end.
Fixpoint slice_from (n : Z) (s : str) : option str :=
  if bool_decide (n = 0) then Some s
  else match s with
       | [] => None
       | c :: s' => if bool_decide (Z.of_nat (len_utf8 c) ≤ n)
                    then slice_from (n - Z.of_nat (len_utf8 c)) s' else None
       end.

(** The variables of the loop of [split_string]. *)
Record SplitState := {
  prefix_end : Z; suffix_start : Z; removed_chars : Z; suffix_started : bool
}.

Definition split_step (beginning_bytes tail_start_target idx : Z) (ch : char) (st : SplitState)
    : SplitState :=
  let char_end := idx + Z.of_nat (len_utf8 ch) in
  if bool_decide (char_end ≤ beginning_bytes) then
    {| prefix_end := char_end; suffix_start := suffix_start st;
       removed_chars := removed_chars st; suffix_started := suffix_started st |}
  else if bool_decide (tail_start_target ≤ idx) then
    if suffix_started st then st
    else {| prefix_end := prefix_end st; suffix_start := idx;
            removed_chars := removed_chars st; suffix_started := true |}
  else {| prefix_end := prefix_end st; suffix_start := suffix_start st;
          removed_chars := usat_add (removed_chars st) 1;
          suffix_started := suffix_started st |}.

(** [for (idx, ch) in s.char_indices()]. *)
Fixpoint split_loop (beginning_bytes tail_start_target idx : Z) (s : str) (st : SplitState)
    : SplitState :=
  match s with
  | [] => st
  | ch :: s' =>
      split_loop beginning_bytes tail_start_target (idx + Z.of_nat (len_utf8 ch)) s'
        (split_step beginning_bytes tail_start_target idx ch st)
  end.

Definition split_string (s : str) (beginning_bytes end_bytes : Z) : option (Z * str * str) :=
  match s with
  | [] => Some (0, [], [])
  | _ =>
      let len := zstr s in
      let tail_start_target := usat_sub len end_bytes in
      let st := split_loop beginning_bytes tail_start_target 0 s
                  {| prefix_end := 0; suffix_start := len; removed_chars := 0;
                     suffix_started := false |} in
      let suffix_start := if bool_decide (suffix_start st < prefix_end st)
                          then prefix_end st else suffix_start st in
      before ← slice_to (prefix_end st) s;
      after ← slice_from suffix_start s;
      Some (removed_chars st, before, after)
  end.

Definition ELLIPSIS : char := 0x2026%N.
Definition format_truncation_marker (p : TruncationPolicy) (removed_count : Z) : str :=
  match p with
  | Tokens _ => [ELLIPSIS] ++ show_uint removed_count ++ §" tokens truncated" ++ [ELLIPSIS]
  | Bytes _ => [ELLIPSIS] ++ show_uint removed_count ++ §" chars truncated" ++ [ELLIPSIS]
  end.

Definition split_budget (budget : Z) : Z * Z := let left_half := budget / 2 in (left_half, budget - left_half).

Definition removed_units_for_source (p : TruncationPolicy) (removed_bytes removed_chars : Z) : Z :=
  match p with
  | Tokens _ => approx_tokens_from_byte_count removed_bytes
  | Bytes _ => removed_chars
  end.

Definition assemble_truncated_output (prefix suffix marker : str) : str :=
  prefix ++ marker ++ suffix.

Definition truncate_with_byte_estimate (s : str) (p : TruncationPolicy) : option str :=
  match s with
  | [] => Some []
  | _ =>
      let total_chars := zlen s in
      let max_bytes := byte_budget p in
      if bool_decide (max_bytes = 0) then
        Some (format_truncation_marker p (removed_units_for_source p (zstr s) total_chars))
      else if bool_decide (zstr s ≤ max_bytes) then Some s
      else
        let '(left_budget, right_budget) := split_budget max_bytes in
        '(removed_chars, left_part, right_part) ← split_string s left_budget right_budget;
        let marker := format_truncation_marker p
          (removed_units_for_source p (usat_sub (zstr s) max_bytes) removed_chars) in
        Some (assemble_truncated_output left_part right_part marker)
  end.

Definition truncate_with_token_budget (s : str) (p : TruncationPolicy) : option (str * option Z) :=
  match s with
  | [] => Some ([], None)
  | _ =>
      let max_tokens := token_budget p in
      if bool_decide (0 < max_tokens) && bool_decide (zstr s ≤ approx_bytes_for_tokens max_tokens)
      then Some (s, None)
      else
        truncated ← truncate_with_byte_estimate s p;
        let approx_total := approx_token_count s in
        Some (if bool_decide (truncated = s) then (truncated, None)
              else (truncated, Some approx_total))
  end.

Definition truncate_text (content : str) (p : TruncationPolicy) : option str :=
  match p with
  | Bytes _ => truncate_with_byte_estimate content p
  | Tokens _ => fst <$> truncate_with_token_budget content p
  end.

Definition formatted_truncate_text (content : str) (p : TruncationPolicy) : option str :=
  if bool_decide (zstr content ≤ byte_budget p) then Some content
  else
    let total_lines := zlen (lines content) in
    result ← truncate_text content p;
    Some (§"Total output lines: " ++ show_uint total_lines ++ [LF; LF] ++ result).

(** ** Lists of output items *)
Inductive FunctionCallOutputContentItem :=
| InputText (text : str)
| InputImage (image_url : str).

Definition item_cost (p : TruncationPolicy) (text : str) : Z :=
  match p with Bytes _ => zstr text | Tokens _ => approx_token_count text end.

Definition with_budget (p : TruncationPolicy) (n : Z) : TruncationPolicy :=
  match p with Bytes _ => Bytes n | Tokens _ => Tokens n end.

Fixpoint truncate_items_loop (p : TruncationPolicy) (items : list FunctionCallOutputContentItem)
    (remaining_budget omitted_text_items : Z) (out : list FunctionCallOutputContentItem)
    : option (list FunctionCallOutputContentItem * Z) :=
  match items with
  | [] => Some (out, omitted_text_items)
  | InputImage url :: items' =>
      truncate_items_loop p items' remaining_budget omitted_text_items (out ++ [InputImage url])
  | InputText text :: items' =>
      if bool_decide (remaining_budget = 0) then
        truncate_items_loop p items' remaining_budget (omitted_text_items + 1) out
      else
        let cost := item_cost p text in
        if bool_decide (cost ≤ remaining_budget) then
          truncate_items_loop p items' (usat_sub remaining_budget cost) omitted_text_items
            (out ++ [InputText text])
        else
          snippet ← truncate_text text (with_budget p remaining_budget);
          match snippet with
          | [] => truncate_items_loop p items' 0 (omitted_text_items + 1) out
          | _ => truncate_items_loop p items' 0 omitted_text_items (out ++ [InputText snippet])
          end
  end.

Definition omitted_note (n : Z) : FunctionCallOutputContentItem :=
  InputText (§"[omitted " ++ show_uint n ++ §" text items ...]").

Definition truncate_function_output_items_with_policy
    (items : list FunctionCallOutputContentItem) (p : TruncationPolicy)
    : option (list FunctionCallOutputContentItem) :=
  let budget := match p with Bytes _ => byte_budget p | Tokens _ => token_budget p end in
  '(out, omitted) ← truncate_items_loop p items budget 0 [];
  Some (if bool_decide (0 < omitted) then out ++ [omitted_note omitted] else out).

(** * Specification *)

(** The longest prefix of whole characters of at most [n] bytes. *)
Fixpoint prefix_fit (n : Z) (s : str) : str :=
  match s with
  | [] => []
  | c :: s' => if bool_decide (Z.of_nat (len_utf8 c) ≤ n)
               then c :: prefix_fit (n - Z.of_nat (len_utf8 c)) s' else []
  end.

(** The longest suffix of whole characters of at most [n] bytes. *)
Fixpoint suffix_fit (n : Z) (s : str) : str :=
  match s with
  | [] => []
  | c :: s' => if bool_decide (zstr s ≤ n) then s else suffix_fit n s'
  end.

Lemma len_utf8_range c : 1 ≤ Z.of_nat (len_utf8 c) ≤ 4.
Proof. unfold len_utf8. repeat case_match; lia. Qed.

Lemma zstr_cons c s : zstr (c :: s) = Z.of_nat (len_utf8 c) + zstr s.
Proof. unfold zstr. cbn. lia. Qed.

Lemma zstr_nonneg s : 0 ≤ zstr s.
Proof. unfold zstr. lia. Qed.

Lemma zstr_app s t : zstr (s ++ t) = zstr s + zstr t.
Proof.
  induction s as [|c s IH]; [done|]. cbn [app]. rewrite !zstr_cons, IH. lia.
Qed.

Lemma length_le_zstr s : zlen s ≤ zstr s.
Proof.
  induction s as [|c s IH]; [done|]. rewrite zlen_cons, zstr_cons.
  pose proof (len_utf8_range c). lia.
Qed.

Lemma zstr_0 s : zstr s = 0 → s = [].
Proof. destruct s as [|c s]; [done|]. rewrite zstr_cons. pose proof (len_utf8_range c).
  pose proof (zstr_nonneg s). lia. Qed.

Lemma prefix_fit_prefix n s : ∃ r, s = prefix_fit n s ++ r ∧
  (∀ c r', r = c :: r' → n < zstr (prefix_fit n s) + Z.of_nat (len_utf8 c)).
Proof.
  revert n. induction s as [|c s IH]; intros n; cbn [prefix_fit]; [by exists []|].
  case_bool_decide as H; cbn [app].
  - destruct (IH (n - Z.of_nat (len_utf8 c))) as (r & Hr & Hmax). exists r. split; [by rewrite <-Hr|].
    intros c' r' ->. specialize (Hmax c' r' eq_refl). rewrite zstr_cons. lia.
  - exists (c :: s). split; [done|]. intros c' r' [= <- <-]. unfold zstr at 1. cbn. lia.
Qed.

Lemma prefix_fit_le n s : 0 ≤ n → zstr (prefix_fit n s) ≤ n.
Proof.
  revert n. induction s as [|c s IH]; intros n Hn; cbn [prefix_fit]; [done|].
  case_bool_decide as H; [|done]. rewrite zstr_cons. specialize (IH (n - Z.of_nat (len_utf8 c))). lia.
Qed.

Lemma suffix_fit_suffix n s : 0 ≤ n → ∃ m, s = m ++ suffix_fit n s ∧ zstr (suffix_fit n s) ≤ n ∧
  (∀ m' c, m = m' ++ [c] → n < zstr (suffix_fit n s) + Z.of_nat (len_utf8 c)).
Proof.
  intros Hn. induction s as [|c s IH]; cbn [suffix_fit]; [exists []; split_and!; try done|].
  { by intros [|? ?]. }
  case_bool_decide as H.
  - exists []. split_and!; [done..|]. by intros [|? ?].
  - destruct IH as (m & Hm & Hle & Hmax). exists (c :: m).
    split_and!; [cbn [app]; by rewrite <-Hm|done|]. intros m' c' E.
    destruct m' as [|d m']; cbn in E; injection E as <- E.
    + subst m. cbn in Hm. rewrite <-Hm. rewrite zstr_cons in H. lia.
    + by apply (Hmax m' c').
Qed.

(** Slices at the boundary between two parts never panic. *)
Lemma slice_to_app p r : slice_to (zstr p) (p ++ r) = Some p.
Proof.
  induction p as [|c p IH]; [by destruct r|]. cbn [app slice_to]. rewrite zstr_cons.
  pose proof (len_utf8_range c). pose proof (zstr_nonneg p).
  rewrite bool_decide_false, bool_decide_true by lia.
  replace (Z.of_nat (len_utf8 c) + zstr p - Z.of_nat (len_utf8 c)) with (zstr p) by lia.
  by rewrite IH.
Qed.

Lemma slice_from_app p r : slice_from (zstr p) (p ++ r) = Some r.
Proof.
  induction p as [|c p IH]; [by destruct r|]. cbn [app slice_from]. rewrite zstr_cons.
  pose proof (len_utf8_range c). pose proof (zstr_nonneg p).
  rewrite bool_decide_false, bool_decide_true by lia.
  by replace (Z.of_nat (len_utf8 c) + zstr p - Z.of_nat (len_utf8 c)) with (zstr p) by lia.
Qed.

(** ** The loop of [split_string] *)
Definition at_prefix (pe : Z) (st : SplitState) : SplitState :=
  {| prefix_end := pe; suffix_start := suffix_start st;
     removed_chars := removed_chars st; suffix_started := suffix_started st |}.

Lemma split_loop_prefix B T idx s st r :
  prefix_end st = idx → s = prefix_fit (B - idx) s ++ r →
  split_loop B T idx s st
  = split_loop B T (idx + zstr (prefix_fit (B - idx) s)) r
      (at_prefix (idx + zstr (prefix_fit (B - idx) s)) st).
Proof.
  revert idx st. induction s as [|c s IH]; intros idx st Hpe Hs.
  - cbn in Hs. subst r. cbn [prefix_fit]. change (zstr []) with 0. rewrite Z.add_0_r.
    destruct st; cbn in *. by subst.
  - cbn [prefix_fit] in *. case_bool_decide as Hc; cbn [app] in Hs.
    + injection Hs as Hs. replace (B - idx - Z.of_nat (len_utf8 c))
        with (B - (idx + Z.of_nat (len_utf8 c))) in * by lia.
      cbn [split_loop]. unfold split_step at 1. rewrite bool_decide_true by lia.
      rewrite (IH _ (at_prefix (idx + Z.of_nat (len_utf8 c)) st)) by done.
      rewrite zstr_cons. by rewrite Z.add_assoc.
    + subst r. change (zstr []) with 0. rewrite Z.add_0_r. f_equal. destruct st; cbn in *.
      by subst.
Qed.

Lemma split_loop_started B T idx s st :
  suffix_started st = true → T ≤ idx →
  (∀ c s', s = c :: s' → B < idx + Z.of_nat (len_utf8 c)) → split_loop B T idx s st = st.
Proof.
  revert idx. induction s as [|c s IH]; intros idx Hst HT HB; [done|]. cbn [split_loop].
  specialize (HB c s eq_refl). pose proof (len_utf8_range c).
  unfold split_step. rewrite bool_decide_false, bool_decide_true, Hst by lia.
  apply IH; [done|lia|]. intros d s' ->. pose proof (len_utf8_range d). lia.
Qed.

Lemma split_loop_rest B R idx s rc total pe :
  0 ≤ idx → total = idx + zstr s → total ≤ USIZE_MAX → 0 ≤ rc ≤ idx → 0 ≤ R →
  (∀ c s', s = c :: s' → B < idx + Z.of_nat (len_utf8 c)) →
  let st' := split_loop B (usat_sub total R) idx s
               {| prefix_end := pe; suffix_start := total; removed_chars := rc;
                  suffix_started := false |} in
  prefix_end st' = pe ∧ suffix_start st' = total - zstr (suffix_fit R s) ∧
  removed_chars st' = rc + (zlen s - zlen (suffix_fit R s)).
Proof.
  revert idx rc. induction s as [|c s IH]; intros idx rc Hidx Htot Hmax Hrc HR HB.
  - cbn. unfold zlen, zstr. cbn. split_and!; lia.
  - cbn [split_loop suffix_fit]. specialize (HB c s eq_refl). pose proof (len_utf8_range c).
    pose proof (zstr_nonneg s). assert (Htot' := Htot). rewrite zstr_cons in Htot'.
    unfold split_step. rewrite (bool_decide_false (idx + _ ≤ B)) by lia.
    cbn [suffix_started prefix_end removed_chars suffix_start].
    destruct (decide (zstr (c :: s) ≤ R)) as [Hfit|Hfit].
    + rewrite (bool_decide_true (zstr (c :: s) ≤ R)) by done.
      rewrite bool_decide_true by (unfold usat_sub; lia).
      rewrite split_loop_started;
        [cbn [prefix_end suffix_start removed_chars]; split_and!; lia|done|unfold usat_sub; lia|].
      intros d s' ->. pose proof (len_utf8_range d). lia.
    + rewrite (bool_decide_false (zstr (c :: s) ≤ R)) by done.
      rewrite bool_decide_false by (unfold usat_sub; lia).
      pose proof (length_le_zstr s). pose proof (zlen_nonneg s).
      rewrite usat_add_exact by lia. cbv zeta in IH.
      destruct (IH (idx + Z.of_nat (len_utf8 c)) (rc + 1)) as (-> & -> & ->); try lia.
      rewrite zlen_cons. split_and!; lia.
Qed.

Definition split_rest (s : str) (b : Z) : str := drop (length (prefix_fit b s)) s.

Lemma split_rest_eq b s : s = prefix_fit b s ++ split_rest s b.
Proof.
  destruct (prefix_fit_prefix b s) as (r & Hr & _). unfold split_rest.
  revert Hr. generalize (prefix_fit b s). intros p ->. by rewrite drop_app_length.
Qed.

(** [split_string] never panics; it returns the longest fitting prefix, the
    longest fitting suffix of the rest, and how many characters lie between. *)
Lemma split_string_spec s b e :
  0 ≤ b → 0 ≤ e → zstr s ≤ USIZE_MAX →
  let before := prefix_fit b s in
  let after := suffix_fit e (split_rest s b) in
  split_string s b e = Some (zlen s - zlen before - zlen after, before, after).
Proof.
  intros Hb He Hmax before after. unfold split_string. destruct s as [|c0 s0]; [done|].
  set (s := c0 :: s0) in *. set (len := zstr s).
  pose proof (split_rest_eq b s) as Hs. fold before in Hs. set (r := split_rest s b) in *.
  destruct (suffix_fit_suffix e r He) as (m & Hm & _ & _). fold after in Hm.
  pose proof (zstr_nonneg before). pose proof (zstr_nonneg r).
  assert (len = zstr before + zstr r) as Hlen by (unfold len; rewrite Hs; apply zstr_app).
  assert (zstr r = zstr m + zstr after) as Hr by (rewrite Hm; apply zstr_app).
  pose proof (zstr_nonneg m).
  rewrite (split_loop_prefix b _ 0 s _ r) by (rewrite ?Z.sub_0_r; done).
  rewrite Z.sub_0_r, Z.add_0_l. fold before. unfold at_prefix.
  cbn [suffix_start removed_chars suffix_started].
  destruct (split_loop_rest b e (zstr before) r 0 len (zstr before)) as (E1 & E2 & E3);
    [lia..| |].
  { intros c r' Hc. destruct (prefix_fit_prefix b s) as (r2 & Hr2 & Hfit).
    fold before in Hr2, Hfit. rewrite Hs in Hr2 at 1. apply app_inv_head in Hr2. subst r2.
    by apply (Hfit c r'). }
  rewrite E1, E2, E3. fold after. rewrite bool_decide_false by lia.
  rewrite Hs at 1. rewrite slice_to_app. cbn [mbind option_bind].
  assert (s = (before ++ m) ++ after) as Hs3 by (by rewrite <-(assoc_L (++)), <-Hm).
  replace (len - zstr after) with (zstr (before ++ m)) by (rewrite zstr_app; lia).
  rewrite Hs3 at 1. rewrite slice_from_app. cbn [mbind option_bind].
  repeat f_equal. rewrite Hs at 1. rewrite zlen_app. lia.
Qed.

(** What an output that had to be shortened looks like. *)
Definition shortened (p : TruncationPolicy) (s out : str) : Prop :=
  let b := byte_budget p in
  ∃ before mid after,
    s = before ++ mid ++ after ∧ mid ≠ [] ∧
    b / 2 - 4 < zstr before ≤ b / 2 ∧ (b - b / 2) - 4 < zstr after ≤ b - b / 2 ∧
    out = before ++ format_truncation_marker p
            (match p with Bytes _ => zlen mid | Tokens _ => (zstr s - b + 3) / 4 end) ++ after.

Definition valid_policy (p : TruncationPolicy) : Prop :=
  match p with Bytes n | Tokens n => 0 ≤ n ≤ USIZE_MAX end.

Lemma byte_budget_nonneg p : valid_policy p → 0 ≤ byte_budget p.
Proof.
  destruct p as [n|n]; cbn; [lia|].
  unfold approx_bytes_for_tokens, usat_mul, APPROX_BYTES_PER_TOKEN, USIZE_MAX. lia.
Qed.

Lemma removed_units p s (mid : str) removed :
  zlen mid = removed → 0 ≤ byte_budget p ≤ zstr s → zstr s ≤ ISIZE_MAX →
  removed_units_for_source p (zstr s - byte_budget p) removed
  = match p with Bytes _ => zlen mid | Tokens _ => (zstr s - byte_budget p + 3) / 4 end.
Proof.
  intros Hm Hb Hs. destruct p; [done|]. cbn [removed_units_for_source].
  unfold approx_tokens_from_byte_count. change (usat_sub APPROX_BYTES_PER_TOKEN 1) with 3.
  rewrite usat_add_exact; [done|]. unfold_sat. lia.
Qed.

Lemma truncate_with_byte_estimate_spec s p :
  0 ≤ byte_budget p → zstr s ≤ ISIZE_MAX →
  (zstr s ≤ byte_budget p ∧ truncate_with_byte_estimate s p = Some s) ∨
  (byte_budget p < zstr s ∧
   ∃ out, truncate_with_byte_estimate s p = Some out ∧ shortened p s out).
Proof.
  intros Hb Hs. unfold truncate_with_byte_estimate. set (b := byte_budget p) in *.
  destruct s as [|c0 s0]; [left; split; [done|done]|].
  set (s := c0 :: s0) in *.
  assert (0 < zstr s) as Hpos.
  { unfold s. rewrite zstr_cons. pose proof (len_utf8_range c0). pose proof (zstr_nonneg s0). lia. }
  case_bool_decide as H0.
  { right. split; [lia|]. eexists. split; [done|]. exists [], s, []. fold b. rewrite H0.
    pose proof (removed_units p s s (zlen s) eq_refl ltac:(fold b; lia) Hs) as E.
    fold b in E. rewrite H0, Z.sub_0_r in E.
    cbn [app]. change (zstr []) with 0. change (0 / 2) with 0. rewrite !app_nil_r, !Z.sub_0_r.
    split_and!; try done. by rewrite <-E. }
  case_bool_decide as Hfit; [by left|right]. split; [lia|]. unfold split_budget.
  assert (0 ≤ b / 2 ≤ b) as Hhalf by (Z.to_euclidean_division_equations; lia).
  assert (zstr s ≤ USIZE_MAX) as Hmax by (unfold_sat; lia).
  pose proof (split_string_spec s (b / 2) (b - b / 2) ltac:(lia) ltac:(lia) Hmax) as Hsp.
  cbv zeta in Hsp. rewrite Hsp. cbn [mbind option_bind]. clear Hsp.
  pose proof (split_rest_eq (b / 2) s) as Hsr.
  destruct (prefix_fit_prefix (b / 2) s) as (r & Hr & Hmax1).
  assert (r = split_rest s (b / 2)) as -> by (rewrite Hsr in Hr at 1; by apply app_inv_head in Hr).
  pose proof (prefix_fit_le (b / 2) s ltac:(lia)) as Hle1.
  set (before := prefix_fit (b / 2) s) in *. set (rest := split_rest s (b / 2)) in *.
  destruct (suffix_fit_suffix (b - b / 2) rest) as (mid & Hm & Hle2 & Hmax2); [lia|].
  set (after := suffix_fit (b - b / 2) rest) in *.
  assert (zstr s = zstr before + zstr mid + zstr after) as Hz.
  { rewrite Hr, Hm, !zstr_app. lia. }
  eexists. split; [done|]. exists before, mid, after. fold b. split_and!; try done.
  - by rewrite <-Hm.
  - intros ->. change (zstr []) with 0 in Hz. lia.
  - destruct rest as [|c r'] eqn:E.
    { rewrite Hr, app_nil_r in Hfit. lia. }
    specialize (Hmax1 c r' eq_refl). pose proof (len_utf8_range c). lia.
  - destruct mid as [|c mid' _] using rev_ind; [change (zstr []) with 0 in Hz; lia|].
    specialize (Hmax2 mid' c eq_refl). pose proof (len_utf8_range c). lia.
  - unfold assemble_truncated_output. do 2 f_equal. f_equal.
    rewrite usat_sub_exact by lia. apply (removed_units p s mid); [|fold b; lia|done].
    rewrite Hr at 1. rewrite Hm at 1. rewrite !zlen_app. lia.
Qed.

Lemma truncate_text_cases s p :
  valid_policy p → zstr s ≤ ISIZE_MAX →
  (zstr s ≤ byte_budget p ∧ truncate_text s p = Some s) ∨
  (byte_budget p < zstr s ∧ ∃ out, truncate_text s p = Some out ∧ shortened p s out).
Proof.
  intros Hp Hs. pose proof (byte_budget_nonneg p Hp) as Hb.
  pose proof (truncate_with_byte_estimate_spec s p Hb Hs) as Hspec.
  destruct p as [n|n]; [done|]. unfold truncate_text, truncate_with_token_budget.
  destruct s as [|c0 s0]; [by left|]. set (s := c0 :: s0) in *.
  change (approx_bytes_for_tokens (token_budget (Tokens n))) with (byte_budget (Tokens n)).
  destruct Hspec as [[Hle ->]|[Hlt (out & -> & Hout)]].
  - left. split; [done|]. rewrite (bool_decide_true (zstr s ≤ _)) by done.
    case_bool_decide; cbn [andb]; [done|]. cbn [mbind option_bind]. by rewrite bool_decide_true.
  - right. split; [done|]. rewrite (bool_decide_false (zstr s ≤ _)), andb_false_r by lia.
    cbn [mbind option_bind]. exists out. split; [|done]. by case_bool_decide.
Qed.

(** Truncating a text to a budget of [b] bytes: a text that fits is returned
    unchanged; otherwise the result is a prefix of at most [b/2] bytes, a marker
    with the exact amount removed, and a suffix of at most [b - b/2] bytes, cut
    at character boundaries and within three bytes of what the budget allows. *)
Theorem truncate_text_spec s p :
  valid_policy p → zstr s ≤ ISIZE_MAX →
  (zstr s ≤ byte_budget p ∧ truncate_text s p = Some s) ∨
  (byte_budget p < zstr s ∧ ∃ out, truncate_text s p = Some out ∧ shortened p s out).
Proof. apply truncate_text_cases. Qed.

Lemma truncate_text_spec_witness :
  ∃ out, truncate_text §"the quick brown fox" (Bytes 9) = Some out ∧
         shortened (Bytes 9) §"the quick brown fox" out.
Proof.
  destruct (truncate_text_spec §"the quick brown fox" (Bytes 9)) as [[H _]|[_ H]];
    [by vm_compute|by vm_compute|by vm_compute in H|exact H].
Defined.

(** ** Lengths *)
Lemma string_length_go x s : (String.length s ≤ String.length (pretty_N_go x s))%nat.
Proof.
  revert s. induction (N.lt_wf_0 x) as [x _ IH]; intros s.
  destruct (decide (x = 0)%N) as [->|Hx]; [done|]. rewrite pretty_N_go_step by lia.
  etrans; [|apply IH, N.div_lt; lia]. cbn. lia.
Qed.
Lemma pretty_go_mono x y s t :
  (x ≤ y)%N → (String.length s ≤ String.length t)%nat →
  (String.length (pretty_N_go x s) ≤ String.length (pretty_N_go y t))%nat.
Proof.
  revert y s t. induction (N.lt_wf_0 x) as [x _ IH]; intros y s t Hle Hst.
  destruct (decide (x = 0)%N) as [->|Hx].
  - rewrite pretty_N_go_0. etrans; [exact Hst|]. apply string_length_go.
  - rewrite (pretty_N_go_step x s), (pretty_N_go_step y t) by lia.
    apply IH; [apply N.div_lt; lia|by apply N.Div0.div_le_mono|].
    cbn [String.length]. lia.
Qed.
Lemma length_lit s : length (lit s) = String.length s.
Proof. unfold lit. rewrite length_fmap. induction s as [|c s IH]; cbn; [done|]. by rewrite IH. Qed.
Lemma show_uint_length z : 0 ≤ z ≤ USIZE_MAX → zlen (show_uint z) ≤ 20.
Proof.
  intros Hz. unfold zlen, show_uint. rewrite length_lit. unfold pretty, pretty_N.
  case_decide; [cbn; lia|]. change 20 with (Z.of_nat 20). apply Nat2Z.inj_le. etrans.
  - apply (pretty_go_mono _ (Z.to_N USIZE_MAX) "" ""); [apply Z2N.inj_le; lia|done].
  - apply Nat.leb_le. by vm_compute.
Qed.
Lemma zstr_le s : zstr s ≤ 4 * zlen s.
Proof.
  induction s as [|c s IH]; [done|]. rewrite zlen_cons, zstr_cons. pose proof (len_utf8_range c). lia.
Qed.

(** A text that is cut is no longer than its budget and the marker. *)
Lemma truncate_text_le s p t :
  valid_policy p → zstr s ≤ ISIZE_MAX → truncate_text s p = Some t →
  zstr t ≤ zstr s ∨ zstr t ≤ byte_budget p + 200.
Proof.
  intros Hp Hs Ht. pose proof (byte_budget_nonneg p Hp) as Hb.
  destruct (truncate_text_cases s p Hp Hs) as [[_ E]|[Hlt (out & E & Ho)]]; rewrite Ht in E; injection E as ->;
    [by left|right]. destruct Ho as (before & mid & after & Hd & _ & Hbe & Haf & ->).
  assert (zlen mid ≤ zstr s) as Hm.
  { rewrite Hd, !zstr_app. pose proof (length_le_zstr mid). pose proof (zstr_nonneg before).
    pose proof (zstr_nonneg after). lia. }
  pose proof (zlen_nonneg mid) as Hm0. rewrite !zstr_app.
  assert (∀ n, 0 ≤ n ≤ USIZE_MAX → zstr (format_truncation_marker p n) ≤ 200) as Hmark.
  { intros n Hn. etrans; [apply zstr_le|]. pose proof (show_uint_length n Hn).
    unfold format_truncation_marker. destruct p; rewrite !zlen_app; change (zlen [ELLIPSIS]) with 1;
      (change (zlen (§" chars truncated")) with 16 || change (zlen (§" tokens truncated")) with 17); lia. }
  assert (ISIZE_MAX ≤ USIZE_MAX) as HM by done.
  enough (zstr (format_truncation_marker p
    match p with Bytes _ => zlen mid | Tokens _ => (zstr s - byte_budget p + 3) / 4 end) ≤ 200) by lia.
  apply Hmark. destruct p; [lia|]. split; [apply Z.div_pos; lia|].
  apply Z.div_le_upper_bound; unfold ISIZE_MAX, USIZE_MAX in *; lia.
Qed.

(** ** Lists of output items *)
Definition is_image (it : FunctionCallOutputContentItem) : bool :=
  match it with InputImage _ => true | InputText _ => false end.
Definition images (items : list FunctionCallOutputContentItem) :=
  filter (λ it, is_image it = true) items.
Definition texts (items : list FunctionCallOutputContentItem) : Z :=
  zlen (filter (λ it, is_image it = false) items).
Definition items_cost (p : TruncationPolicy) (items : list FunctionCallOutputContentItem) : Z :=
  foldr (λ it n, match it with InputText t => item_cost p t | InputImage _ => 0 end + n) 0 items.
Definition texts_bounded (items : list FunctionCallOutputContentItem) : Prop :=
  Forall (λ it, match it with InputText t => zstr t ≤ ISIZE_MAX | InputImage _ => True end) items.
Definition budget_of (p : TruncationPolicy) : Z := match p with Bytes n | Tokens n => n end.

Lemma item_cost_nonneg p t : 0 ≤ item_cost p t.
Proof.
  pose proof (zstr_nonneg t). destruct p; cbn; [done|].
  unfold approx_token_count, APPROX_BYTES_PER_TOKEN. apply Z.div_pos; [|lia]. unfold_sat. lia.
Qed.

(** Once the budget is used up only images pass. *)
Lemma truncate_items_exhausted p items omitted out :
  truncate_items_loop p items 0 omitted out = Some (out ++ images items, omitted + texts items).
Proof.
  revert omitted out. induction items as [|[t|url] items IH]; intros omitted out; cbn.
  - rewrite app_nil_r. unfold texts, zlen. cbn. by rewrite Z.add_0_r.
  - rewrite IH. do 2 f_equal. unfold texts. rewrite filter_cons_True, zlen_cons by done. lia.
  - by rewrite IH, <-(assoc_L (++)).
Qed.

(** An item that does not fit leaves a snippet, never an empty one. *)
Lemma snippet_of p t rem :
  0 < rem ≤ USIZE_MAX → zstr t ≤ ISIZE_MAX → rem < item_cost p t →
  ∃ snip, truncate_text t (with_budget p rem) = Some snip ∧ snip ≠ [] ∧
          shortened (with_budget p rem) t snip.
Proof.
  intros Hr Ht Hc.
  destruct (truncate_text_cases t (with_budget p rem)) as [[Hle _]|[_ (snip & Hs & Hsh)]];
    [destruct p; cbn; lia|done| |].
  - exfalso. destruct p; cbn in *; [lia|]. clear Hr.
    unfold approx_bytes_for_tokens, approx_token_count, APPROX_BYTES_PER_TOKEN in *.
    unfold_sat. Z.to_euclidean_division_equations. lia.
  - exists snip. split_and!; [done| |done]. destruct Hsh as (be & mid & af & _ & _ & _ & _ & ->).
    destruct p; cbn; by destruct be.
Qed.

Lemma truncate_items_loop_spec p items rem out :
  0 ≤ rem ≤ USIZE_MAX → texts_bounded items →
  (truncate_items_loop p items rem 0 out = Some (out ++ items, 0) ∧ items_cost p items ≤ rem) ∨
  ∃ pre t post, items = pre ++ InputText t :: post ∧
    let left_over := rem - items_cost p pre in
    (left_over = 0 ∧ truncate_items_loop p items rem 0 out
                     = Some (out ++ pre ++ images post, 1 + texts post)) ∨
    (0 < left_over < item_cost p t ∧ ∃ snip,
       truncate_text t (with_budget p left_over) = Some snip ∧ snip ≠ [] ∧
       truncate_items_loop p items rem 0 out
       = Some (out ++ pre ++ InputText snip :: images post, texts post)).
Proof.
  revert rem out. induction items as [|[t|url] items IH]; intros rem out Hrem Hb.
  - left. cbn. rewrite app_nil_r. split; [done|lia].
  - apply Forall_cons in Hb as [Ht Hb]. cbn [truncate_items_loop]. case_bool_decide as H0.
    { subst rem. right. exists [], t, items. split; [done|]. left. split; [done|].
      by rewrite truncate_items_exhausted. }
    pose proof (item_cost_nonneg p t). case_bool_decide as Hfit.
    + rewrite usat_sub_exact by done.
      destruct (IH (rem - item_cost p t) (out ++ [InputText t]))
        as [[-> Hc]|(pre & t' & post & -> & Hcase)]; [lia|done|left|right].
      { rewrite <-(assoc_L (++)). split; [done|].
        cbn [items_cost foldr]. fold (items_cost p items). lia. }
      exists (InputText t :: pre), t', post. split; [done|]. cbn [items_cost foldr] in *.
      fold (items_cost p pre) in *. rewrite Z.sub_add_distr.
      destruct Hcase as [[? ->]|[? (snip & ? & ? & ->)]]; [left|right];
        rewrite <-!(assoc_L (++)); [done|]. split; [done|]. by exists snip.
    + destruct (snippet_of p t rem) as (snip & Hs & Hne & _); [lia|done|lia|].
      right. exists [], t, items. split; [done|]. right. cbn [items_cost foldr].
      rewrite Z.sub_0_r. split; [lia|]. exists snip. split_and!; [done..|].
      rewrite Hs. cbn [mbind option_bind]. destruct snip; [done|].
      rewrite truncate_items_exhausted. by rewrite <-(assoc_L (++)).
  - apply Forall_cons in Hb as [_ Hb]. cbn [truncate_items_loop].
    destruct (IH rem (out ++ [InputImage url])) as [[-> Hc]|(pre & t' & post & -> & Hcase)];
      [done..|left|right].
    { rewrite <-(assoc_L (++)). done. }
    exists (InputImage url :: pre), t', post. split; [done|].
    cbn [items_cost foldr] in *. fold (items_cost p pre) in *. rewrite Z.add_0_l.
    destruct Hcase as [[? ->]|[? (snip & ? & ? & ->)]]; [left|right];
      rewrite <-!(assoc_L (++)); [done|]. split; [done|]. by exists snip.
Qed.

Lemma truncate_text_total s p : valid_policy p → zstr s ≤ ISIZE_MAX → is_Some (truncate_text s p).
Proof.
  intros Hp Hs. destruct (truncate_text_cases s p Hp Hs) as [[_ ->]|[_ (out & -> & _)]]; eauto.
Qed.

Lemma truncate_items_total items p :
  valid_policy p → texts_bounded items →
  is_Some (truncate_function_output_items_with_policy items p).
Proof.
  intros Hp Hb. unfold truncate_function_output_items_with_policy.
  assert (match p with Bytes _ => byte_budget p | Tokens _ => token_budget p end = budget_of p)
    as -> by by destruct p.
  destruct (truncate_items_loop_spec p items (budget_of p) [])
    as [[-> _]|(? & ? & ? & _ & [[_ ->]|[_ (? & _ & _ & ->)]])]; [by destruct p|done|..]; cbn; eauto.
Qed.

(** Truncating the items of a tool's output: either all items are kept, or
    the items before the first text that does not fit are kept as they are, that
    text is cut to what is left of the budget, every later image is kept, every
    later text is dropped, and a note with their exact number is added. *)
Theorem truncate_items_spec items p :
  valid_policy p → texts_bounded items →
  ∃ out, truncate_function_output_items_with_policy items p = Some out ∧
  ((out = items ∧ items_cost p items ≤ budget_of p) ∨
   ∃ pre t post, items = pre ++ InputText t :: post ∧
     let left_over := budget_of p - items_cost p pre in
     (left_over = 0 ∧ out = pre ++ images post ++ [omitted_note (1 + texts post)]) ∨
     (0 < left_over < item_cost p t ∧ ∃ snip,
        truncate_text t (with_budget p left_over) = Some snip ∧ snip ≠ [] ∧
        out = pre ++ InputText snip :: images post ++
              (if bool_decide (0 < texts post) then [omitted_note (texts post)] else []))).
Proof.
  intros Hp Hb. unfold truncate_function_output_items_with_policy.
  assert (match p with Bytes _ => byte_budget p | Tokens _ => token_budget p end = budget_of p)
    as -> by by destruct p.
  assert (∀ post, 0 ≤ texts post) as Htx by (intros; apply zlen_nonneg).
  destruct (truncate_items_loop_spec p items (budget_of p) [])
    as [[-> Hc]|(pre & t & post & Hi & [[H0 ->]|[H0 (snip & Hs & Hne & ->)]])];
    [by destruct p|done|..]; cbn [mbind option_bind app].
  - eexists. split; [done|]. by left.
  - rewrite bool_decide_true by (specialize (Htx post); lia). eexists. split; [done|]. right.
    exists pre, t, post. split; [done|]. left. by rewrite <-(assoc_L (++)).
  - eexists. split; [done|]. right. exists pre, t, post. split; [done|]. right. split; [done|].
    exists snip. split_and!; [done..|]. case_bool_decide; by rewrite ?app_nil_r, <-?(assoc_L (++)).
Qed.

Lemma truncate_items_spec_witness :
  let items := [InputText §"abcd"; InputImage §"u"; InputText §"efghijkl"; InputText §"m"] in
  texts_bounded items ∧
  ∃ out, truncate_function_output_items_with_policy items (Bytes 8) = Some out.
Proof.
  split; [by repeat (constructor; [by vm_compute|]); constructor|].
  destruct (truncate_items_spec
    [InputText §"abcd"; InputImage §"u"; InputText §"efghijkl"; InputText §"m"] (Bytes 8))
    as (out & Hout & _); [by vm_compute|by repeat (constructor; [by vm_compute|]); constructor|].
  by exists out.
Defined.
