(* ===== verification/Protocol.v ===== *)
(** * The items of a conversation ([protocol/src/models.rs]) and the token counts
    reported with them ([protocol/src/protocol.rs]). *)
From S2P Require Import Prelude RustStr MachInt Truncate.

(** ** [models.rs] *)
Inductive ContentItem :=
| CInputText (text : str)
| CInputImage (image_url : str)
| COutputText (text : str).

Inductive MessagePhase := Commentary | FinalAnswer.
Inductive LocalShellStatus := Completed | InProgress | Incomplete.

Record LocalShellExecAction := {
  ls_command : list str;
  ls_timeout_ms : option Z;
  ls_working_directory : option str;
  ls_env : option (gmap str str);
  ls_user : option str;
}.
Inductive LocalShellAction := Exec (action : LocalShellExecAction).

Inductive WebSearchAction :=
| Search (query : option str) (queries : option (list str))
| OpenPage (url : option str)
| FindInPage (url pattern : option str)
| WOther.

Inductive ReasoningItemReasoningSummary := SummaryText (text : str).
Inductive ReasoningItemContent := ReasoningText (text : str) | RText (text : str).

Record GhostCommit := {
  commit_id : str;
  parent : option str;
  preexisting_untracked_files : list str;
  preexisting_untracked_dirs : list str;
}.

Record FunctionCallOutputPayload := {
  content : str;
  content_items : option (list FunctionCallOutputContentItem);
  success : option bool;
}.

Inductive ResponseItem :=
| Message (id : option str) (role : str) (content : list ContentItem) (end_turn : option bool)
    (phase : option MessagePhase)
| Reasoning (id : str) (summary : list ReasoningItemReasoningSummary)
    (content : option (list ReasoningItemContent)) (encrypted_content : option str)
| LocalShellCall (id call_id : option str) (status : LocalShellStatus) (action : LocalShellAction)
| FunctionCall (id : option str) (name arguments call_id : str)
| FunctionCallOutput (call_id : str) (output : FunctionCallOutputPayload)
| CustomToolCall (id status : option str) (call_id name input : str)
| CustomToolCallOutput (call_id output : str)
| WebSearchCall (id status : option str) (action : option WebSearchAction)
| GhostSnapshot (ghost_commit : GhostCommit)
| Compaction (encrypted_content : str)
| Other.

(** ** Token counts, as [i64] *)
Record TokenUsage := {
  input_tokens : Z;
  cached_input_tokens : Z;
  output_tokens : Z;
  reasoning_output_tokens : Z;
  total_tokens : Z;
}.
Definition usage_default : TokenUsage := {|
  input_tokens := 0; cached_input_tokens := 0; output_tokens := 0;
  reasoning_output_tokens := 0; total_tokens := 0 |}.

Record TokenUsageInfo := {
  total_token_usage : TokenUsage;
  last_token_usage : TokenUsage;
  model_context_window : option Z;
}.

Section Arithmetic.
(** [cfg!(debug_assertions)]: an overflowing [+], [+=] or [-] panics in a debug
    build and wraps in a release build. *)
Context (debug : bool).

Definition i64_wrap (z : Z) : Z := ((z + 2 ^ 63) mod 2 ^ 64 - 2 ^ 63)%Z.
Definition i64_arith (z : Z) : option Z :=
  if bool_decide (I64_MIN ≤ z ≤ I64_MAX)%Z then Some z
  else if debug then None else Some (i64_wrap z).

Definition add_assign (self other : TokenUsage) : option TokenUsage :=
  i ← i64_arith (input_tokens self + input_tokens other);
  c ← i64_arith (cached_input_tokens self + cached_input_tokens other);
  o ← i64_arith (output_tokens self + output_tokens other);
  r ← i64_arith (reasoning_output_tokens self + reasoning_output_tokens other);
  t ← i64_arith (total_tokens self + total_tokens other);
  Some {| input_tokens := i; cached_input_tokens := c; output_tokens := o;
          reasoning_output_tokens := r; total_tokens := t |}.

Definition append_last_usage (info : TokenUsageInfo) (last : TokenUsage) : option TokenUsageInfo :=
  total ← add_assign (total_token_usage info) last;
  Some {| total_token_usage := total; last_token_usage := last;
          model_context_window := model_context_window info |}.

Definition new_or_append (info : option TokenUsageInfo) (last : option TokenUsage)
    (window : option Z) : option (option TokenUsageInfo) :=
  match info, last with
  | None, None => Some None
  | _, _ =>
      let info := match info with
                  | Some info => info
                  | None => {| total_token_usage := usage_default;
                               last_token_usage := usage_default;
                               model_context_window := window |}
                  end in
      match last with
      | Some last => Some <$> append_last_usage info last
      | None => Some (Some info)
      end
  end.

Definition total_only (n : Z) : TokenUsage := {|
  input_tokens := 0; cached_input_tokens := 0; output_tokens := 0;
  reasoning_output_tokens := 0; total_tokens := n |}.

Definition fill_to_context_window (info : TokenUsageInfo) (context_window : Z)
    : option TokenUsageInfo :=
  delta ← i64_arith (context_window - total_tokens (total_token_usage info));
  Some {| total_token_usage := total_only context_window;
          last_token_usage := total_only (Z.max delta 0);
          model_context_window := Some context_window |}.

Definition full_context_window (context_window : Z) : option TokenUsageInfo :=
  fill_to_context_window
    {| total_token_usage := usage_default; last_token_usage := usage_default;
       model_context_window := Some context_window |} context_window.
End Arithmetic.

Definition cached_input (u : TokenUsage) : Z := Z.max (cached_input_tokens u) 0.
Definition non_cached_input (debug : bool) (u : TokenUsage) : option Z :=
  n ← i64_arith debug (input_tokens u - cached_input u); Some (Z.max n 0).
Definition blended_total (debug : bool) (u : TokenUsage) : option Z :=
  n ← non_cached_input debug u;
  t ← i64_arith debug (n + Z.max (output_tokens u) 0);
  Some (Z.max t 0).

Lemma i64_arith_range debug z r :
  i64_arith debug z = Some r → (I64_MIN ≤ r ≤ I64_MAX)%Z.
Proof.
  unfold i64_arith. case_bool_decide; [by intros [= <-]|]. destruct debug; [done|].
  intros [= <-]. unfold i64_wrap, I64_MIN, I64_MAX.
  pose proof (Z.mod_pos_bound (z + 2 ^ 63) (2 ^ 64)). lia.
Qed.
