(* ===== verification/Normalize.v ===== *)
(** * Pairing of tool calls and their outputs
    ([core/src/context_manager/normalize.rs]). *)
From S2P Require Import Prelude RustStr MachInt Truncate Protocol.

Section Normalize.
(** [error_or_panic]: panics ([None]) in a debug build, logs otherwise. *)
Context (debug : bool).

Definition error_or_panic : option unit := if debug then None else Some ().

Definition is_fn_output (call_id : str) (i : ResponseItem) : bool :=
  match i with FunctionCallOutput existing _ => bool_decide (existing = call_id) | _ => false end.
Definition is_custom_output (call_id : str) (i : ResponseItem) : bool :=
  match i with CustomToolCallOutput existing _ => bool_decide (existing = call_id) | _ => false end.
Definition is_fn_call (call_id : str) (i : ResponseItem) : bool :=
  match i with FunctionCall _ _ _ existing => bool_decide (existing = call_id) | _ => false end.
Definition is_shell_call (call_id : str) (i : ResponseItem) : bool :=
  match i with
  | LocalShellCall _ (Some existing) _ _ => bool_decide (existing = call_id)
  | _ => false
  end.
Definition is_custom_call (call_id : str) (i : ResponseItem) : bool :=
  match i with CustomToolCall _ _ existing _ _ => bool_decide (existing = call_id) | _ => false end.

Definition aborted_fn_output (call_id : str) : ResponseItem :=
  FunctionCallOutput call_id {| content := §"aborted"; content_items := None; success := None |}.
Definition aborted_custom_output (call_id : str) : ResponseItem :=
  CustomToolCallOutput call_id §"aborted".

(** What the loop of [ensure_call_outputs_present] pushes for one item. *)
Definition missing_output_of (items : list ResponseItem) (item : ResponseItem)
    : option (option ResponseItem) :=
  match item with
  | FunctionCall _ _ _ call_id =>
      if existsb (is_fn_output call_id) items then Some None
      else Some (Some (aborted_fn_output call_id))
  | CustomToolCall _ _ call_id _ _ =>
      if existsb (is_custom_output call_id) items then Some None
      else error_or_panic;; Some (Some (aborted_custom_output call_id))
  | LocalShellCall _ (Some call_id) _ _ =>
      if existsb (is_fn_output call_id) items then Some None
      else error_or_panic;; Some (Some (aborted_fn_output call_id))
  | _ => Some None
  end.

(** [for (idx, item) in items.iter().enumerate()], from [idx] on. *)
Fixpoint missing_outputs (items : list ResponseItem) (idx : nat) (l : list ResponseItem)
    : option (list (nat * ResponseItem)) :=
  match l with
  | [] => Some []
  | item :: l' =>
      m ← missing_output_of items item;
      ms ← missing_outputs items (S idx) l';
      Some (match m with Some o => (idx, o) :: ms | None => ms end)
  end.

(** [for (idx, output_item) in missing.into_iter().rev()]. *)
Fixpoint insert_missing (missing_rev : list (nat * ResponseItem)) (items : list ResponseItem)
    : option (list ResponseItem) :=
  match missing_rev with
  | [] => Some items
  | (idx, o) :: ms => items' ← vec_insert (idx + 1) o items; insert_missing ms items'
  end.

Definition ensure_call_outputs_present (items : list ResponseItem) : option (list ResponseItem) :=
  missing ← missing_outputs items 0 items;
  insert_missing (reverse missing) items.

Definition function_call_ids (items : list ResponseItem) : gset str :=
  list_to_set (omap (λ i, match i with FunctionCall _ _ _ c => Some c | _ => None end) items).
Definition local_shell_call_ids (items : list ResponseItem) : gset str :=
  list_to_set (omap (λ i, match i with LocalShellCall _ (Some c) _ _ => Some c | _ => None end) items).
Definition custom_tool_call_ids (items : list ResponseItem) : gset str :=
  list_to_set (omap (λ i, match i with CustomToolCall _ _ c _ _ => Some c | _ => None end) items).

(** The closure given to [retain]. *)
Definition retains (fns shells customs : gset str) (item : ResponseItem) : option bool :=
  match item with
  | FunctionCallOutput call_id _ =>
      let has_match := bool_decide (call_id ∈ fns) || bool_decide (call_id ∈ shells) in
      if has_match then Some true else error_or_panic;; Some false
  | CustomToolCallOutput call_id _ =>
      let has_match := bool_decide (call_id ∈ customs) in
      if has_match then Some true else error_or_panic;; Some false
  | _ => Some true
  end.

Fixpoint retain (keep : ResponseItem → option bool) (items : list ResponseItem)
    : option (list ResponseItem) :=
  match items with
  | [] => Some []
  | i :: items' => k ← keep i; r ← retain keep items'; Some (if k : bool then i :: r else r)
  end.

Definition remove_orphan_outputs (items : list ResponseItem) : option (list ResponseItem) :=
  retain (retains (function_call_ids items) (local_shell_call_ids items)
                  (custom_tool_call_ids items)) items.

(** [normalize_history] of [context_manager/history.rs]. *)
Definition normalize_history (items : list ResponseItem) : option (list ResponseItem) :=
  items' ← ensure_call_outputs_present items; remove_orphan_outputs items'.
End Normalize.

(** [items.iter().position(p)], then [items.remove(pos)]. *)
Fixpoint remove_first_matching (p : ResponseItem → bool) (items : list ResponseItem)
    : list ResponseItem :=
  match items with
  | [] => []
  | i :: items' => if p i then items' else i :: remove_first_matching p items'
  end.

Definition remove_corresponding_for (items : list ResponseItem) (item : ResponseItem)
    : list ResponseItem :=
  match item with
  | FunctionCall _ _ _ call_id => remove_first_matching (is_fn_output call_id) items
  | FunctionCallOutput call_id _ =>
      if existsb (is_fn_call call_id) items then remove_first_matching (is_fn_call call_id) items
      else if existsb (is_shell_call call_id) items
      then remove_first_matching (is_shell_call call_id) items
      else items
  | CustomToolCall _ _ call_id _ _ => remove_first_matching (is_custom_output call_id) items
  | CustomToolCallOutput call_id _ => remove_first_matching (is_custom_call call_id) items
  | LocalShellCall _ (Some call_id) _ _ => remove_first_matching (is_fn_output call_id) items
  | _ => items
  end.

(** * Specification *)

(** Function and local shell calls share one name space of ids; custom tool
    calls have their own. *)
Inductive Family := Fn | Custom.
#[export] Instance Family_eq : EqDecision Family.
Proof. solve_decision. Defined.

Definition call_key (i : ResponseItem) : option (Family * str) :=
  match i with
  | FunctionCall _ _ _ c => Some (Fn, c)
  | LocalShellCall _ (Some c) _ _ => Some (Fn, c)
  | CustomToolCall _ _ c _ _ => Some (Custom, c)
  | _ => None
  end.
Definition out_key (i : ResponseItem) : option (Family * str) :=
  match i with
  | FunctionCallOutput c _ => Some (Fn, c)
  | CustomToolCallOutput c _ => Some (Custom, c)
  | _ => None
  end.
Definition aborted (k : Family * str) : ResponseItem :=
  match k with (Fn, c) => aborted_fn_output c | (Custom, c) => aborted_custom_output c end.

Definition calls (items : list ResponseItem) : list (Family * str) := omap call_key items.
Definition outs (items : list ResponseItem) : list (Family * str) := omap out_key items.

(** Every call has an output and every output has a call. *)
Definition paired (items : list ResponseItem) : Prop := ∀ k, k ∈ calls items ↔ k ∈ outs items.

(** The item as it appears in the normal form of [items]: an output without a
    call is dropped, a call without an output is followed by an aborted one. *)
Definition completion (items : list ResponseItem) (i : ResponseItem) : list ResponseItem :=
  match call_key i with
  | Some k => if decide (k ∈ outs items) then [] else [aborted k]
  | None => []
  end.
Definition has_call (items : list ResponseItem) (i : ResponseItem) : Prop :=
  match out_key i with Some k => k ∈ calls items | None => True end.
#[export] Instance has_call_dec items i : Decision (has_call items i).
Proof. unfold has_call. destruct (out_key i); apply _. Defined.
Definition completed (items : list ResponseItem) : list ResponseItem :=
  items ≫= λ i, i :: completion items i.
Definition normal (items : list ResponseItem) : list ResponseItem :=
  items ≫= λ i, if decide (has_call items i) then i :: completion items i else [].

(** The items over which a debug build panics. *)
Definition panics (items : list ResponseItem) (i : ResponseItem) : Prop :=
  match i with FunctionCall _ _ _ _ => False | _ => completion items i ≠ [] end
  ∨ ¬ has_call items i.

Lemma call_not_output i k : call_key i = Some k → out_key i = None.
Proof. by destruct i as [| |? [?|]| | | | | | | |]. Qed.

Lemma out_key_aborted k : out_key (aborted k) = Some k.
Proof. by destruct k as [[] c]. Qed.
Lemma call_key_aborted k : call_key (aborted k) = None.
Proof. by destruct k as [[] c]. Qed.

Lemma elem_of_calls k items : k ∈ calls items ↔ ∃ i, i ∈ items ∧ call_key i = Some k.
Proof. unfold calls. by rewrite list_elem_of_omap. Qed.
Lemma elem_of_outs k items : k ∈ outs items ↔ ∃ i, i ∈ items ∧ out_key i = Some k.
Proof. unfold outs. by rewrite list_elem_of_omap. Qed.

Lemma existsb_exists_elem {A} (p : A → bool) l : existsb p l = true ↔ ∃ x, x ∈ l ∧ p x = true.
Proof. rewrite existsb_exists. by setoid_rewrite list_elem_of_In. Qed.

Lemma is_fn_output_key c i : is_fn_output c i = true ↔ out_key i = Some (Fn, c).
Proof. destruct i; cbn; rewrite ?bool_decide_eq_true; split; congruence. Qed.
Lemma is_custom_output_key c i : is_custom_output c i = true ↔ out_key i = Some (Custom, c).
Proof. destruct i; cbn; rewrite ?bool_decide_eq_true; split; congruence. Qed.
Lemma is_custom_call_key c i : is_custom_call c i = true ↔ call_key i = Some (Custom, c).
Proof.
  destruct i as [| |? [?|]| | | | | | | |]; cbn; rewrite ?bool_decide_eq_true; split; congruence.
Qed.
Lemma fn_or_shell_call_key c i :
  is_fn_call c i = true ∨ is_shell_call c i = true ↔ call_key i = Some (Fn, c).
Proof.
  destruct i as [| |? [?|]| | | | | | | |]; cbn; rewrite ?bool_decide_eq_true;
    split; intros; destruct_or?; try congruence; (left; congruence) || (right; congruence).
Qed.

Lemma existsb_fn_output c items : existsb (is_fn_output c) items = bool_decide ((Fn, c) ∈ outs items).
Proof.
  apply eq_bool_prop_intro. rewrite !Is_true_true, existsb_exists_elem, bool_decide_eq_true, elem_of_outs.
  by setoid_rewrite is_fn_output_key.
Qed.
Lemma existsb_custom_output c items :
  existsb (is_custom_output c) items = bool_decide ((Custom, c) ∈ outs items).
Proof.
  apply eq_bool_prop_intro. rewrite !Is_true_true, existsb_exists_elem, bool_decide_eq_true, elem_of_outs.
  by setoid_rewrite is_custom_output_key.
Qed.

(** ** The two passes *)

Lemma missing_output_of_spec debug items i m :
  missing_output_of debug items i = Some m →
  completion items i = match m with Some o => [o] | None => [] end.
Proof.
  unfold completion. destruct i as [| |? [c|]|? ? ? c| |? ? c ? ?| | | | |]; cbn;
    rewrite ?existsb_fn_output, ?existsb_custom_output; intros H; simplify_eq; try done;
    case_bool_decide; simplify_eq; case_decide; try done; by destruct debug; cbn in H; simplify_eq.
Qed.

Lemma missing_output_of_release items i : is_Some (missing_output_of false items i).
Proof. destruct i as [| |? [c|]|? ? ? c| |? ? c ? ?| | | | |]; cbn; try case_match; eauto. Qed.

Lemma insert_missing_app ms1 ms2 items :
  insert_missing (ms1 ++ ms2) items = insert_missing ms1 items ≫= insert_missing ms2.
Proof.
  revert items. induction ms1 as [|[idx o] ms1 IH]; intros items; [done|]. cbn.
  destruct (vec_insert _ _ _); cbn; [apply IH|done].
Qed.

(** Inserting from the back leaves the earlier indices valid. *)
Lemma missing_outputs_insert debug items l pre ms :
  missing_outputs debug items (length pre) l = Some ms →
  insert_missing (reverse ms) (pre ++ l) = Some (pre ++ (l ≫= λ i, i :: completion items i)).
Proof.
  revert pre ms. induction l as [|i l IH]; intros pre ms; cbn; [by intros [= <-]|].
  destruct (missing_output_of debug items i) as [m|] eqn:Em; cbn; [|done].
  destruct (missing_outputs debug items (S (length pre)) l) as [ms'|] eqn:Ems; cbn; [|done].
  intros [= <-].
  replace (S (length pre)) with (length (pre ++ [i])) in Ems by (rewrite length_app; cbn; lia).
  apply IH in Ems. rewrite <-!(assoc_L (++)) in Ems. cbn in Ems.
  apply missing_output_of_spec in Em. rewrite Em. destruct m as [o|]; [|done].
  rewrite reverse_cons, insert_missing_app, Ems. cbn.
  unfold vec_insert. rewrite decide_True by (rewrite length_app; cbn; lia). cbn.
  rewrite take_app_ge, drop_app_ge by lia.
  replace (length pre + 1 - length pre) with 1 by lia. cbn. by rewrite <-(assoc_L (++)).
Qed.

Lemma ensure_spec debug items out :
  ensure_call_outputs_present debug items = Some out → out = completed items.
Proof.
  unfold ensure_call_outputs_present.
  destruct (missing_outputs debug items 0 items) as [ms|] eqn:E; cbn; [|done].
  apply (missing_outputs_insert debug items items []) in E. cbn in E. by rewrite E; intros [= <-].
Qed.

Lemma missing_outputs_total debug items idx l :
  Forall (λ i, is_Some (missing_output_of debug items i)) l →
  is_Some (missing_outputs debug items idx l).
Proof.
  intros H. revert idx. induction H as [|i l [m Hm] _ IH]; intros idx; cbn; [eauto|].
  rewrite Hm. cbn. destruct (IH (S idx)) as [ms ->]. cbn. eauto.
Qed.

Lemma ensure_total debug items :
  Forall (λ i, is_Some (missing_output_of debug items i)) items →
  ensure_call_outputs_present debug items = Some (completed items).
Proof.
  intros H. destruct (missing_outputs_total debug items 0 items H) as [ms E].
  unfold ensure_call_outputs_present. rewrite E. cbn.
  apply (missing_outputs_insert debug items items [] ms E).
Qed.

Lemma calls_completed items : calls (completed items) = calls items.
Proof.
  unfold calls, completed. generalize items at 1 as ctx. intros ctx.
  induction items as [|i items IH]; [done|]. cbn.
  rewrite omap_app, IH. unfold completion. destruct (call_key i) eqn:E; cbn; rewrite ?E; [|done].
  case_decide; cbn; by rewrite ?call_key_aborted.
Qed.

Lemma call_ids_spec items c :
  (c ∈ function_call_ids items ∨ c ∈ local_shell_call_ids items) ↔ (Fn, c) ∈ calls items.
Proof.
  unfold function_call_ids, local_shell_call_ids.
  rewrite !elem_of_list_to_set, !list_elem_of_omap, elem_of_calls. split.
  - intros [(i & Hi & E)|(i & Hi & E)]; exists i; (split; [done|]); repeat case_match; simplify_eq; done.
  - intros (i & Hi & E). destruct i as [| |? [?|]| | | | | | | |]; cbn in E; simplify_eq;
      [right|left]; eexists; (split; [exact Hi|done]).
Qed.

Lemma custom_ids_spec items c : c ∈ custom_tool_call_ids items ↔ (Custom, c) ∈ calls items.
Proof.
  unfold custom_tool_call_ids. rewrite elem_of_list_to_set, list_elem_of_omap, elem_of_calls. split.
  - intros (i & Hi & E); exists i; (split; [done|]); repeat case_match; simplify_eq; done.
  - intros (i & Hi & E). destruct i as [| |? [?|]| | | | | | | |]; cbn in E; simplify_eq.
    eexists; (split; [exact Hi|done]).
Qed.

Lemma retains_spec debug items i :
  let r := retains debug (function_call_ids items) (local_shell_call_ids items)
             (custom_tool_call_ids items) i in
  (has_call items i → r = Some true) ∧
  (¬ has_call items i → r = if debug then None else Some false).
Proof.
  destruct i; try done; unfold has_call; cbn [out_key retains].
  - rewrite <-call_ids_spec, <-bool_decide_or. split; intros H.
    + by rewrite bool_decide_true.
    + rewrite bool_decide_false by done. by destruct debug.
  - rewrite <-custom_ids_spec. split; intros H.
    + by rewrite bool_decide_true.
    + rewrite bool_decide_false by done. by destruct debug.
Qed.

Lemma remove_orphan_outputs_spec debug items :
  (debug = false ∨ Forall (has_call items) items) →
  remove_orphan_outputs debug items = Some (filter (has_call items) items).
Proof.
  unfold remove_orphan_outputs. intros H.
  assert (∀ l, l ⊆ items → (debug = false ∨ Forall (has_call items) l) →
    retain (retains debug (function_call_ids items) (local_shell_call_ids items)
              (custom_tool_call_ids items)) l = Some (filter (has_call items) l)) as Hl; [|by apply Hl].
  clear H. intros l. induction l as [|i l IH]; intros Hsub H; [done|]. cbn [retain].
  destruct (retains_spec debug items i) as [Ht Hf].
  rewrite IH; [|set_solver|destruct H as [|H]; [by left|right; by apply Forall_cons in H as [_ ?]]].
  rewrite filter_cons. case_decide as Hc.
  - by rewrite (Ht Hc).
  - destruct H as [->|H]; [by rewrite (Hf Hc)|]. by apply Forall_cons in H as [? _].
Qed.

Lemma has_call_ext items items' i :
  calls items = calls items' → has_call items i ↔ has_call items' i.
Proof. unfold has_call. intros ->. done. Qed.

Lemma completion_kept items i :
  i ∈ items → has_call items i →
  filter (has_call items) (i :: completion items i) = i :: completion items i.
Proof.
  intros Hi Hc. apply filter_all_id. constructor; [done|]. unfold completion.
  destruct (call_key i) as [k|] eqn:E; [|constructor]. case_decide; constructor; [|done].
  unfold has_call. rewrite out_key_aborted. apply elem_of_calls. eauto.
Qed.

Lemma orphan_no_completion items i : ¬ has_call items i → completion items i = [].
Proof.
  unfold has_call, completion. destruct (call_key i) eqn:E; [|done].
  by rewrite (call_not_output _ _ E).
Qed.

Lemma filter_completed items : filter (has_call (completed items)) (completed items) = normal items.
Proof.
  unfold completed at 2, normal.
  assert (∀ l, l ⊆ items →
    filter (has_call (completed items)) (l ≫= λ i, i :: completion items i)
    = l ≫= λ i, if decide (has_call items i) then i :: completion items i else []) as Hl;
    [|by apply Hl].
  intros l. induction l as [|i l IH]; intros Hsub; [done|]. rewrite !bind_cons.
  rewrite filter_app, IH by set_solver. f_equal.
  rewrite (list_filter_iff _ (has_call items)) by (intros; by apply has_call_ext, calls_completed).
  case_decide as Hc.
  - apply completion_kept; [set_solver|done].
  - rewrite orphan_no_completion by done. by rewrite filter_cons_False.
Qed.

Lemma normalize_history_release items : normalize_history false items = Some (normal items).
Proof.
  unfold normalize_history.
  rewrite ensure_total by (apply Forall_true; intros; apply missing_output_of_release). cbn.
  rewrite remove_orphan_outputs_spec by (by left). by rewrite filter_completed.
Qed.

(** ** Properties of the normal form *)

Definition is_output (i : ResponseItem) : Prop := is_Some (out_key i).
#[export] Instance is_output_dec i : Decision (is_output i).
Proof. unfold is_output. apply _. Defined.

Lemma elem_of_normal items j :
  j ∈ normal items ↔ ∃ i, i ∈ items ∧ has_call items i ∧ j ∈ i :: completion items i.
Proof.
  unfold normal. rewrite list_elem_of_bind. split.
  - intros (i & Hj & Hi). case_decide; [eauto|by apply elem_of_nil in Hj].
  - intros (i & Hi & Hc & Hj). exists i. by rewrite decide_True.
Qed.

Lemma completion_elem items i j :
  j ∈ completion items i → ∃ k, call_key i = Some k ∧ k ∉ outs items ∧ j = aborted k.
Proof.
  unfold completion. destruct (call_key i) as [k|] eqn:E; [|by intros ?%elem_of_nil].
  case_decide; [by intros ?%elem_of_nil|]. intros ->%list_elem_of_singleton. eauto.
Qed.

Lemma calls_normal items k : k ∈ calls (normal items) ↔ k ∈ calls items.
Proof.
  rewrite !elem_of_calls. split.
  - intros (j & (i & Hi & _ & [->|Hj]%elem_of_cons)%elem_of_normal & Hk); [eauto|].
    apply completion_elem in Hj as (k' & _ & _ & ->). by rewrite call_key_aborted in Hk.
  - intros (i & Hi & Hk). exists i. split; [|done]. apply elem_of_normal. exists i.
    split_and!; [done| |by left]. unfold has_call. by rewrite (call_not_output _ _ Hk).
Qed.

Lemma normal_paired items : paired (normal items).
Proof.
  intros k. rewrite calls_normal. split.
  - intros Hk. assert (Hk' := Hk). apply elem_of_calls in Hk' as (i & Hi & E).
    apply elem_of_outs. destruct (decide (k ∈ outs items)) as [Ho|Ho].
    + apply elem_of_outs in Ho as (j & Hj & Ek). exists j. split; [|done]. apply elem_of_normal.
      exists j. split_and!; [done| |by left]. unfold has_call. by rewrite Ek.
    + exists (aborted k). split; [|apply out_key_aborted]. apply elem_of_normal. exists i.
      split_and!; [done| |right].
      * unfold has_call. by rewrite (call_not_output _ _ E).
      * unfold completion. rewrite E, decide_False by done. by apply list_elem_of_singleton.
  - intros (j & (i & Hi & Hc & [->|Hj]%elem_of_cons)%elem_of_normal & Hk)%elem_of_outs.
    + unfold has_call in Hc. by rewrite Hk in Hc.
    + apply completion_elem in Hj as (k' & E & _ & ->). rewrite out_key_aborted in Hk.
      simplify_eq. apply elem_of_calls. eauto.
Qed.

Lemma normal_id items : paired items → normal items = items.
Proof.
  intros Hp. unfold normal.
  assert (∀ l, l ⊆ items →
    (l ≫= λ i, if decide (has_call items i) then i :: completion items i else []) = l) as Hl;
    [|by apply Hl].
  intros l. induction l as [|i l IH]; intros Hsub; [done|]. rewrite bind_cons, IH by set_solver.
  assert (i ∈ items) as Hi by set_solver. rewrite decide_True.
  - unfold completion. destruct (call_key i) as [k|] eqn:E; [|done]. rewrite decide_True; [done|].
    apply Hp, elem_of_calls. eauto.
  - unfold has_call. destruct (out_key i) as [k|] eqn:E; [|done]. apply Hp, elem_of_outs. eauto.
Qed.

Lemma completion_outputs items i : filter (λ j, ¬ is_output j) (completion items i) = [].
Proof.
  apply filter_none. apply Forall_forall. intros j (k & _ & _ & ->)%completion_elem H.
  apply H. unfold is_output. by rewrite out_key_aborted.
Qed.

Lemma normal_non_outputs items :
  filter (λ i, ¬ is_output i) (normal items) = filter (λ i, ¬ is_output i) items.
Proof.
  unfold normal.
  assert (∀ l, filter (λ i, ¬ is_output i)
      (l ≫= λ i, if decide (has_call items i) then i :: completion items i else [])
    = filter (λ i, ¬ is_output i) l) as Hl; [|apply Hl].
  intros l. induction l as [|i l IH]; [done|]. rewrite bind_cons, filter_app, IH.
  change (i :: l) with ([i] ++ l). rewrite filter_app. f_equal.
  case_decide as Hc.
  - change (i :: completion items i) with ([i] ++ completion items i).
    by rewrite filter_app, completion_outputs, app_nil_r.
  - rewrite filter_cons_False; [done|]. intros Ho. apply Hc. unfold has_call.
    destruct (out_key i) eqn:E; [|done]. exfalso. apply Ho. unfold is_output. by rewrite E.
Qed.

(** Normalising the history for a prompt (release build): the result exists
    and is the history with every output that has no call removed and an
    [aborted] output put right after every call that has none.  In it calls and
    outputs are paired, everything that is not an output is kept in order, and
    normalising again changes nothing. *)
Theorem normalize_history_spec items :
  normalize_history false items = Some (normal items) ∧
  paired (normal items) ∧
  filter (λ i, ¬ is_output i) (normal items) = filter (λ i, ¬ is_output i) items ∧
  normalize_history false (normal items) = Some (normal items).
Proof.
  pose proof (normal_paired items) as Hp. split_and!.
  - apply normalize_history_release.
  - done.
  - apply normal_non_outputs.
  - by rewrite normalize_history_release, normal_id.
Qed.

(** ** Debug builds *)
Lemma completed_no_orphans items :
  Forall (has_call items) items → Forall (has_call (completed items)) (completed items).
Proof.
  intros H. apply Forall_forall. intros j (i & Hj & Hi)%list_elem_of_bind.
  rewrite Forall_forall in H. rewrite (has_call_ext _ items) by apply calls_completed.
  apply elem_of_cons in Hj as [->|(k & E & _ & ->)%completion_elem]; [by apply H|].
  unfold has_call. rewrite out_key_aborted. apply elem_of_calls. eauto.
Qed.

Lemma missing_output_of_debug items i :
  missing_output_of true items i = None ↔
  match i with FunctionCall _ _ _ _ => False | _ => completion items i ≠ [] end.
Proof.
  unfold completion. destruct i as [| |? [c|]|? ? ? c| |? ? c ? ?| | | | |]; cbn;
    rewrite ?existsb_fn_output, ?existsb_custom_output; try done; try (by split);
    case_bool_decide; cbn; try case_decide; try done; by split.
Qed.

Lemma missing_outputs_None debug items idx l :
  missing_outputs debug items idx l = None ↔ Exists (λ i, missing_output_of debug items i = None) l.
Proof.
  revert idx. induction l as [|i l IH]; intros idx; cbn; [by rewrite Exists_nil|].
  rewrite Exists_cons, <-(IH (S idx)).
  destruct (missing_output_of debug items i); cbn; [|by split; [left|]].
  destruct (missing_outputs debug items (S idx) l); cbn; split; intros; try done; auto.
  by destruct_or?.
Qed.

Lemma retain_None keep l i : i ∈ l → keep i = None → retain keep l = None.
Proof.
  intros Hi Hk. induction l as [|j l IH]; [by apply elem_of_nil in Hi|]. cbn.
  apply elem_of_cons in Hi as [<-|Hi]; [by rewrite Hk|]. rewrite IH by done. by destruct (keep j).
Qed.

Lemma remove_orphan_outputs_debug items i :
  i ∈ items → ¬ has_call items i → remove_orphan_outputs true items = None.
Proof. intros Hi Hc. apply (retain_None _ _ i Hi). by apply (retains_spec true items i). Qed.

(** In a debug build normalising panics exactly when the history breaks an
    invariant the session is meant to keep: an output without its call, or a
    custom or local shell call without its output (a plain function call may be
    interrupted); otherwise the result is that of a release build. *)
Theorem normalize_history_debug items :
  (normalize_history true items = None ↔ Exists (panics items) items) ∧
  (¬ Exists (panics items) items → normalize_history true items = Some (normal items)).
Proof.
  assert (Hcalls := calls_completed items).
  destruct (decide (Exists (λ i, missing_output_of true items i = None) items)) as [Hm|Hm].
  - assert (normalize_history true items = None) as ->.
    { unfold normalize_history, ensure_call_outputs_present.
      by rewrite (proj2 (missing_outputs_None true items 0 items) Hm). }
    assert (Exists (panics items) items) as He; [|by split].
    eapply Exists_impl; [exact Hm|]. intros i Hi. left. by apply missing_output_of_debug.
  - assert (ensure_call_outputs_present true items = Some (completed items)) as He.
    { apply ensure_total. apply not_Exists_Forall in Hm; [|apply _].
      eapply Forall_impl; [exact Hm|]. intros i Hi. by apply not_eq_None_Some. }
    unfold normalize_history. rewrite He. cbn.
    destruct (decide (Forall (has_call items) items)) as [Ho|Ho].
    + rewrite remove_orphan_outputs_spec by (right; by apply completed_no_orphans).
      rewrite filter_completed. split; [|done]. split; [done|]. intros Hp. exfalso.
      apply Exists_exists in Hp as (i & Hi & [H|H]).
      * apply Hm, Exists_exists. exists i. split; [done|]. by apply missing_output_of_debug.
      * rewrite Forall_forall in Ho. by apply H, Ho.
    + apply not_Forall_Exists in Ho; [|apply _]. apply Exists_exists in Ho as (i & Hi & Hc).
      assert (Exists (panics items) items) as Hp by (apply Exists_exists; exists i; split; [done|by right]).
      rewrite (remove_orphan_outputs_debug (completed items) i); [done| |].
      * apply list_elem_of_bind. exists i. split; [by left|done].
      * by rewrite (has_call_ext _ items) by apply calls_completed.
Qed.

(** ** Removing one item with its counterpart *)

(** At most one call and one output per id, and they come in pairs. *)
Definition balanced (items : list ResponseItem) : Prop :=
  NoDup (calls items) ∧ calls items ≡ₚ outs items.

Lemma balanced_paired items : balanced items → paired items.
Proof. intros [_ Hp] k. by rewrite Hp. Qed.

Lemma remove_first_matching_split p items :
  existsb p items = true → ∃ x, p x = true ∧ items ≡ₚ x :: remove_first_matching p items.
Proof.
  induction items as [|i items IH]; [done|]. cbn. destruct (p i) eqn:E; [by exists i|].
  intros (x & Hx & Hp)%IH. exists x. split; [done|]. by rewrite Hp at 1; apply Permutation_swap.
Qed.

Lemma calls_perm items items' : items ≡ₚ items' → calls items ≡ₚ calls items'.
Proof. intros H. unfold calls. by rewrite H. Qed.
Lemma outs_perm items items' : items ≡ₚ items' → outs items ≡ₚ outs items'.
Proof. intros H. unfold outs. by rewrite H. Qed.

Lemma outs_cons i items :
  outs (i :: items) = match out_key i with Some k => k :: outs items | None => outs items end.
Proof. unfold outs. cbn. by destruct (out_key i). Qed.
Lemma calls_cons i items :
  calls (i :: items) = match call_key i with Some k => k :: calls items | None => calls items end.
Proof. unfold calls. cbn. by destruct (call_key i). Qed.

(** Removing the output of key [k] once its call is gone. *)
Lemma remove_output_balanced p k items :
  (∀ i, p i = true ↔ out_key i = Some k) →
  NoDup (k :: calls items) → k :: calls items ≡ₚ outs items →
  balanced (remove_first_matching p items).
Proof.
  intros Hp Hnd Hperm.
  destruct (remove_first_matching_split p items) as (x & Hx & Hs).
  { apply existsb_exists_elem. assert (k ∈ outs items) as Hk by (rewrite <-Hperm; by left).
    apply elem_of_outs in Hk as (i & Hi & E). exists i. split; [done|]. by apply Hp. }
  apply Hp in Hx. assert (call_key x = None) as Hc.
  { destruct (call_key x) eqn:E; [|done]. apply call_not_output in E. congruence. }
  pose proof (calls_perm _ _ Hs) as Hcs. rewrite calls_cons, Hc in Hcs.
  pose proof (outs_perm _ _ Hs) as Hos. rewrite outs_cons, Hx in Hos.
  apply NoDup_cons in Hnd as [_ Hnd]. split; [by rewrite <-Hcs|].
  apply (Permutation_cons_inv (a:=k)). by rewrite <-Hcs, Hperm.
Qed.

(** Removing the call of key [k] once its output is gone. *)
Lemma remove_call_balanced p k items :
  (∀ i, p i = true → call_key i = Some k) → existsb p items = true →
  NoDup (calls items) → calls items ≡ₚ k :: outs items →
  balanced (remove_first_matching p items).
Proof.
  intros Hp He Hnd Hperm. destruct (remove_first_matching_split p items He) as (x & Hx & Hs).
  apply Hp in Hx. assert (Hc := call_not_output _ _ Hx).
  pose proof (calls_perm _ _ Hs) as Hcs. rewrite calls_cons, Hx in Hcs.
  pose proof (outs_perm _ _ Hs) as Hos. rewrite outs_cons, Hc in Hos.
  rewrite Hcs in Hnd. apply NoDup_cons in Hnd as [_ Hnd]. split; [done|].
  apply (Permutation_cons_inv (a:=k)). by rewrite <-Hcs, Hperm, Hos.
Qed.

(** Removing an item at any position and then its counterpart keeps the
    history balanced. *)
Lemma remove_corresponding_balanced items i rest :
  balanced items → items ≡ₚ i :: rest → balanced (remove_corresponding_for rest i).
Proof.
  intros [Hnd Hp] Hi. pose proof (calls_perm _ _ Hi) as Hc. pose proof (outs_perm _ _ Hi) as Ho.
  rewrite Hc in Hnd. rewrite Hc, Ho in Hp. clear Hc Ho Hi.
  rewrite calls_cons in Hnd, Hp. rewrite outs_cons in Hp.
  assert (∀ k, call_key i = None → out_key i = Some k → ∃ j, j ∈ rest ∧ call_key j = Some k) as Hex.
  { intros k H1 H2. rewrite H1, H2 in Hp. apply elem_of_calls. rewrite Hp. by left. }
  destruct i as [| |? [c|]|? ? ? c|c ?|? ? c ? ?|c ?| | | |]; cbn in *; try by split.
  - by apply (remove_output_balanced _ (Fn, c)); [apply is_fn_output_key|..].
  - by apply (remove_output_balanced _ (Fn, c)); [apply is_fn_output_key|..].
  - destruct (existsb (is_fn_call c) rest) eqn:E1.
    { apply (remove_call_balanced _ (Fn, c)); try done. intros. apply fn_or_shell_call_key. by left. }
    destruct (existsb (is_shell_call c) rest) eqn:E2.
    { apply (remove_call_balanced _ (Fn, c)); try done. intros. apply fn_or_shell_call_key. by right. }
    exfalso. destruct (Hex _ eq_refl eq_refl) as (j & Hj & [H|H]%fn_or_shell_call_key).
    + apply not_true_iff_false in E1. apply E1, existsb_exists_elem. eauto.
    + apply not_true_iff_false in E2. apply E2, existsb_exists_elem. eauto.
  - by apply (remove_output_balanced _ (Custom, c)); [apply is_custom_output_key|..].
  - apply (remove_call_balanced _ (Custom, c)); try done; [intros; by apply is_custom_call_key|].
    destruct (Hex _ eq_refl eq_refl) as (j & Hj & H). apply existsb_exists_elem. exists j.
    split; [done|]. by apply is_custom_call_key.
Qed.
