(* ===== verification/History.v ===== *)
(** * The session history sent to the model
    ([core/src/context_manager/history.rs], with the tests on message texts of
    [session_prefix.rs], [user_shell_command.rs] and [user_instructions.rs]). *)
From S2P Require Import Prelude RustStr MachInt Truncate Protocol Normalize.
From Stdlib Require Import Floats.SpecFloat.

(** ** Tests on message texts *)
Definition ENVIRONMENT_CONTEXT_OPEN_TAG : str := §"<environment_context>".
Definition TURN_ABORTED_OPEN_TAG : str := §"<turn_aborted>".
Definition USER_INSTRUCTIONS_OPEN_TAG : str := §"<user_instructions>".

Definition is_session_prefix (text : str) : bool :=
  let trimmed := trim_start text in
  let lowered := to_ascii_lowercase trimmed in
  starts_with lowered ENVIRONMENT_CONTEXT_OPEN_TAG
  || starts_with lowered TURN_ABORTED_OPEN_TAG
  || starts_with lowered USER_INSTRUCTIONS_OPEN_TAG.

Definition is_session_prefix_content (content : list ContentItem) : bool :=
  match content with [CInputText text] => is_session_prefix text | _ => false end.

Definition USER_SHELL_COMMAND_OPEN : str := §"<user_shell_command>".
Definition is_user_shell_command_text (text : str) : bool :=
  starts_with (to_ascii_lowercase (trim_start text)) USER_SHELL_COMMAND_OPEN.

Definition USER_INSTRUCTIONS_PREFIX : str := §"# AGENTS.md instructions for ".
Definition SKILL_INSTRUCTIONS_PREFIX : str := §"<skill".
Definition is_user_instructions (message : list ContentItem) : bool :=
  match message with [CInputText text] => starts_with text USER_INSTRUCTIONS_PREFIX | _ => false end.
Definition is_skill_instructions (message : list ContentItem) : bool :=
  match message with [CInputText text] => starts_with text SKILL_INSTRUCTIONS_PREFIX | _ => false end.

(** ** Tests on items *)
Definition is_ghost_snapshot (i : ResponseItem) : bool :=
  match i with GhostSnapshot _ => true | _ => false end.
Definition has_role (r : str) (i : ResponseItem) : bool :=
  match i with Message _ role _ _ _ => bool_decide (role = r) | _ => false end.

Definition is_api_message (message : ResponseItem) : bool :=
  match message with
  | Message _ role _ _ _ => negb (bool_decide (role = §"system"))
  | FunctionCallOutput _ _ | FunctionCall _ _ _ _ | CustomToolCall _ _ _ _ _
  | CustomToolCallOutput _ _ | LocalShellCall _ _ _ _ | Reasoning _ _ _ _
  | WebSearchCall _ _ _ | Compaction _ => true
  | GhostSnapshot _ | Other => false
  end.

Definition is_savfox_generated_item (item : ResponseItem) : bool :=
  match item with
  | FunctionCallOutput _ _ | CustomToolCallOutput _ _ => true
  | _ => has_role §"developer" item
  end.

Definition content_ends_turn (c : ContentItem) : bool :=
  match c with
  | CInputText text => is_session_prefix text || is_user_shell_command_text text
  | COutputText text => is_session_prefix text
  | CInputImage _ => false
  end.

Definition is_user_turn_boundary (item : ResponseItem) : bool :=
  match item with
  | Message _ role content _ _ =>
      if negb (bool_decide (role = §"user")) then false
      else if is_user_instructions content || is_skill_instructions content then false
      else negb (existsb content_ends_turn content)
  | _ => false
  end.

Fixpoint user_positions_from (idx : nat) (items : list ResponseItem) : list nat :=
  match items with
  | [] => []
  | item :: items' =>
      if is_user_turn_boundary item then idx :: user_positions_from (S idx) items'
      else user_positions_from (S idx) items'
  end.
Definition user_message_positions (items : list ResponseItem) : list nat :=
  user_positions_from 0 items.

(** [items.iter().rposition(p)]. *)
Definition rposition (p : ResponseItem → bool) (items : list ResponseItem) : option nat :=
  (λ i, length items - 1 - i) <$> (fst <$> list_find (λ x, p x = true) (reverse items)).

(** ** [ContextManager] *)
Record ContextManager := { items : list ResponseItem; token_info : option TokenUsageInfo }.

Definition with_items (m : ContextManager) (l : list ResponseItem) : ContextManager :=
  {| items := l; token_info := token_info m |}.

Section Manager.
Context (debug : bool).

Definition new : option ContextManager :=
  info ← new_or_append debug None None None; Some {| items := []; token_info := info |}.

Definition set_token_info (m : ContextManager) (info : option TokenUsageInfo) : ContextManager :=
  {| items := items m; token_info := info |}.

Definition set_token_usage_full (m : ContextManager) (context_window : Z) : option ContextManager :=
  info ← match token_info m with
         | Some info => fill_to_context_window debug info context_window
         | None => full_context_window debug context_window
         end;
  Some (set_token_info m (Some info)).

Definition update_token_info (m : ContextManager) (usage : TokenUsage)
    (model_context_window : option Z) : option ContextManager :=
  info ← new_or_append debug (token_info m) (Some usage) model_context_window;
  Some (set_token_info m info).

(** A panic of the truncation would be [None]. *)
Definition process_item (item : ResponseItem) (policy : TruncationPolicy) : option ResponseItem :=
  let policy_with_serialization_budget := mul policy f64_1_2 in
  match item with
  | FunctionCallOutput call_id output =>
      truncated ← truncate_text (content output) policy_with_serialization_budget;
      truncated_items ←
        match content_items output with
        | Some l => Some <$> truncate_function_output_items_with_policy l
                               policy_with_serialization_budget
        | None => Some None
        end;
      Some (FunctionCallOutput call_id {| content := truncated; content_items := truncated_items;
                                          success := success output |})
  | CustomToolCallOutput call_id output =>
      truncated ← truncate_text output policy_with_serialization_budget;
      Some (CustomToolCallOutput call_id truncated)
  | _ => Some item
  end.

Fixpoint record_items (m : ContextManager) (new_items : list ResponseItem)
    (policy : TruncationPolicy) : option ContextManager :=
  match new_items with
  | [] => Some m
  | item :: rest =>
      if negb (is_api_message item) && negb (is_ghost_snapshot item) then record_items m rest policy
      else
        processed ← process_item item policy;
        record_items (with_items m (items m ++ [processed])) rest policy
  end.

Definition for_prompt (m : ContextManager) : option (list ResponseItem) :=
  l ← normalize_history debug (items m);
  Some (filter (λ i, is_ghost_snapshot i = false) l).
End Manager.

Definition remove_first_item (m : ContextManager) : ContextManager :=
  match items m with
  | [] => m
  | removed :: rest => with_items m (remove_corresponding_for rest removed)
  end.

Definition remove_last_item (m : ContextManager) : bool * ContextManager :=
  match last (items m) with
  | Some removed =>
      (true, with_items m (remove_corresponding_for (take (length (items m) - 1) (items m)) removed))
  | None => (false, m)
  end.

Definition replace (m : ContextManager) (l : list ResponseItem) : ContextManager := with_items m l.

Definition replace_image (placeholder : str) (i : FunctionCallOutputContentItem)
    : FunctionCallOutputContentItem :=
  if is_image i then InputText placeholder else i.

Definition replace_last_turn_images (m : ContextManager) (placeholder : str)
    : bool * ContextManager :=
  match rposition (λ item, match item with FunctionCallOutput _ _ => true
                           | _ => has_role §"user" item end) (items m) with
  | None => (false, m)
  | Some index =>
      match items m !! index with
      | Some (FunctionCallOutput call_id output) =>
          match content_items output with
          | None => (false, m)
          | Some l =>
              (existsb is_image l,
               with_items m
                 (<[index := FunctionCallOutput call_id
                      {| content := content output;
                         content_items := Some (replace_image placeholder <$> l);
                         success := success output |}]> (items m)))
          end
      | _ => (false, m)
      end
  end.

Definition drop_last_n_user_turns (m : ContextManager) (num_turns : nat) : ContextManager :=
  match num_turns with
  | 0 => m
  | _ =>
      let snapshot := items m in
      let user_positions := user_message_positions snapshot in
      match user_positions with
      | [] => replace m snapshot
      | first_user_idx :: _ =>
          let cut_idx :=
            if bool_decide (length user_positions ≤ num_turns) then first_user_idx
            else nth (length user_positions - num_turns) user_positions 0 in
          replace m (take cut_idx snapshot)
      end
  end.

(** ** Token estimates *)
Section Tokens.
(** [serde_json::to_string(item).unwrap_or_default()]. *)
Context (to_json : ResponseItem → str).
Local Open Scope Z_scope.

(** [i64::try_from(n).unwrap_or(i64::MAX)]. *)
Definition i64_of (n : Z) : Z := Z.min n I64_MAX.

Definition estimate_reasoning_length (encoded_len : Z) : Z :=
  usat_sub (usat_mul encoded_len 3 / 4) 650.

Definition estimate_item_token_count (item : ResponseItem) : Z :=
  match item with
  | GhostSnapshot _ => 0
  | Reasoning _ _ _ (Some c) | Compaction c =>
      i64_of (approx_tokens_from_byte_count (estimate_reasoning_length (zstr c)))
  | _ => i64_of (approx_token_count (to_json item))
  end.

Definition sum_tokens (l : list ResponseItem) : Z :=
  foldl (λ acc item, isat_add acc (estimate_item_token_count item)) 0 l.

Definition estimate_token_count (m : ContextManager) (base_instructions : str) : option Z :=
  let base_tokens := i64_of (approx_token_count base_instructions) in
  let items_tokens := sum_tokens (items m) in
  Some (isat_add base_tokens items_tokens).

Definition has_encrypted_content (i : ResponseItem) : bool :=
  match i with Reasoning _ _ _ (Some _) => true | _ => false end.

Definition get_non_last_reasoning_items_tokens (m : ContextManager) : Z :=
  match rposition (has_role §"user") (items m) with
  | None => 0
  | Some last_user_index =>
      sum_tokens (filter (λ i, has_encrypted_content i = true) (take last_user_index (items m)))
  end.

Fixpoint trailing_tokens (rev_items : list ResponseItem) (total : Z) : Z :=
  match rev_items with
  | [] => total
  | item :: rest =>
      if negb (is_savfox_generated_item item) then total
      else trailing_tokens rest (isat_add total (estimate_item_token_count item))
  end.
Definition get_trailing_savfox_generated_items_tokens (m : ContextManager) : Z :=
  trailing_tokens (reverse (items m)) 0.

Definition get_total_token_usage (m : ContextManager) (server_reasoning_included : bool) : Z :=
  let last_tokens := match token_info m with
                     | Some info => total_tokens (last_token_usage info)
                     | None => 0
                     end in
  let trailing := get_trailing_savfox_generated_items_tokens m in
  if server_reasoning_included then isat_add last_tokens trailing
  else isat_add (isat_add last_tokens (get_non_last_reasoning_items_tokens m)) trailing.
End Tokens.

(** * Correctness *)

(** ** Recording *)

Definition recorded (item : ResponseItem) : bool := is_api_message item || is_ghost_snapshot item.

(** What an item becomes when it is recorded: only the text of an output may
    change, into its truncation at 1.2 times the policy. *)
Inductive stored (policy : TruncationPolicy) : ResponseItem → ResponseItem → Prop :=
| stored_fn c o t its :
    truncate_text (content o) (mul policy f64_1_2) = Some t →
    (match content_items o with
     | Some l => ∃ l', its = Some l' ∧
         truncate_function_output_items_with_policy l (mul policy f64_1_2) = Some l'
     | None => its = None
     end) →
    stored policy (FunctionCallOutput c o)
      (FunctionCallOutput c {| content := t; content_items := its; success := success o |})
| stored_custom c o t :
    truncate_text o (mul policy f64_1_2) = Some t →
    stored policy (CustomToolCallOutput c o) (CustomToolCallOutput c t)
| stored_same i : out_key i = None → stored policy i i.

(** Texts shorter than [isize::MAX] bytes, as every Rust string is. *)
Definition sized (i : ResponseItem) : Prop :=
  match i with
  | FunctionCallOutput _ o =>
      (zstr (content o) ≤ ISIZE_MAX)%Z ∧
      match content_items o with Some l => texts_bounded l | None => True end
  | CustomToolCallOutput _ o => (zstr o ≤ ISIZE_MAX)%Z
  | _ => True
  end.

Lemma scale_range n m : (0 ≤ scale n m ≤ USIZE_MAX)%Z.
Proof.
  unfold scale, f64_ceil_as_usize. destruct (SFmul _ _ _ _) as [|[]| |[] mant e];
    try (unfold USIZE_MAX; lia).
  assert (0 ≤ if (0 <=? e)%Z then Z.pos mant * 2 ^ e else - (- Z.pos mant / 2 ^ (- e)))%Z as H;
    [|unfold USIZE_MAX in *; lia].
  destruct (0 <=? e)%Z eqn:E.
  - apply Z.mul_nonneg_nonneg; [lia|]. apply Z.pow_nonneg. lia.
  - assert (- Z.pos mant / 2 ^ (- e) ≤ 0)%Z; [|lia]. apply Z.div_le_upper_bound; [|lia].
    apply Z.pow_pos_nonneg; lia.
Qed.

Lemma mul_valid p m : valid_policy (mul p m).
Proof. destruct p; cbn; apply scale_range. Qed.

Lemma process_item_stored item policy :
  sized item → ∃ item', process_item item policy = Some item' ∧ stored policy item item'.
Proof.
  intros Hs. pose proof (mul_valid policy f64_1_2) as Hv.
  destruct item as [| | | |c o| |c o| | | |]; cbn in *;
    try (eexists; split; [done|by constructor]).
  - destruct Hs as [Hs Hl]. destruct (truncate_text_total _ _ Hv Hs) as [t Ht]. rewrite Ht. cbn.
    destruct (content_items o) as [l|] eqn:El.
    + destruct (truncate_items_total _ _ Hv Hl) as [l' Hl']. rewrite Hl'. cbn.
      eexists. split; [done|]. constructor; [done|]. rewrite El. eauto.
    + eexists. split; [done|]. constructor; [done|]. by rewrite El.
  - destruct (truncate_text_total _ _ Hv Hs) as [t Ht]. rewrite Ht. cbn.
    eexists. split; [done|]. by constructor.
Qed.

Lemma stored_keys policy i i' :
  stored policy i i' → call_key i' = call_key i ∧ out_key i' = out_key i.
Proof. by intros []. Qed.

(** Recording items in the history never fails: the history grows at the
    end by the items that are API messages or snapshots, in order, each stored
    as it is except that the text of an output is truncated; the calls and the
    outputs the history holds are exactly extended by the recorded ones. *)
Theorem record_items_spec m l policy :
  Forall sized l →
  ∃ l', record_items m l policy = Some (with_items m (items m ++ l')) ∧
        Forall2 (stored policy) (filter (λ i, recorded i = true) l) l' ∧
        calls (items m ++ l') = calls (items m) ++ calls (filter (λ i, recorded i = true) l) ∧
        outs (items m ++ l') = outs (items m) ++ outs (filter (λ i, recorded i = true) l).
Proof.
  intros Hl.
  enough (∃ l', record_items m l policy = Some (with_items m (items m ++ l')) ∧
                Forall2 (stored policy) (filter (λ i, recorded i = true) l) l') as (l' & H1 & H2).
  { exists l'. split_and!; [done..| |]; unfold calls, outs; rewrite omap_app; f_equal; clear H1;
      induction H2 as [|i i' k k' [Hc Ho]%stored_keys _ IH]; cbn; rewrite ?Hc, ?Ho, ?IH; done. }
  revert m. induction Hl as [|i l Hi _ IH]; intros m.
  { exists []. rewrite app_nil_r. split; [by destruct m|constructor]. }
  cbn [record_items]. rewrite <-negb_orb. fold (recorded i).
  destruct (recorded i) eqn:E; cbn [negb].
  - rewrite filter_cons_True by done. destruct (process_item_stored i policy Hi) as (i' & -> & Hst).
    cbn.
    destruct (IH (with_items m (items m ++ [i']))) as (l' & -> & HF). exists (i' :: l').
    split; [|by constructor]. cbn. by rewrite <-(assoc_L (++)).
  - rewrite filter_cons_False by (by rewrite E). apply IH.
Qed.

Lemma record_items_spec_witness :
  let it := FunctionCallOutput §"c" {| content := §"ok"; content_items := None; success := None |} in
  let m := {| items := [FunctionCall None §"f" §"{}" §"c"]; token_info := None |} in
  Forall sized [it; Other] ∧
  ∃ l', record_items m [it; Other] (Bytes 100) = Some (with_items m (items m ++ l')) ∧
        outs (items m ++ l') = [(Fn, §"c")].
Proof.
  assert (Forall sized [FunctionCallOutput §"c"
    {| content := §"ok"; content_items := None; success := None |}; Other]) as Hs.
  { repeat constructor; by vm_compute. }
  split; [done|].
  destruct (record_items_spec {| items := [FunctionCall None §"f" §"{}" §"c"]; token_info := None |}
              _ (Bytes 100) Hs) as (l' & H1 & _ & _ & H2).
  exists l'. split; [done|]. by rewrite H2; vm_compute.
Defined.

(** ** Prompts *)

Lemma balanced_normalize debug l : balanced l → normalize_history debug l = Some l.
Proof.
  intros Hb%balanced_paired. unfold normalize_history.
  assert (∀ i, i ∈ l → completion l i = []) as Hc.
  { intros i Hi. unfold completion. destruct (call_key i) as [k|] eqn:E; [|done].
    rewrite decide_True; [done|]. apply Hb, elem_of_calls. eauto. }
  assert (completed l = l) as Hcl.
  { unfold completed. assert (∀ k, k ⊆ l → (k ≫= λ i, i :: completion l i) = k) as Hk; [|by apply Hk].
    intros k. induction k as [|i k IH]; intros Hk; [done|].
    rewrite bind_cons, IH, Hc by set_solver. done. }
  assert (Forall (has_call l) l) as Hh.
  { apply Forall_forall. intros i Hi. unfold has_call. destruct (out_key i) eqn:E; [|done].
    apply Hb, elem_of_outs. eauto. }
  rewrite ensure_total, Hcl.
  - cbn. rewrite remove_orphan_outputs_spec by (by right). by rewrite filter_all_id.
  - apply Forall_forall. intros i Hi. destruct debug; [|apply missing_output_of_release].
    apply not_eq_None_Some. intros Hm%missing_output_of_debug.
    rewrite Hc in Hm by done. by destruct i.
Qed.

Lemma no_ghost_keys l :
  calls (filter (λ i, is_ghost_snapshot i = false) l) = calls l ∧
  outs (filter (λ i, is_ghost_snapshot i = false) l) = outs l.
Proof.
  induction l as [|i l [IH1 IH2]]; [done|]. rewrite filter_cons, calls_cons, outs_cons.
  case_decide as H; [rewrite calls_cons, outs_cons, IH1, IH2; done|]. by destruct i.
Qed.

(** The prompt: it always exists in a release build, every call in it has
    its output and every output its call, and it holds no snapshot. *)
Theorem for_prompt_spec m :
  ∃ l, for_prompt false m = Some l ∧ paired l ∧
       Forall (λ i, is_ghost_snapshot i = false) l ∧
       filter (λ i, ¬ is_output i) l
       = filter (λ i, is_ghost_snapshot i = false) (filter (λ i, ¬ is_output i) (items m)).
Proof.
  unfold for_prompt. rewrite normalize_history_release. cbn. eexists. split; [done|]. split_and!.
  - pose proof (normal_paired (items m)) as Hp. intros k.
    destruct (no_ghost_keys (normal (items m))) as [-> ->]. apply Hp.
  - apply Forall_forall. by intros i [? _]%list_elem_of_filter.
  - rewrite <-(normal_non_outputs (items m)), !list_filter_filter. apply list_filter_iff. tauto.
Qed.

(** Dropping the oldest or the newest item with its counterpart keeps the
    history balanced (one output per call, ids unique), so that no build ever
    panics or repairs anything when it next makes a prompt. *)
Theorem remove_keeps_balanced debug m :
  balanced (items m) →
  let first := remove_first_item m in
  let last := snd (remove_last_item m) in
  balanced (items first) ∧ balanced (items last) ∧
  for_prompt debug first = Some (filter (λ i, is_ghost_snapshot i = false) (items first)) ∧
  for_prompt debug last = Some (filter (λ i, is_ghost_snapshot i = false) (items last)).
Proof.
  intros Hb first last.
  assert (balanced (items first)) as H1.
  { unfold first, remove_first_item. destruct (items m) as [|i rest] eqn:E; [by rewrite E|]. cbn.
    by apply (remove_corresponding_balanced (i :: rest)). }
  assert (balanced (items last)) as H2.
  { unfold last, remove_last_item. destruct (list.last (items m)) as [i|] eqn:E; [|done]. cbn.
    apply last_Some in E as [rest E]. rewrite E, length_app. cbn.
    rewrite take_app_le, take_ge by lia. apply (remove_corresponding_balanced (items m)); [done|].
    by rewrite E, Permutation_app_comm. }
  unfold for_prompt. by rewrite !balanced_normalize.
Qed.

Lemma remove_keeps_balanced_witness :
  let o := FunctionCallOutput §"c" {| content := §"ok"; content_items := None; success := None |} in
  let m := {| items := [FunctionCall None §"f" §"{}" §"c"; o; Other]; token_info := None |} in
  balanced (items m) ∧ for_prompt true (remove_first_item m) = Some [Other].
Proof.
  assert (balanced [FunctionCall None §"f" §"{}" §"c";
    FunctionCallOutput §"c" {| content := §"ok"; content_items := None; success := None |}; Other])
    as Hb.
  { split; [|done]. change (NoDup [(Fn, §"c")]). apply NoDup_singleton. }
  split; [exact Hb|].
  destruct (remove_keeps_balanced true {| items := _; token_info := None |} Hb) as (_ & _ & H & _).
  rewrite H. by vm_compute.
Defined.

(** ** Dropping user turns *)
Definition user_turns (l : list ResponseItem) : nat :=
  length (filter (λ i, is_user_turn_boundary i = true) l).

Lemma user_turns_cons i l :
  user_turns (i :: l) = if is_user_turn_boundary i then S (user_turns l) else user_turns l.
Proof.
  unfold user_turns. destruct (is_user_turn_boundary i) eqn:E.
  - by rewrite filter_cons_True.
  - rewrite filter_cons_False; [done|]. by rewrite E.
Qed.

Lemma length_user_positions idx l : length (user_positions_from idx l) = user_turns l.
Proof.
  revert idx. induction l as [|i l IH]; intros idx; [done|]. cbn [user_positions_from]. rewrite user_turns_cons.
  destruct (is_user_turn_boundary i); cbn [length]; by rewrite IH.
Qed.

Lemma nth_user_position idx l k :
  k < user_turns l →
  ∃ p, nth k (user_positions_from idx l) 0 = idx + p ∧ user_turns (take p l) = k ∧
       ∃ x, l !! p = Some x ∧ is_user_turn_boundary x = true.
Proof.
  revert idx k. induction l as [|i l IH]; intros idx k; [unfold user_turns; cbn; lia|].
  rewrite user_turns_cons. cbn [user_positions_from].
  destruct (is_user_turn_boundary i) eqn:E; intros Hk.
  - destruct k as [|k]; [exists 0; cbn; split_and!; [lia|done|by exists i]|].
    destruct (IH (S idx) k) as (p & H1 & H2 & H3); [lia|]. exists (S p).
    change (take (S p) (i :: l)) with (i :: take p l). cbn [nth].
    rewrite H1, user_turns_cons, E, H2. split_and!; [lia|done|exact H3].
  - destruct (IH (S idx) k) as (p & H1 & H2 & H3); [lia|]. exists (S p).
    change (take (S p) (i :: l)) with (i :: take p l).
    rewrite H1, user_turns_cons, E, H2. split_and!; [lia|done|exact H3].
Qed.

(** Rolling back [n] user turns cuts the history right before the [n]th
    user turn from the end (before the first one when there are fewer), and
    does nothing when [n = 0] or no user turn exists. *)
Theorem drop_last_n_user_turns_spec m n :
  ∃ dropped, items m = items (drop_last_n_user_turns m n) ++ dropped ∧
    token_info (drop_last_n_user_turns m n) = token_info m ∧
    user_turns dropped = n `min` user_turns (items m) ∧
    (dropped = [] ∨ ∃ x rest, dropped = x :: rest ∧ is_user_turn_boundary x = true).
Proof.
  destruct n as [|n]; [exists []; rewrite app_nil_r; split_and!; auto|].
  unfold drop_last_n_user_turns, user_message_positions. set (l := items m).
  pose proof (length_user_positions 0 l) as Hlen.
  destruct (user_positions_from 0 l) as [|p0 ps] eqn:Eps.
  { exists []. cbn in *. rewrite app_nil_r. split_and!; auto. by rewrite <-Hlen. }
  set (cut := if bool_decide _ then _ else _).
  set (k := user_turns l - S n).
  assert (cut = nth k (user_positions_from 0 l) 0) as Hcut.
  { unfold cut, k. rewrite Eps, <-Hlen. case_bool_decide as Hle; [|done].
    by replace (length (p0 :: ps) - S n) with 0 by lia. }
  destruct (nth_user_position 0 l k) as (p & Hp & Hk & x & Hx & Hb).
  { unfold k. rewrite <-Hlen. cbn. lia. }
  rewrite Hcut, Hp. cbn [items replace with_items token_info]. exists (drop p l). split_and!.
  - by rewrite take_drop.
  - done.
  - assert (user_turns l = user_turns (take p l) + user_turns (drop p l)) as Hs.
    { unfold user_turns. by rewrite <-length_app, <-filter_app, take_drop. }
    unfold k in Hk. lia.
  - right. exists x, (drop (S p) l). split; [|done]. by apply drop_S.
Qed.

(** ** Token totals *)
Section TokenLaws.
Context (to_json : ResponseItem → str).
Local Open Scope Z_scope.

Lemma estimate_nonneg i : 0 ≤ estimate_item_token_count to_json i.
Proof.
  assert (∀ n, 0 ≤ n → 0 ≤ i64_of (n / 4)) as H.
  { intros n Hn. unfold i64_of, I64_MAX. pose proof (Z.div_pos n 4). lia. }
  assert (∀ n, 0 ≤ n → 0 ≤ usat_add n (usat_sub 4 1)) as H2 by (intros; unfold_sat; lia).
  assert (∀ s, 0 ≤ estimate_reasoning_length s) as H3
    by (intros; unfold estimate_reasoning_length, usat_sub; lia).
  destruct i as [|? ? ? [c|]| | | | | | | | |]; cbn; try done;
    first [apply H, H2, H3 | apply H, H2, zstr_nonneg].
Qed.

Definition token_sum (l : list ResponseItem) : Z :=
  foldr (λ i n, estimate_item_token_count to_json i + n) 0 l.

Lemma token_sum_cons i l : token_sum (i :: l) = estimate_item_token_count to_json i + token_sum l.
Proof. done. Qed.

Lemma token_sum_nonneg l : 0 ≤ token_sum l.
Proof.
  induction l as [|i l IH]; [done|]. rewrite token_sum_cons. pose proof (estimate_nonneg i). lia.
Qed.

Lemma sum_tokens_spec l : sum_tokens to_json l = i64_clamp (token_sum l).
Proof.
  unfold sum_tokens. enough (∀ acc, 0 ≤ acc →
    foldl (λ acc item, isat_add acc (estimate_item_token_count to_json item)) (i64_clamp acc) l
    = i64_clamp (acc + token_sum l)) as H; [exact (H 0 (Z.le_refl 0))|].
  induction l as [|i l IH]; intros acc Hacc; cbn [foldl]; [by rewrite Z.add_0_r|].
  pose proof (estimate_nonneg i). rewrite isat_add_clamp, IH, token_sum_cons by lia. f_equal. lia.
Qed.

Lemma trailing_tokens_spec l acc :
  0 ≤ acc → trailing_tokens to_json l (i64_clamp acc)
            = i64_clamp (acc + token_sum (take_while is_savfox_generated_item l)).
Proof.
  revert acc. induction l as [|i l IH]; intros acc Hacc; cbn [trailing_tokens take_while];
    [by rewrite Z.add_0_r|].
  destruct (is_savfox_generated_item i); cbn [negb]; [|by rewrite Z.add_0_r].
  pose proof (estimate_nonneg i). rewrite isat_add_clamp, IH, token_sum_cons by lia. f_equal. lia.
Qed.
End TokenLaws.

(** The token total of a session stays within [i64] and is the exact sum of
    what the server last reported and the estimates of the items it has not
    seen (the outputs and developer messages at the end of the history, and,
    unless the server counts them, the encrypted reasoning before the last user
    message), clamped once at the width. *)
Theorem get_total_token_usage_spec to_json m included :
  let last_tokens := match token_info m with
                     | Some info => total_tokens (last_token_usage info) | None => 0%Z end in
  let trailing := take_while is_savfox_generated_item (reverse (items m)) in
  let reasoning := match rposition (has_role §"user") (items m) with
                   | Some i => filter (λ i, has_encrypted_content i = true) (take i (items m))
                   | None => [] end in
  (0 ≤ last_tokens ≤ I64_MAX)%Z →
  get_total_token_usage to_json m included
  = i64_clamp (last_tokens + (if included then 0 else token_sum to_json reasoning)
               + token_sum to_json trailing) ∧
  (last_tokens ≤ get_total_token_usage to_json m included ≤ I64_MAX)%Z.
Proof.
  intros last_tokens trailing reasoning Hlast.
  assert (∀ n, 0 ≤ n → i64_clamp (i64_clamp n) = i64_clamp n)%Z as Hcc by (intros; unfold_sat; lia).
  assert (get_trailing_savfox_generated_items_tokens to_json m
          = i64_clamp (token_sum to_json trailing)) as Ht.
  { exact (trailing_tokens_spec to_json (reverse (items m)) 0 (Z.le_refl 0)). }
  assert (get_non_last_reasoning_items_tokens to_json m = i64_clamp (token_sum to_json reasoning))
    as Hr.
  { unfold get_non_last_reasoning_items_tokens, reasoning. destruct (rposition _ _); [|done].
    apply sum_tokens_spec. }
  pose proof (token_sum_nonneg to_json trailing). pose proof (token_sum_nonneg to_json reasoning).
  unfold get_total_token_usage. fold last_tokens. rewrite Ht, Hr.
  destruct included; unfold_sat; lia.
Qed.

Lemma get_total_token_usage_spec_witness :
  let m := {| items := [CustomToolCallOutput §"c" §"x"];
              token_info := Some {| total_token_usage := total_only 5;
                                    last_token_usage := total_only 5;
                                    model_context_window := None |} |} in
  get_total_token_usage (λ _, §"12345") m true = 7%Z.
Proof.
  cbv zeta.
  destruct (get_total_token_usage_spec (λ _, §"12345")
    {| items := [CustomToolCallOutput §"c" §"x"];
       token_info := Some {| total_token_usage := total_only 5; last_token_usage := total_only 5;
                             model_context_window := None |} |} true) as [-> _].
  - unfold I64_MAX; cbn; lia.
  - by vm_compute.
Defined.

(** ** Images *)

(** [rposition] is the last index whose item satisfies the test. *)
Definition last_index (p : ResponseItem → bool) (l : list ResponseItem) (i : nat) : Prop :=
  ∃ x, l !! i = Some x ∧ p x = true ∧ ∀ j y, i < j → l !! j = Some y → p y = false.

Lemma rposition_Some p l i : rposition p l = Some i → last_index p l i.
Proof.
  unfold rposition. destruct (list_find _ _) as [[k x]|] eqn:E; cbn; [|done]. intros [= <-].
  apply list_find_Some in E as (Hk & Hp & Hlt).
  apply reverse_lookup_Some in Hk as [Hk Hlen]. exists x.
  replace (length l - 1 - k) with (length l - S k) by lia. split_and!; [done..|].
  intros j y Hj Hy. assert (j < length l) as Hjl by (by eapply lookup_lt_Some).
  specialize (Hlt (length l - S j) y). apply not_true_iff_false. apply Hlt; [|lia].
  apply reverse_lookup_Some. split; [|lia]. by replace (length l - S (length l - S j)) with j by lia.
Qed.

Lemma rposition_None p l : rposition p l = None → Forall (λ x, p x = false) l.
Proof.
  unfold rposition. destruct (list_find _ _) as [|] eqn:E; cbn; [done|]. intros _.
  apply list_find_None in E. apply Forall_reverse in E. rewrite reverse_involutive in E.
  eapply Forall_impl; [exact E|]. intros x Hx. by apply not_true_iff_false.
Qed.

Definition output_or_user (i : ResponseItem) : bool :=
  match i with FunctionCallOutput _ _ => true | _ => has_role §"user" i end.

(** The output whose images are replaced: the last item that is a function
    output or a user message, when it is an output that has images. *)
Definition last_turn_images (l : list ResponseItem) (i : nat) (c : str)
    (o : FunctionCallOutputPayload) (its : list FunctionCallOutputContentItem) : Prop :=
  last_index output_or_user l i ∧ l !! i = Some (FunctionCallOutput c o) ∧
  content_items o = Some its ∧ existsb is_image its = true.

Lemma last_index_unique p l i j : last_index p l i → last_index p l j → i = j.
Proof.
  intros (x & Hx & Px & Hi) (y & Hy & Py & Hj). destruct (decide (i = j)) as [|Hne]; [done|].
  destruct (decide (i < j)) as [H|H].
  - specialize (Hi j y H Hy). congruence.
  - specialize (Hj i x ltac:(lia) Hx). congruence.
Qed.

Lemma replace_image_none ph its : existsb is_image its = false → replace_image ph <$> its = its.
Proof.
  induction its as [|[t|u] its IH]; cbn; [done|..]; [|done]. intros H. f_equal. by apply IH.
Qed.

Lemma replaced_no_images ph its : existsb is_image (replace_image ph <$> its) = false.
Proof. by induction its as [|[t|u] its IH]. Qed.

(** Replacing the images of the last turn reports [true] exactly when the
    last function output or user message is an output with images; then that
    output alone changes, to one with the same id, text and status whose images
    became the placeholder, in place; otherwise the history is unchanged. *)
Theorem replace_last_turn_images_spec m ph :
  let '(replaced, m') := replace_last_turn_images m ph in
  (replaced = true ↔ ∃ i c o its, last_turn_images (items m) i c o its) ∧
  (replaced = false → items m' = items m) ∧
  token_info m' = token_info m ∧
  ∀ i c o its, last_turn_images (items m) i c o its →
    existsb is_image (replace_image ph <$> its) = false ∧
    items m' = <[i := FunctionCallOutput c {| content := content o;
                        content_items := Some (replace_image ph <$> its);
                        success := success o |}]> (items m).
Proof.
  unfold replace_last_turn_images. fold output_or_user.
  destruct (rposition output_or_user (items m)) as [i|] eqn:Er.
  2:{ apply rposition_None in Er. assert (∀ i c o its, ¬ last_turn_images (items m) i c o its) as Hn.
      { intros i c o its [(x & Hx & Px & _) _]. apply (Forall_lookup_1 _ _ _ _ Er) in Hx. congruence. }
      split_and!; [|done..|]; [split; [done|]; by intros (? & ? & ? & ? & ?%Hn)|].
      by intros ? ? ? ? ?%Hn. }
  apply rposition_Some in Er.
  assert (∀ j c o its, last_turn_images (items m) j c o its → j = i) as Hu.
  { intros j c o its [Hj _]. by eapply last_index_unique. }
  destruct (items m !! i) as [x|] eqn:Ei; [|by destruct Er as (? & ? & _); congruence].
  assert (∀ c o its, last_turn_images (items m) i c o its →
    x = FunctionCallOutput c o ∧ content_items o = Some its ∧ existsb is_image its = true) as Hx.
  { intros c o its (_ & H1 & H2 & H3). by simplify_eq. }
  destruct (match x with FunctionCallOutput c o =>
      match content_items o with Some its => Some (c, o, its) | None => None end | _ => None end)
    as [[[c o] its]|] eqn:Ec.
  - destruct x as [| | | |c' o'| | | | | |]; try done.
    destruct (content_items o') as [its'|] eqn:Eo; [|done]. simplify_eq.
    assert (existsb is_image its = false → (<[i:=FunctionCallOutput c
       {| content := content o; content_items := Some (replace_image ph <$> its);
          success := success o |}]> (items m)) = items m) as Hid.
    { intros Hf. rewrite replace_image_none, <-Eo by done. apply list_insert_id.
      rewrite Ei. by destruct o. }
    split_and!; [|by apply Hid|done|].
    + split; [intros Hi; by exists i, c, o, its|].
      intros (j & c' & o' & its' & H). assert (j = i) as -> by eauto.
      apply Hx in H as (? & ? & ?). by simplify_eq.
    + intros j c' o' its' H. assert (j = i) as -> by eauto.
      apply Hx in H as (? & ? & ?). simplify_eq. split; [apply replaced_no_images|done].
  - assert (∀ j c o its, ¬ last_turn_images (items m) j c o its) as Hn.
    { intros j c o its H. assert (j = i) as -> by eauto. apply Hx in H as (-> & H & _).
      by rewrite H in Ec. }
    assert ((match x with
      | FunctionCallOutput call_id output =>
          match content_items output with
          | Some l => (existsb is_image l, with_items m (<[i := FunctionCallOutput call_id
              {| content := content output; content_items := Some (replace_image ph <$> l);
                 success := success output |}]> (items m)))
          | None => (false, m)
          end
      | _ => (false, m)
      end) = (false, m)) as ->.
    { destruct x as [| | | |c' o'| | | | | |]; try done. by destruct (content_items o'). }
    split_and!; [|done..|]; [split; [done|]; by intros (? & ? & ? & ? & ?%Hn)|].
    by intros ? ? ? ? ?%Hn.
Qed.
