(* ===== verification/EventMapping.v ===== *)
(** * Items of a turn and items of the model's history
    ([core/src/event_mapping.rs], [core/src/web_search.rs],
    [protocol/src/user_input.rs], the parts of [protocol/src/items.rs] and
    [protocol/src/models.rs] that convert what the user typed into a message of
    the history and back). *)
From S2P Require Import Prelude RustStr MachInt Truncate Protocol Normalize History.

(** ** [user_input.rs] *)
Record ByteRange := { br_start : Z; br_end : Z }.
Record TextElement := { byte_range : ByteRange; placeholder_opt : option str }.

Inductive UserInput :=
| UText (text : str) (text_elements : list TextElement)
| UImage (image_url : str)
| ULocalImage (path : str)
| USkill (name path : str)
| UMention (name path : str).

(** [text.get(a..b)]: nothing when the range is reversed, out of bounds or cuts
    a character. *)
Definition str_get (s : str) (a b : Z) : option str :=
  if bool_decide (a ≤ b)%Z then s' ← slice_from a s; slice_to (b - a) s' else None.

Definition placeholder (e : TextElement) (text : str) : option str :=
  match placeholder_opt e with
  | Some p => Some p
  | None => str_get text (br_start (byte_range e)) (br_end (byte_range e))
  end.

(** [offset + n] on [usize]. *)
Definition uadd (debug : bool) (a b : Z) : option Z :=
  if bool_decide (a + b ≤ USIZE_MAX)%Z then Some (a + b)%Z
  else if debug then None else Some ((a + b) mod 2 ^ 64)%Z.

(** ** [items.rs] *)
Record UserMessageItem := { um_id : str; um_content : list UserInput }.
Inductive AgentMessageContent := AText (text : str).
Record AgentMessageItem := { am_id : str; am_content : list AgentMessageContent }.
Record ReasoningItem := { r_id : str; summary_text : list str; raw_content : list str }.
Record WebSearchItem := { ws_id : str; ws_query : str; ws_action : WebSearchAction }.

Inductive TurnItem :=
| TUserMessage (item : UserMessageItem)
| TAgentMessage (item : AgentMessageItem)
| TPlan (id text : str)
| TReasoning (item : ReasoningItem)
| TWebSearch (item : WebSearchItem)
| TImageView (id path : str)
| TContextCompaction (id : str).

Definition input_text (c : UserInput) : str :=
  match c with UText text _ => text | _ => [] end.
Definition message (u : UserMessageItem) : str := concat (input_text <$> um_content u).
Definition image_urls (u : UserMessageItem) : list str :=
  omap (λ c, match c with UImage url => Some url | _ => None end) (um_content u).
Definition local_image_paths (u : UserMessageItem) : list str :=
  omap (λ c, match c with ULocalImage p => Some p | _ => None end) (um_content u).

Section Elements.
Context (debug : bool).

Fixpoint rebase (offset : Z) (text : str) (elems : list TextElement)
    : option (list TextElement) :=
  match elems with
  | [] => Some []
  | e :: rest =>
      s ← uadd debug offset (br_start (byte_range e));
      t ← uadd debug offset (br_end (byte_range e));
      out ← rebase offset text rest;
      Some ({| byte_range := {| br_start := s; br_end := t |};
               placeholder_opt := placeholder e text |} :: out)
  end.

Fixpoint text_elements_from (offset : Z) (content : list UserInput) : option (list TextElement) :=
  match content with
  | [] => Some []
  | UText text elems :: rest =>
      here ← rebase offset text elems;
      offset' ← uadd debug offset (zstr text);
      out ← text_elements_from offset' rest;
      Some (here ++ out)
  | _ :: rest => text_elements_from offset rest
  end.
Definition text_elements (u : UserMessageItem) : option (list TextElement) :=
  text_elements_from 0 (um_content u).
End Elements.

Inductive LegacyEvent :=
| LUserMessage (msg : str) (images : option (list str)) (local_images : list str)
    (elements : list TextElement)
| LAgentMessage (msg : str)
| LAgentReasoning (text : str)
| LAgentReasoningRawContent (text : str)
| LWebSearchEnd (call_id query : str) (action : WebSearchAction)
| LViewImageToolCall (call_id path : str).

Definition user_as_legacy_event (debug : bool) (u : UserMessageItem) : option LegacyEvent :=
  elements ← text_elements debug u;
  Some (LUserMessage (message u) (Some (image_urls u)) (local_image_paths u) elements).
Definition agent_as_legacy_events (a : AgentMessageItem) : list LegacyEvent :=
  (λ '(AText t), LAgentMessage t) <$> am_content a.
Definition reasoning_as_legacy_events (r : ReasoningItem) (show_raw_agent_reasoning : bool)
    : list LegacyEvent :=
  (LAgentReasoning <$> summary_text r) ++
  (if show_raw_agent_reasoning then LAgentReasoningRawContent <$> raw_content r else []).
Definition web_as_legacy_event (w : WebSearchItem) : LegacyEvent :=
  LWebSearchEnd (ws_id w) (ws_query w) (ws_action w).

Definition item_id (i : TurnItem) : str :=
  match i with
  | TUserMessage u => um_id u
  | TAgentMessage a => am_id a
  | TPlan id _ | TImageView id _ | TContextCompaction id => id
  | TReasoning r => r_id r
  | TWebSearch w => ws_id w
  end.
Definition as_legacy_events (debug : bool) (i : TurnItem) (show_raw_agent_reasoning : bool)
    : option (list LegacyEvent) :=
  match i with
  | TUserMessage u => e ← user_as_legacy_event debug u; Some [e]
  | TAgentMessage a => Some (agent_as_legacy_events a)
  | TPlan _ _ | TContextCompaction _ => Some []
  | TWebSearch w => Some [web_as_legacy_event w]
  | TImageView id path => Some [LViewImageToolCall id path]
  | TReasoning r => Some (reasoning_as_legacy_events r show_raw_agent_reasoning)
  end.

(** ** [models.rs]: the tags around an image *)
Definition IMAGE_OPEN_TAG : str := §"<image>".
Definition IMAGE_CLOSE_TAG : str := §"</image>".
Definition LOCAL_IMAGE_OPEN_TAG_PREFIX : str := §"<image name=".
Definition LOCAL_IMAGE_OPEN_TAG_SUFFIX : str := §">".
Definition LOCAL_IMAGE_CLOSE_TAG : str := IMAGE_CLOSE_TAG.

Definition local_image_label_text (label_number : Z) : str :=
  §"[Image #" ++ show_uint label_number ++ §"]".
Definition local_image_open_tag_text (label_number : Z) : str :=
  LOCAL_IMAGE_OPEN_TAG_PREFIX ++ local_image_label_text label_number
  ++ LOCAL_IMAGE_OPEN_TAG_SUFFIX.
Definition is_local_image_open_tag_text (text : str) : bool :=
  match strip_prefix LOCAL_IMAGE_OPEN_TAG_PREFIX text with
  | Some rest => ends_with rest LOCAL_IMAGE_OPEN_TAG_SUFFIX
  | None => false
  end.
Definition is_image_close_tag_text (text : str) : bool := bool_decide (text = IMAGE_CLOSE_TAG).
Definition is_local_image_close_tag_text (text : str) : bool := is_image_close_tag_text text.
Definition is_image_open_tag_text (text : str) : bool := bool_decide (text = IMAGE_OPEN_TAG).

(** ** A user's input as a message of the history *)

(** What [load_and_resize_to_fit] makes of the file at a path: its data URL, or
    an error with its text. *)
Inductive LoadedImage :=
| ImageOk (data_url : str)
| ImageReadError (error : str)
| ImageInvalid (error : str)
| ImageOtherError (error : str).

Section Convert.
Context (load_and_resize_to_fit : str → LoadedImage) (mime_guess : str → option str).

Definition local_image_error_placeholder (path error : str) : ContentItem :=
  CInputText (§"Savfox could not read the local image at `" ++ path ++ §"`: " ++ error).
Definition invalid_image_error_placeholder (path error : str) : ContentItem :=
  CInputText (§"Image located at `" ++ path ++ §"` is invalid: " ++ error).
Definition unsupported_image_error_placeholder (path mime : str) : ContentItem :=
  CInputText (§"Savfox cannot attach image at `" ++ path ++ §"`: unsupported image format `"
              ++ mime ++ §"`.").

Definition local_image_content_items_with_label_number (path : str) (label_number : option Z)
    : list ContentItem :=
  match load_and_resize_to_fit path with
  | ImageOk url =>
      match label_number with
      | Some n => [CInputText (local_image_open_tag_text n); CInputImage url;
                   CInputText LOCAL_IMAGE_CLOSE_TAG]
      | None => [CInputImage url]
      end
  | ImageReadError err => [local_image_error_placeholder path err]
  | ImageInvalid err => [invalid_image_error_placeholder path err]
  | ImageOtherError _ =>
      match mime_guess path with
      | None => [local_image_error_placeholder path §"unsupported MIME type (unknown)"]
      | Some mime =>
          if negb (starts_with mime §"image/") then
            [local_image_error_placeholder path (§"unsupported MIME type `" ++ mime ++ §"`")]
          else [unsupported_image_error_placeholder path mime]
      end
  end.

(** [impl From<Vec<UserInput>> for ResponseInputItem], with the counter
    [image_index] of local images. *)
Fixpoint inputs_to_content (image_index : Z) (l : list UserInput) : list ContentItem :=
  match l with
  | [] => []
  | UText text _ :: rest => CInputText text :: inputs_to_content image_index rest
  | UImage url :: rest =>
      [CInputText IMAGE_OPEN_TAG; CInputImage url; CInputText IMAGE_CLOSE_TAG]
      ++ inputs_to_content image_index rest
  | ULocalImage path :: rest =>
      local_image_content_items_with_label_number path (Some (image_index + 1)%Z)
      ++ inputs_to_content (image_index + 1)%Z rest
  | USkill _ _ :: rest | UMention _ _ :: rest => inputs_to_content image_index rest
  end.
Definition from_user_input (l : list UserInput) : ResponseItem :=
  Message None §"user" (inputs_to_content 0 l) None None.
End Convert.

(** ** [web_search.rs] *)
Definition search_action_detail (query : option str) (queries : option (list str)) : str :=
  match query with
  | Some (_ :: _ as q) => q
  | _ =>
      let first := default [] (queries ≫= head) in
      let several := match queries with Some l => bool_decide (1 < length l) | None => false end in
      if several && negb (bool_decide (first = [])) then first ++ §" ..." else first
  end.
Definition web_search_action_detail (action : WebSearchAction) : str :=
  match action with
  | Search query queries => search_action_detail query queries
  | OpenPage url => default [] url
  | FindInPage (Some url) (Some pattern) => §"'" ++ pattern ++ §"' in " ++ url
  | FindInPage None (Some pattern) => §"'" ++ pattern ++ §"'"
  | FindInPage (Some url) None => url
  | FindInPage None None => []
  | WOther => []
  end.
Definition web_search_detail (action : option WebSearchAction) (query : str) : str :=
  let detail := default [] (web_search_action_detail <$> action) in
  if bool_decide (detail = []) then query else detail.

(** ** [event_mapping.rs] *)
Definition is_input_image (c : option ContentItem) : bool :=
  match c with Some (CInputImage _) => true | _ => false end.

Section Mapping.
(** The identifier [Uuid::new_v4()] draws. *)
Context (uuid : str).

(** The loop of [parse_user_message]: [before] is [message.get(idx - 1)] when
    [idx > 0]; the next item is the head of the rest. *)
Fixpoint parse_user_content (before : option ContentItem) (message : list ContentItem)
    : option (list UserInput) :=
  match message with
  | [] => Some []
  | item :: rest =>
      match item with
      | CInputText text =>
          if ((is_local_image_open_tag_text text || is_image_open_tag_text text)
              && is_input_image (head rest))
             || ((is_local_image_close_tag_text text || is_image_close_tag_text text)
                 && is_input_image before)
          then parse_user_content (Some item) rest
          else if is_session_prefix text || is_user_shell_command_text text then None
          else cons (UText text []) <$> parse_user_content (Some item) rest
      | CInputImage url => cons (UImage url) <$> parse_user_content (Some item) rest
      | COutputText text =>
          if is_session_prefix text then None else parse_user_content (Some item) rest
      end
  end.
Definition parse_user_message (message : list ContentItem) : option UserMessageItem :=
  if is_user_instructions message || is_skill_instructions message then None
  else content ← parse_user_content None message; Some {| um_id := uuid; um_content := content |}.

Definition parse_agent_message (id : option str) (message : list ContentItem) : AgentMessageItem :=
  {| am_id := default uuid id;
     am_content := omap (λ c, match c with COutputText t => Some (AText t) | _ => None end) message |}.

Definition parse_turn_item (item : ResponseItem) : option TurnItem :=
  match item with
  | Message id role content _ _ =>
      if bool_decide (role = §"user") then TUserMessage <$> parse_user_message content
      else if bool_decide (role = §"assistant") then
        Some (TAgentMessage (parse_agent_message id content))
      else None
  | Reasoning id summary content _ =>
      Some (TReasoning
        {| r_id := id;
           summary_text := (λ '(SummaryText t), t) <$> summary;
           raw_content := (λ c, match c with ReasoningText t | RText t => t end)
                          <$> default [] content |})
  | WebSearchCall id _ action =>
      let '(action, query) := match action with
                              | Some a => (a, web_search_action_detail a)
                              | None => (WOther, [])
                              end in
      Some (TWebSearch {| ws_id := default [] id; ws_query := query; ws_action := action |})
  | _ => None
  end.
End Mapping.

(** * Correctness *)

(** ** A tag around an image is never a session prefix *)

(** A text does not start with [p] when one of its characters differs. *)
Lemma starts_with_lookup_ne (s p : str) k x y :
  s !! k = Some x → p !! k = Some y → x ≠ y → starts_with s p = false.
Proof.
  intros Hs Hp Hne. destruct (starts_with s p) eqn:E; [|done].
  apply starts_with_true in E as [r ->]. rewrite lookup_app_l in Hs by (by eapply lookup_lt_Some).
  congruence.
Qed.

(** A text that starts with a visible character whose [k]th character is that of
    no marker is not special. *)
Lemma not_special (t : str) k x y :
  head t = Some x → is_whitespace x = false → t !! k = Some y →
  (∀ p, p ∈ [ENVIRONMENT_CONTEXT_OPEN_TAG; TURN_ABORTED_OPEN_TAG; USER_INSTRUCTIONS_OPEN_TAG;
             USER_SHELL_COMMAND_OPEN] → ∃ z, p !! k = Some z ∧ ascii_lower y ≠ z) →
  is_session_prefix t = false ∧ is_user_shell_command_text t = false.
Proof.
  intros Hx Hw Hy Hp. unfold is_session_prefix, is_user_shell_command_text, trim_start.
  destruct t as [|x' t]; [done|]. cbn in Hx. injection Hx as ->. cbn [drop_while]. rewrite Hw.
  assert (to_ascii_lowercase (x :: t) !! k = Some (ascii_lower y)) as Hk.
  { unfold to_ascii_lowercase. by rewrite list_lookup_fmap, Hy. }
  assert (∀ p, p ∈ [ENVIRONMENT_CONTEXT_OPEN_TAG; TURN_ABORTED_OPEN_TAG; USER_INSTRUCTIONS_OPEN_TAG;
             USER_SHELL_COMMAND_OPEN] → starts_with (to_ascii_lowercase (x :: t)) p = false) as H.
  { intros p Hin. destruct (Hp p Hin) as (z & Hz & Hne). by eapply starts_with_lookup_ne. }
  by rewrite !H by set_solver.
Qed.

Lemma open_tag_shape t :
  is_local_image_open_tag_text t || is_image_open_tag_text t = true →
  head t = Some 60%N ∧ t !! 1 = Some 105%N.
Proof.
  unfold is_local_image_open_tag_text, is_image_open_tag_text. intros [H|H]%orb_true_iff.
  - destruct (strip_prefix _ t) as [r|] eqn:E; [|done]. apply strip_prefix_Some in E. by subst.
  - apply bool_decide_eq_true in H. by subst.
Qed.
Lemma tag_not_special t :
  (is_local_image_open_tag_text t || is_image_open_tag_text t
   || (is_local_image_close_tag_text t || is_image_close_tag_text t)) = true →
  is_session_prefix t = false ∧ is_user_shell_command_text t = false.
Proof.
  intros [[H1 H2]%open_tag_shape|H]%orb_true_iff.
  { eapply (not_special t 1); [done..|]. intros p Hp. rewrite !elem_of_cons in Hp.
    destruct Hp as [->|[->|[->|[->|[]%not_elem_of_nil]]]]; by eexists. }
  unfold is_local_image_close_tag_text, is_image_close_tag_text in H. rewrite orb_diag in H.
  apply bool_decide_eq_true in H. subst. by vm_compute.
Qed.

Definition skipped_tag (before : option ContentItem) (text : str) (rest : list ContentItem) : bool :=
  ((is_local_image_open_tag_text text || is_image_open_tag_text text)
   && is_input_image (head rest))
  || ((is_local_image_close_tag_text text || is_image_close_tag_text text)
      && is_input_image before).

Lemma skipped_not_special before t rest :
  skipped_tag before t rest = true → is_session_prefix t || is_user_shell_command_text t = false.
Proof.
  unfold skipped_tag. intros H. destruct (tag_not_special t) as [-> ->]; [|done].
  apply orb_true_iff in H as [[-> _]%andb_true_iff|[-> _]%andb_true_iff]; [done|].
  by rewrite orb_true_r.
Qed.

Lemma parse_user_content_is_Some before l :
  is_Some (parse_user_content before l) ↔ existsb content_ends_turn l = false.
Proof.
  revert before. induction l as [|c l IH]; intros before; [cbn; naive_solver|].
  cbn [parse_user_content existsb]. rewrite orb_false_iff. destruct c as [t|u|t].
  - fold (skipped_tag before t l). cbn [content_ends_turn].
    destruct (skipped_tag before t l) eqn:E.
    + apply skipped_not_special in E. rewrite IH, E. naive_solver.
    + destruct (is_session_prefix t || is_user_shell_command_text t) eqn:Et.
      * split; [intros []|]; naive_solver.
      * rewrite fmap_is_Some, IH. naive_solver.
  - rewrite fmap_is_Some, IH. naive_solver.
  - cbn. destruct (is_session_prefix t); [split; [intros []|]; naive_solver|rewrite IH; naive_solver].
Qed.

(** What starts a turn: the history's test for a user turn
    ([is_user_turn_boundary], used by rollback) and the parser of turn items
    ([parse_turn_item], used by the interface and by compaction) agree on every
    item, although they are written independently. *)
Theorem boundary_is_user_message uuid item :
  is_user_turn_boundary item = true ↔ ∃ u, parse_turn_item uuid item = Some (TUserMessage u).
Proof.
  destruct item as [id role l e p| | | | | | | | | |]; cbn;
    repeat (destruct action as [w|]); try (split; [discriminate|intros [u Hu]; discriminate]).
  case_bool_decide as Hr; cbn; [subst|].
  2:{ case_bool_decide; split; try discriminate; intros [u Hu]; discriminate. }
  unfold parse_user_message. destruct (is_user_instructions l || is_skill_instructions l); cbn.
  { split; [done|]. intros [u Hu]; discriminate. }
  pose proof (parse_user_content_is_Some None l) as H.
  destruct (parse_user_content None l) as [c|]; cbn.
  - destruct H as [H _]. rewrite H by eauto. cbn. split; eauto.
  - destruct (existsb content_ends_turn l); cbn; [split; [done|intros [u Hu]; discriminate]|].
    destruct H as [_ H]. destruct (H eq_refl) as [? [=]].
Qed.

(** ** From an input to the history and back *)
Section RoundTrip.
Context (load : str → LoadedImage) (mime_guess : str → option str).

(** The input as the model, and later the interface, sees it. *)
Definition seen_image (path : str) : list UserInput :=
  (λ c, match c with CInputImage u => UImage u | CInputText t | COutputText t => UText t [] end)
  <$> local_image_content_items_with_label_number load mime_guess path None.
Definition seen (c : UserInput) : list UserInput :=
  match c with
  | UText t _ => [UText t []]
  | UImage u => [UImage u]
  | ULocalImage path => seen_image path
  | USkill _ _ | UMention _ _ => []
  end.
Definition hidden (c : UserInput) : bool :=
  match c with UText t _ => is_session_prefix t || is_user_shell_command_text t | _ => false end.

(** The contents of an input never start with a bare image. *)
Lemma inputs_head n l : is_input_image (head (inputs_to_content load mime_guess n l)) = false.
Proof.
  revert n. induction l as [|[| |p| |] l IH]; intros n; cbn; try done.
  unfold local_image_content_items_with_label_number. repeat case_match; done.
Qed.

Lemma open_tag_is_tag n : is_local_image_open_tag_text (local_image_open_tag_text n) = true.
Proof.
  unfold is_local_image_open_tag_text, local_image_open_tag_text. rewrite strip_prefix_app.
  apply ends_with_true. eauto.
Qed.

Lemma not_bracket_plain t c : head t = Some c → c ≠ 60%N → is_whitespace c = false →
  (65 ≤ c ≤ 90)%N →
  is_session_prefix t || is_user_shell_command_text t = false ∧
  ∀ before rest, skipped_tag before t rest = false.
Proof.
  destruct t as [|x t]; [done|]. intros [= ->] Hc Hw Hr. split.
  - destruct (not_special (c :: t) 0 c c) as [-> ->]; [done..| |done]. intros p Hp.
    assert (p !! 0 = Some 60%N) as ->.
    { rewrite !elem_of_cons in Hp.
      by destruct Hp as [->|[->|[->|[->|[]%not_elem_of_nil]]]]. }
    eexists. split; [done|]. unfold ascii_lower. repeat case_match; lia.
  - intros before rest. unfold skipped_tag, is_local_image_open_tag_text, is_image_open_tag_text,
      is_local_image_close_tag_text, is_image_close_tag_text.
    rewrite strip_prefix_head_ne; [|done|change (Some 60%N ≠ Some c); congruence].
    by rewrite !bool_decide_false by (intros E; apply (f_equal head) in E; injection E as E; by vm_compute in E).
Qed.

Lemma parse_local before n path rest :
  is_input_image before = false → is_input_image (head rest) = false →
  parse_user_content before
    (local_image_content_items_with_label_number load mime_guess path (Some n) ++ rest)
  = app (seen_image path) <$>
    parse_user_content (last (local_image_content_items_with_label_number load mime_guess path (Some n)))
      rest
  ∧ is_input_image (last (local_image_content_items_with_label_number load mime_guess path (Some n)))
    = false.
Proof.
  intros Hb Hr. unfold seen_image, local_image_content_items_with_label_number.
  assert (∀ t c, head t = Some c → c ≠ 60%N → is_whitespace c = false → (65 ≤ c ≤ 90)%N →
    parse_user_content before ([CInputText t] ++ rest)
    = app [UText t []] <$> parse_user_content (Some (CInputText t)) rest) as Hplain.
  { intros t c H1 H2 H3 H4. destruct (not_bracket_plain t c H1 H2 H3 H4) as [Hs Hk].
    cbn [app parse_user_content]. fold (skipped_tag before t rest). by rewrite Hk, Hs. }
  destruct (load path); repeat case_match; (split; [|done]);
    try (by eapply Hplain); cbn [app parse_user_content head is_input_image last fmap list_fmap].
  rewrite open_tag_is_tag. cbn [orb andb].
  unfold is_local_image_close_tag_text, is_image_close_tag_text.
  rewrite !bool_decide_true by done. rewrite !orb_true_r. cbn [orb andb].
  by destruct (parse_user_content _ rest).
Qed.

Lemma parse_inputs before n l :
  is_input_image before = false →
  parse_user_content before (inputs_to_content load mime_guess n l)
  = if existsb hidden l then None else Some (l ≫= seen).
Proof.
  revert before n. induction l as [|c l IH]; intros before n Hb; [done|].
  cbn [existsb]. destruct c as [t es|u|p|s p|s p]; cbn [inputs_to_content hidden].
  - cbn [parse_user_content]. rewrite inputs_head, Hb, !andb_false_r. cbn [orb].
    destruct (is_session_prefix t || is_user_shell_command_text t); [done|]. cbn [orb].
    rewrite IH by done. by destruct (existsb hidden l).
  - cbn [app parse_user_content head is_input_image]. unfold is_image_open_tag_text,
      is_local_image_close_tag_text, is_image_close_tag_text.
    rewrite !bool_decide_true by done. rewrite !orb_true_r. cbn [orb andb].
    rewrite IH by done. by destruct (existsb hidden l).
  - destruct (parse_local before (n + 1)%Z p (inputs_to_content load mime_guess (n + 1) l) Hb
                (inputs_head _ _)) as [-> Hl].
    rewrite IH by done. by destruct (existsb hidden l).
  - by rewrite IH.
  - by rewrite IH.
Qed.
End RoundTrip.

(** A round trip: what the user submits, stored as a message of the history
    and parsed back, is what was submitted - each text, each image, each local
    image as its data URL or as the text that says why it could not be attached,
    in order - except for skills, mentions and the spans inside texts; and it is
    hidden as a whole exactly when one of its texts carries the marker of a
    session prefix or of a user shell command, or is the instructions' text. *)
Theorem user_input_roundtrip load mime_guess uuid l :
  let content := inputs_to_content load mime_guess 0 l in
  parse_turn_item uuid (from_user_input load mime_guess l)
  = if is_user_instructions content || is_skill_instructions content || existsb hidden l then None
    else Some (TUserMessage {| um_id := uuid; um_content := l ≫= seen load mime_guess |}).
Proof.
  cbn. unfold parse_user_message. rewrite parse_inputs by done.
  destruct (is_user_instructions _ || is_skill_instructions _); [done|]. cbn [orb].
  by destruct (existsb hidden l).
Qed.

Example roundtrip_example :
  let load p := if bool_decide (p = §"/a.png") then ImageOk §"data:1" else ImageReadError §"gone" in
  parse_turn_item §"id" (from_user_input load (λ _, None)
    [UText §"see" []; ULocalImage §"/a.png"; USkill §"s" §"/s"; ULocalImage §"/b"; UImage §"u"])
  = Some (TUserMessage {| um_id := §"id"; um_content :=
      [UText §"see" []; UImage §"data:1";
       UText §"Savfox could not read the local image at `/b`: gone" []; UImage §"u"] |}).
Proof. by vm_compute. Qed.

(** ** The spans inside a message *)

Lemma slice_to_Some n s l : slice_to n s = Some l → ∃ r, s = l ++ r ∧ n = zstr l.
Proof.
  revert n l. induction s as [|c s IH]; intros n l; cbn [slice_to]; case_bool_decide as H0;
    try (intros [= <-]; eexists; split; [reflexivity|exact H0]); [done|].
  case_bool_decide; [|done]. intros (l' & Hl & ->)%fmap_Some.
  apply IH in Hl as (r & -> & Hn). exists r. split; [done|]. rewrite zstr_cons. lia.
Qed.
Lemma slice_from_Some n s r : slice_from n s = Some r → ∃ l, s = l ++ r ∧ n = zstr l.
Proof.
  revert n. induction s as [|c s IH]; intros n; cbn [slice_from]; case_bool_decide as H0;
    try (intros [= <-]; exists []; split; [reflexivity|exact H0]); [done|].
  case_bool_decide; [|done]. intros (l & -> & Hn)%IH. exists (c :: l). split; [done|].
  rewrite zstr_cons. lia.
Qed.

Lemma str_get_Some s a b x :
  str_get s a b = Some x ↔ ∃ l r, s = l ++ x ++ r ∧ a = zstr l ∧ b = (zstr l + zstr x)%Z.
Proof.
  unfold str_get. split.
  - case_bool_decide; [|done]. intros (s' & (l & -> & ->)%slice_from_Some & H')%bind_Some.
    apply slice_to_Some in H' as (r & -> & Hn). exists l, r. split_and!; [done..|lia].
  - intros (l & r & -> & -> & ->). rewrite bool_decide_true by (pose proof (zstr_nonneg x); lia).
    rewrite slice_from_app. cbn.
    replace (zstr l + zstr x - zstr l)%Z with (zstr x) by lia. apply slice_to_app.
Qed.

Definition elements_of (c : UserInput) : list (str * TextElement) :=
  match c with UText t elems => pair t <$> elems | _ => [] end.
Definition in_text (te : str * TextElement) : Prop :=
  is_Some (str_get te.1 (br_start (byte_range te.2)) (br_end (byte_range te.2))).
(** An element of the message covers the text the original covers in its chunk. *)
Definition covers_same (msg : str) (te : str * TextElement) (e : TextElement) : Prop :=
  str_get msg (br_start (byte_range e)) (br_end (byte_range e))
  = str_get te.1 (br_start (byte_range te.2)) (br_end (byte_range te.2))
  ∧ placeholder_opt e = placeholder te.2 te.1.

Lemma uadd_exact debug a b : (a + b ≤ USIZE_MAX)%Z → uadd debug a b = Some (a + b)%Z.
Proof. intros H. unfold uadd. by rewrite bool_decide_true. Qed.

Lemma rebase_spec debug p t q elems :
  (zstr (p ++ t ++ q) ≤ USIZE_MAX)%Z → Forall in_text (pair t <$> elems) →
  ∃ out, rebase debug (zstr p) t elems = Some out ∧
         Forall2 (covers_same (p ++ t ++ q)) (pair t <$> elems) out.
Proof.
  intros Hmax. induction elems as [|e elems IH]; intros Hin; [exists []; split; [done|constructor]|].
  apply Forall_cons in Hin as [[x Hx] Hin]. destruct (IH Hin) as (out & Ho & HF). cbn [rebase].
  cbn in Hx. pose proof Hx as (l & r & -> & Ha & Hb)%str_get_Some.
  rewrite !zstr_app in Hmax. pose proof (zstr_nonneg l). pose proof (zstr_nonneg r).
  pose proof (zstr_nonneg x). pose proof (zstr_nonneg q). pose proof (zstr_nonneg p).
  rewrite !uadd_exact by lia. cbn [mbind option_bind]. rewrite Ho.
  eexists. split; [done|]. constructor; [|done]. split; [|done]. cbn. rewrite Hx.
  apply str_get_Some. exists (p ++ l), (r ++ q). rewrite zstr_app, <-!(assoc_L (++)).
  split_and!; [done|lia..].
Qed.

Lemma text_elements_from_spec debug content p :
  (zstr (p ++ concat (input_text <$> content)) ≤ USIZE_MAX)%Z →
  Forall in_text (content ≫= elements_of) →
  ∃ out, text_elements_from debug (zstr p) content = Some out ∧
         Forall2 (covers_same (p ++ concat (input_text <$> content))) (content ≫= elements_of) out.
Proof.
  revert p. induction content as [|c content IH]; intros p Hmax Hin;
    [exists []; split; [done|constructor]|].
  destruct c as [t elems|u|path|s path|s path]; try (by apply IH).
  rewrite bind_cons in Hin |- *. apply Forall_app in Hin as [Hhere Hrest].
  cbn [fmap list_fmap concat input_text elements_of] in *.
  destruct (rebase_spec debug p t (concat (input_text <$> content)) elems Hmax Hhere)
    as (here & Hh & HF1).
  rewrite (assoc_L (++)) in Hmax.
  destruct (IH (p ++ t) Hmax Hrest) as (out & Ho & HF2).
  cbn [text_elements_from]. rewrite Hh. cbn [mbind option_bind].
  rewrite uadd_exact by (revert Hmax; rewrite !zstr_app;
    pose proof (zstr_nonneg (concat (input_text <$> content))); lia).
  cbn [mbind option_bind]. rewrite <-zstr_app, Ho. eexists. split; [done|].
  apply Forall2_app; [done|]. by rewrite (assoc_L (++)).
Qed.

(** Rebasing the spans of a user message: when every span lies in its text,
    no arithmetic overflows and each span of the message delimits in the joined
    text exactly the characters it delimited in its own text, with the
    placeholder shown for it. *)
Theorem text_elements_rebased debug u :
  (zstr (message u) ≤ USIZE_MAX)%Z →
  Forall in_text (um_content u ≫= elements_of) →
  ∃ out, text_elements debug u = Some out ∧
         Forall2 (covers_same (message u)) (um_content u ≫= elements_of) out.
Proof. intros Hm Hin. by apply (text_elements_from_spec debug (um_content u) []). Qed.

Lemma text_elements_rebased_witness :
  let el a b := {| byte_range := {| br_start := a; br_end := b |}; placeholder_opt := None |} in
  let u := {| um_id := §"u"; um_content :=
    [UText §"ab" [el 0%Z 1%Z]; UImage §"x"; UText §"cde" [el 1%Z 3%Z; el 0%Z 0%Z]] |} in
  (∃ out, text_elements true u = Some out ∧
          Forall2 (covers_same §"abcde") (um_content u ≫= elements_of) out) ∧
  (byte_range <$> default [] (text_elements true u))
  = [{| br_start := 0%Z; br_end := 1%Z |}; {| br_start := 3%Z; br_end := 5%Z |};
     {| br_start := 2%Z; br_end := 2%Z |}].
Proof.
  intros el u. split; [|by vm_compute]. apply (text_elements_rebased true u); [by vm_compute|].
  repeat (apply Forall_cons; split; [by eexists; vm_compute|]). apply Forall_nil. done.
Defined.
