(* ===== verification/Session.v ===== *)
(** * The state of a session, its events and its rollout
    ([core/src/state/session.rs], [core/src/savfox/event_pipeline.rs],
    [core/src/rollout/policy.rs], [core/src/agent/status.rs]; the event and
    rollout types of [protocol/src/protocol.rs]).

    A session keeps the history sent to the model, the token and rate-limit
    accounts shown to the client, and a rollout: the log from which the session
    is resumed. A function here takes the session and returns the session after
    it; [None] is a panic (an overflowing sum of a debug build). *)

From S2P Require Import Prelude RustStr MachInt Truncate Protocol Normalize History EventMapping.
From Stdlib Require Import Floats.SpecFloat.

(** ** Rate limits reported by the service *)
Record RateLimitWindow := {
  used_percent : spec_float; window_minutes : option Z; resets_at : option Z
}.
Record CreditsSnapshot := { has_credits : bool; unlimited : bool; balance : option str }.
Inductive PlanType := Free | Go | Plus | Pro | Team | Business | Enterprise | Edu | Unknown.
Record RateLimitSnapshot := {
  primary : option RateLimitWindow;
  secondary : option RateLimitWindow;
  credits : option CreditsSnapshot;
  plan_type : option PlanType;
}.

Definition merge_rate_limit_fields (previous : option RateLimitSnapshot)
    (snapshot : RateLimitSnapshot) : RateLimitSnapshot :=
  {| primary := primary snapshot; secondary := secondary snapshot;
     credits := match credits snapshot with
                | None => previous ≫= credits
                | c => c
                end;
     plan_type := match plan_type snapshot with
                  | None => previous ≫= plan_type
                  | p => p
                  end |}.

(** ** Events *)
Inductive TurnAbortReason := Interrupted | Replaced | ReviewEnded.
Definition abort_reason_debug (r : TurnAbortReason) : str :=
  match r with
  | Interrupted => §"Interrupted" | Replaced => §"Replaced" | ReviewEnded => §"ReviewEnded"
  end.

(** The variants of [EventMsg] that no modelled handler sends and that carry no
    state of the session: they are told apart only by whether they are deltas
    and whether they are persisted. *)
Inductive PlainEvent :=
| EnteredReviewMode | ExitedReviewMode
| ExecCommandOutputDelta | SessionConfigured | SessionNameUpdated
| McpToolCallBegin | McpToolCallEnd | ExecCommandBegin | TerminalInteraction
| ExecCommandEnd | ExecApprovalRequest | RequestUserInput | DynamicToolCallRequest
| ElicitationRequest | ApplyPatchApprovalRequest | PatchApplyBegin | PatchApplyEnd
| GetHistoryEntryResponse | McpListToolsResponse | McpStartupUpdate
| McpStartupComplete | ListCustomPromptsResponse | ListSkillsResponse | PlanUpdate
| DeprecationNotice | SkillsUpdateAvailable | CollabAgentSpawnBegin | CollabAgentSpawnEnd
| CollabAgentInteractionBegin | CollabAgentInteractionEnd | CollabWaitingBegin
| CollabWaitingEnd | CollabCloseBegin | CollabCloseEnd.

Inductive EventMsg :=
| EvError (message : str)
| EvWarning (message : str)
| EvSessionRolledBack (num_turns : Z)
| EvTurnStarted (model_context_window : option Z)
| EvTurnComplete (last_agent_message : option str)
| EvTokenCount (info : option TokenUsageInfo) (rate_limits : option RateLimitSnapshot)
| EvLegacy (event : LegacyEvent)
| EvWebSearchBegin (call_id : str)
| EvBackgroundEvent (message : str)
| EvUndoStarted (message : option str)
| EvUndoCompleted (success : bool) (message : option str)
| EvStreamError (message additional_details : str)
| EvTurnAborted (reason : TurnAbortReason)
| EvShutdownComplete
| EvRawResponseItem (item : ResponseItem)
| EvItemStarted (item : TurnItem)
| EvItemCompleted (item : TurnItem)
| EvPlain (event : PlainEvent)
| EvAgentMessageDelta (delta : str)
| EvAgentReasoningDelta (delta : str)
| EvAgentReasoningRawContentDelta (delta : str)
| EvAgentMessageContentDelta (item_id delta : str)
| EvReasoningContentDelta (item_id delta : str) (summary_index : Z)
| EvReasoningRawContentDelta (item_id delta : str) (content_index : Z)
| EvPlanDelta (item_id delta : str)
| EvAgentReasoningSectionBreak (item_id : str) (summary_index : Z)
| EvTurnDiff (unified_diff : str).

Definition is_streaming_delta_event (msg : EventMsg) : bool :=
  match msg with
  | EvAgentMessageDelta _ | EvAgentMessageContentDelta _ _ | EvAgentReasoningDelta _
  | EvAgentReasoningRawContentDelta _ | EvReasoningContentDelta _ _ _
  | EvReasoningRawContentDelta _ _ _ | EvPlanDelta _ _ | EvPlain ExecCommandOutputDelta => true
  | _ => false
  end.

(** [HasLegacyEvent for EventMsg]. *)
Definition event_legacy (debug : bool) (msg : EventMsg) (show_raw_agent_reasoning : bool)
    : option (list EventMsg) :=
  match msg with
  | EvItemStarted (TWebSearch w) => Some [EvWebSearchBegin (ws_id w)]
  | EvItemCompleted item =>
      map EvLegacy <$> as_legacy_events debug item show_raw_agent_reasoning
  | EvAgentMessageContentDelta _ delta => Some [EvAgentMessageDelta delta]
  | EvReasoningContentDelta _ delta _ => Some [EvAgentReasoningDelta delta]
  | EvReasoningRawContentDelta _ delta _ => Some [EvAgentReasoningRawContentDelta delta]
  | _ => Some []
  end.

Inductive AgentStatus :=
| PendingInit | Running | AgentCompleted (message : option str) | Errored (message : str)
| Shutdown | NotFound.
Definition agent_status_from_event (msg : EventMsg) : option AgentStatus :=
  match msg with
  | EvTurnStarted _ => Some Running
  | EvTurnComplete m => Some (AgentCompleted m)
  | EvTurnAborted r => Some (Errored (abort_reason_debug r))
  | EvError m => Some (Errored m)
  | EvShutdownComplete => Some Shutdown
  | _ => None
  end.

(** ** The rollout *)
Inductive RolloutItem :=
| RSessionMeta
| RResponseItem (item : ResponseItem)
| RCompacted (message : str) (replacement_history : option (list ResponseItem))
| RTurnContext (model : str)
| REventMsg (msg : EventMsg).

Definition should_persist_response_item (item : ResponseItem) : bool :=
  match item with
  | Message _ _ _ _ _ | Reasoning _ _ _ _ | LocalShellCall _ _ _ _ | FunctionCall _ _ _ _
  | FunctionCallOutput _ _ | CustomToolCall _ _ _ _ _ | CustomToolCallOutput _ _
  | WebSearchCall _ _ _ | GhostSnapshot _ | Compaction _ => true
  | Other => false
  end.
Definition should_persist_event_msg (ev : EventMsg) : bool :=
  match ev with
  | EvLegacy (LUserMessage _ _ _ _ | LAgentMessage _ | LAgentReasoning _
             | LAgentReasoningRawContent _)
  | EvTokenCount _ _ | EvPlain (EnteredReviewMode | ExitedReviewMode)
  | EvSessionRolledBack _ | EvUndoCompleted _ _ | EvTurnAborted _ => true
  | EvItemCompleted (TPlan _ _) => true
  | _ => false
  end.
Definition is_persisted_response_item (item : RolloutItem) : bool :=
  match item with
  | RResponseItem item => should_persist_response_item item
  | REventMsg ev => should_persist_event_msg ev
  | RCompacted _ _ | RTurnContext _ | RSessionMeta => true
  end.

(** ** The session *)
Record Session := {
  history : ContextManager;
  latest_rate_limits : option RateLimitSnapshot;
  server_reasoning_included : bool;
  initial_context_seeded : bool;
  agent_status : AgentStatus;
  rollout : list RolloutItem;   (* the items written to the rollout *)
  sent : list EventMsg;         (* the events sent to the client *)
}.

(** What a turn's handlers read of the session's configuration; the initial
    context is what [build_initial_context] returns. *)
Record TurnContext := {
  truncation_policy : TruncationPolicy;
  model : str;
  context_window : option Z;
  base_instructions : str;
  initial_context : list ResponseItem;
}.

Definition with_history (s : Session) (h : ContextManager) : Session :=
  {| history := h; latest_rate_limits := latest_rate_limits s;
     server_reasoning_included := server_reasoning_included s;
     initial_context_seeded := initial_context_seeded s; agent_status := agent_status s;
     rollout := rollout s; sent := sent s |}.
Definition set_rate_limits (s : Session) (snapshot : RateLimitSnapshot) : Session :=
  {| history := history s;
     latest_rate_limits := Some (merge_rate_limit_fields (latest_rate_limits s) snapshot);
     server_reasoning_included := server_reasoning_included s;
     initial_context_seeded := initial_context_seeded s; agent_status := agent_status s;
     rollout := rollout s; sent := sent s |}.
Definition set_server_reasoning_included (s : Session) (included : bool) : Session :=
  {| history := history s; latest_rate_limits := latest_rate_limits s;
     server_reasoning_included := included;
     initial_context_seeded := initial_context_seeded s; agent_status := agent_status s;
     rollout := rollout s; sent := sent s |}.
Definition set_seeded (s : Session) (seeded : bool) : Session :=
  {| history := history s; latest_rate_limits := latest_rate_limits s;
     server_reasoning_included := server_reasoning_included s;
     initial_context_seeded := seeded; agent_status := agent_status s;
     rollout := rollout s; sent := sent s |}.
Definition set_status (s : Session) (status : AgentStatus) : Session :=
  {| history := history s; latest_rate_limits := latest_rate_limits s;
     server_reasoning_included := server_reasoning_included s;
     initial_context_seeded := initial_context_seeded s; agent_status := status;
     rollout := rollout s; sent := sent s |}.
Definition with_log (s : Session) (items : list RolloutItem) (events : list EventMsg) : Session :=
  {| history := history s; latest_rate_limits := latest_rate_limits s;
     server_reasoning_included := server_reasoning_included s;
     initial_context_seeded := initial_context_seeded s; agent_status := agent_status s;
     rollout := rollout s ++ items; sent := sent s ++ events |}.

Definition replace_history (s : Session) (l : list ResponseItem) : Session :=
  with_history s (replace (history s) l).

(** ** The event pipeline *)
Section Pipeline.
(** [debug]: a debug build. [recording]: the session has a recorder. *)
Context (debug recording show_raw_agent_reasoning : bool).
(** [serde_json::to_string] of an item. *)
Context (to_json : ResponseItem → str).

Definition persist_rollout_items (s : Session) (items : list RolloutItem) : Session :=
  if recording then with_log s (filter (λ i, is_persisted_response_item i = true) items) [] else s.

Definition send_event_raw (s : Session) (msg : EventMsg) : Session :=
  let s := match agent_status_from_event msg with Some st => set_status s st | None => s end in
  let s := if is_streaming_delta_event msg then s else persist_rollout_items s [REventMsg msg] in
  with_log s [] [msg].

Definition send_event (s : Session) (msg : EventMsg) : option Session :=
  legacy ← event_legacy debug msg show_raw_agent_reasoning;
  Some (foldl send_event_raw (send_event_raw s msg) legacy).

Definition record_into_history (s : Session) (tc : TurnContext) (l : list ResponseItem)
    : option Session :=
  h ← record_items (history s) l (truncation_policy tc); Some (with_history s h).

Definition persist_rollout_response_items (s : Session) (l : list ResponseItem) : Session :=
  persist_rollout_items s (RResponseItem <$> l).

Fixpoint send_raw_response_items (s : Session) (l : list ResponseItem) : option Session :=
  match l with
  | [] => Some s
  | item :: rest => s ← send_event s (EvRawResponseItem item); send_raw_response_items s rest
  end.

Definition record_conversation_items (s : Session) (tc : TurnContext) (l : list ResponseItem)
    : option Session :=
  s ← record_into_history s tc l;
  send_raw_response_items (persist_rollout_response_items s l) l.

Definition emit_turn_item_started (s : Session) (item : TurnItem) : option Session :=
  send_event s (EvItemStarted item).
Definition emit_turn_item_completed (s : Session) (item : TurnItem) : option Session :=
  send_event s (EvItemCompleted item).

Definition record_model_warning (s : Session) (tc : TurnContext) (message : str) : option Session :=
  record_conversation_items s tc
    [Message None §"user" [CInputText (§"Warning: " ++ message)] None None].

Definition record_response_item_and_emit_turn_item (s : Session) (tc : TurnContext)
    (uuid : str) (item : ResponseItem) : option Session :=
  s ← record_conversation_items s tc [item];
  match parse_turn_item uuid item with
  | Some t => s ← emit_turn_item_started s t; emit_turn_item_completed s t
  | None => Some s
  end.

Definition record_user_prompt_and_emit_turn_item (s : Session) (tc : TurnContext)
    (uuid : str) (input : list UserInput) (item : ResponseItem) : option Session :=
  s ← record_conversation_items s tc [item];
  let t := TUserMessage {| um_id := uuid; um_content := input |} in
  s ← emit_turn_item_started s t;
  emit_turn_item_completed s t.

Definition notify_background_event (s : Session) (message : str) : option Session :=
  send_event s (EvBackgroundEvent message).
Definition notify_stream_error (s : Session) (message details : str) : option Session :=
  send_event s (EvStreamError message details).

(** *** Token accounts *)
Definition send_token_count_event (s : Session) : option Session :=
  send_event s (EvTokenCount (token_info (history s)) (latest_rate_limits s)).

Definition update_token_usage_info (s : Session) (tc : TurnContext) (usage : option TokenUsage)
    : option Session :=
  s ← match usage with
      | Some u => h ← update_token_info debug (history s) u (context_window tc);
                  Some (with_history s h)
      | None => Some s
      end;
  send_token_count_event s.

Definition update_rate_limits (s : Session) (snapshot : RateLimitSnapshot) : option Session :=
  send_token_count_event (set_rate_limits s snapshot).

Definition recompute_token_usage (s : Session) (tc : TurnContext) : option Session :=
  match estimate_token_count to_json (history s) (base_instructions tc) with
  | None => Some s
  | Some estimated =>
      let info := default {| total_token_usage := usage_default; last_token_usage := usage_default;
                             model_context_window := None |} (token_info (history s)) in
      let info :=
        {| total_token_usage := total_token_usage info;
           last_token_usage := total_only (Z.max estimated 0);
           model_context_window := match model_context_window info with
                                   | None => context_window tc
                                   | w => w
                                   end |} in
      send_token_count_event (with_history s (set_token_info (history s) (Some info)))
  end.

Definition set_total_tokens_full (s : Session) (tc : TurnContext) : option Session :=
  s ← match context_window tc with
      | Some w => h ← set_token_usage_full debug (history s) w; Some (with_history s h)
      | None => Some s
      end;
  send_token_count_event s.

Definition seed_initial_context_if_needed (s : Session) (tc : TurnContext) : option Session :=
  if initial_context_seeded s then Some s
  else record_conversation_items (set_seeded s true) tc (initial_context tc).
End Pipeline.

(** * Correctness *)

(** ** What the event pipeline leaves alone *)

(** Rollout items that a replay of the history ignores. *)
Definition inert (r : RolloutItem) : Prop :=
  match r with
  | RSessionMeta | RTurnContext _ => True
  | REventMsg (EvSessionRolledBack _) => False
  | REventMsg _ => True
  | RResponseItem _ | RCompacted _ _ => False
  end.

(** From [s] to [s'] the items of the history did not change and only inert items
    were written to the rollout. *)
Definition logs (s s' : Session) : Prop :=
  items (history s') = items (history s) ∧
  ∃ l, rollout s' = rollout s ++ l ∧ Forall inert l.

#[export] Instance logs_preorder : PreOrder logs.
Proof.
  split.
  - intros s. split; [done|]. exists []. by rewrite app_nil_r.
  - intros s1 s2 s3 [H1 (l1 & R1 & F1)] [H2 (l2 & R2 & F2)]. split; [congruence|].
    exists (l1 ++ l2). rewrite R2, R1, (assoc_L (++)). split; [done|]. by apply Forall_app.
Qed.

Definition is_rollback (msg : EventMsg) : bool :=
  match msg with EvSessionRolledBack _ => true | _ => false end.

Section Frames.
Context (debug recording raw : bool) (to_json : ResponseItem → str).

Lemma persist_inert s l : Forall inert l → logs s (persist_rollout_items recording s l).
Proof.
  intros Hl. unfold persist_rollout_items. destruct recording; [|done]. split; [done|].
  eexists. split; [done|]. apply Forall_forall. intros r [_ Hr]%list_elem_of_filter.
  by eapply Forall_forall in Hl.
Qed.

Lemma send_event_raw_logs s msg : is_rollback msg = false → logs s (send_event_raw recording s msg).
Proof.
  intros Hm. unfold send_event_raw.
  set (s1 := match agent_status_from_event msg with Some _ => _ | None => _ end).
  assert (logs s s1) as H1.
  { unfold s1. destruct (agent_status_from_event msg); [|done]. split; [done|].
    exists []. by rewrite app_nil_r. }
  assert (logs s1 (if is_streaming_delta_event msg then s1
                   else persist_rollout_items recording s1 [REventMsg msg])) as H2.
  { destruct (is_streaming_delta_event msg); [done|]. apply persist_inert.
    repeat constructor. by destruct msg. }
  etrans; [exact H1|]. etrans; [exact H2|]. split; [done|]. exists []. cbn. by rewrite app_nil_r.
Qed.

Lemma legacy_no_rollback msg l : event_legacy debug msg raw = Some l → Forall (λ m, is_rollback m = false) l.
Proof.
  destruct msg as [| | | | | | | | | | | | | | |item|item|pe| | | | | | | | |]; cbn; try (intros [= <-]; by repeat constructor).
  - destruct item; intros [= <-]; repeat constructor.
  - intros (k & _ & ->)%fmap_Some. apply Forall_forall. by intros m (x & -> & _)%list_elem_of_fmap.
Qed.

Lemma send_event_logs s msg s' :
  is_rollback msg = false → send_event debug recording raw s msg = Some s' → logs s s'.
Proof.
  intros Hm. unfold send_event. intros (l & Hl & [= <-])%bind_Some.
  apply legacy_no_rollback in Hl. transitivity (send_event_raw recording s msg);
    [by apply send_event_raw_logs|].
  generalize (send_event_raw recording s msg). clear s Hm.
  induction Hl as [|m l Hm _ IH]; intros s; [done|]. cbn. etrans; [|apply IH].
  by apply send_event_raw_logs.
Qed.

Lemma with_info_logs s h : items h = items (history s) → logs s (with_history s h).
Proof. intros Hh. split; [done|]. exists []. by rewrite app_nil_r. Qed.

Lemma update_token_usage_logs s tc u s' :
  update_token_usage_info debug recording raw s tc u = Some s' → logs s s'.
Proof.
  unfold update_token_usage_info. intros (s1 & H1 & H2)%bind_Some.
  transitivity s1; [|by eapply send_event_logs in H2].
  destruct u; [|by injection H1 as <-]. apply bind_Some in H1 as (h & Hh & [= <-]).
  apply with_info_logs. unfold update_token_info in Hh. by apply bind_Some in Hh as (? & _ & [= <-]).
Qed.

Lemma set_server_reasoning_logs s b : logs s (set_server_reasoning_included s b).
Proof. split; [done|]. exists []. by rewrite app_nil_r. Qed.
Lemma update_rate_limits_logs s snap s' :
  update_rate_limits debug recording raw s snap = Some s' → logs s s'.
Proof.
  unfold update_rate_limits. intros H. eapply send_event_logs in H; [|done].
  etrans; [|exact H]. split; [done|]. exists []. by rewrite app_nil_r.
Qed.

Lemma recompute_logs s tc s' :
  recompute_token_usage debug recording raw to_json s tc = Some s' → logs s s'.
Proof.
  unfold recompute_token_usage, estimate_token_count. cbv zeta iota. intros H. eapply send_event_logs in H; [|done].
  etrans; [|exact H]. by apply with_info_logs.
Qed.

Lemma set_total_tokens_full_logs s tc s' :
  set_total_tokens_full debug recording raw s tc = Some s' → logs s s'.
Proof.
  unfold set_total_tokens_full. intros (s1 & H1 & H2)%bind_Some.
  transitivity s1; [|by eapply send_event_logs in H2].
  destruct (context_window tc); [|by injection H1 as <-].
  apply bind_Some in H1 as (h & Hh & [= <-]). apply with_info_logs.
  unfold set_token_usage_full in Hh. by apply bind_Some in Hh as (? & _ & [= <-]).
Qed.
End Frames.

(** ** A release build never panics in the event pipeline *)
Section Release.
Context (recording raw : bool) (to_json : ResponseItem → str).

Lemma uadd_release a b : is_Some (uadd false a b).
Proof. unfold uadd. case_bool_decide; eauto. Qed.
Lemma rebase_release off t elems : is_Some (rebase false off t elems).
Proof.
  induction elems as [|e elems [out IH]]; cbn; [eauto|].
  destruct (uadd_release off (br_start (byte_range e))) as [? ->].
  destruct (uadd_release off (br_end (byte_range e))) as [? ->]. cbn. rewrite IH. eauto.
Qed.
Lemma text_elements_release u : is_Some (text_elements false u).
Proof.
  unfold text_elements. generalize 0%Z. induction (um_content u) as [|c l IH]; intros off; [cbn; eauto|].
  destruct c as [t es|?|?|? ?|? ?]; cbn [text_elements_from]; try apply IH.
  destruct (rebase_release off t es) as [? ->]. cbn [mbind option_bind].
  destruct (uadd_release off (zstr t)) as [off' ->]. cbn [mbind option_bind].
  destruct (IH off') as [? ->]. cbn. eauto.
Qed.

Lemma send_event_release s msg : is_Some (send_event false recording raw s msg).
Proof.
  unfold send_event. assert (is_Some (event_legacy false msg raw)) as [l ->]; [|cbn; eauto].
  destruct msg as [| | | | | | | | | | | | | | |item|item|pe| | | | | | | | |]; cbn; eauto.
  - destruct item; eauto.
  - destruct item as [u| | | | | |]; cbn; eauto. unfold user_as_legacy_event.
    destruct (text_elements_release u) as [? ->]. cbn. eauto.
Qed.

Lemma i64_arith_release z : is_Some (i64_arith false z).
Proof. unfold i64_arith. case_bool_decide; eauto. Qed.
Lemma append_release info last : is_Some (append_last_usage false info last).
Proof.
  unfold append_last_usage, add_assign.
  repeat match goal with
         | |- context [i64_arith false ?z] => destruct (i64_arith_release z) as [? ->]; cbn [mbind option_bind]
         end. eauto.
Qed.
Lemma new_or_append_release info last w : is_Some (new_or_append false info last w).
Proof.
  unfold new_or_append. destruct info, last; eauto;
    match goal with |- context [append_last_usage false ?i ?l] => destruct (append_release i l) as [? ->] end;
    cbn; eauto.
Qed.

Lemma update_token_usage_release s tc u :
  is_Some (update_token_usage_info false recording raw s tc u).
Proof.
  unfold update_token_usage_info, update_token_info. destruct u as [u|]; cbn [mbind option_bind].
  - destruct (new_or_append_release (token_info (history s)) (Some u) (context_window tc)) as [? ->].
    cbn [mbind option_bind]. apply send_event_release.
  - apply send_event_release.
Qed.
Lemma update_rate_limits_release s snap : is_Some (update_rate_limits false recording raw s snap).
Proof. apply send_event_release. Qed.
Lemma set_total_tokens_full_release s tc :
  is_Some (set_total_tokens_full false recording raw s tc).
Proof.
  unfold set_total_tokens_full, set_token_usage_full, full_context_window, fill_to_context_window.
  destruct (context_window tc); cbn [mbind option_bind]; [|apply send_event_release].
  destruct (token_info (history s));
    match goal with |- context [i64_arith false ?z] => destruct (i64_arith_release z) as [? ->] end;
    cbn [mbind option_bind]; apply send_event_release.
Qed.
Lemma recompute_release s tc :
  is_Some (recompute_token_usage false recording raw to_json s tc).
Proof.
  unfold recompute_token_usage, estimate_token_count. cbv zeta iota. apply send_event_release.
Qed.
End Release.

(** ** Recording *)
Lemma record_into_history_spec s tc l :
  Forall sized l →
  ∃ l' s', record_into_history s tc l = Some s' ∧ rollout s' = rollout s ∧
           items (history s') = items (history s) ++ l' ∧
           Forall2 (stored (truncation_policy tc)) (filter (λ i, recorded i = true) l) l'.
Proof.
  intros Hl. destruct (record_items_spec (history s) l (truncation_policy tc) Hl) as (l' & H1 & H2 & _).
  unfold record_into_history. rewrite H1. cbn. by eexists l', _.
Qed.
