(* ===== verification/ModelApi.v ===== *)
(** * What the model's service answers ([core/src/error.rs], [api-client/src/common.rs])

    The errors of the core, which of them may be retried and how they are shown,
    and the events of a response stream.  Of an error whose text depends on data
    that is not modelled the constructor keeps the displayed text. *)
From S2P Require Import Prelude RustStr Protocol EventMapping Session.

(** The variants of [SavfoxError] that no modelled handler tells apart except by
    whether they may be retried. *)
Inductive ErrorKind :=
| KSessionNotFound | KAgentLimitReached | KSessionConfiguredNotFirstEvent | KTimeout | KSpawn
| KUnexpectedStatus | KInvalidRequest | KModelCap | KResponseStreamFailed | KConnectionFailed
| KQuotaExceeded | KUsageNotIncluded | KInternalServerError | KRetryLimit | KInternalAgentDied
| KSandbox | KLandlockSandboxExecutableNotProvided | KUnsupportedOperation | KRefreshTokenFailed
| KIo | KJson | KLandlockRuleset | KLandlockPathFd | KTokioJoin | KEnvVar.

Inductive SavfoxError :=
| ErrInterrupted
| ErrContextWindowExceeded
| ErrStream (text : str)
| ErrTurnAborted
| ErrInvalidImageRequest
| ErrUsageLimitReached (display : str) (rate_limits : option RateLimitSnapshot)
| ErrFatal (message : str)
| ErrOther (kind : ErrorKind) (display : str).

(** [SavfoxError::is_retryable]. *)
Definition is_retryable (e : SavfoxError) : bool :=
  match e with
  | ErrTurnAborted | ErrInterrupted | ErrFatal _ | ErrInvalidImageRequest
  | ErrContextWindowExceeded | ErrUsageLimitReached _ _
  | ErrOther (KEnvVar | KUsageNotIncluded | KQuotaExceeded | KInvalidRequest | KRefreshTokenFailed
             | KUnsupportedOperation | KSandbox | KLandlockSandboxExecutableNotProvided | KRetryLimit
             | KSessionNotFound | KAgentLimitReached | KSpawn | KSessionConfiguredNotFirstEvent
             | KModelCap) _ => false
  | ErrStream _
  | ErrOther (KTimeout | KUnexpectedStatus | KResponseStreamFailed | KConnectionFailed
             | KInternalServerError | KInternalAgentDied | KIo | KJson | KTokioJoin) _ => true
  | ErrOther (KLandlockRuleset | KLandlockPathFd) _ => false
  end.

(** [SavfoxError::to_string]. *)
Definition error_text (e : SavfoxError) : str :=
  match e with
  | ErrInterrupted =>
      §"interrupted (Ctrl-C). Something went wrong? Hit `/feedback` to report the issue."
  | ErrContextWindowExceeded =>
      §"Savfox ran out of room in the model's context window. Start a new session or clear earlier history before retrying."
  | ErrStream t => §"stream disconnected before completion: " ++ t
  | ErrTurnAborted =>
      §"turn aborted. Something went wrong? Hit `/feedback` to report the issue."
  | ErrInvalidImageRequest => §"Image poisoning"
  | ErrFatal m => §"Fatal error: " ++ m
  | ErrUsageLimitReached d _ | ErrOther _ d => d
  end.
Definition to_error_event (e : SavfoxError) (message_prefix : option str) : EventMsg :=
  EvError (match message_prefix with
           | Some prefix => prefix ++ §": " ++ error_text e
           | None => error_text e
           end).

Inductive ResponseEvent :=
| Created
| OutputItemDone (item : ResponseItem)
| OutputItemAdded (item : ResponseItem)
| ServerReasoningIncluded (included : bool)
| ResponseCompleted (usage : option TokenUsage)
| OutputTextDelta (delta : str)
| ReasoningSummaryDelta (delta : str) (summary_index : Z)
| ReasoningContentDelta (delta : str) (content_index : Z)
| ReasoningSummaryPartAdded (summary_index : Z)
| RateLimits (snapshot : RateLimitSnapshot)
| ModelsEtag (etag : str).

(** What opening a stream gave, or the events it then produced. *)
Definition Stream := result SavfoxError (list (result SavfoxError ResponseEvent)).
Definition stream_closed : SavfoxError := ErrStream §"stream closed before response.completed".
