(* ===== verification/Compaction.v ===== *)
(** * Compaction of a session's history
    ([core/src/compact.rs], [core/src/compact_remote.rs], [core/src/tasks/compact.rs],
    [get_last_assistant_message_from_turn] of [core/src/savfox/tool_orchestrator.rs]).

    The model's service is an argument: [stream attempt prompt] is what the
    [attempt]th request of the task yields, the error that opening the stream
    gave or the events it produced. The time slept between attempts is not
    modelled. *)
From S2P Require Import Prelude RustStr MachInt Truncate Protocol Normalize History EventMapping Session ModelApi.

Definition SUMMARY_PREFIX : str := §"Another language model started to solve this problem and produced a summary of its thinking process. You also have access to the state of the tools that were used by that language model. Use this to build on the work that has already been done and avoid duplicating work. Here is the summary produced by the other language model, use the information in this summary to assist with your own analysis:".
Definition COMPACT_USER_MESSAGE_MAX_TOKENS : Z := 20000.

(** ** Reading the history *)
Definition text_piece (item : ContentItem) : option str :=
  match item with
  | CInputText text | COutputText text => if bool_decide (text = []) then None else Some text
  | CInputImage _ => None
  end.
Definition content_items_to_text (content : list ContentItem) : option str :=
  match omap text_piece content with
  | [] => None
  | pieces => Some (join [LF] pieces)
  end.

Definition collect_turn_aborted_marker (item : ResponseItem) : option str :=
  match item with
  | Message _ role content _ _ =>
      if negb (bool_decide (role = §"user")) then None
      else text ← content_items_to_text content;
           if starts_with (to_ascii_lowercase (trim_start text)) TURN_ABORTED_OPEN_TAG
           then Some text else None
  | _ => None
  end.

Definition is_summary_message (message : str) : bool :=
  starts_with message (SUMMARY_PREFIX ++ [LF]).

(** The identifier [parse_turn_item] draws is not used here. *)
Definition collect_user_message (item : ResponseItem) : option str :=
  match parse_turn_item [] item with
  | Some (TUserMessage user) =>
      if is_summary_message (message user) then None else Some (message user)
  | _ => collect_turn_aborted_marker item
  end.
Definition collect_user_messages (items : list ResponseItem) : list str :=
  omap collect_user_message items.

Definition output_text (c : ContentItem) : option str :=
  match c with COutputText text => Some text | _ => None end.
Definition assistant_text (item : ResponseItem) : option str :=
  match item with
  | Message _ role content _ _ =>
      if bool_decide (role = §"assistant") then head (omap output_text (reverse content)) else None
  | _ => None
  end.
Definition get_last_assistant_message_from_turn (responses : list ResponseItem) : option str :=
  head (omap assistant_text (reverse responses)).

(** ** The compacted history *)

(** The loop over the user's messages, newest first; [selected] is the vector
    before its reversal. A panic of the truncation would be [None]. *)
Fixpoint select_messages (remaining : Z) (rev_messages selected : list str) : option (list str) :=
  match rev_messages with
  | [] => Some selected
  | message :: rest =>
      if bool_decide (remaining = 0%Z) then Some selected
      else
        let tokens := approx_token_count message in
        if bool_decide (tokens ≤ remaining)%Z then
          select_messages (usat_sub remaining tokens) rest (selected ++ [message])
        else
          truncated ← truncate_text message (Tokens remaining);
          Some (selected ++ [truncated])
  end.

Definition user_text (text : str) : ResponseItem :=
  Message None §"user" [CInputText text] None None.

Definition build_compacted_history_with_limit (history : list ResponseItem)
    (user_messages : list str) (summary_text : str) (max_tokens : Z)
    : option (list ResponseItem) :=
  selected ← if bool_decide (0 < max_tokens)%Z
             then reverse <$> select_messages max_tokens (reverse user_messages) []
             else Some [];
  let summary_text := if bool_decide (summary_text = []) then §"(no summary available)"
                      else summary_text in
  Some (history ++ (user_text <$> selected) ++ [user_text summary_text]).
Definition build_compacted_history (initial_context : list ResponseItem)
    (user_messages : list str) (summary_text : str) : option (list ResponseItem) :=
  build_compacted_history_with_limit initial_context user_messages summary_text
    COMPACT_USER_MESSAGE_MAX_TOKENS.

Section Compaction.
Context (debug recording show_raw_agent_reasoning : bool) (to_json : ResponseItem → str).
#[local] Notation send_event := (send_event debug recording show_raw_agent_reasoning).
#[local] Notation persist_rollout_items := (persist_rollout_items recording).

Fixpoint drain_events (s : Session) (tc : TurnContext)
    (events : list (result SavfoxError ResponseEvent)) : option (Session * result SavfoxError unit) :=
  match events with
  | [] => Some (s, Err stream_closed)
  | Err e :: _ => Some (s, Err e)
  | Ok event :: rest =>
      match event with
      | OutputItemDone item => s ← record_into_history s tc [item]; drain_events s tc rest
      | ServerReasoningIncluded b => drain_events (set_server_reasoning_included s b) tc rest
      | RateLimits snapshot =>
          s ← update_rate_limits debug recording show_raw_agent_reasoning s snapshot;
          drain_events s tc rest
      | ResponseCompleted usage =>
          s ← update_token_usage_info debug recording show_raw_agent_reasoning s tc usage;
          Some (s, Ok tt)
      | _ => drain_events s tc rest
      end
  end.
Definition drain_to_completed (s : Session) (tc : TurnContext) (response : Stream)
    : option (Session * result SavfoxError unit) :=
  match response with
  | Err e => Some (s, Err e)
  | Ok events => drain_events s tc events
  end.

(** ** The task *)

(** The variables of the loop; [prompts] are the inputs sent so far. *)
Record LoopState := {
  ls_session : Session;
  ls_history : ContextManager;
  ls_truncated : Z;
  ls_retries : Z;
  ls_prompts : list (list ResponseItem);
}.
(** What an iteration ends with. *)
Inductive Flow := Continue (l : LoopState) | Break (l : LoopState) | Return (l : LoopState).
Inductive LoopExit := OutOfFuel | Broke (l : LoopState) | Returned (l : LoopState).

(** The state after an attempt that sent [prompt] and left the session [s]. *)
Definition attempted (l : LoopState) (s : Session) (prompt : list ResponseItem) : LoopState :=
  {| ls_session := s; ls_history := ls_history l; ls_truncated := ls_truncated l;
     ls_retries := ls_retries l; ls_prompts := ls_prompts l ++ [prompt] |}.

Context (max_retries : Z) (stream : nat → list ResponseItem → Stream).

Definition trimmed_notice (n : Z) : str :=
  §"Trimmed " ++ show_uint n ++ §" older session item(s) before compacting so the prompt fits the model context window.".
Definition reconnecting_notice (retries : Z) : str :=
  §"Reconnecting... " ++ show_uint retries ++ §"/" ++ show_uint max_retries.

(** The body of the [loop]. *)
Definition attempt (tc : TurnContext) (l : LoopState) : option Flow :=
  turn_input ← for_prompt debug (ls_history l);
  '(s, attempt_result) ←
    drain_to_completed (ls_session l) tc (stream (length (ls_prompts l)) turn_input);
  match attempt_result with
  | Ok _ =>
      s ← if bool_decide (0 < ls_truncated l)%Z
          then notify_background_event debug recording show_raw_agent_reasoning s
                 (trimmed_notice (ls_truncated l))
          else Some s;
      Some (Break (attempted l s turn_input))
  | Err ErrInterrupted => Some (Return (attempted l s turn_input))
  | Err ErrContextWindowExceeded =>
      if bool_decide (1 < length turn_input) then
        Some (Continue {| ls_session := s; ls_history := remove_first_item (ls_history l);
                          ls_truncated := ls_truncated l + 1; ls_retries := 0;
                          ls_prompts := ls_prompts l ++ [turn_input] |})
      else
        s ← set_total_tokens_full debug recording show_raw_agent_reasoning s tc;
        s ← send_event s (to_error_event ErrContextWindowExceeded None);
        Some (Return (attempted l s turn_input))
  | Err e =>
      if bool_decide (ls_retries l < max_retries)%Z then
        s ← notify_stream_error debug recording show_raw_agent_reasoning s
              (reconnecting_notice (ls_retries l + 1)) (error_text e);
        Some (Continue {| ls_session := s; ls_history := ls_history l;
                          ls_truncated := ls_truncated l; ls_retries := ls_retries l + 1;
                          ls_prompts := ls_prompts l ++ [turn_input] |})
      else
        s ← send_event s (to_error_event e None);
        Some (Return (attempted l s turn_input))
  end.

Fixpoint compact_loop (fuel : nat) (tc : TurnContext) (l : LoopState) : option LoopExit :=
  match fuel with
  | 0 => Some OutOfFuel
  | S fuel =>
      flow ← attempt tc l;
      match flow with
      | Continue l => compact_loop fuel tc l
      | Break l => Some (Broke l)
      | Return l => Some (Returned l)
      end
  end.

Definition LONG_SESSION_WARNING : str := §"Heads up: Long sessions and multiple compactions can cause the model to be less accurate. Start a new session when possible to keep sessions small and targeted.".

Definition summary_of (history_items : list ResponseItem) : str :=
  SUMMARY_PREFIX ++ [LF] ++ default [] (get_last_assistant_message_from_turn history_items).
Definition ghost_snapshots (l : list ResponseItem) : list ResponseItem :=
  filter (λ i, is_ghost_snapshot i = true) l.

(** What follows the loop of [run_compact_task_inner] when it broke. *)
Definition finish_compaction (s : Session) (tc : TurnContext) (uuid : str) : option Session :=
  let history_items := items (history s) in
  let summary_text := summary_of history_items in
  let user_messages := collect_user_messages history_items in
  new_history ← build_compacted_history (initial_context tc) user_messages summary_text;
  let s := replace_history s (new_history ++ ghost_snapshots history_items) in
  s ← recompute_token_usage debug recording show_raw_agent_reasoning to_json s tc;
  let s := persist_rollout_items s [RCompacted summary_text None] in
  s ← emit_turn_item_completed debug recording show_raw_agent_reasoning s (TContextCompaction uuid);
  send_event s (EvWarning LONG_SESSION_WARNING).

Inductive TaskExit := TaskOutOfFuel | TaskCompacted (s : Session) | TaskGaveUp (s : Session).

(** [input] is the contents of the prompt that asks for the summary. *)
Definition run_compact_task_inner (fuel : nat) (s : Session) (tc : TurnContext) (uuid : str)
    (input : list ContentItem) : option (TaskExit * list (list ResponseItem)) :=
  s ← emit_turn_item_started debug recording show_raw_agent_reasoning s (TContextCompaction uuid);
  h ← record_items (history s) [Message None §"user" input None None] (truncation_policy tc);
  let s := persist_rollout_items s [RTurnContext (model tc)] in
  exit ← compact_loop fuel tc {| ls_session := s; ls_history := h; ls_truncated := 0;
                                 ls_retries := 0; ls_prompts := [] |};
  match exit with
  | OutOfFuel => Some (TaskOutOfFuel, [])
  | Returned l => Some (TaskGaveUp (ls_session l), ls_prompts l)
  | Broke l => s ← finish_compaction (ls_session l) tc uuid; Some (TaskCompacted s, ls_prompts l)
  end.
Definition run_compact_task (fuel : nat) (s : Session) (tc : TurnContext) (uuid : str)
    (input : list ContentItem) : option (TaskExit * list (list ResponseItem)) :=
  s ← send_event s (EvTurnStarted (context_window tc));
  run_compact_task_inner fuel s tc uuid input.

(** ** Remote compaction *)
Context (compact_conversation_history :
           list ResponseItem → result SavfoxError (list ResponseItem)).

(** The [while] loop; the fuel bounds its iterations. *)
Fixpoint trim_loop (fuel : nat) (h : ContextManager) (tc : TurnContext) (window : Z)
    (deleted_items : nat) : option (nat * ContextManager) :=
  let over := match estimate_token_count to_json h (base_instructions tc) with
              | Some estimated => bool_decide (window < estimated)%Z
              | None => false
              end in
  if negb over then Some (deleted_items, h)
  else match last (items h) with
       | None => Some (deleted_items, h)
       | Some last_item =>
           if negb (is_savfox_generated_item last_item) then Some (deleted_items, h)
           else
             let '(removed, h') := remove_last_item h in
             if negb removed then Some (deleted_items, h')
             else match fuel with
                  | 0 => None
                  | S fuel => trim_loop fuel h' tc window (S deleted_items)
                  end
       end.
Definition trim_function_call_history_to_fit_context_window (h : ContextManager)
    (tc : TurnContext) : option (nat * ContextManager) :=
  match context_window tc with
  | None => Some (0, h)
  | Some window => trim_loop (length (items h)) h tc window 0
  end.

Definition run_remote_compact_task_inner_impl (s : Session) (tc : TurnContext) (uuid : str)
    : option (Session * result SavfoxError unit) :=
  s ← emit_turn_item_started debug recording show_raw_agent_reasoning s (TContextCompaction uuid);
  '(_, h) ← trim_function_call_history_to_fit_context_window (history s) tc;
  let ghosts := ghost_snapshots (items h) in
  prompt ← for_prompt debug h;
  match compact_conversation_history prompt with
  | Err e => Some (s, Err e)
  | Ok new_history =>
      let new_history := new_history ++ ghosts in
      let s := replace_history s new_history in
      s ← recompute_token_usage debug recording show_raw_agent_reasoning to_json s tc;
      let s := persist_rollout_items s [RCompacted [] (Some new_history)] in
      s ← emit_turn_item_completed debug recording show_raw_agent_reasoning s
            (TContextCompaction uuid);
      Some (s, Ok tt)
  end.
Definition run_remote_compact_task_inner (s : Session) (tc : TurnContext) (uuid : str)
    : option Session :=
  '(s, r) ← run_remote_compact_task_inner_impl s tc uuid;
  match r with
  | Ok _ => Some s
  | Err e => send_event s (to_error_event e (Some §"Error running remote compact task"))
  end.
Definition run_remote_compact_task (s : Session) (tc : TurnContext) (uuid : str)
    : option Session :=
  s ← send_event s (EvTurnStarted (context_window tc));
  run_remote_compact_task_inner s tc uuid.

Definition should_use_remote_compact_task (provider_is_openai remote_compaction_enabled : bool)
    : bool := provider_is_openai && remote_compaction_enabled.

(** [run_auto_compact] of a turn, and the task of [/compact]. *)
Definition run_auto_compact (fuel : nat) (remote : bool) (s : Session) (tc : TurnContext)
    (uuid compact_prompt : str) : option Session :=
  if remote then run_remote_compact_task_inner s tc uuid
  else
    '(exit, _) ← run_compact_task_inner fuel s tc uuid [CInputText compact_prompt];
    match exit with TaskOutOfFuel => None | TaskCompacted s | TaskGaveUp s => Some s end.
End Compaction.

(** * Correctness *)

(** ** The messages that are kept *)
Section Selection.
Local Open Scope Z_scope.

Definition tokens_of (l : list str) : Z := foldr (λ m acc, approx_token_count m + acc) 0 l.
Lemma tokens_of_app l k : tokens_of (l ++ k) = tokens_of l + tokens_of k.
Proof. induction l as [|m l IH]; cbn; [done|]. fold (tokens_of (l ++ k)) (tokens_of l). lia. Qed.
Lemma tokens_of_reverse l : tokens_of (reverse l) = tokens_of l.
Proof.
  induction l as [|m l IH]; [done|]. rewrite reverse_cons, tokens_of_app, IH. cbn.
  fold (tokens_of l). lia.
Qed.

Lemma approx_token_count_nonneg m : 0 ≤ approx_token_count m.
Proof.
  unfold approx_token_count, usat_add, usat_sub, APPROX_BYTES_PER_TOKEN, USIZE_MAX.
  pose proof (zstr_nonneg m). apply Z.div_pos; lia.
Qed.
Lemma tokens_of_nonneg l : 0 ≤ tokens_of l.
Proof.
  induction l as [|m l IH]; cbn; [done|]. fold (tokens_of l).
  pose proof (approx_token_count_nonneg m). lia.
Qed.

(** What is kept of the messages [ms] (newest first) with a budget of [budget]
    tokens: the newest ones that fit as a whole, then, when something is left of
    the budget, the next one cut to it. *)
Inductive kept (budget : Z) (ms : list str) : list str → Prop :=
| kept_all : tokens_of ms ≤ budget → kept budget ms ms
| kept_full whole rest : ms = whole ++ rest → tokens_of whole = budget → kept budget ms whole
| kept_cut whole m rest t :
    ms = whole ++ m :: rest →
    tokens_of whole < budget < tokens_of whole + approx_token_count m →
    truncate_text m (Tokens (budget - tokens_of whole)) = Some t →
    kept budget ms (whole ++ [t]).

Lemma kept_cons budget m ms out :
  approx_token_count m ≤ budget → kept (budget - approx_token_count m) ms out →
  kept budget (m :: ms) (m :: out).
Proof.
  intros Hm [H|whole rest -> H|whole m' rest t -> H Ht].
  - apply kept_all. cbn. fold (tokens_of ms). lia.
  - apply (kept_full _ _ (m :: whole) rest); [done|]. cbn. fold (tokens_of whole). lia.
  - apply (kept_cut _ _ (m :: whole) m' rest); [done|cbn; fold (tokens_of whole); lia|].
    cbn. fold (tokens_of whole).
    by replace (budget - (approx_token_count m + tokens_of whole))
      with (budget - approx_token_count m - tokens_of whole) by lia.
Qed.

Lemma select_messages_spec budget ms sel :
  0 ≤ budget ≤ USIZE_MAX → Forall (λ m, zstr m ≤ ISIZE_MAX) ms →
  ∃ out, select_messages budget ms sel = Some (sel ++ out) ∧ kept budget ms out.
Proof.
  intros Hb Hms. revert budget sel Hb.
  induction Hms as [|m ms Hm _ IH]; intros budget sel Hb; cbn [select_messages].
  { exists []. rewrite app_nil_r. split; [done|]. apply kept_all. cbn. lia. }
  case_bool_decide as H0; [subst|].
  { exists []. rewrite app_nil_r. split; [done|]. by apply (kept_full _ _ [] (m :: ms)). }
  pose proof (approx_token_count_nonneg m). case_bool_decide as Hfit.
  - rewrite usat_sub_exact by done.
    destruct (IH (budget - approx_token_count m) (sel ++ [m])) as (out & -> & Hk); [lia|].
    exists (m :: out). rewrite <-(assoc_L (++)). split; [done|]. by apply kept_cons.
  - destruct (truncate_text_total m (Tokens budget)) as [t Ht]; [cbn; lia|done|].
    rewrite Ht. cbn. exists [t]. split; [done|].
    apply (kept_cut _ _ [] m ms t); [done|cbn; lia|]. cbn. by rewrite Z.sub_0_r.
Qed.
End Selection.

Lemma build_spec ctx msgs summary :
  Forall (λ m, zstr m ≤ ISIZE_MAX)%Z msgs → summary ≠ [] →
  ∃ out, build_compacted_history ctx msgs summary
         = Some (ctx ++ (user_text <$> reverse out) ++ [user_text summary]) ∧
         kept COMPACT_USER_MESSAGE_MAX_TOKENS (reverse msgs) out.
Proof.
  intros Hm Hs. unfold build_compacted_history, build_compacted_history_with_limit.
  rewrite (bool_decide_true (0 < _)%Z) by done.
  destruct (select_messages_spec COMPACT_USER_MESSAGE_MAX_TOKENS (reverse msgs) [])
    as (out & -> & Hk); [done|by apply Forall_reverse|].
  cbn [fmap option_fmap option_map mbind option_bind app].
  rewrite bool_decide_false by done. by exists out.
Qed.

(** ** Summaries *)
Definition is_summary_item (item : ResponseItem) : bool :=
  match parse_turn_item [] item with
  | Some (TUserMessage u) => is_summary_message (message u)
  | _ => false
  end.

Lemma ellipsis_not_in_prefix : ELLIPSIS ∉ SUMMARY_PREFIX ++ [LF].
Proof. apply (bool_decide_unpack _). by vm_compute. Qed.

Lemma starts_with_head_ne (s p : str) c d :
  head s = Some c → head p = Some d → c ≠ d → starts_with s p = false.
Proof.
  intros Hs Hp Hne. apply (starts_with_lookup_ne s p 0 c d); [by destruct s|by destruct p|done].
Qed.

Lemma parse_user_text uuid t u :
  parse_turn_item uuid (user_text t) = Some (TUserMessage u) → message u = t.
Proof.
  cbn. unfold parse_user_message. destruct (_ || _); [done|]. cbn. rewrite !andb_false_r. cbn.
  destruct (_ || _); [done|]. cbn. intros [= <-]. cbn. apply app_nil_r.
Qed.
Lemma parse_capital_text uuid t c :
  head t = Some c → (65 ≤ c ≤ 90)%N →
  parse_turn_item uuid (user_text t) = Some (TUserMessage {| um_id := uuid; um_content := [UText t []] |}).
Proof.
  intros Hc Hr. cbn. unfold parse_user_message, is_user_instructions, is_skill_instructions.
  rewrite (starts_with_head_ne t USER_INSTRUCTIONS_PREFIX c 35%N Hc eq_refl) by (intros ->; lia).
  rewrite (starts_with_head_ne t SKILL_INSTRUCTIONS_PREFIX c 60%N Hc eq_refl) by (intros ->; lia).
  assert (is_whitespace c = false) as Hw.
  { apply not_true_iff_false. unfold is_whitespace.
    rewrite !orb_true_iff, !andb_true_iff, !N.leb_le, !N.eqb_eq. lia. }
  destruct (not_bracket_plain t c Hc) as [Hs _]; [lia|done|done|]. cbn.
  rewrite !andb_false_r. cbn. by rewrite Hs.
Qed.

Lemma summary_head t : is_summary_message t = true → head t = Some 65%N.
Proof.
  unfold is_summary_message. intros [r ->]%starts_with_true. done.
Qed.

Lemma is_summary_user_text t : is_summary_item (user_text t) = is_summary_message t.
Proof.
  unfold is_summary_item. destruct (is_summary_message t) eqn:E.
  - rewrite (parse_capital_text [] t 65%N); [|by apply summary_head|lia]. cbn. by rewrite app_nil_r.
  - destruct (parse_turn_item [] (user_text t)) as [[u| | | | | |]|] eqn:P; try done.
    by rewrite (parse_user_text [] t u P).
Qed.

Lemma aborted_not_summary t :
  starts_with (to_ascii_lowercase (trim_start t)) TURN_ABORTED_OPEN_TAG = true →
  is_summary_message t = false.
Proof.
  intros H. destruct (is_summary_message t) eqn:E; [|done]. apply summary_head in E.
  destruct t as [|c t]; [done|]. injection E as ->. exfalso. revert H.
  change (trim_start (65%N :: t)) with (65%N :: t). by cbn.
Qed.

Lemma collected_not_summary item m :
  collect_user_message item = Some m → is_summary_message m = false.
Proof.
  unfold collect_user_message. intros H.
  assert (collect_turn_aborted_marker item = Some m → is_summary_message m = false) as Hmark.
  { unfold collect_turn_aborted_marker. intros Hi. destruct item; try discriminate.
    destruct (negb _); [discriminate|]. apply bind_Some in Hi as (t & _ & Ht). destruct (starts_with _ _) eqn:E; [|done].
    injection Ht as <-. by apply aborted_not_summary. }
  destruct (parse_turn_item [] item) as [[u| | | | | |]|]; auto.
  destruct (is_summary_message (message u)) eqn:E; [done|]. by injection H as <-.
Qed.
Lemma collected_none_summary l : Forall (λ m, is_summary_message m = false) (collect_user_messages l).
Proof.
  apply Forall_forall. intros m (i & _ & Hi)%list_elem_of_omap. by eapply collected_not_summary.
Qed.

(** A text cut in the middle starts with the prefix of a summary only when the
    text itself does: the marker's first character is not in the prefix. *)
Lemma shortened_not_summary p s out :
  shortened p s out → is_summary_message s = false → is_summary_message out = false.
Proof.
  intros (before & mid & after & -> & _ & _ & _ & ->) Hs.
  apply not_true_iff_false. intros E.
  unfold is_summary_message in *. apply starts_with_true in E as [r Hr].
  assert (∃ k, format_truncation_marker p
     match p with Bytes _ => zlen mid | Tokens _ => ((zstr (before ++ mid ++ after) - byte_budget p + 3) / 4)%Z end
     = ELLIPSIS :: k) as [k Hk] by (destruct p; by eexists).
  rewrite Hk in Hr. destruct (decide (length before < length (SUMMARY_PREFIX ++ [LF]))) as [Hlt|Hge].
  - exfalso. apply ellipsis_not_in_prefix. apply list_elem_of_lookup. exists (length before).
    rewrite <-(lookup_app_l (SUMMARY_PREFIX ++ [LF]) r) by done. rewrite <-Hr.
    rewrite lookup_app_r, Nat.sub_diag by lia. done.
  - apply (f_equal (take (length (SUMMARY_PREFIX ++ [LF])))) in Hr.
    rewrite take_app_le in Hr by lia. rewrite take_app_length in Hr.
    rewrite <-(take_drop (length (SUMMARY_PREFIX ++ [LF])) before), Hr in Hs.
    revert Hs. apply not_false_iff_true, starts_with_true. eexists. by rewrite <-!(assoc_L (++)).
Qed.

Lemma truncated_not_summary n s t :
  (0 ≤ n ≤ USIZE_MAX)%Z → (zstr s ≤ ISIZE_MAX)%Z → truncate_text s (Tokens n) = Some t →
  is_summary_message s = false → is_summary_message t = false.
Proof.
  intros Hn Hz Ht Hs. destruct (truncate_text_cases s (Tokens n) Hn Hz) as [[_ H]|[_ (out & H & Ho)]];
    rewrite Ht in H; injection H as ->; [done|]. by eapply shortened_not_summary.
Qed.

Lemma kept_Forall (P : str → Prop) budget ms out :
  (∀ m t n, m ∈ ms → (0 < n ≤ budget)%Z → truncate_text m (Tokens n) = Some t → P m → P t) →
  kept budget ms out → Forall P ms → Forall P out.
Proof.
  intros Hcut [H|whole rest -> H|whole m rest t -> H Ht] HF; [done| |].
  - by apply Forall_app in HF as [? _].
  - pose proof HF as [Hw [Hm _]%Forall_cons]%Forall_app. apply Forall_app. split; [done|].
    constructor; [|done]. eapply Hcut; [|..|exact Ht|done]; [set_solver|].
    pose proof (tokens_of_nonneg whole). lia.
Qed.

Definition texts_ok (l : list ResponseItem) : Prop :=
  Forall (λ m, zstr m ≤ ISIZE_MAX)%Z (collect_user_messages l).

Lemma compacted_cases ctx l :
  texts_ok l →
  ∃ out, build_compacted_history ctx (collect_user_messages l) (summary_of l)
         = Some (ctx ++ (user_text <$> reverse out) ++ [user_text (summary_of l)]) ∧
         kept COMPACT_USER_MESSAGE_MAX_TOKENS (reverse (collect_user_messages l)) out ∧
         Forall (λ m, is_summary_message m = false) out.
Proof.
  intros Hl. destruct (build_spec ctx (collect_user_messages l) (summary_of l)) as (out & -> & Hk);
    [done|done|].
  exists out. split_and!; [done..|].
  eapply kept_Forall; [|exact Hk|apply Forall_reverse, collected_none_summary].
  intros m t n Hm Hn Ht. eapply truncated_not_summary; [|..|exact Ht].
  - split; [lia|]. etrans; [apply Hn|done].
  - unfold texts_ok in Hl. rewrite Forall_forall in Hl. apply Hl. by apply elem_of_reverse.
Qed.

(** A compacted history is the initial context, then the user's newest
    messages within 20000 tokens - whole as far as they fit, the next one cut to
    what is left - in their order, then the summary; it always exists, and when
    the initial context holds no summary it holds exactly one: summaries of
    earlier compactions are never carried over, even by a message cut in its
    middle. *)
Theorem compacted_history_spec ctx l :
  texts_ok l → Forall (λ i, is_summary_item i = false) ctx →
  ∃ out new,
    build_compacted_history ctx (collect_user_messages l) (summary_of l) = Some new ∧
    kept COMPACT_USER_MESSAGE_MAX_TOKENS (reverse (collect_user_messages l)) out ∧
    new = ctx ++ (user_text <$> reverse out) ++ [user_text (summary_of l)] ∧
    filter (λ i, is_summary_item i = true) new = [user_text (summary_of l)].
Proof.
  intros Hl Hctx. destruct (compacted_cases ctx l Hl) as (out & Hb & Hk & Hs).
  exists out. eexists. split_and!; [done..|]. rewrite !filter_app.
  rewrite (filter_none _ ctx) by (eapply Forall_impl; [exact Hctx|]; intros i ->; done).
  rewrite (filter_none _ (user_text <$> reverse out)).
  - rewrite filter_cons_True; [done|]. rewrite is_summary_user_text.
    apply starts_with_true. exists (default [] (get_last_assistant_message_from_turn l)).
    unfold summary_of. by rewrite (assoc_L (++)).
  - apply Forall_fmap, Forall_reverse. eapply Forall_impl; [exact Hs|].
    intros m Hm. cbn. rewrite is_summary_user_text, Hm. done.
Qed.

Lemma compacted_history_spec_witness :
  let old := user_text (SUMMARY_PREFIX ++ [LF] ++ §"old") in
  let hist := [user_text §"first"; old; user_text §"second";
               Message None §"assistant" [COutputText §"new summary"] None None] in
  texts_ok hist ∧
  build_compacted_history [] (collect_user_messages hist) (summary_of hist)
  = Some [user_text §"first"; user_text §"second";
          user_text (SUMMARY_PREFIX ++ [LF] ++ §"new summary")] ∧
  ∃ out new,
    build_compacted_history [] (collect_user_messages hist) (summary_of hist) = Some new ∧
    kept COMPACT_USER_MESSAGE_MAX_TOKENS (reverse (collect_user_messages hist)) out ∧
    new = [] ++ (user_text <$> reverse out) ++ [user_text (summary_of hist)] ∧
    filter (λ i, is_summary_item i = true) new = [user_text (summary_of hist)].
Proof.
  intros old hist. assert (texts_ok hist) as H.
  { unfold texts_ok. assert (collect_user_messages hist = [§"first"; §"second"]) as -> by by vm_compute.
    repeat constructor; by vm_compute. }
  split; [exact H|]. split; [by vm_compute|].
  apply (compacted_history_spec [] hist H). by constructor.
Defined.

(** ** The loop of a compaction *)

(** From [s] to [s'] the history grew at its end by items that satisfy [P], and
    only inert items were written to the rollout. *)
Definition extends (P : ResponseItem → Prop) (s s' : Session) : Prop :=
  ∃ l, items (history s') = items (history s) ++ l ∧ Forall P l ∧
       ∃ r, rollout s' = rollout s ++ r ∧ Forall inert r.

#[export] Instance extends_preorder P : PreOrder (extends P).
Proof.
  split.
  - intros s. exists []. rewrite app_nil_r. split_and!; [done..|]. exists []. by rewrite app_nil_r.
  - intros s1 s2 s3 (l1 & H1 & F1 & r1 & R1 & G1) (l2 & H2 & F2 & r2 & R2 & G2).
    exists (l1 ++ l2). rewrite H2, H1, (assoc_L (++)). split_and!; [done|by apply Forall_app|].
    exists (r1 ++ r2). rewrite R2, R1, (assoc_L (++)). split; [done|]. by apply Forall_app.
Qed.
Lemma logs_extends P s s' : logs s s' → extends P s s'.
Proof. intros [Hh Hr]. exists []. by rewrite app_nil_r. Qed.

(** An item that is neither a call, an output nor a snapshot. *)
Definition bare (i : ResponseItem) : Prop :=
  call_key i = None ∧ out_key i = None ∧ is_ghost_snapshot i = false.

Lemma for_prompt_last h pre i :
  items h = pre ++ [i] → bare i → ∃ p, for_prompt false h = Some (p ++ [i]).
Proof.
  intros Hh (Hc & Ho & Hg). unfold for_prompt. rewrite normalize_history_release. cbn.
  unfold normal. rewrite Hh. rewrite bind_app, bind_cons. cbn [mbind list_bind]. rewrite app_nil_r.
  assert (has_call (pre ++ [i]) i) as Hi by (unfold has_call; by rewrite Ho).
  rewrite (decide_True _ _ Hi). unfold completion at 2. rewrite Hc.
  rewrite filter_app, (filter_cons_True _ i) by done. by eexists.
Qed.

Lemma remove_first_matching_snoc p l i :
  p i = false → remove_first_matching p (l ++ [i]) = remove_first_matching p l ++ [i].
Proof.
  intros Hi. induction l as [|x l IH]; cbn; [by rewrite Hi|]. destruct (p x); [done|]. by rewrite IH.
Qed.
Lemma length_remove_first_matching p l : length (remove_first_matching p l) ≤ length l.
Proof. induction l as [|x l IH]; cbn; [done|]. destruct (p x); cbn; lia. Qed.

Lemma remove_corresponding_snoc l x i :
  bare i → ∃ l', remove_corresponding_for (l ++ [i]) x = l' ++ [i] ∧ length l' ≤ length l.
Proof.
  intros (Hc & Ho & _).
  assert (∀ c, is_fn_output c i = false ∧ is_custom_output c i = false ∧ is_fn_call c i = false ∧
               is_shell_call c i = false ∧ is_custom_call c i = false) as Hi.
  { intros c. destruct i as [| |? [?|]| | | | | | | |]; cbn in *; by split_and!. }
  assert (∀ p, p i = false → ∃ l', remove_first_matching p (l ++ [i]) = l' ++ [i] ∧
               length l' ≤ length l) as Hr.
  { intros p Hp. eexists. rewrite remove_first_matching_snoc by done. split; [done|].
    apply length_remove_first_matching. }
  destruct x as [| |? [c|]|? ? ? c|c ?|? ? c ? ?|c ?| | | |]; cbn; eauto;
    try (by apply Hr, Hi).
  destruct (existsb _ _); [by apply Hr, Hi|]. destruct (existsb _ _); [by apply Hr, Hi|]. eauto.
Qed.

Lemma remove_first_item_snoc h pre i :
  items h = pre ++ [i] → pre ≠ [] → bare i →
  ∃ pre', items (remove_first_item h) = pre' ++ [i] ∧ length pre' < length pre.
Proof.
  intros Hh Hpre Hi. destruct pre as [|x pre]; [done|]. unfold remove_first_item. rewrite Hh. cbn.
  destruct (remove_corresponding_snoc pre x i Hi) as (pre' & -> & Hl). exists pre'.
  split; [done|]. lia.
Qed.

Section Loop.
Context (recording raw : bool) (max_retries : Z) (stream : nat → list ResponseItem → Stream).
Context (P : ResponseItem → Prop) (P_stored : ∀ p i i', stored p i i' → P i → P i').
Context (tc : TurnContext).

Definition event_ok (e : result SavfoxError ResponseEvent) : Prop :=
  match e with Ok (OutputItemDone i) => sized i ∧ P i | _ => True end.
Definition stream_ok : Prop :=
  ∀ k p events, stream k p = Ok events → Forall event_ok events.

Lemma drain_events_total events s :
  Forall event_ok events →
  ∃ s' r, drain_events false recording raw s tc events = Some (s', r) ∧ extends P s s'.
Proof.
  intros HF. revert s. induction HF as [|e events He _ IH]; intros s; [by eexists _, _|].
  destruct e as [[|i|i|b|u|d|d k|d k|k|snap|t]|e]; cbn [drain_events]; try (by apply IH).
  - destruct He as [Hi HP].
    destruct (record_into_history_spec s tc [i]) as (l' & s' & -> & Hr & Hh & Hl); [by constructor|].
    cbn [mbind option_bind]. destruct (IH s') as (s2 & r & -> & Hx). eexists _, _. split; [done|].
    etrans; [|exact Hx]. exists l'. split_and!; [done| |exists []; by rewrite app_nil_r].
    destruct (decide (recorded i = true)) as [E|E]; rewrite filter_cons in Hl.
    + rewrite decide_True in Hl by done. inversion Hl as [|? ? ? ? Hs Hn]; subst.
      apply Forall2_nil_inv_l in Hn as ->. constructor; [|done]. by eapply P_stored.
    + rewrite decide_False in Hl by done. by apply Forall2_nil_inv_l in Hl as ->.
  - destruct (IH (set_server_reasoning_included s b)) as (s2 & r & -> & Hx). eexists _, _.
    split; [done|]. etrans; [|exact Hx]. apply logs_extends, set_server_reasoning_logs.
  - destruct (update_token_usage_release recording raw s tc u) as [s' E]. rewrite E. cbn.
    eexists _, _. split; [done|]. by eapply logs_extends, update_token_usage_logs.
  - destruct (update_rate_limits_release recording raw s snap) as [s' E]. rewrite E.
    cbn [mbind option_bind]. destruct (IH s') as (s2 & r & -> & Hx). eexists _, _. split; [done|].
    etrans; [|exact Hx]. by eapply logs_extends, update_rate_limits_logs.
  - by eexists _, _.
Qed.

(** How many attempts are left at most. *)
Definition attempts_left (l : LoopState) : nat :=
  (length (items (ls_history l)) - 1) * S (Z.to_nat max_retries)
  + (Z.to_nat max_retries - Z.to_nat (ls_retries l)).

(** A state of the loop: the prompt that asks for the summary is the last item. *)
Definition loop_ok (prompt : ResponseItem) (l : LoopState) : Prop :=
  (0 ≤ ls_retries l)%Z ∧ ∃ pre, items (ls_history l) = pre ++ [prompt].
(** [l'] comes after one more attempt, which sent the prompt last. *)
Definition one_more (prompt : ResponseItem) (l l' : LoopState) : Prop :=
  (∃ p, ls_prompts l' = ls_prompts l ++ [p ++ [prompt]]) ∧ extends P (ls_session l) (ls_session l').

Lemma drain_to_completed_total s k p :
  stream_ok → ∃ s' r, drain_to_completed false recording raw s tc (stream k p) = Some (s', r) ∧
                      extends P s s'.
Proof.
  intros Hst. unfold drain_to_completed. destruct (stream k p) as [events|e] eqn:E; [|by eexists _, _].
  apply drain_events_total. by eapply Hst.
Qed.

Lemma send_total s msg :
  is_rollback msg = false → ∃ s', send_event false recording raw s msg = Some s' ∧ extends P s s'.
Proof.
  intros Hm. destruct (send_event_release recording raw s msg) as [s' E]. exists s'. split; [done|].
  eapply logs_extends, send_event_logs; eauto.
Qed.

Lemma attempted_one_more prompt l s p :
  extends P (ls_session l) s → one_more prompt l (attempted l s (p ++ [prompt])).
Proof. intros Hs. split; [by eexists|done]. Qed.

Lemma prompt_alone h prompt p :
  bare prompt → items h = [] ++ [prompt] → for_prompt false h = Some (p ++ [prompt]) →
  p ++ [prompt] = [prompt].
Proof.
  intros (Hc & Ho & Hg) Hh. unfold for_prompt. rewrite normalize_history_release, Hh. cbn.
  unfold normal. cbn [mbind list_bind app]. rewrite app_nil_r.
  rewrite decide_True by (unfold has_call; by rewrite Ho). unfold completion. rewrite Hc.
  rewrite filter_cons_True by done. by intros [= <-].
Qed.

(** The branch of an error that may be retried. *)
Lemma retry_total prompt l s turn e :
  (0 ≤ max_retries)%Z → loop_ok prompt l → (∃ p, turn = p ++ [prompt]) →
  extends P (ls_session l) s →
  ∃ f, (if bool_decide (ls_retries l < max_retries)%Z then
          s ← notify_stream_error false recording raw s
                (reconnecting_notice max_retries (ls_retries l + 1)) (error_text e);
          Some (Continue {| ls_session := s; ls_history := ls_history l;
                            ls_truncated := ls_truncated l; ls_retries := ls_retries l + 1;
                            ls_prompts := ls_prompts l ++ [turn] |})
        else
          s ← send_event false recording raw s (to_error_event e None);
          Some (Return (attempted l s turn))) = Some f ∧
       match f with
       | Continue l' => one_more prompt l l' ∧ loop_ok prompt l' ∧ attempts_left l' < attempts_left l
       | Break l' | Return l' => one_more prompt l l'
       end.
Proof.
  intros Hmax [Hr Hpre] [p ->] Hs. case_bool_decide as Hlt.
  - unfold notify_stream_error. edestruct (send_total s) as (s2 & -> & H2); [done|].
    cbn [mbind option_bind]. eexists. split; [done|]. split; [split; [by eexists|by etrans]|].
    split; [split; [cbn; lia|done]|]. unfold attempts_left. cbn [ls_history ls_retries]. lia.
  - destruct (send_total s (to_error_event e None) eq_refl) as (s2 & -> & H2).
    cbn [mbind option_bind]. eexists. split; [done|]. eapply attempted_one_more. by etrans.
Qed.

Lemma attempt_total prompt l :
  stream_ok → bare prompt → (0 ≤ max_retries)%Z → loop_ok prompt l →
  ∃ f, attempt false recording raw max_retries stream tc l = Some f ∧
       match f with
       | Continue l' => one_more prompt l l' ∧ loop_ok prompt l' ∧ attempts_left l' < attempts_left l
       | Break l' | Return l' => one_more prompt l l'
       end.
Proof.
  intros Hst Hbare Hmax [Hr [pre Hh]]. unfold attempt.
  destruct (for_prompt_last (ls_history l) pre prompt Hh Hbare) as [p Hp]. rewrite Hp.
  cbn [mbind option_bind].
  destruct (drain_to_completed_total (ls_session l) (length (ls_prompts l)) (p ++ [prompt]) Hst)
    as (s & r & -> & Hs). cbn [mbind option_bind].
  destruct r as [[]|e].
  { case_bool_decide; [|eexists; split; [done|by eapply attempted_one_more]].
    unfold notify_background_event. destruct (send_total s (EvBackgroundEvent
      (trimmed_notice (ls_truncated l))) eq_refl) as (s2 & -> & H2). cbn [mbind option_bind].
    eexists. split; [done|]. eapply attempted_one_more. by etrans. }
  assert (∀ msg, is_rollback msg = false → ∃ s2,
    send_event false recording raw s msg = Some s2 ∧ extends P (ls_session l) s2) as Hsend.
  { intros msg Hm. destruct (send_total s msg Hm) as (s2 & E & H2). exists s2. split; [done|].
    by etrans. }
  destruct e; try match goal with |- context [error_text ?e] =>
    apply (retry_total prompt l s (p ++ [prompt]) e); [done|by split; [|exists pre]|by exists p|done] end.
  - eexists. split; [done|]. by eapply attempted_one_more.
  - case_bool_decide as Hlen.
    + eexists. split; [done|]. split; [by split; [eexists|]|].
      destruct pre as [|x pre].
      { exfalso. apply (prompt_alone (ls_history l) prompt p) in Hh; [|done..]. rewrite Hh in Hlen.
        cbn in Hlen. lia. }
      destruct (remove_first_item_snoc (ls_history l) (x :: pre) prompt Hh) as (pre' & Hh' & Hl);
        [done..|].
      split; [split; [done|by eexists]|]. unfold attempts_left. cbn [ls_history ls_retries].
      rewrite Hh, Hh', !length_app. cbn [length] in *. nia.
    + destruct (set_total_tokens_full_release recording raw s tc) as [s2 E]. rewrite E.
      cbn [mbind option_bind]. apply set_total_tokens_full_logs in E.
      destruct (send_total s2 (to_error_event ErrContextWindowExceeded None) eq_refl)
        as (s3 & -> & H3). cbn [mbind option_bind]. eexists. split; [done|].
      eapply attempted_one_more. etrans; [exact Hs|]. etrans; [|exact H3]. by apply logs_extends.
Qed.

Lemma compact_loop_total prompt fuel l :
  stream_ok → bare prompt → (0 ≤ max_retries)%Z → loop_ok prompt l → attempts_left l < fuel →
  ∃ l' ps, (compact_loop false recording raw max_retries stream fuel tc l = Some (Broke l') ∨
            compact_loop false recording raw max_retries stream fuel tc l = Some (Returned l')) ∧
           ls_prompts l' = ls_prompts l ++ ps ∧ length ps ≤ S (attempts_left l) ∧
           Forall (λ p, last p = Some prompt) ps ∧
           extends P (ls_session l) (ls_session l').
Proof.
  intros Hst Hbare Hmax. revert l. induction fuel as [|fuel IH]; intros l Hok Hf; [lia|].
  cbn [compact_loop]. destruct (attempt_total prompt l Hst Hbare Hmax Hok) as (f & -> & Hf').
  cbn [mbind option_bind]. destruct f as [l1|l1|l1].
  - destruct Hf' as ([[p Hp] Hx] & Hok1 & Hlt).
    destruct (IH l1 Hok1) as (l' & ps & Hres & Hps & Hlen & HF & Hx'); [lia|].
    exists l', ([p ++ [prompt]] ++ ps). rewrite Hps, Hp, <-(assoc_L (++)).
    split_and!; [done|done|cbn; lia| |by etrans].
    apply Forall_app. split; [|done]. repeat constructor. by rewrite last_snoc.
  - destruct Hf' as [[p Hp] Hx]. exists l1, [p ++ [prompt]].
    split_and!; [by left|done|cbn; lia| |done]. repeat constructor. by rewrite last_snoc.
  - destruct Hf' as [[p Hp] Hx]. exists l1, [p ++ [prompt]].
    split_and!; [by right|done|cbn; lia| |done]. repeat constructor. by rewrite last_snoc.
Qed.
End Loop.

(** ** The whole task *)

Lemma stored_parse uuid p i i' :
  stored p i i' → parse_turn_item uuid i' = parse_turn_item uuid i ∧
                  collect_user_message i' = collect_user_message i.
Proof. by intros []. Qed.

Definition bounded (i : ResponseItem) : Prop :=
  ∀ m, collect_user_message i = Some m → (zstr m ≤ ISIZE_MAX)%Z.
Lemma bounded_stored p i i' : stored p i i' → bounded i → bounded i'.
Proof. intros [_ E]%(stored_parse []) H m. rewrite E. apply H. Qed.
Lemma texts_ok_bounded l : Forall bounded l ↔ texts_ok l.
Proof.
  unfold texts_ok, bounded. rewrite !Forall_forall. split.
  - intros H m (i & Hi & Hm)%list_elem_of_omap. by eapply H.
  - intros H i Hi m Hm. apply H. apply list_elem_of_omap. eauto.
Qed.

Lemma persist_recorded recording s l :
  Forall (λ i, is_persisted_response_item i = true) l →
  persist_rollout_items recording s l = if recording then with_log s l [] else s.
Proof. intros Hl. unfold persist_rollout_items. by rewrite (filter_all_id _ l). Qed.

Section Task.
Context (recording raw : bool) (to_json : ResponseItem → str) (max_retries : Z).
Context (stream : nat → list ResponseItem → Stream).
Context (P : ResponseItem → Prop) (P_stored : ∀ p i i', stored p i i' → P i → P i').
Context (P_bounded : ∀ i, P i → bounded i).

(** What a compaction makes of the history [live] and of the rollout [log]. *)
Definition compacted (tc : TurnContext) (s1 s' : Session) : Prop :=
  let live := items (history s1) in
  ∃ out new r1 r2,
    build_compacted_history (initial_context tc) (collect_user_messages live) (summary_of live)
    = Some new ∧
    kept COMPACT_USER_MESSAGE_MAX_TOKENS (reverse (collect_user_messages live)) out ∧
    new = initial_context tc ++ (user_text <$> reverse out) ++ [user_text (summary_of live)] ∧
    items (history s') = new ++ ghost_snapshots live ∧
    rollout s' = rollout s1 ++ r1 ++ (if recording then [RCompacted (summary_of live) None] else [])
                 ++ r2 ∧
    Forall inert r1 ∧ Forall inert r2.

Lemma finish_compaction_spec s tc uuid :
  texts_ok (items (history s)) →
  ∃ s', finish_compaction false recording raw to_json s tc uuid = Some s' ∧ compacted tc s s'.
Proof.
  intros Hl. unfold finish_compaction.
  destruct (compacted_cases (initial_context tc) _ Hl) as (out & Hb & Hk & _). rewrite Hb.
  cbn [mbind option_bind]. set (s1 := replace_history s _).
  destruct (recompute_release recording raw to_json s1 tc) as [s2 E2]. rewrite E2.
  cbn [mbind option_bind]. apply recompute_logs in E2 as [Hh2 (r2 & Hr2 & F2)].
  rewrite persist_recorded by (repeat constructor).
  set (s3 := if recording then _ else s2).
  destruct (send_event_release recording raw s3 (EvItemCompleted (TContextCompaction uuid)))
    as [s4 E4].
  unfold emit_turn_item_completed. rewrite E4. cbn [mbind option_bind].
  destruct (send_event_release recording raw s4 (EvWarning LONG_SESSION_WARNING)) as [s5 E5].
  exists s5. split; [done|]. apply send_event_logs in E4, E5; [|done..].
  destruct (transitivity E4 E5) as [Hh (r & Hr & HF)].
  exists out. eexists. exists r2, r. split_and!; [exact Hb|done|done| | |done|done].
  - rewrite Hh. unfold s3. transitivity (items (history s2)); [by destruct recording|].
    by rewrite Hh2.
  - rewrite Hr. transitivity ((rollout s2 ++ (if recording then [RCompacted
        (summary_of (items (history s))) None] else [])) ++ r).
    + unfold s3. destruct recording; cbn; [done|]. by rewrite app_nil_r.
    + rewrite Hr2. unfold s1. cbn. by rewrite <-!(assoc_L (++)).
Qed.

Definition compaction_prompt (input : list ContentItem) : ResponseItem :=
  Message None §"user" input None None.

(** How a compaction task ends: the history only grew, or it was compacted. *)
Definition task_exit (tc : TurnContext) (s : Session) (exit : TaskExit) : Prop :=
  match exit with
  | TaskOutOfFuel => False
  | TaskGaveUp s' => extends P s s'
  | TaskCompacted s' => ∃ s1, extends P s s1 ∧ compacted tc s1 s'
  end.

Lemma run_compact_task_spec fuel s tc uuid input :
  (0 ≤ max_retries)%Z → stream_ok stream P → texts_ok (items (history s)) →
  S (length (items (history s))) * S (Z.to_nat max_retries) ≤ fuel →
  ∃ exit prompts,
    run_compact_task_inner false recording raw to_json max_retries stream fuel s tc uuid input
    = Some (exit, prompts) ∧
    task_exit tc s exit ∧
    length prompts ≤ S (length (items (history s))) * S (Z.to_nat max_retries) ∧
    Forall (λ p, last p = Some (compaction_prompt input)) prompts.
Proof.
  intros Hmax Hst Hok Hf. unfold run_compact_task_inner, emit_turn_item_started.
  destruct (send_event_release recording raw s (EvItemStarted (TContextCompaction uuid))) as [s1 E1].
  rewrite E1. cbn [mbind option_bind]. apply send_event_logs in E1; [|done].
  change (record_items (history s1) [Message None §"user" input None None] (truncation_policy tc))
    with (Some (with_items (history s1) (items (history s1) ++ [compaction_prompt input]))).
  cbn [mbind option_bind]. set (s2 := persist_rollout_items recording s1 [RTurnContext (model tc)]).
  assert (logs s s2) as H2 by (etrans; [exact E1|]; by apply persist_inert; repeat constructor).
  set (l := {| ls_session := s2; ls_history := _; ls_truncated := 0; ls_retries := 0;
               ls_prompts := [] |}).
  assert (attempts_left max_retries l + 1
          = S (length (items (history s))) * S (Z.to_nat max_retries)) as Ha.
  { unfold attempts_left, l. cbn [ls_history ls_retries items with_items].
    destruct E1 as [-> _]. rewrite length_app. cbn [length]. nia. }
  destruct (compact_loop_total recording raw max_retries stream P P_stored tc
              (compaction_prompt input) fuel l Hst) as (l' & ps & Hres & Hps & Hlen & HF & Hx);
    [done|done|split; [done|by eexists]|lia|].
  assert (extends P s (ls_session l')) as Hx'.
  { etrans; [by apply logs_extends|exact Hx]. }
  destruct Hres as [-> | ->]; cbn [mbind option_bind].
  - destruct (finish_compaction_spec (ls_session l') tc uuid) as (s' & -> & Hc).
    { apply texts_ok_bounded. destruct Hx' as (k & -> & Hk & _). apply Forall_app.
      split; [by apply texts_ok_bounded|]. eapply Forall_impl; [exact Hk|apply P_bounded]. }
    eexists _, _. split; [done|]. cbn in Hps. rewrite Hps. split_and!; [by eexists|lia|done].
  - eexists _, _. split; [done|]. cbn in Hps. rewrite Hps. split_and!; [done|lia|done].
Qed.
End Task.

(** A compaction always ends, whatever the service answers: after at most
    [(n + 1) * (max_retries + 1)] requests for a history of [n] items. Each
    request carries the prompt that asks for the summary as its last item. When
    the task gives up, the history has only grown by what the service streamed;
    when it succeeds, the history is the initial context, the user's messages
    that are kept, the summary and every snapshot, and the rollout has the
    summary. *)
Theorem compact_task_terminates recording raw to_json max_retries stream fuel s tc uuid input :
  (0 ≤ max_retries)%Z → stream_ok stream bounded → texts_ok (items (history s)) →
  S (length (items (history s))) * S (Z.to_nat max_retries) ≤ fuel →
  ∃ exit prompts,
    run_compact_task_inner false recording raw to_json max_retries stream fuel s tc uuid input
    = Some (exit, prompts) ∧
    task_exit recording bounded tc s exit ∧
    length prompts ≤ S (length (items (history s))) * S (Z.to_nat max_retries) ∧
    Forall (λ p, last p = Some (compaction_prompt input)) prompts.
Proof. apply run_compact_task_spec; [apply bounded_stored|done]. Qed.

Definition demo_assistant (t : str) : ResponseItem :=
  Message None §"assistant" [COutputText t] None None.
(** A service that is out of room once, drops the connection once, then answers. *)
Definition demo_stream (k : nat) (p : list ResponseItem) : Stream :=
  match k with
  | 0 => Err ErrContextWindowExceeded
  | 1 => Ok [Ok Created]
  | _ => Ok [Ok (OutputItemDone (demo_assistant §"done so far")); Ok (ResponseCompleted None)]
  end.
Definition demo_tc : TurnContext :=
  {| truncation_policy := Bytes 100; model := §"m"; context_window := Some 1000%Z;
     base_instructions := §""; initial_context := [Message None §"developer" [] None None] |}.
Definition demo_session (l : list ResponseItem) : Session :=
  {| history := {| items := l; token_info := None |}; latest_rate_limits := None;
     server_reasoning_included := false; initial_context_seeded := true; agent_status := Running;
     rollout := []; sent := [] |}.

Lemma compact_task_terminates_witness :
  let hist := [user_text §"hello"; demo_assistant §"hi"] in
  (∃ exit prompts,
    run_compact_task_inner false true false (λ _, []) 1 demo_stream 6 (demo_session hist) demo_tc
      §"id" [CInputText §"summarize"] = Some (exit, prompts) ∧
    task_exit true bounded demo_tc (demo_session hist) exit ∧
    length prompts ≤ 6 ∧
    Forall (λ p, last p = Some (compaction_prompt [CInputText §"summarize"])) prompts) ∧
  (match run_compact_task_inner false true false (λ _, []) 1 demo_stream 6 (demo_session hist)
           demo_tc §"id" [CInputText §"summarize"] with
   | Some (TaskCompacted s', prompts) =>
       items (history s') = initial_context demo_tc
         ++ [user_text §"hello"; user_text (SUMMARY_PREFIX ++ [LF] ++ §"done so far")]
       ∧ length prompts = 3
   | _ => False
   end).
Proof.
  intros hist. split; [|by vm_compute].
  apply (compact_task_terminates true false (λ _, []) 1 demo_stream 6 (demo_session hist) demo_tc
           §"id" [CInputText §"summarize"]).
  - done.
  - intros [|[|k]] p events; cbn; [done|intros [= <-]; by constructor|intros [= <-]].
    constructor; [split; [done|]|by repeat constructor]. intros m Hm. by vm_compute in Hm.
  - unfold texts_ok. assert (collect_user_messages (items (history (demo_session hist))) = [§"hello"])
      as -> by by vm_compute. repeat constructor; by vm_compute.
  - cbn. lia.
Defined.

(** When the service completes without a message, the "summary" is the last
    answer of the conversation itself. *)
Example silent_service :
  let hist := [user_text §"hello"; demo_assistant §"an old answer"; user_text §"again"] in
  match run_compact_task_inner false true false (λ _, []) 1
          (λ _ _, Ok [Ok (ResponseCompleted None)]) 9 (demo_session hist) demo_tc
          §"id" [CInputText §"summarize"] with
  | Some (TaskCompacted s', _) =>
      last (items (history s')) = Some (user_text (SUMMARY_PREFIX ++ [LF] ++ §"an old answer"))
  | _ => False
  end.
Proof. by vm_compute. Qed.

(** The memory context that [build_initial_context] adds to the initial context
    is a plain user message: each compaction keeps the copy that is in the
    history as one of the user's messages and adds another one. *)
Lemma memory_context_duplicated text hist c :
  let memory := user_text (§"# Memory Context" ++ [LF] ++ text) in
  initial_context c = [memory] →
  (approx_token_count (§"# Memory Context" ++ [LF] ++ text)
   ≤ COMPACT_USER_MESSAGE_MAX_TOKENS)%Z →
  items hist = [memory] →
  build_compacted_history (initial_context c) (collect_user_messages (items hist))
    (summary_of (items hist))
  = Some [memory; memory; user_text (summary_of (items hist))].
Proof.
  intros memory Hc Ht Hh. rewrite Hc, Hh.
  assert (collect_user_messages [memory] = [§"# Memory Context" ++ [LF] ++ text]) as ->.
  { unfold memory, collect_user_messages, collect_user_message. cbn [omap list_omap].
    assert (parse_turn_item [] (user_text (§"# Memory Context" ++ [LF] ++ text))
            = Some (TUserMessage {| um_id := []; um_content :=
                [UText (§"# Memory Context" ++ [LF] ++ text) []] |})) as -> by by cbn.
    cbn [message um_content fmap list_fmap concat input_text]. by rewrite app_nil_r. }
  unfold build_compacted_history, build_compacted_history_with_limit.
  rewrite (bool_decide_true (0 < COMPACT_USER_MESSAGE_MAX_TOKENS)%Z) by done.
  rewrite reverse_singleton. cbn [select_messages].
  rewrite (bool_decide_false (COMPACT_USER_MESSAGE_MAX_TOKENS = 0%Z)) by done.
  by rewrite (bool_decide_true _ Ht).
Qed.

(** ** Trimming before a remote compaction *)
Section Trim.
Context (to_json : ResponseItem → str) (tc : TurnContext).

Definition estimated (h : ContextManager) : Z :=
  match estimate_token_count to_json h (base_instructions tc) with Some e => e | None => 0%Z end.

(** [h'] is [h] after its last item was removed, with its counterpart, [n] times,
    each time because the estimate exceeded the window and the item was one the
    session itself had generated. *)
Inductive trimmed_from (window : Z) : ContextManager → nat → ContextManager → Prop :=
| trimmed_0 h : trimmed_from window h 0 h
| trimmed_S h i n h' :
    (window < estimated h)%Z → last (items h) = Some i → is_savfox_generated_item i = true →
    trimmed_from window (snd (remove_last_item h)) n h' → trimmed_from window h (S n) h'.

Lemma remove_last_shorter h i :
  last (items h) = Some i →
  fst (remove_last_item h) = true ∧ length (items (snd (remove_last_item h))) < length (items h).
Proof.
  intros Hi. unfold remove_last_item. rewrite Hi. cbn [fst snd items with_items]. split; [done|].
  apply last_Some in Hi as [l Hl]. rewrite Hl, length_app. cbn [length].
  rewrite Nat.add_sub, take_app_length. enough (length (remove_corresponding_for l i) ≤ length l) by lia.
  destruct i as [| |? [c|]|? ? ? c|c ?|? ? c ? ?|c ?| | | |]; cbn; try done;
    try apply length_remove_first_matching.
  repeat case_match; try done; apply length_remove_first_matching.
Qed.

Lemma trim_loop_step window fuel h deleted :
  trim_loop to_json fuel h tc window deleted
  = if bool_decide (window < estimated h)%Z then
      match last (items h) with
      | None => Some (deleted, h)
      | Some i =>
          if is_savfox_generated_item i then
            let '(removed, h') := remove_last_item h in
            if removed then
              match fuel with
              | 0 => None
              | S fuel => trim_loop to_json fuel h' tc window (S deleted)
              end
            else Some (deleted, h')
          else Some (deleted, h)
      end
    else Some (deleted, h).
Proof.
  destruct fuel; cbn [trim_loop]; unfold estimated, estimate_token_count; cbv zeta iota;
    case_bool_decide; cbn [negb]; try done; destruct (last (items h)) as [i|]; try done;
    destruct (is_savfox_generated_item i); cbn [negb]; try done;
    by destruct (remove_last_item h) as [[] ?].
Qed.

Lemma trim_items_spec window fuel h deleted :
  length (items h) ≤ fuel →
  ∃ n h', trim_loop to_json fuel h tc window deleted = Some (n + deleted, h') ∧
          trimmed_from window h n h' ∧
          ((estimated h' ≤ window)%Z ∨ items h' = [] ∨
           ∃ i, last (items h') = Some i ∧ is_savfox_generated_item i = false).
Proof.
  revert h deleted. induction fuel as [|fuel IH]; intros h deleted Hf; rewrite trim_loop_step.
  - case_bool_decide as Hw; [|exists 0, h; split_and!; [done|apply trimmed_0|left; lia]].
    destruct (items h) eqn:E; [|cbn in Hf; lia]. exists 0, h. split_and!; [done|apply trimmed_0|auto].
  - case_bool_decide as Hw; [|exists 0, h; split_and!; [done|apply trimmed_0|left; lia]].
    destruct (last (items h)) as [i|] eqn:Ei.
    2:{ exists 0, h. apply last_None in Ei. split_and!; [done|apply trimmed_0|auto]. }
    destruct (is_savfox_generated_item i) eqn:Eg.
    2:{ exists 0, h. split_and!; [done|apply trimmed_0|eauto]. }
    destruct (remove_last_shorter h i Ei) as [Hr Hl]. destruct (remove_last_item h) as [b h1] eqn:E1.
    cbn in Hr, Hl. subst b. destruct (IH h1 (S deleted)) as (n & h' & -> & Ht & Hend); [lia|].
    exists (S n), h'. split_and!; [by rewrite Nat.add_succ_r| |done].
    eapply trimmed_S; [done..|]. by rewrite E1.
Qed.

(** Trimming before a remote compaction always ends. It drops items from the
    end only, with their counterparts, only outputs and developer messages, and
    only while the estimate exceeds the window; it stops as soon as the history
    fits, is empty, or ends with an item that may not be dropped. *)
Theorem trim_spec h window :
  context_window tc = Some window →
  ∃ n h', trim_function_call_history_to_fit_context_window to_json h tc = Some (n, h') ∧
          trimmed_from window h n h' ∧
          ((estimated h' ≤ window)%Z ∨ items h' = [] ∨
           ∃ i, last (items h') = Some i ∧ is_savfox_generated_item i = false).
Proof.
  intros Hw. unfold trim_function_call_history_to_fit_context_window. rewrite Hw.
  destruct (trim_items_spec window (length (items h)) h 0 (le_n _)) as (n & h' & -> & H).
  exists n, h'. by rewrite Nat.add_0_r.
Qed.
End Trim.
