(* ===== verification/Resume.v ===== *)
(** * Replaying a rollout, and what a session does to its history
    ([core/src/savfox/event_pipeline.rs]: [reconstruct_history_from_rollout];
    [core/src/savfox/session_lifecycle.rs]: [record_initial_history];
    [core/src/savfox/task_coordinator.rs]: [session_rollback];
    [core/src/tasks/undo.rs]; [core/src/tasks/mod.rs]: the marker of an
    interrupted turn).

    The rollout is the specification's log: the history that is in memory is an
    optimisation of its replay, and the theorem of this file says how far the two
    agree. *)
From S2P Require Import Prelude RustStr MachInt Truncate Protocol Normalize History EventMapping Session ModelApi Compaction.
From Stdlib Require Import Floats.SpecFloat.

(** [usize::try_from(num_turns)] of a [u32] always succeeds. *)
Definition turns_of (num_turns : Z) : nat := Z.to_nat num_turns.

Section Resume.
Context (debug recording raw : bool) (to_json : ResponseItem → str).
#[local] Notation send_event := (send_event debug recording raw).
#[local] Notation record_conversation_items := (record_conversation_items debug recording raw).

(** ** [reconstruct_history_from_rollout] *)
Definition replay_item (tc : TurnContext) (history : ContextManager) (item : RolloutItem)
    : option ContextManager :=
  match item with
  | RResponseItem response_item =>
      record_items history [response_item] (truncation_policy tc)
  | RCompacted _ (Some replacement) => Some (replace history replacement)
  | RCompacted message None =>
      let user_messages := collect_user_messages (items history) in
      rebuilt ← build_compacted_history (initial_context tc) user_messages message;
      Some (replace history rebuilt)
  | REventMsg (EvSessionRolledBack num_turns) =>
      Some (drop_last_n_user_turns history (turns_of num_turns))
  | _ => Some history
  end.
Fixpoint replay (tc : TurnContext) (history : ContextManager) (l : list RolloutItem)
    : option ContextManager :=
  match l with
  | [] => Some history
  | item :: rest => history ← replay_item tc history item; replay tc history rest
  end.
Definition reconstruct_history_from_rollout (tc : TurnContext) (l : list RolloutItem)
    : option (list ResponseItem) :=
  history ← new debug;
  history ← replay tc history l;
  Some (items history).

(** ** [record_initial_history] *)
Inductive InitialHistory :=
| NewHistory
| ResumedHistory (l : list RolloutItem)
| ForkedHistory (l : list RolloutItem).

Definition last_token_info_from_rollout (l : list RolloutItem) : option TokenUsageInfo :=
  head (omap (λ item, match item with REventMsg (EvTokenCount info _) => info | _ => None end)
          (reverse l)).
Definition last_model (l : list RolloutItem) : option str :=
  head (omap (λ item, match item with RTurnContext m => Some m | _ => None end) (reverse l)).

Definition model_warning (prev curr : str) : str :=
  §"This session was recorded with model `" ++ prev ++ §"` but is resuming with `" ++ curr
  ++ §"`. Consider switching back to `" ++ prev ++ §"` as it may affect Savfox performance.".

Definition seed_history (s : Session) (tc : TurnContext) (l : list RolloutItem) : option Session :=
  reconstructed ← reconstruct_history_from_rollout tc l;
  s ← match reconstructed with
      | [] => Some s
      | _ => record_into_history s tc reconstructed
      end;
  Some (match last_token_info_from_rollout l with
        | Some info => with_history s (set_token_info (history s) (Some info))
        | None => s
        end).

Definition record_initial_history (s : Session) (tc : TurnContext) (h : InitialHistory)
    : option Session :=
  match h with
  | NewHistory =>
      s ← record_conversation_items s tc (initial_context tc);
      Some (set_seeded s true)
  | ResumedHistory l =>
      let s := set_seeded s false in
      s ← match last_model l with
          | Some prev =>
              if bool_decide (prev = model tc) then Some s
              else send_event s (EvWarning (model_warning prev (model tc)))
          | None => Some s
          end;
      seed_history s tc l
  | ForkedHistory l =>
      s ← seed_history s tc l;
      let s := match l with [] => s | _ => persist_rollout_items recording s l end in
      s ← record_conversation_items s tc (initial_context tc);
      Some (set_seeded s true)
  end.

(** ** Handlers that change the history *)

(** [session_rollback]; the error's machine-readable kind is not modelled. *)
Definition session_rollback (s : Session) (tc : TurnContext) (has_active_turn : bool)
    (num_turns : Z) : option Session :=
  if bool_decide (num_turns = 0%Z) then
    Some (send_event_raw recording s (EvError §"num_turns must be >= 1"))
  else if has_active_turn then
    Some (send_event_raw recording s (EvError §"Cannot rollback while a turn is in progress."))
  else
    let h := drop_last_n_user_turns (history s) (turns_of num_turns) in
    let s := replace_history s (items h) in
    s ← recompute_token_usage debug recording raw to_json s tc;
    Some (send_event_raw recording s (EvSessionRolledBack num_turns)).

Definition TURN_ABORTED_INTERRUPTED_GUIDANCE : str := §"The user interrupted the previous turn on purpose. If any tools/commands were aborted, they may have partially executed; verify current state before retrying.".
(** The end of [handle_task_abort]: the marker, then the event. *)
Definition record_turn_aborted (s : Session) (tc : TurnContext) (reason : TurnAbortReason)
    : option Session :=
  s ← match reason with
      | Interrupted =>
          let marker := user_text (TURN_ABORTED_OPEN_TAG ++ [LF]
            ++ TURN_ABORTED_INTERRUPTED_GUIDANCE ++ [LF] ++ §"</turn_aborted>") in
          s ← record_into_history s tc [marker];
          Some (persist_rollout_items recording s [RResponseItem marker])
      | _ => Some s
      end;
  send_event s (EvTurnAborted reason).

(** The last snapshot of the history, with its index. *)
Definition last_ghost (l : list ResponseItem) : option (nat * GhostCommit) :=
  idx ← rposition is_ghost_snapshot l;
  match l !! idx with Some (GhostSnapshot c) => Some (idx, c) | _ => None end.

(** The undo task; [restore] is what [restore_ghost_commit_with_options] says of
    the commit, an error's text or success. *)
Definition run_undo_task (s : Session) (cancelled : bool) (restore : GhostCommit → option str)
    : option Session :=
  s ← send_event s (EvUndoStarted (Some §"Undo in progress..."));
  if cancelled then send_event s (EvUndoCompleted false (Some §"Undo cancelled."))
  else
    match last_ghost (items (history s)) with
    | None => send_event s (EvUndoCompleted false (Some §"No ghost snapshot available to undo."))
    | Some (idx, ghost_commit) =>
        match restore ghost_commit with
        | None =>
            let s := replace_history s (delete idx (items (history s))) in
            send_event s (EvUndoCompleted true
              (Some (§"Undo restored snapshot " ++ take 7 (commit_id ghost_commit) ++ §".")))
        | Some err =>
            send_event s (EvUndoCompleted false
              (Some (§"Failed to restore snapshot " ++ commit_id ghost_commit ++ §": " ++ err)))
        end
    end.

(** The handler of an image that poisons the conversation: in a release build the
    images of the last output are replaced, and the turn goes on when there was
    one; otherwise an error ends it. *)
Definition handle_invalid_image (s : Session) : option (Session * bool) :=
  if debug then None
  else
    let '(replaced, h) := replace_last_turn_images (history s) §"Invalid image" in
    let s := with_history s h in
    if replaced then Some (s, true)
    else s ← send_event s
               (EvError §"Invalid image in your last message. Please remove it and try again.");
         Some (s, false).
End Resume.

(** * Correctness *)

(** ** Histories that differ by snapshots only *)
Definition no_ghost (l : list ResponseItem) : list ResponseItem :=
  filter (λ i, is_ghost_snapshot i = false) l.
Definition same_but_ghosts (l k : list ResponseItem) : Prop := no_ghost l = no_ghost k.
#[local] Infix "≈" := same_but_ghosts (at level 70).

#[export] Instance same_equiv : Equivalence same_but_ghosts.
Proof. unfold same_but_ghosts. split; [by intros ?|by intros ?|]. intros ???. congruence. Qed.
#[export] Instance app_same : Proper (same_but_ghosts ==> same_but_ghosts ==> same_but_ghosts) app.
Proof. intros l l' Hl k k' Hk. unfold same_but_ghosts, no_ghost in *. rewrite !filter_app. congruence. Qed.

Lemma no_ghost_cons i l :
  no_ghost (i :: l) = if is_ghost_snapshot i then no_ghost l else i :: no_ghost l.
Proof. unfold no_ghost. rewrite filter_cons. by destruct (is_ghost_snapshot i). Qed.
Lemma no_ghost_app l k : no_ghost (l ++ k) = no_ghost l ++ no_ghost k.
Proof. apply filter_app. Qed.
Lemma ghosts_only l : ghost_snapshots l ≈ [].
Proof.
  unfold ghost_snapshots, same_but_ghosts. induction l as [|i l IH]; [done|].
  rewrite filter_cons. destruct (is_ghost_snapshot i) eqn:E; cbn [decide]; [|done].
  case_decide; [|done]. by rewrite no_ghost_cons, E.
Qed.

Lemma collect_no_ghost l : collect_user_messages (no_ghost l) = collect_user_messages l.
Proof.
  induction l as [|i l IH]; [done|]. rewrite no_ghost_cons. destruct (is_ghost_snapshot i) eqn:E.
  - rewrite IH. by destruct i.
  - cbn. fold (collect_user_messages (no_ghost l)) (collect_user_messages l). by rewrite IH.
Qed.
#[export] Instance collect_same : Proper (same_but_ghosts ==> eq) collect_user_messages.
Proof. intros l k H. by rewrite <-(collect_no_ghost l), <-(collect_no_ghost k), H. Qed.

(** *** Prompts *)
Lemma normal_no_ghost l : no_ghost (normal l) = normal (no_ghost l).
Proof.
  assert (∀ i, has_call l i ↔ has_call (no_ghost l) i) as Hc.
  { intros i. unfold has_call. unfold no_ghost. by rewrite (proj1 (no_ghost_keys l)). }
  assert (∀ i, completion (no_ghost l) i = completion l i) as Hk.
  { intros i. unfold completion, no_ghost. destruct (call_key i); [|done].
    by rewrite (proj2 (no_ghost_keys l)). }
  unfold normal. set (g := λ i, if decide (has_call (no_ghost l) i) then i :: completion (no_ghost l) i else []).
  assert (∀ k, no_ghost (k ≫= λ i, if decide (has_call l i) then i :: completion l i else [])
               = no_ghost k ≫= g) as H; [|apply H].
  induction k as [|i k IH]; [done|]. rewrite bind_cons, no_ghost_app, IH, no_ghost_cons.
  destruct (is_ghost_snapshot i) eqn:E.
  - assert (has_call l i) as Hi by by destruct i.
    assert (completion l i = []) as -> by by destruct i.
    rewrite decide_True by done. by rewrite no_ghost_cons, E.
  - rewrite bind_cons. f_equal. unfold g. rewrite Hk.
    assert (no_ghost (i :: completion l i) = i :: completion l i) as Hi.
    { rewrite no_ghost_cons, E. unfold completion.
      destruct (call_key i) as [[[] c]|]; [..|done]; by destruct (decide _). }
    destruct (decide (has_call l i)) as [H1|H1], (decide (has_call (no_ghost l) i)) as [H2|H2];
      [exact Hi|by rewrite Hc in H1|by rewrite Hc in H1|done].
Qed.
Lemma for_prompt_same h h' :
  items h ≈ items h' → for_prompt false h = for_prompt false h'.
Proof.
  intros H. unfold for_prompt. rewrite !normalize_history_release. cbn. f_equal.
  change (no_ghost (normal (items h)) = no_ghost (normal (items h'))).
  by rewrite !normal_no_ghost, H.
Qed.

(** *** User turns *)

(** A cut before the last user turns is determined by their number. *)
Lemma cut_unique (k1 d1 k2 d2 : list ResponseItem) :
  k1 ++ d1 = k2 ++ d2 → user_turns d1 = user_turns d2 →
  (d1 = [] ∨ ∃ x r, d1 = x :: r ∧ is_user_turn_boundary x = true) →
  (d2 = [] ∨ ∃ x r, d2 = x :: r ∧ is_user_turn_boundary x = true) → k1 = k2.
Proof.
  intros Heq Ht H1 H2. revert k2 Heq. induction k1 as [|i k1 IH]; intros [|j k2] Heq; cbn in Heq.
  - done.
  - exfalso. subst d1. destruct H1 as [|(x & r & [= <- <-] & Hx)]; [done|].
    rewrite user_turns_cons, Hx in Ht. unfold user_turns in Ht.
    rewrite filter_app, length_app in Ht. lia.
  - exfalso. subst d2. destruct H2 as [|(x & r & [= <- <-] & Hx)]; [done|].
    rewrite user_turns_cons, Hx in Ht. unfold user_turns in Ht.
    rewrite filter_app, length_app in Ht. lia.
  - injection Heq as -> Heq. f_equal. by apply IH.
Qed.

Lemma user_turns_no_ghost l : user_turns (no_ghost l) = user_turns l.
Proof.
  induction l as [|i l IH]; [done|]. rewrite no_ghost_cons. destruct (is_ghost_snapshot i) eqn:E.
  - rewrite IH, user_turns_cons. by destruct i.
  - by rewrite !user_turns_cons, IH.
Qed.

Lemma drop_turns_no_ghost h n :
  no_ghost (items (drop_last_n_user_turns h n))
  = items (drop_last_n_user_turns (with_items h (no_ghost (items h))) n).
Proof.
  destruct (drop_last_n_user_turns_spec h n) as (d1 & E1 & _ & T1 & B1).
  destruct (drop_last_n_user_turns_spec (with_items h (no_ghost (items h))) n)
    as (d2 & E2 & _ & T2 & B2). cbn [items with_items] in E2, T2.
  apply (cut_unique _ (no_ghost d1) _ d2); [| | |done].
  - by rewrite <-no_ghost_app, <-E1, <-E2.
  - by rewrite T2, !user_turns_no_ghost.
  - destruct B1 as [->|(x & r & -> & Hx)]; [by left|right]. rewrite no_ghost_cons.
    destruct x; try done. by eexists _, _.
Qed.
Lemma drop_turns_same h h' n :
  items h ≈ items h' → items (drop_last_n_user_turns h n) ≈ items (drop_last_n_user_turns h' n).
Proof.
  intros H. unfold same_but_ghosts. rewrite !drop_turns_no_ghost, H.
  set (k := no_ghost (items h')). destruct n as [|n]; [done|].
  unfold drop_last_n_user_turns. cbn [items with_items].
  by destruct (user_message_positions k).
Qed.

(** *** Recording *)
Lemma record_items_same h h' l p h1 :
  record_items h l p = Some h1 → items h ≈ items h' →
  ∃ h1', record_items h' l p = Some h1' ∧ items h1 ≈ items h1'.
Proof.
  revert h h'. induction l as [|i l IH]; intros h h'; cbn [record_items].
  { intros [= <-] Hs. eauto. }
  destruct (_ && _); [by apply IH|].
  destruct (process_item i p) as [i'|]; cbn [mbind option_bind]; [|done].
  intros H Hs. eapply IH; [exact H|]. cbn. by rewrite Hs.
Qed.

Lemma record_items_cons h i l p :
  record_items h (i :: l) p = h' ← record_items h [i] p; record_items h' l p.
Proof.
  cbn [record_items]. destruct (_ && _); [done|]. by destruct (process_item i p).
Qed.

Lemma replay_app tc h l k : replay tc h (l ++ k) = h' ← replay tc h l; replay tc h' k.
Proof.
  revert h. induction l as [|i l IH]; intros h; [done|]. cbn.
  destruct (replay_item tc h i); cbn; [apply IH|done].
Qed.
Lemma replay_inert tc h l : Forall inert l → replay tc h l = Some h.
Proof.
  induction 1 as [|i l Hi _ IH]; [done|]. cbn. destruct i as [| | | |[]]; done.
Qed.
Lemma replay_items tc h l :
  replay tc h (filter (λ i, is_persisted_response_item i = true) (RResponseItem <$> l))
  = record_items h l (truncation_policy tc).
Proof.
  revert h. induction l as [|i l IH]; intros h; [done|].
  rewrite fmap_cons, filter_cons, record_items_cons. case_decide as E.
  - cbn [replay replay_item]. destruct (record_items h [i] _); cbn [mbind option_bind]; [apply IH|done].
  - rewrite IH. destruct i; try (by destruct E). by cbn.
Qed.

(** ** The steps of a recorded session

    A release build whose session has a recorder, over one configuration of
    turns. The service streams no user message. *)
Section Refinement.
Context (raw : bool) (to_json : ResponseItem → str) (tc : TurnContext).

Definition silent (i : ResponseItem) : Prop := collect_user_message i = None.

Inductive step (s : Session) : Session → Prop :=
| step_record l s' :
    Forall sized l → record_conversation_items false true raw s tc l = Some s' → step s s'
| step_compact max_retries stream fuel uuid input s' prompts :
    (0 ≤ max_retries)%Z → stream_ok stream silent → texts_ok (items (history s)) →
    S (length (items (history s))) * S (Z.to_nat max_retries) ≤ fuel →
    run_compact_task_inner false true raw to_json max_retries stream fuel s tc uuid input
    = Some (TaskCompacted s', prompts) → step s s'
| step_remote_compact service uuid s' :
    run_remote_compact_task_inner_impl false true raw to_json service s tc uuid
    = Some (s', Ok tt) → step s s'
| step_rollback active n s' :
    session_rollback false true raw to_json s tc active n = Some s' → step s s'
| step_abort reason s' : record_turn_aborted false true raw s tc reason = Some s' → step s s'
| step_undo cancelled restore s' :
    run_undo_task false true raw s cancelled restore = Some s' → step s s'
| step_log s' : logs s s' → step s s'.

(** The rollout replays to the history, snapshots apart. *)
Definition replays (s : Session) : Prop :=
  ∃ h, replay tc {| items := []; token_info := None |} (rollout s) = Some h ∧
       items h ≈ items (history s).

Lemma replays_ext s s' log :
  replays s → rollout s' = rollout s ++ log →
  (∀ h, items h ≈ items (history s) →
        ∃ h', replay tc h log = Some h' ∧ items h' ≈ items (history s')) →
  replays s'.
Proof.
  intros (h & Hr & Hs) Hlog Hstep. destruct (Hstep h Hs) as (h' & Hr' & Hs').
  exists h'. by rewrite Hlog, replay_app, Hr.
Qed.

Lemma replays_logs s s' : replays s → logs s s' → replays s'.
Proof.
  intros Hs [Hh (l & Hr & Hl)]. eapply replays_ext; [done|exact Hr|].
  intros h H. exists h. rewrite replay_inert, Hh by done. done.
Qed.

(** A persisted item: what a replay makes of it, between inert ones. *)
Lemma replays_one s s' r1 item r2 :
  replays s → rollout s' = rollout s ++ r1 ++ [item] ++ r2 → Forall inert r1 → Forall inert r2 →
  (∀ h, items h ≈ items (history s) →
        ∃ h', replay_item tc h item = Some h' ∧ items h' ≈ items (history s')) →
  replays s'.
Proof.
  intros Hs Hr F1 F2 Hstep. eapply replays_ext; [done|exact Hr|].
  intros h H. destruct (Hstep h H) as (h' & E & H').
  exists h'. rewrite replay_app, (replay_inert _ _ r1) by done. cbn [mbind option_bind app replay].
  rewrite E. cbn [mbind option_bind]. by rewrite replay_inert.
Qed.

Lemma persist_items_rollout s l :
  rollout (persist_rollout_response_items true s l)
  = rollout s ++ filter (λ i, is_persisted_response_item i = true) (RResponseItem <$> l) ∧
  items (history (persist_rollout_response_items true s l)) = items (history s).
Proof. done. Qed.

Lemma send_raw_logs s l s' :
  send_raw_response_items false true raw s l = Some s' → logs s s'.
Proof.
  revert s. induction l as [|i l IH]; intros s; cbn [send_raw_response_items].
  { by intros [= <-]. }
  intros (s1 & H1 & H2)%bind_Some. apply send_event_logs in H1; [|done]. etrans; [exact H1|]. by apply IH.
Qed.

Lemma record_replays s l s' :
  replays s → record_conversation_items false true raw s tc l = Some s' → replays s'.
Proof.
  intros Hs. unfold record_conversation_items. intros (s1 & H1 & H2)%bind_Some.
  apply send_raw_logs in H2. eapply replays_logs; [|exact H2].
  unfold record_into_history in H1. apply bind_Some in H1 as (h1 & Hrec & [= <-]).
  eapply replays_ext; [exact Hs|done|]. intros h Hh. rewrite replay_items.
  destruct (record_items_same (history s) h l _ h1 Hrec) as (h' & -> & H'); [done|].
  exists h'. by split.
Qed.

Lemma collect_app l k : collect_user_messages (l ++ k) = collect_user_messages l ++ collect_user_messages k.
Proof. apply omap_app. Qed.
Lemma collect_silent l : Forall silent l → collect_user_messages l = [].
Proof. induction 1 as [|i l Hi _ IH]; [done|]. cbn. by rewrite Hi. Qed.
Lemma silent_stored p i i' : stored p i i' → silent i → silent i'.
Proof. intros [_ E]%(stored_parse []) H. unfold silent. by rewrite E. Qed.

Lemma compacted_replays s s1 s' :
  replays s → extends silent s s1 → compacted true tc s1 s' → replays s'.
Proof.
  intros Hs (l & Hl & HF & r & Hr & Fr) Hc.
  destruct Hc as (out & new & r1 & r2 & Hb & _ & _ & Hi & Hr' & F1 & F2).
  eapply (replays_one s s' (r ++ r1)); [done| |by apply Forall_app|exact F2|].
  { rewrite Hr', Hr. by rewrite <-!(assoc_L (++)). }
  intros h Hh. cbn [replay_item]. rewrite Hl in Hb.
  assert (collect_user_messages (items (history s) ++ l) = collect_user_messages (items h)) as Hcol.
  { by rewrite Hh, collect_app, (collect_silent l HF), app_nil_r. }
  rewrite Hcol, <-Hl in Hb. rewrite Hb. cbn [mbind option_bind]. eexists. split; [done|].
  cbn [items replace with_items]. rewrite Hi. rewrite ghosts_only. by rewrite app_nil_r.
Qed.

Lemma compact_replays max_retries stream fuel s uuid input s' prompts :
  (0 ≤ max_retries)%Z → stream_ok stream silent → texts_ok (items (history s)) →
  S (length (items (history s))) * S (Z.to_nat max_retries) ≤ fuel →
  run_compact_task_inner false true raw to_json max_retries stream fuel s tc uuid input
  = Some (TaskCompacted s', prompts) → replays s → replays s'.
Proof.
  intros Hm Hst Ht Hf Hrun Hs.
  destruct (run_compact_task_spec true raw to_json max_retries stream silent silent_stored
              ltac:(intros i Hi m; unfold silent in Hi; by rewrite Hi) fuel s tc uuid input)
    as (exit & ps & E & Hexit & _); [done..|].
  rewrite Hrun in E. injection E as <- _. destruct Hexit as (s1 & Hx & Hc).
  by eapply compacted_replays.
Qed.

Lemma remote_replays service s uuid s' :
  run_remote_compact_task_inner_impl false true raw to_json service s tc uuid = Some (s', Ok tt) →
  replays s → replays s'.
Proof.
  intros Hrun Hs. unfold run_remote_compact_task_inner_impl in Hrun.
  apply bind_Some in Hrun as (s1 & E1 & Hrun). apply send_event_logs in E1; [|done].
  apply bind_Some in Hrun as ([n h] & _ & Hrun). apply bind_Some in Hrun as (prompt & _ & Hrun).
  destruct (service prompt) as [new|]; [|done].
  apply bind_Some in Hrun as (s2 & E2 & Hrun). apply recompute_logs in E2.
  apply bind_Some in Hrun as (s3 & E3 & [= <-]). apply send_event_logs in E3; [|done].
  destruct E1 as [_ (r1 & R1 & F1)], E2 as [H2 (r2 & R2 & F2)], E3 as [H3 (r3 & R3 & F3)].
  eapply (replays_one s s3 (r1 ++ r2)); [done| |by apply Forall_app|exact F3|].
  { rewrite R3, persist_recorded by (repeat constructor). cbn [rollout with_log].
    rewrite R2. cbn [rollout replace_history with_history]. rewrite R1.
    by rewrite <-!(assoc_L (++)). }
  intros h' _. eexists. split; [done|]. rewrite H3. cbn. by rewrite H2.
Qed.

Lemma rollback_replays s active n s' :
  session_rollback false true raw to_json s tc active n = Some s' → replays s → replays s'.
Proof.
  unfold session_rollback. intros Hrun Hs. case_bool_decide.
  { injection Hrun as <-. eapply replays_logs; [done|]. by apply send_event_raw_logs. }
  destruct active.
  { injection Hrun as <-. eapply replays_logs; [done|]. by apply send_event_raw_logs. }
  apply bind_Some in Hrun as (s1 & E1 & [= <-]). apply recompute_logs in E1 as [H1 (r1 & R1 & F1)].
  eapply (replays_one s _ r1 (REventMsg (EvSessionRolledBack n)) []); [done| |done|done|].
  { change (rollout (send_event_raw true s1 (EvSessionRolledBack n)))
      with ((rollout s1 ++ [REventMsg (EvSessionRolledBack n)]) ++ []).
    by rewrite R1, app_nil_r, <-(assoc_L (++)). }
  intros h Hh. eexists. split; [done|]. cbn. rewrite H1. cbn. by apply drop_turns_same.
Qed.

Lemma abort_replays s reason s' :
  record_turn_aborted false true raw s tc reason = Some s' → replays s → replays s'.
Proof.
  unfold record_turn_aborted. intros (s1 & E1 & E2)%bind_Some Hs.
  apply send_event_logs in E2; [|done]. eapply replays_logs; [|exact E2]. clear E2 s'.
  destruct reason; [|by simplify_eq/=..].
  apply bind_Some in E1 as (s2 & E2 & [= <-]).
  apply bind_Some in E2 as (h1 & Hrec & [= <-]).
  eapply replays_ext; [exact Hs|done|]. intros h Hh.
  destruct (record_items_same _ h _ _ h1 Hrec) as (h' & E & H'); [done|].
  exists h'. split; [|done]. etrans; [|exact E]. apply (replay_items tc h [_]).
Qed.

Lemma last_ghost_same l idx c : last_ghost l = Some (idx, c) → delete idx l ≈ l.
Proof.
  unfold last_ghost. intros (k & _ & H)%bind_Some.
  destruct (l !! k) as [i|] eqn:Ei; [|done]. destruct i; try done. injection H as <- <-.
  unfold same_but_ghosts. rewrite delete_take_drop.
  rewrite <-(take_drop_middle l k _ Ei) at 3. rewrite !no_ghost_app. f_equal.
Qed.

Lemma undo_replays s cancelled restore s' :
  run_undo_task false true raw s cancelled restore = Some s' → replays s → replays s'.
Proof.
  unfold run_undo_task. intros (s1 & E1 & H)%bind_Some Hs. apply send_event_logs in E1; [|done].
  apply (replays_logs s s1 Hs) in E1. clear Hs.
  destruct cancelled; [apply send_event_logs in H; [by eapply replays_logs|done]|].
  destruct (last_ghost (items (history s1))) as [[idx c]|] eqn:El;
    [|apply send_event_logs in H; [by eapply replays_logs|done]].
  destruct (restore c); apply send_event_logs in H; try done; eapply replays_logs; try exact H; [done|].
  eapply (replays_ext s1 _ []); [done|cbn; by rewrite app_nil_r|]. intros h Hh. exists h.
  split; [done|]. cbn. by rewrite (last_ghost_same _ _ _ El).
Qed.

Lemma step_replays s s' : step s s' → replays s → replays s'.
Proof.
  destruct 1; intros Hs; eauto using record_replays, compact_replays, remote_replays,
    rollback_replays, abort_replays, undo_replays, replays_logs.
Qed.
Lemma steps_replay s s' : rtc step s s' → replays s → replays s'.
Proof. induction 1; eauto using step_replays. Qed.
End Refinement.


(** ** A session, step by step *)
Definition demo_ghost : ResponseItem :=
  GhostSnapshot {| commit_id := §"0123456789"; parent := None;
                   preexisting_untracked_files := []; preexisting_untracked_dirs := [] |}.
Definition or_else (s : Session) (o : option Session) : Session := default s o.
Definition demo_recorded : Session :=
  or_else (demo_session []) (record_conversation_items false true false (demo_session []) demo_tc
    [user_text §"hello"; demo_ghost; demo_assistant §"hi"]).
Definition demo_compacted : Session :=
  match run_compact_task_inner false true false (λ _, []) 1 demo_stream 8 demo_recorded demo_tc
          §"id" [CInputText §"summarize"] with
  | Some (TaskCompacted s, _) => s
  | _ => demo_recorded
  end.
Definition demo_continued : Session :=
  or_else demo_compacted (record_conversation_items false true false demo_compacted demo_tc
    [user_text §"more"; demo_assistant §"sure"]).
Definition demo_rolled_back : Session :=
  or_else demo_continued (session_rollback false true false (λ _, []) demo_continued demo_tc false 1).


(** ** Where the two part *)

(** The snapshots kept by a local compaction are not in what it writes to the
    rollout, so a resumed session cannot undo them. *)
Example snapshots_lost_on_resume :
  (last_ghost (items (history demo_compacted))) ≠ None ∧
  (last_ghost <$> reconstruct_history_from_rollout false demo_tc (rollout demo_compacted))
  = Some None.
Proof. by vm_compute. Qed.

(** An undo is written to the rollout but not replayed: a resumed session finds
    the snapshot again and would restore it a second time. *)
Example undone_snapshot_returns :
  let s := or_else demo_recorded (run_undo_task false true false demo_recorded false (λ _, None)) in
  last_ghost (items (history s)) = None ∧
  (is_Some (reconstruct_history_from_rollout false demo_tc (rollout s) ≫= last_ghost)).
Proof. split; [by vm_compute|]. eexists. by vm_compute. Qed.

(** A compaction that gives up after the service streamed an answer keeps the
    answer in memory but not in the rollout. *)
Example abandoned_answer_not_replayed :
  match run_compact_task_inner false true false (λ _, []) 0
          (λ _ _, Ok [Ok (OutputItemDone (demo_assistant §"partial"))]) 9 demo_recorded demo_tc
          §"id" [CInputText §"summarize"] with
  | Some (TaskGaveUp s', _) =>
      last (items (history s')) = Some (demo_assistant §"partial") ∧
      reconstruct_history_from_rollout false demo_tc (rollout s')
      = Some (items (history demo_recorded))
  | _ => False
  end.
Proof. by vm_compute. Qed.

(** Resuming records the replayed items once more: a tool's output that was cut
    when it was recorded is cut a second time. *)
Example resume_truncates_again :
  let tc := {| truncation_policy := Bytes 20; model := §"m"; context_window := None;
               base_instructions := []; initial_context := [] |} in
  let call := FunctionCall None §"f" §"{}" §"c" in
  let out := FunctionCallOutput §"c" {| content := §"the quick brown fox jumps over the lazy dog";
                                        content_items := None; success := None |} in
  let live := or_else (demo_session []) (record_conversation_items false true false
                (demo_session []) tc [call; out]) in
  let resumed := or_else (demo_session []) (record_initial_history false true false (demo_session [])
                   tc (ResumedHistory (rollout live))) in
  (reconstruct_history_from_rollout false tc (rollout live)) = Some (items (history live)) ∧
  items (history resumed) ≠ items (history live).
Proof. split; [by vm_compute|]. intros H. by vm_compute in H. Qed.
