(* ===== verification/TaggedLines.v ===== *)
(** * Tagged blocks in streamed text ([core/src/tagged_block_parser.rs],
    [core/src/proposed_plan_parser.rs])

    The parser receives a text in pieces and splits it into plain text and the
    contents of blocks whose tags stand alone on a line.  It emits text as soon
    as a line cannot be a tag any more.  The specification is by whole lines;
    the theorems show that the parser implements it for every way of cutting the
    text into pieces. *)
From S2P Require Import Prelude RustStr.

(** ** The parser *)
Section Parser.
Context {T : Type} `{EqDecision T}.

Record TagSpec := { open : str; close : str; tag : T }.

Inductive TaggedLineSegment :=
| Normal (text : str)
| TagStart (t : T)
| TagDelta (t : T) (text : str)
| TagEnd (t : T).

Record TaggedLineParser := {
  specs : list TagSpec;
  active_tag : option T;
  detect_tag : bool;
  line_buffer : str;
}.

Definition new (specs : list TagSpec) : TaggedLineParser :=
  {| specs := specs; active_tag := None; detect_tag := true; line_buffer := [] |}.

Definition set_active (a : option T) (p : TaggedLineParser) : TaggedLineParser :=
  {| specs := specs p; active_tag := a; detect_tag := detect_tag p; line_buffer := line_buffer p |}.
Definition set_detect (d : bool) (p : TaggedLineParser) : TaggedLineParser :=
  {| specs := specs p; active_tag := active_tag p; detect_tag := d; line_buffer := line_buffer p |}.
Definition set_buffer (b : str) (p : TaggedLineParser) : TaggedLineParser :=
  {| specs := specs p; active_tag := active_tag p; detect_tag := detect_tag p; line_buffer := b |}.

(** [push_segment]: texts of the same kind are merged, empty ones dropped. *)
Definition push_segment (segments : list TaggedLineSegment) (segment : TaggedLineSegment)
    : list TaggedLineSegment :=
  match segment with
  | Normal delta =>
      if bool_decide (delta = []) then segments
      else match last segments with
           | Some (Normal existing) => removelast segments ++ [Normal (existing ++ delta)]
           | _ => segments ++ [Normal delta]
           end
  | TagDelta t delta =>
      if bool_decide (delta = []) then segments
      else match last segments with
           | Some (TagDelta t' existing) =>
               if bool_decide (t' = t)
               then removelast segments ++ [TagDelta t' (existing ++ delta)]
               else segments ++ [TagDelta t delta]
           | _ => segments ++ [TagDelta t delta]
           end
  | TagStart t => segments ++ [TagStart t]
  | TagEnd t => segments ++ [TagEnd t]
  end.

Definition text_segment (active : option T) (text : str) : TaggedLineSegment :=
  match active with Some t => TagDelta t text | None => Normal text end.

Definition push_text (p : TaggedLineParser) (text : str) (segments : list TaggedLineSegment)
    : list TaggedLineSegment :=
  push_segment segments (text_segment (active_tag p) text).

Definition is_tag_prefix (p : TaggedLineParser) (slug : str) : bool :=
  let slug := trim_end slug in
  existsb (λ spec, starts_with (open spec) slug || starts_with (close spec) slug) (specs p).

Definition find_tag (f : TagSpec → str) (specs : list TagSpec) (slug : str) : option T :=
  tag <$> find (λ spec, bool_decide (f spec = slug)) specs.
Definition match_open (p : TaggedLineParser) (slug : str) : option T := find_tag open (specs p) slug.
Definition match_close (p : TaggedLineParser) (slug : str) : option T := find_tag close (specs p) slug.

(** The slug of a line: without its newline and the white space around. *)
Definition slug_of (line : str) : str := trim (default line (strip_suffix [LF] line)).

(** What a complete line is: a tag that opens or closes a block, or text. *)
Inductive LineKind := Opens (t : T) | Closes (t : T) | TextLine.

Definition line_kind (p : TaggedLineParser) (line : str) : LineKind :=
  let slug := slug_of line in
  match match_open p slug, active_tag p with
  | Some t, None => Opens t
  | _, active =>
      match match_close p slug with
      | Some t => if bool_decide (active = Some t) then Closes t else TextLine
      | None => TextLine
      end
  end.

(** The body shared by [finish_line] and [finish]. *)
Definition take_line (p : TaggedLineParser) (segments : list TaggedLineSegment)
    : TaggedLineParser * list TaggedLineSegment :=
  let line := line_buffer p in
  let p := set_buffer [] p in
  match line_kind p line with
  | Opens t => (set_active (Some t) p, push_segment segments (TagStart t))
  | Closes t => (set_active None p, push_segment segments (TagEnd t))
  | TextLine => (p, push_text p line segments)
  end.

Definition finish_line (p : TaggedLineParser) (segments : list TaggedLineSegment)
    : TaggedLineParser * list TaggedLineSegment :=
  let '(p, segments) := take_line p segments in (set_detect true p, segments).

(** One character; [run] is the text not pushed yet. *)
Definition parse_char (st : TaggedLineParser * str * list TaggedLineSegment) (ch : char)
    : TaggedLineParser * str * list TaggedLineSegment :=
  let '(p, run, segments) := st in
  if detect_tag p then
    let '(run, segments) :=
      if bool_decide (run = []) then (run, segments) else ([], push_text p run segments) in
    let p := set_buffer (line_buffer p ++ [ch]) p in
    if bool_decide (ch = LF) then
      let '(p, segments) := finish_line p segments in (p, run, segments)
    else
      let slug := trim_start (line_buffer p) in
      if bool_decide (slug = []) || is_tag_prefix p slug then (p, run, segments)
      else
        let buffered := line_buffer p in
        let p := set_detect false (set_buffer [] p) in
        (p, run, push_text p buffered segments)
  else
    let run := run ++ [ch] in
    if bool_decide (ch = LF) then (set_detect true p, [], push_text p run segments)
    else (p, run, segments).

Definition parse (p : TaggedLineParser) (delta : str)
    : TaggedLineParser * list TaggedLineSegment :=
  let '(p, run, segments) := foldl parse_char (p, [], []) delta in
  (p, if bool_decide (run = []) then segments else push_text p run segments).

Definition finish (p : TaggedLineParser) : TaggedLineParser * list TaggedLineSegment :=
  let '(p, segments) :=
    if bool_decide (line_buffer p = []) then (p, []) else take_line p [] in
  let '(p, segments) :=
    match active_tag p with
    | Some t => (set_active None p, push_segment segments (TagEnd t))
    | None => (p, segments)
    end in
  (set_detect true p, segments).

(** A whole stream: every piece, then the end. *)
Fixpoint parse_all (p : TaggedLineParser) (deltas : list str)
    : TaggedLineParser * list TaggedLineSegment :=
  match deltas with
  | [] => finish p
  | d :: ds =>
      let '(p, out) := parse p d in
      let '(p, out') := parse_all p ds in (p, out ++ out')
  end.

(** ** The specification: line by line *)
Definition merge (segments : list TaggedLineSegment) : list TaggedLineSegment :=
  foldl push_segment [] segments.

Fixpoint lines_spec (specs : list TagSpec) (active : option T) (ls : list str)
    : list TaggedLineSegment :=
  match ls with
  | [] => match active with Some t => [TagEnd t] | None => [] end
  | l :: ls' =>
      match line_kind (set_active active (new specs)) l with
      | Opens t => TagStart t :: lines_spec specs (Some t) ls'
      | Closes t => TagEnd t :: lines_spec specs None ls'
      | TextLine => text_segment active l :: lines_spec specs active ls'
      end
  end.

Definition spec_of (specs : list TagSpec) (text : str) : list TaggedLineSegment :=
  merge (lines_spec specs None (split_inclusive LF text)).
End Parser.
Arguments TagSpec T : clear implicits.
Arguments TaggedLineSegment T : clear implicits.
Arguments TaggedLineParser T : clear implicits.

(** * Correctness *)
Section Facts.
Context {T : Type} `{EqDecision T}.
Implicit Types (p : TaggedLineParser T) (segs : list (TaggedLineSegment T)).

(** ** Segments as sequences of characters and tags *)
Inductive item := Plain (c : char) | Inside (t : T) (c : char) | Start (t : T) | End_ (t : T).

Definition flat_segment (s : TaggedLineSegment T) : list item :=
  match s with
  | Normal text => Plain <$> text
  | TagDelta t text => Inside t <$> text
  | TagStart t => [Start t]
  | TagEnd t => [End_ t]
  end.
Definition flat segs : list item := segs ≫= flat_segment.

Lemma flat_app segs segs' : flat (segs ++ segs') = flat segs ++ flat segs'.
Proof. unfold flat. by rewrite bind_app. Qed.
Lemma flat_singleton s : flat [s] = flat_segment s.
Proof. unfold flat. cbn. by rewrite app_nil_r. Qed.

Lemma removelast_snoc {A} (l : list A) x : removelast (l ++ [x]) = l.
Proof. apply removelast_last. Qed.

(** Pushing a text either extends the last segment or appends one. *)
Lemma push_text_cases segs a text :
  text ≠ [] →
  (∃ segs' old, segs = segs' ++ [text_segment a old] ∧
     push_segment segs (text_segment a text) = segs' ++ [text_segment a (old ++ text)]) ∨
  (push_segment segs (text_segment a text) = segs ++ [text_segment a text] ∧
   ∀ segs' old, segs ≠ segs' ++ [text_segment a old]).
Proof.
  intros Ht. destruct segs as [|s segs _] using rev_ind.
  - right. destruct a; cbn; rewrite bool_decide_false by done; cbn; split; try done; intros [|??] ?; done.
  - destruct a as [t|]; cbn; rewrite bool_decide_false, last_snoc, removelast_snoc by done;
      destruct s as [old|t'|t' old|t'];
      try (right; split; [done|]; by intros segs' old' [_ [=]]%app_inj_tail).
    + case_bool_decide as Heq; [subst; left; by eexists _, _|].
      right. split; [done|]. intros segs' old' [_ [= -> ->]]%app_inj_tail. done.
    + left. by eexists _, _.
Qed.

Lemma flat_text a s : flat_segment (text_segment a s) = match a with Some t => Inside t <$> s | None => Plain <$> s end.
Proof. by destruct a. Qed.

Lemma flat_text_app a s s' :
  flat_segment (text_segment a (s ++ s'))
  = flat_segment (text_segment a s) ++ flat_segment (text_segment a s').
Proof. rewrite !flat_text. destruct a; by rewrite fmap_app. Qed.

Lemma push_text_nil segs a : push_segment segs (text_segment a []) = segs.
Proof. by destruct a. Qed.

Lemma flat_push_text segs a s :
  flat (push_segment segs (text_segment a s)) = flat segs ++ flat_segment (text_segment a s).
Proof.
  destruct (decide (s = [])) as [->|Hne].
  { rewrite push_text_nil. destruct a; cbn; by rewrite app_nil_r. }
  destruct (push_text_cases segs a s Hne) as [(segs' & old & -> & ->)|[-> _]].
  - by rewrite !flat_app, !flat_singleton, flat_text_app, (assoc_L (++)).
  - by rewrite flat_app, flat_singleton.
Qed.

Lemma flat_push segs s : flat (push_segment segs s) = flat segs ++ flat_segment s.
Proof.
  destruct s as [text|t|t text|t].
  - apply (flat_push_text segs None).
  - cbn. by rewrite flat_app.
  - apply (flat_push_text segs (Some t)).
  - cbn. by rewrite flat_app.
Qed.

(** Pushing a text in two parts is pushing it at once. *)
Lemma push_text_app segs a s s' :
  push_segment (push_segment segs (text_segment a s)) (text_segment a s')
  = push_segment segs (text_segment a (s ++ s')).
Proof.
  destruct (decide (s = [])) as [->|Hs]; [by rewrite push_text_nil|].
  destruct (decide (s' = [])) as [->|Hs']; [by rewrite push_text_nil, app_nil_r|].
  assert (s ++ s' ≠ []) as Hss by (by destruct s).
  assert (∀ segs1 old, push_segment (segs1 ++ [text_segment a old]) (text_segment a s')
                       = segs1 ++ [text_segment a (old ++ s')]) as Hext.
  { intros segs1 old. destruct (push_text_cases (segs1 ++ [text_segment a old]) a s' Hs')
      as [(segs2 & old2 & Heq & ->)|[_ Hno]]; [|by destruct (Hno segs1 old)].
    apply app_inj_tail in Heq as [-> Heq]. by destruct a; simplify_eq. }
  destruct (push_text_cases segs a s Hs) as [(segs1 & old & -> & ->)|[-> Hno]].
  - rewrite Hext. destruct (push_text_cases (segs1 ++ [text_segment a old]) a (s ++ s') Hss)
      as [(segs2 & old2 & Heq & ->)|[_ Hno]]; [|by destruct (Hno segs1 old)].
    apply app_inj_tail in Heq as [-> Heq]. destruct a; simplify_eq; by rewrite (assoc_L (++)).
  - rewrite Hext. destruct (push_text_cases segs a (s ++ s') Hss) as [(segs2 & old2 & -> & _)|[-> _]];
      [by destruct (Hno segs2 old2)|done].
Qed.

(** Merging depends on the flat sequence only. *)
Definition segment_of (i : item) : TaggedLineSegment T :=
  match i with
  | Plain c => Normal [c]
  | Inside t c => TagDelta t [c]
  | Start t => TagStart t
  | End_ t => TagEnd t
  end.
Definition regroup (items : list item) segs :=
  foldl (λ acc i, push_segment acc (segment_of i)) segs items.

Lemma regroup_segment s segs : regroup (flat_segment s) segs = push_segment segs s.
Proof.
  assert (∀ a text, regroup (flat_segment (text_segment a text)) segs
                    = push_segment segs (text_segment a text)) as Htext.
  { intros a text. induction text as [|c text IH] using rev_ind; [by rewrite push_text_nil; destruct a|].
    rewrite flat_text_app. unfold regroup in *. rewrite foldl_app, IH, <-push_text_app.
    by destruct a. }
  destruct s as [text|t|t text|t]; [apply (Htext None)|done|apply (Htext (Some t))|done].
Qed.

Lemma merge_flat segs : merge segs = regroup (flat segs) [].
Proof.
  unfold merge. induction segs as [|s segs IH] using rev_ind; [done|].
  rewrite foldl_app, IH, flat_app, flat_singleton. cbn [foldl].
  rewrite <-regroup_segment. unfold regroup. by rewrite foldl_app.
Qed.

Lemma merge_eq segs segs' : flat segs = flat segs' → merge segs = merge segs'.
Proof. intros E. by rewrite !merge_flat, E. Qed.

(** ** The parser as a machine that emits items, one character at a time *)
Definition step p (ch : char) : TaggedLineParser T * list item :=
  if detect_tag p then
    let p := set_buffer (line_buffer p ++ [ch]) p in
    if bool_decide (ch = LF) then
      let '(p, segs) := finish_line p [] in (p, flat segs)
    else
      let slug := trim_start (line_buffer p) in
      if bool_decide (slug = []) || is_tag_prefix p slug then (p, [])
      else (set_detect false (set_buffer [] p),
            flat_segment (text_segment (active_tag p) (line_buffer p)))
  else
    (if bool_decide (ch = LF) then set_detect true p else p,
     flat_segment (text_segment (active_tag p) [ch])).

Fixpoint steps p (s : str) : TaggedLineParser T * list item :=
  match s with
  | [] => (p, [])
  | c :: s' =>
      let '(p, e) := step p c in let '(p, e') := steps p s' in (p, e ++ e')
  end.

Lemma steps_app p s s' :
  steps p (s ++ s') = let '(p, e) := steps p s in let '(p, e') := steps p s' in (p, e ++ e').
Proof.
  revert p. induction s as [|c s IH]; intros p; cbn; [by destruct (steps p s')|].
  destruct (step p c) as [p1 e1]. rewrite IH. destruct (steps p1 s) as [p2 e2].
  destruct (steps p2 s') as [p3 e3]. by rewrite (assoc_L (++)).
Qed.

Lemma take_line_segs p segs :
  (take_line p segs).1 = (take_line p []).1 ∧
  flat (take_line p segs).2 = flat segs ++ flat (take_line p []).2.
Proof.
  unfold take_line. destruct (line_kind _ _) as [t|t|]; cbn [fst snd];
    (split; [done|]); unfold push_text; by rewrite !flat_push.
Qed.

Definition total (st : TaggedLineParser T * str * list (TaggedLineSegment T)) : list item :=
  flat st.2 ++ flat_segment (text_segment (active_tag st.1.1) st.1.2).

Lemma parse_char_step st ch :
  (parse_char st ch).1.1 = (step st.1.1 ch).1 ∧
  total (parse_char st ch) = total st ++ (step st.1.1 ch).2.
Proof.
  destruct st as [[p run] segs]. unfold parse_char, step, total. cbn [fst snd].
  destruct (detect_tag p).
  - assert (∃ segs', (if bool_decide (run = []) then (run, segs) else ([], push_text p run segs))
                     = ([], segs') ∧
              flat segs' = flat segs ++ flat_segment (text_segment (active_tag p) run))
      as (segs' & -> & <-).
    { case_bool_decide as Hr; [subst; eexists; split; [done|]|eexists; split; [done|apply flat_push_text]].
      rewrite flat_text. destruct (active_tag p); by rewrite app_nil_r. }
    set (p1 := set_buffer _ p).
    assert (∀ a, flat_segment (text_segment a []) = []) as Hnil by by intros [].
    case_bool_decide.
    + unfold finish_line. destruct (take_line_segs p1 segs') as [H1 H2].
      destruct (take_line p1 segs') as [p2 s2], (take_line p1 []) as [p3 s3]. cbn in *. subst.
      by rewrite Hnil, app_nil_r.
    + destruct (_ || _); cbn [fst snd]; rewrite Hnil, !app_nil_r; (split; [done|]); [done|].
      unfold push_text. by rewrite flat_push_text.
  - case_bool_decide; cbn [fst snd]; (split; [done|]).
    + unfold push_text. rewrite flat_push_text, flat_text_app, !(assoc_L (++)).
      cbn [set_detect active_tag]. destruct (active_tag p); by rewrite app_nil_r.
    + by rewrite flat_text_app, (assoc_L (++)).
Qed.

Lemma foldl_parse_char st s :
  (foldl parse_char st s).1.1 = (steps st.1.1 s).1 ∧
  total (foldl parse_char st s) = total st ++ (steps st.1.1 s).2.
Proof.
  revert st. induction s as [|c s IH]; intros st; cbn; [by rewrite app_nil_r|].
  destruct (IH (parse_char st c)) as [-> ->]. destruct (parse_char_step st c) as [-> ->].
  destruct (step st.1.1 c) as [p1 e1]. cbn. destruct (steps p1 s). cbn. by rewrite (assoc_L (++)).
Qed.

Lemma parse_steps p delta :
  (parse p delta).1 = (steps p delta).1 ∧ flat (parse p delta).2 = (steps p delta).2.
Proof.
  unfold parse. destruct (foldl_parse_char (p, [], []) delta) as [H1 H2].
  destruct (foldl parse_char (p, [], []) delta) as [[p' run] segs]. unfold total in H2. cbn in *.
  split; [done|]. assert (flat_segment (text_segment (active_tag p) []) = []) as Hn
    by by destruct (active_tag p). rewrite Hn in H2. cbn in H2. rewrite <-H2.
  case_bool_decide as Hr.
  - subst run. rewrite flat_text. destruct (active_tag p'); by rewrite app_nil_r.
  - apply flat_push_text.
Qed.

(** However the text is cut, the items are those of the whole text. *)
Lemma parse_all_steps p deltas :
  (parse_all p deltas).1 = (finish (steps p (concat deltas)).1).1 ∧
  flat (parse_all p deltas).2
  = (steps p (concat deltas)).2 ++ flat (finish (steps p (concat deltas)).1).2.
Proof.
  revert p. induction deltas as [|d ds IH]; intros p; cbn [parse_all concat]; [done|].
  destruct (parse_steps p d) as [H1 H2]. rewrite steps_app.
  destruct (parse p d) as [p1 out], (steps p d) as [p2 e]. cbn in H1, H2. subst p2 e.
  destruct (IH p1) as [H3 H4]. destruct (parse_all p1 ds) as [p3 out'].
  destruct (steps p1 (concat ds)) as [p4 e4]. cbn [fst snd] in *.
  split; [done|]. by rewrite flat_app, H4, (assoc_L (++)).
Qed.

(** ** One line *)
Section Line.
Context (S : list (TagSpec T)) (a : option T).

Definition ready : TaggedLineParser T := set_active a (new S).
Definition waiting (l : str) : TaggedLineParser T := set_buffer l ready.
Definition flushed : TaggedLineParser T := set_detect false ready.

(** The beginning of a line that may still turn out to be a tag. *)
Definition may_be_tag (l : str) : bool :=
  bool_decide (trim_start l = []) || is_tag_prefix ready (trim_start l).
Definition holds (l : str) : bool := forallb (λ k, may_be_tag (take k l)) (seq 1 (length l)).

Lemma holds_snoc l c : holds (l ++ [c]) = holds l && may_be_tag (l ++ [c]).
Proof.
  unfold holds. rewrite length_app, seq_app, forallb_app. cbn.
  rewrite take_ge by (rewrite length_app; cbn; lia). rewrite andb_true_r. f_equal.
  apply eq_true_iff_eq. rewrite !forallb_forall. apply forall_proper. intros k.
  rewrite in_seq. split; intros Hk Hr; specialize (Hk Hr); by rewrite take_app_le in * by lia.
Qed.

Lemma steps_line l :
  LF ∉ l →
  steps ready l = if holds l then (waiting l, []) else (flushed, flat_segment (text_segment a l)).
Proof.
  induction l as [|c l IH] using rev_ind; [done|]. intros Hl.
  assert (LF ∉ l ∧ c ≠ LF) as [Hl' Hc] by set_solver.
  rewrite steps_app, (IH Hl'), holds_snoc. cbn [steps].
  destruct (holds l); cbn [andb]; unfold step; cbn -[flat_segment is_tag_prefix].
  - rewrite !(bool_decide_false (c = LF)) by done. unfold may_be_tag.
    change (is_tag_prefix ready) with (is_tag_prefix (set_buffer (l ++ [c]) (waiting l))).
    destruct (_ || _); [done|]. by rewrite app_nil_r.
  - rewrite (bool_decide_false (c = LF)) by done. by rewrite app_nil_r, flat_text_app.
Qed.

(** A tag line is held to its end. *)
Lemma tag_prefix_of m w k :
  Forall (λ c, is_whitespace c = true) w → ∃ r, m = trim_end (take k (m ++ w)) ++ r.
Proof.
  intros Hw. destruct (decide (k ≤ length m)) as [Hk|Hk].
  - rewrite take_app_le by done. destruct (trim_end_prefix (take k m)) as (v & Hv & _).
    exists (v ++ drop k m). by rewrite (assoc_L (++)), <-Hv, take_drop.
  - rewrite take_app_ge by lia. rewrite trim_end_app_ws by by apply Forall_take.
    destruct (trim_end_prefix m) as (v & Hv & _). eauto.
Qed.

Lemma tag_line_holds l spec :
  spec ∈ S → (open spec = trim l ∨ close spec = trim l) → holds l = true.
Proof.
  intros Hs Heq. apply forallb_forall. intros k _. unfold may_be_tag.
  destruct (trim_start_suffix l) as (w & Hl & Hw).
  destruct (trim_end_prefix (trim_start l)) as (w2 & Hl2 & Hw2). fold (trim l) in Hl2.
  destruct (decide (k ≤ length w)) as [Hk|Hk].
  - assert (trim_start (take k l) = []) as ->; [|done].
    rewrite Hl, take_app_le by done. unfold trim_start. rewrite <-(app_nil_r (take k w)).
    by rewrite drop_while_app by by apply Forall_take.
  - apply orb_true_iff. destruct (decide (take (k - length w) (trim_start l) = [])) as [E|E].
    { left. apply bool_decide_eq_true. rewrite Hl, take_app_ge, E by lia.
      unfold trim_start. by rewrite drop_while_app. }
    right. unfold is_tag_prefix. apply existsb_exists. exists spec.
    split; [by apply list_elem_of_In|].
    assert (trim_start (take k l) = take (k - length w) (trim_start l)) as ->.
    { rewrite Hl at 1. rewrite take_app_ge by lia. unfold trim_start at 1.
      rewrite drop_while_app by done. apply drop_while_skip. intros c Hc.
      apply (drop_while_head is_whitespace l). fold (trim_start l).
      destruct (trim_start l); [by rewrite take_nil in Hc|].
      by destruct (k - length w); [done|]. }
    rewrite Hl2. destruct (tag_prefix_of (trim l) w2 (k - length w) Hw2) as (r & Hr).
    apply orb_true_iff. rewrite !starts_with_true.
    destruct Heq as [->| ->]; [left|right]; by exists r.
Qed.

Lemma find_tag_Some (f : TagSpec T → str) slug t :
  find_tag f S slug = Some t → ∃ spec, spec ∈ S ∧ f spec = slug ∧ tag spec = t.
Proof.
  unfold find_tag. destruct (find _ S) as [spec|] eqn:E; cbn; [|done]. intros [= <-].
  apply find_some in E as [Hin Hb%bool_decide_eq_true]. exists spec. by rewrite list_elem_of_In.
Qed.

Lemma not_held_text line l :
  slug_of line = trim l → holds l = false → line_kind ready line = TextLine.
Proof.
  intros Hslug Hh. unfold line_kind. rewrite Hslug.
  assert (∀ t, match_open ready (trim l) ≠ Some t ∧ match_close ready (trim l) ≠ Some t) as Hno.
  { intros t. split; intros (spec & Hs & Heq & _)%find_tag_Some; rewrite (tag_line_holds l spec) in Hh;
      by auto. }
  destruct (match_open ready (trim l)) as [t|] eqn:Eo; [by destruct (Hno t)|].
  destruct (match_close ready (trim l)) as [t|] eqn:Ec; [by destruct (Hno t)|done].
Qed.

Lemma slug_of_line l : slug_of (l ++ [LF]) = trim l.
Proof. unfold slug_of. by rewrite (proj2 (strip_suffix_Some [LF] _ l) eq_refl). Qed.
Lemma slug_of_last l : LF ∉ l → slug_of l = trim l.
Proof.
  intros Hl. unfold slug_of. destruct (strip_suffix [LF] l) as [r|] eqn:E; [|done].
  apply strip_suffix_Some in E. subst. set_solver.
Qed.
End Line.

(** What a line does to the open tag and what it emits. *)
Definition after_line (S : list (TagSpec T)) (a : option T) (l : str)
    : option T * TaggedLineSegment T :=
  match line_kind (ready S a) l with
  | Opens t => (Some t, TagStart t)
  | Closes t => (None, TagEnd t)
  | TextLine => (a, text_segment a l)
  end.

Lemma take_waiting_line S a l :
  let '(p, segs) := take_line (waiting S a l) [] in
  p = ready S (after_line S a l).1 ∧ flat segs = flat_segment (after_line S a l).2.
Proof.
  unfold take_line, after_line. cbn [line_buffer waiting set_buffer].
  change (line_kind (set_buffer [] (waiting S a l)) l) with (line_kind (ready S a) l).
  destruct (line_kind (ready S a) l); cbn [fst snd]; split; try done.
  unfold push_text. by rewrite flat_push_text.
Qed.

Lemma steps_full_line S a l :
  LF ∉ l →
  steps (ready S a) (l ++ [LF])
  = (ready S (after_line S a (l ++ [LF])).1, flat_segment (after_line S a (l ++ [LF])).2).
Proof.
  intros Hl. rewrite steps_app, steps_line by done. destruct (holds S a l) eqn:Eh.
  - cbn [steps]. unfold step. cbn [detect_tag waiting set_buffer ready set_active new line_buffer].
    rewrite bool_decide_true by done. unfold finish_line.
    pose proof (take_waiting_line S a (l ++ [LF])) as Ht.
    change (set_buffer (l ++ [LF]) _) with (waiting S a (l ++ [LF])).
    destruct (take_line (waiting S a (l ++ [LF])) []) as [p segs]. destruct Ht as [-> ->].
    by rewrite app_nil_r.
  - unfold after_line. rewrite (not_held_text S a _ l) by (by rewrite ?slug_of_line).
    cbn [steps fst snd]. unfold step. cbn [detect_tag flushed set_detect].
    rewrite bool_decide_true by done. by rewrite app_nil_r, flat_text_app.
Qed.

Lemma finish_ready S a :
  finish (ready S a) = (ready S None, match a with Some t => [TagEnd t] | None => [] end).
Proof. by destruct a. Qed.

Lemma finish_last_line S a l :
  LF ∉ l →
  let '(p, e) := steps (ready S a) l in
  (finish p).1 = ready S None ∧
  e ++ flat (finish p).2 = flat (lines_spec S a (if bool_decide (l = []) then [] else [l])).
Proof.
  intros Hl. rewrite steps_line by done. case_bool_decide as Hne.
  { subst. cbn [holds length seq forallb]. change (waiting S a []) with (ready S a).
    by rewrite finish_ready. }
  assert (flat (lines_spec S a [l]) = flat_segment (after_line S a l).2
          ++ flat (lines_spec S (after_line S a l).1 [])) as ->.
  { cbn [lines_spec]. unfold after_line. change (set_active a (new S)) with (ready S a).
    by destruct (line_kind (ready S a) l). }
  destruct (holds S a l) eqn:Eh.
  - unfold finish. cbn [line_buffer waiting set_buffer]. rewrite bool_decide_false by done.
    pose proof (take_waiting_line S a l) as Ht.
    change (set_buffer l (ready S a)) with (waiting S a l).
    destruct (take_line (waiting S a l) []) as [p segs]. destruct Ht as [-> Hf].
    destruct (after_line S a l) as [[t|] s]; cbn [fst snd] in *;
      cbn [active_tag ready set_active]; (split; [done|]); cbn [snd];
      rewrite app_nil_l, ?flat_push, Hf; [done|]. by rewrite app_nil_r.
  - unfold after_line. rewrite (not_held_text S a l l) by (by rewrite ?slug_of_last).
    cbn [fst snd]. by destruct a.
Qed.

Lemma steps_text (S : list (TagSpec T)) a text :
  let '(p, e) := steps (ready S a) text in
  (finish p).1 = ready S None ∧
  e ++ flat (finish p).2 = flat (lines_spec S a (split_inclusive LF text)).
Proof.
  remember (length text) as n eqn:En. revert a text En.
  induction n as [n IH] using lt_wf_ind. intros a text ->.
  destruct (decide (LF ∈ text)) as [Hin|Hno].
  - apply list_elem_of_split_l in Hin as (l & text' & -> & Hl).
    change (LF :: text') with ([LF] ++ text'). rewrite split_inclusive_app by done.
    rewrite app_assoc, steps_app, steps_full_line by done.
    specialize (IH (length text') ltac:(rewrite !length_app; cbn; lia)
                  (after_line S a (l ++ [LF])).1 text' eq_refl).
    destruct (steps _ text') as [p e]. destruct IH as [H1 H2]. split; [done|].
    rewrite <-app_assoc, H2. cbn [lines_spec]. unfold after_line.
    change (set_active a (new S)) with (ready S a).
    by destruct (line_kind (ready S a) (l ++ [LF])).
  - pose proof (finish_last_line S a text Hno) as Hf.
    assert (split_inclusive LF text = if bool_decide (text = []) then [] else [text]) as ->; [|done].
    case_bool_decide; [by subst|by apply split_inclusive_last].
Qed.

Lemma stream_flat (S : list (TagSpec T)) deltas :
  (parse_all (new S) deltas).1 = new S ∧
  flat (parse_all (new S) deltas).2
  = flat (lines_spec S None (split_inclusive LF (concat deltas))).
Proof.
  destruct (parse_all_steps (new S) deltas) as [H1 H2].
  pose proof (steps_text S None (concat deltas)) as Ht.
  change (ready S None) with (new S) in Ht. destruct (steps (new S) (concat deltas)) as [p e].
  cbn [fst snd] in *. destruct Ht as [H3 H4]. by rewrite H1, H2, H4.
Qed.

(** Streaming: however a text is cut into pieces (also inside tags), what the
    parser emits for the pieces and at the end is, up to merging adjacent texts,
    what the lines of the whole text prescribe: a tag alone on its line opens or
    closes a block where it may, every other line is text of the block it is in,
    nothing is lost, and an open block is closed at the end.  Afterwards the
    parser is as new. *)
Theorem stream_spec (S : list (TagSpec T)) deltas :
  merge (parse_all (new S) deltas).2 = spec_of S (concat deltas) ∧
  (parse_all (new S) deltas).1 = new S.
Proof.
  destruct (stream_flat S deltas) as [H1 H2]. split; [|done]. by apply merge_eq.
Qed.
End Facts.

(** ** Proposed plans *)
Inductive PlanTag := ProposedPlan.
#[export] Instance PlanTag_eq : EqDecision PlanTag.
Proof. solve_decision. Defined.

Definition OPEN_TAG : str := §"<proposed_plan>".
Definition CLOSE_TAG : str := §"</proposed_plan>".
Definition PLAN_SPECS : list (TagSpec PlanTag) :=
  [{| open := OPEN_TAG; close := CLOSE_TAG; tag := ProposedPlan |}].

Inductive ProposedPlanSegment :=
| PlanNormal (text : str)
| ProposedPlanStart
| ProposedPlanDelta (text : str)
| ProposedPlanEnd.

Definition map_plan_segment (s : TaggedLineSegment PlanTag) : ProposedPlanSegment :=
  match s with
  | Normal text => PlanNormal text
  | TagStart ProposedPlan => ProposedPlanStart
  | TagDelta ProposedPlan text => ProposedPlanDelta text
  | TagEnd ProposedPlan => ProposedPlanEnd
  end.

(** [parser.parse(text).into_iter().chain(parser.finish())] *)
Definition plan_segments (text : str) : list ProposedPlanSegment :=
  map_plan_segment <$> (parse_all (new PLAN_SPECS) [text]).2.

Definition strip_step (out : str) (s : ProposedPlanSegment) : str :=
  match s with PlanNormal delta => out ++ delta | _ => out end.
Definition strip_proposed_plan_blocks (text : str) : str :=
  foldl strip_step [] (plan_segments text).

Definition extract_step (st : bool * str) (s : ProposedPlanSegment) : bool * str :=
  match s with
  | ProposedPlanStart => (true, [])
  | ProposedPlanDelta delta => (st.1, st.2 ++ delta)
  | ProposedPlanEnd | PlanNormal _ => st
  end.
Definition extract_proposed_plan_text (text : str) : option str :=
  let '(saw_plan_block, plan_text) := foldl extract_step (false, []) (plan_segments text) in
  if saw_plan_block : bool then Some plan_text else None.

(** The lines outside the blocks, and the contents of the blocks. *)
Fixpoint outside (a : option PlanTag) (ls : list str) : list str :=
  match ls with
  | [] => []
  | l :: ls' =>
      match line_kind (set_active a (new PLAN_SPECS)) l with
      | Opens t => outside (Some t) ls'
      | Closes _ => outside None ls'
      | TextLine => match a with None => l :: outside a ls' | Some _ => outside a ls' end
      end
  end.

Fixpoint blocks (a : option PlanTag) (current : str) (ls : list str) : list str :=
  match ls with
  | [] => match a with Some _ => [current] | None => [] end
  | l :: ls' =>
      match line_kind (set_active a (new PLAN_SPECS)) l with
      | Opens t => blocks (Some t) [] ls'
      | Closes _ => current :: blocks None [] ls'
      | TextLine =>
          match a with Some _ => blocks a (current ++ l) ls' | None => blocks a current ls' end
      end
  end.

(** Both functions only look at the items. *)
Definition plain_char (i : item (T := PlanTag)) : option char :=
  match i with Plain c => Some c | _ => None end.
Definition extract_item (st : bool * str) (i : item (T := PlanTag)) : bool * str :=
  match i with
  | Start _ => (true, [])
  | Inside _ c => (st.1, st.2 ++ [c])
  | _ => st
  end.

Lemma omap_plain (text : str) : omap plain_char (Plain <$> text) = text.
Proof. induction text as [|c text IH]; cbn; [done|]. by f_equal. Qed.
Lemma omap_inside t (text : str) : omap plain_char (Inside t <$> text) = [].
Proof. by induction text. Qed.

Lemma strip_flat segs out :
  foldl strip_step out (map_plan_segment <$> segs) = out ++ omap plain_char (flat segs).
Proof.
  revert out. induction segs as [|s segs IH]; intros out; [by rewrite app_nil_r|].
  rewrite fmap_cons. cbn [foldl]. rewrite IH. unfold flat. rewrite bind_cons, omap_app.
  rewrite (assoc_L (++)). f_equal.
  destruct s as [text|[]|[] text|[]]; cbn; by rewrite ?app_nil_r, ?omap_plain, ?omap_inside, ?app_nil_r.
Qed.

Lemma extract_inside t (text : str) st :
  foldl extract_item st (Inside t <$> text) = (st.1, st.2 ++ text).
Proof.
  revert st. induction text as [|c text IH]; intros [b s]; cbn; [by rewrite app_nil_r|].
  rewrite IH. cbn. by rewrite <-app_assoc.
Qed.
Lemma extract_plain (text : str) st : foldl extract_item st (Plain <$> text) = st.
Proof. revert st. induction text as [|c text IH]; intros st; [done|]. apply IH. Qed.

Lemma extract_flat segs st :
  foldl extract_step st (map_plan_segment <$> segs) = foldl extract_item st (flat segs).
Proof.
  revert st. induction segs as [|s segs IH]; intros st; [done|].
  rewrite fmap_cons. unfold flat. rewrite bind_cons, foldl_app. cbn [foldl]. rewrite IH.
  unfold flat. f_equal. destruct s as [text|[]|[] text|[]]; cbn [flat_segment];
    by rewrite ?extract_plain, ?extract_inside.
Qed.

Lemma plan_flat text :
  flat (parse_all (new PLAN_SPECS) [text]).2
  = flat (lines_spec PLAN_SPECS None (split_inclusive LF text)).
Proof.
  destruct (stream_flat PLAN_SPECS [text]) as [_ H]. rewrite H. cbn [concat].
  by rewrite app_nil_r.
Qed.

Lemma flat_cons {T} (s : TaggedLineSegment T) segs : flat (s :: segs) = flat_segment s ++ flat segs.
Proof. done. Qed.

Lemma strip_outside text :
  strip_proposed_plan_blocks text = concat (outside None (split_inclusive LF text)).
Proof.
  unfold strip_proposed_plan_blocks, plan_segments. rewrite strip_flat, plan_flat. cbn [app].
  generalize (None : option PlanTag). induction (split_inclusive LF text) as [|l ls IH]; intros a.
  - by destruct a.
  - cbn [lines_spec outside]. destruct (line_kind _ l) as [t|t|]; rewrite flat_cons, omap_app, IH;
      [done..|]. destruct a; cbn [text_segment flat_segment];
      by rewrite ?omap_inside, ?omap_plain.
Qed.

Lemma outside_no_open ls a :
  Forall (λ l, line_kind (new PLAN_SPECS) l = TextLine) (outside a ls).
Proof.
  revert a. induction ls as [|l ls IH]; intros a; cbn [outside]; [constructor|].
  destruct (line_kind _ l) as [t|t|] eqn:E; [done..|]. destruct a; [done|]. by constructor.
Qed.

Lemma outside_texts ls :
  Forall (λ l, line_kind (new PLAN_SPECS) l = TextLine) ls → outside None ls = ls.
Proof.
  induction 1 as [|l ls Hl _ IH]; [done|]. cbn [outside].
  change (set_active None (new PLAN_SPECS)) with (new PLAN_SPECS). by rewrite Hl, IH.
Qed.

(** The lines that remain are lines of the result again. *)
Lemma split_inclusive_last_open s l ls :
  split_inclusive LF s = l :: ls → ls ≠ [] → ∃ l', l = l' ++ [LF] ∧ LF ∉ l'.
Proof.
  intros E Hne. destruct (decide (LF ∈ s)) as [Hin|Hno].
  - apply list_elem_of_split_l in Hin as (l' & s' & -> & Hl).
    change (LF :: s') with ([LF] ++ s') in E. rewrite split_inclusive_app in E by done.
    injection E as <- _. eauto.
  - destruct s as [|c s]; [done|]. rewrite split_inclusive_last in E by done. by simplify_eq.
Qed.

Lemma split_inclusive_tail s l ls :
  split_inclusive LF s = l :: ls → ∃ s', split_inclusive LF s' = ls.
Proof.
  intros E. destruct (decide (LF ∈ s)) as [Hin|Hno].
  - apply list_elem_of_split_l in Hin as (l' & s' & -> & Hl).
    change (LF :: s') with ([LF] ++ s') in E. rewrite split_inclusive_app in E by done.
    injection E as _ <-. eauto.
  - exists []. destruct s as [|c s]; [done|]. rewrite split_inclusive_last in E by done.
    by simplify_eq.
Qed.

Lemma split_concat_outside s a :
  split_inclusive LF (concat (outside a (split_inclusive LF s)))
  = outside a (split_inclusive LF s).
Proof.
  remember (split_inclusive LF s) as ls eqn:Els. symmetry in Els. revert s a Els.
  induction ls as [|l ls IH]; intros s a Els; [done|]. cbn [outside].
  destruct (split_inclusive_tail _ _ _ Els) as (s' & Hs').
  destruct (line_kind _ l) as [t|t|]; [by eapply IH..|]. destruct a; [by eapply IH|]. cbn [concat].
  destruct (decide (ls = [])) as [->|Hne].
  - cbn [outside concat]. rewrite app_nil_r.
    assert (l ≠ [] ∧ split_inclusive LF l = [l]) as [_ ->]; [|done].
    destruct (decide (LF ∈ s)) as [Hin|Hno].
    + apply list_elem_of_split_l in Hin as (l' & s2 & -> & Hl).
      change (LF :: s2) with ([LF] ++ s2) in Els. rewrite split_inclusive_app in Els by done.
      injection Els as <- Hs2. split; [by destruct l'|].
      by rewrite <-(app_nil_r (l' ++ [LF])), <-app_assoc, split_inclusive_app.
    + destruct s as [|c s]; [done|]. rewrite split_inclusive_last in Els by done. simplify_eq.
      split; [done|by apply split_inclusive_last].
  - destruct (split_inclusive_last_open _ _ _ Els Hne) as (l' & -> & Hl).
    rewrite <-app_assoc, split_inclusive_app by done. f_equal. by eapply IH.
Qed.

(** The text outside the plans: stripping keeps exactly the lines that are
    neither in a block nor its tags, in order and unchanged; what is left has no
    opening tag on a line of its own, and stripping it again changes nothing. *)
Theorem strip_spec text :
  strip_proposed_plan_blocks text = concat (outside None (split_inclusive LF text)) ∧
  Forall (λ l, trim l ≠ OPEN_TAG) (split_inclusive LF (strip_proposed_plan_blocks text)) ∧
  strip_proposed_plan_blocks (strip_proposed_plan_blocks text) = strip_proposed_plan_blocks text.
Proof.
  pose proof (strip_outside text) as Hs. split; [done|].
  rewrite (strip_outside (strip_proposed_plan_blocks text)), Hs, split_concat_outside.
  pose proof (outside_no_open (split_inclusive LF text) None) as Ho. split.
  - eapply Forall_impl; [exact Ho|]. intros l Hl Htrim.
    enough (slug_of l = OPEN_TAG) as E by by (unfold line_kind in Hl; rewrite E in Hl).
    rewrite <-Htrim. unfold slug_of. destruct (strip_suffix [LF] l) as [r|] eqn:E; [|done].
    apply strip_suffix_Some in E as ->. cbn [default]. apply trim_of_trim_end.
    by rewrite trim_end_app_ws by by repeat constructor.
  - by rewrite outside_texts.
Qed.

Lemma blocks_outside ls c c' : blocks None c ls = blocks None c' ls.
Proof.
  revert c c'. induction ls as [|l ls IH]; intros c c'; [done|]. cbn [blocks].
  destruct (line_kind _ l) as [t|t|] eqn:E; [done| |apply IH].
  exfalso. unfold line_kind in E. cbn in E. repeat case_match; done.
Qed.

Lemma blocks_inside_ne t c ls : blocks (Some t) c ls ≠ [].
Proof.
  revert t c. induction ls as [|l ls IH]; intros t c; [done|]. cbn [blocks].
  destruct (line_kind _ l); [apply IH|done|apply IH].
Qed.

Lemma extract_blocks ls a cur saw :
  (a ≠ None → saw = true) →
  foldl extract_item (saw, cur) (flat (lines_spec PLAN_SPECS a ls))
  = (saw || bool_decide (blocks a cur ls ≠ []), default cur (last (blocks a cur ls))).
Proof.
  revert a cur saw. induction ls as [|l ls IH]; intros a cur saw Hsaw; cbn [lines_spec blocks].
  { destruct a as [t|]; cbn; [by rewrite (Hsaw ltac:(done))|by rewrite orb_false_r]. }
  destruct (line_kind _ l) as [t|t|] eqn:E; rewrite flat_cons, foldl_app; cbn [flat_segment].
  - cbn [foldl extract_item]. rewrite IH by done.
    rewrite (bool_decide_true (blocks (Some t) [] ls ≠ [])) by apply blocks_inside_ne.
    rewrite !orb_true_r. f_equal. destruct (last (blocks (Some t) [] ls)) eqn:El; [done|].
    apply last_None in El. by apply blocks_inside_ne in El.
  - assert (saw = true) as ->.
    { apply Hsaw. intros ->. unfold line_kind in E. cbn in E. repeat case_match; done. }
    cbn [foldl extract_item]. rewrite IH by done. cbn [orb]. f_equal.
    rewrite (blocks_outside ls cur []), last_cons. by destruct (last (blocks None [] ls)).
  - destruct a as [t|]; cbn [text_segment flat_segment].
    + rewrite extract_inside, IH by done. cbn [fst snd]. f_equal.
      destruct (last (blocks (Some t) (cur ++ l) ls)) eqn:El; [done|]. apply last_None in El. by apply blocks_inside_ne in El.
    + by rewrite extract_plain, IH.
Qed.

(** The plan that is extracted is the content of the last block (also when it
    was never closed), and there is one exactly when there is a block. *)
Theorem extract_spec text :
  extract_proposed_plan_text text = last (blocks None [] (split_inclusive LF text)).
Proof.
  unfold extract_proposed_plan_text, plan_segments.
  rewrite extract_flat, plan_flat, extract_blocks by done. cbn [orb].
  destruct (blocks None [] _) as [|b bs] eqn:E; [done|].
  rewrite bool_decide_true by done. destruct (last (b :: bs)) eqn:El; [done|].
  by apply last_None in El.
Qed.

(** A closing tag outside a block, and an opening tag inside one, are text; white
    space around a tag does not matter. *)
Example plan_examples :
  strip_proposed_plan_blocks §"</proposed_plan>" = §"</proposed_plan>" ∧
  extract_proposed_plan_text (join [LF] [§"a"; §"  <proposed_plan> "; §"<proposed_plan>"; §"x"])
    = Some (join [LF] [§"<proposed_plan>"; §"x"]) ∧
  extract_proposed_plan_text §"a <proposed_plan>" = None.
Proof. by vm_compute. Qed.
