(* ===== verification/Approval.v ===== *)
(** * Which commands need an approval ([core/src/exec_policy.rs])

    The layer that turns the rules, the safety heuristics and the session's
    approval settings into one requirement for a command.  Target: Linux. *)
From S2P Require Import Prelude RustStr ExecPolicy Bash CommandSafety.

(** ** Settings ([protocol/src/protocol.rs], [protocol/src/models.rs]) *)
Record GranularApprovalConfig := { sandbox_approval : bool; rules : bool }.
Definition allows_sandbox_approval (c : GranularApprovalConfig) : bool := sandbox_approval c.
Definition allows_rules_approval (c : GranularApprovalConfig) : bool := rules c.

Inductive AskForApproval :=
| UnlessTrusted
| OnFailure
| OnRequest
| Granular (config : GranularApprovalConfig)
| Never.
#[export] Instance Granular_eq : EqDecision GranularApprovalConfig.
Proof. solve_decision. Defined.
#[export] Instance AskForApproval_eq : EqDecision AskForApproval.
Proof. solve_decision. Defined.

Inductive NetworkAccess := Restricted | Enabled.

Inductive SandboxPolicy :=
| DangerFullAccess
| ReadOnly
| ExternalSandbox (network_access : NetworkAccess)
| WorkspaceWrite (writable_roots : list str)
    (network_access exclude_tmpdir_env_var exclude_slash_tmp : bool).

Definition has_full_disk_write_access (p : SandboxPolicy) : bool :=
  match p with
  | DangerFullAccess | ExternalSandbox _ => true
  | ReadOnly | WorkspaceWrite _ _ _ _ => false
  end.
Definition has_full_network_access (p : SandboxPolicy) : bool :=
  match p with
  | DangerFullAccess => true
  | ExternalSandbox n => match n with Enabled => true | Restricted => false end
  | ReadOnly => false
  | WorkspaceWrite _ n _ _ => n
  end.

Inductive SandboxPermissions := UseDefault | RequireEscalated.
Definition requires_escalated_permissions (p : SandboxPermissions) : bool :=
  match p with RequireEscalated => true | UseDefault => false end.

(** The two features these functions ask about. *)
Record Features := { feature_ExecPolicy : bool; feature_RequestRule : bool }.

(** ** The requirement ([core/src/tools/sandboxing.rs], [protocol/src/approvals.rs]) *)
Record ExecPolicyAmendment := { amendment_command : list str }.

Inductive ExecApprovalRequirement :=
| Skip (bypass_sandbox : bool) (proposed_execpolicy_amendment : option ExecPolicyAmendment)
| NeedsApproval (reason : option str) (proposed_execpolicy_amendment : option ExecPolicyAmendment)
| RequirementForbidden (reason : str).

Definition proposed_execpolicy_amendment (r : ExecApprovalRequirement)
    : option ExecPolicyAmendment :=
  match r with
  | NeedsApproval _ (Some prefix) => Some prefix
  | Skip _ (Some prefix) => Some prefix
  | _ => None
  end.

Definition default_exec_approval_requirement (policy : AskForApproval)
    (sandbox_policy : SandboxPolicy) : ExecApprovalRequirement :=
  let needs_approval :=
    match policy with
    | Never | OnFailure => false
    | OnRequest => negb (has_full_disk_write_access sandbox_policy)
    | Granular config =>
        allows_sandbox_approval config && negb (has_full_disk_write_access sandbox_policy)
    | UnlessTrusted => true
    end in
  if needs_approval then NeedsApproval None None else Skip false None.

(** ** [exec_policy.rs] *)
Definition PROMPT_CONFLICT_REASON : str :=
  §"approval required by policy, but AskForApproval is set to Never".

Definition is_policy_match (m : RuleMatch) : bool :=
  match m with PrefixRuleMatch _ _ _ => true | HeuristicsRuleMatch _ _ => false end.

(** A policy match with decision [d]. *)
Definition policy_match_with (d : Decision) (m : RuleMatch) : bool :=
  is_policy_match m && bool_decide (match_decision m = d).

(** [Iterator::max_by_key]: the last of the maximal elements. *)
Definition max_by_key {A} (key : A → nat) (l : list A) : option A :=
  match l with
  | [] => None
  | x :: l' => Some (foldl (λ best y, if bool_decide (key best ≤ key y) then y else best) x l')
  end.

Definition heuristics_command (d : Decision) (m : RuleMatch) : option (list str) :=
  match m with
  | HeuristicsRuleMatch command d' => if bool_decide (d' = d) then Some command else None
  | _ => None
  end.

(** [iter().find_map(f)]. *)
Fixpoint find_map {A B} (f : A → option B) (l : list A) : option B :=
  match l with [] => None | x :: l' => match f x with Some b => Some b | None => find_map f l' end end.

Definition try_derive_execpolicy_amendment_for_prompt_rules (matched_rules : list RuleMatch)
    : option ExecPolicyAmendment :=
  if existsb (policy_match_with Prompt) matched_rules then None
  else Build_ExecPolicyAmendment <$> find_map (heuristics_command Prompt) matched_rules.

Definition try_derive_execpolicy_amendment_for_allow_rules (matched_rules : list RuleMatch)
    : option ExecPolicyAmendment :=
  if existsb is_policy_match matched_rules then None
  else Build_ExecPolicyAmendment <$> find_map (heuristics_command Allow) matched_rules.

Definition derive_requested_execpolicy_amendment (features : Features)
    (prefix_rule : option (list str)) (matched_rules : list RuleMatch)
    : option ExecPolicyAmendment :=
  if negb (feature_ExecPolicy features) then None
  else
    prefix_rule ← prefix_rule;
    if bool_decide (prefix_rule = []) then None
    else if existsb (policy_match_with Prompt) matched_rules then None
    else Some {| amendment_command := prefix_rule |}.

Section Manager.
(** [shlex::try_join], the PowerShell parser and the bash parser. *)
Context (shlex_try_join : list str → option str)
        (parse_with_powershell_ast : str → str → option (list (list str)))
        (try_parse_shell : str → option Tree).

Definition render_shlex_command (args : list str) : str :=
  default (join [SP] args) (shlex_try_join args).

Definition BACKTICK : str := [96%N].

Definition prefix_match_with (d : Decision) (m : RuleMatch) : option (list str * option str) :=
  match m with
  | PrefixRuleMatch matched_prefix d' justification =>
      if bool_decide (d' = d) then Some (matched_prefix, justification) else None
  | _ => None
  end.

Definition most_specific (d : Decision) (ms : list RuleMatch) : option (list str * option str) :=
  max_by_key (λ m, length m.1) (omap (prefix_match_with d) ms).

Definition derive_prompt_reason (command_args : list str) (ev : Evaluation) : option str :=
  let command := render_shlex_command command_args in
  match most_specific Prompt (ev_matched_rules ev) with
  | Some (_, Some justification) =>
      Some (BACKTICK ++ command ++ BACKTICK ++ §" requires approval: " ++ justification)
  | Some (_, None) => Some (BACKTICK ++ command ++ BACKTICK ++ §" requires approval by policy")
  | None => None
  end.

Definition derive_forbidden_reason (command_args : list str) (ev : Evaluation) : str :=
  let command := render_shlex_command command_args in
  match most_specific Forbidden (ev_matched_rules ev) with
  | Some (_, Some justification) =>
      BACKTICK ++ command ++ BACKTICK ++ §" rejected: " ++ justification
  | Some (matched_prefix, None) =>
      BACKTICK ++ command ++ BACKTICK ++ §" rejected: policy forbids commands starting with "
      ++ BACKTICK ++ render_shlex_command matched_prefix ++ BACKTICK
  | None => BACKTICK ++ command ++ BACKTICK ++ §" rejected: blocked by policy"
  end.

(** [cfg!(windows)] *)
Definition cfg_windows : bool := false.

Definition render_decision_for_unmatched_command (approval_policy : AskForApproval)
    (sandbox_policy : SandboxPolicy) (command : list str)
    (sandbox_permissions : SandboxPermissions) : Decision :=
  if is_known_safe_command parse_with_powershell_ast try_parse_shell command then Allow
  else
    let runtime_sandbox_provides_safety :=
      cfg_windows && match sandbox_policy with ReadOnly => true | _ => false end in
    if command_might_be_dangerous try_parse_shell command || runtime_sandbox_provides_safety then
      match approval_policy with Never => Forbidden | _ => Prompt end
    else
      match approval_policy with
      | Never | OnFailure => Allow
      | UnlessTrusted => Prompt
      | OnRequest | Granular _ =>
          match sandbox_policy with
          | DangerFullAccess | ExternalSandbox _ => Allow
          | ReadOnly | WorkspaceWrite _ _ _ _ =>
              if requires_escalated_permissions sandbox_permissions then Prompt else Allow
          end
      end.

Record ExecApprovalRequest := {
  features : Features;
  command : list str;
  approval_policy : AskForApproval;
  sandbox_policy : SandboxPolicy;
  sandbox_permissions : SandboxPermissions;
  prefix_rule : option (list str);
}.

(** The commands a request is judged by. *)
Definition commands_of (command : list str) : list (list str) :=
  default [command] (parse_shell_lc_plain_commands try_parse_shell command).

Definition exec_policy_fallback (req : ExecApprovalRequest) (cmd : list str) : Decision :=
  render_decision_for_unmatched_command (approval_policy req) (sandbox_policy req) cmd
    (sandbox_permissions req).

Definition evaluation_of (exec_policy : Policy PrefixRule) (req : ExecApprovalRequest)
    : option Evaluation :=
  check_multiple exec_policy (commands_of (command req)) (exec_policy_fallback req).

Definition granular_denied (policy : AskForApproval) (matched_rules : list RuleMatch) : bool :=
  match policy with
  | Granular config =>
      if bool_decide (matched_rules = []) then negb (allows_sandbox_approval config)
      else negb (allows_rules_approval config)
  | _ => false
  end.

(** [None] is a panic. *)
Definition create_exec_approval_requirement_for_command (exec_policy : Policy PrefixRule)
    (req : ExecApprovalRequest) : option ExecApprovalRequirement :=
  evaluation ← evaluation_of exec_policy req;
  let requested_amendment :=
    derive_requested_execpolicy_amendment (features req) (prefix_rule req)
      (ev_matched_rules evaluation) in
  Some match ev_decision evaluation with
       | Forbidden => RequirementForbidden (derive_forbidden_reason (command req) evaluation)
       | Prompt =>
           if bool_decide (approval_policy req = Never)
              || granular_denied (approval_policy req) (ev_matched_rules evaluation)
           then RequirementForbidden PROMPT_CONFLICT_REASON
           else
             NeedsApproval (derive_prompt_reason (command req) evaluation)
               (if feature_ExecPolicy (features req) then
                  match requested_amendment with
                  | Some a => Some a
                  | None =>
                      try_derive_execpolicy_amendment_for_prompt_rules (ev_matched_rules evaluation)
                  end
                else None)
       | Allow =>
           Skip (existsb (policy_match_with Allow) (ev_matched_rules evaluation))
             (if feature_ExecPolicy (features req) then
                try_derive_execpolicy_amendment_for_allow_rules (ev_matched_rules evaluation)
              else None)
       end.

(** ** Amending the policy: the rules file and the policy in memory *)
Context (json_string : str → option str).

Inductive ExecPolicyUpdateError := AppendRule (source : AmendError) | AddRule (source : Error).

Definition append_amendment_and_update (file : str) (exec_policy : Policy PrefixRule)
    (amendment : ExecPolicyAmendment) : result ExecPolicyUpdateError (str * Policy PrefixRule) :=
  let prefix := amendment_command amendment in
  rule ← map_err AppendRule (format_prefix_rule json_string prefix Allow);
  let file' := append_locked_line file rule in
  updated_policy ← map_err AddRule (add_prefix_rule prefix Allow exec_policy);
  Ok (file', updated_policy).
End Manager.

(** * Correctness *)

(** The settings a request is judged under, with a policy that matches nothing. *)
Section Facts.
Context (shlex_try_join : list str → option str)
        (parse_with_powershell_ast : str → str → option (list (list str)))
        (try_parse_shell : str → option Tree).
Notation create := (create_exec_approval_requirement_for_command shlex_try_join
                      parse_with_powershell_ast try_parse_shell).
Notation commands_of := (commands_of try_parse_shell).
Notation fallback := (exec_policy_fallback parse_with_powershell_ast try_parse_shell).
Notation evaluation_of := (evaluation_of parse_with_powershell_ast try_parse_shell).
Implicit Types (p : Policy PrefixRule) (req : ExecApprovalRequest).

(** All matches of a request: the rules of each part, or the heuristics. *)
Definition all_matches p req : list RuleMatch :=
  commands_of (command req) ≫= λ c, matches_for_command p c (Some (fallback req)).

Lemma all_matches_nil p req : all_matches p req = [] ↔ commands_of (command req) = [].
Proof.
  unfold all_matches. destruct (commands_of (command req)) as [|c cs]; [done|].
  rewrite bind_cons. pose proof (matches_for_command_ne p c (fallback req)).
  by destruct (matches_for_command p c _).
Qed.

Lemma evaluation_cases p req :
  (commands_of (command req) = [] ∧ evaluation_of p req = None) ∨
  (commands_of (command req) ≠ [] ∧ ∃ d,
     evaluation_of p req = Some {| ev_decision := d; ev_matched_rules := all_matches p req |} ∧
     severest (all_matches p req) d).
Proof.
  unfold Approval.evaluation_of, check_multiple. fold (all_matches p req).
  destruct (decide (commands_of (command req) = [])) as [E|E].
  - left. split; [done|]. by rewrite (proj2 (all_matches_nil p req) E).
  - right. split; [done|]. apply from_matches_spec. by rewrite all_matches_nil.
Qed.

Lemma requirement_panics p req :
  create p req = None ↔ parse_shell_lc_plain_commands try_parse_shell (command req) = Some [].
Proof.
  assert (commands_of (command req) = []
          ↔ parse_shell_lc_plain_commands try_parse_shell (command req) = Some []) as <-.
  { unfold Approval.commands_of. destruct (parse_shell_lc_plain_commands _ _); cbn; split; congruence. }
  unfold create_exec_approval_requirement_for_command.
  destruct (evaluation_cases p req) as [[E ->]|(E & d & -> & _)]; cbn; by split.
Qed.

(** Working out the requirement of a command panics exactly when the
    command is a shell script that parses to no command at all. *)
Theorem requirement_panics_iff p req :
  create p req = None ↔ parse_shell_lc_plain_commands try_parse_shell (command req) = Some [].
Proof. apply requirement_panics. Qed.

Lemma elem_of_all_matches p req m :
  m ∈ all_matches p req ↔ ∃ c, c ∈ commands_of (command req) ∧
    (m ∈ rules_for p c ∨ (rules_for p c = [] ∧ m = HeuristicsRuleMatch c (fallback req c))).
Proof.
  unfold all_matches. rewrite list_elem_of_bind. apply exist_proper. intros c.
  rewrite (comm (∧)). apply and_iff_compat_l. unfold matches_for_command.
  destruct (rules_for p c) as [|m' ms].
  - rewrite list_elem_of_singleton. split; [by right|]. intros [?%elem_of_nil|[_ ?]]; done.
  - split; [by left|]. by intros [?|[? _]].
Qed.

Lemma rules_for_policy_match p c m : m ∈ rules_for p c → is_policy_match m = true.
Proof.
  assert (∀ rs cmd, m ∈ omap (M:=list) (λ r : PrefixRule, rule_matches r cmd) rs → is_policy_match m = true)
    as Hr.
  { intros rs cmd (r & _ & Hm)%list_elem_of_omap. unfold rule_matches in Hm; cbn in Hm.
    destruct (matches_prefix _ _); cbn in Hm; by simplify_eq. }
  unfold rules_for. destruct c as [|c0 c]; [by intros ?%elem_of_nil|].
  repeat case_match; try (by intros ?%elem_of_nil); apply Hr.
Qed.

(** What the requirement is, branch by branch. *)
Lemma create_cases p req r :
  create p req = Some r →
  ∃ d, severest (all_matches p req) d ∧
  match d, r with
  | Forbidden, RequirementForbidden _ => True
  | Prompt, RequirementForbidden _ =>
      approval_policy req = Never ∨
      ∃ config, approval_policy req = Granular config ∧ allows_rules_approval config = false
  | Prompt, NeedsApproval _ _ =>
      approval_policy req ≠ Never ∧
      ∀ config, approval_policy req = Granular config → allows_rules_approval config = true
  | Allow, Skip b _ => b = existsb (policy_match_with Allow) (all_matches p req)
  | _, _ => False
  end.
Proof.
  unfold create_exec_approval_requirement_for_command.
  destruct (evaluation_cases p req) as [[E ->]|(E & d & -> & Hd)]; [done|]. cbn. intros [= <-].
  exists d. split; [done|]. destruct d; [done| |done].
  assert (granular_denied (approval_policy req) (all_matches p req) = true ↔
    ∃ config, approval_policy req = Granular config ∧ allows_rules_approval config = false) as Hg.
  { unfold granular_denied. rewrite bool_decide_false by (by rewrite all_matches_nil).
    destruct (approval_policy req) as [| | |config|]; split; try done;
      try (by intros (? & [=] & _)).
    - intros H%negb_true_iff. eauto.
    - intros (? & [= <-] & H). by apply negb_true_iff. }
  case_bool_decide as Hn; cbn; [by left|].
  destruct (granular_denied _ _).
  - right. by apply Hg.
  - split; [done|]. intros config Hc. apply not_false_iff_true. intros H.
    enough (false = true) by done. apply Hg. eauto.
Qed.

Lemma requirement_sound_parts p req r :
  create p req = Some r →
  (∀ c m, c ∈ commands_of (command req) → m ∈ rules_for p c →
     (match_decision m = Forbidden → ∃ reason, r = RequirementForbidden reason) ∧
     (match_decision m = Prompt → ∀ b a, r ≠ Skip b a)) ∧
  (approval_policy req = Never → ∀ reason a, r ≠ NeedsApproval reason a) ∧
  (∀ b a, r = Skip b a → ∀ c, c ∈ commands_of (command req) →
     (rules_for p c ≠ [] ∧ ∀ m, m ∈ rules_for p c → match_decision m = Allow) ∨
     (rules_for p c = [] ∧ fallback req c = Allow)).
Proof.
  intros (d & [Hub _] & Hr)%create_cases. split_and!.
  - intros c m Hc Hm. assert (m ∈ all_matches p req) as Hin by (apply elem_of_all_matches; eauto).
    apply Hub in Hin. split; intros E; rewrite E in Hin; destruct d, r; try done;
      try (unfold decision_le in Hin; cbn in Hin; lia); by eexists.
  - intros Hn reason a ->. destruct d; try done. by destruct Hr.
  - intros b a -> c Hc. destruct d; try done.
    assert (∀ m, m ∈ all_matches p req → match_decision m = Allow) as Hall.
    { intros m Hm%Hub. destruct (match_decision m); [done|unfold decision_le in Hm; cbn in Hm; lia..]. }
    destruct (rules_for p c) as [|m ms] eqn:E.
    + right. split; [done|].
      apply (Hall (HeuristicsRuleMatch c (fallback req c))), elem_of_all_matches. eauto.
    + left. split; [done|]. intros m' Hm'. apply Hall, elem_of_all_matches. exists c.
      rewrite E. auto.
Qed.

(** Soundness of the requirement, whatever the settings: a part of the
    command that a rule forbids is never run or asked about; a part on which a
    rule prompts is never run unasked; with approvals disabled nothing is ever
    asked; and a command runs unasked only if each of its parts is allowed by
    all the rules that match it, or matched by none and allowed by the
    heuristics. *)
Theorem requirement_sound p req r :
  create p req = Some r →
  (∀ c m, c ∈ commands_of (command req) → m ∈ rules_for p c →
     (match_decision m = Forbidden → ∃ reason, r = RequirementForbidden reason) ∧
     (match_decision m = Prompt → ∀ b a, r ≠ Skip b a)) ∧
  (approval_policy req = Never → ∀ reason a, r ≠ NeedsApproval reason a) ∧
  (∀ b a, r = Skip b a → ∀ c, c ∈ commands_of (command req) →
     (rules_for p c ≠ [] ∧ ∀ m, m ∈ rules_for p c → match_decision m = Allow) ∨
     (rules_for p c = [] ∧ fallback req c = Allow)).
Proof. apply requirement_sound_parts. Qed.

(** ** The proposed amendment *)

Lemma find_map_Some {A B} (f : A → option B) l b :
  find_map f l = Some b → ∃ x, x ∈ l ∧ f x = Some b.
Proof.
  induction l as [|x l IH]; [done|]. cbn. destruct (f x) eqn:E.
  - intros [= ->]. exists x. split; [by left|done].
  - intros (y & ? & ?)%IH. exists y. split; [by right|done].
Qed.

Lemma add_prefix_rule_self p c p' :
  rules_for p c = [] → add_prefix_rule c Allow p = Ok p' →
  rules_for p' c = [PrefixRuleMatch c Allow None].
Proof.
  destruct c as [|c0 args]; [done|]. cbn [add_prefix_rule]. intros Hno [= <-].
  fold (literal_rule c0 args Allow). unfold rules_for in *. cbn [rules_by_program insert_rule].
  rewrite lookup_insert_eq, omap_app. cbn [omap list_omap].
  pose proof (literal_rule_matches c0 args Allow []) as Hm. rewrite app_nil_r in Hm. rewrite Hm.
  destruct (rules_by_program p !! c0) as [rs|]; cbn [from_option id default]; [|done].
  by rewrite Hno.
Qed.

Lemma existsb_false {A} (f : A → bool) l x : existsb f l = false → x ∈ l → f x = false.
Proof.
  intros H Hx. destruct (f x) eqn:E; [|done]. rewrite <-H. symmetry. apply existsb_exists.
  exists x. by rewrite <-list_elem_of_In.
Qed.

(** The amendment proposed with a prompt does what the user is told: when a
    single command needs an approval and the proposed rule is accepted, the same
    request is afterwards allowed by the policy, without a prompt, whatever the
    settings; the rules file gains the rule as a line. *)
Theorem amendment_silences_prompt json p req reason a file file' p' :
  create p req = Some (NeedsApproval reason (Some a)) →
  prefix_rule req = None → commands_of (command req) = [command req] →
  append_amendment_and_update json file p a = Ok (file', p') →
  amendment_command a = command req ∧ create p' req = Some (Skip true None) ∧
  ∃ line, format_prefix_rule json (command req) Allow = Ok line ∧
          file' = append_locked_line file line.
Proof.
  unfold create_exec_approval_requirement_for_command. intros Hreq Hpr Hsingle Happ.
  assert (amendment_command a = command req ∧ rules_for p (command req) = []) as [Ha Hno].
  { destruct (evaluation_cases p req) as [[_ E]|(_ & d & E & _)]; rewrite E in Hreq; [done|].
    cbn in Hreq. destruct d; [done| |done]. case_match; [done|].
    injection Hreq as _ Hreq. destruct (feature_ExecPolicy (features req)) eqn:Ef; [|done].
    unfold derive_requested_execpolicy_amendment in Hreq. rewrite Ef, Hpr in Hreq. cbn in Hreq.
    unfold try_derive_execpolicy_amendment_for_prompt_rules in Hreq.
    destruct (existsb _ _) eqn:Ex; [done|].
    destruct (find_map _ _) as [c|] eqn:Efm; [|done]. injection Hreq as <-.
    apply find_map_Some in Efm as (m & Hm & Hc). cbn.
    destruct m as [|c' d']; [done|]. cbn in Hc. case_bool_decide; [|done]. injection Hc as <-.
    apply elem_of_all_matches in Hm as (c & Hin & Hcase). rewrite Hsingle in Hin.
    apply list_elem_of_singleton in Hin as ->.
    destruct Hcase as [Hr|[Hr [= -> _]]]; [by apply rules_for_policy_match in Hr|done]. }
  unfold append_amendment_and_update in Happ. rewrite Ha in Happ.
  destruct (format_prefix_rule json (command req) Allow) as [line|] eqn:Ef; cbn in Happ; [|done].
  destruct (add_prefix_rule (command req) Allow p) as [q|] eqn:Ead; cbn in Happ; [|done].
  injection Happ as <- <-. split_and!; [done| |by exists line].
  assert (all_matches q req = [PrefixRuleMatch (command req) Allow None]) as Hms.
  { unfold all_matches, matches_for_command. rewrite Hsingle. cbn.
    by rewrite (add_prefix_rule_self _ _ _ Hno Ead). }
  destruct (evaluation_cases q req) as [[E _]|(_ & d & -> & _ & m & Hm & <-)];
    [by rewrite Hsingle in E|].
  rewrite Hms in *. apply list_elem_of_singleton in Hm as ->. cbn.
  by destruct (feature_ExecPolicy (features req)).
Qed.
End Facts.

(** ** Witnesses and what the layer does on particular requests *)

Definition no_join (_ : list str) : option str := None.
Definition no_powershell (_ _ : str) : option (list (list str)) := None.
Definition no_shell (_ : str) : option Tree := None.
Definition plain_json (s : str) : option str := Some ([QUOTE] ++ s ++ [QUOTE]).
Definition workspace : SandboxPolicy := WorkspaceWrite [] false false false.
Definition sample_request (c : list str) (policy : AskForApproval) : ExecApprovalRequest := {|
  features := {| feature_ExecPolicy := true; feature_RequestRule := true |};
  command := c; approval_policy := policy; sandbox_policy := workspace;
  sandbox_permissions := UseDefault; prefix_rule := None |}.

Lemma requirement_sound_witness :
  ∃ p r,
    add_prefix_rule [§"git"; §"push"] Prompt empty_policy = Ok p ∧
    create_exec_approval_requirement_for_command no_join no_powershell no_shell p
      (sample_request [§"git"; §"push"] OnRequest) = Some r ∧
    ∀ b a, r ≠ Skip b a.
Proof.
  destruct (add_prefix_rule [§"git"; §"push"] Prompt empty_policy) as [p|] eqn:Ep; [|done].
  destruct (create_exec_approval_requirement_for_command no_join no_powershell no_shell p
      (sample_request [§"git"; §"push"] OnRequest)) as [r|] eqn:Er;
    [|by injection Ep as <-; vm_compute in Er].
  exists p, r. split_and!; [done..|].
  destruct (requirement_sound no_join no_powershell no_shell p _ r Er) as (H & _ & _).
  refine (proj2 (H [§"git"; §"push"] (PrefixRuleMatch [§"git"; §"push"] Prompt None) _ _) eq_refl).
  - by left.
  - injection Ep as <-. vm_compute. by left.
Defined.

Lemma amendment_silences_prompt_witness :
  let req := sample_request [§"cargo"; §"build"] UnlessTrusted in
  let create := create_exec_approval_requirement_for_command no_join no_powershell no_shell in
  ∃ a file' p',
    create empty_policy req = Some (NeedsApproval None (Some a)) ∧
    append_amendment_and_update plain_json [] empty_policy a = Ok (file', p') ∧
    create p' req = Some (Skip true None).
Proof.
  cbv zeta. set (a := {| amendment_command := [§"cargo"; §"build"] |}).
  destruct (append_amendment_and_update plain_json [] empty_policy a) as [[file' p']|] eqn:E;
    [|by vm_compute in E].
  assert (create_exec_approval_requirement_for_command no_join no_powershell no_shell empty_policy
            (sample_request [§"cargo"; §"build"] UnlessTrusted) = Some (NeedsApproval None (Some a)))
    as H by by vm_compute.
  exists a, file', p'. split_and!; [exact H|done|].
  by destruct (amendment_silences_prompt no_join no_powershell no_shell plain_json empty_policy
    (sample_request [§"cargo"; §"build"] UnlessTrusted) None a [] file' p' H eq_refl eq_refl E)
    as (_ & ? & _).
Defined.

(** A script with no command: the tree of an empty program has no children. *)
Example empty_script_panics :
  create_exec_approval_requirement_for_command no_join no_powershell
    (λ _, Some {| root_node := mkNode §"program" [] true 0 []; has_error := false |})
    empty_policy (sample_request [§"bash"; §"-lc"; []] OnRequest) = None.
Proof. by vm_compute. Qed.

(** One part allowed by a rule takes the whole script out of the sandbox, also
    the parts that the heuristics allow only because a sandbox would hold them. *)
Example one_allowed_part_unsandboxes_all :
  let tree := {| root_node := mkNode §"program" [] true 0
                   [mkNode §"list" [] true 0
                      [Bash.command "git" 0 [word "status" 4]; mkNode §"&&" §"&&" false 11 [];
                       Bash.command "./build" 14 []]];
                 has_error := false |} in
  let run := λ p cmd, create_exec_approval_requirement_for_command no_join no_powershell
                        (λ _, Some tree) p (sample_request cmd OnRequest) in
  (run empty_policy [§"./build"] = Some (Skip false (Some {| amendment_command := [§"./build"] |}))) ∧
  (λ p, run p [§"bash"; §"-lc"; §"git status && ./build"])
    <$> add_prefix_rule [§"git"; §"status"] Allow empty_policy = Ok (Some (Skip true None)).
Proof. by vm_compute. Qed.

(** The switch for sandbox approvals is never consulted: which switch applies is
    decided by whether there are matches, and there always are. *)
Lemma granular_sandbox_switch_dead pw sh p req config ev :
  evaluation_of pw sh p req = Some ev →
  granular_denied (Granular config) (ev_matched_rules ev) = negb (allows_rules_approval config).
Proof.
  destruct (evaluation_cases pw sh p req) as [[_ ->]|(E & d & -> & _)]; [done|]. intros [= <-].
  unfold granular_denied. rewrite bool_decide_false; [done|]. cbn. by intros H%all_matches_nil.
Qed.

Example heuristics_prompt_uses_rules_switch :
  let ask := λ config, create_exec_approval_requirement_for_command no_join no_powershell no_shell
    empty_policy (sample_request [§"rm"; §"-f"; §"x"] (Granular config)) in
  ask {| sandbox_approval := false; rules := true |}
    = Some (NeedsApproval None (Some {| amendment_command := [§"rm"; §"-f"; §"x"] |})) ∧
  ask {| sandbox_approval := true; rules := false |}
    = Some (RequirementForbidden PROMPT_CONFLICT_REASON).
Proof. by vm_compute. Qed.
