(* ===== verification/Orchestrator.v ===== *)
(** * Running a tool under approvals and a sandbox
    ([core/src/tools/orchestrator.rs], [core/src/tools/sandboxing.rs],
    [core/src/tools/runtimes/], [core/src/safety.rs], [core/src/sandboxing/mod.rs]).

    An execution talks to the user and to the operating system; both are an
    environment that may answer anything, and every exchange is recorded in a
    trace, so that the theorems quantify over all environments. *)
From S2P Require Import Prelude RustStr ExecPolicy Bash CommandSafety Approval.

(** ** Sandboxes *)
Inductive SandboxType := SandboxNone | MacosSeatbelt | LinuxSeccomp | WindowsRestrictedToken.
#[export] Instance SandboxType_eq : EqDecision SandboxType.
Proof. solve_decision. Defined.

(** [cfg!(target_os = ...)] *)
Inductive TargetOs := Macos | Linux | Windows | OtherOs.

Definition get_platform_sandbox (target_os : TargetOs) (windows_sandbox_enabled : bool)
    : option SandboxType :=
  match target_os with
  | Macos => Some MacosSeatbelt
  | Linux => Some LinuxSeccomp
  | Windows => if windows_sandbox_enabled then Some WindowsRestrictedToken else None
  | OtherOs => None
  end.

Inductive SandboxablePreference := Auto | Require | Forbid.
Inductive SandboxOverride := NoOverride | BypassSandboxFirstAttempt.

Definition select_initial (target_os : TargetOs) (policy : SandboxPolicy)
    (pref : SandboxablePreference) (windows_sandbox_enabled : bool) : SandboxType :=
  match pref with
  | Forbid => SandboxNone
  | Require => default SandboxNone (get_platform_sandbox target_os windows_sandbox_enabled)
  | Auto =>
      match policy with
      | DangerFullAccess | ExternalSandbox _ => SandboxNone
      | _ => default SandboxNone (get_platform_sandbox target_os windows_sandbox_enabled)
      end
  end.

(** ** Decisions and errors *)
Inductive ReviewDecision :=
| Approved
| ApprovedExecpolicyAmendment (proposed : ExecPolicyAmendment)
| ApprovedForSession
| Denied
| AbortTurn.

Definition approves (d : ReviewDecision) : bool :=
  match d with Denied | AbortTurn => false | _ => true end.

Definition is_for_session (d : ReviewDecision) : bool :=
  match d with ApprovedForSession => true | _ => false end.

Inductive ToolError :=
| Rejected (reason : str)
| SandboxDenied (output : str)
| OtherError (message : str).

Section Run.
(** The result of a tool. *)
Context {Out : Type}.

(** ** The world: the session's approval store and the trace of exchanges *)
Inductive event :=
| EvDecision (by_user : bool) (reason : option str) (d : ReviewDecision)
| EvRun (sandbox : SandboxType) (r : result ToolError Out).

Record World := { store : gmap str ReviewDecision; trace : list event }.

Definition emit (e : event) (w : World) : World :=
  {| store := store w; trace := trace w ++ [e] |}.

(** The answers of the user and of the system; they may depend on everything
    that happened before. *)
Context (ask_user : World → option str → ReviewDecision)
        (execute : World → SandboxType → result ToolError Out).

(** Computations that exchange with the world. *)
Definition M (A : Type) : Type := World → A * World.
Definition ret {A} (a : A) : M A := λ w, (a, w).
Definition bind {A B} (m : M A) (f : A → M B) : M B := λ w, let '(a, w') := m w in f a w'.
Local Notation "x ⟵ m ; k" := (bind m (λ x, k)) (at level 20, m at level 100, k at level 200).

Definition get_store : M (gmap str ReviewDecision) := λ w, (store w, w).
Definition request_approval (reason : option str) : M ReviewDecision :=
  λ w, let d := ask_user w reason in (d, emit (EvDecision true reason d) w).
Definition run_attempt (s : SandboxType) : M (result ToolError Out) :=
  λ w, let r := execute w s in (r, emit (EvRun s r) w).

(** ** The cache of approvals *)

(** [ApprovalStore::put] of each key; keys are the serialized ones. *)
Definition put_keys (keys : list (option str)) (d : ReviewDecision)
    (m : gmap str ReviewDecision) : gmap str ReviewDecision :=
  foldl (λ m k, match k with Some s => <[s := d]> m | None => m end) m keys.
Definition put_all (keys : list (option str)) (d : ReviewDecision) : M () :=
  λ w, ((), {| store := put_keys keys d (store w); trace := trace w |}).

Definition cached (m : gmap str ReviewDecision) (key : option str) : bool :=
  match key ≫= λ s, m !! s with Some ApprovedForSession => true | _ => false end.

Definition with_cached_approval (keys : list (option str)) (fetch : M ReviewDecision)
    : M ReviewDecision :=
  match keys with
  | [] => fetch
  | _ =>
      m ⟵ get_store;
      if forallb (cached m) keys then
        λ w, (ApprovedForSession, emit (EvDecision false None ApprovedForSession) w)
      else
        decision ⟵ fetch;
        _ ⟵ (if is_for_session decision then put_all keys ApprovedForSession else ret ());
        ret decision
  end.

(** ** The interface of tools: [Approvable], [Sandboxable] and [ToolRuntime] *)
Class ToolRuntime (Req : Type) := {
  exec_approval_requirement : Req → option ExecApprovalRequirement;
  sandbox_mode_for_first_attempt : Req → SandboxOverride;
  should_bypass_approval : AskForApproval → bool → bool;
  wants_no_sandbox_approval : AskForApproval → bool;
  sandbox_preference : SandboxablePreference;
  escalate_on_failure : bool;
  start_approval_async : Req → option str → M ReviewDecision;
}.

(** The defaults of the trait's methods. *)
Definition default_should_bypass_approval (policy : AskForApproval) (already_approved : bool)
    : bool :=
  if already_approved then true else bool_decide (policy = Never).
Definition default_wants_no_sandbox_approval (policy : AskForApproval) : bool :=
  negb (bool_decide (policy = Never) || bool_decide (policy = OnRequest)).

(** What a tool promises to the orchestrator. *)
Class ToolLaws (Req : Type) `{ToolRuntime Req} := {
  (** an approval is one exchange, and its outcome is the recorded decision *)
  approval_recorded : ∀ req reason w d w',
    start_approval_async req reason w = (d, w') →
    ∃ by_user r, trace w' = trace w ++ [EvDecision by_user r d];
  (** without prompts there is no way to a run outside the sandbox *)
  never_no_escalation : wants_no_sandbox_approval Never = false;
  (** otherwise only an earlier approval spares a prompt *)
  bypass_needs_approval : ∀ policy approved,
    should_bypass_approval policy approved = true → approved = true ∨ policy = Never;
}.

Definition REJECTED_BY_USER : str := §"rejected by user".
Definition DENIAL_REASON : str := §"command failed; retry without sandbox?".

(** ** [ToolOrchestrator::run] *)
Section Driver.
Context {Req : Type} `{ToolRuntime Req}.
Context (target_os : TargetOs) (sandbox_policy : SandboxPolicy) (windows_sandbox_enabled : bool).

Definition requirement_of (req : Req) (approval_policy : AskForApproval)
    : ExecApprovalRequirement :=
  default (default_exec_approval_requirement approval_policy sandbox_policy)
    (exec_approval_requirement req).

Definition initial_sandbox (req : Req) : SandboxType :=
  match sandbox_mode_for_first_attempt req with
  | BypassSandboxFirstAttempt => SandboxNone
  | NoOverride => select_initial target_os sandbox_policy sandbox_preference windows_sandbox_enabled
  end.

(** The approval before the retry without a sandbox: [Err] when it is refused. *)
Definition retry_approval (req : Req) (approval_policy : AskForApproval) (already_approved : bool)
    : M bool :=
  if should_bypass_approval approval_policy already_approved then ret true
  else decision ⟵ start_approval_async req (Some DENIAL_REASON); ret (approves decision).

(** Step 2: the attempts. *)
Definition attempts (req : Req) (approval_policy : AskForApproval) (already_approved : bool)
    : M (result ToolError Out) :=
  first ⟵ run_attempt (initial_sandbox req);
  match first with
  | Err (SandboxDenied output) =>
      if negb escalate_on_failure then ret (Err (SandboxDenied output))
      else if negb (wants_no_sandbox_approval approval_policy)
      then ret (Err (SandboxDenied output))
      else
        go ⟵ retry_approval req approval_policy already_approved;
        if go : bool then run_attempt SandboxNone else ret (Err (Rejected REJECTED_BY_USER))
  | other => ret other
  end.

Definition run (req : Req) (approval_policy : AskForApproval) : M (result ToolError Out) :=
  match requirement_of req approval_policy with
  | Skip _ _ => attempts req approval_policy false
  | RequirementForbidden reason => ret (Err (Rejected reason))
  | NeedsApproval reason _ =>
      decision ⟵ start_approval_async req reason;
      if approves decision then attempts req approval_policy true
      else ret (Err (Rejected REJECTED_BY_USER))
  end.
End Driver.

(** * Reasoning about computations by the trace they add *)

Definition adds {A} (m : M A) (Q : A → list event → Prop) : Prop :=
  ∀ w a w', m w = (a, w') → ∃ t, trace w' = trace w ++ t ∧ Q a t.

Lemma adds_ret {A} (a : A) Q : Q a [] → adds (ret a) Q.
Proof. intros H w ? ? [= <- <-]. exists []. by rewrite app_nil_r. Qed.

Lemma adds_bind {A B} (m : M A) (f : A → M B) P Q :
  adds m P → (∀ a t, P a t → adds (f a) (λ b t', Q b (t ++ t'))) → adds (bind m f) Q.
Proof.
  intros Hm Hf w b w'. unfold bind. destruct (m w) as [a w1] eqn:E. intros E'.
  destruct (Hm _ _ _ E) as (t & Ht & HP). destruct (Hf a t HP _ _ _ E') as (t' & Ht' & HQ).
  exists (t ++ t'). split; [|done]. by rewrite Ht', Ht, (assoc_L (++)).
Qed.

Lemma adds_weaken {A} (m : M A) (P Q : A → list event → Prop) :
  adds m P → (∀ a t, P a t → Q a t) → adds m Q.
Proof. intros Hm HPQ w a w' E. destruct (Hm _ _ _ E) as (t & Ht & HP). eauto. Qed.

Lemma adds_run_attempt s :
  adds (run_attempt s) (λ r t, t = [EvRun s r]).
Proof. intros w r w' [= <- <-]. by eexists. Qed.

Lemma adds_request_approval reason :
  adds (request_approval reason) (λ d t, t = [EvDecision true reason d]).
Proof. intros w d w' [= <- <-]. by eexists. Qed.

Lemma adds_start_approval {Req} `{ToolLaws Req} req reason :
  adds (start_approval_async req reason) (λ d t, ∃ by_user r, t = [EvDecision by_user r d]).
Proof. intros w d w' E. apply approval_recorded in E as (by_user & r & ->). eauto. Qed.

(** A run that the sandbox denied. *)
Definition denied (e : event) : bool :=
  match e with EvRun _ (Err (SandboxDenied _)) => true | _ => false end.

(** The discipline of a trace: the first attempt runs in the sandbox selected
    for it and, when the requirement [needs] it, after an approval; any further
    attempt runs without a sandbox, only after a denial and an approval.  [prev]
    tells of the last attempt, if any, whether it was denied. *)
Fixpoint guarded (init : SandboxType) (needs approved : bool) (prev : option bool)
    (t : list event) : Prop :=
  match t with
  | [] => True
  | EvDecision _ _ d :: t' => guarded init needs (approved || approves d) prev t'
  | EvRun s r :: t' =>
      match prev with
      | Some was_denied => s = SandboxNone ∧ approved = true ∧ was_denied = true
      | None => s = init ∧ (needs = true → approved = true)
      end
      ∧ guarded init needs approved (Some (denied (EvRun s r))) t'
  end.

Definition is_run (e : event) : bool := match e with EvRun _ _ => true | _ => false end.
Definition runs (t : list event) : nat := foldr (λ e n, if is_run e then S n else n) 0 t.

Section Guarded.
Context {Req : Type} `{ToolLaws Req}.
Context (target_os : TargetOs) (sandbox_policy : SandboxPolicy) (windows_sandbox_enabled : bool).
Notation run_ := (run target_os sandbox_policy windows_sandbox_enabled).
Notation attempts_ := (attempts target_os sandbox_policy windows_sandbox_enabled).
Notation initial := (initial_sandbox target_os sandbox_policy windows_sandbox_enabled).

Lemma attempts_guarded req policy needs approved :
  (needs = true → approved = true) →
  adds (attempts_ req policy approved)
    (λ _ t, guarded (initial req) needs approved None t ∧ runs t ≤ 2 ∧
            (policy = Never → runs t = 1 ∧ Forall (λ e, is_run e = true) t)).
Proof.
  intros Hneeds. unfold attempts.
  eapply adds_bind; [apply adds_run_attempt|]. intros r t ->.
  assert (∀ r', adds (ret r') (λ (_ : result ToolError Out) t',
      guarded (initial req) needs approved None ([EvRun (initial req) r] ++ t') ∧
      runs ([EvRun (initial req) r] ++ t') ≤ 2 ∧
      (policy = Never → runs ([EvRun (initial req) r] ++ t') = 1 ∧
         Forall (λ e, is_run e = true) ([EvRun (initial req) r] ++ t')))) as Hstop.
  { intros r'. apply adds_ret. cbn. split_and!; try done; [unfold runs; cbn; lia|].
    intros _. split; [done|]. by repeat constructor. }
  destruct r as [out|[reason|output|msg]]; [apply Hstop..| |apply Hstop].
  destruct escalate_on_failure; cbn [negb]; [|apply Hstop].
  destruct (wants_no_sandbox_approval policy) eqn:Ew; cbn [negb]; [|apply Hstop].
  assert (policy ≠ Never) as Hn by (intros ->; by rewrite never_no_escalation in Ew).
  unfold retry_approval. destruct (should_bypass_approval policy approved) eqn:Eb.
  - apply bypass_needs_approval in Eb as [->|]; [|done].
    eapply adds_bind; [apply (adds_ret true (λ g t, g = true ∧ t = [])); done|].
    intros g t [-> ->]. eapply adds_weaken; [apply adds_run_attempt|]. intros r t ->. cbn.
    split_and!; try done; unfold runs; cbn; lia.
  - eapply (adds_bind _ _ (λ g t, ∃ by_user r d, g = approves d ∧ t = [EvDecision by_user r d])).
    { eapply adds_bind; [apply adds_start_approval|]. intros d t (by_user & r & ->).
      apply adds_ret. by exists by_user, r, d. }
    intros g t (by_user & r & d & -> & ->). destruct (approves d) eqn:Ed.
    + eapply adds_weaken; [apply adds_run_attempt|]. intros r' t ->. cbn. rewrite Ed, orb_true_r.
      split_and!; try done; unfold runs; cbn; lia.
    + apply adds_ret. cbn. split_and!; try done; unfold runs; cbn; lia.
Qed.

(** What kind of answer the requirement is. *)
Definition needs_approval (r : ExecApprovalRequirement) : bool :=
  match r with NeedsApproval _ _ => true | _ => false end.
Definition is_forbidden (r : ExecApprovalRequirement) : bool :=
  match r with RequirementForbidden _ => true | _ => false end.

Lemma run_guarded req policy :
  let requirement := requirement_of sandbox_policy req policy in
  adds (run_ req policy)
    (λ _ t, guarded (initial req) (needs_approval requirement) false None t ∧
            runs t ≤ 2 ∧
            (is_forbidden requirement = true → t = []) ∧
            (policy = Never → needs_approval requirement = false →
               runs t ≤ 1 ∧ Forall (λ e, is_run e = true) t)).
Proof.
  intros requirement. unfold run. fold requirement.
  destruct requirement as [b a|reason a|reason] eqn:Er; cbn [needs_approval is_forbidden].
  - eapply adds_weaken; [by apply (attempts_guarded req policy false false)|].
    intros r t (H1 & H2 & H3). split_and!; try done. intros Hn _. destruct (H3 Hn). split; [lia|done].
  - eapply adds_bind; [apply adds_start_approval|]. intros d t (by_user & r & ->).
    destruct (approves d) eqn:Ed.
    + eapply adds_weaken; [by apply (attempts_guarded req policy true true)|].
      intros r' t (H1 & H2 & _). cbn. by rewrite Ed.
    + apply adds_ret. cbn. split_and!; try done; unfold runs; cbn; lia.
  - apply adds_ret. split_and!; try done; [unfold runs; cbn; lia|]. intros. split; [|constructor].
    unfold runs; cbn; lia.
Qed.
End Guarded.

(** Reading the discipline at one attempt. *)
Definition approving (e : event) : bool :=
  match e with EvDecision _ _ d => approves d | EvRun _ _ => false end.

Lemma guarded_from init needs approved prev t1 s r t2 :
  guarded init needs approved prev (t1 ++ EvRun s r :: t2) →
  let approved' := approved || existsb approving t1 in
  if bool_decide (is_Some prev) || existsb is_run t1
  then s = SandboxNone ∧ approved' = true ∧ default false prev || existsb denied t1 = true
  else s = init ∧ (needs = true → approved' = true).
Proof.
  revert approved prev. induction t1 as [|e t1 IH]; intros approved prev; cbn.
  - rewrite !orb_false_r. intros [Hs _]. by destruct prev; rewrite ?orb_false_r.
  - destruct e as [b reason d|s' r']; cbn.
    + intros Hg%IH. by rewrite <-!orb_assoc in Hg.
    + intros [_ Hg%IH]. rewrite bool_decide_true in Hg by eauto. rewrite orb_true_r. cbn in *.
      destruct Hg as (-> & -> & Hd). split_and!; [done..|]. by rewrite Hd, orb_true_r.
Qed.

Lemma guarded_at init needs t1 s r t2 :
  guarded init needs false None (t1 ++ EvRun s r :: t2) →
  if existsb is_run t1
  then s = SandboxNone ∧ existsb approving t1 = true ∧ existsb denied t1 = true
  else s = init ∧ (needs = true → existsb approving t1 = true).
Proof. intros Hg%guarded_from. by rewrite bool_decide_false in Hg by by intros []. Qed.

(** ** The cache *)
Lemma put_all_trace keys d w : trace (snd (put_all keys d w)) = trace w.
Proof. done. Qed.

Lemma adds_with_cached keys fetch :
  adds fetch (λ d t, ∃ by_user r, t = [EvDecision by_user r d]) →
  adds (with_cached_approval keys fetch) (λ d t, ∃ by_user r, t = [EvDecision by_user r d]).
Proof.
  intros Hf. unfold with_cached_approval. destruct keys as [|k keys]; [done|].
  intros w d w'. unfold bind, get_store. destruct (forallb (cached (store w)) (k :: keys)).
  - intros [= <- <-]. eexists; split; [done|]. by eexists _, _.
  - destruct (fetch w) as [d' w1] eqn:E. destruct (Hf _ _ _ E) as (t & Ht & HQ).
    destruct (is_for_session d'); intros [= <- <-]; exists t; by rewrite ?put_all_trace.
Qed.

Lemma put_keys_lookup keys d m s :
  put_keys keys d m !! s = if bool_decide (Some s ∈ keys) then Some d else m !! s.
Proof.
  unfold put_keys. revert m. induction keys as [|k keys IH]; intros m; cbn.
  - by rewrite bool_decide_false by by apply not_elem_of_nil.
  - rewrite IH. destruct (decide (Some s ∈ keys)) as [Hin|Hin].
    { by rewrite !bool_decide_true by set_solver. }
    rewrite (bool_decide_false (Some s ∈ keys)) by done. destruct k as [k|].
    + destruct (decide (k = s)) as [->|Hne].
      * rewrite lookup_insert_eq, bool_decide_true by set_solver. done.
      * rewrite lookup_insert_ne, bool_decide_false by set_solver. done.
    + by rewrite bool_decide_false by set_solver.
Qed.

(** The session's approval cache: an execution with keys is not asked about
    exactly when every key was approved for the session; otherwise the user is
    asked once, the store changes only when the answer is an approval for the
    session, and then every later request about some of those keys passes
    without asking. *)
Theorem with_cached_approval_spec keys reason w :
  keys ≠ [] →
  let '(d, w') := with_cached_approval keys (request_approval reason) w in
  (forallb (cached (store w)) keys = true →
     d = ApprovedForSession ∧ w' = emit (EvDecision false None ApprovedForSession) w) ∧
  (forallb (cached (store w)) keys = false →
     d = ask_user w reason ∧ trace w' = trace w ++ [EvDecision true reason d] ∧
     (d ≠ ApprovedForSession → store w' = store w) ∧
     (d = ApprovedForSession → Forall (λ k, k ≠ None) keys →
        ∀ keys' fetch, keys' ≠ [] → keys' ⊆ keys →
          with_cached_approval keys' fetch w'
          = (ApprovedForSession, emit (EvDecision false None ApprovedForSession) w'))).
Proof.
  intros Hne. unfold with_cached_approval at 1. destruct keys as [|k0 keys0]; [done|].
  set (keys := k0 :: keys0). unfold bind, get_store.
  destruct (forallb (cached (store w)) keys) eqn:Ec; [done|].
  unfold request_approval. set (d := ask_user w reason).
  destruct (is_for_session d) eqn:Es; cbn [fst snd ret put_all]; (split; [done|]); intros _; split_and!; try done.
  - by destruct d.
  - intros _ Hsome keys' fetch Hne' Hsub. unfold with_cached_approval.
    destruct keys' as [|k1 keys1]; [done|]. unfold bind, get_store. cbn [store].
    rewrite (proj2 (forallb_forall _ _)); [done|].
    intros k Hk%list_elem_of_In. assert (k ∈ keys) as Hin by by apply Hsub.
    rewrite Forall_forall in Hsome. specialize (Hsome k Hin). destruct k as [s|]; [|done].
    unfold cached. cbn [mbind option_bind].
    by rewrite put_keys_lookup, bool_decide_true.
  - intros Hd. by rewrite Hd in Es.
Qed.

(** The discipline of the orchestrator, for every tool that keeps its promises
    and every behaviour of the user and of the system.  A forbidden request leaves
    no trace.  Otherwise at most two attempts are made: the first in the sandbox
    chosen for it and, when an approval is needed, after one; the second without a
    sandbox, only after the first was denied by its sandbox and only after an
    approval in this call. *)
Theorem orchestrator_discipline {Req} `{ToolLaws Req} os sp win (req : Req) policy w :
  ∃ t, trace (run os sp win req policy w).2 = trace w ++ t ∧ runs t ≤ 2 ∧
    (is_forbidden (requirement_of sp req policy) = true → t = []) ∧
    ∀ t1 s r t2, t = t1 ++ EvRun s r :: t2 →
      if existsb is_run t1
      then s = SandboxNone ∧ existsb approving t1 = true ∧
           existsb denied t1 = true
      else s = initial_sandbox os sp win req ∧
           (needs_approval (requirement_of sp req policy) = true → existsb approving t1 = true).
Proof.
  destruct (run os sp win req policy w) as [o w'] eqn:E.
  destruct (run_guarded os sp win req policy _ _ _ E) as (t & Ht & Hg & Hr & Hf & _).
  exists t. split_and!; try done. intros t1 s r t2 ->. by apply guarded_at in Hg.
Qed.
End Run.

(** ** A plain tool, for the witnesses *)
Section Sample.
Definition yes_user (_ : World (Out := unit)) (_ : option str) : ReviewDecision := ApprovedForSession.
Definition denying_system (_ : World (Out := unit)) (s : SandboxType) : result ToolError unit :=
  match s with SandboxNone => Ok () | _ => Err (SandboxDenied §"denied") end.
Definition fresh_world : World (Out := unit) := {| store := ∅; trace := [] |}.

#[local] Instance sample_tool : ToolRuntime (Out := unit) unit := {
  exec_approval_requirement := λ _, None;
  sandbox_mode_for_first_attempt := λ _, NoOverride;
  should_bypass_approval := default_should_bypass_approval;
  wants_no_sandbox_approval := default_wants_no_sandbox_approval;
  sandbox_preference := Auto;
  escalate_on_failure := true;
  start_approval_async := λ _ reason, request_approval yes_user reason;
}.

#[local] Instance sample_laws : ToolLaws (Out := unit) unit.
Proof.
  split.
  - intros req reason w d w' [= <- <-]. by eexists _, _.
  - done.
  - intros policy [] Hb; [by left|right]. by apply bool_decide_eq_true in Hb.
Qed.

Lemma orchestrator_discipline_witness :
  let t := trace (run denying_system Linux ReadOnly false () OnFailure fresh_world).2 in
  t = [EvRun LinuxSeccomp (Err (SandboxDenied §"denied"));
       EvDecision true (Some DENIAL_REASON) ApprovedForSession; EvRun SandboxNone (Ok ())] ∧
  runs t ≤ 2.
Proof.
  cbv zeta. split; [by vm_compute|].
  destruct (orchestrator_discipline denying_system Linux ReadOnly false () OnFailure fresh_world)
    as (t & Ht & Hr & _). by rewrite Ht.
Defined.

Lemma with_cached_approval_spec_witness :
  let keys := [Some §"a"; Some §"b"] in
  let '(d, w') := with_cached_approval keys (request_approval yes_user None) fresh_world in
  d = ApprovedForSession ∧
  with_cached_approval [Some §"b"] (request_approval yes_user None) w'
  = (ApprovedForSession, emit (EvDecision false None ApprovedForSession) w').
Proof.
  cbv zeta.
  pose proof (with_cached_approval_spec yes_user [Some §"a"; Some §"b"] None fresh_world
                ltac:(discriminate)) as Hspec.
  destruct (with_cached_approval _ _ fresh_world) as [d w'] eqn:E.
  destruct Hspec as [_ Hask]. destruct (Hask eq_refl) as (-> & _ & _ & Hlater).
  split; [reflexivity|]. apply Hlater; [reflexivity|by repeat constructor|discriminate|set_solver].
Defined.
End Sample.
