(* ===== verification/PatchSafety.v ===== *)
(** * Is a patch safe to apply unasked?  ([core/src/safety.rs],
    [core/src/apply_patch.rs], the writable roots of [protocol/src/protocol.rs],
    [utils/src/absolute_path.rs])

    The decision is lexical: the paths of the patch are normalised and compared
    with the writable roots of the sandbox policy.  Target: Unix. *)
From S2P Require Import Prelude RustStr Paths PatchParser PatchApply Invocation.
From S2P Require Import ExecPolicy Bash CommandSafety Approval Orchestrator.

(** ** The host: the environment, the disk, and the [path_absolutize] crate *)
Record Host := {
  home_dir : option str;
  env_TMPDIR : option str;
  is_dir : str → bool;
  is_file : str → bool;
  path_exists : str → bool;
  read_to_string : str → option str;
  absolutize : str → option str;
  absolutize_from : str → str → str;
}.

Definition TILDE : char := 126%N.

(** ** Paths by their components *)

(** [Path::components], the root being a component. *)
Definition component_list (p : str) : list str :=
  let '(root, parts) := components p in (if root then [[SLASH]] else []) ++ parts.

(** [Path::starts_with], on component lists. *)
Fixpoint comps_start_with (p q : list str) : bool :=
  match q, p with
  | [], _ => true
  | y :: q', x :: p' => bool_decide (x = y) && comps_start_with p' q'
  | _ :: _, [] => false
  end.

(** [PathBuf::pop] leaves the root alone. *)
Definition pop (out : list str) : list str :=
  if bool_decide (out = [[SLASH]]) then out else drop_last out.

Definition DOTDOT : str := [DOT; DOT].

Definition normalize_step (out : list str) (comp : str) : list str :=
  if bool_decide (comp = DOTDOT) then pop out
  else if bool_decide (comp = [DOT]) then out
  else out ++ [comp].

(** The inner [normalize]; its result is given by its components. *)
Definition normalize (path : str) : list str := foldl normalize_step [] (component_list path).

Definition resolve_path (base path : str) : str :=
  if is_absolute path then path else path_join base path.

(** ** Absolute paths *)
Section Roots.
Context (host : Host).

Definition maybe_expand_home_directory (path : str) : str :=
  match home_dir host, strip_prefix [TILDE] path with
  | Some home, Some rest =>
      if bool_decide (rest = []) then home
      else match strip_prefix [SLASH] rest with
           | Some rest => path_join home (trim_start_matches (λ c, bool_decide (c = SLASH)) rest)
           | None => path
           end
  | _, _ => path
  end.

Definition resolve_path_against_base (path base_path : str) : str :=
  absolutize_from host (maybe_expand_home_directory path) base_path.

Definition from_absolute_path (path : str) : option str :=
  absolutize host (maybe_expand_home_directory path).

Definition absolute_join (self path : str) : str := resolve_path_against_base path self.

(** ** Writable roots *)
Record WritableRoot := { root : str; read_only_subpaths : list str }.

Definition is_path_writable (wr : WritableRoot) (path : list str) : bool :=
  comps_start_with path (component_list (root wr)) &&
  negb (existsb (λ subpath, comps_start_with path (component_list subpath))
          (read_only_subpaths wr)).

Definition is_git_pointer_file (path : str) : bool :=
  is_file host path && bool_decide (file_name path = Some §".git").

Definition resolve_gitdir_from_file (dot_git : str) : option str :=
  contents ← read_to_string host dot_git;
  '(_, gitdir_raw) ← split_once COLON (trim contents);
  let gitdir_raw := trim gitdir_raw in
  if bool_decide (gitdir_raw = []) then None
  else
    base ← path_parent dot_git;
    let gitdir_path := resolve_path_against_base gitdir_raw base in
    if path_exists host gitdir_path then Some gitdir_path else None.

(** The roots of a workspace policy, before their read-only subpaths. *)
Definition workspace_roots (writable_roots : list str)
    (exclude_tmpdir_env_var exclude_slash_tmp : bool) (cwd : str) : list str :=
  writable_roots
  ++ option_list (from_absolute_path cwd)
  ++ (if exclude_slash_tmp then []
      else match from_absolute_path §"/tmp" with
           | Some slash_tmp => if is_dir host slash_tmp then [slash_tmp] else []
           | None => []
           end)
  ++ (if exclude_tmpdir_env_var then []
      else match env_TMPDIR host with
           | Some tmpdir =>
               if bool_decide (tmpdir = []) then [] else option_list (from_absolute_path tmpdir)
           | None => []
           end).

Definition subpaths_of (writable_root : str) : list str :=
  let top_level_git := absolute_join writable_root §".git" in
  let git_is_file := is_file host top_level_git in
  let git :=
    if is_dir host top_level_git || git_is_file then
      (if git_is_file && is_git_pointer_file top_level_git
       then option_list (resolve_gitdir_from_file top_level_git) else [])
      ++ [top_level_git]
    else [] in
  let top_level_savfox := absolute_join writable_root §".savfox" in
  git ++ (if is_dir host top_level_savfox then [top_level_savfox] else []).

Definition get_writable_roots_with_cwd (policy : SandboxPolicy) (cwd : str) : list WritableRoot :=
  match policy with
  | DangerFullAccess | ExternalSandbox _ | ReadOnly => []
  | WorkspaceWrite writable_roots _ exclude_tmpdir_env_var exclude_slash_tmp =>
      (λ r, {| root := r; read_only_subpaths := subpaths_of r |})
        <$> workspace_roots writable_roots exclude_tmpdir_env_var exclude_slash_tmp cwd
  end.

(** ** The check *)
Definition is_patch_path_writable (writable_roots : list WritableRoot) (cwd p : str) : bool :=
  existsb (λ wr, is_path_writable wr (normalize (resolve_path cwd p))) writable_roots.

Definition change_writable (writable : str → bool) (e : str * ApplyPatchFileChange) : bool :=
  let '(path, change) := e in
  match change with
  | ChangeAdd _ | ChangeDelete _ => writable path
  | ChangeUpdate _ move_path _ =>
      writable path && match move_path with Some dest => writable dest | None => true end
  end.

Definition is_write_patch_constrained_to_writable_paths (action : ApplyPatchAction)
    (sandbox_policy : SandboxPolicy) (cwd : str) : bool :=
  match sandbox_policy with
  | ReadOnly => false
  | DangerFullAccess | ExternalSandbox _ => true
  | WorkspaceWrite _ _ _ _ =>
      let writable_roots := get_writable_roots_with_cwd sandbox_policy cwd in
      forallb (change_writable (is_patch_path_writable writable_roots cwd)) (changes action)
  end.

Inductive SafetyCheck :=
| AutoApprove (sandbox_type : SandboxType) (user_explicitly_approved : bool)
| AskUser
| Reject (reason : str).

Definition EMPTY_PATCH : str := §"empty patch".
Definition OUTSIDE_PROJECT : str :=
  §"writing outside of the project; rejected by user approval settings".

Definition assess_patch_safety (target_os : TargetOs) (action : ApplyPatchAction)
    (policy : AskForApproval) (sandbox_policy : SandboxPolicy) (cwd : str)
    (windows_sandbox_enabled : bool) : SafetyCheck :=
  if action_is_empty action then Reject EMPTY_PATCH
  else if is_write_patch_constrained_to_writable_paths action sandbox_policy cwd
          || bool_decide (policy = OnFailure) then
    match sandbox_policy with
    | DangerFullAccess | ExternalSandbox _ => AutoApprove SandboxNone false
    | _ => match get_platform_sandbox target_os windows_sandbox_enabled with
           | Some sandbox_type => AutoApprove sandbox_type false
           | None => AskUser
           end
    end
  else if bool_decide (policy = Never)
          || match policy with
             | Granular config => negb (allows_sandbox_approval config)
             | _ => false
             end
  then Reject OUTSIDE_PROJECT
  else AskUser.

(** ** [core/src/apply_patch.rs] *)
Record ApplyPatchExec := {
  exec_action : ApplyPatchAction;
  auto_approved : bool;
  exec_requirement : ExecApprovalRequirement;
}.

Inductive InternalApplyPatchInvocation :=
| PatchRejected (message : str)
| DelegateToExec (apply : ApplyPatchExec).

Definition decide_patch (target_os : TargetOs) (action : ApplyPatchAction)
    (policy : AskForApproval) (sandbox_policy : SandboxPolicy) (cwd : str)
    (windows_sandbox_enabled : bool) : InternalApplyPatchInvocation :=
  match assess_patch_safety target_os action policy sandbox_policy cwd windows_sandbox_enabled with
  | AutoApprove _ user_explicitly_approved =>
      DelegateToExec {| exec_action := action; auto_approved := negb user_explicitly_approved;
                        exec_requirement := Skip false None |}
  | AskUser =>
      DelegateToExec {| exec_action := action; auto_approved := false;
                        exec_requirement := NeedsApproval None None |}
  | Reject reason => PatchRejected (§"patch rejected: " ++ reason)
  end.

(** ** The approval keys of a patch ([core/src/tools/handlers/apply_patch.rs]) *)
Definition to_abs_path (cwd path : str) : str := resolve_path_against_base path cwd.

Definition keys_of_change (cwd : str) (e : str * ApplyPatchFileChange) : list str :=
  let '(path, change) := e in
  to_abs_path cwd path
  :: match change with
     | ChangeUpdate _ (Some dest) _ => [to_abs_path cwd dest]
     | _ => []
     end.

Definition file_paths_for_action (action : ApplyPatchAction) : list str :=
  changes action ≫= keys_of_change (action_cwd action).
End Roots.

Inductive FileChange :=
| FileAdd (content : str)
| FileDelete (content : str)
| FileUpdate (unified_diff : str) (move_path : option str).

Definition convert_apply_patch_to_protocol (action : ApplyPatchAction) : list (str * FileChange) :=
  (λ '(path, change), (path, match change with
     | ChangeAdd content => FileAdd content
     | ChangeDelete content => FileDelete content
     | ChangeUpdate unified_diff move_path _ => FileUpdate unified_diff move_path
     end)) <$> changes action.

(** * Correctness *)

Lemma comps_start_with_true p q : comps_start_with p q = true ↔ ∃ r, p = q ++ r.
Proof.
  revert p. induction q as [|y q IH]; intros p; cbn.
  - destruct p; cbn; naive_solver.
  - destruct p as [|x p]; cbn; [split; [done|by intros (r & ?)]|].
    rewrite andb_true_iff, bool_decide_eq_true, IH. split.
    + intros [-> (r & ->)]. by exists r.
    + intros (r & ?). simplify_eq. eauto.
Qed.

(** What normalising leaves: no [..] and no [.]. *)
Definition plain_comp (c : str) : Prop := c ≠ DOTDOT ∧ c ≠ [DOT].

Lemma normalize_plain p : Forall plain_comp (normalize p).
Proof.
  unfold normalize. assert (Forall plain_comp ([] : list str)) as Hacc by constructor.
  revert Hacc. generalize ([] : list str). induction (component_list p) as [|c cs IH]; [done|].
  intros acc Hacc. cbn. apply IH. unfold normalize_step. case_bool_decide as H1.
  - unfold pop. case_bool_decide; [done|]. unfold drop_last. by apply Forall_take.
  - case_bool_decide as H2; [done|]. rewrite Forall_app. split; [done|]. by repeat constructor.
Qed.

(** A path that lies, once normalised, under a writable root and under none of
    the root's read-only subpaths. *)
Definition under (p : str) (base : str) : Prop :=
  ∃ rest, normalize p = component_list base ++ rest.
Definition confined (roots : list WritableRoot) (cwd p : str) : Prop :=
  ∃ wr, wr ∈ roots ∧ under (resolve_path cwd p) (root wr) ∧
        Forall plain_comp (normalize (resolve_path cwd p)) ∧
        Forall (λ sub, ¬ under (resolve_path cwd p) sub) (read_only_subpaths wr).

Lemma is_path_writable_true wr p :
  is_path_writable wr (normalize p) = true ↔
  under p (root wr) ∧ Forall (λ sub, ¬ under p sub) (read_only_subpaths wr).
Proof.
  unfold is_path_writable. rewrite andb_true_iff, comps_start_with_true, negb_true_iff.
  apply and_iff_compat_l. rewrite <-not_true_iff_false, existsb_exists, Forall_forall.
  unfold under. setoid_rewrite comps_start_with_true. setoid_rewrite <-list_elem_of_In.
  split; [intros H s Hs Hu; apply H; eauto|intros H (s & Hs & Hu); by apply (H s)].
Qed.

Lemma is_patch_path_writable_true roots cwd p :
  is_patch_path_writable roots cwd p = true ↔ confined roots cwd p.
Proof.
  unfold is_patch_path_writable, confined. rewrite existsb_exists.
  setoid_rewrite <-list_elem_of_In. setoid_rewrite is_path_writable_true.
  pose proof (normalize_plain (resolve_path cwd p)). naive_solver.
Qed.

Lemma change_writable_true f e :
  change_writable f e = true ↔ Forall (λ p, f p = true) (entry_paths e).
Proof.
  destruct e as [k [c|c|d [m|] c]]; unfold entry_paths; cbn;
    rewrite ?andb_true_iff, ?andb_true_r, ?Forall_cons, ?Forall_nil; tauto.
Qed.

Section Facts.
Context (host : Host).
Notation constrained := (is_write_patch_constrained_to_writable_paths host).
Notation roots_of := (get_writable_roots_with_cwd host).
Notation assess := (assess_patch_safety host).

Lemma constrained_paths action sp cwd :
  has_full_disk_write_access sp = false → constrained action sp cwd = true →
  Forall (confined (roots_of sp cwd) cwd) (change_paths (changes action)).
Proof.
  destruct sp as [| |n|wrs n t s]; try done. intros _. unfold is_write_patch_constrained_to_writable_paths.
  rewrite forallb_forall. intros H. unfold change_paths. apply Forall_forall.
  intros p (e & He & Hp)%list_elem_of_bind. apply list_elem_of_In, H in Hp.
  rewrite change_writable_true, Forall_forall in Hp. by apply is_patch_path_writable_true, Hp.
Qed.

(** The decision about a patch, for all settings.  A patch that is approved
    unasked runs in the platform's sandbox unless the policy gives full write
    access, and it writes inside the writable roots unless the policy is to
    escalate on failure only.  A patch with nothing outside the writable roots
    is never rejected.  With approvals disabled the user is asked only where
    the platform has no sandbox. *)
Theorem assess_patch_safety_spec os action policy sp cwd win :
  match assess os action policy sp cwd win with
  | AutoApprove sandbox user =>
      user = false ∧ changes action ≠ [] ∧
      (if has_full_disk_write_access sp then sandbox = SandboxNone
       else get_platform_sandbox os win = Some sandbox ∧ sandbox ≠ SandboxNone) ∧
      (policy = OnFailure ∨ has_full_disk_write_access sp = true ∨
       Forall (confined (roots_of sp cwd) cwd) (change_paths (changes action)))
  | AskUser =>
      changes action ≠ [] ∧ has_full_disk_write_access sp = false ∧
      (policy = Never → get_platform_sandbox os win = None) ∧
      (∀ config, policy = Granular config → allows_sandbox_approval config = false →
         get_platform_sandbox os win = None)
  | Reject _ =>
      changes action = [] ∨
      (constrained action sp cwd = false ∧ has_full_disk_write_access sp = false ∧
       (policy = Never ∨
        ∃ config, policy = Granular config ∧ allows_sandbox_approval config = false))
  end.
Proof.
  assert (∀ s, get_platform_sandbox os win = Some s → s ≠ SandboxNone) as Hs.
  { destruct os; cbn; try destruct win; intros; by simplify_eq. }
  assert (has_full_disk_write_access sp = true → constrained action sp cwd = true) as Hfull
    by by destruct sp.
  pose proof (constrained_paths action sp cwd) as Hpaths.
  unfold assess_patch_safety, action_is_empty. case_bool_decide as Hlen.
  { left. by apply nil_length_inv. }
  assert (changes action ≠ []) as Hne by (intros E; by rewrite E in Hlen).
  destruct (constrained action sp cwd) eqn:Ec; cbn [orb].
  - destruct sp; cbn in *; try destruct (get_platform_sandbox os win) eqn:Ep; split_and!; eauto; done.
  - assert (has_full_disk_write_access sp = false) as Hf.
    { destruct (has_full_disk_write_access sp); [by specialize (Hfull eq_refl)|done]. }
    rewrite Hf in *. case_bool_decide as Hof; cbn [orb].
    + subst policy. destruct sp; try done; destruct (get_platform_sandbox os win) eqn:Ep;
        split_and!; eauto; done.
    + case_bool_decide as Hn; cbn [orb]; [by right; auto|].
      destruct policy as [| | |config|]; try done; try (split_and!; done).
      destruct (allows_sandbox_approval config) eqn:Ea; cbn; [|by right; split_and!; eauto].
      split_and!; try done. intros ? [= <-]. by rewrite Ea.
Qed.


(** The directories a writable root protects: when [.git] exists in a
    writable root (as a file or a directory), or [.savfox] as a directory, a
    path under it is not writable, unless another writable root covers it. *)
Theorem protected_subpaths sp cwd wr p name :
  wr ∈ roots_of sp cwd →
  (name = §".git" ∧ (is_dir host (absolute_join host (root wr) name)
                     || is_file host (absolute_join host (root wr) name)) = true ∨
   name = §".savfox" ∧ is_dir host (absolute_join host (root wr) name) = true) →
  under (resolve_path cwd p) (absolute_join host (root wr) name) →
  (∀ wr', wr' ∈ roots_of sp cwd → under (resolve_path cwd p) (root wr') → wr' = wr) →
  is_patch_path_writable (roots_of sp cwd) cwd p = false.
Proof.
  intros Hwr Hname Hunder Honly. apply not_true_iff_false.
  rewrite is_patch_path_writable_true. intros (wr' & Hwr' & Hu & _ & Hsub).
  apply Honly in Hu; [|done]. subst wr'. rewrite Forall_forall in Hsub.
  apply (Hsub (absolute_join host (root wr) name)); [|done].
  assert (read_only_subpaths wr = subpaths_of host (root wr)) as ->.
  { destruct sp; try by apply elem_of_nil in Hwr.
    by apply list_elem_of_fmap in Hwr as (r & -> & _). }
  unfold subpaths_of. apply elem_of_app. destruct Hname as [[-> Hd]|[-> Hd]]; rewrite Hd.
  - left. apply elem_of_app. right. by left.
  - right. by left.
Qed.

(** The approval keys of a patch are its changed paths, resolved. *)
Lemma file_paths_for_action_eq action :
  file_paths_for_action host action
  = to_abs_path host (action_cwd action) <$> change_paths (changes action).
Proof.
  unfold file_paths_for_action, change_paths. induction (changes action) as [|e cs IH]; [done|].
  rewrite !bind_cons, fmap_app, IH. f_equal. destruct e as [k [c|c|d [m|] c]]; done.
Qed.
End Facts.

(** ** Witnesses and findings *)

Definition plain_host (dirs : list str) (tmp : option str) : Host := {|
  home_dir := None; env_TMPDIR := tmp; is_dir := λ p, one_of p dirs; is_file := λ _, false;
  path_exists := λ p, one_of p dirs; read_to_string := λ _, None;
  absolutize := Some; absolutize_from := λ p base, path_join base p |}.


Lemma protected_subpaths_witness :
  is_patch_path_writable
    (get_writable_roots_with_cwd (plain_host [§"/w/.git"] None) workspace §"/w") §"/w"
    §".git/hooks/pre-commit" = false.
Proof.
  apply (protected_subpaths (plain_host [§"/w/.git"] None) workspace §"/w"
    {| root := §"/w"; read_only_subpaths := [§"/w/.git"] |} §".git/hooks/pre-commit" §".git").
  - vm_compute. by left.
  - left. by split.
  - by exists [§"hooks"; §"pre-commit"].
  - intros wr' Hwr' _. by apply list_elem_of_singleton in Hwr' as ->.
Defined.

(** A writable root inside another one is not protected: the rule of the outer
    root does not cover the inner [.git].  A project under [/tmp] is in this case
    with the default roots. *)
Example nested_root_unprotects_git :
  let host := plain_host [§"/tmp"; §"/tmp/w/.git"] None in
  let hook := {| changes := [(§"/tmp/w/.git/hooks/pre-commit", ChangeAdd §"x")];
                 action_patch := []; action_cwd := §"/tmp/w" |} in
  (get_writable_roots_with_cwd host workspace §"/tmp/w"
     = [{| root := §"/tmp/w"; read_only_subpaths := [§"/tmp/w/.git"] |};
        {| root := §"/tmp"; read_only_subpaths := [] |}]) ∧
  assess_patch_safety host Linux hook Never workspace §"/tmp/w" false
    = AutoApprove LinuxSeccomp false.
Proof. by vm_compute. Qed.

(** With approvals disabled and no sandbox on the platform the user is asked. *)
Example never_asks_without_a_sandbox :
  assess_patch_safety (plain_host [] None) Windows preview_action Never workspace §"/w" false
    = AskUser.
Proof. by vm_compute. Qed.

(** The comment in the source says that a patch outside the writable paths ends up
    with the user under [Never]; it is rejected. *)
Example never_rejects_outside :
  assess_patch_safety (plain_host [] None) Linux preview_action Never workspace §"/other" false
    = Reject OUTSIDE_PROJECT.
Proof. by vm_compute. Qed.
