(* ===== verification/Tools.v ===== *)
(** * The shell and patch tools ([core/src/tools/handlers/], [core/src/tools/runtimes/])

    The whole way of a command from the model: the guard against escalation, the
    interception of patches, the requirement, and the orchestrator run with the
    tool's runtime.  The runtimes discharge the laws of the orchestrator's
    interface, so its discipline holds for every call. *)
From S2P Require Import Prelude RustStr Paths PatchParser PatchApply Invocation.
From S2P Require Import ExecPolicy Bash CommandSafety Approval Orchestrator PatchSafety.

(** ** Requests *)
Record ShellRequest := {
  sh_command : list str;
  sh_cwd : str;
  sh_sandbox_permissions : SandboxPermissions;
  sh_justification : option str;
  sh_exec_approval_requirement : ExecApprovalRequirement;
}.

Record ApprovalKey := {
  key_command : list str; key_cwd : str; key_sandbox_permissions : SandboxPermissions }.

Record ApplyPatchRequest := {
  patch_action : ApplyPatchAction;
  patch_file_paths : list str;
  patch_changes : list (str * FileChange);
  patch_exec_approval_requirement : ExecApprovalRequirement;
}.

Definition shell_approval_keys (req : ShellRequest) : list ApprovalKey :=
  [{| key_command := sh_command req; key_cwd := sh_cwd req;
      key_sandbox_permissions := sh_sandbox_permissions req |}].

Definition patch_approval_keys (req : ApplyPatchRequest) : list str := patch_file_paths req.

Definition skips_sandbox (r : ExecApprovalRequirement) : bool :=
  match r with Skip b _ => b | _ => false end.

Definition shell_sandbox_mode (req : ShellRequest) : SandboxOverride :=
  if requires_escalated_permissions (sh_sandbox_permissions req)
     || skips_sandbox (sh_exec_approval_requirement req)
  then BypassSandboxFirstAttempt else NoOverride.

(** ** The turn *)
Record TurnContext := {
  turn_approval_policy : AskForApproval;
  turn_sandbox_policy : SandboxPolicy;
  turn_cwd : str;
  turn_windows_sandbox_enabled : bool;
  turn_features : Features;
}.

Definition allows_explicit_escalation (policy : AskForApproval) : bool :=
  match policy with
  | OnRequest => true
  | Granular config => allows_sandbox_approval config
  | _ => false
  end.

Record ExecParams := {
  params_command : list str;
  params_cwd : str;
  params_sandbox_permissions : SandboxPermissions;
  params_justification : option str;
  params_prefix_rule : option (list str);
}.

(** What a handler answers: an error for the model, or a tool's result. *)
Inductive HandlerOutcome (Out : Type) :=
| ModelError
| ToolResult (r : result ToolError Out).
Arguments ModelError {Out}.
Arguments ToolResult {Out} r.

Section Tools.
Context {Out : Type}.
Context (ask_user : World (Out := Out) → option str → ReviewDecision)
        (execute : World (Out := Out) → SandboxType → result ToolError Out).
(** [serde_json::to_string] on the approval keys. *)
Context (serialize_key : ApprovalKey → option str) (serialize_path : str → option str).
Context (host : Host) (target_os : TargetOs).
Context (shlex_try_join : list str → option str)
        (parse_with_powershell_ast : str → str → option (list (list str)))
        (try_parse_shell : str → option Tree)
        (query_matches : str → result ExtractHeredocError (list (list capture)))
        (unified_diff_text : str → str → nat → str).

(** ** The runtimes *)
#[local] Instance ShellRuntime : ToolRuntime (Out := Out) ShellRequest := {
  exec_approval_requirement := λ req, Some (sh_exec_approval_requirement req);
  sandbox_mode_for_first_attempt := shell_sandbox_mode;
  should_bypass_approval := default_should_bypass_approval;
  wants_no_sandbox_approval := default_wants_no_sandbox_approval;
  sandbox_preference := Auto;
  escalate_on_failure := true;
  start_approval_async := λ req retry_reason,
    let reason := match retry_reason with Some r => Some r | None => sh_justification req end in
    with_cached_approval (serialize_key <$> shell_approval_keys req)
      (request_approval ask_user reason);
}.

Definition patch_wants_no_sandbox_approval (policy : AskForApproval) : bool :=
  negb (bool_decide (policy = Never)).

#[local] Instance ApplyPatchRuntime : ToolRuntime (Out := Out) ApplyPatchRequest := {
  exec_approval_requirement := λ req, Some (patch_exec_approval_requirement req);
  sandbox_mode_for_first_attempt := λ _, NoOverride;
  should_bypass_approval := default_should_bypass_approval;
  wants_no_sandbox_approval := patch_wants_no_sandbox_approval;
  sandbox_preference := Auto;
  escalate_on_failure := true;
  start_approval_async := λ req retry_reason,
    match retry_reason with
    | Some reason => request_approval ask_user (Some reason)
    | None =>
        with_cached_approval (serialize_path <$> patch_approval_keys req)
          (request_approval ask_user None)
    end;
}.

Lemma default_bypass policy approved :
  default_should_bypass_approval policy approved = true → approved = true ∨ policy = Never.
Proof. unfold default_should_bypass_approval. destruct approved; [by left|]. case_bool_decide; auto. Qed.

Lemma recorded_of_adds (m : M (Out := Out) ReviewDecision) :
  adds m (λ d t, ∃ by_user r, t = [EvDecision by_user r d]) →
  ∀ w d w', m w = (d, w') → ∃ by_user r, trace w' = trace w ++ [EvDecision by_user r d].
Proof. intros Hm w d w' E. destruct (Hm _ _ _ E) as (t & -> & b & r & ->). eauto. Qed.

Lemma asking_recorded reason :
  adds (request_approval ask_user reason) (λ d t, ∃ by_user r, t = [EvDecision by_user r d]).
Proof. eapply adds_weaken; [apply adds_request_approval|]. intros d t ->. eauto. Qed.

#[local] Instance ShellLaws : ToolLaws (Out := Out) ShellRequest.
Proof.
  split.
  - intros req reason. apply recorded_of_adds, adds_with_cached, asking_recorded.
  - done.
  - apply default_bypass.
Qed.

#[local] Instance ApplyPatchLaws : ToolLaws (Out := Out) ApplyPatchRequest.
Proof.
  split.
  - intros req [reason|]; apply recorded_of_adds; cbn; [apply asking_recorded|].
    apply adds_with_cached, asking_recorded.
  - done.
  - apply default_bypass.
Qed.

(** ** The handlers *)
Definition orchestrate {Req} `{ToolRuntime (Out := Out) Req} (turn : TurnContext) (req : Req)
    : M (result ToolError Out) :=
  run execute target_os (turn_sandbox_policy turn) (turn_windows_sandbox_enabled turn) req
    (turn_approval_policy turn).

(** [apply_patch] and the run of an accepted patch. *)
Definition run_patch (turn : TurnContext) (action : ApplyPatchAction)
    : M (HandlerOutcome Out) :=
  match decide_patch host target_os action (turn_approval_policy turn) (turn_sandbox_policy turn)
          (turn_cwd turn) (turn_windows_sandbox_enabled turn) with
  | PatchRejected message => ret ModelError
  | DelegateToExec apply =>
      let action := exec_action apply in
      bind (orchestrate turn
        {| patch_action := action; patch_file_paths := file_paths_for_action host action;
           patch_changes := convert_apply_patch_to_protocol action;
           patch_exec_approval_requirement := exec_requirement apply |})
        (λ r, ret (ToolResult r))
  end.

Context {FS : Type} `{FileSystem FS}.

(** [ApplyPatchHandler::handle], from the input of the call on; [None] is a panic. *)
Definition handle_apply_patch (fs : FS) (turn : TurnContext) (patch_input : str)
    : M (option (HandlerOutcome Out)) :=
  match maybe_parse_apply_patch_verified query_matches unified_diff_text fs
          [§"apply_patch"; patch_input] (turn_cwd turn) with
  | None => ret None
  | Some (VerifiedBody action) => bind (run_patch turn action) (λ r, ret (Some r))
  | Some _ => ret (Some ModelError)
  end.

(** [Ok(None)] of [intercept_apply_patch] is the outer [None]. *)
Definition intercept_apply_patch (fs : FS) (turn : TurnContext) (command : list str) (cwd : str)
    : option (option (M (HandlerOutcome Out))) :=
  v ← maybe_parse_apply_patch_verified query_matches unified_diff_text fs command cwd;
  Some match v with
       | VerifiedBody action => Some (run_patch turn action)
       | VerifiedCorrectnessError _ => Some (ret ModelError)
       | VerifiedShellParseError _ | VerifiedNotApplyPatch => None
       end.

Definition approval_request (turn : TurnContext) (params : ExecParams) : ExecApprovalRequest := {|
  features := turn_features turn;
  command := params_command params;
  approval_policy := turn_approval_policy turn;
  sandbox_policy := turn_sandbox_policy turn;
  sandbox_permissions := params_sandbox_permissions params;
  prefix_rule := if feature_RequestRule (turn_features turn) then params_prefix_rule params else None;
|}.

Definition shell_request (params : ExecParams) (requirement : ExecApprovalRequirement)
    : ShellRequest := {|
  sh_command := params_command params; sh_cwd := params_cwd params;
  sh_sandbox_permissions := params_sandbox_permissions params;
  sh_justification := params_justification params;
  sh_exec_approval_requirement := requirement |}.

(** [ShellHandler::run_exec_like] *)
Definition run_exec_like (fs : FS) (exec_policy : Policy PrefixRule) (turn : TurnContext)
    (params : ExecParams) : M (option (HandlerOutcome Out)) :=
  if requires_escalated_permissions (params_sandbox_permissions params)
     && negb (allows_explicit_escalation (turn_approval_policy turn))
  then ret (Some ModelError)
  else
    match intercept_apply_patch fs turn (params_command params) (params_cwd params) with
    | None => ret None
    | Some (Some handled) => bind handled (λ r, ret (Some r))
    | Some None =>
        match create_exec_approval_requirement_for_command shlex_try_join
                parse_with_powershell_ast try_parse_shell exec_policy
                (approval_request turn params) with
        | None => ret None
        | Some requirement =>
            bind (orchestrate turn (shell_request params requirement))
              (λ r, ret (Some (ToolResult r)))
        end
    end.

(** * Correctness *)

(** The sandbox that the policy of the turn selects. *)
Definition selected (turn : TurnContext) : SandboxType :=
  select_initial target_os (turn_sandbox_policy turn) Auto (turn_windows_sandbox_enabled turn).

(** Every run in [t] is in the selected sandbox, or follows an approval, or is
    [free] of one. *)
Definition every_run_guarded (turn : TurnContext) (free : Prop) (t : list (event (Out := Out))) : Prop :=
  ∀ t1 s r t2, t = t1 ++ EvRun s r :: t2 →
    s = selected turn ∨ (s = SandboxNone ∧ (existsb approving t1 = true ∨ free)).

(** What the orchestrator guarantees of one call. *)
Definition call_discipline (turn : TurnContext) (init : SandboxType)
    (requirement : ExecApprovalRequirement) (t : list (event (Out := Out))) : Prop :=
  guarded init (needs_approval requirement) false None t ∧ runs t ≤ 2 ∧
  (is_forbidden requirement = true → t = []) ∧
  (turn_approval_policy turn = Never → needs_approval requirement = false →
     runs t ≤ 1 ∧ Forall (λ e, is_run e = true) t).

Lemma orchestrate_guarded {Req} `{ToolLaws (Out := Out) Req} turn (req : Req) :
  adds (orchestrate turn req)
    (λ _ t, call_discipline turn
              (initial_sandbox target_os (turn_sandbox_policy turn)
                 (turn_windows_sandbox_enabled turn) req)
              (requirement_of (turn_sandbox_policy turn) req (turn_approval_policy turn)) t).
Proof. apply run_guarded. apply _. Qed.

Lemma adds_then_ret {A B} (m : M (Out := Out) A) (f : A → B) P Q :
  adds m P → (∀ a t, P a t → Q (f a) t) → adds (bind m (λ a, ret (f a))) Q.
Proof.
  intros Hm HQ. eapply adds_bind; [exact Hm|]. intros a t HP. apply adds_ret.
  rewrite app_nil_r. by apply HQ.
Qed.

(** The discipline, read off at every run; [init] is the sandbox of the first. *)
Lemma discipline_guarded turn init requirement free t :
  call_discipline turn init requirement t →
  (init = selected turn ∨
   init = SandboxNone ∧ (is_forbidden requirement = false → needs_approval requirement = false → free)) →
  every_run_guarded turn free t.
Proof.
  intros (Hg & _ & Hf & _) Hinit t1 s r t2 ->. apply guarded_at in Hg.
  destruct (existsb is_run t1); [by destruct Hg as (-> & ? & _); auto|]. destruct Hg as [-> Ha].
  destruct Hinit as [->|[-> Hfree]]; [by left|]. right. split; [done|].
  destruct (needs_approval requirement); [left; by apply Ha|].
  destruct (is_forbidden requirement); [|right; by apply Hfree].
  specialize (Hf eq_refl). by destruct t1.
Qed.

Lemma selected_full turn :
  has_full_disk_write_access (turn_sandbox_policy turn) = true → selected turn = SandboxNone.
Proof. unfold selected. by destruct (turn_sandbox_policy turn). Qed.

(** ** Patches *)
Lemma decide_patch_requirement turn action apply :
  decide_patch host target_os action (turn_approval_policy turn) (turn_sandbox_policy turn)
    (turn_cwd turn) (turn_windows_sandbox_enabled turn) = DelegateToExec apply →
  is_forbidden (exec_requirement apply) = false ∧
  (needs_approval (exec_requirement apply) = true → turn_approval_policy turn = Never →
   get_platform_sandbox target_os (turn_windows_sandbox_enabled turn) = None ∧
   has_full_disk_write_access (turn_sandbox_policy turn) = false).
Proof.
  unfold decide_patch, assess_patch_safety. destruct (action_is_empty action); [done|].
  destruct (is_write_patch_constrained_to_writable_paths _ _ _ _ || _) eqn:Ec.
  - destruct (turn_sandbox_policy turn); try destruct (get_platform_sandbox _ _) eqn:Ep;
      intros; by simplify_eq.
  - destruct (bool_decide (turn_approval_policy turn = Never)) eqn:En; [done|].
    apply bool_decide_eq_false in En. cbn [orb]. case_match; intros; by simplify_eq.
Qed.

(** The trace of one patch. *)
Definition patch_trace_ok (turn : TurnContext) (t : list (event (Out := Out))) : Prop :=
  every_run_guarded turn False t ∧ runs t ≤ 2 ∧
  (turn_approval_policy turn = Never →
   get_platform_sandbox target_os (turn_windows_sandbox_enabled turn) ≠ None
   ∨ has_full_disk_write_access (turn_sandbox_policy turn) = true →
   runs t ≤ 1 ∧ Forall (λ e, is_run e = true) t).

Lemma no_events_ok turn : patch_trace_ok turn [].
Proof.
  split_and!; [|unfold runs; cbn; lia|].
  - intros t1 s r t2 E. by destruct t1.
  - intros _ _. split; [unfold runs; cbn; lia|constructor].
Qed.

Lemma run_patch_ok turn action : adds (run_patch turn action) (λ _ t, patch_trace_ok turn t).
Proof.
  unfold run_patch. destruct (decide_patch _ _ _ _ _ _ _) as [m|apply] eqn:Ed.
  { apply adds_ret, no_events_ok. }
  apply decide_patch_requirement in Ed as [Hf Hn].
  eapply adds_then_ret; [apply orchestrate_guarded|]. intros r t Hd. split_and!.
  - eapply discipline_guarded; [exact Hd|]. by left.
  - apply Hd.
  - intros Hnever Hsb. apply Hd; [done|]. cbn. apply not_true_is_false. intros Hneeds.
    destruct (Hn Hneeds Hnever) as [H1 H2]. rewrite H1, H2 in Hsb. naive_solver.
Qed.

(** What the decision about a patch allows: nothing happens to a rejected patch,
    one to be asked about is only applied after an approval. *)
Definition decision_respected (turn : TurnContext) (action : ApplyPatchAction)
    (t : list (event (Out := Out))) : Prop :=
  match assess_patch_safety host target_os action (turn_approval_policy turn)
          (turn_sandbox_policy turn) (turn_cwd turn) (turn_windows_sandbox_enabled turn) with
  | Reject _ => t = []
  | AskUser => ∀ t1 s r t2, t = t1 ++ EvRun s r :: t2 → existsb approving t1 = true
  | AutoApprove _ _ => True
  end.

Lemma run_patch_decision turn action :
  adds (run_patch turn action) (λ _ t, decision_respected turn action t).
Proof.
  unfold run_patch, decide_patch, decision_respected.
  destruct (assess_patch_safety _ _ _ _ _ _ _) as [sb u| |reason].
  - eapply adds_then_ret; [apply orchestrate_guarded|done].
  - eapply adds_then_ret; [apply orchestrate_guarded|]. intros r t (Hg & _) t1 s r' t2 ->.
    apply guarded_at in Hg. destruct (existsb is_run t1); [by destruct Hg as (_ & ? & _)|].
    by apply Hg.
  - by apply adds_ret.
Qed.

(** C3. The patch tool, whatever the patch, the settings, the answers of the user
    and of the system: the patch is applied at most twice, every time in the
    sandbox that the policy selects or after the user approved in this call; a
    rejected patch leaves no trace, and one the user is to be asked about is only
    applied after an approval.  With approvals disabled nothing is asked and it is
    applied at most once (where the platform has a sandbox, or none is called for). *)
Theorem patch_call_guarded fs turn input w :
  ∃ t, trace (handle_apply_patch fs turn input w).2 = trace w ++ t ∧ patch_trace_ok turn t ∧
    match maybe_parse_apply_patch_verified query_matches unified_diff_text fs
            [§"apply_patch"; input] (turn_cwd turn) with
    | Some (VerifiedBody action) => decision_respected turn action t
    | _ => t = []
    end.
Proof.
  unfold handle_apply_patch.
  destruct (maybe_parse_apply_patch_verified _ _ _ _ _) as [[action|e|e|]|];
    try (exists []; split; [by rewrite app_nil_r|]; split; [apply no_events_ok|done]).
  unfold bind. destruct (run_patch turn action w) as [o w'] eqn:E. cbn.
  destruct (run_patch_ok _ _ _ _ _ E) as (t & Ht & Hok).
  destruct (run_patch_decision _ _ _ _ _ E) as (t' & Ht' & Hd).
  rewrite Ht in Ht'. apply app_inv_head in Ht' as <-. by exists t.
Qed.

(** ** Commands *)
Notation create := (create_exec_approval_requirement_for_command shlex_try_join
                      parse_with_powershell_ast try_parse_shell).
Notation fallback := (exec_policy_fallback parse_with_powershell_ast try_parse_shell).
Notation parts := (commands_of try_parse_shell).
Notation known_safe := (is_known_safe_command parse_with_powershell_ast try_parse_shell).

(** A part of a command that needs no approval: allowed by all rules that match
    it, or matched by none and allowed by the heuristics. *)
Definition part_allowed (p : Policy PrefixRule) (req : ExecApprovalRequest) (c : list str) : Prop :=
  (rules_for p c ≠ [] ∧ ∀ m, m ∈ rules_for p c → match_decision m = Allow) ∨
  (rules_for p c = [] ∧ fallback req c = Allow).

(** When a command may run unasked outside the sandbox: all its parts need no
    approval, and a rule allows one of them, or the model asked to escalate where
    it may, and every part is allowed by rules or known to be safe. *)
Definition unasked_escape (p : Policy PrefixRule) (turn : TurnContext) (params : ExecParams) : Prop :=
  (∀ c, c ∈ parts (params_command params) → part_allowed p (approval_request turn params) c) ∧
  ((∃ c m, c ∈ parts (params_command params) ∧ m ∈ rules_for p c ∧ match_decision m = Allow) ∨
   (requires_escalated_permissions (params_sandbox_permissions params) = true ∧
    allows_explicit_escalation (turn_approval_policy turn) = true ∧
    ∀ c, c ∈ parts (params_command params) → rules_for p c ≠ [] ∨ known_safe c = true)).

Lemma fallback_escalated turn params c :
  requires_escalated_permissions (params_sandbox_permissions params) = true →
  allows_explicit_escalation (turn_approval_policy turn) = true →
  has_full_disk_write_access (turn_sandbox_policy turn) = false →
  fallback (approval_request turn params) c = Allow → known_safe c = true.
Proof.
  intros He Ha Hf. unfold exec_policy_fallback, render_decision_for_unmatched_command. cbn.
  destruct (known_safe c); [done|]. rewrite He.
  destruct (command_might_be_dangerous _ _ || _).
  - by destruct (turn_approval_policy turn).
  - destruct (turn_approval_policy turn), (turn_sandbox_policy turn); done.
Qed.

(** A requirement that lets the command skip approvals, in terms of the rules. *)
Lemma skip_escape p turn params b a :
  create p (approval_request turn params) = Some (Skip b a) →
  requires_escalated_permissions (params_sandbox_permissions params)
    && negb (allows_explicit_escalation (turn_approval_policy turn)) = false →
  has_full_disk_write_access (turn_sandbox_policy turn) = false →
  requires_escalated_permissions (params_sandbox_permissions params) || b = true →
  unasked_escape p turn params.
Proof.
  intros Hc Hguard Hf Hby.
  destruct (requirement_sound_parts _ _ _ _ _ _ Hc) as (_ & _ & Hskip).
  specialize (Hskip b a eq_refl). split; [done|]. destruct b.
  - left. apply create_cases in Hc as (d & _ & Hc). destruct d; try done.
    symmetry in Hc. apply existsb_exists in Hc as (m & Hm & Ha).
    apply list_elem_of_In, elem_of_all_matches in Hm as (c & Hin & Hm).
    apply andb_true_iff in Ha as [Hpm Hal%bool_decide_eq_true].
    destruct Hm as [Hm|[_ ->]]; [|done]. by exists c, m.
  - rewrite orb_false_r in Hby. rewrite Hby in Hguard. cbn in Hguard.
    apply negb_false_iff in Hguard. right. split_and!; [done..|]. intros c Hin.
    destruct (Hskip c Hin) as [[? _]|[_ Hfb]]; [by left|right].
    by eapply fallback_escalated.
Qed.

(** The trace of one command. *)
Definition shell_trace_ok (p : Policy PrefixRule) (turn : TurnContext) (params : ExecParams)
    (t : list (event (Out := Out))) : Prop :=
  every_run_guarded turn (unasked_escape p turn params) t ∧ runs t ≤ 2 ∧
  (turn_approval_policy turn = Never →
   get_platform_sandbox target_os (turn_windows_sandbox_enabled turn) ≠ None
   ∨ has_full_disk_write_access (turn_sandbox_policy turn) = true →
   runs t ≤ 1 ∧ Forall (λ e, is_run e = true) t).

Lemma every_run_guarded_weaken turn (P Q : Prop) t :
  (P → Q) → every_run_guarded turn P t → every_run_guarded turn Q t.
Proof. intros HPQ Hr t1 s r t2 E. destruct (Hr _ _ _ _ E) as [?|[? [?|?]]]; auto. Qed.

Lemma shell_sandbox turn params requirement :
  initial_sandbox target_os (turn_sandbox_policy turn) (turn_windows_sandbox_enabled turn)
    (shell_request params requirement)
  = if requires_escalated_permissions (params_sandbox_permissions params)
       || skips_sandbox requirement then SandboxNone else selected turn.
Proof. unfold initial_sandbox. cbn. unfold shell_sandbox_mode. cbn. by destruct (_ || _). Qed.

Lemma shell_discipline_ok p turn params requirement t :
  create p (approval_request turn params) = Some requirement →
  requires_escalated_permissions (params_sandbox_permissions params)
    && negb (allows_explicit_escalation (turn_approval_policy turn)) = false →
  call_discipline turn
    (initial_sandbox target_os (turn_sandbox_policy turn) (turn_windows_sandbox_enabled turn)
       (shell_request params requirement)) requirement t →
  shell_trace_ok p turn params t.
Proof.
  intros Hc Hguard Hd. split_and!; [|apply Hd|].
  - eapply discipline_guarded; [exact Hd|]. rewrite shell_sandbox.
    destruct (has_full_disk_write_access (turn_sandbox_policy turn)) eqn:Hf.
    { left. apply selected_full in Hf. rewrite Hf. by destruct (_ || _). }
    destruct (_ || _) eqn:Hby; [right|by left]. split; [done|]. intros H1 H2.
    destruct requirement as [b a| |]; [|done..]. by eapply skip_escape.
  - intros Hn _. apply Hd; [done|]. destruct requirement as [|reason a|]; try done.
    destruct (requirement_sound_parts _ _ _ _ _ _ Hc) as (_ & Hnever & _).
    by destruct (Hnever Hn reason a).
Qed.

Lemma run_exec_like_ok fs p turn params :
  adds (run_exec_like fs p turn params)
    (λ o t, shell_trace_ok p turn params t ∧
            (o = None → parse_shell_lc_plain_commands try_parse_shell (params_command params) = Some [])).
Proof.
  assert (shell_trace_ok p turn params []) as Hnil.
  { destruct (no_events_ok turn) as (H1 & H2 & H3). split_and!; try done.
    eapply every_run_guarded_weaken; [|exact H1]. done. }
  unfold run_exec_like.
  destruct (_ && negb _) eqn:Hguard; [by apply adds_ret|].
  unfold intercept_apply_patch.
  destruct (verified_total query_matches unified_diff_text fs (params_command params) (params_cwd params))
    as [v Hv]. rewrite Hv. cbn.
  assert (∀ action, adds (bind (run_patch turn action) (λ r, ret (Some r)))
    (λ o t, shell_trace_ok p turn params t ∧ (o = None →
       parse_shell_lc_plain_commands try_parse_shell (params_command params) = Some []))) as Hpatch.
  { intros action. eapply adds_then_ret; [apply run_patch_ok|]. intros r t (H1 & H2 & H3).
    split; [|done]. split_and!; try done. eapply every_run_guarded_weaken; [|exact H1]. done. }
  destruct v as [action|e|e|]; cbn; [apply Hpatch| | |].
  2: { eapply adds_then_ret; [by apply (adds_ret _ (λ _ t, t = []))|]. by intros r t ->. }
  all: match goal with |- adds (match ?c with Some _ => _ | None => _ end) _ =>
         destruct c as [requirement|] eqn:Hc end;
    [eapply adds_then_ret; [apply orchestrate_guarded|]; intros r t Hd;
       split; [by eapply shell_discipline_ok|done]
    |by apply adds_ret; split; [|intros _; apply requirement_panics in Hc]].
Qed.



(** Approvals of a patch for the session are per file: a patch passes without
    asking exactly when each file it changes (source and destination) was approved
    for the session before. *)
Theorem patch_cache_per_file action (w : World (Out := Out)) requirement :
  changes action ≠ [] →
  let req := {| patch_action := action; patch_file_paths := file_paths_for_action host action;
                patch_changes := convert_apply_patch_to_protocol action;
                patch_exec_approval_requirement := requirement |} in
  let approved p := cached (store w) (serialize_path (to_abs_path host (action_cwd action) p)) in
  ((∀ p, p ∈ change_paths (changes action) → approved p = true) →
     @start_approval_async Out ApplyPatchRequest ApplyPatchRuntime req None w
     = (ApprovedForSession, emit (EvDecision false None ApprovedForSession) w)) ∧
  (∀ p, p ∈ change_paths (changes action) → approved p = false →
     ∃ d w', @start_approval_async Out ApplyPatchRequest ApplyPatchRuntime req None w = (d, w') ∧ d = ask_user w None ∧
             trace w' = trace w ++ [EvDecision true None d]).
Proof.
  clear execute parse_with_powershell_ast try_parse_shell query_matches unified_diff_text.
  intros Hne req approved. cbn -[with_cached_approval].
  unfold patch_approval_keys. cbn [req patch_file_paths].
  rewrite file_paths_for_action_eq, <-list_fmap_compose.
  assert (change_paths (changes action) ≠ []) as Hne'.
  { unfold change_paths. destruct (changes action) as [|e cs]; [done|]. by rewrite bind_cons. }
  set (keys := _ <$> change_paths (changes action)).
  assert (keys ≠ []) as Hk by (unfold keys; by destruct (change_paths (changes action))).
  assert (∀ k, In k keys ↔ ∃ p, p ∈ change_paths (changes action) ∧
            k = serialize_path (to_abs_path host (action_cwd action) p)) as Hin.
  { intros k. rewrite <-list_elem_of_In. unfold keys. rewrite list_elem_of_fmap. naive_solver. }
  destruct (forallb (cached (store w)) keys) eqn:Ec.
  - rewrite forallb_forall in Ec. unfold with_cached_approval.
    destruct keys as [|k ks] eqn:Eks; [done|]. unfold bind, get_store.
    rewrite (proj2 (forallb_forall _ _)) by done. split; [done|].
    intros p Hp Ha. unfold approved in Ha. rewrite Ec in Ha; [done|]. apply Hin. eauto.
  - split.
    + intros Hall. exfalso. enough (forallb (cached (store w)) keys = true) by congruence.
      apply forallb_forall. intros k (p & Hp & ->)%Hin. by apply Hall.
    + intros p _ _. unfold with_cached_approval.
      destruct keys as [|k ks]; [done|]. unfold bind, get_store. rewrite Ec.
      unfold request_approval. destruct (is_for_session (ask_user w None));
        eexists _, _; (split; [done|]); by split.
Qed.
End Tools.

(** ** Witnesses and findings *)
Section Samples.
Definition sample_key (k : ApprovalKey) : option str := Some (join [SP] (key_command k)).
Definition sample_turn (policy : AskForApproval) : TurnContext := {|
  turn_approval_policy := policy; turn_sandbox_policy := workspace; turn_cwd := §"/w";
  turn_windows_sandbox_enabled := false;
  turn_features := {| feature_ExecPolicy := true; feature_RequestRule := true |} |}.
Definition sample_params (cmd : list str) : ExecParams := {|
  params_command := cmd; params_cwd := §"/w"; params_sandbox_permissions := UseDefault;
  params_justification := None; params_prefix_rule := None |}.
Definition sample_run (p : Policy PrefixRule) (policy : AskForApproval) (cmd : list str) :=
  run_exec_like yes_user denying_system sample_key Some (plain_host [] None) Linux
    no_join no_powershell no_shell no_query no_diff preview_fs p (sample_turn policy)
    (sample_params cmd) fresh_world.


Lemma patch_cache_per_file_witness :
  let keys := [Some §"/w/a"; Some §"/w/b"; Some §"/w/c"] in
  let w := {| store := put_keys keys ApprovedForSession ∅; trace := [] |} in
  let req := {| patch_action := preview_action;
                patch_file_paths := file_paths_for_action (plain_host [] None) preview_action;
                patch_changes := convert_apply_patch_to_protocol preview_action;
                patch_exec_approval_requirement := Skip false None |} in
  @start_approval_async _ _ (ApplyPatchRuntime yes_user Some) req None w
  = (ApprovedForSession, emit (EvDecision false None ApprovedForSession) w).
Proof.
  cbv zeta.
  destruct (patch_cache_per_file yes_user Some (plain_host [] None) preview_action
    {| store := put_keys [Some §"/w/a"; Some §"/w/b"; Some §"/w/c"] ApprovedForSession ∅;
       trace := [] |} (Skip false None) ltac:(discriminate)) as [Hall _].
  apply Hall. apply Forall_forall. by vm_compute; repeat constructor.
Defined.

(** With the approvals of the sandbox switched off, a command that its sandbox
    denies is not rejected: the user is asked to run it without one. *)
Example switched_off_sandbox_approval_still_asks :
  (sample_run empty_policy (Granular {| sandbox_approval := false; rules := true |})
     [§"./build"]).2
  = {| store := {[ §"./build" := ApprovedForSession ]};
       trace := [EvRun LinuxSeccomp (Err (SandboxDenied §"denied"));
                 EvDecision true (Some DENIAL_REASON) ApprovedForSession;
                 EvRun SandboxNone (Ok ())] |}.
Proof. by vm_compute. Qed.

(** A patch under [Never] where the platform has no sandbox: the user is asked. *)
Example never_asks_about_a_patch :
  let turn := sample_turn Never in
  trace (handle_apply_patch yes_user denying_system Some (plain_host [] None) OtherOs
           no_query no_diff preview_fs turn preview_patch fresh_world).2
  = [EvDecision true None ApprovedForSession; EvRun SandboxNone (Ok ())].
Proof. by vm_compute. Qed.
End Samples.
