(* ===== verification/ToolRouter.v ===== *)
(** * From a call of the model to the output it is answered with
    ([core/src/tools/router.rs], [core/src/tools/registry.rs],
    [core/src/tools/context.rs], [core/src/tools/parallel.rs]; the conversions of
    [protocol/src/models.rs] and [core/src/stream_events_utils.rs]).

    The handlers of tools are the values of the registry, JSON values and their
    texts are parameters; the names MCP servers give their tools are looked up by
    [parse_mcp_tool_name]. *)
From S2P Require Import Prelude RustStr MachInt Truncate Protocol Normalize Approval.

(** ** Calls *)
Record ShellToolCallParams := {
  sp_command : list str;
  sp_workdir : option str;
  sp_timeout_ms : option Z;
  sp_sandbox_permissions : option SandboxPermissions;
  sp_prefix_rule : option (list str);
  sp_justification : option str;
}.
Inductive ToolPayload :=
| PFunction (arguments : str)
| PCustom (input : str)
| PLocalShell (params : ShellToolCallParams)
| PMcp (server tool raw_arguments : str).
Record ToolCall := { tool_name : str; call_id : str; payload : ToolPayload }.

Inductive FunctionCallError :=
| RespondToModel (message : str)
| MissingLocalShellCallId
| FatalCall (message : str).
(** [FunctionCallError::to_string]. *)
Definition call_error_text (e : FunctionCallError) : str :=
  match e with
  | RespondToModel m => m
  | MissingLocalShellCallId => §"LocalShellCall without call_id or id"
  | FatalCall m => §"Fatal error: " ++ m
  end.

(** The arguments that a local shell call stands for. *)
Definition shell_params (exec : LocalShellExecAction) : ShellToolCallParams :=
  {| sp_command := ls_command exec; sp_workdir := ls_working_directory exec;
     sp_timeout_ms := ls_timeout_ms exec; sp_sandbox_permissions := Some UseDefault;
     sp_prefix_rule := None; sp_justification := None |}.

Section Router.
Context (parse_mcp_tool_name : str → option (str * str)).

Definition build_tool_call (item : ResponseItem) : result FunctionCallError (option ToolCall) :=
  match item with
  | FunctionCall _ name arguments call_id =>
      match parse_mcp_tool_name name with
      | Some (server, tool) =>
          Ok (Some {| tool_name := name; call_id := call_id; payload := PMcp server tool arguments |})
      | None => Ok (Some {| tool_name := name; call_id := call_id; payload := PFunction arguments |})
      end
  | CustomToolCall _ _ call_id name input =>
      Ok (Some {| tool_name := name; call_id := call_id; payload := PCustom input |})
  | LocalShellCall id call_id _ (Exec exec) =>
      match (match call_id with Some c => Some c | None => id end) with
      | None => Err MissingLocalShellCallId
      | Some call_id =>
          Ok (Some {| tool_name := §"local_shell"; call_id := call_id;
                      payload := PLocalShell (shell_params exec) |})
      end
  | _ => Ok None
  end.
End Router.

(** ** Outputs *)
Section Outputs.
(** JSON values: their text, whether they are [null], and how one reads as the
    content of an MCP result. *)
Context {Value : Type} (to_text : Value → result str str) (list_to_text : list Value → result str str)
        (is_null : Value → bool).
Inductive McpContent :=
| McpText (text : str)
| McpImage (data : str) (mime_type : option str)
| McpUnknown.
Context (mcp_content : Value → option McpContent).
(** The [Debug] text of a string. *)
Context (debug_text : str → str).

Record CallToolResult := {
  r_content : list Value; structured_content : option Value; is_error : option bool }.

Definition plain_output (text : str) (success : option bool) : FunctionCallOutputPayload :=
  {| content := text; content_items := None; success := success |}.

Definition mcp_image_url (data : str) (mime_type : option str) : str :=
  if starts_with data §"data:" then data
  else §"data:" ++ default §"application/octet-stream" mime_type ++ §";base64," ++ data.
Definition convert_mcp_item (v : Value) : FunctionCallOutputContentItem :=
  match mcp_content v with
  | Some (McpText text) => InputText text
  | Some (McpImage data mime_type) => InputImage (mcp_image_url data mime_type)
  | Some McpUnknown | None =>
      InputText (match to_text v with Ok t => t | Err _ => §"<content>" end)
  end.
Definition is_mcp_image (v : Value) : bool :=
  match mcp_content v with Some (McpImage _ _) => true | _ => false end.
Definition convert_mcp_content_to_items (contents : list Value)
    : option (list FunctionCallOutputContentItem) :=
  if existsb is_mcp_image contents then Some (map convert_mcp_item contents) else None.

(** [FunctionCallOutputPayload::from(&CallToolResult)]. *)
Definition payload_of_result (r : CallToolResult) : FunctionCallOutputPayload :=
  let is_success := negb (bool_decide (is_error r = Some true)) in
  match structured_content r with
  | Some v =>
      if negb (is_null v) then
        match to_text v with
        | Ok text => plain_output text (Some is_success)
        | Err err => plain_output err (Some false)
        end
      else
        match list_to_text (r_content r) with
        | Ok text => {| content := text; content_items := convert_mcp_content_to_items (r_content r);
                        success := Some is_success |}
        | Err err => plain_output err (Some false)
        end
  | None =>
      match list_to_text (r_content r) with
      | Ok text => {| content := text; content_items := convert_mcp_content_to_items (r_content r);
                      success := Some is_success |}
      | Err err => plain_output err (Some false)
      end
  end.

Inductive ResponseInputItem :=
| RIMessage (role : str) (content : list ContentItem)
| RIFunctionCallOutput (call_id : str) (output : FunctionCallOutputPayload)
| RIMcpToolCallOutput (call_id : str) (r : result str CallToolResult)
| RICustomToolCallOutput (call_id output : str).

(** [impl From<ResponseInputItem> for ResponseItem]. *)
Definition to_response_item (item : ResponseInputItem) : ResponseItem :=
  match item with
  | RIMessage role content => Message None role content None None
  | RIFunctionCallOutput call_id output => FunctionCallOutput call_id output
  | RIMcpToolCallOutput call_id (Ok r) => FunctionCallOutput call_id (payload_of_result r)
  | RIMcpToolCallOutput call_id (Err e) =>
      FunctionCallOutput call_id (plain_output (§"err: " ++ debug_text e) (Some false))
  | RICustomToolCallOutput call_id output => CustomToolCallOutput call_id output
  end.

(** [response_input_to_response_item]. *)
Definition response_input_to_response_item (input : ResponseInputItem) : option ResponseItem :=
  match input with
  | RIFunctionCallOutput call_id output => Some (FunctionCallOutput call_id output)
  | RICustomToolCallOutput call_id output => Some (CustomToolCallOutput call_id output)
  | RIMcpToolCallOutput call_id (Ok r) => Some (FunctionCallOutput call_id (payload_of_result r))
  | RIMcpToolCallOutput call_id (Err err) =>
      Some (FunctionCallOutput call_id (plain_output err (Some false)))
  | RIMessage _ _ => None
  end.

Inductive ToolOutput :=
| OFunction (content : str) (content_items : option (list FunctionCallOutputContentItem))
    (success : option bool)
| OMcp (r : result str CallToolResult).
Definition tool_ok (content : str) : ToolOutput := OFunction content None (Some true).
Definition tool_fail (content : str) : ToolOutput := OFunction content None (Some false).
Definition success_for_logging (o : ToolOutput) : bool :=
  match o with OFunction _ _ s => default true s | OMcp r => is_ok r end.

Definition is_custom (p : ToolPayload) : bool := match p with PCustom _ => true | _ => false end.
Definition into_response (o : ToolOutput) (call_id : str) (p : ToolPayload) : ResponseInputItem :=
  match o with
  | OFunction content items success =>
      if is_custom p then RICustomToolCallOutput call_id content
      else RIFunctionCallOutput call_id
             {| content := content; content_items := items; success := success |}
  | OMcp r => RIMcpToolCallOutput call_id r
  end.

(** ** The registry *)
Inductive ToolKind := KindFunction | KindMcp.
(** [ToolHandler::matches_kind] where a handler does not override it. *)
Definition default_matches_kind (kind : ToolKind) (p : ToolPayload) : bool :=
  match kind, p with
  | KindFunction, PFunction _ | KindMcp, PMcp _ _ _ => true
  | _, _ => false
  end.
Record ToolHandler := {
  matches_kind : ToolPayload → bool;
  is_mutating : ToolCall → bool;
  handle : ToolCall → result FunctionCallError ToolOutput;
}.
Definition ToolRegistry := gmap str ToolHandler.

Definition unsupported_tool_call_message (p : ToolPayload) (tool_name : str) : str :=
  if is_custom p then §"unsupported custom tool call: " ++ tool_name
  else §"unsupported call: " ++ tool_name.

(** The gate that a mutating tool waits for and the telemetry are left out. *)
Definition dispatch (registry : ToolRegistry) (call : ToolCall)
    : result FunctionCallError ResponseInputItem :=
  match registry !! tool_name call with
  | None => Err (RespondToModel (unsupported_tool_call_message (payload call) (tool_name call)))
  | Some handler =>
      if negb (matches_kind handler (payload call)) then
        Err (FatalCall (§"tool " ++ tool_name call ++ §" invoked with incompatible payload"))
      else
        output ← handle handler call;
        Ok (into_response output (call_id call) (payload call))
  end.

Definition failure_response (call_id : str) (payload_outputs_custom : bool) (err : FunctionCallError)
    : ResponseInputItem :=
  if payload_outputs_custom then RICustomToolCallOutput call_id (call_error_text err)
  else RIFunctionCallOutput call_id (plain_output (call_error_text err) (Some false)).

Definition dispatch_tool_call (registry : ToolRegistry) (call : ToolCall)
    : result FunctionCallError ResponseInputItem :=
  match dispatch registry call with
  | Ok response => Ok response
  | Err (FatalCall message) => Err (FatalCall message)
  | Err err => Ok (failure_response (call_id call) (is_custom (payload call)) err)
  end.

(** ** Running a call *)
Definition SHELL_TOOLS : list str :=
  [§"shell"; §"container.exec"; §"local_shell"; §"shell_command"; §"unified_exec"].
(** [secs] is the elapsed time with one decimal. *)
Definition abort_message (call : ToolCall) (secs : str) : str :=
  if one_of (tool_name call) SHELL_TOOLS then
    §"Wall time: " ++ secs ++ §" seconds" ++ [LF] ++ §"aborted by user"
  else §"aborted by user after " ++ secs ++ §"s".
Definition aborted_response (call : ToolCall) (secs : str) : ResponseInputItem :=
  match payload call with
  | PCustom _ => RICustomToolCallOutput (call_id call) (abort_message call secs)
  | PMcp _ _ _ => RIMcpToolCallOutput (call_id call) (Err (abort_message call secs))
  | _ => RIFunctionCallOutput (call_id call) (plain_output (abort_message call secs) None)
  end.

(** How the spawned task ends: cancelled after a time, dispatched, or lost. *)
Inductive TaskEnd :=
| Cancelled (secs : str)
| Dispatched
| JoinFailed (error : str).

(** The future of [handle_tool_call]; an error is the message of a fatal error. *)
Definition handle_tool_call (registry : ToolRegistry) (call : ToolCall) (e : TaskEnd)
    : result str ResponseInputItem :=
  match e with
  | Cancelled secs => Ok (aborted_response call secs)
  | JoinFailed error => Err (§"tool task failed to receive: " ++ error)
  | Dispatched =>
      match dispatch_tool_call registry call with
      | Ok response => Ok response
      | Err (FatalCall message) => Err message
      | Err other => Err (call_error_text other)
      end
  end.
End Outputs.
Arguments CallToolResult : clear implicits.
Arguments ResponseInputItem : clear implicits.
Arguments ToolOutput : clear implicits.
Arguments ToolHandler : clear implicits.
Arguments ToolRegistry : clear implicits.

(** ** The tools a turn may use *)
Record ToolAccessPolicy := { allowed : list str; denied : list str }.
Definition is_tool_allowed (policy : ToolAccessPolicy) (tool_name : str) : bool :=
  if existsb (λ d, bool_decide (d = tool_name)) (denied policy) then false
  else if bool_decide (allowed policy = []) then true
  else existsb (λ a, bool_decide (a = tool_name)) (allowed policy).

(** A tool specification: its name and whether calls may run in parallel. *)
Record ConfiguredToolSpec := { spec_name : str; supports_parallel_tool_calls : bool }.
Record ToolRouter (Value : Type) := {
  registry : ToolRegistry Value; specs : list ConfiguredToolSpec }.
Arguments registry {_} _.
Arguments specs {_} _.
Definition apply_tool_access_policy {Value} (router : ToolRouter Value) (policy : ToolAccessPolicy)
    : ToolRouter Value :=
  {| registry := registry router;
     specs := filter (λ s, (if bool_decide (SLASH ∈ spec_name s) then true
                            else is_tool_allowed policy (spec_name s)) = true) (specs router) |}.
Definition tool_supports_parallel {Value} (router : ToolRouter Value) (tool_name : str) : bool :=
  existsb (λ s, bool_decide (spec_name s = tool_name))
    (filter (λ s, supports_parallel_tool_calls s = true) (specs router)).

(** * Correctness *)

(** ** Outputs answer their calls *)
Section OutputSpec.
Context {Value : Type} (parse_mcp_tool_name : str → option (str * str))
        (to_text : Value → result str str) (list_to_text : list Value → result str str)
        (is_null : Value → bool) (mcp_content : Value → option McpContent) (debug_text : str → str).

(** The family of a payload: where its output is looked for. *)
Definition family (p : ToolPayload) : Family := if is_custom p then Custom else Fn.
Definition response_key (i : ResponseInputItem Value) : option (Family * str) :=
  out_key (to_response_item to_text list_to_text is_null mcp_content debug_text i).

(** The handlers that answer with the result of an MCP server take no custom payload. *)
Definition mcp_handlers (reg : ToolRegistry Value) : Prop :=
  ∀ name h call r, reg !! name = Some h → matches_kind h (payload call) = true →
    handle h call = Ok (OMcp r) → is_custom (payload call) = false.

Lemma mcp_response_key call_id (r : result str (CallToolResult Value)) :
  response_key (RIMcpToolCallOutput call_id r) = Some (Fn, call_id).
Proof. by destruct r. Qed.

Lemma dispatch_key (reg : ToolRegistry Value) call response :
  mcp_handlers reg → dispatch reg call = Ok response →
  response_key response = Some (family (payload call), call_id call).
Proof.
  intros Hreg. unfold dispatch. destruct (reg !! tool_name call) as [h|] eqn:Eh; [|done].
  destruct (matches_kind h (payload call)) eqn:Em; [|done]. cbn [negb].
  destruct (handle h call) as [[c ci s|r]|e] eqn:E; [| |done]; cbn; intros [= <-].
  - unfold family, response_key. by destruct (is_custom (payload call)).
  - rewrite mcp_response_key. unfold family. by rewrite (Hreg _ _ _ _ Eh Em E).
Qed.
Lemma failure_key call e :
  response_key (failure_response (Value:=Value) (call_id call) (is_custom (payload call)) e)
  = Some (family (payload call), call_id call).
Proof. unfold failure_response, family, response_key. by destruct (is_custom (payload call)). Qed.
Lemma aborted_key call secs :
  response_key (aborted_response (Value:=Value) call secs) = Some (family (payload call), call_id call).
Proof. unfold aborted_response, family, response_key. by destruct (payload call). Qed.

Lemma dispatch_tool_call_cases (reg : ToolRegistry Value) call :
  (∃ m, dispatch_tool_call reg call = Err (FatalCall m)) ∨
  (∃ response, dispatch_tool_call reg call = Ok response ∧
     (dispatch reg call = Ok response ∨
      ∃ e, response = failure_response (call_id call) (is_custom (payload call)) e)).
Proof. unfold dispatch_tool_call. destruct (dispatch reg call) as [r|[m| |m]]; eauto 6. Qed.

Lemma handled_key (reg : ToolRegistry Value) call e response :
  mcp_handlers reg → handle_tool_call reg call e = Ok response →
  response_key response = Some (family (payload call), call_id call).
Proof.
  intros Hreg Hh.
  destruct e as [secs| |err]; cbn in Hh; [injection Hh as <-; apply aborted_key| |done].
  destruct (dispatch_tool_call_cases reg call) as [[m E]|(r & E & H)]; rewrite E in Hh; [done|].
  injection Hh as <-. destruct H as [H|[err ->]]; [by eapply dispatch_key|apply failure_key].
Qed.

(** What [build_tool_call] makes of an item carries the item's key. *)
Lemma build_tool_call_key item call k :
  build_tool_call parse_mcp_tool_name item = Ok (Some call) → call_key item = Some k →
  k = (family (payload call), call_id call).
Proof.
  destruct item as [| |id cid st act|? name args cid| |? ? cid name input| | | | |]; cbn; try done.
  - destruct act as [exec]. destruct cid as [c|]; [|by destruct id]. by intros [= <-] [= <-].
  - destruct (parse_mcp_tool_name name) as [[server tool]|]; by intros [= <-] [= <-].
  - by intros [= <-] [= <-].
Qed.

(** However a tool call ends (answered, refused by its handler, sent to a tool
    that does not exist, or cancelled), the output that goes into the history is
    the one that the pairing of calls and outputs looks for: same kind and same
    call id as the call; only a fatal error leaves a call without output. *)
Theorem output_answers_call (reg : ToolRegistry Value) item call e response :
  mcp_handlers reg →
  build_tool_call parse_mcp_tool_name item = Ok (Some call) → is_Some (call_key item) →
  handle_tool_call reg call e = Ok response →
  out_key (to_response_item to_text list_to_text is_null mcp_content debug_text response)
  = call_key item.
Proof.
  intros Hreg Hb [k Hk] Hh. rewrite Hk, (build_tool_call_key _ _ _ Hb Hk). by eapply handled_key.
Qed.
End OutputSpec.

(** A registry with one tool that echoes and one of an MCP server that fails. *)
Definition demo_handler (o : ToolOutput str) (kind : ToolKind) : ToolHandler str :=
  {| matches_kind := default_matches_kind kind; is_mutating := λ _, false; handle := λ _, Ok o |}.
Definition demo_registry : ToolRegistry str :=
  <[§"echo" := demo_handler (tool_ok §"hi") KindFunction]>
  {[ §"srv/tool" := demo_handler (OMcp (Err §"down")) KindMcp ]}.
Definition demo_mcp_name (name : str) : option (str * str) := split_once SLASH name.

Lemma demo_mcp_handlers : mcp_handlers demo_registry.
Proof.
  intros name h call r Hl Hm Ho. unfold demo_registry, ToolRegistry in Hl.
  apply lookup_insert_Some in Hl as [[_ <-]|[_ [_ <-]%lookup_singleton_Some]]; [done|].
  cbn in Hm. by destruct (payload call).
Qed.

Lemma output_answers_call_witness :
  let item := FunctionCall None §"srv/tool" §"{}" §"c1" in
  ∃ call response,
    build_tool_call demo_mcp_name item = Ok (Some call) ∧
    handle_tool_call demo_registry call Dispatched = Ok response ∧
    out_key (to_response_item Ok (λ _, Ok []) (λ _, false) (λ _, None) id response) = Some (Fn, §"c1").
Proof.
  eexists _, _. split; [by vm_compute|]. split; [by vm_compute|].
  apply (output_answers_call demo_mcp_name Ok (λ _, Ok []) (λ _, false) (λ _, None) id demo_registry
           (FunctionCall None §"srv/tool" §"{}" §"c1")
           {| tool_name := §"srv/tool"; call_id := §"c1"; payload := PMcp §"srv" §"tool" §"{}" |}
           Dispatched).
  - exact demo_mcp_handlers.
  - by vm_compute.
  - by eexists.
  - by vm_compute.
Defined.

(** A local shell call that has an [id] and no [call_id] runs under its [id]; the
    pairing only knows call ids, so that a release build drops the output from the
    prompt and a debug build panics. *)
Example shell_output_by_id_is_dropped :
  let item := LocalShellCall (Some §"id1") None Completed
                (Exec {| ls_command := [§"ls"]; ls_timeout_ms := None; ls_working_directory := None;
                         ls_env := None; ls_user := None |}) in
  let output := FunctionCallOutput §"id1" (plain_output §"a.txt" (Some true)) in
  call_id <$> match build_tool_call demo_mcp_name item with Ok c => c | Err _ => None end
  = Some §"id1" ∧
  normalize_history false [item; output] = Some [item] ∧
  normalize_history true [item; output] = None.
Proof. by vm_compute. Qed.

(** The message about a shell call without any id is an output that answers no
    call: the model never sees it. *)
Example guardrail_message_is_dropped :
  let item := LocalShellCall None None Completed
                (Exec {| ls_command := [§"ls"]; ls_timeout_ms := None; ls_working_directory := None;
                         ls_env := None; ls_user := None |}) in
  let output := FunctionCallOutput [] (plain_output (call_error_text MissingLocalShellCallId) None) in
  build_tool_call demo_mcp_name item = Err MissingLocalShellCallId ∧
  normalize_history false [item; output] = Some [item] ∧
  normalize_history true [item; output] = None.
Proof. by vm_compute. Qed.

(** ** Access policies *)
(** After the access policy is applied the model is offered exactly the tools
    that are MCP tools, by their slash, or neither denied nor left out of a list
    of allowed ones; the order of the tools is kept. *)
Theorem access_policy_spec {Value} (router : ToolRouter Value) policy :
  specs (apply_tool_access_policy router policy) `sublist_of` specs router ∧
  ∀ spec, spec ∈ specs (apply_tool_access_policy router policy) ↔
    spec ∈ specs router ∧
    (SLASH ∈ spec_name spec ∨
     spec_name spec ∉ denied policy ∧ (allowed policy = [] ∨ spec_name spec ∈ allowed policy)).
Proof.
  split; [apply sublist_filter|]. intros spec. cbn [apply_tool_access_policy specs].
  rewrite list_elem_of_filter. unfold is_tool_allowed.
  assert (∀ l, existsb (λ d, bool_decide (d = spec_name spec)) l = bool_decide (spec_name spec ∈ l)) as He.
  { intros l. apply eq_true_iff_eq. rewrite existsb_exists, bool_decide_eq_true.
    setoid_rewrite bool_decide_eq_true. rewrite list_elem_of_In. naive_solver. }
  rewrite !He. repeat case_bool_decide; naive_solver.
Qed.

(** The policy hides a tool from the model and leaves it in the registry: a call
    that names it is dispatched all the same. *)
Example denied_tool_still_runs :
  let router := apply_tool_access_policy
    {| registry := demo_registry; specs := [{| spec_name := §"echo"; supports_parallel_tool_calls := true |}] |}
    {| allowed := []; denied := [§"echo"] |} in
  specs router = [] ∧
  dispatch_tool_call (registry router)
    {| tool_name := §"echo"; call_id := §"c1"; payload := PFunction §"{}" |}
  = Ok (RIFunctionCallOutput §"c1" (plain_output §"hi" (Some true))).
Proof. by vm_compute. Qed.
