(* ===== verification/PlanMode.v ===== *)
(** * Streaming a response in plan mode
    ([core/src/savfox/tool_orchestrator.rs]: [PlanModeStreamState] and the functions
    on it; [strip] and [extract] are those of [proposed_plan_parser.rs]).

    The text of an assistant message is split while it streams: plain text becomes
    deltas of the message, the lines of [<proposed_plan>] blocks become deltas of a
    plan item.  A function here returns the state after it and the events it sends,
    in order. *)
From stdpp Require Import gmap.
From S2P Require Import Prelude RustStr TaggedLines Protocol EventMapping Session.

(** ** [ProposedPlanParser] *)
Definition ProposedPlanParser : Type := TaggedLineParser PlanTag.
Definition plan_parser_new : ProposedPlanParser := TaggedLines.new PLAN_SPECS.
Definition plan_parse (p : ProposedPlanParser) (delta : str)
    : ProposedPlanParser * list ProposedPlanSegment :=
  let '(p, segments) := TaggedLines.parse p delta in (p, map_plan_segment <$> segments).
Definition plan_finish (p : ProposedPlanParser) : ProposedPlanParser * list ProposedPlanSegment :=
  let '(p, segments) := TaggedLines.finish p in (p, map_plan_segment <$> segments).

(** ** State *)
Record ProposedPlanItemState := { plan_item_id : str; started : bool; completed : bool }.
Record PlanModeStreamState := {
  plan_parsers : gmap str ProposedPlanParser;
  pending_agent_message_items : gmap str TurnItem;
  started_agent_message_items : gset str;
  leading_whitespace_by_item : gmap str str;
  plan_item_state : ProposedPlanItemState;
}.

Definition plan_item_new (turn_id : str) : ProposedPlanItemState :=
  {| plan_item_id := turn_id ++ §"-plan"; started := false; completed := false |}.
Definition plan_state_new (turn_id : str) : PlanModeStreamState :=
  {| plan_parsers := ∅; pending_agent_message_items := ∅; started_agent_message_items := ∅;
     leading_whitespace_by_item := ∅; plan_item_state := plan_item_new turn_id |}.

Definition set_parsers (st : PlanModeStreamState) ps : PlanModeStreamState :=
  {| plan_parsers := ps; pending_agent_message_items := pending_agent_message_items st;
     started_agent_message_items := started_agent_message_items st;
     leading_whitespace_by_item := leading_whitespace_by_item st;
     plan_item_state := plan_item_state st |}.
Definition set_pending (st : PlanModeStreamState) ps : PlanModeStreamState :=
  {| plan_parsers := plan_parsers st; pending_agent_message_items := ps;
     started_agent_message_items := started_agent_message_items st;
     leading_whitespace_by_item := leading_whitespace_by_item st;
     plan_item_state := plan_item_state st |}.
Definition set_started (st : PlanModeStreamState) ids : PlanModeStreamState :=
  {| plan_parsers := plan_parsers st; pending_agent_message_items := pending_agent_message_items st;
     started_agent_message_items := ids;
     leading_whitespace_by_item := leading_whitespace_by_item st;
     plan_item_state := plan_item_state st |}.
Definition set_leading (st : PlanModeStreamState) ws : PlanModeStreamState :=
  {| plan_parsers := plan_parsers st; pending_agent_message_items := pending_agent_message_items st;
     started_agent_message_items := started_agent_message_items st;
     leading_whitespace_by_item := ws; plan_item_state := plan_item_state st |}.
Definition set_plan_item (st : PlanModeStreamState) p : PlanModeStreamState :=
  {| plan_parsers := plan_parsers st; pending_agent_message_items := pending_agent_message_items st;
     started_agent_message_items := started_agent_message_items st;
     leading_whitespace_by_item := leading_whitespace_by_item st; plan_item_state := p |}.

(** ** The plan item *)
Definition plan_start (p : ProposedPlanItemState) : ProposedPlanItemState * list EventMsg :=
  if started p || completed p then (p, [])
  else ({| plan_item_id := plan_item_id p; started := true; completed := completed p |},
        [EvItemStarted (TPlan (plan_item_id p) [])]).
Definition plan_push_delta (p : ProposedPlanItemState) (delta : str) : list EventMsg :=
  if completed p then [] else if bool_decide (delta = []) then []
  else [EvPlanDelta (plan_item_id p) delta].
Definition plan_complete_with_text (p : ProposedPlanItemState) (text : str)
    : ProposedPlanItemState * list EventMsg :=
  if completed p || negb (started p) then (p, [])
  else ({| plan_item_id := plan_item_id p; started := started p; completed := true |},
        [EvItemCompleted (TPlan (plan_item_id p) text)]).

(** ** Agent messages *)
Definition maybe_emit_pending_agent_message_start (st : PlanModeStreamState) (item_id : str)
    : PlanModeStreamState * list EventMsg :=
  if bool_decide (item_id ∈ started_agent_message_items st) then (st, [])
  else match pending_agent_message_items st !! item_id with
       | None => (st, [])
       | Some item =>
           let st := set_pending st (delete item_id (pending_agent_message_items st)) in
           (set_started st ({[ item_id ]} ∪ started_agent_message_items st), [EvItemStarted item])
       end.

Definition agent_message_text (item : AgentMessageItem) : str :=
  concat (map (λ '(AText t), t) (am_content item)).

(** [st.leading_whitespace_by_item.remove(item_id)] in front of [delta]. *)
Definition take_leading (st : PlanModeStreamState) (item_id delta : str) : PlanModeStreamState * str :=
  match leading_whitespace_by_item st !! item_id with
  | Some prefix => (set_leading st (delete item_id (leading_whitespace_by_item st)), prefix ++ delta)
  | None => (st, delta)
  end.

Definition handle_plan_segment (st : PlanModeStreamState) (item_id : str)
    (segment : ProposedPlanSegment) : PlanModeStreamState * list EventMsg :=
  match segment with
  | PlanNormal delta =>
      if bool_decide (delta = []) then (st, [])
      else
        let has_non_whitespace := existsb (λ ch, negb (is_whitespace ch)) delta in
        let is_started := bool_decide (item_id ∈ started_agent_message_items st) in
        if negb has_non_whitespace && negb is_started then
          let entry := default [] (leading_whitespace_by_item st !! item_id) in
          (set_leading st (<[item_id := entry ++ delta]> (leading_whitespace_by_item st)), [])
        else
          let '(st, delta) := if is_started then (st, delta) else take_leading st item_id delta in
          let '(st, events) := maybe_emit_pending_agent_message_start st item_id in
          (st, events ++ [EvAgentMessageContentDelta item_id delta])
  | ProposedPlanStart =>
      if completed (plan_item_state st) then (st, [])
      else let '(p, events) := plan_start (plan_item_state st) in (set_plan_item st p, events)
  | ProposedPlanDelta delta =>
      if completed (plan_item_state st) then (st, [])
      else
        let '(p, events) := if started (plan_item_state st) then (plan_item_state st, [])
                            else plan_start (plan_item_state st) in
        (set_plan_item st p, events ++ plan_push_delta p delta)
  | ProposedPlanEnd => (st, [])
  end.
Fixpoint handle_plan_segments (st : PlanModeStreamState) (item_id : str)
    (segments : list ProposedPlanSegment) : PlanModeStreamState * list EventMsg :=
  match segments with
  | [] => (st, [])
  | segment :: rest =>
      let '(st, events) := handle_plan_segment st item_id segment in
      let '(st, events') := handle_plan_segments st item_id rest in
      (st, events ++ events')
  end.

(** A delta of the text of the active message. *)
Definition plan_text_delta (st : PlanModeStreamState) (item_id delta : str)
    : PlanModeStreamState * list EventMsg :=
  let parser := default plan_parser_new (plan_parsers st !! item_id) in
  let '(parser, segments) := plan_parse parser delta in
  handle_plan_segments (set_parsers st (<[item_id := parser]> (plan_parsers st))) item_id segments.

Definition flush_proposed_plan_segments_for_item (st : PlanModeStreamState) (item_id : str)
    : PlanModeStreamState * list EventMsg :=
  match plan_parsers st !! item_id with
  | None => (st, [])
  | Some parser =>
      let st := set_parsers st (delete item_id (plan_parsers st)) in
      handle_plan_segments st item_id (plan_finish parser).2
  end.

Section Drain.
(** The order in which the map of parsers is drained. *)
Context (drain : gmap str ProposedPlanParser → list (str * ProposedPlanParser)).

Fixpoint flush_parsers (st : PlanModeStreamState) (parsers : list (str * ProposedPlanParser))
    : PlanModeStreamState * list EventMsg :=
  match parsers with
  | [] => (st, [])
  | (item_id, parser) :: rest =>
      let '(st, events) := handle_plan_segments st item_id (plan_finish parser).2 in
      let '(st, events') := flush_parsers st rest in
      (st, events ++ events')
  end.
Definition flush_proposed_plan_segments_all (st : PlanModeStreamState)
    : PlanModeStreamState * list EventMsg :=
  flush_parsers (set_parsers st ∅) (drain (plan_parsers st)).
End Drain.

(** ** The end of a message *)
Definition maybe_complete_plan_item_from_message (st : PlanModeStreamState) (item : ResponseItem)
    : PlanModeStreamState * list EventMsg :=
  match item with
  | Message _ role content _ _ =>
      if bool_decide (role = §"assistant") then
        let text := concat (omap (λ c, match c with COutputText t => Some t | _ => None end) content) in
        match extract_proposed_plan_text text with
        | Some plan_text =>
            let '(p, events) := if started (plan_item_state st) then (plan_item_state st, [])
                                else plan_start (plan_item_state st) in
            let '(p, events') := plan_complete_with_text p plan_text in
            (set_plan_item st p, events ++ events')
        | None => (st, [])
        end
      else (st, [])
  | _ => (st, [])
  end.

Definition emit_agent_message_in_plan_mode (st : PlanModeStreamState) (agent_message : AgentMessageItem)
    : PlanModeStreamState * list EventMsg :=
  let id := am_id agent_message in
  if bool_decide (trim (agent_message_text agent_message) = []) then
    let st := set_pending st (delete id (pending_agent_message_items st)) in
    (set_started st (started_agent_message_items st ∖ {[ id ]}), [])
  else
    let '(st, events) := maybe_emit_pending_agent_message_start st id in
    let '(st, events') :=
      if bool_decide (id ∈ started_agent_message_items st) then (st, [])
      else
        let start_item := default (TAgentMessage {| am_id := id; am_content := [] |})
                            (pending_agent_message_items st !! id) in
        let st := set_pending st (delete id (pending_agent_message_items st)) in
        (set_started st ({[ id ]} ∪ started_agent_message_items st), [EvItemStarted start_item]) in
    (set_started st (started_agent_message_items st ∖ {[ id ]}),
     events ++ events' ++ [EvItemCompleted (TAgentMessage agent_message)]).

Definition emit_turn_item_in_plan_mode (st : PlanModeStreamState) (turn_item : TurnItem)
    (previously_active : bool) : PlanModeStreamState * list EventMsg :=
  match turn_item with
  | TAgentMessage agent_message => emit_agent_message_in_plan_mode st agent_message
  | _ => (st, (if previously_active then [] else [EvItemStarted turn_item])
              ++ [EvItemCompleted turn_item])
  end.

(** ** What the model streams in plan mode *)
Inductive PlanInput :=
| PAdded (item : AgentMessageItem)
| PDelta (item_id delta : str)
| PFlush (item_id : str)
| PPlanDone (item : ResponseItem)
| PMessageDone (item : AgentMessageItem)
| PEnd.
Definition plan_step (drain : gmap str ProposedPlanParser → list (str * ProposedPlanParser))
    (st : PlanModeStreamState) (i : PlanInput) : PlanModeStreamState * list EventMsg :=
  match i with
  | PAdded a => (set_pending st (<[am_id a := TAgentMessage a]> (pending_agent_message_items st)), [])
  | PDelta item_id delta => plan_text_delta st item_id delta
  | PFlush item_id => flush_proposed_plan_segments_for_item st item_id
  | PPlanDone item => maybe_complete_plan_item_from_message st item
  | PMessageDone a => emit_agent_message_in_plan_mode st a
  | PEnd => flush_proposed_plan_segments_all drain st
  end.
Fixpoint plan_run drain (st : PlanModeStreamState) (l : list PlanInput)
    : PlanModeStreamState * list EventMsg :=
  match l with
  | [] => (st, [])
  | i :: rest =>
      let '(st, events) := plan_step drain st i in
      let '(st, events') := plan_run drain st rest in
      (st, events ++ events')
  end.

(** * Correctness *)

(** ** The life of the plan item *)
Definition is_plan_event (e : EventMsg) : bool :=
  match e with
  | EvItemStarted (TPlan _ _) | EvPlanDelta _ _ | EvItemCompleted (TPlan _ _) => true
  | _ => false
  end.
Definition plan_events (l : list EventMsg) : list EventMsg := List.filter is_plan_event l.
Lemma plan_events_app l k : plan_events (l ++ k) = plan_events l ++ plan_events k.
Proof. apply List.filter_app. Qed.

(** What the client may have seen of the plan item in a state of it. *)
Inductive plan_shown (p : ProposedPlanItemState) : list EventMsg → Prop :=
| shown_nothing : started p = false → completed p = false → plan_shown p []
| shown_deltas ds : started p = true → completed p = false →
    plan_shown p (EvItemStarted (TPlan (plan_item_id p) []) :: map (EvPlanDelta (plan_item_id p)) ds)
| shown_all ds text : started p = true → completed p = true →
    plan_shown p (EvItemStarted (TPlan (plan_item_id p) []) :: map (EvPlanDelta (plan_item_id p)) ds
                  ++ [EvItemCompleted (TPlan (plan_item_id p) text)]).

(** A step from [st] to [st'] that sends [events] keeps the plan item and what was
    shown of it in accordance; only agent messages are pending. *)
Definition agents_pending (st : PlanModeStreamState) : Prop :=
  map_Forall (λ _ i, ∃ a, i = TAgentMessage a) (pending_agent_message_items st).
Definition keeps_plan (st st' : PlanModeStreamState) (events : list EventMsg) : Prop :=
  plan_item_id (plan_item_state st') = plan_item_id (plan_item_state st) ∧
  (agents_pending st → agents_pending st' ∧
   ∀ shown, plan_shown (plan_item_state st) shown →
            plan_shown (plan_item_state st') (shown ++ plan_events events)).

Lemma keeps_plan_trans st1 st2 st3 l1 l2 :
  keeps_plan st1 st2 l1 → keeps_plan st2 st3 l2 → keeps_plan st1 st3 (l1 ++ l2).
Proof.
  intros [I1 H1] [I2 H2]. split; [congruence|]. intros Ha. destruct (H1 Ha) as [Ha2 H1'].
  destruct (H2 Ha2) as [Ha3 H2']. split; [done|]. intros shown Hs.
  rewrite plan_events_app, (assoc_L (++)). by apply H2', H1'.
Qed.
(** Steps that leave the plan item alone. *)
Lemma keeps_plan_same st st' events :
  plan_item_state st' = plan_item_state st → (agents_pending st → agents_pending st' ∧ plan_events events = []) →
  keeps_plan st st' events.
Proof.
  intros E H. split; [by rewrite E|]. intros Ha. destruct (H Ha) as [Ha' Hn]. split; [done|].
  intros shown. by rewrite E, Hn, app_nil_r.
Qed.
Lemma keeps_plan_item st p events :
  plan_item_id p = plan_item_id (plan_item_state st) →
  (∀ shown, plan_shown (plan_item_state st) shown → plan_shown p (shown ++ plan_events events)) →
  keeps_plan st (set_plan_item st p) events.
Proof. intros E H. split; [done|]. intros Ha. by split. Qed.

Lemma plan_start_shown p shown :
  plan_shown p shown → completed p = false →
  plan_shown (plan_start p).1 (shown ++ plan_events (plan_start p).2) ∧
  started (plan_start p).1 = true ∧ completed (plan_start p).1 = false ∧
  plan_item_id (plan_start p).1 = plan_item_id p.
Proof.
  intros Hs Hc. unfold plan_start. rewrite Hc, orb_false_r. destruct (started p) eqn:E; cbn.
  - by rewrite app_nil_r.
  - split; [|done]. inversion Hs; try congruence. by apply (shown_deltas {| plan_item_id := plan_item_id p; started := true; completed := false |} []).
Qed.
Lemma plan_push_delta_shown p delta shown :
  plan_shown p shown → started p = true → completed p = false →
  plan_shown p (shown ++ plan_events (plan_push_delta p delta)).
Proof.
  intros Hs Hst Hc. unfold plan_push_delta. rewrite Hc. case_bool_decide; [by rewrite app_nil_r|].
  inversion Hs as [|ds|]; [congruence| |congruence]; subst. cbn. change [EvPlanDelta (plan_item_id p) delta] with (map (EvPlanDelta (plan_item_id p)) [delta]).
  rewrite <-?app_comm_cons, <-map_app. by apply shown_deltas.
Qed.
Lemma plan_complete_shown p text shown :
  plan_shown p shown → started p = true →
  plan_shown (plan_complete_with_text p text).1 (shown ++ plan_events (plan_complete_with_text p text).2) ∧
  plan_item_id (plan_complete_with_text p text).1 = plan_item_id p.
Proof.
  intros Hs Hst. unfold plan_complete_with_text. rewrite Hst, orb_false_r. destruct (completed p) eqn:E.
  - cbn. by rewrite app_nil_r.
  - split; [|done]. inversion Hs as [|ds|]; [congruence| |congruence]; subst. cbn.
    by apply (shown_all {| plan_item_id := plan_item_id p; started := true; completed := true |} ds text).
Qed.

Lemma maybe_emit_keeps st id : keeps_plan st (maybe_emit_pending_agent_message_start st id).1
                                 (maybe_emit_pending_agent_message_start st id).2.
Proof.
  unfold maybe_emit_pending_agent_message_start. case_bool_decide; [by apply keeps_plan_same|].
  destruct (pending_agent_message_items st !! id) as [item|] eqn:E; [|by apply keeps_plan_same].
  apply keeps_plan_same; [done|]. intros Ha. split; [by apply map_Forall_delete|].
  by destruct (Ha _ _ E) as [a ->].
Qed.
Lemma take_leading_keeps st id delta : keeps_plan st (take_leading st id delta).1 [].
Proof. unfold take_leading. by destruct (_ !! id); apply keeps_plan_same. Qed.

(** Starting the plan item when it has not started. *)
Definition plan_ensure_started (p : ProposedPlanItemState) : ProposedPlanItemState * list EventMsg :=
  if started p then (p, []) else plan_start p.
Lemma plan_ensure_started_shown p shown :
  plan_shown p shown → completed p = false →
  plan_shown (plan_ensure_started p).1 (shown ++ plan_events (plan_ensure_started p).2) ∧
  started (plan_ensure_started p).1 = true ∧ completed (plan_ensure_started p).1 = false ∧
  plan_item_id (plan_ensure_started p).1 = plan_item_id p.
Proof.
  intros Hs Hc. unfold plan_ensure_started. destruct (started p) eqn:E.
  - cbn. by rewrite app_nil_r.
  - by apply plan_start_shown.
Qed.
Lemma plan_start_id p : plan_item_id (plan_start p).1 = plan_item_id p.
Proof. unfold plan_start. by destruct (_ || _). Qed.
Lemma plan_ensure_id p : plan_item_id (plan_ensure_started p).1 = plan_item_id p.
Proof. unfold plan_ensure_started. destruct (started p); [done|apply plan_start_id]. Qed.

Lemma segment_keeps st id seg :
  keeps_plan st (handle_plan_segment st id seg).1 (handle_plan_segment st id seg).2.
Proof.
  destruct seg as [delta| |delta|]; cbn [handle_plan_segment].
  - case_bool_decide; [by apply keeps_plan_same|].
    destruct (negb _ && _); [by apply keeps_plan_same|].
    destruct (if bool_decide (id ∈ started_agent_message_items st) then (st, delta)
              else take_leading st id delta) as [st1 d1] eqn:E1.
    assert (keeps_plan st st1 []) as H1.
    { case_bool_decide; [injection E1 as <- _; by apply keeps_plan_same|].
      pose proof (take_leading_keeps st id delta) as Hk. by rewrite E1 in Hk. }
    destruct (maybe_emit_pending_agent_message_start st1 id) as [st2 ev] eqn:E2.
    pose proof (maybe_emit_keeps st1 id) as H2. rewrite E2 in H2. cbn [fst snd] in *.
    apply (keeps_plan_trans _ st1 _ [] _ H1), (keeps_plan_trans _ st2 _ _ _ H2). by apply keeps_plan_same.
  - destruct (completed (plan_item_state st)) eqn:Ec; [by apply keeps_plan_same|].
    destruct (plan_start (plan_item_state st)) as [p ev] eqn:E. cbn [fst snd].
    pose proof (plan_start_id (plan_item_state st)) as Hi. rewrite E in Hi.
    apply keeps_plan_item; [done|]. intros shown Hs. apply plan_start_shown in Hs as [Hs _]; [|done].
    by rewrite E in Hs.
  - destruct (completed (plan_item_state st)) eqn:Ec; [by apply keeps_plan_same|].
    fold (plan_ensure_started (plan_item_state st)).
    destruct (plan_ensure_started (plan_item_state st)) as [p ev] eqn:E. cbn [fst snd].
    pose proof (plan_ensure_id (plan_item_state st)) as Hi. rewrite E in Hi.
    apply keeps_plan_item; [done|]. intros shown Hs.
    apply plan_ensure_started_shown in Hs as (Hs & Hst & Hc & _); [|done]. rewrite E in *. cbn [fst snd] in *.
    rewrite plan_events_app, (assoc_L (++)). by apply plan_push_delta_shown.
  - by apply keeps_plan_same.
Qed.
Lemma segments_keep st id segs :
  keeps_plan st (handle_plan_segments st id segs).1 (handle_plan_segments st id segs).2.
Proof.
  revert st. induction segs as [|seg segs IH]; intros st; [by apply keeps_plan_same|].
  cbn [handle_plan_segments]. destruct (handle_plan_segment st id seg) as [st1 ev1] eqn:E1.
  destruct (handle_plan_segments st1 id segs) as [st2 ev2] eqn:E2. cbn [fst snd].
  pose proof (segment_keeps st id seg) as H1. rewrite E1 in H1.
  pose proof (IH st1) as H2. rewrite E2 in H2. by eapply keeps_plan_trans.
Qed.
Lemma set_parsers_keeps st ps : keeps_plan st (set_parsers st ps) [].
Proof. by apply keeps_plan_same. Qed.
Lemma flush_parsers_keep st ps : keeps_plan st (flush_parsers st ps).1 (flush_parsers st ps).2.
Proof.
  revert st. induction ps as [|[id parser] ps IH]; intros st; [by apply keeps_plan_same|].
  cbn [flush_parsers]. destruct (handle_plan_segments st id _) as [st1 ev1] eqn:E1.
  destruct (flush_parsers st1 ps) as [st2 ev2] eqn:E2. cbn [fst snd].
  pose proof (segments_keep st id (plan_finish parser).2) as H1. rewrite E1 in H1.
  pose proof (IH st1) as H2. rewrite E2 in H2. by eapply keeps_plan_trans.
Qed.

Lemma complete_keeps st item :
  keeps_plan st (maybe_complete_plan_item_from_message st item).1
                (maybe_complete_plan_item_from_message st item).2.
Proof.
  destruct item as [? role content| | | | | | | | | |]; cbn [maybe_complete_plan_item_from_message];
    try by apply keeps_plan_same.
  case_bool_decide; [|by apply keeps_plan_same].
  destruct (extract_proposed_plan_text _) as [text|]; [|by apply keeps_plan_same].
  fold (plan_ensure_started (plan_item_state st)).
  destruct (plan_ensure_started (plan_item_state st)) as [p ev] eqn:E.
  destruct (plan_complete_with_text p text) as [p' ev'] eqn:E'. cbn [fst snd].
  pose proof (plan_ensure_id (plan_item_state st)) as Hi. rewrite E in Hi. cbn [fst] in Hi.
  assert (plan_item_id p' = plan_item_id p) as Hi'.
  { unfold plan_complete_with_text in E'. destruct (_ || _); by injection E' as <- _. }
  apply keeps_plan_item; [congruence|]. intros shown Hs. rewrite plan_events_app, (assoc_L (++)).
  destruct (completed (plan_item_state st)) eqn:Ec.
  - inversion Hs as [|ds Hst|ds t Hst]; [congruence..|]. unfold plan_ensure_started in E. rewrite Hst in E.
    injection E as <- <-. unfold plan_complete_with_text in E'. rewrite Ec in E'. injection E' as <- <-.
    cbn. rewrite !app_nil_r. by subst.
  - apply plan_ensure_started_shown in Hs as (Hs & Hst & _ & _); [|done]. rewrite E in *. cbn [fst snd] in *.
    pose proof (plan_complete_shown p text _ Hs Hst) as [Hs' _]. by rewrite E' in Hs'.
Qed.
Lemma emit_agent_keeps st a : keeps_plan st (emit_agent_message_in_plan_mode st a).1
                                            (emit_agent_message_in_plan_mode st a).2.
Proof.
  unfold emit_agent_message_in_plan_mode. case_bool_decide as Hb.
  { apply keeps_plan_same; [done|]. intros Ha. split; [by apply map_Forall_delete|done]. }
  destruct (maybe_emit_pending_agent_message_start st (am_id a)) as [st1 ev1] eqn:E1.
  pose proof (maybe_emit_keeps st (am_id a)) as H1. rewrite E1 in H1. cbn [fst snd] in H1.
  destruct (if bool_decide _ then _ else _) as [st2 ev2] eqn:E2. cbn [fst snd].
  apply (keeps_plan_trans _ st1 _ _ _ H1).
  assert (keeps_plan st1 st2 ev2) as H2.
  { case_bool_decide; injection E2 as <- <-; [by apply keeps_plan_same|]. apply keeps_plan_same; [done|].
    intros Ha. split; [by apply map_Forall_delete|]. cbn.
    destruct (pending_agent_message_items st1 !! am_id a) as [i|] eqn:E; [|done].
    by destruct (Ha _ _ E) as [a' ->]. }
  apply (keeps_plan_trans _ st2 _ _ _ H2). by apply keeps_plan_same.
Qed.

Lemma plan_step_keeps drain st i : keeps_plan st (plan_step drain st i).1 (plan_step drain st i).2.
Proof.
  destruct i as [a|id delta|id|item|a|]; cbn [plan_step].
  - apply keeps_plan_same; [done|]. intros Ha. split; [|done]. by apply map_Forall_insert_2; [eexists|].
  - unfold plan_text_delta. destruct (plan_parse _ delta) as [parser segs].
    eapply (keeps_plan_trans _ _ _ []); [apply set_parsers_keeps|]. apply segments_keep.
  - unfold flush_proposed_plan_segments_for_item. destruct (plan_parsers st !! id) as [parser|];
      [|by apply keeps_plan_same].
    eapply (keeps_plan_trans _ _ _ []); [apply set_parsers_keeps|]. apply segments_keep.
  - apply complete_keeps.
  - apply emit_agent_keeps.
  - eapply (keeps_plan_trans _ _ _ []); [apply set_parsers_keeps|]. apply flush_parsers_keep.
Qed.
Lemma plan_run_keeps drain st l : keeps_plan st (plan_run drain st l).1 (plan_run drain st l).2.
Proof.
  revert st. induction l as [|i l IH]; intros st; [by apply keeps_plan_same|]. cbn [plan_run].
  destruct (plan_step drain st i) as [st1 ev1] eqn:E1. destruct (plan_run drain st1 l) as [st2 ev2] eqn:E2.
  pose proof (plan_step_keeps drain st i) as H1. rewrite E1 in H1.
  pose proof (IH st1) as H2. rewrite E2 in H2. cbn [fst snd] in *. by eapply keeps_plan_trans.
Qed.

(** Whatever the model streams in plan mode, the client sees of the plan nothing,
    or one start followed by deltas, or these followed by one completion: the plan
    item is never started twice, never completed twice or unstarted, and no delta
    comes after its completion. *)
Theorem plan_item_lifecycle drain turn_id l :
  let '(st, events) := plan_run drain (plan_state_new turn_id) l in
  plan_item_id (plan_item_state st) = turn_id ++ §"-plan" ∧
  plan_shown (plan_item_state st) (plan_events events).
Proof.
  pose proof (plan_run_keeps drain (plan_state_new turn_id) l) as [Hi H].
  destruct (plan_run drain (plan_state_new turn_id) l) as [st events]. split; [done|].
  destruct H as [_ H]; [apply map_Forall_empty|]. apply (H []). by constructor.
Qed.

(** ** The text of a message *)
Definition is_message_event (id : str) (e : EventMsg) : bool :=
  match e with
  | EvItemStarted (TAgentMessage a) | EvItemCompleted (TAgentMessage a) => bool_decide (am_id a = id)
  | EvAgentMessageContentDelta i _ => bool_decide (i = id)
  | _ => false
  end.
Definition message_events (id : str) (l : list EventMsg) : list EventMsg :=
  List.filter (is_message_event id) l.
Lemma message_events_app id l k : message_events id (l ++ k) = message_events id l ++ message_events id k.
Proof. apply List.filter_app. Qed.

Definition blank (s : str) : bool := negb (existsb (λ ch, negb (is_whitespace ch)) s).
Lemma blank_app s t : blank (s ++ t) = blank s && blank t.
Proof. unfold blank. by rewrite existsb_app, negb_orb. Qed.
Lemma blank_Forall s : blank s = true ↔ Forall (λ c, is_whitespace c = true) s.
Proof.
  induction s as [|c s IH]; [done|]. rewrite Forall_cons, <-IH. unfold blank. cbn [existsb].
  rewrite negb_orb, negb_involutive, andb_true_iff. done.
Qed.
Lemma trim_nil s : trim s = [] ↔ blank s = true.
Proof.
  rewrite blank_Forall. unfold trim. destruct (trim_start_suffix s) as (w & E & Hw).
  destruct (trim_end_prefix (trim_start s)) as (w' & E' & Hw'). split.
  - intros H. rewrite H in E'. rewrite E, E'. by apply Forall_app.
  - intros HF. destruct (trim_end (trim_start s)) as [|c l] eqn:Ec; [done|].
    assert (is_whitespace c = true) as Hc.
    { rewrite E, E' in HF. by apply Forall_app in HF as [_ [HF _]%Forall_app%proj1%Forall_cons]. }
    assert (head (trim_start s) = Some c) as Hh by by rewrite E'.
    apply drop_while_head in Hh. congruence.
Qed.

Definition normal_text (segs : list ProposedPlanSegment) : str := foldl strip_step [] segs.
Lemma strip_step_acc segs out : foldl strip_step out segs = out ++ normal_text segs.
Proof.
  unfold normal_text. revert out. induction segs as [|seg segs IH]; intros out; [by rewrite app_nil_r|].
  cbn [foldl]. rewrite IH, (IH (strip_step [] seg)). destruct seg; cbn; by rewrite ?(assoc_L (++)).
Qed.
Lemma normal_text_cons seg segs : normal_text (seg :: segs) = strip_step [] seg ++ normal_text segs.
Proof. unfold normal_text at 1. cbn [foldl]. apply strip_step_acc. Qed.

(** The message [a] is waiting, with the white space [pre] held back. *)
Definition waiting (st : PlanModeStreamState) (a : AgentMessageItem) (pre : str) : Prop :=
  am_id a ∉ started_agent_message_items st ∧
  pending_agent_message_items st !! am_id a = Some (TAgentMessage a) ∧
  default [] (leading_whitespace_by_item st !! am_id a) = pre.
Definition running (st : PlanModeStreamState) (a : AgentMessageItem) : Prop :=
  am_id a ∈ started_agent_message_items st.

Lemma segment_running st a seg :
  running st a →
  let '(st', ev) := handle_plan_segment st (am_id a) seg in
  running st' a ∧
  ∃ ds, message_events (am_id a) ev = map (EvAgentMessageContentDelta (am_id a)) ds ∧
        concat ds = strip_step [] seg.
Proof.
  intros Hr. destruct seg as [delta| |delta|]; cbn [handle_plan_segment strip_step app].
  - case_bool_decide as Hd; [subst; split; [done|by exists []]|].
    rewrite (bool_decide_true _ Hr), andb_false_r. unfold maybe_emit_pending_agent_message_start.
    rewrite (bool_decide_true _ Hr). split; [done|]. exists [delta]. cbn.
    rewrite bool_decide_true by done. by rewrite app_nil_r.
  - destruct (completed _); [split; [done|by exists []]|]. unfold plan_start.
    destruct (_ || _); split; try done; by exists [].
  - destruct (completed _); [split; [done|by exists []]|]. unfold plan_start, plan_push_delta.
    destruct (started _); [|destruct (_ || _)]; cbn; (split; [done|]); exists [];
      repeat case_match; done.
  - split; [done|by exists []].
Qed.

Lemma segment_waiting st a pre seg :
  waiting st a pre →
  let '(st', ev) := handle_plan_segment st (am_id a) seg in
  if blank (strip_step [] seg)
  then waiting st' a (pre ++ strip_step [] seg) ∧ message_events (am_id a) ev = []
  else running st' a ∧
       message_events (am_id a) ev =
         [EvItemStarted (TAgentMessage a); EvAgentMessageContentDelta (am_id a) (pre ++ strip_step [] seg)].
Proof.
  intros (Hs & Hp & Hl). destruct seg as [delta| |delta|]; cbn [handle_plan_segment strip_step app].
  - case_bool_decide as Hd; [subst; by rewrite app_nil_r|].
    rewrite (bool_decide_false _ Hs). unfold blank. destruct (existsb _ delta) eqn:Eb; cbn [negb andb].
    + assert (take_leading st (am_id a) delta = (set_leading st (delete (am_id a) (leading_whitespace_by_item st)), pre ++ delta)
              ∨ take_leading st (am_id a) delta = (st, pre ++ delta)) as Ht.
      { unfold take_leading. destruct (leading_whitespace_by_item st !! am_id a) as [w|];
          cbn in Hl; subst; [by left|by right]. }
      destruct Ht as [-> | ->]; unfold maybe_emit_pending_agent_message_start;
        cbn [started_agent_message_items pending_agent_message_items set_leading];
        rewrite (bool_decide_false _ Hs), Hp; (split; [unfold running; cbn; set_solver|]);
        cbn; by rewrite !bool_decide_true by done.
    + split; [|done]. split_and!; [done..|]. cbn. rewrite lookup_insert_eq. cbn. by rewrite Hl.
  - destruct (completed _); [by rewrite app_nil_r|]. unfold plan_start.
    destruct (_ || _); cbn; by rewrite app_nil_r.
  - destruct (completed _); [by rewrite app_nil_r|]. unfold plan_start, plan_push_delta.
    destruct (started _); [|destruct (_ || _)]; cbn; rewrite app_nil_r; (split; [done|]);
      repeat case_match; done.
  - by rewrite app_nil_r.
Qed.

Lemma segments_running st a segs :
  running st a →
  let '(st', ev) := handle_plan_segments st (am_id a) segs in
  running st' a ∧
  ∃ ds, message_events (am_id a) ev = map (EvAgentMessageContentDelta (am_id a)) ds ∧
        concat ds = normal_text segs.
Proof.
  revert st. induction segs as [|seg segs IH]; intros st Hr; [split; [done|by exists []]|].
  cbn [handle_plan_segments]. pose proof (segment_running st a seg Hr) as H1.
  destruct (handle_plan_segment st (am_id a) seg) as [st1 ev1]. destruct H1 as (Hr1 & ds1 & E1 & C1).
  specialize (IH st1 Hr1). destruct (handle_plan_segments st1 (am_id a) segs) as [st2 ev2].
  destruct IH as (Hr2 & ds2 & E2 & C2). split; [done|]. exists (ds1 ++ ds2).
  by rewrite message_events_app, E1, E2, map_app, concat_app, C1, C2, normal_text_cons.
Qed.

(** What is shown of a message whose text is [text]. *)
Definition message_shown (a : AgentMessageItem) (text : str) (shown : list EventMsg) : Prop :=
  ∃ ds, shown = EvItemStarted (TAgentMessage a) :: map (EvAgentMessageContentDelta (am_id a)) ds ∧
        concat ds = text.

Lemma segments_waiting st a pre segs :
  waiting st a pre →
  let '(st', ev) := handle_plan_segments st (am_id a) segs in
  if blank (normal_text segs)
  then waiting st' a (pre ++ normal_text segs) ∧ message_events (am_id a) ev = []
  else running st' a ∧ message_shown a (pre ++ normal_text segs) (message_events (am_id a) ev).
Proof.
  revert st pre. induction segs as [|seg segs IH]; intros st pre Hw; [cbn; by rewrite app_nil_r|].
  cbn [handle_plan_segments]. pose proof (segment_waiting st a pre seg Hw) as H1.
  destruct (handle_plan_segment st (am_id a) seg) as [st1 ev1].
  rewrite normal_text_cons, blank_app, (assoc_L (++)).
  destruct (blank (strip_step [] seg)) eqn:Eb; cbn [andb].
  - destruct H1 as [Hw1 E1]. specialize (IH st1 _ Hw1).
    destruct (handle_plan_segments st1 (am_id a) segs) as [st2 ev2].
    rewrite message_events_app, E1. exact IH.
  - destruct H1 as [Hr1 E1]. pose proof (segments_running st1 a segs Hr1) as H2.
    destruct (handle_plan_segments st1 (am_id a) segs) as [st2 ev2]. destruct H2 as (Hr2 & ds & E2 & C2).
    split; [done|]. rewrite message_events_app, E1, E2.
    exists ((pre ++ strip_step [] seg) :: ds). split; [done|]. cbn. by rewrite C2.
Qed.

(** The parsers do not matter to the handling of segments. *)
Lemma segment_set_parsers st ps id seg :
  handle_plan_segment (set_parsers st ps) id seg
  = (set_parsers (handle_plan_segment st id seg).1 ps, (handle_plan_segment st id seg).2).
Proof.
  destruct seg as [delta| |delta|]; cbn [handle_plan_segment]; [| | |done].
  - case_bool_decide; [done|]. cbn [started_agent_message_items set_parsers leading_whitespace_by_item].
    destruct (negb _ && _); [done|]. unfold take_leading, maybe_emit_pending_agent_message_start. cbn.
    repeat (case_bool_decide || (destruct (_ !! id); cbn) || done).
  - cbn. destruct (completed _); [done|]. by destruct (plan_start _).
  - cbn. destruct (completed _); [done|]. destruct (started _); [done|]. by destruct (plan_start _).
Qed.
Lemma segments_set_parsers st ps id segs :
  handle_plan_segments (set_parsers st ps) id segs
  = (set_parsers (handle_plan_segments st id segs).1 ps, (handle_plan_segments st id segs).2).
Proof.
  revert st. induction segs as [|seg segs IH]; intros st; [done|]. cbn [handle_plan_segments].
  rewrite segment_set_parsers. destruct (handle_plan_segment st id seg) as [st1 ev1]. cbn [fst snd].
  rewrite IH. by destruct (handle_plan_segments st1 id segs).
Qed.
Lemma segments_app st id s1 s2 :
  handle_plan_segments st id (s1 ++ s2)
  = let '(st1, ev1) := handle_plan_segments st id s1 in
    let '(st2, ev2) := handle_plan_segments st1 id s2 in (st2, ev1 ++ ev2).
Proof.
  revert st. induction s1 as [|seg s1 IH]; intros st; cbn [handle_plan_segments app].
  { by destruct (handle_plan_segments st id s2). }
  destruct (handle_plan_segment st id seg) as [st1 ev1]. rewrite IH.
  destruct (handle_plan_segments st1 id s1) as [st2 ev2].
  destruct (handle_plan_segments st2 id s2). by rewrite (assoc_L (++)).
Qed.

(** The deltas of a message and its end are its segments, wherever the text is cut. *)
Lemma deltas_run drain st id (p : ProposedPlanParser) ds :
  plan_parsers st !! id = Some p →
  plan_run drain st (map (PDelta id) ds ++ [PFlush id])
  = let '(st', ev) := handle_plan_segments st id (map_plan_segment <$> (parse_all p ds).2) in
    (set_parsers st' (delete id (plan_parsers st)), ev).
Proof.
  revert st p. induction ds as [|d ds IH]; intros st p Hp; cbn [map app plan_run plan_step parse_all].
  - unfold flush_proposed_plan_segments_for_item. rewrite Hp, segments_set_parsers. unfold plan_finish.
    destruct (TaggedLines.finish p) as [p' segs]. cbn [snd].
    destruct (handle_plan_segments st id _) as [st' ev]. cbn. by rewrite app_nil_r.
  - unfold plan_text_delta, plan_parse. rewrite Hp. cbn [from_option]. unfold Datatypes.id.
    destruct (TaggedLines.parse p d) as [p' segs] eqn:E. cbn beta iota. rewrite segments_set_parsers.
    destruct (parse_all p' ds) as [p2 segs2] eqn:E2. cbn [snd]. rewrite fmap_app, segments_app.
    destruct (handle_plan_segments st id (map_plan_segment <$> segs)) as [st1 ev1] eqn:E1. cbn [fst snd].
    rewrite (IH _ p') by (cbn; apply lookup_insert_eq). rewrite E2, segments_set_parsers. cbn [snd].
    destruct (handle_plan_segments st1 id (map_plan_segment <$> segs2)) as [st2 ev2]. cbn.
    by rewrite delete_insert_eq.
Qed.
Lemma segments_text ds :
  normal_text (map_plan_segment <$> (parse_all plan_parser_new ds).2)
  = strip_proposed_plan_blocks (concat ds).
Proof.
  unfold normal_text, strip_proposed_plan_blocks, plan_segments. rewrite !strip_flat. cbn [app]. f_equal.
  unfold plan_parser_new. destruct (stream_flat PLAN_SPECS ds) as [_ ->]. by rewrite plan_flat.
Qed.

Lemma plan_run_app drain st l k :
  plan_run drain st (l ++ k)
  = let '(st1, e1) := plan_run drain st l in
    let '(st2, e2) := plan_run drain st1 k in (st2, e1 ++ e2).
Proof.
  revert st. induction l as [|i l IH]; intros st; cbn [plan_run app]; [by destruct (plan_run drain st k)|].
  destruct (plan_step drain st i) as [st1 e1]. rewrite IH. destruct (plan_run drain st1 l) as [st2 e2].
  destruct (plan_run drain st2 k). by rewrite (assoc_L (++)).
Qed.

(** The same when the message has no parser yet. *)
Lemma deltas_run_new drain st id ds :
  plan_parsers st !! id = None →
  plan_run drain st (map (PDelta id) ds ++ [PFlush id])
  = let '(st', ev) := handle_plan_segments st id
                        (map_plan_segment <$> (parse_all plan_parser_new ds).2) in
    (set_parsers st' (plan_parsers st), ev).
Proof.
  intros Hp. destruct ds as [|d ds].
  - cbn. unfold flush_proposed_plan_segments_for_item. rewrite Hp. by destruct st.
  - assert (plan_run drain st (map (PDelta id) (d :: ds) ++ [PFlush id])
            = plan_run drain (set_parsers st (<[id := plan_parser_new]> (plan_parsers st)))
                (map (PDelta id) (d :: ds) ++ [PFlush id])) as ->.
    { cbn [map app plan_run plan_step]. unfold plan_text_delta. rewrite Hp.
      cbn [plan_parsers set_parsers]. rewrite lookup_insert_eq. cbn [from_option].
      unfold Datatypes.id. destruct (plan_parse plan_parser_new d) as [p' segs].
      by rewrite insert_insert_eq. }
    rewrite (deltas_run _ _ _ plan_parser_new) by (cbn; apply lookup_insert_eq).
    rewrite segments_set_parsers. destruct (handle_plan_segments st id _) as [st' ev]. cbn.
    by rewrite delete_insert_id.
Qed.

Lemma complete_frame st item :
  let '(st', ev) := maybe_complete_plan_item_from_message st item in
  pending_agent_message_items st' = pending_agent_message_items st ∧
  started_agent_message_items st' = started_agent_message_items st ∧
  ∀ id, message_events id ev = [].
Proof.
  destruct item as [? role content| | | | | | | | | |]; cbn; try done. case_bool_decide; [|done].
  destruct (extract_proposed_plan_text _) as [text|]; [|done]. unfold plan_start, plan_complete_with_text.
  repeat (case_match; simplify_eq/=); split_and!; done.
Qed.

(** Streaming one message in plan mode, however its text is cut into deltas: the
    client sees a start, deltas whose concatenation is the text without its plan
    blocks, and the completion, when that text is not blank, and nothing at all of
    the message when it is blank, so that a reply that is only a plan shows no empty
    message. *)
Theorem plan_message_stream drain st a a' ds item :
  plan_parsers st !! am_id a = None → am_id a ∉ started_agent_message_items st →
  leading_whitespace_by_item st !! am_id a = None →
  am_id a' = am_id a → agent_message_text a' = strip_proposed_plan_blocks (concat ds) →
  let text := strip_proposed_plan_blocks (concat ds) in
  let events := (plan_run drain st (PAdded a :: (map (PDelta (am_id a)) ds ++ [PFlush (am_id a)])
                                    ++ [PPlanDone item; PMessageDone a'])).2 in
  if blank text then message_events (am_id a) events = []
  else ∃ shown, message_shown a text shown ∧
         message_events (am_id a) events = shown ++ [EvItemCompleted (TAgentMessage a')].
Proof.
  intros Hp Hs Hl Ha Ht text events.
  set (st0 := set_pending st (<[am_id a := TAgentMessage a]> (pending_agent_message_items st))).
  assert (waiting st0 a []) as Hw.
  { split; [done|]. cbn. by rewrite lookup_insert_eq, Hl. }
  unfold events. cbn [plan_run plan_step]. fold st0. rewrite plan_run_app, deltas_run_new by done.
  pose proof (segments_waiting st0 a [] (map_plan_segment <$> (parse_all plan_parser_new ds).2) Hw) as H.
  rewrite segments_text in H. fold text in H. clear events.
  destruct (handle_plan_segments st0 (am_id a) _) as [st1 ev1]. cbn [plan_run plan_step app].
  pose proof (complete_frame (set_parsers st1 (plan_parsers st0)) item) as Hc.
  destruct (maybe_complete_plan_item_from_message _ item) as [st2 ev2]. destruct Hc as (Hc1 & Hc2 & Hc3).
  unfold emit_agent_message_in_plan_mode, maybe_emit_pending_agent_message_start. rewrite Ha, Ht.
  fold text. rewrite (bool_decide_ext _ _ (trim_nil text)). destruct (blank text) eqn:Eb; cbn [app] in H.
  - destruct H as [_ H]. rewrite bool_decide_true by done. cbn [snd]. by rewrite !message_events_app, H, Hc3.
  - destruct H as [Hr H]. assert (am_id a ∈ started_agent_message_items st2) as Hin by by rewrite Hc2.
    rewrite bool_decide_false, !(bool_decide_true _ Hin) by done. cbn [snd].
    eexists. split; [exact H|]. rewrite !message_events_app, Hc3. f_equal.
    cbn. by rewrite bool_decide_true.
Qed.

Definition demo_message (t : str) : AgentMessageItem := {| am_id := §"m1"; am_content := [AText t] |}.
Definition demo_deltas : list str :=
  [§" "; [LF] ++ §"<proposed" ; §"_plan>" ++ [LF] ++ §"- do it" ++ [LF] ++ §"</prop"; §"osed_plan>" ++ [LF] ++ §"Ready?"].
Definition demo_full : str := [SP; LF] ++ §"Ready?".

Lemma plan_message_stream_witness :
  let events := (plan_run map_to_list (plan_state_new §"t")
     (PAdded (demo_message []) :: (map (PDelta §"m1") demo_deltas ++ [PFlush §"m1"])
      ++ [PPlanDone (Message None §"assistant" [COutputText (concat demo_deltas)] None None);
          PMessageDone (demo_message demo_full)])).2 in
  ∃ shown, message_shown (demo_message []) demo_full shown ∧
           message_events §"m1" events = shown ++ [EvItemCompleted (TAgentMessage (demo_message demo_full))].
Proof.
  refine (plan_message_stream map_to_list (plan_state_new §"t") (demo_message []) (demo_message demo_full)
            demo_deltas (Message None §"assistant" [COutputText (concat demo_deltas)] None None)
            _ _ _ _ _); by vm_compute.
Defined.

(** ** No event of plan mode rolls the session back *)
Definition quiet (l : list EventMsg) : Prop := Forall (λ e, is_rollback e = false) l.
Lemma quiet_app l k : quiet (l ++ k) ↔ quiet l ∧ quiet k.
Proof. apply Forall_app. Qed.
Lemma quiet_nil : quiet [].
Proof. constructor. Qed.
Lemma quiet_cons e l : is_rollback e = false → quiet l → quiet (e :: l).
Proof. by constructor. Qed.
Create HintDb quiet.
#[export] Hint Resolve quiet_nil quiet_cons : quiet.

Lemma maybe_emit_quiet st id : quiet (maybe_emit_pending_agent_message_start st id).2.
Proof. unfold maybe_emit_pending_agent_message_start. repeat case_match; cbn; auto with quiet. Qed.
Lemma segment_quiet st id seg : quiet (handle_plan_segment st id seg).2.
Proof.
  destruct seg as [delta| |delta|]; cbn [handle_plan_segment]; unfold plan_start, plan_push_delta.
  - case_bool_decide; [by cbn; auto with quiet|]. destruct (negb _ && _); [by cbn; auto with quiet|].
    destruct (if bool_decide _ then _ else _) as [st1 d1].
    pose proof (maybe_emit_quiet st1 id) as Hq. destruct (maybe_emit_pending_agent_message_start st1 id).
    apply quiet_app. cbn in *. auto with quiet.
  - repeat (case_match; simplify_eq/=); cbn; auto with quiet.
  - repeat (case_match; simplify_eq/=); cbn; auto with quiet.
  - by cbn; auto with quiet.
Qed.
Lemma segments_quiet st id segs : quiet (handle_plan_segments st id segs).2.
Proof.
  revert st. induction segs as [|seg segs IH]; intros st; cbn [handle_plan_segments]; [by cbn; auto with quiet|].
  pose proof (segment_quiet st id seg) as H1. destruct (handle_plan_segment st id seg) as [st1 ev1].
  pose proof (IH st1) as H2. destruct (handle_plan_segments st1 id segs) as [st2 ev2].
  by apply quiet_app.
Qed.
Lemma text_delta_quiet st id delta : quiet (plan_text_delta st id delta).2.
Proof. unfold plan_text_delta. destruct (plan_parse _ delta). apply segments_quiet. Qed.
Lemma flush_item_quiet st id : quiet (flush_proposed_plan_segments_for_item st id).2.
Proof.
  unfold flush_proposed_plan_segments_for_item. destruct (_ !! id); [apply segments_quiet|by cbn; auto with quiet].
Qed.
Lemma flush_all_quiet drain st : quiet (flush_proposed_plan_segments_all drain st).2.
Proof.
  unfold flush_proposed_plan_segments_all. generalize (set_parsers st ∅).
  induction (drain (plan_parsers st)) as [|[id p] ps IH]; intros st'; cbn [flush_parsers]; [by cbn; auto with quiet|].
  pose proof (segments_quiet st' id (plan_finish p).2) as H1. destruct (handle_plan_segments st' id _) as [st1 ev1].
  pose proof (IH st1) as H2. destruct (flush_parsers st1 ps) as [st2 ev2]. by apply quiet_app.
Qed.
Lemma complete_quiet st item : quiet (maybe_complete_plan_item_from_message st item).2.
Proof.
  unfold maybe_complete_plan_item_from_message, plan_start, plan_complete_with_text.
  repeat (case_match; simplify_eq/=); cbn; auto with quiet.
Qed.
Lemma emit_agent_quiet st a : quiet (emit_agent_message_in_plan_mode st a).2.
Proof.
  unfold emit_agent_message_in_plan_mode. case_bool_decide; [by cbn; auto with quiet|].
  pose proof (maybe_emit_quiet st (am_id a)) as H1.
  destruct (maybe_emit_pending_agent_message_start st (am_id a)) as [st1 ev1].
  destruct (if bool_decide _ then _ else _) as [st2 ev2] eqn:E. cbn [snd].
  rewrite !quiet_app. split_and!; [done| |auto with quiet].
  case_bool_decide; injection E as _ <-; auto with quiet.
Qed.
Lemma emit_item_quiet st i b : quiet (emit_turn_item_in_plan_mode st i b).2.
Proof. destruct i; cbn; try apply emit_agent_quiet; destruct b; cbn; auto with quiet. Qed.
#[export] Hint Resolve text_delta_quiet flush_item_quiet flush_all_quiet complete_quiet emit_item_quiet : quiet.
