(* ===== verification/Sampling.v ===== *)
(** * One request to the model and its retries
    ([core/src/savfox/tool_orchestrator.rs]: [try_run_sampling_request],
    [drain_in_flight], [run_sampling_request]; [core/src/stream_events_utils.rs]).

    The service, the tools and cancellation are what the record [Attempt] says of
    an attempt: the stream, at which polls the turn is seen to be cancelled, how
    the task of a tool call ends.  [None] is a panic of a debug build. *)
From stdpp Require Import gmap.
From S2P Require Import Prelude RustStr MachInt TaggedLines Truncate Protocol Normalize History EventMapping Session ModelApi Compaction Resume Approval ToolRouter PlanMode.

(** ** Items of the response *)
Definition handle_non_tool_response_item (uuid : str) (item : ResponseItem) (plan_mode : bool)
    : option TurnItem :=
  match item with
  | Message _ _ _ _ _ | Reasoning _ _ _ _ | WebSearchCall _ _ _ =>
      turn_item ← parse_turn_item uuid item;
      Some (match turn_item with
            | TAgentMessage a =>
                if plan_mode then
                  TAgentMessage {| am_id := am_id a;
                                   am_content := [AText (strip_proposed_plan_blocks (agent_message_text a))] |}
                else turn_item
            | _ => turn_item
            end)
  | _ => None
  end.

Definition last_assistant_message_from_item (item : ResponseItem) (plan_mode : bool) : option str :=
  match item with
  | Message _ role content _ _ =>
      if bool_decide (role = §"assistant") then
        let combined := concat (omap output_text content) in
        if bool_decide (combined = []) then None
        else if plan_mode then
          let stripped := strip_proposed_plan_blocks combined in
          if bool_decide (trim stripped = []) then None else Some stripped
        else Some combined
      else None
  | _ => None
  end.

(** ** The world of an attempt *)
Record Attempt := {
  at_stream : list ResponseItem → Stream;
  at_cancelled : nat → bool;      (* 0: while the stream is opened; S k: at the kth poll *)
  at_end : ToolCall → TaskEnd;
  at_pending : bool;              (* input is waiting when the response completes *)
  at_diff : option str;           (* the diff of the turn *)
  at_uuid : nat → str;            (* the identifier drawn at the kth event *)
}.

Record SamplingRequestResult := { needs_follow_up : bool; last_agent_message : option str }.
Record OutputItemResult := {
  or_last_agent_message : option str; or_needs_follow_up : bool; or_tool_call : option ToolCall }.

(** The variables of the loop; the calls in flight are those started so far. *)
Record SamplingState := {
  sm_session : Session;
  sm_follow_up : bool;
  sm_last : option str;
  sm_active : option TurnItem;
  sm_plan : option PlanModeStreamState;
  sm_calls : list ToolCall;
}.
(** What an event leads to: the next one, the end of the loop, or a return that
    leaves the calls in flight behind. *)
Inductive EventFlow :=
| NextEvent (st : SamplingState)
| BreakWith (st : SamplingState) (r : result SavfoxError SamplingRequestResult)
| ReturnErr (st : SamplingState) (e : SavfoxError).

Section Sampling.
Context (debug recording show_raw_agent_reasoning : bool).
Context (parse_mcp_tool_name : str → option (str * str)).
Context {Value : Type} (to_text : Value → result str str) (list_to_text : list Value → result str str)
        (is_null : Value → bool) (mcp_content : Value → option McpContent) (debug_text : str → str).
Context (drain_order : gmap str ProposedPlanParser → list (str * ProposedPlanParser)).
Context (tools : ToolRegistry Value) (tc : TurnContext) (turn_id : str) (plan_mode : bool).
#[local] Notation send_event := (send_event debug recording show_raw_agent_reasoning).
#[local] Notation record_conversation_items :=
  (record_conversation_items debug recording show_raw_agent_reasoning).
#[local] Notation to_item := (to_response_item to_text list_to_text is_null mcp_content debug_text).
#[local] Notation input_to_item :=
  (response_input_to_response_item to_text list_to_text is_null mcp_content).

Fixpoint send_events (s : Session) (l : list EventMsg) : option Session :=
  match l with
  | [] => Some s
  | e :: rest => s ← send_event s e; send_events s rest
  end.

(** ** [handle_output_item_done] *)
(** The answer to a call that cannot be run. *)
Definition respond_with (s : Session) (item : ResponseItem) (message : str)
    : option (Session * result SavfoxError OutputItemResult) :=
  s ← record_conversation_items s tc [item];
  s ← match input_to_item (RIFunctionCallOutput [] (plain_output message None)) with
      | Some response_item => record_conversation_items s tc [response_item]
      | None => Some s
      end;
  Some (s, Ok {| or_last_agent_message := None; or_needs_follow_up := true; or_tool_call := None |}).

Definition handle_output_item_done (s : Session) (uuid : str) (item : ResponseItem)
    (previously_active : bool) : option (Session * result SavfoxError OutputItemResult) :=
  match build_tool_call parse_mcp_tool_name item with
  | Ok (Some call) =>
      s ← record_conversation_items s tc [item];
      Some (s, Ok {| or_last_agent_message := None; or_needs_follow_up := true;
                     or_tool_call := Some call |})
  | Ok None =>
      s ← match handle_non_tool_response_item uuid item plan_mode with
          | Some turn_item =>
              s ← if previously_active then Some s else send_event s (EvItemStarted turn_item);
              send_event s (EvItemCompleted turn_item)
          | None => Some s
          end;
      s ← record_conversation_items s tc [item];
      Some (s, Ok {| or_last_agent_message := last_assistant_message_from_item item plan_mode;
                     or_needs_follow_up := false; or_tool_call := None |})
  | Err MissingLocalShellCallId => respond_with s item §"LocalShellCall without call_id or id"
  | Err (RespondToModel message) => respond_with s item message
  | Err (FatalCall message) => Some (s, Err (ErrFatal message))
  end.

(** ** One event *)
Definition is_agent_message (i : TurnItem) : bool := match i with TAgentMessage _ => true | _ => false end.

Definition with_session (st : SamplingState) (s : Session) : SamplingState :=
  {| sm_session := s; sm_follow_up := sm_follow_up st; sm_last := sm_last st;
     sm_active := sm_active st; sm_plan := sm_plan st; sm_calls := sm_calls st |}.
Definition with_plan (st : SamplingState) (s : Session) (plan : PlanModeStreamState) : SamplingState :=
  {| sm_session := s; sm_follow_up := sm_follow_up st; sm_last := sm_last st;
     sm_active := sm_active st; sm_plan := Some plan; sm_calls := sm_calls st |}.
Definition with_active (st : SamplingState) (active : option TurnItem) : SamplingState :=
  {| sm_session := sm_session st; sm_follow_up := sm_follow_up st; sm_last := sm_last st;
     sm_active := active; sm_plan := sm_plan st; sm_calls := sm_calls st |}.
Definition with_last (st : SamplingState) (last : option str) : SamplingState :=
  {| sm_session := sm_session st; sm_follow_up := sm_follow_up st;
     sm_last := match last with Some m => Some m | None => sm_last st end;
     sm_active := sm_active st; sm_plan := sm_plan st; sm_calls := sm_calls st |}.
Definition with_output (st : SamplingState) (s : Session) (r : OutputItemResult) : SamplingState :=
  {| sm_session := s; sm_follow_up := sm_follow_up st || or_needs_follow_up r;
     sm_last := match or_last_agent_message r with Some m => Some m | None => sm_last st end;
     sm_active := sm_active st; sm_plan := sm_plan st;
     sm_calls := sm_calls st ++ match or_tool_call r with Some c => [c] | None => [] end |}.

(** [handle_assistant_item_done_in_plan_mode]: [None] when the item is not a
    message of the assistant. *)
Definition handle_assistant_item_done_in_plan_mode (st : SamplingState) (plan : PlanModeStreamState)
    (uuid : str) (item : ResponseItem) (previously_active : bool) : option (option SamplingState) :=
  if has_role §"assistant" item then
    let '(plan, events) := maybe_complete_plan_item_from_message plan item in
    s ← send_events (sm_session st) events;
    let '(plan, events) :=
      match handle_non_tool_response_item uuid item true with
      | Some turn_item => emit_turn_item_in_plan_mode plan turn_item previously_active
      | None => (plan, [])
      end in
    s ← send_events s events;
    s ← record_conversation_items s tc [item];
    Some (Some (with_last (with_plan st s plan) (last_assistant_message_from_item item true)))
  else Some None.

Definition on_item_done (st : SamplingState) (uuid : str) (item : ResponseItem) : option EventFlow :=
  let previous := sm_active st in
  let st := with_active st None in
  let previously_active := match previous with Some _ => true | None => false end in
  '(st, handled) ←
    match sm_plan st with
    | None => Some (st, false)
    | Some plan =>
        let '(plan, events) :=
          match previous with
          | Some p => if is_agent_message p
                      then flush_proposed_plan_segments_for_item plan (item_id p) else (plan, [])
          | None => (plan, [])
          end in
        s ← send_events (sm_session st) events;
        let st := with_plan st s plan in
        r ← handle_assistant_item_done_in_plan_mode st plan uuid item previously_active;
        Some (match r with Some st => (st, true) | None => (st, false) end)
    end;
  if handled : bool then Some (NextEvent st)
  else
    '(s, r) ← handle_output_item_done (sm_session st) uuid item previously_active;
    Some (match r with
          | Ok output => NextEvent (with_output st s output)
          | Err e => ReturnErr (with_session st s) e
          end).

Definition on_item_added (st : SamplingState) (uuid : str) (item : ResponseItem) : option EventFlow :=
  match handle_non_tool_response_item uuid item plan_mode with
  | None => Some (NextEvent st)
  | Some turn_item =>
      st' ← match sm_plan st with
            | Some plan =>
                if is_agent_message turn_item then
                  Some (with_plan st (sm_session st)
                          (set_pending plan (<[EventMapping.item_id turn_item := turn_item]>
                                               (pending_agent_message_items plan))))
                else s ← send_event (sm_session st) (EvItemStarted turn_item);
                     Some (with_session st s)
            | None => s ← send_event (sm_session st) (EvItemStarted turn_item); Some (with_session st s)
            end;
      Some (NextEvent (with_active st' (Some turn_item)))
  end.

Definition on_text_delta (st : SamplingState) (delta : str) : option EventFlow :=
  match sm_active st with
  | None => error_or_panic debug;; Some (NextEvent st)
  | Some active =>
      match sm_plan st with
      | Some plan =>
          if is_agent_message active then
            let '(plan, events) := plan_text_delta plan (EventMapping.item_id active) delta in
            s ← send_events (sm_session st) events; Some (NextEvent (with_plan st s plan))
          else s ← send_event (sm_session st)
                     (EvAgentMessageContentDelta (EventMapping.item_id active) delta);
               Some (NextEvent (with_session st s))
      | None => s ← send_event (sm_session st)
                      (EvAgentMessageContentDelta (EventMapping.item_id active) delta);
                Some (NextEvent (with_session st s))
      end
  end.

(** An event about the active item. *)
Definition on_active (st : SamplingState) (event : str → EventMsg) : option EventFlow :=
  match sm_active st with
  | None => error_or_panic debug;; Some (NextEvent st)
  | Some active => s ← send_event (sm_session st) (event (EventMapping.item_id active));
                   Some (NextEvent (with_session st s))
  end.

Definition on_completed (st : SamplingState) (usage : option TokenUsage) (pending : bool)
    : option EventFlow :=
  st ← match sm_plan st with
       | Some plan =>
           let '(plan, events) := flush_proposed_plan_segments_all drain_order plan in
           s ← send_events (sm_session st) events; Some (with_plan st s plan)
       | None => Some st
       end;
  s ← update_token_usage_info debug recording show_raw_agent_reasoning (sm_session st) tc usage;
  Some (BreakWith (with_session st s)
          (Ok {| needs_follow_up := sm_follow_up st || pending; last_agent_message := sm_last st |})).

Definition handle_event (a : Attempt) (k : nat) (st : SamplingState) (event : ResponseEvent)
    : option EventFlow :=
  match event with
  | Created | ModelsEtag _ => Some (NextEvent st)
  | OutputItemDone item => on_item_done st (at_uuid a k) item
  | OutputItemAdded item => on_item_added st (at_uuid a k) item
  | ServerReasoningIncluded included =>
      Some (NextEvent (with_session st (set_server_reasoning_included (sm_session st) included)))
  | RateLimits snapshot =>
      s ← update_rate_limits debug recording show_raw_agent_reasoning (sm_session st) snapshot;
      Some (NextEvent (with_session st s))
  | ResponseCompleted usage => on_completed st usage (at_pending a)
  | OutputTextDelta delta => on_text_delta st delta
  | ReasoningSummaryDelta delta i => on_active st (λ id, EvReasoningContentDelta id delta i)
  | ReasoningSummaryPartAdded i => on_active st (λ id, EvAgentReasoningSectionBreak id i)
  | ReasoningContentDelta delta i => on_active st (λ id, EvReasoningRawContentDelta id delta i)
  end.

(** ** The stream *)
Fixpoint stream_loop (a : Attempt) (k : nat) (st : SamplingState)
    (events : list (result SavfoxError ResponseEvent)) : option EventFlow :=
  if at_cancelled a (S k) then Some (BreakWith st (Err ErrTurnAborted))
  else
    match events with
    | [] => Some (BreakWith st (Err stream_closed))
    | Err e :: _ => Some (ReturnErr st e)
    | Ok event :: rest =>
        flow ← handle_event a k st event;
        match flow with
        | NextEvent st => stream_loop a (S k) st rest
        | _ => Some flow
        end
    end.

Fixpoint drain_in_flight (a : Attempt) (s : Session) (calls : list ToolCall) : option Session :=
  match calls with
  | [] => Some s
  | call :: rest =>
      s ← match handle_tool_call tools call (at_end a call) with
          | Ok response_input => record_conversation_items s tc [to_item response_input]
          | Err _ => error_or_panic debug;; Some s
          end;
      drain_in_flight a s rest
  end.

(** [try_run_sampling_request]; the calls are those that were started. *)
Definition try_run_sampling_request (a : Attempt) (s : Session) (prompt : list ResponseItem)
    : option (Session * list ToolCall * result SavfoxError SamplingRequestResult) :=
  let s := persist_rollout_items recording s [RTurnContext (model tc)] in
  if at_cancelled a 0 then Some (s, [], Err ErrTurnAborted)
  else
    match at_stream a prompt with
    | Err e => Some (s, [], Err e)
    | Ok events =>
        flow ← stream_loop a 0
          {| sm_session := s; sm_follow_up := false; sm_last := None; sm_active := None;
             sm_plan := if plan_mode then Some (plan_state_new turn_id) else None;
             sm_calls := [] |} events;
        match flow with
        | ReturnErr st e => Some (sm_session st, sm_calls st, Err e)
        | NextEvent st => Some (sm_session st, sm_calls st, Err stream_closed)
        | BreakWith st outcome =>
            s ← drain_in_flight a (sm_session st) (sm_calls st);
            s ← match outcome, at_diff a with
                | Ok _, Some diff => send_event s (EvTurnDiff diff)
                | _, _ => Some s
                end;
            Some (s, sm_calls st, outcome)
        end
    end.

(** ** Retries *)
Definition fallback_warning (e : SavfoxError) : str :=
  §"Falling back from WebSockets to HTTPS transport. " ++ error_text e.

(** [websockets]: the session of the client can still fall back to HTTP. *)
Inductive SamplingExit :=
| SamplingOutOfFuel
| SamplingDone (s : Session) (websockets : bool) (attempts : nat) (calls : list ToolCall)
    (r : result SavfoxError SamplingRequestResult).

Context (max_retries : Z) (attempts : nat → Attempt).

Fixpoint sampling_loop (fuel : nat) (k : nat) (s : Session) (websockets : bool) (retries : Z)
    (started : list ToolCall) (prompt : list ResponseItem) : option SamplingExit :=
  match fuel with
  | O => Some SamplingOutOfFuel
  | S fuel =>
      '(s, calls, r) ← try_run_sampling_request (attempts k) s prompt;
      let started := started ++ calls in
      match r with
      | Ok output => Some (SamplingDone s websockets (S k) started (Ok output))
      | Err ErrContextWindowExceeded =>
          s ← set_total_tokens_full debug recording show_raw_agent_reasoning s tc;
          Some (SamplingDone s websockets (S k) started (Err ErrContextWindowExceeded))
      | Err (ErrUsageLimitReached display rate_limits) =>
          s ← match rate_limits with
              | Some l => update_rate_limits debug recording show_raw_agent_reasoning s l
              | None => Some s
              end;
          Some (SamplingDone s websockets (S k) started (Err (ErrUsageLimitReached display rate_limits)))
      | Err err =>
          if negb (is_retryable err) then
            Some (SamplingDone s websockets (S k) started (Err err))
          else if bool_decide (max_retries ≤ retries)%Z && websockets then
            s ← send_event s (EvWarning (fallback_warning err));
            sampling_loop fuel (S k) s false 0 started prompt
          else if bool_decide (retries < max_retries)%Z then
            s ← notify_stream_error debug recording show_raw_agent_reasoning s
                  (reconnecting_notice max_retries (retries + 1)) (error_text err);
            sampling_loop fuel (S k) s websockets (retries + 1) started prompt
          else Some (SamplingDone s websockets (S k) started (Err err))
      end
  end.

(** [run_sampling_request]; [cancelled]: the turn is cancelled while the tools of
    the MCP servers are listed. *)
Definition run_sampling_request (fuel : nat) (s : Session) (websockets cancelled : bool)
    (prompt : list ResponseItem) : option SamplingExit :=
  if cancelled then Some (SamplingDone s websockets 0 [] (Err ErrTurnAborted))
  else sampling_loop fuel 0 s websockets 0 [] prompt.
End Sampling.

(** * Correctness *)

(** ** What a request records

    The specification of an attempt reads the stream and says what is recorded,
    which calls are started and how the attempt ends. *)
Definition GUARDRAIL : str := §"LocalShellCall without call_id or id".
Record Digest := {
  dg_items : list ResponseItem; dg_calls : list ToolCall; dg_follow : bool; dg_last : option str }.
Definition digest_empty : Digest :=
  {| dg_items := []; dg_calls := []; dg_follow := false; dg_last := None |}.
Inductive Ending := CancelledAt | ClosedEarly | FailedWith (e : SavfoxError) | CompletedWith (pending : bool).

Section Spec.
Context (parse_mcp_tool_name : str → option (str * str)) (plan_mode : bool).

Definition digest_item (d : Digest) (item : ResponseItem) : Digest :=
  match build_tool_call parse_mcp_tool_name item with
  | Ok (Some call) =>
      {| dg_items := dg_items d ++ [item]; dg_calls := dg_calls d ++ [call]; dg_follow := true;
         dg_last := dg_last d |}
  | Ok None =>
      {| dg_items := dg_items d ++ [item]; dg_calls := dg_calls d; dg_follow := dg_follow d;
         dg_last := match last_assistant_message_from_item item plan_mode with
                    | Some m => Some m | None => dg_last d end |}
  | Err _ =>
      {| dg_items := dg_items d ++ [item; FunctionCallOutput [] (plain_output GUARDRAIL None)];
         dg_calls := dg_calls d; dg_follow := true; dg_last := dg_last d |}
  end.
Fixpoint digest (a : Attempt) (k : nat) (d : Digest) (events : list (result SavfoxError ResponseEvent))
    : Digest * Ending :=
  if at_cancelled a (S k) then (d, CancelledAt)
  else match events with
       | [] => (d, ClosedEarly)
       | Err e :: _ => (d, FailedWith e)
       | Ok (ResponseCompleted _) :: _ => (d, CompletedWith (at_pending a))
       | Ok (OutputItemDone item) :: rest => digest a (S k) (digest_item d item) rest
       | Ok _ :: rest => digest a (S k) d rest
       end.
End Spec.

Definition ending_result (d : Digest) (e : Ending) : result SavfoxError SamplingRequestResult :=
  match e with
  | CancelledAt => Err ErrTurnAborted
  | ClosedEarly => Err stream_closed
  | FailedWith e => Err e
  | CompletedWith pending =>
      Ok {| needs_follow_up := dg_follow d || pending; last_agent_message := dg_last d |}
  end.
(** A stream that fails leaves the calls in flight behind. *)
Definition waits_for_tools (e : Ending) : bool := match e with FailedWith _ => false | _ => true end.

Lemma build_tool_call_errors parse item e :
  build_tool_call parse item = Err e → e = MissingLocalShellCallId.
Proof.
  destruct item as [| |id cid st act|? name args cid| |? ? cid name input| | | | |]; cbn; try done.
  - destruct act as [exec]. destruct cid; [done|]. destruct id; [done|]. by intros [= <-].
  - by destruct (parse name) as [[? ?]|].
Qed.

Section Records.
Context (recording raw : bool) (tc : TurnContext).
#[local] Notation record s l := (record_conversation_items false recording raw s tc l).

(** The items recorded between two sessions, and nothing else of consequence. *)
Inductive records (s : Session) : list ResponseItem → Session → Prop :=
| records_refl : records s [] s
| records_log l s1 s2 : records s l s1 → logs s1 s2 → records s l s2
| records_more l s1 k s2 : records s l s1 → Forall sized k → record s1 k = Some s2 → records s (l ++ k) s2.

Lemma records_trans s1 l s2 k s3 : records s1 l s2 → records s2 k s3 → records s1 (l ++ k) s3.
Proof.
  intros H1 H2. induction H2 as [|k s3 s4 _ IH Hl|k s3 k' s4 _ IH Hk Hr].
  - by rewrite app_nil_r.
  - by eapply records_log.
  - rewrite (assoc_L (++)). by eapply records_more.
Qed.
Lemma records_logs s s' : logs s s' → records s [] s'.
Proof. apply records_log, records_refl. Qed.

Lemma send_event_ok s msg :
  is_rollback msg = false → ∃ s', send_event false recording raw s msg = Some s' ∧ logs s s'.
Proof.
  intros Hm. destruct (send_event_release recording raw s msg) as [s' E]. exists s'. split; [done|].
  by eapply send_event_logs.
Qed.
Lemma send_events_ok s l : quiet l → ∃ s', send_events false recording raw s l = Some s' ∧ logs s s'.
Proof.
  intros Hl. revert s. induction Hl as [|e l He _ IH]; intros s; [by exists s|]. cbn [send_events].
  destruct (send_event_ok s e He) as (s1 & -> & H1). cbn [mbind option_bind].
  destruct (IH s1) as (s2 & -> & H2). exists s2. split; [done|]. by etrans.
Qed.
Lemma send_raw_ok s l : ∃ s', send_raw_response_items false recording raw s l = Some s' ∧ logs s s'.
Proof.
  revert s. induction l as [|i l IH]; intros s; [by exists s|]. cbn [send_raw_response_items].
  destruct (send_event_ok s (EvRawResponseItem i) eq_refl) as (s1 & -> & H1). cbn [mbind option_bind].
  destruct (IH s1) as (s2 & -> & H2). exists s2. split; [done|]. by etrans.
Qed.
Lemma record_ok s l : Forall sized l → ∃ s', record s l = Some s' ∧ records s l s'.
Proof.
  intros Hl. destruct (record_into_history_spec s tc l Hl) as (l' & s1 & H1 & _).
  destruct (send_raw_ok (persist_rollout_response_items recording s1 l) l) as (s2 & H2 & _).
  assert (record s l = Some s2) as Hr.
  { unfold record_conversation_items. rewrite H1. cbn [mbind option_bind]. exact H2. }
  exists s2. split; [done|]. apply (records_more s [] s l s2); [apply records_refl|done|done].
Qed.

(** Recorded items are in the history, in order, each as it is stored. *)
Lemma records_history s l s' :
  records s l s' →
  ∃ l', items (history s') = items (history s) ++ l' ∧
        Forall2 (stored (truncation_policy tc)) (filter (λ i, recorded i = true) l) l'.
Proof.
  induction 1 as [|l s1 s2 _ (l' & H & HF) [Hi _]|l s1 k s2 _ (l' & H & HF) Hk Hr].
  - exists []. by rewrite app_nil_r.
  - exists l'. by rewrite Hi.
  - destruct (record_into_history_spec s1 tc k Hk) as (k' & s3 & H3 & _ & Hi & HF').
    unfold record_conversation_items in Hr. rewrite H3 in Hr. cbn [mbind option_bind] in Hr.
    assert (items (history s2) = items (history s3)) as Hs.
    { destruct (send_raw_ok (persist_rollout_response_items recording s3 k) k) as (s4 & H4 & [Hi4 _]).
      rewrite H4 in Hr. injection Hr as <-. rewrite Hi4. unfold persist_rollout_response_items, persist_rollout_items.
      by destruct recording. }
    exists (l' ++ k'). rewrite Hs, Hi, H, (assoc_L (++)). split; [done|]. rewrite filter_app.
    by apply Forall2_app.
Qed.
End Records.

(** ** The loop follows the specification *)
Definition event_sized (event : result SavfoxError ResponseEvent) : Prop :=
  match event with Ok (OutputItemDone item) => sized item | _ => True end.

Section Refinement.
Context (recording raw : bool) (parse_mcp_tool_name : str → option (str * str)).
Context {Value : Type} (to_text : Value → result str str) (list_to_text : list Value → result str str)
        (is_null : Value → bool) (mcp_content : Value → option McpContent) (debug_text : str → str).
Context (drain_order : gmap str ProposedPlanParser → list (str * ProposedPlanParser)).
Context (tools : ToolRegistry Value) (tc : TurnContext) (turn_id : str) (plan_mode : bool).
#[local] Notation records := (records recording raw tc).
#[local] Notation digest_item := (digest_item parse_mcp_tool_name plan_mode).
#[local] Notation digest := (digest parse_mcp_tool_name plan_mode).
#[local] Notation to_item := (to_response_item to_text list_to_text is_null mcp_content debug_text).
#[local] Notation stream_loop :=
  (stream_loop false recording raw parse_mcp_tool_name to_text list_to_text is_null mcp_content
     drain_order tc plan_mode).
#[local] Notation handle_event :=
  (handle_event false recording raw parse_mcp_tool_name to_text list_to_text is_null mcp_content
     drain_order tc plan_mode).
#[local] Notation try_run :=
  (try_run_sampling_request false recording raw parse_mcp_tool_name to_text list_to_text is_null
     mcp_content debug_text drain_order tools tc turn_id plan_mode).

(** The variables of the loop hold what has been read of the stream. *)
Record follows (s0 : Session) (d : Digest) (st : SamplingState) : Prop := {
  follows_follow : sm_follow_up st = dg_follow d;
  follows_last : sm_last st = dg_last d;
  follows_calls : sm_calls st = dg_calls d;
  follows_records : records s0 (dg_items d) (sm_session st);
  follows_plan : is_Some (sm_plan st) → plan_mode = true;
}.

Lemma follows_logs s0 d st s' active plan :
  follows s0 d st → logs (sm_session st) s' → (is_Some plan → plan_mode = true) →
  follows s0 d {| sm_session := s'; sm_follow_up := sm_follow_up st; sm_last := sm_last st;
                  sm_active := active; sm_plan := plan; sm_calls := sm_calls st |}.
Proof. intros [? ? ? ? ?] Hl Hp. split; cbn; try done. by eapply records_log. Qed.
Lemma follows_session s0 d st s' :
  follows s0 d st → logs (sm_session st) s' → follows s0 d (with_session st s').
Proof. intros H Hl. apply follows_logs; [done..|apply H]. Qed.
Lemma follows_with_plan s0 d st s' plan plan' :
  follows s0 d st → sm_plan st = Some plan → logs (sm_session st) s' → follows s0 d (with_plan st s' plan').
Proof. intros H E Hl. apply follows_logs; [done..|]. intros _. apply H. by eexists. Qed.
Lemma follows_active s0 d st active : follows s0 d st → follows s0 d (with_active st active).
Proof. intros H. apply follows_logs; [done..|apply H]. Qed.

(** Sends the events of a state transition of plan mode. *)
Ltac send_quiet :=
  match goal with
  | |- context [send_events false recording raw ?s ?l] =>
      let s' := fresh "s" in let E := fresh "E" in let H := fresh "Hl" in
      destruct (send_events_ok recording raw s l) as (s' & E & H);
      [solve [eauto with quiet]|rewrite E; cbn [mbind option_bind]; clear E]
  | |- context [send_event false recording raw ?s ?e] =>
      let s' := fresh "s" in let E := fresh "E" in let H := fresh "Hl" in
      destruct (send_event_ok recording raw s e) as (s' & E & H);
      [done|rewrite E; cbn [mbind option_bind]; clear E]
  end.

Lemma record_follows s0 d st items s' follow last calls :
  follows s0 d st → records (sm_session st) items s' →
  follows s0 {| dg_items := dg_items d ++ items; dg_calls := calls; dg_follow := follow; dg_last := last |}
    {| sm_session := s'; sm_follow_up := follow; sm_last := last; sm_active := sm_active st;
       sm_plan := sm_plan st; sm_calls := calls |}.
Proof. intros [? ? ? ? ?] Hr. split; cbn; try done. by eapply records_trans. Qed.

(** An assistant message in plan mode. *)
Lemma assistant_done_follows s0 d st plan uuid item b :
  follows s0 d st → sm_plan st = Some plan → has_role §"assistant" item = true → sized item →
  ∃ st', handle_assistant_item_done_in_plan_mode false recording raw tc st plan uuid item b
         = Some (Some st') ∧ follows s0 (digest_item d item) st'.
Proof.
  intros H E Hrole Hs. unfold handle_assistant_item_done_in_plan_mode. rewrite Hrole.
  assert (plan_mode = true) as Hp by (apply H; by eexists).
  pose proof (complete_quiet plan item) as Hq1.
  destruct (maybe_complete_plan_item_from_message plan item) as [plan1 ev1]. cbn [snd] in Hq1. send_quiet.
  destruct (match handle_non_tool_response_item uuid item true with Some _ => _ | None => _ end)
    as [plan2 ev2] eqn:E2.
  assert (quiet ev2) as Hq2.
  { destruct (handle_non_tool_response_item uuid item true) as [ti|]; [|injection E2 as _ <-; auto with quiet].
    pose proof (emit_item_quiet plan1 ti b) as Hq. by rewrite E2 in Hq. }
  send_quiet. destruct (record_ok recording raw tc s1 [item]) as (s2 & -> & Hr); [by constructor|].
  cbn [mbind option_bind]. eexists. split; [done|]. unfold digest_item.
  destruct item as [? role ? ? ?| | | | | | | | | |]; try done. cbn [build_tool_call].
  rewrite Hp. unfold with_last, with_plan. cbn [sm_last sm_follow_up sm_active sm_plan sm_calls sm_session].
  destruct H as [Hf Hla Hc Hre Hpl]. split; cbn; try done; [by rewrite Hla|].
  eapply records_trans; [exact Hre|]. apply (records_trans recording raw tc _ [] s1); [|done].
  eapply records_logs. by etrans.
Qed.

(** An item that the plan mode leaves to [handle_output_item_done]. *)
Lemma output_done_follows s0 d st uuid item b :
  follows s0 d st → sized item →
  ∃ s' r, handle_output_item_done false recording raw parse_mcp_tool_name to_text list_to_text is_null
            mcp_content tc plan_mode (sm_session st) uuid item b = Some (s', Ok r) ∧
          follows s0 (digest_item d item) (with_output st s' r).
Proof.
  intros H Hs. unfold handle_output_item_done, Sampling.digest_item.
  pose proof (build_tool_call_errors parse_mcp_tool_name item) as Herr.
  destruct (build_tool_call parse_mcp_tool_name item) as [[call|]|e] eqn:E.
  - destruct (record_ok recording raw tc (sm_session st) [item]) as (s' & -> & Hr); [by constructor|].
    cbn [mbind option_bind]. eexists _, _. split; [done|]. pose proof (record_follows _ _ _ _ _ true (sm_last st)
      (dg_calls d ++ [call]) H Hr) as HF.
    destruct H as [Hf Hl Hc ? ?]. unfold with_output. cbn. rewrite orb_true_r, <- Hl, Hc. exact HF.
  - assert (∃ s1, match handle_non_tool_response_item uuid item plan_mode with
            | Some turn_item =>
                s ← (if b then Some (sm_session st) else send_event false recording raw (sm_session st) (EvItemStarted turn_item));
                send_event false recording raw s (EvItemCompleted turn_item)
            | None => Some (sm_session st)
            end = Some s1 ∧ logs (sm_session st) s1) as (s1 & -> & H1).
    { destruct (handle_non_tool_response_item uuid item plan_mode) as [ti|]; [|by eexists].
      destruct b; cbn [mbind option_bind]; repeat send_quiet; eexists; (split; [done|]);
        first [done | by etrans]. }
    cbn [mbind option_bind]. destruct (record_ok recording raw tc s1 [item]) as (s' & -> & Hr); [by constructor|].
    cbn [mbind option_bind]. eexists _, _. split; [done|].
    assert (records (sm_session st) [item] s') as Hr'.
    { apply (records_trans recording raw tc _ [] s1); [by apply records_logs|done]. }
    pose proof (record_follows _ _ _ _ _ (dg_follow d)
      (match last_assistant_message_from_item item plan_mode with Some m => Some m | None => dg_last d end)
      (dg_calls d) H Hr') as HF.
    destruct H as [Hf Hl Hc ? ?]. unfold with_output. cbn. by rewrite orb_false_r, app_nil_r, Hl, Hc, Hf.
  - rewrite (Herr e eq_refl). unfold respond_with.
    destruct (record_ok recording raw tc (sm_session st) [item]) as (s1 & -> & Hr1); [by constructor|].
    cbn [mbind option_bind response_input_to_response_item]. fold GUARDRAIL.
    destruct (record_ok recording raw tc s1 [FunctionCallOutput [] (plain_output GUARDRAIL None)])
      as (s2 & -> & Hr2); [by constructor; [by vm_compute|]|].
    cbn [mbind option_bind]. eexists _, _. split; [done|].
    pose proof (record_follows _ _ _ _ _ true (sm_last st) (dg_calls d) H
                  (records_trans _ _ _ _ _ _ _ _ Hr1 Hr2)) as HF.
    destruct H as [Hf Hl Hc ? ?]. unfold with_output. cbn. rewrite orb_true_r, <- Hl, app_nil_r, Hc. exact HF.
Qed.

Lemma item_done_follows s0 d st uuid item :
  follows s0 d st → sized item →
  ∃ st', on_item_done false recording raw parse_mcp_tool_name to_text list_to_text is_null mcp_content
           tc plan_mode st uuid item = Some (NextEvent st') ∧ follows s0 (digest_item d item) st'.
Proof.
  intros H Hs. unfold on_item_done. apply (follows_active _ _ _ None) in H.
  assert (sm_plan (with_active st None) = sm_plan st) as Hpl by done. rewrite Hpl.
  set (b := match sm_active st with Some _ => true | None => false end).
  clearbody b. revert H Hpl. generalize (with_active st None). intros st1 H Hpl.
  destruct (sm_plan st) as [plan|] eqn:Ep.
  - destruct (match sm_active st with Some p => _ | None => (plan, []) end) as [plan1 ev1] eqn:E1.
    assert (quiet ev1) as Hq.
    { destruct (sm_active st) as [p|]; [|injection E1 as _ <-; auto with quiet].
      destruct (is_agent_message p); [|injection E1 as _ <-; auto with quiet].
      pose proof (flush_item_quiet plan (item_id p)) as Hq. by rewrite E1 in Hq. }
    send_quiet. pose proof (follows_with_plan _ _ _ s plan plan1 H Hpl Hl) as H1.
    destruct (has_role §"assistant" item) eqn:Er.
    + destruct (assistant_done_follows s0 d _ plan1 uuid item b H1 eq_refl Er Hs) as (st' & -> & H2).
      cbn [mbind option_bind]. by exists st'.
    + unfold handle_assistant_item_done_in_plan_mode. rewrite Er. cbn [mbind option_bind].
      destruct (output_done_follows s0 d _ uuid item b H1 Hs) as (s' & r & -> & H2). cbn [mbind option_bind].
      by eexists.
  - cbn [mbind option_bind].
    destruct (output_done_follows s0 d _ uuid item b H Hs) as (s' & r & -> & H2). cbn [mbind option_bind].
    by eexists.
Qed.

Lemma item_added_follows s0 d st uuid item :
  follows s0 d st →
  ∃ st', on_item_added false recording raw plan_mode st uuid item = Some (NextEvent st') ∧ follows s0 d st'.
Proof.
  intros H. unfold on_item_added. destruct (handle_non_tool_response_item uuid item plan_mode) as [ti|];
    [|by eexists].
  destruct (sm_plan st) as [plan|] eqn:Ep; [destruct (is_agent_message ti)|]; cbn [mbind option_bind];
    try send_quiet; eexists; (split; [done|]); apply follows_active;
    first [by eapply follows_with_plan | by apply follows_session].
Qed.

Lemma text_delta_follows s0 d st delta :
  follows s0 d st →
  ∃ st', on_text_delta false recording raw st delta = Some (NextEvent st') ∧ follows s0 d st'.
Proof.
  intros H. unfold on_text_delta. destruct (sm_active st) as [active|]; [|by eexists].
  destruct (sm_plan st) as [plan|] eqn:Ep; [destruct (is_agent_message active)|];
    try (send_quiet; eexists; split; [done|]; by apply follows_session).
  pose proof (text_delta_quiet plan (item_id active) delta) as Hq.
  destruct (plan_text_delta plan (item_id active) delta) as [plan1 ev1]. cbn [snd] in Hq. send_quiet.
  eexists. split; [done|]. by eapply follows_with_plan.
Qed.

Lemma active_follows s0 d st event :
  follows s0 d st → (∀ id, is_rollback (event id) = false) →
  ∃ st', on_active false recording raw st event = Some (NextEvent st') ∧ follows s0 d st'.
Proof.
  intros H He. unfold on_active. destruct (sm_active st) as [active|]; [|by eexists].
  destruct (send_event_ok recording raw (sm_session st) (event (item_id active))) as (s' & -> & Hl); [done|].
  eexists. split; [done|]. by apply follows_session.
Qed.

Lemma completed_follows s0 d st usage pending :
  follows s0 d st →
  ∃ st', on_completed false recording raw drain_order tc st usage pending
         = Some (BreakWith st' (ending_result d (CompletedWith pending))) ∧ follows s0 d st'.
Proof.
  intros H. unfold on_completed.
  assert (∃ st1, match sm_plan st with
       | Some plan =>
           let '(plan, events) := flush_proposed_plan_segments_all drain_order plan in
           s ← send_events false recording raw (sm_session st) events; Some (with_plan st s plan)
       | None => Some st
       end = Some st1 ∧ follows s0 d st1) as (st1 & -> & H1).
  { destruct (sm_plan st) as [plan|] eqn:Ep; [|by eexists].
    pose proof (flush_all_quiet drain_order plan) as Hq.
    destruct (flush_proposed_plan_segments_all drain_order plan) as [plan1 ev1]. cbn [snd] in Hq. send_quiet.
    eexists. split; [done|]. by eapply follows_with_plan. }
  cbn [mbind option_bind].
  destruct (update_token_usage_release recording raw (sm_session st1) tc usage) as [s' E]. rewrite E.
  cbn [mbind option_bind]. eexists. split.
  - cbn. by rewrite (follows_follow _ _ _ H1), (follows_last _ _ _ H1).
  - apply follows_session; [done|]. by eapply update_token_usage_logs.
Qed.

Lemma event_follows s0 d st a k event :
  follows s0 d st → event_sized (Ok event) →
  match event with
  | ResponseCompleted _ =>
      ∃ st', handle_event a k st event
             = Some (BreakWith st' (ending_result d (CompletedWith (at_pending a)))) ∧ follows s0 d st'
  | OutputItemDone item =>
      ∃ st', handle_event a k st event = Some (NextEvent st') ∧ follows s0 (digest_item d item) st'
  | _ => ∃ st', handle_event a k st event = Some (NextEvent st') ∧ follows s0 d st'
  end.
Proof.
  intros H Hs. destruct event; cbn [Sampling.handle_event].
  - by eexists.
  - by apply item_done_follows.
  - by apply item_added_follows.
  - eexists. split; [done|]. apply follows_session; [done|]. apply set_server_reasoning_logs.
  - by apply completed_follows.
  - by apply text_delta_follows.
  - by apply active_follows.
  - by apply active_follows.
  - by apply active_follows.
  - destruct (update_rate_limits_release recording raw (sm_session st) snapshot) as [s' E]. rewrite E.
    eexists. split; [done|]. apply follows_session; [done|]. by eapply update_rate_limits_logs.
  - by eexists.
Qed.

Lemma stream_follows s0 a events k d st :
  follows s0 d st → Forall event_sized events →
  let '(d', e) := digest a k d events in
  ∃ st', follows s0 d' st' ∧
    stream_loop a k st events
    = Some (match e with FailedWith err => ReturnErr st' err | _ => BreakWith st' (ending_result d' e) end).
Proof.
  intros H Hs. revert k d st H. induction Hs as [|event events He _ IH]; intros k d st H;
    cbn [Sampling.stream_loop Sampling.digest]; (destruct (at_cancelled a (S k)); [by exists st|]);
    [by exists st|].
  destruct event as [event|err]; [|by exists st].
  pose proof (event_follows s0 d st a k event H He) as Hf.
  destruct event; destruct Hf as (st' & -> & Hf); cbn [mbind option_bind];
    first [by apply IH | by exists st'].
Qed.

(** What the tools answer to the calls in flight, in the order of the calls. *)
Definition call_outputs (a : Attempt) (calls : list ToolCall) : list ResponseItem :=
  omap (λ c, match handle_tool_call tools c (at_end a c) with
             | Ok r => Some (to_item r)
             | Err _ => None
             end) calls.
Lemma drain_records a s calls :
  Forall sized (call_outputs a calls) →
  ∃ s', drain_in_flight false recording raw to_text list_to_text is_null mcp_content debug_text tools tc
          a s calls = Some s' ∧ records s (call_outputs a calls) s'.
Proof.
  revert s. induction calls as [|c calls IH]; intros s; [eexists; split; [done|constructor]|].
  cbn [drain_in_flight call_outputs omap list_omap].
  destruct (handle_tool_call tools c (at_end a c)) as [r|err]; cbn [mbind option_bind error_or_panic].
  - intros [Hc Ho]%Forall_cons.
    destruct (record_ok recording raw tc s [to_item r]) as (s1 & -> & H1); [by constructor|].
    cbn [mbind option_bind]. destruct (IH s1 Ho) as (s2 & -> & H2). exists s2. split; [done|].
    by apply (records_trans recording raw tc s [to_item r] s1).
  - apply IH.
Qed.

(** Everything an attempt records. *)
Definition attempt_digest (a : Attempt) (prompt : list ResponseItem) : Digest * Ending :=
  if at_cancelled a 0 then (digest_empty, CancelledAt)
  else match at_stream a prompt with
       | Err e => (digest_empty, FailedWith e)
       | Ok events => digest a 0 digest_empty events
       end.
Definition attempt_items (a : Attempt) (prompt : list ResponseItem) : list ResponseItem :=
  let '(d, e) := attempt_digest a prompt in
  dg_items d ++ (if waits_for_tools e then call_outputs a (dg_calls d) else []).
Definition attempt_outcome (a : Attempt) (prompt : list ResponseItem)
    : result SavfoxError SamplingRequestResult :=
  let '(d, e) := attempt_digest a prompt in ending_result d e.
(** The texts of an attempt are no longer than a Rust string can be. *)
Definition attempt_sized (a : Attempt) (prompt : list ResponseItem) : Prop :=
  match at_stream a prompt with Ok events => Forall event_sized events | Err _ => True end ∧
  Forall sized (call_outputs a (dg_calls (attempt_digest a prompt).1)).

Lemma attempt_ok a s prompt :
  attempt_sized a prompt →
  ∃ s', try_run a s prompt
        = Some (s', dg_calls (attempt_digest a prompt).1, attempt_outcome a prompt) ∧
        records s (attempt_items a prompt) s'.
Proof.
  intros [Ha Ho]. revert Ho. unfold try_run_sampling_request, attempt_outcome, attempt_items, attempt_digest.
  assert (logs s (persist_rollout_items recording s [RTurnContext (model tc)])) as Hp
    by (apply persist_inert; repeat constructor).
  revert Hp. generalize (persist_rollout_items recording s [RTurnContext (model tc)]). intros s0 Hp.
  destruct (at_cancelled a 0). { intros _. eexists. split; [done|]. by apply records_logs. }
  destruct (at_stream a prompt) as [events|err].
  2: { intros _. eexists. split; [done|]. by apply records_logs. }
  match goal with |- context [Sampling.stream_loop _ _ _ _ _ _ _ _ _ _ _ _ _ ?st0 _] =>
    pose proof (stream_follows s0 a events 0 digest_empty st0) as Hf end.
  destruct (digest a 0 digest_empty events) as [d e]. destruct Hf as (st & Hf & ->); [|done|].
  { split; try done; [constructor|]. cbn. by destruct plan_mode; [|intros [? ?]]. }
  cbn [mbind option_bind fst]. intros Ho. pose proof (follows_records _ _ _ Hf) as Hr.
  pose proof (records_trans recording raw tc _ [] _ _ _ (records_logs _ _ _ _ _ Hp) Hr) as Hr'.
  assert (∀ outcome : result SavfoxError SamplingRequestResult, ∃ s',
    (s1 ← drain_in_flight false recording raw to_text list_to_text is_null mcp_content debug_text tools
            tc a (sm_session st) (sm_calls st);
     s1 ← match outcome, at_diff a with
          | Ok _, Some diff => send_event false recording raw s1 (EvTurnDiff diff)
          | _, _ => Some s1
          end;
     Some (s1, sm_calls st, outcome)) = Some (s', dg_calls d, outcome) ∧
    records s (dg_items d ++ call_outputs a (dg_calls d)) s') as Hdrain.
  { intros outcome. rewrite (follows_calls _ _ _ Hf).
    destruct (drain_records a (sm_session st) (dg_calls d) Ho) as (s1 & -> & H1). cbn [mbind option_bind].
    pose proof (records_trans _ _ _ _ _ _ _ _ Hr' H1) as H2.
    destruct outcome as [|]; [destruct (at_diff a)|]; cbn [mbind option_bind]; try send_quiet;
      eexists; (split; [done|]); first [done|by eapply records_log]. }
  destruct e as [| |err|pending]; cbn [waits_for_tools]; try apply Hdrain.
  rewrite app_nil_r, (follows_calls _ _ _ Hf). by eexists.
Qed.

Lemma records_steps to_json s l s' :
  recording = true → records s l s' → rtc (step raw to_json tc) s s'.
Proof.
  intros -> H. induction H as [|l s1 s2 _ IH Hl|l s1 k s2 _ IH Hk Hr]; [done|..];
    (eapply rtc_r; [exact IH|]); [by apply step_log|by eapply step_record].
Qed.


Lemma stored_out_key policy i j : stored policy i j → out_key j = out_key i.
Proof. by destruct 1. Qed.
Lemma output_recorded i : is_Some (out_key i) → recorded i = true.
Proof. by destruct i; intros [? ?]. Qed.

(** No call is left open. When an attempt ends in any way but a failure of its
    stream (answered, cancelled or cut short), each call it started has its output,
    under the id and kind of the call, in the history that the model is shown next;
    only a fatal error of a tool leaves a call without. *)
Theorem attempt_answers_calls a s prompt s' calls r :
  mcp_handlers tools →
  attempt_sized a prompt →
  try_run a s prompt = Some (s', calls, r) → waits_for_tools (attempt_digest a prompt).2 = true →
  ∀ call, call ∈ calls → (∀ m, handle_tool_call tools call (at_end a call) ≠ Err m) →
  ∃ output, output ∈ items (history s') ∧
            out_key output = Some (family (payload call), call_id call).
Proof.
  intros Hm Ha E Hw call Hc Hf. destruct (attempt_ok a s prompt Ha) as (s1 & E1 & H).
  rewrite E in E1. injection E1 as <- -> _.
  destruct (records_history recording raw tc s _ s' H) as (l & -> & HF).
  destruct (handle_tool_call tools call (at_end a call)) as [ri|m] eqn:Eh; [|by destruct (Hf m)].
  pose proof (handled_key to_text list_to_text is_null mcp_content debug_text tools call _ ri Hm Eh) as Hk.
  assert (to_item ri ∈ filter (λ i, recorded i = true) (attempt_items a prompt)) as Hin.
  { apply list_elem_of_filter. split; [apply output_recorded; by eexists|]. unfold attempt_items.
    destruct (attempt_digest a prompt) as [d e]. cbn in *. rewrite Hw. apply elem_of_app. right.
    apply list_elem_of_omap. exists call. by rewrite Eh. }
  apply list_elem_of_lookup in Hin as [j Hj]. destruct (Forall2_lookup_l _ _ _ _ _ HF Hj) as (y & Hy & Hst).
  exists y. split; [apply elem_of_app; right; by eapply list_elem_of_lookup_2|].
  by rewrite (stored_out_key _ _ _ Hst).
Qed.

(** ** Retries *)
Context (max_retries : Z) (attempts : nat → Attempt) (prompt : list ResponseItem).
#[local] Notation loop :=
  (sampling_loop false recording raw parse_mcp_tool_name to_text list_to_text is_null mcp_content
     debug_text drain_order tools tc turn_id plan_mode max_retries attempts).
#[local] Notation outcome k := (attempt_outcome (attempts k) prompt).
Definition may_retry (r : result SavfoxError SamplingRequestResult) : bool :=
  match r with Ok _ => false | Err e => is_retryable e end.
(** What the attempts from the [k]th on record and start. *)
Definition items_from (k n : nat) : list ResponseItem :=
  concat ((λ i, attempt_items (attempts i) prompt) <$> seq k n).
Definition calls_from (k n : nat) : list ToolCall :=
  concat ((λ i, dg_calls (attempt_digest (attempts i) prompt).1) <$> seq k n).

Lemma loop_stops s1 ws started calls k e :
  is_retryable e = false →
  ∃ s2, logs s1 s2 ∧ ∀ fuel s retries,
    try_run (attempts k) s prompt = Some (s1, calls, Err e) →
    loop (S fuel) k s ws retries started prompt
    = Some (SamplingDone s2 ws (S k) (started ++ calls) (Err e)).
Proof.
  intros He.
  assert (∃ s2, logs s1 s2 ∧ match e with
    | ErrContextWindowExceeded => set_total_tokens_full false recording raw s1 tc = Some s2
    | ErrUsageLimitReached _ (Some l) => update_rate_limits false recording raw s1 l = Some s2
    | _ => s2 = s1
    end) as (s2 & Hl & H2).
  { destruct e as [| | | | |disp [l|]| |]; try by exists s1.
    - destruct (set_total_tokens_full_release recording raw s1 tc) as [s2 E]. exists s2.
      split; [by eapply set_total_tokens_full_logs|done].
    - destruct (update_rate_limits_release recording raw s1 l) as [s2 E]. exists s2.
      split; [by eapply update_rate_limits_logs|done]. }
  exists s2. split; [done|]. intros fuel s retries E. cbn [sampling_loop]. rewrite E. cbn [mbind option_bind].
  destruct e as [| | | | |disp [l|]| |]; try done; subst; rewrite ?H2, ?He; try done.
Qed.

Lemma loop_retries s1 ws started calls k e retries :
  is_retryable e = true → (0 ≤ retries ≤ max_retries)%Z →
  ∃ s2, logs s1 s2 ∧ ∀ fuel s,
    try_run (attempts k) s prompt = Some (s1, calls, Err e) →
    loop (S fuel) k s ws retries started prompt
    = if bool_decide (retries < max_retries)%Z
      then loop fuel (S k) s2 ws (retries + 1) (started ++ calls) prompt
      else if ws then loop fuel (S k) s2 false 0 (started ++ calls) prompt
      else Some (SamplingDone s2 false (S k) (started ++ calls) (Err e)).
Proof.
  intros He Hb.
  assert (∃ s2, logs s1 s2 ∧
    if bool_decide (retries < max_retries)%Z then
      notify_stream_error false recording raw s1 (reconnecting_notice max_retries (retries + 1)) (error_text e)
      = Some s2
    else if ws then send_event false recording raw s1 (EvWarning (fallback_warning e)) = Some s2
    else s2 = s1) as (s2 & Hl & H2).
  { case_bool_decide; [|destruct ws; [|by exists s1]].
    - destruct (send_event_ok recording raw s1 (EvStreamError (reconnecting_notice max_retries (retries + 1)) (error_text e)))
        as (s2 & E & Hl); [done|]. by exists s2.
    - destruct (send_event_ok recording raw s1 (EvWarning (fallback_warning e))) as (s2 & E & Hl); [done|].
      by exists s2. }
  exists s2. split; [done|]. intros fuel s E. cbn [sampling_loop]. rewrite E. cbn [mbind option_bind].
  destruct e as [| | | | |disp lims| |]; try done; rewrite He; cbn [negb];
    (destruct (bool_decide (retries < max_retries)%Z) eqn:Hr;
     [apply bool_decide_eq_true in Hr; rewrite bool_decide_false by lia; cbn [andb]; by rewrite H2
     |apply bool_decide_eq_false in Hr; rewrite bool_decide_true by lia; cbn [andb];
      destruct ws; [by rewrite H2|by rewrite H2]]).
Qed.

(** How many attempts are left, and when the fallback has happened. *)
Definition attempts_before_fallback (retries : Z) : nat := S (Z.to_nat (max_retries - retries)).
Definition attempts_left (ws : bool) (retries : Z) : nat :=
  attempts_before_fallback retries + (if ws then attempts_before_fallback 0 else 0).

(** The loop ends at the first attempt that may not be retried, or at the last. *)
Definition concludes (k : nat) (s : Session) (ws : bool) (retries : Z) (started : list ToolCall)
    (exit : option SamplingExit) : Prop :=
  ∃ n s', n < attempts_left ws retries ∧
    exit = Some (SamplingDone s' (ws && bool_decide (n < attempts_before_fallback retries)) (S (k + n))
                   (started ++ calls_from k (S n)) (outcome (k + n))) ∧
    records s (items_from k (S n)) s' ∧
    (∀ i, i < n → may_retry (outcome (k + i)) = true) ∧
    (may_retry (outcome (k + n)) = true → S n = attempts_left ws retries).

Lemma concludes_now k s s1 s2 ws retries started :
  records s (attempt_items (attempts k) prompt) s1 → logs s1 s2 →
  (may_retry (outcome k) = true → 1 = attempts_left ws retries) →
  concludes k s ws retries started
    (Some (SamplingDone s2 ws (S k) (started ++ dg_calls (attempt_digest (attempts k) prompt).1) (outcome k))).
Proof.
  intros H1 Hl Hlast. exists 0, s2. rewrite Nat.add_0_r.
  split_and!; [unfold attempts_left, attempts_before_fallback; lia| | |lia|done].
  - rewrite bool_decide_true by (unfold attempts_before_fallback; lia). rewrite andb_true_r.
    unfold calls_from. cbn. by rewrite app_nil_r.
  - unfold items_from. cbn. rewrite app_nil_r. by eapply records_log.
Qed.

Lemma concludes_later k s s1 s2 ws ws' retries retries' started exit :
  records s (attempt_items (attempts k) prompt) s1 → logs s1 s2 → may_retry (outcome k) = true →
  attempts_left ws retries = S (attempts_left ws' retries') →
  (∀ n, ws' && bool_decide (n < attempts_before_fallback retries')
        = ws && bool_decide (S n < attempts_before_fallback retries)) →
  concludes (S k) s2 ws' retries' (started ++ dg_calls (attempt_digest (attempts k) prompt).1) exit →
  concludes k s ws retries started exit.
Proof.
  intros H1 Hl Hr Hleft Hws (n & s' & Hn & -> & H' & Hall & Hlast).
  exists (S n), s'. rewrite Hleft, Hws, <- Nat.add_succ_comm.
  split_and!; [lia| | | |by intros ->%Hlast].
  - by rewrite <- (assoc_L (++)).
  - change (items_from k (S (S n))) with (attempt_items (attempts k) prompt ++ items_from (S k) (S n)).
    eapply records_trans; [|exact H']. by eapply records_log.
  - intros [|i] Hi; [by rewrite Nat.add_0_r|]. rewrite <- Nat.add_succ_comm. apply Hall. lia.
Qed.

Lemma loop_spec fuel k s ws retries started :
  (∀ i, attempt_sized (attempts i) prompt) →
  (0 ≤ retries ≤ max_retries)%Z → attempts_left ws retries ≤ fuel →
  concludes k s ws retries started (loop fuel k s ws retries started prompt).
Proof.
  intros Hs. revert k s ws retries started. induction fuel as [|fuel IH];
    intros k s ws retries started Hb Hfuel; [unfold attempts_left, attempts_before_fallback in *; lia|].
  destruct (attempt_ok (attempts k) s prompt (Hs k)) as (s1 & E & H1).
  destruct (outcome k) as [r|e] eqn:Eo.
  { cbn [sampling_loop]. rewrite E. cbn [mbind option_bind]. rewrite <- Eo.
    by eapply concludes_now; [|reflexivity|rewrite Eo]. }
  set (calls := dg_calls (attempt_digest (attempts k) prompt).1) in *.
  destruct (is_retryable e) eqn:He.
  - destruct (loop_retries s1 ws started calls k e retries He Hb) as (s2 & Hl & HL). rewrite (HL fuel s E).
    case_bool_decide as Hr; [|destruct ws].
    + eapply concludes_later; [done|exact Hl|by rewrite Eo| | |apply IH; [lia|]];
        unfold attempts_left, attempts_before_fallback in *; [lia| |lia].
      intros n. f_equal. apply bool_decide_ext. lia.
    + eapply concludes_later; [done|exact Hl|by rewrite Eo| | |apply IH; [lia|]];
        unfold attempts_left, attempts_before_fallback in *; [lia| |lia].
      intros n. cbn [andb]. symmetry. apply bool_decide_eq_false. lia.
    + rewrite <- Eo. eapply concludes_now; [done..|]. intros _. unfold attempts_left, attempts_before_fallback. lia.
  - destruct (loop_stops s1 ws started calls k e He) as (s2 & Hl & HL). rewrite (HL fuel s retries E), <- Eo.
    eapply concludes_now; [done..|]. rewrite Eo. cbn. by rewrite He.
Qed.

(** C27. The retries end. With [max_retries] retries allowed on each transport, a
    request makes at most [max_retries + 1] attempts, and as many again after the
    one fallback from WebSockets; it stops at the first attempt that is answered or
    fails for good, and returns what that attempt gave, so that an error that may
    be retried is only returned when no attempt is left. Every attempt sends the
    prompt of the first; all of them record what they read of their streams. *)
Theorem sampling_request_terminates fuel s ws :
  (∀ i, attempt_sized (attempts i) prompt) → (0 ≤ max_retries)%Z →
  attempts_left ws 0 ≤ fuel →
  ∃ n s' ws', n < attempts_left ws 0 ∧
    run_sampling_request false recording raw parse_mcp_tool_name to_text list_to_text is_null mcp_content
      debug_text drain_order tools tc turn_id plan_mode max_retries attempts fuel s ws false prompt
    = Some (SamplingDone s' ws' (S n) (calls_from 0 (S n)) (outcome n)) ∧
    (ws' = true ↔ ws = true ∧ n < attempts_before_fallback 0) ∧
    records s (items_from 0 (S n)) s' ∧
    (∀ i, i < n → may_retry (outcome i) = true) ∧
    (may_retry (outcome n) = true → S n = attempts_left ws 0).
Proof.
  intros Hs Hm Hfuel. destruct (loop_spec fuel 0 s ws 0 [] Hs) as (n & s' & Hn & E & H); [lia|done|].
  exists n, s', (ws && bool_decide (n < attempts_before_fallback 0)). split_and!; [done|exact E| |apply H..].
  by rewrite andb_true_iff, bool_decide_eq_true.
Qed.
End Refinement.

(** ** A request, attempt by attempt *)
Definition demo_call : ResponseItem := FunctionCall None §"echo" §"{}" §"c1".
Definition demo_attempt (fails : bool) : Attempt :=
  {| at_stream := λ _, Ok [Ok Created; Ok (OutputItemDone demo_call);
                           if fails then Err (ErrStream §"reset") else Ok (ResponseCompleted None)];
     at_cancelled := λ _, false; at_end := λ _, Dispatched; at_pending := false; at_diff := None;
     at_uuid := λ _, §"id" |}.
Definition demo_run (fuel : nat) : option SamplingExit :=
  run_sampling_request false true false demo_mcp_name Ok (λ _, Ok []) (λ _, false) (λ _, None) id
    map_to_list demo_registry demo_tc §"t" false 1 (λ k, demo_attempt (bool_decide (k = 0))) fuel
    (demo_session []) true false [].

Lemma demo_sized fails :
  attempt_sized demo_mcp_name Ok (λ _, Ok []) (λ _, false) (λ _, None) id demo_registry false
    (demo_attempt fails) [].
Proof.
  split; [destruct fails; by repeat constructor|].
  assert (call_outputs Ok (λ _, Ok []) (λ _, false) (λ _, None) id demo_registry (demo_attempt fails)
            (dg_calls (attempt_digest demo_mcp_name false (demo_attempt fails) []).1)
          = [FunctionCallOutput §"c1" (plain_output §"hi" (Some true))]) as ->
    by (destruct fails; by vm_compute).
  by repeat constructor.
Qed.

#[local] Notation demo_try := (try_run_sampling_request false true false demo_mcp_name Ok (λ _, Ok [])
  (λ _, false) (λ _, None) id map_to_list demo_registry demo_tc §"t" false (demo_attempt false)
  (demo_session []) []).
#[local] Notation demo_items := (attempt_items demo_mcp_name Ok (λ _, Ok []) (λ _, false) (λ _, None) id
  demo_registry false (demo_attempt false) []).
#[local] Notation demo_outcome := (attempt_outcome demo_mcp_name false (demo_attempt false) []).
#[local] Notation demo_calls := (dg_calls (attempt_digest demo_mcp_name false (demo_attempt false) []).1).
Definition demo_echo : ToolCall :=
  {| tool_name := §"echo"; call_id := §"c1"; payload := PFunction §"{}" |}.


Lemma attempt_answers_calls_witness :
  match demo_try with
  | Some (s', _, _) => ∃ output, output ∈ items (history s') ∧ out_key output = Some (Fn, §"c1")
  | None => False
  end.
Proof.
  assert (∃ s' r, demo_try = Some (s', [demo_echo], r)) as (s' & r & E) by (eexists _, _; by vm_compute).
  rewrite E.
  apply (attempt_answers_calls true false demo_mcp_name Ok (λ _, Ok []) (λ _, false) (λ _, None) id map_to_list
           demo_registry demo_tc §"t" false (demo_attempt false) (demo_session []) [] s' [demo_echo] r
           demo_mcp_handlers (demo_sized false) E) with (call := demo_echo).
  - by vm_compute.
  - constructor.
  - intros m Hm. by vm_compute in Hm.
Defined.

Lemma sampling_request_terminates_witness :
  ∃ s' ws', demo_run 4 = Some (SamplingDone s' ws' 2
[demo_echo; demo_echo]
      (Ok {| needs_follow_up := true; last_agent_message := None |})) ∧ ws' = true.
Proof.
  destruct (sampling_request_terminates true false demo_mcp_name Ok (λ _, Ok []) (λ _, false) (λ _, None) id
      map_to_list demo_registry demo_tc §"t" false 1 (λ k, demo_attempt (bool_decide (k = 0))) [] 4
      (demo_session []) true) as (n & s' & ws' & Hn & E & Hws & _ & Hall & Hlast).
  - intros i. apply demo_sized.
  - done.
  - done.
  - assert (n = 1) as ->.
    { destruct n as [|[|n]]; [|done|].
      - assert (2 = 4 → False) as Hne by lia. exfalso. apply Hne. by specialize (Hlast eq_refl).
      - exfalso. assert (1 < S (S n)) as Hlt by lia. pose proof (Hall 1 Hlt) as Hc. by vm_compute in Hc. }
    exists s', ws'. split; [exact E|]. apply Hws. split; [done|]. unfold attempts_before_fallback. cbn. lia.
Defined.

(** The stream fails after a call was started: the answer to the call is not waited
    for, the prompt of the retry does not know of the call, and the same work is
    asked for and done twice. *)
Example retry_repeats_calls :
  match demo_run 4 with
  | Some (SamplingDone s _ n calls _) =>
      n = 2 ∧ length calls = 2 ∧
      items (history s)
      = [demo_call; demo_call; FunctionCallOutput §"c1" (plain_output §"hi" (Some true))]
  | _ => False
  end.
Proof. by vm_compute. Qed.
