(* ===== verification/Turn.v ===== *)
(** * A turn of the agent ([core/src/savfox/tool_orchestrator.rs]: [run_turn])

    A turn records what the user said and asks the model until it answers without
    calling a tool, compacting the history when its tokens reach the limit. What
    the world does between two requests is a [TurnStep]: the input that arrived,
    the attempts of the request, the service that compacts. *)
From stdpp Require Import gmap.
From S2P Require Import Prelude RustStr MachInt Truncate Protocol Normalize History EventMapping Session ModelApi Compaction Resume Approval ToolRouter PlanMode Sampling.

(** [ModelInfo::auto_compact_token_limit]; [configured] and [window] are the
    model's. Without either there is no limit. *)
Definition auto_compact_token_limit (debug : bool) (configured window : option Z)
    : option (option Z) :=
  match configured with
  | Some limit => Some (Some limit)
  | None => match window with
            | Some w => p ← i64_arith debug (w * 9)%Z; Some (Some (Z.quot p 10))
            | None => Some None
            end
  end.
Definition auto_compact_limit (debug : bool) (configured window : option Z) : option Z :=
  limit ← auto_compact_token_limit debug configured window; Some (default I64_MAX limit).

(** The user messages of the prompt, for the notification. *)
Definition input_messages (uuid : str) (prompt : list ResponseItem) : list str :=
  omap (λ item, match parse_turn_item uuid item with
                | Some (TUserMessage u) => Some (message u)
                | _ => None
                end) prompt.

(** A turn that ended: its last message, and the messages of the user that the
    notification carries when the model answered. *)
Inductive TurnExit :=
| TurnOutOfFuel
| TurnDone (s : Session) (last_agent_message : option str) (notified : option (list str)).

Section Turn.
Context (debug recording show_raw_agent_reasoning : bool) (to_json : ResponseItem → str).
Context (parse_mcp_tool_name : str → option (str * str)).
Context {Value : Type} (to_text : Value → result str str) (list_to_text : list Value → result str str)
        (is_null : Value → bool) (mcp_content : Value → option McpContent) (debug_text : str → str).
Context (drain_order : gmap str ProposedPlanParser → list (str * ProposedPlanParser)).

(** What happens around one request of a turn. *)
Record TurnStep := {
  ts_pending : list (ResponseInputItem Value);  (* the input that arrived *)
  ts_tools : ToolRegistry Value;
  ts_cancelled : bool;                          (* while the tools are listed *)
  ts_attempts : nat → Attempt;
  ts_stream : nat → list ResponseItem → Stream; (* the service, for a local compaction *)
  ts_compact : list ResponseItem → result SavfoxError (list ResponseItem);
  ts_uuid : str;
}.
Context (tc : TurnContext) (turn_id : str) (plan_mode : bool).
Context (max_retries : Z) (remote : bool) (compact_prompt : str).
#[local] Notation send_event := (send_event debug recording show_raw_agent_reasoning).
#[local] Notation record_conversation_items :=
  (record_conversation_items debug recording show_raw_agent_reasoning).
#[local] Notation to_item := (to_response_item to_text list_to_text is_null mcp_content debug_text).

(** Enough fuel for a request and for a compaction. *)
Definition sampling_fuel : nat := S (Z.to_nat max_retries) + S (Z.to_nat max_retries).
Definition compact_fuel (s : Session) : nat :=
  S (length (items (history s))) * S (Z.to_nat max_retries).

Definition auto_compact (w : TurnStep) (s : Session) : option Session :=
  run_auto_compact debug recording show_raw_agent_reasoning to_json max_retries (ts_stream w)
    (ts_compact w) (compact_fuel s) remote s tc (ts_uuid w) compact_prompt.
Definition token_limit_reached (limit : Z) (s : Session) : bool :=
  bool_decide (limit
               ≤ get_total_token_usage to_json (history s) (server_reasoning_included s))%Z.

(** What follows a request. *)
Inductive TurnFlow := NextRequest (s : Session) | EndTurn (s : Session) (last : option str) (answered : bool).
Definition after_request (limit : Z) (w : TurnStep) (s : Session) (r : result SavfoxError SamplingRequestResult)
    : option TurnFlow :=
  match r with
  | Ok output =>
      if token_limit_reached limit s && needs_follow_up output then
        s ← auto_compact w s; Some (NextRequest s)
      else if negb (needs_follow_up output) then Some (EndTurn s (last_agent_message output) true)
      else Some (NextRequest s)
  | Err ErrTurnAborted => Some (EndTurn s None false)
  | Err ErrInvalidImageRequest =>
      '(s, again) ← handle_invalid_image debug recording show_raw_agent_reasoning s;
      Some (if again : bool then NextRequest s else EndTurn s None false)
  | Err e => s ← send_event s (to_error_event e None); Some (EndTurn s None false)
  end.

Context (steps : nat → TurnStep).

Fixpoint turn_loop (limit : Z) (fuel k : nat) (s : Session) (websockets : bool) : option TurnExit :=
  match fuel with
  | O => Some TurnOutOfFuel
  | S fuel =>
      let w := steps k in
      s ← record_conversation_items s tc (map to_item (ts_pending w));
      prompt ← for_prompt debug (history s);
      exit ← run_sampling_request debug recording show_raw_agent_reasoning parse_mcp_tool_name to_text
               list_to_text is_null mcp_content debug_text drain_order (ts_tools w) tc turn_id plan_mode
               max_retries (ts_attempts w) sampling_fuel s websockets (ts_cancelled w) prompt;
      match exit with
      | SamplingOutOfFuel => Some TurnOutOfFuel
      | SamplingDone s websockets _ _ r =>
          flow ← after_request limit w s r;
          match flow with
          | NextRequest s => turn_loop limit fuel (S k) s websockets
          | EndTurn s last answered =>
              Some (TurnDone s last (if answered : bool then Some (input_messages (ts_uuid w) prompt) else None))
          end
      end
  end.

Fixpoint send_warnings (s : Session) (messages : list str) : option Session :=
  match messages with
  | [] => Some s
  | m :: rest => s ← send_event s (EvWarning m); send_warnings s rest
  end.

(** [run_turn]; [configured] and [window] are what the model says of its context, [start] is what happens before the first request, [cancelled] that
    the turn was cancelled while the connectors were listed; the items and warnings
    of the skills the input mentions are data. *)
Definition run_turn (configured window : option Z) (fuel : nat) (s : Session) (websockets : bool) (start : TurnStep)
    (cancelled : bool) (skill_warnings : list str) (skill_items : list ResponseItem)
    (load_image : str → LoadedImage) (mime_guess : str → option str) (input : list UserInput) : option TurnExit :=
  match input with
  | [] => Some (TurnDone s None None)
  | _ =>
      limit ← auto_compact_limit debug configured window;
      let compact := token_limit_reached limit s in
      s ← send_event s (EvTurnStarted (context_window tc));
      s ← if compact then auto_compact start s else Some s;
      if cancelled then Some (TurnDone s None None)
      else
        s ← send_warnings s skill_warnings;
        s ← record_user_prompt_and_emit_turn_item debug recording show_raw_agent_reasoning s tc
              (ts_uuid start) input (from_user_input load_image mime_guess input);
        s ← match skill_items with [] => Some s | _ => record_conversation_items s tc skill_items end;
        turn_loop limit fuel 0 s websockets
  end.
End Turn.

(** * Correctness *)

(** ** Texts stay within bounds *)
Lemma collect_user_text t m : collect_user_message (user_text t) = Some m → m = t.
Proof.
  unfold collect_user_message. intros H.
  assert (collect_turn_aborted_marker (user_text t) = Some m → m = t) as Hmark.
  { unfold collect_turn_aborted_marker, user_text, content_items_to_text. rewrite bool_decide_true by done.
    cbn [negb omap list_omap text_piece]. case_bool_decide; [done|]. cbn [join mbind option_bind].
    destruct (starts_with _ _); [|done]. by intros [= <-]. }
  destruct (parse_turn_item [] (user_text t)) as [[u| | | | | |]|] eqn:E; auto.
  apply parse_user_text in E. destruct (is_summary_message (message u)); [done|]. injection H as <-. exact E.
Qed.
Lemma bounded_user_text t : (zstr t ≤ ISIZE_MAX)%Z → bounded (user_text t).
Proof. by intros Ht m ->%collect_user_text. Qed.
Lemma bounded_summary t : is_summary_message t = true → bounded (user_text t).
Proof.
  intros Ht m H. pose proof (collected_not_summary _ _ H) as Hs. apply collect_user_text in H as ->. congruence.
Qed.
Lemma bounded_ghosts l : Forall bounded (ghost_snapshots l).
Proof.
  apply Forall_forall. intros i [Hi _]%list_elem_of_filter m. by destruct i.
Qed.

Lemma kept_bounded budget ms out :
  (budget ≤ COMPACT_USER_MESSAGE_MAX_TOKENS)%Z → kept budget ms out →
  Forall (λ m, zstr m ≤ ISIZE_MAX)%Z ms → Forall (λ m, zstr m ≤ ISIZE_MAX)%Z out.
Proof.
  intros Hb. apply kept_Forall. intros m t n _ Hn Ht Hm. unfold COMPACT_USER_MESSAGE_MAX_TOKENS in Hb.
  assert (valid_policy (Tokens n)) as Hv by (cbn; unfold USIZE_MAX; lia).
  destruct (truncate_text_le m (Tokens n) t Hv Hm Ht) as [|H]; [lia|]. etrans; [exact H|].
  cbn. unfold approx_bytes_for_tokens, usat_mul, APPROX_BYTES_PER_TOKEN, USIZE_MAX, ISIZE_MAX. lia.
Qed.

(** The texts of the user in the history of the session are Rust strings. *)
Definition history_ok (s : Session) : Prop := Forall bounded (items (history s)).

Lemma logs_ok s s' : logs s s' → history_ok s → history_ok s'.
Proof. intros [Hi _]. unfold history_ok. by rewrite Hi. Qed.
Lemma extends_ok s s' : extends bounded s s' → history_ok s → history_ok s'.
Proof. intros (l & Hi & Hl & _) H. unfold history_ok. rewrite Hi. by apply Forall_app. Qed.
Lemma records_keep recording raw tc s l s' :
  records recording raw tc s l s' → Forall bounded l → history_ok s → history_ok s'.
Proof.
  intros H Hl Hs. destruct (records_history recording raw tc s l s' H) as (l' & Hi & HF).
  unfold history_ok. rewrite Hi. apply Forall_app. split; [done|]. apply Forall_forall. intros y Hy.
  apply list_elem_of_lookup in Hy as [j Hj]. destruct (Forall2_lookup_r _ _ _ _ _ HF Hj) as (x & Hx & Hst).
  eapply bounded_stored; [exact Hst|]. apply list_elem_of_lookup_2, list_elem_of_filter in Hx as [_ Hx].
  rewrite Forall_forall in Hl. by apply Hl.
Qed.

Lemma images_ok m ph : Forall bounded (items m) → Forall bounded (items (replace_last_turn_images m ph).2).
Proof.
  intros Hm. unfold replace_last_turn_images. destruct (rposition _ _) as [i|]; [|done].
  destruct (items m !! i) as [x|]; [|done]. destruct x; try done.
  destruct (content_items _); [|done]. cbn. apply Forall_insert; [done|]. by intros ? [=].
Qed.

(** ** The parts of a turn always return *)
Section Ends.
Context (recording raw : bool) (to_json : ResponseItem → str).
Context (parse_mcp_tool_name : str → option (str * str)).
Context {Value : Type} (to_text : Value → result str str) (list_to_text : list Value → result str str)
        (is_null : Value → bool) (mcp_content : Value → option McpContent) (debug_text : str → str).
Context (drain_order : gmap str ProposedPlanParser → list (str * ProposedPlanParser)).
Context (tc : TurnContext) (turn_id : str) (plan_mode : bool).
Context (max_retries : Z) (remote : bool) (compact_prompt : str).
Context (max_retries_nonneg : (0 ≤ max_retries)%Z) (context_ok : Forall bounded (initial_context tc)).
#[local] Notation to_item := (to_response_item to_text list_to_text is_null mcp_content debug_text).
#[local] Notation auto_compact :=
  (auto_compact (Value:=Value) false recording raw to_json tc max_retries remote compact_prompt).

Lemma compacted_ok s1 s' : compacted recording tc s1 s' → history_ok s1 → history_ok s'.
Proof.
  intros (out & new & r1 & r2 & _ & Hk & -> & Hi & _) H. unfold history_ok. rewrite Hi.
  apply Forall_app. split; [|apply bounded_ghosts]. apply Forall_app. split; [done|].
  apply Forall_app. split.
  - apply Forall_fmap, Forall_reverse. eapply Forall_impl; [|apply bounded_user_text].
    eapply kept_bounded; [done|exact Hk|]. apply Forall_reverse. by apply texts_ok_bounded in H.
  - repeat constructor. apply bounded_summary, starts_with_true. unfold summary_of. by rewrite (assoc_L (++)); eexists.
Qed.

Definition compact_ok (w : TurnStep (Value:=Value)) : Prop :=
  stream_ok (ts_stream w) bounded ∧ ∀ prompt l, ts_compact w prompt = Ok l → Forall bounded l.

Lemma remote_ok w s :
  compact_ok w → history_ok s →
  ∃ s', run_remote_compact_task_inner false recording raw to_json (ts_compact w) s tc (ts_uuid w) = Some s' ∧
        history_ok s'.
Proof.
  intros [_ Hc] Hs. unfold run_remote_compact_task_inner, run_remote_compact_task_inner_impl,
    emit_turn_item_started, emit_turn_item_completed.
  destruct (send_event_ok recording raw s (EvItemStarted (TContextCompaction (ts_uuid w)))) as (s1 & -> & H1); [done|].
  cbn [mbind option_bind].
  assert (∃ n h, trim_function_call_history_to_fit_context_window to_json (history s1) tc = Some (n, h))
    as (n & h & ->).
  { unfold trim_function_call_history_to_fit_context_window. destruct (context_window tc) as [window|]; [|eauto].
    destruct (trim_items_spec to_json tc window (length (items (history s1))) (history s1) 0 (le_n _))
      as (n & h & E & _). eauto. }
  cbn [mbind option_bind]. assert (∃ p, for_prompt false h = Some p) as [p ->]
    by (unfold for_prompt; rewrite normalize_history_release; eexists; done).
  cbn [mbind option_bind]. destruct (ts_compact w p) as [l|e] eqn:E.
  - set (s2 := replace_history s1 _).
    destruct (recompute_release recording raw to_json s2 tc) as [s3 E3]. rewrite E3. cbn [mbind option_bind].
    set (s4 := persist_rollout_items recording s3 _).
    destruct (send_event_ok recording raw s4 (EvItemCompleted (TContextCompaction (ts_uuid w)))) as (s5 & -> & H5); [done|].
    cbn [mbind option_bind]. eexists. split; [done|]. eapply logs_ok; [exact H5|].
    assert (items (history s4) = items (history s3)) as Hi
      by (unfold s4, persist_rollout_items; by destruct recording).
    unfold history_ok. rewrite Hi. apply recompute_logs in E3 as [-> _]. cbn.
    apply Forall_app. split; [by eapply Hc|apply bounded_ghosts].
  - cbn [mbind option_bind].
    destruct (send_event_ok recording raw s1 (to_error_event e (Some §"Error running remote compact task")))
      as (s2 & -> & H2); [done|]. exists s2. split; [done|]. eapply logs_ok; [|exact Hs]. by etrans.
Qed.

Lemma auto_compact_ok w s :
  compact_ok w → history_ok s → ∃ s', auto_compact w s = Some s' ∧ history_ok s'.
Proof.
  intros Hw Hs. unfold Turn.auto_compact, run_auto_compact. destruct remote; [by apply remote_ok|].
  destruct (run_compact_task_spec recording raw to_json max_retries (ts_stream w) bounded bounded_stored
    (λ _ H, H) (compact_fuel max_retries s) s tc (ts_uuid w) [CInputText compact_prompt])
    as (exit & prompts & -> & He & _); [done|apply Hw|by apply texts_ok_bounded|done|].
  cbn [mbind option_bind]. destruct exit as [|s'|s']; [done|..]; exists s'; (split; [done|]).
  - destruct He as (s1 & Hx & Hc). eapply compacted_ok; [exact Hc|]. by eapply extends_ok.
  - by eapply extends_ok.
Qed.

#[local] Notation attempt_outcome w i prompt :=
  (attempt_outcome parse_mcp_tool_name plan_mode (ts_attempts w i) prompt).
#[local] Notation attempt_items w i prompt :=
  (attempt_items parse_mcp_tool_name to_text list_to_text is_null mcp_content debug_text (ts_tools w)
     plan_mode (ts_attempts w i) prompt).

(** The texts that reach the session in a step are Rust strings. *)
Record step_ok (w : TurnStep (Value:=Value)) : Prop := {
  step_pending : Forall (λ i, sized (to_item i) ∧ bounded (to_item i)) (ts_pending w);
  step_sized i prompt :
    attempt_sized parse_mcp_tool_name to_text list_to_text is_null mcp_content debug_text (ts_tools w)
      plan_mode (ts_attempts w i) prompt;
  step_bounded i prompt : Forall bounded (attempt_items w i prompt);
  step_compact : compact_ok w;
}.

(** An outcome that ends the turn. *)
Definition final (r : result SavfoxError SamplingRequestResult) : bool :=
  match r with
  | Ok output => negb (needs_follow_up output)
  | Err ErrInvalidImageRequest => false
  | Err _ => true
  end.
(** A step in which the turn is cancelled, or every answer of the model is final. *)
Definition settles (w : TurnStep (Value:=Value)) : Prop :=
  ts_cancelled w = true ∨ ∀ i prompt, final (attempt_outcome w i prompt) = true.

Lemma record_keeps s l :
  Forall sized l → Forall bounded l → history_ok s →
  ∃ s', record_conversation_items false recording raw s tc l = Some s' ∧ history_ok s'.
Proof.
  intros Hs Hb H. destruct (record_ok recording raw tc s l Hs) as (s' & -> & Hr). exists s'.
  split; [done|]. by eapply records_keep.
Qed.

(** What a request gives: the outcome of one of its attempts, or an interruption. *)
Definition request_gave (w : TurnStep (Value:=Value)) (prompt : list ResponseItem)
    (r : result SavfoxError SamplingRequestResult) : Prop :=
  (ts_cancelled w = true ∧ r = Err ErrTurnAborted) ∨
  (ts_cancelled w = false ∧ ∃ i, r = attempt_outcome w i prompt).

Lemma request_ok w s ws prompt :
  step_ok w → history_ok s →
  ∃ s' ws' n calls r,
    run_sampling_request false recording raw parse_mcp_tool_name to_text list_to_text is_null mcp_content
      debug_text drain_order (ts_tools w) tc turn_id plan_mode max_retries (ts_attempts w)
      (sampling_fuel max_retries) s ws (ts_cancelled w) prompt
    = Some (SamplingDone s' ws' n calls r) ∧ history_ok s' ∧ request_gave w prompt r.
Proof.
  intros Hw Hs. unfold run_sampling_request. destruct (ts_cancelled w) eqn:Ec.
  { eexists _, _, _, _, _. split; [done|]. split; [done|]. by left. }
  destruct (loop_spec recording raw parse_mcp_tool_name to_text list_to_text is_null mcp_content debug_text
    drain_order (ts_tools w) tc turn_id plan_mode max_retries (ts_attempts w) prompt
    (sampling_fuel max_retries) 0 s ws 0 []) as (n & s' & Hn & -> & Hr & _).
  - intros i. apply Hw.
  - lia.
  - unfold attempts_left, attempts_before_fallback, sampling_fuel. rewrite Z.sub_0_r. destruct ws; lia.
  - eexists _, _, _, _, _. split; [done|]. split; [|right; split; [done|]; by eexists].
    eapply records_keep; [exact Hr| |done]. unfold items_from. apply Forall_concat, Forall_fmap, Forall_forall.
    intros i _. apply Hw.
Qed.

Definition flow_ok (flow : TurnFlow) : Prop :=
  match flow with NextRequest s | EndTurn s _ _ => history_ok s end.
(** How a request ends the turn. *)
Definition ends_with (r : result SavfoxError SamplingRequestResult) (flow : TurnFlow) : Prop :=
  match flow with
  | NextRequest _ => final r = false
  | EndTurn _ last true => r = Ok {| needs_follow_up := false; last_agent_message := last |}
  | EndTurn _ last false => last = None
  end.

Lemma after_request_ok limit w s r :
  step_ok w → history_ok s →
  ∃ flow, after_request false recording raw to_json tc max_retries remote compact_prompt limit w s r
          = Some flow ∧ flow_ok flow ∧ ends_with r flow.
Proof.
  intros Hw Hs. destruct r as [[follow last]|e].
  - cbn [after_request needs_follow_up]. destruct follow.
    + rewrite andb_true_r. destruct (token_limit_reached to_json limit s); [|by eexists].
      destruct (auto_compact_ok w s (step_compact w Hw) Hs) as (s' & -> & H'). by eexists.
    + rewrite andb_false_r. by eexists.
  - assert (∃ s', send_event false recording raw s (to_error_event e None) = Some s' ∧ history_ok s')
      as (s' & E & H').
    { destruct (send_event_ok recording raw s (to_error_event e None)) as (s' & E & Hl); [done|].
      exists s'. split; [done|]. by eapply logs_ok. }
    destruct e; cbn [after_request]; try (rewrite E; by eexists); [by eexists|].
    unfold handle_invalid_image. pose proof (images_ok (history s) §"Invalid image" Hs) as Hi.
    destruct (replace_last_turn_images (history s) §"Invalid image") as [[] h]; cbn [snd] in Hi; [by eexists|].
    destruct (send_event_ok recording raw (with_history s h)
      (EvError §"Invalid image in your last message. Please remove it and try again.")) as (s2 & -> & Hl); [done|].
    eexists. split; [done|]. split; [|done]. by eapply logs_ok.
Qed.

(** ** The loop *)
Context (steps : nat → TurnStep (Value:=Value)).
#[local] Notation turn_loop :=
  (turn_loop false recording raw to_json parse_mcp_tool_name to_text list_to_text is_null mcp_content
     debug_text drain_order tc turn_id plan_mode max_retries remote compact_prompt steps).

(** A turn that ended: with the last message of the answer that ended it, and the
    messages of the prompt of that request. *)
Definition turn_ended (n : nat) (exit : option TurnExit) : Prop :=
  ∃ s' last notified, exit = Some (TurnDone s' last notified) ∧ history_ok s' ∧
    match notified with
    | Some messages => ∃ k i prompt, k ≤ n ∧
        attempt_outcome (steps k) i prompt = Ok {| needs_follow_up := false; last_agent_message := last |} ∧
        messages = input_messages (ts_uuid (steps k)) prompt
    | None => last = None
    end.

(** One request, from the top of the loop: the turn goes on, in a step that does
    not settle it, or ends. *)
Lemma turn_step_ends limit fuel k s ws :
  step_ok (steps k) → history_ok s →
  (∃ s' ws', turn_loop limit (S fuel) k s ws = turn_loop limit fuel (S k) s' ws' ∧ history_ok s' ∧
             ¬ settles (steps k)) ∨
  (∀ n, k ≤ n → turn_ended n (turn_loop limit (S fuel) k s ws)).
Proof.
  intros Hok Hs. cbn [Turn.turn_loop]. pose proof (step_pending _ Hok) as Hp.
  destruct (record_keeps s (map to_item (ts_pending (steps k)))) as (s1 & -> & H1);
    [apply Forall_fmap; eapply Forall_impl; [exact Hp|by intros ? []]..|done|].
  cbn [mbind option_bind]. assert (∃ p, for_prompt false (history s1) = Some p) as [p ->]
    by (unfold for_prompt; rewrite normalize_history_release; eexists; done).
  cbn [mbind option_bind].
  destruct (request_ok (steps k) s1 ws p Hok H1) as (s2 & ws2 & m & calls & r & -> & H2 & Hr).
  cbn [mbind option_bind].
  destruct (after_request_ok limit (steps k) s2 r Hok H2) as (flow & -> & Hf & He).
  cbn [mbind option_bind]. destruct flow as [s3|s3 last answered]; cbn in Hf, He.
  - left. exists s3, ws2. split_and!; [done..|]. intros [Hn|Hn]; destruct Hr as [[Hc ->]|(Hc & i & ->)]; try done.
    + congruence.
    + by rewrite Hn in He.
  - right. intros n Hn. eexists s3, last, _. split_and!; [done..|]. destruct answered; [|done]. subst r.
    destruct Hr as [[_ ?]|(_ & i & Hi)]; [done|]. by exists k, i, p.
Qed.

Lemma turn_loop_ends limit n d fuel k s ws :
  (∀ i, step_ok (steps i)) → settles (steps n) → n = k + d → d < fuel → history_ok s →
  turn_ended n (turn_loop limit fuel k s ws).
Proof.
  intros Hok Hn. revert fuel k s ws. induction d as [|d IH]; intros [|fuel] k s ws Hd Hf Hs; try lia;
    (destruct (turn_step_ends limit fuel k s ws (Hok k) Hs) as [(s' & ws' & -> & H' & Hns)|He];
     [|apply He; lia]).
  - exfalso. apply Hns. by replace k with n by lia.
  - apply IH; [lia|lia|done].
Qed.

Lemma warnings_ok s l :
  ∃ s', send_warnings false recording raw s l = Some s' ∧ logs s s'.
Proof.
  revert s. induction l as [|m l IH]; intros s; [by exists s|]. cbn [send_warnings].
  destruct (send_event_ok recording raw s (EvWarning m)) as (s1 & -> & H1); [done|]. cbn [mbind option_bind].
  destruct (IH s1) as (s2 & -> & H2). exists s2. split; [done|]. by etrans.
Qed.

End Ends.

(** ** A turn with one tool call *)
Definition demo_answer : Attempt :=
  {| at_stream := λ _, Ok [Ok (OutputItemDone (demo_assistant §"done")); Ok (ResponseCompleted None)];
     at_cancelled := λ _, false; at_end := λ _, Dispatched; at_pending := false; at_diff := None;
     at_uuid := λ _, §"id" |}.
Definition demo_step (k : nat) : TurnStep (Value:=str) :=
  {| ts_pending := []; ts_tools := demo_registry; ts_cancelled := false;
     ts_attempts := λ i, match k with 0 => demo_attempt (bool_decide (i = 0)) | _ => demo_answer end;
     ts_stream := λ _ _, Err ErrInterrupted; ts_compact := λ _, Err ErrInterrupted; ts_uuid := §"id" |}.
#[local] Notation demo_turn := (run_turn false true false (λ _, []) demo_mcp_name Ok (λ _, Ok []) (λ _, false)
  (λ _, None) id map_to_list demo_tc §"t" false 1 false §"summarize" demo_step None (Some 1000%Z) 2
  (demo_session []) true (demo_step 0) false [] [] (λ _, ImageOtherError []) (λ _, None) [UText §"hi" []]).

Lemma demo_items_bounded k i prompt :
  Forall bounded (attempt_items demo_mcp_name Ok (λ _, Ok []) (λ _, false) (λ _, None) id demo_registry false
                    (ts_attempts (demo_step k) i) prompt).
Proof.
  assert (∀ item, collect_user_message item = None → bounded item) as Hn by (intros item E m; by rewrite E).
  destruct k as [|k]; [|by repeat constructor; apply Hn].
  cbn [ts_attempts demo_step]. destruct (bool_decide (i = 0)); repeat constructor; by apply Hn.
Qed.
Lemma demo_step_ok k :
  step_ok demo_mcp_name Ok (λ _, Ok []) (λ _, false) (λ _, None) id false (demo_step k).
Proof.
  split; [done| |apply demo_items_bounded|by split].
  intros i prompt. destruct k as [|k]; [apply demo_sized|]. by split; repeat constructor.
Qed.


(** An image that the model refuses is replaced in memory only: a session resumed
    from the rollout has it again. A debug build stops with a panic instead. *)
Definition demo_image : ResponseItem :=
  FunctionCallOutput §"c1" {| content := §"image"; content_items := Some [InputImage §"data:x"]; success := Some true |}.
Example invalid_image_not_in_rollout :
  match record_conversation_items false true false (demo_session []) demo_tc [demo_call; demo_image] with
  | Some s =>
      handle_invalid_image true true false s = None ∧
      match handle_invalid_image false true false s with
      | Some (s', again) =>
          again = true ∧
          items (history s') = [demo_call; FunctionCallOutput §"c1"
            {| content := §"image"; content_items := Some [InputText §"Invalid image"]; success := Some true |}] ∧
          reconstruct_history_from_rollout false demo_tc (rollout s') = Some [demo_call; demo_image]
      | None => False
      end
  | None => False
  end.
Proof. by vm_compute. Qed.
