(* ===== verification/Tasks.v ===== *)
(** * The life of a task ([core/src/tasks/mod.rs], [core/src/state/turn.rs]; the
    submissions of [core/src/savfox/task_coordinator.rs])

    A session runs one task at a time. The submission loop (the coordinator) starts
    tasks and aborts them; each task runs beside it. They meet in [active_turn],
    behind a lock: who takes a task out of it ends the turn. Every section under the
    lock, and every action between two awaits, is one step here; the steps of the
    coordinator and of the tasks interleave freely. *)
From stdpp Require Import gmap list strings.
From S2P Require Import Prelude RustStr Session.

Section Tasks.
(** Input that is waiting for the model. *)
Context {Input : Type}.

(** ** [TurnState] and [ActiveTurn] *)
(** Of the channels that wait for an answer only their keys are kept. *)
Record TurnState := {
  pending_approvals : gset str;
  pending_user_input : gset str;
  pending_dynamic_tools : gset str;
  pending_input : list Input;
}.
Definition turn_state_new : TurnState :=
  {| pending_approvals := ∅; pending_user_input := ∅; pending_dynamic_tools := ∅; pending_input := [] |}.
Definition clear_pending (ts : TurnState) : TurnState :=
  {| pending_approvals := ∅; pending_user_input := ∅; pending_dynamic_tools := ∅; pending_input := [] |}.
Definition push_pending_input (ts : TurnState) (input : Input) : TurnState :=
  {| pending_approvals := pending_approvals ts; pending_user_input := pending_user_input ts;
     pending_dynamic_tools := pending_dynamic_tools ts; pending_input := pending_input ts ++ [input] |}.
Definition take_pending_input (ts : TurnState) : list Input * TurnState :=
  (pending_input ts,
   {| pending_approvals := pending_approvals ts; pending_user_input := pending_user_input ts;
      pending_dynamic_tools := pending_dynamic_tools ts; pending_input := [] |}).
Definition has_pending_input (ts : TurnState) : bool := negb (bool_decide (length (pending_input ts) = 0)).

(** The running tasks, by the identifier of their turn, in an [IndexMap]. *)
Record ActiveTurn := { tasks : list str; turn_state : TurnState }.
Definition active_turn_new : ActiveTurn := {| tasks := []; turn_state := turn_state_new |}.
Definition add_task (at_ : ActiveTurn) (sub_id : str) : ActiveTurn :=
  {| tasks := if bool_decide (sub_id ∈ tasks at_) then tasks at_ else tasks at_ ++ [sub_id];
     turn_state := turn_state at_ |}.
(** [swap_remove]: the last task takes the place of the removed one. *)
Definition swap_remove (l : list str) (sub_id : str) : option (list str) :=
  match list_find (λ i, i = sub_id) l with
  | None => None
  | Some (idx, _) =>
      Some (if bool_decide (S idx = length l) then take idx l
            else match last l with
                 | Some x => <[idx := x]> (take (length l - 1) l)
                 | None => l
                 end)
  end.
Definition remove_task (at_ : ActiveTurn) (sub_id : str) : option ActiveTurn :=
  l ← swap_remove (tasks at_) sub_id; Some {| tasks := l; turn_state := turn_state at_ |}.

(** ** A running system *)
(** Where the process of a task is: registered but not started; in [run]; back from
    it; past the check of its cancellation; past the lock of [on_task_finished],
    with its event still to send; ended. *)
Inductive Phase :=
| Created
| Running
| Returned (m : option str)
| Committed (m : option str)
| Completing (m : option str)
| Over.
(** [token_cancelled]: its cancellation token; [aborted]: its handle, which stops
    the process at an await. *)
Record Proc := { phase : Phase; token_cancelled : bool; aborted : bool }.

(** What the coordinator is doing: waiting for a submission; aborting the tasks it
    took, one after the other, before it starts the task [next]; starting it. *)
Inductive Coord :=
| Ready
| Aborting (taken : list str) (reason : TurnAbortReason) (next : option str)
| AwaitDone (sub_id : str) (taken : list str) (reason : TurnAbortReason) (next : option str)
| Aborted (sub_id : str) (taken : list str) (reason : TurnAbortReason) (next : option str)
| Registering (sub_id : str)
| Starting (sub_id : str).

Inductive Terminal := TurnCompleteEvent (last_agent_message : option str) | TurnAbortedEvent (reason : TurnAbortReason).

(** [log]: the terminal events that were sent; [accepted] and [delivered]: the input
    that [inject_input] took and the input that a task was given. *)
Record World := {
  active_turn : option ActiveTurn;
  procs : gmap str Proc;
  coord : Coord;
  log : list (str * Terminal);
  accepted : list Input;
  delivered : list Input;
}.
Definition world_new : World :=
  {| active_turn := None; procs := ∅; coord := Ready; log := []; accepted := []; delivered := [] |}.

Definition set_active (w : World) (a : option ActiveTurn) : World :=
  {| active_turn := a; procs := procs w; coord := coord w; log := log w; accepted := accepted w;
     delivered := delivered w |}.
Definition set_coord (w : World) (c : Coord) : World :=
  {| active_turn := active_turn w; procs := procs w; coord := c; log := log w; accepted := accepted w;
     delivered := delivered w |}.
Definition set_proc (w : World) (sub_id : str) (p : Proc) : World :=
  {| active_turn := active_turn w; procs := <[sub_id := p]> (procs w); coord := coord w; log := log w;
     accepted := accepted w; delivered := delivered w |}.
Definition send (w : World) (sub_id : str) (e : Terminal) : World :=
  {| active_turn := active_turn w; procs := procs w; coord := coord w; log := log w ++ [(sub_id, e)];
     accepted := accepted w; delivered := delivered w |}.

Definition in_phase (p : Proc) (ph : Phase) : Proc :=
  {| phase := ph; token_cancelled := token_cancelled p; aborted := aborted p |}.
Definition cancel (p : Proc) : Proc :=
  {| phase := phase p; token_cancelled := true; aborted := aborted p |}.
Definition abort (p : Proc) : Proc :=
  {| phase := phase p; token_cancelled := token_cancelled p; aborted := true |}.

(** ** The sections under the lock *)
Definition take_all_running_tasks (w : World) : list str * World :=
  match active_turn w with
  | Some at_ => (tasks at_, set_active w None)
  | None => ([], w)
  end.
(** The tasks that [interrupt_turn] takes; [None]: the turn is not active. *)
Definition interrupt_turn_takes (w : World) (turn_id : str) : option (list str * World) :=
  match active_turn w with
  | Some at_ => if bool_decide (turn_id ∈ tasks at_) then Some (tasks at_, set_active w None) else None
  | None => None
  end.
(** Dropping a turn aborts the processes of its tasks. *)
Definition drop_turn (w : World) (a : option ActiveTurn) : World :=
  match a with
  | Some at_ => foldr (λ i w, match procs w !! i with Some p => set_proc w i (abort p) | None => w end) w (tasks at_)
  | None => w
  end.
Definition register_new_active_task (w : World) (sub_id : str) : World :=
  set_active (drop_turn w (active_turn w)) (Some (add_task active_turn_new sub_id)).
(** The section of [on_task_finished]; true: the turn is this task's to end. *)
Definition on_task_finished (w : World) (sub_id : str) : World * bool :=
  match active_turn w with
  | None => (w, false)
  | Some at_ =>
      match remove_task at_ sub_id with
      | None => (w, false)
      | Some at_ => (set_active w (if bool_decide (tasks at_ = []) then None else Some at_), true)
      end
  end.
(** [inject_input]; false: there was no turn, and the input is given back. *)
Definition inject_input (w : World) (input : Input) : World * bool :=
  match active_turn w with
  | Some at_ =>
      let at_ := {| tasks := tasks at_; turn_state := push_pending_input (turn_state at_) input |} in
      ({| active_turn := Some at_; procs := procs w; coord := coord w; log := log w;
          accepted := accepted w ++ [input]; delivered := delivered w |}, true)
  | None => (w, false)
  end.
Definition get_pending_input (w : World) : World :=
  match active_turn w with
  | Some at_ =>
      let '(inputs, ts) := take_pending_input (turn_state at_) in
      {| active_turn := Some {| tasks := tasks at_; turn_state := ts |}; procs := procs w;
         coord := coord w; log := log w; accepted := accepted w; delivered := delivered w ++ inputs |}
  | None => w
  end.

(** ** The steps of the coordinator *)

(** The next thing of [abort_all_tasks], and of [spawn_task] after it. *)
Definition coordinator_step (w : World) : option World :=
  match coord w with
  | Ready => None
  | Aborting [] _ None => Some (set_coord w Ready)
  | Aborting [] _ (Some sub_id) =>
      Some (set_coord (set_proc w sub_id {| phase := Created; token_cancelled := false; aborted := false |})
              (Registering sub_id))
  | Aborting (i :: rest) reason next =>
      (* the head of [handle_task_abort] *)
      match procs w !! i with
      | Some p =>
          if token_cancelled p then Some (set_coord w (Aborting rest reason next))
          else Some (set_coord (set_proc w i (cancel p)) (AwaitDone i rest reason next))
      | None => Some (set_coord w (Aborting rest reason next))
      end
  | AwaitDone i rest reason next =>
      (* notified or timed out: the handle is aborted *)
      match procs w !! i with
      | Some p => Some (set_coord (set_proc w i (abort p)) (Aborted i rest reason next))
      | None => Some (set_coord w (Aborted i rest reason next))
      end
  | Aborted i rest reason next =>
      Some (set_coord (send w i (TurnAbortedEvent reason)) (Aborting rest reason next))
  | Registering sub_id => Some (set_coord (register_new_active_task w sub_id) (Starting sub_id))
  | Starting sub_id =>
      Some (set_coord match procs w !! sub_id with
                      | Some p => match phase p with Created => set_proc w sub_id (in_phase p Running) | _ => w end
                      | None => w
                      end Ready)
  end.

(** ** The steps of a task *)
Inductive task_step (w : World) (i : str) : World → Prop :=
| task_returns p m :
    procs w !! i = Some p → phase p = Running →
    task_step w i (set_proc w i (in_phase p (Returned m)))
| task_checks p m :
    procs w !! i = Some p → phase p = Returned m →
    task_step w i (set_proc w i (in_phase p (if token_cancelled p then Over else Committed m)))
| task_finishes p m w' owns :
    procs w !! i = Some p → phase p = Committed m → on_task_finished w i = (w', owns) →
    task_step w i (set_proc w' i (in_phase p (if owns : bool then Completing m else Over)))
| task_completes p m :
    procs w !! i = Some p → phase p = Completing m →
    task_step w i (set_proc (send w i (TurnCompleteEvent m)) i (in_phase p Over))
| task_stops p :
    procs w !! i = Some p → aborted p = true → phase p ≠ Over →
    task_step w i (set_proc w i (in_phase p Over)).

(** The system moves by itself. *)
Inductive internal (w : World) : World → Prop :=
| internal_coordinator w' : coordinator_step w = Some w' → internal w w'
| internal_task i w' : task_step w i w' → internal w w'.

(** What comes from outside: submissions, in turn, and input. A submission has an
    identifier of its own ([SessionHandle::submit] counts them). *)
Inductive external (w : World) : World → Prop :=
| submit_task sub_id taken w' :
    coord w = Ready → procs w !! sub_id = None → take_all_running_tasks w = (taken, w') →
    external w (set_coord w' (Aborting taken Replaced (Some sub_id)))
| submit_interrupt taken w' :
    coord w = Ready → take_all_running_tasks w = (taken, w') →
    external w (set_coord w' (Aborting taken Interrupted None))
| submit_interrupt_turn turn_id taken w' :
    coord w = Ready → interrupt_turn_takes w turn_id = Some (taken, w') →
    external w (set_coord w' (Aborting taken Interrupted None))
| submit_input input w' accepted_ : inject_input w input = (w', accepted_) → external w w'
| task_takes_input i p :
    procs w !! i = Some p → phase p = Running → external w (get_pending_input w).

Definition step (w w' : World) : Prop := internal w w' ∨ external w w'.
Definition reachable (w : World) : Prop := rtc step world_new w.
End Tasks.
Arguments World : clear implicits.

(** * Correctness *)

(** ** Who ends a turn *)
Section Ownership.
Context {Input : Type}.
#[local] Notation World := (World Input).

Definition count (i : str) (l : list str) : nat := length (filter (λ j, j = i) l).
Lemma count_nil i : count i [] = 0.
Proof. done. Qed.
Lemma count_cons i j l : count i (j :: l) = (if decide (j = i) then 1 else 0) + count i l.
Proof. unfold count. rewrite filter_cons. by case_decide. Qed.
Lemma count_app i l k : count i (l ++ k) = count i l + count i k.
Proof. unfold count. by rewrite filter_app, length_app. Qed.
Lemma count_0 i l : count i l = 0 ↔ i ∉ l.
Proof.
  induction l as [|j l IH]; [split; [intros _ []%elem_of_nil|done]|]. rewrite count_cons, elem_of_cons.
  case_decide; naive_solver lia.
Qed.
Lemma count_pos i l : i ∈ l ↔ 0 < count i l.
Proof. destruct (decide (i ∈ l)) as [H|H]; [|apply count_0 in H as H0]; split; try done; try lia.
  intros _. destruct (count i l) eqn:E; [by apply count_0 in E|lia]. Qed.

Definition active_tasks (w : World) : list str :=
  match active_turn w with Some at_ => tasks at_ | None => [] end.
(** The tasks whose turns the coordinator will end, and those of them that it has
    not touched yet. *)
Definition held (c : Coord) : list str :=
  match c with
  | Aborting taken _ _ => taken
  | AwaitDone i rest _ _ | Aborted i rest _ _ => i :: rest
  | Registering i => [i]
  | Ready | Starting _ => []
  end.
Definition waiting (c : Coord) : list str :=
  match c with
  | Aborting rest _ _ | AwaitDone _ rest _ _ | Aborted _ rest _ _ => rest
  | Registering i => [i]
  | Ready | Starting _ => []
  end.
Definition next_task (c : Coord) : option str :=
  match c with Aborting _ _ n | AwaitDone _ _ _ n | Aborted _ _ _ n => n | _ => None end.
Definition is_completing (p : Proc) : bool := match phase p with Completing _ => true | _ => false end.
Definition completing (w : World) (i : str) : nat :=
  match procs w !! i with Some p => if is_completing p then 1 else 0 | None => 0 end.
Definition ended (w : World) (i : str) : nat := count i (map fst (log w)).
Definition owners (w : World) (i : str) : nat :=
  count i (active_tasks w) + count i (held (coord w)) + completing w i + ended w i.

Definition pending (w : World) : list Input :=
  match active_turn w with Some at_ => pending_input (turn_state at_) | None => [] end.

Record inv (w : World) : Prop := {
  inv_owner i : owners w i = if decide (is_Some (procs w !! i)) then 1 else 0;
  inv_single at_ : active_turn w = Some at_ → ∃ i, tasks at_ = [i];
  inv_busy : match coord w with Ready => True | Starting i => True | _ => active_turn w = None end;
  inv_starting i : coord w = Starting i → active_tasks w = [i];
  inv_cancelled i p : procs w !! i = Some p → token_cancelled p = true ∨ aborted p = true →
    i ∉ active_tasks w ∧ is_completing p = false ∧ i ∉ waiting (coord w);
  inv_next i : next_task (coord w) = Some i → procs w !! i = None;
  inv_created i p : procs w !! i = Some p → phase p = Created →
    coord w = Registering i ∨ coord w = Starting i;
  inv_fresh i : coord w = Registering i ∨ coord w = Starting i →
    ∃ p, procs w !! i = Some p ∧ phase p = Created;
  inv_over i p : procs w !! i = Some p → phase p = Over → i ∉ active_tasks w;
  inv_input : delivered w ++ pending w `sublist_of` accepted w;
}.

Lemma inv_init : inv world_new.
Proof. split; try done. by intros i [|]. Qed.

Lemma completing_set w i p j :
  completing (set_proc w i p) j = if decide (i = j) then (if is_completing p then 1 else 0) else completing w j.
Proof.
  unfold completing. cbn. case_decide as E; [subst; by rewrite lookup_insert_eq|by rewrite lookup_insert_ne].
Qed.
Lemma is_Some_set (w : World) i p q j :
  procs w !! i = Some p → is_Some (procs (set_proc w i q) !! j) ↔ is_Some (procs w !! j).
Proof.
  intros Hp. cbn. destruct (decide (i = j)) as [<-|Hne]; [rewrite lookup_insert_eq, Hp; naive_solver|].
  by rewrite lookup_insert_ne.
Qed.
Lemma inv_known w i : inv w → 0 < owners w i → is_Some (procs w !! i).
Proof. intros H Ho. rewrite (inv_owner w H) in Ho. by case_decide; [|lia]. Qed.

(** A step that changes one process and neither starts nor ends a completion. *)
Lemma inv_set_proc w i p q :
  inv w → procs w !! i = Some p → is_completing q = is_completing p →
  (token_cancelled q = true ∨ aborted q = true →
   (token_cancelled p = true ∨ aborted p = true) ∨
   i ∉ active_tasks w ∧ is_completing p = false ∧ i ∉ waiting (coord w)) →
  (phase q = Created ↔ phase p = Created) → (phase q = Over → i ∉ active_tasks w) →
  inv (set_proc w i q).
Proof.
  intros H Hp Hc Hflag Hcr Hov. split; try apply H.
  - intros j. transitivity (owners w j).
    + unfold owners. rewrite completing_set. unfold completing. case_decide as E; [|done].
      subst. by rewrite Hp, Hc.
    + rewrite (inv_owner w H). pose proof (is_Some_set w i p q j Hp). by repeat case_decide; try tauto.
  - intros j r Hr Hf. cbn in Hr. destruct (decide (i = j)) as [<-|Hne].
    + rewrite lookup_insert_eq in Hr. injection Hr as <-. rewrite Hc.
      destruct (Hflag Hf) as [Hf'|Hf']; [by apply (inv_cancelled w H i p)|done].
    + rewrite lookup_insert_ne in Hr by done. by apply (inv_cancelled w H j r).
  - intros j Hn. cbn. pose proof (inv_next w H j Hn) as Hj. rewrite lookup_insert_ne; [done|congruence].
  - intros j r Hr. cbn in Hr. destruct (decide (i = j)) as [<-|Hne].
    + rewrite lookup_insert_eq in Hr. injection Hr as <-. intros Hph. apply (inv_created w H i p Hp). by apply Hcr.
    + rewrite lookup_insert_ne in Hr by done. by apply (inv_created w H j r).
  - intros j Hj. destruct (inv_fresh w H j Hj) as (r & Hr & Hph). cbn. destruct (decide (i = j)) as [<-|Hne].
    + exists q. rewrite lookup_insert_eq. split; [done|]. apply Hcr. congruence.
    + exists r. by rewrite lookup_insert_ne.
  - intros j r Hr. cbn in Hr. destruct (decide (i = j)) as [<-|Hne].
    + rewrite lookup_insert_eq in Hr. by injection Hr as <-.
    + rewrite lookup_insert_ne in Hr by done. by apply (inv_over w H j r).
Qed.

(** The coordinator goes on with the tasks it holds. *)
Lemma inv_set_coord w c :
  inv w → (∀ i, count i (held c) = count i (held (coord w))) →
  (∀ i, i ∈ waiting c → i ∈ waiting (coord w)) →
  (∀ i, next_task c = Some i → next_task (coord w) = Some i) →
  match c with Ready => True | Starting _ | Registering _ => False | _ => active_turn w = None end →
  (∀ i, coord w ≠ Registering i ∧ coord w ≠ Starting i) → inv (set_coord w c).
Proof.
  intros H Hh Hw Hn Hb Hr. split; try apply H.
  - intros i. unfold owners. change (coord (set_coord w c)) with c. rewrite (Hh i). apply (inv_owner w H).
  - by destruct c.
  - intros i E. cbn in E. by subst c.
  - intros i p Hp Hf. destruct (inv_cancelled w H i p Hp Hf) as (H1 & H2 & H3). split_and!; [done..|].
    intros Hi. by apply H3, Hw.
  - intros i Hi. by apply (inv_next w H), Hn.
  - intros i p Hp Hph. destruct (inv_created w H i p Hp Hph) as [E|E]; by apply Hr in E.
  - intros i. cbn. intros [E|E]; by subst c.
Qed.

(** A task that the coordinator holds is nowhere else. *)
Lemma held_alone w i :
  inv w → i ∈ held (coord w) →
  i ∉ active_tasks w ∧ completing w i = 0 ∧ ended w i = 0 ∧ count i (held (coord w)) = 1 ∧
  ∃ p, procs w !! i = Some p ∧ is_completing p = false.
Proof.
  intros H Hi. apply count_pos in Hi. pose proof (inv_owner w H i) as Ho.
  assert (is_Some (procs w !! i)) as [p Hp] by (apply (inv_known w i H); unfold owners; lia).
  rewrite decide_True in Ho by (by exists p). unfold owners in Ho.
  assert (completing w i = 0) as Hc by lia. split_and!; try lia; [apply count_0; lia|].
  exists p. split; [done|]. unfold completing in Hc. rewrite Hp in Hc. by destruct (is_completing p).
Qed.

Lemma inv_spawn w i :
  inv w → procs w !! i = None → active_turn w = None → held (coord w) = [] → (∀ j, coord w ≠ Registering j ∧ coord w ≠ Starting j) →
  inv (set_coord (set_proc w i {| phase := Created; token_cancelled := false; aborted := false |}) (Registering i)).
Proof.
  intros H Hp Ha Hh Hr. assert (active_tasks w = []) as Ht by (unfold active_tasks; by rewrite Ha).
  assert (∀ j, owners w j = completing w j + ended w j) as Ho by (intros j; unfold owners; by rewrite Ht, Hh).
  split; try done; try apply H.
  - intros j. pose proof (inv_owner w H j) as Hj. rewrite Ho in Hj. unfold owners.
    change (ended (set_coord (set_proc w i _) _) j) with (ended w j).
    change (completing (set_coord ?w' _) j) with (completing w' j). rewrite completing_set.
    change (active_tasks (set_coord (set_proc w i _) _)) with (active_tasks w). rewrite Ht.
    cbn [coord set_coord held procs set_proc is_completing phase]. rewrite count_cons, !count_nil.
    destruct (decide (i = j)) as [<-|Hne].
    + rewrite lookup_insert_eq, decide_True by by eexists. rewrite Hp, decide_False in Hj by (by intros []).
      lia.
    + rewrite lookup_insert_ne by done. lia.
  - intros j p. cbn. destruct (decide (i = j)) as [<-|Hne].
    + rewrite lookup_insert_eq. intros [= <-] [|]; done.
    + rewrite lookup_insert_ne by done. intros Hj Hf. destruct (inv_cancelled w H j p Hj Hf) as (H1 & H2 & _).
      split_and!; try done. by intros ->%list_elem_of_singleton.
  - intros j p. cbn. destruct (decide (i = j)) as [<-|Hne]; [by left|]. rewrite lookup_insert_ne by done.
    intros Hj Hph. destruct (inv_created w H j p Hj Hph) as [E|E]; by apply Hr in E.
  - intros j. cbn. intros [[= <-]|E]; [|done]. rewrite lookup_insert_eq. by eexists.
  - intros j p. cbn. destruct (decide (i = j)) as [<-|Hne].
    + rewrite lookup_insert_eq. by intros [= <-].
    + rewrite lookup_insert_ne by done. apply (inv_over w H j p).
Qed.

Lemma ended_send w i e j : ended (send w i e) j = ended w j + (if decide (i = j) then 1 else 0).
Proof.
  unfold ended. cbn [send log]. rewrite map_app, count_app. cbn [map fst]. by rewrite count_cons, count_nil, Nat.add_0_r.
Qed.

(** The coordinator has aborted the task [i] and tells so. *)
Lemma inv_abort_event w i rest r n :
  inv w → coord w = Aborted i rest r n →
  inv (set_coord (send w i (TurnAbortedEvent r)) (Aborting rest r n)).
Proof.
  intros H Hc. split; try apply H; try done.
  - intros j. etrans; [|exact (inv_owner w H j)]. unfold owners. rewrite Hc.
    change (ended (set_coord (send w i (TurnAbortedEvent r)) (Aborting rest r n)) j)
      with (ended (send w i (TurnAbortedEvent r)) j). rewrite ended_send. cbn [coord set_coord held].
    rewrite count_cons. change (completing (set_coord _ _) j) with (completing w j).
    change (active_tasks (set_coord _ _)) with (active_tasks w). lia.
  - pose proof (inv_busy w H) as Hb. by rewrite Hc in Hb.
  - intros j p Hp Hf. pose proof (inv_cancelled w H j p Hp Hf) as Hx. by rewrite Hc in Hx.
  - intros j Hj. apply (inv_next w H). by rewrite Hc.
  - intros j p Hp Hph. destruct (inv_created w H j p Hp Hph) as [E|E]; by rewrite Hc in E.
  - intros j [|]; done.
Qed.

(** The task that was spawned becomes the active turn. *)
Lemma inv_register w i :
  inv w → coord w = Registering i → inv (set_coord (register_new_active_task w i) (Starting i)).
Proof.
  intros H Hc. pose proof (inv_busy w H) as Ha. rewrite Hc in Ha.
  assert (i ∈ held (coord w)) as Hi by (rewrite Hc; constructor).
  destruct (held_alone w i H Hi) as (_ & Hco & He & _ & p & Hp & Hpc).
  unfold register_new_active_task. rewrite Ha. cbn [drop_turn].
  change (add_task active_turn_new i) with ({| tasks := [i]; turn_state := turn_state_new (Input:=Input) |}).
  assert (active_tasks w = []) as Ht by (unfold active_tasks; by rewrite Ha).
  split; try apply H; try done.
  - intros j. etrans; [|exact (inv_owner w H j)]. unfold owners. rewrite Hc, Ht.
    cbn [active_tasks active_turn set_coord set_active tasks coord held].
    change (completing (set_coord _ _) j) with (completing w j). change (ended (set_coord _ _) j) with (ended w j).
    rewrite count_nil. lia.
  - intros at_. cbn. intros [= <-]. by exists i.
  - intros j. cbn. by intros [= ->].
  - intros j q Hq Hf. destruct (inv_cancelled w H j q Hq Hf) as (_ & H2 & H3).
    split_and!; [|done|apply not_elem_of_nil]. by rewrite Hc in H3.
  - intros j q Hq Hph. right. destruct (inv_created w H j q Hq Hph) as [E|E]; rewrite Hc in E; by simplify_eq/=.
  - intros j. cbn. intros [|[= <-]]; [done|]. apply (inv_fresh w H i). by left.
  - intros j q Hq Hph. cbn. intros ->%list_elem_of_singleton.
    destruct (inv_fresh w H i (or_introl Hc)) as (q' & Hq' & Hph'). cbn in Hq. congruence.
  - cbn. pose proof (inv_input w H) as Hin. unfold pending in Hin. by rewrite Ha in Hin.
Qed.

Lemma waiting_held c i : i ∈ waiting c → i ∈ held c.
Proof. destruct c; cbn; set_solver. Qed.
(** The tasks that wait to be aborted are known and untouched. *)
Lemma waiting_fresh w i :
  inv w → i ∈ waiting (coord w) → ∃ p, procs w !! i = Some p ∧ token_cancelled p = false.
Proof.
  intros H Hi. destruct (held_alone w i H (waiting_held _ _ Hi)) as (_ & _ & _ & _ & p & Hp & _).
  exists p. split; [done|]. apply not_true_iff_false. intros Hf.
  by destruct (inv_cancelled w H i p Hp (or_introl Hf)) as (_ & _ & []).
Qed.

Lemma inv_coordinator w w' : inv w → coordinator_step w = Some w' → inv w'.
Proof.
  intros H. unfold coordinator_step. pose proof (inv_busy w H) as Hb.
  destruct (coord w) as [|[|i rest] r n|i rest r n|i rest r n|i|i] eqn:Hc.
  - done.
  - destruct n as [i|]; intros [= <-].
    + apply inv_spawn; try done; [apply (inv_next w H); by rewrite Hc|by rewrite Hc|by rewrite Hc].
    + by apply inv_set_coord; rewrite ?Hc.
  - destruct (waiting_fresh w i H) as (p & Hp & Hf); [rewrite Hc; constructor|]. rewrite Hp, Hf. intros [= <-].
    destruct (held_alone w i H) as (Ha & _ & _ & H1 & q & Hq & Hqc); [rewrite Hc; constructor|].
    assert (q = p) as -> by congruence. rewrite Hc in H1. cbn [held] in H1. rewrite count_cons, decide_True in H1 by done.
    assert (i ∉ rest) as Hr by (apply count_0; lia).
    apply (inv_set_proc (set_coord w (AwaitDone i rest r n)) i p (cancel p)); try done.
    + apply inv_set_coord; rewrite ?Hc; try done. cbn. set_solver.
    + by right.
  - destruct (held_alone w i H) as (Ha & _ & _ & H1 & q & Hq & Hqc); [rewrite Hc; constructor|].
    rewrite Hq. intros [= <-]. rewrite Hc in H1. cbn [held] in H1. rewrite count_cons, decide_True in H1 by done.
    assert (i ∉ rest) as Hr by (apply count_0; lia).
    apply (inv_set_proc (set_coord w (Aborted i rest r n)) i q (abort q)); try done.
    + by apply inv_set_coord; rewrite ?Hc.
    + by right.
  - intros [= <-]. by apply inv_abort_event.
  - intros [= <-]. by apply inv_register.
  - intros [= <-]. destruct (inv_fresh w H i (or_intror Hc)) as (p & Hp & Hph). rewrite Hp, Hph.
    pose proof (inv_starting w H i Hc) as Ht.
    split; try apply H; try done.
    + intros j. cbn. pose proof (inv_owner w H j) as Ho. unfold owners in *. rewrite Hc in Ho.
      cbn [coord set_coord held] in *. change (active_tasks (set_coord _ _)) with (active_tasks w).
      change (ended (set_coord _ _) j) with (ended w j).
      change (completing (set_coord ?x _) j) with (completing x j). rewrite completing_set.
      pose proof (is_Some_set w i p (in_phase p Running) j Hp) as Hs. cbn in Hs.
      assert (completing w i = 0) as Hcw by (unfold completing, is_completing; by rewrite Hp, Hph).
      rewrite count_nil in *. cbn [is_completing phase in_phase].
      destruct (decide (i = j)) as [<-|Hne]; repeat case_decide; try tauto; lia.
    + intros j q. cbn. destruct (decide (i = j)) as [<-|Hne].
      * rewrite lookup_insert_eq. intros [= <-] Hf.
        destruct (inv_cancelled w H i p Hp Hf) as ([] & _). rewrite Ht. constructor.
      * rewrite lookup_insert_ne by done. intros Hq Hf. destruct (inv_cancelled w H j q Hq Hf) as (H1 & H2 & _).
        split_and!; [done..|]. apply not_elem_of_nil.
    + intros j q. cbn. destruct (decide (i = j)) as [<-|Hne].
      * rewrite lookup_insert_eq. by intros [= <-].
      * rewrite lookup_insert_ne by done. intros Hq Hph'.
        destruct (inv_created w H j q Hq Hph') as [E|E]; rewrite Hc in E; simplify_eq.
    + by intros j [|].
    + intros j q. cbn. destruct (decide (i = j)) as [<-|Hne].
      * rewrite lookup_insert_eq. by intros [= <-].
      * rewrite lookup_insert_ne by done. apply (inv_over w H j q).
Qed.

(** [on_task_finished] with the one task of an active turn. *)
Lemma on_task_finished_cases w i :
  inv w →
  (i ∉ active_tasks w ∧ on_task_finished w i = (w, false)) ∨
  (active_tasks w = [i] ∧ on_task_finished w i = (set_active w None, true)).
Proof.
  intros H. unfold on_task_finished, active_tasks. destruct (active_turn w) as [at_|] eqn:Ea.
  2: { left. split; [apply not_elem_of_nil|done]. }
  destruct (inv_single w H at_ Ea) as [j Hj]. unfold remove_task, swap_remove. rewrite Hj.
  cbn. destruct (decide (j = i)) as [->|Hne]; cbn; [by right|left].
  split; [|done]. by intros ->%list_elem_of_singleton.
Qed.

Lemma inv_take w r n :
  inv w → coord w = Ready → (∀ i, n = Some i → procs w !! i = None) →
  inv (set_coord (set_active w None) (Aborting (active_tasks w) r n)).
Proof.
  intros H Hc Hn. split; try apply H; try done.
  - intros i. etrans; [|exact (inv_owner w H i)]. unfold owners. rewrite Hc. cbn [coord set_coord held].
    change (active_tasks (set_coord _ _)) with (@nil str). rewrite !count_nil.
    change (completing (set_coord _ _) i) with (completing w i). change (ended (set_coord _ _) i) with (ended w i). lia.
  - intros i p Hp Hf. destruct (inv_cancelled w H i p Hp Hf) as (H1 & H2 & _).
    split_and!; [apply not_elem_of_nil|done|done].
  - intros i p Hp Hph. destruct (inv_created w H i p Hp Hph) as [E|E]; by rewrite Hc in E.
  - by intros i [|].
  - intros i p _ _. apply not_elem_of_nil.
  - cbn. rewrite app_nil_r. etrans; [|apply (inv_input w H)]. apply sublist_inserts_r. done.
Qed.

(** A task ends its own turn. *)
Lemma inv_own w i p m :
  inv w → active_tasks w = [i] → procs w !! i = Some p → phase p = Committed m →
  inv (set_proc (set_active w None) i (in_phase p (Completing m))).
Proof.
  intros H Ha Hp Hph.
  assert (coord w = Ready) as Hc.
  { pose proof (inv_busy w H) as Hb. unfold active_tasks in Ha. destruct (coord w) eqn:Ec; try done;
      [by rewrite Hb in Ha..|]. pose proof (inv_starting w H _ Ec) as Hs. unfold active_tasks in Hs.
    destruct (active_turn w); [|done]. destruct (inv_fresh w H _ (or_intror Ec)) as (q & Hq & Hqh).
    rewrite Hs in Ha. injection Ha as ->. congruence. }
  assert (∀ j q, procs (set_proc (set_active w None) i (in_phase p (Completing m))) !! j = Some q →
    (j = i ∧ q = in_phase p (Completing m)) ∨ (j ≠ i ∧ procs w !! j = Some q)) as Hl.
  { intros j q. cbn. destruct (decide (i = j)) as [<-|Hne]; [rewrite lookup_insert_eq; naive_solver|].
    rewrite lookup_insert_ne by done. naive_solver. }
  split; try done.
  - intros j. pose proof (inv_owner w H j) as Ho. unfold owners in *. rewrite completing_set.
    pose proof (is_Some_set w i p (in_phase p (Completing m)) j Hp) as Hs. cbn in Hs. rewrite Ha in Ho.
    assert (completing w i = 0) as Hcw by (unfold completing, is_completing; by rewrite Hp, Hph).
    change (active_tasks (set_proc _ _ _)) with (@nil str). cbn [coord set_proc set_active procs].
    change (ended (set_proc _ _ _) j) with (ended w j). change (completing (set_active w None) j) with (completing w j).
    cbn [is_completing phase in_phase]. rewrite count_cons, count_nil in *.
    destruct (decide (i = j)) as [<-|Hne]; repeat case_decide; try tauto; lia.
  - cbn. by rewrite Hc.
  - intros j. cbn. by rewrite Hc.
  - intros j q [[-> ->]|[Hne Hq]]%Hl Hf.
    + destruct (inv_cancelled w H i p Hp Hf) as ([] & _). rewrite Ha. constructor.
    + destruct (inv_cancelled w H j q Hq Hf) as (_ & H2 & H3). split_and!; [apply not_elem_of_nil|done..].
  - intros j. cbn. by rewrite Hc.
  - intros j q [[-> ->]|[Hne Hq]]%Hl Hph'; [done|].
    destruct (inv_created w H j q Hq Hph') as [E|E]; by rewrite Hc in E.
  - intros j. cbn. rewrite Hc. by intros [|].
  - intros j q _ _. apply not_elem_of_nil.
  - cbn. rewrite app_nil_r. etrans; [|apply (inv_input w H)]. by apply sublist_inserts_r.
Qed.

Lemma inv_completes w i p m :
  inv w → procs w !! i = Some p → phase p = Completing m →
  inv (set_proc (send w i (TurnCompleteEvent m)) i (in_phase p Over)).
Proof.
  intros H Hp Hph.
  assert (completing w i = 1) as Hcw by (unfold completing, is_completing; by rewrite Hp, Hph).
  pose proof (inv_owner w H i) as Hoi. rewrite decide_True in Hoi by (by exists p). unfold owners in Hoi.
  assert (i ∉ active_tasks w) as Ha by (apply count_0; lia).
  assert (∀ j q, procs (set_proc (send w i (TurnCompleteEvent m)) i (in_phase p Over)) !! j = Some q →
    (j = i ∧ q = in_phase p Over) ∨ (j ≠ i ∧ procs w !! j = Some q)) as Hl.
  { intros j q. cbn. destruct (decide (i = j)) as [<-|Hne]; [rewrite lookup_insert_eq; naive_solver|].
    rewrite lookup_insert_ne by done. naive_solver. }
  split; try apply H.
  - intros j. pose proof (inv_owner w H j) as Ho. unfold owners in *. rewrite completing_set.
    pose proof (is_Some_set w i p (in_phase p Over) j Hp) as Hs. cbn in Hs.
    change (ended (set_proc ?x _ _) j) with (ended x j). rewrite ended_send.
    change (completing (send w i _) j) with (completing w j). cbn [is_completing phase in_phase].
    change (active_tasks (set_proc _ _ _)) with (active_tasks w). cbn [coord set_proc send procs].
    destruct (decide (i = j)) as [<-|Hne]; repeat case_decide; try tauto; lia.
  - intros j q [[-> ->]|[Hne Hq]]%Hl Hf; [|by apply (inv_cancelled w H j q)].
    destruct (inv_cancelled w H i p Hp Hf) as (_ & H2 & _). unfold is_completing in H2. by rewrite Hph in H2.
  - intros j Hn. cbn. pose proof (inv_next w H j Hn) as Hj. rewrite lookup_insert_ne; [done|congruence].
  - intros j q [[-> ->]|[Hne Hq]]%Hl Hph'; [done|]. by apply (inv_created w H j q).
  - intros j Hj. destruct (inv_fresh w H j Hj) as (q & Hq & Hqh). exists q. cbn.
    rewrite lookup_insert_ne; [done|congruence].
  - intros j q [[-> ->]|[Hne Hq]]%Hl Hph'; [done|]. by apply (inv_over w H j q).
Qed.

Lemma inv_task w i w' : inv w → task_step w i w' → inv w'.
Proof.
  intros H. destruct 1 as [p m Hp Hph|p m Hp Hph|p m w' owns Hp Hph Hf|p m Hp Hph|p Hp Ha Hne].
  - apply (inv_set_proc w i p); unfold is_completing; rewrite ?Hph; try done. by left.
  - apply (inv_set_proc w i p); unfold is_completing; rewrite ?Hph; try done; cbn.
    + by destruct (token_cancelled p).
    + by left.
    + by destruct (token_cancelled p).
    + destruct (token_cancelled p) eqn:Et; [|done]. intros _. by apply (inv_cancelled w H i p Hp (or_introl Et)).
  - destruct (on_task_finished_cases w i H) as [[Hn E]|[Ho E]]; rewrite E in Hf; injection Hf as <- <-.
    + apply (inv_set_proc w i p); unfold is_completing; rewrite ?Hph; try done. by left.
    + by apply inv_own.
  - by apply inv_completes.
  - destruct (inv_cancelled w H i p Hp (or_intror Ha)) as (H1 & H2 & H3).
    apply (inv_set_proc w i p); try done; [by left|]. split; [done|]. intros Hph.
    destruct (inv_created w H i p Hp Hph) as [E|E].
    + rewrite E in H3. destruct H3. constructor.
    + rewrite (inv_starting w H i E) in H1. destruct H1. constructor.
Qed.

(** A step that only moves input. *)
Lemma inv_move_input w w' at_ ts :
  inv w → active_turn w = Some at_ → active_turn w' = Some {| tasks := tasks at_; turn_state := ts |} →
  procs w' = procs w → coord w' = coord w → log w' = log w →
  delivered w' ++ pending_input ts `sublist_of` accepted w' → inv w'.
Proof.
  intros H Ha Ha' Hp Hc Hl Hin.
  assert (active_tasks w' = active_tasks w) as Ht by (unfold active_tasks; by rewrite Ha, Ha').
  assert (∀ j, owners w' j = owners w j) as Ho.
  { intros j. unfold owners, completing, ended. by rewrite Ht, Hp, Hc, Hl. }
  split; try intros *; rewrite ?Ht, ?Hc, ?Hp, ?Ho; try apply H.
  - rewrite Ha'. intros [= <-]. cbn. by apply (inv_single w H).
  - pose proof (inv_busy w H) as Hb. rewrite Ha in Hb. by destruct (coord w).
  - unfold pending. by rewrite Ha'.
Qed.

Lemma inv_external w w' : inv w → external w w' → inv w'.
Proof.
  intros H.
  assert (∀ taken w1, take_all_running_tasks w = (taken, w1) → taken = active_tasks w ∧ w1 = set_active w None) as Htake.
  { intros taken w1. unfold take_all_running_tasks, active_tasks. destruct (active_turn w) eqn:Ea; intros [= <- <-]; [done|].
    split; [done|]. destruct w. cbn in *. by subst. }
  destruct 1 as [i taken w1 Hc Hi [-> ->]%Htake|taken w1 Hc [-> ->]%Htake|i taken w1 Hc Ht|input w1 b Hi|i p Hp Hph].
  - apply inv_take; [done..|]. by intros j [= <-].
  - by apply inv_take.
  - unfold interrupt_turn_takes in Ht. destruct (active_turn w) as [at_|] eqn:Ea; [|done].
    case_bool_decide; [|done]. injection Ht as <- <-.
    assert (tasks at_ = active_tasks w) as -> by (unfold active_tasks; by rewrite Ea). by apply inv_take.
  - unfold inject_input in Hi. destruct (active_turn w) as [at_|] eqn:Ea; injection Hi as <- <-; [|done].
    apply (inv_move_input w _ at_ (push_pending_input (turn_state at_) input)); try done; cbn.
    pose proof (inv_input w H) as Hin. unfold pending in Hin. rewrite Ea in Hin.
    rewrite (assoc_L (++)). by apply sublist_app.
  - unfold get_pending_input. destruct (active_turn w) as [at_|] eqn:Ea; [|done].
    apply (inv_move_input w _ at_ (take_pending_input (turn_state at_)).2); try done; cbn.
    pose proof (inv_input w H) as Hin. unfold pending in Hin. rewrite Ea in Hin. by rewrite app_nil_r.
Qed.

Lemma inv_step w w' : inv w → step w w' → inv w'.
Proof.
  intros H [[w1 Hc|i w1 Ht]|He]; [by eapply inv_coordinator|by eapply inv_task|by eapply inv_external].
Qed.
Lemma inv_reachable w : reachable w → inv w.
Proof.
  intros Hr. assert (∀ w0 : World, rtc step w0 w → inv w0 → inv w) as Hgen.
  { clear Hr. intros w0 Hs. induction Hs; eauto using inv_step. }
  by eapply Hgen; [exact Hr|apply inv_init].
Qed.

(** ** One task at a time *)

(** A process that is still in its [run], or on its way out of it. *)
Definition live (p : Proc) : bool :=
  match phase p with Created | Running | Returned _ | Committed _ => true | _ => false end.
Definition stopped (p : Proc) : Prop := live p = false ∨ aborted p = true.

(** The tasks that are neither active nor held have stopped. *)
Record alone (w : World) : Prop := {
  alone_stopped i p : procs w !! i = Some p →
    0 < ended w i ∨ (∃ rest r n, coord w = Aborted i rest r n) → stopped p;
  alone_single : length (active_tasks w ++ held (coord w)) ≤ 1;
}.

Lemma alone_init : alone world_new.
Proof. split; [by intros i p [=]|cbn; lia]. Qed.

(** A step that changes one process, and what the coordinator holds. *)
Lemma alone_set w w' i q :
  alone w → (∀ j p, procs w' !! j = Some p → (j = i ∧ p = q) ∨ procs w !! j = Some p) →
  (∀ j, 0 < ended w' j → j = i ∨ 0 < ended w j) →
  (∀ j rest r n, coord w' = Aborted j rest r n → j = i ∨ coord w = Aborted j rest r n) →
  (0 < ended w' i ∨ (∃ rest r n, coord w' = Aborted i rest r n) → stopped q) →
  (∀ p, procs w' !! i = Some p → p = q) →
  length (active_tasks w' ++ held (coord w')) ≤ length (active_tasks w ++ held (coord w)) →
  alone w'.
Proof.
  intros H Hp He Hc Hq Hi Hl. split; [|etrans; [exact Hl|apply H]]. intros j p Hj Hx.
  destruct (decide (j = i)) as [->|Hne]; [rewrite (Hi p Hj); by apply Hq|].
  destruct (Hp j p Hj) as [[-> _]|Hj']; [done|]. apply (alone_stopped w H j p Hj').
  destruct Hx as [Hx|(rest & r & n & Hx)]; [destruct (He j Hx); [done|by left]|].
  destruct (Hc j rest r n Hx); [done|]. right. by eauto.
Qed.

Lemma alone_coordinator w w' : inv w → alone w → coordinator_step w = Some w' → alone w'.
Proof.
  intros H Ha. unfold coordinator_step. pose proof (inv_busy w H) as Hb. pose proof (alone_single w Ha) as Hs.
  destruct (coord w) as [|[|i rest] r n|i rest r n|i rest r n|i|i] eqn:Hc; [done|..].
  - destruct n as [i|]; intros [= <-].
    + assert (procs w !! i = None) as Hn by (apply (inv_next w H); by rewrite Hc).
      assert (ended w i = 0) as He.
      { pose proof (inv_owner w H i) as Ho. rewrite decide_False in Ho by (rewrite Hn; by intros []). unfold owners in Ho. lia. }
      split.
      * intros j p Hj [Hx|(? & ? & ? & [=])]. cbn in Hj. change (0 < ended w j) in Hx.
        destruct (decide (i = j)) as [<-|Hne]; [lia|]. rewrite lookup_insert_ne in Hj by done.
        apply (alone_stopped w Ha j p Hj). by left.
      * unfold active_tasks. cbn. rewrite Hb. cbn. lia.
    + split; [|cbn; rewrite app_nil_r; etrans; [|exact Hs]; rewrite length_app; unfold active_tasks; cbn; lia].
      intros j p Hj [Hx|(? & ? & ? & [=])]. apply (alone_stopped w Ha j p Hj). by left.
  - destruct (waiting_fresh w i H) as (p & Hp & Hf); [rewrite Hc; constructor|]. rewrite Hp, Hf. intros [= <-].
    destruct (held_alone w i H) as (_ & _ & He & _); [rewrite Hc; constructor|].
    apply (alone_set w _ i (cancel p)); try done; cbn.
    + intros j q. destruct (decide (i = j)) as [<-|Hne]; [rewrite lookup_insert_eq; naive_solver|].
      rewrite lookup_insert_ne by done. by right.
    + intros j Hj. by right.
    + intros [Hx|(? & ? & ? & [=])]. change (0 < ended w i) in Hx. lia.
    + intros q. rewrite lookup_insert_eq. by intros [= ->].
    + by rewrite Hc.
  - destruct (held_alone w i H) as (_ & _ & He & _ & q & Hq & _); [rewrite Hc; constructor|].
    rewrite Hq. intros [= <-]. apply (alone_set w _ i (abort q)); try done; cbn.
    + intros j p. destruct (decide (i = j)) as [<-|Hne]; [rewrite lookup_insert_eq; naive_solver|].
      rewrite lookup_insert_ne by done. by right.
    + intros j Hj. by right.
    + intros j ? ? ? [= <- _ _ _]. by left.
    + intros _. by right.
    + intros p. rewrite lookup_insert_eq. by intros [= ->].
    + by rewrite Hc.
  - intros [= <-]. destruct (held_alone w i H) as (_ & _ & _ & _ & q & Hq & _); [rewrite Hc; constructor|].
    apply (alone_set w _ i q); try done; cbn.
    + by right.
    + intros j Hj. change (0 < ended (send w i (TurnAbortedEvent r)) j) in Hj. rewrite ended_send in Hj.
      case_decide; [by left|right; lia].
    + intros _. apply (alone_stopped w Ha i q Hq). right. eauto.
    + intros p Hp. congruence.
    + rewrite Hc. change (active_tasks _) with (active_tasks w). rewrite !length_app. cbn. lia.
  - intros [= <-]. unfold register_new_active_task. rewrite Hb. split; [|change (length [i] ≤ 1); cbn; lia].
    intros j p Hj [Hx|(? & ? & ? & [=])]. apply (alone_stopped w Ha j p Hj). by left.
  - intros [= <-]. destruct (inv_fresh w H i (or_intror Hc)) as (p & Hp & Hph). rewrite Hp, Hph.
    apply (alone_set w _ i (in_phase p Running)); try done; cbn.
    + intros j q. destruct (decide (i = j)) as [<-|Hne]; [rewrite lookup_insert_eq; naive_solver|].
      rewrite lookup_insert_ne by done. by right.
    + intros j Hj. by right.
    + intros [Hx|(? & ? & ? & [=])]. change (0 < ended w i) in Hx.
      destruct (alone_stopped w Ha i p Hp (or_introl Hx)) as [Hst|Hst]; [|by right].
      unfold live in Hst. by rewrite Hph in Hst.
    + intros q. rewrite lookup_insert_eq. by intros [= ->].
    + rewrite Hc. done.
Qed.

Lemma lookup_set (w : World) i q j p :
  procs (set_proc w i q) !! j = Some p → (j = i ∧ p = q) ∨ procs w !! j = Some p.
Proof.
  cbn. destruct (decide (i = j)) as [<-|Hne]; [rewrite lookup_insert_eq; naive_solver|].
  rewrite lookup_insert_ne by done. by right.
Qed.

Lemma alone_task w i w' : inv w → alone w → task_step w i w' → alone w'.
Proof.
  intros H Ha.
  assert (∀ p q (w1 : World), procs w !! i = Some p → procs w1 = procs w → coord w1 = coord w → log w1 = log w →
    aborted q = aborted p → live p = true ∨ live q = false →
    length (active_tasks w1 ++ held (coord w1)) ≤ length (active_tasks w ++ held (coord w)) →
    alone (set_proc w1 i q)) as Hset.
  { intros p q w1 Hp H1 H2 H3 Hab Hl Hlen. apply (alone_set w _ i q); try done.
    - intros j r Hr. destruct (lookup_set w1 i q j r Hr) as [|Hr']; [by left|right]. by rewrite <-H1.
    - intros j Hj. right. unfold ended in *. cbn in Hj. by rewrite <-H3.
    - intros j rest r n Hj. right. cbn in Hj. by rewrite <-H2.
    - intros Hx. unfold ended in Hx. cbn in Hx. rewrite H2, H3 in Hx.
      destruct (alone_stopped w Ha i p Hp Hx) as [Hs|Hs]; [|right; congruence].
      destruct Hl as [Hl|Hl]; [congruence|by left].
    - intros r Hr. cbn in Hr. rewrite lookup_insert_eq in Hr. by injection Hr. }
  destruct 1 as [p m Hp Hph|p m Hp Hph|p m w' owns Hp Hph Hf|p m Hp Hph|p Hp Hab Hne].
  - apply (Hset p); try done. left. unfold live. by rewrite Hph.
  - apply (Hset p); try done. left. unfold live. by rewrite Hph.
  - destruct (on_task_finished_cases w i H) as [[Hn E]|[Ho E]]; rewrite E in Hf; injection Hf as <- <-.
    + apply (Hset p); try done. left. unfold live. by rewrite Hph.
    + apply (Hset p); try done; [left; unfold live; by rewrite Hph|]. cbn. rewrite length_app. lia.
  - apply (alone_set w _ i (in_phase p Over)); try done.
    + intros j r Hr. by destruct (lookup_set _ i _ j r Hr) as [|Hr']; [left|right].
    + intros j Hj. change (0 < ended (send w i (TurnCompleteEvent m)) j) in Hj. rewrite ended_send in Hj.
      case_decide; [by left|right; lia].
    + by right.
    + intros _. by left.
    + intros r Hr. cbn in Hr. rewrite lookup_insert_eq in Hr. by injection Hr.
  - apply (Hset p); try done. by right.
Qed.

Lemma alone_external w w' : inv w → alone w → external w w' → alone w'.
Proof.
  intros H Ha.
  assert (∀ r n, coord w = Ready → alone (set_coord (set_active w None) (Aborting (active_tasks w) r n))) as Htake'.
  { intros r n Hc. split.
    - intros j p Hj [Hx|(? & ? & ? & [=])]. apply (alone_stopped w Ha j p Hj). by left.
    - cbn. pose proof (alone_single w Ha) as Hs. rewrite Hc in Hs. cbn in Hs. by rewrite app_nil_r in Hs. }
  assert (∀ taken w1, take_all_running_tasks w = (taken, w1) → taken = active_tasks w ∧ w1 = set_active w None) as Htake.
  { intros taken w1. unfold take_all_running_tasks, active_tasks. destruct (active_turn w) eqn:Ea; intros [= <- <-]; [done|].
    split; [done|]. destruct w. cbn in *. by subst. }
  destruct 1 as [i taken w1 Hc Hi [-> ->]%Htake|taken w1 Hc [-> ->]%Htake|i taken w1 Hc Ht|input w1 b Hi|i p Hp Hph].
  - by apply Htake'.
  - by apply Htake'.
  - unfold interrupt_turn_takes in Ht. destruct (active_turn w) as [at_|] eqn:Ea; [|done].
    case_bool_decide; [|done]. injection Ht as <- <-.
    assert (tasks at_ = active_tasks w) as -> by (unfold active_tasks; by rewrite Ea). by apply Htake'.
  - unfold inject_input in Hi. destruct (active_turn w) as [at_|] eqn:Ea; injection Hi as <- <-; [|done].
    split; [apply (alone_stopped w Ha)|]. pose proof (alone_single w Ha) as Hs. unfold active_tasks in *. by rewrite Ea in Hs.
  - unfold get_pending_input. destruct (active_turn w) as [at_|] eqn:Ea; [|done].
    split; [apply (alone_stopped w Ha)|]. pose proof (alone_single w Ha) as Hs. unfold active_tasks in *. by rewrite Ea in Hs.
Qed.

Lemma alone_reachable w : reachable w → alone w.
Proof.
  intros Hr. assert (∀ w0 : World, rtc step w0 w → inv w0 → alone w0 → alone w) as Hgen.
  { clear Hr. intros w0 Hs. induction Hs as [|w1 w2 w3 Hst _ IH]; [done|]. intros H Ha.
    apply IH; [by eapply inv_step|]. destruct Hst as [[w4 Hc|i w4 Ht]|He];
      [by eapply alone_coordinator|by eapply alone_task|by eapply alone_external]. }
  eapply Hgen; [exact Hr|apply inv_init|apply alone_init].
Qed.

(** ** Progress *)
Definition weight (p : Proc) : nat :=
  match phase p with
  | Created => 6 | Running => 5 | Returned _ => 4 | Committed _ => 3 | Completing _ => 2 | Over => 0
  end.
Local Notation total := (total weight).
Definition coord_weight (c : Coord) : nat :=
  let next n := match n with Some _ => 9 | None => 1 end in
  match c with
  | Ready => 0
  | Aborting taken _ n => 3 * length taken + next n
  | AwaitDone _ rest _ n => 3 * length rest + 2 + next n
  | Aborted _ rest _ n => 3 * length rest + 1 + next n
  | Registering _ => 2
  | Starting _ => 1
  end.
(** How many steps the system can still take by itself. *)
Definition fuel_of (w : World) : nat := total (procs w) + coord_weight (coord w).

Lemma total_insert (m : gmap str Proc) i p q : m !! i = Some p → total (<[i := q]> m) + weight p = total m + weight q.
Proof. intros Hp. pose proof (sum_update weight m i p q Hp). lia. Qed.
Lemma total_new (m : gmap str Proc) i q : m !! i = None → total (<[i := q]> m) = total m + weight q.
Proof. intros Hp. rewrite sum_insert by done. lia. Qed.

Lemma coordinator_decreases w w' : inv w → coordinator_step w = Some w' → fuel_of w' < fuel_of w.
Proof.
  intros H. unfold coordinator_step, fuel_of. pose proof (inv_busy w H) as Hb.
  destruct (coord w) as [|[|i rest] r n|i rest r n|i rest r n|i|i] eqn:Hc; [done|..].
  - destruct n as [i|]; intros [= <-]; cbn; [|lia].
    assert (procs w !! i = None) as Hn by (apply (inv_next w H); by rewrite Hc).
    rewrite total_new by done. cbn. lia.
  - destruct (procs w !! i) as [p|] eqn:Hp; [destruct (token_cancelled p)|]; intros [= <-]; cbn; try lia.
    pose proof (total_insert (procs w) i p (cancel p) Hp). change (weight (cancel p)) with (weight p) in *. lia.
  - destruct (procs w !! i) as [p|] eqn:Hp; intros [= <-]; cbn; [|lia].
    pose proof (total_insert (procs w) i p (abort p) Hp). change (weight (abort p)) with (weight p) in *. lia.
  - intros [= <-]. cbn. lia.
  - intros [= <-]. unfold register_new_active_task. rewrite Hb. cbn. lia.
  - destruct (inv_fresh w H i (or_intror Hc)) as (p & Hp & Hph). rewrite Hp, Hph. intros [= <-]. cbn.
    pose proof (total_insert (procs w) i p (in_phase p Running) Hp) as Ht. cbn in Ht.
    assert (weight p = 6) as Hw by (unfold weight; by rewrite Hph). lia.
Qed.

Lemma task_decreases w i w' : task_step w i w' → fuel_of w' < fuel_of w.
Proof.
  unfold fuel_of.
  assert (∀ p q, procs w !! i = Some p → weight q < weight p → total (<[i := q]> (procs w)) < total (procs w)) as Hs.
  { intros p q Hp Hlt. pose proof (total_insert (procs w) i p q Hp). lia. }
  destruct 1 as [p m Hp Hph|p m Hp Hph|p m w' owns Hp Hph Hf|p m Hp Hph|p Hp Hab Hne]; cbn.
  - enough (total (<[i := in_phase p (Returned m)]> (procs w)) < total (procs w)) by lia.
    apply (Hs p); [done|]. unfold weight at 2. rewrite Hph. cbn. lia.
  - enough (total (<[i := in_phase p (if token_cancelled p then Over else Committed m)]> (procs w)) < total (procs w)) by lia.
    apply (Hs p); [done|]. unfold weight at 2. rewrite Hph. destruct (token_cancelled p); cbn; lia.
  - assert (procs w' = procs w ∧ coord w' = coord w) as [-> ->].
    { unfold on_task_finished in Hf. destruct (active_turn w) as [at_|]; [|by injection Hf as <- _].
      destruct (remove_task at_ i); by injection Hf as <- _. }
    enough (total (<[i := in_phase p (if owns then Completing m else Over)]> (procs w)) < total (procs w)) by lia.
    apply (Hs p); [done|]. unfold weight at 2. rewrite Hph. destruct owns; cbn; lia.
  - enough (total (<[i := in_phase p Over]> (procs w)) < total (procs w)) by lia.
    apply (Hs p); [done|]. unfold weight at 2. rewrite Hph. cbn. lia.
  - enough (total (<[i := in_phase p Over]> (procs w)) < total (procs w)) by lia.
    apply (Hs p); [done|]. unfold weight. cbn. by destruct (phase p); try lia.
Qed.

Lemma internal_decreases w w' : inv w → internal w w' → fuel_of w' < fuel_of w.
Proof. intros H [w1 Hc|i w1 Ht]; [by apply coordinator_decreases|by eapply task_decreases]. Qed.
Lemma inv_internals n w w' : inv w → nsteps internal n w w' → inv w' ∧ fuel_of w' + n ≤ fuel_of w.
Proof.
  intros H Hs. revert H. induction Hs as [|n w1 w2 w3 Hi _ IH]; intros H; [split; [done|lia]|].
  destruct IH as [H3 Hf]; [eapply inv_step; [exact H|by left]|]. split; [done|].
  pose proof (internal_decreases w1 w2 H Hi). lia.
Qed.

(** Where the system cannot move by itself nothing runs. *)
Lemma stuck_is_over w :
  inv w → (∀ w', ¬ internal w w') →
  coord w = Ready ∧ active_turn w = None ∧ ∀ i p, procs w !! i = Some p → phase p = Over.
Proof.
  intros H Hst.
  assert (coord w = Ready) as Hc.
  { destruct (coordinator_step w) as [w'|] eqn:E; [by destruct (Hst w'); constructor|].
    unfold coordinator_step in E. by repeat case_match. }
  assert (∀ i p, procs w !! i = Some p → phase p = Over) as Ho.
  { intros i p Hp. destruct (phase p) as [|  |m|m|m|] eqn:Hph; [|exfalso..|done].
    - destruct (inv_created w H i p Hp Hph) as [E|E]; by rewrite Hc in E.
    - by eapply Hst, internal_task, (task_returns w i p None).
    - by eapply Hst, internal_task, (task_checks w i p m).
    - destruct (on_task_finished w i) as [w' owns] eqn:E. by eapply Hst, internal_task, (task_finishes w i p m).
    - by eapply Hst, internal_task, (task_completes w i p m). }
  split_and!; [done| |done]. destruct (active_turn w) as [at_|] eqn:Ea; [|done]. exfalso.
  destruct (inv_single w H at_ Ea) as [i Hi].
  assert (i ∈ active_tasks w) as Hin by (unfold active_tasks; rewrite Ea, Hi; constructor).
  destruct (inv_known w i H) as [p Hp]; [apply count_pos in Hin; unfold owners; lia|].
  by destruct (inv_over w H i p Hp (Ho i p Hp)).
Qed.

(** ** The promises of the lifecycle *)
Lemma owner_cases w i :
  inv w → is_Some (procs w !! i) → ended w i = 0 →
  i ∈ active_tasks w ∨ i ∈ held (coord w) ∨ completing w i = 1.
Proof.
  intros H Hs. pose proof (inv_owner w H i) as Ho. rewrite decide_True in Ho by done. unfold owners in Ho.
  rewrite !count_pos. lia.
Qed.

(** C15. Every turn that was started ends with exactly one event. However tasks,
    interruptions, replacements and completions race, a turn never has a second
    terminal event, and none before it was started; until it has its event, it is
    in the hands of exactly one: the active turn, the coordinator that aborts it or
    starts it, or its own process on the way to [TurnComplete]. *)
Theorem turn_ends_once (w : World) i :
  reachable w →
  ended w i ≤ 1 ∧
  (procs w !! i = None → ended w i = 0 ∧ i ∉ active_tasks w) ∧
  (is_Some (procs w !! i) → ended w i = 0 →
   i ∈ active_tasks w ∨ i ∈ held (coord w) ∨ completing w i = 1) ∧
  (ended w i = 1 → i ∉ active_tasks w ∧ i ∉ held (coord w) ∧ completing w i = 0).
Proof.
  intros Hr. pose proof (inv_owner w (inv_reachable w Hr) i) as Ho. unfold owners in Ho.
  rewrite <-!count_0, !count_pos. split_and!.
  - case_decide; lia.
  - intros Hn. rewrite decide_False in Ho by (rewrite Hn; by intros []). lia.
  - intros Hs He. rewrite <-!count_pos. by apply owner_cases; [apply inv_reachable|..].
  - case_decide; lia.
Qed.

(** C29. At most one task runs. Of the processes of a session that are in their
    [run] or on their way out of it, all but one had their handle aborted. *)
Theorem one_task_runs (w : World) i j p q :
  reachable w → procs w !! i = Some p → procs w !! j = Some q →
  live p = true → live q = true → aborted p = false → aborted q = false → i = j.
Proof.
  intros Hr. pose proof (inv_reachable w Hr) as H. pose proof (alone_reachable w Hr) as Ha.
  assert (∀ k r, procs w !! k = Some r → live r = true → aborted r = false →
    k ∈ active_tasks w ++ held (coord w)) as Hin.
  { intros k r Hk Hl Hb. apply elem_of_app. assert (ended w k = 0) as He.
    { destruct (ended w k) eqn:E; [done|]. destruct (alone_stopped w Ha k r Hk); [left; lia|congruence..]. }
    destruct (owner_cases w k H) as [|[|Hc]]; [by exists r|done|by left|by right|].
    - unfold completing, is_completing in Hc. rewrite Hk in Hc. unfold live in Hl. by destruct (phase r). }
  intros Hp Hq Hlp Hlq Hap Haq. pose proof (Hin i p Hp Hlp Hap) as Hi. pose proof (Hin j q Hq Hlq Haq) as Hj.
  pose proof (alone_single w Ha) as Hs. destruct (active_tasks w ++ held (coord w)) as [|x [|]]; cbn in Hs; try lia;
    set_solver.
Qed.

(** C28. A session comes to rest. As long as the [run] of every task returns, and
    without new submissions, the coordinator and the tasks take at most
    [fuel_of w] more steps, in any order; where they have stopped the coordinator
    is free for the next submission, no turn is active, and every turn that was
    ever started has its one terminal event. *)
Theorem session_comes_to_rest (w : World) :
  reachable w →
  (∀ n w', nsteps internal n w w' → n ≤ fuel_of w) ∧
  (∀ w', rtc internal w w' → (∀ w2, ¬ internal w' w2) →
   coord w' = Ready ∧ active_turn w' = None ∧
   ∀ i, is_Some (procs w' !! i) → ended w' i = 1).
Proof.
  intros Hr. pose proof (inv_reachable w Hr) as H. split.
  - intros n w' Hn. destruct (inv_internals n w w' H Hn). lia.
  - intros w' [n Hn]%rtc_nsteps Hst. destruct (inv_internals n w w' H Hn) as [H' _].
    destruct (stuck_is_over w' H' Hst) as (Hc & Ha & Ho). split_and!; [done..|]. intros i [p Hp].
    pose proof (inv_owner w' H' i) as Hi. rewrite decide_True in Hi by (by exists p).
    unfold owners, completing, active_tasks, is_completing in Hi.
    rewrite Hc, Ha, Hp, (Ho i p Hp) in Hi. cbn [held] in Hi. rewrite !count_nil in Hi. lia.
Qed.
End Ownership.

(** ** Races *)
Section Moves.
Context {Input : Type}.
Inductive Move :=
| MSubmit (i : str) | MInterrupt | MCoordinator | MInject (x : Input) | MTakeInput (i : str)
| MReturn (i : str) (m : option str) | MCheck (i : str) | MFinish (i : str) | MComplete (i : str).
Definition move (w : World Input) (m : Move) : option (World Input) :=
  match m with
  | MSubmit i =>
      match coord w, procs w !! i with
      | Ready, None => let '(taken, w') := take_all_running_tasks w in
                       Some (set_coord w' (Aborting taken Replaced (Some i)))
      | _, _ => None
      end
  | MInterrupt =>
      match coord w with
      | Ready => let '(taken, w') := take_all_running_tasks w in
                 Some (set_coord w' (Aborting taken Interrupted None))
      | _ => None
      end
  | MCoordinator => coordinator_step w
  | MInject x => Some (inject_input w x).1
  | MTakeInput i =>
      p ← procs w !! i; match phase p with Running => Some (get_pending_input w) | _ => None end
  | MReturn i m =>
      p ← procs w !! i;
      match phase p with Running => Some (set_proc w i (in_phase p (Returned m))) | _ => None end
  | MCheck i =>
      p ← procs w !! i;
      match phase p with
      | Returned m => Some (set_proc w i (in_phase p (if token_cancelled p then Over else Committed m)))
      | _ => None
      end
  | MFinish i =>
      p ← procs w !! i;
      match phase p with
      | Committed m => let '(w', owns) := on_task_finished w i in
                       Some (set_proc w' i (in_phase p (if owns : bool then Completing m else Over)))
      | _ => None
      end
  | MComplete i =>
      p ← procs w !! i;
      match phase p with
      | Completing m => Some (set_proc (send w i (TurnCompleteEvent m)) i (in_phase p Over))
      | _ => None
      end
  end.
Fixpoint moves (w : World Input) (l : list Move) : option (World Input) :=
  match l with [] => Some w | m :: rest => w ← move w m; moves w rest end.

Lemma move_step w m w' : move w m = Some w' → step w w'.
Proof.
  destruct m; cbn [move].
  - destruct (coord w) eqn:Hc; try done. destruct (procs w !! i) eqn:Hp; [done|].
    destruct (take_all_running_tasks w) as [taken w1] eqn:Ht. intros [= <-]. right. by apply submit_task.
  - destruct (coord w) eqn:Hc; try done.
    destruct (take_all_running_tasks w) as [taken w1] eqn:Ht. intros [= <-]. right. by apply submit_interrupt.
  - intros Hc. left. by apply internal_coordinator.
  - intros [= <-]. right. eapply submit_input. by rewrite <-surjective_pairing.
  - intros (p & Hp & H)%bind_Some. destruct (phase p) eqn:Hph; try done. injection H as <-. right. by eapply task_takes_input.
  - intros (p & Hp & H)%bind_Some. destruct (phase p) eqn:Hph; try done. injection H as <-.
    left. eapply internal_task. by apply task_returns.
  - intros (p & Hp & H)%bind_Some. destruct (phase p) eqn:Hph; try done. injection H as <-.
    left. eapply internal_task. by eapply task_checks.
  - intros (p & Hp & H)%bind_Some. destruct (phase p) eqn:Hph; try done.
    destruct (on_task_finished w i) as [w1 owns] eqn:E. injection H as <-.
    left. eapply internal_task. by eapply task_finishes.
  - intros (p & Hp & H)%bind_Some. destruct (phase p) eqn:Hph; try done. injection H as <-.
    left. eapply internal_task. by eapply task_completes.
Qed.
Lemma moves_reachable l w : moves world_new l = Some w → reachable w.
Proof.
  unfold reachable. assert (∀ w0, moves w0 l = Some w → rtc step w0 w) as H; [|apply H].
  induction l as [|m l IH]; intros w0; cbn [moves]; [by intros [= ->]|].
  intros (w1 & H1 & H2)%bind_Some. eapply rtc_l; [by eapply move_step|by apply IH].
Qed.
End Moves.

(** Submission 1 is started, its task returns; submission 2 replaces it. *)
Definition start_moves (i : str) : list (Move (Input:=str)) :=
  [MSubmit i; MCoordinator; MCoordinator; MCoordinator].

Lemma turn_ends_once_witness :
  ∃ w : World str, reachable w ∧ log w = [(§"1", TurnAbortedEvent Replaced)] ∧
    active_tasks w = [§"2"] ∧ ended w §"1" ≤ 1.
Proof.
  destruct (moves world_new (start_moves §"1" ++ [MReturn §"1" None; MSubmit §"2"; MCoordinator; MCheck §"1";
              MCoordinator; MCoordinator; MCoordinator; MCoordinator; MCoordinator])) as [w|] eqn:E;
    [|by vm_compute in E].
  exists w. pose proof (moves_reachable _ _ E) as Hr. split; [done|].
  assert (log w = [(§"1", TurnAbortedEvent Replaced)] ∧ active_tasks w = [§"2"]) as [? ?]
    by (vm_compute in E; injection E as <-; by vm_compute).
  split_and!; [done..|]. apply (turn_ends_once w §"1" Hr).
Defined.

Lemma one_task_runs_witness :
  ∃ w : World str, reachable w ∧ active_tasks w = [§"1"] ∧
    ∀ j q, procs w !! j = Some q → live q = true → aborted q = false → §"1" = j.
Proof.
  destruct (moves world_new (start_moves §"1")) as [w|] eqn:E; [|by vm_compute in E].
  exists w. pose proof (moves_reachable _ _ E) as Hr. vm_compute in E. injection E as <-.
  split; [exact Hr|]. split; [by vm_compute|]. intros j q Hq Hl Ha.
  eapply (one_task_runs _ §"1" j _ q Hr); [by vm_compute|exact Hq|done|done|done|done].
Defined.

Lemma session_comes_to_rest_witness :
  ∃ w : World str, reachable w ∧ fuel_of w = 5 ∧ ∀ n w', nsteps internal n w w' → n ≤ 5.
Proof.
  destruct (moves world_new (start_moves §"1")) as [w|] eqn:E; [|by vm_compute in E].
  exists w. pose proof (moves_reachable _ _ E) as Hr. split; [done|].
  assert (fuel_of w = 5) as Hf by (vm_compute in E; injection E as <-; by vm_compute).
  split; [done|]. rewrite <-Hf. apply (session_comes_to_rest w Hr).
Defined.

(** Input that arrives after the last look at [has_pending_input] and before
    [on_task_finished] is accepted and never delivered: the turn ends normally and
    takes it along. *)
Example accepted_input_is_lost :
  match moves world_new (start_moves §"1" ++ [MTakeInput §"1"; MReturn §"1" (Some §"done"); MInject §"wait";
          MCheck §"1"; MFinish §"1"; MComplete §"1"]) with
  | Some w => accepted w = [§"wait"] ∧ delivered w = [] ∧ active_turn w = None ∧ coord w = Ready ∧
              log w = [(§"1", TurnCompleteEvent (Some §"done"))]
  | None => False
  end.
Proof. by vm_compute. Qed.

(** [TurnComplete] is sent after the lock was given back: the next turn can be
    running, and have sent its events, before the last one is reported complete. *)
Example completion_after_next_start :
  match moves world_new (start_moves §"1" ++ [MReturn §"1" (Some §"done"); MCheck §"1"; MFinish §"1"]
          ++ start_moves §"2") with
  | Some w => active_tasks w = [§"2"] ∧ (phase <$> procs w !! §"2") = Some Running ∧ log w = [] ∧
              (log <$> move w (MComplete §"1")) = Some [(§"1", TurnCompleteEvent (Some §"done"))]
  | None => False
  end.
Proof. by vm_compute. Qed.
