(* ===== verification/Toml.v ===== *)
(** * TOML values and how they are merged ([config/src/merge.rs],
    [config/src/overrides.rs], [config/src/fingerprint.rs], and the walks over a
    value in [core/src/config_loader/mod.rs])

    A table is a list of entries sorted by key, as the map of the [toml] crate
    keeps it. *)
From S2P Require Import Prelude RustStr.
From Stdlib Require Import Sorted.

(** ** Values *)
(** Floats and dates are opaque: their text. *)
Inductive TomlValue :=
| TString (s : str)
| TInteger (i : Z)
| TFloat (repr : str)
| TBoolean (b : bool)
| TDatetime (repr : str)
| TArray (items : list TomlValue)
| TTable (table : list (str * TomlValue)).

Definition is_table (v : TomlValue) : bool := match v with TTable _ => true | _ => false end.

(** The order of [str]: by scalar values, which is the order of the UTF-8 bytes. *)
Fixpoint str_lt (s t : str) : bool :=
  match s, t with
  | _, [] => false
  | [], _ :: _ => true
  | x :: s', y :: t' => (x <? y)%N || bool_decide (x = y) && str_lt s' t'
  end.

Section Tables.
Context {V : Type}.

(** [Map::get], [insert], [remove]. *)
Fixpoint tget (k : str) (t : list (str * V)) : option V :=
  match t with
  | [] => None
  | (k', v) :: t' => if decide (k' = k) then Some v else tget k t'
  end.
Fixpoint tinsert (k : str) (v : V) (t : list (str * V)) : list (str * V) :=
  match t with
  | [] => [(k, v)]
  | (k', v') :: t' =>
      if decide (k' = k) then (k, v) :: t'
      else if str_lt k k' then (k, v) :: t else (k', v') :: tinsert k v t'
  end.
Fixpoint tremove (k : str) (t : list (str * V)) : list (str * V) :=
  match t with
  | [] => []
  | (k', v) :: t' => if decide (k' = k) then t' else (k', v) :: tremove k t'
  end.
End Tables.

(** ** Merging: [overlay] over [base] *)
Fixpoint merge_toml_values (base overlay : TomlValue) {struct overlay} : TomlValue :=
  match overlay, base with
  | TTable overlay_table, TTable base_table =>
      TTable
        ((fix go (overlay_table base_table : list (str * TomlValue)) :=
            match overlay_table with
            | [] => base_table
            | (key, value) :: rest =>
                go rest
                  (match tget key base_table with
                   | Some existing => tinsert key (merge_toml_values existing value) base_table
                   | None => tinsert key value base_table
                   end)
            end) overlay_table base_table)
  | _, _ => overlay
  end.

(** The loop, on its own. *)
Fixpoint merge_tables (overlay_table base_table : list (str * TomlValue)) : list (str * TomlValue) :=
  match overlay_table with
  | [] => base_table
  | (key, value) :: rest =>
      merge_tables rest
        (match tget key base_table with
         | Some existing => tinsert key (merge_toml_values existing value) base_table
         | None => tinsert key value base_table
         end)
  end.

(** ** Overrides by dotted path *)
(** The rest of the loop at [current], with the segments to go. *)
Fixpoint override_at (current : TomlValue) (segments : list str) (value : TomlValue) : TomlValue :=
  match segments with
  | [] => current
  | segment :: rest =>
      let table := match current with TTable table => table | _ => [] end in
      match rest with
      | [] => TTable (tinsert segment value table)
      | _ :: _ =>
          TTable (tinsert segment
                    (override_at (default (TTable []) (tget segment table)) rest value) table)
      end
  end.

Definition apply_toml_override (root : TomlValue) (path : str) (value : TomlValue) : TomlValue :=
  override_at root (split_on DOT path) value.

Definition build_cli_overrides_layer (cli_overrides : list (str * TomlValue)) : TomlValue :=
  foldl (λ root pv, apply_toml_override root pv.1 pv.2) (TTable []) cli_overrides.

(** ** Walks *)
Definition decimal_digit (n : nat) : char := (48 + N.of_nat n)%N.
(** [i32::to_string] of a non-negative number. *)
Fixpoint decimal_rev (fuel n : nat) : str :=
  match fuel with
  | 0 => []
  | S fuel' =>
      decimal_digit (n mod 10) :: (if decide (n < 10) then [] else decimal_rev fuel' (n / 10))
  end.
Definition decimal (n : nat) : str := reverse (decimal_rev (S n) n).

Section Origins.
Context {Meta : Type}.

(** [record_origins]: the path is a list of segments, joined when it is a key. *)
Fixpoint record_origins (value : TomlValue) (meta : Meta) (path : list str)
    (origins : gmap str Meta) : gmap str Meta :=
  match value with
  | TTable table =>
      (fix entries (table : list (str * TomlValue)) (origins : gmap str Meta) :=
         match table with
         | [] => origins
         | (key, val) :: rest => entries rest (record_origins val meta (path ++ [key]) origins)
         end) table origins
  | TArray items =>
      (fix elements (idx : nat) (items : list TomlValue) (origins : gmap str Meta) :=
         match items with
         | [] => origins
         | item :: rest =>
             elements (S idx) rest (record_origins item meta (path ++ [decimal idx]) origins)
         end) 0 items origins
  | _ => if bool_decide (path = []) then origins else <[join [DOT] path := meta]> origins
  end.
End Origins.

(** [copy_shape_from_original]. *)
Fixpoint copy_shape_from_original (original resolved : TomlValue) : TomlValue :=
  match original, resolved with
  | TTable original_table, TTable resolved_table =>
      TTable
        ((fix go (original_table acc : list (str * TomlValue)) :=
            match original_table with
            | [] => acc
            | (key, original_value) :: rest =>
                let resolved_value := default original_value (tget key resolved_table) in
                go rest (tinsert key (copy_shape_from_original original_value resolved_value) acc)
            end) original_table [])
  | TArray original_array, TArray resolved_array =>
      TArray
        ((fix go (index : nat) (original_array : list TomlValue) :=
            match original_array with
            | [] => []
            | original_value :: rest =>
                let resolved_value := default original_value (resolved_array !! index) in
                copy_shape_from_original original_value resolved_value :: go (S index) rest
            end) 0 original_array)
  | _, resolved_value => resolved_value
  end.

(** ** Environment variables in strings *)
(** [s.split_once(pat)] for a string pattern. *)
Fixpoint split_once_str (pat s : str) : option (str * str) :=
  match strip_prefix pat s with
  | Some rest => Some ([], rest)
  | None =>
      match s with
      | [] => None
      | c :: s' =>
          match split_once_str pat s' with Some (a, b) => Some (c :: a, b) | None => None end
      end
  end.

Section Env.
(** [std::env::var(name).ok()]. *)
Context (env : str → option str).

Definition nonempty_var (name : str) : option str :=
  match env name with
  | Some value => if bool_decide (value = []) then None else Some value
  | None => None
  end.

Definition resolve_env_expr (expr : str) : result str str :=
  match split_once_str (§":?") expr with
  | Some (name, message) =>
      let name := trim name in
      if bool_decide (name = []) then Ok []
      else match nonempty_var name with
           | Some value => Ok value
           | None =>
               Err (if bool_decide (trim message = [])
                    then §"required environment variable '" ++ name ++ §"' is missing"
                    else trim message)
           end
  | None =>
      match split_once_str (§":-") expr with
      | Some (name, dflt) =>
          let name := trim name in
          if bool_decide (name = []) then Ok dflt else Ok (default dflt (nonempty_var name))
      | None =>
          let name := trim expr in
          if bool_decide (name = []) then Ok [] else Ok (default [] (env name))
      end
  end.

Definition RBRACE : char := 125%N.

(** The loop, on what is left of the input. *)
Fixpoint expand_loop (fuel : nat) (input : str) : result str str :=
  match fuel with
  | 0 => Ok input
  | S fuel' =>
      match split_once_str (§"${") input with
      | None => Ok input
      | Some (before, rest) =>
          match split_once RBRACE rest with
          | None => Ok (before ++ §"${" ++ rest)
          | Some (expr, rest') =>
              value ← resolve_env_expr expr;
              output ← expand_loop fuel' rest';
              Ok (before ++ value ++ output)
          end
      end
  end.
Definition expand_env_placeholders (input : str) : result str str :=
  expand_loop (length input) input.

Fixpoint substitute_env_vars_in_toml_value (value : TomlValue) : result str TomlValue :=
  match value with
  | TString text => text ← expand_env_placeholders text; Ok (TString text)
  | TArray items =>
      items ← (fix go (items : list TomlValue) : result str (list TomlValue) :=
                 match items with
                 | [] => Ok []
                 | item :: rest =>
                     item ← substitute_env_vars_in_toml_value item; rest ← go rest; Ok (item :: rest)
                 end) items;
      Ok (TArray items)
  | TTable table =>
      table ← (fix go (table : list (str * TomlValue)) : result str (list (str * TomlValue)) :=
                 match table with
                 | [] => Ok []
                 | (key, item) :: rest =>
                     item ← substitute_env_vars_in_toml_value item; rest ← go rest;
                     Ok ((key, item) :: rest)
                 end) table;
      Ok (TTable table)
  | _ => Ok value
  end.
End Env.

(** ** Paths into a value *)
Fixpoint get (path : list str) (v : TomlValue) : option TomlValue :=
  match path with
  | [] => Some v
  | k :: path' => match v with TTable t => tget k t ≫= get path' | _ => None end
  end.

(** What a path ends in, unless that is a table. *)
Definition leaf (path : list str) (v : TomlValue) : option TomlValue :=
  match get path v with Some v => if is_table v then None else Some v | None => None end.

(** A value says nothing about a path: the walk stops in a table without the key. *)
Fixpoint silent (v : TomlValue) (path : list str) : bool :=
  match path, v with
  | k :: path', TTable t => match tget k t with None => true | Some v' => silent v' path' end
  | _, _ => false
  end.

(** Tables are sorted by key: each key occurs once. *)
Definition key_lt {V} (a b : str * V) : Prop := str_lt a.1 b.1 = true.
Fixpoint toml_wf (v : TomlValue) : Prop :=
  match v with
  | TTable t =>
      StronglySorted key_lt t ∧
      (fix all (t : list (str * TomlValue)) : Prop :=
         match t with [] => True | (_, v) :: t' => toml_wf v ∧ all t' end) t
  | TArray items =>
      (fix all (items : list TomlValue) : Prop :=
         match items with [] => True | v :: items' => toml_wf v ∧ all items' end) items
  | _ => True
  end.

(** * Correctness *)
(** ** Tables *)
Section TableFacts.
Context {V : Type}.
Implicit Types (t : list (str * V)).

Lemma tget_tinsert k v t : tget k (tinsert k v t) = Some v.
Proof.
  induction t as [|[k' v'] t IH]; cbn; [by rewrite decide_True|].
  destruct (decide (k' = k)); [cbn; by rewrite decide_True|].
  destruct (str_lt k k'); cbn; [by rewrite decide_True|]. by rewrite decide_False.
Qed.
Lemma tget_tinsert_ne k k2 v t : k2 ≠ k → tget k2 (tinsert k v t) = tget k2 t.
Proof.
  intros Hne. induction t as [|[k' v'] t IH]; cbn; [by rewrite decide_False|].
  destruct (decide (k' = k)) as [->|]; [cbn; by rewrite !decide_False by done|].
  destruct (str_lt k k'); cbn; [by rewrite decide_False by done|].
  destruct (decide (k' = k2)); [done|]. apply IH.
Qed.
Lemma tget_None k t : tget k t = None ↔ k ∉ t.*1.
Proof.
  induction t as [|[k' v'] t IH]; cbn; [set_solver|].
  destruct (decide (k' = k)); [set_solver|]. rewrite IH. set_solver.
Qed.
Lemma tget_Some_in k v t : tget k t = Some v → (k, v) ∈ t.
Proof.
  induction t as [|[k' v'] t IH]; cbn; [done|].
  destruct (decide (k' = k)) as [->|]; [intros [= ->]; by left|]. right. auto.
Qed.
Lemma tget_in k v t : NoDup t.*1 → (k, v) ∈ t → tget k t = Some v.
Proof.
  induction t as [|[k' v'] t IH]; cbn; [by intros _ ?%elem_of_nil|].
  intros [Hn Hd]%NoDup_cons [[= <- <-]|Hin]%elem_of_cons; [by rewrite decide_True|].
  rewrite decide_False; [by apply IH|]. intros ->. apply Hn. apply list_elem_of_fmap. by exists (k, v).
Qed.

(** The order is strict and total. *)
Lemma str_lt_irrefl s : str_lt s s = false.
Proof.
  induction s as [|x s IH]; cbn; [done|]. rewrite bool_decide_true, IH by done.
  by rewrite N.ltb_irrefl.
Qed.
Lemma str_lt_trans (s t u : str) : str_lt s t = true → str_lt t u = true → str_lt s u = true.
Proof.
  revert t u. induction s as [|x s IH]; intros [|y t] [|z u]; cbn; try done.
  rewrite !orb_true_iff, !andb_true_iff, !N.ltb_lt, !bool_decide_eq_true.
  intros [?|[-> ?]] [?|[-> ?]]; [left; lia|by left|by left|right; split; [done|]; by eapply IH].
Qed.
Lemma str_lt_total (s t : str) : s ≠ t → str_lt s t = false → str_lt t s = true.
Proof.
  revert t. induction s as [|x s IH]; intros [|y t]; cbn; try done.
  rewrite !orb_false_iff, !andb_false_iff, N.ltb_ge, bool_decide_eq_false, orb_true_iff, andb_true_iff,
    N.ltb_lt, bool_decide_eq_true.
  intros Hne [Hle Hs]. destruct (decide (x = y)) as [->|]; [|left; lia].
  right. split; [done|]. apply IH; [congruence|]. by destruct Hs.
Qed.

Lemma tinsert_Forall (P : str * V → Prop) k v t : P (k, v) → Forall P t → Forall P (tinsert k v t).
Proof.
  intros Hk. induction 1 as [|[k' v'] t Hx Ht IH]; cbn; [by repeat constructor|].
  destruct (decide (k' = k)); [by constructor|]. destruct (str_lt k k'); by repeat constructor.
Qed.
Lemma tinsert_sorted k v t : StronglySorted key_lt t → StronglySorted key_lt (tinsert k v t).
Proof.
  induction 1 as [|[k' v'] t Ht IH Hall]; cbn; [by repeat constructor|].
  destruct (decide (k' = k)) as [->|Hne]; [by constructor|].
  destruct (str_lt k k') eqn:Hlt.
  - constructor; [by constructor|]. constructor; [done|]. eapply Forall_impl; [exact Hall|].
    intros [k2 v2] H2. by eapply str_lt_trans.
  - constructor; [done|]. apply tinsert_Forall; [|done]. by apply str_lt_total.
Qed.
Lemma sorted_NoDup t : StronglySorted key_lt t → NoDup t.*1.
Proof.
  induction 1 as [|[k v] t Ht IH Hall]; cbn; [constructor|]. constructor; [|done].
  intros ([k2 v2] & -> & Hin)%list_elem_of_fmap. rewrite Forall_forall in Hall.
  specialize (Hall _ Hin). unfold key_lt in Hall. cbn in Hall. by rewrite str_lt_irrefl in Hall.
Qed.
End TableFacts.

(** ** Well-formed values *)
Lemma toml_wf_table t :
  toml_wf (TTable t) ↔ StronglySorted key_lt t ∧ Forall (λ kv, toml_wf kv.2) t.
Proof.
  cbn. apply and_iff_compat_l. induction t as [|[k v] t IH]; [done|]. by rewrite Forall_cons, IH.
Qed.
Lemma toml_wf_get k t v : toml_wf (TTable t) → tget k t = Some v → toml_wf v.
Proof.
  intros [_ Hall]%toml_wf_table Hg%tget_Some_in. rewrite Forall_forall in Hall. by apply (Hall (k, v)).
Qed.

(** Induction over a value and the values inside it. *)
Lemma toml_ind' (P : TomlValue → Prop) :
  (∀ t, Forall (λ kv, P kv.2) t → P (TTable t)) →
  (∀ items, Forall P items → P (TArray items)) →
  (∀ v, is_table v = false → (∀ items, v ≠ TArray items) → P v) → ∀ v, P v.
Proof.
  intros Ht Ha Hs. fix IH 1. intros [s|i|r|b|r|items|t]; try (by apply Hs).
  - apply Ha. induction items as [|x items IHi]; [constructor|by constructor; [apply IH|]].
  - apply Ht. induction t as [|[k v] t IHt]; [constructor|by constructor; [apply IH|]].
Qed.

Lemma merge_tables_eq bt ot :
  merge_toml_values (TTable bt) (TTable ot) = TTable (merge_tables ot bt).
Proof. done. Qed.

Lemma merge_not_tables b o :
  is_table b && is_table o = false → merge_toml_values b o = o.
Proof. by destruct b, o. Qed.

(** Merging keeps tables sorted. *)
Lemma merge_wf b o : toml_wf b → toml_wf o → toml_wf (merge_toml_values b o).
Proof.
  revert b. induction o as [ot IH|items _|o Ht Ha] using toml_ind'; intros b Hb Ho.
  - destruct (is_table b) eqn:Eb; [|by rewrite merge_not_tables by by rewrite Eb].
    destruct b as [| | | | | |bt]; try done. rewrite merge_tables_eq.
    apply toml_wf_table in Ho as [_ Ho]. clear Eb. revert bt Hb.
    induction ot as [|[k v] ot IHot]; intros bt Hb; [done|].
    apply Forall_cons in IH as [IHv IH]. apply Forall_cons in Ho as [Hv Ho].
    cbn [merge_tables]. apply IHot; [done|done|]. pose proof Hb as [Hs Hall]%toml_wf_table.
    destruct (tget k bt) as [e|] eqn:Ek; apply toml_wf_table;
      (split; [by apply tinsert_sorted|]); apply tinsert_Forall; try done.
    apply IHv; [by eapply toml_wf_get|done].
  - by rewrite merge_not_tables by by destruct b.
  - by rewrite merge_not_tables by (by rewrite Ht, andb_false_r).
Qed.

(** ** Looking into a merged value *)
Lemma merge_tables_get k ot bt :
  NoDup ot.*1 →
  tget k (merge_tables ot bt) =
  match tget k ot with
  | Some v => Some (match tget k bt with Some e => merge_toml_values e v | None => v end)
  | None => tget k bt
  end.
Proof.
  revert bt. induction ot as [|[k' v] ot IH]; intros bt; [done|]. cbn [fmap list_fmap fst merge_tables].
  intros [Hn Hd]%NoDup_cons. rewrite IH by done. cbn [tget].
  destruct (decide (k' = k)) as [->|Hne].
  - apply tget_None in Hn. rewrite Hn. destruct (tget k bt); by rewrite tget_tinsert.
  - destruct (tget k' bt); by rewrite tget_tinsert_ne by done.
Qed.

Lemma silent_leaf path v : silent v path = true → leaf path v = None.
Proof.
  unfold leaf. revert v. induction path as [|k path IH]; intros v; [done|].
  destruct v as [| | | | | |t]; try done. cbn. destruct (tget k t) as [v|]; [|done]. apply IH.
Qed.

Lemma leaf_cons k path t : leaf (k :: path) (TTable t) = tget k t ≫= leaf path.
Proof. unfold leaf. cbn. by destruct (tget k t). Qed.
Lemma leaf_not_table k path v : is_table v = false → leaf (k :: path) v = None.
Proof. by destruct v. Qed.

(** The overlay decides about a path unless it is silent about it. *)
Lemma merge_leaf path base overlay :
  toml_wf overlay →
  leaf path (merge_toml_values base overlay)
  = if silent overlay path then leaf path base else leaf path overlay.
Proof.
  revert base overlay. induction path as [|k path IH]; intros b o Ho.
  { destruct (is_table b && is_table o) eqn:E; [|by rewrite merge_not_tables].
    by destruct b, o. }
  destruct (is_table o) eqn:Eo.
  2: { rewrite merge_not_tables by by rewrite Eo, andb_false_r. by destruct o. }
  destruct o as [| | | | | |ot]; try done. destruct (is_table b) eqn:Eb.
  2: { rewrite merge_not_tables, (leaf_not_table k path b) by by rewrite ?Eb.
       destruct (silent _ _) eqn:Es; [|done]. by apply silent_leaf. }
  destruct b as [| | | | | |bt]; try done. rewrite merge_tables_eq, !leaf_cons.
  pose proof Ho as [Hs _]%toml_wf_table. rewrite merge_tables_get by by apply sorted_NoDup.
  cbn [silent]. destruct (tget k ot) as [v|] eqn:Ek; [|done]. cbn [mbind option_bind].
  destruct (tget k bt) as [e|]; cbn [mbind option_bind].
  - apply IH. by eapply toml_wf_get.
  - destruct (silent v path) eqn:Ev; [|done]. by apply silent_leaf.
Qed.

(** ** Overrides *)
Lemma override_at_leaf path current value :
  path ≠ [] → is_table value = false → leaf path (override_at current path value) = Some value.
Proof.
  intros Hne Hv. revert current. induction path as [|k path IH]; intros cur; [done|].
  cbn [override_at]. destruct path as [|k2 path]; rewrite leaf_cons, tget_tinsert; cbn [mbind option_bind].
  - unfold leaf. cbn. by rewrite Hv.
  - by apply IH.
Qed.

Lemma override_at_get path current value :
  path ≠ [] → get path (override_at current path value) = Some value.
Proof.
  intros Hne. revert current. induction path as [|k path IH]; intros cur; [done|].
  cbn [override_at]. destruct path as [|k2 path]; cbn [get]; rewrite tget_tinsert; [done|].
  cbn [mbind option_bind]. by apply IH.
Qed.

(** Paths that part ways with the override keep what they had. *)
Fixpoint diverge (p q : list str) : bool :=
  match p, q with
  | x :: p', y :: q' => if decide (x = y) then diverge p' q' else true
  | _, _ => false
  end.

Lemma override_at_cons cur k k2 path value :
  let table := match cur with TTable table => table | _ => [] end in
  override_at cur (k :: k2 :: path) value
  = TTable (tinsert k (override_at (default (TTable []) (tget k table)) (k2 :: path) value) table).
Proof. done. Qed.

Lemma override_at_other path current value q :
  diverge path q = true → leaf q (override_at current path value) = leaf q current.
Proof.
  revert current q. induction path as [|k path IH]; intros cur [|k' q]; try done.
  cbn [diverge]. destruct (decide (k = k')) as [<-|Hne]; intros Hd.
  - destruct path as [|k2 path]; [done|]. rewrite override_at_cons, leaf_cons, tget_tinsert.
    cbn [mbind option_bind]. rewrite IH by done.
    destruct cur as [| | | | | |t]; try (by destruct q).
    rewrite leaf_cons. destruct (tget k t); [done|]. by destruct q.
  - cbn [override_at]. set (v := match path with [] => _ | _ => _ end).
    assert (∀ v t, leaf (k' :: q) (TTable (tinsert k v t)) = leaf (k' :: q) (TTable t)) as Hl.
    { intros v' t. by rewrite !leaf_cons, tget_tinsert_ne. }
    destruct path; cbn [v]; subst v; rewrite Hl; by destruct cur.
Qed.

(** ** The paths of the scalars of a value *)
Fixpoint scalar_paths (v : TomlValue) : list (list str) :=
  match v with
  | TTable t =>
      (fix go (t : list (str * TomlValue)) : list (list str) :=
         match t with [] => [] | (k, v) :: t' => (cons k <$> scalar_paths v) ++ go t' end) t
  | TArray items =>
      (fix go (idx : nat) (items : list TomlValue) : list (list str) :=
         match items with
         | [] => []
         | v :: items' => (cons (decimal idx) <$> scalar_paths v) ++ go (S idx) items'
         end) 0 items
  | _ => [[]]
  end.

Lemma scalar_paths_table t :
  scalar_paths (TTable t) = t ≫= λ kv, cons kv.1 <$> scalar_paths kv.2.
Proof. induction t as [|[k v] t IH]; [done|]. rewrite bind_cons, <-IH. done. Qed.

Section OriginFacts.
Context {Meta : Type}.
Implicit Types (o : gmap str Meta) (m : Meta).

Definition record_path m (o : gmap str Meta) (p : list str) : gmap str Meta :=
  if bool_decide (p = []) then o else <[join [DOT] p := m]> o.

Lemma record_origins_paths v m path o :
  record_origins v m path o = foldl (record_path m) o (app path <$> scalar_paths v).
Proof.
  revert path o. induction v as [t IH|items IH|v Ht Ha] using toml_ind'; intros path o.
  - induction t as [|[k v] t IHt] in o, IH |- *; [done|]. apply Forall_cons in IH as [IHv IH].
    rewrite scalar_paths_table, bind_cons, fmap_app, foldl_app, <-scalar_paths_table.
    rewrite <-IHt by done. cbn [record_origins]. f_equal. cbn [fst snd]. rewrite IHv.
    f_equal. rewrite <-list_fmap_compose. apply list_fmap_ext. intros _ p _. by rewrite <-app_assoc.
  - cbn [record_origins scalar_paths]. generalize 0 as idx.
    induction items as [|v items IHi] in o, IH |- *; intros idx; [done|].
    apply Forall_cons in IH as [IHv IH]. rewrite fmap_app, foldl_app, <-IHi by done. f_equal.
    rewrite IHv. f_equal. rewrite <-list_fmap_compose. apply list_fmap_ext. intros _ p _.
    by rewrite <-app_assoc.
  - assert (record_origins v m path o = record_path m o path ∧ scalar_paths v = [[]]) as [-> ->].
    { destruct v; try done. by destruct (Ha items). }
    cbn [fmap list_fmap foldl]. by rewrite app_nil_r.
Qed.

Definition dotless (p : list str) : Prop := Forall (λ s, DOT ∉ s) p.

Lemma join_dots_inj p q : dotless p → dotless q → p ≠ [] → q ≠ [] → join [DOT] p = join [DOT] q → p = q.
Proof. intros Hp Hq Hnp Hnq E. by rewrite <-(split_on_join DOT p), E, split_on_join. Qed.

Lemma record_paths_lookup ps m o p :
  Forall dotless ps → dotless p → p ≠ [] →
  foldl (record_path m) o ps !! join [DOT] p = if bool_decide (p ∈ ps) then Some m else o !! join [DOT] p.
Proof.
  intros Hps Hp Hne. induction ps as [|q ps IH] using rev_ind.
  { by rewrite bool_decide_false by apply not_elem_of_nil. }
  apply Forall_app in Hps as [Hps Hq]. apply Forall_cons in Hq as [Hq _].
  rewrite foldl_app. cbn [foldl]. unfold record_path at 1. destruct (decide (q = p)) as [->|Hqp].
  - rewrite (bool_decide_false (p = [])), lookup_insert_eq by done.
    rewrite bool_decide_true; [done|]. apply elem_of_app. right. by apply list_elem_of_singleton.
  - assert (bool_decide (p ∈ ps ++ [q]) = bool_decide (p ∈ ps)) as ->.
    { apply bool_decide_ext. rewrite elem_of_app, list_elem_of_singleton. naive_solver. }
    rewrite <-(IH Hps). destruct (decide (q = [])) as [Hq0|Hq0]; [by rewrite bool_decide_true|].
    rewrite bool_decide_false, lookup_insert_ne; [done| |done].
    intros E. by apply join_dots_inj in E.
Qed.
End OriginFacts.

Lemma scalar_paths_not_silent v p : toml_wf v → p ∈ scalar_paths v → silent v p = false.
Proof.
  revert p. induction v as [t IH|items _|v Ht Ha] using toml_ind'; intros p Hwf Hp.
  - rewrite scalar_paths_table in Hp. apply list_elem_of_bind in Hp as ([k v] & Hp & Hin).
    apply list_elem_of_fmap in Hp as (p' & -> & Hp'). cbn [silent fst snd] in *.
    pose proof Hwf as [Hs Hall]%toml_wf_table. rewrite (tget_in k v) by (done || by apply sorted_NoDup).
    rewrite Forall_forall in IH, Hall. apply (IH _ Hin); [by apply (Hall _ Hin)|done].
  - by destruct p.
  - by destruct v, p.
Qed.

Lemma leaf_scalar_path v p x :
  leaf p v = Some x → (∀ items, x ≠ TArray items) → p ∈ scalar_paths v.
Proof.
  intros Hl Hx. revert v Hl. induction p as [|k p IH]; intros v Hl.
  - unfold leaf in Hl. cbn in Hl. destruct (is_table v) eqn:Et; simplify_eq.
    destruct x; try done; try (by left). by destruct (Hx items).
  - destruct v as [| | | | | |t]; try done. rewrite leaf_cons in Hl.
    apply bind_Some in Hl as (v & Hv & Hl). rewrite scalar_paths_table. apply list_elem_of_bind.
    exists (k, v). split; [|by apply tget_Some_in]. apply list_elem_of_fmap. exists p. split; [done|].
    by apply IH.
Qed.

(** ** Placeholders *)
Lemma split_once_str_spec pat s a b : split_once_str pat s = Some (a, b) → s = a ++ pat ++ b.
Proof.
  revert a b. induction s as [|c s IH]; intros a b; cbn [split_once_str].
  - destruct (strip_prefix pat []) as [r|] eqn:E; [|done]. apply strip_prefix_Some in E. by intros [= <- <-].
  - destruct (strip_prefix pat (c :: s)) as [r|] eqn:E.
    { apply strip_prefix_Some in E. by intros [= <- <-]. }
    destruct (split_once_str pat s) as [[a' b']|]; [|done]. intros [= <- <-]. cbn. f_equal. by apply IH.
Qed.

Lemma split_once_spec c s a b : split_once c s = Some (a, b) → s = a ++ c :: b ∧ c ∉ a.
Proof.
  revert a b. induction s as [|x s IH]; intros a b; cbn; [done|].
  destruct (decide (x = c)) as [->|]; [intros [= <- <-]; split; [done|apply not_elem_of_nil]|].
  destruct (split_once c s) as [[a' b']|]; [|done]. intros [= <- <-].
  destruct (IH a' b' eq_refl) as [-> ?]. split; [done|]. by rewrite not_elem_of_cons.
Qed.

Section EnvFacts.
Context (env : str → option str).

Lemma expand_loop_fuel n m s : length s ≤ n → length s ≤ m → expand_loop env n s = expand_loop env m s.
Proof.
  revert m s. induction n as [|n IH]; intros [|m] s Hn Hm; cbn [expand_loop]; try done.
  - assert (s = []) as -> by (by apply length_zero_iff_nil; lia). done.
  - assert (s = []) as -> by (by apply length_zero_iff_nil; lia). done.
  - destruct (split_once_str (§"${") s) as [[before rest]|] eqn:E; [|done].
    apply split_once_str_spec in E as ->. destruct (split_once RBRACE rest) as [[expr rest']|] eqn:E; [|done].
    apply split_once_spec in E as [-> _]. rewrite !length_app in Hn, Hm. cbn in Hn, Hm.
    rewrite (IH m rest') by lia. done.
Qed.

(** Placeholders are replaced from left to right, each once and the values not
    expanded again; text without a complete placeholder is kept as it is.  (The
    bound on the number of rounds is never reached.) *)
Theorem expand_env_placeholders_spec input :
  expand_env_placeholders env input =
  match split_once_str (§"${") input with
  | None => Ok input
  | Some (before, rest) =>
      match split_once RBRACE rest with
      | None => Ok input
      | Some (expr, rest') =>
          value ← resolve_env_expr env expr;
          output ← expand_env_placeholders env rest';
          Ok (before ++ value ++ output)
      end
  end.
Proof.
  unfold expand_env_placeholders at 1. destruct (length input) as [|n] eqn:El.
  { apply length_zero_iff_nil in El as ->. done. }
  cbn [expand_loop]. destruct (split_once_str (§"${") input) as [[before rest]|] eqn:E; [|done].
  apply split_once_str_spec in E as ->.
  destruct (split_once RBRACE rest) as [[expr rest']|] eqn:E; [|done].
  apply split_once_spec in E as [-> _]. unfold expand_env_placeholders.
  rewrite !length_app in El. cbn in El.
  by rewrite (expand_loop_fuel n (length rest')) by lia.
Qed.
End EnvFacts.

(** ** Every operation keeps values well formed *)
Lemma toml_wf_array items : toml_wf (TArray items) ↔ Forall toml_wf items.
Proof. induction items as [|v items IH]; [done|]. by rewrite Forall_cons, <- IH. Qed.

Lemma override_at_wf current segments value :
  toml_wf current → toml_wf value → toml_wf (override_at current segments value).
Proof.
  revert current. induction segments as [|k segments IH]; intros cur Hc Hv; [done|].
  assert (toml_wf (TTable (match cur with TTable table => table | _ => [] end))) as Ht
    by (destruct cur; try (apply toml_wf_table; split; constructor); done).
  cbn [override_at]. set (t := match cur with TTable table => table | _ => [] end) in *.
  pose proof Ht as [Hs Hall]%toml_wf_table.
  destruct segments as [|k2 segments]; apply toml_wf_table;
    (split; [by apply tinsert_sorted|]); apply tinsert_Forall; try done.
  apply IH; [|done]. destruct (tget k t) as [x|] eqn:E; [by eapply toml_wf_get|].
  apply toml_wf_table. by split; constructor.
Qed.

Lemma cli_overrides_wf l : Forall (λ pv, toml_wf pv.2) l → toml_wf (build_cli_overrides_layer l).
Proof.
  intros Hl. unfold build_cli_overrides_layer.
  assert (toml_wf (TTable [])) as H0 by (apply toml_wf_table; by split; constructor).
  revert H0. generalize (TTable []). induction Hl as [|pv l Hv _ IH]; intros v Hwf; [done|].
  by apply IH, override_at_wf.
Qed.

(** The walk of [substitute_env_vars_in_toml_value] keeps the shape. *)
Lemma substitute_table env t v :
  substitute_env_vars_in_toml_value env (TTable t) = Ok v →
  ∃ t', v = TTable t' ∧
    Forall2 (λ kv kv', kv.1 = kv'.1 ∧ substitute_env_vars_in_toml_value env kv.2 = Ok kv'.2) t t'.
Proof.
  cbn. intros (t' & Ht & [= <-])%bind_Ok. exists t'. split; [done|]. revert t' Ht.
  induction t as [|[k x] t IH]; intros t'; [by intros [= <-]|].
  intros (x' & Hx & (r & Hr & [= <-])%bind_Ok)%bind_Ok. constructor; [done|]. by apply IH.
Qed.
Lemma substitute_array env items v :
  substitute_env_vars_in_toml_value env (TArray items) = Ok v →
  ∃ items', v = TArray items' ∧
    Forall2 (λ x x', substitute_env_vars_in_toml_value env x = Ok x') items items'.
Proof.
  cbn. intros (t' & Ht & [= <-])%bind_Ok. exists t'. split; [done|]. revert t' Ht.
  induction items as [|x t IH]; intros t'; [by intros [= <-]|].
  intros (x' & Hx & (r & Hr & [= <-])%bind_Ok)%bind_Ok. constructor; [done|]. by apply IH.
Qed.

Lemma same_keys_sorted {V} (t t' : list (str * V)) :
  Forall2 (λ kv kv', kv.1 = kv'.1) t t' → StronglySorted key_lt t → StronglySorted key_lt t'.
Proof.
  induction 1 as [|[k x] [k' x'] t t' Hk Ht IH]; cbn in *; [done|].
  subst k'. intros [Hs Hall]%StronglySorted_inv. constructor; [by apply IH|].
  clear IH Hs. induction Ht as [|[k1 x1] [k1' x1'] t t' Hk Ht IH]; cbn in *; [constructor|].
  subst k1'. apply Forall_cons in Hall as [H1 Hall]. constructor; [exact H1|by apply IH].
Qed.

Lemma substitute_wf env v v' :
  toml_wf v → substitute_env_vars_in_toml_value env v = Ok v' → toml_wf v'.
Proof.
  revert v'. induction v as [t IH|items IH|v Ht Ha] using toml_ind'; intros v' Hwf.
  - intros (t' & -> & Hall)%substitute_table. apply toml_wf_table in Hwf as [Hs Hw].
    apply toml_wf_table. split.
    + eapply same_keys_sorted; [|exact Hs]. eapply Forall2_impl; [exact Hall|]. by intros ? ? [? _].
    + clear Hs. induction Hall as [|kv kv' t t' [_ Hkv] _ IHt]; [constructor|].
      apply Forall_cons in IH as [IH1 IH]. apply Forall_cons in Hw as [Hw1 Hw].
      constructor; [by eapply IH1|by apply IHt].
  - intros (items' & -> & Hall)%substitute_array. apply toml_wf_array in Hwf. apply toml_wf_array.
    induction Hall as [|x x' t t' Hx _ IHt]; [constructor|].
    apply Forall_cons in IH as [IH1 IH]. apply Forall_cons in Hwf as [Hw1 Hw].
    constructor; [by eapply IH1|by apply IHt].
  - destruct v as [s| | | | |items|t]; cbn; try by intros [= <-].
    + by intros (x & _ & [= <-])%bind_Ok.
    + by destruct (Ha items).
    + done.
Qed.

(** The loops of [copy_shape_from_original]. *)
Definition copy_value (resolved_table : list (str * TomlValue)) (kv : str * TomlValue) : TomlValue :=
  copy_shape_from_original kv.2 (default kv.2 (tget kv.1 resolved_table)).
Lemma copy_shape_table ot rt :
  copy_shape_from_original (TTable ot) (TTable rt)
  = TTable (foldl (λ acc kv, tinsert kv.1 (copy_value rt kv) acc) [] ot).
Proof.
  cbn [copy_shape_from_original]. f_equal. generalize (@nil (str * TomlValue)).
  induction ot as [|[k v] ot IH]; intros acc; [done|]. cbn [foldl]. apply IH.
Qed.
Lemma copy_shape_array oa ra :
  copy_shape_from_original (TArray oa) (TArray ra)
  = TArray (imap (λ i o, copy_shape_from_original o (default o (ra !! i))) oa).
Proof.
  cbn. f_equal. change (λ i o, copy_shape_from_original o (default o (ra !! i)))
    with ((λ j i o, copy_shape_from_original o (default o (ra !! (j + i)))) 0).
  generalize 0. induction oa as [|o oa IH]; intros j; [done|]. cbn. rewrite Nat.add_0_r. f_equal.
  rewrite (IH (S j)). apply imap_ext. intros i x _. cbn. by rewrite Nat.add_succ_r.
Qed.

Lemma tinserts_wf (f : str * TomlValue → TomlValue) l acc :
  toml_wf (TTable acc) → Forall (λ kv, toml_wf (f kv)) l →
  toml_wf (TTable (foldl (λ acc kv, tinsert kv.1 (f kv) acc) acc l)).
Proof.
  intros Hacc Hl. revert acc Hacc. induction Hl as [|kv l Hv _ IH]; intros acc Hacc; [done|].
  apply toml_wf_table in Hacc as [Hs Hall]. apply IH, toml_wf_table.
  split; [by apply tinsert_sorted|by apply tinsert_Forall].
Qed.

Lemma tinserts_get (f : str * TomlValue → TomlValue) l acc k :
  k ∉ l.*1 → tget k (foldl (λ acc kv, tinsert kv.1 (f kv) acc) acc l) = tget k acc.
Proof.
  revert acc. induction l as [|kv l IH]; intros acc; [done|]. cbn.
  intros [? ?]%not_elem_of_cons. rewrite IH by done. by apply tget_tinsert_ne.
Qed.

Lemma copy_shape_wf original resolved :
  toml_wf original → toml_wf resolved → toml_wf (copy_shape_from_original original resolved).
Proof.
  revert resolved. induction original as [ot IH|oa IH|v Ht Ha] using toml_ind'; intros r Ho Hr.
  - destruct r as [| | | | | |rt]; try done. rewrite copy_shape_table. apply tinserts_wf.
    + apply toml_wf_table. by split; constructor.
    + apply toml_wf_table in Ho as [_ Ho]. rewrite Forall_forall in IH, Ho |- *.
      intros kv Hin. apply IH; [done|by apply Ho|].
      destruct (tget kv.1 rt) as [x|] eqn:E; [by eapply toml_wf_get|by apply Ho].
  - destruct r as [| | | | |ra|]; try done. rewrite copy_shape_array. apply toml_wf_array.
    apply toml_wf_array in Ho, Hr. rewrite Forall_forall in IH, Ho, Hr. apply Forall_forall.
    intros x (i & o & -> & Hi)%elem_of_lookup_imap.
    apply list_elem_of_lookup_2 in Hi. apply IH; [done|by apply Ho|].
    destruct (ra !! i) as [y|] eqn:E; [|by apply Ho]. apply Hr. by eapply list_elem_of_lookup_2.
  - destruct v; try done. by destruct (Ha items).
Qed.


