(* ===== verification/ConfigLayers.v ===== *)
(** * Configuration layers ([core/src/config_loader/state.rs],
    [app-server-protocol/src/protocol/v1.rs])

    A stack of TOML values from different sources, later ones over earlier ones.
    The theorems: the order of the stack is by precedence and every operation
    keeps it so, the effective configuration takes each setting from the highest
    enabled layer that says something about it, and the reported origin of a
    setting is that layer. *)
From S2P Require Import Prelude RustStr Paths Toml.

(** ** Layers *)
Inductive ConfigLayerSource :=
| Mdm (domain key : str)
| System (file : str)
| User (file : str)
| Project (dot_savfox_folder : str)
| SessionFlags.

Definition precedence (s : ConfigLayerSource) : Z :=
  match s with
  | User _ => 0
  | Project _ => 10
  | SessionFlags => 20
  | System _ => 30
  | Mdm _ _ => 40
  end.

Record ConfigLayerMetadata := { meta_name : ConfigLayerSource; meta_version : str }.

Record ConfigLayerEntry := {
  name : ConfigLayerSource;
  config : TomlValue;
  version : str;
  disabled_reason : option str;
}.

Definition is_disabled (e : ConfigLayerEntry) : bool :=
  match disabled_reason e with Some _ => true | None => false end.
Definition metadata (e : ConfigLayerEntry) : ConfigLayerMetadata :=
  {| meta_name := name e; meta_version := version e |}.

(** [Path::ancestors]: the path itself, then its parents. *)
Fixpoint ancestors_from (fuel : nat) (p : str) : list str :=
  match fuel with
  | 0 => [p]
  | S fuel' => p :: match path_parent p with Some q => ancestors_from fuel' q | None => [] end
  end.
Definition ancestors (p : str) : list str := ancestors_from (length p) p.

Definition is_user (e : ConfigLayerEntry) : bool :=
  match name e with User _ => true | _ => false end.

Inductive LayerError := NotInPrecedenceOrder | MultipleUserLayers | NoParentDirectory | NotOrderedFromRoot.

(** [layers.iter().map(|layer| &layer.name).is_sorted()]. *)
Fixpoint is_sorted_by_precedence (layers : list ConfigLayerEntry) : bool :=
  match layers with
  | a :: (b :: _) as rest => (precedence (name a) <=? precedence (name b))%Z && is_sorted_by_precedence rest
  | _ => true
  end.

(** The loop: the index, the user layer found, the previous project folder. *)
Fixpoint verify_loop (index : nat) (user_layer_index : option nat) (previous : option str)
    (layers : list ConfigLayerEntry) : result LayerError (option nat) :=
  match layers with
  | [] => Ok user_layer_index
  | layer :: rest =>
      user_layer_index ←
        (if is_user layer
         then match user_layer_index with
              | Some _ => Err MultipleUserLayers
              | None => Ok (Some index)
              end
         else Ok user_layer_index);
      match name layer with
      | Project current =>
          match previous with
          | Some prev =>
              match path_parent prev with
              | None => Err NoParentDirectory
              | Some parent =>
                  if path_eq prev current || negb (existsb (λ a, path_eq a parent) (ancestors current))
                  then Err NotOrderedFromRoot
                  else verify_loop (S index) user_layer_index (Some current) rest
              end
          | None => verify_loop (S index) user_layer_index (Some current) rest
          end
      | _ => verify_loop (S index) user_layer_index previous rest
      end
  end.

Definition verify_layer_ordering (layers : list ConfigLayerEntry) : result LayerError (option nat) :=
  if is_sorted_by_precedence layers then verify_loop 0 None None layers else Err NotInPrecedenceOrder.

(** ** The stack *)
Section Stack.
(** The requirements travel with the stack; [version_for_toml] is a hash. *)
Context {Requirements : Type} (version_for_toml : TomlValue → str).

Record ConfigLayerStack := {
  layers : list ConfigLayerEntry;
  user_layer_index : option nat;
  requirements : Requirements;
  startup_warnings : list str;
}.

Definition entry_new (n : ConfigLayerSource) (c : TomlValue) : ConfigLayerEntry :=
  {| name := n; config := c; version := version_for_toml c; disabled_reason := None |}.
Definition entry_new_disabled (n : ConfigLayerSource) (c : TomlValue) (reason : str) : ConfigLayerEntry :=
  {| name := n; config := c; version := version_for_toml c; disabled_reason := Some reason |}.

Definition stack_new (ls : list ConfigLayerEntry) (req : Requirements) : result LayerError ConfigLayerStack :=
  index ← verify_layer_ordering ls;
  Ok {| layers := ls; user_layer_index := index; requirements := req; startup_warnings := [] |}.

Definition with_startup_warnings (ws : list str) (s : ConfigLayerStack) : ConfigLayerStack :=
  {| layers := layers s; user_layer_index := user_layer_index s; requirements := requirements s;
     startup_warnings := ws |}.

Definition get_user_layer (s : ConfigLayerStack) : option ConfigLayerEntry :=
  user_layer_index s ≫= λ i, layers s !! i.

(** [iter().position(p)]. *)
Definition position {A} (p : A → bool) (l : list A) : option nat := find_from (λ i, match l !! i with Some x => p x | None => false end) 0 (length l).

Definition with_user_config (config_toml : str) (user_config : TomlValue) (s : ConfigLayerStack)
    : ConfigLayerStack :=
  let user_layer := entry_new (User config_toml) user_config in
  match user_layer_index s with
  | Some index =>
      {| layers := <[index := user_layer]> (layers s); user_layer_index := user_layer_index s;
         requirements := requirements s; startup_warnings := startup_warnings s |}
  | None =>
      let '(ls, index) :=
        match position (λ l, (precedence (name user_layer) <? precedence (name l))%Z) (layers s) with
        | Some index => (take index (layers s) ++ user_layer :: drop index (layers s), index)
        | None => (layers s ++ [user_layer], length (layers s))
        end in
      {| layers := ls; user_layer_index := Some index; requirements := requirements s;
         startup_warnings := startup_warnings s |}
  end.

(** [slice::partition_point]: the slice is partitioned by the test. *)
Definition partition_point {A} (p : A → bool) (l : list A) : nat := length (take_while p l).

Definition with_layer (layer : ConfigLayerEntry) (s : ConfigLayerStack) : result LayerError ConfigLayerStack :=
  let insertion_index :=
    partition_point (λ l, (precedence (name l) <=? precedence (name layer))%Z) (layers s) in
  let ls := take insertion_index (layers s) ++ layer :: drop insertion_index (layers s) in
  with_startup_warnings (startup_warnings s) <$> stack_new ls (requirements s).

(** [get_layers(LowestPrecedenceFirst, false)]. *)
Definition enabled_layers (s : ConfigLayerStack) : list ConfigLayerEntry :=
  filter (λ l, is_disabled l = false) (layers s).
Definition layers_high_to_low (s : ConfigLayerStack) : list ConfigLayerEntry := reverse (enabled_layers s).

Definition effective_config (s : ConfigLayerStack) : TomlValue :=
  foldl (λ merged l, merge_toml_values merged (config l)) (TTable []) (enabled_layers s).

Definition origins (s : ConfigLayerStack) : gmap str ConfigLayerMetadata :=
  foldl (λ o l, record_origins (config l) (metadata l) [] o) ∅ (enabled_layers s).
End Stack.
Arguments ConfigLayerStack : clear implicits.

(** * Correctness *)
(** ** The checks of a stack *)
Definition same_kind (a b : ConfigLayerEntry) : Prop :=
  match name a, name b with User _, User _ => True | x, y => x = y end.

Lemma same_kind_refl a : same_kind a a.
Proof. unfold same_kind. by destruct (name a). Qed.
Lemma same_kind_user a b : same_kind a b → is_user a = is_user b.
Proof. unfold same_kind, is_user. destruct (name a), (name b); intros; simplify_eq; done. Qed.
Lemma same_kind_precedence a b : same_kind a b → precedence (name a) = precedence (name b).
Proof. unfold same_kind. destruct (name a), (name b); intros; simplify_eq; done. Qed.

Lemma verify_loop_same_kind i u prev ls ls' :
  Forall2 same_kind ls ls' → verify_loop i u prev ls = verify_loop i u prev ls'.
Proof.
  intros H. revert i u prev. induction H as [|a b ls ls' Hab _ IH]; intros i u prev; [done|].
  cbn [verify_loop]. rewrite (same_kind_user a b Hab).
  destruct (if is_user b then _ else _) as [u'|]; [|done]. cbn [mbind result_bind].
  unfold same_kind in Hab. destruct (name a), (name b); simplify_eq; rewrite ?IH; try done.
Qed.

Lemma sorted_same_kind ls ls' :
  Forall2 same_kind ls ls' → is_sorted_by_precedence ls = is_sorted_by_precedence ls'.
Proof.
  induction 1 as [|a b ls ls' Hab Hls IH]; [done|]. destruct Hls as [|c d ls ls' Hcd Hls]; [done|].
  cbn [is_sorted_by_precedence] in *. by rewrite IH, (same_kind_precedence a b), (same_kind_precedence c d).
Qed.

Lemma verify_same_kind ls ls' :
  Forall2 same_kind ls ls' → verify_layer_ordering ls = verify_layer_ordering ls'.
Proof.
  intros H. unfold verify_layer_ordering. by rewrite (sorted_same_kind ls ls' H), (verify_loop_same_kind _ _ _ _ _ H).
Qed.

Definition no_user (ls : list ConfigLayerEntry) : Prop := Forall (λ l, is_user l = false) ls.

(** The user layer that is found is the only one. *)
Lemma verify_loop_users i u prev ls r :
  verify_loop i u prev ls = Ok r →
  (r = u ∧ no_user ls) ∨
  (u = None ∧ ∃ ls1 l ls2, ls = ls1 ++ l :: ls2 ∧ is_user l = true ∧ no_user ls1 ∧ no_user ls2 ∧
    r = Some (i + length ls1)).
Proof.
  revert i u prev. induction ls as [|l ls IH]; intros i u prev; cbn [verify_loop].
  { intros [= <-]. left. by split; [|constructor]. }
  assert (∀ u' prev', verify_loop (S i) u' prev' ls = Ok r →
    (if is_user l then match u with Some _ => Err MultipleUserLayers | None => Ok (Some i) end else Ok u)
    = (Ok u' : result LayerError _) →
    (r = u ∧ no_user (l :: ls)) ∨
    (u = None ∧ ∃ ls1 l' ls2, l :: ls = ls1 ++ l' :: ls2 ∧ is_user l' = true ∧ no_user ls1 ∧ no_user ls2 ∧
      r = Some (i + length ls1))) as Hrec.
  { intros u' prev' Hv Hu. apply IH in Hv as [[-> Hn]|(-> & ls1 & l' & ls2 & -> & H1 & H2 & H3 & ->)].
    - destruct (is_user l) eqn:El; [|simplify_eq; left; by split; [|constructor]].
      destruct u; simplify_eq. right. split; [done|]. exists [], l, ls. split_and!; try done; [constructor|].
      by rewrite Nat.add_0_r.
    - destruct (is_user l) eqn:El; [by destruct u|]. simplify_eq. right. split; [done|].
      exists (l :: ls1), l', ls2. split_and!; try done; [by constructor|]. f_equal. cbn. lia. }
  destruct (if is_user l then _ else _) as [u'|e] eqn:Eu; [|done]. cbn [mbind result_bind].
  destruct (name l); try (intros; by eapply Hrec).
  destruct prev as [prev|]; [|intros; by eapply Hrec]. destruct (path_parent prev); [|done].
  destruct (_ || _); [done|]. intros; by eapply Hrec.
Qed.

(** Without user layers the index does not matter. *)
Lemma verify_loop_shift i j u u' prev ls :
  no_user ls → (∃ r, verify_loop i u prev ls = Ok r) → verify_loop j u' prev ls = Ok u'.
Proof.
  intros Hn. revert i j u u' prev. induction Hn as [|l ls Hl Hn IH]; intros i j u u' prev [r Hr]; [done|].
  cbn [verify_loop] in *. rewrite Hl in *. cbn [mbind result_bind] in *.
  destruct (name l); try (eapply IH; by eexists).
  destruct prev as [prev|]; [|eapply IH; by eexists]. destruct (path_parent prev); [|done].
  destruct (_ || _); [done|]. eapply IH; by eexists.
Qed.

Lemma is_sorted_cons a ls :
  is_sorted_by_precedence (a :: ls) = true ↔
  is_sorted_by_precedence ls = true ∧ Forall (λ l, (precedence (name a) ≤ precedence (name l))%Z) ls.
Proof.
  revert a. induction ls as [|b ls IH]; intros a; [by split|].
  change (is_sorted_by_precedence (a :: b :: ls))
    with ((precedence (name a) <=? precedence (name b))%Z && is_sorted_by_precedence (b :: ls)).
  rewrite andb_true_iff, Z.leb_le. split.
  - intros [Hab Hs]. split; [done|]. constructor; [done|]. apply IH in Hs as [_ Hall].
    eapply Forall_impl; [exact Hall|]. intros l Hl. cbn in *. lia.
  - intros [Hs Hall]. apply Forall_cons in Hall as [Hab _]. done.
Qed.

Lemma precedence_range s : (0 ≤ precedence s ≤ 40)%Z.
Proof. by destruct s. Qed.
Lemma precedence_zero l : precedence (name l) = 0%Z ↔ is_user l = true.
Proof. unfold is_user. by destruct (name l). Qed.

(** ** Operations on a stack *)
Section StackFacts.
Context {Requirements : Type} (version_for_toml : TomlValue → str).
Implicit Types (s : ConfigLayerStack Requirements) (ls : list ConfigLayerEntry).

Definition valid s : Prop := verify_layer_ordering (layers s) = Ok (user_layer_index s).

Lemma stack_new_valid ls (req : Requirements) s : stack_new ls req = Ok s → valid s ∧ layers s = ls.
Proof. intros (i & Hi & [= <-])%bind_Ok. done. Qed.

Lemma valid_sorted s : valid s → is_sorted_by_precedence (layers s) = true.
Proof. unfold valid, verify_layer_ordering. by destruct (is_sorted_by_precedence (layers s)). Qed.

Lemma valid_user s :
  valid s →
  match user_layer_index s with
  | None => no_user (layers s)
  | Some i => ∃ ls1 l ls2, layers s = ls1 ++ l :: ls2 ∧ is_user l = true ∧ no_user ls1 ∧ no_user ls2 ∧
                length ls1 = i
  end.
Proof.
  intros Hv. pose proof (valid_sorted s Hv) as Hs. unfold valid, verify_layer_ordering in Hv.
  rewrite Hs in Hv. apply verify_loop_users in Hv as [[-> Hn]|(_ & ls1 & l & ls2 & E & H1 & H2 & H3 & ->)]; [done|].
  by exists ls1, l, ls2.
Qed.

(** A user layer comes first. *)
Lemma valid_user_first s i : valid s → user_layer_index s = Some i → i = 0.
Proof.
  intros Hv Hi. pose proof (valid_sorted s Hv) as Hs. apply valid_user in Hv. rewrite Hi in Hv.
  destruct Hv as (ls1 & l & ls2 & E & Hl & Hn & _ & <-). rewrite E in Hs. clear E.
  destruct ls1 as [|a ls1]; [done|]. apply is_sorted_cons in Hs as [_ Hall].
  apply Forall_app in Hall as [_ Hall]. apply Forall_cons in Hall as [Hle _].
  apply Forall_cons in Hn as [Ha _]. pose proof (precedence_range (name a)).
  apply precedence_zero in Hl. assert (precedence (name a) = 0%Z) as E by lia.
  apply precedence_zero in E. congruence.
Qed.

Lemma valid_shape s :
  valid s →
  (user_layer_index s = None ∧ no_user (layers s)) ∨
  (user_layer_index s = Some 0 ∧ ∃ l rest, layers s = l :: rest ∧ is_user l = true ∧ no_user rest).
Proof.
  intros Hv. pose proof (valid_user s Hv) as Hn. destruct (user_layer_index s) as [i|] eqn:Ei; [right|by left].
  pose proof (valid_user_first s i Hv Ei) as ->. destruct Hn as ([|? ?] & l & ls2 & E & Hl & _ & Hn & Hlen); [|done].
  split; [done|]. by exists l, ls2.
Qed.

Lemma with_user_layers c v s :
  valid s →
  layers (with_user_config version_for_toml c v s)
  = entry_new version_for_toml (User c) v
    :: match user_layer_index s with Some _ => tail (layers s) | None => layers s end ∧
  user_layer_index (with_user_config version_for_toml c v s) = Some 0.
Proof.
  intros Hv. unfold with_user_config.
  destruct (valid_shape s Hv) as [[-> Hn]|[-> (l & rest & -> & _ & _)]]; [|done].
  unfold position. destruct (layers s) as [|l ls]; [done|]. cbn [length find_from lookup list_lookup].
  apply Forall_cons in Hn as [Hl _]. pose proof (precedence_range (name l)).
  assert (precedence (name l) ≠ 0%Z) by (rewrite precedence_zero; congruence).
  cbn [name entry_new precedence]. assert ((0 <? precedence (name l))%Z = true) as -> by lia. done.
Qed.

Lemma user_first_valid u ls :
  is_user u = true → no_user ls → is_sorted_by_precedence ls = true →
  verify_loop 0 None None ls = Ok None → verify_layer_ordering (u :: ls) = Ok (Some 0).
Proof.
  intros Hu Hn Hs Hv. unfold verify_layer_ordering.
  assert (is_sorted_by_precedence (u :: ls) = true) as ->.
  { apply is_sorted_cons. split; [done|]. apply Forall_forall. intros l _. apply precedence_zero in Hu.
    pose proof (precedence_range (name l)). lia. }
  cbn [verify_loop]. rewrite Hu. cbn [mbind result_bind].
  assert (verify_loop 1 (Some 0) None ls = Ok (Some 0)) as E by (by eapply verify_loop_shift; eauto).
  unfold is_user in Hu. by destruct (name u).
Qed.

(** Setting the user layer replaces the one there is or adds one below all
    others; the stack stays valid, the new layer is the one [get_user_layer]
    returns, and every other layer is untouched. *)
Theorem with_user_config_spec c v s :
  valid s →
  let s' := with_user_config version_for_toml c v s in
  valid s' ∧ get_user_layer s' = Some (entry_new version_for_toml (User c) v) ∧
  filter (λ l, is_user l = false) (layers s') = filter (λ l, is_user l = false) (layers s).
Proof.
  intros Hv s'. destruct (with_user_layers c v s Hv) as [El Ei]. fold s' in El, Ei.
  set (u := entry_new version_for_toml (User c) v) in *. assert (is_user u = true) as Hu by done.
  assert (get_user_layer s' = Some u) as Hg by (unfold get_user_layer; by rewrite Ei, El).
  unfold valid. rewrite El, Ei. pose proof Hv as Hv'. pose proof (valid_sorted s Hv) as Hs.
  unfold valid in Hv'.
  destruct (valid_shape s Hv) as [[E Hn]|[E (l & rest & Er & Hl & Hn)]]; rewrite E in *.
  - split_and!; [|done|by rewrite filter_cons_False by congruence].
    apply user_first_valid; try done. unfold verify_layer_ordering in Hv'. by rewrite Hs in Hv'.
  - rewrite Er in *. cbn [tail]. split_and!; [|done|by rewrite !filter_cons_False by congruence].
    rewrite <-Hv'. apply verify_same_kind. constructor.
    + unfold same_kind, is_user in *. by destruct (name l).
    + apply Forall_Forall2_diag, Forall_forall. intros. apply same_kind_refl.
Qed.

(** ** The effective configuration *)
(** The first layer from the top that says something about a path. *)
Definition decides (path : list str) (l : ConfigLayerEntry) : bool := negb (silent (config l) path).
Definition winner_in ls (path : list str) : option ConfigLayerEntry :=
  find (decides path) (reverse (filter (λ l, is_disabled l = false) ls)).
Definition winner s (path : list str) : option ConfigLayerEntry := winner_in (layers s) path.

Definition configs_wf s : Prop := Forall (λ l, toml_wf (config l)) (layers s).

Lemma merge_layers_leaf ls path :
  Forall (λ l, toml_wf (config l)) ls →
  leaf path (foldl (λ merged l, merge_toml_values merged (config l)) (TTable []) ls)
  = find (decides path) (reverse ls) ≫= λ l, leaf path (config l).
Proof.
  induction ls as [|l ls IH] using rev_ind; intros Hwf; [by destruct path|].
  apply Forall_app in Hwf as [Hwf Hl]. apply Forall_cons in Hl as [Hl _].
  rewrite foldl_app, reverse_snoc. cbn [foldl find]. rewrite merge_leaf, IH by done.
  unfold decides at 2. by destruct (silent (config l) path).
Qed.

Lemma effective_leaf s path :
  configs_wf s → leaf path (effective_config s) = winner s path ≫= λ l, leaf path (config l).
Proof.
  intros Hwf. unfold effective_config, winner, winner_in, enabled_layers. apply merge_layers_leaf.
  apply Forall_forall. intros l [_ Hin]%list_elem_of_filter. unfold configs_wf in Hwf.
  rewrite Forall_forall in Hwf. by apply Hwf.
Qed.

(** Every setting of the effective configuration is the one of the highest
    enabled layer that says something about its path (a layer is silent when the
    walk along the path stops in one of its tables); disabled layers and layers
    below have no influence. *)
Theorem effective_config_spec s path :
  configs_wf s →
  leaf path (effective_config s) = winner s path ≫= λ l, leaf path (config l).
Proof. apply effective_leaf. Qed.

(** ** Origins *)
Definition dotless_keys s : Prop := Forall (λ l, Forall dotless (scalar_paths (config l))) (layers s).

Lemma origins_lookup ls (path : list str) (o : gmap str ConfigLayerMetadata) :
  Forall (λ l, toml_wf (config l)) ls → Forall (λ l, Forall dotless (scalar_paths (config l))) ls →
  dotless path → path ≠ [] →
  foldl (λ o l, record_origins (config l) (metadata l) [] o) o ls !! join [DOT] path
  = match find (λ l, bool_decide (path ∈ scalar_paths (config l))) (reverse ls) with
    | Some l => Some (metadata l) | None => o !! join [DOT] path end.
Proof.
  intros Hwf Hd Hp Hne. induction ls as [|l ls IH] using rev_ind; [done|].
  apply Forall_app in Hwf as [Hwf _]. apply Forall_app in Hd as [Hd Hl]. apply Forall_cons in Hl as [Hl _].
  rewrite foldl_app, reverse_snoc. cbn [foldl find]. rewrite record_origins_paths.
  assert (app [] <$> scalar_paths (config l) = scalar_paths (config l)) as -> by apply list_fmap_id.
  rewrite record_paths_lookup by done. case_bool_decide; [done|]. by apply IH.
Qed.

(** The layer that records a setting is the one that decides about it. *)
Lemma find_same {A} (p q : A → bool) l x :
  find p l = Some x → q x = true → (∀ y, y ∈ l → q y = true → p y = true) → find q l = Some x.
Proof.
  induction l as [|y l IH]; cbn; [done|]. destruct (p y) eqn:Ep.
  - intros [= ->] Hq _. by rewrite Hq.
  - intros Hf Hq Hpq. destruct (q y) eqn:Eq.
    + rewrite (Hpq y) in Ep by (done || by left). done.
    + apply IH; [done|done|]. intros z Hz. apply Hpq. by right.
Qed.

(** The origin reported for a setting of the effective configuration is the
    layer the setting comes from. *)
Theorem origins_spec s (path : list str) x :
  configs_wf s → dotless_keys s → path ≠ [] →
  leaf path (effective_config s) = Some x → (∀ items, x ≠ TArray items) →
  origins s !! join [DOT] path = metadata <$> winner s path.
Proof.
  intros Hwf Hd Hne Hl Hx. rewrite effective_leaf in Hl by done.
  apply bind_Some in Hl as (l & Hw & Hl). rewrite Hw. pose proof (leaf_scalar_path _ _ _ Hl Hx) as Hin.
  unfold winner, winner_in in Hw. unfold origins, enabled_layers.
  set (ls := filter (λ l, is_disabled l = false) (layers s)) in *.
  assert (∀ P, Forall P (layers s) → Forall P ls) as Hsub.
  { intros P HP. apply Forall_forall. intros y [_ Hy]%list_elem_of_filter. rewrite Forall_forall in HP. by apply HP. }
  apply Hsub in Hwf. apply Hsub in Hd. assert (dotless path) as Hp.
  { apply find_some in Hw as [Hlin _]. rewrite Forall_forall in Hd.
    assert (l ∈ ls) as Hlin' by (apply elem_of_reverse; by apply list_elem_of_In).
    specialize (Hd l Hlin'). rewrite Forall_forall in Hd. by apply Hd. }
  rewrite origins_lookup by done. rewrite (find_same (decides path) _ _ l); [done|done|by apply bool_decide_eq_true|].
  intros y Hy Hq%bool_decide_eq_true. unfold decides. rewrite scalar_paths_not_silent; [done| |done].
  rewrite Forall_forall in Hwf. apply Hwf. by apply elem_of_reverse.
Qed.

(** ** Adding a layer *)
Lemma take_while_length {A} (p : A → bool) l :
  take (length (take_while p l)) l = take_while p l ∧ drop (length (take_while p l)) l = drop_while p l.
Proof. induction l as [|x l [IH1 IH2]]; cbn; [done|]. destruct (p x); cbn; [by rewrite IH1|done]. Qed.

Lemma sorted_partition (n : Z) ls :
  is_sorted_by_precedence ls = true →
  let p := λ l, (precedence (name l) <=? n)%Z in
  ls = take_while p ls ++ drop_while p ls ∧
  Forall (λ l, (precedence (name l) ≤ n)%Z) (take_while p ls) ∧
  Forall (λ l, (n < precedence (name l))%Z) (drop_while p ls).
Proof.
  intros Hs p. induction ls as [|l ls IH]; [by repeat constructor|].
  apply is_sorted_cons in Hs as [Hs Hall]. destruct (IH Hs) as (E & Hlo & Hhi). cbn [take_while drop_while].
  destruct (p l) eqn:Ep; unfold p in Ep.
  - rewrite <-app_comm_cons, <-E. split_and!; [done| |done]. constructor; [lia|done].
  - split_and!; [done|constructor|]. constructor; [lia|]. eapply Forall_impl; [exact Hall|].
    intros l' Hl'. cbn in *. lia.
Qed.

Lemma verify_loop_insert i u prev lo hi layer r :
  verify_loop i u prev (lo ++ hi) = Ok r → no_user hi → is_user layer = false →
  (∀ d, name layer ≠ Project d) → verify_loop i u prev (lo ++ layer :: hi) = Ok r.
Proof.
  intros Hv Hhi Hl Hp. revert i u prev Hv. induction lo as [|l lo IH]; intros i u prev Hv.
  - cbn [app] in *. cbn [verify_loop]. rewrite Hl. cbn [mbind result_bind].
    assert (r = u) as ->.
    { apply verify_loop_users in Hv as [[-> _]|(_ & ls1 & l & ls2 & E & Hu & _)]; [done|].
      exfalso. rewrite E in Hhi. apply Forall_app in Hhi as [_ Hhi]. apply Forall_cons in Hhi as [Hhi _]. congruence. }
    assert (verify_loop (S i) u prev hi = Ok u) as E by (eapply verify_loop_shift; eauto).
    destruct (name layer); try done. by destruct (Hp dot_savfox_folder).
  - cbn [app verify_loop] in *. destruct (if is_user l then _ else _) as [u'|]; [|done].
    cbn [mbind result_bind] in *. destruct (name l); try (by apply IH).
    destruct prev as [prev|]; [|by apply IH]. destruct (path_parent prev); [|done].
    destruct (_ || _); [done|]. by apply IH.
Qed.

Definition overridden ls (layer : ConfigLayerEntry) (path : list str) : bool :=
  existsb (λ l, (precedence (name layer) <? precedence (name l))%Z && negb (is_disabled l) && decides path l) ls.

Lemma find_app {A} (p : A → bool) l k :
  find p (l ++ k) = match find p l with Some x => Some x | None => find p k end.
Proof. induction l as [|x l IH]; cbn; [done|]. by destruct (p x). Qed.

Lemma find_enabled_hi path hi :
  (if find (decides path) (reverse (filter (λ l, is_disabled l = false) hi)) then true else false)
  = existsb (λ l, negb (is_disabled l) && decides path l) hi.
Proof.
  induction hi as [|l hi IH]; [done|]. rewrite filter_cons. cbn [existsb].
  rewrite <-IH. destruct (is_disabled l); cbn [negb andb orb]; [by rewrite decide_False|].
  rewrite decide_True, reverse_cons, find_app by done. cbn [find].
  by destruct (find _ _), (decides path l).
Qed.

Definition at_most (layer l : ConfigLayerEntry) : bool :=
  (precedence (name l) <=? precedence (name layer))%Z.

(** Only layers of higher precedence can override the added one. *)
Lemma overridden_hi layer path lo hi :
  Forall (λ l, (precedence (name l) ≤ precedence (name layer))%Z) lo →
  Forall (λ l, (precedence (name layer) < precedence (name l))%Z) hi →
  overridden (lo ++ hi) layer path
  = if find (decides path) (reverse (filter (λ l, is_disabled l = false) hi)) then true else false.
Proof.
  intros Hlo Hhi. rewrite find_enabled_hi. unfold overridden. rewrite existsb_app.
  assert (existsb (λ l, (precedence (name layer) <? precedence (name l))%Z && negb (is_disabled l)
                        && decides path l) lo = false) as ->.
  { induction Hlo as [|l lo Hl _ IH]; [done|]. cbn [existsb]. rewrite IH.
    assert ((precedence (name layer) <? precedence (name l))%Z = false) as -> by lia. done. }
  induction Hhi as [|l hi Hl _ IH]; [done|]. cbn [existsb orb] in *. rewrite IH.
  assert ((precedence (name layer) <? precedence (name l))%Z = true) as -> by lia. done.
Qed.

Lemma insert_sorted lo hi layer :
  is_sorted_by_precedence (lo ++ hi) = true →
  Forall (λ l, (precedence (name l) ≤ precedence (name layer))%Z) lo →
  Forall (λ l, (precedence (name layer) < precedence (name l))%Z) hi →
  is_sorted_by_precedence (lo ++ layer :: hi) = true.
Proof.
  intros Hs Hlo Hhi. induction lo as [|l lo IH]; cbn [app] in *.
  - apply is_sorted_cons. split; [done|]. eapply Forall_impl; [exact Hhi|]. intros l; cbn; lia.
  - apply is_sorted_cons in Hs as [Hs Hall]. apply Forall_cons in Hlo as [Hl Hlo].
    apply is_sorted_cons. split; [by apply IH|]. apply Forall_app in Hall as [H1 H2].
    apply Forall_app. split; [done|]. by constructor.
Qed.

Lemma insert_ordering lo hi layer r :
  verify_layer_ordering (lo ++ hi) = Ok r → is_user layer = false → (∀ d, name layer ≠ Project d) →
  Forall (λ l, (precedence (name l) ≤ precedence (name layer))%Z) lo →
  Forall (λ l, (precedence (name layer) < precedence (name l))%Z) hi →
  verify_layer_ordering (lo ++ layer :: hi) = Ok r.
Proof.
  unfold verify_layer_ordering. intros Hv Hu Hp Hlo Hhi.
  destruct (is_sorted_by_precedence (lo ++ hi)) eqn:Hs; [|done].
  rewrite insert_sorted by done. apply verify_loop_insert; try done.
  eapply Forall_impl; [exact Hhi|]. intros l Hl. cbn in Hl. pose proof (precedence_range (name layer)).
  destruct (is_user l) eqn:El; [|done]. apply precedence_zero in El. lia.
Qed.

(** A layer added at run time lies over all layers of its precedence and
    below every layer of a higher one: it decides about a path exactly when it
    says something about it and no enabled layer of strictly higher precedence
    does.  The stack stays valid, and adding succeeds for every layer that is
    neither a user nor a project layer. *)
Theorem with_layer_spec s layer path :
  valid s → is_disabled layer = false →
  ((is_user layer = false ∧ ∀ d, name layer ≠ Project d) → ∃ s', with_layer layer s = Ok s') ∧
  ∀ s', with_layer layer s = Ok s' →
    valid s' ∧
    winner s' path = if silent (config layer) path || overridden (layers s) layer path
                     then winner s path else Some layer.
Proof.
  intros Hv Hen. pose proof (valid_sorted s Hv) as Hs. unfold with_layer, partition_point.
  fold (at_most layer). destruct (take_while_length (at_most layer) (layers s)) as [-> ->].
  destruct (sorted_partition (precedence (name layer)) (layers s) Hs) as (E & Hlo & Hhi).
  fold (at_most layer) in E, Hlo, Hhi. set (lo := take_while _ _) in *. set (hi := drop_while _ _) in *. split.
  - intros [Hu Hp]. unfold stack_new. rewrite (insert_ordering lo hi layer (user_layer_index s)) by (done || by rewrite <-E).
    by eexists.
  - intros s' Hs'. destruct (stack_new (lo ++ layer :: hi) (requirements s)) as [s1|] eqn:En; [|done].
    cbn in Hs'. simplify_eq. apply stack_new_valid in En as [Hv1 El]. split; [done|].
    unfold winner, winner_in. cbn [layers with_startup_warnings].
    rewrite El, E, overridden_hi, !filter_app, filter_cons_True, !reverse_app, reverse_cons, !find_app by done.
    cbn [find]. unfold decides at 2. destruct (find _ (reverse (filter _ hi))); [by rewrite orb_true_r|].
    rewrite orb_false_r. by destruct (silent (config layer) path).
Qed.
End StackFacts.

(** ** An example stack *)
Definition no_version : TomlValue → str := λ _, §"v".
Definition user_cfg : TomlValue :=
  TTable [(§"model", TString (§"a")); (§"tools", TTable [(§"shell", TBoolean true); (§"web", TBoolean true)])].
Definition system_cfg : TomlValue := TTable [(§"tools", TTable [(§"web", TBoolean false)])].
Definition project_cfg : TomlValue := TTable [(§"model", TString (§"evil"))].
Definition flags_cfg : TomlValue :=
  build_cli_overrides_layer [(§"tools.web", TBoolean true); (§"model", TString (§"b"))].
Definition example_layers : list ConfigLayerEntry :=
  [entry_new no_version (User (§"/home/u/config.toml")) user_cfg;
   entry_new_disabled no_version (Project (§"/w/.savfox")) project_cfg (§"untrusted");
   entry_new no_version (System (§"/etc/savfox/config.toml")) system_cfg].
Definition example_stack : ConfigLayerStack unit :=
  {| layers := example_layers; user_layer_index := Some 0; requirements := (); startup_warnings := [] |}.

Lemma example_valid : valid example_stack.
Proof. by vm_compute. Qed.
Lemma example_wf : configs_wf example_stack.
Proof.
  unfold configs_wf, example_stack, example_layers. cbn [layers].
  rewrite !Forall_cons, Forall_nil. split_and!; try done;
    vm_compute; repeat (split || constructor).
Qed.

Lemma effective_config_spec_witness :
  configs_wf example_stack ∧
  leaf [§"tools"; §"web"] (effective_config example_stack) = Some (TBoolean false) ∧
  leaf [§"model"] (effective_config example_stack) = Some (TString (§"a")).
Proof.
  split; [exact example_wf|]. rewrite !(effective_config_spec example_stack _ example_wf). by vm_compute.
Defined.

Lemma origins_spec_witness :
  leaf [§"tools"; §"web"] (effective_config example_stack) = Some (TBoolean false) ∧
  origins example_stack !! (§"tools.web")
  = Some {| meta_name := System (§"/etc/savfox/config.toml"); meta_version := §"v" |}.
Proof.
  assert (leaf [§"tools"; §"web"] (effective_config example_stack) = Some (TBoolean false)) as Hl by by vm_compute.
  split; [exact Hl|].
  assert (dotless_keys example_stack) as Hd.
  { unfold dotless_keys. rewrite Forall_forall. intros l Hin.
    assert (forallb (forallb (forallb (λ c, negb (bool_decide (c = DOT))))) (scalar_paths (config l)) = true) as Hb.
    { revert l Hin. apply Forall_forall. unfold example_stack, example_layers. cbn [layers]. by repeat constructor. }
    rewrite Forall_forall. intros p Hp. unfold dotless. rewrite Forall_forall. intros k Hk Hdot.
    rewrite forallb_forall in Hb. apply list_elem_of_In in Hp. specialize (Hb p Hp).
    rewrite forallb_forall in Hb. apply list_elem_of_In in Hk. specialize (Hb k Hk).
    rewrite forallb_forall in Hb. apply list_elem_of_In in Hdot. specialize (Hb DOT Hdot).
    by rewrite bool_decide_true in Hb. }
  change (§"tools.web") with (join [DOT] [§"tools"; §"web"]).
  rewrite (origins_spec example_stack [§"tools"; §"web"] (TBoolean false) example_wf Hd); [by vm_compute|done|exact Hl|done].
Defined.

Lemma with_user_config_spec_witness :
  valid example_stack ∧
  get_user_layer (with_user_config no_version (§"/c.toml") flags_cfg example_stack)
  = Some (entry_new no_version (User (§"/c.toml")) flags_cfg).
Proof.
  split; [exact example_valid|].
  apply (with_user_config_spec no_version (§"/c.toml") flags_cfg example_stack example_valid).
Defined.

Lemma with_layer_spec_witness :
  let flags := entry_new no_version SessionFlags flags_cfg in
  ∃ s', with_layer flags example_stack = Ok s' ∧
    (name <$> winner s' [§"model"]) = Some SessionFlags ∧
    (name <$> winner s' [§"tools"; §"web"]) = Some (System (§"/etc/savfox/config.toml")).
Proof.
  intros flags.
  destruct (with_layer_spec example_stack flags [§"model"] example_valid eq_refl) as [Hok Hm].
  destruct Hok as [s' Hs']; [by split|]. exists s'. split; [exact Hs'|].
  destruct (Hm s' Hs') as [_ ->].
  destruct (with_layer_spec example_stack flags [§"tools"; §"web"] example_valid eq_refl) as [_ Hw].
  destruct (Hw s' Hs') as [_ ->]. by vm_compute.
Defined.

(** A setting that a higher layer replaced by a scalar keeps its old origin: the
    report names settings that the effective configuration does not have. *)
Example stale_origin :
  let s : ConfigLayerStack unit :=
    {| layers := [entry_new no_version (User (§"/u")) user_cfg;
                  entry_new no_version SessionFlags (build_cli_overrides_layer [(§"tools", TBoolean false)])];
       user_layer_index := Some 0; requirements := (); startup_warnings := [] |} in
  get [§"tools"; §"shell"] (effective_config s) = None ∧
  meta_name <$> origins s !! (§"tools.shell") = Some (User (§"/u")).
Proof. by vm_compute. Qed.

(** Merging is not associative: what is between decides. *)
Example merge_not_associative :
  let a := TTable [(§"k", TTable [(§"x", TInteger 1)])] in
  let b := TTable [(§"k", TInteger 5)] in
  let c := TTable [(§"k", TTable [(§"y", TInteger 2)])] in
  merge_toml_values (merge_toml_values a b) c ≠ merge_toml_values a (merge_toml_values b c).
Proof. by vm_compute. Qed.
