(* ===== verification/Requirements.v ===== *)
(** * Requirements set by an administrator ([config/src/constraint.rs],
    [core/src/config_loader/config_requirements.rs], [requirements_exec_policy.rs],
    the last step of [load_exec_policy] in [core/src/exec_policy.rs])

    A setting under a constraint never leaves the allowed set; the earliest
    source of a requirement wins; the rules of the requirements are added to the
    rules found in files, and what they say is never weakened. *)
From S2P Require Import Prelude RustStr ExecPolicy Approval.

(** ** Where a requirement comes from, and what can be wrong with a value *)
Inductive RequirementSource :=
| Unknown
| MdmManagedPreferences (domain key : str)
| CloudRequirements
| SystemRequirementsToml (file : str).

Inductive ConstraintError :=
| InvalidValue (field_name candidate allowed : str) (requirement_source : RequirementSource)
| EmptyField (field_name : str)
| ExecPolicyParse (requirement_source : RequirementSource) (reason : str).

(** ** A value under a constraint *)
Section Constrained.
Context {T : Type}.

Record Constrained := {
  value : T;
  validator : T → result ConstraintError unit;
  normalizer : option (T → T);
}.

Definition constrained_new (initial_value : T) (validator : T → result ConstraintError unit)
    : result ConstraintError Constrained :=
  _ ← validator initial_value;
  Ok {| value := initial_value; validator := validator; normalizer := None |}.

Definition normalized (initial_value : T) (normalizer : T → T) : result ConstraintError Constrained :=
  let validator := λ _ : T, Ok tt in
  let normalized := normalizer initial_value in
  _ ← validator normalized;
  Ok {| value := normalized; validator := validator; normalizer := Some normalizer |}.

Definition allow_any (initial_value : T) : Constrained :=
  {| value := initial_value; validator := λ _, Ok tt; normalizer := None |}.

Definition can_set (c : Constrained) (candidate : T) : result ConstraintError unit :=
  validator c candidate.

(** [set]: the error leaves the value as it was. *)
Definition set (v : T) (c : Constrained) : Constrained * result ConstraintError unit :=
  let v := match normalizer c with Some normalizer => normalizer v | None => v end in
  match validator c v with
  | Ok _ => ({| value := v; validator := validator c; normalizer := normalizer c |}, Ok tt)
  | Err e => (c, Err e)
  end.
End Constrained.
Arguments Constrained : clear implicits.

(** ** Rules in a requirements file *)
Inductive RequirementsExecPolicyDecisionToml := TAllow | TPrompt | TForbidden.
Definition as_decision (d : RequirementsExecPolicyDecisionToml) : ExecPolicy.Decision :=
  match d with TAllow => Allow | TPrompt => Prompt | TForbidden => Forbidden end.

Record RequirementsExecPolicyPatternTokenToml := { token : option str; any_of : option (list str) }.
Record RequirementsExecPolicyPrefixRuleToml := {
  t_pattern : list RequirementsExecPolicyPatternTokenToml;
  t_decision : option RequirementsExecPolicyDecisionToml;
  t_justification : option str;
}.
Record RequirementsExecPolicyToml := { prefix_rules : list RequirementsExecPolicyPrefixRuleToml }.

Inductive RequirementsExecPolicyParseError :=
| EmptyPrefixRules
| EmptyPattern (rule_index : nat)
| InvalidPatternToken (rule_index token_index : nat) (reason : str)
| EmptyJustification (rule_index : nat)
| MissingDecision (rule_index : nat)
| AllowDecisionNotAllowed (rule_index : nat).

Definition parse_pattern_token (t : RequirementsExecPolicyPatternTokenToml)
    (rule_index token_index : nat) : result RequirementsExecPolicyParseError PatternToken :=
  match token t, any_of t with
  | Some single, None =>
      if bool_decide (trim single = [])
      then Err (InvalidPatternToken rule_index token_index §"token cannot be empty")
      else Ok (Single single)
  | None, Some alternatives =>
      if bool_decide (alternatives = [])
      then Err (InvalidPatternToken rule_index token_index §"any_of cannot be empty")
      else if existsb (λ alt, bool_decide (trim alt = [])) alternatives
      then Err (InvalidPatternToken rule_index token_index §"any_of cannot include empty tokens")
      else Ok (Alts alternatives)
  | Some _, Some _ =>
      Err (InvalidPatternToken rule_index token_index §"set either token or any_of, not both")
  | None, None =>
      Err (InvalidPatternToken rule_index token_index §"set either token or any_of")
  end.

Fixpoint parse_pattern_tokens (rule_index token_index : nat)
    (ts : list RequirementsExecPolicyPatternTokenToml)
    : result RequirementsExecPolicyParseError (list PatternToken) :=
  match ts with
  | [] => Ok []
  | t :: ts' =>
      p ← parse_pattern_token t rule_index token_index;
      ps ← parse_pattern_tokens rule_index (S token_index) ts';
      Ok (p :: ps)
  end.

(** The body of the loop of [to_policy]: the rules that one entry adds. *)
Definition rules_of (rule_index : nat) (rule : RequirementsExecPolicyPrefixRuleToml)
    : result RequirementsExecPolicyParseError (list PrefixRule) :=
  if match t_justification rule with Some j => bool_decide (trim j = []) | None => false end
  then Err (EmptyJustification rule_index)
  else if bool_decide (t_pattern rule = []) then Err (EmptyPattern rule_index)
  else
    pattern_tokens ← parse_pattern_tokens rule_index 0 (t_pattern rule);
    decision ← match t_decision rule with
               | Some TAllow => Err (AllowDecisionNotAllowed rule_index)
               | Some d => Ok (as_decision d)
               | None => Err (MissingDecision rule_index)
               end;
    match pattern_tokens with
    | [] => Err (EmptyPattern rule_index)
    | first_token :: remaining_tokens =>
        Ok ((λ head, {| pattern := {| first := head; rest := remaining_tokens |};
                        decision := decision; justification := t_justification rule |})
              <$> alternatives first_token)
    end.

Definition insert_rules (rs : list PrefixRule) (p : Policy PrefixRule) : Policy PrefixRule :=
  foldl (λ p r, insert_rule (first (pattern r)) r p) p rs.

Fixpoint to_policy_loop (rule_index : nat) (rs : list RequirementsExecPolicyPrefixRuleToml)
    (p : Policy PrefixRule) : result RequirementsExecPolicyParseError (Policy PrefixRule) :=
  match rs with
  | [] => Ok p
  | rule :: rs' => rules ← rules_of rule_index rule; to_policy_loop (S rule_index) rs' (insert_rules rules p)
  end.

Definition to_policy (t : RequirementsExecPolicyToml)
    : result RequirementsExecPolicyParseError (Policy PrefixRule) :=
  if bool_decide (prefix_rules t = []) then Err EmptyPrefixRules
  else to_policy_loop 0 (prefix_rules t) empty_policy.

(** The end of [load_exec_policy]: the rules of the requirements are inserted
    after those of the files. *)
Definition add_requirements (requirements_policy : option (Policy PrefixRule)) (p : Policy PrefixRule)
    : Policy PrefixRule :=
  match requirements_policy with
  | None => p
  | Some req =>
      foldl (λ p kv, foldl (λ p r, insert_rule kv.1 r p) p kv.2) p (map_to_list (rules_by_program req))
  end.

(** ** The requirements *)
Inductive McpServerIdentity := Command (command : str) | Url (url : str).
#[export] Instance McpServerIdentity_eq : EqDecision McpServerIdentity.
Proof. solve_decision. Defined.
Record McpServerRequirement := { identity : McpServerIdentity }.

Inductive SandboxModeRequirement := MReadOnly | MWorkspaceWrite | MDangerFullAccess | MExternalSandbox.
#[export] Instance SandboxModeRequirement_eq : EqDecision SandboxModeRequirement.
Proof. solve_decision. Defined.

Inductive ResidencyRequirement := Us.
#[export] Instance ResidencyRequirement_eq : EqDecision ResidencyRequirement.
Proof. solve_decision. Defined.

Record ConfigRequirementsToml := {
  allowed_approval_policies : option (list AskForApproval);
  allowed_sandbox_modes : option (list SandboxModeRequirement);
  mcp_servers : option (gmap str McpServerRequirement);
  rules : option RequirementsExecPolicyToml;
  enforce_residency : option ResidencyRequirement;
}.

Definition is_none {A} (o : option A) : bool := match o with None => true | Some _ => false end.
Definition requirements_is_empty (t : ConfigRequirementsToml) : bool :=
  is_none (allowed_approval_policies t) && is_none (allowed_sandbox_modes t)
  && is_none (mcp_servers t) && is_none (rules t) && is_none (enforce_residency t).

Record Sourced (A : Type) := { sourced_value : A; source : RequirementSource }.
Arguments sourced_value {A}. Arguments source {A}.
Definition sourced_new {A} (v : A) (s : RequirementSource) : Sourced A :=
  {| sourced_value := v; source := s |}.

Record ConfigRequirementsWithSources := {
  s_allowed_approval_policies : option (Sourced (list AskForApproval));
  s_allowed_sandbox_modes : option (Sourced (list SandboxModeRequirement));
  s_mcp_servers : option (Sourced (gmap str McpServerRequirement));
  s_rules : option (Sourced RequirementsExecPolicyToml);
  s_enforce_residency : option (Sourced ResidencyRequirement);
}.
Definition no_requirements : ConfigRequirementsWithSources :=
  {| s_allowed_approval_policies := None; s_allowed_sandbox_modes := None; s_mcp_servers := None;
     s_rules := None; s_enforce_residency := None |}.

(** One field of the macro [fill_missing_take]. *)
Definition fill_missing {A} (base : option (Sourced A)) (other : option A) (src : RequirementSource)
    : option (Sourced A) :=
  match base, other with
  | None, Some v => Some (sourced_new v src)
  | _, _ => base
  end.

Definition merge_unset_fields (src : RequirementSource) (other : ConfigRequirementsToml)
    (self : ConfigRequirementsWithSources) : ConfigRequirementsWithSources :=
  {| s_allowed_approval_policies :=
       fill_missing (s_allowed_approval_policies self) (allowed_approval_policies other) src;
     s_allowed_sandbox_modes :=
       fill_missing (s_allowed_sandbox_modes self) (allowed_sandbox_modes other) src;
     s_mcp_servers := fill_missing (s_mcp_servers self) (mcp_servers other) src;
     s_rules := fill_missing (s_rules self) (rules other) src;
     s_enforce_residency := fill_missing (s_enforce_residency self) (enforce_residency other) src |}.

Definition into_toml (w : ConfigRequirementsWithSources) : ConfigRequirementsToml :=
  {| allowed_approval_policies := sourced_value <$> s_allowed_approval_policies w;
     allowed_sandbox_modes := sourced_value <$> s_allowed_sandbox_modes w;
     mcp_servers := sourced_value <$> s_mcp_servers w;
     rules := sourced_value <$> s_rules w;
     enforce_residency := sourced_value <$> s_enforce_residency w |}.

Record ConfigRequirements := {
  r_approval_policy : Constrained AskForApproval;
  r_sandbox_policy : Constrained SandboxPolicy;
  r_mcp_servers : option (Sourced (gmap str McpServerRequirement));
  r_exec_policy : option (Sourced (Policy PrefixRule));
  r_enforce_residency : Constrained (option ResidencyRequirement);
}.

Definition mode_of (candidate : SandboxPolicy) : SandboxModeRequirement :=
  match candidate with
  | ReadOnly => MReadOnly
  | WorkspaceWrite _ _ _ _ => MWorkspaceWrite
  | DangerFullAccess => MDangerFullAccess
  | ExternalSandbox _ => MExternalSandbox
  end.

Section TryFrom.
(** The texts [{:?}] prints, and the [Display] of a rules error. *)
Context (show_policy : AskForApproval → str) (show_policies : list AskForApproval → str)
        (show_mode : SandboxModeRequirement → str) (show_modes : list SandboxModeRequirement → str)
        (show_residency : option ResidencyRequirement → str)
        (show_rules_error : RequirementsExecPolicyParseError → str).

Definition approval_validator (policies : list AskForApproval) (src : RequirementSource)
    (candidate : AskForApproval) : result ConstraintError unit :=
  if bool_decide (candidate ∈ policies) then Ok tt
  else Err (InvalidValue §"approval_policy" (show_policy candidate) (show_policies policies) src).

Definition sandbox_validator (modes : list SandboxModeRequirement) (src : RequirementSource)
    (candidate : SandboxPolicy) : result ConstraintError unit :=
  let mode := mode_of candidate in
  if bool_decide (mode ∈ modes) then Ok tt
  else Err (InvalidValue §"sandbox_mode" (show_mode mode) (show_modes modes) src).

Definition residency_validator (required : option ResidencyRequirement) (src : RequirementSource)
    (candidate : option ResidencyRequirement) : result ConstraintError unit :=
  if bool_decide (candidate = required) then Ok tt
  else Err (InvalidValue §"enforce_residency" (show_residency candidate) (show_residency required) src).

Definition approval_of (r : option (Sourced (list AskForApproval)))
    : result ConstraintError (Constrained AskForApproval) :=
  match r with
  | Some (Build_Sourced _ policies src) =>
      match policies with
      | [] => Err (EmptyField §"allowed_approval_policies")
      | initial_value :: _ => constrained_new initial_value (approval_validator policies src)
      end
  | None => Ok (allow_any OnRequest)
  end.

Definition sandbox_of (r : option (Sourced (list SandboxModeRequirement)))
    : result ConstraintError (Constrained SandboxPolicy) :=
  let default_sandbox_policy := ReadOnly in
  match r with
  | Some (Build_Sourced _ modes src) =>
      if negb (bool_decide (MReadOnly ∈ modes))
      then Err (InvalidValue §"allowed_sandbox_modes" (show_modes modes)
                  §"must include 'read-only' to allow any SandboxPolicy" src)
      else constrained_new default_sandbox_policy (sandbox_validator modes src)
  | None => Ok (allow_any default_sandbox_policy)
  end.

Definition exec_policy_of (r : option (Sourced RequirementsExecPolicyToml))
    : result ConstraintError (option (Sourced (Policy PrefixRule))) :=
  match r with
  | Some (Build_Sourced _ v src) =>
      policy ← map_err (λ err, ExecPolicyParse src (show_rules_error err)) (to_policy v);
      Ok (Some (sourced_new policy src))
  | None => Ok None
  end.

Definition residency_of (r : option (Sourced ResidencyRequirement))
    : result ConstraintError (Constrained (option ResidencyRequirement)) :=
  match r with
  | Some (Build_Sourced _ residency src) =>
      let required := Some residency in constrained_new required (residency_validator required src)
  | None => Ok (allow_any None)
  end.

Definition try_from (t : ConfigRequirementsWithSources) : result ConstraintError ConfigRequirements :=
  approval_policy ← approval_of (s_allowed_approval_policies t);
  sandbox_policy ← sandbox_of (s_allowed_sandbox_modes t);
  exec_policy ← exec_policy_of (s_rules t);
  residency ← residency_of (s_enforce_residency t);
  Ok {| r_approval_policy := approval_policy; r_sandbox_policy := sandbox_policy;
        r_mcp_servers := s_mcp_servers t; r_exec_policy := exec_policy;
        r_enforce_residency := residency |}.
End TryFrom.

(** * Correctness *)

(** ** Constrained values *)
Section ConstrainedFacts.
Context {T : Type}.
Implicit Types (c : Constrained T) (v : T).

(** The value in force satisfies the constraint. *)
Definition satisfied c : Prop := validator c (value c) = Ok tt.
Definition normal_of c v : T := match normalizer c with Some f => f v | None => v end.

Lemma constrained_new_spec (v : T) f (c : Constrained T) :
  constrained_new v f = Ok c ↔ f v = Ok tt ∧ c = {| value := v; validator := f; normalizer := None |}.
Proof.
  unfold constrained_new. destruct (f v) as [[]|e] eqn:Hf; cbn.
  - split; [by intros [= <-]|by intros [_ ->]].
  - split; [done|by intros [? _]].
Qed.

Lemma set_once v c :
  validator (set v c).1 = validator c ∧ normalizer (set v c).1 = normalizer c ∧
  (satisfied c → satisfied (set v c).1) ∧
  (value (set v c).1 = value c ∨ value (set v c).1 = normal_of c v).
Proof.
  unfold set, satisfied. fold (normal_of c v).
  destruct (validator c (normal_of c v)) as [[]|e] eqn:Hv; cbn; auto.
Qed.

Lemma set_run (vs : list T) c :
  satisfied c →
  let c' := foldl (λ c v, (set v c).1) c vs in
  satisfied c' ∧ validator c' = validator c ∧ normalizer c' = normalizer c ∧
  (value c' = value c ∨ ∃ v, v ∈ vs ∧ value c' = normal_of c v).
Proof.
  revert c. induction vs as [|v vs IH]; intros c Hc; cbn; [by auto|].
  destruct (set_once v c) as (Hval & Hnorm & Hsat & Hv).
  destruct (IH _ (Hsat Hc)) as (H1 & -> & -> & H4). split_and!; try done.
  destruct H4 as [->|(w & ? & ->)].
  - destruct Hv as [->| ->]; [by left|right]. exists v. split; [by left|done].
  - right. exists w. split; [by right|]. unfold normal_of. by rewrite Hnorm.
Qed.

(** However often a constrained setting is assigned, and whatever the values,
    the value in force satisfies the constraint, is the initial value or one of
    the assigned values in normal form, and the constraint itself never changes;
    an assignment that fails leaves the setting as it was. *)
Theorem constrained_assignments c (vs : list T) :
  satisfied c →
  let c' := foldl (λ c v, (set v c).1) c vs in
  satisfied c' ∧ validator c' = validator c ∧ normalizer c' = normalizer c ∧
  (value c' = value c ∨ ∃ v, v ∈ vs ∧ value c' = normal_of c v) ∧
  ∀ v e, (set v c').2 = Err e → (set v c').1 = c'.
Proof.
  intros Hc c'. destruct (set_run vs c Hc) as (? & ? & ? & ?). split_and!; try done.
  intros v e. unfold set. by destruct (validator _ _).
Qed.
End ConstrainedFacts.

(** ** Sources *)

(** The first source that says something about a field. *)
Definition first_setting {A} (field : ConfigRequirementsToml → option A)
    (l : list (RequirementSource * ConfigRequirementsToml)) : option (Sourced A) :=
  head (omap (λ st, (λ v, sourced_new v st.1) <$> field st.2) l).

Definition merge_sources (l : list (RequirementSource * ConfigRequirementsToml))
    : ConfigRequirementsWithSources :=
  foldl (λ w st, merge_unset_fields st.1 st.2 w) no_requirements l.

(** Each field of the fold is a fold of [fill_missing]. *)
Lemma fold_field {A} (get : ConfigRequirementsWithSources → option (Sourced A))
    (field : ConfigRequirementsToml → option A) w l :
  (∀ src t w, get (merge_unset_fields src t w) = fill_missing (get w) (field t) src) →
  get (foldl (λ w st, merge_unset_fields st.1 st.2 w) w l) =
  match get w with Some x => Some x | None => first_setting field l end.
Proof.
  intros Hget. revert w. induction l as [|[src t] l IH]; intros w; cbn.
  - by destruct (get w).
  - rewrite IH, Hget. unfold first_setting. cbn.
    by destruct (get w); cbn; [|destruct (field t)].
Qed.

(** Loading requirements from several sources in order gives each field the
    value of the first source that sets it, with that source as its origin: a
    later source never overrides an earlier one, field by field. *)
Theorem merge_sources_spec l :
  let w := merge_sources l in
  s_allowed_approval_policies w = first_setting allowed_approval_policies l ∧
  s_allowed_sandbox_modes w = first_setting allowed_sandbox_modes l ∧
  s_mcp_servers w = first_setting mcp_servers l ∧
  s_rules w = first_setting rules l ∧
  s_enforce_residency w = first_setting enforce_residency l.
Proof.
  split_and!;
    [ apply (fold_field s_allowed_approval_policies allowed_approval_policies no_requirements)
    | apply (fold_field s_allowed_sandbox_modes allowed_sandbox_modes no_requirements)
    | apply (fold_field s_mcp_servers mcp_servers no_requirements)
    | apply (fold_field s_rules rules no_requirements)
    | apply (fold_field s_enforce_residency enforce_residency no_requirements) ]; done.
Qed.

(** ** Accepted values *)
Section Accepted.
Context (show_policy : AskForApproval → str) (show_policies : list AskForApproval → str)
        (show_mode : SandboxModeRequirement → str) (show_modes : list SandboxModeRequirement → str)
        (show_residency : option ResidencyRequirement → str)
        (show_rules_error : RequirementsExecPolicyParseError → str).
Local Notation requirements_of := (try_from show_policy show_policies show_mode show_modes show_residency
                              show_rules_error).

(** What a requirement lets through. *)
Definition in_allowed {A B} (r : option (Sourced (list A))) (key : B → A) (x : B) : Prop :=
  match r with Some s => key x ∈ sourced_value s | None => True end.

Lemma approval_of_spec r c :
  approval_of show_policy show_policies r = Ok c →
  satisfied c ∧ normalizer c = None ∧ ∀ p, can_set c p = Ok tt ↔ in_allowed r id p.
Proof.
  unfold approval_of. destruct r as [[ps src]|]; [destruct ps as [|i ps]; [done|]|].
  - intros (Hi & ->)%constrained_new_spec. split_and!; try done. intros p. cbn.
    unfold can_set, approval_validator; cbn. by case_bool_decide.
  - by intros [= <-].
Qed.

Lemma sandbox_of_spec r c :
  sandbox_of show_mode show_modes r = Ok c →
  satisfied c ∧ normalizer c = None ∧ value c = ReadOnly ∧
  (∀ p, can_set c p = Ok tt ↔ in_allowed r mode_of p).
Proof.
  unfold sandbox_of. destruct r as [[ms src]|].
  - case_bool_decide as Hro; [|done]. cbn.
    intros (Hi & ->)%constrained_new_spec. split_and!; try done. intros p. cbn.
    unfold can_set, sandbox_validator; cbn. by case_bool_decide.
  - by intros [= <-].
Qed.

(** The shape of requirements that loaded. *)
Lemma try_from_ok t r :
  requirements_of t = Ok r →
  normalizer (r_approval_policy r) = None ∧ normalizer (r_sandbox_policy r) = None ∧
  r_mcp_servers r = s_mcp_servers t ∧
  (∀ p, can_set (r_approval_policy r) p = Ok tt ↔ in_allowed (s_allowed_approval_policies t) id p) ∧
  (∀ p, can_set (r_sandbox_policy r) p = Ok tt ↔ in_allowed (s_allowed_sandbox_modes t) mode_of p).
Proof.
  unfold try_from. intros (a & Ha%approval_of_spec & (b & Hb%sandbox_of_spec & Hrest)%bind_Ok)%bind_Ok.
  apply bind_Ok in Hrest as (x & _ & (y & _ & [= <-])%bind_Ok). cbn.
  destruct Ha as (_ & ? & ?), Hb as (_ & ? & _ & ?). by split_and!.
Qed.

(** When the requirements load, a session setting is accepted exactly when
    the requirement on it (if any) lists it; the values in force before anything
    is set are themselves accepted, and the sandbox starts read-only.  They fail
    to load exactly when the list of approval policies is empty, the sandbox
    modes leave out read-only, or the rules do not parse. *)
Theorem try_from_spec t :
  match requirements_of t with
  | Ok r =>
      satisfied (r_approval_policy r) ∧ satisfied (r_sandbox_policy r) ∧
      satisfied (r_enforce_residency r) ∧ value (r_sandbox_policy r) = ReadOnly ∧
      (∀ p, can_set (r_approval_policy r) p = Ok tt ↔ in_allowed (s_allowed_approval_policies t) id p) ∧
      (∀ p, can_set (r_sandbox_policy r) p = Ok tt ↔ in_allowed (s_allowed_sandbox_modes t) mode_of p) ∧
      (∀ x, can_set (r_enforce_residency r) x = Ok tt ↔
         match s_enforce_residency t with Some s => x = Some (sourced_value s) | None => True end)
  | Err _ =>
      (sourced_value <$> s_allowed_approval_policies t) = Some [] ∨
      (∃ s, s_allowed_sandbox_modes t = Some s ∧ MReadOnly ∉ sourced_value s) ∨
      ∃ s e, s_rules t = Some s ∧ to_policy (sourced_value s) = Err e
  end.
Proof.
  unfold try_from.
  destruct (approval_of _ _ _) as [a|e] eqn:Ha; cbn.
  2:{ left. unfold approval_of in Ha. destruct (s_allowed_approval_policies t) as [[[|i ps] src]|];
        try done. exfalso. unfold constrained_new, approval_validator in Ha.
      rewrite bool_decide_true in Ha by left. done. }
  destruct (sandbox_of _ _ _) as [b|e] eqn:Hb; cbn.
  2:{ right; left. unfold sandbox_of in Hb. destruct (s_allowed_sandbox_modes t) as [[ms src]|];
        [|done]. exists {| sourced_value := ms; source := src |}. split; [done|]. cbn.
      case_bool_decide as Hro; [|done]. cbn in Hb. unfold constrained_new, sandbox_validator in Hb.
      by rewrite bool_decide_true in Hb. }
  destruct (exec_policy_of _ _) as [x|e] eqn:Hx; cbn.
  2:{ right; right. unfold exec_policy_of in Hx. destruct (s_rules t) as [[rs src]|]; [|done].
      destruct (to_policy rs) as [|e'] eqn:Hrs; cbn in Hx; [done|]. by eexists _, e'. }
  apply approval_of_spec in Ha as (Ha1 & _ & Ha2). apply sandbox_of_spec in Hb as (Hb1 & _ & Hb2 & Hb3).
  unfold residency_of. destruct (s_enforce_residency t) as [[v src]|]; cbn.
  - assert (residency_validator show_residency (Some v) src (Some v) = Ok tt) as Hv
      by (unfold residency_validator; by rewrite bool_decide_true).
    unfold constrained_new. rewrite Hv. cbn. split_and!; try done.
    + intros o. unfold can_set, residency_validator. cbn. by case_bool_decide.
  - by split_and!.
Qed.
End Accepted.

(** ** Rules *)

(** The rules kept under a program name. *)
Definition rules_at (p : Policy PrefixRule) (key : str) : list PrefixRule :=
  default [] (rules_by_program p !! key).

Lemma rules_at_insert_managed k r p k' :
  rules_at (insert_rule k r p) k' = rules_at p k' ++ (if decide (k = k') then [r] else []).
Proof.
  unfold rules_at. cbn. case_decide as Hk; [subst|].
  - by rewrite lookup_insert_eq.
  - by rewrite lookup_insert_ne, app_nil_r.
Qed.

Lemma rules_at_inserts_managed (key : PrefixRule → str) rs p k r :
  r ∈ rules_at (foldl (λ p r, insert_rule (key r) r p) p rs) k ↔
  r ∈ rules_at p k ∨ r ∈ rs ∧ key r = k.
Proof.
  revert p. induction rs as [|r' rs IH]; intros p; cbn; [set_solver|].
  rewrite IH, rules_at_insert_managed. case_decide; set_solver.
Qed.

Lemma rules_at_add_loop l p k r :
  r ∈ rules_at (foldl (λ p kv, foldl (λ p r, insert_rule kv.1 r p) p kv.2) p l) k ↔
  r ∈ rules_at p k ∨ ∃ rs, (k, rs) ∈ l ∧ r ∈ rs.
Proof.
  revert p. induction l as [|[k' rs] l IH]; intros p; cbn; [set_solver|].
  rewrite IH, (rules_at_inserts_managed (λ _, k')). set_solver.
Qed.

(** The rules in force are those of the files and those of the requirements. *)
Lemma rules_at_add req p k r :
  r ∈ rules_at (add_requirements (Some req) p) k ↔ r ∈ rules_at p k ∨ r ∈ rules_at req k.
Proof.
  cbn. rewrite rules_at_add_loop.
  assert ((∃ rs, (k, rs) ∈ map_to_list (rules_by_program req) ∧ r ∈ rs) ↔ r ∈ rules_at req k) as ->;
    [|done].
  setoid_rewrite elem_of_map_to_list. unfold rules_at.
  destruct (rules_by_program req !! k) as [rs|]; cbn; [naive_solver|].
  split; [by intros (? & ? & _)|by intros ?%elem_of_nil].
Qed.

Lemma rules_at_loop idx rs p p' k r :
  to_policy_loop idx rs p = Ok p' →
  r ∈ rules_at p' k ↔
  r ∈ rules_at p k ∨ ∃ i rule out, rs !! i = Some rule ∧ rules_of (idx + i) rule = Ok out
                                  ∧ r ∈ out ∧ first (pattern r) = k.
Proof.
  revert idx p. induction rs as [|rule rs IH]; intros idx p; cbn.
  { intros [= <-]. split; [by left|]. intros [?|(i & ? & ? & ? & ?)]; [done|]. by destruct i. }
  intros (out & Hout & Hloop)%bind_Ok. rewrite (IH _ _ Hloop). unfold insert_rules.
  rewrite (rules_at_inserts_managed (λ r, first (pattern r))). split.
  - intros [[?|[? ?]]|(i & rule' & out' & ? & ? & ?)]; [by left|right|right].
    + exists 0, rule, out. by rewrite Nat.add_0_r.
    + exists (S i), rule', out'. by rewrite Nat.add_succ_r.
  - intros [?|([|i] & rule' & out' & Hi & Hr & ? & ?)]; [by left; left|left; right|right].
    + cbn in Hi. rewrite Nat.add_0_r in Hr. injection Hi as <-. rewrite Hout in Hr. injection Hr as <-. auto.
    + rewrite Nat.add_succ_r in Hr. by exists i, rule', out'.
Qed.

Lemma to_policy_loop_rules idx rs p p' i rule :
  to_policy_loop idx rs p = Ok p' → rs !! i = Some rule → ∃ out, rules_of (idx + i) rule = Ok out.
Proof.
  revert idx p i. induction rs as [|rule' rs IH]; intros idx p [|i]; cbn; try done;
    intros (out & Hout & Hloop)%bind_Ok.
  - intros [= ->]. rewrite Nat.add_0_r. eauto.
  - rewrite Nat.add_succ_r. apply (IH _ _ _ Hloop).
Qed.

(** What an entry of the requirements file means: each element of the pattern
    accepts the word at its place. *)
Definition accepts (t : RequirementsExecPolicyPatternTokenToml) (word : str) : Prop :=
  match token t with Some s => s = word | None => word ∈ default [] (any_of t) end.
Definition applies (rule : RequirementsExecPolicyPrefixRuleToml) (cmd : list str) : Prop :=
  Forall2 accepts (t_pattern rule) (take (length (t_pattern rule)) cmd).

Lemma parse_token_spec t i j p :
  parse_pattern_token t i j = Ok p →
  (∀ w, token_matches p w = true ↔ accepts t w) ∧ ∀ w, w ∈ alternatives p ↔ accepts t w.
Proof.
  unfold parse_pattern_token, accepts.
  destruct (token t) as [s|], (any_of t) as [alts|]; try done; repeat case_match; try done;
    intros [= <-]; cbn; (split; intros w).
  - by rewrite bool_decide_eq_true.
  - rewrite list_elem_of_singleton. naive_solver.
  - rewrite existsb_exists. setoid_rewrite bool_decide_eq_true. setoid_rewrite <- list_elem_of_In.
    naive_solver.
  - done.
Qed.

Lemma parse_tokens_spec ts i j ps :
  parse_pattern_tokens i j ts = Ok ps →
  Forall2 (λ p t, (∀ w, token_matches p w = true ↔ accepts t w)
                  ∧ ∀ w, w ∈ alternatives p ↔ accepts t w) ps ts.
Proof.
  revert j ps. induction ts as [|t ts IH]; intros j ps; cbn; [by intros [= <-]|].
  intros (p & Hp & (ps' & Hps & [= <-])%bind_Ok)%bind_Ok.
  constructor; [by eapply parse_token_spec|by eapply IH].
Qed.

(** A rule of the requirements matches the commands its entry describes. *)
Lemma rules_of_matches i rule out cmd0 args :
  rules_of i rule = Ok out → applies rule (cmd0 :: args) →
  ∃ r prefix d j, r ∈ out ∧ first (pattern r) = cmd0 ∧
    rule_matches r (cmd0 :: args) = Some (PrefixRuleMatch prefix (as_decision d) j) ∧
    t_decision rule = Some d ∧ as_decision d ≠ Allow.
Proof.
  unfold rules_of, applies. destruct (match t_justification rule with Some _ => _ | None => _ end); [done|].
  case_bool_decide as Hne; [done|].
  intros (ps & Hps%parse_tokens_spec & (d & Hd & Hout)%bind_Ok)%bind_Ok Happ.
  destruct (t_decision rule) as [d'|] eqn:Ht; [|done].
  assert (d = as_decision d' ∧ d ≠ Allow) as [-> Hnd] by (by destruct d'; simplify_eq/=).
  inversion Hps as [|p t ps' ts' Hp Hps' E1 E2]; subst; [congruence|].
  rewrite <- E2 in Happ. cbn in Happ. apply Forall2_cons in Happ as [Hw Hrest].
  injection Hout as <-.
  eexists; eexists (cmd0 :: take (length ps') args), d', (t_justification rule).
  split_and!; [apply list_elem_of_fmap; eexists; split; [reflexivity|by apply Hp]|done| |done|done].
  cbn. pose proof (Forall2_length _ _ _ Hps') as Hlen.
  rewrite (proj2 (matches_prefix_iff _ _ (cmd0 :: take (length ps') args))); [done|].
  exists (take (length ps') args), (drop (length ps') args). rewrite take_drop.
  split_and!; [done| |done]. cbn. rewrite Hlen. clear -Hps' Hrest. revert Hrest.
  generalize (take (length ts') args). induction Hps' as [|p t ps ts [Hp _] _ IH]; intros ws;
    inversion 1; subst; constructor; [by apply Hp|by apply IH].
Qed.

Lemma rules_for_reached p cmd0 name args r m :
  reaches p cmd0 name → r ∈ rules_at p name → rule_matches r (name :: args) = Some m →
  m ∈ rules_for p (cmd0 :: args).
Proof.
  unfold rules_at. intros Hr Hin Hm. unfold rules_for.
  destruct (rules_by_program p !! name) as [rs|] eqn:Hrs; cbn in Hin; [|by apply elem_of_nil in Hin].
  destruct Hr as [->|[Hnone Hbase]].
  - rewrite Hrs. apply list_elem_of_omap. eauto.
  - rewrite Hnone, Hbase. rewrite bool_decide_false by congruence. rewrite Hrs.
    apply list_elem_of_omap. eauto.
Qed.

(** The rules of the requirements hold whatever rules the files contain: a
    command an entry describes, called by the name of its program (or by a path
    for which no rule of its own exists), is judged at least as severely as the
    entry says, and is never simply allowed. *)
Theorem managed_rules_enforced t req p h rule cmd0 name args :
  to_policy t = Ok req → rule ∈ prefix_rules t →
  reaches (add_requirements (Some req) p) cmd0 name → applies rule (name :: args) →
  ∃ ev d, t_decision rule = Some d ∧
    check (add_requirements (Some req) p) (cmd0 :: args) h = Some ev ∧
    decision_le (as_decision d) (ev_decision ev) ∧ ev_decision ev ≠ Allow.
Proof.
  unfold to_policy. case_bool_decide; [done|]. intros Hloop Hrule Hreach Happ.
  apply list_elem_of_lookup in Hrule as [i Hi].
  destruct (to_policy_loop_rules _ _ _ _ _ _ Hloop Hi) as [out Hout].
  destruct (rules_of_matches _ _ _ _ _ Hout Happ) as (r & prefix & d & j & Hin & Hfirst & Hm & Hd & Hna).
  assert (r ∈ rules_at (add_requirements (Some req) p) name) as Hat.
  { apply rules_at_add. right. apply (rules_at_loop _ _ _ _ _ _ Hloop). right. eauto 10. }
  pose proof (rules_for_reached _ _ _ _ _ _ Hreach Hat Hm) as Hfor.
  destruct (check_cases (add_requirements (Some req) p) (cmd0 :: args) h)
    as (ev & Hev & [Hub _] & Hrules & _).
  rewrite Hrules in Hub by (intros E; rewrite E in Hfor; by apply elem_of_nil in Hfor).
  specialize (Hub _ Hfor). cbn in Hub. exists ev, d. split_and!; [done|done|done|].
  intros E. rewrite E in Hub. unfold decision_le in Hub. by destruct (as_decision d); cbn in Hub; try lia.
Qed.

(** * Examples *)
Definition push_rule : RequirementsExecPolicyPrefixRuleToml :=
  {| t_pattern := [{| token := Some §"git"; any_of := None |};
                   {| token := None; any_of := Some [§"push"; §"fetch"] |}];
     t_decision := Some TForbidden; t_justification := None |}.
Definition push_rules : RequirementsExecPolicyToml := {| prefix_rules := [push_rule] |}.
Definition push_req : Policy PrefixRule :=
  match to_policy push_rules with Ok p => p | Err _ => empty_policy end.
Definition allow_all_git : Policy PrefixRule :=
  insert_rule §"git" {| pattern := {| first := §"git"; rest := [] |}; decision := Allow;
                        justification := None |} empty_policy.
Definition no_danger (_ : list str) : ExecPolicy.Decision := Allow.

Lemma managed_rules_enforced_witness :
  ∃ ev d, t_decision push_rule = Some d ∧
    check (add_requirements (Some push_req) allow_all_git) [§"git"; §"push"; §"--force"] no_danger = Some ev ∧
    decision_le (as_decision d) (ev_decision ev) ∧ ev_decision ev ≠ Allow.
Proof.
  apply (managed_rules_enforced push_rules push_req allow_all_git no_danger push_rule §"git" §"git"
           [§"push"; §"--force"]).
  - by vm_compute.
  - by left.
  - by left.
  - constructor; [done|]. constructor; [by left|constructor].
Defined.

Lemma constrained_assignments_witness :
  let c := {| value := OnRequest;
              validator := approval_validator (λ _, []) (λ _, []) [OnRequest; UnlessTrusted] CloudRequirements;
              normalizer := None |} in
  satisfied c ∧ value (foldl (λ c v, (set v c).1) c [Never; UnlessTrusted; OnFailure]) = UnlessTrusted ∧
  satisfied (foldl (λ c v, (set v c).1) c [Never; UnlessTrusted; OnFailure]).
Proof.
  intros c. assert (satisfied c) as Hc by by vm_compute. split_and!; [done|by vm_compute|].
  apply (constrained_assignments c [Never; UnlessTrusted; OnFailure] Hc).
Defined.

(** The administrator forbids [git push]; a rules file that has any rule keyed by
    [/usr/bin/git] hides the requirement from calls by that path. *)
Example path_rule_hides_requirement :
  let file_rules := insert_rule §"/usr/bin/git"
    {| pattern := {| first := §"/usr/bin/git"; rest := [] |}; decision := Allow; justification := None |}
    empty_policy in
  (ev_decision <$> check (add_requirements (Some push_req) empty_policy)
     [§"/usr/bin/git"; §"push"] no_danger) = Some Forbidden ∧
  (ev_decision <$> check (add_requirements (Some push_req) file_rules)
     [§"/usr/bin/git"; §"push"] no_danger) = Some Allow.
Proof. by vm_compute. Qed.
