(* ===== verification/ConfigLoader.v ===== *)
(** * Loading the configuration ([core/src/config_loader/mod.rs], with
    [resolve_root_git_project_for_trust] of [core/src/git_info.rs] and the search
    for the offending layer of [config_loader/diagnostics.rs])

    Reads the user's file, the files of the project between its root and the
    working directory, the flags of the session and the files of the system, and
    builds the stack of [ConfigLayers].  A project is repository contents: its
    layers count only when the user trusts the directory, and never choose the
    settings of the deny list.  Target: Linux. *)
From Stdlib Require Import Sorted.
From stdpp Require Import pretty.
From S2P Require Import Prelude RustStr Paths Toml ConfigLayers.
From S2P Require Import ExecPolicy Approval PatchSafety Requirements.

(** ** Errors: [io::Error], and [ConfigError] for a file that does not parse *)
Inductive ErrorKind := NotFound | InvalidData | InvalidInput | OtherKind (code : Z).
#[export] Instance ErrorKind_eq : EqDecision ErrorKind.
Proof. solve_decision. Defined.

(** [ErrorContext prefix inner] is the text [prefix] followed by the display of [inner]. *)
Inductive ErrorText := Msg (s : str) | ConfigError (path message : str) | ErrorContext (prefix : str) (inner : ErrorText).
Record LoadError := { kind : ErrorKind; text : ErrorText }.
Definition err {A} (k : ErrorKind) (s : str) : result LoadError A := Err {| kind := k; text := Msg s |}.

(** ** Names *)
Definition CONFIG_TOML_FILE : str := §"config.toml".
Definition CONFIG_JSON_FILE : str := §"config.json".
Definition CONFIG_YAML_FILE : str := §"config.yaml".
Definition CONFIG_YML_FILE : str := §"config.yml".
Definition DEFAULT_REQUIREMENTS_TOML_FILE_UNIX : str := §"/etc/savfox/requirements.toml".
Definition SYSTEM_CONFIG_TOML_FILE_UNIX : str := §"/etc/savfox/config.toml".
Definition DEFAULT_PROJECT_ROOT_MARKERS : list str := [§".git"].
Definition PROJECT_LOCAL_CONFIG_DENYLIST : list str :=
  [§"openai_base_url"; §"chatgpt_base_url"; §"model_provider"; §"model_providers"; §"notify";
   §"profile"; §"profiles"; §"experimental_realtime_ws_base_url"].

(** ** JSON and YAML *)
(** [serde_json::Value]; a number is an unsigned or a negative 64-bit integer,
    or a float (opaque). *)
Inductive Json :=
| JNull
| JBool (b : bool)
| JPosInt (n : Z)
| JNegInt (n : Z)
| JFloat (repr : str)
| JString (s : str)
| JArray (values : list Json)
| JObject (map : list (str * Json)).

Definition I64_MAX : Z := 2 ^ 63 - 1.

Fixpoint json_to_toml_value (v : Json) : TomlValue :=
  match v with
  | JNull => TString []
  | JBool b => TBoolean b
  | JPosInt n => if (n <=? I64_MAX)%Z then TInteger n else TString (lit (pretty (Z.to_N n)))
  | JNegInt n => TInteger n
  | JFloat repr => TFloat repr
  | JString s => TString s
  | JArray values => TArray (json_to_toml_value <$> values)
  | JObject map =>
      TTable ((fix go (map : list (str * Json)) (table : list (str * TomlValue)) :=
                 match map with
                 | [] => table
                 | (key, v) :: rest => go rest (tinsert key (json_to_toml_value v) table)
                 end) map [])
  end.

(** [Path::extension]. *)
Definition extension (p : str) : option str :=
  match file_name p with
  | None => None
  | Some n =>
      match drop_while (λ c, negb (bool_decide (c = DOT))) (reverse n) with
      | _ :: _ :: _ => Some (reverse (take_while (λ c, negb (bool_decide (c = DOT))) (reverse n)))
      | _ => None
      end
  end.

(** ** Trust *)
Inductive TrustLevel := Trusted | Untrusted.
#[export] Instance TrustLevel_eq : EqDecision TrustLevel.
Proof. solve_decision. Defined.

Record ProjectTrustContext := {
  project_root : str;
  project_root_key : str;
  repo_root_key : option str;
  projects_trust : gmap str TrustLevel;
  user_config_file : str;
}.
Record ProjectTrustDecision := { trust_level : option TrustLevel; trust_key : str }.
Definition is_trusted (d : ProjectTrustDecision) : bool := bool_decide (trust_level d = Some Trusted).

Definition decision_for_dir (c : ProjectTrustContext) (dir : str) : ProjectTrustDecision :=
  let trust k := projects_trust c !! k in
  match trust dir with
  | Some l => {| trust_level := Some l; trust_key := dir |}
  | None =>
      match trust (project_root_key c) with
      | Some l => {| trust_level := Some l; trust_key := project_root_key c |}
      | None =>
          match repo_root_key c ≫= λ k, (λ l, (k, l)) <$> trust k with
          | Some (k, l) => {| trust_level := Some l; trust_key := k |}
          | None => {| trust_level := None;
                       trust_key := default (project_root_key c) (repo_root_key c) |}
          end
      end
  end.

Definition disabled_reason_for_dir (c : ProjectTrustContext) (dir : str) : option str :=
  let d := decision_for_dir c dir in
  if is_trusted d then None
  else Some (match trust_level d with
             | Some Untrusted =>
                 trust_key d ++ §" is marked as untrusted in " ++ user_config_file c
                 ++ §". To load config.toml, mark it trusted."
             | _ =>
                 §"To load config.toml, add " ++ trust_key d ++ §" as a trusted project in "
                 ++ user_config_file c ++ §"."
             end).

(** ** Settings of the deny list *)
Fixpoint strip_keys (keys : list str) (table : list (str * TomlValue))
    : list (str * TomlValue) * list str :=
  match keys with
  | [] => (table, [])
  | key :: keys' =>
      match tget key table with
      | Some _ => let '(t, ks) := strip_keys keys' (tremove key table) in (t, key :: ks)
      | None => strip_keys keys' table
      end
  end.
Definition strip_project_local_config_denied_keys (config : TomlValue) : TomlValue * list str :=
  match config with
  | TTable table => let '(t, ks) := strip_keys PROJECT_LOCAL_CONFIG_DENYLIST table in (TTable t, ks)
  | _ => (config, [])
  end.

Definition format_ignored_project_config_keys_warning (config_file : str) (ignored_keys : list str) : str :=
  §"Ignored unsupported project config keys in " ++ config_file ++ §": " ++ join §", " ignored_keys
  ++ §". Move these settings to user-level config.toml if you need them.".

(** ** Project root markers *)
Definition markers_error : str := §"project_root_markers must be an array of strings".
Fixpoint all_strings (entries : list TomlValue) : option (list str) :=
  match entries with
  | [] => Some []
  | TString s :: rest => cons s <$> all_strings rest
  | _ :: _ => None
  end.
Definition project_root_markers_from_config (config : TomlValue) : result LoadError (option (list str)) :=
  match config with
  | TTable table =>
      match tget §"project_root_markers" table with
      | None => Ok None
      | Some (TArray entries) =>
          match all_strings entries with
          | Some markers => Ok (Some markers)
          | None => err InvalidData markers_error
          end
      | Some _ => err InvalidData markers_error
      end
  | _ => Ok None
  end.

(** ** The outside world *)
Inductive FileKind := IsFile | IsDir | IsOther.

(** The disk as [tokio::fs] shows it, [git rev-parse --git-common-dir], and the
    [Display] of an I/O error. *)
Record Disk := {
  fs_metadata : str → result ErrorKind FileKind;
  fs_contents : str → result ErrorKind str;
  fs_canonicalize : str → option str;
  git_common_dir : str → option str;
  show_kind : ErrorKind → str;
}.

(** The parsers, and the code [serde] derives for [ConfigToml] and
    [ConfigRequirementsToml].  [config_toml_roundtrip base v] reads [v] as a
    [ConfigToml] with relative paths taken from [base] and writes it back:
    [None] when it does not read. *)
Record Parsers := {
  toml_from_str : str → result str TomlValue;
  json_from_str : str → result str Json;
  yaml_from_str : str → result str Json;
  config_toml_roundtrip : str → TomlValue → option (result str TomlValue);
  config_toml_projects : str → TomlValue → result str (gmap str (option TrustLevel));
  config_toml_error : str → str → option str;
  requirements_from_str : str → result str ConfigRequirementsToml;
}.

Section Load.
Context (host : Host) (disk : Disk) (parsers : Parsers) (env : str → option str)
        (version_for_toml : TomlValue → str).

Local Notation entry_new := (entry_new version_for_toml).
Local Notation entry_new_disabled := (entry_new_disabled version_for_toml).

(** [AbsolutePathBuf::from_absolute_path(p)?]. *)
Definition absolute (p : str) : result LoadError str :=
  match from_absolute_path host p with
  | Some q => Ok q
  | None => err (OtherKind 0) §"no current directory"
  end.

Definition resolve_root_git_project_for_trust (cwd : str) : option str :=
  base ← (if is_dir host cwd then Some cwd else path_parent cwd);
  stdout ← git_common_dir disk base;
  let git_dir_s := trim stdout in
  let git_dir_path_raw := resolve_path base git_dir_s in
  let git_dir_path := default git_dir_path_raw (fs_canonicalize disk git_dir_path_raw) in
  path_parent git_dir_path.

(** The loop of [resolve_preferred_config_file]. *)
Fixpoint first_config_file (candidates : list str) (dflt : str) : result LoadError str :=
  match candidates with
  | [] => Ok dflt
  | candidate :: rest =>
      match fs_metadata disk candidate with
      | Ok IsFile => absolute candidate
      | Ok _ => first_config_file rest dflt
      | Err k =>
          if bool_decide (k = NotFound) then first_config_file rest dflt
          else err k (§"Failed to read config metadata " ++ candidate ++ §": " ++ show_kind disk k)
      end
  end.
Definition resolve_preferred_config_file (default_toml_file : str) : result LoadError str :=
  match path_parent default_toml_file with
  | None => err InvalidInput (§"config path " ++ default_toml_file ++ §" has no parent")
  | Some default_parent =>
      first_config_file
        [default_toml_file; path_join default_parent CONFIG_JSON_FILE;
         path_join default_parent CONFIG_YAML_FILE; path_join default_parent CONFIG_YML_FILE]
        default_toml_file
  end.

Definition parse_config_file_content (config_file contents : str) : result LoadError TomlValue :=
  match extension config_file with
  | Some e =>
      if bool_decide (e = §"json") then
        match json_from_str parsers contents with
        | Ok v => Ok (json_to_toml_value v)
        | Err m => err InvalidData (§"Error parsing JSON config file " ++ config_file ++ §": " ++ m)
        end
      else if bool_decide (e = §"yaml" ∨ e = §"yml") then
        match yaml_from_str parsers contents with
        | Ok v => Ok (json_to_toml_value v)
        | Err m => err InvalidData (§"Error parsing YAML config file " ++ config_file ++ §": " ++ m)
        end
      else map_err (λ m, {| kind := InvalidData; text := ConfigError config_file m |})
                   (toml_from_str parsers contents)
  | None => map_err (λ m, {| kind := InvalidData; text := ConfigError config_file m |})
                    (toml_from_str parsers contents)
  end.

Definition resolve_relative_paths_in_config_toml (v : TomlValue) (base_dir : str)
    : result LoadError TomlValue :=
  v ← map_err (λ m, {| kind := InvalidData; text := Msg m |})
              (substitute_env_vars_in_toml_value env v);
  match config_toml_roundtrip parsers base_dir v with
  | None => Ok v
  | Some (Err m) => err InvalidData (§"Failed to serialize resolved config: " ++ m)
  | Some (Ok resolved_value) => Ok (copy_shape_from_original v resolved_value)
  end.

(** What both loaders do with a file that was read. *)
Definition config_of_contents (config_file contents : str) : result LoadError TomlValue :=
  config ← parse_config_file_content config_file contents;
  match path_parent config_file with
  | None => err InvalidData (§"Config file " ++ config_file ++ §" has no parent directory")
  | Some config_parent => resolve_relative_paths_in_config_toml config config_parent
  end.

Definition read_error {A} (what config_file : str) (k : ErrorKind) : result LoadError A :=
  err k (§"Failed to read " ++ what ++ §" file " ++ config_file ++ §": " ++ show_kind disk k).

Definition load_config_toml_for_required_layer (config_file : str)
    (create_entry : TomlValue → ConfigLayerEntry) : result LoadError ConfigLayerEntry :=
  config_value ←
    match fs_contents disk config_file with
    | Ok contents => config_of_contents config_file contents
    | Err k => if bool_decide (k = NotFound) then Ok (TTable [])
               else read_error §"config" config_file k
    end;
  Ok (create_entry config_value).

Definition load_config_toml_for_optional_layer (config_file : str)
    (create_entry : TomlValue → ConfigLayerEntry) : result LoadError (option ConfigLayerEntry) :=
  match fs_contents disk config_file with
  | Ok contents => resolved ← config_of_contents config_file contents; Ok (Some (create_entry resolved))
  | Err k => if bool_decide (k = NotFound) then Ok None else read_error §"config" config_file k
  end.

Definition load_requirements_toml (w : ConfigRequirementsWithSources) (requirements_toml_file : str)
    : result LoadError ConfigRequirementsWithSources :=
  file ← absolute requirements_toml_file;
  match fs_contents disk file with
  | Ok contents =>
      match requirements_from_str parsers contents with
      | Ok t => Ok (merge_unset_fields (SystemRequirementsToml file) t w)
      | Err m => err InvalidData (§"Error parsing requirements file " ++ file ++ §": " ++ m)
      end
  | Err k => if bool_decide (k = NotFound) then Ok w else read_error §"requirements" file k
  end.

(** ** The first layer whose file does not fit the schema *)
Definition config_path_for_layer (l : ConfigLayerEntry) : option str :=
  match name l with
  | System file | User file => Some file
  | Project dot_savfox_folder => Some (path_join dot_savfox_folder CONFIG_TOML_FILE)
  | Mdm _ _ | SessionFlags => None
  end.
Fixpoint first_layer_config_error (layers : list ConfigLayerEntry) : option (str * str) :=
  match layers with
  | [] => None
  | layer :: rest =>
      match config_path_for_layer layer with
      | None => first_layer_config_error rest
      | Some path =>
          match fs_contents disk path, path_parent path with
          | Ok contents, Some parent =>
              match config_toml_error parsers parent contents with
              | Some message => Some (path, message)
              | None => first_layer_config_error rest
              end
          | _, _ => first_layer_config_error rest
          end
      end
  end.

(** [match … { Err(err) => … }]: the error of a layer's own file is preferred. *)
Definition or_layer_error {A} (layers : list ConfigLayerEntry) (r : result LoadError A)
    : result LoadError A :=
  match r with
  | Ok a => Ok a
  | Err e =>
      match first_layer_config_error layers with
      | Some (path, message) => Err {| kind := InvalidData; text := ConfigError path message |}
      | None => Err e
      end
  end.

(** ** The project *)
Definition has_marker (markers : list str) (ancestor : str) : bool :=
  existsb (λ marker, is_ok (fs_metadata disk (path_join ancestor marker))) markers.
Definition find_project_root (cwd : str) (project_root_markers : list str) : result LoadError str :=
  if bool_decide (project_root_markers = []) then Ok cwd
  else match find (has_marker project_root_markers) (ancestors cwd) with
       | Some ancestor => absolute ancestor
       | None => Ok cwd
       end.

Definition project_trust_context (merged_config : TomlValue) (cwd : str)
    (project_root_markers : list str) (config_base_dir user_config_file : str)
    : result LoadError ProjectTrustContext :=
  projects ← map_err (λ m, {| kind := InvalidData; text := Msg m |})
                     (config_toml_projects parsers config_base_dir merged_config);
  project_root ← find_project_root cwd project_root_markers;
  Ok {| project_root := project_root; project_root_key := project_root;
        repo_root_key := resolve_root_git_project_for_trust cwd;
        projects_trust := omap id projects; user_config_file := user_config_file |}.

Definition project_layer_entry (c : ProjectTrustContext) (dot_savfox_folder layer_dir : str)
    (config : TomlValue) (config_toml_exists : bool) : ConfigLayerEntry :=
  let source := Project dot_savfox_folder in
  match (if config_toml_exists then disabled_reason_for_dir c layer_dir else None) with
  | Some reason => entry_new_disabled source config reason
  | None => entry_new source config
  end.

(** [scan]: the ancestors up to the root, both included. *)
Fixpoint until_root (root : str) (dirs : list str) : list str :=
  match dirs with
  | [] => []
  | a :: rest => if path_eq a root then [a] else a :: until_root root rest
  end.

Definition normalize_path (p : str) : str := default p (fs_canonicalize disk p).

(** The body of the loop of [load_project_layers]: the layer of one directory
    and the warnings it causes. *)
Definition project_layer (c : ProjectTrustContext) (savfox_home_abs dir : str)
    : result LoadError (list ConfigLayerEntry * list str) :=
  let dot_savfox := path_join dir §".savfox" in
  match fs_metadata disk dot_savfox with
  | Ok IsDir =>
      layer_dir ← absolute dir;
      let decision := decision_for_dir c layer_dir in
      dot_savfox_abs ← absolute dot_savfox;
      if path_eq dot_savfox_abs savfox_home_abs
         || path_eq (normalize_path dot_savfox_abs) (normalize_path savfox_home_abs)
      then Ok ([], [])
      else
        config_file ← resolve_preferred_config_file (absolute_join host dot_savfox_abs CONFIG_TOML_FILE);
        match fs_contents disk config_file with
        | Ok contents =>
            match parse_config_file_content config_file contents with
            | Err e =>
                if is_trusted decision
                then Err {| kind := InvalidData;
                            text := ErrorContext (§"Error parsing project config file " ++ config_file
                                                  ++ §": ") (text e) |}
                else Ok ([project_layer_entry c dot_savfox_abs layer_dir (TTable []) true], [])
            | Ok config =>
                let '(config, ignored_keys) := strip_project_local_config_denied_keys config in
                config ← resolve_relative_paths_in_config_toml config dot_savfox_abs;
                let entry := project_layer_entry c dot_savfox_abs layer_dir config true in
                Ok ([entry],
                    if negb (bool_decide (ignored_keys = [])) && negb (is_disabled entry)
                    then [format_ignored_project_config_keys_warning config_file ignored_keys] else [])
            end
        | Err k =>
            if bool_decide (k = NotFound)
            then Ok ([project_layer_entry c dot_savfox_abs layer_dir (TTable []) false], [])
            else read_error §"project config" config_file k
        end
  | _ => Ok ([], [])
  end.

Fixpoint project_layers_loop (c : ProjectTrustContext) (savfox_home_abs : str) (dirs : list str)
    : result LoadError (list ConfigLayerEntry * list str) :=
  match dirs with
  | [] => Ok ([], [])
  | dir :: rest =>
      one ← project_layer c savfox_home_abs dir;
      more ← project_layers_loop c savfox_home_abs rest;
      Ok (one.1 ++ more.1, one.2 ++ more.2)
  end.

Definition load_project_layers (cwd : str) (c : ProjectTrustContext) (savfox_home : str)
    : result LoadError (list ConfigLayerEntry * list str) :=
  savfox_home_abs ← absolute savfox_home;
  project_layers_loop c savfox_home_abs (reverse (until_root (project_root c) (ancestors cwd))).

(** ** The whole stack *)
Definition merge_layers (layers : list ConfigLayerEntry) : TomlValue :=
  foldl (λ merged l, merge_toml_values merged (config l)) (TTable []) layers.

(** The part of the project: trust is read from the user's layer and the flags. *)
Definition load_project (savfox_home user_file cwd : str) (layers : list ConfigLayerEntry)
    (cli_overrides_layer : option TomlValue) : result LoadError (list ConfigLayerEntry * list str) :=
  let merged_so_far := merge_layers layers in
  let merged_so_far := match cli_overrides_layer with
                       | Some l => merge_toml_values merged_so_far l
                       | None => merged_so_far
                       end in
  markers ← or_layer_error layers (project_root_markers_from_config merged_so_far);
  let markers := default DEFAULT_PROJECT_ROOT_MARKERS markers in
  c ← or_layer_error layers (project_trust_context merged_so_far cwd markers savfox_home user_file);
  load_project_layers cwd c savfox_home.

Context (requirements_of : ConfigRequirementsWithSources → result str ConfigRequirements)
        (show_layer_error : LayerError → str).

Definition load_config_layers_state (savfox_home : str) (cwd : option str)
    (cli_overrides : list (str * TomlValue)) (managed_config_path : option str)
    (cloud_requirements : option ConfigRequirementsToml)
    : result LoadError (ConfigLayerStack (ConfigRequirements * ConfigRequirementsToml)) :=
  let w := match cloud_requirements with
           | Some t => merge_unset_fields CloudRequirements t no_requirements
           | None => no_requirements
           end in
  w ← load_requirements_toml w DEFAULT_REQUIREMENTS_TOML_FILE_UNIX;
  let cli_overrides_layer := if bool_decide (cli_overrides = []) then None
                             else Some (build_cli_overrides_layer cli_overrides) in
  let user_toml_file := resolve_path_against_base host CONFIG_TOML_FILE savfox_home in
  user_file ← resolve_preferred_config_file user_toml_file;
  user_layer ← load_config_toml_for_required_layer user_file (entry_new (User user_file));
  project ← match cwd with
            | Some cwd => load_project savfox_home user_file cwd [user_layer] cli_overrides_layer
            | None => Ok ([], [])
            end;
  let flags := match cli_overrides_layer with
               | Some l => [entry_new SessionFlags l]
               | None => []
               end in
  system_toml_file ← absolute SYSTEM_CONFIG_TOML_FILE_UNIX;
  system_file ← resolve_preferred_config_file system_toml_file;
  system_layer ← load_config_toml_for_required_layer system_file (entry_new (System system_file));
  managed ← match managed_config_path with
            | Some managed_path =>
                managed_abs ← absolute managed_path;
                managed_layer ← load_config_toml_for_optional_layer managed_abs
                                  (entry_new (System managed_abs));
                Ok (option_list managed_layer)
            | None => Ok []
            end;
  req ← map_err (λ m, {| kind := InvalidInput; text := Msg m |}) (requirements_of w);
  stack ← map_err (λ e, {| kind := InvalidData; text := Msg (show_layer_error e) |})
            (stack_new ([user_layer] ++ project.1 ++ flags ++ [system_layer] ++ managed)
               (req, into_toml w));
  Ok (with_startup_warnings project.2 stack).
End Load.

(** * Correctness *)

(** What the parsers promise: a TOML document is a table, writing a structure
    gives a table, and tables are maps. *)
Class ParserLaws (p : Parsers) := {
  toml_document s v : toml_from_str p s = Ok v → is_table v = true ∧ toml_wf v;
  roundtrip_table base v r :
    config_toml_roundtrip p base v = Some (Ok r) → is_table r = true ∧ toml_wf r;
}.

Lemma empty_table_wf : toml_wf (TTable []).
Proof. apply toml_wf_table. by split; constructor. Qed.
#[export] Hint Resolve empty_table_wf : core.

Lemma json_wf v : toml_wf (json_to_toml_value v).
Proof.
  revert v. fix IH 1. intros [|b|n|n|r|s|values|map]; cbn [json_to_toml_value]; try done.
  - by case_match.
  - apply toml_wf_array. induction values as [|v values IHv]; constructor; [apply IH|exact IHv].
  - generalize empty_table_wf. generalize (@nil (str * TomlValue)).
    induction map as [|[k v] map IHm]; intros acc Hacc; [exact Hacc|].
    apply IHm. apply toml_wf_table in Hacc as [Hs Hall]. apply toml_wf_table.
    split; [by apply tinsert_sorted|by apply tinsert_Forall; [apply IH|]].
Qed.

Lemma tremove_get_ne {V} k k' (t : list (str * V)) : k ≠ k' → tget k (tremove k' t) = tget k t.
Proof.
  intros Hne. induction t as [|[x v] t IH]; [done|]. cbn. case_decide; cbn; case_decide; congruence.
Qed.
Lemma tremove_sublist {V} k (t : list (str * V)) : tremove k t `sublist_of` t.
Proof.
  induction t as [|[x v] t IH]; [done|]. cbn. case_decide; [by apply sublist_cons|by constructor].
Qed.
Lemma tremove_get {V} k (t : list (str * V)) : NoDup t.*1 → tget k (tremove k t) = None.
Proof.
  intros Hnd. induction t as [|[x v] t IH]; [done|]. cbn in *. apply NoDup_cons in Hnd as [Hn Hd].
  case_decide as Hk; cbn; [subst; by apply tget_None|]. rewrite decide_False by done. by apply IH.
Qed.

Lemma Forall_sublist_of {A} (P : A → Prop) l l' : l' `sublist_of` l → Forall P l → Forall P l'.
Proof. intros Hsub. rewrite !Forall_forall. intros H x Hx. by eapply H, elem_of_sublist. Qed.

Lemma filter_ext_in {A} (P Q : A → Prop) `{∀ x, base.Decision (P x)} `{∀ x, base.Decision (Q x)} (l : list A) :
  (∀ x, x ∈ l → P x ↔ Q x) → filter P l = filter Q l.
Proof.
  induction l as [|x l IH]; intros Hl; [done|]. rewrite !filter_cons.
  rewrite IH by (intros; apply Hl; by right). specialize (Hl x (list_elem_of_here _ _)).
  do 2 case_decide; tauto.
Qed.

Lemma strip_keys_sublist keys t : (strip_keys keys t).1 `sublist_of` t.
Proof.
  revert t. induction keys as [|k keys IH]; intros t; [done|]. cbn.
  destruct (tget k t) as [v|]; [|apply IH].
  specialize (IH (tremove k t)). destruct (strip_keys keys (tremove k t)); cbn in *.
  etransitivity; [exact IH|apply tremove_sublist].
Qed.

Lemma sublist_wf t t' : t' `sublist_of` t → toml_wf (TTable t) → toml_wf (TTable t').
Proof.
  rewrite !toml_wf_table. intros Hsub [Hs Hall]. split.
  - clear Hall. induction Hsub as [|x t1 t2 Hsub IH|x t1 t2 Hsub IH]; [done| |].
    + apply StronglySorted_inv in Hs as [Hs Hx]. constructor; [by apply IH|].
      by eapply Forall_sublist_of.
    + apply StronglySorted_inv in Hs as [Hs Hx]. by apply IH.
  - by eapply Forall_sublist_of.
Qed.

Lemma sublist_absent {V} k (t t' : list (str * V)) : t' `sublist_of` t → tget k t = None → tget k t' = None.
Proof.
  rewrite !tget_None. intros Hsub Hk Hk'. apply Hk.
  eapply elem_of_sublist; [exact Hk'|]. by apply fmap_sublist.
Qed.

(** Stripping removes the keys of the list and nothing else, and reports those
    that were there. *)
Lemma strip_keys_spec keys t :
  NoDup t.*1 → NoDup keys →
  (strip_keys keys t).2 = filter (λ k, is_Some (tget k t)) keys ∧
  ∀ k, tget k (strip_keys keys t).1 = if decide (k ∈ keys) then None else tget k t.
Proof.
  revert t. induction keys as [|k keys IH]; intros t Hnd Hks; [done|].
  apply NoDup_cons in Hks as [Hk Hks]. cbn [strip_keys]. rewrite filter_cons.
  destruct (tget k t) as [v|] eqn:E.
  - rewrite decide_True by done.
    assert (NoDup (tremove k t).*1) as Hnd' by (eapply sublist_NoDup; [exact Hnd|]; apply fmap_sublist, tremove_sublist).
    destruct (IH _ Hnd' Hks) as [IH1 IH2]. destruct (strip_keys keys (tremove k t)) as [t1 ks]; cbn in *.
    split.
    + rewrite IH1. f_equal. apply filter_ext_in. intros x Hx.
      by rewrite tremove_get_ne by (intros ->; done).
    + intros x. rewrite IH2. destruct (decide (x = k)) as [->|Hne].
      * rewrite (decide_True (P := k ∈ k :: keys)) by by left.
        rewrite decide_False by done. by apply tremove_get.
      * rewrite tremove_get_ne by done. apply decide_ext. set_solver.
  - rewrite decide_False by (intros [? ?]; done). destruct (IH _ Hnd Hks) as [-> IH2]. split; [done|].
    intros x. rewrite IH2. destruct (decide (x = k)) as [->|Hne].
    + rewrite E. by repeat case_decide.
    + apply decide_ext. set_solver.
Qed.

Section LoadFacts.
Context (host : Host) (disk : Disk) (parsers : Parsers) (env : str → option str)
        (version_for_toml : TomlValue → str).
Context `{!ParserLaws parsers}.
Local Notation parse := (parse_config_file_content parsers).
Local Notation resolve := (resolve_relative_paths_in_config_toml parsers env).

Lemma parse_wf f s v : parse f s = Ok v → toml_wf v.
Proof.
  unfold parse_config_file_content.
  assert (∀ m : str → LoadError, map_err m (toml_from_str parsers s) = Ok v → toml_wf v) as Htoml.
  { intros m. destruct (toml_from_str parsers s) as [v'|] eqn:E; [|done]. intros [= <-].
    by eapply toml_document. }
  destruct (extension f) as [e|]; [|apply Htoml].
  case_bool_decide; [|case_bool_decide; [|apply Htoml]].
  - destruct (json_from_str parsers s); [|done]. intros [= <-]. apply json_wf.
  - destruct (yaml_from_str parsers s); [|done]. intros [= <-]. apply json_wf.
Qed.

Lemma resolve_cases v base r :
  resolve v base = Ok r →
  ∃ v', substitute_env_vars_in_toml_value env v = Ok v' ∧
    (r = v' ∨ ∃ rv, is_table rv = true ∧ toml_wf rv ∧ r = copy_shape_from_original v' rv).
Proof.
  unfold resolve_relative_paths_in_config_toml. intros (v' & Hv' & Hr)%bind_Ok. exists v'. split.
  - by destruct (substitute_env_vars_in_toml_value env v); simplify_eq/=.
  - destruct (config_toml_roundtrip _ _ _) as [[rv|m]|] eqn:Hrt; simplify_eq/=; [right|by left].
    exists rv. apply roundtrip_table in Hrt as [??]. done.
Qed.

Lemma resolve_wf v base r : toml_wf v → resolve v base = Ok r → toml_wf r.
Proof.
  intros Hwf (v' & Hv' & [->|(rv & _ & Hrv & ->)])%resolve_cases;
    apply substitute_wf in Hv'; try done. by apply copy_shape_wf.
Qed.

(** Resolving paths and variables adds no key at the top. *)
Lemma resolve_absent t k path base r :
  tget k t = None → resolve (TTable t) base = Ok r → silent r (k :: path) = true.
Proof.
  intros Hk%tget_None (v' & (t' & -> & Hall)%substitute_table & Hr)%resolve_cases.
  assert (t'.*1 = t.*1) as Hkeys.
  { clear -Hall. induction Hall as [|[a b] [a' b'] t t' [Ha _] _ IH]; cbn in *; [done|]. by subst; f_equal. }
  destruct Hr as [->|(rv & Hrv & _ & ->)].
  - cbn. by rewrite (proj2 (tget_None k t')) by by rewrite Hkeys.
  - destruct rv as [| | | | | |rt]; try done. rewrite copy_shape_table. cbn [silent].
    by rewrite tinserts_get by by rewrite Hkeys.
Qed.

(** Every file the project's layers come from holds a table at the top. *)
Definition tables_only : Prop :=
  ∀ f s v, fs_contents disk f = Ok s → parse f s = Ok v → is_table v = true.

(** What a layer of the project [dir] may be. *)
Definition layer_ok (c : ProjectTrustContext) (dir : str) (l : ConfigLayerEntry) : Prop :=
  ∃ dot d, name l = Project dot ∧ absolute host (path_join dir §".savfox") = Ok dot ∧
    absolute host dir = Ok d ∧ toml_wf (config l) ∧
    (is_disabled l = false → config l = TTable [] ∨ trust_level (decision_for_dir c d) = Some Trusted) ∧
    (tables_only → ∀ k path, k ∈ PROJECT_LOCAL_CONFIG_DENYLIST → silent (config l) (k :: path) = true).

Lemma entry_facts c dot d v b :
  let l := project_layer_entry version_for_toml c dot d v b in
  name l = Project dot ∧ config l = v ∧
  (is_disabled l = false → b = false ∨ trust_level (decision_for_dir c d) = Some Trusted).
Proof.
  cbn. unfold project_layer_entry, disabled_reason_for_dir, is_trusted.
  destruct b; cbn; [|by auto]. case_bool_decide; cbn; auto.
Qed.

Lemma strip_wf v : toml_wf v → toml_wf (strip_project_local_config_denied_keys v).1.
Proof.
  destruct v as [| | | | | |t]; try done. unfold strip_project_local_config_denied_keys.
  pose proof (strip_keys_sublist PROJECT_LOCAL_CONFIG_DENYLIST t).
  destruct (strip_keys _ t); cbn in *. by eapply sublist_wf.
Qed.

Lemma denylist_NoDup : NoDup PROJECT_LOCAL_CONFIG_DENYLIST.
Proof. apply (bool_decide_unpack _). by vm_compute. Qed.

(** A denied key is absent from what is left of a table. *)
Lemma strip_absent v k :
  toml_wf v → is_table v = true → k ∈ PROJECT_LOCAL_CONFIG_DENYLIST →
  ∃ t, (strip_project_local_config_denied_keys v).1 = TTable t ∧ tget k t = None.
Proof.
  destruct v as [| | | | | |t]; try done. intros [Hs _]%toml_wf_table _ Hk. unfold strip_project_local_config_denied_keys.
  destruct (strip_keys_spec _ t (sorted_NoDup _ Hs) denylist_NoDup) as [_ Hget].
  specialize (Hget k). rewrite decide_True in Hget by done.
  destruct (strip_keys PROJECT_LOCAL_CONFIG_DENYLIST t) as [t' ks]; cbn in *. eauto.
Qed.

Lemma project_layer_ok c home dir ls ws :
  project_layer host disk parsers env version_for_toml c home dir = Ok (ls, ws) →
  Forall (layer_ok c dir) ls.
Proof.
  unfold project_layer. destruct (fs_metadata _ _) as [[]|]; try (intros [= <- <-]; by constructor).
  intros (d & Hd & (dot & Hdot & Hrest)%bind_Ok)%bind_Ok. revert Hrest.
  case_match; [intros [= <- <-]; by constructor|]. intros (f & _ & Hrest)%bind_Ok.
  assert (∀ v b, toml_wf v →
    (b = false → v = TTable []) →
    (tables_only → ∀ k path, k ∈ PROJECT_LOCAL_CONFIG_DENYLIST → silent v (k :: path) = true) →
    layer_ok c dir (project_layer_entry version_for_toml c dot d v b)) as Hok.
  { intros v b Hwf Hb Hden. destruct (entry_facts c dot d v b) as (Hn & Hc & Hdis).
    exists dot, d. rewrite Hc. split_and!; try done.
    intros [?|?]%Hdis; [left; by apply Hb|by right]. }
  assert (∀ k path, silent (TTable []) (k :: path) = true) as Hempty by done.
  destruct (fs_contents disk f) as [contents|k] eqn:Hf.
  2:{ case_bool_decide; [|done]. injection Hrest as <- <-. repeat constructor. by apply Hok. }
  destruct (parse f contents) as [v|e] eqn:Hp.
  2:{ case_match; [done|]. injection Hrest as <- <-. repeat constructor. by apply Hok. }
  pose proof (parse_wf _ _ _ Hp) as Hwf. pose proof (strip_wf _ Hwf) as Hwf'.
  pose proof (λ k, strip_absent v k Hwf) as Habs.
  destruct (strip_project_local_config_denied_keys v) as [v' ignored]. cbn in Hwf', Habs.
  apply bind_Ok in Hrest as (r & Hr & [= <- <-]). repeat constructor.
  apply Hok; [by eapply resolve_wf|done|].
  intros Htab k path Hk. destruct (Habs k (Htab _ _ _ Hf Hp) Hk) as (t & -> & Ht).
  by eapply resolve_absent.
Qed.

Lemma project_layers_loop_ok c home dirs ls ws :
  project_layers_loop host disk parsers env version_for_toml c home dirs = Ok (ls, ws) →
  Forall (λ l, ∃ dir, dir ∈ dirs ∧ layer_ok c dir l) ls.
Proof.
  revert ls ws. induction dirs as [|dir dirs IH]; intros ls ws; cbn; [by intros [= <- <-]|].
  intros ([l1 w1] & H1 & ([l2 w2] & H2 & [= <- <-])%bind_Ok)%bind_Ok. cbn.
  apply Forall_app. split.
  - eapply Forall_impl; [by eapply project_layer_ok|]. intros l ?. exists dir. split; [by left|done].
  - eapply Forall_impl; [by eapply IH|]. intros l (d & ? & ?). exists d. split; [by right|done].
Qed.

Lemma until_root_incl root dirs : until_root root dirs ⊆ dirs.
Proof. induction dirs as [|a dirs IH]; cbn; [done|]. case_match; set_solver. Qed.

Lemma or_layer_error_Ok {A} ls (r : result LoadError A) a :
  or_layer_error disk parsers ls r = Ok a → r = Ok a.
Proof. destruct r; cbn; [done|]. by destruct (first_layer_config_error _ _ _) as [[]|]. Qed.

(** Trust comes from the values the project is loaded under. *)
Lemma load_project_ok home user_file cwd layers cli ls ws :
  load_project host disk parsers env version_for_toml home user_file cwd layers cli = Ok (ls, ws) →
  ∃ c projects,
    config_toml_projects parsers home
      (match cli with Some l => merge_toml_values (merge_layers layers) l | None => merge_layers layers end)
      = Ok projects ∧
    projects_trust c = omap id projects ∧
    Forall (λ l, ∃ dir, dir ∈ ancestors cwd ∧ layer_ok c dir l) ls.
Proof.
  unfold load_project. intros (markers & _ & (c & Hc%or_layer_error_Ok & Hl)%bind_Ok)%bind_Ok.
  unfold project_trust_context in Hc. apply bind_Ok in Hc as (projects & Hp & (root & _ & Hc)%bind_Ok).
  assert (projects_trust c = omap id projects) as Htrust by by injection Hc as <-.
  destruct (config_toml_projects _ _ _) as [ps|] eqn:Hps; cbn in Hp; [|done]. injection Hp as ->.
  clear Hc. unfold load_project_layers in Hl. apply bind_Ok in Hl as (h & _ & Hl%project_layers_loop_ok).
  exists c, projects. split_and!; [done|done|].
  eapply Forall_impl; [exact Hl|]. intros l (dir & Hdir & ?). exists dir. split; [|done].
  apply elem_of_reverse in Hdir. rewrite reverse_involutive in Hdir. exact (until_root_incl _ _ _ Hdir).
Qed.

(** A layer read from a file outside the project. *)
Definition outside (l : ConfigLayerEntry) : Prop :=
  (∀ d, name l ≠ Project d) ∧ is_disabled l = false ∧ toml_wf (config l).

Lemma contents_wf f s v : config_of_contents parsers env f s = Ok v → toml_wf v.
Proof.
  unfold config_of_contents. intros (x & Hx & Hv)%bind_Ok.
  destruct (path_parent f); [|done]. eapply resolve_wf; [by eapply parse_wf|done].
Qed.

Lemma required_layer f n l :
  load_config_toml_for_required_layer disk parsers env f (entry_new version_for_toml n) = Ok l →
  name l = n ∧ is_disabled l = false ∧ toml_wf (config l).
Proof.
  unfold load_config_toml_for_required_layer. intros (v & Hv & [= <-])%bind_Ok. cbn.
  split_and!; [done|done|]. destruct (fs_contents disk f); [by eapply contents_wf|].
  case_bool_decide; [injection Hv as <-; apply empty_table_wf|done].
Qed.

Lemma optional_layer f n l :
  load_config_toml_for_optional_layer disk parsers env f (entry_new version_for_toml n) = Ok (Some l) →
  name l = n ∧ is_disabled l = false ∧ toml_wf (config l).
Proof.
  unfold load_config_toml_for_optional_layer. destruct (fs_contents disk f).
  - intros (v & Hv & [= <-])%bind_Ok. split_and!; [done|done|]. by eapply contents_wf.
  - by case_bool_decide.
Qed.

Context (requirements_of : ConfigRequirementsWithSources → result str ConfigRequirements)
        (show_layer_error : LayerError → str).
Local Notation load := (load_config_layers_state host disk parsers env version_for_toml requirements_of
                          show_layer_error).

(** The shape of the stack. *)
Lemma load_shape home cwd cli managed cloud s :
  load home cwd cli managed cloud = Ok s → Forall (λ pv, toml_wf pv.2) cli →
  ∃ user project flags system user_file,
    layers s = user :: project ++ flags ++ system ∧ name user = User user_file ∧ outside user ∧
    Forall (λ l, name l = SessionFlags ∧ outside l) flags ∧
    Forall (λ l, (∃ f, name l = System f) ∧ outside l) system ∧
    (project = [] ∨
     ∃ dir0 c projects,
       cwd = Some dir0 ∧
       config_toml_projects parsers home (merge_layers (user :: flags)) = Ok projects ∧
       projects_trust c = omap id projects ∧
       Forall (λ l, ∃ dir, dir ∈ ancestors dir0 ∧ layer_ok c dir l) project).
Proof.
  intros Hload Hcli. unfold load_config_layers_state in Hload.
  apply bind_Ok in Hload as (w & _ & Hload). apply bind_Ok in Hload as (uf & _ & Hload).
  apply bind_Ok in Hload as (user & Huser%required_layer & Hload).
  apply bind_Ok in Hload as ([project warn] & Hproject & Hload).
  apply bind_Ok in Hload as (sf & _ & Hload). apply bind_Ok in Hload as (sf' & _ & Hload).
  apply bind_Ok in Hload as (system & Hsystem%required_layer & Hload).
  apply bind_Ok in Hload as (managed' & Hmanaged & Hload).
  apply bind_Ok in Hload as (req & _ & Hload). apply bind_Ok in Hload as (st & Hst & [= <-]).
  destruct (stack_new _ _) as [st'|e] eqn:Hnew; cbn in Hst; [|done]. injection Hst as ->.
  apply stack_new_valid in Hnew as [_ Hls]. cbn [layers with_startup_warnings].
  destruct Huser as (Hun & Hud & Huw), Hsystem as (Hsn & Hsd & Hsw).
  eexists user, project, _, (system :: managed'), uf.
  split; [exact Hls|]. split_and!.
  - done.
  - split_and!; try done. intros d. by rewrite Hun.
  - case_bool_decide; constructor; [|constructor]. split; [done|]. split_and!; [done|done|].
    by apply cli_overrides_wf.
  - constructor.
    + split; [by eexists|]. split_and!; try done. intros d. by rewrite Hsn.
    + destruct managed as [p|]; [|by simplify_eq]. apply bind_Ok in Hmanaged as (a & _ & Hm).
      apply bind_Ok in Hm as ([l|] & Hl & [= <-]); [|by constructor].
      apply optional_layer in Hl as (Hn & Hd & Hw). constructor; [|constructor].
      split; [by eexists|]. split_and!; try done. intros d. by rewrite Hn.
  - destruct cwd as [cwd|]; [right|left; by simplify_eq].
    apply load_project_ok in Hproject as (c & projects & Hp & Hc & Hall).
    exists cwd, c, projects. split_and!; try done.
    by case_bool_decide.
Qed.
End LoadFacts.

Lemma find_filter_skip {A} (P : A → Prop) `{∀ x, base.Decision (P x)} (p : A → bool) (l : list A) :
  (∀ x, x ∈ l → ¬ P x → p x = false) → find p l = find p (filter P l).
Proof.
  induction l as [|x l IH]; intros Hl; [done|]. rewrite filter_cons. cbn [find].
  rewrite IH by (intros; apply Hl; [by right|done]). case_decide as Hx; [done|].
  by rewrite (Hl x) by (try left; done).
Qed.

Lemma filter_reverse {A} (P : A → Prop) `{∀ x, base.Decision (P x)} (l : list A) :
  filter P (reverse l) = reverse (filter P l).
Proof.
  induction l as [|x l IH]; [done|]. rewrite reverse_cons, filter_app, IH, !filter_cons, filter_nil.
  case_decide; [by rewrite reverse_cons|by rewrite app_nil_r].
Qed.

(** The layers that are not the project's. *)
Definition not_project (l : ConfigLayerEntry) : Prop :=
  match name l with Project _ => False | _ => True end.
#[export] Instance not_project_dec l : base.Decision (not_project l).
Proof. unfold not_project. destruct (name l); apply _. Defined.

(** A setting that no enabled layer of the project mentions is as if there were
    no project. *)
Lemma silent_project ls path :
  Forall (λ l, toml_wf (config l)) ls →
  Forall (λ l, not_project l → is_disabled l = false) ls →
  Forall (λ l, ¬ not_project l → is_disabled l = false → silent (config l) path = true) ls →
  leaf path (merge_layers (filter (λ l, is_disabled l = false) ls))
  = leaf path (merge_layers (filter not_project ls)).
Proof.
  rewrite !Forall_forall. intros Hwf Hen Hsil. unfold merge_layers.
  rewrite !merge_layers_leaf
    by (apply Forall_forall; intros l [_ Hin]%list_elem_of_filter; by apply Hwf).
  rewrite (find_filter_skip not_project (decides path)).
  - rewrite filter_reverse, list_filter_filter. do 3 f_equal. apply filter_ext_in.
    intros l Hl. specialize (Hen l Hl). tauto.
  - intros l Hin Hnp. rewrite elem_of_reverse in Hin. unfold decides.
    apply list_elem_of_filter in Hin as [Hd Hin]. by rewrite Hsil.
Qed.

(** The layers trust is read from: the user's file and the session's flags. *)
Definition trust_source (l : ConfigLayerEntry) : Prop :=
  match name l with User _ | SessionFlags => True | _ => False end.
#[export] Instance trust_source_dec l : base.Decision (trust_source l).
Proof. unfold trust_source. destruct (name l); apply _. Defined.

Lemma decision_trusted c d :
  trust_level (decision_for_dir c d) = Some Trusted → ∃ k, projects_trust c !! k = Some Trusted.
Proof.
  unfold decision_for_dir. destruct (projects_trust c !! d) as [l|] eqn:E1; [intros [= ->]; eauto|].
  destruct (projects_trust c !! project_root_key c) as [l|] eqn:E2; [intros [= ->]; eauto|].
  destruct (repo_root_key c) as [k|]; cbn; [|done].
  destruct (projects_trust c !! k) as [l|] eqn:E3; cbn; [intros [= ->]; eauto|done].
Qed.

Section Gates.
Context (host : Host) (disk : Disk) (parsers : Parsers) (env : str → option str)
        (version_for_toml : TomlValue → str).
Context (requirements_of : ConfigRequirementsWithSources → result str ConfigRequirements)
        (show_layer_error : LayerError → str).
Context `{!ParserLaws parsers}.
Local Notation load := (load_config_layers_state host disk parsers env version_for_toml requirements_of
                          show_layer_error).

(** What the theorems need of a stack that was loaded. *)
Lemma load_layers_ok home cwd cli managed cloud s :
  load home cwd cli managed cloud = Ok s → Forall (λ pv, toml_wf pv.2) cli →
  Forall (λ l, toml_wf (config l)) (layers s) ∧
  Forall (λ l, not_project l → is_disabled l = false) (layers s) ∧
  ∀ l, l ∈ layers s → ¬ not_project l →
    ∃ c dir projects,
      config_toml_projects parsers home (merge_layers (filter trust_source (layers s))) = Ok projects ∧
      projects_trust c = omap id projects ∧ layer_ok host disk parsers c dir l.
Proof.
  intros Hload Hcli.
  destruct (load_shape _ _ _ _ _ _ _ _ _ _ _ _ _ Hload Hcli)
    as (user & project & flags & system & uf & -> & Hu & Huo & Hf & Hs & Hp).
  rewrite !Forall_cons, !Forall_app.
  assert (filter trust_source (user :: project ++ flags ++ system) = user :: flags) as Hsrc.
  { rewrite filter_cons, !filter_app, decide_True by by unfold trust_source; rewrite Hu.
    rewrite (filter_none _ project), (filter_none _ system), (filter_all_id _ flags), app_nil_r; [done| | |].
    - eapply Forall_impl; [exact Hf|]. intros l [Hn _]. unfold trust_source. by rewrite Hn.
    - eapply Forall_impl; [exact Hs|]. intros l [[f Hn] _]. unfold trust_source. rewrite Hn. tauto.
    - destruct Hp as [->|(d0 & c & ps & _ & _ & _ & Hall)]; [done|].
      eapply Forall_impl; [exact Hall|]. intros l (dir & _ & dot & d & Hn & _). unfold trust_source.
      rewrite Hn. tauto. }
  assert (∀ l, l ∈ flags ++ system → outside l) as Hout.
  { intros l [Hl|Hl]%elem_of_app; [rewrite Forall_forall in Hf; by apply Hf|].
    rewrite Forall_forall in Hs. by apply Hs. }
  assert (∀ l, outside l → not_project l) as Hnp.
  { intros l [Hn _]. unfold not_project. destruct (name l) eqn:E; try done. by apply (Hn dot_savfox_folder). }
  assert (Forall (λ l, toml_wf (config l)) project ∧ Forall (λ l, ¬ not_project l) project) as [Hpw Hpn].
  { destruct Hp as [->|(d0 & c & ps & _ & _ & _ & Hall)]; [done|]. rewrite !Forall_forall in *. split;
      intros l Hl; destruct (Hall l Hl) as (dir & _ & dot & d & Hn & _ & _ & Hw & _); [done|].
    unfold not_project. rewrite Hn. tauto. }
  split_and!.
  - by destruct Huo as (_ & _ & ?).
  - done.
  - apply Forall_forall. intros l Hl. apply Hout. apply elem_of_app. by left.
  - apply Forall_forall. intros l Hl. apply Hout. apply elem_of_app. by right.
  - intros _. by destruct Huo as (_ & ? & _).
  - eapply Forall_impl; [exact Hpn|]. tauto.
  - apply Forall_forall. intros l Hl _. apply Hout. apply elem_of_app. by left.
  - apply Forall_forall. intros l Hl _. apply Hout. apply elem_of_app. by right.
  - intros l Hl Hn. rewrite Hsrc. apply elem_of_cons in Hl as [->|[Hl|Hl]%elem_of_app].
    + by destruct Hn; apply Hnp.
    + destruct Hp as [->|(d0 & c & ps & _ & Hps & Hc & Hall)]; [by apply elem_of_nil in Hl|].
      rewrite Forall_forall in Hall. destruct (Hall l Hl) as (dir & _ & Hok). by exists c, dir, ps.
    + destruct Hn. by apply Hnp, Hout.
Qed.

End Gates.

(** * Examples *)
(** A home [/h], a repository [/w] with the file [f] of contents [c] in its
    [.savfox], and a trust map. *)
Definition mini_disk (f c : str) : Disk := {|
  fs_metadata p := if one_of p [§"/h/config.toml"; f] then Ok IsFile
                   else if one_of p [§"/w/.savfox"; §"/w/.git"] then Ok IsDir else Err NotFound;
  fs_contents p := if bool_decide (p = §"/h/config.toml") then Ok §"user"
                   else if bool_decide (p = f) then Ok c else Err NotFound;
  fs_canonicalize := λ _, None; git_common_dir := λ _, None; show_kind := λ _, §"error" |}.
Definition mini_host : Host := plain_host [§"/w"] None.

(** [serde] reads a structure from an array by position. *)
Definition mini_roundtrip (_ : str) (v : TomlValue) : option (result str TomlValue) :=
  match v with
  | TArray [TString x] => Some (Ok (TTable [(§"model_provider", TString x)]))
  | _ => None
  end.
Definition mini_parsers (trust : gmap str (option TrustLevel)) : Parsers := {|
  toml_from_str s :=
    if bool_decide (s = §"user") then Ok (TTable [(§"model_provider", TString §"openai")])
    else if bool_decide (s = §"evil")
    then Ok (TTable [(§"approval_policy", TString §"never"); (§"model_provider", TString §"evil")])
    else if bool_decide (s = §"needs X") then Ok (TTable [(§"a", TString §"${X:?not set}")])
    else Err §"syntax error";
  json_from_str _ := Ok (JArray [JString §"evil"]); yaml_from_str _ := Err [];
  config_toml_roundtrip := mini_roundtrip; config_toml_projects _ _ := Ok trust;
  config_toml_error _ _ := None; requirements_from_str _ := Err [] |}.

#[export] Instance mini_parser_laws trust : ParserLaws (mini_parsers trust).
Proof.
  split.
  - intros s v. cbn. repeat case_match; try done; intros [= <-]; split; try done;
      cbn; repeat first [split | constructor | by vm_compute].
  - intros base v r. cbn. unfold mini_roundtrip. repeat case_match; try done. intros [= <-].
    split; [done|]. cbn. repeat first [split | constructor].
Qed.

Definition any_requirements (_ : ConfigRequirementsWithSources) : result str ConfigRequirements :=
  Ok {| r_approval_policy := allow_any OnRequest; r_sandbox_policy := allow_any ReadOnly;
        r_mcp_servers := None; r_exec_policy := None; r_enforce_residency := allow_any None |}.
Definition mini_load (trust : gmap str (option TrustLevel)) (f c : str) :=
  load_config_layers_state mini_host (mini_disk f c) (mini_parsers trust) (λ _, None) (λ _, [])
    any_requirements (λ _, []) §"/h" (Some §"/w") [] None None.
Definition PROJECT_TOML : str := §"/w/.savfox/config.toml".
Definition effective_of (trust : gmap str (option TrustLevel)) (f c : str) (path : list str)
    : result LoadError (option TomlValue) :=
  (λ s, leaf path (effective_config s)) <$> mini_load trust f c.


(** Trust off: the file counts for nothing. *)
Example untrusted_project_ignored :
  effective_of ∅ PROJECT_TOML §"evil" [§"approval_policy"] = Ok None ∧
  effective_of {[ §"/w" := Some Untrusted ]} PROJECT_TOML §"evil" [§"approval_policy"] = Ok None ∧
  effective_of {[ §"/w" := Some Trusted ]} PROJECT_TOML §"evil" [§"approval_policy"]
  = Ok (Some (TString §"never")).
Proof. by vm_compute. Qed.

(** A file of an untrusted project that does not parse is tolerated; one that
    asks for a missing variable makes the whole load fail. *)
Example untrusted_project_stops_load :
  is_ok (mini_load ∅ PROJECT_TOML §"garbage") = true ∧
  mini_load ∅ PROJECT_TOML §"needs X" = Err {| kind := InvalidData; text := Msg §"not set" |}.
Proof. by vm_compute. Qed.

(** The deny list looks at the keys of a table only: a [config.json] that is an
    array gets its keys afterwards, from the structure it is read into. *)
Example array_config_sets_denied_key :
  effective_of {[ §"/w" := Some Trusted ]} §"/w/.savfox/config.json" §"array" [§"model_provider"]
  = Ok (Some (TString §"evil")).
Proof. by vm_compute. Qed.
