(* ===== verification/SessionPolicy.v ===== *)
(** * The policies of a session ([core/src/config/mod.rs], [core/src/exec_env.rs],
    the types of [config/src/types.rs])

    From the effective configuration, the flags and the requirements: which
    sandbox and approval policy are in force, which MCP servers may start, and
    which environment a command gets.  Target: Linux. *)
From S2P Require Import Prelude RustStr Paths.
From S2P Require Import ExecPolicy Approval PatchSafety Requirements ConfigLoader.

(** ** Settings *)
Inductive SandboxMode := SReadOnly | SWorkspaceWrite | SDangerFullAccess.

Record SandboxWorkspaceWrite := {
  ww_writable_roots : list str;
  ww_network_access : bool;
  ww_exclude_tmpdir_env_var : bool;
  ww_exclude_slash_tmp : bool;
}.

Record ProjectConfig := { p_trust_level : option TrustLevel }.
Definition p_is_trusted (p : ProjectConfig) : bool := bool_decide (p_trust_level p = Some Trusted).
Definition p_is_untrusted (p : ProjectConfig) : bool := bool_decide (p_trust_level p = Some Untrusted).

Inductive McpServerDisabledReason := UnknownReason | RequirementsReason (source : RequirementSource).
Inductive McpServerTransportConfig :=
| Stdio (command : str) (args : list str) (env : option (gmap str str)) (env_vars : list str)
    (cwd : option str)
| StreamableHttp (url : str) (bearer_token_env_var : option str)
    (http_headers env_http_headers : option (gmap str str)).
Record McpServerConfig := {
  transport : McpServerTransportConfig;
  enabled : bool;
  server_disabled_reason : option McpServerDisabledReason;
  startup_timeout_sec : option Z;
  tool_timeout_sec : option Z;
  enabled_tools : option (list str);
  disabled_tools : option (list str);
  scopes : option (list str);
}.

(** The part of [ConfigToml] these functions read. *)
Record ConfigToml := {
  cfg_approval_policy : option AskForApproval;
  cfg_sandbox_mode : option SandboxMode;
  cfg_sandbox_workspace_write : option SandboxWorkspaceWrite;
  cfg_projects : option (gmap str ProjectConfig);
  cfg_mcp_servers : gmap str McpServerConfig;
}.

(** [a.or(b)]. *)
Definition or_opt {A} (a b : option A) : option A := match a with Some _ => a | None => b end.

(** ** MCP servers *)
Definition mcp_server_matches_requirement (requirement : McpServerRequirement) (server : McpServerConfig)
    : bool :=
  match identity requirement, transport server with
  | Command want_command, Stdio got_command _ _ _ _ => bool_decide (got_command = want_command)
  | Url want_url, StreamableHttp got_url _ _ _ => bool_decide (got_url = want_url)
  | _, _ => false
  end.

Definition filter_server (allowlist : Sourced (gmap str McpServerRequirement)) (name : str)
    (server : McpServerConfig) : McpServerConfig :=
  let allowed := match sourced_value allowlist !! name with
                 | Some requirement => mcp_server_matches_requirement requirement server
                 | None => false
                 end in
  {| transport := transport server;
     enabled := if allowed then enabled server else false;
     server_disabled_reason := if allowed then None else Some (RequirementsReason (source allowlist));
     startup_timeout_sec := startup_timeout_sec server; tool_timeout_sec := tool_timeout_sec server;
     enabled_tools := enabled_tools server; disabled_tools := disabled_tools server;
     scopes := scopes server |}.

Definition filter_mcp_servers_by_requirements (mcp_servers : gmap str McpServerConfig)
    (mcp_requirements : option (Sourced (gmap str McpServerRequirement))) : gmap str McpServerConfig :=
  match mcp_requirements with
  | None => mcp_servers
  | Some allowlist => map_imap (λ name server, Some (filter_server allowlist name server)) mcp_servers
  end.

Definition constrain_mcp_servers (mcp_servers : gmap str McpServerConfig)
    (mcp_requirements : option (Sourced (gmap str McpServerRequirement)))
    : result ConstraintError (Constrained (gmap str McpServerConfig)) :=
  match mcp_requirements with
  | None => Ok (allow_any mcp_servers)
  | Some _ => normalized mcp_servers (λ servers, filter_mcp_servers_by_requirements servers mcp_requirements)
  end.

(** ** The sandbox and the approvals *)
Section Session.
Context (host : Host) (disk : Disk).

Definition get_active_project (cfg : ConfigToml) (resolved_cwd : str) : option ProjectConfig :=
  let projects := default ∅ (cfg_projects cfg) in
  match projects !! resolved_cwd with
  | Some project_config => Some project_config
  | None => resolve_root_git_project_for_trust host disk resolved_cwd ≫= λ repo_root, projects !! repo_root
  end.

Definition new_workspace_write_policy : SandboxPolicy := WorkspaceWrite [] false false false.

(** The Windows branch does not apply. *)
Definition derive_sandbox_policy (cfg : ConfigToml) (sandbox_mode_override profile_sandbox_mode : option SandboxMode)
    (resolved_cwd : str) : SandboxPolicy :=
  let resolved_sandbox_mode :=
    default SReadOnly
      (or_opt sandbox_mode_override (or_opt profile_sandbox_mode (or_opt (cfg_sandbox_mode cfg)
        (p ← get_active_project cfg resolved_cwd;
         if p_is_trusted p || p_is_untrusted p then Some SWorkspaceWrite else None)))) in
  match resolved_sandbox_mode with
  | SReadOnly => ReadOnly
  | SWorkspaceWrite =>
      match cfg_sandbox_workspace_write cfg with
      | Some w => WorkspaceWrite (ww_writable_roots w) (ww_network_access w)
                    (ww_exclude_tmpdir_env_var w) (ww_exclude_slash_tmp w)
      | None => new_workspace_write_policy
      end
  | SDangerFullAccess => DangerFullAccess
  end.

Definition add_root (roots : list str) (path : str) : list str :=
  if existsb (λ existing, path_eq existing path) roots then roots else roots ++ [path].
Definition add_writable_roots (p : SandboxPolicy) (additional : list str) : SandboxPolicy :=
  match p with
  | WorkspaceWrite writable_roots n t s => WorkspaceWrite (foldl add_root writable_roots additional) n t s
  | _ => p
  end.

Definition approval_policy_of (cfg : ConfigToml) (approval_policy_override : option AskForApproval)
    (resolved_cwd : str) : AskForApproval :=
  let active_project := default {| p_trust_level := None |} (get_active_project cfg resolved_cwd) in
  default (if p_is_trusted active_project then OnRequest
           else if p_is_untrusted active_project then UnlessTrusted else OnRequest)
    (or_opt approval_policy_override (cfg_approval_policy cfg)).

Record SessionPolicies := {
  sp_approval_policy : Constrained AskForApproval;
  sp_sandbox_policy : Constrained SandboxPolicy;
  sp_mcp_servers : Constrained (gmap str McpServerConfig);
  sp_enforce_residency : Constrained (option ResidencyRequirement);
}.

(** The end of [Config::load_from_base_config_with_overrides]: every requirement
    is applied. *)
Definition session_policies (cfg : ConfigToml) (approval_policy_override : option AskForApproval)
    (sandbox_mode : option SandboxMode) (additional_writable_roots : list str) (resolved_cwd : str)
    (requirements : ConfigRequirements) : result ConstraintError SessionPolicies :=
  let sandbox_policy :=
    add_writable_roots (derive_sandbox_policy cfg sandbox_mode None resolved_cwd)
      ((λ path, resolve_path_against_base host path resolved_cwd) <$> additional_writable_roots) in
  let approval_policy := approval_policy_of cfg approval_policy_override resolved_cwd in
  let '(constrained_approval_policy, r) := set approval_policy (r_approval_policy requirements) in
  _ ← r;
  let '(constrained_sandbox_policy, r) := set sandbox_policy (r_sandbox_policy requirements) in
  _ ← r;
  mcp_servers ← constrain_mcp_servers (cfg_mcp_servers cfg) (r_mcp_servers requirements);
  Ok {| sp_approval_policy := constrained_approval_policy;
        sp_sandbox_policy := constrained_sandbox_policy; sp_mcp_servers := mcp_servers;
        sp_enforce_residency := r_enforce_residency requirements |}.
End Session.

(** ** The environment of a command *)
Inductive ShellEnvironmentPolicyInherit := Core | All | InheritNone.

Record ShellEnvironmentPolicyToml := {
  t_inherit : option ShellEnvironmentPolicyInherit;
  t_ignore_default_excludes : option bool;
  t_exclude : option (list str);
  t_set : option (gmap str str);
  t_include_only : option (list str);
  t_experimental_use_profile : option bool;
}.

Definition CORE_VARS : list str :=
  [§"HOME"; §"LOGNAME"; §"PATH"; §"SHELL"; §"USER"; §"USERNAME"; §"TMPDIR"; §"TEMP"; §"TMP"].

Section Env.
(** The [wildmatch] crate. *)
Context {Pattern : Type} (new_case_insensitive : str → Pattern) (matches : Pattern → str → bool).

Record ShellEnvironmentPolicy := {
  inherit : ShellEnvironmentPolicyInherit;
  ignore_default_excludes : bool;
  exclude : list Pattern;
  env_set : gmap str str;
  include_only : list Pattern;
  use_profile : bool;
}.

Definition env_policy_from (t : ShellEnvironmentPolicyToml) : ShellEnvironmentPolicy :=
  {| inherit := default All (t_inherit t);
     ignore_default_excludes := default true (t_ignore_default_excludes t);
     exclude := new_case_insensitive <$> default [] (t_exclude t);
     env_set := default ∅ (t_set t);
     include_only := new_case_insensitive <$> default [] (t_include_only t);
     use_profile := default false (t_experimental_use_profile t) |}.
Definition default_env_policy : ShellEnvironmentPolicy :=
  {| inherit := All; ignore_default_excludes := true; exclude := []; env_set := ∅; include_only := [];
     use_profile := false |}.

Definition matches_any (name : str) (patterns : list Pattern) : bool :=
  existsb (λ pattern, matches pattern name) patterns.
Definition default_excludes : list Pattern :=
  [new_case_insensitive §"*KEY*"; new_case_insensitive §"*SECRET*"; new_case_insensitive §"*TOKEN*"].

(** [into_iter().collect::<HashMap>()] and [HashMap::retain] on the keys. *)
Definition collect_map (vars : list (str * str)) : gmap str str :=
  foldl (λ m kv, <[kv.1 := kv.2]> m) ∅ vars.
Definition retain_keys (keep : str → bool) (m : gmap str str) : gmap str str :=
  filter (λ kv, keep kv.1 = true) m.

Definition populate_env (vars : list (str * str)) (policy : ShellEnvironmentPolicy) : gmap str str :=
  let env_map := match inherit policy with
                 | All => collect_map vars
                 | InheritNone => ∅
                 | Core => collect_map (filter (λ kv, one_of kv.1 CORE_VARS = true) vars)
                 end in
  let env_map := if ignore_default_excludes policy then env_map
                 else retain_keys (λ k, negb (matches_any k default_excludes)) env_map in
  let env_map := if bool_decide (exclude policy = []) then env_map
                 else retain_keys (λ k, negb (matches_any k (exclude policy))) env_map in
  let env_map := env_set policy ∪ env_map in
  if bool_decide (include_only policy = []) then env_map
  else retain_keys (λ k, matches_any k (include_only policy)) env_map.
End Env.

(** * Correctness *)

(** ** The environment *)
Section EnvFacts.
Context {Pattern : Type} (new_case_insensitive : str → Pattern) (matches : Pattern → str → bool).
Implicit Types (policy : ShellEnvironmentPolicy (Pattern := Pattern)).

(** The last binding of a variable. *)
Definition last_value (k : str) (vars : list (str * str)) : option str :=
  snd <$> last (filter (λ kv, kv.1 = k) vars).

Lemma collect_map_lookup vars k : collect_map vars !! k = last_value k vars.
Proof.
  unfold collect_map, last_value.
  induction vars as [|[k' v] vars IH] using rev_ind; [done|].
  rewrite foldl_app, filter_app, filter_cons, filter_nil. cbn. case_decide as Hk.
  - subst. by rewrite lookup_insert_eq, last_snoc.
  - by rewrite lookup_insert_ne, app_nil_r.
Qed.

Lemma retain_lookup keep m k : retain_keys keep m !! k = if keep k then m !! k else None.
Proof.
  unfold retain_keys. destruct (keep k) eqn:E.
  - destruct (m !! k) as [v|] eqn:Ek; [by apply map_lookup_filter_Some|].
    apply map_lookup_filter_None. by left.
  - apply map_lookup_filter_None. right. intros v _. cbn. by rewrite E.
Qed.

(** Which variables of the process are passed on, and which names may appear. *)
Definition inherited policy (k : str) : bool :=
  match inherit policy with All => true | InheritNone => false | Core => one_of k CORE_VARS end.
Definition excluded policy (k : str) : bool :=
  negb (ignore_default_excludes policy) && matches_any matches k (default_excludes new_case_insensitive)
  || matches_any matches k (exclude policy).
Definition retained policy (k : str) : bool :=
  bool_decide (include_only policy = []) || matches_any matches k (include_only policy).

Lemma last_value_filter vars k (p : str → bool) :
  last_value k (filter (λ kv, p kv.1 = true) vars) = if p k then last_value k vars else None.
Proof.
  unfold last_value. rewrite list_filter_filter. destruct (p k) eqn:E.
  - do 2 f_equal. apply list_filter_iff. intros [k' v]; cbn. split; [tauto|]. by intros ->.
  - rewrite filter_none; [done|]. apply Forall_forall. intros [k' v] _; cbn. intros [-> ?]. congruence.
Qed.

(** The environment of a command, variable by variable: a name the policy
    does not retain is absent; otherwise a variable the policy sets has that
    value; otherwise it has the value of the parent process when it is inherited
    and not excluded, and is absent if not. *)
Theorem populate_env_spec vars policy k :
  populate_env new_case_insensitive matches vars policy !! k =
  if retained policy k
  then match env_set policy !! k with
       | Some v => Some v
       | None => if inherited policy k && negb (excluded policy k) then last_value k vars else None
       end
  else None.
Proof.
  unfold populate_env, retained, inherited, excluded.
  set (m1 := match inherit policy with All => _ | InheritNone => _ | Core => _ end).
  set (m2 := if ignore_default_excludes policy then m1 else _).
  set (m3 := if bool_decide (exclude policy = []) then m2 else _).
  assert (m1 !! k = if inherited policy k then last_value k vars else None) as H1.
  { unfold m1, inherited. destruct (inherit policy); [|apply collect_map_lookup|done].
    by rewrite collect_map_lookup, (last_value_filter vars k (λ n, one_of n CORE_VARS)). }
  assert (m3 !! k = if inherited policy k && negb (excluded policy k) then last_value k vars else None) as H3.
  { unfold excluded, m3, m2. destruct (ignore_default_excludes policy); cbn [negb andb orb];
      case_bool_decide as He; rewrite ?He, ?retain_lookup, ?H1; cbn [matches_any existsb];
      destruct (inherited policy k); cbn;
      repeat (destruct (matches_any _ _ _); cbn); try done;
      unfold matches_any; cbn; repeat (destruct (matches _ _); cbn); done. }
  unfold inherited, excluded in H3.
  assert ((env_set policy ∪ m3) !! k = match env_set policy !! k with Some v => Some v | None => m3 !! k end)
    as H4 by (rewrite lookup_union; by destruct (env_set policy !! k), (m3 !! k)).
  case_bool_decide; cbn [orb]; [by rewrite H4, H3|]. by rewrite retain_lookup, H4, H3.
Qed.
End EnvFacts.

(** ** The session *)
Lemma set_plain {T} (v : T) (c : Constrained T) :
  normalizer c = None →
  (can_set c v = Ok tt ∧ (set v c).2 = Ok tt ∧ value (set v c).1 = v ∧ satisfied (set v c).1
   ∧ validator (set v c).1 = validator c) ∨
  (∃ e, can_set c v = Err e ∧ (set v c).2 = Err e).
Proof.
  intros Hn. unfold set, can_set, satisfied. rewrite Hn.
  destruct (validator c v) as [[]|e] eqn:Hv; [left|right]; cbn; [by rewrite Hv|eauto].
Qed.

(** What the requirements say about a server that may start. *)
Definition server_permitted (allowlist : option (Sourced (gmap str McpServerRequirement)))
    (name : str) (server : McpServerConfig) : Prop :=
  match allowlist with
  | None => True
  | Some l => ∃ requirement, sourced_value l !! name = Some requirement
                             ∧ mcp_server_matches_requirement requirement server = true
  end.

Lemma filtered_server servers allowlist name server :
  filter_mcp_servers_by_requirements servers allowlist !! name = Some server →
  ∃ original, servers !! name = Some original ∧ transport server = transport original ∧
    (enabled server = true → enabled original = true ∧ server_permitted allowlist name server).
Proof.
  destruct allowlist as [l|]; cbn; [|intros ->; by eauto].
  rewrite map_lookup_imap. destruct (servers !! name) as [original|]; cbn; [|done].
  intros [= <-]. exists original. split_and!; [done|done|]. cbn.
  destruct (sourced_value l !! name) as [requirement|]; [|done].
  destruct (mcp_server_matches_requirement requirement original) eqn:E; [|done].
  intros ?. split; [done|]. exists requirement. split; [done|].
  unfold mcp_server_matches_requirement in *. cbn. done.
Qed.

Lemma constrained_servers servers allowlist c :
  constrain_mcp_servers servers allowlist = Ok c →
  value c = filter_mcp_servers_by_requirements servers allowlist.
Proof. by destruct allowlist; cbn; intros [= <-]. Qed.

Section SessionFacts.
Context (host : Host) (disk : Disk).
(** The requirements are read by [try_from]. *)
Context (show_policy : AskForApproval → str) (show_policies : list AskForApproval → str)
        (show_mode : SandboxModeRequirement → str) (show_modes : list SandboxModeRequirement → str)
        (show_residency : option ResidencyRequirement → str)
        (show_rules_error : RequirementsExecPolicyParseError → str).

(** What the requirements promise of a session: it has exactly the approval
    and sandbox policies asked for by flags, configuration and trust when the
    requirements allow both, and is refused otherwise; every MCP server that may
    start was enabled in the configuration and, when there is an allow list, is
    on it under its name with the same command or URL. *)
Theorem session_policies_spec t req cfg approval_flag sandbox_flag roots cwd :
  try_from show_policy show_policies show_mode show_modes show_residency show_rules_error t = Ok req →
  let wanted_approval := approval_policy_of host disk cfg approval_flag cwd in
  let wanted_sandbox := add_writable_roots (derive_sandbox_policy host disk cfg sandbox_flag None cwd)
    ((λ path, resolve_path_against_base host path cwd) <$> roots) in
  let allowed := in_allowed (s_allowed_approval_policies t) id wanted_approval ∧
                 in_allowed (s_allowed_sandbox_modes t) mode_of wanted_sandbox in
  match session_policies host disk cfg approval_flag sandbox_flag roots cwd req with
  | Ok sp =>
      allowed ∧
      value (sp_approval_policy sp) = wanted_approval ∧ satisfied (sp_approval_policy sp) ∧
      value (sp_sandbox_policy sp) = wanted_sandbox ∧ satisfied (sp_sandbox_policy sp) ∧
      ∀ name server, value (sp_mcp_servers sp) !! name = Some server → enabled server = true →
        ∃ original, cfg_mcp_servers cfg !! name = Some original ∧ enabled original = true ∧
          transport server = transport original ∧ server_permitted (s_mcp_servers t) name server
  | Err _ => ¬ allowed
  end.
Proof.
  intros (Hna & Hnb & Hmcp & Ha & Hb)%try_from_ok wa wb allowed.
  assert (allowed ↔ can_set (r_approval_policy req) wa = Ok tt ∧ can_set (r_sandbox_policy req) wb = Ok tt)
    as Hal by by rewrite Ha, Hb.
  clearbody allowed. unfold session_policies. fold wa. fold wb. clearbody wa wb.
  destruct (set_plain wa _ Hna) as [(Hca & Hra & Hva & Hsa & _)|(e & Hca & Hra)];
    destruct (set wa (r_approval_policy req)) as [ca ra]; cbn in *; subst ra; cbn;
    [|rewrite Hal, Hca; by intros [? _]].
  destruct (set_plain wb _ Hnb) as [(Hcb & Hrb & Hvb & Hsb & _)|(e & Hcb & Hrb)];
    destruct (set wb (r_sandbox_policy req)) as [cb rb]; cbn in *; subst rb; cbn;
    [|rewrite Hal, Hcb; by intros [_ ?]].
  destruct (constrain_mcp_servers _ _) as [cm|e] eqn:Hcm; cbn.
  - apply constrained_servers in Hcm. rewrite Hmcp in Hcm. split_and!; try done; [by apply Hal|].
    intros name server Hs Hen. rewrite Hcm in Hs.
    destruct (filtered_server _ _ _ _ Hs) as (original & ? & ? & Hperm). destruct (Hperm Hen).
    by exists original.
  - exfalso. revert Hcm. by destruct (r_mcp_servers req).
Qed.
End SessionFacts.

(** * Examples *)
Definition glob_plain (p s : str) : bool := bool_decide (p = s).
Definition no_shows {A} (_ : A) : str := [].
Definition no_settings : ConfigToml :=
  {| cfg_approval_policy := None; cfg_sandbox_mode := None; cfg_sandbox_workspace_write := None;
     cfg_projects := None; cfg_mcp_servers := ∅ |}.
Definition with_trust (l : TrustLevel) : ConfigToml :=
  {| cfg_approval_policy := None; cfg_sandbox_mode := None; cfg_sandbox_workspace_write := None;
     cfg_projects := Some {[ §"/w" := {| p_trust_level := Some l |} ]}; cfg_mcp_servers := ∅ |}.

(** Nothing set: read-only and ask; a project the user decided about: writes in
    the workspace, and an untrusted one asks for every command not known safe. *)
Example session_defaults :
  let policies cfg := (derive_sandbox_policy mini_host (mini_disk [] []) cfg None None §"/w",
                       approval_policy_of mini_host (mini_disk [] []) cfg None §"/w") in
  policies no_settings = (ReadOnly, OnRequest) ∧
  policies (with_trust Trusted) = (new_workspace_write_policy, OnRequest) ∧
  policies (with_trust Untrusted) = (new_workspace_write_policy, UnlessTrusted).
Proof. by vm_compute. Qed.

Definition strict_requirements : ConfigRequirementsWithSources :=
  merge_unset_fields CloudRequirements
    {| allowed_approval_policies := Some [OnRequest]; allowed_sandbox_modes := Some [MReadOnly; MWorkspaceWrite];
       mcp_servers := None; rules := None; enforce_residency := None |} no_requirements.

Lemma session_policies_spec_witness :
  ∃ req, try_from no_shows no_shows no_shows no_shows no_shows no_shows strict_requirements = Ok req ∧
    match session_policies mini_host (mini_disk [] []) (with_trust Trusted) None None [] §"/w" req with
    | Ok sp => value (sp_sandbox_policy sp) = new_workspace_write_policy
    | Err _ => False
    end.
Proof.
  destruct (try_from no_shows no_shows no_shows no_shows no_shows no_shows strict_requirements)
    as [req|e] eqn:E; [|exfalso; revert E; by vm_compute].
  exists req. split; [done|].
  pose proof (session_policies_spec mini_host (mini_disk [] []) _ _ _ _ _ _ strict_requirements req
                (with_trust Trusted) None None [] §"/w" E) as Hs.
  destruct (session_policies _ _ _ _ _ _ _ _) as [sp|e].
  - destruct Hs as (_ & _ & _ & -> & _). by vm_compute.
  - apply Hs. split; vm_compute; [left|right; left].
Defined.
