(* ===== verification/RateLimit.v ===== *)
(** * Rate limits of the gateway ([gateway-server/src/security/rate_limit.rs])

    Every operation runs under one lock, so a run is a sequence of operations.
    Instants and durations are numbers of nanoseconds; the clock never goes
    back, and each reading of it within an operation is explicit. *)
From S2P Require Import Prelude RustStr MachInt.
From stdpp Require Import fin_maps.
Local Open Scope Z_scope.

(** ** State *)
Record RateLimitConfig := {
  max_requests : Z;
  window : Z;
  max_connections_per_ip : Z;
}.

Record Bucket := { tokens : Z; last_refill : Z }.

(** What one operation on a bucket reads from the clock, in this order: when it
    creates the bucket, when it asks for the elapsed time, when it refills. *)
Record Readings := { at_insert : Z; at_elapsed : Z; at_refill : Z }.

Definition DURATION_MAX : Z := (2 ^ 64 - 1) * 1000000000 + 999999999.

Section Limiter.
Context {Ip : Type} `{Countable Ip}.

Record RateLimiterInner := {
  ip_buckets : gmap Ip Bucket;
  token_buckets : gmap str Bucket;
  ip_connections : gmap Ip Z;
}.

Definition empty_limiter : RateLimiterInner :=
  {| ip_buckets := ∅; token_buckets := ∅; ip_connections := ∅ |}.

Definition set_ip_buckets (m : gmap Ip Bucket) (s : RateLimiterInner) : RateLimiterInner :=
  {| ip_buckets := m; token_buckets := token_buckets s; ip_connections := ip_connections s |}.
Definition set_token_buckets (m : gmap str Bucket) (s : RateLimiterInner) : RateLimiterInner :=
  {| ip_buckets := ip_buckets s; token_buckets := m; ip_connections := ip_connections s |}.
Definition set_connections (m : gmap Ip Z) (s : RateLimiterInner) : RateLimiterInner :=
  {| ip_buckets := ip_buckets s; token_buckets := token_buckets s; ip_connections := m |}.

(** ** Operations *)
Definition refill (config : RateLimitConfig) (r : Readings) (b : Bucket) : Bucket :=
  if bool_decide (window config ≤ Z.max 0 (at_elapsed r - last_refill b))
  then {| tokens := max_requests config; last_refill := at_refill r |} else b.

Definition fresh_bucket (config : RateLimitConfig) (r : Readings) : Bucket :=
  {| tokens := max_requests config; last_refill := at_insert r |}.

Definition take_token (b : Bucket) : Bucket * bool :=
  if bool_decide (0 < tokens b)
  then ({| tokens := tokens b - 1; last_refill := last_refill b |}, true) else (b, false).

(** The body shared by [check_ip] and [check_token]. *)
Definition check_bucket {K} `{Countable K} (config : RateLimitConfig) (r : Readings) (k : K)
    (buckets : gmap K Bucket) : gmap K Bucket * bool :=
  let bucket := default (fresh_bucket config r) (buckets !! k) in
  let '(bucket, allowed) := take_token (refill config r bucket) in
  (<[k := bucket]> buckets, allowed).

Definition check_ip (config : RateLimitConfig) (r : Readings) (ip : Ip) (s : RateLimiterInner)
    : RateLimiterInner * bool :=
  let '(m, allowed) := check_bucket config r ip (ip_buckets s) in (set_ip_buckets m s, allowed).

Definition check_token (config : RateLimitConfig) (r : Readings) (token : str)
    (s : RateLimiterInner) : RateLimiterInner * bool :=
  let '(m, allowed) := check_bucket config r token (token_buckets s) in (set_token_buckets m s, allowed).

Definition connections (ip : Ip) (s : RateLimiterInner) : Z := default 0 (ip_connections s !! ip).

Definition check_connection (config : RateLimitConfig) (ip : Ip) (s : RateLimiterInner) : bool :=
  bool_decide (connections ip s < max_connections_per_ip config).

(** [entry(ip).or_insert(0)] keeps the entry also when the slot is refused. *)
Definition try_add_connection (config : RateLimitConfig) (ip : Ip) (s : RateLimiterInner)
    : RateLimiterInner * bool :=
  let entry := connections ip s in
  if bool_decide (max_connections_per_ip config ≤ entry)
  then (set_connections (<[ip := entry]> (ip_connections s)) s, false)
  else (set_connections (<[ip := entry + 1]> (ip_connections s)) s, true).

(** [None]: the overflow of [u32]. *)
Definition add_connection (ip : Ip) (s : RateLimiterInner) : option RateLimiterInner :=
  let entry := connections ip s in
  if bool_decide (entry = U32_MAX) then None
  else Some (set_connections (<[ip := entry + 1]> (ip_connections s)) s).

Definition remove_connection (ip : Ip) (s : RateLimiterInner) : RateLimiterInner :=
  match ip_connections s !! ip with
  | None => s
  | Some count =>
      let count := Z.max 0 (count - 1) in
      set_connections
        (if bool_decide (count = 0) then delete ip (ip_connections s)
         else <[ip := count]> (ip_connections s)) s
  end.

Definition stale_after (config : RateLimitConfig) : Z := Z.min DURATION_MAX (window config * 2).

Definition not_stale (config : RateLimitConfig) (now : Z) (b : Bucket) : bool :=
  bool_decide (Z.max 0 (now - last_refill b) < stale_after config).

Definition retain_fresh {K} `{Countable K} (config : RateLimitConfig) (now : Z)
    (buckets : gmap K Bucket) : gmap K Bucket :=
  filter (λ kb, not_stale config now kb.2 = true) buckets.

Record EvictReport := { ip_buckets_pruned : Z; token_buckets_pruned : Z }.

Definition evict_stale_buckets (config : RateLimitConfig) (now : Z) (s : RateLimiterInner)
    : RateLimiterInner * EvictReport :=
  let ips := retain_fresh config now (ip_buckets s) in
  let toks := retain_fresh config now (token_buckets s) in
  (set_token_buckets toks (set_ip_buckets ips s),
   {| ip_buckets_pruned := Z.of_nat (size (ip_buckets s)) - Z.of_nat (size ips);
      token_buckets_pruned := Z.of_nat (size (token_buckets s)) - Z.of_nat (size toks) |}).

(** ** Runs *)
Inductive Op :=
| CheckIp (ip : Ip) (r : Readings)
| CheckToken (token : str) (r : Readings)
| TryAdd (ip : Ip)
| Remove (ip : Ip)
| Evict (now : Z).

(** The state after an operation, and its answer. *)
Definition exec (config : RateLimitConfig) (s : RateLimiterInner) (op : Op)
    : RateLimiterInner * bool :=
  match op with
  | CheckIp ip r => check_ip config r ip s
  | CheckToken token r => check_token config r token s
  | TryAdd ip => try_add_connection config ip s
  | Remove ip => (remove_connection ip s, true)
  | Evict now => ((evict_stale_buckets config now s).1, true)
  end.

Fixpoint run_ops (config : RateLimitConfig) (s : RateLimiterInner) (ops : list Op)
    : RateLimiterInner * list bool :=
  match ops with
  | [] => (s, [])
  | op :: ops' =>
      let '(s, b) := exec config s op in
      let '(s, bs) := run_ops config s ops' in (s, b :: bs)
  end.

(** The clock readings of an operation, in order. *)
Definition readings (op : Op) : list Z :=
  match op with
  | CheckIp _ r | CheckToken _ r => [at_insert r; at_elapsed r; at_refill r]
  | Evict now => [now]
  | TryAdd _ | Remove _ => []
  end.

(** A clock that never goes back, from [now] on. *)
Fixpoint monotone (now : Z) (ts : list Z) : Prop :=
  match ts with [] => True | t :: ts' => now ≤ t ∧ monotone t ts' end.
End Limiter.
Arguments RateLimiterInner Ip {_ _}.
Arguments Op Ip : clear implicits.

(** * Correctness *)
Section Facts.
Context {Ip : Type} `{Countable Ip}.
Context (config : RateLimitConfig).
Implicit Types (s : RateLimiterInner Ip) (ops : list (Op Ip)).

Lemma monotone_app now ts ts' :
  monotone now (ts ++ ts') ↔ monotone now ts ∧ monotone (default now (last ts)) ts'.
Proof.
  revert now. induction ts as [|t ts IH]; intros now; [cbn; tauto|].
  cbn [app monotone]. rewrite IH, last_cons. destruct (last ts); cbn; tauto.
Qed.

(** The admitted requests of an address, by their readings. *)
Fixpoint admitted (ip : Ip) ops (answers : list bool) : list Readings :=
  match ops, answers with
  | CheckIp ip' r :: ops', b :: bs =>
      (if bool_decide (ip' = ip) && b then [r] else []) ++ admitted ip ops' bs
  | _ :: ops', _ :: bs => admitted ip ops' bs
  | _, _ => []
  end.

Definition during (t0 t1 : Z) (f : Readings → Z) (rs : list Readings) : Z :=
  Z.of_nat (length (filter (λ r, t0 ≤ f r < t1) rs)).

Lemma during_app t0 t1 f rs rs' : during t0 t1 f (rs ++ rs') = during t0 t1 f rs + during t0 t1 f rs'.
Proof. unfold during. rewrite filter_app, length_app. lia. Qed.
Lemma during_singleton t0 t1 f r :
  during t0 t1 f [r] = if bool_decide (t0 ≤ f r < t1) then 1 else 0.
Proof.
  unfold during. destruct (decide (t0 ≤ f r < t1)).
  - by rewrite filter_cons_True, bool_decide_true.
  - by rewrite filter_cons_False, bool_decide_false.
Qed.

(** What an operation does to the bucket of one address. *)
Definition bucket_step (b : option Bucket) (r : Readings) : Bucket * bool :=
  take_token (refill config r (default (fresh_bucket config r) b)).

Lemma exec_bucket s op ip :
  ip_buckets (exec config s op).1 !! ip =
  match op with
  | CheckIp ip' r =>
      if bool_decide (ip' = ip) then Some (bucket_step (ip_buckets s !! ip) r).1
      else ip_buckets s !! ip
  | Evict now =>
      match ip_buckets s !! ip with
      | Some b => if not_stale config now b then Some b else None
      | None => None
      end
  | _ => ip_buckets s !! ip
  end.
Proof.
  destruct op as [ip' r|t r|ip'|ip'|now]; cbn.
  - unfold check_ip, check_bucket, bucket_step. case_bool_decide as Hip; [subst|].
    + destruct (take_token _) as [b a]. cbn. by rewrite lookup_insert_eq.
    + destruct (take_token _) as [b a]. cbn. by rewrite lookup_insert_ne.
  - unfold check_token. by destruct (check_bucket _ _ _ _).
  - unfold try_add_connection. by case_bool_decide.
  - unfold remove_connection. by destruct (ip_connections s !! ip').
  - unfold retain_fresh. destruct (ip_buckets s !! ip) as [b|] eqn:Eb.
    + destruct (not_stale config now b) eqn:En.
      * by apply map_lookup_filter_Some_2.
      * apply map_lookup_filter_None_2. right. intros b' Hb'. by simplify_eq/=; rewrite En.
    + apply map_lookup_filter_None_2. by left.
Qed.

Lemma exec_answer s ip r : (exec config s (CheckIp ip r)).2 = (bucket_step (ip_buckets s !! ip) r).2.
Proof. cbn. unfold check_ip, check_bucket, bucket_step. by destruct (take_token _). Qed.

(** ** The invariants of one bucket *)
Context (Hmax : 0 ≤ max_requests config) (Hwin : 0 ≤ window config ≤ DURATION_MAX).

Lemma stale_after_window : window config ≤ stale_after config.
Proof. unfold stale_after. lia. Qed.

(** [n] requests were admitted since [t0] and less than a window later. *)
Definition bounded (t0 n now : Z) (b : option Bucket) : Prop :=
  0 ≤ n ∧ (0 < n → t0 ≤ now) ∧
  match b with
  | Some b =>
      0 ≤ tokens b ≤ max_requests config ∧ last_refill b ≤ now ∧
      (n ≤ max_requests config - tokens b ∨
       (t0 ≤ last_refill b ∧ n ≤ 2 * max_requests config - tokens b) ∨
       (t0 + window config ≤ now ∧ n ≤ 2 * max_requests config))
  | None =>
      n ≤ max_requests config ∨ (t0 + window config ≤ now ∧ n ≤ 2 * max_requests config)
  end.

Definition taken_since (l : Z) (taken : list Readings) : Z :=
  Z.of_nat (length (filter (λ r, l ≤ at_refill r) taken)).

Lemma taken_since_snoc l taken r :
  taken_since l (taken ++ [r]) = taken_since l taken + if bool_decide (l ≤ at_refill r) then 1 else 0.
Proof.
  unfold taken_since. rewrite filter_app, length_app. destruct (decide (l ≤ at_refill r)).
  - rewrite bool_decide_true, filter_cons_True by done. cbn. lia.
  - rewrite bool_decide_false, filter_cons_False by done. cbn. lia.
Qed.

Lemma taken_since_nonneg l taken : 0 ≤ taken_since l taken.
Proof. unfold taken_since. lia. Qed.

(** Every token that is missing was taken since the last refill. *)
Definition accounted (taken : list Readings) (b : option Bucket) : Prop :=
  match b with
  | Some b =>
      0 ≤ tokens b ∧ max_requests config - tokens b ≤ taken_since (last_refill b) taken
  | None => True
  end.

Lemma bounded_later t0 n now now' b : bounded t0 n now b → now ≤ now' → bounded t0 n now' b.
Proof. unfold bounded. destruct b; intros; naive_solver lia. Qed.

Lemma bounded_step t0 n now b r :
  bounded t0 n now b → monotone now [at_insert r; at_elapsed r; at_refill r] →
  bounded t0
    (n + if (bucket_step b r).2 then during t0 (t0 + window config) at_elapsed [r] else 0)
    (at_refill r) (Some (bucket_step b r).1).
Proof.
  intros Hb (H1 & H2 & H3 & _). rewrite during_singleton.
  unfold bucket_step, take_token, refill, fresh_bucket, bounded in *.
  destruct b as [b|]; cbn [default from_option id] in *;
    repeat (case_bool_decide; cbn [tokens last_refill fst snd] in * ); lia.
Qed.

Lemma bounded_evict t0 n now now' b :
  bounded t0 n now b → now ≤ now' →
  bounded t0 n now'
    (match b with Some b => if not_stale config now' b then Some b else None | None => None end).
Proof.
  intros Hb Hn. pose proof stale_after_window. apply (bounded_later _ _ _ now') in Hb; [|done].
  destruct b as [b|]; [|done]. unfold not_stale. case_bool_decide; [done|].
  unfold bounded in *. lia.
Qed.

Lemma accounted_step taken now b r :
  accounted taken b → from_option last_refill now b ≤ now →
  monotone now [at_insert r; at_elapsed r; at_refill r] →
  accounted (if (bucket_step b r).2 then taken ++ [r] else taken) (Some (bucket_step b r).1).
Proof.
  intros Hb Hl (H1 & H2 & H3 & _).
  pose proof (taken_since_nonneg (at_refill r) taken).
  pose proof (taken_since_nonneg (at_insert r) taken).
  unfold bucket_step, take_token, refill, fresh_bucket, accounted in *.
  destruct b as [b|]; cbn [default from_option id] in *;
    repeat (case_bool_decide; cbn [tokens last_refill fst snd] in * );
    rewrite ?taken_since_snoc; repeat case_bool_decide; lia.
Qed.

Lemma accounted_evict taken b now' :
  accounted taken b →
  accounted taken
    (match b with Some b => if not_stale config now' b then Some b else None | None => None end).
Proof. destruct b as [b|]; [|done]. by destruct (not_stale config now' b). Qed.

(** ** Runs *)
Definition clock_after (now : Z) ops : Z := default now (last (ops ≫= readings)).

Lemma run_ops_app s ops ops' :
  run_ops config s (ops ++ ops') =
  let '(s, bs) := run_ops config s ops in
  let '(s, bs') := run_ops config s ops' in (s, bs ++ bs').
Proof.
  revert s. induction ops as [|op ops IH]; intros s; cbn [app run_ops].
  { by destruct (run_ops config s ops'). }
  destruct (exec config s op) as [s1 b]. rewrite IH. destruct (run_ops config s1 ops) as [s2 bs].
  by destruct (run_ops config s2 ops').
Qed.

Lemma run_ops_length s ops : length (run_ops config s ops).2 = length ops.
Proof.
  revert s. induction ops as [|op ops IH]; intros s; [done|]. cbn [run_ops].
  destruct (exec config s op) as [s1 b]. specialize (IH s1).
  destruct (run_ops config s1 ops). cbn in *. by rewrite IH.
Qed.

Lemma admitted_app ip ops ops' bs bs' :
  length bs = length ops → admitted ip (ops ++ ops') (bs ++ bs') = admitted ip ops bs ++ admitted ip ops' bs'.
Proof.
  revert bs. induction ops as [|op ops IH]; intros [|b bs] Hlen; try done. cbn in Hlen.
  destruct op; cbn [app admitted]; rewrite IH by lia; try done. by rewrite (assoc_L (++)).
Qed.

(** The invariants hold along a run. *)
Lemma run_invariant ip t0 ops now :
  monotone now (ops ≫= readings) →
  let '(s, bs) := run_ops config empty_limiter ops in
  let taken := admitted ip ops bs in
  bounded t0 (during t0 (t0 + window config) at_elapsed taken) (clock_after now ops) (ip_buckets s !! ip) ∧
  accounted taken (ip_buckets s !! ip).
Proof.
  induction ops as [|op ops IH] using rev_ind; intros Hm.
  { cbn [run_ops admitted]. cbn zeta. cbn [ip_buckets empty_limiter]. rewrite lookup_empty.
    split; [|done]. split_and!; unfold during; cbn; lia. }
  rewrite bind_app, monotone_app in Hm. destruct Hm as [Hm1 Hm2].
  specialize (IH Hm1). rewrite run_ops_app.
  pose proof (run_ops_length empty_limiter ops) as Hlen.
  destruct (run_ops config empty_limiter ops) as [s bs]. cbn [snd] in Hlen. destruct IH as [IHb IHa].
  cbn [run_ops]. pose proof (exec_bucket s op ip) as Hb.
  assert (clock_after now (ops ++ [op]) = default (clock_after now ops) (last (readings op))) as Hclock.
  { unfold clock_after. rewrite bind_app. cbn. rewrite app_nil_r, last_app. by destruct (last (readings op)). }
  rewrite Hclock. fold (clock_after now ops) in Hm2. cbn in Hm2. rewrite app_nil_r in Hm2.
  destruct (exec config s op) as [s' b] eqn:Ee. cbn [fst snd] in *.
  rewrite admitted_app by done. rewrite Hb.
  destruct op as [ip' r|t r|ip'|ip'|now']; cbn [admitted readings last default from_option id] in *;
    rewrite ?app_nil_r.
  - pose proof (exec_answer s ip' r) as Ha. rewrite Ee in Ha. cbn in Ha. subst b.
    case_bool_decide as Hip; cbn [andb].
    + subst ip'. rewrite during_app. split.
      * pose proof (bounded_step t0 _ _ _ r IHb Hm2) as Hs.
        destruct (bucket_step _ r) as [b' []]; cbn [fst snd] in *; [done|].
        unfold during at 2. cbn. by rewrite Z.add_0_r in *.
      * pose proof (accounted_step _ (clock_after now ops) _ r IHa) as Hs.
        destruct (bucket_step _ r) as [b' []]; cbn [fst snd] in *; rewrite ?app_nil_r;
          (apply Hs; [|done]); destruct IHb as (_ & _ & IHb);
          destruct (ip_buckets s !! ip); cbn in *; lia.
    + rewrite app_nil_r. split; [|done]. apply (bounded_later _ _ _ _ _ IHb). cbn in Hm2. lia.
  - split; [|done]. apply (bounded_later _ _ _ _ _ IHb). cbn in Hm2. lia.
  - by split.
  - by split.
  - destruct Hm2 as [Hm2 _]. split; [by eapply bounded_evict|by apply accounted_evict].
Qed.

Lemma bucket_refused b r :
  (bucket_step b r).2 = false → max_requests config = 0 ∨
  ∃ b', b = Some b' ∧ tokens b' ≤ 0 ∧ at_elapsed r - last_refill b' < window config.
Proof.
  unfold bucket_step, take_token, refill, fresh_bucket.
  destruct b as [b|]; cbn [default from_option id];
    repeat (case_bool_decide; cbn [tokens last_refill fst snd] in * ); intros; simplify_eq; try (left; lia).
  right. exists b. split_and!; [done|lia|lia].
Qed.

Lemma taken_since_mono l l' taken : l' ≤ l → taken_since l taken ≤ taken_since l' taken.
Proof.
  intros Hl. unfold taken_since. induction taken as [|r taken IH]; [done|].
  rewrite !filter_cons. repeat case_decide; cbn [length]; lia.
Qed.

Lemma refusal_after_max ip ops now bs1 r s :
  monotone now (ops ≫= readings) → run_ops config empty_limiter ops = (s, bs1) →
  (exec config s (CheckIp ip r)).2 = false →
  max_requests config ≤ taken_since (at_elapsed r - window config) (admitted ip ops bs1).
Proof.
  intros Hm Hrun Href. pose proof (run_invariant ip 0 ops now Hm) as Hi. rewrite Hrun in Hi.
  destruct Hi as [_ Ha]. rewrite exec_answer in Href.
  destruct (bucket_refused _ _ Href) as [Hz|(b & Hb & Ht & Hw)].
  { rewrite Hz. apply taken_since_nonneg. }
  rewrite Hb in Ha. cbn in Ha.
  pose proof (taken_since_mono (last_refill b) (at_elapsed r - window config) (admitted ip ops bs1)). lia.
Qed.

(** Request limits, for every address, along any sequence of operations
    on the limiter under a clock that never goes back, with any interleaving
    of other addresses, tokens, connections and evictions: in any interval of
    one window at most twice [max_requests] requests of the address are
    admitted, and a request is refused only after [max_requests] were admitted
    within the window before it. *)
Theorem rate_limit_spec ip t0 ops now :
  monotone now (ops ≫= readings) →
  let '(s, bs) := run_ops config empty_limiter ops in
  let taken := admitted ip ops bs in
  during t0 (t0 + window config) at_elapsed taken ≤ 2 * max_requests config ∧
  ∀ r, (check_ip config r ip s).2 = false →
    max_requests config ≤ taken_since (at_elapsed r - window config) taken.
Proof.
  intros Hm. pose proof (run_invariant ip t0 ops now Hm) as Hi.
  destruct (run_ops config empty_limiter ops) as [s bs] eqn:Hrun. destruct Hi as [[Hn Hb] _]. split.
  - destruct Hb as [_ Hb]. destruct (ip_buckets s !! ip); lia.
  - intros r Hr. by eapply refusal_after_max.
Qed.
End Facts.

(** ** Connections *)
Section Connections.
Context {Ip : Type} `{Countable Ip}.
Context (config : RateLimitConfig).
Implicit Types (s : RateLimiterInner Ip) (ops : list (Op Ip)).
(** Connections of an address that were granted a slot and not closed since. *)
Definition live (ip : Ip) (n : Z) (op : Op Ip) (granted : bool) : Z :=
  match op with
  | TryAdd ip' => if bool_decide (ip' = ip) && granted then n + 1 else n
  | Remove ip' => if bool_decide (ip' = ip) then Z.max 0 (n - 1) else n
  | _ => n
  end.

Fixpoint live_after (ip : Ip) (n : Z) ops (answers : list bool) : Z :=
  match ops, answers with
  | op :: ops', b :: bs => live_after ip (live ip n op b) ops' bs
  | _, _ => n
  end.

Definition cap : Z := max_connections_per_ip config.

Lemma exec_connections s op ip :
  0 ≤ connections ip s →
  connections ip (exec config s op).1 = live ip (connections ip s) op (exec config s op).2 ∧
  (∀ ip', op = TryAdd ip' → ((exec config s op).2 = true ↔ connections ip' s < cap)).
Proof.
  intros Hn. unfold connections. destruct op as [ip' r|t r|ip'|ip'|now]; cbn [exec].
  - unfold check_ip. destruct (check_bucket _ _ _ _). by split.
  - unfold check_token. destruct (check_bucket _ _ _ _). by split.
  - unfold try_add_connection, connections, cap in *. cbn. case_bool_decide; cbn; split.
    1, 3: case_bool_decide; subst; cbn; rewrite ?lookup_insert_eq, ?lookup_insert_ne by done; done.
    all: intros ? [= <-]; split; intros; [congruence || lia|congruence || lia].
  - split; [|done]. unfold remove_connection. cbn.
    destruct (ip_connections s !! ip') as [c|] eqn:Ec; cbn; repeat case_bool_decide; subst;
      rewrite ?lookup_delete_eq, ?lookup_delete_ne, ?lookup_insert_eq, ?lookup_insert_ne, ?Ec in * by done;
      cbn in *; done || lia.
  - by split.
Qed.

Lemma run_connections ip ops :
  let '(s, bs) := run_ops config empty_limiter ops in
  connections ip s = live_after ip 0 ops bs ∧ 0 ≤ connections ip s ≤ Z.max 0 cap.
Proof.
  induction ops as [|op ops IH] using rev_ind; [by cbn; unfold connections; cbn; rewrite lookup_empty; cbn; lia|]. rewrite run_ops_app.
  pose proof (run_ops_length config empty_limiter ops) as Hlen.
  destruct (run_ops config empty_limiter ops) as [s bs]. cbn [snd] in Hlen. destruct IH as [IHe IHb].
  cbn [run_ops]. destruct (exec_connections s op ip) as [Hc Ht]; [lia|].
  destruct (exec config s op) as [s' b] eqn:Ee. cbn [fst snd] in *.
  assert (live_after ip 0 (ops ++ [op]) (bs ++ [b]) = live ip (live_after ip 0 ops bs) op b) as ->.
  { clear -Hlen. revert bs Hlen. generalize 0 as n.
    induction ops as [|o ops IH]; intros n [|b' bs] Hlen; try done. cbn in *. apply IH. lia. }
  rewrite <- IHe, Hc. split; [done|].
  destruct op as [ip' r|t r|ip'|ip'|now]; cbn [live]; try lia; case_bool_decide; subst; cbn [andb]; try lia.
  destruct b; [|lia]. destruct (Ht ip eq_refl) as [Hlt _]. specialize (Hlt eq_refl). lia.
Qed.

(** Connection slots, along any sequence of operations on the limiter: the
    counter of an address is the number of its connections that were granted
    and not closed since, it never exceeds the cap, and the next request for a
    slot is granted exactly when fewer than the cap are live. *)
Theorem connection_cap_spec ip ops :
  let '(s, bs) := run_ops config empty_limiter ops in
  let granted := live_after ip 0 ops bs in
  connections ip s = granted ∧ 0 ≤ granted ≤ Z.max 0 cap ∧
  check_connection config ip s = (try_add_connection config ip s).2 ∧
  ((try_add_connection config ip s).2 = true ↔ granted < cap).
Proof.
  pose proof (run_connections ip ops) as Hr. destruct (run_ops config empty_limiter ops) as [s bs].
  destruct Hr as [Hr Hb]. cbn zeta. rewrite <- Hr. split_and!; [done|lia|lia| |].
  - unfold check_connection, try_add_connection. repeat case_bool_decide; done || lia.
  - destruct (exec_connections s (TryAdd ip) ip) as [_ Ht]; [lia|]. by apply Ht.
Qed.

End Connections.


(** A run with two addresses and an eviction between the requests. *)
Definition limit_example : RateLimitConfig :=
  {| max_requests := 2; window := 100; max_connections_per_ip := 1 |}.
Definition at_ (t : Z) : Readings := {| at_insert := t; at_elapsed := t; at_refill := t |}.
Definition burst : list (Op Z) :=
  [CheckIp 7 (at_ 0); Evict 1; CheckIp 7 (at_ 99); CheckIp 7 (at_ 99); CheckIp 8 (at_ 99);
   CheckIp 7 (at_ 100); CheckIp 7 (at_ 101); CheckIp 7 (at_ 101)].

Lemma rate_limit_spec_witness :
  let '(_, bs) := run_ops limit_example (empty_limiter (Ip := Z)) burst in
  bs = [true; true; true; false; true; true; true; false] ∧
  during 50 150 at_elapsed (admitted 7 burst bs) = 3 ∧
  during 50 (50 + window limit_example) at_elapsed (admitted 7 burst bs) ≤ 2 * max_requests limit_example.
Proof.
  assert (monotone 0 (burst ≫= readings)) as Hm by (vm_compute; repeat split; done).
  pose proof (rate_limit_spec (Ip := Z) limit_example ltac:(cbn; lia) ltac:(split; by vm_compute) 7 50 burst 0 Hm) as Hr.
  destruct (run_ops limit_example (empty_limiter (Ip := Z)) burst) as [s bs] eqn:E.
  vm_compute in E. simplify_eq. split; [done|]. split; [by vm_compute|apply Hr].
Defined.

(** The bound is reached: four requests of one address in the window of 100 that
    starts at 1, when the first one creates the bucket at 0 and reads the elapsed
    time at 1. *)
Definition double_burst : list (Op Z) :=
  [CheckIp 7 {| at_insert := 0; at_elapsed := 1; at_refill := 1 |};
   CheckIp 7 (at_ 99); CheckIp 7 (at_ 100); CheckIp 7 (at_ 100)].
Example more_than_max_in_window :
  let '(_, bs) := run_ops limit_example (empty_limiter (Ip := Z)) double_burst in
  during 1 101 at_elapsed (admitted 7 double_burst bs) = 4 ∧ max_requests limit_example = 2.
Proof. by vm_compute. Qed.
