(* ===== verification/Chunker.v ===== *)
(** * Splitting a reply for a platform with a limit on the length of a message
    ([gateway-server/src/response_chunker.rs]).

    Lengths are numbers of characters; the positions at which the code cuts are
    byte offsets in the source and indices of characters here, compared by the
    bytes before them. *)
From stdpp Require Import pretty.
From S2P Require Import Prelude RustStr MachInt Truncate.

(** [str::find] and [str::rfind] of a substring, as indices of characters. *)
Fixpoint find_sub (p s : str) : option nat :=
  if starts_with s p then Some 0
  else match s with [] => None | _ :: s' => S <$> find_sub p s' end.
Fixpoint rfind_sub (p s : str) : option nat :=
  match s with
  | [] => if starts_with [] p then Some 0 else None
  | _ :: s' =>
      match rfind_sub p s' with
      | Some i => Some (S i)
      | None => if starts_with s p then Some 0 else None
      end
  end.
Definition contains (s p : str) : bool :=
  match find_sub p s with Some _ => true | None => false end.
Definition char_len (s : str) : nat := length s.

Inductive PlatformLimit := Discord | Telegram | Slack | WhatsApp | DefaultLimit.
Definition max_chars (p : PlatformLimit) : nat :=
  match p with
  | Discord => Z.to_nat 2000 | Telegram => Z.to_nat 4096 | Slack => Z.to_nat 40000
  | WhatsApp => Z.to_nat 65536 | DefaultLimit => Z.to_nat 4096
  end.
Definition from_channel (channel : str) : PlatformLimit :=
  let platform := to_ascii_lowercase (trim
    (match split_once COLON channel with Some (p, _) => p | None => channel end)) in
  if bool_decide (platform = §"discord") then Discord
  else if bool_decide (platform = §"telegram") then Telegram
  else if bool_decide (platform = §"slack") then Slack
  else if bool_decide (platform = §"whatsapp") then WhatsApp
  else DefaultLimit.

Record MessageChunk := { mc_text : str; mc_index : nat; mc_total : nat }.
Inductive Segment := Text (s : str) | Code (s : str).

Definition FENCE : str := §"```".

(** ** Segments *)

(** The loop of [split_segments]: [s] is the text from the cursor on. *)
Fixpoint split_segments_from (fuel : nat) (s : str) : option (list Segment) :=
  match fuel with
  | 0 => None
  | S fuel =>
      match find_sub FENCE s with
      | None => Some (match s with [] => [] | _ => [Text s] end)
      | Some start =>
          let before := if bool_decide (0 < start) then [Text (take start s)] else [] in
          let tail := drop start s in
          match find_sub FENCE (drop 3 tail) with
          | Some rel =>
              let code_end := 3 + rel + 3 in
              rest ← split_segments_from fuel (drop code_end tail);
              Some (before ++ [Code (take code_end tail)] ++ rest)
          | None => Some (before ++ [Text tail])
          end
      end
  end.
Definition split_segments (text : str) : option (list Segment) :=
  split_segments_from (S (length text)) text.

(** ** Pieces *)
Definition sentence_break (text sep : str) : option nat :=
  pos ← rfind_sub sep text;
  if bool_decide (zstr text / 3 < zstr (take pos text))%Z then Some (pos + length sep) else None.

Definition find_break_point (text : str) : nat :=
  let late pos := bool_decide (zstr text / 2 < zstr (take pos text))%Z in
  let paragraph := pos ← rfind_sub [LF; LF] text; if late pos then Some (pos + 2) else None in
  let line := pos ← rfind_sub [LF] text; if late pos then Some (pos + 1) else None in
  match paragraph with
  | Some n => n
  | None =>
      match line with
      | Some n => n
      | None =>
          match head (omap (sentence_break text) [§". "; §"! "; §"? "]) with
          | Some n => n
          | None =>
              match rfind_sub [SP] text with
              | Some pos => pos + 1
              | None => length text
              end
          end
      end
  end.

Fixpoint split_text_from (fuel : nat) (remaining : str) (max : nat) : option (list str) :=
  match remaining with
  | [] => Some []
  | _ =>
      if bool_decide (char_len remaining ≤ max) then Some [remaining]
      else match fuel with
           | 0 => None
           | S fuel =>
               let break_at := find_break_point (take max remaining) in
               rest ← split_text_from fuel (drop break_at remaining) max;
               Some (take break_at remaining :: rest)
           end
  end.
Definition split_text_segment (text : str) (max : nat) : option (list str) :=
  if bool_decide (char_len text ≤ max) then Some [text]
  else split_text_from (length text) text max.

Definition split_code_segment (code_block : str) (max : nat) : option (list str) :=
  if bool_decide (char_len code_block ≤ max) then Some [code_block]
  else
    match find_sub [LF] code_block with
    | None => split_text_segment code_block max
    | Some first_line_end =>
        if negb (starts_with code_block FENCE) || negb (ends_with code_block FENCE)
           || bool_decide (zstr code_block ≤ zstr (take first_line_end code_block) + 3)%Z
        then split_text_segment code_block max
        else
          let header := take (S first_line_end) code_block in
          let footer := FENCE in
          let content := drop (S first_line_end) (take (length code_block - 3) code_block) in
          let available := max - (char_len header + char_len footer + 1) in
          if bool_decide (available = 0) then split_text_segment code_block max
          else
            map (λ piece, header ++ piece ++ [LF] ++ footer)
            <$> split_text_segment content available
    end.

Definition tail_chars (text : str) (max : nat) : str :=
  if bool_decide (max = 0) then []
  else
    let count := length text in
    if bool_decide (count ≤ max) then text else drop (count - max) text.

(** ** Chunks *)
Definition segment_pieces (piece_max : nat) (s : Segment) : option (list str) :=
  match s with
  | Text value => split_text_segment value piece_max
  | Code value => split_code_segment value piece_max
  end.

(** The loop over the pieces: [current] is the message being filled. *)
Fixpoint fill (max overlap : nat) (pieces chunks : list str) (current : str) : list str :=
  match pieces with
  | [] => match current with [] => chunks | _ => chunks ++ [current] end
  | piece :: rest =>
      if bool_decide (max < char_len current + char_len piece)
         || (contains current FENCE && contains piece FENCE)
      then
        let context :=
          if bool_decide (0 < overlap) && negb (contains current FENCE)
             && negb (contains piece FENCE)
          then tail_chars current overlap ++ [LF] else [] in
        fill max overlap rest (chunks ++ [current]) (context ++ piece)
      else fill max overlap rest chunks (current ++ piece)
  end.

Definition split_message_body (text : str) (max overlap_chars : nat) : option (list str) :=
  let overlap := overlap_chars `min` ((max - 1) / 2) in
  let overlap_budget := if bool_decide (0 < overlap) then overlap + 1 else 0 in
  let piece_max := max - overlap_budget in
  segments ← split_segments text;
  pieces ← mapM (segment_pieces piece_max) segments;
  Some (fill max overlap (concat pieces) [] []).

Definition digits (n : nat) : nat := length (show_uint (Z.of_nat n)).
Definition marker (i total : nat) : str :=
  [LF; LF] ++ §"(" ++ show_uint (Z.of_nat i) ++ §"/" ++ show_uint (Z.of_nat total) ++ §")".

Definition number_chunks (numbered : bool) (bodies : list str) : list MessageChunk :=
  let total := length bodies in
  imap (λ i body,
    {| mc_text := if numbered && bool_decide (1 < total) then body ++ marker (S i) total else body;
       mc_index := S i; mc_total := total |}) bodies.

(** The [loop] that finds how many characters the page markers take. *)
Fixpoint chunk_loop (fuel : nat) (text : str) (max overlap_chars number_digits : nat)
    (numbered : bool) : option (list MessageChunk) :=
  match fuel with
  | 0 => None
  | S fuel =>
      let marker_chars := if numbered then 5 + 2 * number_digits else 0 in
      if bool_decide (max ≤ marker_chars) then
        chunk_loop fuel text max overlap_chars number_digits false
      else
        chunks ← split_message_body text (max - marker_chars) overlap_chars;
        let total := length chunks in
        let total_digits := digits total in
        if numbered && bool_decide (number_digits < total_digits) then
          chunk_loop fuel text max overlap_chars total_digits numbered
        else Some (number_chunks numbered chunks)
  end.

Definition chunk_message_with_options (text : str) (max_chars overlap_chars : nat)
    : option (list MessageChunk) :=
  let max := max_chars `max` 1 in
  if bool_decide (char_len text ≤ max) then
    Some [{| mc_text := text; mc_index := 1; mc_total := 1 |}]
  else chunk_loop (S (S max)) text max overlap_chars 1 true.
Definition chunk_message (text : str) (platform : PlatformLimit) : option (list MessageChunk) :=
  chunk_message_with_options text (max_chars platform) 0.
Definition chunk_message_for_channel (text channel : str) (max_override : option nat)
    (overlap : nat) : option (list MessageChunk) :=
  let limit := match max_override with
               | Some n => if bool_decide (0 < n) then n else max_chars (from_channel channel)
               | None => max_chars (from_channel channel)
               end in
  chunk_message_with_options text limit overlap.

Example chunk_small :
  option_map (map mc_text) (chunk_message_with_options §"one two three four five six" 15 0)
  = Some (map (λ p, p.1 ++ marker p.2 4)
      [(§"one two ", 1); (§"three ", 2); (§"four ", 3); (§"five six", 4)]).
Proof. by vm_compute. Qed.

(** * Correctness *)

(** ** Finding *)
Lemma find_sub_Some p s i : find_sub p s = Some i → ∃ a b, s = a ++ p ++ b ∧ length a = i.
Proof.
  revert i. induction s as [|c s IH]; intros i; cbn [find_sub].
  - destruct (starts_with [] p) eqn:E; [|done]. intros [= <-].
    apply starts_with_true in E as [r E]. exists [], r. done.
  - destruct (starts_with (c :: s) p) eqn:E.
    + intros [= <-]. apply starts_with_true in E as [r ->]. by exists [], r.
    + intros (j & Hj & ->)%fmap_Some. apply IH in Hj as (a & b & -> & <-). by exists (c :: a), b.
Qed.
Lemma rfind_sub_Some p s i : rfind_sub p s = Some i → ∃ a b, s = a ++ p ++ b ∧ length a = i.
Proof.
  revert i. induction s as [|c s IH]; intros i; cbn [rfind_sub].
  - destruct (starts_with [] p) eqn:E; [|done]. intros [= <-].
    apply starts_with_true in E as [r E]. exists [], r. done.
  - destruct (rfind_sub p s) as [j|].
    + intros [= <-]. destruct (IH j eq_refl) as (a & b & -> & <-). by exists (c :: a), b.
    + destruct (starts_with (c :: s) p) eqn:E; [|done]. intros [= <-].
      apply starts_with_true in E as [r ->]. by exists [], r.
Qed.
Lemma find_sub_bound p s i : find_sub p s = Some i → i + length p ≤ length s.
Proof. intros (a & b & -> & <-)%find_sub_Some. rewrite !length_app. lia. Qed.
Lemma rfind_sub_bound p s i : rfind_sub p s = Some i → i + length p ≤ length s.
Proof. intros (a & b & -> & <-)%rfind_sub_Some. rewrite !length_app. lia. Qed.

Lemma find_break_point_bound text :
  text ≠ [] → 1 ≤ find_break_point text ≤ length text.
Proof.
  intros Hne. unfold find_break_point.
  set (para := rfind_sub [LF; LF] text ≫= _). set (line := rfind_sub [LF] text ≫= _).
  assert (∀ n, para = Some n → 1 ≤ n ≤ length text) as H1.
  { intros n (pos & Hp & H)%bind_Some. apply rfind_sub_bound in Hp. cbn in Hp.
    case_bool_decide; simplify_eq. lia. }
  assert (∀ n, line = Some n → 1 ≤ n ≤ length text) as H2.
  { intros n (pos & Hp & H)%bind_Some. apply rfind_sub_bound in Hp. cbn in Hp.
    case_bool_decide; simplify_eq. lia. }
  assert (∀ sep n, sep ∈ [§". "; §"! "; §"? "] → sentence_break text sep = Some n →
            1 ≤ n ≤ length text) as H3.
  { intros sep n Hsep (pos & Hp & H)%bind_Some. apply rfind_sub_bound in Hp.
    assert (length sep = 2) as Hl by by repeat (apply elem_of_cons in Hsep as [->|Hsep]; [done|]); inversion Hsep.
    case_bool_decide; simplify_eq. lia. }
  destruct para as [n|]; [by apply H1|]. destruct line as [n|]; [by apply H2|].
  destruct (head (omap _ _)) as [n|] eqn:E.
  - apply head_Some_elem_of, list_elem_of_omap in E as (sep & Hsep & Hn). by eapply H3.
  - destruct (rfind_sub [SP] text) as [pos|] eqn:Hp.
    + apply rfind_sub_bound in Hp. cbn in Hp. lia.
    + destruct text; [done|]. cbn. lia.
Qed.

(** ** Splitting texts *)
Definition fits (max : nat) (s : str) : Prop := length s ≤ max.

Lemma split_text_from_step fuel s max :
  s ≠ [] →
  split_text_from (S fuel) s max
  = if bool_decide (char_len s ≤ max) then Some [s]
    else rest ← split_text_from fuel (drop (find_break_point (take max s)) s) max;
         Some (take (find_break_point (take max s)) s :: rest).
Proof. by destruct s. Qed.

Lemma split_text_from_spec fuel s max :
  1 ≤ max → length s ≤ fuel →
  ∃ ps, split_text_from fuel s max = Some ps ∧ concat ps = s ∧ Forall (fits max) ps.
Proof.
  intros Hmax. revert s. induction fuel as [|fuel IH]; intros s Hf.
  { destruct s; [by exists []|cbn in Hf; lia]. }
  destruct (decide (s = [])) as [->|Hne]; [by exists []|].
  rewrite split_text_from_step by done. unfold char_len.
  case_bool_decide as Hfit; [exists [s]; cbn; rewrite app_nil_r; by repeat constructor|].
  assert (1 ≤ find_break_point (take max s) ≤ max) as Hb.
  { destruct (find_break_point_bound (take max s)) as [H1 H2].
    - intros H. apply (f_equal length) in H. rewrite length_take in H. cbn in H. lia.
    - rewrite length_take in H2. lia. }
  set (k := find_break_point (take max s)) in *.
  destruct (IH (drop k s)) as (ps & -> & Hc & HF); [rewrite length_drop; lia|].
  eexists. split; [done|]. cbn [concat]. rewrite Hc, take_drop. split; [done|].
  constructor; [|done]. unfold fits. rewrite length_take. lia.
Qed.

Lemma split_text_segment_spec s max :
  1 ≤ max → ∃ ps, split_text_segment s max = Some ps ∧ concat ps = s ∧ Forall (fits max) ps.
Proof.
  intros Hmax. unfold split_text_segment, char_len. case_bool_decide.
  - exists [s]. cbn. rewrite app_nil_r. by repeat constructor.
  - by apply split_text_from_spec.
Qed.

Lemma split_code_segment_spec s max :
  1 ≤ max → ∃ ps, split_code_segment s max = Some ps ∧ Forall (fits max) ps ∧
                  (length s ≤ max → ps = [s]).
Proof.
  intros Hmax. unfold split_code_segment, char_len. case_bool_decide as Hfit.
  { exists [s]. by repeat constructor. }
  assert (∃ ps, split_text_segment s max = Some ps ∧ Forall (fits max) ps ∧
                (length s ≤ max → ps = [s])) as Hplain.
  { destruct (split_text_segment_spec s max Hmax) as (ps & E & _ & HF). exists ps.
    split_and!; [done..|lia]. }
  destruct (find_sub [LF] s) as [k|]; [|exact Hplain].
  destruct (_ || _); [exact Hplain|]. case_bool_decide as H0; [exact Hplain|].
  set (header := take (S k) s) in *. set (available := max - _) in *.
  destruct (split_text_segment_spec (drop (S k) (take (length s - 3) s)) available)
    as (ps & -> & _ & HF); [lia|].
  eexists. split; [done|]. split; [|lia]. apply Forall_map. eapply Forall_impl; [exact HF|].
  intros p Hp. unfold fits in *. cbn. rewrite !length_app. cbn. unfold available in *.
  change (length FENCE) with 3 in *. lia.
Qed.

(** ** Segments *)
Definition seg_text (s : Segment) : str := match s with Text t | Code t => t end.

Lemma split_segments_from_spec fuel s :
  length s < fuel → ∃ l, split_segments_from fuel s = Some l ∧ concat (seg_text <$> l) = s.
Proof.
  revert s. induction fuel as [|fuel IH]; intros s Hf; [lia|]. cbn [split_segments_from].
  destruct (find_sub FENCE s) as [start|] eqn:E1.
  2:{ destruct s; eexists; split; try done. cbn. by rewrite app_nil_r. }
  apply find_sub_bound in E1. change (length FENCE) with 3 in E1.
  set (before := if bool_decide (0 < start) then [Text (take start s)] else []).
  assert (concat (seg_text <$> before) = take start s) as Hbefore.
  { unfold before. case_bool_decide; cbn; [by rewrite app_nil_r|]. by replace start with 0 by lia. }
  set (tail := drop start s). assert (length tail = length s - start) as Ht by apply length_drop.
  destruct (find_sub FENCE (drop 3 tail)) as [rel|] eqn:E2.
  - apply find_sub_bound in E2. change (length FENCE) with 3 in E2. rewrite length_drop in E2.
    destruct (IH (drop (3 + rel + 3) tail)) as (l & -> & Hl); [rewrite length_drop; lia|].
    cbn [mbind option_bind]. eexists. split; [done|].
    rewrite !fmap_app, !concat_app, Hbefore, Hl. cbn [fmap list_fmap concat seg_text].
    rewrite app_nil_r, (take_drop (3 + rel + 3) tail). unfold tail. apply take_drop.
  - eexists. split; [done|]. rewrite fmap_app, concat_app, Hbefore. cbn. rewrite app_nil_r.
    apply take_drop.
Qed.
Lemma split_segments_spec s :
  ∃ l, split_segments s = Some l ∧ concat (seg_text <$> l) = s.
Proof. apply split_segments_from_spec. lia. Qed.

(** ** Filling messages *)
Lemma length_tail_chars s n : length (tail_chars s n) ≤ n.
Proof.
  unfold tail_chars. case_bool_decide; [cbn; lia|]. case_bool_decide; [done|].
  rewrite length_drop. lia.
Qed.

(** The room that the overlap leaves for a piece. *)
Definition room (max overlap : nat) : nat := max - (if bool_decide (0 < overlap) then overlap + 1 else 0).

Lemma fill_fits max overlap pieces chunks current :
  (overlap = 0 ∨ overlap + 1 ≤ max) →
  Forall (fits (room max overlap)) pieces → Forall (fits max) chunks → fits max current →
  Forall (fits max) (fill max overlap pieces chunks current).
Proof.
  intros Ho Hp. revert chunks current. induction Hp as [|piece pieces Hpiece _ IH];
    intros chunks current Hch Hcur; cbn [fill].
  { destruct current; [done|]. apply Forall_app. split; [done|]. by constructor. }
  unfold fits, room, char_len in *. destruct (_ || _) eqn:E.
  - apply IH; [apply Forall_app; split; [done|by constructor]|].
    rewrite length_app. destruct (decide (0 < overlap)) as [Eo|Eo];
      [rewrite (bool_decide_true _ Eo) in Hpiece |- *
      |rewrite (bool_decide_false _ Eo) in Hpiece |- *; cbn in *; lia].
    cbn [andb] in *. clear E. destruct (_ && _); [|cbn; lia]. rewrite length_app. cbn. pose proof (length_tail_chars current overlap). lia.
  - apply IH; [done|]. apply orb_false_iff in E as [E%bool_decide_eq_false _].
    rewrite length_app. lia.
Qed.

(** Without overlap nothing is lost and nothing is added. *)
Lemma fill_concat max pieces chunks current :
  concat (fill max 0 pieces chunks current) = concat chunks ++ current ++ concat pieces.
Proof.
  revert chunks current. induction pieces as [|piece pieces IH]; intros chunks current; cbn [fill].
  { rewrite app_nil_r. destruct current; [by rewrite app_nil_r|]. rewrite concat_app. cbn.
    by rewrite app_nil_r. }
  destruct (_ || _); rewrite IH; cbn [concat].
  - rewrite concat_app. cbn. by rewrite app_nil_r, <-!(assoc_L (++)).
  - by rewrite <-!(assoc_L (++)).
Qed.

Lemma segment_pieces_spec n sg :
  1 ≤ n → ∃ ps, segment_pieces n sg = Some ps ∧ Forall (fits n) ps ∧
                (match sg with Text _ => True | Code c => length c ≤ n end → concat ps = seg_text sg).
Proof.
  intros Hn. destruct sg as [t|c]; cbn.
  - destruct (split_text_segment_spec t n Hn) as (ps & -> & Hc & HF). eauto.
  - destruct (split_code_segment_spec c n Hn) as (ps & -> & HF & Hc). exists ps.
    split_and!; [done..|]. intros Hl. rewrite (Hc Hl). cbn. apply app_nil_r.
Qed.
Definition code_fits (n : nat) (sg : Segment) : Prop :=
  match sg with Text _ => True | Code c => length c ≤ n end.

Lemma all_pieces_spec n l :
  1 ≤ n → ∃ pss, mapM (segment_pieces n) l = Some pss ∧ Forall (fits n) (concat pss) ∧
                 (Forall (code_fits n) l → concat (concat pss) = concat (seg_text <$> l)).
Proof.
  intros Hn. induction l as [|sg l (pss & E & HF & Hc)]; [by exists []|].
  destruct (segment_pieces_spec n sg Hn) as (ps & Ep & HFp & Hcp).
  exists (ps :: pss). cbn. rewrite Ep. cbn. rewrite E. cbn. split; [done|].
  split; [by apply Forall_app|]. intros [H1 H2]%Forall_cons. by rewrite concat_app, Hcp, Hc.
Qed.

Lemma split_message_body_spec text max overlap_chars :
  1 ≤ max → ∃ bodies, split_message_body text max overlap_chars = Some bodies ∧
    Forall (fits max) bodies ∧
    (overlap_chars = 0 → contains text FENCE = false → concat bodies = text).
Proof.
  intros Hmax. unfold split_message_body.
  set (overlap := overlap_chars `min` ((max - 1) / 2)).
  assert (2 * ((max - 1) / 2) ≤ max - 1) as Hhalf by (apply Nat.Div0.mul_div_le).
  destruct (split_segments_spec text) as (segs & Es & Hs). rewrite Es. cbn [mbind option_bind].
  fold (room max overlap).
  destruct (all_pieces_spec (room max overlap) segs) as (pss & -> & HF & Hc).
  { unfold room. case_bool_decide; lia. }
  cbn [mbind option_bind]. eexists. split; [done|]. split.
  - apply fill_fits; [lia|done|done|]. unfold fits. cbn. lia.
  - intros -> Hfence. change overlap with 0. rewrite fill_concat. cbn [concat app].
    rewrite Hc, Hs; [done|]. unfold split_segments in Es. cbn [split_segments_from] in Es.
    unfold contains in Hfence. destruct (find_sub FENCE text); [done|]. injection Es as <-.
    destruct text; by repeat constructor.
Qed.

(** ** Page markers *)
Lemma digits_mono i n : 1 ≤ i ≤ n → digits i ≤ digits n.
Proof.
  intros H. unfold digits, show_uint. rewrite !length_lit. unfold pretty, pretty_N.
  rewrite !decide_False by lia. apply pretty_go_mono; [apply Z2N.inj_le; lia|done].
Qed.
Lemma length_marker i n : length (marker i n) = 5 + digits i + digits n.
Proof.
  unfold marker, digits. rewrite !length_app. generalize (show_uint (Z.of_nat i)).
  generalize (show_uint (Z.of_nat n)). intros a b. rewrite !length_lit. cbn. lia.
Qed.

(** ** The chunks *)
(** [chunks] are the messages [bodies], numbered when [numbered]. *)
Definition pages (numbered : bool) (bodies : list str) (chunks : list MessageChunk) : Prop :=
  length chunks = length bodies ∧
  ∀ i body, bodies !! i = Some body →
    chunks !! i = Some {| mc_text := if numbered && bool_decide (1 < length bodies)
                                     then body ++ marker (S i) (length bodies) else body;
                          mc_index := S i; mc_total := length bodies |}.

Lemma number_chunks_pages numbered bodies : pages numbered bodies (number_chunks numbered bodies).
Proof.
  unfold number_chunks. split; [apply length_imap|]. intros i body Hb.
  by rewrite list_lookup_imap, Hb.
Qed.
Lemma number_chunks_fits numbered bodies n d :
  Forall (fits n) bodies → (numbered = true → digits (length bodies) ≤ d) →
  Forall (λ c, fits (n + if numbered then 5 + 2 * d else 0) (mc_text c)) (number_chunks numbered bodies).
Proof.
  intros HF Hd. apply Forall_lookup. intros i c Hc. unfold number_chunks in Hc.
  rewrite list_lookup_imap in Hc. apply fmap_Some in Hc as (body & Hb & ->). cbn [mc_text].
  assert (length body ≤ n) as Hl by (by eapply Forall_lookup in HF).
  unfold fits. destruct numbered; cbn [andb]; [|lia]. case_bool_decide; [|lia].
  rewrite length_app, length_marker. apply lookup_lt_Some in Hb.
  pose proof (digits_mono (S i) (length bodies) ltac:(lia)). specialize (Hd (eq_refl true)). lia.
Qed.

Lemma chunk_loop_spec text max overlap_chars fuel d (numbered : bool) :
  1 ≤ max → (if numbered then S (max - d) else 0) < fuel →
  ∃ nb bodies chunks,
    chunk_loop fuel text max overlap_chars d numbered = Some chunks ∧
    pages nb bodies chunks ∧ Forall (λ c, fits max (mc_text c)) chunks ∧
    (overlap_chars = 0 → contains text FENCE = false → concat bodies = text).
Proof.
  intros Hmax. revert d numbered. induction fuel as [|fuel IH]; intros d numbered Hf; [lia|].
  cbn [chunk_loop]. case_bool_decide as Hm.
  { destruct numbered; [|lia]. apply IH. lia. }
  set (mark := if numbered then 5 + 2 * d else 0) in *.
  destruct (split_message_body_spec text (max - mark) overlap_chars) as (bodies & -> & HF & Hc);
    [lia|].
  cbn [mbind option_bind]. destruct (numbered && _) eqn:E.
  - apply andb_true_iff in E as [-> E%bool_decide_eq_true]. apply IH. lia.
  - exists numbered, bodies. eexists. split; [done|]. split; [apply number_chunks_pages|].
    split; [|done]. replace max with (max - mark + mark) by lia. apply number_chunks_fits; [done|].
    intros ->. cbn [andb] in E. apply bool_decide_eq_false in E. lia.
Qed.

(** Splitting a reply always ends; every
    message, its page marker included, is within the limit of the platform (a
    limit of zero counts as one); the messages are numbered from one to their
    total; and without overlap and code fences their bodies joined are the reply. *)
Theorem chunk_message_spec text limit overlap :
  ∃ nb bodies chunks,
    chunk_message_with_options text limit overlap = Some chunks ∧
    pages nb bodies chunks ∧
    Forall (λ c, fits (limit `max` 1) (mc_text c)) chunks ∧
    (overlap = 0 → contains text FENCE = false → concat bodies = text).
Proof.
  unfold chunk_message_with_options, char_len. case_bool_decide as Hfit.
  - exists false, [text]. eexists. split; [done|]. split_and!.
    + split; [done|]. intros [|i] body; [by intros [= <-]|done].
    + by repeat constructor.
    + intros _ _. cbn. apply app_nil_r.
  - apply chunk_loop_spec; lia.
Qed.
