(* ===== verification/NetAddr.v ===== *)
(** * Internet addresses: what the crates use of [std::net]

    An address is its number, 32 or 128 bits wide.  [parse_ip] is [str::parse]
    at type [IpAddr]: the parser of the standard library, which backtracks at
    marked points only; a parser is a function from the input to a value and the
    rest. *)
From S2P Require Import Prelude RustStr MachInt.
Local Open Scope Z_scope.

Inductive IpAddr :=
| V4 (ip : Z)
| V6 (ip : Z).
#[export] Instance IpAddr_eq : EqDecision IpAddr.
Proof. solve_decision. Defined.

Record SocketAddr := { ip_of : IpAddr; port_of : Z }.
#[export] Instance SocketAddr_eq : EqDecision SocketAddr.
Proof. solve_decision. Defined.

(** [Ipv4Addr::from([a, b, c, d])]. *)
Definition octets4 (a b c d : Z) : Z := a * 2 ^ 24 + b * 2 ^ 16 + c * 2 ^ 8 + d.
Definition octet (i : Z) (ip : Z) : Z := Z.land (Z.shiftr ip (8 * (3 - i))) 255.
(** The [i]-th 16-bit group of a 128-bit address. *)
Definition segment (i : Z) (ip : Z) : Z := Z.land (Z.shiftr ip (16 * (7 - i))) 0xFFFF.
Definition of_segments (groups : list Z) : Z := foldl (λ acc g, acc * 2 ^ 16 + g) 0 groups.

(** ** Classification *)
Definition ipv4_is_loopback (ip : Z) : bool := octet 0 ip =? 127.
Definition ipv4_is_private (ip : Z) : bool :=
  (octet 0 ip =? 10)
  || (octet 0 ip =? 172) && (16 <=? octet 1 ip) && (octet 1 ip <=? 31)
  || (octet 0 ip =? 192) && (octet 1 ip =? 168).
Definition ipv4_is_link_local (ip : Z) : bool := (octet 0 ip =? 169) && (octet 1 ip =? 254).
Definition ipv4_is_unspecified (ip : Z) : bool := ip =? 0.
Definition ipv4_is_multicast (ip : Z) : bool := (224 <=? octet 0 ip) && (octet 0 ip <=? 239).
Definition ipv4_is_broadcast (ip : Z) : bool := ip =? 2 ^ 32 - 1.

Definition ipv6_is_loopback (ip : Z) : bool := ip =? 1.
Definition ipv6_is_unspecified (ip : Z) : bool := ip =? 0.
Definition ipv6_is_multicast (ip : Z) : bool := Z.land (segment 0 ip) 0xFF00 =? 0xFF00.
Definition ipv6_is_unique_local (ip : Z) : bool := Z.land (segment 0 ip) 0xFE00 =? 0xFC00.
Definition ipv6_is_unicast_link_local (ip : Z) : bool := Z.land (segment 0 ip) 0xFFC0 =? 0xFE80.

(** [Ipv6Addr::to_ipv4]: compatible and mapped addresses. *)
Definition to_ipv4 (ip : Z) : option Z :=
  let high := Z.shiftr ip 32 in
  if (high =? 0) || (high =? 0xFFFF) then Some (Z.land ip (2 ^ 32 - 1)) else None.

Definition ip_is_loopback (ip : IpAddr) : bool :=
  match ip with V4 ip => ipv4_is_loopback ip | V6 ip => ipv6_is_loopback ip end.

(** ** Parsing *)
Definition parser (A : Type) : Type := str → option (A * str).

Definition digit_value (radix : Z) (c : char) : option Z :=
  let v :=
    if ((48 <=? c) && (c <=? 57))%N then Z.of_N c - 48
    else if ((97 <=? c) && (c <=? 122))%N then Z.of_N c - 87
    else if ((65 <=? c) && (c <=? 90))%N then Z.of_N c - 55 else radix in
  if v <? radix then Some v else None.

(** The longest run of digits, and [None] when it is longer than [max_digits]. *)
Fixpoint read_digits (radix : Z) (max_digits : nat) (result : Z) (s : str) {struct s}
    : option (Z * str) :=
  match s with
  | [] => Some (result, [])
  | c :: s' =>
      match digit_value radix c with
      | None => Some (result, s)
      | Some d =>
          match max_digits with
          | O => None
          | S n => read_digits radix n (result * radix + d) s'
          end
      end
  end.

(** [limit] is the size of the number type. *)
Definition read_number (radix : Z) (max_digits : nat) (allow_zero_prefix : bool) (limit : Z)
    : parser Z := λ s,
  '(result, s') ← read_digits radix max_digits 0 s;
  let digit_count := (length s - length s')%nat in
  if (digit_count =? 0)%nat then None
  else if negb allow_zero_prefix && bool_decide (head s = Some 48%N) && (1 <? digit_count)%nat
  then None
  else if result <? limit then Some (result, s') else None.

Definition read_given_char (c : char) : parser unit := λ s,
  match s with
  | c' :: s' => if decide (c' = c) then Some ((), s') else None
  | [] => None
  end.

Definition read_separator {A} (sep : char) (index : nat) (inner : parser A) : parser A := λ s,
  match index with
  | O => inner s
  | S _ => '(_, s) ← read_given_char sep s; inner s
  end.


Definition read_octet (i : nat) : parser Z := read_separator DOT i (read_number 10 3 false 256).

Definition read_ipv4_addr : parser Z := λ s,
  '(a, s) ← read_octet 0 s; '(b, s) ← read_octet 1 s;
  '(c, s) ← read_octet 2 s; '(d, s) ← read_octet 3 s;
  Some (octets4 a b c d, s).

(** [read_groups] with [n = limit - i] groups to go: the groups read, and
    whether the last two are an embedded IPv4 address. *)
Fixpoint read_groups (n i : nat) (s : str) : list Z * bool * str :=
  match n with
  | O => ([], false, s)
  | S n' =>
      match (if decide (n' = 0)%nat then None else read_separator COLON i read_ipv4_addr s) with
      | Some (v4, s') => ([Z.shiftr v4 16; Z.land v4 0xFFFF], true, s')
      | None =>
          match read_separator COLON i (read_number 16 4 true (2 ^ 16)) s with
          | Some (g, s') =>
              let '(gs, ipv4, s'') := read_groups n' (S i) s' in (g :: gs, ipv4, s'')
          | None => ([], false, s)
          end
      end
  end.

Definition read_ipv6_addr : parser Z := λ s,
  let '(head, head_ipv4, s) := read_groups 8 0 s in
  if decide (length head = 8)%nat then Some (of_segments head, s)
  else if head_ipv4 : bool then None
  else
    '(_, s) ← read_given_char COLON s;
    '(_, s) ← read_given_char COLON s;
    let '(tail, _, s) := read_groups (8 - (length head + 1)) 0 s in
    Some (of_segments (head ++ replicate (8 - length head - length tail) 0 ++ tail), s).

Definition read_ip_addr : parser IpAddr := λ s,
  match read_ipv4_addr s with
  | Some (ip, s') => Some (V4 ip, s')
  | None => '(ip, s') ← read_ipv6_addr s; Some (V6 ip, s')
  end.

(** [s.parse::<IpAddr>().ok()]: the whole input. *)
Definition parse_ip (s : str) : option IpAddr :=
  match read_ip_addr s with Some (ip, []) => Some ip | _ => None end.

Example parse_ip_examples :
  parse_ip (§"127.0.0.1") = Some (V4 (octets4 127 0 0 1)) ∧
  parse_ip (§"010.0.0.1") = None ∧ parse_ip (§"256.0.0.1") = None ∧ parse_ip (§"127.1") = None ∧
  parse_ip (§"::1") = Some (V6 1) ∧ parse_ip (§"::") = Some (V6 0) ∧
  parse_ip (§"::ffff:10.0.0.1") = Some (V6 0xFFFF0A000001) ∧
  parse_ip (§"2001:DB8::1:2") = Some (V6 0x20010DB8000000000000000000010002) ∧
  parse_ip (§"1:2:3:4:5:6:7:8") = Some (V6 0x00010002000300040005000600070008) ∧
  parse_ip (§"1:2:3:4:5:6:7::") = Some (V6 0x00010002000300040005000600070000) ∧
  parse_ip (§"1.2.3.4::") = None ∧ parse_ip (§"fe80::1%eth0") = None ∧ parse_ip (§"") = None.
Proof. vm_compute. done. Qed.

(** ** Ranges *)
Definition is_u8 (z : Z) : Prop := 0 ≤ z < 256.
Definition is_u32 (z : Z) : Prop := 0 ≤ z < 2 ^ 32.
Definition is_u128 (z : Z) : Prop := 0 ≤ z < 2 ^ 128.

Definition valid_ip (ip : IpAddr) : Prop :=
  match ip with V4 ip => is_u32 ip | V6 ip => is_u128 ip end.

Lemma read_digits_nonneg radix n r s v s' :
  0 ≤ radix → 0 ≤ r → read_digits radix n r s = Some (v, s') → 0 ≤ v.
Proof.
  revert n r. induction s as [|c s IH]; intros n r Hr H0; cbn [read_digits]; [by intros; simplify_eq|].
  destruct (digit_value radix c) as [d|] eqn:Hd; [|by intros; simplify_eq].
  destruct n as [|n]; [done|]. apply IH; [done|].
  assert (0 ≤ d); [|lia]. unfold digit_value in Hd. revert Hd.
  repeat match goal with |- context [if (?b : bool) then _ else _] => destruct b eqn:? end;
    intros; simplify_eq; bool_tac; rewrite ?N.leb_le in *; lia.
Qed.

Lemma read_number_range radix n z limit s v s' :
  0 ≤ radix → read_number radix n z limit s = Some (v, s') → 0 ≤ v < limit.
Proof.
  intros Hr. unfold read_number. destruct (read_digits radix n 0 s) as [[r s1]|] eqn:E; cbn; [|done].
  destruct (_ =? 0)%nat; [done|]. destruct (_ && _); [done|]. destruct (r <? limit) eqn:Hl; [|done].
  intros [= <- <-]. split; [by eapply (read_digits_nonneg radix n 0 s)|lia].
Qed.

Lemma read_separator_number sep i radix n z limit s v s' :
  0 ≤ radix → read_separator sep i (read_number radix n z limit) s = Some (v, s') → 0 ≤ v < limit.
Proof.
  intros Hr. unfold read_separator. destruct i as [|i]; [by apply read_number_range|].
  destruct (read_given_char sep s) as [[[] s1]|]; cbn; [|done]. by apply read_number_range.
Qed.

Lemma octets4_range a b c d : is_u8 a → is_u8 b → is_u8 c → is_u8 d → is_u32 (octets4 a b c d).
Proof. unfold is_u8, is_u32, octets4. lia. Qed.

Lemma read_octet_range i s v s' : read_octet i s = Some (v, s') → is_u8 v.
Proof. by apply read_separator_number. Qed.

Lemma read_ipv4_Some s ip s' :
  read_ipv4_addr s = Some (ip, s') ↔
  ∃ a b c d s1 s2 s3, read_octet 0 s = Some (a, s1) ∧ read_octet 1 s1 = Some (b, s2) ∧
    read_octet 2 s2 = Some (c, s3) ∧ read_octet 3 s3 = Some (d, s') ∧ ip = octets4 a b c d.
Proof.
  unfold read_ipv4_addr. split.
  - intros ([a s1] & Ea & H)%bind_Some. apply bind_Some in H as ([b s2] & Eb & H).
    apply bind_Some in H as ([c s3] & Ec & H). apply bind_Some in H as ([d s4] & Ed & [= <- <-]).
    by eexists a, b, c, d, s1, s2, s3.
  - intros (a & b & c & d & s1 & s2 & s3 & Ea & Eb & Ec & Ed & ->).
    rewrite Ea. cbn [mbind option_bind]. rewrite Eb. cbn [mbind option_bind].
    rewrite Ec. cbn [mbind option_bind]. by rewrite Ed.
Qed.

Lemma read_ipv4_range s ip s' : read_ipv4_addr s = Some (ip, s') → is_u32 ip.
Proof.
  intros (a & b & c & d & s1 & s2 & s3 & Ea & Eb & Ec & Ed & ->)%read_ipv4_Some.
  by apply octets4_range; eapply read_octet_range.
Qed.

(** [octet] undoes [octets4]. *)
Lemma octet_div i ip : 0 ≤ i ≤ 3 → octet i ip = ip / 2 ^ (8 * (3 - i)) mod 256.
Proof.
  intros Hi. unfold octet. rewrite Z.shiftr_div_pow2 by lia.
  change 255 with (Z.ones 8). by rewrite Z.land_ones.
Qed.

Lemma octet_octets4 a b c d :
  is_u8 a → is_u8 b → is_u8 c → is_u8 d →
  octet 0 (octets4 a b c d) = a ∧ octet 1 (octets4 a b c d) = b.
Proof.
  unfold is_u8, octets4. intros. rewrite !octet_div by lia. cbn. split; Z.to_euclidean_division_equations; lia.
Qed.

Lemma octet_01 ip : is_u32 ip → octet 0 ip = ip / 2 ^ 24 ∧ octet 1 ip = ip / 2 ^ 16 mod 256.
Proof.
  intros Hip. unfold is_u32 in Hip. rewrite !octet_div by lia. cbn -[Z.pow Z.div Z.modulo].
  split; [|done]. apply Z.mod_small. Z.to_euclidean_division_equations; lia.
Qed.

(** ** Masks: the high bits of a number *)
Lemma land_mask n k x :
  0 ≤ k ≤ n → 0 ≤ x < 2 ^ n → Z.land x (Z.shiftl (Z.ones (n - k)) k) = x / 2 ^ k * 2 ^ k.
Proof.
  intros Hk Hx. rewrite <-Z.shiftr_div_pow2, <-Z.shiftl_mul_pow2 by lia.
  apply Z.bits_inj'. intros i Hi. rewrite Z.land_spec, !Z.shiftl_spec by lia.
  destruct (decide (i < k)) as [Hik|Hik].
  { rewrite !(Z.testbit_neg_r _ (i - k)) by lia. by rewrite andb_false_r. }
  rewrite Z.shiftr_spec, Z.sub_add by lia. destruct (decide (i < n)) as [Hin|Hin].
  - rewrite Z.ones_spec_low by lia. by rewrite andb_true_r.
  - rewrite Z.ones_spec_high, andb_false_r by lia. symmetry. rewrite <-(Z.mod_small x (2 ^ n)) by lia.
    apply Z.mod_pow2_bits_high. lia.
Qed.

Lemma mask_eq_range n k x b :
  0 ≤ k ≤ n → 0 ≤ x < 2 ^ n →
  Z.land x (Z.shiftl (Z.ones (n - k)) k) = b * 2 ^ k ↔ b * 2 ^ k ≤ x < (b + 1) * 2 ^ k.
Proof.
  intros Hk Hx. rewrite land_mask by done. assert (0 < 2 ^ k) by lia.
  assert (x / 2 ^ k * 2 ^ k = b * 2 ^ k ↔ x / 2 ^ k = b) as -> by (rewrite Z.mul_cancel_r; lia).
  pose proof (Z.div_mod x (2 ^ k)) as Hd. pose proof (Z.mod_pos_bound x (2 ^ k)).
  split; [intros <-; lia|]. intros Hb. symmetry. apply (Z.div_unique_pos _ _ _ (x - b * 2 ^ k)); lia.
Qed.
