(* ===== verification/PublicAddr.v ===== *)
(** * Public and non-public addresses ([network-proxy/src/policy.rs])

    The test that keeps the proxy away from local and private networks, and the
    ranges it stands for. *)
From S2P Require Import Prelude RustStr NetAddr.
Local Open Scope Z_scope.

Definition ipv4_in_cidr (ip base prefix : Z) : bool :=
  let mask :=
    if prefix =? 0 then 0 else Z.land (Z.shiftl (2 ^ 32 - 1) (32 - prefix)) (2 ^ 32 - 1) in
  Z.land ip mask =? Z.land base mask.

Definition is_non_public_ipv4 (ip : Z) : bool :=
  ipv4_is_loopback ip
  || ipv4_is_private ip
  || ipv4_is_link_local ip
  || ipv4_is_unspecified ip
  || ipv4_is_multicast ip
  || ipv4_is_broadcast ip
  || ipv4_in_cidr ip (octets4 0 0 0 0) 8
  || ipv4_in_cidr ip (octets4 100 64 0 0) 10
  || ipv4_in_cidr ip (octets4 192 0 0 0) 24
  || ipv4_in_cidr ip (octets4 192 0 2 0) 24
  || ipv4_in_cidr ip (octets4 198 18 0 0) 15
  || ipv4_in_cidr ip (octets4 198 51 100 0) 24
  || ipv4_in_cidr ip (octets4 203 0 113 0) 24
  || ipv4_in_cidr ip (octets4 240 0 0 0) 4.

Definition is_non_public_ipv6 (ip : Z) : bool :=
  match to_ipv4 ip with
  | Some v4 => is_non_public_ipv4 v4 || ipv6_is_loopback ip
  | None =>
      ipv6_is_loopback ip
      || ipv6_is_unspecified ip
      || ipv6_is_multicast ip
      || ipv6_is_unique_local ip
      || ipv6_is_unicast_link_local ip
  end.

Definition is_non_public_ip (ip : IpAddr) : bool :=
  match ip with V4 ip => is_non_public_ipv4 ip | V6 ip => is_non_public_ipv6 ip end.

(** * Correctness *)

(** Half-open ranges. *)
Definition in_ranges (x : Z) (ranges : list (Z * Z)) : bool :=
  existsb (λ r, (fst r <=? x) && (x <? snd r)) ranges.

(** The addresses the proxy does not take for public. *)
Definition NON_PUBLIC_V4 : list (Z * Z) :=
  [ (octets4 0 0 0 0, octets4 1 0 0 0);           (* this network *)
    (octets4 10 0 0 0, octets4 11 0 0 0);         (* private *)
    (octets4 100 64 0 0, octets4 100 128 0 0);    (* CGNAT *)
    (octets4 127 0 0 0, octets4 128 0 0 0);       (* loopback *)
    (octets4 169 254 0 0, octets4 169 255 0 0);   (* link local *)
    (octets4 172 16 0 0, octets4 172 32 0 0);     (* private *)
    (octets4 192 0 0 0, octets4 192 0 1 0);       (* IETF protocol assignments *)
    (octets4 192 0 2 0, octets4 192 0 3 0);       (* TEST-NET-1 *)
    (octets4 192 168 0 0, octets4 192 169 0 0);   (* private *)
    (octets4 198 18 0 0, octets4 198 20 0 0);     (* benchmarking *)
    (octets4 198 51 100 0, octets4 198 51 101 0); (* TEST-NET-2 *)
    (octets4 203 0 113 0, octets4 203 0 114 0);   (* TEST-NET-3 *)
    (octets4 224 0 0 0, octets4 256 0 0 0) ].     (* multicast, reserved, broadcast *)

Definition NON_PUBLIC_V6 : list (Z * Z) :=
  [ (0xFC00 * 2 ^ 112, 0xFE00 * 2 ^ 112);         (* unique local *)
    (0xFE80 * 2 ^ 112, 0xFEC0 * 2 ^ 112);         (* link local *)
    (0xFF00 * 2 ^ 112, 2 ^ 128) ].                (* multicast *)

Lemma cidr_mask k :
  0 ≤ k < 32 → Z.land (Z.shiftl (2 ^ 32 - 1) k) (2 ^ 32 - 1) = Z.shiftl (Z.ones (32 - k)) k.
Proof.
  intros Hk. change (2 ^ 32 - 1) with (Z.ones 32). apply Z.bits_inj'. intros i Hi.
  rewrite Z.land_spec, !Z.shiftl_spec by lia. destruct (decide (i < k)).
  { by rewrite !(Z.testbit_neg_r _ (i - k)) by lia. }
  rewrite !Z.testbit_ones_nonneg by lia. apply eq_true_iff_eq. rewrite andb_true_iff, !Z.ltb_lt. lia.
Qed.

Lemma cidr_range ip prefix b :
  0 < prefix ≤ 32 → is_u32 ip → is_u32 (b * 2 ^ (32 - prefix)) →
  ipv4_in_cidr ip (b * 2 ^ (32 - prefix)) prefix = true ↔
  b * 2 ^ (32 - prefix) ≤ ip < (b + 1) * 2 ^ (32 - prefix).
Proof.
  intros Hp Hip Hb. unfold ipv4_in_cidr. assert (prefix =? 0 = false) as -> by lia.
  set (k := 32 - prefix) in *. rewrite cidr_mask by lia.
  rewrite (land_mask 32 k (b * 2 ^ k)), Z.div_mul by (unfold is_u32 in *; lia).
  rewrite Z.eqb_eq. apply mask_eq_range; unfold is_u32 in *; lia.
Qed.
Definition in_range (x lo hi : Z) : bool := (lo <=? x) && (x <? hi).

Lemma cidr_in ip base prefix :
  0 < prefix ≤ 32 → is_u32 ip → is_u32 base → base mod 2 ^ (32 - prefix) = 0 →
  ipv4_in_cidr ip base prefix = in_range ip base (base + 2 ^ (32 - prefix)).
Proof.
  intros Hp Hip Hb Hm. assert (0 < 2 ^ (32 - prefix)) by lia.
  apply Z.mod_divide in Hm as [b ->]; [|lia]. apply eq_true_iff_eq.
  rewrite cidr_range by done. unfold in_range. rewrite andb_true_iff, Z.leb_le, Z.ltb_lt. lia.
Qed.

(** The tests of the standard library as ranges. *)
Lemma ipv4_tests_ranges ip :
  is_u32 ip →
  ipv4_is_loopback ip = in_range ip (octets4 127 0 0 0) (octets4 128 0 0 0) ∧
  ipv4_is_private ip = in_range ip (octets4 10 0 0 0) (octets4 11 0 0 0)
    || in_range ip (octets4 172 16 0 0) (octets4 172 32 0 0)
    || in_range ip (octets4 192 168 0 0) (octets4 192 169 0 0) ∧
  ipv4_is_link_local ip = in_range ip (octets4 169 254 0 0) (octets4 169 255 0 0) ∧
  ipv4_is_multicast ip = in_range ip (octets4 224 0 0 0) (octets4 240 0 0 0).
Proof.
  intros Hip. destruct (octet_01 ip Hip) as [H0 H1]. unfold is_u32 in Hip.
  unfold ipv4_is_loopback, ipv4_is_private, ipv4_is_link_local, ipv4_is_multicast, in_range, octets4.
  rewrite H0, H1. split_and!; apply eq_true_iff_eq;
    rewrite ?orb_true_iff, ?andb_true_iff, ?Z.eqb_eq, ?Z.leb_le, ?Z.ltb_lt;
    Z.to_euclidean_division_equations; lia.
Qed.

Lemma non_public_ipv4_ranges ip :
  is_u32 ip → is_non_public_ipv4 ip = in_ranges ip NON_PUBLIC_V4.
Proof.
  intros Hip. destruct (ipv4_tests_ranges ip Hip) as (H1 & H2 & H3 & H4).
  unfold is_non_public_ipv4, ipv4_is_unspecified, ipv4_is_broadcast.
  rewrite H1, H2, H3, H4, !cidr_in by (done || vm_compute; intuition discriminate).
  apply eq_true_iff_eq. unfold in_ranges, in_range, NON_PUBLIC_V4, octets4, is_u32 in *. cbn [existsb fst snd].
  rewrite ?orb_true_iff, ?andb_true_iff, ?Z.eqb_eq, ?Z.leb_le, ?Z.ltb_lt. lia.
Qed.

Lemma segment_div ip : is_u128 ip → segment 0 ip = ip / 2 ^ 112.
Proof.
  intros Hip. unfold is_u128 in Hip. unfold segment. rewrite Z.shiftr_div_pow2 by lia.
  change 0xFFFF with (Z.ones 16). rewrite Z.land_ones by lia. apply Z.mod_small.
  Z.to_euclidean_division_equations; lia.
Qed.

(** A test of the high bits of the first group. *)
Lemma group_mask_range ip k b :
  0 ≤ k ≤ 16 → is_u128 ip →
  Z.land (segment 0 ip) (Z.shiftl (Z.ones (16 - k)) k) = b * 2 ^ k ↔
  b * 2 ^ k * 2 ^ 112 ≤ ip < (b + 1) * 2 ^ k * 2 ^ 112.
Proof.
  intros Hk Hip. rewrite segment_div by done. rewrite mask_eq_range; [|done|].
  - Z.to_euclidean_division_equations; lia.
  - unfold is_u128 in Hip. Z.to_euclidean_division_equations; lia.
Qed.

Lemma ipv6_tests_ranges ip :
  is_u128 ip →
  ipv6_is_unique_local ip = in_range ip (0xFC00 * 2 ^ 112) (0xFE00 * 2 ^ 112) ∧
  ipv6_is_unicast_link_local ip = in_range ip (0xFE80 * 2 ^ 112) (0xFEC0 * 2 ^ 112) ∧
  ipv6_is_multicast ip = in_range ip (0xFF00 * 2 ^ 112) (2 ^ 128).
Proof.
  intros Hip. pose proof (group_mask_range ip 9 0x7E) as H1. pose proof (group_mask_range ip 6 0x3FA) as H2.
  pose proof (group_mask_range ip 8 0xFF) as H3.
  unfold ipv6_is_unique_local, ipv6_is_unicast_link_local, ipv6_is_multicast, in_range.
  split_and!; apply eq_true_iff_eq; rewrite Z.eqb_eq, andb_true_iff, Z.leb_le, Z.ltb_lt;
    [apply H1|apply H2|apply H3]; done || lia.
Qed.

Lemma to_ipv4_ranges ip :
  is_u128 ip →
  to_ipv4 ip = if in_range ip 0 (2 ^ 32) || in_range ip (0xFFFF * 2 ^ 32) (0x10000 * 2 ^ 32)
               then Some (ip mod 2 ^ 32) else None.
Proof.
  intros Hip. unfold is_u128 in Hip. unfold to_ipv4. rewrite Z.shiftr_div_pow2 by lia.
  change (2 ^ 32 - 1) with (Z.ones 32). rewrite Z.land_ones by lia.
  assert ((ip / 2 ^ 32 =? 0) || (ip / 2 ^ 32 =? 0xFFFF)
          = in_range ip 0 (2 ^ 32) || in_range ip (0xFFFF * 2 ^ 32) (0x10000 * 2 ^ 32)) as ->; [|done].
  apply eq_true_iff_eq. unfold in_range.
  rewrite ?orb_true_iff, ?andb_true_iff, ?Z.eqb_eq, ?Z.leb_le, ?Z.ltb_lt.
  Z.to_euclidean_division_equations; lia.
Qed.

Lemma non_public_ipv6_ranges ip :
  is_u128 ip →
  is_non_public_ipv6 ip =
  if in_range ip 0 (2 ^ 32) || in_range ip (0xFFFF * 2 ^ 32) (0x10000 * 2 ^ 32)
  then in_ranges (ip mod 2 ^ 32) NON_PUBLIC_V4 else in_ranges ip NON_PUBLIC_V6.
Proof.
  intros Hip. destruct (ipv6_tests_ranges ip Hip) as (H1 & H2 & H3).
  unfold is_non_public_ipv6, ipv6_is_loopback, ipv6_is_unspecified.
  rewrite to_ipv4_ranges, H1, H2, H3 by done.
  destruct (in_range ip 0 (2 ^ 32) || _) eqn:Hv4.
  - rewrite non_public_ipv4_ranges by (unfold is_u32; apply Z.mod_pos_bound; lia).
    destruct (ip =? 1) eqn:E1; [|by rewrite orb_false_r]. apply Z.eqb_eq in E1 as ->. by vm_compute.
  - unfold in_ranges, NON_PUBLIC_V6. cbn [existsb fst snd]. fold (in_range ip (0xFC00 * 2 ^ 112) (0xFE00 * 2 ^ 112)).
    fold (in_range ip (0xFE80 * 2 ^ 112) (0xFEC0 * 2 ^ 112)). fold (in_range ip (0xFF00 * 2 ^ 112) (2 ^ 128)).
    assert (ip =? 1 = false ∧ ip =? 0 = false) as [-> ->].
    { unfold in_range in Hv4. bool_tac. lia. }
    cbn [orb]. rewrite orb_false_r. by destruct (in_range ip _ _), (in_range ip _ _), (in_range ip _ _).
Qed.

(** What the proxy takes for a public address: an IPv4 address is refused as
    non-public exactly when it is in one of thirteen reserved ranges, and an IPv6
    address exactly when it embeds such an IPv4 address (mapped or compatible, so
    also [::] and [::1]) or is unique local, link local or multicast. *)
Theorem is_non_public_ip_spec ip :
  valid_ip ip →
  is_non_public_ip ip =
  match ip with
  | V4 ip => in_ranges ip NON_PUBLIC_V4
  | V6 ip =>
      if in_range ip 0 (2 ^ 32) || in_range ip (0xFFFF * 2 ^ 32) (0x10000 * 2 ^ 32)
      then in_ranges (ip mod 2 ^ 32) NON_PUBLIC_V4 else in_ranges ip NON_PUBLIC_V6
  end.
Proof.
  destruct ip as [ip|ip]; cbn [valid_ip is_non_public_ip]; intros Hip.
  { by apply non_public_ipv4_ranges. }
  by apply non_public_ipv6_ranges.
Qed.

Lemma is_non_public_ip_spec_witness :
  valid_ip (V6 0xFFFF0A000001) ∧ is_non_public_ip (V6 0xFFFF0A000001) = true.
Proof.
  assert (valid_ip (V6 0xFFFF0A000001)) as Hv by (vm_compute; intuition discriminate).
  split; [done|]. rewrite (is_non_public_ip_spec _ Hv). by vm_compute.
Defined.

(** Not globally routable and yet taken for public: documentation addresses,
    the former site-local range, and 127.0.0.1 behind the NAT64 prefix. *)
Example unroutable_ipv6_is_public :
  is_non_public_ip <$> parse_ip (§"2001:db8::1") = Some false ∧
  is_non_public_ip <$> parse_ip (§"fec0::1") = Some false ∧
  is_non_public_ip <$> parse_ip (§"64:ff9b::127.0.0.1") = Some false.
Proof. by vm_compute. Qed.
