(* ===== verification/HostPolicy.v ===== *)
(** * Which hosts the network proxy allows ([network-proxy/src/policy.rs])

    Normalisation of hosts, the patterns of the allow and deny lists, and the comparison of a pattern
    with a managed one.  The glob library ([globset]) and the host parser of
    [url] are parameters. *)
From S2P Require Import Prelude RustStr NetAddr.

(** ** Hosts *)
Definition LBRACKET : char := 91%N.
Definition RBRACKET : char := 93%N.
Definition PERCENT : char := 37%N.
Definition QUESTION : char := 63%N.

Definition is_dot (c : char) : bool := bool_decide (c = DOT).

Definition normalize_dns_host (host : str) : str :=
  trim_end_matches is_dot (to_ascii_lowercase host).

Definition normalize_host (host : str) : str :=
  let host := trim host in
  match host with
  | c :: rest =>
      if bool_decide (c = LBRACKET ∧ RBRACKET ∈ rest)
      then normalize_dns_host (take_while (λ c, negb (bool_decide (c = RBRACKET))) rest)
      else if bool_decide (length (filter (λ c, c = COLON) host) = 1)
      then normalize_dns_host (default [] (head (split_on COLON host)))
      else normalize_dns_host host
  | [] => normalize_dns_host host
  end.

(** [Host::parse]: [None] is the error. *)
Definition Host_parse (input : str) : option str :=
  let normalized := normalize_host input in
  if bool_decide (normalized = []) then None else Some normalized.

(** [host.split_once('%').map(|(ip, _)| ip).unwrap_or(host)]. *)
Definition without_scope (host : str) : str :=
  match split_once PERCENT host with Some (ip, _) => ip | None => host end.

Definition is_loopback_host (host : str) : bool :=
  let host := without_scope host in
  if bool_decide (host = §"localhost") then true
  else match parse_ip host with Some ip => ip_is_loopback ip | None => false end.

(** ** Domain patterns *)
Definition normalize_pattern (pattern : str) : str :=
  let pattern := trim pattern in
  if bool_decide (pattern = §"*") then §"*"
  else
    let '(prefix, remainder) :=
      match strip_prefix (§"**.") pattern with
      | Some domain => (§"**.", domain)
      | None =>
          match strip_prefix (§"*.") pattern with
          | Some domain => (§"*.", domain)
          | None => ([], pattern)
          end
      end in
    let remainder := normalize_host remainder in
    if bool_decide (prefix = []) then remainder else prefix ++ remainder.

Inductive DomainPattern :=
| Any
| ApexAndSubdomains (domain : str)
| SubdomainsOnly (domain : str)
| Exact (domain : str).

Definition parse_domain (domain : str) (build : str → DomainPattern) : DomainPattern :=
  let domain := trim domain in
  if bool_decide (domain = []) then Exact [] else build domain.

Definition DomainPattern_parse (input : str) : DomainPattern :=
  let input := trim input in
  if bool_decide (input = []) then Exact []
  else if bool_decide (input = §"*") then Any
  else
    match strip_prefix (§"**.") input with
    | Some domain => parse_domain domain ApexAndSubdomains
    | None =>
        match strip_prefix (§"*.") input with
        | Some domain => parse_domain domain SubdomainsOnly
        | None => Exact input
        end
    end.

Definition expand_domain_pattern (pattern : str) : list str :=
  match DomainPattern_parse pattern with
  | Any => [pattern]
  | Exact domain => [domain]
  | SubdomainsOnly domain => [§"?*." ++ domain]
  | ApexAndSubdomains domain => [domain; §"?*." ++ domain]
  end.

Definition normalize_domain (domain : str) : str :=
  to_ascii_lowercase (trim_end_matches is_dot domain).
Definition domain_eq (left right : str) : bool :=
  bool_decide (normalize_domain left = normalize_domain right).
Definition is_subdomain_or_equal (child parent : str) : bool :=
  let child := normalize_domain child in
  let parent := normalize_domain parent in
  if bool_decide (child = parent) then true else ends_with child (DOT :: parent).
Definition is_strict_subdomain (child parent : str) : bool :=
  let child := normalize_domain child in
  let parent := normalize_domain parent in
  negb (bool_decide (child = parent)) && ends_with child (DOT :: parent).

Definition allows (self candidate : DomainPattern) : bool :=
  match self with
  | Any => true
  | Exact domain =>
      match candidate with Exact candidate => domain_eq candidate domain | _ => false end
  | SubdomainsOnly domain =>
      match candidate with
      | Any => false
      | Exact candidate => is_strict_subdomain candidate domain
      | SubdomainsOnly candidate => is_subdomain_or_equal candidate domain
      | ApexAndSubdomains candidate => is_strict_subdomain candidate domain
      end
  | ApexAndSubdomains domain =>
      match candidate with
      | Any => false
      | Exact candidate => is_subdomain_or_equal candidate domain
      | SubdomainsOnly candidate => is_subdomain_or_equal candidate domain
      | ApexAndSubdomains candidate => is_subdomain_or_equal candidate domain
      end
  end.

(** ** The libraries *)
(** [globset]: patterns that match without regard to ASCII case, and sets. *)
Class GlobLib := {
  Glob : Type;
  GlobSet : Type;
  glob_new : str → option Glob;
  glob_match : Glob → str → bool;
  globset_build : list Glob → option GlobSet;
  is_match : GlobSet → str → bool;
}.

(** [UrlHost::parse(host)] and [to_string]. *)
Class UrlLib := { url_host : str → option str }.

Section Patterns.
Context `{GlobLib} `{UrlLib}.

(** The loop over the candidates: what was seen is skipped. *)
Fixpoint add_globs (seen candidates : list str) : option (list Glob) :=
  match candidates with
  | [] => Some []
  | candidate :: rest =>
      if bool_decide (candidate ∈ seen) then add_globs seen rest
      else
        glob ← glob_new candidate;
        globs ← add_globs (candidate :: seen) rest;
        Some (glob :: globs)
  end.

(** [None]: an invalid pattern, or a set that cannot be built. *)
Definition compile_globset (patterns : list str) : option GlobSet :=
  globs ← add_globs [] (patterns ≫= λ p, expand_domain_pattern (normalize_pattern p));
  globset_build globs.

Definition parse_domain_for_constraints (domain : str) : str :=
  let domain := trim_end_matches is_dot (trim domain) in
  if bool_decide (domain = []) then []
  else
    let host :=
      match domain with
      | c :: rest =>
          if bool_decide (c = LBRACKET ∧ last domain = Some RBRACKET)
          then removelast rest else domain
      | [] => domain
      end in
    if existsb (λ c, bool_decide (c = STAR) || bool_decide (c = QUESTION)
                     || bool_decide (c = PERCENT)) host
    then domain
    else default [] (url_host host).

Definition parse_for_constraints (input : str) : DomainPattern :=
  let input := trim input in
  if bool_decide (input = []) then Exact []
  else if bool_decide (input = §"*") then Any
  else
    match strip_prefix (§"**.") input with
    | Some domain => ApexAndSubdomains (parse_domain_for_constraints domain)
    | None =>
        match strip_prefix (§"*.") input with
        | Some domain => SubdomainsOnly (parse_domain_for_constraints domain)
        | None => Exact (parse_domain_for_constraints input)
        end
    end.
End Patterns.

(** * Correctness *)
(** ** Patterns as sets of hosts *)
(** The hosts a pattern stands for. *)
Definition dom_matches (p : DomainPattern) (host : str) : bool :=
  match p with
  | Any => true
  | Exact d => domain_eq host d
  | SubdomainsOnly d => is_strict_subdomain host d
  | ApexAndSubdomains d => is_subdomain_or_equal host d
  end.

(** [child] is [parent] with labels in front. *)
Definition under (child parent : str) : Prop := ∃ r, child = r ++ DOT :: parent.

Lemma under_longer child parent : under child parent → length parent < length child.
Proof. intros [r ->]. rewrite length_app. cbn. lia. Qed.
Lemma under_trans a b c : under a b → under b c → under a c.
Proof. intros [r ->] [r' ->]. exists (r ++ DOT :: r'). by rewrite <-app_assoc. Qed.

Lemma domain_eq_true a b : domain_eq a b = true ↔ normalize_domain a = normalize_domain b.
Proof. apply bool_decide_eq_true. Qed.
Lemma is_strict_subdomain_true a b :
  is_strict_subdomain a b = true ↔ under (normalize_domain a) (normalize_domain b).
Proof.
  unfold is_strict_subdomain. rewrite andb_true_iff, negb_true_iff, bool_decide_eq_false, ends_with_true.
  split; [by intros [_ ?]|]. intros Hu. split; [|done]. intros E. apply under_longer in Hu. rewrite E in Hu. lia.
Qed.
Lemma is_subdomain_or_equal_true a b :
  is_subdomain_or_equal a b = true ↔
  normalize_domain a = normalize_domain b ∨ under (normalize_domain a) (normalize_domain b).
Proof.
  unfold is_subdomain_or_equal. case_bool_decide as E; [split; [by left|done]|].
  rewrite ends_with_true. split; [by right|]. intros [?|?]; done.
Qed.

Create HintDb hosts.
#[export] Hint Rewrite domain_eq_true is_strict_subdomain_true is_subdomain_or_equal_true : hosts.
#[export] Hint Resolve under_trans : hosts.

(** A host one label below a domain. *)
Definition below (d : str) : str := 97%N :: DOT :: d.

Definition domain_of (p : DomainPattern) : str :=
  match p with Any => [] | Exact d | SubdomainsOnly d | ApexAndSubdomains d => d end.

(** Domains in normal form. *)
Definition normal (d : str) : Prop := to_ascii_lowercase d = d ∧ last d ≠ Some DOT.

Lemma ascii_lower_idemp c : ascii_lower (ascii_lower c) = ascii_lower c.
Proof.
  unfold ascii_lower. destruct ((65 <=? c)%N && (c <=? 90)%N) eqn:E; [|by rewrite E].
  bool_tac. rewrite N.leb_le in *. destruct ((65 <=? c + 32)%N && (c + 32 <=? 90)%N) eqn:E; [|done].
  bool_tac. rewrite N.leb_le in *. lia.
Qed.
Lemma ascii_lower_dot c : ascii_lower c = DOT ↔ c = DOT.
Proof.
  unfold ascii_lower, DOT. destruct ((65 <=? c)%N && (c <=? 90)%N) eqn:E; [|done].
  bool_tac. rewrite N.leb_le in *. lia.
Qed.
Lemma lower_idemp s : to_ascii_lowercase (to_ascii_lowercase s) = to_ascii_lowercase s.
Proof. induction s as [|c s IH]; [done|]. cbn. f_equal; [apply ascii_lower_idemp|exact IH]. Qed.
Lemma lower_last s : last (to_ascii_lowercase s) = Some DOT ↔ last s = Some DOT.
Proof.
  unfold to_ascii_lowercase. rewrite fmap_last. destruct (last s) as [c|]; cbn; [|done].
  split; intros [= E]; f_equal; [by apply ascii_lower_dot|by subst].
Qed.

Lemma trim_end_matches_last p s c : last (trim_end_matches p s) = Some c → p c = false.
Proof. unfold trim_end_matches. rewrite <-head_reverse, reverse_involutive. apply drop_while_head. Qed.
Lemma trim_end_matches_id p s : (∀ c, last s = Some c → p c = false) → trim_end_matches p s = s.
Proof.
  intros Hl. unfold trim_end_matches. rewrite drop_while_skip; [apply reverse_involutive|].
  intros c Hc. apply Hl. by rewrite <-head_reverse.
Qed.

Lemma normalize_domain_normal d : normal (normalize_domain d).
Proof.
  unfold normal, normalize_domain. split; [apply lower_idemp|]. rewrite lower_last.
  intros Hl. by apply trim_end_matches_last in Hl.
Qed.
Lemma normalize_domain_id d : normal d → normalize_domain d = d.
Proof.
  intros [Hl Hd]. unfold normalize_domain. rewrite trim_end_matches_id; [done|].
  intros c Hc. unfold is_dot. rewrite bool_decide_eq_false. congruence.
Qed.
Lemma below_normal d : normal d → d ≠ [] → normal (below d).
Proof.
  intros [Hl Hd] Hne. split; [unfold to_ascii_lowercase in *; cbn; by rewrite Hl|]. unfold below.
  by destruct d.
Qed.

(** A host one label below [c] is below [d] only when [c] is [d] or below it. *)
Lemma below_under c d : under (below c) d → c = d ∨ under c d.
Proof.
  intros [r E]. destruct r as [|x [|y r]]; cbn in E; unfold below, DOT in *; simplify_eq; [by left|].
  right. by exists r.
Qed.
Lemma below_ne c d : normal c → c ≠ [] → below c = d → under d c.
Proof. intros _ _ <-. by exists [97%N]. Qed.

(** [allows] is inclusion: it never admits a pattern with a host outside, and it
    admits every pattern without one. *)
Lemma allows_sound managed candidate h :
  allows managed candidate = true → dom_matches candidate h = true → dom_matches managed h = true.
Proof.
  destruct managed, candidate; cbn; autorewrite with hosts; try done; intros; destruct_or?;
    try congruence; eauto using under_trans;
    repeat match goal with E : normalize_domain _ = _ |- _ => rewrite <-E in *; clear E end;
    repeat match goal with E : _ = normalize_domain _ |- _ => rewrite E in *; clear E end;
    eauto using under_trans.
Qed.

Lemma matches_normal p h :
  normal h → dom_matches p h = true ↔
  match p with
  | Any => True
  | Exact d => h = normalize_domain d
  | SubdomainsOnly d => under h (normalize_domain d)
  | ApexAndSubdomains d => h = normalize_domain d ∨ under h (normalize_domain d)
  end.
Proof. intros Hh. destruct p; cbn; autorewrite with hosts; rewrite ?(normalize_domain_id h) by done; done. Qed.

(** Two hosts of one label, and two hosts one label below a domain. *)
Lemma one_label c : c ≠ DOT → ascii_lower c = c → normal [c].
Proof. intros Hc Hl. split; [unfold to_ascii_lowercase; cbn; by rewrite Hl|]. cbn. congruence. Qed.
Lemma not_under_one c d : ¬ under [c] d ∨ c = DOT.
Proof. destruct (decide (c = DOT)); [by right|left]. intros [[|x [|y r]] E]; cbn in E; by simplify_eq. Qed.
Definition below' (d : str) : str := 98%N :: DOT :: d.
Lemma below'_normal d : normal d → d ≠ [] → normal (below' d).
Proof.
  intros [Hl Hd] Hne. split; [unfold to_ascii_lowercase in *; cbn; by rewrite Hl|]. unfold below'.
  by destruct d.
Qed.

Lemma includes_any managed :
  (∀ h, normal h → dom_matches managed h = true) → managed = Any.
Proof.
  intros Hincl. assert (normal [97%N] ∧ normal [98%N]) as [H1 H2] by by split; apply one_label.
  apply Hincl in H1 as M1, H2 as M2. apply matches_normal in M1, M2; [|done..].
  destruct (not_under_one 97%N (normalize_domain (domain_of managed))) as [N1|]; [|done].
  destruct (not_under_one 98%N (normalize_domain (domain_of managed))) as [N2|]; [|done].
  destruct managed; cbn in *; destruct_or?; congruence || done.
Qed.

Lemma allows_complete managed candidate :
  (candidate = Any ∨ normalize_domain (domain_of candidate) ≠ []) →
  (∀ h, normal h → dom_matches candidate h = true → dom_matches managed h = true) →
  allows managed candidate = true.
Proof.
  intros Hc Hincl.
  assert (candidate = Any → managed = Any) as Hany by (intros ->; by apply includes_any; auto).
  set (nc := normalize_domain (domain_of candidate)) in *.
  assert (normal nc) as Hn by apply normalize_domain_normal.
  assert (candidate ≠ Any → nc ≠ []) as Hne by naive_solver.
  assert (∀ h, normal h → dom_matches candidate h = true → dom_matches managed h = true) as Hi by done.
  destruct candidate as [|c|c|c]; [by rewrite Hany by done|..]; cbn in nc; fold nc in Hincl;
    specialize (Hne ltac:(done)); pose proof (below_normal _ Hn Hne) as Hb1;
    pose proof (below'_normal _ Hn Hne) as Hb2.
  - (* the domain and what is below *)
    assert (dom_matches managed nc = true) as M by (apply Hi; [done|]; apply matches_normal; [done|by left]).
    assert (dom_matches managed (below nc) = true) as M'.
    { apply Hi; [done|]. apply matches_normal; [done|]. right. by exists [97%N]. }
    apply matches_normal in M, M'; [|done..].
    destruct managed as [|d|d|d]; cbn; autorewrite with hosts; fold nc; try done.
    exfalso. assert (length (below nc) = length nc) as E by congruence. cbn in E. lia.
  - (* only what is below *)
    assert (dom_matches managed (below nc) = true) as M.
    { apply Hi; [done|]. apply matches_normal; [done|]. by exists [97%N]. }
    assert (dom_matches managed (below' nc) = true) as M'.
    { apply Hi; [done|]. apply matches_normal; [done|]. by exists [98%N]. }
    apply matches_normal in M, M'; [|done..].
    destruct managed as [|d|d|d]; cbn; autorewrite with hosts; fold nc; try done.
    + destruct M as [M|M]; [|by apply below_under]. exfalso. destruct M' as [M'|M'].
      * rewrite <-M' in M. discriminate M.
      * apply under_longer in M'. rewrite <-M in M'. cbn in M'. lia.
    + by apply below_under.
    + exfalso. assert (below nc = below' nc) as E by congruence. discriminate E.
  - (* the domain *)
    assert (dom_matches managed nc = true) as M by (apply Hi; [done|]; by apply matches_normal).
    apply matches_normal in M; [|done].
    destruct managed as [|d|d|d]; cbn; autorewrite with hosts; by fold nc.
Qed.

(** Comparing with a managed pattern is inclusion of the hosts: a pattern is
    allowed under a managed one exactly when every host it stands for is one the
    managed pattern stands for. *)
Theorem allows_spec managed candidate :
  candidate = Any ∨ normalize_domain (domain_of candidate) ≠ [] →
  allows managed candidate = true ↔
  ∀ h, normal h → dom_matches candidate h = true → dom_matches managed h = true.
Proof.
  intros Hc. split; [intros Ha h _; by apply allows_sound|by apply allows_complete].
Qed.

Lemma allows_spec_witness :
  let managed := DomainPattern_parse (§"*.example.com") in
  let candidate := DomainPattern_parse (§"**.API.example.com.") in
  normalize_domain (domain_of candidate) = §"api.example.com" ∧ allows managed candidate = true ∧
  (normal (§"x.api.example.com") → dom_matches managed (§"x.api.example.com") = true).
Proof.
  intros managed candidate.
  assert (allows managed candidate = true) as Ha by by vm_compute.
  assert (normalize_domain (domain_of candidate) ≠ []) as Hne by (vm_compute; discriminate).
  assert (dom_matches candidate (§"x.api.example.com") = true) as Hm by by vm_compute.
  split; [by vm_compute|]. split; [exact Ha|]. intros Hn.
  exact (proj1 (allows_spec managed candidate (or_intror Hne)) Ha _ Hn Hm).
Defined.

(** ** Lists of patterns as sets of hosts *)
Definition is_ascii_alnum (c : char) : bool :=
  is_ascii_digit c || ((65 <=? c) && (c <=? 90))%N || ((97 <=? c) && (c <=? 122))%N.
(** Characters without a meaning in a glob, an address or a port. *)
Definition plain_char (c : char) : bool :=
  is_ascii_alnum c || bool_decide (c = MINUS) || bool_decide (c = DOT).
Definition plain (s : str) : Prop := Forall (λ c, plain_char c = true) s.
Definition ascii (s : str) : Prop := Forall (λ c, (c <? 128)%N = true) s.

(** What [globset] documents of the patterns in use. *)
Class GlobLaws (L : GlobLib) := {
  glob_literal p g h :
    plain p → ascii h → glob_new p = Some g → glob_match g h = eq_ignore_ascii_case p h;
  glob_below p g h :
    plain p → ascii h → glob_new (§"?*." ++ p) = Some g →
    glob_match g h = true ↔
    ∃ x y, x ≠ [] ∧ h = x ++ DOT :: y ∧ eq_ignore_ascii_case p y = true;
  glob_star g h : ascii h → glob_new (§"*") = Some g → glob_match g h = true;
  globset_any gs s h :
    globset_build gs = Some s → is_match s h = existsb (λ g, glob_match g h) gs;
}.

(** The entries of a list that the theorems are about: [*], or a domain of plain
    characters, perhaps behind [*.] or [**.]. *)
Definition plain_entry (e : str) : Prop :=
  trim e = §"*" ∨
  ∃ prefix d, trim e = prefix ++ d ∧ prefix ∈ [§"**."; §"*."; []] ∧ plain d ∧ normalize_domain d ≠ [].

(** Hosts as [Host::parse] gives them. *)
Definition plain_host (h : str) : Prop := normal h ∧ ascii h ∧ head h ≠ Some DOT.

Lemma plain_char_cases c :
  plain_char c = true →
  is_whitespace c = false ∧ c ≠ STAR ∧ c ≠ COLON ∧ c ≠ LBRACKET ∧ c ≠ RBRACKET ∧ c ≠ QUESTION ∧ c ≠ PERCENT.
Proof.
  intros Hc.
  assert (c = 45 ∨ c = 46 ∨ 48 ≤ c ≤ 57 ∨ 65 ≤ c ≤ 90 ∨ 97 ≤ c ≤ 122)%N as Hr.
  { unfold plain_char, is_ascii_alnum, is_ascii_digit, MINUS, DOT in Hc.
    rewrite !orb_true_iff, !andb_true_iff, !bool_decide_eq_true, !N.leb_le in Hc. lia. }
  split; [|unfold STAR, COLON, LBRACKET, RBRACKET, QUESTION, PERCENT; split_and!; lia].
  unfold is_whitespace. rewrite !orb_false_iff, !andb_false_iff, !N.leb_gt, !N.eqb_neq. lia.
Qed.

Lemma plain_lower_char c : plain_char c = true → plain_char (ascii_lower c) = true.
Proof.
  unfold ascii_lower. destruct ((65 <=? c)%N && (c <=? 90)%N) eqn:E; [|done]. intros _.
  bool_tac. rewrite N.leb_le in *. unfold plain_char, is_ascii_alnum, is_ascii_digit.
  rewrite !orb_true_iff, !andb_true_iff, !N.leb_le. lia.
Qed.

Lemma trim_end_matches_prefix p s : ∃ w, s = trim_end_matches p s ++ w ∧ Forall (λ c, p c = true) w.
Proof.
  unfold trim_end_matches. destruct (drop_while_suffix p (reverse s)) as (w & Hw & Hf).
  exists (reverse w). split; [|by apply Forall_reverse].
  rewrite <-reverse_app, <-Hw. by rewrite reverse_involutive.
Qed.

Lemma plain_normalize d : plain d → plain (normalize_domain d).
Proof.
  intros Hd. unfold normalize_domain, to_ascii_lowercase. apply Forall_fmap.
  destruct (trim_end_matches_prefix is_dot d) as (w & Hw & _). rewrite Hw in Hd.
  apply Forall_app in Hd as [Hd _]. eapply Forall_impl; [exact Hd|]. intros c. apply plain_lower_char.
Qed.

Lemma plain_trim d : plain d → trim d = d.
Proof.
  intros Hd. apply trim_id. split; intros c Hc.
  - destruct d as [|x d]; cbn in Hc; simplify_eq. apply Forall_cons in Hd as [Hx _].
    by apply plain_char_cases in Hx as [? _].
  - apply last_Some in Hc as [d' ->]. apply Forall_app in Hd as [_ Hd].
    apply Forall_cons in Hd as [Hx _]. by apply plain_char_cases in Hx as [? _].
Qed.

(** *** Plain entries, normalised and expanded *)
Lemma plain_app s t : plain (s ++ t) ↔ plain s ∧ plain t.
Proof. apply Forall_app. Qed.

Lemma whitespace_lower c : is_whitespace (ascii_lower c) = is_whitespace c.
Proof.
  unfold ascii_lower. destruct ((65 <=? c)%N && (c <=? 90)%N) eqn:E; [|done].
  bool_tac. rewrite N.leb_le in *. unfold is_whitespace.
  apply eq_true_iff_eq. rewrite !orb_true_iff, !andb_true_iff, !N.leb_le, !N.eqb_eq. lia.
Qed.

Lemma drop_while_lower p s :
  (∀ c, p (ascii_lower c) = p c) →
  drop_while p (to_ascii_lowercase s) = to_ascii_lowercase (drop_while p s).
Proof.
  intros Hp. induction s as [|c s IH]; [done|]. cbn. rewrite Hp. by destruct (p c).
Qed.

Lemma trim_lower s : trim (to_ascii_lowercase s) = to_ascii_lowercase (trim s).
Proof.
  unfold trim, trim_end, trim_start, to_ascii_lowercase.
  rewrite drop_while_lower by apply whitespace_lower. unfold to_ascii_lowercase.
  rewrite <-fmap_reverse, drop_while_lower by apply whitespace_lower. unfold to_ascii_lowercase.
  by rewrite fmap_reverse.
Qed.

Lemma drop_while_dots_lower l :
  drop_while is_dot (ascii_lower <$> l) = ascii_lower <$> drop_while is_dot l.
Proof. apply (drop_while_lower is_dot). intros c. apply bool_decide_ext, ascii_lower_dot. Qed.

Lemma normalize_dns_host_eq d : normalize_dns_host d = normalize_domain d.
Proof.
  unfold normalize_dns_host, normalize_domain, trim_end_matches, to_ascii_lowercase.
  by rewrite <-fmap_reverse, drop_while_dots_lower, fmap_reverse.
Qed.

Lemma plain_no_colon d : plain d → filter (λ c, c = COLON) d = [].
Proof.
  intros Hd. apply filter_none. eapply Forall_impl; [exact Hd|]. intros c Hc. cbn.
  by apply plain_char_cases in Hc as (_ & _ & ? & _).
Qed.

Lemma normalize_host_plain d : plain d → normalize_host d = normalize_domain d.
Proof.
  intros Hd. unfold normalize_host. rewrite !normalize_dns_host_eq, plain_trim by done.
  destruct d as [|c d]; [done|]. rewrite plain_no_colon by done. cbn [length].
  rewrite (bool_decide_false (c = LBRACKET ∧ RBRACKET ∈ d)).
  - by rewrite bool_decide_false by lia.
  - intros [-> _]. by apply Forall_cons in Hd as [? _].
Qed.

Lemma plain_no_star d : plain d → d ≠ [] → strip_prefix (§"**.") d = None ∧ strip_prefix (§"*.") d = None ∧ d ≠ §"*".
Proof.
  intros Hd Hne. destruct d as [|c d]; [done|]. apply Forall_cons in Hd as [Hc _].
  apply plain_char_cases in Hc as (_ & Hc & _). unfold STAR in Hc.
  change (§"**.") with [42; 42; 46]%N. change (§"*.") with [42; 46]%N. change (§"*") with [42]%N.
  cbn [strip_prefix]. rewrite !decide_False by congruence. split_and!; congruence.
Qed.


Lemma trimmed_plain_tail p d : plain d → d ≠ [] → trimmed (STAR :: p ++ d).
Proof.
  intros Hd Hne. split; intros c Hc; [by cbn in Hc; simplify_eq|].
  destruct d as [|x d _] using rev_ind; [done|].
  change (STAR :: p ++ d ++ [x]) with ((STAR :: p) ++ d ++ [x]) in Hc.
  rewrite (assoc_L (++)), last_snoc in Hc. simplify_eq.
  apply plain_app in Hd as [_ Hd]. apply Forall_cons in Hd as [Hx _].
  by apply plain_char_cases in Hx as [? _].
Qed.

(** The globs of an entry. *)
Definition entry_globs (e : str) : list str := expand_domain_pattern (normalize_pattern e).

Lemma parse_prefixed (p : str) (build : str → DomainPattern) d :
  (p = §"**." ∧ build = ApexAndSubdomains ∨ p = §"*." ∧ build = SubdomainsOnly ∨ p = [] ∧ build = Exact) →
  plain d → d ≠ [] → DomainPattern_parse (p ++ d) = build d.
Proof.
  intros Hp Hd Hne. destruct (plain_no_star d Hd Hne) as (H1 & H2 & H3).
  unfold DomainPattern_parse.
  assert (trim (p ++ d) = p ++ d) as ->.
  { destruct Hp as [[-> _]|[[-> _]|[-> _]]]; [..|by apply plain_trim]; apply trim_id.
    - by apply (trimmed_plain_tail [42; 46]%N).
    - by apply (trimmed_plain_tail [46]%N). }
  rewrite (bool_decide_false (p ++ d = [])) by (by destruct p).
  rewrite bool_decide_false.
  - destruct Hp as [[-> ->]|[[-> ->]|[-> ->]]]; rewrite ?strip_prefix_app.
    + unfold parse_domain. by rewrite plain_trim, bool_decide_false.
    + cbn [strip_prefix]. unfold parse_domain.
      assert (strip_prefix (§"**.") (§"*." ++ d) = None) as -> by done.
      by rewrite plain_trim, bool_decide_false.
    + cbn [app]. by rewrite H1, H2.
  - destruct Hp as [[-> _]|[[-> _]|[-> _]]]; done.
Qed.

Definition shape (p : str) (build : str → DomainPattern) : Prop :=
  p = §"**." ∧ build = ApexAndSubdomains ∨ p = §"*." ∧ build = SubdomainsOnly ∨ p = [] ∧ build = Exact.

Lemma plain_entry_shape e :
  plain_entry e →
  trim e = §"*" ∨ ∃ p build d, shape p build ∧ trim e = p ++ d ∧ plain d ∧ normalize_domain d ≠ [].
Proof.
  intros [?|(p & d & He & Hp & Hd & Hn)]; [by left|right]. unfold shape.
  rewrite !elem_of_cons, elem_of_nil in Hp.
  destruct Hp as [->|[->|[->|[]]]].
  - exists (§"**."), ApexAndSubdomains, d. by split_and!; [left|..].
  - exists (§"*."), SubdomainsOnly, d. by split_and!; [right; left|..].
  - exists [], Exact, d. by split_and!; [right; right|..].
Qed.

Lemma normalize_domain_nil : normalize_domain [] = [].
Proof. done. Qed.

Lemma parse_entry p build d e :
  shape p build → trim e = p ++ d → plain d → normalize_domain d ≠ [] →
  DomainPattern_parse e = build d ∧ normalize_pattern e = p ++ normalize_domain d.
Proof.
  intros Hs He Hd Hn. assert (d ≠ []) as Hne by (by intros ->).
  assert (DomainPattern_parse e = DomainPattern_parse (p ++ d)) as ->.
  { unfold DomainPattern_parse at 1. rewrite He. unfold DomainPattern_parse.
    by rewrite <-He, trim_idemp, He. }
  split; [by apply parse_prefixed|]. destruct (plain_no_star d Hd Hne) as (H1 & H2 & H3).
  unfold normalize_pattern. rewrite He, bool_decide_false.
  - destruct Hs as [[-> ->]|[[-> ->]|[-> ->]]]; rewrite ?strip_prefix_app; cbn [app].
    + by rewrite normalize_host_plain.
    + assert (strip_prefix (§"**.") (§"*." ++ d) = None) as -> by done. by rewrite normalize_host_plain.
    + by rewrite H1, H2, normalize_host_plain.
  - destruct Hs as [[-> _]|[[-> _]|[-> _]]]; done.
Qed.

Lemma normalize_domain_idemp d : normalize_domain (normalize_domain d) = normalize_domain d.
Proof. apply normalize_domain_id, normalize_domain_normal. Qed.

Lemma plain_ascii d : plain d → ascii d.
Proof.
  intros Hd. eapply Forall_impl; [exact Hd|]. intros c Hc. cbn.
  unfold plain_char, is_ascii_alnum, is_ascii_digit, MINUS, DOT in Hc.
  rewrite !orb_true_iff, !andb_true_iff, !bool_decide_eq_true, !N.leb_le in Hc. apply N.ltb_lt. lia.
Qed.

Section Globs.
Context `{Laws : GlobLaws}.

Definition glob_matches (c h : str) : Prop := ∃ g, glob_new c = Some g ∧ glob_match g h = true.

Lemma literal_matches d h :
  plain d → plain_host h → is_Some (glob_new (normalize_domain d)) →
  glob_matches (normalize_domain d) h ↔ h = normalize_domain d.
Proof.
  intros Hd ([Hl _] & Ha & _) [g Hg]. unfold glob_matches. rewrite Hg.
  pose proof (glob_literal _ g h (plain_normalize d Hd) Ha Hg) as Hm.
  unfold eq_ignore_ascii_case in Hm. rewrite Hl in Hm.
  destruct (normalize_domain_normal d) as [Hn _]. rewrite Hn in Hm. split.
  - intros (g' & [= <-] & E). rewrite Hm in E. by apply bool_decide_eq_true in E.
  - intros E. exists g. split; [done|]. rewrite Hm. by apply bool_decide_eq_true.
Qed.

Lemma below_matches d h :
  plain d → plain_host h → is_Some (glob_new (§"?*." ++ normalize_domain d)) →
  glob_matches (§"?*." ++ normalize_domain d) h ↔ under h (normalize_domain d).
Proof.
  intros Hd ([Hl Hdot] & Ha & Hh) [g Hg]. unfold glob_matches. rewrite Hg.
  pose proof (glob_below _ g h (plain_normalize d Hd) Ha Hg) as Hm.
  destruct (normalize_domain_normal d) as [Hn _]. unfold eq_ignore_ascii_case in Hm. split.
  - intros (g' & [= <-] & (x & y & _ & -> & Hy)%Hm). apply bool_decide_eq_true in Hy.
    rewrite Hn in Hy. exists x. f_equal. f_equal. unfold to_ascii_lowercase in *.
    rewrite fmap_app in Hl. cbn in Hl.
    apply app_inj_1 in Hl as [_ Hl]; [|by rewrite length_fmap]. injection Hl as Hl. congruence.
  - intros [r ->]. exists g. split; [done|]. apply Hm. exists r, (normalize_domain d).
    split_and!; [by intros ->|done|]. by apply bool_decide_eq_true.
Qed.

(** An entry's globs match the hosts its pattern stands for. *)
Lemma entry_globs_match e h :
  plain_entry e → plain_host h → (∀ c, c ∈ entry_globs e → is_Some (glob_new c)) →
  (∃ c, c ∈ entry_globs e ∧ glob_matches c h) ↔ dom_matches (DomainPattern_parse e) h = true.
Proof.
  intros He Hh Hnew. pose proof Hh as (Hnorm & Ha & Hdot). unfold entry_globs in *.
  destruct (plain_entry_shape e He) as [Et|(p & build & d & Hs & Et & Hd & Hn)].
  - assert (DomainPattern_parse e = Any) as -> by (unfold DomainPattern_parse; by rewrite Et).
    assert (normalize_pattern e = §"*") as Ep by (unfold normalize_pattern; by rewrite Et).
    rewrite Ep in *. change (expand_domain_pattern (§"*")) with [§"*"] in *. split; [done|]. intros _.
    destruct (Hnew (§"*")) as [g Hg]; [by left|]. exists (§"*"). split; [by left|]. exists g.
    split; [done|]. by apply glob_star.
  - destruct (parse_entry p build d e Hs Et Hd Hn) as [-> Ep]. rewrite Ep in *.
    unfold expand_domain_pattern in *.
    rewrite (parse_prefixed p build (normalize_domain d)) in * by (done || by apply plain_normalize).
    rewrite matches_normal by done.
    rewrite <-Exists_exists. destruct Hs as [[-> ->]|[[-> ->]|[-> ->]]]; rewrite !Exists_cons, Exists_nil.
    + rewrite literal_matches, below_matches by (done || apply Hnew; rewrite ?elem_of_cons; tauto). tauto.
    + rewrite below_matches by (done || apply Hnew; rewrite ?elem_of_cons; tauto). tauto.
    + rewrite literal_matches by (done || apply Hnew; rewrite ?elem_of_cons; tauto). tauto.
Qed.

(** The loop over the candidates keeps one glob of each. *)
Lemma add_globs_spec seen cs gs h :
  add_globs seen cs = Some gs →
  (∀ c, c ∈ cs → c ∉ seen → is_Some (glob_new c)) ∧
  (existsb (λ g, glob_match g h) gs = true ↔ ∃ c, c ∈ cs ∧ c ∉ seen ∧ glob_matches c h).
Proof.
  revert seen gs. induction cs as [|c cs IH]; intros seen gs; cbn [add_globs].
  { intros [= <-]. split; [by intros c ?%elem_of_nil|]. split; [done|]. by intros (c & ?%elem_of_nil & _). }
  case_bool_decide as Hc.
  - intros [H1 H2]%IH. split.
    + intros c' [->|?]%elem_of_cons; [done|]. by apply H1.
    + rewrite H2. split; [intros (c' & ? & ?); exists c'; by split; [right|]|].
      intros (c' & [->|?]%elem_of_cons & ? & ?); [done|eauto].
  - intros (g & Hg & H)%bind_Some. apply bind_Some in H as (gs' & [H1 H2]%IH & [= <-]).
    split.
    + intros c' [->|?]%elem_of_cons ?; [eauto|]. destruct (decide (c' = c)) as [->|]; [eauto|].
      apply H1; [done|]. by rewrite not_elem_of_cons.
    + cbn [existsb]. rewrite orb_true_iff, H2. unfold glob_matches. split.
      * intros [?|(c' & ? & [? ?]%not_elem_of_cons & ?)];
          [exists c; split_and!; [by left|done|by exists g]|exists c'; by split_and!; [right|..]].
      * intros (c' & Hin & ? & ?). destruct (decide (c' = c)) as [->|]; [left; naive_solver|].
        right. exists c'. apply elem_of_cons in Hin as [->|?]; [done|]. by rewrite not_elem_of_cons.
Qed.

Lemma compile_globset_matches entries s h :
  Forall plain_entry entries → plain_host h → compile_globset entries = Some s →
  is_match s h = true ↔ ∃ e, e ∈ entries ∧ dom_matches (DomainPattern_parse e) h = true.
Proof.
  intros He Hh (gs & Hgs & Hs)%bind_Some. rewrite (globset_any gs s h Hs).
  destruct (add_globs_spec _ _ _ h Hgs) as [H1 H2]. rewrite H2, Forall_forall in *. split.
  - intros (c & (e & Hc & Hin)%list_elem_of_bind & _ & Hm). exists e. split; [done|].
    apply entry_globs_match; [by apply He|done| |by exists c].
    intros c' Hc'. apply H1; [|by apply not_elem_of_nil]. apply list_elem_of_bind. by exists e.
  - intros (e & Hin & Hm). apply entry_globs_match in Hm as (c & Hc & Hm); [|by apply He|done|].
    + exists c. split_and!; [|by apply not_elem_of_nil|done]. apply list_elem_of_bind. by exists e.
    + intros c' Hc'. apply H1; [|by apply not_elem_of_nil]. apply list_elem_of_bind. by exists e.
Qed.

(** The list of patterns means what it documents: for plain entries the
    compiled set matches a host exactly when the host is named by an entry, is a
    strict subdomain of a [*.] entry, is the apex or a subdomain of a [**.] entry,
    or there is an entry [*]. *)
Theorem compile_globset_spec entries s h :
  Forall plain_entry entries → plain_host h → compile_globset entries = Some s →
  is_match s h = existsb (λ e, dom_matches (DomainPattern_parse e) h) entries.
Proof.
  intros He Hh Hs. apply eq_true_iff_eq. rewrite (compile_globset_matches entries s h He Hh Hs).
  rewrite existsb_exists. by setoid_rewrite list_elem_of_In.
Qed.
End Globs.

(** ** The laws have a model: globs of [?], [*] and literal characters *)
Fixpoint gmatch (p h : str) {struct p} : bool :=
  match p with
  | [] => bool_decide (h = [])
  | c :: p' =>
      if bool_decide (c = STAR) then
        (fix star (h : str) : bool :=
           gmatch p' h || match h with [] => false | _ :: h' => star h' end) h
      else
        match h with
        | [] => false
        | x :: h' =>
            (bool_decide (c = QUESTION) || bool_decide (ascii_lower c = ascii_lower x)) && gmatch p' h'
        end
  end.

#[local] Instance simple_globs : GlobLib := {|
  Glob := str; GlobSet := list str; glob_new := Some; glob_match := gmatch;
  globset_build := Some; is_match s h := existsb (λ g, gmatch g h) s |}.

Lemma gmatch_star p h : gmatch (STAR :: p) h = true ↔ ∃ x y, h = x ++ y ∧ gmatch p y = true.
Proof.
  induction h as [|c h IH].
  - cbn. rewrite orb_false_r. split; [by exists [], []|]. by intros (x & y & [-> ->]%eq_sym%app_nil & ?).
  - change (gmatch (STAR :: p) (c :: h)) with (gmatch p (c :: h) || gmatch (STAR :: p) h).
    rewrite orb_true_iff, IH. split.
    + intros [?|(x & y & -> & ?)]; [by exists [], (c :: h)|by exists (c :: x), y].
    + intros ([|x1 x] & y & E & ?); cbn in E; [left; by subst|]. simplify_eq. right. by exists x, y.
Qed.

Lemma gmatch_literal p h : plain p → gmatch p h = eq_ignore_ascii_case p h.
Proof.
  intros Hp. revert h. induction p as [|c p IH]; intros h.
  { unfold eq_ignore_ascii_case. by destruct h. }
  apply Forall_cons in Hp as [Hc Hp]. apply plain_char_cases in Hc as (_ & H1 & _ & _ & _ & H2 & _).
  cbn [gmatch]. rewrite (bool_decide_false (c = STAR)), (bool_decide_false (c = QUESTION)) by done.
  unfold eq_ignore_ascii_case in *. destruct h as [|x h]; [done|]. rewrite IH by done.
  apply eq_true_iff_eq. cbn [orb]. rewrite andb_true_iff, !bool_decide_eq_true. cbn.
  unfold to_ascii_lowercase. split; [by intros [-> ->]|by intros [= -> ->]].
Qed.

#[local] Instance simple_glob_laws : GlobLaws simple_globs.
Proof.
  split.
  - intros p g h Hp _ [= <-]. by apply gmatch_literal.
  - intros p g h Hp _ [= <-]. transitivity (gmatch (QUESTION :: STAR :: DOT :: p) h = true); [done|].
    destruct h as [|x h].
    { split; [done|]. by intros ([|? ?] & y & _ & ? & _). }
    transitivity (gmatch (STAR :: DOT :: p) h = true); [done|].
    rewrite gmatch_star. split.
    + intros (a & [|b y] & -> & Hm); [done|]. cbn in Hm. apply andb_true_iff in Hm as [Hb Hm].
      apply bool_decide_eq_true in Hb. symmetry in Hb. apply ascii_lower_dot in Hb as ->.
      exists (x :: a), y. rewrite <-gmatch_literal by done. done.
    + intros ([|x' a] & y & Ha & E & Hy); [done|]. cbn in E. simplify_eq. exists a, (DOT :: y).
      split; [done|]. transitivity (gmatch p y); [done|]. by rewrite gmatch_literal.
  - intros g h _ [= <-]. apply gmatch_star. exists h, []. by rewrite app_nil_r.
  - by intros gs s h [= <-].
Qed.

Lemma compile_globset_spec_witness :
  let entries := [§" **.Example.COM. "; §"*.corp.net"; §"host1"] in
  Forall plain_entry entries ∧ plain_host (§"api.example.com") ∧
  ∃ s, compile_globset entries = Some s ∧ is_match s (§"api.example.com") = true ∧
       is_match s (§"corp.net") = false.
Proof.
  intros entries.
  assert (Forall plain_entry entries) as He.
  { unfold entries. rewrite !Forall_cons, Forall_nil. split_and!; [..|done]; right.
    - exists (§"**."), (§"Example.COM."). split_and!; [by vm_compute|by left|by repeat constructor|by vm_compute].
    - exists (§"*."), (§"corp.net"). split_and!; [by vm_compute|by right; left|by repeat constructor|by vm_compute].
    - exists [], (§"host1"). split_and!; [by vm_compute|by right; right; left|by repeat constructor|by vm_compute]. }
  assert (∀ h, h ∈ [§"api.example.com"; §"corp.net"] → plain_host h) as Hh.
  { intros h [->|[->|?%elem_of_nil]%elem_of_cons]%elem_of_cons; [..|done];
      (split_and!; [split; by vm_compute|by repeat constructor|by vm_compute]). }
  split; [exact He|]. split; [apply Hh; by left|].
  destruct (compile_globset entries) as [s|] eqn:Es; [|by vm_compute in Es].
  exists s. split; [done|].
  rewrite !(compile_globset_spec entries s) by (done || apply Hh; rewrite ?elem_of_cons; tauto).
  by vm_compute.
Defined.
