(* ===== verification/ProxyConfig.v ===== *)
(** * Configuration of the network proxy ([network-proxy/src/config.rs], the
    constraints of [network-proxy/src/state.rs])

    The settings, the addresses the listeners bind to, the constraints that
    managed layers put on the settings and the check of a configuration against
    them. *)
From S2P Require Import Prelude RustStr NetAddr HostPolicy.
From S2P Require Import Toml ConfigLayers Requirements.
Local Open Scope Z_scope.

(** ** Settings *)
Inductive NetworkMode := Limited | Full.
#[export] Instance NetworkMode_eq : EqDecision NetworkMode.
Proof. solve_decision. Defined.

Definition allows_method (mode : NetworkMode) (method : str) : bool :=
  match mode with Full => true | Limited => one_of method [§"GET"; §"HEAD"; §"OPTIONS"] end.

Record NetworkPolicy := {
  allowed_domains : list str;
  denied_domains : list str;
  allow_unix_sockets : list str;
  allow_local_binding : bool;
}.

Record NetworkProxySettings := {
  proxy_enabled : bool;
  proxy_url : str;
  admin_url : str;
  enable_socks5 : bool;
  socks_url : str;
  enable_socks5_udp : bool;
  allow_upstream_proxy : bool;
  dangerously_allow_non_loopback_proxy : bool;
  dangerously_allow_non_loopback_admin : bool;
  mode : NetworkMode;
  policy : NetworkPolicy;
}.
Record NetworkProxyConfig := { network_proxy : NetworkProxySettings }.

Definition default_proxy_url : str := §"http://127.0.0.1:3128".
Definition default_admin_url : str := §"http://127.0.0.1:8080".
Definition default_socks_url : str := §"http://127.0.0.1:8081".
Definition default_policy : NetworkPolicy :=
  {| allowed_domains := []; denied_domains := []; allow_unix_sockets := []; allow_local_binding := false |}.
Definition default_settings : NetworkProxySettings :=
  {| proxy_enabled := false; proxy_url := default_proxy_url; admin_url := default_admin_url;
     enable_socks5 := false; socks_url := default_socks_url; enable_socks5_udp := false;
     allow_upstream_proxy := false; dangerously_allow_non_loopback_proxy := false;
     dangerously_allow_non_loopback_admin := false; mode := Full; policy := default_policy |}.

(** ** Listening addresses *)
Definition LOCALHOST : IpAddr := V4 (octets4 127 0 0 1).
Definition on_localhost (port : Z) : SocketAddr := {| ip_of := LOCALHOST; port_of := port |}.

Definition clamp_non_loopback (addr : SocketAddr) (allow_non_loopback : bool) : SocketAddr :=
  if ip_is_loopback (ip_of addr) then addr
  else if allow_non_loopback then addr
  else on_localhost (port_of addr).

Definition clamp_bind_addrs (http_addr socks_addr admin_addr : SocketAddr) (cfg : NetworkProxySettings)
    : SocketAddr * SocketAddr * SocketAddr :=
  let http_addr := clamp_non_loopback http_addr (dangerously_allow_non_loopback_proxy cfg) in
  let socks_addr := clamp_non_loopback socks_addr (dangerously_allow_non_loopback_proxy cfg) in
  let admin_addr := clamp_non_loopback admin_addr (dangerously_allow_non_loopback_admin cfg) in
  if bool_decide (allow_unix_sockets (policy cfg) = []) then (http_addr, socks_addr, admin_addr)
  else (on_localhost (port_of http_addr), on_localhost (port_of socks_addr),
        on_localhost (port_of admin_addr)).

(** *** Host and port of a URL *)
Definition SocketAddressParts : Type := str * Z.

(** [str::parse::<u16>()]. *)
Definition parse_u16 (s : str) : option Z := parse_uint 65535 s.

(** [s.rsplit_once(c)]. *)
Definition rsplit_once (c : char) (s : str) : option (str * str) :=
  (λ '(a, b), (reverse b, reverse a)) <$> split_once c (reverse s).

Definition missing_host : str := §"missing host in network proxy address: ".

Definition parse_host_port_fallback (input : str) (default_port : Z) : result str SocketAddressParts :=
  let without_scheme := match split_once_str (§"://") input with Some (_, rest) => rest | None => input end in
  let host_port := default without_scheme (head (split_on SLASH without_scheme)) in
  let host_port := match rsplit_once AT host_port with Some (_, rest) => rest | None => host_port end in
  match host_port with
  | [] => Err (missing_host ++ input)
  | c :: rest =>
      match (if bool_decide (c = LBRACKET) then split_once RBRACKET rest else None) with
      | Some (host, after) =>
          let port := default default_port (strip_prefix [COLON] after ≫= parse_u16) in
          if bool_decide (host = []) then Err (missing_host ++ input) else Ok (host, port)
      | None =>
          match (if bool_decide (length (filter (λ c, c = COLON) host_port) = 1%nat)
                 then '(host, port) ← rsplit_once COLON host_port;
                      port ← parse_u16 port; Some (host, port)
                 else None) with
          | Some (host, port) => if bool_decide (host = []) then Err (missing_host ++ input) else Ok (host, port)
          | None => Ok (host_port, default_port)
          end
      end
  end.

Section Addresses.
(** [Url::parse(s)]: [host_str] and [port]. *)
Context (url_parse : str → option (option str * option Z)).

Definition parse_host_port (url : str) (default_port : Z) : result str SocketAddressParts :=
  let trimmed := trim url in
  if bool_decide (trimmed = []) then Err (missing_host ++ url)
  else if (match parse_ip trimmed with Some (V6 _) => true | _ => false end)
          && negb (starts_with trimmed [LBRACKET])
  then Ok (trimmed, default_port)
  else
    let candidate := match split_once_str (§"://") trimmed with
                     | Some _ => trimmed
                     | None => §"http://" ++ trimmed
                     end in
    match url_parse candidate with
    | Some (Some host, port) =>
        let host := trim_matches (λ c, bool_decide (c = LBRACKET ∨ c = RBRACKET)) host in
        if bool_decide (host = []) then Err (missing_host ++ url) else Ok (host, default default_port port)
    | _ => parse_host_port_fallback trimmed default_port
    end.

Definition resolve_addr (url : str) (default_port : Z) : result str SocketAddr :=
  '(host, port) ← parse_host_port url default_port;
  let host := if eq_ignore_ascii_case host (§"localhost") then §"127.0.0.1" else host in
  match parse_ip host with
  | Some ip => Ok {| ip_of := ip; port_of := port |}
  | None => Ok (on_localhost port)
  end.

Record RuntimeConfig := { http_addr : SocketAddr; socks_addr : SocketAddr; admin_addr : SocketAddr }.

Definition resolve_runtime (cfg : NetworkProxyConfig) : result str RuntimeConfig :=
  let s := network_proxy cfg in
  http_addr ← resolve_addr (proxy_url s) 3128;
  socks_addr ← resolve_addr (socks_url s) 8081;
  admin_addr ← resolve_addr (admin_url s) 8080;
  let '(http_addr, socks_addr, admin_addr) := clamp_bind_addrs http_addr socks_addr admin_addr s in
  Ok {| http_addr := http_addr; socks_addr := socks_addr; admin_addr := admin_addr |}.
End Addresses.

(** ** Constraints of managed layers *)
Record PartialNetworkPolicy := {
  p_allowed_domains : option (list str);
  p_denied_domains : option (list str);
  p_allow_unix_sockets : option (list str);
  p_allow_local_binding : option bool;
}.
Record PartialNetworkProxyConfig := {
  p_enabled : option bool;
  p_mode : option NetworkMode;
  p_allow_upstream_proxy : option bool;
  p_dangerously_allow_non_loopback_proxy : option bool;
  p_dangerously_allow_non_loopback_admin : option bool;
  p_policy : PartialNetworkPolicy;
}.

Record NetworkProxyConstraints := {
  c_enabled : option bool;
  c_mode : option NetworkMode;
  c_allow_upstream_proxy : option bool;
  c_dangerously_allow_non_loopback_proxy : option bool;
  c_dangerously_allow_non_loopback_admin : option bool;
  c_allowed_domains : option (list str);
  c_denied_domains : option (list str);
  c_allow_unix_sockets : option (list str);
  c_allow_local_binding : option bool;
}.
#[export] Instance NetworkProxyConstraints_eq : EqDecision NetworkProxyConstraints.
Proof. solve_decision. Defined.

Definition no_constraints : NetworkProxyConstraints :=
  {| c_enabled := None; c_mode := None; c_allow_upstream_proxy := None;
     c_dangerously_allow_non_loopback_proxy := None; c_dangerously_allow_non_loopback_admin := None;
     c_allowed_domains := None; c_denied_domains := None; c_allow_unix_sockets := None;
     c_allow_local_binding := None |}.

Definition is_user_controlled_layer (layer : ConfigLayerSource) : bool :=
  match layer with User _ | Project _ | SessionFlags => true | _ => false end.

(** [if let Some(x) = partial.x { constraints.x = Some(x) }]. *)
Definition overwrite {A} (new old : option A) : option A := match new with Some x => Some x | None => old end.

Definition add_constraints (p : PartialNetworkProxyConfig) (c : NetworkProxyConstraints)
    : NetworkProxyConstraints :=
  {| c_enabled := overwrite (p_enabled p) (c_enabled c);
     c_mode := overwrite (p_mode p) (c_mode c);
     c_allow_upstream_proxy := overwrite (p_allow_upstream_proxy p) (c_allow_upstream_proxy c);
     c_dangerously_allow_non_loopback_proxy :=
       overwrite (p_dangerously_allow_non_loopback_proxy p) (c_dangerously_allow_non_loopback_proxy c);
     c_dangerously_allow_non_loopback_admin :=
       overwrite (p_dangerously_allow_non_loopback_admin p) (c_dangerously_allow_non_loopback_admin c);
     c_allowed_domains := overwrite (p_allowed_domains (p_policy p)) (c_allowed_domains c);
     c_denied_domains := overwrite (p_denied_domains (p_policy p)) (c_denied_domains c);
     c_allow_unix_sockets := overwrite (p_allow_unix_sockets (p_policy p)) (c_allow_unix_sockets c);
     c_allow_local_binding := overwrite (p_allow_local_binding (p_policy p)) (c_allow_local_binding c) |}.

Section Constraints.
Context `{GlobLib} `{UrlLib}.
(** Deserialisation of the [network_proxy] part of a layer, and the [{:?}] of a
    list of strings. *)
Context (partial_of : TomlValue → option PartialNetworkProxyConfig) (show_strings : list str → str).

(** [network_proxy_constraints_from_trusted_layers]: the loop over the enabled
    layers; [None]: a trusted layer that does not deserialise. *)
Fixpoint constraints_loop (layers : list ConfigLayerEntry) (constraints : NetworkProxyConstraints)
    : option NetworkProxyConstraints :=
  match layers with
  | [] => Some constraints
  | layer :: rest =>
      if is_user_controlled_layer (name layer) then constraints_loop rest constraints
      else
        partial ← partial_of (config layer);
        constraints_loop rest (add_constraints partial constraints)
  end.
Definition network_proxy_constraints_from_trusted_layers {R} (layers : ConfigLayerStack R)
    : option NetworkProxyConstraints :=
  constraints_loop (enabled_layers layers) no_constraints.

Definition invalid_value (field_name candidate allowed : str) : ConstraintError :=
  InvalidValue field_name candidate allowed Unknown.

Definition network_mode_rank (mode : NetworkMode) : Z := match mode with Limited => 0 | Full => 1 end.
Definition show_mode (mode : NetworkMode) : str := match mode with Limited => §"Limited" | Full => §"Full" end.

(** The validator of a switch that managed configuration can turn off. *)
Definition off_if (field_name : str) (managed : option bool) (candidate : bool)
    : result ConstraintError unit :=
  match managed with
  | Some false =>
      if candidate
      then Err (invalid_value field_name §"true" §"false (disabled by managed config)") else Ok tt
  | _ => Ok tt
  end.

Definition mode_validator (managed : option NetworkMode) (candidate : NetworkMode)
    : result ConstraintError unit :=
  match managed with
  | Some max_mode =>
      if network_mode_rank max_mode <? network_mode_rank candidate
      then Err (invalid_value §"network_proxy.mode" (show_mode candidate)
                  (show_mode max_mode ++ §" or more restrictive"))
      else Ok tt
  | None => Ok tt
  end.

Definition allowed_validator (managed : option (list str)) (candidate : list str)
    : result ConstraintError unit :=
  match managed with
  | Some allowed_domains =>
      let managed_patterns := parse_for_constraints <$> allowed_domains in
      let invalid :=
        filter (λ entry, existsb (λ managed, allows managed (parse_for_constraints entry))
                           managed_patterns = false) candidate in
      if bool_decide (invalid = []) then Ok tt
      else Err (invalid_value §"network_proxy.policy.allowed_domains" (show_strings invalid)
                  §"subset of managed allowed_domains")
  | None => Ok tt
  end.

Definition denied_validator (managed : option (list str)) (candidate : list str)
    : result ConstraintError unit :=
  match managed with
  | Some denied_domains =>
      let required := to_ascii_lowercase <$> denied_domains in
      let missing := filter (λ entry, entry ∉ to_ascii_lowercase <$> candidate) required in
      if bool_decide (missing = []) then Ok tt
      else Err (invalid_value §"network_proxy.policy.denied_domains"
                  §"missing managed denied_domains entries" (show_strings missing))
  | None => Ok tt
  end.

Definition sockets_validator (managed : option (list str)) (candidate : list str)
    : result ConstraintError unit :=
  match managed with
  | Some allow_unix_sockets =>
      let allowed := to_ascii_lowercase <$> allow_unix_sockets in
      let invalid := filter (λ entry, to_ascii_lowercase entry ∉ allowed) candidate in
      if bool_decide (invalid = []) then Ok tt
      else Err (invalid_value §"network_proxy.policy.allow_unix_sockets" (show_strings invalid)
                  §"subset of managed allow_unix_sockets")
  | None => Ok tt
  end.

(** [let _ = Constrained::new(candidate, validator)?;]. *)
Definition check_value {T} (candidate : T) (validator : T → result ConstraintError unit)
    : result ConstraintError unit :=
  _ ← constrained_new candidate validator; Ok tt.

Definition validate_policy_against_constraints (config : NetworkProxyConfig) (c : NetworkProxyConstraints)
    : result ConstraintError unit :=
  let s := network_proxy config in
  _ ← check_value (proxy_enabled s) (off_if §"network_proxy.enabled" (c_enabled c));
  _ ← check_value (mode s) (mode_validator (c_mode c));
  _ ← check_value (allow_upstream_proxy s)
        (off_if §"network_proxy.allow_upstream_proxy" (c_allow_upstream_proxy c));
  _ ← check_value (dangerously_allow_non_loopback_admin s)
        (off_if §"network_proxy.dangerously_allow_non_loopback_admin"
           (c_dangerously_allow_non_loopback_admin c));
  _ ← check_value (dangerously_allow_non_loopback_proxy s)
        (off_if §"network_proxy.dangerously_allow_non_loopback_proxy"
           (c_dangerously_allow_non_loopback_proxy c));
  _ ← check_value (allow_local_binding (policy s))
        (off_if §"network_proxy.policy.allow_local_binding" (c_allow_local_binding c));
  _ ← check_value (allowed_domains (policy s)) (allowed_validator (c_allowed_domains c));
  _ ← check_value (denied_domains (policy s)) (denied_validator (c_denied_domains c));
  check_value (allow_unix_sockets (policy s)) (sockets_validator (c_allow_unix_sockets c)).

Inductive ConstraintFailure := BadLayer | Violated (e : ConstraintError).
Definition enforce_trusted_constraints {R} (layers : ConfigLayerStack R) (config : NetworkProxyConfig)
    : result ConstraintFailure NetworkProxyConstraints :=
  match network_proxy_constraints_from_trusted_layers layers with
  | None => Err BadLayer
  | Some constraints =>
      _ ← map_err Violated (validate_policy_against_constraints config constraints);
      Ok constraints
  end.
End Constraints.

(** * Correctness *)

(** ** Listeners *)
Definition loopback (a : SocketAddr) : Prop := ip_is_loopback (ip_of a) = true.

Lemma on_localhost_loopback p : loopback (on_localhost p).
Proof. by vm_compute. Qed.

Lemma clamp_cases a allow :
  clamp_non_loopback a allow = a ∧ (loopback a ∨ allow = true) ∨
  clamp_non_loopback a allow = on_localhost (port_of a) ∧ allow = false.
Proof.
  unfold clamp_non_loopback, loopback. destruct (ip_is_loopback (ip_of a)); [by auto|].
  destruct allow; auto.
Qed.

Lemma clamp_loopback a allow : allow = false → loopback (clamp_non_loopback a allow).
Proof.
  intros Ha. destruct (clamp_cases a allow) as [[-> [?|?]]|[-> _]];
    [done|congruence|apply on_localhost_loopback].
Qed.

(** Whatever the URLs in the configuration say, a listener is reachable from
    outside the machine only when the switch for it is set and no Unix socket is
    offered; without the switch, or with a socket, it binds to loopback. *)
Theorem listeners_on_loopback url_parse cfg r :
  resolve_runtime url_parse cfg = Ok r →
  let s := network_proxy cfg in
  (dangerously_allow_non_loopback_proxy s = false ∨ allow_unix_sockets (policy s) ≠ [] →
   loopback (http_addr r) ∧ loopback (socks_addr r)) ∧
  (dangerously_allow_non_loopback_admin s = false ∨ allow_unix_sockets (policy s) ≠ [] →
   loopback (admin_addr r)).
Proof.
  unfold resolve_runtime. intros (h & _ & (k & _ & (a & _ & Hr)%bind_Ok)%bind_Ok)%bind_Ok.
  unfold clamp_bind_addrs in Hr. case_bool_decide as Hs; injection Hr as <-; cbn.
  - split; (intros [?|?]; [|done]); [split|]; by apply clamp_loopback.
  - pose proof on_localhost_loopback. auto.
Qed.

(** ** Lower case and patterns *)
Lemma ascii_lower_low c x : (x < 65)%N → ascii_lower c = x ↔ c = x.
Proof.
  unfold ascii_lower. intros Hx. destruct ((65 <=? c)%N && (c <=? 90)%N) eqn:E; [|done].
  bool_tac. rewrite N.leb_le in *. lia.
Qed.

Lemma strip_prefix_lower p s :
  Forall (λ x, (x < 65)%N) p →
  strip_prefix p (to_ascii_lowercase s) = to_ascii_lowercase <$> strip_prefix p s.
Proof.
  intros Hp. revert s. induction Hp as [|x p Hx _ IH]; intros s; [done|].
  destruct s as [|c s]; [done|]. cbn. destruct (decide (x = c)) as [<-|Hne].
  - rewrite decide_True by by symmetry; apply (ascii_lower_low x x Hx). apply IH.
  - rewrite decide_False; [done|]. intros E%eq_sym%(ascii_lower_low c x Hx). by subst.
Qed.

Definition lower_pattern (p : DomainPattern) : DomainPattern :=
  match p with
  | Any => Any
  | Exact d => Exact (to_ascii_lowercase d)
  | SubdomainsOnly d => SubdomainsOnly (to_ascii_lowercase d)
  | ApexAndSubdomains d => ApexAndSubdomains (to_ascii_lowercase d)
  end.

Lemma lower_nil s : to_ascii_lowercase s = [] ↔ s = [].
Proof. by destruct s. Qed.

Lemma parse_lower s : DomainPattern_parse (to_ascii_lowercase s) = lower_pattern (DomainPattern_parse s).
Proof.
  unfold DomainPattern_parse. rewrite trim_lower. set (t := trim s). clearbody t.
  rewrite (bool_decide_ext _ _ (lower_nil t)). case_bool_decide; [done|].
  assert (to_ascii_lowercase t = §"*" ↔ t = §"*") as Hstar.
  { change (§"*") with [42%N]. destruct t as [|c [|c' t]]; [done| |done]. cbn.
    split; intros [= E]; [by apply (ascii_lower_low c 42%N eq_refl) in E as ->|by subst]. }
  rewrite (bool_decide_ext _ _ Hstar). case_bool_decide; [done|].
  rewrite !strip_prefix_lower by (repeat constructor).
  assert (∀ d build, (∀ x, lower_pattern (build x) = build (to_ascii_lowercase x)) →
    parse_domain (to_ascii_lowercase d) build = lower_pattern (parse_domain d build)) as Hpd.
  { intros d build Hb. unfold parse_domain. rewrite trim_lower, (bool_decide_ext _ _ (lower_nil _)).
    by case_bool_decide. }
  destruct (strip_prefix (§"**.") t) as [d|]; cbn; [by apply Hpd|].
  destruct (strip_prefix (§"*.") t) as [d|]; cbn; [by apply Hpd|done].
Qed.

Lemma normalize_lower d : normalize_domain (to_ascii_lowercase d) = normalize_domain d.
Proof.
  rewrite <-!normalize_dns_host_eq. unfold normalize_dns_host. by rewrite lower_idemp.
Qed.

Lemma matches_lower p h : normal h → dom_matches (lower_pattern p) h = true ↔ dom_matches p h = true.
Proof. intros Hh. rewrite !matches_normal by done. by destruct p; cbn; rewrite ?normalize_lower. Qed.

(** Entries that agree up to case stand for the same hosts. *)
Lemma same_lower_matches e m h :
  normal h → to_ascii_lowercase e = to_ascii_lowercase m →
  dom_matches (DomainPattern_parse m) h = true → dom_matches (DomainPattern_parse e) h = true.
Proof.
  intros Hh E Hm. apply (matches_lower (DomainPattern_parse e) h Hh).
  rewrite <-parse_lower, E, parse_lower. by apply matches_lower.
Qed.

(** ** What a configuration that was accepted allows *)

(** What [url] does with a plain domain name: it keeps it, up to case and a dot
    at the end. *)
Definition named (d : str) : Prop :=
  match last (split_on DOT (normalize_domain d)) with
  | Some (c :: _) => (97 <=? c)%N && (c <=? 122)%N = true
  | _ => False
  end.
Class UrlLaws (U : UrlLib) := {
  url_domain d d' : plain d → named d → url_host d = Some d' → normalize_domain d' = normalize_domain d;
}.

(** An entry that is [*] or a domain name, perhaps behind a wildcard. *)
Definition named_entry (e : str) : Prop :=
  trim e = §"*" ∨
  ∃ prefix d, trim e = prefix ++ d ∧ prefix ∈ [§"**."; §"*."; []] ∧ plain d ∧ named d.

Lemma named_ne d : named d → normalize_domain d ≠ [].
Proof. unfold named. intros Hn E. by rewrite E in Hn. Qed.

Lemma named_plain e : named_entry e → plain_entry e.
Proof.
  intros [?|(p & d & ? & ? & ? & Hn)]; [by left|right]. exists p, d. split_and!; try done.
  by apply named_ne.
Qed.

Section Accepted.
Context `{GlobLib} `{U : UrlLib} `{!UrlLaws U}.

Lemma constraint_domain d :
  plain d → named d →
  normalize_domain (parse_domain_for_constraints d) = normalize_domain d ∨
  parse_domain_for_constraints d = [].
Proof.
  intros Hd Hn. unfold parse_domain_for_constraints. rewrite plain_trim by done.
  set (d0 := trim_end_matches is_dot d).
  assert (normalize_domain d0 = normalize_domain d) as Hd0.
  { unfold normalize_domain, d0. by rewrite (trim_end_matches_id is_dot (trim_end_matches is_dot d))
      by apply trim_end_matches_last. }
  assert (plain d0) as Hp0.
  { destruct (trim_end_matches_prefix is_dot d) as (w & Hw & _). fold d0 in Hw. rewrite Hw in Hd.
    by apply plain_app in Hd as [? _]. }
  case_bool_decide as Hne; [by right|].
  assert (named d0) as Hn0 by (unfold named in *; by rewrite Hd0).
  clearbody d0. destruct d0 as [|c rest]; [done|].
  rewrite bool_decide_false.
  2:{ intros [-> _]. by apply Forall_cons in Hp0 as [? _]. }
  rewrite (not_true_is_false (existsb _ _)).
  2:{ rewrite existsb_exists. intros (x & Hx & Hb). apply list_elem_of_In in Hx.
      unfold plain in Hp0. rewrite Forall_forall in Hp0.
      apply Hp0, plain_char_cases in Hx as (_ & ? & _ & _ & _ & ? & ?).
      rewrite !orb_true_iff, !bool_decide_eq_true in Hb. tauto. }
  destruct (url_host (c :: rest)) as [d'|] eqn:Eu; [left; cbn|by right].
  rewrite <-Hd0. by apply url_domain.
Qed.

(** A plain entry, and what the comparison with the managed list makes of it. *)
Lemma constraint_entry e :
  named_entry e →
  trim e = §"*" ∨
  ∃ build d x, (build = ApexAndSubdomains ∨ build = SubdomainsOnly ∨ build = Exact) ∧
    DomainPattern_parse e = build d ∧ parse_for_constraints e = build x ∧
    normalize_domain d ≠ [] ∧ (normalize_domain x = normalize_domain d ∨ x = []).
Proof.
  intros [?|(p & d & He & Hp & Hd & Hn)]; [by left|right].
  pose proof (named_ne d Hn) as Hnn. assert (d ≠ []) as Hne by (by intros ->).
  destruct (plain_no_star d Hd Hne) as (H1 & H2 & H3).
  assert (∃ build, shape p build) as [build Hs].
  { rewrite !elem_of_cons, elem_of_nil in Hp. unfold shape. destruct Hp as [->|[->|[->|[]]]]; eauto 6. }
  exists build, d, (parse_domain_for_constraints d).
  split; [destruct Hs as [[_ ->]|[[_ ->]|[_ ->]]]; auto|].
  split; [by apply (parse_entry p build d e)|]. split; [|split; [done|by apply constraint_domain]].
  unfold parse_for_constraints. rewrite He.
  destruct Hs as [[-> ->]|[[-> ->]|[-> ->]]].
  - by rewrite !bool_decide_false, strip_prefix_app by done.
  - rewrite !bool_decide_false by done.
    assert (strip_prefix (§"**.") (§"*." ++ d) = None) as -> by done. by rewrite strip_prefix_app.
  - cbn [app]. rewrite !bool_decide_false by done. by rewrite H1, H2.
Qed.
End Accepted.

Lemma check_value_spec {T} (x : T) v : check_value x v = Ok tt ↔ v x = Ok tt.
Proof. unfold check_value, constrained_new. by destruct (v x) as [[]|]. Qed.

Lemma check_value_Ok {T} (x : T) v : check_value x v = Ok tt → v x = Ok tt.
Proof. apply check_value_spec. Qed.

Lemma off_if_spec f m b : off_if f m b = Ok tt ↔ (m = Some false → b = false).
Proof. unfold off_if. destruct m as [[]|], b; split; try done; intros H; by specialize (H eq_refl). Qed.

Lemma mode_validator_spec m x :
  mode_validator m x = Ok tt ↔ (m = Some Limited → x = Limited).
Proof. destruct m as [[]|], x; cbn; split; try done; intros H; by specialize (H eq_refl). Qed.

Section Bounds.
Context `{GlobLib} `{U : UrlLib} (show_strings : list str → str).
Local Notation validate := (validate_policy_against_constraints show_strings).

(** What the constraints demand of a configuration. *)
Record within (config : NetworkProxyConfig) (c : NetworkProxyConstraints) : Prop := {
  in_enabled : c_enabled c = Some false → proxy_enabled (network_proxy config) = false;
  in_mode : c_mode c = Some Limited → mode (network_proxy config) = Limited;
  in_upstream : c_allow_upstream_proxy c = Some false → allow_upstream_proxy (network_proxy config) = false;
  in_admin : c_dangerously_allow_non_loopback_admin c = Some false →
             dangerously_allow_non_loopback_admin (network_proxy config) = false;
  in_proxy : c_dangerously_allow_non_loopback_proxy c = Some false →
             dangerously_allow_non_loopback_proxy (network_proxy config) = false;
  in_local : c_allow_local_binding c = Some false →
             allow_local_binding (policy (network_proxy config)) = false;
  in_allowed_domains managed e : c_allowed_domains c = Some managed →
    e ∈ allowed_domains (policy (network_proxy config)) →
    ∃ m, m ∈ managed ∧ allows (parse_for_constraints m) (parse_for_constraints e) = true;
  in_denied managed m : c_denied_domains c = Some managed → m ∈ managed →
    ∃ e, e ∈ denied_domains (policy (network_proxy config)) ∧ to_ascii_lowercase e = to_ascii_lowercase m;
  in_sockets managed e : c_allow_unix_sockets c = Some managed →
    e ∈ allow_unix_sockets (policy (network_proxy config)) →
    ∃ m, m ∈ managed ∧ to_ascii_lowercase e = to_ascii_lowercase m;
}.

Lemma filter_nil_iff {A} (P : A → Prop) `{∀ x, base.Decision (P x)} (l : list A) :
  filter P l = [] ↔ ∀ x, x ∈ l → ¬ P x.
Proof.
  split.
  - intros E x Hx HP. assert (x ∈ filter P l) as Hin by by apply list_elem_of_filter.
    rewrite E in Hin. by apply elem_of_nil in Hin.
  - intros Hl. apply filter_none, Forall_forall. exact Hl.
Qed.

(** The shape the three list validators share. *)
Lemma list_check {A} `{EqDecision A} (bad : list A) (e : ConstraintError) (P : Prop) :
  (bad = [] ↔ P) → (if bool_decide (bad = []) then Ok tt else Err e) = Ok tt ↔ P.
Proof. intros <-. by case_bool_decide. Qed.

Lemma some_managed {A} {P : list A → Prop} (ms : list A) :
  P ms ↔ ∀ ms', Some ms = Some ms' → P ms'.
Proof. split; [by intros ? ? [= <-]|intros Hp; by apply Hp]. Qed.

Lemma allowed_validator_spec managed l :
  allowed_validator show_strings managed l = Ok tt ↔
  ∀ ms, managed = Some ms → ∀ e, e ∈ l →
    ∃ m, m ∈ ms ∧ allows (parse_for_constraints m) (parse_for_constraints e) = true.
Proof.
  destruct managed as [ms|]; cbn; [|by split].
  assert (filter (λ e, existsb (λ m, allows m (parse_for_constraints e)) (parse_for_constraints <$> ms) = false) l
          = [] ↔ ∀ e, e ∈ l → ∃ m, m ∈ ms ∧ allows (parse_for_constraints m) (parse_for_constraints e) = true)
    as Hiff.
  { rewrite filter_nil_iff. apply forall_proper. intros e. apply imp_iff_compat_l.
    rewrite not_false_iff_true, existsb_exists. setoid_rewrite <-list_elem_of_In.
    setoid_rewrite list_elem_of_fmap. naive_solver. }
  rewrite <-(some_managed (P := λ ms, ∀ e, e ∈ l → ∃ m, m ∈ ms ∧ allows (parse_for_constraints m) (parse_for_constraints e) = true)).
  by apply list_check.
Qed.

Lemma denied_validator_spec managed l :
  denied_validator show_strings managed l = Ok tt ↔
  ∀ ms, managed = Some ms → ∀ m, m ∈ ms →
    ∃ e, e ∈ l ∧ to_ascii_lowercase e = to_ascii_lowercase m.
Proof.
  destruct managed as [ms|]; cbn; [|by split].
  assert (filter (λ e, e ∉ to_ascii_lowercase <$> l) (to_ascii_lowercase <$> ms) = [] ↔
          ∀ m, m ∈ ms → ∃ e, e ∈ l ∧ to_ascii_lowercase e = to_ascii_lowercase m) as Hiff.
  { rewrite filter_nil_iff. split.
    - intros Hl m Hm. specialize (Hl (to_ascii_lowercase m)).
      destruct (decide (to_ascii_lowercase m ∈ to_ascii_lowercase <$> l)) as [Hin|Hn].
      + apply list_elem_of_fmap in Hin as (e & ? & ?). eauto.
      + destruct Hl; [apply list_elem_of_fmap; eauto|done].
    - intros Hl x (m & -> & Hm)%list_elem_of_fmap Hn. destruct (Hl m Hm) as (e & He & E).
      apply Hn. rewrite <-E. apply list_elem_of_fmap. eauto. }
  rewrite <-(some_managed (P := λ ms, ∀ m, m ∈ ms → ∃ e, e ∈ l ∧ to_ascii_lowercase e = to_ascii_lowercase m)).
  by apply list_check.
Qed.

Lemma sockets_validator_spec managed l :
  sockets_validator show_strings managed l = Ok tt ↔
  ∀ ms, managed = Some ms → ∀ e, e ∈ l →
    ∃ m, m ∈ ms ∧ to_ascii_lowercase e = to_ascii_lowercase m.
Proof.
  destruct managed as [ms|]; cbn; [|by split].
  assert (filter (λ e, to_ascii_lowercase e ∉ to_ascii_lowercase <$> ms) l = [] ↔
          ∀ e, e ∈ l → ∃ m, m ∈ ms ∧ to_ascii_lowercase e = to_ascii_lowercase m) as Hiff.
  { rewrite filter_nil_iff. apply forall_proper. intros e. apply imp_iff_compat_l.
    rewrite list_elem_of_fmap. split.
    - intros Hn. destruct (decide (Exists (λ m, to_ascii_lowercase e = to_ascii_lowercase m) ms)) as [Hx|Hx].
      + apply Exists_exists in Hx. naive_solver.
      + exfalso. apply Hn. intros (m & ? & ?). apply Hx, Exists_exists. eauto.
    - intros (m & ? & ?) Hn. apply Hn. eauto. }
  rewrite <-(some_managed (P := λ ms, ∀ e, e ∈ l → ∃ m, m ∈ ms ∧ to_ascii_lowercase e = to_ascii_lowercase m)).
  by apply list_check.
Qed.

(** The check accepts exactly what is within the constraints. *)
Lemma validate_within config c : validate config c = Ok tt ↔ within config c.
Proof.
  unfold validate_policy_against_constraints. split.
  - intros ([] & H1%check_value_Ok & ([] & H2%check_value_Ok & ([] & H3%check_value_Ok & Hr)%bind_Ok)%bind_Ok)%bind_Ok.
    apply bind_Ok in Hr as ([] & H4%check_value_Ok & ([] & H5%check_value_Ok & Hr)%bind_Ok).
    apply bind_Ok in Hr as ([] & H6%check_value_Ok & ([] & H7%check_value_Ok & Hr)%bind_Ok).
    apply bind_Ok in Hr as ([] & H8%check_value_Ok & H9%check_value_Ok).
    rewrite off_if_spec in H1, H3, H4, H5, H6. rewrite mode_validator_spec in H2.
    pose proof (proj1 (allowed_validator_spec _ _) H7). pose proof (proj1 (denied_validator_spec _ _) H8).
    pose proof (proj1 (sockets_validator_spec _ _) H9).
    split; eauto.
  - intros [H1 H2 H3 H4 H5 H6 H7 H8 H9].
    repeat (apply bind_Ok; exists tt; split); apply check_value_spec;
      rewrite ?off_if_spec, ?mode_validator_spec, ?allowed_validator_spec, ?denied_validator_spec,
        ?sockets_validator_spec; try done; naive_solver.
Qed.

(** Changing the mode only concerns the constraint on the mode. *)
Definition with_mode (m : NetworkMode) (config : NetworkProxyConfig) : NetworkProxyConfig :=
  let s := network_proxy config in
  {| network_proxy :=
       {| proxy_enabled := proxy_enabled s; proxy_url := proxy_url s; admin_url := admin_url s;
          enable_socks5 := enable_socks5 s; socks_url := socks_url s;
          enable_socks5_udp := enable_socks5_udp s; allow_upstream_proxy := allow_upstream_proxy s;
          dangerously_allow_non_loopback_proxy := dangerously_allow_non_loopback_proxy s;
          dangerously_allow_non_loopback_admin := dangerously_allow_non_loopback_admin s;
          mode := m; policy := policy s |} |}.

Lemma within_with_mode config config' c m :
  within config c → within (with_mode m config') c → within (with_mode m config) c.
Proof. intros [] []. by split. Qed.
End Bounds.

(** ** What managed domains mean for the compiled sets *)
(** A managed entry that the comparison understands. *)
Definition managed_entry `{UrlLib} (m : str) : Prop :=
  named_entry m ∧ (trim m = §"*" ∨ normalize_domain (domain_of (parse_for_constraints m)) ≠ []).

Lemma star_parses `{UrlLib} e :
  trim e = §"*" → DomainPattern_parse e = Any ∧ parse_for_constraints e = Any.
Proof. unfold DomainPattern_parse, parse_for_constraints. by intros ->. Qed.

Lemma same_domain_matches build d x h :
  build = ApexAndSubdomains ∨ build = SubdomainsOnly ∨ build = Exact →
  normalize_domain x = normalize_domain d → normal h →
  dom_matches (build x) h = true ↔ dom_matches (build d) h = true.
Proof. intros Hb E Hh. rewrite !matches_normal by done. by destruct Hb as [->|[->| ->]]; rewrite E. Qed.

(** No managed pattern with a domain includes the empty domain. *)
Lemma nothing_allows_empty build p :
  build = ApexAndSubdomains ∨ build = SubdomainsOnly ∨ build = Exact →
  p ≠ Any → normalize_domain (domain_of p) ≠ [] → allows p (build []) = false.
Proof.
  intros Hb Hp Hd. apply not_true_is_false. intros Ha.
  assert (∀ d, under [] d → False) as Hu by by intros d ([|? ?] & ?).
  destruct p; [done|..]; cbn in Hd; destruct Hb as [->|[->| ->]]; cbn in Ha;
    autorewrite with hosts in Ha; rewrite ?normalize_domain_nil in Ha; destruct_or?; naive_solver.
Qed.

Section Managed.
Context `{Laws : GlobLaws} `{U : UrlLib} `{!UrlLaws U} (show_strings : list str → str).

(** A host an accepted entry stands for is one a managed entry stands for. *)
Lemma admitted_entry_bounded m e h :
  named_entry e → managed_entry m → plain_host h →
  allows (parse_for_constraints m) (parse_for_constraints e) = true →
  dom_matches (DomainPattern_parse e) h = true → dom_matches (DomainPattern_parse m) h = true.
Proof.
  intros He [Hm Hv] [Hh _] Ha Hin.
  destruct (constraint_entry m Hm) as [Hs|(bm & dm & xm & Hbm & Em & Cm & Hdm & Hxm)].
  { by destruct (star_parses m Hs) as [-> _]. }
  destruct Hv as [Hs|Hv]; [by destruct (star_parses m Hs) as [-> _]|].
  assert (normalize_domain xm = normalize_domain dm) as Exm.
  { destruct Hxm as [?| ->]; [done|]. rewrite Cm in Hv. destruct Hbm as [->|[->| ->]]; by destruct Hv. }
  rewrite Em. apply (same_domain_matches bm dm xm h Hbm Exm Hh). rewrite <-Cm.
  destruct (constraint_entry e He) as [Hs|(be & de & xe & Hbe & Ee & Ce & Hde & Hxe)].
  { destruct (star_parses e Hs) as [_ Ea]. rewrite Ea in Ha. by apply (allows_sound _ _ h Ha). }
  rewrite Ce in Ha. destruct Hxe as [Exe| ->].
  - apply (allows_sound _ _ h Ha). apply (same_domain_matches be de xe h Hbe Exe Hh). by rewrite <-Ee.
  - rewrite nothing_allows_empty in Ha; [done|done| |done].
    rewrite Cm. by destruct Hbm as [->|[->| ->]].
Qed.

Lemma managed_bounds config c allow deny h :
  validate_policy_against_constraints show_strings config c = Ok tt →
  let p := policy (network_proxy config) in
  compile_globset (allowed_domains p) = Some allow →
  compile_globset (denied_domains p) = Some deny →
  Forall named_entry (allowed_domains p) → Forall plain_entry (denied_domains p) → plain_host h →
  (∀ ms, c_allowed_domains c = Some ms → Forall managed_entry ms → is_match allow h = true →
     ∃ m, m ∈ ms ∧ dom_matches (DomainPattern_parse m) h = true) ∧
  (∀ ms m, c_denied_domains c = Some ms → m ∈ ms → dom_matches (DomainPattern_parse m) h = true →
     is_match deny h = true) ∧
  (c_mode c = Some Limited → mode (network_proxy config) = Limited) ∧
  (c_enabled c = Some false → proxy_enabled (network_proxy config) = false) ∧
  (c_allow_upstream_proxy c = Some false → allow_upstream_proxy (network_proxy config) = false) ∧
  (c_allow_local_binding c = Some false → allow_local_binding p = false).
Proof.
  intros [] %(proj1 (validate_within _ _ _)) p Hallow Hdeny Hna Hpd Hh. split_and!; try done.
  - intros ms Hc Hms Hm.
    apply (compile_globset_matches _ _ h (Forall_impl _ _ _ Hna named_plain) Hh Hallow) in Hm as (e & He & Hm).
    destruct (in_allowed_domains0 ms e Hc He) as (m & Hin & Ha). exists m. split; [done|].
    rewrite Forall_forall in Hna, Hms. by apply (admitted_entry_bounded m e h); auto.
  - intros ms m Hc Hin Hm. destruct (in_denied0 ms m Hc Hin) as (e & He & E).
    apply (compile_globset_matches _ _ h Hpd Hh Hdeny). exists e. split; [done|].
    apply (same_lower_matches e m h); [apply Hh|done..].
Qed.

(** Managed configuration bounds the proxy: once a configuration is accepted,
    a host that its allowlist matches is one a managed allowed entry stands for,
    every host a managed denied entry stands for is matched by its denylist, and
    neither the mode nor a switch goes beyond its managed bound. *)
Theorem managed_policy_bounds config c allow deny h :
  validate_policy_against_constraints show_strings config c = Ok tt →
  let p := policy (network_proxy config) in
  compile_globset (allowed_domains p) = Some allow →
  compile_globset (denied_domains p) = Some deny →
  Forall named_entry (allowed_domains p) → Forall plain_entry (denied_domains p) → plain_host h →
  (∀ ms, c_allowed_domains c = Some ms → Forall managed_entry ms → is_match allow h = true →
     ∃ m, m ∈ ms ∧ dom_matches (DomainPattern_parse m) h = true) ∧
  (∀ ms m, c_denied_domains c = Some ms → m ∈ ms → dom_matches (DomainPattern_parse m) h = true →
     is_match deny h = true) ∧
  (c_mode c = Some Limited → mode (network_proxy config) = Limited) ∧
  (c_enabled c = Some false → proxy_enabled (network_proxy config) = false) ∧
  (c_allow_upstream_proxy c = Some false → allow_upstream_proxy (network_proxy config) = false) ∧
  (c_allow_local_binding c = Some false → allow_local_binding p = false).
Proof. apply managed_bounds. Qed.
End Managed.

(** ** Witnesses *)
(** A parser of hosts that keeps names of plain characters, in lower case. *)
Definition plain_url_host : UrlLib :=
  {| url_host d := if forallb plain_char d then Some (to_ascii_lowercase d) else None |}.
Lemma plain_url_laws : @UrlLaws plain_url_host.
Proof.
  split. cbn. intros d d' _ _. destruct (forallb plain_char d); [|done]. intros [= <-].
  apply normalize_lower.
Qed.

(** A managed entry written as a URL names no host, so the comparison reads it as
    the empty domain, and with it every user entry that names no host either: it
    then admits [[e]vil.com], which [globset] reads as a class of characters. *)
Example invalid_managed_entry :
  let managed := Some [§"https://example.com"] in
  @allowed_validator plain_url_host (@concat char) managed [§"[e]vil.com"] = Ok tt ∧
  ∃ e, @allowed_validator plain_url_host (@concat char) managed [§"evil.com"] = Err e.
Proof. by split; [vm_compute|eexists; vm_compute]. Qed.

Definition demo_config : NetworkProxyConfig :=
  {| network_proxy :=
       {| proxy_enabled := true; proxy_url := §"http://0.0.0.0:3128"; admin_url := default_admin_url;
          enable_socks5 := false; socks_url := default_socks_url; enable_socks5_udp := false;
          allow_upstream_proxy := false; dangerously_allow_non_loopback_proxy := false;
          dangerously_allow_non_loopback_admin := false; mode := Limited;
          policy := {| allowed_domains := [§"*.api.Example.com"; §"docs.example.com"];
                       denied_domains := [§"Secret.Example.com"]; allow_unix_sockets := [];
                       allow_local_binding := false |} |} |}.
Definition demo_constraints : NetworkProxyConstraints :=
  {| c_enabled := None; c_mode := Some Limited; c_allow_upstream_proxy := Some false;
     c_dangerously_allow_non_loopback_proxy := None; c_dangerously_allow_non_loopback_admin := None;
     c_allowed_domains := Some [§"**.example.com"]; c_denied_domains := Some [§"secret.example.com"];
     c_allow_unix_sockets := None; c_allow_local_binding := Some false |}.
Definition no_url (_ : str) : option (option str * option Z) := None.

Lemma listeners_on_loopback_witness :
  ∃ r, resolve_runtime no_url demo_config = Ok r ∧ loopback (http_addr r) ∧ port_of (http_addr r) = 3128.
Proof.
  destruct (resolve_runtime no_url demo_config) as [r|e] eqn:E; [|by vm_compute in E].
  exists r. split; [done|]. split.
  - destruct (listeners_on_loopback no_url demo_config r E) as [H _]. by apply H; left.
  - vm_compute in E. by injection E as <-.
Defined.

Lemma managed_policy_bounds_witness :
  ∃ (G : GlobLib) (U : UrlLib) allow deny,
    compile_globset (allowed_domains (policy (network_proxy demo_config))) = Some allow ∧
    compile_globset (denied_domains (policy (network_proxy demo_config))) = Some deny ∧
    is_match allow (§"v1.api.example.com") = true ∧ is_match deny (§"secret.example.com") = true.
Proof.
  exists simple_globs, plain_url_host.
  destruct (@compile_globset simple_globs _) as [allow|] eqn:Ea; [|by vm_compute in Ea].
  destruct (@compile_globset simple_globs (denied_domains _)) as [deny|] eqn:Ed; [|by vm_compute in Ed].
  exists allow, deny. split_and!; [done..| |].
  { vm_compute in Ea. by injection Ea as <-. }
  assert (∀ p d, p ∈ [§"**."; §"*."; []] → plain d → named d → trim (p ++ d) = p ++ d → named_entry (p ++ d))
    as Hn by (intros p d ????; right; by exists p, d).
  destruct (@managed_policy_bounds simple_globs simple_glob_laws plain_url_host plain_url_laws (@concat char)
              demo_config demo_constraints allow deny (§"secret.example.com")) as (_ & H & _); try done.
  - apply Forall_cons; split; [|apply Forall_singleton].
    + apply (Hn (§"*.") (§"api.Example.com")); [by right; left|by repeat constructor|by vm_compute|by vm_compute].
    + apply (Hn [] (§"docs.example.com")); [by right; right; left|by repeat constructor|by vm_compute|by vm_compute].
  - constructor; [|constructor]. apply named_plain.
    apply (Hn [] (§"Secret.Example.com")); [by right; right; left|by repeat constructor|by vm_compute|by vm_compute].
  - split_and!; [split; by vm_compute|by repeat constructor|by vm_compute].
  - apply (H _ (§"secret.example.com") eq_refl); [by left|by vm_compute].
Defined.
