(* ===== verification/ProxyState.v ===== *)
(** * The state of the network proxy ([network-proxy/src/runtime.rs],
    [build_config_state] of [network-proxy/src/state.rs])

    The shared state behind the lock, the decision about a host, and the
    operations of [NetworkProxyState] as tasks that interleave between their
    accesses to the lock, to the files and to the resolver. *)
From S2P Require Import Prelude RustStr Paths NetAddr PublicAddr HostPolicy.
From S2P Require Import PatchSafety Toml ConfigLayers Requirements ConfigLoader ProxyConfig.
Local Open Scope Z_scope.

(** ** Data *)
Inductive HostBlockReason := Denied | NotAllowed | NotAllowedLocal.
Inductive HostBlockDecision := Allowed | Blocked (reason : HostBlockReason).
#[export] Instance HostBlockReason_eq : EqDecision HostBlockReason.
Proof. solve_decision. Defined.
#[export] Instance HostBlockDecision_eq : EqDecision HostBlockDecision.
Proof. solve_decision. Defined.

Definition reason_as_str (reason : HostBlockReason) : str :=
  match reason with
  | Denied => §"denied"
  | NotAllowed => §"not_allowed"
  | NotAllowedLocal => §"not_allowed_local"
  end.

Record BlockedRequest := {
  br_host : str;
  br_reason : str;
  br_client : option str;
  br_method : option str;
  br_mode : option NetworkMode;
  br_protocol : str;
  br_timestamp : Z;
}.
#[export] Instance BlockedRequest_eq : EqDecision BlockedRequest.
Proof. solve_decision. Defined.

Definition MAX_BLOCKED_EVENTS : nat := 200.

(** A file and the time it was modified, when that could be read. *)
Record LayerMtime := { lm_path : str; lm_mtime : option Z }.

Inductive BuildError :=
| NoHome
| LoadFailed (e : LoadError)
| BadConfig
| Constrained_by (e : ConstraintFailure)
| BadPattern.

Section State.
Context `{GlobLib} `{UrlLib}.

Record ConfigState := {
  st_config : NetworkProxyConfig;
  st_allow_set : GlobSet;
  st_deny_set : GlobSet;
  st_constraints : NetworkProxyConstraints;
  st_layer_mtimes : list LayerMtime;
  st_cfg_path : str;
  st_blocked : list BlockedRequest;
}.
Definition settings_of (st : ConfigState) : NetworkProxySettings := network_proxy (st_config st).
Definition policy_of (st : ConfigState) : NetworkPolicy := policy (settings_of st).

Definition with_blocked (b : list BlockedRequest) (st : ConfigState) : ConfigState :=
  {| st_config := st_config st; st_allow_set := st_allow_set st; st_deny_set := st_deny_set st;
     st_constraints := st_constraints st; st_layer_mtimes := st_layer_mtimes st;
     st_cfg_path := st_cfg_path st; st_blocked := b |}.
(** [guard.config.network_proxy.mode = mode]. *)
Definition set_mode (m : NetworkMode) (st : ConfigState) : ConfigState :=
  {| st_config := with_mode m (st_config st); st_allow_set := st_allow_set st;
     st_deny_set := st_deny_set st; st_constraints := st_constraints st;
     st_layer_mtimes := st_layer_mtimes st; st_cfg_path := st_cfg_path st; st_blocked := st_blocked st |}.

(** ** The decision about a host *)
Definition STAR_DOT : str := §"*.".

Definition is_explicit_local_allowlisted (allowed_domains : list str) (host : str) : bool :=
  existsb (λ pattern,
    let pattern := trim pattern in
    if bool_decide (pattern = §"*") || starts_with pattern STAR_DOT || starts_with pattern §"**." then false
    else if existsb (λ c, bool_decide (c = STAR) || bool_decide (c = QUESTION)) pattern then false
    else bool_decide (normalize_host pattern = host)) allowed_domains.

(** The block that computes [local_literal]. *)
Definition local_literal (host : str) : bool :=
  if is_loopback_host host then true
  else match parse_ip (without_scope host) with Some ip => is_non_public_ip ip | None => false end.

(** [NetworkProxyState::resolve_addresses]: [lookup] is the resolver, [None] its
    failure or its timeout. *)
Definition resolve_addresses (lookup : str → Z → option (list SocketAddr)) (host : str) (port : Z)
    : option (list SocketAddr) :=
  match parse_ip host with
  | Some ip => Some [{| ip_of := ip; port_of := port |}]
  | None => lookup host port
  end.

(** [host_blocked_with_addresses] after the state has been brought up to date, on
    the parts of the state it copies. *)
Definition decide_host (lookup : str → Z → option (list SocketAddr)) (snap : ConfigState)
    (host : str) (port : Z) : HostBlockDecision * option (list SocketAddr) :=
  let allowed_domains := allowed_domains (policy_of snap) in
  if is_match (st_deny_set snap) host then (Blocked Denied, None)
  else
    let is_allowlisted := is_match (st_allow_set snap) host in
    let verdict resolved :=
      if bool_decide (allowed_domains = []) || negb is_allowlisted
      then (Blocked NotAllowed, resolved) else (Allowed, resolved) in
    if allow_local_binding (policy_of snap) then verdict None
    else if local_literal host then
      if is_explicit_local_allowlisted allowed_domains host then verdict None
      else (Blocked NotAllowedLocal, None)
    else
      match resolve_addresses lookup host port with
      | Some addresses =>
          if negb (bool_decide (addresses = [])) && forallb (λ a, negb (is_non_public_ip (ip_of a))) addresses
          then verdict (Some addresses)
          else (Blocked NotAllowedLocal, None)
      | None => (Blocked NotAllowedLocal, None)
      end.

(** ** Operations on the state *)
(** [push_back], then [pop_front] while there are too many. *)
Definition record_blocked (entry : BlockedRequest) (st : ConfigState) : ConfigState :=
  let l := st_blocked st ++ [entry] in
  with_blocked (drop (length l - MAX_BLOCKED_EVENTS) l) st.

Definition drain_blocked (st : ConfigState) : ConfigState * list BlockedRequest :=
  (with_blocked [] st, st_blocked st).

(** The write of [force_reload]: the log of blocked requests is kept. *)
Definition install (new_state st : ConfigState) : ConfigState := with_blocked (st_blocked st) new_state.

(** The test of [reload_if_needed]; [mtime] gives what the files say now. *)
Definition needs_reload (mtime : str → option Z) (st : ConfigState) : bool :=
  existsb (λ layer,
    match mtime (lm_path layer), lm_mtime layer with
    | Some new_mtime, Some old_mtime => old_mtime <? new_mtime
    | Some _, None => true
    | None, Some _ => true
    | None, None => false
    end) (st_layer_mtimes st).

(** [is_unix_socket_allowed] after the state has been brought up to date. *)
Definition unix_socket_allowed (host : Host) (macos : bool) (canonicalize : str → option str)
    (st : ConfigState) (path : str) : bool :=
  if negb macos then false
  else if negb (is_absolute path) then false
  else
    match from_absolute_path host path with
    | None => false
    | Some requested_abs =>
        let requested_canonical := canonicalize requested_abs in
        existsb (λ allowed,
          if bool_decide (allowed = path) then true
          else
            match requested_canonical with
            | None => false
            | Some requested_canonical =>
                match canonicalize allowed with
                | Some allowed_canonical => path_eq allowed_canonical requested_canonical
                | None => false
                end
            end) (allow_unix_sockets (policy_of st))
    end.

(** ** Building the state *)

(** What a build and a decision read of the outside: the files, their times, the
    resolver. *)
Record World := {
  w_disk : Disk;
  w_mtime : str → option Z;
  w_lookup : str → Z → option (list SocketAddr);
}.

(** What stays the same: the host, the parsers, the environment, the home folder
    and what [serde] derives for the configuration. *)
Record Setup := {
  su_host : Host;
  su_parsers : Parsers;
  su_env : str → option str;
  su_version : TomlValue → str;
  su_requirements : ConfigRequirementsWithSources → result str ConfigRequirements;
  su_show_error : LayerError → str;
  su_home : option str;
  su_managed : option str;
  su_config : TomlValue → option NetworkProxyConfig;
  su_partial : TomlValue → option PartialNetworkProxyConfig;
  su_show : list str → str;
}.
Context (su : Setup).

Definition layer_path (layer : ConfigLayerEntry) : option str :=
  match name layer with
  | System file => Some file
  | User file => Some file
  | Project dot_savfox_folder =>
      Some (resolve_path_against_base (su_host su) CONFIG_TOML_FILE dot_savfox_folder)
  | _ => None
  end.
Definition collect_layer_mtimes {R} (mtime : str → option Z) (stack : ConfigLayerStack R) : list LayerMtime :=
  omap (λ layer, (λ p, {| lm_path := p; lm_mtime := mtime p |}) <$> layer_path layer) (enabled_layers stack).

(** The stack the proxy reads: no working directory, no overrides. *)
Definition load_stack (w : World) (savfox_home : str)
    : result LoadError (ConfigLayerStack (ConfigRequirements * ConfigRequirementsToml)) :=
  load_config_layers_state (su_host su) (w_disk w) (su_parsers su) (su_env su) (su_version su)
    (su_requirements su) (su_show_error su) savfox_home None [] (su_managed su) None.

Definition compile (patterns : list str) : result BuildError GlobSet :=
  match compile_globset patterns with Some s => Ok s | None => Err BadPattern end.

Definition build_config_state (w : World) : result BuildError ConfigState :=
  match su_home su with
  | None => Err NoHome
  | Some savfox_home =>
      stack ← map_err LoadFailed (load_stack w savfox_home);
      let cfg_path := path_join savfox_home CONFIG_TOML_FILE in
      match su_config su (effective_config stack) with
      | None => Err BadConfig
      | Some config =>
          constraints ← map_err Constrained_by
            (enforce_trusted_constraints (su_partial su) (su_show su) stack config);
          let layer_mtimes := collect_layer_mtimes (w_mtime w) stack in
          deny_set ← compile (denied_domains (policy (network_proxy config)));
          allow_set ← compile (allowed_domains (policy (network_proxy config)));
          Ok {| st_config := config; st_allow_set := allow_set; st_deny_set := deny_set;
                st_constraints := constraints; st_layer_mtimes := layer_mtimes;
                st_cfg_path := cfg_path; st_blocked := [] |}
      end
  end.

(** ** Tasks *)

(** The requests of [NetworkProxyState]. *)
Inductive Op :=
| HostBlocked (host : str) (port : Z)
| RecordBlocked (entry : BlockedRequest)
| DrainBlocked
| SetNetworkMode (m : NetworkMode)
| ForceReload.

Inductive Outcome :=
| Decided (host : str) (port : Z) (d : HostBlockDecision) (addresses : option (list SocketAddr))
| Drained (entries : list BlockedRequest)
| Done.

(** Where a task stands; other tasks run between two steps. *)
Inductive Task :=
| Start (op : Op)
| Reload (op : Op)
| Install (op : Op) (new_state : ConfigState)
| Body (op : Op)
| Resolve (asked host : str) (port : Z) (snap : ConfigState)
| Commit (m : NetworkMode) (constraints : NetworkProxyConstraints)
| Finished (outcome : option Outcome).

(** A task at its beginning: [force_reload] does not look at the times. *)
Definition task_of (op : Op) : Task := match op with ForceReload => Reload op | _ => Start op end.

(** The body of an operation, after [reload_if_needed]. *)
Definition body (op : Op) (st : ConfigState) : ConfigState * Task :=
  match op with
  | HostBlocked asked port =>
      match Host_parse asked with
      | None => (st, Finished (Some (Decided asked port (Blocked NotAllowed) None)))
      | Some host => (st, Resolve asked host port st)
      end
  | RecordBlocked entry => (record_blocked entry st, Finished (Some Done))
  | DrainBlocked => let '(st', l) := drain_blocked st in (st', Finished (Some (Drained l)))
  | SetNetworkMode m =>
      let constraints := st_constraints st in
      match validate_policy_against_constraints (su_show su) (with_mode m (st_config st)) constraints with
      | Ok _ => (st, Commit m constraints)
      | Err _ => (st, Finished None)
      end
  | ForceReload => (st, Finished (Some Done))
  end.

(** One step of a task, in the world as it is now.  [Finished None] is an error. *)
Definition task_step (w : World) (st : ConfigState) (t : Task) : ConfigState * Task :=
  match t with
  | Start op => (st, if needs_reload (w_mtime w) st then Reload op else Body op)
  | Reload op =>
      match build_config_state w with
      | Ok new_state => (st, Install op new_state)
      | Err _ => (st, Finished None)
      end
  | Install op new_state => (install new_state st, Body op)
  | Body op => body op st
  | Resolve asked host port snap =>
      let '(d, addresses) := decide_host (w_lookup w) snap host port in
      (st, Finished (Some (Decided asked port d addresses)))
  | Commit m constraints =>
      if bool_decide (st_constraints st = constraints)
      then (set_mode m st, Finished (Some Done))
      else (st, Start (SetNetworkMode m))
  | Finished o => (st, Finished o)
  end.

(** The system: the shared state and the tasks.  A step is one of a task that has
    not finished, in whatever world there is then, or the start of a new one. *)
Record System := { shared : ConfigState; tasks : list Task }.

Inductive Label := Runs (i : nat) (w : World) | Spawns (op : Op).
Inductive sys_step : System → Label → System → Prop :=
| step_runs s i w t st' t' :
    tasks s !! i = Some t → (∀ o, t ≠ Finished o) → task_step w (shared s) t = (st', t') →
    sys_step s (Runs i w) {| shared := st'; tasks := <[i := t']> (tasks s) |}
| step_spawns s op :
    sys_step s (Spawns op) {| shared := shared s; tasks := tasks s ++ [task_of op] |}.

(** [NetworkProxyState::new]. *)
Definition starts (s : System) : Prop :=
  ∃ w st, build_config_state w = Ok st ∧ s = {| shared := st; tasks := [] |}.
Inductive reachable : System → Prop :=
| reach_start s : starts s → reachable s
| reach_step s l s' : reachable s → sys_step s l s' → reachable s'.
End State.

(** * Correctness *)
(** ** The decision *)
Definition public (a : SocketAddr) : Prop := is_non_public_ip (ip_of a) = false.

Section Decision.
Context `{GlobLib} `{UrlLib}.

(** What lets a host past the check of local addresses. *)
Definition address_ok (lookup : str → Z → option (list SocketAddr)) (snap : ConfigState) (host : str)
    (port : Z) (addresses : option (list SocketAddr)) : Prop :=
  if allow_local_binding (policy_of snap) then addresses = None
  else if local_literal host then
    is_explicit_local_allowlisted (allowed_domains (policy_of snap)) host = true ∧ addresses = None
  else ∃ l, resolve_addresses lookup host port = Some l ∧ l ≠ [] ∧ Forall public l ∧ addresses = Some l.

Lemma decide_host_allowed lookup snap host port addresses :
  decide_host lookup snap host port = (Allowed, addresses) ↔
  is_match (st_deny_set snap) host = false ∧ is_match (st_allow_set snap) host = true ∧
  allowed_domains (policy_of snap) ≠ [] ∧ address_ok lookup snap host port addresses.
Proof.
  unfold decide_host, address_ok. destruct (is_match (st_deny_set snap) host); [naive_solver|].
  set (ds := allowed_domains (policy_of snap)). set (m := is_match (st_allow_set snap) host).
  assert (∀ r, (if bool_decide (ds = []) || negb m then (Blocked NotAllowed, r) else (Allowed, r)) =
               (Allowed, addresses) ↔ m = true ∧ ds ≠ [] ∧ addresses = r) as Hv.
  { intros r. case_bool_decide; destruct m; cbn; naive_solver. }
  destruct (allow_local_binding _); [rewrite Hv; naive_solver|].
  destruct (local_literal host).
  { destruct (is_explicit_local_allowlisted _ _); [rewrite Hv|]; naive_solver. }
  destruct (resolve_addresses lookup host port) as [l|]; [|naive_solver].
  assert (negb (bool_decide (l = [])) && forallb (λ a, negb (is_non_public_ip (ip_of a))) l = true ↔
          l ≠ [] ∧ Forall public l) as Hl.
  { rewrite andb_true_iff, negb_true_iff, bool_decide_eq_false, forallb_forall, Forall_forall.
    unfold public. setoid_rewrite negb_true_iff. setoid_rewrite list_elem_of_In. done. }
  destruct (_ && _).
  - rewrite Hv. destruct Hl as [Hl _]. specialize (Hl eq_refl). naive_solver.
  - split; [done|]. intros (_ & _ & _ & l' & [= ->] & ? & ? & _). by destruct Hl as [_ Hl]; discriminate Hl.
Qed.

(** A host that only the allowlist keeps out has passed the other checks. *)
Lemma decide_host_passes lookup snap host port d addresses :
  decide_host lookup snap host port = (d, addresses) → d = Allowed ∨ d = Blocked NotAllowed →
  is_match (st_deny_set snap) host = false ∧ address_ok lookup snap host port addresses.
Proof.
  intros E [->| ->]; [by apply decide_host_allowed in E as (? & _ & _ & ?)|].
  unfold decide_host, address_ok in *. destruct (is_match (st_deny_set snap) host); [done|]. split; [done|].
  destruct (allow_local_binding _); [by repeat case_match; simplify_eq|].
  destruct (local_literal host).
  { destruct (is_explicit_local_allowlisted _ _); [|done]. by repeat case_match; simplify_eq. }
  destruct (resolve_addresses lookup host port) as [l|]; [|done].
  destruct (negb (bool_decide (l = [])) && _) eqn:El; [|done]. exists l. split; [done|].
  apply andb_true_iff in El as [Hne%negb_true_iff%bool_decide_eq_false Hl]. split; [done|].
  split; [|by repeat case_match; simplify_eq].
  rewrite forallb_forall in Hl. apply Forall_forall. intros a Ha%list_elem_of_In.
  by apply Hl, negb_true_iff in Ha.
Qed.
End Decision.

(** ** The invariant of the system *)
Section Invariant.
Context `{Laws : GlobLaws} `{U : UrlLib} `{!UrlLaws U} (su : Setup).

(** The configuration in use is within the constraints, these are the ones of the
    trusted layers of a stack that was loaded, the sets are compiled from the
    configuration, and the log is bounded. *)
Record state_ok (st : ConfigState) : Prop := {
  ok_within : within (st_config st) (st_constraints st);
  ok_allow : compile_globset (allowed_domains (policy_of st)) = Some (st_allow_set st);
  ok_deny : compile_globset (denied_domains (policy_of st)) = Some (st_deny_set st);
  ok_trusted : ∃ w home stack, load_stack su w home = Ok stack ∧
    network_proxy_constraints_from_trusted_layers (su_partial su) stack = Some (st_constraints st);
  ok_blocked : (length (st_blocked st) ≤ MAX_BLOCKED_EVENTS)%nat;
}.

Definition task_ok (t : Task) : Prop :=
  match t with
  | Install _ new_state => state_ok new_state
  | Resolve asked host _ snap => Host_parse asked = Some host ∧ state_ok snap
  | Commit m c => ∃ cfg, within (with_mode m cfg) c
  | Finished (Some (Decided asked port Allowed addresses)) =>
      ∃ w host snap, Host_parse asked = Some host ∧ state_ok snap ∧
        decide_host (w_lookup w) snap host port = (Allowed, addresses)
  | _ => True
  end.


Lemma compile_Ok ps s : compile ps = Ok s → compile_globset ps = Some s.
Proof. unfold compile. destruct (compile_globset ps); naive_solver. Qed.

Lemma build_ok w st : build_config_state su w = Ok st → state_ok st ∧ st_blocked st = [].
Proof.
  unfold build_config_state. destruct (su_home su) as [home|]; [|done].
  intros (stack & Hstack%map_err_Ok & Hb)%bind_Ok.
  destruct (su_config su (effective_config stack)) as [cfg|]; [|done].
  apply bind_Ok in Hb as (c & Hc%map_err_Ok & (deny & Hdeny%compile_Ok & Hb)%bind_Ok).
  apply bind_Ok in Hb as (allow & Hallow%compile_Ok & [= <-]).
  unfold enforce_trusted_constraints in Hc.
  destruct (network_proxy_constraints_from_trusted_layers (su_partial su) stack) as [c'|] eqn:Ec; [|done].
  apply bind_Ok in Hc as ([] & Hv%map_err_Ok & [= ->]).
  split; [|done]. split; try done; cbn.
  - by apply (proj1 (validate_within _ _ _) Hv).
  - eauto.
  - unfold MAX_BLOCKED_EVENTS. lia.
Qed.

Lemma record_length e st : (length (st_blocked (record_blocked e st)) ≤ MAX_BLOCKED_EVENTS)%nat.
Proof. unfold record_blocked. cbn. rewrite length_drop. lia. Qed.

Lemma with_blocked_ok b st :
  state_ok st → (length b ≤ MAX_BLOCKED_EVENTS)%nat → state_ok (with_blocked b st).
Proof. intros [] ?. by split. Qed.

Lemma body_ok op st st' t :
  state_ok st → body su op st = (st', t) → state_ok st' ∧ task_ok t.
Proof.
  intros Hst. destruct op as [asked port|e| |m|]; cbn.
  - destruct (Host_parse asked) as [host|] eqn:Eh; intros [= <- <-]; by cbn.
  - intros [= <- <-]. split; [|done]. by apply with_blocked_ok, (record_length e st).
  - intros [= <- <-]. split; [|done]. apply with_blocked_ok; [done|]. cbn. lia.
  - destruct (validate_policy_against_constraints _ _ _) as [[]|] eqn:Ev; intros [= <- <-]; [|done].
    split; [done|]. exists (st_config st). by apply (proj1 (validate_within _ _ _) Ev).
  - by intros [= <- <-].
Qed.

Lemma task_step_ok w st t st' t' :
  state_ok st → task_ok t → task_step su w st t = (st', t') → state_ok st' ∧ task_ok t'.
Proof.
  intros Hst Ht. destruct t as [op|op|op n|op|asked host port snap|m c|o]; cbn -[body decide_host].
  - intros [= <- <-]. split; [done|]. by destruct (needs_reload _ _).
  - destruct (build_config_state su w) as [n|] eqn:En; intros [= <- <-]; [|done].
    split; [done|]. by apply build_ok in En as [? _].
  - intros [= <- <-]. split; [|done]. apply with_blocked_ok; [done|apply Hst].
  - by apply body_ok.
  - destruct (decide_host _ _ _ _) as [d addrs] eqn:Ed. intros [= <- <-]. split; [done|].
    destruct Ht as [??]. destruct d; [|done]. cbn. eauto 10.
  - case_bool_decide as Hc; intros [= <- <-]; [|done]. split; [|done].
    destruct Ht as [cfg Hcfg]. destruct Hst as [Hw ? ? ? ?]. rewrite <-Hc in Hcfg.
    split; try done. cbn. by apply (within_with_mode _ cfg).
  - by intros [= <- <-].
Qed.

Lemma step_ok s l s' :
  state_ok (shared s) ∧ Forall task_ok (tasks s) → sys_step su s l s' →
  state_ok (shared s') ∧ Forall task_ok (tasks s').
Proof.
  intros [Hst Ht] Hstep. destruct Hstep as [s i w t st' t' Hi _ E|s op]; cbn.
  - apply task_step_ok in E as [? ?]; [|done|by apply (Forall_lookup_1 _ _ i t Ht)].
    split; [done|]. by apply Forall_insert.
  - split; [done|]. apply Forall_app. split; [done|]. apply Forall_singleton. by destruct op.
Qed.

Lemma reachable_ok s : reachable su s → state_ok (shared s) ∧ Forall task_ok (tasks s).
Proof.
  induction 1 as [s (w & st & Hb & ->)|s l s' _ IH Hstep]; [|by apply (step_ok s l)].
  cbn. split; [by apply build_ok in Hb as [? _]|constructor].
Qed.
End Invariant.

Section Results.
Context `{Laws : GlobLaws} `{U : UrlLib} `{!UrlLaws U} (su : Setup).

(** C36. However the requests, the reloads and the changes of mode interleave and
    whatever happens to the files meanwhile: the configuration in use is within
    the constraints of the trusted layers of a stack that was loaded, the two
    compiled sets are the ones of that configuration, and the log of blocked
    requests holds at most 200 entries. *)
Theorem proxy_state_invariant s : reachable su s → state_ok su (shared s).
Proof. intros Hr. by apply reachable_ok. Qed.

(** A host is let through only with reason.  When a task, in any interleaving,
    ends with [Allowed] for a host, it decided on one state of the proxy that was
    in order: no denied entry of it names the host, an allowed entry does, and so
    does a managed allowed entry where there are any, while no managed denied
    entry does; and without local binding either the host is a local literal that
    the allowlist spells out, or the answer of the resolver is not empty, all
    public, and handed to the connector. *)
Theorem allowed_hosts s i asked port addresses :
  reachable su s →
  tasks s !! i = Some (Finished (Some (Decided asked port Allowed addresses))) →
  ∃ host snap, Host_parse asked = Some host ∧ state_ok su snap ∧
    (HostPolicy.plain_host host →
     Forall named_entry (allowed_domains (policy_of snap)) →
     Forall plain_entry (denied_domains (policy_of snap)) →
     (∀ e, e ∈ denied_domains (policy_of snap) → dom_matches (DomainPattern_parse e) host = false) ∧
     (∃ e, e ∈ allowed_domains (policy_of snap) ∧ dom_matches (DomainPattern_parse e) host = true) ∧
     (∀ ms, c_allowed_domains (st_constraints snap) = Some ms → Forall managed_entry ms →
        ∃ m, m ∈ ms ∧ dom_matches (DomainPattern_parse m) host = true) ∧
     (∀ ms m, c_denied_domains (st_constraints snap) = Some ms → m ∈ ms →
        dom_matches (DomainPattern_parse m) host = false)) ∧
    (allow_local_binding (policy_of snap) = false →
     local_literal host = true ∧
       is_explicit_local_allowlisted (allowed_domains (policy_of snap)) host = true ∨
     ∃ l, addresses = Some l ∧ l ≠ [] ∧ Forall public l).
Proof.
  intros Hr Ht. destruct (reachable_ok su s Hr) as [_ Hok].
  apply (Forall_lookup_1 _ _ _ _ Hok) in Ht as (w & host & snap & Hh & Hsnap & Hd).
  apply decide_host_allowed in Hd as (Hdeny & Hallow & _ & Haddr).
  exists host, snap. split; [done|]. split; [done|]. split.
  - intros Hph Hna Hpd. destruct Hsnap as [Hw Ha Hde _ _].
    apply (proj2 (validate_within (@concat char) _ _)) in Hw.
    destruct (managed_bounds (@concat char) _ _ _ _ host Hw Ha Hde Hna Hpd Hph) as (Hma & Hmd & _).
    assert (∀ e, e ∈ denied_domains (policy_of snap) → dom_matches (DomainPattern_parse e) host = false) as Hno.
    { intros e He. apply not_true_is_false. intros Hm. apply not_true_iff_false in Hdeny. apply Hdeny.
      apply (compile_globset_matches _ _ host Hpd Hph Hde). eauto. }
    split_and!; [done| | |].
    + by apply (compile_globset_matches _ _ host (Forall_impl _ _ _ Hna named_plain) Hph Ha).
    + intros ms Hms Hme. by apply Hma.
    + intros ms m Hms Hin. apply not_true_is_false. intros Hm.
      apply (Hmd ms m Hms Hin) in Hm. congruence.
  - unfold address_ok in Haddr. intros Hl. rewrite Hl in Haddr.
    destruct (local_literal host); [left; naive_solver|right].
    destruct Haddr as (l & _ & ? & ? & ->). eauto.
Qed.

(** *** The log of blocked requests *)

(** What a step adds to the log, and what it hands out. *)
Definition recorded_by (s : System) (l : Label) : list BlockedRequest :=
  match l with
  | Runs i _ => match tasks s !! i with Some (Body (RecordBlocked e)) => [e] | _ => [] end
  | Spawns _ => []
  end.
Definition drained_by (s : System) (l : Label) : list BlockedRequest :=
  match l with
  | Runs i _ => match tasks s !! i with Some (Body DrainBlocked) => st_blocked (shared s) | _ => [] end
  | Spawns _ => []
  end.

(** A run, with all that was recorded and all that was drained, in order. *)
Inductive logged_run : System → list BlockedRequest → list BlockedRequest → System → Prop :=
| logged_nil s : logged_run s [] [] s
| logged_step s rec dr s' l s'' :
    logged_run s rec dr s' → sys_step su s' l s'' →
    logged_run s (rec ++ recorded_by s' l) (dr ++ drained_by s' l) s''.

Lemma step_log s l s' :
  sys_step su s l s' →
  (∃ k, st_blocked (shared s') = drop k (st_blocked (shared s) ++ recorded_by s l) ∧
        (k = 0%nat ∨ (MAX_BLOCKED_EVENTS < length (st_blocked (shared s) ++ recorded_by s l))%nat) ∧
        drained_by s l = []) ∨
  st_blocked (shared s') = [] ∧ drained_by s l = st_blocked (shared s) ∧ recorded_by s l = [].
Proof.
  intros [s0 i w t st' t' Hi _ E|s0 op]; cbn.
  - rewrite Hi. assert (∀ st, st_blocked st = st_blocked (shared s0) →
      ∃ k, st_blocked st = drop k (st_blocked (shared s0) ++ []) ∧
        (k = 0%nat ∨ (MAX_BLOCKED_EVENTS < length (st_blocked (shared s0) ++ []))%nat) ∧ @nil BlockedRequest = [])
      as Hsame by (intros st Hst; exists 0%nat; rewrite app_nil_r; auto).
    destruct t as [op|op|op n|op|asked host port snap|m c|o]; cbn -[body decide_host] in E.
    + left. apply Hsame. by injection E as <- _.
    + left. apply Hsame. destruct (build_config_state su w); by injection E as <- _.
    + left. apply Hsame. by injection E as <- _.
    + destruct op as [asked port|e| |m|]; cbn in E.
      * left. apply Hsame. destruct (Host_parse asked); by injection E as <- _.
      * left. injection E as <- _. cbn. eexists. split; [done|]. split; [|done].
        destruct (decide (MAX_BLOCKED_EVENTS < length (st_blocked (shared s0) ++ [e]))%nat); [by right|left; lia].
      * right. by injection E as <- _.
      * left. apply Hsame. destruct (validate_policy_against_constraints _ _ _); by injection E as <- _.
      * left. apply Hsame. by injection E as <- _.
    + left. apply Hsame. destruct (decide_host _ _ _ _). by injection E as <- _.
    + left. apply Hsame. case_bool_decide; by injection E as <- _.
    + left. apply Hsame. by injection E as <- _.
  - left. exists 0%nat. rewrite app_nil_r. auto.
Qed.

(** No blocked request is invented, returned twice or out of order, whatever
    is reloaded meanwhile: what was drained, followed by what the log still holds,
    is taken in order from what was recorded; and while no more than 200 requests
    were recorded it is all of it. *)
Theorem blocked_log_fifo s rec dr s' :
  logged_run s rec dr s' →
  dr ++ st_blocked (shared s') `sublist_of` st_blocked (shared s) ++ rec ∧
  ((length (st_blocked (shared s) ++ rec) ≤ MAX_BLOCKED_EVENTS)%nat →
   dr ++ st_blocked (shared s') = st_blocked (shared s) ++ rec).
Proof.
  induction 1 as [s|s rec dr s' l s'' _ [IHs IHe] Hstep].
  { by rewrite app_nil_r. }
  apply step_log in Hstep as [(k & -> & Hk & ->)|(-> & -> & ->)].
  - rewrite app_nil_r, (app_assoc _ rec). split.
    + trans (dr ++ st_blocked (shared s') ++ recorded_by s' l).
      * apply sublist_app; [done|]. apply sublist_drop.
      * rewrite app_assoc. by apply sublist_app.
    + intros Hlen. rewrite length_app in Hlen.
      destruct Hk as [->|Hk]; [rewrite drop_0, app_assoc, IHe by lia; done|].
      rewrite <-IHe in Hlen by lia. rewrite length_app in Hk, Hlen. lia.
  - by rewrite !app_nil_r.
Qed.
End Results.

(** ** Progress *)
Section Progress.
Context `{GlobLib} `{UrlLib} (su : Setup).
(** An infinite run of the system. *)
Context (run : nat → System) (labels : nat → Label) (Hrun : ∀ n, sys_step su (run n) (labels n) (run (S n))).
Context (i : nat) (m : NetworkMode).

Definition runs (l : Label) : bool := match l with Runs j _ => bool_decide (j = i) | Spawns _ => false end.

(** The task is not starved. *)
Definition fair : Prop :=
  ∀ n, (∃ o, tasks (run n) !! i = Some (Finished o)) ∨ ∃ d, runs (labels (n + d)) = true.

(** A change of mode that is under way. *)
Definition changing (t : Task) : Prop :=
  match t with
  | Start op | Reload op | Install op _ | Body op => op = SetNetworkMode m
  | Commit m' _ => m' = m
  | _ => False
  end.

(** How far it is from the end, when the constraints stay [c]. *)
Definition steps_left (c : NetworkProxyConstraints) (t : Task) : nat :=
  match t with
  | Start _ => 5
  | Reload _ => 4
  | Install _ _ => 3
  | Body _ => 2
  | Resolve _ _ _ _ => 1
  | Commit _ c' => if bool_decide (c' = c) then 1 else 6
  | Finished _ => 0
  end%nat.

Lemma not_run_keeps n t :
  tasks (run n) !! i = Some t → runs (labels n) = false → tasks (run (S n)) !! i = Some t.
Proof.
  intros Ht Hl. destruct (Hrun n) as [s j w t0 st' t' _ _ _|s op]; cbn in *.
  - apply bool_decide_eq_false in Hl. by rewrite list_lookup_insert_ne.
  - by rewrite lookup_app_l by by apply lookup_lt_Some in Ht.
Qed.

Lemma next_run d n t :
  tasks (run n) !! i = Some t → runs (labels (n + d)) = true →
  ∃ k, (n ≤ k)%nat ∧ tasks (run k) !! i = Some t ∧ runs (labels k) = true.
Proof.
  revert n. induction d as [|d IH]; intros n Ht Hr.
  - exists n. rewrite Nat.add_0_r in Hr. auto.
  - destruct (runs (labels n)) eqn:En; [eauto|].
    destruct (IH (S n)) as (k & ? & ? & ?); [by apply not_run_keeps|by rewrite <-Nat.add_succ_comm in Hr|].
    exists k. split; [lia|done].
Qed.

Lemma run_task k t :
  tasks (run k) !! i = Some t → runs (labels k) = true →
  ∃ w st' t', task_step su w (shared (run k)) t = (st', t') ∧ shared (run (S k)) = st' ∧
    tasks (run (S k)) !! i = Some t'.
Proof.
  intros Ht Hr. destruct (Hrun k) as [s j w t0 st' t' Hj _ E|s op]; cbn in *; [|done].
  apply bool_decide_eq_true in Hr as ->. apply lookup_lt_Some in Hj as Hlt. simplify_eq. exists w, st', t'.
  split_and!; [done..|]. by rewrite list_lookup_insert, decide_True.
Qed.

(** One step of the change: it ends, or gets closer to the end. *)
Lemma changing_step w st t st' t' :
  changing t → task_step su w st t = (st', t') →
  t' = Finished None ∨ t' = Finished (Some Done) ∧ mode (settings_of st') = m ∨
  changing t' ∧ (steps_left (st_constraints st) t' < steps_left (st_constraints st) t)%nat.
Proof.
  intros Hc. destruct t as [op|op|op n|op|asked host port snap|m' c|o]; cbn -[validate_policy_against_constraints] in *;
    [subst op..|done|subst m'|done].
  - intros [= <- <-]. right; right. destruct (needs_reload _ _); cbn; split; (done || lia).
  - destruct (build_config_state su w); intros [= <- <-]; [|by left]. right; right. cbn. split; [done|lia].
  - intros [= <- <-]. right; right. cbn. split; [done|lia].
  - cbn -[validate_policy_against_constraints].
    destruct (validate_policy_against_constraints _ _ _); intros [= <- <-]; [|by left].
    right; right. cbn. rewrite bool_decide_true by done. split; [done|lia].
  - destruct (decide (st_constraints st = c)) as [<-|Hne].
    + rewrite bool_decide_true by done. intros [= <- <-]. right; left. done.
    + rewrite bool_decide_false by done. intros [= <- <-]. right; right. split; [done|].
      cbn. rewrite bool_decide_false by done. lia.
Qed.

Lemma changing_ends c N :
  fair → (∀ n, (N ≤ n)%nat → st_constraints (shared (run n)) = c) →
  ∀ r n t, (steps_left c t ≤ r)%nat → (N ≤ n)%nat → tasks (run n) !! i = Some t → changing t →
  ∃ k o, (n ≤ k)%nat ∧ tasks (run (S k)) !! i = Some (Finished o) ∧
    (o = None ∨ o = Some Done ∧ mode (settings_of (shared (run (S k)))) = m).
Proof.
  intros Hfair Hc. induction r as [|r IH]; intros n t Hr Hn Ht Hch.
  { destruct t; cbn in *; try lia; try done. case_bool_decide; lia. }
  destruct (Hfair n) as [[o Ho]|[d Hd]]; [by simplify_eq|].
  destruct (next_run d n t Ht Hd) as (k & Hk & Htk & Hrk).
  destruct (run_task k t Htk Hrk) as (w & st' & t' & E & Hst & Ht').
  apply changing_step in E as [->|[[-> Hm]|[Hch' Hlt]]]; [| | |done].
  - exists k, None. auto.
  - exists k, (Some Done). rewrite Hst. auto.
  - rewrite Hc in Hlt by lia. destruct (IH (S k) t') as (k' & o & ? & ? & ?); [lia|lia|done|done|].
    exists k', o. split; [lia|done].
Qed.

(** Until the constraints settle it may start again, but is not lost. *)
Lemma changing_until d n t :
  tasks (run n) !! i = Some t → changing t →
  (∃ k o, (n ≤ k)%nat ∧ tasks (run (S k)) !! i = Some (Finished o) ∧
     (o = None ∨ o = Some Done ∧ mode (settings_of (shared (run (S k)))) = m)) ∨
  ∃ t', tasks (run (n + d)) !! i = Some t' ∧ changing t'.
Proof.
  revert n t. induction d as [|d IH]; intros n t Ht Hch.
  { right. rewrite Nat.add_0_r. eauto. }
  assert (∃ t', tasks (run (S n)) !! i = Some t' ∧
    (t' = Finished None ∨ t' = Finished (Some Done) ∧ mode (settings_of (shared (run (S n)))) = m ∨ changing t'))
    as (t' & Ht' & Hcase).
  { destruct (runs (labels n)) eqn:En; [|exists t; split; [by apply not_run_keeps|auto]].
    destruct (run_task n t Ht En) as (w & st' & t' & E & Hst & Ht'). exists t'. split; [done|].
    apply changing_step in E; [|done]. rewrite Hst. tauto. }
  destruct Hcase as [->|[[-> Hm]|Hch']]; [left; exists n, None; by auto|left; exists n, (Some Done); by auto|].
  replace (n + S d)%nat with (S n + d)%nat by lia.
  destruct (IH (S n) t' Ht' Hch') as [(k & o & ? & ?)|?]; [left; exists k, o; split; [lia|done]|by right].
Qed.

(** A change of the network mode ends.  In every run in which the task is not
    starved and the constraints change only finitely often, whatever the files,
    the reloads and the other requests do, [set_network_mode] returns: with an
    error, or after a step that left the proxy in the mode asked for. *)
Theorem set_network_mode_returns c N n :
  fair → (∀ k, (N ≤ k)%nat → st_constraints (shared (run k)) = c) →
  tasks (run n) !! i = Some (task_of (SetNetworkMode m)) →
  ∃ k o, (n ≤ k)%nat ∧ tasks (run (S k)) !! i = Some (Finished o) ∧
    (o = None ∨ o = Some Done ∧ mode (settings_of (shared (run (S k)))) = m).
Proof.
  intros Hfair Hc Ht. destruct (changing_until (N - n) n _ Ht) as [Hend|(t & Htn & Hch)]; [done| |].
  - destruct Hend as (k & o & ? & ? & ?). exists k, o. split; [lia|done].
  - destruct (changing_ends c N Hfair Hc _ (n + (N - n)) t (Nat.le_refl _)) as (k & o & ? & ? & ?);
      [lia|done|done|]. exists k, o. split; [lia|done].
Qed.
End Progress.

(** ** Witnesses *)

(** The system is executable: the next state under a label, if there is one. *)
Definition sys_next `{GlobLib} `{UrlLib} (su : Setup) (s : System) (l : Label) : option System :=
  match l with
  | Spawns op => Some {| shared := shared s; tasks := tasks s ++ [task_of op] |}
  | Runs i w =>
      t ← tasks s !! i;
      match t with
      | Finished _ => None
      | _ => let '(st', t') := task_step su w (shared s) t in
             Some {| shared := st'; tasks := <[i := t']> (tasks s) |}
      end
  end.
Definition sys_exec `{GlobLib} `{UrlLib} (su : Setup) (ls : list Label) (s : System) : option System :=
  foldl (λ o l, s ← o; sys_next su s l) (Some s) ls.

Lemma sys_next_step `{GlobLib} `{UrlLib} su s l s' : sys_next su s l = Some s' → sys_step su s l s'.
Proof.
  destruct l as [i w|op]; cbn -[task_step]; [|intros [= <-]; constructor].
  intros (t & Ht & E)%bind_Some.
  assert (∀ o, t ≠ Finished o) as Hne by (by intros o ->).
  destruct (task_step su w (shared s) t) as [st' t'] eqn:Es.
  replace s' with {| shared := st'; tasks := <[i := t']> (tasks s) |}; [by apply step_runs with t|].
  destruct t; try by injection E. by destruct (Hne outcome).
Qed.

Lemma sys_exec_reachable `{GlobLib} `{UrlLib} su ls s s' :
  reachable su s → sys_exec su ls s = Some s' → reachable su s'.
Proof.
  unfold sys_exec. revert s. induction ls as [|l ls IH]; intros s Hr; cbn; [by intros [= <-]|].
  destruct (sys_next su s l) as [s1|] eqn:E; cbn.
  - apply IH. apply reach_step with s l; [done|by apply sys_next_step].
  - intros Hf. exfalso. clear -Hf. induction ls; by cbn in *.
Qed.

Lemma sys_exec_logged `{GlobLib} `{UrlLib} su s l s' :
  sys_next su s l = Some s' → logged_run su s (recorded_by s l) (drained_by s l) s'.
Proof. intros E%sys_next_step. apply (logged_step su s [] [] s l s' (logged_nil su s) E). Qed.

#[local] Existing Instances simple_globs simple_glob_laws plain_url_host plain_url_laws.

Definition demo_partial : PartialNetworkProxyConfig :=
  {| p_enabled := None; p_mode := None; p_allow_upstream_proxy := Some false;
     p_dangerously_allow_non_loopback_proxy := None; p_dangerously_allow_non_loopback_admin := None;
     p_policy := {| p_allowed_domains := Some [§"**.example.com"];
                    p_denied_domains := Some [§"secret.example.com"];
                    p_allow_unix_sockets := None; p_allow_local_binding := None |} |}.
Definition demo_setup : Setup := {|
  su_host := mini_host; su_parsers := mini_parsers ∅; su_env := λ _, None; su_version := λ _, [];
  su_requirements := any_requirements; su_show_error := λ _, []; su_home := Some §"/h";
  su_managed := None; su_config := λ _, Some demo_config; su_partial := λ _, Some demo_partial;
  su_show := @concat char |}.
Definition demo_world (mtime : option Z) : World := {|
  w_disk := mini_disk [] []; w_mtime := λ p, if bool_decide (p = §"/h/config.toml") then mtime else None;
  w_lookup host port :=
    if bool_decide (host = §"docs.example.com")
    then Some [{| ip_of := V4 (octets4 93 184 216 34); port_of := port |}] else None |}.

Definition demo_run (l : list Label) : option System :=
  match build_config_state demo_setup (demo_world (Some 7)) with
  | Ok st => sys_exec demo_setup l {| shared := st; tasks := [] |}
  | Err _ => None
  end.

Lemma demo_reachable l s : demo_run l = Some s → reachable demo_setup s.
Proof.
  unfold demo_run. destruct (build_config_state demo_setup (demo_world (Some 7))) as [st|] eqn:E; [|done].
  apply sys_exec_reachable, reach_start. exists (demo_world (Some 7)), st. split; [exact E|reflexivity].
Qed.

Definition demo_labels : list Label :=
  let w := demo_world (Some 7) in
  [Spawns (HostBlocked §"docs.example.com:443" 443); Runs 0 w; Runs 0 w; Runs 0 w].

(** A file that is replaced by an older one, or that disappears and comes back
    between two requests, is not read again. *)
Example older_file_not_noticed :
  option_map (λ s, (needs_reload (w_mtime (demo_world (Some 8))) (shared s),
                    needs_reload (w_mtime (demo_world None)) (shared s),
                    needs_reload (w_mtime (demo_world (Some 6))) (shared s))) (demo_run [])
  = Some (true, true, false).
Proof. by vm_compute. Qed.

Lemma proxy_state_invariant_witness :
  ∃ s, demo_run [Spawns (SetNetworkMode Full)] = Some s ∧ state_ok demo_setup (shared s).
Proof.
  destruct (demo_run [Spawns (SetNetworkMode Full)]) as [s|] eqn:E; [|by vm_compute in E].
  exists s. split; [done|]. apply (proxy_state_invariant demo_setup s). by apply demo_reachable in E.
Defined.

Lemma allowed_hosts_witness :
  ∃ s addresses snap, demo_run demo_labels = Some s ∧
    tasks s !! 0%nat = Some (Finished (Some (Decided §"docs.example.com:443" 443 Allowed (Some addresses)))) ∧
    state_ok demo_setup snap ∧ length addresses = 1%nat.
Proof.
  destruct (demo_run demo_labels) as [s|] eqn:E; [|by vm_compute in E].
  set (addresses := [{| ip_of := V4 (octets4 93 184 216 34); port_of := 443 |}]).
  assert (tasks s !! 0%nat
          = Some (Finished (Some (Decided §"docs.example.com:443" 443 Allowed (Some addresses))))) as Ht
    by (vm_compute in E; injection E as <-; by vm_compute).
  destruct (allowed_hosts demo_setup s 0 _ _ _ (demo_reachable _ _ E) Ht) as (host & snap & _ & Hsnap & _).
  exists s, addresses, snap. split; [reflexivity|]. split; [exact Ht|]. split; [exact Hsnap|reflexivity].
Defined.

Definition demo_entry : BlockedRequest :=
  {| br_host := §"a"; br_reason := reason_as_str Denied; br_client := None; br_method := None;
     br_mode := None; br_protocol := §"http"; br_timestamp := 0 |}.
Lemma blocked_log_fifo_witness :
  ∃ s s', demo_run [Spawns (RecordBlocked demo_entry); Runs 0 (demo_world (Some 7))] = Some s ∧
    sys_next demo_setup s (Runs 0 (demo_world (Some 7))) = Some s' ∧
    st_blocked (shared s') = [demo_entry].
Proof.
  destruct (demo_run _) as [s|] eqn:E; [|by vm_compute in E].
  destruct (sys_next demo_setup s (Runs 0 (demo_world (Some 7)))) as [s'|] eqn:En;
    [|exfalso; vm_compute in E; injection E as <-; by vm_compute in En].
  exists s, s'. split; [done|]. split; [done|].
  assert (st_blocked (shared s) = [] ∧ recorded_by s (Runs 0 (demo_world (Some 7))) = [demo_entry] ∧
          drained_by s (Runs 0 (demo_world (Some 7))) = []) as (H1 & H2 & H3)
    by (vm_compute in E; injection E as <-; by vm_compute).
  destruct (blocked_log_fifo demo_setup s _ _ s' (sys_exec_logged demo_setup s _ s' En)) as [_ H].
  rewrite H1, H2, H3 in H. apply H. cbn. unfold MAX_BLOCKED_EVENTS. lia.
Defined.

(** A run in which a change of mode goes through, and then only reloads begin. *)
Definition live_state : ConfigState :=
  {| st_config := {| network_proxy := default_settings |}; st_allow_set := []; st_deny_set := [];
     st_constraints := no_constraints; st_layer_mtimes := []; st_cfg_path := []; st_blocked := [] |}.
Definition live_run (n : nat) : System :=
  match n with
  | 0%nat => {| shared := live_state; tasks := [Start (SetNetworkMode Limited)] |}
  | 1%nat => {| shared := live_state; tasks := [Body (SetNetworkMode Limited)] |}
  | 2%nat => {| shared := live_state; tasks := [Commit Limited no_constraints] |}
  | S (S (S k)) => {| shared := set_mode Limited live_state;
                      tasks := Finished (Some Done) :: replicate k (Reload ForceReload) |}
  end.
Definition live_labels (n : nat) : Label :=
  if (n <? 3)%nat then Runs 0 (demo_world None) else Spawns ForceReload.

Lemma live_steps n : sys_step demo_setup (live_run n) (live_labels n) (live_run (S n)).
Proof.
  apply sys_next_step. destruct n as [|[|[|n]]]; [by vm_compute..|]. cbn.
  by rewrite <-replicate_S_end.
Qed.

Lemma set_network_mode_returns_witness :
  ∃ k o, tasks (live_run (S k)) !! 0%nat = Some (Finished o) ∧
    (o = None ∨ o = Some Done ∧ mode (settings_of (shared (live_run (S k)))) = Limited).
Proof.
  destruct (set_network_mode_returns demo_setup live_run live_labels live_steps 0 Limited no_constraints 0 0)
    as (k & o & _ & Ht & Ho).
  - intros n. destruct (decide (n < 3)%nat) as [Hn|Hn].
    + right. exists 0%nat. unfold live_labels. rewrite Nat.add_0_r. by rewrite (proj2 (Nat.ltb_lt n 3)).
    + left. exists (Some Done). by destruct n as [|[|[|n]]]; [lia..|].
  - by intros [|[|[|k]]] _.
  - done.
  - by exists k, o.
Defined.
