(* ===== verification/ProxyServers.v ===== *)
(** * The servers of the network proxy ([network-proxy/src/http_proxy.rs],
    [socks5.rs], [network_policy.rs], [connector.rs], [upstream.rs], [admin.rs],
    [responses.rs])

    The handlers as programs over their requests to the shared state, to the
    decider and to the network; the state may change between any two requests. *)
From S2P Require Import Prelude RustStr NetAddr PublicAddr HostPolicy ProxyConfig ProxyState.
Local Open Scope Z_scope.

(** ** Libraries *)

(** [rama]'s host with a port, and its parser of proxy addresses: the address and
    whether the protocol is given and not HTTP. *)
Class RamaNet := {
  Authority : Type;
  host_string : Authority → str;
  port_number : Authority → Z;
  same_authority : Authority → Authority → bool;
  proxy_address : str → option (Authority * bool);
}.

(** ** Data *)
Inductive NetworkProtocol := Http | HttpsConnect | Socks5Tcp | Socks5Udp.

Record NetworkPolicyRequest := {
  rq_protocol : NetworkProtocol;
  rq_host : str;
  rq_port : Z;
  rq_client_addr : option str;
  rq_method : option str;
  rq_command : option str;
  rq_exec_policy_hint : option str;
}.

Inductive NetworkDecision := Allow | Deny (reason : str).

Definition REASON_METHOD_NOT_ALLOWED : str := §"method_not_allowed".
Definition REASON_NOT_ALLOWED : str := §"not_allowed".
Definition REASON_POLICY_DENIED : str := §"policy_denied".
Definition REASON_PROXY_DISABLED : str := §"proxy_disabled".

Definition deny (reason : str) : NetworkDecision :=
  Deny (if bool_decide (reason = []) then REASON_POLICY_DENIED else reason).

Record BlockedRequestArgs := {
  ba_host : str;
  ba_reason : str;
  ba_client : option str;
  ba_method : option str;
  ba_mode : option NetworkMode;
  ba_protocol : str;
}.
(** [BlockedRequest::new], at the time [now]. *)
Definition BlockedRequest_new (now : Z) (a : BlockedRequestArgs) : BlockedRequest :=
  {| br_host := ba_host a; br_reason := ba_reason a; br_client := ba_client a; br_method := ba_method a;
     br_mode := ba_mode a; br_protocol := ba_protocol a; br_timestamp := now |}.

Record ValidatedTarget := { vt_host : str; vt_port : Z; vt_addresses : list SocketAddr }.

(** *** Responses *)
Inductive Body := Text (s : str) | BlockedJson (host reason : str).
Record Response := { status : Z; proxy_error : option str; response_body : Body }.

Definition text_response (status : Z) (body : str) : Response :=
  {| status := status; proxy_error := None; response_body := Text body |}.

Definition blocked_header_value (reason : str) : str :=
  if one_of reason [REASON_NOT_ALLOWED; reason_as_str NotAllowedLocal] then §"blocked-by-allowlist"
  else if bool_decide (reason = reason_as_str Denied) then §"blocked-by-denylist"
  else if bool_decide (reason = REASON_METHOD_NOT_ALLOWED) then §"blocked-by-method-policy"
  else §"blocked-by-policy".

Definition blocked_message (reason : str) : str :=
  if bool_decide (reason = REASON_NOT_ALLOWED) then §"Savfox blocked this request: domain not in allowlist."
  else if bool_decide (reason = reason_as_str NotAllowedLocal)
  then §"Savfox blocked this request: local/private addresses not allowed."
  else if bool_decide (reason = reason_as_str Denied)
  then §"Savfox blocked this request: domain denied by policy."
  else if bool_decide (reason = REASON_METHOD_NOT_ALLOWED)
  then §"Savfox blocked this request: method not allowed in limited mode."
  else §"Savfox blocked this request by network policy.".

Definition blocked_text_response (reason : str) : Response :=
  {| status := 403; proxy_error := Some (blocked_header_value reason);
     response_body := Text (blocked_message reason) |}.

Definition json_blocked (host reason : str) : Response :=
  {| status := 403; proxy_error := Some (blocked_header_value reason);
     response_body := BlockedJson host reason |}.

Definition internal_error : Response := text_response 500 §"error".

(** ** Programs *)
Section Servers.
Context `{RamaNet}.

(** What a handler asks of the outside.  [None] in an answer is an error of the
    state: a reload that failed. *)
Inductive Eff : Type → Type :=
| EnabledNow : Eff (option bool)
| ModeNow : Eff (option NetworkMode)
| MethodAllowed (method : str) : Eff (option bool)
| AllowUpstream : Eff (option bool)
| CheckHost (host : str) (port : Z) : Eff (option (HostBlockDecision * option (list SocketAddr)))
| CheckSocket (path : str) : Eff (option bool)
| AskDecider (request : NetworkPolicyRequest) : Eff NetworkDecision
| Record_ (args : BlockedRequestArgs) : Eff unit
| SetMode (m : NetworkMode) : Eff bool
| ForceReload : Eff bool
(** The connections: with what was validated and the proxy to go through. *)
| SendRequest (validated : option ValidatedTarget) (route : option Authority) : Eff (option Response)
| OpenTunnel (validated : option ValidatedTarget) (route : option Authority) : Eff bool
| SendToSocket (path : str) : Eff (option Response).

Inductive prog (R : Type) : Type :=
| Ret (r : R)
| Call {X : Type} (e : Eff X) (k : X → prog R).
Arguments Ret {R} r.
Arguments Call {R X} e k.

Fixpoint bind {A B} (p : prog A) (f : A → prog B) : prog B :=
  match p with Ret a => f a | Call e k => Call e (λ x, bind (k x) f) end.
Definition ask {X} (e : Eff X) : prog X := Call e Ret.
End Servers.
Arguments Ret {_ R} r.
Arguments Call {_ R X} e k.
#[export] Instance prog_mbind `{RamaNet} : MBind prog := λ A B f p, bind p f.

(** ** The policy *)
Section Handlers.
Context `{RamaNet}.
(** Whether a decider is installed. *)
Context (has_decider : bool).

Definition evaluate_host_policy_with_target (request : NetworkPolicyRequest)
    : prog (option (NetworkDecision * option ValidatedTarget)) :=
  answer ← ask (CheckHost (rq_host request) (rq_port request));
  match answer with
  | None => Ret None
  | Some (blocked, addresses) =>
      decision ← (match blocked with
                   | Allowed => Ret Allow
                   | Blocked NotAllowed =>
                       if has_decider then ask (AskDecider request)
                       else Ret (deny (reason_as_str NotAllowed))
                   | Blocked reason => Ret (deny (reason_as_str reason))
                   end);
      Ret (Some (decision,
                 match decision with
                 | Allow => (λ a, {| vt_host := rq_host request; vt_port := rq_port request;
                                     vt_addresses := a |}) <$> addresses
                 | Deny _ => None
                 end))
  end.

Definition evaluate_host_policy (request : NetworkPolicyRequest) : prog (option NetworkDecision) :=
  r ← evaluate_host_policy_with_target request; Ret (option_map fst r).

Definition proxy_disabled_response (host : str) (client method : option str) (protocol : str) : prog Response :=
  _ ← ask (Record_ {| ba_host := host; ba_reason := REASON_PROXY_DISABLED; ba_client := client;
                       ba_method := method; ba_mode := None; ba_protocol := protocol |});
  Ret (text_response 503 §"proxy disabled").

(** ** CONNECT *)
Definition CONNECT : str := §"CONNECT".

Definition http_connect_accept (target : option Authority) (client : option str)
    : prog (result Response (Authority * option ValidatedTarget)) :=
  match target with
  | None => Ret (Err (text_response 400 §"missing authority"))
  | Some authority =>
      let host := normalize_host (host_string authority) in
      if bool_decide (host = []) then Ret (Err (text_response 400 §"invalid host"))
      else
        enabled ← ask EnabledNow;
        match enabled with
        | None => Ret (Err internal_error)
        | Some false =>
            r ← proxy_disabled_response host client (Some CONNECT) §"http-connect"; Ret (Err r)
        | Some true =>
            let request := {| rq_protocol := HttpsConnect; rq_host := host; rq_port := port_number authority;
                              rq_client_addr := client; rq_method := Some CONNECT; rq_command := None;
                              rq_exec_policy_hint := None |} in
            evaluation ← evaluate_host_policy_with_target request;
            match evaluation with
            | Some (Deny reason, _) =>
                _ ← ask (Record_ {| ba_host := host; ba_reason := reason; ba_client := client;
                                     ba_method := Some CONNECT; ba_mode := None;
                                     ba_protocol := §"http-connect" |});
                Ret (Err (blocked_text_response reason))
            | None => Ret (Err (text_response 500 §"error"))
            | Some (Allow, validated) =>
                mode ← ask ModeNow;
                match mode with
                | None => Ret (Err internal_error)
                | Some Limited =>
                    _ ← ask (Record_ {| ba_host := host; ba_reason := REASON_METHOD_NOT_ALLOWED;
                                         ba_client := client; ba_method := Some CONNECT;
                                         ba_mode := Some Limited; ba_protocol := §"http-connect" |});
                    Ret (Err (blocked_text_response REASON_METHOD_NOT_ALLOWED))
                | Some Full => Ret (Ok (authority, validated))
                end
            end
        end
  end.

(** *** The upstream proxy *)
Section Upstream.
Context (env : str → option str).

Record UpstreamConfig := { up_http : option Authority; up_https : option Authority; up_all : option Authority }.

Fixpoint read_proxy_env (keys : list str) : option Authority :=
  match keys with
  | [] => None
  | key :: keys =>
      match env key with
      | None => read_proxy_env keys
      | Some value =>
          let value := trim value in
          if bool_decide (value = []) then read_proxy_env keys
          else
            match proxy_address value with
            | Some (proxy, false) => Some proxy
            | Some (_, true) => read_proxy_env keys
            | None => read_proxy_env keys
            end
      end
  end.

Definition no_upstream : UpstreamConfig := {| up_http := None; up_https := None; up_all := None |}.
Definition upstream_from_env : UpstreamConfig :=
  {| up_http := read_proxy_env [§"HTTP_PROXY"; §"http_proxy"];
     up_https := read_proxy_env [§"HTTPS_PROXY"; §"https_proxy"];
     up_all := read_proxy_env [§"ALL_PROXY"; §"all_proxy"] |}.

Definition or_else {A} (a b : option A) : option A := match a with Some _ => a | None => b end.

Definition proxy_for_protocol (c : UpstreamConfig) (is_secure : bool) : option Authority :=
  if is_secure then or_else (up_https c) (or_else (up_http c) (up_all c))
  else or_else (up_http c) (up_all c).

Definition proxy_for_connect : option Authority := proxy_for_protocol upstream_from_env true.

(** [http_connect_proxy] on what [http_connect_accept] handed over. *)
Definition http_connect_proxy (validated : option ValidatedTarget) : prog bool :=
  allow_upstream_proxy ← ask AllowUpstream;
  let proxy := if (default false allow_upstream_proxy : bool) then proxy_for_connect else None in
  ask (OpenTunnel validated proxy).

(** The whole of a CONNECT: the handler of the request, then the tunnel. *)
Definition http_connect (target : option Authority) (client : option str) : prog (result Response bool) :=
  accepted ← http_connect_accept target client;
  match accepted with
  | Err r => Ret (Err r)
  | Ok (_, validated) => b ← http_connect_proxy validated; Ret (Ok b)
  end.

(** ** Plain HTTP *)

(** A request: the method, the [x-unix-socket] header ([Some None]: not UTF-8),
    the target and whether its protocol is secure. *)
Record PlainRequest := {
  pr_method : str;
  pr_unix_socket : option (option str);
  pr_target : option Authority;
  pr_is_secure : bool;
}.

(** The branch of the [x-unix-socket] header. *)
Definition serve_unix_socket (macos : bool) (client : option str) (method socket_path : str)
    (method_allowed : bool) : prog Response :=
  enabled ← ask EnabledNow;
  match enabled with
  | None => Ret internal_error
  | Some false => proxy_disabled_response socket_path client (Some method) §"unix-socket"
  | Some true =>
      if negb method_allowed then Ret (json_blocked §"unix-socket" REASON_METHOD_NOT_ALLOWED)
      else if negb macos then Ret (text_response 501 §"unix sockets unsupported")
      else
        allowed ← ask (CheckSocket socket_path);
        match allowed with
        | Some true =>
            r ← ask (SendToSocket socket_path);
            Ret (default (text_response 502 §"unix socket proxy failed") r)
        | Some false => Ret (json_blocked §"unix-socket" REASON_NOT_ALLOWED)
        | None => Ret (text_response 500 §"error")
        end
  end.

Definition http_plain_proxy (macos : bool) (req : PlainRequest) (client : option str) : prog Response :=
  let method := pr_method req in
  method_allowed ← ask (MethodAllowed method);
  match method_allowed with
  | None => Ret internal_error
  | Some method_allowed =>
      match pr_unix_socket req with
      | Some None => Ret (text_response 400 §"invalid x-unix-socket header")
      | Some (Some socket_path) => serve_unix_socket macos client method socket_path method_allowed
      | None =>
          match pr_target req with
          | None => Ret (text_response 400 §"missing host")
          | Some authority =>
              let host := normalize_host (host_string authority) in
              enabled ← ask EnabledNow;
              match enabled with
              | None => Ret internal_error
              | Some false => proxy_disabled_response host client (Some method) §"http"
              | Some true =>
                  let request := {| rq_protocol := Http; rq_host := host;
                                    rq_port := port_number authority; rq_client_addr := client;
                                    rq_method := Some method; rq_command := None;
                                    rq_exec_policy_hint := None |} in
                  evaluation ← evaluate_host_policy_with_target request;
                  match evaluation with
                  | Some (Deny reason, _) =>
                      _ ← ask (Record_ {| ba_host := host; ba_reason := reason; ba_client := client;
                                          ba_method := Some method; ba_mode := None;
                                          ba_protocol := §"http" |});
                      Ret (json_blocked host reason)
                  | None => Ret (text_response 500 §"error")
                  | Some (Allow, validated) =>
                      if negb method_allowed then
                        _ ← ask (Record_ {| ba_host := host; ba_reason := REASON_METHOD_NOT_ALLOWED;
                                            ba_client := client; ba_method := Some method;
                                            ba_mode := Some Limited; ba_protocol := §"http" |});
                        Ret (json_blocked host REASON_METHOD_NOT_ALLOWED)
                      else
                        allow_upstream_proxy ← ask AllowUpstream;
                        match allow_upstream_proxy with
                        | None => Ret internal_error
                        | Some allow =>
                            let config := if (allow : bool) then upstream_from_env else no_upstream in
                            r ← ask (SendRequest validated (proxy_for_protocol config (pr_is_secure req)));
                            Ret (default (text_response 502 §"upstream failure") r)
                        end
                  end
              end
          end
      end
  end.
End Upstream.

(** ** SOCKS5 *)
Inductive SocksError := InvalidInput | PermissionDenied | OtherError.

(** [Ok b]: the connection was handed to the connector, with what came of it. *)
Definition handle_socks5_tcp (authority : Authority) (client : option str) : prog (result SocksError bool) :=
  let host := normalize_host (host_string authority) in
  let record (reason : str) (mode : option NetworkMode) : prog unit :=
    ask (Record_ {| ba_host := host; ba_reason := reason; ba_client := client; ba_method := None;
                    ba_mode := mode; ba_protocol := §"socks5" |}) in
  if bool_decide (host = []) then Ret (Err InvalidInput)
  else
    enabled ← ask EnabledNow;
    match enabled with
    | None => Ret (Err OtherError)
    | Some false => _ ← record REASON_PROXY_DISABLED None; Ret (Err PermissionDenied)
    | Some true =>
        mode ← ask ModeNow;
        match mode with
        | None => Ret (Err OtherError)
        | Some Limited => _ ← record REASON_METHOD_NOT_ALLOWED (Some Limited); Ret (Err PermissionDenied)
        | Some Full =>
            evaluation ← evaluate_host_policy_with_target
              {| rq_protocol := Socks5Tcp; rq_host := host; rq_port := port_number authority;
                 rq_client_addr := client; rq_method := None; rq_command := None;
                 rq_exec_policy_hint := None |};
            match evaluation with
            | Some (Deny reason, _) => _ ← record reason None; Ret (Err PermissionDenied)
            | None => Ret (Err OtherError)
            | Some (Allow, validated) => b ← ask (OpenTunnel validated None); Ret (Ok b)
            end
        end
    end.

(** [Ok true]: the payload is relayed; [Ok false]: it is dropped. *)
Definition inspect_socks5_udp (server : SocketAddr) (server_string : str) (client : option str)
    : prog (result SocksError bool) :=
  let host := normalize_host server_string in
  let record (reason : str) (mode : option NetworkMode) : prog unit :=
    ask (Record_ {| ba_host := host; ba_reason := reason; ba_client := client; ba_method := None;
                    ba_mode := mode; ba_protocol := §"socks5-udp" |}) in
  if bool_decide (host = []) then Ret (Err InvalidInput)
  else
    enabled ← ask EnabledNow;
    match enabled with
    | None => Ret (Err OtherError)
    | Some false => _ ← record REASON_PROXY_DISABLED None; Ret (Ok false)
    | Some true =>
        mode ← ask ModeNow;
        match mode with
        | None => Ret (Err OtherError)
        | Some Limited => _ ← record REASON_METHOD_NOT_ALLOWED (Some Limited); Ret (Ok false)
        | Some Full =>
            evaluation ← evaluate_host_policy
              {| rq_protocol := Socks5Udp; rq_host := host; rq_port := port_of server;
                 rq_client_addr := client; rq_method := None; rq_command := None;
                 rq_exec_policy_hint := None |};
            match evaluation with
            | Some (Deny reason) => _ ← record reason None; Ret (Ok false)
            | Some Allow => Ret (Ok true)
            | None => Ret (Err OtherError)
            end
        end
    end.
End Handlers.

(** ** The connector *)
Section Connector.
Context `{RamaNet}.

(** Where a connection goes: to the addresses that were checked, or to what the
    resolver says of the target. *)
Inductive Dial := Pinned (addresses : list SocketAddr) | ByName (target : Authority).

(** [PolicyConnector::serve]: [route] is the upstream proxy of the request. *)
Definition policy_connector (target : option Authority) (validated : option ValidatedTarget)
    (route : option Authority) : result str Dial :=
  match target with
  | None => Err §"network proxy: connector target missing"
  | Some target =>
      match validated with
      | None => Ok (ByName target)
      | Some v =>
          if bool_decide (vt_host v = normalize_host (host_string target)
                          ∧ vt_port v = port_number target)
          then if bool_decide (vt_addresses v = [])
               then Err §"network proxy: validated address list is empty"
               else Ok (Pinned (vt_addresses v))
          else if match route with Some proxy => same_authority proxy target | None => false end
          then Ok (ByName target)
          else Err §"network proxy: target differs from the checked authority"
      end
  end.
End Connector.

(** ** The admin endpoint *)
Section Admin.
Context `{RamaNet}.

Definition MODE_BODY_LIMIT : Z := 8 * 1024.

(** The loop that reads the bytes of the body of [POST /mode]; [None] is a chunk
    that could not be read. *)
Fixpoint read_mode_body (chunks : list (option str)) (buf : str) : result Response str :=
  match chunks with
  | [] => Ok buf
  | None :: _ => Err (text_response 400 §"invalid body")
  | Some chunk :: chunks =>
      if MODE_BODY_LIMIT <? Z.of_nat (length buf) + Z.of_nat (length chunk)
      then Err (text_response 413 §"body too large")
      else read_mode_body chunks (buf ++ chunk)
  end.

(** The requests that change the proxy; the others read it.  [update_of] is what
    [serde] derives for [ModeUpdate], [ok_json] the JSON of the answer. *)
Definition admin_post (update_of : str → option NetworkMode) (ok_json : option NetworkMode → str)
    (path : str) (chunks : list (option str)) : prog Response :=
  if bool_decide (path = §"/mode") then
    match read_mode_body chunks [] with
    | Err r => Ret r
    | Ok buf =>
        if bool_decide (buf = []) then Ret (text_response 400 §"missing body")
        else
          match update_of buf with
          | None => Ret (text_response 400 §"invalid json")
          | Some m =>
              ok ← ask (SetMode m);
              Ret (if (ok : bool) then text_response 200 (ok_json (Some m))
                   else text_response 500 §"mode update failed")
          end
    end
  else if bool_decide (path = §"/reload") then
    ok ← ask ForceReload;
    Ret (if (ok : bool) then text_response 200 (ok_json None) else text_response 500 §"reload failed")
  else Ret (text_response 404 §"not found").
End Admin.

(** * Correctness *)
(** ** Traces *)
Section Traces.
Context `{RamaNet}.

(** A request to the outside and its answer. *)
Inductive event :=
| Ev {X : Type} (e : Eff X) (x : X).

(** What a program asks in turn, and what it returns, for the answers it gets. *)
Inductive trace {R} : prog R → list event → R → Prop :=
| trace_ret r : trace (Ret r) [] r
| trace_call X (e : Eff X) k x t r : trace (k x) t r → trace (Call e k) (Ev e x :: t) r.

(** All requests of a program satisfy [must], given what came before, and its
    result satisfies [Q]. *)
Fixpoint wp {R} (must : list event → ∀ X, Eff X → Prop) (p : prog R) (h : list event)
    (Q : list event → R → Prop) : Prop :=
  match p with
  | Ret r => Q h r
  | @Call _ _ X e k => must h X e ∧ ∀ x, wp must (k x) (h ++ [Ev e x]) Q
  end.

Lemma wp_bind {A B} must (p : prog A) (f : A → prog B) h Q :
  wp must (p ≫= f) h Q ↔ wp must p h (λ h a, wp must (f a) h Q).
Proof.
  unfold mbind, prog_mbind. revert h. induction p as [a|X e k IH]; intros h; cbn; [done|].
  apply and_iff_compat_l. apply forall_proper. intros x. apply IH.
Qed.

Lemma wp_ask {X} must (e : Eff X) h Q : wp must (ask e) h Q ↔ must h X e ∧ ∀ x, Q (h ++ [Ev e x]) x.
Proof. done. Qed.

Lemma wp_mono {R} must (p : prog R) h (Q Q' : list event → R → Prop) :
  (∀ h r, Q h r → Q' h r) → wp must p h Q → wp must p h Q'.
Proof.
  intros HQ. revert h. induction p as [r|X e k IH]; intros h; cbn; [by apply HQ|].
  intros [? Hk]. split; [done|]. intros x. by apply IH.
Qed.

Lemma list_cons_eq_inv {A} (x y : A) l l' : x :: l = y :: l' → x = y ∧ l = l'.
Proof. by intros [=]. Qed.

Lemma wp_trace {R} must (p : prog R) t r h Q :
  trace p t r → wp must p h Q →
  Q (h ++ t) r ∧ ∀ t1 X (e : Eff X) x t2, t = t1 ++ Ev e x :: t2 → must (h ++ t1) X e.
Proof.
  intros Ht. revert h. induction Ht as [r|X e k x t r Ht IH]; intros h Hwp; cbn in Hwp.
  - rewrite app_nil_r. split; [done|]. by intros [|? ?] ????.
  - destruct Hwp as [Hm Hk]. destruct (IH _ (Hk x)) as [HQ Hall].
    rewrite <-app_assoc in HQ. split; [done|].
    intros [|y t1] X' e' x' t2 E; cbn in E; apply list_cons_eq_inv in E as [E1 E2].
    + rewrite app_nil_r. change (match Ev e' x' with @Ev X e _ => must h X e end). by rewrite <-E1.
    + subst y. replace (h ++ Ev e x :: t1) with ((h ++ [Ev e x]) ++ t1) by by rewrite <-app_assoc.
      by apply (Hall t1 X' e' x' t2).
Qed.
End Traces.

(** ** What a connection needs *)
Section Permits.
Context `{RamaNet} (has_decider macos : bool) (env : str → option str).

Inductive Server :=
| ServeConnect (target : option Authority) (client : option str)
| ServePlain (req : PlainRequest) (client : option str)
| ServeSocks (authority : Authority) (client : option str).

Definition serve (s : Server) : prog unit :=
  match s with
  | ServeConnect target client => _ ← http_connect has_decider env target client; Ret tt
  | ServePlain req client => _ ← http_plain_proxy has_decider env macos req client; Ret tt
  | ServeSocks authority client => _ ← handle_socks5_tcp has_decider authority client; Ret tt
  end.

Definition target_of (s : Server) : option Authority :=
  match s with
  | ServeConnect target _ => target
  | ServePlain req _ => pr_target req
  | ServeSocks authority _ => Some authority
  end.
Definition method_of (s : Server) : option str :=
  match s with ServePlain req _ => Some (pr_method req) | _ => None end.

(** The check of the host that went before, and the target it leaves. *)
Definition checked (t : list event) (host : str) (port : Z) (validated : option ValidatedTarget) : Prop :=
  Ev EnabledNow (Some true) ∈ t ∧
  ∃ d addresses, Ev (CheckHost host port) (Some (d, addresses)) ∈ t ∧
    (d = Allowed ∨
     d = Blocked NotAllowed ∧ has_decider = true ∧
       ∃ req, rq_host req = host ∧ rq_port req = port ∧ Ev (AskDecider req) Allow ∈ t) ∧
    validated = (λ a, {| vt_host := host; vt_port := port; vt_addresses := a |}) <$> addresses.

Definition upstream_ok (t : list event) (route : option Authority) : Prop :=
  route = None ∨ Ev AllowUpstream (Some true) ∈ t.

(** What must have been answered before a request goes out. *)
Definition permitted (s : Server) (t : list event) (X : Type) (e : Eff X) : Prop :=
  match e with
  | OpenTunnel validated route =>
      (∃ a, target_of s = Some a ∧ checked t (normalize_host (host_string a)) (port_number a) validated) ∧
      Ev ModeNow (Some Full) ∈ t ∧ upstream_ok t route
  | SendRequest validated route =>
      (∃ a, target_of s = Some a ∧ checked t (normalize_host (host_string a)) (port_number a) validated) ∧
      (∃ m, method_of s = Some m ∧ Ev (MethodAllowed m) (Some true) ∈ t) ∧ upstream_ok t route
  | SendToSocket path =>
      Ev EnabledNow (Some true) ∈ t ∧ Ev (CheckSocket path) (Some true) ∈ t ∧ macos = true ∧
      ∃ m, method_of s = Some m ∧ Ev (MethodAllowed m) (Some true) ∈ t
  | _ => True
  end.

Lemma checked_weaken t t' host port v : checked t host port v → checked (t ++ t') host port v.
Proof.
  intros [? (d & a & ? & Hd & ?)]. split; [apply elem_of_app; auto|].
  exists d, a. split; [apply elem_of_app; auto|]. split; [|done].
  destruct Hd as [?|(? & ? & req & ? & ? & ?)]; [auto|right].
  split_and!; [done..|]. exists req. split_and!; [done..|]. apply elem_of_app; auto.
Qed.

(** The evaluation of the policy, for every handler. *)
Lemma wp_evaluate s request h Q :
  Ev EnabledNow (Some true) ∈ h →
  (∀ t, Q (h ++ t) None) → (∀ t reason, Q (h ++ t) (Some (Deny reason, None))) →
  (∀ t v, checked (h ++ t) (rq_host request) (rq_port request) v → Q (h ++ t) (Some (Allow, v))) →
  wp (permitted s) (evaluate_host_policy_with_target has_decider request) h Q.
Proof.
  intros Hen Hnone Hdeny Hallow. unfold evaluate_host_policy_with_target. apply wp_bind, wp_ask.
  split; [done|]. intros [[blocked addresses]|]; [|by apply Hnone]. apply wp_bind.
  set (ev := Ev _ (Some (blocked, addresses))).
  assert (∀ t, Ev EnabledNow (Some true) ∈ h ++ ev :: t ∧ ev ∈ h ++ ev :: t) as Hin.
  { intros t. rewrite !elem_of_app, !elem_of_cons. auto. }
  destruct blocked as [|[| |]]; cbn.
  - apply Hallow. split; [apply Hin|]. exists Allowed, addresses. split; [apply Hin|]. auto.
  - apply Hdeny.
  - destruct has_decider eqn:Ed; [|apply Hdeny]. cbn. split; [done|].
    intros [|reason]; rewrite <-app_assoc; [|apply Hdeny]. apply Hallow. split; [apply Hin|].
    exists (Blocked NotAllowed), addresses. split; [apply Hin|]. split; [|done]. right.
    split_and!; [done|done|]. exists request. split_and!; [done|done|].
    rewrite elem_of_app. right. by right; left.
  - apply Hdeny.
Qed.

(** One request, and a request whose answer is not looked at. *)
Local Ltac asks := apply wp_bind, wp_ask; split; [done|].
Local Ltac silent := repeat first [done | asks; intros ?].
Local Ltac seen := rewrite ?elem_of_app, ?list_elem_of_singleton; tauto.

Lemma wp_disabled s host client method protocol h (Q : list event → Response → Prop) :
  (∀ h r, Q h r) → wp (permitted s) (proxy_disabled_response host client method protocol) h Q.
Proof. intros HQ. unfold proxy_disabled_response. asks. intros ?. apply HQ. Qed.

Lemma wp_connect target client :
  let s := ServeConnect target client in
  wp (permitted s) (http_connect has_decider env target client) [] (λ _ _, True).
Proof.
  intros s. unfold http_connect. apply wp_bind. unfold http_connect_accept.
  destruct target as [a|]; [|done]. case_bool_decide; [done|]. asks.
  intros [[]|]; [|by apply wp_bind, wp_disabled|done]. apply wp_bind.
  apply wp_evaluate; [seen|done|intros; silent|].
  intros t v Hv. asks. intros [[]|]; [silent| |done]. cbn [wp].
  apply wp_bind. unfold http_connect_proxy. asks. intros up. apply wp_ask. split; [|done].
  set (ev := Ev ModeNow (Some Full)). split; [|split].
  - exists a. split; [done|]. by do 2 apply checked_weaken.
  - rewrite !elem_of_app. left; right. by apply list_elem_of_singleton.
  - destruct up as [[]|]; [right|by left|by left]. rewrite elem_of_app. right. by apply list_elem_of_singleton.
Qed.

Lemma wp_socks authority client :
  let s := ServeSocks authority client in
  wp (permitted s) (handle_socks5_tcp has_decider authority client) [] (λ _ _, True).
Proof.
  intros s. unfold handle_socks5_tcp. case_bool_decide; [done|]. asks.
  intros [[]|]; [|silent|done]. asks. intros [[]|]; [silent| |done]. apply wp_bind.
  apply wp_evaluate; [rewrite !elem_of_app; left; right; by apply list_elem_of_singleton|done|intros; silent|].
  intros t v Hv. apply wp_bind, wp_ask. split; [|done]. split; [|split; [|by left]].
  - by exists authority.
  - rewrite !elem_of_app. left; right. by apply list_elem_of_singleton.
Qed.

Lemma wp_plain req client :
  let s := ServePlain req client in
  wp (permitted s) (http_plain_proxy has_decider env macos req client) [] (λ _ _, True).
Proof.
  intros s. unfold http_plain_proxy. asks. intros [ma|]; [|done].
  destruct (pr_unix_socket req) as [[path|]|]; [|done|].
  - unfold serve_unix_socket. asks. intros [[]|]; [|by apply wp_disabled|done]. destruct ma; [|done].
    destruct macos eqn:Em; [|done]. cbn [negb]. asks. intros [[]|]; [|done|done].
    apply wp_bind, wp_ask. split; [|done]. cbn.
    rewrite !elem_of_cons. split_and!; [by right; left|by right; right; left|done|].
    exists (pr_method req). rewrite !elem_of_cons. auto.
  - destruct (pr_target req) as [a|] eqn:Et; [|done]. asks. intros [[]|]; [|by apply wp_disabled|done].
    apply wp_bind. apply wp_evaluate; [rewrite elem_of_app; right; by apply list_elem_of_singleton|done|intros; silent|].
    intros t v Hv. destruct ma; [|silent]. cbn [negb]. asks. intros [up|]; [|done].
    apply wp_bind, wp_ask. split; [|done]. split; [|split].
    + exists a. split; [done|]. by apply checked_weaken.
    + exists (pr_method req). split; [done|]. by left.
    + destruct up; [right|by left; destruct (pr_is_secure req)].
      rewrite elem_of_app. right. by apply list_elem_of_singleton.
Qed.

Lemma wp_serve s : wp (permitted s) (serve s) [] (λ _ _, True).
Proof.
  destruct s; unfold serve; apply wp_bind; [pose proof (wp_connect target client) as Hw
    |pose proof (wp_plain req client) as Hw|pose proof (wp_socks authority client) as Hw];
    by eapply wp_mono, Hw.
Qed.

Lemma permits s t r t1 X (e : Eff X) x t2 :
  trace (serve s) t r → t = t1 ++ Ev e x :: t2 → permitted s t1 X e.
Proof. intros Ht E. by destruct (wp_trace _ _ _ _ [] _ Ht (wp_serve s)) as [_ H']; apply (H' t1 X e x t2). Qed.

(** No connection without the checks.  Whatever the state, the decider and the
    network answer, and however the state changes between two requests: a tunnel
    is opened, or a request sent on, only after the proxy answered that it is
    enabled and the host and port of the request were checked, with the answer
    [Allowed], or [NotAllowed] and the consent of the decider; what the connector
    is given is the addresses of that check; a tunnel needs the full mode, a plain
    request an allowed method, a socket the platform and its own check, and the
    upstream proxy is used only where the configuration says so. *)
Theorem connections_permitted s t r t1 X (e : Eff X) x t2 :
  trace (serve s) t r → t = t1 ++ Ev e x :: t2 → permitted s t1 X e.
Proof. apply permits. Qed.
End Permits.

(** ** Down to the addresses *)
Section EndToEnd.
Context `{Laws : GlobLaws} `{U : UrlLib} `{!UrlLaws U} (su : Setup) `{RamaNet}.
Context (has_decider macos : bool) (env : str → option str).

(** The answers the shared state gives about hosts: on some state that is in
    order, whatever the resolver says. *)
Definition answered (ev : event) : Prop :=
  match ev with
  | @Ev _ _ (CheckHost asked port) answer =>
      match answer with
      | Some (d, addresses) =>
          (Host_parse asked = None ∧ d = Blocked NotAllowed ∧ addresses = None) ∨
          ∃ w host snap, Host_parse asked = Some host ∧ state_ok su snap ∧
            decide_host (w_lookup w) snap host port = (d, addresses)
      | None => True
      end
  | _ => True
  end.

(** The connection a request makes, if it makes one. *)
Definition connection {X} (e : Eff X) : option (option ValidatedTarget * option Authority) :=
  match e with
  | OpenTunnel v route | SendRequest v route => Some (v, route)
  | _ => None
  end.

(** What is allowed of where a connection goes. *)
Definition dial_ok (t : list event) (route : option Authority) (snap : ConfigState) (host : str) (d : Dial)
    : Prop :=
  match d with
  | Pinned l => l ≠ [] ∧ Forall public l
  | ByName target =>
      allow_local_binding (policy_of snap) = true ∨
      (local_literal host = true ∧
         is_explicit_local_allowlisted (allowed_domains (policy_of snap)) host = true) ∨
      (∃ proxy, route = Some proxy ∧ same_authority proxy target = true ∧
         Ev AllowUpstream (Some true) ∈ t)
  end.

Lemma checked_answered t asked port v :
  checked has_decider t asked port v → Forall answered t → Host_parse asked ≠ None →
  ∃ w host snap addresses, Host_parse asked = Some host ∧ state_ok su snap ∧
    is_match (st_deny_set snap) host = false ∧ address_ok (w_lookup w) snap host port addresses ∧
    v = (λ a, {| vt_host := asked; vt_port := port; vt_addresses := a |}) <$> addresses.
Proof.
  intros [_ (d & addresses & Hin & Hd & ->)] Hall Hp. rewrite Forall_forall in Hall.
  apply Hall in Hin as [(? & _)|(w & host & snap & Hh & Hsnap & Hdec)]; [done|].
  exists w, host, snap, addresses. apply decide_host_passes in Hdec as [? ?]; [done|].
  destruct Hd as [?|[? _]]; auto.
Qed.

Lemma dial_checked t target route asked port w snap host addresses d :
  address_ok (w_lookup w) snap host port addresses → upstream_ok t route →
  policy_connector target ((λ a, {| vt_host := asked; vt_port := port; vt_addresses := a |}) <$> addresses) route
  = Ok d →
  dial_ok t route snap host d.
Proof.
  unfold address_ok, policy_connector. intros Ha Hup Hd. destruct target as [target|]; [|done].
  destruct (allow_local_binding (policy_of snap)) eqn:El.
  { subst addresses. injection Hd as <-. by left. }
  destruct (local_literal host) eqn:Eh.
  { destruct Ha as [? ->]. injection Hd as <-. right; left. auto. }
  destruct Ha as (l & _ & Hne & Hpub & ->). cbn in Hd. case_bool_decide.
  - rewrite bool_decide_false in Hd by done. by injection Hd as <-.
  - destruct route as [proxy|]; [|done]. destruct (same_authority proxy target) eqn:Es; [|done].
    injection Hd as <-. right; right. exists proxy. destruct Hup as [?|?]; [done|auto].
Qed.

End EndToEnd.

(** ** The admin endpoint *)

(** A body that was read is within the limit, and a longer one is refused before
    it is kept. *)
Lemma read_mode_body_bounds chunks buf b :
  Z.of_nat (length buf) ≤ MODE_BODY_LIMIT → read_mode_body chunks buf = Ok b →
  Z.of_nat (length b) ≤ MODE_BODY_LIMIT.
Proof.
  revert buf. induction chunks as [|[c|] chunks IH]; intros buf Hb; cbn; [by intros [= <-]| |done].
  destruct (MODE_BODY_LIMIT <? _) eqn:E; [done|]. apply Z.ltb_ge in E. apply IH.
  rewrite length_app. lia.
Qed.

(** ** Witnesses *)
#[local] Existing Instances simple_globs simple_glob_laws plain_url_host plain_url_laws.
#[local] Instance plain_net : RamaNet :=
  {| Authority := str * Z; host_string := fst; port_number := snd;
     same_authority a b := bool_decide (a = b);
     proxy_address s := if bool_decide (s = []) then None else Some ((s, 80), false) |}.

Definition demo_server : Server := ServeSocks (§"docs.example.com", 443) None.
Definition demo_addresses : list SocketAddr := [{| ip_of := V4 (octets4 93 184 216 34); port_of := 443 |}].
Definition demo_target : option ValidatedTarget :=
  Some {| vt_host := §"docs.example.com"; vt_port := 443; vt_addresses := demo_addresses |}.
Definition demo_before : list event :=
  [Ev EnabledNow (Some true); Ev ModeNow (Some Full);
   Ev (CheckHost §"docs.example.com" 443) (Some (Allowed, Some demo_addresses))].
Definition demo_tunnel : event := Ev (OpenTunnel demo_target None) true.

Lemma demo_trace : trace (serve false false (λ _, None) demo_server) (demo_before ++ [demo_tunnel]) tt.
Proof. unfold demo_before, demo_tunnel, demo_server. cbn [app]. repeat econstructor. Qed.

Lemma connections_permitted_witness :
  trace (serve false false (λ _, None) demo_server) (demo_before ++ [demo_tunnel]) tt ∧
  permitted false false demo_server demo_before bool (OpenTunnel demo_target None).
Proof.
  split; [apply demo_trace|].
  apply (connections_permitted false false (λ _, None) demo_server (demo_before ++ [demo_tunnel]) tt
           demo_before bool (OpenTunnel demo_target None) true [] demo_trace). reflexivity.
Defined.

