(* ===== verification/Ssrf.v ===== *)
(** * Guarded outbound requests of the gateway ([gateway-server/src/security/ssrf.rs])

    Which addresses and hosts a request may go to, the client pinned to the
    addresses that were checked, and the fetch that follows redirects.  The
    [url] crate, the resolver, the HTTP client and the servers are parameters;
    every lookup and every reply may depend on the number of the hop. *)
From S2P Require Import Prelude RustStr MachInt NetAddr PublicAddr HostPolicy.
Local Open Scope Z_scope.

#[export] Instance ip_addr_eq_dec : EqDecision IpAddr.
Proof. solve_decision. Defined.

(** ** Configuration *)
Definition DEFAULT_MAX_REDIRECTS : nat := 5.
Definition DEFAULT_TIMEOUT_MS : Z := 15000.
Definition DEFAULT_MAX_RESPONSE_BYTES : Z := 5 * 1024 * 1024.

Record SsrfConfig := {
  allowlist : list str; blocklist : list str; max_redirects : nat; timeout_ms : Z }.

Definition default_config : SsrfConfig :=
  {| allowlist := []; blocklist := []; max_redirects := DEFAULT_MAX_REDIRECTS;
     timeout_ms := DEFAULT_TIMEOUT_MS |}.

Definition COMMA : char := 44%N.
Definition split_csv (raw : str) : list str :=
  filter (λ v, v ≠ []) (map (λ v, to_ascii_lowercase (trim v)) (split_on COMMA raw)).

Definition env_number (max : Z) (v : option str) (fallback : Z) : Z :=
  match v ≫= parse_uint max with
  | Some n => if 0 <? n then n else fallback
  | None => fallback
  end.
Definition from_env (env : str → option str) : SsrfConfig :=
  {| allowlist := default [] (split_csv <$> env §"SAVFOX_SSRF_ALLOWLIST");
     blocklist := default [] (split_csv <$> env §"SAVFOX_SSRF_BLOCKLIST");
     max_redirects :=
       Z.to_nat (env_number USIZE_MAX (env §"SAVFOX_SSRF_MAX_REDIRECTS") (Z.of_nat DEFAULT_MAX_REDIRECTS));
     timeout_ms := env_number U64_MAX (env §"SAVFOX_SSRF_TIMEOUT_MS") DEFAULT_TIMEOUT_MS |}.

Inductive SsrfError :=
  | InvalidUrl (reason : str)
  | UnsupportedScheme (scheme : str)
  | MissingHost
  | BlockedHost (host : str)
  | BlockedIp (ip : IpAddr)
  | DnsResolve (host reason : str)
  | RedirectLimitExceeded (limit : nat)
  | Timeout (ms : Z)
  | Http (reason : str)
  | BodyTooLarge (limit : Z).

(** ** Addresses *)
Definition is_private_v4 (v4 : Z) : bool :=
  ipv4_is_private v4 || ipv4_is_loopback v4 || ipv4_is_link_local v4 || ipv4_is_broadcast v4
  || ipv4_is_unspecified v4.

(** [Ipv6Addr::to_ipv4_mapped]. *)
Definition to_ipv4_mapped (ip : Z) : option Z :=
  if Z.shiftr ip 32 =? 0xFFFF then Some (Z.land ip (2 ^ 32 - 1)) else None.

Definition is_private_ip (ip : IpAddr) : bool :=
  match ip with
  | V4 v4 => is_private_v4 v4
  | V6 v6 =>
      if ipv6_is_loopback v6 || ipv6_is_unspecified v6 || ipv6_is_unique_local v6
         || ipv6_is_unicast_link_local v6 || ipv6_is_multicast v6
      then true
      else match to_ipv4_mapped v6 with
           | Some v4 => is_private_v4 v4
           | None => match to_ipv4 v6 with Some v4 => is_private_v4 v4 | None => false end
           end
  end.

Definition METADATA_IP : IpAddr := V4 (octets4 169 254 169 254).
Definition validate_ip (ip : IpAddr) : result SsrfError unit :=
  if is_private_ip ip then Err (BlockedIp ip)
  else if bool_decide (ip = METADATA_IP) then Err (BlockedIp ip)
  else Ok ().

(** ** Hosts *)
(** [host.trim().trim_matches('.').to_ascii_lowercase()]. *)
Definition normal_host (host : str) : str := to_ascii_lowercase (trim_matches is_dot (trim host)).

Definition is_metadata_hostname (host : str) : bool :=
  let host := normal_host host in
  bool_decide (host = §"metadata.google.internal") || bool_decide (host = §"169.254.169.254").

Definition host_matches_pattern (host pattern : str) : bool :=
  let host := normal_host host in
  let pattern := normal_host pattern in
  if bool_decide (pattern = []) then false
  else if bool_decide (pattern = §"*") then true
  else match strip_prefix §"*." pattern with
       | Some suffix => bool_decide (host = suffix) || ends_with host (DOT :: suffix)
       | None => bool_decide (host = pattern)
       end.

Definition host_blocked_by_policy (host : str) (cfg : SsrfConfig) : bool :=
  let host := to_ascii_lowercase host in
  if is_metadata_hostname host then true
  else if existsb (host_matches_pattern host) (blocklist cfg) then true
  else if bool_decide (allowlist cfg = []) then false
  else negb (existsb (host_matches_pattern host) (allowlist cfg)).

(** ** The world outside: URLs, the resolver, the HTTP client and the servers *)
Class UrlOps (Url : Type) := {
  url_parse : str → result str Url;
  url_string : Url → str;
  scheme : Url → str;
  host_str : Url → option str;
  port_or_known_default : Url → option Z;
  url_join : Url → str → result str Url }.

(** A client without redirects and without a proxy from the environment:
    [c_host] is pinned to [c_addresses]. *)
Record Client := { c_host : str; c_addresses : list SocketAddr; c_timeout : Z }.

(** What reading a body gives next: bytes, an error, or nothing in time. *)
Inductive BodyEvent := Chunk (bytes : list Z) | ChunkError (reason : str) | Stall.

Record Response := {
  status : Z;
  location : option (result str str);      (* the header, and what reading it as text gives *)
  content_type : option (result str str);
  content_length : option Z;
  chunks : list BodyEvent }.
Inductive Reply := SendTimeout | SendError (reason : str) | Replied (r : Response).

Record Net (Url : Type) := {
  lookup_host : nat → str → Z → result str (list SocketAddr);
  build_error : nat → option str;
  reply : nat → Client → Url → Reply }.
#[global] Arguments lookup_host {Url} _ _ _ _.
#[global] Arguments build_error {Url} _ _.
#[global] Arguments reply {Url} _ _ _ _.

Record GuardedFetchResponse := {
  final_url : str; f_status : Z; f_content_type : option str; body : list Z }.

(** ** Reading a body *)
(** [None] when the body does not arrive in time. *)
Fixpoint read_chunks (max_bytes : Z) (body : list Z) (chunks : list BodyEvent)
    : option (result SsrfError (list Z)) :=
  match chunks with
  | [] => Some (Ok body)
  | Stall :: _ => None
  | ChunkError e :: _ => Some (Err (Http e))
  | Chunk chunk :: rest =>
      if usat_sub max_bytes (zlen body) <? zlen chunk then Some (Err (BodyTooLarge max_bytes))
      else read_chunks max_bytes (body ++ chunk) rest
  end.
Definition read_limited_body (response : Response) (max_bytes : Z)
    : option (result SsrfError (list Z)) :=
  if match content_length response with Some length => max_bytes <? length | None => false end
  then Some (Err (BodyTooLarge max_bytes))
  else read_chunks max_bytes [] (chunks response).

Definition is_redirection (status : Z) : bool := (300 <=? status) && (status <? 400).

Section Fetch.
  Context {Url : Type} `{!UrlOps Url}.

(** ** Resolving *)
(** The loop over the addresses of a lookup. *)
Fixpoint validate_addresses (unique : list IpAddr) (out : list IpAddr) (lookup : list SocketAddr)
    : result SsrfError (list IpAddr) :=
  match lookup with
  | [] => Ok out
  | addr :: rest =>
      let ip := ip_of addr in
      if bool_decide (ip ∈ unique) then validate_addresses unique out rest
      else _ ← validate_ip ip; validate_addresses (ip :: unique) (out ++ [ip]) rest
  end.

Definition resolve_pinned_hostname (net : Net Url) (hop : nat) (host : str) (port : Z)
    (cfg : SsrfConfig) : result SsrfError (list IpAddr) :=
  let host := normal_host host in
  if bool_decide (host = []) then Err MissingHost
  else if host_blocked_by_policy host cfg then Err (BlockedHost host)
  else match parse_ip host with
       | Some ip => _ ← validate_ip ip; Ok [ip]
       | None =>
           lookup ← map_err (DnsResolve host) (lookup_host net hop host port);
           out ← validate_addresses [] [] lookup;
           if bool_decide (out = []) then Err (DnsResolve host §"no address records") else Ok out
       end.

Definition web_scheme (u : Url) : result SsrfError unit :=
  if one_of (scheme u) [§"http"; §"https"] then Ok () else Err (UnsupportedScheme (scheme u)).
Definition ok_or {E A} (e : E) (o : option A) : result E A :=
  match o with Some a => Ok a | None => Err e end.

Definition validate_outbound_url (net : Net Url) (hop : nat) (url : str) (cfg : SsrfConfig)
    : result SsrfError unit :=
  parsed ← map_err InvalidUrl (url_parse url);
  _ ← web_scheme parsed;
  host ← ok_or MissingHost (host_str parsed);
  port ← ok_or MissingHost (port_or_known_default parsed);
  _ ← resolve_pinned_hostname net hop host port cfg;
  Ok ().

(** ** The pinned client *)
Definition pinned_client_for_addresses (net : Net Url) (hop : nat) (host : str) (port : Z)
    (ips : list IpAddr) (cfg : SsrfConfig) : result SsrfError Client :=
  match build_error net hop with
  | Some e => Err (Http e)
  | None => Ok {| c_host := host;
                  c_addresses := map (λ ip, {| ip_of := ip; port_of := port |}) ips;
                  c_timeout := Z.max (timeout_ms cfg) 1 |}
  end.
Definition build_pinned_client (net : Net Url) (hop : nat) (url : str) (cfg : SsrfConfig)
    : result SsrfError Client :=
  parsed ← map_err InvalidUrl (url_parse url);
  _ ← web_scheme parsed;
  host ← ok_or MissingHost (host_str parsed);
  port ← ok_or MissingHost (port_or_known_default parsed);
  ips ← resolve_pinned_hostname net hop host port cfg;
  pinned_client_for_addresses net hop host port ips cfg.

(** ** The fetch *)
(** A request that was sent: the hop, the client and the URL. *)
Definition Request : Type := nat * Client * Url.

Inductive HopResult :=
  | Follow (next : Url)
  | Stop (r : result SsrfError GuardedFetchResponse).

(** What a response leads to. *)
Definition handle_response (cfg : SsrfConfig) (max_bytes : Z) (current : Url) (response : Response)
    : HopResult :=
  if is_redirection (status response) then
    match location response with
    | None => Stop (Err (Http §"redirect without location header"))
    | Some (Err e) => Stop (Err (Http e))
    | Some (Ok location) =>
        match url_join current location with
        | Err e => Stop (Err (InvalidUrl e))
        | Ok next => Follow next
        end
    end
  else
    match read_limited_body response max_bytes with
    | None => Stop (Err (Timeout (timeout_ms cfg)))
    | Some (Err e) => Stop (Err e)
    | Some (Ok body) =>
        Stop (Ok {| final_url := url_string current; f_status := status response;
                    f_content_type :=
                      match content_type response with Some (Ok v) => Some v | _ => None end;
                    body := body |})
    end.

(** The [n] hops that remain. *)
Fixpoint fetch_hops (net : Net Url) (cfg : SsrfConfig) (max_bytes : Z) (n : nat) (hop : nat)
    (current : Url) : list Request * result SsrfError GuardedFetchResponse :=
  match n with
  | O => ([], Err (RedirectLimitExceeded (max_redirects cfg)))
  | S n =>
      match (_ ← web_scheme current; build_pinned_client net hop (url_string current) cfg) with
      | Err e => ([], Err e)
      | Ok client =>
          let request := (hop, client, current) in
          match reply net hop client current with
          | SendTimeout => ([request], Err (Timeout (timeout_ms cfg)))
          | SendError e => ([request], Err (Http e))
          | Replied response =>
              match handle_response cfg max_bytes current response with
              | Stop r => ([request], r)
              | Follow next =>
                  let '(sent, r) := fetch_hops net cfg max_bytes n (S hop) next in
                  (request :: sent, r)
              end
          end
      end
  end.

Definition guarded_fetch_with_limit (net : Net Url) (url : str) (cfg : SsrfConfig) (max_bytes : Z)
    : list Request * result SsrfError GuardedFetchResponse :=
  match url_parse url with
  | Err e => ([], Err (InvalidUrl e))
  | Ok current => fetch_hops net cfg max_bytes (S (max_redirects cfg)) 0 current
  end.
Definition guarded_fetch (net : Net Url) (url : str) (cfg : SsrfConfig)
    : list Request * result SsrfError GuardedFetchResponse :=
  guarded_fetch_with_limit net url cfg DEFAULT_MAX_RESPONSE_BYTES.
End Fetch.

(** * Correctness *)

(** ** Addresses *)
(** The addresses a request may not go to. *)
Definition PRIVATE_V4 : list (Z * Z) :=
  [ (octets4 0 0 0 0, octets4 0 0 0 1);           (* unspecified *)
    (octets4 10 0 0 0, octets4 11 0 0 0);         (* private *)
    (octets4 127 0 0 0, octets4 128 0 0 0);       (* loopback *)
    (octets4 169 254 0 0, octets4 169 255 0 0);   (* link local, with the metadata services *)
    (octets4 172 16 0 0, octets4 172 32 0 0);     (* private *)
    (octets4 192 168 0 0, octets4 192 169 0 0);   (* private *)
    (octets4 255 255 255 255, 2 ^ 32) ].          (* broadcast *)
(** Not public and yet let through. *)
Definition UNGUARDED_V4 : list (Z * Z) :=
  [ (octets4 0 0 0 1, octets4 1 0 0 0);           (* the rest of this network *)
    (octets4 100 64 0 0, octets4 100 128 0 0);    (* CGNAT *)
    (octets4 192 0 0 0, octets4 192 0 1 0);       (* IETF protocol assignments *)
    (octets4 192 0 2 0, octets4 192 0 3 0);       (* TEST-NET-1 *)
    (octets4 198 18 0 0, octets4 198 20 0 0);     (* benchmarking *)
    (octets4 198 51 100 0, octets4 198 51 101 0); (* TEST-NET-2 *)
    (octets4 203 0 113 0, octets4 203 0 114 0);   (* TEST-NET-3 *)
    (octets4 224 0 0 0, octets4 255 255 255 255) ]. (* multicast and reserved *)

Lemma is_private_v4_ranges ip : is_u32 ip → is_private_v4 ip = in_ranges ip PRIVATE_V4.
Proof.
  intros Hip. destruct (ipv4_tests_ranges ip Hip) as (H1 & H2 & H3 & _).
  unfold is_private_v4, ipv4_is_unspecified, ipv4_is_broadcast. rewrite H1, H2, H3.
  apply eq_true_iff_eq. unfold in_ranges, in_range, PRIVATE_V4, octets4, is_u32 in *. cbn [existsb fst snd].
  rewrite ?orb_true_iff, ?andb_true_iff, ?Z.eqb_eq, ?Z.leb_le, ?Z.ltb_lt. lia.
Qed.
Lemma is_private_ip_v6 ip :
  is_u128 ip →
  is_private_ip (V6 ip) =
  if in_range ip 0 (2 ^ 32) || in_range ip (0xFFFF * 2 ^ 32) (0x10000 * 2 ^ 32)
  then (ip =? 1) || in_ranges (ip mod 2 ^ 32) PRIVATE_V4 else in_ranges ip NON_PUBLIC_V6.
Proof.
  intros Hip. destruct (ipv6_tests_ranges ip Hip) as (H1 & H2 & H3). cbn [is_private_ip].
  assert (match to_ipv4_mapped ip with
          | Some v4 => is_private_v4 v4
          | None => match to_ipv4 ip with Some v4 => is_private_v4 v4 | None => false end
          end = match to_ipv4 ip with Some v4 => is_private_v4 v4 | None => false end) as ->.
  { unfold to_ipv4_mapped, to_ipv4. destruct (Z.shiftr ip 32 =? 0xFFFF); [|done]. by rewrite orb_true_r. }
  rewrite to_ipv4_ranges, H1, H2, H3 by done. unfold ipv6_is_loopback, ipv6_is_unspecified.
  unfold in_ranges at 2, NON_PUBLIC_V6. cbn [existsb fst snd].
  fold (in_range ip (0xFC00 * 2 ^ 112) (0xFE00 * 2 ^ 112)).
  fold (in_range ip (0xFE80 * 2 ^ 112) (0xFEC0 * 2 ^ 112)). fold (in_range ip (0xFF00 * 2 ^ 112) (2 ^ 128)).
  destruct (in_range ip 0 (2 ^ 32) || _) eqn:Hv4.
  - rewrite is_private_v4_ranges by (unfold is_u32; apply Z.mod_pos_bound; lia).
    assert (in_range ip (0xFC00 * 2 ^ 112) (0xFE00 * 2 ^ 112) = false ∧
            in_range ip (0xFE80 * 2 ^ 112) (0xFEC0 * 2 ^ 112) = false ∧
            in_range ip (0xFF00 * 2 ^ 112) (2 ^ 128) = false) as (-> & -> & ->).
    { unfold in_range in *. bool_tac. split_and!; lia. }
    destruct (ip =? 1) eqn:E1; [done|]. destruct (ip =? 0) eqn:E0; [|done].
    apply Z.eqb_eq in E0 as ->. by vm_compute.
  - assert (ip =? 1 = false ∧ ip =? 0 = false) as [-> ->].
    { unfold in_range in Hv4. bool_tac. lia. }
    cbn [orb]. rewrite orb_false_r. by destruct (in_range ip _ _), (in_range ip _ _), (in_range ip _ _).
Qed.

Definition unguarded (ip : IpAddr) : bool :=
  match ip with
  | V4 ip => in_ranges ip UNGUARDED_V4
  | V6 ip =>
      (in_range ip 0 (2 ^ 32) || in_range ip (0xFFFF * 2 ^ 32) (0x10000 * 2 ^ 32))
      && negb (ip =? 1) && in_ranges (ip mod 2 ^ 32) UNGUARDED_V4
  end.

Lemma in_ranges_true x l : in_ranges x l = true ↔ Exists (λ r, fst r ≤ x < snd r) l.
Proof.
  unfold in_ranges. rewrite existsb_exists, Exists_exists. setoid_rewrite andb_true_iff.
  setoid_rewrite Z.leb_le. setoid_rewrite Z.ltb_lt. by setoid_rewrite list_elem_of_In.
Qed.

Lemma private_unguarded_v4 ip :
  is_u32 ip → in_ranges ip PRIVATE_V4 = in_ranges ip NON_PUBLIC_V4 && negb (in_ranges ip UNGUARDED_V4) ∧
              (in_ranges ip UNGUARDED_V4 = true → in_ranges ip NON_PUBLIC_V4 = true).
Proof.
  unfold is_u32. intros Hip. rewrite eq_iff_eq_true, andb_true_iff, negb_true_iff, <-not_true_iff_false.
  rewrite !in_ranges_true. unfold PRIVATE_V4, NON_PUBLIC_V4, UNGUARDED_V4.
  rewrite !Exists_cons, !Exists_nil. cbn [fst snd]. unfold octets4. split; [split|]; intros H.
  - split; [|intros H']; destruct_or!; lia.
  - destruct H as [H H']. destruct_or! H; lia.
  - destruct_or! H; lia.
Qed.

(** C38. The guard of the gateway against the classification of the network
    proxy: the addresses the guard refuses are exactly those the proxy takes for
    non-public less the eight ranges of [UNGUARDED_V4], also where they are
    embedded in an IPv6 address; so whatever the guard refuses is not public. *)
Theorem is_private_ip_spec ip :
  valid_ip ip →
  is_private_ip ip = is_non_public_ip ip && negb (unguarded ip) ∧
  (unguarded ip = true → is_non_public_ip ip = true).
Proof.
  destruct ip as [ip|ip]; cbn [valid_ip is_non_public_ip]; intros Hip.
  { cbn [is_private_ip]. rewrite is_private_v4_ranges, non_public_ipv4_ranges by done. by apply private_unguarded_v4. }
  rewrite (is_private_ip_v6 ip Hip), (non_public_ipv6_ranges ip Hip). cbn [unguarded].
  destruct (in_range ip 0 (2 ^ 32) || _); [|by rewrite andb_true_r].
  destruct (private_unguarded_v4 (ip mod 2 ^ 32)) as [-> H].
  { unfold is_u32. apply Z.mod_pos_bound. lia. }
  destruct (ip =? 1) eqn:E; [apply Z.eqb_eq in E as ->; by vm_compute|].
  cbn [orb negb andb]. split; [done|exact H].
Qed.

Lemma is_private_ip_spec_witness :
  valid_ip (V6 0xFFFF64400001) ∧ is_private_ip (V6 0xFFFF64400001) = false.
Proof.
  assert (valid_ip (V6 0xFFFF64400001)) as Hv by (vm_compute; intuition discriminate).
  split; [done|]. destruct (is_private_ip_spec _ Hv) as [-> _]. by vm_compute.
Defined.

(** A metadata service in the CGNAT range, and IPv4 multicast, are let through. *)
Example unguarded_addresses :
  is_private_ip <$> parse_ip §"100.100.100.200" = Some false ∧
  is_private_ip <$> parse_ip §"224.0.0.1" = Some false ∧
  is_private_ip <$> parse_ip §"0.0.0.1" = Some false ∧
  is_private_ip <$> parse_ip §"::ffff:169.254.169.254" = Some true ∧
  is_private_ip <$> parse_ip §"ff02::1" = Some true.
Proof. by vm_compute. Qed.

(** ** Hosts *)
(** The names that a pattern stands for. *)
Definition pattern_covers (pattern host : str) : Prop :=
  pattern ≠ [] ∧
  (pattern = §"*" ∨ pattern = host ∧ strip_prefix §"*." pattern = None ∨
   ∃ domain, pattern = §"*." ++ domain ∧ (host = domain ∨ under host domain)).

Lemma host_matches_pattern_true host pattern :
  host_matches_pattern host pattern = true ↔ pattern_covers (normal_host pattern) (normal_host host).
Proof.
  unfold host_matches_pattern, pattern_covers. set (h := normal_host host). set (p := normal_host pattern).
  case_bool_decide as Ep. { split; [done|]. by intros [? _]. }
  case_bool_decide as Es. { split; [|done]. intros _. split; [done|by left]. }
  destruct (strip_prefix §"*." p) as [d|] eqn:E.
  - apply strip_prefix_Some in E as E'. rewrite orb_true_iff, bool_decide_eq_true, ends_with_true. split.
    + intros H. split; [done|]. right. right. exists d. split; [done|]. destruct H as [->|[r ->]]; [by left|].
      right. by exists r.
    + intros [_ [?|[[_ ?]|(d' & Hd & H)]]]; [done|congruence|]. rewrite Hd in E'. apply app_inv_head in E' as <-.
      destruct H as [->|[r ->]]; [by left|right; by exists r].
  - rewrite bool_decide_eq_true. split.
    + intros <-. split; [done|]. right. by left.
    + intros [_ [?|[[? _]|(d & Hd & _)]]]; [done|done|]. rewrite Hd, strip_prefix_app in E. done.
Qed.


Lemma normal_host_lower host : normal_host (to_ascii_lowercase host) = normal_host host.
Proof.
  unfold normal_host, trim_matches, trim_end_matches, trim_start_matches. rewrite trim_lower.
  unfold to_ascii_lowercase. rewrite drop_while_dots_lower, <-fmap_reverse, drop_while_dots_lower.
  rewrite <-fmap_reverse. apply lower_idemp.
Qed.
Lemma existsb_patterns host patterns :
  existsb (host_matches_pattern (to_ascii_lowercase host)) patterns = true ↔
  Exists (λ p, pattern_covers (normal_host p) (normal_host host)) patterns.
Proof.
  rewrite existsb_exists, Exists_exists. setoid_rewrite host_matches_pattern_true.
  setoid_rewrite normal_host_lower. by setoid_rewrite list_elem_of_In.
Qed.

(** The names of the metadata services. *)
Definition metadata_names : list str := [§"metadata.google.internal"; §"169.254.169.254"].

(** Which hosts the policy lets through: never a metadata service; never a
    host that a pattern of the block list covers, whatever the allow list says;
    and with an allow list only what one of its patterns covers, where [*.d]
    covers [d] and all names below it and [*] covers everything. *)
Theorem host_policy_spec host cfg :
  host_blocked_by_policy host cfg = false ↔
  normal_host host ∉ metadata_names ∧
  ¬ Exists (λ p, pattern_covers (normal_host p) (normal_host host)) (blocklist cfg) ∧
  (allowlist cfg = [] ∨ Exists (λ p, pattern_covers (normal_host p) (normal_host host)) (allowlist cfg)).
Proof.
  unfold host_blocked_by_policy, is_metadata_hostname. rewrite normal_host_lower, <-!existsb_patterns.
  unfold metadata_names. rewrite !not_elem_of_cons.
  set (b := existsb _ (blocklist cfg)). set (a := existsb _ (allowlist cfg)).
  case_bool_decide; [naive_solver|]. case_bool_decide; [naive_solver|]. cbn [orb].
  destruct b; [naive_solver|]. case_bool_decide; [set_solver|]. destruct a; cbn; set_solver.
Qed.

Lemma host_policy_spec_examples :
  let cfg := {| allowlist := [§"*.example.com"]; blocklist := [§"api.example.com"];
                max_redirects := 5; timeout_ms := 15000 |} in
  host_blocked_by_policy §"docs.example.com" cfg = false ∧
  host_blocked_by_policy §"API.example.com." cfg = true ∧
  host_blocked_by_policy §"example.org" cfg = true.
Proof. by vm_compute. Qed.

(** ** The fetch *)
Section FetchSpec.
Context {Url : Type} `{!UrlOps Url} (net : Net Url).

Definition safe (ip : IpAddr) : Prop := is_private_ip ip = false.

Lemma validate_ip_Ok ip u : validate_ip ip = Ok u → safe ip.
Proof. unfold validate_ip, safe. by destruct (is_private_ip ip). Qed.

Lemma validate_addresses_safe unique out lookup ips :
  Forall safe out → validate_addresses unique out lookup = Ok ips → Forall safe ips.
Proof.
  revert unique out. induction lookup as [|addr rest IH]; intros unique out Hout; cbn [validate_addresses].
  { by intros [= <-]. }
  case_bool_decide; [by apply IH|]. intros Hv.
  destruct (validate_ip (ip_of addr)) as [u|e] eqn:E; [|done]. cbn in Hv. apply IH in Hv; [done|].
  apply Forall_app. split; [done|]. constructor; [by eapply validate_ip_Ok|done].
Qed.

(** What a resolved host can be: the address it spells, or the addresses of a lookup. *)
Lemma resolve_Ok hop host port cfg ips :
  resolve_pinned_hostname net hop host port cfg = Ok ips →
  Forall safe ips ∧ host_blocked_by_policy (normal_host host) cfg = false ∧
  match parse_ip (normal_host host) with
  | Some ip => ips = [ip]
  | None => ∃ lookup, lookup_host net hop (normal_host host) port = Ok lookup
  end.
Proof.
  unfold resolve_pinned_hostname. intros H. case_bool_decide; [done|].
  destruct (host_blocked_by_policy _ _) eqn:Hb; [done|]. destruct (parse_ip _) as [ip|].
  - destruct (validate_ip ip) as [u|e] eqn:E; [|done]. injection H as <-.
    split_and!; [|done..]. constructor; [by eapply validate_ip_Ok|done].
  - destruct (lookup_host _ _ _ _) as [lookup|e]; [|done]. cbn in H.
    destruct (validate_addresses [] [] lookup) as [out|e] eqn:E; [|done]. cbn in H.
    case_bool_decide; [done|]. injection H as <-. apply validate_addresses_safe in E; eauto.
Qed.

(** A request as the guard sends it. *)
Definition guarded (cfg : SsrfConfig) (q : Request (Url:=Url)) : Prop :=
  let '(hop, client, u) := q in
  scheme u ∈ [§"http"; §"https"] ∧
  ∃ host port ips,
    host_str u = Some host ∧ port_or_known_default u = Some port ∧
    resolve_pinned_hostname net hop host port cfg = Ok ips ∧
    c_host client = host ∧
    c_addresses client = map (λ ip, {| ip_of := ip; port_of := port |}) ips.

(** Serialising a URL and parsing the text again gives the URL; an address in
    the place of the host is written in its canonical form. *)
Class UrlLaws : Prop := {
  url_reparse u : url_parse (url_string u) = Ok u;
  host_canonical u h ip : host_str u = Some h → parse_ip h = Some ip → normal_host h = h }.
Context `{!UrlLaws}.

Lemma client_guarded hop u cfg client :
  (_ ← web_scheme u; build_pinned_client net hop (url_string u) cfg) = Ok client →
  guarded cfg (hop, client, u).
Proof.
  unfold web_scheme, one_of. intros Hc. case_bool_decide as Hs; [|done]. cbn in Hc.
  unfold build_pinned_client in Hc. rewrite url_reparse in Hc. cbn in Hc.
  unfold web_scheme, one_of in Hc. rewrite bool_decide_true in Hc by done. cbn in Hc.
  destruct (host_str u) as [host|] eqn:Eh; [|done]. cbn in Hc.
  destruct (port_or_known_default u) as [port|] eqn:Ep; [|done]. cbn in Hc.
  destruct (resolve_pinned_hostname net hop host port cfg) as [ips|e] eqn:Er; [|done]. cbn in Hc.
  unfold pinned_client_for_addresses in Hc. destruct (build_error net hop); [done|]. injection Hc as <-.
  split; [done|]. exists host, port, ips. done.
Qed.

Lemma read_chunks_Ok max_bytes body cs out :
  zlen body ≤ max_bytes → read_chunks max_bytes body cs = Some (Ok out) →
  ∃ bs, cs = map Chunk bs ∧ out = body ++ concat bs ∧ zlen out ≤ max_bytes.
Proof.
  revert body. induction cs as [|c cs IH]; intros body Hb; cbn [read_chunks].
  { intros [= <-]. exists []. by rewrite app_nil_r. }
  destruct c as [chunk|e|]; [|done..]. destruct (_ <? _) eqn:E; [done|]. intros Hr.
  apply Z.ltb_ge in E. unfold usat_sub in E.
  apply IH in Hr as (bs & -> & -> & Hl); [|rewrite zlen_app; lia].
  exists (chunk :: bs). split_and!; [done|by rewrite <-(assoc_L (++))|done].
Qed.

(** The response [resp] is what the last request was answered with. *)
Definition answered (max_bytes : Z) (sent : list (Request (Url:=Url))) (resp : GuardedFetchResponse)
    : Prop :=
  ∃ before hop client u response bs,
    sent = before ++ [(hop, client, u)] ∧
    reply net hop client u = Replied response ∧
    is_redirection (status response) = false ∧
    final_url resp = url_string u ∧ f_status resp = status response ∧
    chunks response = map Chunk bs ∧ body resp = concat bs ∧ zlen (body resp) ≤ max_bytes.

Lemma handle_response_Ok cfg max_bytes u response resp :
  0 ≤ max_bytes → handle_response cfg max_bytes u response = Stop (Ok resp) →
  is_redirection (status response) = false ∧ final_url resp = url_string u ∧
  f_status resp = status response ∧
  ∃ bs, chunks response = map Chunk bs ∧ body resp = concat bs ∧ zlen (body resp) ≤ max_bytes.
Proof.
  intros Hmax. unfold handle_response. destruct (is_redirection _).
  { destruct (location response) as [[l|e]|]; [|done..]. by destruct (url_join u l). }
  unfold read_limited_body. destruct (match content_length response with Some _ => _ | None => _ end); [done|].
  destruct (read_chunks _ _ _) as [[out|e]|] eqn:E; [|done..]. intros [= <-]. cbn.
  by apply (read_chunks_Ok max_bytes []) in E.
Qed.

Lemma fetch_hops_spec cfg max_bytes n hop u sent r :
  0 ≤ max_bytes → fetch_hops net cfg max_bytes n hop u = (sent, r) →
  (length sent ≤ n)%nat ∧ Forall (guarded cfg) sent ∧
  match r with Ok resp => answered max_bytes sent resp | Err _ => True end.
Proof.
  intros Hmax. revert hop u sent r. induction n as [|n IH]; intros hop u sent r; cbn [fetch_hops].
  { intros [= <- <-]. split_and!; [cbn; lia|done|done]. }
  destruct (_ ← web_scheme u; _) as [client|e] eqn:Hc.
  2:{ intros [= <- <-]. split_and!; [cbn; lia|done|done]. }
  apply client_guarded in Hc.
  assert (Forall (guarded cfg) [(hop, client, u)]) as Hone by by constructor.
  destruct (reply net hop client u) as [|e|response] eqn:Hr.
  1,2: intros [= <- <-]; split_and!; [cbn; lia|done|done].
  destruct (handle_response cfg max_bytes u response) as [next|r'] eqn:Hh.
  - destruct (fetch_hops net cfg max_bytes n (S hop) next) as [sent' r'] eqn:E. intros [= <- <-].
    apply IH in E as (Hl & Hg & Ho). split_and!; [cbn; lia|by constructor|].
    destruct r' as [resp|e]; [|done]. destruct Ho as (before & hop' & c & u' & response' & bs & -> & Ho).
    exists ((hop, client, u) :: before), hop', c, u', response', bs. done.
  - intros [= <- <-]. split_and!; [cbn; lia|done|]. destruct r' as [resp|e]; [|done].
    apply handle_response_Ok in Hh as (Hn & Hf & Hs & bs & Hb); [|done].
    exists [], hop, client, u, response, bs. done.
Qed.

(** The HTTP client and the resolver: a client goes to the address that the
    host of a URL spells, or to the pinned addresses when the host is the pinned
    one; a name in brackets, as URLs write IPv6 addresses, does not resolve. *)
Class Connector (connects : nat → Client → Url → list IpAddr) : Prop := {
  connect_literal hop client u h ip a :
    host_str u = Some h → parse_ip h = Some ip → a ∈ connects hop client u → a = ip;
  connect_pinned hop client u a :
    host_str u = Some (c_host client) → parse_ip (c_host client) = None →
    head (c_host client) ≠ Some LBRACKET → a ∈ connects hop client u →
    a ∈ map ip_of (c_addresses client);
  brackets_unresolved hop h port lookup :
    lookup_host net hop h port = Ok lookup → head h ≠ Some LBRACKET }.
End FetchSpec.

Lemma head_prefix {A} (p w : list A) x (P : A → Prop) :
  head (p ++ w) = Some x → Forall P w → ¬ P x → head p = Some x.
Proof. destruct p; [|done]. destruct w; [done|]. cbn. intros [= ->] [??]%Forall_cons. done. Qed.
Lemma normal_host_bracket h : head h = Some LBRACKET → head (normal_host h) = Some LBRACKET.
Proof.
  intros Hh. unfold normal_host, trim, trim_matches, trim_start, trim_start_matches.
  rewrite (drop_while_skip is_whitespace h) by (intros x; rewrite Hh; by intros [= <-]).
  destruct (trim_end_prefix h) as (w & E & Hw).
  assert (head (trim_end h) = Some LBRACKET) as Ht.
  { rewrite E in Hh. eapply head_prefix; [done|done|]. done. }
  rewrite (drop_while_skip is_dot) by (intros x; rewrite Ht; by intros [= <-]).
  destruct (trim_end_matches_prefix is_dot (trim_end h)) as (w' & E' & Hw').
  rewrite E' in Ht. apply (head_prefix _ _ _ _ Ht) in Hw'; [|done].
  destruct (trim_end_matches _ _); [done|]. cbn in *. by injection Hw' as ->.
Qed.
Lemma read_number_bracket radix n z limit h : read_number radix n z limit (LBRACKET :: h) = None.
Proof.
  unfold read_number. cbn [read_digits]. assert (digit_value radix LBRACKET = None) as ->.
  { unfold digit_value, LBRACKET. cbn. by rewrite Z.ltb_irrefl. }
  cbn [mbind option_bind]. by rewrite Nat.sub_diag.
Qed.
Lemma parse_ip_bracket h : head h = Some LBRACKET → parse_ip h = None.
Proof.
  destruct h as [|c h]; [done|]. intros [= ->]. unfold parse_ip, read_ip_addr.
  assert (read_ipv4_addr (LBRACKET :: h) = None) as H4.
  { unfold read_ipv4_addr, read_octet, read_separator. by rewrite read_number_bracket. }
  rewrite H4. unfold read_ipv6_addr. cbn [read_groups read_separator].
  rewrite decide_False, H4, read_number_bracket by done. done.
Qed.

Section Safety.
Context {Url : Type} `{!UrlOps Url, !UrlLaws} (net : Net Url) (connects : nat → Client → Url → list IpAddr)
  `{!Connector net connects}.

Lemma destination_safe cfg hop client u a :
  guarded net cfg (hop, client, u) → a ∈ connects hop client u → safe a.
Proof.
  intros (_ & host & port & ips & Hh & _ & Hr & Hc & Ha) Hin.
  apply resolve_Ok in Hr as (Hsafe & _ & Hips). destruct (parse_ip host) as [ip|] eqn:Ep.
  - rewrite (connect_literal net hop client u host ip a Hh Ep Hin).
    rewrite (host_canonical u host ip Hh Ep), Ep in Hips. subst. by apply Forall_singleton.
  - assert (head host ≠ Some LBRACKET) as Hb.
    { intros Hb%normal_host_bracket. rewrite parse_ip_bracket in Hips by done.
      destruct Hips as [lookup Hl]. by apply (brackets_unresolved net) in Hl. }
    subst host. apply (connect_pinned net hop client u a Hh Ep Hb) in Hin. rewrite Ha, map_map, map_id in Hin.
    by eapply Forall_forall in Hin.
Qed.

End Safety.

(** ** A concrete world *)
Definition authority (u : str) : str :=
  match split_once SLASH u with
  | Some (_, _ :: rest) => take_while (λ c, negb (bool_decide (c = SLASH))) rest
  | _ => []
  end.
#[local] Instance demo_url : UrlOps str := {|
  url_parse := Ok;
  url_string := id;
  scheme u := match split_once COLON u with Some (s, _) => s | None => [] end;
  host_str u := let h := authority u in
                if bool_decide (normal_host h = h) && bool_decide (h ≠ []) then Some h else None;
  port_or_known_default u := Some 80;
  url_join _ l := Ok l |}.
(** [rebound.example] is a public address at the first hop and a private one
    afterwards; [a.example] redirects to [b.example], which answers. *)
Definition demo_net : Net str := {|
  lookup_host hop h port :=
    if bool_decide (head h = Some LBRACKET) then Err §"not a name"
    else if bool_decide (h = §"rebound.example") && bool_decide (hop ≠ 0%nat)
    then Ok [{| ip_of := V4 (octets4 10 0 0 1); port_of := port |}]
    else Ok [{| ip_of := V4 (octets4 93 184 216 34); port_of := port |}];
  build_error _ := None;
  reply hop client u :=
    if bool_decide (u = §"http://a.example/")
    then Replied {| status := 302; location := Some (Ok §"https://b.example/x"); content_type := None;
                    content_length := None; chunks := [] |}
    else if bool_decide (u = §"http://c.example/")
    then Replied {| status := 301; location := Some (Ok §"http://rebound.example/"); content_type := None;
                    content_length := None; chunks := [] |}
    else Replied {| status := 200; location := None; content_type := Some (Ok §"text/plain");
                    content_length := Some 3; chunks := [Chunk [111; 107]; Chunk [33]] |} |}.
Definition demo_connects (_ : nat) (client : Client) (u : str) : list IpAddr :=
  match host_str u with
  | Some h => match parse_ip h with
              | Some ip => [ip]
              | None => if bool_decide (h = c_host client) then map ip_of (c_addresses client) else []
              end
  | None => []
  end.

#[local] Instance demo_url_laws : UrlLaws (Url:=str).
Proof.
  split; [done|]. cbn. intros u h ip. destruct (_ && _) eqn:E; [|done]. intros [= <-] _.
  by apply andb_true_iff in E as [E%bool_decide_eq_true _].
Qed.
#[local] Instance demo_connector : Connector demo_net demo_connects.
Proof.
  split.
  - unfold demo_connects. intros hop client u h ip a -> ->. set_solver.
  - unfold demo_connects. intros hop client u a -> -> _. by rewrite bool_decide_true.
  - cbn. intros hop h port lookup. by case_bool_decide.
Qed.


(** A redirection to a name that now resolves to a private address, or to an
    address, is refused before anything is sent. *)
Example redirect_to_rebound_name :
  snd (guarded_fetch_with_limit demo_net §"http://c.example/" default_config 3)
  = Err (BlockedIp (V4 (octets4 10 0 0 1))) ∧
  length (fst (guarded_fetch_with_limit demo_net §"http://c.example/" default_config 3)) = 1%nat ∧
  guarded_fetch_with_limit demo_net §"http://169.254.169.254/" default_config 3
  = ([], Err (BlockedHost §"169.254.169.254")) ∧
  snd (guarded_fetch_with_limit demo_net §"http://d.example/" default_config 2) = Err (BodyTooLarge 2).
Proof. by vm_compute. Qed.

(** The host of a URL with an IPv6 address is in brackets: it is looked up as a
    name and, as the resolver knows no such name, refused even when it is public. *)
Example ipv6_literals_fail :
  snd (guarded_fetch_with_limit demo_net §"http://[2001:4860:4860::8888]/" default_config 3)
  = Err (DnsResolve §"[2001:4860:4860::8888]" §"not a name") ∧
  is_private_ip <$> parse_ip §"2001:4860:4860::8888" = Some false.
Proof. by vm_compute. Qed.
