(* ===== verification/ExecutionPolicy.v ===== *)
(** * The security of an invocation through the gateway
    ([gateway-server/src/security/execution_policy.rs], [path_safety.rs]; the policy
    types of [gateway-shared/src/agents.rs])

    Which sandbox and which approval policy an agent runs under, and whether its entry
    point may ask a person.  The agent's file is looked up by its name; what cannot be
    read or is not known falls back to a read-only, unattended invocation.  The files
    of the agents' directory and the JSON parser are parameters.  Target: Linux. *)
From S2P Require Import Prelude RustStr Paths.
From S2P Require Import Approval Requirements ConfigLoader.

(** ** File names that cannot leave a directory *)
Definition MAX_SEGMENT_LEN : nat := 200.
(** [char::is_control]: the Unicode category Cc. *)
Definition is_control (c : char) : bool := ((c <=? 0x1F) || (0x7F <=? c) && (c <=? 0x9F))%N.
Definition BACKSLASH : char := 92%N.
(** [< > * ? double-quote |]. *)
Definition NAME_RESERVED : list char := [60; 62; 42; 63; 34; 124]%N.
Definition bad_segment_char (ch : char) : bool :=
  bool_decide (ch ∈ SLASH :: BACKSLASH :: COLON :: 0%N :: NAME_RESERVED) || is_control ch.

Definition safe_filename_segment (segment : str) : option str :=
  let trimmed := trim segment in
  if bool_decide (trimmed = []) then None
  else if bool_decide (trimmed = §".") || bool_decide (trimmed = §"..") then None
  else if (MAX_SEGMENT_LEN <? str_len trimmed) then None
  else if starts_with trimmed §"." || ends_with trimmed §"." then None
  else if existsb bad_segment_char trimmed then None
  else Some trimmed.

Definition safe_join (base segment suffix : str) : option str :=
  safe ← safe_filename_segment segment; Some (path_join base (safe ++ suffix)).

(** ** What an entry point can do *)
Inductive ExecutionMode := Interactive | Unattended | AutoReview.
#[export] Instance ExecutionMode_eq : EqDecision ExecutionMode.
Proof. solve_decision. Defined.

Record ApprovalClientCapabilities := {
  supports_interactive_approvals : bool;
  supports_request_ids : bool;
  supports_session_grants : bool;
  supports_persisted_rules : bool;
}.
#[export] Instance ApprovalClientCapabilities_eq : EqDecision ApprovalClientCapabilities.
Proof. solve_decision. Defined.

Definition same_capabilities (b : bool) : ApprovalClientCapabilities :=
  {| supports_interactive_approvals := b; supports_request_ids := b;
     supports_session_grants := b; supports_persisted_rules := b |}.
Definition no_capabilities : ApprovalClientCapabilities := same_capabilities false.
Definition interactive : ApprovalClientCapabilities := same_capabilities true.

Definition INTERACTIVE_CHANNELS : list str :=
  [§"arkret"; §"dingtalk"; §"discord"; §"feishu"; §"googlechat"; §"irc"; §"lark"; §"line"; §"matrix";
   §"mattermost"; §"msteams"; §"qq"; §"signal"; §"slack"; §"telegram"; §"wechat"; §"whatsapp"; §"zalo"].
Definition for_channel (platform : str) : ApprovalClientCapabilities :=
  same_capabilities (bool_decide (to_ascii_lowercase (trim platform) ∈ INTERACTIVE_CHANNELS)).
Definition for_channel_message (platform : str) (peer_id : option str) : ApprovalClientCapabilities :=
  let has_authenticated_peer := match peer_id with
                                | Some peer_id => negb (bool_decide (trim peer_id = []))
                                | None => false
                                end in
  if has_authenticated_peer then for_channel platform else no_capabilities.
Definition can_interact (c : ApprovalClientCapabilities) : bool :=
  supports_interactive_approvals c && supports_request_ids c.

(** ** The policies in an agent's file *)
Inductive AgentSandboxMode := AReadOnly | AWorkspaceWrite | ADangerFullAccess | ASandboxOther (s : str).
Inductive AgentApprovalMode := AUntrusted | AOnFailure | AOnRequest | AGranular | ANever | AApprovalOther (s : str).
Inductive AgentExecutionMode := AInteractive | AUnattended | AAutoReview | AExecutionOther (s : str).

Record AgentToolAccessPolicy := {
  ta_allowed : list str; ta_denied : list str; ta_overrides : gmap str bool }.
Record AgentGranularApprovalPolicy := { ga_sandbox_approval : bool; ga_rules : bool }.
Record AgentNetworkPermissionPolicy := {
  np_enabled : bool; np_allowed_domains : list str; np_denied_domains : list str }.
Record AgentPermissionPolicy := {
  ap_preset_id : option str;
  ap_profile : option str;
  ap_sandbox : option AgentSandboxMode;
  ap_approval : option AgentApprovalMode;
  ap_granular_approval : option AgentGranularApprovalPolicy;
  ap_network : option AgentNetworkPermissionPolicy;
  ap_tool_access : option AgentToolAccessPolicy;
}.

(** *** Their JSON form: the [Deserialize] implementations of these types *)
Fixpoint json_get (key : str) (map : list (str * Json)) : option Json :=
  match map with
  | [] => None
  | (k, v) :: rest => if decide (k = key) then Some v else json_get key rest
  end.
(** [value.get(key)]. *)
Definition value_get (key : str) (v : Json) : option Json :=
  match v with JObject map => json_get key map | _ => None end.
Definition as_str (v : Json) : option str := match v with JString s => Some s | _ => None end.
Definition is_null (v : Json) : bool := match v with JNull => true | _ => false end.

Definition de_string (v : Json) : option str := as_str v.
Definition de_bool (v : Json) : option bool := match v with JBool b => Some b | _ => None end.
Definition de_vec {A} (de : Json → option A) (v : Json) : option (list A) :=
  match v with JArray values => mapM de values | _ => None end.
Definition de_map {A} (de : Json → option A) (v : Json) : option (gmap str A) :=
  match v with
  | JObject map =>
      foldl (λ acc kv, acc ← acc; a ← de kv.2; Some (<[kv.1 := a]> acc)) (Some ∅) map
  | _ => None
  end.
(** [Option<T>]: a null is [None]. *)
Definition de_option {A} (de : Json → option A) (v : Json) : option (option A) :=
  if is_null v then Some None else Some <$> de v.
(** A field with a default, and a field that is required. *)
Definition de_default {A} (d : A) (de : Json → option A) (v : option Json) : option A :=
  match v with Some v => de v | None => Some d end.
Definition de_field {A} (de : Json → option A) (v : option Json) : option A := v ≫= de.
(** The fields of a struct, from an object by name or from an array by position. *)
Definition de_struct (names : list str) (v : Json) : option (str → option Json) :=
  match v with
  | JObject map => Some (λ name, json_get name map)
  | JArray values =>
      if length names <? length values then None
      else Some (λ name, '(i, _) ← list_find (λ n, n = name) names; values !! i)
  | _ => None
  end.

Definition de_sandbox_mode (v : Json) : option AgentSandboxMode :=
  value ← de_string v;
  Some (if decide (value = §"read-only") then AReadOnly
        else if decide (value = §"workspace-write") then AWorkspaceWrite
        else if decide (value = §"danger-full-access") then ADangerFullAccess
        else ASandboxOther value).
Definition de_approval_mode (v : Json) : option AgentApprovalMode :=
  value ← de_string v;
  Some (if decide (value = §"untrusted") then AUntrusted
        else if decide (value = §"on-failure") then AOnFailure
        else if decide (value = §"on-request") then AOnRequest
        else if decide (value = §"granular") then AGranular
        else if decide (value = §"never") then ANever
        else AApprovalOther value).
Definition de_execution_mode (v : Json) : option AgentExecutionMode :=
  value ← de_string v;
  Some (if decide (value = §"interactive") then AInteractive
        else if decide (value = §"unattended") then AUnattended
        else if decide (value = §"auto-review") then AAutoReview
        else AExecutionOther value).

(** [AgentExecutionPolicy] has this one field. *)
Definition de_execution_policy (v : Json) : option AgentExecutionMode :=
  field ← de_struct [§"mode"] v; de_field de_execution_mode (field §"mode").
Definition de_tool_access (v : Json) : option AgentToolAccessPolicy :=
  field ← de_struct [§"allowed"; §"denied"; §"tool_approval_overrides"] v;
  allowed ← de_default [] (de_vec de_string) (field §"allowed");
  denied ← de_default [] (de_vec de_string) (field §"denied");
  overrides ← de_default ∅ (de_map de_bool) (field §"tool_approval_overrides");
  Some {| ta_allowed := allowed; ta_denied := denied; ta_overrides := overrides |}.
Definition de_granular (v : Json) : option AgentGranularApprovalPolicy :=
  field ← de_struct [§"sandbox_approval"; §"rules"] v;
  sandbox_approval ← de_field de_bool (field §"sandbox_approval");
  rules ← de_field de_bool (field §"rules");
  Some {| ga_sandbox_approval := sandbox_approval; ga_rules := rules |}.
Definition de_network (v : Json) : option AgentNetworkPermissionPolicy :=
  field ← de_struct [§"enabled"; §"allowed_domains"; §"denied_domains"] v;
  enabled ← de_default false de_bool (field §"enabled");
  allowed_domains ← de_default [] (de_vec de_string) (field §"allowed_domains");
  denied_domains ← de_default [] (de_vec de_string) (field §"denied_domains");
  Some {| np_enabled := enabled; np_allowed_domains := allowed_domains;
          np_denied_domains := denied_domains |}.
Definition de_permission_policy (v : Json) : option AgentPermissionPolicy :=
  field ← de_struct [§"_preset_id"; §"profile"; §"sandbox"; §"approval"; §"granular_approval"; §"network";
                     §"tool_access"] v;
  preset_id ← de_default None (de_option de_string) (field §"_preset_id");
  profile ← de_default None (de_option de_string) (field §"profile");
  sandbox ← de_default None (de_option de_sandbox_mode) (field §"sandbox");
  approval ← de_default None (de_option de_approval_mode) (field §"approval");
  granular_approval ← de_default None (de_option de_granular) (field §"granular_approval");
  network ← de_default None (de_option de_network) (field §"network");
  tool_access ← de_default None (de_option de_tool_access) (field §"tool_access");
  Some {| ap_preset_id := preset_id; ap_profile := profile; ap_sandbox := sandbox; ap_approval := approval;
          ap_granular_approval := granular_approval; ap_network := network;
          ap_tool_access := tool_access |}.

(** ** The agent's file *)
Definition STEM_REPLACED : list char := [SLASH; BACKSLASH; COLON; 42; 63; 34; 60; 62; 124]%N.
Definition space_or_dot (c : char) : bool := bool_decide (c ∈ [SP; DOT]).
Definition sanitized_agent_file_stem (raw : str) : option str :=
  let trimmed := trim raw in
  if bool_decide (trimmed = []) then None
  else
    let out := map (λ ch, if bool_decide (ch ∈ STEM_REPLACED) then MINUS
                          else if is_control ch then MINUS else ch) trimmed in
    let out := trim_matches space_or_dot out in
    if bool_decide (out = []) || bool_decide (out = §".") || bool_decide (out = §"..") then None
    else Some out.

Definition matches_value (agent_ref : str) (value : option Json) : bool :=
  match value ≫= as_str with
  | Some value => eq_ignore_ascii_case (trim value) agent_ref
  | None => false
  end.
Definition agent_config_matches (config : Json) (agent_ref : str) : bool :=
  matches_value agent_ref (value_get §"id" config)
  || matches_value agent_ref (value_get §"name" config)
  || matches_value agent_ref (value_get §"identity" config ≫= value_get §"name").

Inductive FileRead := FileData (data : str) | FileNotFound | FileFailed.

Section Load.
(** [tokio::fs::read_to_string], [read_dir] with the entries up to the first error,
    and [serde_json::from_str]. *)
Context (read_file : str → FileRead) (read_dir : str → option (list str)) (from_json : str → option Json).

Definition AGENTS_SUBDIR : str := §"agents".

Definition read_json (path : str) : option Json :=
  match read_file path with FileData data => from_json data | _ => None end.

Fixpoint scan_entries (agent_ref : str) (entries : list str) : option (str * Json) :=
  match entries with
  | [] => None
  | path :: rest =>
      if negb (bool_decide (extension path = Some §"json")) then scan_entries agent_ref rest
      else match read_json path with
           | None => scan_entries agent_ref rest
           | Some config =>
               if agent_config_matches config agent_ref then Some (path, config)
               else scan_entries agent_ref rest
           end
  end.

(** The error is the path of a file that exists and cannot be used. *)
Definition load_agent_config (savfox_home agent_ref : str) : result str (option (str * Json)) :=
  let agent_ref := trim agent_ref in
  if bool_decide (agent_ref = []) then Ok None
  else
    let dir := path_join savfox_home AGENTS_SUBDIR in
    let scan := match read_dir dir with
                | None => None
                | Some entries => scan_entries agent_ref entries
                end in
    match sanitized_agent_file_stem agent_ref with
    | Some stem =>
        if bool_decide (stem = agent_ref) then
          match safe_join dir stem §".json" with
          | Some path =>
              match read_file path with
              | FileData data =>
                  match from_json data with
                  | Some config => Ok (Some (path, config))
                  | None => Err path
                  end
              | FileNotFound => Ok scan
              | FileFailed => Err path
              end
          | None => Ok scan
          end
        else Ok scan
    | None => Ok scan
    end.

(** ** Modes *)
Definition requested_execution_mode (execution_policy : option AgentExecutionMode)
    (permission_policy : option AgentPermissionPolicy) (capabilities : ApprovalClientCapabilities)
    : ExecutionMode :=
  let by_capabilities := if can_interact capabilities then Interactive else Unattended in
  match execution_policy with
  | Some AInteractive => Interactive
  | Some AUnattended => Unattended
  | Some AAutoReview => AutoReview
  | Some (AExecutionOther _) => Unattended
  | None =>
      match permission_policy ≫= ap_approval with
      | Some ANever => Unattended
      | Some (AUntrusted | AOnFailure | AOnRequest | AGranular) => by_capabilities
      | Some (AApprovalOther _) => Unattended
      | None => by_capabilities
      end
  end.

Definition effective_execution_mode (requested : ExecutionMode) (capabilities : ApprovalClientCapabilities)
    : ExecutionMode * option str :=
  match requested with
  | Interactive =>
      if can_interact capabilities then (Interactive, None)
      else (Unattended, Some §"entry point cannot correlate interactive approval responses")
  | AutoReview => (Unattended, Some §"automatic approval reviewer is not configured")
  | Unattended => (Unattended, None)
  end.

(** ** The settings that are decided here *)
Record ToolAccessPolicy := {
  allowed : list str; denied : list str; tool_approval_overrides : gmap str bool }.

Definition is_tool_allowed (p : ToolAccessPolicy) (tool_name : str) : bool :=
  if bool_decide (tool_name ∈ denied p) then false
  else if bool_decide (allowed p = []) then true
  else bool_decide (tool_name ∈ allowed p).

Record Config := {
  sandbox_policy : Constrained SandboxPolicy;
  approval_policy : Constrained AskForApproval;
  tool_access_policy : option ToolAccessPolicy;
}.
(** A refused assignment is logged. *)
Definition set_sandbox (v : SandboxPolicy) (c : Config) : Config :=
  {| sandbox_policy := (set v (sandbox_policy c)).1; approval_policy := approval_policy c;
     tool_access_policy := tool_access_policy c |}.
Definition set_approval (v : AskForApproval) (c : Config) : Config :=
  {| sandbox_policy := sandbox_policy c; approval_policy := (set v (approval_policy c)).1;
     tool_access_policy := tool_access_policy c |}.
Definition set_tool_access (v : option ToolAccessPolicy) (c : Config) : Config :=
  {| sandbox_policy := sandbox_policy c; approval_policy := approval_policy c; tool_access_policy := v |}.

Definition new_workspace_write_policy : SandboxPolicy := WorkspaceWrite [] false false false.

Definition profile_sandbox (profile : str) : SandboxPolicy * option str :=
  if decide (profile = §":read-only") then (ReadOnly, None)
  else if decide (profile = §":workspace") then (new_workspace_write_policy, None)
  else if decide (profile = §":danger-full-access") then (DangerFullAccess, None)
  else (ReadOnly, Some (§"unknown permission profile '" ++ profile ++ §"'; using read-only")).

Definition mode_sandbox (mode : AgentSandboxMode) : SandboxPolicy :=
  match mode with
  | AReadOnly => ReadOnly
  | AWorkspaceWrite => new_workspace_write_policy
  | ADangerFullAccess => DangerFullAccess
  | ASandboxOther _ => ReadOnly
  end.

(** [format!("{existing}; {reason}")], or the reason alone. *)
Definition add_reason (existing : option str) (reason : str) : option str :=
  Some (match existing with Some existing => existing ++ §"; " ++ reason | None => reason end).

Definition apply_network (network : AgentNetworkPermissionPolicy) (config : Config) (fallback_reason : option str)
    : Config * option str :=
  match value (sandbox_policy config) with
  | WorkspaceWrite writable_roots _ exclude_tmpdir_env_var exclude_slash_tmp =>
      let has_domain_scope :=
        negb (bool_decide (np_allowed_domains network = [])) || negb (bool_decide (np_denied_domains network = [])) in
      let enabled := np_enabled network && negb has_domain_scope in
      let fallback_reason :=
        if np_enabled network && has_domain_scope
        then add_reason fallback_reason
               §"domain-scoped network permission requires managed proxy enforcement and remains restricted"
        else fallback_reason in
      (set_sandbox (WorkspaceWrite writable_roots enabled exclude_tmpdir_env_var exclude_slash_tmp) config,
       fallback_reason)
  | _ =>
      (config,
       if np_enabled network
       then add_reason fallback_reason §"network permission is unavailable for this sandbox profile"
       else fallback_reason)
  end.

Definition apply_permission_policy (config : Config) (policy : AgentPermissionPolicy) : Config * option str :=
  let '(config, fallback_reason) :=
    match ap_profile policy with
    | Some profile =>
        let '(sandbox, fallback_reason) := profile_sandbox profile in
        (set_sandbox sandbox config, fallback_reason)
    | None => (config, None)
    end in
  let config :=
    match ap_profile policy, ap_sandbox policy with
    | None, Some sandbox_mode => set_sandbox (mode_sandbox sandbox_mode) config
    | _, _ => config
    end in
  let config :=
    match ap_tool_access policy with
    | Some tool_access =>
        set_tool_access (Some {| allowed := ta_allowed tool_access; denied := ta_denied tool_access;
                                 tool_approval_overrides := ta_overrides tool_access |}) config
    | None => config
    end in
  match ap_network policy with
  | Some network => apply_network network config fallback_reason
  | None => (config, fallback_reason)
  end.

Definition approval_of_mode (mode : ExecutionMode) (policy : option AgentPermissionPolicy) : AskForApproval :=
  match mode with
  | Interactive =>
      match policy ≫= ap_approval, policy ≫= ap_granular_approval with
      | Some AGranular, Some granular =>
          Granular {| sandbox_approval := ga_sandbox_approval granular; Approval.rules := ga_rules granular |}
      | _, _ => OnRequest
      end
  | Unattended | AutoReview => Never
  end.
Definition apply_execution_mode (config : Config) (mode : ExecutionMode) (policy : option AgentPermissionPolicy)
    : Config :=
  set_approval (approval_of_mode mode policy) config.

(** Outside Windows. *)
Definition enforce_platform_sandbox_readiness (config : Config) : Config * option str := (config, None).

(** On Linux. *)
Definition sandbox_enforcement (config : Config) : str :=
  match value (sandbox_policy config) with
  | DangerFullAccess => §"unrestricted"
  | ExternalSandbox _ => §"external-sandbox"
  | ReadOnly => §"read-only-command-gate"
  | WorkspaceWrite _ _ _ _ => §"linux-seccomp"
  end.
Definition effective_sandbox_name (config : Config) : str :=
  match value (sandbox_policy config) with
  | DangerFullAccess => §"danger-full-access"
  | ExternalSandbox _ => §"external-sandbox"
  | ReadOnly => §"read-only"
  | WorkspaceWrite _ _ _ _ => §"workspace-write"
  end.

(** ** The resolution *)
Record ExecutionSecurityContext := {
  agent_id : str;
  mode : ExecutionMode;
  requested_mode : ExecutionMode;
  capabilities : ApprovalClientCapabilities;
  policy_source : option str;
  fallback_reason : option str;
  enforcement : str;
  effective_sandbox : str;
}.
Record ResolvedExecutionSecurity := { config : Config; context : ExecutionSecurityContext }.

(** A policy under a key of the file, and whether it is there but cannot be read. *)
Definition decode_policy {A} (de : Json → option A) (key : str) (loaded : option (str * Json)) : option A * bool :=
  match loaded with
  | Some (_, v) =>
      match value_get key v with
      | Some v => if is_null v then (None, false)
                  else match de v with Some policy => (Some policy, false) | None => (None, true) end
      | None => (None, false)
      end
  | None => (None, false)
  end.

Definition KNOWN_PROFILES : list str := [§":read-only"; §":workspace"; §":danger-full-access"].
Definition unknown_policy_value (permission_policy : option AgentPermissionPolicy)
    (execution_policy : option AgentExecutionMode) : bool :=
  match permission_policy with
  | Some policy =>
      match ap_sandbox policy with Some (ASandboxOther _) => true | _ => false end
      || match ap_approval policy with Some (AApprovalOther _) => true | _ => false end
      || match ap_profile policy with Some profile => negb (bool_decide (profile ∈ KNOWN_PROFILES)) | None => false end
  | None => false
  end
  || match execution_policy with Some (AExecutionOther _) => true | _ => false end.

(** What the agent's file says, and whether it must not be trusted. *)
Record Policies := {
  permission : option AgentPermissionPolicy;
  execution : option AgentExecutionMode;
  invalid : bool;
}.
Definition policies_of (loaded : result str (option (str * Json))) : Policies :=
  let '(loaded, invalid_agent_config) :=
    match loaded with Ok loaded => (loaded, false) | Err _ => (None, true) end in
  let '(permission_policy, invalid_permission_policy) := decode_policy de_permission_policy §"permission_policy" loaded in
  let '(execution_policy, invalid_execution_policy) := decode_policy de_execution_policy §"execution_policy" loaded in
  {| permission := permission_policy; execution := execution_policy;
     invalid := invalid_agent_config || invalid_permission_policy || invalid_execution_policy
                || unknown_policy_value permission_policy execution_policy |}.

Definition resolve_execution_security (base_config : Config) (savfox_home agent_ref : str)
    (capabilities : ApprovalClientCapabilities) : ResolvedExecutionSecurity :=
  let loaded := load_agent_config savfox_home agent_ref in
  let policy_source := match loaded with Ok (Some (path, _)) => Some path | _ => None end in
  let p := policies_of loaded in
  let unknown_policy_value := unknown_policy_value (permission p) (execution p) in
  let '(config, profile_fallback) :=
    match permission p with
    | Some policy => apply_permission_policy base_config policy
    | None => (base_config, None)
    end in
  let config := if invalid p then set_sandbox ReadOnly config else config in
  let '(config, readiness_fallback) := enforce_platform_sandbox_readiness config in
  let requested_mode := if invalid p then Unattended
                        else requested_execution_mode (execution p) (permission p) capabilities in
  let '(mode, fallback_reason) := effective_execution_mode requested_mode capabilities in
  let fallback_reason :=
    if invalid p
    then Some (if unknown_policy_value
               then §"agent security configuration contains an unknown policy value"
               else §"agent security configuration is invalid")
    else fallback_reason in
  let fallback_reason := match readiness_fallback with
                         | Some r => add_reason fallback_reason r | None => fallback_reason end in
  let fallback_reason := match profile_fallback with
                         | Some r => add_reason fallback_reason r | None => fallback_reason end in
  let config := apply_execution_mode config mode (permission p) in
  {| config := config;
     context := {| agent_id := trim agent_ref; mode := mode; requested_mode := requested_mode;
                   capabilities := capabilities; policy_source := policy_source;
                   fallback_reason := fallback_reason; enforcement := sandbox_enforcement config;
                   effective_sandbox := effective_sandbox_name config |} |}.
End Load.

(** ** File names *)
Lemma split_on_snoc c s name : c ∉ name → split_on c (s ++ c :: name) = split_on c s ++ [name].
Proof.
  intros Hc. induction s as [|x s IH]; cbn.
  - rewrite decide_True by done. by rewrite split_on_free.
  - destruct (decide (x = c)); [by rewrite IH|]. rewrite IH.
    pose proof (split_on_ne c s). by destruct (split_on c s).
Qed.

Lemma keep_components_snoc b parts name :
  name ≠ [] → name ≠ [DOT] → keep_components b (parts ++ [name]) = keep_components b parts ++ [name].
Proof.
  intros H1 H2. revert b. induction parts as [|x parts IH]; intros b; cbn.
  - rewrite !bool_decide_eq_false_2 by done. by rewrite andb_false_r.
  - destruct (_ || _); cbn; by rewrite IH.
Qed.

(** Joining a plain file name adds it as one component. *)
Lemma components_join base name :
  base ≠ [] → SLASH ∉ name → name ≠ [] → name ≠ [DOT] →
  components (path_join base name) = ((components base).1, (components base).2 ++ [name]).
Proof.
  intros Hb Hs Hn Hd. unfold path_join.
  assert (is_absolute name = false) as ->.
  { unfold is_absolute. apply bool_decide_eq_false. destruct name as [|c name]; [done|].
    intros [= ->]. set_solver. }
  assert (∀ s, head (base ++ s) = head base) as Hhead by (by destruct base).
  case_bool_decide as Hlast.
  - destruct Hlast as [?|Hlast]; [done|]. destruct base as [|c base _] using rev_ind; [done|].
    rewrite last_snoc in Hlast. injection Hlast as ->. unfold components. rewrite Hhead. cbn [fst snd].
    f_equal. replace ((base ++ [SLASH]) ++ name) with (base ++ SLASH :: name) by (by rewrite <-app_assoc).
    rewrite split_on_snoc by done. rewrite (split_on_snoc SLASH base []) by set_solver.
    rewrite keep_components_snoc by done. f_equal.
    generalize (negb (bool_decide (head (base ++ [SLASH]) = Some SLASH))) as b.
    induction (split_on SLASH base) as [|x l IH]; intros b; cbn; [done|].
    destruct (_ || _); [by apply IH|]. f_equal. apply IH.
  - unfold components. rewrite Hhead. cbn [fst snd app]. f_equal.
    by rewrite split_on_snoc, keep_components_snoc.
Qed.

Lemma safe_segment_spec segment name :
  safe_filename_segment segment = Some name →
  name = trim segment ∧ name ≠ [] ∧ str_len name ≤ MAX_SEGMENT_LEN ∧ head name ≠ Some DOT ∧
  ∀ c, c ∈ name → bad_segment_char c = false.
Proof.
  unfold safe_filename_segment. case_bool_decide as He; [done|].
  destruct (_ || _); [done|]. destruct (Nat.ltb_spec MAX_SEGMENT_LEN (str_len (trim segment))); [done|].
  destruct (starts_with _ _) eqn:Hs; [done|]. destruct (ends_with _ _); [done|]. cbn [orb].
  destruct (existsb _ _) eqn:Hb; [done|]. intros [= <-]. split_and!; try done.
  - destruct (trim segment) as [|c s]; [done|]. intros [= ->]. unfold starts_with in Hs. change §"." with [DOT] in Hs.
    cbn in Hs. by destruct s.
  - intros c Hc. destruct (bad_segment_char c) eqn:Hbad; [|done].
    assert (existsb bad_segment_char (trim segment) = true) as Ht; [|congruence].
    apply existsb_exists. exists c. by rewrite <-list_elem_of_In.
Qed.

(** A path built from a name a client chose lies directly in the directory it was
    meant for: it is the directory's path with one more component, the trimmed name with
    the suffix, and this component has no separator, no control character, and is not
    [.], [..] or a hidden file. *)
Theorem safe_join_confined base segment suffix path :
  base ≠ [] → SLASH ∉ suffix → safe_join base segment suffix = Some path →
  let name := trim segment ++ suffix in
  components path = ((components base).1, (components base).2 ++ [name]) ∧
  SLASH ∉ name ∧ head name ≠ Some DOT ∧ str_len (trim segment) ≤ MAX_SEGMENT_LEN ∧
  (∀ c, c ∈ trim segment → c ≠ BACKSLASH ∧ c ≠ COLON ∧ c ∉ NAME_RESERVED ∧ is_control c = false).
Proof.
  intros Hb Hsuf Hj name. unfold safe_join in Hj. apply bind_Some in Hj as (safe & Hsafe & [= <-]).
  apply safe_segment_spec in Hsafe as (-> & Hne & Hlen & Hhead & Hgood).
  assert (∀ c, c ∈ trim segment →
    c ≠ SLASH ∧ c ≠ BACKSLASH ∧ c ≠ COLON ∧ c ∉ NAME_RESERVED ∧ is_control c = false) as Hchars.
  { intros c Hc. apply Hgood, orb_false_iff in Hc as [Hc Hcon]. apply bool_decide_eq_false in Hc.
    rewrite !elem_of_cons in Hc. split_and!; try done; intros ?; apply Hc; auto. }
  assert (SLASH ∉ name) as Hs.
  { intros [Hc|?]%elem_of_app; [|done]. by destruct (Hchars _ Hc). }
  assert (head name ≠ Some DOT) as Hh by (unfold name; by destruct (trim segment)).
  split_and!; try done; [|intros c Hc; by destruct (Hchars c Hc)].
  apply components_join; try done.
  - unfold name. by destruct (trim segment).
  - intros Hd. by rewrite Hd in Hh.
Qed.

(** ** Settings under constraints *)
Lemma set_accepted {T} (v : T) (c : Constrained T) :
  normalizer c = None → can_set c v = Ok tt → value (set v c).1 = v.
Proof. unfold set, can_set. by intros -> ->. Qed.

(** A setting after assignments: the same constraint, which still holds. *)
Definition same_constraint {T} (c c' : Constrained T) : Prop :=
  validator c' = validator c ∧ normalizer c' = normalizer c ∧ (satisfied c → satisfied c').
#[export] Instance same_constraint_preorder {T} : PreOrder (@same_constraint T).
Proof.
  split; [by intros c|]. intros a b c (H1 & H2 & H3) (H4 & H5 & H6).
  split_and!; [congruence|congruence|auto].
Qed.
Lemma set_same_constraint {T} (v : T) c : same_constraint c (set v c).1.
Proof. by destruct (set_once v c) as (? & ? & ? & _). Qed.

Definition same_constraints (c c' : Config) : Prop :=
  same_constraint (sandbox_policy c) (sandbox_policy c') ∧
  same_constraint (approval_policy c) (approval_policy c').
#[export] Instance same_constraints_preorder : PreOrder same_constraints.
Proof. split; [by intros c|]. intros a b c [] []. split; by etrans. Qed.

Lemma set_sandbox_same v c : same_constraints c (set_sandbox v c).
Proof. split; [apply set_same_constraint|done]. Qed.
Lemma set_approval_same v c : same_constraints c (set_approval v c).
Proof. split; [done|apply set_same_constraint]. Qed.
Lemma set_tool_access_same v c : same_constraints c (set_tool_access v c).
Proof. done. Qed.

Create HintDb settings.
#[export] Hint Resolve set_sandbox_same set_approval_same set_tool_access_same : settings.

Lemma apply_network_same network c r : same_constraints c (apply_network network c r).1.
Proof. unfold apply_network. destruct (value (sandbox_policy c)); cbn; auto with settings. all: done. Qed.

Lemma apply_permission_policy_same c policy : same_constraints c (apply_permission_policy c policy).1.
Proof.
  unfold apply_permission_policy.
  assert (∀ c' r, same_constraints c c' → same_constraints c
    (match ap_network policy with Some n => apply_network n c' r | None => (c', r) end).1) as Hnet.
  { intros c' r ?. destruct (ap_network policy); cbn; [|done]. etrans; [done|apply apply_network_same]. }
  assert (∀ c', same_constraints c c' → same_constraints c
    (match ap_tool_access policy with
     | Some t => set_tool_access (Some {| allowed := ta_allowed t; denied := ta_denied t;
                                          tool_approval_overrides := ta_overrides t |}) c'
     | None => c' end)) as Htool by (intros c' ?; by destruct (ap_tool_access policy)).
  destruct (ap_profile policy) as [profile|].
  - destruct (profile_sandbox profile) as [sandbox r]. apply Hnet, Htool, set_sandbox_same.
  - destruct (ap_sandbox policy); apply Hnet, Htool; auto with settings. done.
Qed.

(** What a policy asks for. *)
Definition asks_sandbox (policy : AgentPermissionPolicy) (v : SandboxPolicy) : Prop :=
  (∃ profile, ap_profile policy = Some profile ∧ (profile_sandbox profile).1 = v) ∨
  (ap_profile policy = None ∧ ∃ m, ap_sandbox policy = Some m ∧ mode_sandbox m = v).
Definition asks_network (policy : AgentPermissionPolicy) : Prop :=
  ∃ network, ap_network policy = Some network ∧ np_enabled network = true ∧
    np_allowed_domains network = [] ∧ np_denied_domains network = [].

(** A sandbox that the base configuration or the policy accounts for. *)
Definition granted (base : SandboxPolicy) (policy : option AgentPermissionPolicy) (v : SandboxPolicy) : Prop :=
  v = ReadOnly ∨ v = base ∨
  (∃ p, policy = Some p ∧ asks_sandbox p v) ∨
  (∃ p roots net net0 e1 e2, policy = Some p ∧ v = WorkspaceWrite roots net e1 e2 ∧
     (base = WorkspaceWrite roots net0 e1 e2 ∨ asks_sandbox p (WorkspaceWrite roots net0 e1 e2)) ∧
     (net = true → asks_network p)).

Lemma set_value {T} (v : T) c : normalizer c = None → value (set v c).1 = value c ∨ value (set v c).1 = v.
Proof. intros Hn. destruct (set_once v c) as (_ & _ & _ & [?|Hv]); [by left|right]. by rewrite Hv; unfold normal_of; rewrite Hn. Qed.

(** What the first two steps of a policy leave. *)
Lemma policy_sandbox_granted base c policy :
  normalizer (sandbox_policy c) = None → value (sandbox_policy c) = base →
  let c' := match ap_profile policy, ap_sandbox policy with
            | Some profile, _ => set_sandbox (profile_sandbox profile).1 c
            | None, Some m => set_sandbox (mode_sandbox m) c
            | None, None => c
            end in
  value (sandbox_policy c') = base ∨ asks_sandbox policy (value (sandbox_policy c')).
Proof.
  intros Hn <-. unfold asks_sandbox. cbn.
  destruct (ap_profile policy) as [profile|]; [|destruct (ap_sandbox policy) as [m|]]; cbn.
  - destruct (set_value (profile_sandbox profile).1 _ Hn) as [->| ->]; [by left|right; left; eauto].
  - destruct (set_value (mode_sandbox m) _ Hn) as [->| ->]; [by left|right; right; eauto].
  - by left.
Qed.

Lemma apply_network_granted base policy network c r :
  normalizer (sandbox_policy c) = None → ap_network policy = Some network →
  value (sandbox_policy c) = base ∨ asks_sandbox policy (value (sandbox_policy c)) →
  granted base (Some policy) (value (sandbox_policy (apply_network network c r).1)).
Proof.
  intros Hn Hnet Hc.
  assert (granted base (Some policy) (value (sandbox_policy c))) as Hsame.
  { destruct Hc as [->|?]; [by right; left|right; right; left; eauto]. }
  unfold apply_network. destruct (value (sandbox_policy c)) as [| | |roots net0 e1 e2] eqn:Hv; cbn;
    [by rewrite Hv..|].
  destruct (set_value (WorkspaceWrite roots
    (np_enabled network && negb (negb (bool_decide (np_allowed_domains network = []))
     || negb (bool_decide (np_denied_domains network = [])))) e1 e2) _ Hn) as [->| ->]; [by rewrite Hv|].
  right; right; right. eexists policy, roots, _, net0, e1, e2. split_and!; try done.
  - destruct Hc as [<-|?]; [by left|by right].
  - intros [Hen Hdom]%andb_true_iff. exists network.
    rewrite negb_true_iff, orb_false_iff, !negb_false_iff, !bool_decide_eq_true in Hdom. naive_solver.
Qed.

Lemma apply_permission_policy_granted c policy :
  normalizer (sandbox_policy c) = None →
  granted (value (sandbox_policy c)) (Some policy)
    (value (sandbox_policy (apply_permission_policy c policy).1)).
Proof.
  intros Hn. pose proof (policy_sandbox_granted _ _ policy Hn eq_refl) as Hp. cbn in Hp.
  unfold apply_permission_policy.
  assert (∀ c1 r, normalizer (sandbox_policy c1) = None →
    value (sandbox_policy c1) = value (sandbox_policy c) ∨ asks_sandbox policy (value (sandbox_policy c1)) →
    granted (value (sandbox_policy c)) (Some policy) (value (sandbox_policy
      (match ap_network policy with Some n => apply_network n c1 r | None => (c1, r) end).1))) as Hnet.
  { intros c1 r Hn1 H1. destruct (ap_network policy) as [n|] eqn:En; [by apply apply_network_granted|].
    cbn. destruct H1 as [->|?]; [by right; left|right; right; left; eauto]. }
  assert (∀ v, normalizer (sandbox_policy (set_sandbox v c)) = None) as Hkeep.
  { intros v. destruct (set_sandbox_same v c) as [(_ & -> & _) _]. done. }
  destruct (ap_profile policy) as [profile|] eqn:Ep.
  - destruct (profile_sandbox profile) as [v r]. cbn in Hp.
    destruct (ap_tool_access policy); apply Hnet; cbn; first [apply (Hkeep v) | exact Hp].
  - destruct (ap_sandbox policy) as [m|]; destruct (ap_tool_access policy); apply Hnet; cbn;
      first [exact Hn | apply (Hkeep (mode_sandbox m)) | exact Hp].
Qed.

Lemma effective_mode_interactive requested caps m :
  (effective_execution_mode requested caps).1 = m →
  m ≠ AutoReview ∧ (m = Interactive → requested = Interactive ∧ can_interact caps = true).
Proof. unfold effective_execution_mode. destruct requested, (can_interact caps); by intros <-. Qed.

Section Theorems.
Context (read_file : str → FileRead) (read_dir : str → option (list str)) (from_json : str → option Json).
Local Notation resolve := (resolve_execution_security read_file read_dir from_json).
Local Notation policies home agent_ref :=
  (policies_of (load_agent_config read_file read_dir from_json home agent_ref)).

(** The settings an invocation ends with, and its mode. *)
Lemma resolve_settings base home agent_ref caps :
  let r := resolve base home agent_ref caps in
  let p := policies home agent_ref in
  let c := match permission p with Some policy => (apply_permission_policy base policy).1 | None => base end in
  config r = apply_execution_mode (if invalid p then set_sandbox ReadOnly c else c) (mode (context r)) (permission p) ∧
  mode (context r) = (effective_execution_mode (if invalid p then Unattended
                        else requested_execution_mode (execution p) (permission p) caps) caps).1 ∧
  (invalid p = true → fallback_reason (context r) ≠ None).
Proof.
  unfold resolve_execution_security. cbn zeta.
  set (p := policies_of _). clearbody p. unfold enforce_platform_sandbox_readiness.
  destruct (permission p) as [policy|]; [destruct (apply_permission_policy base policy) as [c pf]|];
    destruct (effective_execution_mode _ _) as [m fr]; cbn [fst]; (split_and!; [done|done|]);
    intros ->; [destruct pf|]; done.
Qed.

End Theorems.

(** ** Witnesses and examples *)
(** One agent whose file asks for full access without approvals, and one whose file is
    not JSON. *)
Definition demo_read_file (path : str) : FileRead :=
  if decide (path = §"/h/agents/ops.json") then FileData §"ops"
  else if decide (path = §"/h/agents/broken.json") then FileData §"{"
  else FileNotFound.
Definition demo_read_dir (path : str) : option (list str) :=
  if decide (path = §"/h/agents") then Some [§"/h/agents/broken.json"; §"/h/agents/ops.json"] else None.
Definition demo_from_json (data : str) : option Json :=
  if decide (data = §"ops") then
    Some (JObject
      [(§"id", JString §"ops");
       (§"permission_policy",
        JObject [(§"profile", JString §":workspace"); (§"sandbox", JString §"danger-full-access");
                 (§"network", JObject [(§"enabled", JBool true)])]);
       (§"execution_policy", JObject [(§"mode", JString §"unattended")])])
  else None.
Definition demo_base : Config :=
  {| sandbox_policy := allow_any DangerFullAccess; approval_policy := allow_any OnRequest;
     tool_access_policy := None |}.
Definition demo_resolve (agent_ref : str) : ResolvedExecutionSecurity :=
  resolve_execution_security demo_read_file demo_read_dir demo_from_json demo_base §"/h" agent_ref interactive.
Definition demo_outcome (agent_ref : str) : SandboxPolicy * AskForApproval * ExecutionMode :=
  let r := demo_resolve agent_ref in
  (value (sandbox_policy (config r)), value (approval_policy (config r)), mode (context r)).

(** The profile wins over the legacy field; the agent is also found by its [id].  A file
    that is not JSON closes the agent of its own name only: under any other spelling the
    scan of the directory skips the file, and the base configuration is in force. *)
Example demo_outcomes :
  demo_outcome §"ops" = (WorkspaceWrite [] true false false, Never, Unattended) ∧
  demo_outcome §" OPS " = demo_outcome §"ops" ∧
  demo_outcome §"broken" = (ReadOnly, Never, Unattended) ∧
  demo_outcome §"Broken" = (DangerFullAccess, OnRequest, Interactive).
Proof. by vm_compute. Qed.


Lemma safe_join_confined_witness :
  safe_join §"/srv/agents" §" review.notes " §".json" = Some §"/srv/agents/review.notes.json" ∧
  components §"/srv/agents/review.notes.json" = (true, [§"srv"; §"agents"; §"review.notes.json"]).
Proof.
  assert (safe_join §"/srv/agents" §" review.notes " §".json" = Some §"/srv/agents/review.notes.json") as Hj
    by (by vm_compute).
  split; [exact Hj|].
  destruct (safe_join_confined §"/srv/agents" §" review.notes " §".json" _ ltac:(done)
              ltac:(by apply (bool_decide_unpack _); vm_compute) Hj) as (Hc & _).
  rewrite Hc. by vm_compute.
Defined.

(** The documentation counts the characters of a segment, the code its bytes. *)
Example long_in_bytes :
  safe_filename_segment (replicate 200 (97%N)) = Some (replicate 200 97%N) ∧
  safe_filename_segment (replicate 101 (0xE9%N)) = None ∧ length (replicate 101 (0xE9%N)) = 101.
Proof. by vm_compute. Qed.
