(* ===== verification/CommandExec.v ===== *)
(** * Running a command
    ([core/src/exec.rs], [spawn.rs], [sandboxing/mod.rs] and [landlock.rs])

    The process that is spawned for a command under a sandbox, the collection of its
    output, and the result that is made of it.  Its environment comes from
    [SessionPolicy.populate_env].  The JSON form of a policy, text decoding and the child
    process are parameters.  Target: Linux. *)
From Stdlib Require Import Strings.Byte.
From S2P Require Import Prelude RustStr MachInt Paths.
From S2P Require Import Approval Orchestrator.

(** ** The process that is spawned *)
Inductive ExecExpiration := Timeout (ms : Z) | DefaultTimeout | Cancellation.
Definition DEFAULT_EXEC_COMMAND_TIMEOUT_MS : Z := 10000.
Definition expiration_from (timeout_ms : option Z) : ExecExpiration :=
  match timeout_ms with Some ms => Timeout ms | None => DefaultTimeout end.
Definition timeout_ms (e : ExecExpiration) : option Z :=
  match e with
  | Timeout ms => Some ms
  | DefaultTimeout => Some DEFAULT_EXEC_COMMAND_TIMEOUT_MS
  | Cancellation => None
  end.

Record CommandSpec := {
  program : str;
  spec_args : list str;
  spec_cwd : str;
  spec_env : gmap str str;
  spec_expiration : ExecExpiration;
}.
Record ExecEnv := {
  command : list str;
  env_cwd : str;
  env_vars : gmap str str;
  env_expiration : ExecExpiration;
  env_sandbox : SandboxType;
  env_arg0 : option str;
}.

(** The new process: its image, its arguments with the zeroth one apart, its directory
    and its environment. *)
Record Process := {
  image : str;
  argv0 : str;
  argv : list str;
  proc_cwd : str;
  envs : gmap str str;
}.

Definition SAVFOX_SANDBOX_NETWORK_DISABLED_ENV_VAR : str := §"SAVFOX_SANDBOX_NETWORK_DISABLED".
Definition LINUX_SANDBOX_ARG0 : str := §"savfox-linux-sandbox".

Inductive ExecError :=
| EmptyCommand
| LandlockSandboxExecutableNotProvided
| SeatbeltUnavailable
| IoError
| SandboxTimeout (exit_code : Z) (stdout stderr aggregated : str)
| SandboxDeniedErr (exit_code : Z) (stdout stderr aggregated : str)
| SandboxSignal (signal : Z).

Section Spawn.
(** [serde_json::to_string] on a policy. *)
Context (policy_to_json : SandboxPolicy → str).

Definition create_linux_sandbox_command_args (command : list str) (sandbox_policy : SandboxPolicy)
    (sandbox_policy_cwd : str) : list str :=
  [§"--sandbox-policy-cwd"; sandbox_policy_cwd; §"--sandbox-policy"; policy_to_json sandbox_policy; §"--"]
  ++ command.

Definition transform (spec : CommandSpec) (policy : SandboxPolicy) (sandbox : SandboxType)
    (sandbox_policy_cwd : str) (savfox_linux_sandbox_exe : option str) : result ExecError ExecEnv :=
  let env := if negb (has_full_network_access policy)
             then <[SAVFOX_SANDBOX_NETWORK_DISABLED_ENV_VAR := §"1"]> (spec_env spec) else spec_env spec in
  let command := program spec :: spec_args spec in
  let exec_env command arg0 :=
    {| command := command; env_cwd := spec_cwd spec; env_vars := env; env_expiration := spec_expiration spec;
       env_sandbox := sandbox; env_arg0 := arg0 |} in
  match sandbox with
  | SandboxNone | WindowsRestrictedToken => Ok (exec_env command None)
  | MacosSeatbelt => Err SeatbeltUnavailable
  | LinuxSeccomp =>
      match savfox_linux_sandbox_exe with
      | None => Err LandlockSandboxExecutableNotProvided
      | Some exe =>
          Ok (exec_env (exe :: create_linux_sandbox_command_args command policy sandbox_policy_cwd)
                (Some LINUX_SANDBOX_ARG0))
      end
  end.

Definition split_first (command : list str) : result ExecError (str * list str) :=
  match command with [] => Err EmptyCommand | program :: args => Ok (program, args) end.

Definition git_safety_env (program : str) (env : gmap str str) : list (str * str) :=
  let is_git := match file_stem program with Some stem => eq_ignore_ascii_case stem §"git" | None => false end in
  if negb is_git then []
  else
    (if bool_decide (is_Some (env !! §"GIT_PAGER")) then [] else [(§"GIT_PAGER", §"cat")])
    ++ (if bool_decide (is_Some (env !! §"PAGER")) then [] else [(§"PAGER", §"cat")])
    ++ (if bool_decide (is_Some (env !! §"GIT_CONFIG_COUNT")) then []
        else [(§"GIT_CONFIG_COUNT", §"2"); (§"GIT_CONFIG_KEY_0", §"core.pager"); (§"GIT_CONFIG_VALUE_0", §"cat");
              (§"GIT_CONFIG_KEY_1", §"diff.external"); (§"GIT_CONFIG_VALUE_1", [])]).

(** The [Command] that [spawn_child_async] builds. *)
Definition child_process (program : str) (args : list str) (arg0 : option str) (cwd : str)
    (sandbox_policy : SandboxPolicy) (env : gmap str str) : Process :=
  let env' := foldl (λ m kv, <[kv.1 := kv.2]> m) env (git_safety_env program env) in
  {| image := program; argv0 := default program arg0; argv := args; proc_cwd := cwd;
     envs := if negb (has_full_network_access sandbox_policy)
             then <[SAVFOX_SANDBOX_NETWORK_DISABLED_ENV_VAR := §"1"]> env' else env' |}.

(** The first part of [exec]. *)
Definition process_of (e : ExecEnv) (sandbox_policy : SandboxPolicy) : result ExecError Process :=
  '(program, args) ← split_first (command e);
  Ok (child_process program args (env_arg0 e) (env_cwd e) sandbox_policy (env_vars e)).
End Spawn.

(** ** What it writes *)
Definition EXEC_OUTPUT_MAX_BYTES : Z := 1024 * 1024.
Definition MAX_EXEC_OUTPUT_DELTAS_PER_CALL : Z := 10000.

Definition append_capped (dst src : list byte) (max_bytes : Z) : list byte :=
  if (max_bytes <=? zlen dst)%Z then dst
  else
    let remaining := usat_sub max_bytes (zlen dst) in
    dst ++ take (Z.to_nat (Z.min remaining (zlen src))) src.

(** The chunks that a reader gets, to the first empty one; [stream]: whether somebody
    listens.  The result is what is kept and the chunks that are sent on. *)
Fixpoint read_loop (max_bytes max_deltas : Z) (stream : bool) (chunks : list (list byte)) (buf : list byte)
    (emitted_deltas : Z) : list byte * list (list byte) :=
  match chunks with
  | [] | [] :: _ => (buf, [])
  | chunk :: rest =>
      let emit := stream && (emitted_deltas <? max_deltas)%Z in
      let '(buf, deltas) := read_loop max_bytes max_deltas stream rest (append_capped buf chunk max_bytes)
                              (if emit then emitted_deltas + 1 else emitted_deltas)%Z in
      (buf, if emit then chunk :: deltas else deltas)
  end.
Definition read_capped (stream : bool) (chunks : list (list byte)) : list byte * list (list byte) :=
  read_loop EXEC_OUTPUT_MAX_BYTES MAX_EXEC_OUTPUT_DELTAS_PER_CALL stream chunks [] 0.

Definition aggregate_capped (max_bytes : Z) (stdout stderr : list byte) : list byte :=
  let total_len := usat_add (zlen stdout) (zlen stderr) in
  if (total_len <=? max_bytes)%Z then stdout ++ stderr
  else
    let want_stdout := Z.min (zlen stdout) (max_bytes / 3) in
    let want_stderr := zlen stderr in
    let stderr_take := Z.min want_stderr (usat_sub max_bytes want_stdout) in
    let remaining := usat_sub max_bytes (want_stdout + stderr_take) in
    let stdout_take := (want_stdout + Z.min remaining (usat_sub (zlen stdout) want_stdout))%Z in
    take (Z.to_nat stdout_take) stdout ++ take (Z.to_nat stderr_take) stderr.
Definition aggregate_output (stdout stderr : list byte) : list byte :=
  aggregate_capped EXEC_OUTPUT_MAX_BYTES stdout stderr.

(** ** How it ends *)
Definition SIGKILL_CODE : Z := 9.
Definition TIMEOUT_CODE : Z := 64.
Definition EXIT_CODE_SIGNAL_BASE : Z := 128.
Definition EXEC_TIMEOUT_EXIT_CODE : Z := 124.
Definition SIGSYS_CODE : Z := 31.

(** [ExitStatus::signal] and [code] of a raw wait status. *)
Definition signal (status : Z) : option Z :=
  let s := Z.land status 127 in if (s =? 0)%Z || (s =? 127)%Z then None else Some s.
Definition code (status : Z) : option Z :=
  if (Z.land status 127 =? 0)%Z then Some (Z.land (Z.shiftr status 8) 255) else None.
Definition synthetic_exit_status (code : Z) : Z := code.

(** The child: which of its end, the expiration and an interrupt comes first; whether it
    can be killed; and its two pipes: the chunks that are read, and whether the reader
    comes to the end of the pipe, fails, or still waits when it is given up. *)
Inductive Ended := Exited (status : Z) | WaitFailed | Expired | CtrlC.
Inductive ReadEnd := ReadEof | ReadFailed | ReadPending.
Record Pipe := { chunks : list (list byte); read_end : ReadEnd }.
Record Child := { ended : Ended; kill_ok : bool; stdout_pipe : Pipe; stderr_pipe : Pipe }.

Record RawExecToolCallOutput := {
  exit_status : Z; raw_stdout : list byte; raw_stderr : list byte; raw_aggregated : list byte; raw_timed_out : bool }.
Record ExecToolCallOutput := {
  exit_code : Z; out_stdout : str; out_stderr : str; out_aggregated : str; out_timed_out : bool }.

Definition await_with_timeout (stream : bool) (p : Pipe) : result ExecError (list byte) :=
  match read_end p with
  | ReadEof => Ok (read_capped stream (chunks p)).1
  | ReadFailed => Err IoError
  | ReadPending => Ok []
  end.

Definition exit_of (child : Child) : result ExecError (Z * bool) :=
  match ended child with
  | Exited status => Ok (status, false)
  | WaitFailed => Err IoError
  | Expired =>
      if kill_ok child then Ok (synthetic_exit_status (EXIT_CODE_SIGNAL_BASE + TIMEOUT_CODE), true) else Err IoError
  | CtrlC =>
      if kill_ok child then Ok (synthetic_exit_status (EXIT_CODE_SIGNAL_BASE + SIGKILL_CODE), false) else Err IoError
  end.

Definition consume_truncated_output (stream : bool) (child : Child) : result ExecError RawExecToolCallOutput :=
  '(exit_status, timed_out) ← exit_of child;
  stdout ← await_with_timeout stream (stdout_pipe child);
  stderr ← await_with_timeout stream (stderr_pipe child);
  Ok {| exit_status := exit_status; raw_stdout := stdout; raw_stderr := stderr;
        raw_aggregated := aggregate_output stdout stderr; raw_timed_out := timed_out |}.

Definition SANDBOX_DENIED_KEYWORDS : list str :=
  [§"operation not permitted"; §"permission denied"; §"read-only file system"; §"seccomp"; §"sandbox"; §"landlock";
   §"failed to write file"].
Definition QUICK_REJECT_EXIT_CODES : list Z := [2; 126; 127]%Z.

Section Finish.
(** [str::to_lowercase] beyond ASCII, and [bytes_to_string_smart]. *)
Context (to_lowercase : str → str) (bytes_to_string_smart : list byte → str).

Definition has_sandbox_keyword (out : ExecToolCallOutput) : bool :=
  existsb (λ section, existsb (str_contains (to_lowercase section)) SANDBOX_DENIED_KEYWORDS)
    [out_stderr out; out_stdout out; out_aggregated out].

Definition is_likely_sandbox_denied (sandbox_type : SandboxType) (out : ExecToolCallOutput) : bool :=
  if bool_decide (sandbox_type = SandboxNone) || (exit_code out =? 0)%Z then false
  else if has_sandbox_keyword out then true
  else if bool_decide (exit_code out ∈ QUICK_REJECT_EXIT_CODES) then false
  else bool_decide (sandbox_type = LinuxSeccomp) && (exit_code out =? EXIT_CODE_SIGNAL_BASE + SIGSYS_CODE)%Z.

(** The output that is reported, once the status is known not to be a signal. *)
Definition output_of (raw : RawExecToolCallOutput) (timed_out : bool) : ExecToolCallOutput :=
  {| exit_code := if timed_out then EXEC_TIMEOUT_EXIT_CODE else default (-1)%Z (code (exit_status raw));
     out_stdout := bytes_to_string_smart (raw_stdout raw); out_stderr := bytes_to_string_smart (raw_stderr raw);
     out_aggregated := bytes_to_string_smart (raw_aggregated raw); out_timed_out := timed_out |}.

Definition finalize_exec_result (raw_output_result : result ExecError RawExecToolCallOutput) (sandbox_type : SandboxType)
    : result ExecError ExecToolCallOutput :=
  raw ← raw_output_result;
  let finish timed_out :=
    let out := output_of raw timed_out in
    if timed_out : bool then Err (SandboxTimeout (exit_code out) (out_stdout out) (out_stderr out) (out_aggregated out))
    else if is_likely_sandbox_denied sandbox_type out
    then Err (SandboxDeniedErr (exit_code out) (out_stdout out) (out_stderr out) (out_aggregated out))
    else Ok out in
  match signal (exit_status raw) with
  | Some s => if (s =? TIMEOUT_CODE)%Z then finish true else Err (SandboxSignal s)
  | None => finish (raw_timed_out raw)
  end.

Section Exec.
Context (policy_to_json : SandboxPolicy → str).
(** The child of a process; [None]: it cannot be spawned. *)
Context (spawn : Process → option Child).

Definition exec (stream : bool) (e : ExecEnv) (sandbox_policy : SandboxPolicy) : result ExecError RawExecToolCallOutput :=
  p ← process_of e sandbox_policy;
  match spawn p with
  | None => Err IoError
  | Some child => consume_truncated_output stream child
  end.
Definition execute_exec_env (stream : bool) (e : ExecEnv) (sandbox_policy : SandboxPolicy)
    : result ExecError ExecToolCallOutput :=
  finalize_exec_result (exec stream e sandbox_policy) (env_sandbox e).

Definition process_exec_tool_call (command : list str) (cwd : str) (expiration : ExecExpiration) (env : gmap str str)
    (sandbox_policy : SandboxPolicy) (sandbox_cwd : str) (savfox_linux_sandbox_exe : option str) (stream : bool)
    : result ExecError ExecToolCallOutput :=
  let sandbox_type := select_initial Linux sandbox_policy Auto false in
  '(program, args) ← split_first command;
  e ← transform policy_to_json
        {| program := program; spec_args := args; spec_cwd := cwd; spec_env := env; spec_expiration := expiration |}
        sandbox_policy sandbox_type sandbox_cwd savfox_linux_sandbox_exe;
  execute_exec_env stream e sandbox_policy.
End Exec.
End Finish.

(** * Correctness *)

(** ** The output *)
Definition before_eof (chunks : list (list byte)) : list (list byte) :=
  take_while (λ c, negb (bool_decide (c = []))) chunks.

Lemma append_capped_take (dst src : list byte) max :
  (0 ≤ max)%Z → (zlen dst ≤ max)%Z → append_capped dst src max = take (Z.to_nat max) (dst ++ src).
Proof.
  unfold append_capped, usat_sub, zlen. intros Hmax Hdst. case_match eqn:E.
  - rewrite Z.leb_le in E. rewrite take_app_le, take_ge by lia. done.
  - rewrite Z.leb_gt in E. rewrite take_app_ge by lia. f_equal.
    destruct (decide (Z.of_nat (length src) ≤ max - Z.of_nat (length dst))%Z).
    + rewrite !take_ge by lia. done.
    + f_equal. lia.
Qed.

Lemma take_take_app {A} n (l k : list A) : take n (take n l ++ k) = take n (l ++ k).
Proof.
  destruct (decide (n ≤ length l)); [|by rewrite (take_ge l) by lia].
  rewrite !take_app_le by (rewrite ?length_take; lia). by rewrite take_take, Nat.min_id.
Qed.

Lemma read_loop_spec max max_deltas stream chunks buf n :
  (0 ≤ max)%Z → (zlen buf ≤ max)%Z →
  read_loop max max_deltas stream chunks buf n =
  (take (Z.to_nat max) (buf ++ concat (before_eof chunks)),
   if stream then take (Z.to_nat (max_deltas - n)) (before_eof chunks) else []).
Proof.
  intros Hmax. revert buf n. induction chunks as [|c chunks IH]; intros buf n Hbuf; cbn.
  - rewrite app_nil_r, take_ge by (unfold zlen in Hbuf; lia). by rewrite take_nil; destruct stream.
  - destruct c as [|b c].
    + cbn. rewrite app_nil_r, take_ge by (unfold zlen in Hbuf; lia). by rewrite take_nil; destruct stream.
    + cbn [before_eof take_while bool_decide decide_rel negb]. rewrite append_capped_take by done.
      rewrite IH by (unfold zlen; rewrite length_take; lia). cbn [concat]. cbn.
      rewrite take_take_app, <- app_assoc. cbn.
      destruct stream; cbn; [|done]. case_match eqn:E.
      * rewrite Z.ltb_lt in E. replace (Z.to_nat (max_deltas - n)) with (S (Z.to_nat (max_deltas - (n + 1)))) by lia.
        done.
      * rewrite Z.ltb_ge in E. replace (Z.to_nat (max_deltas - n)) with 0%nat by lia. done.
Qed.

Lemma read_capped_spec stream chunks :
  read_capped stream chunks =
  (take (Z.to_nat EXEC_OUTPUT_MAX_BYTES) (concat (before_eof chunks)),
   if stream then take (Z.to_nat MAX_EXEC_OUTPUT_DELTAS_PER_CALL) (before_eof chunks) else []).
Proof. unfold read_capped. rewrite read_loop_spec; [by rewrite Z.sub_0_r|done..]. Qed.

(** A third is reserved for one stream and the rest for the other; what one leaves, the
    other may use. *)
Lemma aggregate_capped_spec max (stdout stderr : list byte) :
  (0 ≤ max < USIZE_MAX)%Z →
  ∃ n m, aggregate_capped max stdout stderr = take n stdout ++ take m stderr ∧
    n ≤ length stdout ∧ m ≤ length stderr ∧
    (Z.of_nat n + Z.of_nat m = Z.min (zlen stdout + zlen stderr) max)%Z ∧
    (Z.min (zlen stdout) (max / 3) ≤ Z.of_nat n)%Z ∧ (Z.min (zlen stderr) (max - max / 3) ≤ Z.of_nat m)%Z.
Proof.
  intros Hmax. unfold aggregate_capped, usat_add, usat_sub, zlen.
  assert (0 ≤ max / 3 ≤ max)%Z by (split; [apply Z.div_pos|apply Z.div_le_upper_bound]; lia).
  case_match eqn:E.
  - rewrite Z.leb_le in E. exists (length stdout), (length stderr). rewrite !take_ge by lia. split_and!; try done; lia.
  - rewrite Z.leb_gt in E. do 2 eexists. split; [reflexivity|]. split_and!; lia.
Qed.

Definition collected (p : Pipe) (buf : list byte) : Prop :=
  read_end p = ReadEof ∧ buf = take (Z.to_nat EXEC_OUTPUT_MAX_BYTES) (concat (before_eof (chunks p)))
  ∨ read_end p = ReadPending ∧ buf = [].

Lemma await_collected stream p buf : await_with_timeout stream p = Ok buf → collected p buf.
Proof.
  unfold await_with_timeout. destruct (read_end p) eqn:E; intros [= <-]; unfold collected; [|by right].
  left. by rewrite read_capped_spec.
Qed.

(** C32. What is kept of the output of a command, however much it writes: of each stream the
    first megabyte, all of it when it is shorter, or nothing when its pipe is still open
    after the time for draining; of both together a prefix of one and then a prefix of the
    other, as much as a megabyte holds, with a third of it reserved for the first stream and
    two thirds for the second; and a client is sent the first ten thousand chunks. *)
Theorem collected_output stream child raw :
  consume_truncated_output stream child = Ok raw →
  collected (stdout_pipe child) (raw_stdout raw) ∧ collected (stderr_pipe child) (raw_stderr raw) ∧
  (∃ n m, raw_aggregated raw = take n (raw_stdout raw) ++ take m (raw_stderr raw) ∧
     (zlen (raw_aggregated raw) = Z.min (zlen (raw_stdout raw) + zlen (raw_stderr raw)) EXEC_OUTPUT_MAX_BYTES)%Z ∧
     (Z.min (zlen (raw_stdout raw)) (EXEC_OUTPUT_MAX_BYTES / 3) ≤ Z.of_nat n)%Z ∧
     (Z.min (zlen (raw_stderr raw)) (EXEC_OUTPUT_MAX_BYTES - EXEC_OUTPUT_MAX_BYTES / 3) ≤ Z.of_nat m)%Z) ∧
  (∀ p, (read_capped stream (chunks p)).2 =
        if stream then take (Z.to_nat MAX_EXEC_OUTPUT_DELTAS_PER_CALL) (before_eof (chunks p)) else []).
Proof.
  unfold consume_truncated_output. destruct (exit_of child) as [[status timed_out]|]; [|done].
  destruct (await_with_timeout stream (stdout_pipe child)) as [out|] eqn:Ho; [|done]. cbn.
  destruct (await_with_timeout stream (stderr_pipe child)) as [err|] eqn:He; [|done]. cbn. intros [= <-]; cbn.
  split_and!; [by eapply await_collected..| |intros p; by rewrite read_capped_spec].
  unfold aggregate_output.
  destruct (aggregate_capped_spec EXEC_OUTPUT_MAX_BYTES out err) as (n & m & -> & Hn & Hm & Hsum & Hout & Herr); [done|].
  exists n, m. split_and!; [done| |done..].
  rewrite zlen_app. unfold zlen in *. rewrite !length_take. lia.
Qed.

(** ** The result *)
Section Outcome.
Context (to_lowercase : str → str) (bytes_to_string_smart : list byte → str).
Context (policy_to_json : SandboxPolicy → str) (spawn : Process → option Child).

Lemma signal_timeout : signal (synthetic_exit_status (EXIT_CODE_SIGNAL_BASE + TIMEOUT_CODE)) = Some TIMEOUT_CODE.
Proof. done. Qed.
Lemma signal_killed : signal (synthetic_exit_status (EXIT_CODE_SIGNAL_BASE + SIGKILL_CODE)) = Some SIGKILL_CODE.
Proof. done. Qed.

(** How the end of a child and of its pipes shows in the error or the output. *)
Definition outcome_ok (sandbox : SandboxType) (child : Child) (r : result ExecError ExecToolCallOutput) : Prop :=
  match r with
  | Ok out =>
      ∃ status, ended child = Exited status ∧ signal status = None ∧ exit_code out = default (-1)%Z (code status) ∧
        is_likely_sandbox_denied to_lowercase sandbox out = false ∧ out_timed_out out = false
  | Err (SandboxDeniedErr c _ _ _) =>
      sandbox ≠ SandboxNone ∧ c ≠ 0%Z ∧
      ∃ status, ended child = Exited status ∧ signal status = None ∧ c = default (-1)%Z (code status)
  | Err (SandboxTimeout c _ _ _) =>
      c = EXEC_TIMEOUT_EXIT_CODE ∧
      (ended child = Expired ∨ ∃ status, ended child = Exited status ∧ signal status = Some TIMEOUT_CODE)
  | Err (SandboxSignal s) =>
      s ≠ TIMEOUT_CODE ∧
      (ended child = CtrlC ∧ s = SIGKILL_CODE ∨ ∃ status, ended child = Exited status ∧ signal status = Some s)
  | Err IoError =>
      ended child = WaitFailed ∨ (ended child = Expired ∨ ended child = CtrlC) ∧ kill_ok child = false ∨
      read_end (stdout_pipe child) = ReadFailed ∨ read_end (stderr_pipe child) = ReadFailed
  | Err _ => False
  end.

Lemma await_failed stream p e : await_with_timeout stream p = Err e → e = IoError ∧ read_end p = ReadFailed.
Proof. unfold await_with_timeout. destruct (read_end p); naive_solver. Qed.

Lemma finalize_ok stream sandbox child :
  outcome_ok sandbox child
    (finalize_exec_result to_lowercase bytes_to_string_smart (consume_truncated_output stream child) sandbox).
Proof.
  unfold consume_truncated_output. destruct (exit_of child) as [[status timed_out]|e] eqn:Hexit; cbn.
  2: { unfold exit_of in Hexit. destruct (ended child) eqn:E; try destruct (kill_ok child) eqn:K; simplify_eq; cbn; eauto. }
  destruct (await_with_timeout stream (stdout_pipe child)) as [out|e] eqn:Ho; cbn;
    [|apply await_failed in Ho as [-> ?]; cbn; auto].
  destruct (await_with_timeout stream (stderr_pipe child)) as [err|e] eqn:He; cbn;
    [|apply await_failed in He as [-> ?]; cbn; auto].
  assert (timed_out = true → signal status = Some TIMEOUT_CODE ∧ ended child = Expired) as Htime.
  { unfold exit_of in Hexit. destruct (ended child); try destruct (kill_ok child); naive_solver. }
  assert (ended child = Exited status ∨ ended child = Expired ∧ status = 192%Z ∨ ended child = CtrlC ∧ status = 137%Z)
    as Hended.
  { unfold exit_of in Hexit. destruct (ended child); try destruct (kill_ok child); naive_solver. }
  destruct (signal status) as [s|] eqn:Hs.
  - destruct (s =? TIMEOUT_CODE)%Z eqn:Es; cbn.
    + rewrite Z.eqb_eq in Es. subst s. split; [done|]. destruct Hended as [?|[[??]|[? ->]]]; [eauto..|done].
    + rewrite Z.eqb_neq in Es. split; [done|]. destruct Hended as [?|[[? ->]|[? ->]]]; [eauto| |].
      * by injection Hs as <-.
      * left. by injection Hs as <-.
  - destruct timed_out; [by destruct Htime|].
    assert (ended child = Exited status) by (destruct Hended as [?|[[? ->]|[? ->]]]; done).
    case_match eqn:Hd; cbn; [|by eauto 6].
    unfold is_likely_sandbox_denied in Hd. case_match eqn:Hq; [done|]. cbn in Hq.
    apply orb_false_iff in Hq as [Hn Hz]. rewrite bool_decide_eq_false in Hn. rewrite Z.eqb_neq in Hz. eauto 6.
Qed.

Lemma child_network program args arg0 cwd policy env :
  has_full_network_access policy = false →
  envs (child_process program args arg0 cwd policy env) !! SAVFOX_SANDBOX_NETWORK_DISABLED_ENV_VAR = Some §"1".
Proof. intros H. cbn. rewrite H. apply lookup_insert_eq. Qed.

Lemma selected_sandbox policy :
  select_initial Linux policy Auto false = if has_full_disk_write_access policy then SandboxNone else LinuxSeccomp.
Proof. by destruct policy. Qed.

End Outcome.

(** ** Examples *)
Definition demo_pipe (l : list (list byte)) (e : ReadEnd) : Pipe := {| chunks := l; read_end := e |}.
Definition demo_child (ended : Ended) (out : list (list byte)) (e : ReadEnd) : Child :=
  {| ended := ended; kill_ok := true; stdout_pipe := demo_pipe out e; stderr_pipe := demo_pipe [] ReadEof |}.
Definition demo_bytes (s : string) : list byte := list_byte_of_string s.
Definition demo_text (l : list byte) : str := map Byte.to_N l.
Definition demo_run (policy : SandboxPolicy) (child : Child) : result ExecError ExecToolCallOutput :=
  process_exec_tool_call to_ascii_lowercase demo_text (λ _, §"{}") (λ _, Some child) [§"ls"] §"/w" DefaultTimeout ∅
    policy §"/w" (Some §"/bin/savfox") false.

(** A word in the output of a failing command is taken for a denial by the sandbox; a
    command that ends with the signal numbered 64 is reported as timed out; what was read
    of a pipe that a grandchild keeps open is lost. *)
Example demo_results :
  demo_run ReadOnly (demo_child (Exited 256) [demo_bytes "test sandbox failed"] ReadEof) =
    Err (SandboxDeniedErr 1 §"test sandbox failed" [] §"test sandbox failed") ∧
  demo_run DangerFullAccess (demo_child (Exited 64) [] ReadEof) = Err (SandboxTimeout 124 [] [] []) ∧
  demo_run DangerFullAccess (demo_child (Exited 0) [demo_bytes "read"] ReadPending) =
    Ok {| exit_code := 0; out_stdout := []; out_stderr := []; out_aggregated := []; out_timed_out := false |}.
Proof. vm_compute. done. Qed.

(** The pager of a [git] command is made safe when [git] is the process that is started,
    but not when the sandbox helper is: there the variables are missing. *)
Definition demo_git (policy : SandboxPolicy) (sandbox : SandboxType) : option (option str) :=
  match transform (λ _, §"{}")
          {| program := §"git"; spec_args := [§"log"]; spec_cwd := §"/w"; spec_env := ∅;
             spec_expiration := DefaultTimeout |} policy sandbox §"/w" (Some §"/bin/savfox") with
  | Ok e => match process_of e policy with Ok p => Some (envs p !! §"GIT_PAGER") | Err _ => None end
  | Err _ => None
  end.
Example git_safety_lost_in_sandbox :
  demo_git DangerFullAccess SandboxNone = Some (Some §"cat") ∧ demo_git ReadOnly LinuxSeccomp = Some None.
Proof. vm_compute. done. Qed.

Lemma collected_output_witness :
  ∃ raw, consume_truncated_output true (demo_child (Exited 0) [demo_bytes "ab"; demo_bytes "c"] ReadEof) = Ok raw ∧
    raw_stdout raw = demo_bytes "abc" ∧ collected (demo_pipe [demo_bytes "ab"; demo_bytes "c"] ReadEof) (raw_stdout raw).
Proof.
  eexists. split; [vm_compute; reflexivity|]. split; [done|].
  refine (proj1 (collected_output true (demo_child (Exited 0) [demo_bytes "ab"; demo_bytes "c"] ReadEof) _ _)).
  vm_compute. reflexivity.
Defined.
