(* ===== verification/LinuxSandbox.v ===== *)
(** * The sandbox helper on Linux
    ([linux-sandbox/src/linux_run_main.rs], [landlock.rs], [mounts.rs]; the dispatch on
    the name of the program in [arg0/src/lib.rs])

    A command under the Linux sandbox is started as the program itself under another name;
    it takes the policy from its arguments, restricts its own process and becomes the
    command.  The kernel, the [landlock], [seccompiler] and [clap] crates and the JSON
    parser are parameters with the laws that are relied on ([KernelLaws], [HelperLaws]).
    Target: x86-64. *)
From S2P Require Import Prelude RustStr Paths.
From S2P Require Import Approval Orchestrator PatchSafety CommandExec.

(** ** Which program is run ([arg0_dispatch]) *)
Definition APPLY_PATCH_ARG0 : str := §"apply_patch".
Definition MISSPELLED_APPLY_PATCH_ARG0 : str := §"applypatch".
Definition SAVFOX_APPLY_PATCH_ARG1 : str := §"--savfox-run-as-apply-patch".

Inductive Dispatch :=
| RunLinuxSandbox
| RunApplyPatchMain
| RunApplyPatch (patch : option str)
| RunMain.
Definition arg0_dispatch (argv0 : str) (args : list str) : Dispatch :=
  let exe_name := default [] (file_name argv0) in
  if bool_decide (exe_name = LINUX_SANDBOX_ARG0) then RunLinuxSandbox
  else if bool_decide (exe_name = APPLY_PATCH_ARG0) || bool_decide (exe_name = MISSPELLED_APPLY_PATCH_ARG0)
  then RunApplyPatchMain
  else match args with
       | argv1 :: rest => if bool_decide (argv1 = SAVFOX_APPLY_PATCH_ARG1) then RunApplyPatch (head rest) else RunMain
       | [] => RunMain
       end.

(** ** The filter of system calls *)
Definition SYS_socket : Z := 41.
Definition SYS_connect : Z := 42.
Definition SYS_accept : Z := 43.
Definition SYS_sendto : Z := 44.
Definition SYS_shutdown : Z := 48.
Definition SYS_bind : Z := 49.
Definition SYS_listen : Z := 50.
Definition SYS_getsockname : Z := 51.
Definition SYS_getpeername : Z := 52.
Definition SYS_socketpair : Z := 53.
Definition SYS_setsockopt : Z := 54.
Definition SYS_getsockopt : Z := 55.
Definition SYS_ptrace : Z := 101.
Definition SYS_accept4 : Z := 288.
Definition SYS_recvmmsg : Z := 299.
Definition SYS_sendmmsg : Z := 307.
Definition AF_UNIX : Z := 1.

(** A condition on the low half of an argument: that it differs from a value. *)
Record SeccompCondition := { arg_number : nat; ne_value : Z }.
Definition SeccompRule : Type := list SeccompCondition.
Definition SeccompRules : Type := gmap Z (list SeccompRule).

(** A rule matches when all its conditions do; a system call with rules is refused when one
    of them matches or when the list of its rules is empty. *)
Definition condition_holds (args : nat → Z) (c : SeccompCondition) : bool :=
  negb (args (arg_number c) mod 2 ^ 32 =? ne_value c)%Z.
Definition refused (fs : list SeccompRule) (args : nat → Z) : bool :=
  bool_decide (fs = []) || existsb (λ rule, forallb (condition_holds args) rule) fs.

Definition DENIED_SYSCALLS : list Z :=
  [SYS_connect; SYS_accept; SYS_accept4; SYS_bind; SYS_listen; SYS_getpeername; SYS_getsockname; SYS_shutdown;
   SYS_sendto; SYS_sendmmsg; SYS_recvmmsg; SYS_getsockopt; SYS_setsockopt; SYS_ptrace].
Definition unix_only_rule : SeccompRule := [{| arg_number := 0; ne_value := AF_UNIX |}].
Definition network_rules : SeccompRules :=
  <[SYS_socketpair := [unix_only_rule]]> (<[SYS_socket := [unix_only_rule]]>
    (foldl (λ m nr, <[nr := []]> m) ∅ DENIED_SYSCALLS)).

(** ** Read-only mounts ([mounts.rs]) *)
Inductive MountError :=
| MountTargetMissing | GitPointerUnreadable | GitPointerMalformed | GitPointerEmpty | NoParentDirectory | GitdirMissing.

Section Mounts.
Context (host : Host).

Definition gitdir_of_pointer (dot_git : str) : result MountError str :=
  match read_to_string host dot_git with
  | None => Err GitPointerUnreadable
  | Some contents =>
      match split_once COLON (trim contents) with
      | None => Err GitPointerMalformed
      | Some (_, gitdir_raw) =>
          let gitdir_raw := trim gitdir_raw in
          if bool_decide (gitdir_raw = []) then Err GitPointerEmpty
          else match path_parent dot_git with
               | None => Err NoParentDirectory
               | Some base =>
                   let gitdir_path := resolve_path_against_base host gitdir_raw base in
                   if path_exists host gitdir_path then Ok gitdir_path else Err GitdirMissing
               end
      end
  end.

Definition mount_targets_of (ro_subpath : str) (targets : list str) : result MountError (list str) :=
  if negb (path_exists host ro_subpath) then Err MountTargetMissing
  else
    let targets := targets ++ [ro_subpath] in
    if is_git_pointer_file host ro_subpath then
      gitdir ← gitdir_of_pointer ro_subpath;
      Ok (if existsb (λ target, path_eq target gitdir) targets then targets else targets ++ [gitdir])
    else Ok targets.

Fixpoint collect_targets (ro_subpaths : list str) (targets : list str) : result MountError (list str) :=
  match ro_subpaths with
  | [] => Ok targets
  | ro_subpath :: rest => targets ← mount_targets_of ro_subpath targets; collect_targets rest targets
  end.
Definition collect_read_only_mount_targets (writable_roots : list WritableRoot) : result MountError (list str) :=
  collect_targets (writable_roots ≫= read_only_subpaths) [].

(** Every protected path is among the targets, and so is the directory a [.git] file
    points to. *)
Definition covered (targets : list str) (ro : str) : Prop :=
  ro ∈ targets ∧
  (is_git_pointer_file host ro = true →
   ∃ gitdir target, gitdir_of_pointer ro = Ok gitdir ∧ target ∈ targets ∧ path_eq target gitdir = true).

Lemma covered_mono targets targets' ro : targets ⊆ targets' → covered targets ro → covered targets' ro.
Proof. intros Hs [Hin Hp]. split; [by apply Hs|]. intros (g & x & ? & Hx & ?)%Hp. exists g, x. split_and!; [done|by apply Hs|done]. Qed.

Lemma mount_targets_of_Ok ro targets targets' :
  mount_targets_of ro targets = Ok targets' → targets ⊆ targets' ∧ covered targets' ro.
Proof.
  unfold mount_targets_of, covered. destruct (path_exists host ro); [|done]. cbn.
  destruct (is_git_pointer_file host ro) eqn:Hp.
  - destruct (gitdir_of_pointer ro) as [g|]; [|done]. cbn. intros [= <-]. case_match eqn:Hx.
    + split; [set_solver|]. split; [set_solver|]. intros _.
      apply existsb_exists in Hx as (x & Hin & Heq). apply list_elem_of_In in Hin. eauto.
    + split; [set_solver|]. split; [set_solver|]. intros _. exists g, g.
      split_and!; [done|set_solver|]. unfold path_eq. by apply bool_decide_eq_true.
  - intros [= <-]. split; [set_solver|]. split; [set_solver|done].
Qed.

Lemma collect_targets_Ok ros targets targets' :
  collect_targets ros targets = Ok targets' → targets ⊆ targets' ∧ ∀ ro, ro ∈ ros → covered targets' ro.
Proof.
  revert targets. induction ros as [|ro ros IH]; intros targets H; cbn in H.
  - injection H as <-. set_solver.
  - apply bind_Ok in H as (mid & Hmid & [Hsub Hcov]%IH). apply mount_targets_of_Ok in Hmid as [Hs Hc].
    split; [set_solver|]. intros ro'. rewrite elem_of_cons. intros [->|?]; [by eapply covered_mono|auto].
Qed.

Lemma mount_targets_cover roots targets :
  collect_read_only_mount_targets roots = Ok targets →
  ∀ wr ro, wr ∈ roots → ro ∈ read_only_subpaths wr → covered targets ro.
Proof.
  intros [_ H]%collect_targets_Ok wr ro Hwr Hro. apply H. apply list_elem_of_bind. eauto.
Qed.
End Mounts.

(** ** Restricting the process *)
Section Helper.
(** The rights of Landlock, all those of its fifth version and those to read. *)
Context {AccessFs : Type} (from_all from_read : AccessFs → bool).

(** The rights a ruleset takes away, and those it gives back beneath a path. *)
Record Ruleset := { handled : AccessFs → bool; beneath_rules : list (str * (AccessFs → bool)) }.

(** What the process has installed. *)
Record Session := { no_new_privs : bool; seccomp : option SeccompRules; landlock : option Ruleset }.
Definition unrestricted : Session := {| no_new_privs := false; seccomp := None; landlock := None |}.
Definition set_privs (s : Session) : Session :=
  {| no_new_privs := true; seccomp := seccomp s; landlock := landlock s |}.

Inductive KernelCall :=
| SetNoNewPrivs | ApplyFilter | HandleAccess | CreateRuleset | AddRules (paths : list str) | RestrictSelf.
Inductive RulesetStatus := FullyEnforced | PartiallyEnforced | NotEnforced.
#[export] Instance RulesetStatus_eq : EqDecision RulesetStatus.
Proof. solve_decision. Defined.
Inductive SandboxError := SystemError | LandlockRestrict.

(** Whether a call succeeds, and how much of a ruleset the kernel enforces. *)
Context (kernel_ok : KernelCall → bool) (ruleset_status : Ruleset → RulesetStatus).

Definition kernel_call (c : KernelCall) : result SandboxError () := if kernel_ok c then Ok tt else Err SystemError.

Definition install_filesystem_landlock_rules_on_current_session (writable_roots : list str) (s : Session)
    : result SandboxError Session :=
  _ ← kernel_call HandleAccess;
  _ ← kernel_call CreateRuleset;
  _ ← kernel_call (AddRules [§"/"]);
  _ ← kernel_call (AddRules [§"/dev/null"]);
  _ ← (if negb (bool_decide (writable_roots = [])) then kernel_call (AddRules writable_roots) else Ok tt);
  let ruleset := {| handled := from_all;
                    beneath_rules := [(§"/", from_read); (§"/dev/null", from_all)]
                                     ++ ((λ path, (path, from_all)) <$> writable_roots) |} in
  _ ← kernel_call RestrictSelf;
  if bool_decide (ruleset_status ruleset = NotEnforced) then Err LandlockRestrict
  else Ok {| no_new_privs := true; seccomp := seccomp s; landlock := Some ruleset |}.

Definition install_network_seccomp_filter_on_current_session (s : Session) : result SandboxError Session :=
  _ ← kernel_call ApplyFilter;
  Ok {| no_new_privs := no_new_privs s; seccomp := Some network_rules; landlock := landlock s |}.

Definition set_no_new_privs (s : Session) : result SandboxError Session :=
  _ ← kernel_call SetNoNewPrivs; Ok (set_privs s).

Definition apply_sandbox_policy_to_current_session (host : Host) (sandbox_policy : SandboxPolicy) (cwd : str)
    (s : Session) : result SandboxError Session :=
  s ← (if negb (has_full_disk_write_access sandbox_policy) || negb (has_full_network_access sandbox_policy)
       then set_no_new_privs s else Ok s);
  s ← (if negb (has_full_network_access sandbox_policy)
       then install_network_seccomp_filter_on_current_session s else Ok s);
  if negb (has_full_disk_write_access sandbox_policy) then
    install_filesystem_landlock_rules_on_current_session
      (root <$> get_writable_roots_with_cwd host sandbox_policy cwd) s
  else Ok s.

(** ** The helper *)
(** [LandlockCommand::parse]: the directory, the policy and the command; and the JSON form of
    a policy. *)
Context (clap_parse : list str → option (str * str * list str)).
Context (policy_from_json : str → option SandboxPolicy) (policy_to_json : SandboxPolicy → str).
(** The system, as a process with these variables sees it. *)
Context (host_of : gmap str str → Host).

(** [Panicked]: also the end of a process whose arguments are refused. *)
Inductive HelperEnd := Panicked | Execvp (command : list str) (s : Session).

Definition has_nul (arg : str) : bool := bool_decide (0%N ∈ arg).
Definition run_main (host : Host) (args : list str) : HelperEnd :=
  match clap_parse args with
  | None => Panicked
  | Some (sandbox_policy_cwd, json, command) =>
      match policy_from_json json with
      | None => Panicked
      | Some sandbox_policy =>
          match apply_sandbox_policy_to_current_session host sandbox_policy sandbox_policy_cwd unrestricted with
          | Err _ => Panicked
          | Ok s => if bool_decide (command = []) then Panicked
                    else if existsb has_nul command then Panicked else Execvp command s
          end
      end
  end.

(** The process that [CommandExec] starts, up to the command; [None]: it is not the helper. *)
Definition helper_end (p : Process) : option HelperEnd :=
  match arg0_dispatch (argv0 p) (argv p) with
  | RunLinuxSandbox => Some (run_main (host_of (envs p)) (argv p))
  | _ => None
  end.

(** ** What is relied on *)
Inductive Attempt {File : Type} := Access (right : AccessFs) (file : File) | Call (nr : Z) (args : nat → Z).
Arguments Attempt : clear implicits.

(** [known]: the rights of the running kernel; [modifies]: those that change something. *)
Class KernelLaws {File : Type} (beneath : str → File → Prop) (known modifies : AccessFs → bool)
    (permits : Session → Attempt File → Prop) := {
  reading_does_not_modify r : from_read r = true → modifies r = false;
  all_rights_that_modify r : modifies r = true → from_all r = true;
  landlock_enforced s ruleset r f :
    landlock s = Some ruleset → handled ruleset r = true → known r = true → permits s (Access r f) →
    ∃ path rights, (path, rights) ∈ beneath_rules ruleset ∧ rights r = true ∧ beneath path f;
  seccomp_enforced s filter nr args rs :
    seccomp s = Some filter → filter !! nr = Some rs → permits s (Call nr args) → refused rs args = false;
}.

(** The options come before the command, and a value that looks like an option is refused. *)
Class HelperLaws := {
  clap_parses cwd json command :
    starts_with cwd §"-" = false → starts_with json §"-" = false →
    clap_parse ([§"--sandbox-policy-cwd"; cwd; §"--sandbox-policy"; json; §"--"] ++ command) = Some (cwd, json, command);
  policy_json policy : policy_from_json (policy_to_json policy) = Some policy;
  json_is_no_option policy : starts_with (policy_to_json policy) §"-" = false;
}.

(** * Correctness *)
Lemma kernel_call_Ok c u : kernel_call c = Ok u → kernel_ok c = true.
Proof. unfold kernel_call. by case_match. Qed.

Lemma denied_rules nr : nr ∈ DENIED_SYSCALLS → network_rules !! nr = Some [].
Proof. unfold DENIED_SYSCALLS. rewrite !elem_of_cons, elem_of_nil. intros H. by repeat destruct H as [->|H]. Qed.

Lemma socket_rules nr : nr ∈ [SYS_socket; SYS_socketpair] → network_rules !! nr = Some [unix_only_rule].
Proof. rewrite !elem_of_cons, elem_of_nil. naive_solver. Qed.

Lemma unix_only args : refused [unix_only_rule] args = false → (args 0%nat mod 2 ^ 32 = AF_UNIX)%Z.
Proof.
  unfold refused, unix_only_rule. cbn. unfold condition_holds. cbn.
  rewrite andb_true_r, orb_false_r, negb_false_iff. apply Z.eqb_eq.
Qed.

(** The session that a policy asks for. *)
Definition restricted_session (host : Host) (policy : SandboxPolicy) (cwd : str) (s : Session) : Prop :=
  (has_full_disk_write_access policy = false →
   no_new_privs s = true ∧ ∃ ruleset, landlock s = Some ruleset ∧ handled ruleset = from_all ∧
     beneath_rules ruleset = [(§"/", from_read); (§"/dev/null", from_all)] ++
       ((λ path, (path, from_all)) <$> (root <$> get_writable_roots_with_cwd host policy cwd))) ∧
  (has_full_network_access policy = false → no_new_privs s = true ∧ seccomp s = Some network_rules).

Lemma install_landlock_Ok roots s s' :
  install_filesystem_landlock_rules_on_current_session roots s = Ok s' →
  no_new_privs s' = true ∧ seccomp s' = seccomp s ∧ ∃ ruleset, landlock s' = Some ruleset ∧ handled ruleset = from_all ∧
    beneath_rules ruleset = [(§"/", from_read); (§"/dev/null", from_all)] ++ ((λ path, (path, from_all)) <$> roots).
Proof.
  unfold install_filesystem_landlock_rules_on_current_session. intros H.
  repeat (apply bind_Ok in H as (? & _ & H)). case_bool_decide; [done|]. injection H as <-. cbn. eauto 6.
Qed.

Lemma apply_policy_Ok host policy cwd s :
  apply_sandbox_policy_to_current_session host policy cwd unrestricted = Ok s → restricted_session host policy cwd s.
Proof.
  unfold apply_sandbox_policy_to_current_session, restricted_session. intros H.
  apply bind_Ok in H as (s1 & H1 & H). apply bind_Ok in H as (s2 & H2 & H).
  assert (has_full_disk_write_access policy = false ∨ has_full_network_access policy = false → no_new_privs s1 = true)
    as Hprivs.
  { intros Hf. destruct (_ || _) eqn:Hor in H1.
    - unfold set_no_new_privs in H1. by apply bind_Ok in H1 as (? & _ & [= <-]).
    - apply orb_false_iff in Hor as [Ha%negb_false_iff Hb%negb_false_iff]. destruct Hf; congruence. }
  assert (no_new_privs s2 = no_new_privs s1 ∧
          (has_full_network_access policy = false → seccomp s2 = Some network_rules)) as [Hp2 Hnet].
  { destruct (has_full_network_access policy); cbn in H2; [by injection H2 as <-|].
    unfold install_network_seccomp_filter_on_current_session in H2. by apply bind_Ok in H2 as (? & _ & [= <-]). }
  destruct (has_full_disk_write_access policy) eqn:Hd; cbn in H.
  - injection H as <-. split; [done|]. intros Hn. split; [rewrite Hp2; auto|auto].
  - apply install_landlock_Ok in H as (Hp & Hsec & Hrules). split; [done|].
    intros Hn. split; [done|]. rewrite Hsec. auto.
Qed.

Lemma install_landlock_runs roots s :
  (∀ c, kernel_ok c = true) → (∀ rs, ruleset_status rs ≠ NotEnforced) →
  ∃ s', install_filesystem_landlock_rules_on_current_session roots s = Ok s'.
Proof.
  intros Hk Hst. unfold install_filesystem_landlock_rules_on_current_session, kernel_call. rewrite !Hk.
  unfold mbind, result_bind. destruct (negb _); rewrite bool_decide_eq_false_2 by apply Hst; eauto.
Qed.

Lemma apply_policy_runs host policy cwd s :
  (∀ c, kernel_ok c = true) → (∀ rs, ruleset_status rs ≠ NotEnforced) →
  ∃ s', apply_sandbox_policy_to_current_session host policy cwd s = Ok s'.
Proof.
  intros Hk Hst. unfold apply_sandbox_policy_to_current_session, set_no_new_privs,
    install_network_seccomp_filter_on_current_session, kernel_call. rewrite !Hk. unfold mbind, result_bind.
  destruct (_ || _), (negb (has_full_network_access policy)), (negb (has_full_disk_write_access policy));
    eauto using install_landlock_runs.
Qed.

Lemma run_main_Execvp host args command s :
  run_main host args = Execvp command s →
  ∃ cwd json policy, clap_parse args = Some (cwd, json, command) ∧ policy_from_json json = Some policy ∧
    restricted_session host policy cwd s ∧ command ≠ [].
Proof.
  unfold run_main. destruct (clap_parse args) as [[[cwd json] cmd]|] eqn:Hc; [|done].
  destruct (policy_from_json json) as [policy|] eqn:Hj; [|done].
  destruct (apply_sandbox_policy_to_current_session _ _ _ _) as [s'|] eqn:Ha; [|done].
  case_bool_decide; [done|]. case_match; [done|]. intros [= <- <-].
  exists cwd, json, policy. split_and!; [done..|by apply apply_policy_Ok|done].
Qed.

Section Confined.
Context {File : Type} (beneath : str → File → Prop) (known modifies : AccessFs → bool)
        (permits : Session → Attempt File → Prop).
Context `{!KernelLaws beneath known modifies permits, !HelperLaws}.

Lemma process_is_helper spec policy cwd exe e p :
  transform policy_to_json spec policy LinuxSeccomp cwd (Some exe) = Ok e → process_of e policy = Ok p →
  argv0 p = LINUX_SANDBOX_ARG0 ∧
  argv p = create_linux_sandbox_command_args policy_to_json (program spec :: spec_args spec) policy cwd.
Proof. intros [= <-] [= <-]. done. Qed.

(** Any process that is started as the helper. *)
Lemma helper_process_spec command policy cwd p :
  starts_with cwd §"-" = false →
  argv0 p = LINUX_SANDBOX_ARG0 → argv p = create_linux_sandbox_command_args policy_to_json command policy cwd →
  ∃ r, helper_end p = Some r ∧
    (∀ command' s, r = Execvp command' s → command' = command ∧ restricted_session (host_of (envs p)) policy cwd s).
Proof.
  intros Hcwd H0 Hargs. unfold helper_end. rewrite H0. cbn. rewrite Hargs. eexists. split; [done|].
  intros command' s (c & j & p' & Hclap & Hj & Hs & _)%run_main_Execvp.
  unfold create_linux_sandbox_command_args in Hclap. rewrite clap_parses in Hclap by (done || apply json_is_no_option).
  injection Hclap as <- <- <-. rewrite policy_json in Hj. by injection Hj as <-.
Qed.

(** What a restricted process can do. *)
Definition confined (host : Host) (policy : SandboxPolicy) (cwd : str) (s : Session) : Prop :=
  (has_full_disk_write_access policy = false →
   no_new_privs s = true ∧
   ∀ r f, modifies r = true → known r = true → permits s (Access r f) →
     beneath §"/dev/null" f ∨ ∃ wr, wr ∈ get_writable_roots_with_cwd host policy cwd ∧ beneath (root wr) f) ∧
  (has_full_network_access policy = false →
   no_new_privs s = true ∧
   ∀ nr args, permits s (Call nr args) →
     nr ∉ DENIED_SYSCALLS ∧ (nr ∈ [SYS_socket; SYS_socketpair] → (args 0%nat mod 2 ^ 32 = AF_UNIX)%Z)).

Lemma restricted_confined host policy cwd s : restricted_session host policy cwd s → confined host policy cwd s.
Proof.
  intros [Hdisk Hnet]. split.
  - intros Hd. destruct (Hdisk Hd) as (Hprivs & rs & Hl & Hh & Hrules). split; [done|]. intros r f Hm Hk Hper.
    destruct (landlock_enforced s rs r f Hl) as (path & rights & Hin & Hr & Hb); [|done..|].
    { rewrite Hh. by apply all_rights_that_modify. }
    rewrite Hrules in Hin. apply elem_of_app in Hin as [Hin|Hin].
    + apply elem_of_cons in Hin as [[= -> ->]|Hin]; [by apply reading_does_not_modify in Hr; congruence|].
      apply list_elem_of_singleton in Hin as [= -> ->]. by left.
    + apply list_elem_of_fmap in Hin as (root' & [= -> ->] & Hin).
      apply list_elem_of_fmap in Hin as (wr & -> & Hin). eauto.
  - intros Hn. destruct (Hnet Hn) as [Hprivs Hsec]. split; [done|]. intros nr args Hper. split.
    + intros Hin. pose proof (seccomp_enforced s _ nr args _ Hsec (denied_rules nr Hin) Hper) as Href. done.
    + intros Hin. by apply unix_only, (seccomp_enforced s _ nr args _ Hsec (socket_rules nr Hin)).
Qed.


(** The command does run when the kernel can restrict the process. *)
Lemma helper_runs spec policy cwd exe e p :
  starts_with cwd §"-" = false →
  transform policy_to_json spec policy LinuxSeccomp cwd (Some exe) = Ok e → process_of e policy = Ok p →
  (∀ c, kernel_ok c = true) → (∀ rs, ruleset_status rs ≠ NotEnforced) →
  existsb has_nul (program spec :: spec_args spec) = false →
  ∃ s, helper_end p = Some (Execvp (program spec :: spec_args spec) s).
Proof.
  intros Hcwd He Hp Hk Hst Hnul. destruct (process_is_helper _ _ _ _ _ _ He Hp) as [H0 Hargs].
  unfold helper_end. rewrite H0, Hargs. change (arg0_dispatch _ _) with RunLinuxSandbox. cbv iota beta.
  unfold run_main, create_linux_sandbox_command_args. rewrite clap_parses, policy_json by (done || apply json_is_no_option).
  destruct (apply_policy_runs (host_of (envs p)) policy cwd unrestricted Hk Hst) as [s ->].
  rewrite bool_decide_eq_false_2, Hnul by done. eauto.
Qed.
End Confined.
End Helper.
Arguments Attempt : clear implicits.

(** ** Examples *)
Inductive demo_right := DRead | DWrite | DTruncate.
#[export] Instance demo_right_eq : EqDecision demo_right.
Proof. solve_decision. Defined.
Definition demo_from_all (_ : demo_right) : bool := true.
Definition demo_from_read (r : demo_right) : bool := bool_decide (r = DRead).
Definition demo_modifies (r : demo_right) : bool := negb (demo_from_read r).
Definition demo_below (path f : str) : bool := comps_start_with (component_list f) (component_list path).
Definition demo_permits (known : demo_right → bool) (s : Session) (a : Attempt demo_right str) : bool :=
  match a with
  | Access r f =>
      match landlock s with
      | None => true
      | Some rs => negb (handled rs r) || negb (known r)
                   || existsb (λ rule, rule.2 r && demo_below rule.1 f) (beneath_rules rs)
      end
  | Call nr args =>
      match seccomp s ≫= λ rules, rules !! nr with Some rs => negb (refused rs args) | None => true end
  end.

#[export] Instance demo_kernel_laws known :
  KernelLaws demo_from_all demo_from_read (λ path f, demo_below path f = true) known demo_modifies
    (λ s a, demo_permits known s a = true).
Proof.
  split.
  - intros r. unfold demo_modifies. by intros ->.
  - done.
  - intros s rs r f Hl Hh Hk Hp. cbn in Hp. rewrite Hl, Hh, Hk in Hp. cbn in Hp.
    apply existsb_exists in Hp as ([path rights] & Hin & [Hr Hb]%andb_true_iff).
    apply list_elem_of_In in Hin. eauto.
  - intros s filter nr args rs Hs Hf Hp. cbn in Hp. rewrite Hs in Hp. cbn in Hp. rewrite Hf in Hp.
    by apply negb_true_iff in Hp.
Defined.

(** Some code for policies in place of JSON. *)
Definition policy_sum : Type := (unit + unit) + (bool + list str * (bool * bool * bool)).
Definition policy_to_sum (p : SandboxPolicy) : policy_sum :=
  match p with
  | DangerFullAccess => inl (inl ())
  | ReadOnly => inl (inr ())
  | ExternalSandbox n => inr (inl (match n with Enabled => true | Restricted => false end))
  | WorkspaceWrite l a b c => inr (inr (l, (a, b, c)))
  end.
Definition policy_of_sum (s : policy_sum) : SandboxPolicy :=
  match s with
  | inl (inl ()) => DangerFullAccess
  | inl (inr ()) => ReadOnly
  | inr (inl n) => ExternalSandbox (if n then Enabled else Restricted)
  | inr (inr (l, (a, b, c))) => WorkspaceWrite l a b c
  end.
Definition demo_to_json (p : SandboxPolicy) : str := [123%N; Npos (encode (policy_to_sum p))].
Definition demo_from_json (json : str) : option SandboxPolicy :=
  match json with [_; Npos x] => policy_of_sum <$> decode x | _ => None end.
Definition demo_clap (args : list str) : option (str * str * list str) :=
  match args with _ :: cwd :: _ :: json :: _ :: command => Some (cwd, json, command) | _ => None end.

#[export] Instance demo_helper_laws : HelperLaws demo_clap demo_from_json demo_to_json.
Proof.
  split; [done| |done]. intros p. unfold demo_from_json, demo_to_json. rewrite decode_encode. cbn.
  by destruct p as [| |[]|].
Defined.

Definition demo_host (_ : gmap str str) : Host :=
  {| home_dir := None; env_TMPDIR := None; is_dir := λ p, bool_decide (p = §"/w/.git"); is_file := λ _, false;
     path_exists := λ _, true; read_to_string := λ _, None; absolutize := Some;
     absolutize_from := λ path base, path_join base path |}.
Definition demo_policy : SandboxPolicy := WorkspaceWrite [] false true true.
Definition demo_spec : CommandSpec :=
  {| program := §"git"; spec_args := [§"status"]; spec_cwd := §"/w"; spec_env := ∅; spec_expiration := DefaultTimeout |}.
Definition demo_process : option Process :=
  match transform demo_to_json demo_spec demo_policy LinuxSeccomp §"/w" (Some §"/bin/savfox") with
  | Ok e => match process_of e demo_policy with Ok p => Some p | Err _ => None end
  | Err _ => None
  end.
Definition demo_end (status : RulesetStatus) : option (HelperEnd (AccessFs := demo_right)) :=
  p ← demo_process;
  helper_end demo_from_all demo_from_read (λ _, true) (λ _, status) demo_clap demo_from_json demo_host p.
Definition demo_session : Session :=
  {| no_new_privs := true; seccomp := Some network_rules;
     landlock := Some {| handled := demo_from_all;
                         beneath_rules := [(§"/", demo_from_read); (§"/dev/null", demo_from_all); (§"/w", demo_from_all)] |} |}.
Definition demo_allows (known : demo_right → bool) (r : demo_right) (f : str) : bool :=
  demo_permits known demo_session (Access r f).

(** The paths that the policy protects inside a writable root can be written by a command
    in the sandbox. *)
Example protected_paths_writable :
  demo_end FullyEnforced = Some (Execvp [§"git"; §"status"] demo_session) ∧
  get_writable_roots_with_cwd (demo_host ∅) demo_policy §"/w" =
    [{| root := §"/w"; read_only_subpaths := [§"/w/.git"] |}] ∧
  existsb (λ wr, is_path_writable wr (component_list §"/w/.git/hooks/pre-commit"))
    (get_writable_roots_with_cwd (demo_host ∅) demo_policy §"/w") = false ∧
  demo_allows (λ _, true) DWrite §"/w/.git/hooks/pre-commit" = true ∧
  demo_allows (λ _, true) DWrite §"/etc/passwd" = false.
Proof. split_and!; vm_compute; reflexivity. Qed.

(** On a kernel that does not know a right, the command runs all the same and has it
    everywhere. *)
Example partial_enforcement :
  demo_end PartiallyEnforced = Some (Execvp [§"git"; §"status"] demo_session) ∧
  demo_allows (λ r, bool_decide (r ≠ DTruncate)) DTruncate §"/etc/passwd" = true ∧
  demo_end NotEnforced = Some Panicked.
Proof. split_and!; vm_compute; reflexivity. Qed.

(** A local socket can be made but not connected. *)
Example local_sockets :
  demo_permits (λ _, true) demo_session (Call SYS_socket (λ _, AF_UNIX)) = true ∧
  demo_permits (λ _, true) demo_session (Call SYS_connect (λ _, AF_UNIX)) = false.
Proof. split; vm_compute; reflexivity. Qed.

