(* ===== verification/UnifiedOutput.v ===== *)
(** * The output of an interactive command
    ([core/src/unified_exec/async_watcher.rs]; [collect_output_until_deadline] of
    [process_manager.rs])

    A command that stays open writes in chunks.  One reader cuts them into pieces for the
    transcript and the events of the client; each poll of the model takes what has come
    since the last one.  Both go through the head/tail buffer of [HeadTail]. *)
From Stdlib Require Import Strings.Byte.
From S2P Require Import Prelude MachInt HeadTail.
Local Open Scope Z_scope.

(** ** UTF-8 ([str::from_utf8] of the standard library) *)
Definition byte_in (lo hi : N) (b : byte) : bool := ((lo <=? Byte.to_N b) && (Byte.to_N b <=? hi))%N.
Definition continuation (b : byte) : bool := byte_in 0x80 0xBF b.
(** The second byte of a sequence of three and of four, after its first. *)
Definition second_of_3 (b0 b1 : byte) : bool :=
  (byte_in 0xE0 0xE0 b0 && byte_in 0xA0 0xBF b1) || (byte_in 0xE1 0xEC b0 && continuation b1)
  || (byte_in 0xED 0xED b0 && byte_in 0x80 0x9F b1) || (byte_in 0xEE 0xEF b0 && continuation b1).
Definition second_of_4 (b0 b1 : byte) : bool :=
  (byte_in 0xF0 0xF0 b0 && byte_in 0x90 0xBF b1) || (byte_in 0xF1 0xF3 b0 && continuation b1)
  || (byte_in 0xF4 0xF4 b0 && byte_in 0x80 0x8F b1).
Fixpoint utf8_valid (l : list byte) : bool :=
  match l with
  | [] => true
  | b0 :: t0 =>
      if byte_in 0 0x7F b0 then utf8_valid t0
      else match t0 with
           | [] => false
           | b1 :: t1 =>
               if byte_in 0xC2 0xDF b0 && continuation b1 then utf8_valid t1
               else match t1 with
                    | [] => false
                    | b2 :: t2 =>
                        if second_of_3 b0 b1 && continuation b2 then utf8_valid t2
                        else match t2 with
                             | [] => false
                             | b3 :: t3 =>
                                 if second_of_4 b0 b1 && continuation b2 && continuation b3 then utf8_valid t3
                                 else false
                             end
                    end
           end
  end.

(** ** Pieces for the transcript and the events *)
Definition UNIFIED_EXEC_OUTPUT_DELTA_MAX_BYTES : nat := 8192.
Definition MAX_EXEC_OUTPUT_DELTAS_PER_CALL : nat := 10000.

(** The loop over the split positions, downwards from [split]. *)
Fixpoint find_split (buffer : list byte) (max_len split : nat) : option nat :=
  match split with
  | O => None
  | S split' =>
      if utf8_valid (take split buffer) then Some split
      else if (4 <? max_len - split)%nat then None
      else find_split buffer max_len split'
  end.

Definition split_valid_utf8_prefix_with_max (buffer : list byte) (max_bytes : nat)
    : option (list byte * list byte) :=
  match buffer with
  | [] => None
  | _ =>
      let max_len := Nat.min (length buffer) max_bytes in
      match find_split buffer max_len max_len with
      | Some split => Some (take split buffer, drop split buffer)
      | None => Some (take 1 buffer, drop 1 buffer)
      end
  end.
Definition split_valid_utf8_prefix (buffer : list byte) : option (list byte * list byte) :=
  split_valid_utf8_prefix_with_max buffer UNIFIED_EXEC_OUTPUT_DELTA_MAX_BYTES.

(** What the reader keeps: bytes that wait, the transcript, the pieces sent as events. *)
Record Stream := { pending : list byte; transcript : HeadTailBuffer; deltas : list (list byte) }.
Definition stream_new : Stream := {| pending := []; transcript := HeadTail.default; deltas := [] |}.

(** One turn of the loop, on a piece. *)
Definition on_piece (prefix : list byte) (s : Stream) (rest : list byte) : Stream :=
  {| pending := rest; transcript := push_chunk prefix (transcript s);
     deltas := if (MAX_EXEC_OUTPUT_DELTAS_PER_CALL <=? length (deltas s))%nat then deltas s
               else deltas s ++ [prefix] |}.
Fixpoint piece_loop (fuel : nat) (s : Stream) : option Stream :=
  match fuel with
  | O => None
  | S fuel =>
      match split_valid_utf8_prefix (pending s) with
      | None => Some s
      | Some (prefix, rest) => piece_loop fuel (on_piece prefix s rest)
      end
  end.
(** Each piece has a byte at least, so that this fuel is enough ([process_chunk_spec]). *)
Definition process_chunk (chunk : list byte) (s : Stream) : option Stream :=
  let s := {| pending := pending s ++ chunk; transcript := transcript s; deltas := deltas s |} in
  piece_loop (S (length (pending s))) s.
(** The chunks that the reader receives, to the end of the stream or of the time after the
    exit. *)
Fixpoint process_chunks (chunks : list (list byte)) (s : Stream) : option Stream :=
  match chunks with
  | [] => Some s
  | chunk :: rest => s ← process_chunk chunk s; process_chunks rest s
  end.

Section Resolve.
Context {Str : Type} (from_utf8_lossy : list byte → Str).
Definition resolve_aggregated_output (transcript : HeadTailBuffer) (fallback : Str) : Str :=
  if retained_bytes transcript =? 0 then fallback else from_utf8_lossy (to_bytes transcript).
End Resolve.

(** ** A poll of the output ([collect_output_until_deadline]) *)
(** One round: the chunks that came before it takes the lock, the time, whether the process
    has ended, and what ends its wait, if it comes to one. *)
Inductive Wake := Notified | ExitNotified | Elapsed.
Record Round := { arrived : list (list byte); now : Z; cancelled : bool; wake : Wake }.

(** What was collected, the buffer, and whether the exit is known, unless the poll ends. *)
Definition collect_round (deadline : Z) (r : Round) (exit_signal_received : bool) (buffer : HeadTailBuffer)
    (collected : list byte) : list byte * HeadTailBuffer * option bool :=
  let '(drained_chunks, buffer) := drain_chunks (push_all (arrived r) buffer) in
  let exit_signal_received := exit_signal_received || cancelled r in
  if bool_decide (drained_chunks = []) then
    let remaining := Z.max (deadline - now r) 0 in
    if remaining =? 0 then (collected, buffer, None)
    else if exit_signal_received then
      (* waits for output alone, for a short time *)
      (collected, buffer, match wake r with Notified => Some true | ExitNotified | Elapsed => None end)
    else
      (collected, buffer, match wake r with Notified => Some false | ExitNotified => Some true | Elapsed => None end)
  else
    let collected := collected ++ concat drained_chunks in
    (collected, buffer, if deadline <=? now r then None else Some exit_signal_received).

(** The last component: whether the poll has ended. *)
Fixpoint collect_loop (deadline : Z) (rounds : list Round) (exit_signal_received : bool) (buffer : HeadTailBuffer)
    (collected : list byte) : list byte * HeadTailBuffer * bool :=
  match rounds with
  | [] => (collected, buffer, false)
  | r :: rest =>
      match collect_round deadline r exit_signal_received buffer collected with
      | (collected, buffer, None) => (collected, buffer, true)
      | (collected, buffer, Some signal) => collect_loop deadline rest signal buffer collected
      end
  end.
Definition collect_output_until_deadline (deadline : Z) (rounds : list Round) (cancelled : bool)
    (buffer : HeadTailBuffer) : list byte * HeadTailBuffer * bool :=
  collect_loop deadline rounds cancelled buffer [].

(** * Correctness *)

(** ** Pieces *)
Lemma find_split_Some buffer max_len split n :
  find_split buffer max_len split = Some n → (0 < n ≤ split)%nat ∧ utf8_valid (take n buffer) = true.
Proof.
  induction split as [|split IH]; [done|]. cbn [find_split]. case_match eqn:Hv.
  - intros [= <-]. split; [lia|done].
  - case_match; [done|]. intros (? & ?)%IH. split; [lia|done].
Qed.

(** A piece of text, or a byte by itself. *)
Definition piece_ok (max_bytes : nat) (piece : list byte) : Prop :=
  (0 < length piece ≤ max_bytes)%nat ∧ (utf8_valid piece = true ∨ length piece = 1%nat).

Lemma split_prefix_spec buffer max_bytes :
  (0 < max_bytes)%nat →
  match split_valid_utf8_prefix_with_max buffer max_bytes with
  | None => buffer = []
  | Some (prefix, rest) => prefix ++ rest = buffer ∧ piece_ok max_bytes prefix
  end.
Proof.
  intros Hmax. unfold split_valid_utf8_prefix_with_max. destruct buffer as [|b buffer]; [done|].
  destruct (find_split _ _ _) as [n|] eqn:Hs.
  - apply find_split_Some in Hs as [Hn Hv]. rewrite take_drop. split; [done|].
    split; [rewrite length_take; lia|by left].
  - split; [done|]. split; [rewrite length_take; cbn [length]; lia|by right].
Qed.

Lemma transcript_default : represents HeadTail.default UNIFIED_EXEC_OUTPUT_MAX_BYTES [].
Proof. apply new_represents. done. Qed.

(** What a reader has made of the pieces so far. *)
Definition made_of (s : Stream) (pieces : list (list byte)) : Prop :=
  Forall (piece_ok UNIFIED_EXEC_OUTPUT_DELTA_MAX_BYTES) pieces ∧
  deltas s = take MAX_EXEC_OUTPUT_DELTAS_PER_CALL pieces ∧
  represents (transcript s) UNIFIED_EXEC_OUTPUT_MAX_BYTES (concat pieces).

Lemma on_piece_made prefix s pieces rest :
  piece_ok UNIFIED_EXEC_OUTPUT_DELTA_MAX_BYTES prefix → made_of s pieces →
  made_of (on_piece prefix s rest) (pieces ++ [prefix]).
Proof.
  intros Hp (Hall & Hdeltas & Hrep). unfold made_of, on_piece; cbn [deltas transcript]. split_and!.
  - by apply Forall_app_2, Forall_singleton.
  - rewrite Hdeltas, length_take. case_match eqn:Hlen.
    + rewrite Nat.leb_le in Hlen. rewrite take_app_le by lia. done.
    + rewrite Nat.leb_gt in Hlen. rewrite (take_ge pieces) by lia. rewrite take_ge; [done|]. rewrite length_app; cbn [length]; lia.
  - rewrite concat_app. cbn [concat]. rewrite app_nil_r. by apply push_chunk_represents.
Qed.

Lemma piece_loop_spec fuel s pieces :
  (length (pending s) < fuel)%nat → made_of s pieces →
  ∃ s' more, piece_loop fuel s = Some s' ∧ pending s' = [] ∧ concat more = pending s ∧ made_of s' (pieces ++ more).
Proof.
  revert s pieces. induction fuel as [|fuel IH]; intros s pieces Hlen Hs; [lia|]. cbn [piece_loop].
  unfold split_valid_utf8_prefix.
  pose proof (split_prefix_spec (pending s) UNIFIED_EXEC_OUTPUT_DELTA_MAX_BYTES ltac:(vm_compute; lia)) as Hsplit.
  destruct (split_valid_utf8_prefix_with_max _ _) as [[prefix rest]|].
  - destruct Hsplit as [Hcat Hok]. pose proof (on_piece_made prefix s pieces rest Hok Hs) as Hs1.
    destruct (IH (on_piece prefix s rest) (pieces ++ [prefix])) as (s' & more & -> & Hp & Hmore & Hs'); [|done|].
    { cbn [pending on_piece]. rewrite <-Hcat, length_app in Hlen. destruct Hok as [? _]. lia. }
    exists s', (prefix :: more). cbn. split_and!; [done..| |by rewrite <-(assoc_L (++)) in Hs'].
    rewrite Hmore. cbn [pending on_piece]. done.
  - exists s, []. split_and!; [done..|by rewrite app_nil_r].
Qed.

Lemma process_chunk_spec chunk s pieces :
  made_of s pieces →
  ∃ s' more, process_chunk chunk s = Some s' ∧ pending s' = [] ∧ concat more = pending s ++ chunk ∧
    made_of s' (pieces ++ more).
Proof.
  intros (Hall & Hd & Ht). unfold process_chunk.
  destruct (piece_loop_spec (S (length (pending s ++ chunk)))
              {| pending := pending s ++ chunk; transcript := transcript s; deltas := deltas s |} pieces)
    as (s' & more & Hl & Hp & Hm & Hs'); [cbn; lia|by split_and!|].
  exists s', more. by split_and!.
Qed.

(** C31. The stream of a command's output: for every sequence of chunks the reader finishes,
    keeps nothing back, and has cut exactly the bytes it received into pieces of text or
    single bytes, none above its limit; the client was sent the first pieces up to the limit
    on events, in order; and the transcript holds the head and the tail of all bytes, which
    is all of them while they fit. *)
Theorem streamed_output chunks :
  ∃ s pieces, process_chunks chunks stream_new = Some s ∧ pending s = [] ∧ concat pieces = concat chunks ∧
    Forall (piece_ok UNIFIED_EXEC_OUTPUT_DELTA_MAX_BYTES) pieces ∧
    deltas s = take MAX_EXEC_OUTPUT_DELTAS_PER_CALL pieces ∧
    represents (transcript s) UNIFIED_EXEC_OUTPUT_MAX_BYTES (concat chunks) ∧
    (zlen (concat chunks) ≤ UNIFIED_EXEC_OUTPUT_MAX_BYTES → to_bytes (transcript s) = concat chunks).
Proof.
  assert (∀ s pieces, pending s = [] → made_of s pieces →
    ∃ s' more, process_chunks chunks s = Some s' ∧ pending s' = [] ∧ concat more = concat chunks ∧
      made_of s' (pieces ++ more)) as Hgen.
  { induction chunks as [|chunk chunks IH]; intros s pieces Hp Hs; cbn [process_chunks concat].
    - exists s, []. split_and!; [done..|by rewrite app_nil_r].
    - destruct (process_chunk_spec chunk s pieces Hs) as (s1 & m1 & -> & Hp1 & Hm1 & Hs1). cbn.
      destruct (IH s1 _ Hp1 Hs1) as (s2 & m2 & -> & Hp2 & Hm2 & Hs2). exists s2, (m1 ++ m2).
      rewrite concat_app, Hm1, Hm2, Hp, (assoc_L (++)). by split_and!. }
  destruct (Hgen stream_new [] eq_refl) as (s & pieces & Hrun & Hp & Hcat & Hall & Hd & Ht).
  { split_and!; [done..|apply transcript_default]. }
  exists s, pieces. rewrite <-Hcat. split_and!; try done. intros Hfit.
  destruct (represents_observe _ UNIFIED_EXEC_OUTPUT_MAX_BYTES _ ltac:(done) Ht) as (-> & _).
  rewrite suffix_of_short; [by rewrite take_drop|]. cbn [app] in *.
  rewrite length_drop. unfold zlen, UNIFIED_EXEC_OUTPUT_MAX_BYTES in *. lia.
Qed.

(** ** Polls *)
(** The head and the tail that a buffer keeps of what is written to it. *)
Definition keeps (max : Z) (s : list byte) : list byte :=
  take (Z.to_nat (max / 2)) s ++ suffix_of (Z.to_nat (max - max / 2)) (drop (Z.to_nat (max / 2)) s).
Lemma keeps_all max s : 0 ≤ max → zlen s ≤ max → keeps max s = s.
Proof.
  intros H0 Hs. pose proof (half_bounds max H0). unfold keeps.
  rewrite suffix_of_short; [by rewrite take_drop|]. rewrite length_drop. unfold zlen in *. lia.
Qed.

Lemma keeps_fmap max l : 0 ≤ max → Forall (λ s, zlen s ≤ max) l → keeps max <$> l = l.
Proof. intros H0. induction 1 as [|s l Hs _ IH]; [done|]. cbn. by rewrite keeps_all, IH. Qed.

(** What each round takes, the first with what was there before. *)
Definition portions (before : list byte) (rounds : list Round) : list (list byte) :=
  match map (λ r, concat (arrived r)) rounds with
  | [] => []
  | s :: rest => (before ++ s) :: rest
  end.

Lemma drain_represents max b s :
  0 ≤ max ≤ USIZE_MAX → represents b max s →
  concat (drain_chunks b).1 = keeps max s ∧ represents (drain_chunks b).2 max [].
Proof.
  intros Hmax R. destruct (drain_chunks_resets max b s Hmax R) as [-> ->].
  destruct (represents_observe b max s Hmax R) as (Hb & -> & _). rewrite Hb. split; [done|].
  apply new_represents. lia.
Qed.

Lemma collect_round_spec max deadline r signal buffer before collected :
  0 ≤ max ≤ USIZE_MAX → represents buffer max before →
  let '(out, buffer', signal') := collect_round deadline r signal buffer collected in
  out = collected ++ keeps max (before ++ concat (arrived r)) ∧ represents buffer' max [] ∧
    (deadline ≤ now r → signal' = None).
Proof.
  intros Hmax R. unfold collect_round.
  pose proof (push_all_represents max (arrived r) buffer before Hmax R) as Rp.
  destruct (drain_represents max _ _ Hmax Rp) as [Hdrain Rd].
  destruct (drain_chunks _) as [drained b']. cbn [fst snd] in Hdrain, Rd. case_bool_decide as Hnil.
  - subst drained. rewrite <-Hdrain. cbn [concat]. rewrite app_nil_r.
    destruct (Z.max (deadline - now r) 0 =? 0) eqn:Hrem; [by split_and!|]. rewrite Z.eqb_neq in Hrem.
    destruct (_ || _); split_and!; try done; lia.
  - rewrite Hdrain. split_and!; [done..|]. intros ?. by rewrite (proj2 (Z.leb_le _ _)).
Qed.

Lemma collect_loop_spec max deadline rounds signal buffer before collected :
  0 ≤ max ≤ USIZE_MAX → represents buffer max before →
  let '(out, buffer', finished) := collect_loop deadline rounds signal buffer collected in
  ∃ k, (k ≤ length rounds)%nat ∧
    out = collected ++ concat (keeps max <$> portions before (take k rounds)) ∧
    represents buffer' max (if decide (k = 0%nat) then before else []) ∧
    (finished = false → k = length rounds) ∧ (finished = true → (0 < k)%nat) ∧
    (∀ r, r ∈ rounds → deadline ≤ now r → finished = true).
Proof.
  intros Hmax. revert signal buffer before collected. induction rounds as [|r rounds IH]; intros signal b before out R.
  - cbn. exists 0%nat. cbn. rewrite app_nil_r. split_and!; try done. intros r Hr. by apply not_elem_of_nil in Hr.
  - cbn [collect_loop]. pose proof (collect_round_spec max deadline r signal b before out Hmax R) as Hround.
    destruct (collect_round _ _ _ _ _) as [[out1 b1] [signal1|]]; destruct Hround as (-> & R1 & Hlate).
    + specialize (IH signal1 b1 [] (out ++ keeps max (before ++ concat (arrived r))) R1).
      destruct (collect_loop _ _ _ _ _) as [[o b2] fin]. destruct IH as (k & Hk & -> & Hb2 & Hf & Ht & Hd).
      exists (S k). cbn [length take]. split_and!; [lia| |by destruct (decide (k = 0%nat))|intros ?; f_equal; auto|lia|].
      * rewrite <-(assoc_L (++)). f_equal. unfold portions. cbn [map fmap list_fmap concat].
        f_equal. by destruct (take k rounds).
      * intros r' [->|Hr']%elem_of_cons Hdl; [by apply Hlate in Hdl|by eapply Hd].
    + exists 1%nat. unfold portions. cbn. rewrite app_nil_r. split_and!; try done; lia.
Qed.

(** A poll of an interactive command returns, in order and each byte once, what was
    written since the last poll: in every round the head and the tail of what came, which is
    all of it while it fits in the buffer; nothing is left behind; and it returns at the
    first round after its deadline at the latest. *)
Theorem poll_returns_output deadline rounds cancelled buffer before :
  represents buffer UNIFIED_EXEC_OUTPUT_MAX_BYTES before →
  let '(out, buffer', finished) := collect_output_until_deadline deadline rounds cancelled buffer in
  (∀ r, r ∈ rounds → deadline ≤ now r → finished = true) ∧
  (finished = true → ∃ k, (0 < k ≤ length rounds)%nat ∧
     out = concat (keeps UNIFIED_EXEC_OUTPUT_MAX_BYTES <$> portions before (take k rounds)) ∧
     represents buffer' UNIFIED_EXEC_OUTPUT_MAX_BYTES [] ∧
     (Forall (λ s, zlen s ≤ UNIFIED_EXEC_OUTPUT_MAX_BYTES) (portions before (take k rounds)) →
      out = before ++ concat (map (λ r, concat (arrived r)) (take k rounds)))).
Proof.
  intros R. unfold collect_output_until_deadline.
  pose proof (collect_loop_spec UNIFIED_EXEC_OUTPUT_MAX_BYTES deadline rounds cancelled buffer before [] ltac:(done) R) as H.
  destruct (collect_loop _ _ _ _ _) as [[out b'] fin]. destruct H as (k & Hk & Hout & Hb & Hf & Ht & Hd).
  split; [done|]. intros Hfin. specialize (Ht Hfin). exists k. rewrite decide_False in Hb by lia.
  split_and!; [lia|lia|done|done|]. intros Hfit. rewrite Hout. cbn [app].
  rewrite keeps_fmap by done.
  unfold portions. destruct (take k rounds) as [|r rs] eqn:E; [|cbn; by rewrite (assoc_L (++))].
  apply (f_equal length) in E. rewrite length_take in E. cbn in E. lia.
Qed.

Definition demo_round (l : list (list byte)) (t : Z) : Round :=
  {| arrived := l; now := t; cancelled := false; wake := Notified |}.
Lemma poll_returns_output_witness :
  let '(out, _, finished) :=
    collect_output_until_deadline 250 [demo_round [[x61]] 10; demo_round [[x62]; [x63]] 260] false HeadTail.default in
  finished = true ∧ out = [x61; x62; x63].
Proof.
  pose proof (poll_returns_output 250 [demo_round [[x61]] 10; demo_round [[x62]; [x63]] 260] false HeadTail.default []
    transcript_default) as H.
  destruct (collect_output_until_deadline _ _ _ _) as [[out b] finished] eqn:E.
  destruct H as [H _]. split.
  - apply (H (demo_round [[x62]; [x63]] 260)); [by right; left|done].
  - vm_compute in E. by injection E as <- _ _.
Defined.

(** ** Examples *)
(** A character that is cut by the end of a chunk is sent in single bytes, although its rest
    follows; a byte that is no text makes the text before it go out byte by byte. *)
Example pieces_across_chunks :
  deltas <$> process_chunks [[xe2; x82]; [xac]] stream_new = Some [[xe2]; [x82]; [xac]] ∧
  deltas <$> process_chunks [[x61; xe2; x82; xac; xff; x61; x61; x61; x61; x61; x61]] stream_new =
    Some [[x61]; [xe2]; [x82]; [xac]; [xff]; [x61; x61; x61; x61; x61; x61]].
Proof. split; vm_compute; reflexivity. Qed.
