(* ===== verification/CoreApprovals.v ===== *)
(** * Waiting for a decision ([request_command_approval], [request_patch_approval],
    [notify_approval], [interrupt_task] and the textual replies of [core/src/savfox/mod.rs];
    [exec_approval], [patch_approval] of [savfox/task_coordinator.rs]; the pending
    approvals of [core/src/state/turn.rs])

    A tool that needs a decision waits on a channel; the other end is kept in the state
    of the turn, under the turn's identifier.  A submission of a client, an interruption
    or the end of the turn answers or drops it.  A channel is its number; a dropped
    sender makes the waiting end read the default decision, a refusal. *)
From stdpp Require Import gmap list strings.
From S2P Require Import Prelude RustStr.
From S2P Require Import ExecPolicy Approval Orchestrator.

(** ** Channels *)
(** [Kept]: the sender stays with the very function that waits for it. *)
Inductive Sender := Waiting | Answered (d : ReviewDecision) | Dropped | Kept.
Record Channel := { c_sub_id : str; c_call_id : str; c_sender : Sender }.
Definition set_sender (s : Sender) (c : Channel) : Channel :=
  {| c_sub_id := c_sub_id c; c_call_id := c_call_id c; c_sender := s |}.

(** [rx_approve.await.unwrap_or_default()]: [None] while it waits. *)
Definition awaited (c : Channel) : option ReviewDecision :=
  match c_sender c with
  | Waiting | Kept => None
  | Answered d => Some d
  | Dropped => Some Denied
  end.

(** [active]: the pending approvals of the active turn; [rules]: the amendments written to
    the policy. *)
Record World := {
  active : option (gmap str nat);
  channels : list Channel;
  rules : list ExecPolicyAmendment;
}.
Definition world_new : World := {| active := None; channels := []; rules := [] |}.

Definition with_channels (w : World) (l : list Channel) : World :=
  {| active := active w; channels := l; rules := rules w |}.
(** Dropping a sender that is still in use. *)
Definition drop_sender (i : nat) (l : list Channel) : list Channel := alter (set_sender Dropped) i l.
Definition drop_senders (m : gmap str nat) (l : list Channel) : list Channel :=
  map_fold (λ _ i l, drop_sender i l) l m.

(** [TurnState]. *)
Definition insert_pending_approval (m : gmap str nat) (key : str) (tx : nat) : gmap str nat * option nat :=
  (<[key := tx]> m, m !! key).
Definition remove_pending_approval (m : gmap str nat) (key : str) : gmap str nat * option nat :=
  (delete key m, m !! key).
Definition has_pending_approval (m : gmap str nat) (key : str) : bool := bool_decide (is_Some (m !! key)).
Definition pending_approval_key_if_unambiguous (m : gmap str nat) : option str :=
  match map_to_list m with [(first, _)] => Some first | _ => None end.

(** ** Requests *)
Inductive RequestKind := CommandRequest | PatchRequest.
(** Without an active turn, the function that asks for a command keeps the sender while it
    waits; the one for a patch returns, and drops it. *)
Definition request_approval (kind : RequestKind) (sub_id call_id : str) (w : World) : World :=
  let i := length (channels w) in
  match active w with
  | Some m =>
      let '(m, prev_entry) := insert_pending_approval m sub_id i in
      let channels := channels w ++ [{| c_sub_id := sub_id; c_call_id := call_id; c_sender := Waiting |}] in
      {| active := Some m;
         channels := match prev_entry with Some j => drop_sender j channels | None => channels end;
         rules := rules w |}
  | None =>
      let sender := match kind with CommandRequest => Kept | PatchRequest => Dropped end in
      with_channels w (channels w ++ [{| c_sub_id := sub_id; c_call_id := call_id; c_sender := sender |}])
  end.

(** ** Decisions *)
Definition notify_approval (sub_id : str) (decision : ReviewDecision) (w : World) : World :=
  match active w with
  | Some m =>
      let '(m, entry) := remove_pending_approval m sub_id in
      {| active := Some m;
         channels := match entry with
                     | Some i => alter (set_sender (Answered decision)) i (channels w)
                     | None => channels w
                     end;
         rules := rules w |}
  | None => w
  end.

(** The turn is taken away, with what it has pending ([abort_all_tasks], or its end). *)
Definition end_turn (w : World) : World :=
  match active w with
  | Some m => {| active := None; channels := drop_senders m (channels w); rules := rules w |}
  | None => w
  end.
Definition start_turn (w : World) : World :=
  let w := end_turn w in {| active := Some ∅; channels := channels w; rules := rules w |}.
Definition interrupt_task (w : World) : World := end_turn w.

Section Decisions.
(** Whether an amendment can be written to the policy. *)
Context (persist_execpolicy_amendment : ExecPolicyAmendment → bool).

Definition exec_approval (id : str) (decision : ReviewDecision) (w : World) : World :=
  let w := match decision with
           | ApprovedExecpolicyAmendment amendment =>
               if persist_execpolicy_amendment amendment
               then {| active := active w; channels := channels w; rules := rules w ++ [amendment] |} else w
           | _ => w
           end in
  match decision with AbortTurn => interrupt_task w | other => notify_approval id other w end.
Definition patch_approval (id : str) (decision : ReviewDecision) (w : World) : World :=
  match decision with AbortTurn => interrupt_task w | other => notify_approval id other w end.

(** *** Replies in text *)
Definition parse_approval_command_id (text command : str) : option str :=
  '(head, tail) ← split_once COLON text;
  if eq_ignore_ascii_case head command
  then let id := trim tail in if bool_decide (id = []) then None else Some id
  else None.
Definition parse_textual_approval_reply (text : str) : option (ReviewDecision * option str) :=
  let normalized := trim text in
  if bool_decide (normalized = §"+") then Some (Approved, None)
  else if bool_decide (normalized = §"-") then Some (Denied, None)
  else match parse_approval_command_id normalized §"approve" with
       | Some id => Some (Approved, Some id)
       | None => match parse_approval_command_id normalized §"deny" with
                 | Some id => Some (Denied, Some id)
                 | None => None
                 end
       end.
(** The operation that a reply is turned into, if it is taken as one. *)
Definition textual_approval (text : str) (w : World) : option (str * ReviewDecision) :=
  '(decision, target_id) ← parse_textual_approval_reply text;
  m ← active w;
  id ← match target_id with
       | Some id => if has_pending_approval m id then Some id else None
       | None => pending_approval_key_if_unambiguous m
       end;
  Some (id, decision).

(** ** What happens to a session, in order *)
Inductive Command :=
| StartTurn
| EndTurn
| Request (kind : RequestKind) (sub_id call_id : str)
| ExecOp (id : str) (decision : ReviewDecision)
| PatchOp (id : str) (decision : ReviewDecision)
| TextReply (text : str).
Definition perform (w : World) (c : Command) : World :=
  match c with
  | StartTurn => start_turn w
  | EndTurn => end_turn w
  | Request kind sub_id call_id => request_approval kind sub_id call_id w
  | ExecOp id decision => exec_approval id decision w
  | PatchOp id decision => patch_approval id decision w
  | TextReply text => match textual_approval text w with
                      | Some (id, decision) => exec_approval id decision w
                      | None => w
                      end
  end.
Definition run (l : list Command) : World := foldl perform world_new l.

(** The decision that a command brings, and the turn it is for. *)
Definition decides (w : World) (c : Command) : option (str * ReviewDecision) :=
  match c with
  | ExecOp id decision | PatchOp id decision => Some (id, decision)
  | TextReply text => textual_approval text w
  | _ => None
  end.
End Decisions.

(** ** The pending approvals are the requests that wait *)
Definition registered (w : World) (key : str) (i : nat) : Prop := ∃ m, active w = Some m ∧ m !! key = Some i.
Definition pending_iff_waiting (w : World) : Prop :=
  ∀ i key, registered w key i ↔
    ∃ c, channels w !! i = Some c ∧ c_sub_id c = key ∧ c_sender c = Waiting.

Lemma lookup_alter_Some {A} (f : A → A) (i j : nat) (l : list A) y :
  alter f i l !! j = Some y ↔
  (j = i ∧ ∃ x, l !! j = Some x ∧ y = f x) ∨ (j ≠ i ∧ l !! j = Some y).
Proof.
  destruct (decide (j = i)) as [->|].
  - rewrite list_lookup_alter_eq. destruct (l !! i); cbn; naive_solver.
  - rewrite list_lookup_alter_ne by done. naive_solver.
Qed.

(** Dropping the senders of a turn touches the registered channels only. *)
Definition in_range (m : gmap str nat) (i : nat) : bool := existsb (λ kv, bool_decide (kv.2 = i)) (map_to_list m).
Lemma in_range_true m i : in_range m i = true ↔ ∃ key, m !! key = Some i.
Proof.
  unfold in_range. rewrite existsb_exists. split.
  - intros ([k j] & Hin & <-%bool_decide_eq_true). exists k. cbn. by apply elem_of_map_to_list, list_elem_of_In.
  - intros [k Hk]. exists (k, i). split; [by apply list_elem_of_In, elem_of_map_to_list|by apply bool_decide_eq_true].
Qed.

Lemma drop_senders_lookup (m : gmap str nat) l i :
  drop_senders m l !! i = (λ c, if in_range m i then set_sender Dropped c else c) <$> l !! i.
Proof.
  unfold drop_senders. induction m as [|key j m Hnone Hfold IH] using map_first_key_ind.
  - rewrite map_fold_empty. by destruct (l !! i).
  - rewrite map_fold_insert_first_key by done. unfold drop_sender at 1.
    destruct (decide (i = j)) as [->|Hne].
    + assert (in_range (<[key:=j]> m) j = true) as -> by (apply in_range_true; exists key; apply lookup_insert_eq).
      rewrite list_lookup_alter_eq, IH. destruct (l !! j) as [c|]; [|done]. cbn. by destruct (in_range m j).
    + rewrite list_lookup_alter_ne, IH by done. assert (in_range (<[key:=j]> m) i = in_range m i) as ->; [|done].
      apply eq_bool_prop_intro. rewrite !Is_true_true, !in_range_true. split; intros [k Hk]; exists k.
      * apply lookup_insert_Some in Hk as [[_ ?]|[_ ?]]; [congruence|done].
      * rewrite lookup_insert_ne; [done|]. intros ->. congruence.
Qed.

(** What one command may do to a channel: nothing; open it; drop its sender; or answer it,
    if it waits and is the one registered for the turn that is decided. *)
Definition evolves (decided : option (str * ReviewDecision)) (w w' : World) : Prop :=
  (∀ i c', channels w' !! i = Some c' →
    channels w !! i = Some c' ∨
    (channels w !! i = None ∧ ∀ d, c_sender c' ≠ Answered d) ∨
    (∃ c, channels w !! i = Some c ∧ c_sender c = Waiting ∧ c' = set_sender Dropped c) ∨
    (∃ c d, channels w !! i = Some c ∧ registered w (c_sub_id c) i ∧ decided = Some (c_sub_id c, d) ∧
       d ≠ AbortTurn ∧ c' = set_sender (Answered d) c)) ∧
  (∀ i c, channels w !! i = Some c → is_Some (channels w' !! i)).

Lemma evolves_same decided w w' : channels w' = channels w → evolves decided w w'.
Proof. intros Hc. split; rewrite Hc; [by left|eauto]. Qed.

Lemma registered_lt w key i : pending_iff_waiting w → registered w key i → i < length (channels w).
Proof. intros Hw (c & Hc & _)%Hw. by apply lookup_lt_Some in Hc. Qed.

Lemma end_turn_ok decided w :
  pending_iff_waiting w → pending_iff_waiting (end_turn w) ∧ evolves decided w (end_turn w).
Proof.
  intros Hw. unfold end_turn. destruct (active w) as [m|] eqn:Ha; [|split; [done|by apply evolves_same]].
  assert (∀ i, in_range m i = true ↔ ∃ c, channels w !! i = Some c ∧ c_sender c = Waiting) as Hrange.
  { intros i. rewrite in_range_true. split.
    - intros [key Hk]. destruct (proj1 (Hw i key)) as (c & ? & _ & ?); [by exists m|eauto].
    - intros (c & Hc & Hs). destruct (proj2 (Hw i (c_sub_id c))) as (m' & ? & ?); [eauto|].
      assert (m' = m) as -> by congruence. eauto. }
  split.
  - intros i key. split; [by intros (m' & ? & _)|]. intros (c & Hc & _ & Hs). exfalso. cbn in Hc.
    rewrite drop_senders_lookup in Hc. destruct (channels w !! i) as [c0|] eqn:H0; [|done]. cbn in Hc.
    destruct (in_range m i) eqn:Hr; injection Hc as <-; [done|].
    assert (in_range m i = true); [|congruence]. apply Hrange. eauto.
  - split; cbn.
    + intros i c'. rewrite drop_senders_lookup. destruct (channels w !! i) as [c0|] eqn:H0; [|done]. cbn.
      destruct (in_range m i) eqn:Hr; intros [= <-]; [|by left]. right; right; left.
      apply Hrange in Hr as (c & Hc & Hs). rewrite H0 in Hc. injection Hc as ->. eauto.
    + intros i c Hc. rewrite drop_senders_lookup, Hc. eauto.
Qed.

Lemma notify_ok sub_id d w :
  d ≠ AbortTurn → pending_iff_waiting w →
  pending_iff_waiting (notify_approval sub_id d w) ∧ evolves (Some (sub_id, d)) w (notify_approval sub_id d w).
Proof.
  intros Hd Hw. unfold notify_approval. destruct (active w) as [m|] eqn:Ha; [|split; [done|by apply evolves_same]].
  unfold remove_pending_approval.
  assert (∀ key i, registered w key i ↔ m !! key = Some i) as Hreg.
  { intros key i. unfold registered. rewrite Ha. naive_solver. }
  destruct (m !! sub_id) as [i0|] eqn:Hm.
  - destruct (proj1 (Hw i0 sub_id)) as (c0 & Hc0 & Hsub & Hs0); [by apply Hreg|]. split.
    + intros i key. unfold registered. cbn. split.
      * intros (m' & [= <-] & [Hne Hk]%lookup_delete_Some). apply Hreg, Hw in Hk as (c & Hc & <- & Hs).
        exists c. split; [|done]. apply lookup_alter_Some. right. split; [|done]. intros ->. congruence.
      * intros (c & Hc & Hk & Hs). apply lookup_alter_Some in Hc as [(-> & x & _ & ->)|(Hne & Hc)]; [done|]. eexists. split; [done|].
        assert (m !! key = Some i) as Hki by (apply Hreg, Hw; eauto). apply lookup_delete_Some. split; [|done].
        intros ->. congruence.
    + split; cbn.
      * intros i c'. rewrite lookup_alter_Some. intros [(-> & x & Hx & ->)|(? & ?)]; [|by left].
        right; right; right. rewrite Hc0 in Hx. injection Hx as <-. exists c0, d. rewrite Hsub.
        split_and!; try done. by apply Hreg.
      * intros i c Hc. destruct (decide (i = i0)) as [->|Hne].
        -- rewrite list_lookup_alter_eq, Hc. eauto.
        -- rewrite list_lookup_alter_ne by done. eauto.
  - rewrite delete_id by done. split; [|by apply evolves_same]. intros i key. destruct (Hw i key) as [H1 H2].
    split; [intros (m' & [= <-] & Hk); by apply H1, Hreg|]. intros Hc%H2%Hreg. by exists m.
Qed.

Lemma request_keeps decided kind sub_id call_id w :
  pending_iff_waiting w →
  pending_iff_waiting (request_approval kind sub_id call_id w) ∧ evolves decided w (request_approval kind sub_id call_id w).
Proof.
  intros Hw. unfold request_approval. set (n := length (channels w)).
  assert (∀ c i y, (channels w ++ [c]) !! i = Some y ↔ channels w !! i = Some y ∨ i = n ∧ y = c) as Happ.
  { intros c i y. rewrite lookup_app_Some. split.
    - intros [?|[? Hl]]; [by left|right]. apply list_lookup_singleton_Some in Hl as [? <-]. unfold n. split; [lia|done].
    - intros [?|[-> ->]]; [by left|right]. unfold n. split; [done|]. by rewrite Nat.sub_diag. }
  assert (channels w !! n = None) as Hn by (apply lookup_ge_None; unfold n; lia).
  destruct (active w) as [m|] eqn:Ha.
  - assert (∀ key i, registered w key i ↔ m !! key = Some i) as Hreg.
    { intros key i. unfold registered. rewrite Ha. naive_solver. }
    unfold insert_pending_approval. set (new := {| c_sub_id := sub_id; c_call_id := call_id; c_sender := Waiting |}).
    set (l := match m !! sub_id with Some j => _ | None => _ end).
    assert (∀ i y, l !! i = Some y ↔
      (i = n ∧ y = new) ∨ (channels w !! i = Some y ∧ m !! sub_id ≠ Some i) ∨
      (m !! sub_id = Some i ∧ ∃ c, channels w !! i = Some c ∧ y = set_sender Dropped c)) as Hl.
    { intros i y. unfold l. destruct (m !! sub_id) as [j|] eqn:Hj.
      - assert (j ≠ n) as Hjn.
        { intros ->. apply Hreg in Hj. apply registered_lt in Hj; [|done]. unfold n in Hj. lia. }
        unfold drop_sender. rewrite lookup_alter_Some. setoid_rewrite (Happ new). naive_solver.
      - rewrite Happ. naive_solver. }
    split.
    + intros i key. unfold registered. cbn [active channels]. split.
      * intros (m' & [= <-] & [[<- <-]|[Hne Hk]]%lookup_insert_Some); [exists new; rewrite Hl; naive_solver|].
        apply Hreg, Hw in Hk as (c & Hc & <- & Hs). exists c. split; [|done]. apply Hl. right; left. split; [done|].
        intros Hj%Hreg%Hw. destruct Hj as (c2 & Hc2 & Hsub & _). congruence.
      * intros (c & Hc & Hk & Hs). apply Hl in Hc as [(-> & ->)|[(Hc & Hne)|(_ & c0 & _ & ->)]];
          [|eexists; split; [done|]|done].
        -- eexists. split; [done|]. cbn in Hk. subst key. by rewrite lookup_insert_eq.
        -- assert (m !! key = Some i) as Hki by (apply Hreg, Hw; eauto). rewrite lookup_insert_ne; [done|].
           intros ->. congruence.
    + split; cbn [channels].
      * intros i c'. rewrite Hl. intros [(-> & ->)|[(? & _)|(Hj & c & Hc & ->)]]; [|by left|].
        -- right; left. split; [done|]. by intros d.
        -- right; right; left. exists c. split_and!; try done. apply Hreg, Hw in Hj as (c2 & Hc2 & _ & ?). congruence.
      * intros i c Hc. destruct (decide (m !! sub_id = Some i)).
        -- exists (set_sender Dropped c). apply Hl. right; right. eauto.
        -- exists c. apply Hl. eauto.
  - split.
    + intros i key. unfold registered, with_channels. cbn [active channels]. rewrite Ha. split; [by intros (? & ? & _)|].
      intros (c & [Hc|[_ ->]]%Happ & Hk & Hs); [|by destruct kind].
      destruct (proj2 (Hw i key)) as (m & ? & _); [eauto|congruence].
    + split; cbn [channels with_channels].
      * intros i c' [?|[-> ->]]%Happ; [by left|right; left]. split; [done|]. by destruct kind.
      * intros i c Hc. exists c. apply Happ. by left.
Qed.

Section Commands.
Context (persist : ExecPolicyAmendment → bool).

Lemma decide_ok id d w w' :
  (d = AbortTurn ∧ w' = interrupt_task w) ∨
  (d ≠ AbortTurn ∧ ∃ w0, active w0 = active w ∧ channels w0 = channels w ∧ w' = notify_approval id d w0) →
  pending_iff_waiting w → pending_iff_waiting w' ∧ evolves (Some (id, d)) w w'.
Proof.
  intros [[-> ->]|(Hd & w0 & Hac & Hch & ->)] Hw; [by apply end_turn_ok|].
  assert (pending_iff_waiting w0) as Hw0.
  { intros i key. unfold registered. rewrite Hac, Hch. apply Hw. }
  destruct (notify_ok id d w0 Hd Hw0) as [H1 [H2 H3]]. split; [done|].
  split; [|by rewrite <-Hch]. intros i c' Hc'. destruct (H2 i c' Hc') as [?|[?|[?|(c & d' & Hc & Hreg & ?)]]];
    rewrite <-Hch; [by auto..|]. right; right; right. exists c, d'. split; [done|]. split; [|done].
  unfold registered in *. by rewrite <-Hac.
Qed.

Lemma exec_approval_ok id d w :
  pending_iff_waiting w →
  pending_iff_waiting (exec_approval persist id d w) ∧ evolves (Some (id, d)) w (exec_approval persist id d w).
Proof.
  apply decide_ok. destruct d as [|a| | |]; [right|right|right|right|by left]; (split; [done|]); try by exists w.
  exists (if persist a then {| active := active w; channels := channels w; rules := rules w ++ [a] |} else w).
  unfold exec_approval. by destruct (persist a).
Qed.

Lemma patch_approval_ok id d w :
  pending_iff_waiting w →
  pending_iff_waiting (patch_approval id d w) ∧ evolves (Some (id, d)) w (patch_approval id d w).
Proof. apply decide_ok. destruct d; [right|right|right|right|by left]; (split; [done|by exists w]). Qed.

Lemma perform_ok w c :
  pending_iff_waiting w →
  pending_iff_waiting (perform persist w c) ∧ evolves (decides w c) w (perform persist w c).
Proof.
  intros Hw. destruct c as [| |kind sub call|id d|id d|text]; cbn [perform decides].
  - destruct (end_turn_ok None w Hw) as [H1 [H2 H3]]. unfold start_turn.
    assert (∀ key i, ¬ registered (end_turn w) key i) as Hnone.
    { intros key i (m & Hm & _). unfold end_turn in Hm. destruct (active w) eqn:E; [done|congruence]. }
    split; [|by split]. intros i key. split.
    + intros (m & [= <-] & Hk). by rewrite lookup_empty in Hk.
    + intros Hc. destruct (Hnone key i). by apply H1.
  - by apply end_turn_ok.
  - by apply request_keeps.
  - by apply exec_approval_ok.
  - by apply patch_approval_ok.
  - destruct (textual_approval text w) as [[id d]|]; [by apply exec_approval_ok|split; [done|by apply evolves_same]].
Qed.

Lemma run_ok l : pending_iff_waiting (run persist l).
Proof.
  induction l as [|c l IH] using rev_ind.
  - intros i key. split; [by intros (m & ? & _)|by intros (c & ? & _)].
  - unfold run. rewrite foldl_snoc. by apply perform_ok.
Qed.


(** The end of a turn leaves no request waiting, but for one whose sender its own function
    keeps: that one waits for ever. *)
Theorem end_of_turn_answers l i c :
  channels (perform persist (run persist l) EndTurn) !! i = Some c → c_sender c ≠ Waiting.
Proof.
  intros Hc Hs. destruct (perform_ok (run persist l) EndTurn (run_ok l)) as [Hw _].
  destruct (proj2 (Hw i (c_sub_id c))) as (m & Hm & _); [eauto|].
  cbn in Hm. unfold end_turn in Hm. destruct (active (run persist l)) eqn:E; [done|congruence].
Qed.

Theorem kept_request_never_returns l l' i c :
  channels (run persist l) !! i = Some c → c_sender c = Kept → channels (run persist (l ++ l')) !! i = Some c.
Proof.
  intros Hc Hk. induction l' as [|cmd l' IH] using rev_ind; [by rewrite app_nil_r|].
  rewrite app_assoc. unfold run at 1. rewrite foldl_snoc. fold (run persist (l ++ l')).
  destruct (perform_ok (run persist (l ++ l')) cmd (run_ok _)) as [_ [Hev Hfwd]].
  destruct (Hfwd i c IH) as [c' Hc']. rewrite Hc'. f_equal.
  destruct (Hev i c' Hc') as [Hold|[(Hnone & _)|[(c0 & Hc0 & Hw & _)|(c0 & d0 & Hc0 & Hreg & _)]]]; [congruence|congruence| |].
  - rewrite IH in Hc0. injection Hc0 as <-. congruence.
  - rewrite IH in Hc0. injection Hc0 as <-. apply run_ok in Hreg as (c2 & Hc2 & _ & ?). congruence.
Qed.
End Commands.

(** ** Examples *)
Definition decided (l : list Command) : list (str * option ReviewDecision) :=
  (λ c, (c_call_id c, awaited c)) <$> channels (run (λ _, true) l).

(** Approvals are kept by the turn, not by the call: an answer that is sent twice also
    answers the next request of the turn, and an answer to the first of two requests
    that overlap is given to the second. *)
Example second_answer_approves_next :
  decided [StartTurn; Request CommandRequest §"turn" §"call-1"; ExecOp §"turn" Approved;
           Request CommandRequest §"turn" §"call-2"; ExecOp §"turn" Approved] =
    [(§"call-1", Some Approved); (§"call-2", Some Approved)] ∧
  decided [StartTurn; Request CommandRequest §"turn" §"call-1"; Request CommandRequest §"turn" §"call-2";
           TextReply §"approve:turn"] = [(§"call-1", Some Denied); (§"call-2", Some Approved)].
Proof. by vm_compute. Qed.

(** Without a turn a patch is refused at once; a command is never answered. *)
Example without_a_turn :
  decided [Request PatchRequest §"turn" §"call-1"; Request CommandRequest §"turn" §"call-2"; ExecOp §"turn" Approved;
           StartTurn; EndTurn] = [(§"call-1", Some Denied); (§"call-2", None)].
Proof. by vm_compute. Qed.

(** An amendment is written even when nothing waits for the decision. *)
Example amendment_without_request :
  rules (run (λ _, true) [ExecOp §"turn" (ApprovedExecpolicyAmendment {| amendment_command := [§"git"] |})])
  = [{| amendment_command := [§"git"] |}].
Proof. by vm_compute. Qed.
