(* ===== verification/Coroutine.v ===== *)
(** * Asynchronous code as interleaved programs

    An [async] function runs alone between two awaits.  [prog] is such a function as a
    sequence of atomic actions on the shared state: an action takes an answer of the
    environment (a clock reading, a random identifier, whether an operation succeeded)
    and the state, and gives the new state and what follows.  A pool of such programs
    interleaves their actions freely.  [safe] is the proof rule: a program holds
    something at each point, and every action keeps to a guarantee; [pool_invariant]
    gives the invariant of the whole pool. *)
From stdpp Require Import gmap list.
From S2P Require Import Prelude.

Section Programs.
Context {W E : Type}.

Inductive prog (R : Type) : Type :=
| Done (r : R)
| Act (k : E → W → W * prog R).
Arguments Done {R} r.
Arguments Act {R} k.

Fixpoint prog_bind_def {R S} (f : R → prog S) (p : prog R) : prog S :=
  match p with
  | Done r => f r
  | Act k => Act (λ e w, let '(w', p') := k e w in (w', prog_bind_def f p'))
  end.

(** One action with a result. *)
Definition atomically {R} (f : E → W → W * R) : prog R :=
  Act (λ e w, let '(w', r) := f e w in (w', Done r)).

(** ** A pool of programs *)
Record pool (R : Type) := { world : W; threads : gmap nat (prog R) }.
Arguments world {R} p.
Arguments threads {R} p.

(** The action of thread [i], if it has one. *)
Definition run_one {R} (i : nat) (e : E) (c : pool R) : option (pool R) :=
  match threads c !! i with
  | Some (Act k) => let '(w', p') := k e (world c) in
                    Some {| world := w'; threads := <[i := p']> (threads c) |}
  | _ => None
  end.
(** A schedule: which thread acts, and the answer it gets; [ok] are the admissible answers. *)
Fixpoint run_all {R} (ok : E → W → bool) (schedule : list (nat * E)) (c : pool R) : option (pool R) :=
  match schedule with
  | [] => Some c
  | (i, e) :: rest => if ok e (world c) then c' ← run_one i e c; run_all ok rest c' else None
  end.
End Programs.
Arguments prog : clear implicits.
Arguments pool : clear implicits.
Arguments Done {W E R} r.
Arguments Act {W E R} k.
Arguments world {W E R} p.
Arguments threads {W E R} p.

#[export] Instance prog_ret W E : MRet (prog W E) := λ R r, Done r.
#[export] Instance prog_fmap W E : FMap (prog W E) := λ R S f p, prog_bind_def (λ r, Done (f r)) p.
#[export] Instance prog_bind W E : MBind (prog W E) := λ R S f p, prog_bind_def f p.

(** A program that runs alone, under the same answer throughout. *)
Fixpoint run_alone {W E R} (e : E) (p : prog W E R) (w : W) : W * R :=
  match p with
  | Done r => (w, r)
  | Act k => let '(w', p') := k e w in run_alone e p' w'
  end.
Lemma run_alone_bind {W E R S} (e : E) (p : prog W E R) (f : R → prog W E S) (w : W) :
  run_alone e (p ≫= f) w = run_alone e (f (run_alone e p w).2) (run_alone e p w).1.
Proof.
  unfold mbind, prog_bind. revert p w. fix IH 1. intros [r|k] w; cbn [run_alone prog_bind_def]; [done|].
  destruct (k e w) as [w' p']. apply IH.
Qed.
Lemma run_alone_atomically {W E R} (e : E) (f : E → W → W * R) (w : W) :
  run_alone e (atomically f) w = f e w.
Proof. cbn. by destruct (f e w). Qed.
Create HintDb alone.
#[export] Hint Rewrite @run_alone_bind @run_alone_atomically : alone.

Section Steps.
(** Which answers the environment may give; which programs may be started; what may
    happen to the state beside them. *)
Context {W E R : Type} (env : E → W → Prop) (start : prog W E R → Prop) (disturb : W → W → Prop).

Inductive pool_step (c : pool W E R) : pool W E R → Prop :=
| step_run i e c' : env e (world c) → run_one i e c = Some c' → pool_step c c'
| step_spawn i p : threads c !! i = None → start p →
    pool_step c {| world := world c; threads := <[i := p]> (threads c) |}
| step_disturb w' : disturb (world c) w' → pool_step c {| world := w'; threads := threads c |}.

Definition pool_reachable (w : W) (c : pool W E R) : Prop :=
  rtc pool_step {| world := w; threads := ∅ |} c.
End Steps.

(** ** The proof rule *)
Section Safe.
(** What a program may hold; what it may assume of an action; what it must guarantee. *)
Context {W E H : Type} (assume : E → W → H → Prop) (guarantee : E → W → H → W → H → Prop).

Fixpoint safe {R} (Q : R → H → Prop) (p : prog W E R) (h : H) : Prop :=
  match p with
  | Done r => Q r h
  | Act k => ∀ e w, assume e w h →
      let '(w', p') := k e w in ∃ h', guarantee e w h w' h' ∧ safe Q p' h'
  end.

Lemma safe_ret {R} (Q : R → H → Prop) r h : Q r h → safe Q (mret r) h.
Proof. done. Qed.

Lemma safe_atomically {R} (Q : R → H → Prop) f h :
  (∀ e w, assume e w h → ∃ h', guarantee e w h (f e w).1 h' ∧ Q (f e w).2 h') →
  safe Q (atomically f) h.
Proof. intros Hf e w Ha. destruct (Hf e w Ha) as (h' & ? & ?). destruct (f e w). by exists h'. Qed.

Lemma safe_bind {R S} (Q : S → H → Prop) (f : R → prog W E S) (p : prog W E R) h :
  safe (λ r h', safe Q (f r) h') p h → safe Q (p ≫= f) h.
Proof.
  unfold mbind, prog_bind. revert p h. fix IH 1. intros [r|k] h; cbn [safe prog_bind_def]; [done|].
  intros Hp e w Ha. specialize (Hp e w Ha). destruct (k e w) as [w' p'].
  destruct Hp as (h' & ? & ?). exists h'. split; [done|]. by apply IH.
Qed.

Lemma safe_fmap {R S} (Q : S → H → Prop) (f : R → S) (p : prog W E R) h :
  safe (λ r h', Q (f r) h') p h → safe Q (f <$> p) h.
Proof. apply (safe_bind Q (λ r, Done (f r))). Qed.

Lemma safe_mono {R} (Q Q' : R → H → Prop) (p : prog W E R) h :
  (∀ r h', Q r h' → Q' r h') → safe Q p h → safe Q' p h.
Proof.
  intros HQ. revert p h. fix IH 1. intros [r|k] h; cbn [safe]; [apply HQ|].
  intros Hp e w Ha. specialize (Hp e w Ha). destruct (k e w) as [w' p'].
  destruct Hp as (h' & ? & ?). exists h'. split; [done|]. by apply IH.
Qed.

(** An action, then the rest. *)
Lemma safe_step {R S} (Q : S → H → Prop) (f : E → W → W * R) (g : R → prog W E S) h :
  (∀ e w, assume e w h → ∃ h', guarantee e w h (f e w).1 h' ∧ safe Q (g (f e w).2) h') →
  safe Q (atomically f ≫= g) h.
Proof. intros. by apply safe_bind, safe_atomically. Qed.
End Safe.

(** ** The invariant of a pool *)
Section Invariant.
Context {W E R H : Type} (env : E → W → Prop) (start : prog W E R → Prop) (disturb : W → W → Prop).
Context (assume : E → W → H → Prop) (guarantee : E → W → H → W → H → Prop).
Context (inv : W → gmap nat H → Prop) (nothing : H) (post : R → H → Prop).
Hypothesis assume_ok : ∀ w hs i h e, inv w hs → hs !! i = Some h → env e w → assume e w h.
Hypothesis guarantee_ok : ∀ w hs i h e w' h',
  inv w hs → hs !! i = Some h → env e w → guarantee e w h w' h' → inv w' (<[i := h']> hs).
Hypothesis spawn_ok : ∀ w hs i p,
  inv w hs → hs !! i = None → start p → inv w (<[i := nothing]> hs) ∧ safe assume guarantee post p nothing.
Hypothesis disturb_ok : ∀ w hs w', inv w hs → disturb w w' → inv w' hs.

Definition pool_inv (c : pool W E R) : Prop :=
  ∃ hs, inv (world c) hs ∧ dom hs = dom (threads c) ∧
    ∀ i p, threads c !! i = Some p → ∃ h, hs !! i = Some h ∧ safe assume guarantee post p h.

Lemma pool_step_inv c c' : pool_inv c → pool_step env start disturb c c' → pool_inv c'.
Proof.
  intros (hs & Hinv & Hdom & Hall) [i e c1 He Hrun|i p Hi Hp|w' Hw].
  - unfold run_one in Hrun. destruct (threads c !! i) as [[r|k]|] eqn:Hi; [done| |done].
    destruct (k e (world c)) as [w' p'] eqn:Hk. injection Hrun as <-.
    destruct (Hall i _ Hi) as (h & Hh & Hsafe). cbn in Hsafe.
    specialize (Hsafe e (world c) (assume_ok _ _ _ _ _ Hinv Hh He)). rewrite Hk in Hsafe.
    destruct Hsafe as (h' & Hg & Hs'). exists (<[i := h']> hs). cbn. split_and!.
    + by eapply guarantee_ok.
    + by rewrite !dom_insert_L, Hdom.
    + intros j q. rewrite !lookup_insert_Some. intros [(<- & <-)|(Hne & Hj)].
      * exists h'. by rewrite lookup_insert_eq.
      * destruct (Hall j q Hj) as (hj & ? & ?). exists hj. by rewrite lookup_insert_ne.
  - assert (hs !! i = None) as Hnone by (apply not_elem_of_dom; rewrite Hdom; by apply not_elem_of_dom).
    destruct (spawn_ok _ _ _ _ Hinv Hnone Hp) as [Hinv' Hs].
    exists (<[i := nothing]> hs). cbn. split_and!; [done|by rewrite !dom_insert_L, Hdom|].
    intros j q. rewrite lookup_insert_Some. intros [(<- & <-)|(Hne & Hj)].
    + exists nothing. by rewrite lookup_insert_eq.
    + destruct (Hall j q Hj) as (hj & ? & ?). exists hj. by rewrite lookup_insert_ne.
  - exists hs. cbn. split_and!; [by eapply disturb_ok|done|done].
Qed.

Theorem pool_invariant w c : inv w ∅ → pool_reachable env start disturb w c → pool_inv c.
Proof.
  intros Hw Hr. unfold pool_reachable in Hr. remember {| world := w; threads := ∅ |} as c0 eqn:E0.
  assert (pool_inv c0) as H0.
  { rewrite E0. exists ∅. cbn. split_and!; [done|by rewrite !dom_empty_L|]. intros i p. by rewrite lookup_empty. }
  clear E0 Hw. induction Hr as [|c0 c1 c2 Hs _ IH]; [done|]. by eapply IH, pool_step_inv.
Qed.
End Invariant.

(** A schedule of admissible answers is a run. *)
Lemma run_all_reachable {W E R} (env : E → W → Prop) start disturb ok (c c' : pool W E R) schedule :
  (∀ e w, ok e w = true → env e w) → run_all ok schedule c = Some c' →
  rtc (pool_step env start disturb) c c'.
Proof.
  intros He. revert c. induction schedule as [|[i e] rest IH]; intros c; cbn.
  - by intros [= ->].
  - destruct (ok e (world c)) eqn:Hok; [|done]. intros (c1 & H1 & H2)%bind_Some.
    eapply rtc_l; [eapply (step_run _ _ _ _ i e); [by apply He|done]|by apply IH].
Qed.

(** Programs started in a row, numbered from [i]. *)
Definition start_all {W E R} (w : W) (ps : list (prog W E R)) : pool W E R :=
  {| world := w; threads := map_seq 0 ps |}.
Lemma start_all_reachable {W E R} (env : E → W → Prop) (start : prog W E R → Prop) disturb w ps :
  Forall start ps → pool_reachable env start disturb w (start_all w ps).
Proof.
  unfold pool_reachable, start_all. induction ps as [|p ps IH] using rev_ind; [done|].
  intros [Hps Hp]%Forall_app. apply Forall_cons_1 in Hp as [Hp _]. eapply rtc_r; [by apply IH|].
  rewrite map_seq_snoc. apply (step_spawn _ _ _ {| world := w; threads := map_seq 0 ps |}); [|done]. cbn.
  apply (map_seq_snoc_disjoint 0 ps).
Qed.

(** ** Programs that keep an invariant of the state, and hold nothing *)
Section Kept.
Context {W E : Type} (env : E → W → Prop) (inv : W → Prop).

Definition kept {R} (Q : R → Prop) (p : prog W E R) : Prop :=
  safe (λ e w (_ : ()), env e w ∧ inv w) (λ _ _ _ w' _, inv w') (λ r _, Q r) p ().

Lemma kept_ret {R} (Q : R → Prop) r : Q r → kept Q (mret r).
Proof. done. Qed.
Lemma kept_atomically {R} (Q : R → Prop) f :
  (∀ e w, env e w → inv w → inv (f e w).1 ∧ Q (f e w).2) → kept Q (atomically f).
Proof. intros Hf. apply safe_atomically. intros e w [He Hw]. exists (). by apply Hf. Qed.
Lemma kept_mono {R} (P Q : R → Prop) (p : prog W E R) : (∀ r, P r → Q r) → kept P p → kept Q p.
Proof. intros HPQ. apply safe_mono. intros r _. apply HPQ. Qed.
Lemma kept_then {R S} (P : R → Prop) (Q : S → Prop) (p : prog W E R) (f : R → prog W E S) :
  kept P p → (∀ r, P r → kept Q (f r)) → kept Q (p ≫= f).
Proof. intros Hp Hf. apply safe_bind. eapply safe_mono; [|exact Hp]. intros r []. apply Hf. Qed.
Lemma kept_fmap {R S} (Q : S → Prop) (f : R → S) (p : prog W E R) : kept (λ r, Q (f r)) p → kept Q (f <$> p).
Proof. exact (safe_fmap _ _ (λ s (_ : ()), Q s) f p ()). Qed.

Theorem kept_pool {R} (start : prog W E R → Prop) (disturb : W → W → Prop) w c :
  inv w → (∀ p, start p → kept (λ _, True) p) → (∀ w w', inv w → disturb w w' → inv w') →
  pool_reachable env start disturb w c → inv (world c).
Proof.
  intros Hw Hstart Hdisturb Hr.
  assert (pool_inv (λ e w (_ : ()), env e w ∧ inv w) (λ _ _ _ w' _, inv w') (λ w (_ : gmap nat ()), inv w)
            (λ (_ : R) (_ : ()), True) c) as (hs & Hi & _); [|exact Hi].
  eapply (pool_invariant env start disturb _ _ _ ()); [| | | |exact Hw|exact Hr].
  - intros w0 _ i h e Hi _ He. done.
  - done.
  - intros w0 hs i p Hi _ Hp. split; [done|by apply Hstart].
  - intros w0 _ w1. apply Hdisturb.
Qed.
End Kept.

(** A schedule from the start. *)
Lemma played_reachable {W E R} (env : E → W → Prop) start disturb ok (w : W) (ps : list (prog W E R)) schedule c :
  Forall start ps → (∀ e w, ok e w = true → env e w) → run_all ok schedule (start_all w ps) = Some c →
  pool_reachable env start disturb w c.
Proof.
  intros Hps Hok Hc. unfold pool_reachable. etrans; [by apply start_all_reachable|]. by eapply run_all_reachable.
Qed.
