(* ===== verification/UnifiedExec.v ===== *)
(** * The open processes of a session
    ([core/src/unified_exec/mod.rs], [process_manager.rs], [process.rs]; the tools
    [exec_command] and [write_stdin] of [tools/handlers/unified_exec.rs])

    A command that has not ended when its first poll does stays open under an identifier,
    for later input and polls.  Calls of the two tools run side by side, and processes end
    and write at any time: each call is a program of [Coroutine], whose actions are the
    sections under the lock of the store, the rounds of a poll ([UnifiedOutput]) and the
    readings of a process's state.  What comes of opening a process through the orchestrator
    ([Orchestrator]) is an answer of the environment: a process, or an error after which none
    is left. *)
From stdpp Require Import gmap list strings pretty sorting.
From Stdlib Require Import Strings.Byte.
From S2P Require Import Prelude RustStr MachInt Tools HeadTail Truncate Approval Orchestrator.
From S2P Require Import CommandExec UnifiedOutput Coroutine.
Local Open Scope Z_scope.
(** The one of stdpp, not that of [HeadTail]. *)
Local Abbreviation default := (from_option id).

(** ** Limits *)
Definition MIN_YIELD_TIME_MS : Z := 250.
Definition MIN_EMPTY_YIELD_TIME_MS : Z := 5000.
Definition MAX_YIELD_TIME_MS : Z := 30000.
Definition DEFAULT_MAX_OUTPUT_TOKENS : Z := 10000.
Definition UNIFIED_EXEC_OUTPUT_MAX_TOKENS : Z := UNIFIED_EXEC_OUTPUT_MAX_BYTES / 4.
Definition MAX_UNIFIED_EXEC_PROCESSES : nat := 64.
Definition WARNING_UNIFIED_EXEC_PROCESSES : nat := 60.

(** [Ord::clamp]. *)
Definition clamp (lo hi x : Z) : Z := Z.min hi (Z.max lo x).
Definition clamp_yield_time (yield_time_ms : Z) : Z := clamp MIN_YIELD_TIME_MS MAX_YIELD_TIME_MS yield_time_ms.
Definition resolve_max_tokens (max_tokens : option Z) : Z := default DEFAULT_MAX_OUTPUT_TOKENS max_tokens.

Definition UNIFIED_EXEC_ENV : list (str * str) :=
  [(§"NO_COLOR", §"1"); (§"TERM", §"dumb"); (§"LANG", §"C.UTF-8"); (§"LC_CTYPE", §"C.UTF-8");
   (§"LC_ALL", §"C.UTF-8"); (§"COLORTERM", []); (§"PAGER", §"cat"); (§"GIT_PAGER", §"cat");
   (§"GH_PAGER", §"cat"); (§"SAVFOX_CI", §"1")].
Definition apply_unified_exec_env (env : gmap str str) : gmap str str :=
  foldl (λ env kv, <[kv.1 := kv.2]> env) env UNIFIED_EXEC_ENV.

(** ** Which process to close *)
Definition Meta : Type := str * Z * bool.
Definition meta_id (m : Meta) : str := m.1.1.
Definition meta_used (m : Meta) : Z := m.1.2.
Definition meta_exited (m : Meta) : bool := m.2.

Definition PROTECTED : nat := 8.
Definition process_id_to_prune_from_meta (meta : list Meta) : option str :=
  if bool_decide (meta = []) then None
  else
    let by_recency := sort_by_key (λ m, - meta_used m) meta in
    let protected : gset str := list_to_set (map meta_id (take PROTECTED by_recency)) in
    let lru := sort_by_key meta_used meta in
    match list_find (λ m, meta_id m ∉ protected ∧ meta_exited m = true) lru with
    | Some (_, m) => Some (meta_id m)
    | None => (λ im, meta_id im.2) <$> list_find (λ m, meta_id m ∉ protected) lru
    end.

(** ** Processes and the store *)
(** A process that was started: whether and how it has ended, whether it was killed from
    here, the output that no poll has taken yet. *)
Record Process := {
  has_exited : bool;
  p_exit_code : option Z;
  terminated : bool;
  output_buffer : HeadTailBuffer;
  sandbox_type : SandboxType;
}.
Record ProcessEntry := {
  process : nat;
  call_id : str;
  process_id : str;
  command : list str;
  tty : bool;
  last_used : Z;
}.
(** The store; all processes ever started, by number; the warnings to the model. *)
Record World := {
  processes : gmap str ProcessEntry;
  reserved_process_ids : gset str;
  started : gmap nat Process;
  model_warnings : list nat;
}.
Definition world_new : World :=
  {| processes := ∅; reserved_process_ids := ∅; started := ∅; model_warnings := [] |}.
Definition set_store (w : World) (ps : gmap str ProcessEntry) (ids : gset str) : World :=
  {| processes := ps; reserved_process_ids := ids; started := started w; model_warnings := model_warnings w |}.
Definition set_started (w : World) (m : gmap nat Process) : World :=
  {| processes := processes w; reserved_process_ids := reserved_process_ids w; started := m;
     model_warnings := model_warnings w |}.

Definition remove (id : str) (w : World) : World :=
  set_store w (delete id (processes w)) (reserved_process_ids w ∖ {[ id ]}).

Definition kill (p : Process) : Process :=
  {| has_exited := has_exited p; p_exit_code := p_exit_code p; terminated := true;
     output_buffer := output_buffer p; sandbox_type := sandbox_type p |}.
Definition terminate (n : nat) (w : World) : World := set_started w (alter kill n (started w)).
Definition set_buffer (b : HeadTailBuffer) (p : Process) : Process :=
  {| has_exited := has_exited p; p_exit_code := p_exit_code p; terminated := terminated p;
     output_buffer := b; sandbox_type := sandbox_type p |}.

(** ** Requests and responses *)
Record ExecCommandRequest := {
  rq_command : list str;
  rq_process_id : str;
  rq_yield_time_ms : Z;
  rq_max_output_tokens : option Z;
  rq_tty : bool;
}.
Record WriteStdinRequest := {
  ws_process_id : str;
  ws_input : list byte;
  ws_yield_time_ms : Z;
  ws_max_output_tokens : option Z;
}.
Record UnifiedExecResponse := {
  event_call_id : str;
  chunk_id : str;
  wall_time : Z;
  output : option str;
  raw_output : list byte;
  r_process_id : option str;
  r_exit_code : option Z;
  original_token_count : option Z;
  session_command : option (list str);
}.
Inductive UnifiedExecError :=
| CreateProcess (message : str)
| UnknownProcessId (process_id : str)
| WriteToStdin
| StdinClosed
| MissingCommandLine
| SandboxDenied (message : option str) (output : ExecToolCallOutput).

(** What the environment answers an action: a random number; the clock, in milliseconds;
    what came of opening a process; the order in which the map is walked; a round of a poll;
    the digits of a chunk's name; whether the input was accepted; what became of the command
    as a patch. *)
Record Env := {
  draw : Z;
  clock : Z;
  opened : result UnifiedExecError Process;
  order : list (str * ProcessEntry) → list (str * ProcessEntry);
  round : Round;
  digits : list nat;
  accepted : bool;
  as_patch : result str (option str);
}.
Abbreviation async := (prog World Env).

(** ** The manager *)
(** [None]: still drawing after so many attempts. *)
Fixpoint allocate_process_id (attempts : nat) : async (option str) :=
  match attempts with
  | O => mret None
  | S attempts =>
      id ← atomically (λ e w,
        let process_id := show_uint (draw e) in
        if bool_decide (process_id ∈ reserved_process_ids w) then (w, None)
        else (set_store w (processes w) ({[ process_id ]} ∪ reserved_process_ids w), Some process_id));
      match id with
      | Some process_id => mret (Some process_id)
      | None => allocate_process_id attempts
      end
  end.
Definition release_process_id (process_id : str) : async () := atomically (λ _ w, (remove process_id w, tt)).

Definition meta_of (w : World) (l : list (str * ProcessEntry)) : list Meta :=
  map (λ ie, (ie.1, last_used ie.2,
              match started w !! process ie.2 with Some p => has_exited p | None => false end)) l.
Definition prune_processes_if_needed (e : Env) (w : World) : World :=
  if (size (processes w) <? MAX_UNIFIED_EXEC_PROCESSES)%nat then w
  else match process_id_to_prune_from_meta (meta_of w (order e (map_to_list (processes w)))) with
       | Some process_id =>
           match processes w !! process_id with
           | Some entry => terminate (process entry) (remove process_id w)
           | None => remove process_id w
           end
       | None => w
       end.
Definition insert_entry (entry : ProcessEntry) (w : World) : World :=
  set_store w (<[process_id entry := entry]> (processes w)) (reserved_process_ids w).
Definition record_model_warning (n : nat) : async () :=
  atomically (λ _ w, ({| processes := processes w; reserved_process_ids := reserved_process_ids w;
                         started := started w; model_warnings := model_warnings w ++ [n] |}, tt)).
Definition store_process (entry : ProcessEntry) : async () :=
  number_processes ← atomically (λ e w,
    let w := insert_entry entry (prune_processes_if_needed e w) in (w, size (processes w)));
  if (WARNING_UNIFIED_EXEC_PROCESSES <=? number_processes)%nat then record_model_warning number_processes
  else mret tt.

(** Readings. *)
Definition look {A} (n : nat) (f : Process → A) (otherwise : A) : async A :=
  atomically (λ _ w, (w, match started w !! n with Some p => f p | None => otherwise end)).
Definition instant_now : async Z := atomically (λ e w, (w, clock e)).

(** A new process, under the next number. *)
Definition open_session_with_sandbox : async (result UnifiedExecError nat) :=
  atomically (λ e w,
    match opened e with
    | Err err => (w, Err err)
    | Ok p => let n := fresh (dom (started w)) in (set_started w (<[n := p]> (started w)), Ok n)
    end).

(** [None]: the poll goes on after so many rounds. *)
Fixpoint collect_rounds (rounds : nat) (n : nat) (deadline : Z) (exit_signal_received : bool) (collected : list byte)
    : async (option (list byte)) :=
  match rounds with
  | O => mret None
  | S rounds =>
      r ← atomically (λ e w,
        match started w !! n with
        | None => (w, (collected, None))
        | Some p =>
            let '(collected, buffer, signal) :=
              collect_round deadline (round e) exit_signal_received (output_buffer p) collected in
            (set_started w (<[n := set_buffer buffer p]> (started w)), (collected, signal))
        end);
      match r with
      | (collected, None) => mret (Some collected)
      | (collected, Some signal) => collect_rounds rounds n deadline signal collected
      end
  end.
Definition collect_output (rounds : nat) (n : nat) (deadline : Z) : async (option (list byte)) :=
  exit_signal_received ← atomically (λ e w, (w, cancelled (round e)));
  collect_rounds rounds n deadline exit_signal_received [].

Definition hex_digit (d : nat) : char := default 48%N (§"0123456789abcdef" !! d).
Definition generate_chunk_id : async str := atomically (λ e w, (w, hex_digit <$> take 6 (digits e))).

(** ** The two tools *)
Section Tools.
(** [String::from_utf8_lossy]; [str::to_lowercase]; how many attempts and rounds are
    followed. *)
Context (from_utf8_lossy : list byte → str) (to_lowercase : str → str) (attempts rounds : nat).

(** [process.check_for_sandbox_denial_with_text]. *)
Definition sandbox_denial (text : str) (sandbox : SandboxType) (exit_code : Z) : option UnifiedExecError :=
  let exec_output := {| exit_code := exit_code; out_stdout := []; out_stderr := text; out_aggregated := text;
                        out_timed_out := false |} in
  if is_likely_sandbox_denied to_lowercase sandbox exec_output then
    let snippet := formatted_truncate_text text (Tokens UNIFIED_EXEC_OUTPUT_MAX_TOKENS) in
    let message := if bool_decide (snippet = Some []) then Some (§"Process exited with code " ++ lit (pretty exit_code))
                   else snippet in
    Some (SandboxDenied message exec_output)
  else None.
Definition check_for_sandbox_denial_with_text (n : nat) (text : str) : async (option UnifiedExecError) :=
  sandbox ← look n sandbox_type SandboxNone;
  exited ← look n has_exited false;
  if bool_decide (sandbox = SandboxNone) || negb exited then mret None
  else exit_code ← look n p_exit_code None; mret (sandbox_denial text sandbox (default (-1) exit_code)).

(** [exec_command], once the first poll is over: the process is stored, or has ended. *)
Definition after_first_poll (request : ExecCommandRequest) (call_id : str) (n : nat) (start stop : Z)
    (collected : list byte) : async (option (result UnifiedExecError UnifiedExecResponse)) :=
  let max_tokens := resolve_max_tokens (rq_max_output_tokens request) in
  let text := from_utf8_lossy collected in
  let output := formatted_truncate_text text (Tokens max_tokens) in
  exit_code ← look n p_exit_code None;
  exited ← look n has_exited false;
  let has_exited := exited || bool_decide (is_Some exit_code) in
  chunk_id ← generate_chunk_id;
  let response :=
    {| event_call_id := call_id; chunk_id := chunk_id; wall_time := Z.max (stop - start) 0; output := output;
       raw_output := collected; r_process_id := if has_exited then None else Some (rq_process_id request);
       r_exit_code := exit_code; original_token_count := Some (approx_token_count text);
       session_command := Some (rq_command request) |} in
  if has_exited then
    _ ← release_process_id (rq_process_id request);
    denied ← check_for_sandbox_denial_with_text n text;
    mret (Some (match denied with Some err => Err err | None => Ok response end))
  else
    _ ← store_process {| process := n; call_id := call_id; process_id := rq_process_id request;
                         command := rq_command request; tty := rq_tty request; last_used := start |};
    mret (Some (Ok response)).

Definition exec_command (request : ExecCommandRequest) (call_id : str)
    : async (option (result UnifiedExecError UnifiedExecResponse)) :=
  opened ← open_session_with_sandbox;
  match opened with
  | Err err => _ ← release_process_id (rq_process_id request); mret (Some (Err err))
  | Ok n =>
      let yield_time_ms := clamp_yield_time (rq_yield_time_ms request) in
      start ← instant_now;
      collected ← collect_output rounds n (start + yield_time_ms);
      match collected with
      | None => mret None
      | Some collected => stop ← instant_now; after_first_poll request call_id n start stop collected
      end
  end.

(** [entry.last_used = Instant::now()], and a copy of the entry. *)
Definition prepare_process_handles (process_id : str) : async (result UnifiedExecError ProcessEntry) :=
  atomically (λ e w,
    match processes w !! process_id with
    | None => (w, Err (UnknownProcessId process_id))
    | Some entry =>
        let entry := {| process := process entry; call_id := call_id entry; process_id := UnifiedExec.process_id entry;
                        command := command entry; tty := tty entry; last_used := clock e |} in
        (set_store w (<[process_id := entry]> (processes w)) (reserved_process_ids w), Ok entry)
    end).

Inductive ProcessStatus :=
| Alive (exit_code : option Z) (call_id process_id : str)
| Exited (exit_code : option Z) (entry : ProcessEntry)
| Unknown.
Definition refresh_process_state (process_id : str) : async ProcessStatus :=
  atomically (λ _ w,
    match processes w !! process_id with
    | None => (w, Unknown)
    | Some entry =>
        let p := started w !! process entry in
        let exit_code := p ≫= p_exit_code in
        let id := UnifiedExec.process_id entry in
        if (match p with Some p => has_exited p | None => false end) then
          (remove id w, match processes w !! id with Some entry => Exited exit_code entry | None => Unknown end)
        else (w, Alive exit_code (call_id entry) id)
    end).

Definition write_stdin (request : WriteStdinRequest) : async (option (result UnifiedExecError UnifiedExecResponse)) :=
  prepared ← prepare_process_handles (ws_process_id request);
  match prepared with
  | Err err => mret (Some (Err err))
  | Ok entry =>
      let empty := bool_decide (ws_input request = []) in
      if negb empty && negb (tty entry) then mret (Some (Err StdinClosed))
      else
        sent ← (if empty then mret true else atomically (λ e w, (w, accepted e)));
        if negb (sent : bool) then mret (Some (Err WriteToStdin))
        else
          let max_tokens := resolve_max_tokens (ws_max_output_tokens request) in
          let time_ms := clamp_yield_time (ws_yield_time_ms request) in
          let yield_time_ms := if empty then clamp MIN_EMPTY_YIELD_TIME_MS MAX_YIELD_TIME_MS time_ms else time_ms in
          start ← instant_now;
          collected ← collect_output rounds (process entry) (start + yield_time_ms);
          match collected with
          | None => mret None
          | Some collected =>
              stop ← instant_now;
              let text := from_utf8_lossy collected in
              chunk_id ← generate_chunk_id;
              status ← refresh_process_state (UnifiedExec.process_id entry);
              let respond process_id exit_code call_id :=
                Some (Ok {| event_call_id := call_id; chunk_id := chunk_id; wall_time := Z.max (stop - start) 0;
                            output := formatted_truncate_text text (Tokens max_tokens); raw_output := collected;
                            r_process_id := process_id; r_exit_code := exit_code;
                            original_token_count := Some (approx_token_count text);
                            session_command := Some (command entry) |}) in
              mret (match status with
                    | Alive exit_code call_id process_id => respond (Some process_id) exit_code call_id
                    | Exited exit_code entry => respond None exit_code (call_id entry)
                    | Unknown => Some (Err (UnknownProcessId (ws_process_id request)))
                    end)
          end
  end.

Fixpoint terminate_each (ns : list nat) : async () :=
  match ns with
  | [] => mret tt
  | n :: ns => _ ← atomically (λ _ w, (terminate n w, tt)); terminate_each ns
  end.
Definition terminate_all_processes : async () :=
  ns ← atomically (λ e w, (set_store w ∅ ∅, map (λ ie, process ie.2) (order e (map_to_list (processes w)))));
  terminate_each ns.

(** *** The calls of the model *)
Inductive CallEnd :=
| Responded (response : UnifiedExecResponse)
| AppliedPatch (text : str)
| EscalationRefused (approval_policy : AskForApproval)
| PatchFailed (message : str)
| CallFailed (err : UnifiedExecError)
| AllClosed.

Definition call_end (r : result UnifiedExecError UnifiedExecResponse) : CallEnd :=
  match r with Ok response => Responded response | Err err => CallFailed err end.

(** [handle] for [exec_command], once the arguments are parsed and the command is made.  An
    error of the patch leaves by the question mark. *)
Definition handle_exec_command (command : list str) (tty : bool) (yield_time_ms : Z) (max_output_tokens : option Z)
    (sandbox_permissions : SandboxPermissions) (approval_policy : AskForApproval) (call_id : str)
    : async (option CallEnd) :=
  allocated ← allocate_process_id attempts;
  match allocated with
  | None => mret None
  | Some process_id =>
      if requires_escalated_permissions sandbox_permissions && negb (allows_explicit_escalation approval_policy) then
        _ ← release_process_id process_id; mret (Some (EscalationRefused approval_policy))
      else
        patch ← atomically (λ e w, (w, as_patch e));
        match patch with
        | Err message => mret (Some (PatchFailed message))
        | Ok (Some text) => _ ← release_process_id process_id; mret (Some (AppliedPatch text))
        | Ok None =>
            r ← exec_command {| rq_command := command; rq_process_id := process_id; rq_yield_time_ms := yield_time_ms;
                                rq_max_output_tokens := max_output_tokens; rq_tty := tty |} call_id;
            mret (option_map call_end r)
        end
  end.
Definition handle_write_stdin (session_id : Z) (chars : list byte) (yield_time_ms : Z) (max_output_tokens : option Z)
    : async (option CallEnd) :=
  let request := {| ws_process_id := lit (pretty session_id); ws_input := chars; ws_yield_time_ms := yield_time_ms;
                    ws_max_output_tokens := max_output_tokens |} in
  r ← write_stdin request;
  mret (option_map call_end r).
Definition handle_terminate_all : async (option CallEnd) :=
  _ ← terminate_all_processes; mret (Some AllClosed).

(** What the model is told. *)
Definition format_response (show_seconds : Z → str) (response : UnifiedExecResponse) : str :=
  let section (s : option str) := match s with Some s => [s] | None => [] end in
  join [LF]
    ((if bool_decide (chunk_id response = []) then [] else [§"Chunk ID: " ++ chunk_id response])
     ++ [§"Wall time: " ++ show_seconds (wall_time response) ++ §" seconds"]
     ++ section ((λ code, §"Process exited with code " ++ lit (pretty code)) <$> r_exit_code response)
     ++ section ((λ id, §"Process running with session ID " ++ id) <$> r_process_id response)
     ++ section ((λ n, §"Original token count: " ++ show_uint n) <$> original_token_count response)
     ++ [§"Output:"; default [] (output response)]).
End Tools.

(** * Correctness *)

(** ** Pruning *)
(** What a choice protects: the most recently used, and no others while there are more. *)
Definition protected_of (meta : list Meta) : list Meta := take PROTECTED (sort_by_key (λ m, - meta_used m) meta).

Definition others_of (meta : list Meta) : list Meta := drop PROTECTED (sort_by_key (λ m, - meta_used m) meta).

Lemma protected_others meta : protected_of meta ++ others_of meta ≡ₚ meta.
Proof. unfold protected_of, others_of. rewrite take_drop. apply sort_by_key_perm. Qed.

Lemma protected_recent meta p o : p ∈ protected_of meta → o ∈ others_of meta → meta_used o ≤ meta_used p.
Proof.
  intros Hp Ho. pose proof (sort_by_key_sorted (λ m, - meta_used m) meta) as Hs.
  rewrite <-(take_drop PROTECTED (sort_by_key _ _)) in Hs.
  pose proof (StronglySorted_app_1_elem_of _ _ _ p o Hs Hp Ho) as H. unfold key_le in H. lia.
Qed.

Lemma unprotected meta m :
  NoDup (map meta_id meta) → m ∈ meta →
  meta_id m ∉@{gset str} list_to_set (map meta_id (protected_of meta)) ↔ m ∈ others_of meta.
Proof.
  intros Hnd Hm. rewrite elem_of_list_to_set. pose proof (protected_others meta) as Hperm.
  rewrite <-Hperm in Hm. rewrite <-Hperm, map_app in Hnd. apply NoDup_app in Hnd as (_ & Hdisj & _). split.
  - intros Hn. apply elem_of_app in Hm as [Hm|Hm]; [|done]. by destruct Hn; apply (list_elem_of_fmap_2 meta_id).
  - intros Ho Hp. apply (Hdisj _ Hp). by apply (list_elem_of_fmap_2 meta_id).
Qed.

Lemma prune_picks meta :
  NoDup (map meta_id meta) →
  match process_id_to_prune_from_meta meta with
  | None => (length meta ≤ PROTECTED)%nat
  | Some id =>
      (PROTECTED < length meta)%nat ∧
      ∃ protected others m, protected ++ others ≡ₚ meta ∧ length protected = PROTECTED ∧
        m ∈ others ∧ meta_id m = id ∧
        (∀ p o, p ∈ protected → o ∈ others → meta_used o ≤ meta_used p) ∧
        (∀ o, o ∈ others → meta_exited o = true → meta_exited m = true ∧ meta_used m ≤ meta_used o) ∧
        (meta_exited m = false → ∀ o, o ∈ others → meta_used m ≤ meta_used o)
  end.
Proof.
  intros Hnd. pose proof (protected_others meta) as Hperm.
  assert (∀ m, m ∈ others_of meta → (PROTECTED < length meta)%nat ∧ length (protected_of meta) = PROTECTED) as Hlen.
  { intros m Hm%list_elem_of_lookup. destruct Hm as [i Hi%lookup_lt_Some]. unfold protected_of, others_of in *.
    rewrite length_drop in Hi. rewrite length_take. rewrite sort_by_key_perm in *. lia. }
  unfold process_id_to_prune_from_meta. case_bool_decide as Hnil; [subst; cbn; lia|].
  change (take PROTECTED _) with (protected_of meta).
  pose proof (sort_by_key_perm meta_used meta) as Hlru. pose proof (sort_by_key_sorted meta_used meta) as Hsorted.
  set (lru := sort_by_key meta_used meta) in *.
  assert (∀ m, m ∈ lru → meta_id m ∉@{gset str} list_to_set (map meta_id (protected_of meta)) ↔ m ∈ others_of meta) as Hun.
  { intros m Hm. rewrite Hlru in Hm. by apply unprotected. }
  assert (∀ o, o ∈ others_of meta → o ∈ lru) as Hin.
  { intros o Ho. rewrite Hlru, <-Hperm. apply elem_of_app. by right. }
  destruct (list_find _ lru) as [[i m]|] eqn:Hfind.
  - apply (list_find_least meta_used) in Hfind as (Hm & [Hp Hex] & Hleast); [|done]. apply Hun in Hp; [|done].
    destruct (Hlen m Hp). split; [done|]. exists (protected_of meta), (others_of meta), m. split_and!; try done.
    + by apply protected_recent.
    + intros o Ho Hox. split; [done|]. apply Hleast; [by apply Hin|]. split; [by apply Hun; [apply Hin|]|done].
    + by rewrite Hex.
  - rewrite list_find_None in Hfind. rewrite Forall_forall in Hfind.
    destruct (list_find (λ m, meta_id m ∉ _) lru) as [[i m]|] eqn:Hfind2; cbn.
    + apply (list_find_least meta_used) in Hfind2 as (Hm & Hp & Hleast); [|done]. apply Hun in Hp; [|done].
      destruct (Hlen m Hp). split; [done|]. exists (protected_of meta), (others_of meta), m. split_and!; try done.
      * by apply protected_recent.
      * intros o Ho Hox. destruct (Hfind o); [by apply Hin|]. split; [by apply Hun; [apply Hin|]|done].
      * intros _ o Ho. apply Hleast; [by apply Hin|]. by apply Hun; [apply Hin|].
    + rewrite list_find_None, Forall_forall in Hfind2.
      destruct (others_of meta) as [|o os] eqn:Ho.
      * apply (f_equal length) in Ho. unfold others_of in Ho. rewrite length_drop, sort_by_key_perm in Ho. cbn in Ho. lia.
      * destruct (Hfind2 o); [apply Hin; by left|]. apply Hun; [apply Hin|]; by left.
Qed.

(** ** Identifiers and processes in use *)
(** Who has an identifier, and with it possibly a process: an entry of the store, or a call
    in flight. *)
Definition Owner : Type := str + nat.
Definition Claim : Type := str * option nat.
Definition Claims : Type := Owner → option Claim.

Definition ended (p : Process) : Prop := has_exited p = true ∨ is_Some (p_exit_code p).
(** A process that nobody needs to have. *)
Definition gone (m : gmap nat Process) (n : nat) : Prop := ∃ p, m !! n = Some p ∧ (ended p ∨ terminated p = true).

Record good (C : Claims) (reserved : gset str) (m : gmap nat Process) : Prop := {
  good_reserved : ∀ o id x, C o = Some (id, x) → id ∈ reserved;
  good_id : ∀ o o' id x x', C o = Some (id, x) → C o' = Some (id, x') → o = o';
  good_process : ∀ o o' id id' n, C o = Some (id, Some n) → C o' = Some (id', Some n) → o = o';
  good_live : ∀ o id n, C o = Some (id, Some n) → ∃ p, m !! n = Some p ∧ terminated p = false;
  good_owned : ∀ n p, m !! n = Some p → gone m n ∨ ∃ o id, C o = Some (id, Some n);
}.

Definition assign (C : Claims) (o : Owner) (x : option Claim) : Claims :=
  λ o', if decide (o' = o) then x else C o'.
Lemma assign_eq C o x : assign C o x o = x.
Proof. unfold assign. by rewrite decide_True. Qed.
Lemma assign_ne C o o' x : o' ≠ o → assign C o x o' = C o'.
Proof. intros. unfold assign. by rewrite decide_False. Qed.
Lemma assign_Some C o o' x y :
  assign C o x o' = Some y ↔ (o' = o ∧ x = Some y) ∨ (o' ≠ o ∧ C o' = Some y).
Proof. unfold assign. case_decide; naive_solver. Qed.

Lemma good_ext C C' reserved m : (∀ o, C o = C' o) → good C reserved m → good C' reserved m.
Proof.
  intros HC [? ? ? ? Hown]. split; intros *; rewrite <-?HC; eauto.
  intros H. destruct (Hown _ _ H) as [|(o & id & Ho)]; [by left|right]. exists o, id. by rewrite <-HC.
Qed.

Ltac claims :=
  repeat match goal with
  | H : assign _ _ _ _ = Some _ |- _ => apply assign_Some in H as [[? ?]|[? ?]]
  end; simplify_eq.

(** A new identifier. *)
Lemma good_reserve C reserved m o id :
  good C reserved m → C o = None → id ∉ reserved →
  good (assign C o (Some (id, None))) ({[ id ]} ∪ reserved) m.
Proof.
  intros [Hr Hid Hp Hl Ho] Hnone Hfresh. split.
  - intros o' id' x H. claims; [set_solver|]. apply elem_of_union_r. by eapply Hr.
  - intros o1 o2 id' x x' H1 H2. claims; try done; [| |by eapply Hid]; destruct Hfresh; by eapply Hr.
  - intros o1 o2 id1 id2 n H1 H2. claims. by eapply Hp.
  - intros o' id' n H. claims. by eapply Hl.
  - intros n p Hn. destruct (Ho n p Hn) as [?|(o' & id' & Ho')]; [by left|]. right. exists o', id'.
    rewrite assign_ne; [done|]. intros ->. congruence.
Qed.

(** A claim is given up; its process has ended, if it has one. *)
Lemma good_release C reserved m o id x :
  good C reserved m → C o = Some (id, x) → (∀ n, x = Some n → gone m n) →
  good (assign C o None) (reserved ∖ {[ id ]}) m.
Proof.
  intros [Hr Hid Hp Hl Ho] Hx Hgone. split.
  - intros o' id' x' H. claims. apply elem_of_difference. split; [by eapply Hr|].
    intros ->%elem_of_singleton. by eapply Hid in H0.
  - intros o1 o2 id' x1 x2 H1 H2. claims. by eapply Hid.
  - intros o1 o2 id1 id2 n H1 H2. claims. by eapply Hp.
  - intros o' id' n H. claims. by eapply Hl.
  - intros n p Hn. destruct (Ho n p Hn) as [?|(o' & id' & Ho')]; [by left|].
    destruct (decide (o' = o)) as [->|Hne]; [left; simplify_eq; by apply Hgone|].
    right. exists o', id'. by rewrite assign_ne.
Qed.

(** A process is started for an identifier. *)
Lemma good_open C reserved m o id n p :
  good C reserved m → C o = Some (id, None) → m !! n = None → terminated p = false →
  good (assign C o (Some (id, Some n))) reserved (<[n := p]> m).
Proof.
  intros [Hr Hid Hp Hl Ho] Hx Hn Hlive.
  assert (∀ o' id', C o' = Some (id', Some n) → False) as Hnew.
  { intros o' id' H. destruct (Hl _ _ _ H) as (? & ? & _). congruence. }
  split.
  - intros o' id' x H. claims; by eapply Hr.
  - intros o1 o2 id' x1 x2 H1 H2. claims; try done; by eapply Hid.
  - intros o1 o2 id1 id2 n' H1 H2. claims; try done; [exfalso; by eapply Hnew..|by eapply Hp].
  - intros o' id' n' H. claims; [exists p; by rewrite lookup_insert_eq|].
    destruct (Hl _ _ _ H0) as (p' & Hp' & ?). exists p'. rewrite lookup_insert_ne; [done|]. by intros <-; eapply Hnew.
  - intros n' p' [[<- <-]|[Hne Hn']]%lookup_insert_Some; [right; exists o, id; by rewrite assign_eq|].
    destruct (Ho n' p' Hn') as [(q & Hq & ?)|(o' & id' & Ho')].
    + left. exists q. by rewrite lookup_insert_ne.
    + right. exists o', id'. rewrite assign_ne; [done|]. intros ->. congruence.
Qed.

Ltac absurd_eq H :=
  match goal with Hne : ?a ≠ ?b |- False => apply Hne; by eapply H end.

(** A claim changes hands. *)
Lemma good_move C reserved m o o' c :
  good C reserved m → C o = Some c → C o' = None → good (assign (assign C o None) o' (Some c)) reserved m.
Proof.
  intros [Hr Hid Hp Hl Ho] Hc Hn. split.
  - intros o1 id x H. claims; by eapply Hr.
  - intros o1 o2 id x1 x2 H1 H2. claims; try done; first [by eapply Hid|exfalso; absurd_eq Hid].
  - intros o1 o2 id1 id2 n H1 H2. claims; try done; first [by eapply Hp|exfalso; absurd_eq Hp].
  - intros o1 id n H. claims; by eapply Hl.
  - intros n p Hnp. destruct (Ho n p Hnp) as [?|(o1 & id & H1)]; [by left|]. right.
    destruct (decide (o1 = o)) as [->|Hne].
    + exists o', id. rewrite assign_eq. congruence.
    + exists o1, id. rewrite !assign_ne; [done|done|]. intros ->. congruence.
Qed.

(** The processes go on: what has ended stays so, and none is killed. *)
Definition evolves (p p' : Process) : Prop :=
  (ended p → ended p') ∧ terminated p' = terminated p.
Lemma good_evolve C reserved m n p p' :
  good C reserved m → m !! n = Some p → evolves p p' → good C reserved (<[n := p']> m).
Proof.
  intros [Hr Hid Hp Hl Ho] Hn [He Ht]. split; [done|done|done| |].
  - intros o id n' H. destruct (Hl _ _ _ H) as (q & Hq & Hqt). destruct (decide (n' = n)) as [->|].
    + exists p'. rewrite lookup_insert_eq. simplify_eq. by rewrite Ht.
    + exists q. by rewrite lookup_insert_ne.
  - intros n' q Hq. apply lookup_insert_Some in Hq as [[<- <-]|[Hne Hq]].
    + destruct (Ho n p Hn) as [(q & Hq & Hend)|?]; [left|by right]. simplify_eq.
      exists p'. rewrite lookup_insert_eq, Ht. split; [done|]. destruct Hend; auto.
    + destruct (Ho n' q Hq) as [(r & Hr' & ?)|?]; [left|by right]. exists r. by rewrite lookup_insert_ne.
Qed.

(** A process is closed from here. *)
Lemma good_kill C reserved m o id n :
  good C reserved m → C o = Some (id, Some n) → good (assign C o None) (reserved ∖ {[ id ]}) (alter kill n m).
Proof.
  intros [Hr Hid Hp Hl Ho] Hx. destruct (Hl _ _ _ Hx) as (p0 & Hp0 & _). split.
  - intros o' id' x' H. claims. apply elem_of_difference. split; [by eapply Hr|].
    intros ->%elem_of_singleton. by eapply Hid in H0.
  - intros o1 o2 id' x1 x2 H1 H2. claims. by eapply Hid.
  - intros o1 o2 id1 id2 n' H1 H2. claims. by eapply Hp.
  - intros o' id' n' H. claims. rewrite lookup_alter_ne; [by eapply Hl|]. intros <-. naive_solver.
  - intros n' p Hn. destruct (decide (n' = n)) as [->|Hne].
    + left. exists (kill p0). rewrite lookup_alter_eq, Hp0. split; [done|]. by right.
    + rewrite lookup_alter_ne in Hn by done. destruct (Ho n' p Hn) as [(q & Hq & ?)|(o' & id' & Ho')].
      * left. exists q. by rewrite lookup_alter_ne.
      * right. exists o', id'. rewrite assign_ne; [done|]. intros ->. congruence.
Qed.

(** ** Making room *)
Definition env_ok (e : Env) (w : World) : Prop :=
  (∀ l, order e l ≡ₚ l) ∧ (∀ p, opened e = Ok p → terminated p = false).
(** Every entry is under its own identifier, and there are not too many. *)
Record basic (w : World) : Prop := {
  basic_size : (size (processes w) ≤ MAX_UNIFIED_EXEC_PROCESSES)%nat;
  basic_key : ∀ id entry, processes w !! id = Some entry → process_id entry = id;
}.

Definition open_metas (e : Env) (w : World) : list Meta := meta_of w (order e (map_to_list (processes w))).
Lemma open_metas_ids e w : (∀ l, order e l ≡ₚ l) → map meta_id (open_metas e w) ≡ₚ (map_to_list (processes w)).*1.
Proof. intros Ho. unfold open_metas, meta_of. rewrite map_map. by rewrite Ho. Qed.
Lemma open_metas_nodup e w : (∀ l, order e l ≡ₚ l) → NoDup (map meta_id (open_metas e w)).
Proof. intros Ho. rewrite open_metas_ids by done. apply NoDup_fst_map_to_list. Qed.
Lemma open_metas_length e w : (∀ l, order e l ≡ₚ l) → length (open_metas e w) = size (processes w).
Proof. intros Ho. unfold open_metas, meta_of. by rewrite length_map, Ho, length_map_to_list. Qed.
Lemma open_metas_elem e w m : (∀ l, order e l ≡ₚ l) → m ∈ open_metas e w → is_Some (processes w !! meta_id m).
Proof.
  intros Ho Hm. apply (list_elem_of_fmap_2 meta_id) in Hm. change (meta_id <$> _) with (map meta_id (open_metas e w)) in Hm.
  rewrite open_metas_ids in Hm by done. apply list_elem_of_fmap in Hm as ([id entry] & -> & Hin).
  apply elem_of_map_to_list in Hin. by exists entry.
Qed.

(** What makes room, and why that one. *)
Definition makes_room (e : Env) (w : World) (m : Meta) (entry : ProcessEntry) : Prop :=
  processes w !! meta_id m = Some entry ∧
  ∃ protected others,
    protected ++ others ≡ₚ open_metas e w ∧ length protected = PROTECTED ∧ m ∈ others ∧
    (∀ p o, p ∈ protected → o ∈ others → meta_used o ≤ meta_used p) ∧
    (∀ o, o ∈ others → meta_exited o = true → meta_exited m = true ∧ meta_used m ≤ meta_used o) ∧
    (meta_exited m = false → ∀ o, o ∈ others → meta_used m ≤ meta_used o).

Lemma prune_effect e w :
  (∀ l, order e l ≡ₚ l) →
  if decide (size (processes w) < MAX_UNIFIED_EXEC_PROCESSES)%nat then prune_processes_if_needed e w = w
  else ∃ m entry, makes_room e w m entry ∧
    prune_processes_if_needed e w = terminate (process entry) (remove (meta_id m) w).
Proof.
  intros Ho. unfold prune_processes_if_needed. case_decide as Hsize.
  - by rewrite (proj2 (Nat.ltb_lt _ _)).
  - rewrite (proj2 (Nat.ltb_ge _ _)) by lia. fold (open_metas e w).
    pose proof (prune_picks (open_metas e w) (open_metas_nodup e w Ho)) as Hpick.
    destruct (process_id_to_prune_from_meta _) as [id|].
    + destruct Hpick as (_ & protected & others & m & Hperm & Hlen & Hm & <- & Hrest).
      destruct (open_metas_elem e w m Ho) as [entry Hentry]; [rewrite <-Hperm; by apply elem_of_app; right|].
      exists m, entry. rewrite Hentry. split; [|done]. split; [done|]. by exists protected, others.
    + rewrite open_metas_length in Hpick by done. unfold PROTECTED, MAX_UNIFIED_EXEC_PROCESSES in *. lia.
Qed.

Lemma prune_size e w :
  (∀ l, order e l ≡ₚ l) → (size (processes w) ≤ MAX_UNIFIED_EXEC_PROCESSES)%nat →
  (size (processes (prune_processes_if_needed e w)) < MAX_UNIFIED_EXEC_PROCESSES)%nat.
Proof.
  intros Ho Hsize. pose proof (prune_effect e w Ho) as Hp. case_decide; [by rewrite Hp|].
  destruct Hp as (m & entry & [Hentry _] & ->). cbn. rewrite map_size_delete_Some by done.
  unfold MAX_UNIFIED_EXEC_PROCESSES in *. lia.
Qed.

(** Room for a new process: a process that is stored is in the store afterwards, which
    holds no more than 64.  While fewer were open nothing else changes; else exactly one other
    is taken out and killed, which is not among the eight most recently used; if any of the
    rest has exited, it has, and of the ones that come into question it is the one used least
    recently.  From 60 on the model is warned. *)
Theorem store_makes_room e w entry :
  (∀ l, order e l ≡ₚ l) → (size (processes w) ≤ MAX_UNIFIED_EXEC_PROCESSES)%nat →
  processes w !! process_id entry = None →
  let w' := (run_alone e (store_process entry) w).1 in
  processes w' !! process_id entry = Some entry ∧ (size (processes w') ≤ MAX_UNIFIED_EXEC_PROCESSES)%nat ∧
  (if decide (size (processes w) < MAX_UNIFIED_EXEC_PROCESSES)%nat
   then processes w' = <[process_id entry := entry]> (processes w) ∧ started w' = started w
   else ∃ m victim, makes_room e w m victim ∧
     processes w' = <[process_id entry := entry]> (delete (meta_id m) (processes w)) ∧
     started w' = alter kill (process victim) (started w)) ∧
  model_warnings w' = model_warnings w ++
    (if decide (WARNING_UNIFIED_EXEC_PROCESSES ≤ size (processes w'))%nat then [size (processes w')] else []).
Proof.
  intros Ho Hsize Hnew w'. pose proof (prune_size e w Ho Hsize) as Hroom. pose proof (prune_effect e w Ho) as Hp.
  set (w1 := insert_entry entry (prune_processes_if_needed e w)).
  assert (processes w' = processes w1 ∧ started w' = started w1 ∧ model_warnings w' = model_warnings w1 ++
    (if decide (WARNING_UNIFIED_EXEC_PROCESSES ≤ size (processes w1))%nat then [size (processes w1)] else []))
    as (-> & -> & ->).
  { subst w'. unfold store_process, record_model_warning. autorewrite with alone. cbn [fst snd]. fold w1.
    destruct (Nat.leb_spec WARNING_UNIFIED_EXEC_PROCESSES (size (processes w1))).
    - rewrite decide_True by done. autorewrite with alone. done.
    - rewrite decide_False by lia. cbn. by rewrite app_nil_r. }
  subst w1. unfold insert_entry. cbn [processes started model_warnings set_store].
  assert (processes (prune_processes_if_needed e w) !! process_id entry = None ∧
          model_warnings (prune_processes_if_needed e w) = model_warnings w) as [Hnone ->].
  { case_decide; [by rewrite Hp|]. destruct Hp as (m & victim & _ & ->). cbn. by rewrite lookup_delete_None; eauto. }
  split_and!; [by rewrite lookup_insert_eq|by rewrite map_size_insert_None; [lia|]| |done].
  case_decide; [by rewrite Hp|]. destruct Hp as (m & victim & Hm & ->). by exists m, victim.
Qed.

(** ** Calls side by side *)
(** What a call holds: nothing, an identifier, a process, a process known to have ended. *)
Inductive Hold := HNothing | HReserved (id : str) | HRunning (id : str) (n : nat) | HEnded (id : str) (n : nat).
Definition claim_of (h : Hold) : option Claim :=
  match h with
  | HNothing => None
  | HReserved id => Some (id, None)
  | HRunning id n | HEnded id n => Some (id, Some n)
  end.
Definition claims_of (w : World) (hs : gmap nat Hold) : Claims := λ o,
  match o with
  | inl id => (λ entry, (id, Some (process entry))) <$> processes w !! id
  | inr i => hs !! i ≫= claim_of
  end.

Definition knows (w : World) (h : Hold) : Prop :=
  match h with HEnded _ n => ∃ p, started w !! n = Some p ∧ ended p | _ => True end.
(** The invariant; [closing]: whether the store may be cleared meanwhile. *)
Definition inv (closing : bool) (w : World) (hs : gmap nat Hold) : Prop :=
  basic w ∧ map_Forall (λ _ h, knows w h) hs ∧
  (closing = false → good (claims_of w hs) (reserved_process_ids w) (started w)).

(** What an action may do to the world and to what its call holds. *)
Inductive effect (closing : bool) (e : Env) (w : World) (h : Hold) : World → Hold → Prop :=
| ef_same : effect closing e w h w h
| ef_warn n : effect closing e w h
    {| processes := processes w; reserved_process_ids := reserved_process_ids w; started := started w;
       model_warnings := model_warnings w ++ [n] |} h
| ef_reserve id : h = HNothing → id ∉ reserved_process_ids w →
    effect closing e w h (set_store w (processes w) ({[ id ]} ∪ reserved_process_ids w)) (HReserved id)
| ef_release id : h = HReserved id ∨ (∃ n, h = HEnded id n) → effect closing e w h (remove id w) HNothing
| ef_open id n p : h = HReserved id → started w !! n = None → terminated p = false →
    effect closing e w h (set_started w (<[n := p]> (started w))) (HRunning id n)
| ef_evolve n p p' : started w !! n = Some p → evolves p p' →
    effect closing e w h (set_started w (<[n := p']> (started w))) h
| ef_ended id n p : h = HRunning id n → started w !! n = Some p → ended p →
    effect closing e w h w (HEnded id n)
| ef_store entry : h = HRunning (process_id entry) (process entry) →
    effect closing e w h (insert_entry entry (prune_processes_if_needed e w)) HNothing
| ef_touch entry entry' : processes w !! process_id entry = Some entry →
    process_id entry' = process_id entry → process entry' = process entry →
    effect closing e w h
      (set_store w (<[process_id entry := entry']> (processes w)) (reserved_process_ids w)) h
| ef_reap entry p : processes w !! process_id entry = Some entry → started w !! process entry = Some p →
    ended p → effect closing e w h (remove (process_id entry) w) h
| ef_clear : closing = true → effect closing e w h (set_store w ∅ ∅) h
| ef_kill n : closing = true → effect closing e w h (terminate n w) h.

(** *** Effects on the claims *)
Lemma claims_hold w hs i h o : claims_of w (<[i := h]> hs) o = assign (claims_of w hs) (inr i) (claim_of h) o.
Proof.
  unfold assign. destruct o as [id|j]; cbn; [by rewrite decide_False|]. case_decide as Hj.
  - injection Hj as ->. by rewrite lookup_insert_eq.
  - rewrite lookup_insert_ne; [done|]. by intros ->.
Qed.
Lemma claims_world w w' hs o : processes w' = processes w → claims_of w' hs o = claims_of w hs o.
Proof. intros Hp. destruct o; cbn; by rewrite ?Hp. Qed.
Lemma claims_removed id w hs o : claims_of (remove id w) hs o = assign (claims_of w hs) (inl id) None o.
Proof.
  unfold assign. destruct o as [id'|j]; cbn; [|by rewrite decide_False]. case_decide as Hj.
  - injection Hj as ->. by rewrite lookup_delete_eq.
  - rewrite lookup_delete_ne; [done|]. by intros ->.
Qed.
Lemma claims_inserted entry w hs o :
  claims_of (insert_entry entry w) hs o =
  assign (claims_of w hs) (inl (process_id entry)) (Some (process_id entry, Some (process entry))) o.
Proof.
  unfold assign. destruct o as [id'|j]; cbn; [|by rewrite decide_False]. case_decide as Hj.
  - injection Hj as ->. by rewrite lookup_insert_eq.
  - rewrite lookup_insert_ne; [done|]. by intros <-.
Qed.

(** The identifier of a call is no entry's. *)
Lemma call_id_free w hs i h id x reserved m :
  good (claims_of w hs) reserved m → hs !! i = Some h → claim_of h = Some (id, x) → processes w !! id = None.
Proof.
  intros Hg Hi Hh. destruct (processes w !! id) as [entry|] eqn:He; [|done]. exfalso.
  assert (inl id = inr i :> Owner) by (eapply (good_id _ _ _ Hg); cbn; [by rewrite He|by rewrite Hi]). done.
Qed.

Lemma prune_good e w hs :
  (∀ l, order e l ≡ₚ l) → good (claims_of w hs) (reserved_process_ids w) (started w) →
  let w' := prune_processes_if_needed e w in
  good (claims_of w' hs) (reserved_process_ids w') (started w').
Proof.
  intros Ho Hg w'. subst w'. pose proof (prune_effect e w Ho) as Hp. case_decide; [by rewrite Hp|].
  destruct Hp as (m & entry & [Hentry _] & ->). cbn [reserved_process_ids started terminate set_started remove set_store].
  eapply good_ext, (good_kill _ _ _ (inl (meta_id m))); [|done|cbn; by rewrite Hentry].
  intros o. etrans; [symmetry; apply claims_removed|]. symmetry. by apply claims_world.
Qed.

Lemma store_good e w hs i entry :
  (∀ l, order e l ≡ₚ l) → good (claims_of w hs) (reserved_process_ids w) (started w) →
  hs !! i = Some (HRunning (process_id entry) (process entry)) →
  let w' := insert_entry entry (prune_processes_if_needed e w) in
  good (claims_of w' (<[i := HNothing]> hs)) (reserved_process_ids w') (started w').
Proof.
  intros Ho Hg Hi w'. subst w'.
  pose proof (call_id_free _ _ _ _ _ _ _ _ Hg Hi eq_refl) as Hfree. pose proof (prune_good e w hs Ho Hg) as Hg1.
  assert (processes (prune_processes_if_needed e w) !! process_id entry = None) as Hfree1.
  { pose proof (prune_effect e w Ho) as Hp. case_decide; [by rewrite Hp|].
    destruct Hp as (m & victim & _ & ->). cbn. apply lookup_delete_None. by right. }
  cbn [insert_entry reserved_process_ids started set_store].
  eapply good_ext, (good_move _ _ _ (inr i) (inl (process_id entry))); [|exact Hg1|cbn; by rewrite Hi|cbn; by rewrite Hfree1].
  intros o. rewrite claims_hold. unfold assign at 3.
  case_decide as Hoi; [by rewrite assign_ne, Hoi, assign_eq by (by rewrite Hoi)|].
  rewrite claims_inserted. unfold assign. by repeat case_decide.
Qed.

Lemma effect_good closing e w hs i h w' h' :
  closing = false → env_ok e w → good (claims_of w hs) (reserved_process_ids w) (started w) →
  hs !! i = Some h → knows w h → effect closing e w h w' h' →
  good (claims_of w' (<[i := h']> hs)) (reserved_process_ids w') (started w').
Proof.
  intros Hc [Ho _] Hg Hi Hk He.
  assert (claims_of w hs (inr i) = claim_of h) as Hclaim by (cbn; by rewrite Hi).
  assert (∀ w1 h1, processes w1 = processes w → claim_of h1 = claim_of h →
    ∀ o, claims_of w hs o = claims_of w1 (<[i := h1]> hs) o) as Hsame.
  { intros w1 h1 Hp Hh o. rewrite claims_hold. unfold assign.
    case_decide as Hoi; [by rewrite Hoi, Hclaim, Hh|]. by rewrite (claims_world w w1). }
  destruct He as [|n|id -> Hfresh|id Hh|id n p -> Hn Hp|n p p' Hn Hev|id n p -> Hn He|entry ->|entry entry' He Hid Hpr
    |entry p He Hn Hend| |n]; try congruence; cbn [reserved_process_ids started set_store set_started remove].
  - eapply good_ext; [by apply Hsame|done].
  - eapply good_ext; [by apply Hsame|done].
  - eapply good_ext; [|by apply good_reserve; [done|exact Hclaim|done]]. intros o. rewrite claims_hold.
    unfold assign. case_decide; [done|]. by apply claims_world.
  - assert (∃ x, claim_of h = Some (id, x) ∧ ∀ n, x = Some n → gone (started w) n) as (x & Hx & Hgone).
    { destruct Hh as [->|[n ->]]; cbn; eexists; split; [done| |done|]; [done|].
      intros ? [= <-]. destruct Hk as (p & Hp & ?). exists p. auto. }
    rewrite Hx in Hclaim. pose proof (call_id_free _ _ _ _ _ _ _ _ Hg Hi Hx) as Hfree.
    eapply good_ext, (good_release _ _ _ (inr i)); [|done..]. intros o. rewrite claims_hold. unfold assign.
    case_decide; [done|]. symmetry. rewrite claims_removed. unfold assign. case_decide as Hoi; [|done].
    rewrite Hoi. cbn. by rewrite Hfree.
  - eapply good_ext; [|by apply good_open; [done|exact Hclaim|..]]. intros o. rewrite claims_hold.
    unfold assign. case_decide; [done|]. by apply claims_world.
  - eapply good_ext; [by apply Hsame|]. by eapply good_evolve.
  - eapply good_ext; [by apply Hsame|done].
  - by apply store_good.
  - eapply good_ext; [|exact Hg]. intros o. rewrite claims_hold. unfold assign. case_decide as Hoi; [by rewrite Hoi|].
    destruct o as [id|j]; [|done]. cbn. destruct (decide (id = process_id entry)) as [->|].
    + rewrite lookup_insert_eq, He. cbn. by rewrite Hpr.
    + by rewrite lookup_insert_ne.
  - eapply good_ext, (good_release _ _ _ (inl (process_id entry))); [|exact Hg|cbn; by rewrite He|].
    + intros o. rewrite claims_hold. unfold assign at 2. case_decide as Hoi; [by rewrite Hoi, assign_ne|].
      by rewrite claims_removed.
    + intros n [= <-]. exists p. auto.
Qed.

Lemma effect_basic closing e w h w' h' : env_ok e w → basic w → effect closing e w h w' h' → basic w'.
Proof.
  intros [Ho _] [Hsize Hkey]. assert (∀ w2, processes w2 ⊆ processes w → basic w2) as Hsub.
  { intros w2 Hps. split; [pose proof (map_subseteq_size _ _ Hps); lia|]. intros id entry He.
    by apply Hkey, (lookup_weaken _ _ _ _ He). }
  intros [|n|id -> Hfresh|id Hh|id n p -> Hn Hp|n p p' Hn Hev|id n p -> Hn He|entry ->|entry entry' He Hid Hpr
    |entry p He Hn Hend| |n]; try done.
  - apply Hsub. apply delete_subseteq.
  - pose proof (prune_size e w Ho Hsize) as Hroom. pose proof (prune_effect e w Ho) as Hp.
    assert (processes (prune_processes_if_needed e w) ⊆ processes w) as Hps.
    { case_decide; [by rewrite Hp|]. destruct Hp as (m & victim & _ & ->). apply delete_subseteq. }
    split; cbn.
    + rewrite map_size_insert. destruct (processes (prune_processes_if_needed e w) !! _); cbn; lia.
    + intros id entry' [[<- <-]|[_ He]]%lookup_insert_Some; [done|]. by apply Hkey, (lookup_weaken _ _ _ _ He).
  - split; cbn; [by rewrite map_size_insert_Some|].
    intros id entry2 [[<- <-]|[_ He2]]%lookup_insert_Some; [done|by apply Hkey].
  - apply Hsub. apply delete_subseteq.
  - apply Hsub. apply map_empty_subseteq.
Qed.

(** What has ended stays so. *)
Definition grows (m m' : gmap nat Process) : Prop :=
  ∀ n p, m !! n = Some p → ended p → ∃ p', m' !! n = Some p' ∧ ended p'.
Lemma grows_refl m : grows m m.
Proof. intros n p ??. by exists p. Qed.
Lemma grows_kill m n : grows m (alter kill n m).
Proof.
  intros n' p Hp He. destruct (decide (n' = n)) as [->|].
  - exists (kill p). by rewrite lookup_alter_eq, Hp.
  - exists p. by rewrite lookup_alter_ne.
Qed.
Lemma grows_insert m n p' : (∀ p, m !! n = Some p → ended p → ended p') → grows m (<[n := p']> m).
Proof.
  intros H n' p Hp He. destruct (decide (n' = n)) as [->|].
  - exists p'. rewrite lookup_insert_eq. eauto.
  - exists p. by rewrite lookup_insert_ne.
Qed.
#[local] Hint Resolve grows_refl grows_kill : core.

Lemma effect_grows closing e w h w' h' : env_ok e w → effect closing e w h w' h' → grows (started w) (started w').
Proof.
  intros [Ho _] [|n|id -> Hfresh|id Hh|id n p -> Hn Hp|n p p' Hn Hev|id n p -> Hn He|entry ->|entry entry' He Hid Hpr
    |entry p He Hn Hend| |n]; cbn; try by apply grows_refl.
  - apply grows_insert. congruence.
  - apply grows_insert. intros q Hq. simplify_eq. apply Hev.
  - pose proof (prune_effect e w Ho) as Hp. case_decide; [by rewrite Hp|]. destruct Hp as (m & victim & _ & ->).
    apply grows_kill.
  - apply grows_kill.
Qed.
Lemma knows_grows w w' h : grows (started w) (started w') → knows w h → knows w' h.
Proof. destruct h; cbn; try done. intros Hg (p & Hp & He). by eapply Hg. Qed.

Lemma effect_inv closing e w hs i h w' h' :
  env_ok e w → inv closing w hs → hs !! i = Some h → effect closing e w h w' h' → inv closing w' (<[i := h']> hs).
Proof.
  intros Henv (Hb & Hk & Hg) Hi He. pose proof (effect_grows _ _ _ _ _ _ Henv He) as Hgrow.
  pose proof (Hk i h Hi) as Hki. cbn in Hki. split_and!.
  - by eapply effect_basic.
  - apply map_Forall_insert_2.
    + assert (h' = h ∨ (∃ id, h' = HReserved id) ∨ (∃ id n, h' = HRunning id n) ∨ h' = HNothing ∨ knows w' h')
        as [->|[(? & ->)|[(? & ? & ->)|[->|?]]]] by (destruct He; cbn; eauto 10); try done. by eapply knows_grows.
    + eapply map_Forall_impl; [exact Hk|]. intros j hj. by apply knows_grows.
  - intros Hc. by eapply effect_good; eauto.
Qed.

(** *** The programs keep to the effects *)
Section Programs.
Context (from_utf8_lossy : list byte → str) (to_lowercase : str → str) (attempts rounds : nat) (closing : bool).

Definition assume (e : Env) (w : World) (_ : Hold) : Prop := env_ok e w ∧ basic w.
Abbreviation ok := (safe assume (effect closing)).

Lemma read_safe {A} (Q : A → Hold → Prop) (f : Env → World → A) h :
  (∀ e w, Q (f e w) h) → ok Q (atomically (λ e w, (w, f e w))) h.
Proof. intros HQ. apply safe_atomically. intros e w _. exists h. split; [constructor|apply HQ]. Qed.
Lemma look_safe {A} (Q : A → Hold → Prop) n (f : Process → A) otherwise h :
  (∀ x, Q x h) → ok Q (look n f otherwise) h.
Proof. intros HQ. apply read_safe. intros e w. apply HQ. Qed.

(** What is read of a process tells whether it has ended. *)
Lemma look_ended_safe {A} (Q : A → Hold → Prop) (f : Process → A) (sign : A → bool) otherwise id n h :
  (∀ p, sign (f p) = true → ended p) → sign otherwise = false →
  h = HRunning id n ∨ h = HEnded id n →
  (∀ x, (sign x = false → Q x h) ∧ (sign x = true → Q x (HEnded id n))) → ok Q (look n f otherwise) h.
Proof.
  intros Hsign Hno Hh HQ. apply safe_atomically. intros e w _. cbn [fst snd].
  destruct (started w !! n) as [p|] eqn:Hp; [|exists h; split; [constructor|by apply HQ]].
  destruct (sign (f p)) eqn:Hs; [|exists h; split; [constructor|by apply HQ]].
  exists (HEnded id n). split; [|by apply HQ].
  destruct Hh as [->| ->]; [eapply ef_ended; [done|exact Hp|by apply Hsign]|apply ef_same].
Qed.

Lemma release_safe (Q : () → Hold → Prop) id h :
  h = HReserved id ∨ (∃ n, h = HEnded id n) → Q tt HNothing → ok Q (release_process_id id) h.
Proof. intros Hh HQ. apply safe_atomically. intros e w _. exists HNothing. split; [by apply ef_release|done]. Qed.

Lemma allocate_safe (Q : option str → Hold → Prop) :
  Q None HNothing → (∀ id, Q (Some id) (HReserved id)) → ok Q (allocate_process_id attempts) HNothing.
Proof.
  intros HN HS. induction attempts as [|k IH]; cbn [allocate_process_id]; [by apply safe_ret|].
  apply safe_step. intros e w _. cbn zeta. case_bool_decide as Hin; cbn [fst snd].
  - exists HNothing. split; [constructor|done].
  - eexists. split; [by apply ef_reserve|]. by apply safe_ret.
Qed.

Lemma evolves_buffer b p : evolves p (set_buffer b p).
Proof. done. Qed.
Lemma collect_rounds_safe (Q : option (list byte) → Hold → Prop) k n deadline signal collected h :
  (∀ x, Q x h) → ok Q (collect_rounds k n deadline signal collected) h.
Proof.
  intros HQ. revert signal collected. induction k as [|k IH]; intros signal collected; cbn [collect_rounds].
  { by apply safe_ret. }
  apply safe_step. intros e w _. exists h. destruct (started w !! n) as [p|] eqn:Hp; cbn [fst snd].
  - destruct (collect_round _ _ _ _ _) as [[out buffer] [s|]]; cbn [fst snd];
      (split; [by eapply ef_evolve, evolves_buffer|]); [apply IH|by apply safe_ret].
  - split; [constructor|by apply safe_ret].
Qed.
Lemma poll_safe (Q : option (list byte) → Hold → Prop) n deadline h :
  (∀ x, Q x h) → ok Q (collect_output rounds n deadline) h.
Proof. intros HQ. apply safe_bind, read_safe. intros e w. by apply collect_rounds_safe. Qed.

Lemma store_safe (Q : () → Hold → Prop) entry h :
  h = HRunning (process_id entry) (process entry) → Q tt HNothing → ok Q (store_process entry) h.
Proof.
  intros Hh HQ. apply safe_step. intros e w _. exists HNothing. cbn [fst snd]. split; [by apply ef_store|].
  destruct (_ <=? _)%nat; [|by apply safe_ret]. apply safe_atomically. intros e' w' _.
  exists HNothing. split; [apply ef_warn|done].
Qed.

Lemma denial_safe (Q : option UnifiedExecError → Hold → Prop) n text h :
  (∀ x, Q x h) → ok Q (check_for_sandbox_denial_with_text to_lowercase n text) h.
Proof.
  intros HQ. apply safe_bind, look_safe. intros s. apply safe_bind, look_safe. intros x.
  destruct (_ || _); [by apply safe_ret|]. apply safe_bind, look_safe. intros c. by apply safe_ret.
Qed.

(** A call that has ended holds nothing but an identifier. *)
Definition post {A} (r : option A) (h : Hold) : Prop := is_Some r → ∀ id n, claim_of h ≠ Some (id, Some n).
Lemma post_None {A} h : post (None : option A) h.
Proof. by intros [? ?]. Qed.
Lemma post_nothing {A} (r : option A) : post r HNothing.
Proof. by intros ?. Qed.
Hint Resolve post_None post_nothing : core.

Lemma after_first_poll_safe request call_id n start stop collected :
  ok post (after_first_poll from_utf8_lossy to_lowercase request call_id n start stop collected)
    (HRunning (rq_process_id request) n).
Proof.
  set (id := rq_process_id request). unfold after_first_poll. fold id.
  apply safe_bind, (look_ended_safe _ _ (λ c, bool_decide (is_Some c)) _ id n);
    [by intros q Hq%bool_decide_eq_true; right|done|by left|]. intros exit_code.
  split; intros Hcode; (apply safe_bind, (look_ended_safe _ _ (λ b, b) _ id n); [by left|done|auto|]);
    intros exited; (split; intros ->; apply safe_bind, read_safe; intros e _; rewrite Hcode; cbn [orb]).
  1: by apply safe_bind, store_safe; [|apply safe_ret].
  all: apply safe_bind, release_safe; [eauto|]; apply safe_bind, denial_safe; intros d; by apply safe_ret.
Qed.

Lemma exec_command_safe request call_id :
  ok post (exec_command from_utf8_lossy to_lowercase rounds request call_id) (HReserved (rq_process_id request)).
Proof.
  set (id := rq_process_id request). apply safe_step. intros e w [[_ Hopen] _].
  destruct (opened e) as [p|err] eqn:Hp; cbn [fst snd].
  - set (n := fresh _). exists (HRunning id n). split.
    { apply ef_open; [done| |by apply Hopen]. apply not_elem_of_dom, is_fresh. }
    apply safe_bind, read_safe. intros e1 _. apply safe_bind, poll_safe. intros [collected|]; [|by apply safe_ret].
    apply safe_bind, read_safe. intros e2 _. apply after_first_poll_safe.
  - eexists. split; [constructor|]. apply safe_bind, release_safe; [by left|]. by apply safe_ret.
Qed.

Lemma handle_exec_safe command tty yield max perms policy call_id :
  ok post (handle_exec_command from_utf8_lossy to_lowercase attempts rounds command tty yield max perms policy call_id)
    HNothing.
Proof.
  apply safe_bind, allocate_safe; [by apply safe_ret|]. intros id. destruct (_ && _).
  { apply safe_bind, release_safe; [by left|]. by apply safe_ret. }
  apply safe_bind, read_safe. intros e _. destruct (as_patch e) as [[text|]|message]; [| |by apply safe_ret].
  - apply safe_bind, release_safe; [by left|]. by apply safe_ret.
  - apply safe_bind. eapply safe_mono; [|apply exec_command_safe]. intros r h Hr. apply safe_ret.
    intros [end_ Hend]. apply Hr. by destruct r.
Qed.

Lemma prepare_safe (Q : result UnifiedExecError ProcessEntry → Hold → Prop) id h :
  (∀ x, Q x h) → ok Q (prepare_process_handles id) h.
Proof.
  intros HQ. apply safe_atomically. intros e w [_ Hb]. exists h.
  destruct (processes w !! id) as [entry|] eqn:He; [|by split; [constructor|]]. cbn [fst snd]. split; [|done].
  pose proof (basic_key w Hb _ _ He) as <-. by eapply ef_touch.
Qed.
Lemma refresh_safe (Q : ProcessStatus → Hold → Prop) id h :
  (∀ x, Q x h) → ok Q (refresh_process_state id) h.
Proof.
  intros HQ. apply safe_atomically. intros e w [_ Hb]. exists h.
  destruct (processes w !! id) as [entry|] eqn:He; [|by split; [constructor|]].
  pose proof (basic_key w Hb _ _ He) as <-. destruct (started w !! process entry) as [p|] eqn:Hp; [|by split; [constructor|]].
  cbn [mbind option_bind]. destruct (has_exited p) eqn:Hx; cbn [fst snd]; (split; [|done]); [|constructor].
  eapply ef_reap; [done..|by left].
Qed.

Lemma send_safe (Q : bool → Hold → Prop) (c : bool) h :
  (∀ b, Q b h) → ok Q (if c then mret true else atomically (λ e w, (w, accepted e))) h.
Proof. intros HQ. destruct c; [by apply safe_ret|]. by apply read_safe. Qed.

Lemma handle_write_safe session_id chars yield max :
  ok post (handle_write_stdin from_utf8_lossy rounds session_id chars yield max) HNothing.
Proof.
  apply safe_bind, safe_bind, prepare_safe. intros [entry|err]; [|by do 2 apply safe_ret].
  cbn zeta. destruct (_ && _); [by do 2 apply safe_ret|]. apply safe_bind, send_safe. intros [|]; [|by do 2 apply safe_ret].
  apply safe_bind, read_safe. intros e1 _. apply safe_bind, poll_safe. intros [collected|]; [|by do 2 apply safe_ret].
  apply safe_bind, read_safe. intros e2 _. apply safe_bind, read_safe. intros e3 _.
  apply safe_bind, refresh_safe. intros status. by do 2 apply safe_ret.
Qed.

Lemma handle_terminate_safe : closing = true → ok post handle_terminate_all HNothing.
Proof.
  intros Hc. apply safe_bind, safe_step. intros e w _. exists HNothing. cbn [fst snd]. split; [by apply ef_clear|].
  generalize (map (λ ie, process ie.2) (order e (map_to_list (processes w)))). intros ns.
  induction ns as [|n ns IH]; cbn [terminate_each]; [by do 2 apply safe_ret|].
  apply safe_step. intros e' w' _. exists HNothing. split; [by apply ef_kill|done].
Qed.
End Programs.

Section Pool.
Context (from_utf8_lossy : list byte → str) (to_lowercase : str → str).

(** The calls that the model may make, each followed for any number of attempts and rounds. *)
Inductive call : prog World Env (option CallEnd) → Prop :=
| call_exec attempts rounds command tty yield max perms policy call_id :
    call (handle_exec_command from_utf8_lossy to_lowercase attempts rounds command tty yield max perms policy call_id)
| call_write rounds session_id chars yield max :
    call (handle_write_stdin from_utf8_lossy rounds session_id chars yield max).
(** ... and the end of a task, which closes everything. *)
Inductive call_or_close : prog World Env (option CallEnd) → Prop :=
| call_other p : call p → call_or_close p
| call_close : call_or_close handle_terminate_all.

(** Beside the calls, processes write and end. *)
Definition disturb (w w' : World) : Prop :=
  ∃ n p p', started w !! n = Some p ∧ evolves p p' ∧ w' = set_started w (<[n := p']> (started w)).

Lemma disturb_inv closing w hs w' : inv closing w hs → disturb w w' → inv closing w' hs.
Proof.
  intros (Hb & Hk & Hg) (n & p & p' & Hn & Hev & ->). split_and!; [by destruct Hb; split| |].
  - eapply map_Forall_impl; [exact Hk|]. intros i h. apply knows_grows. apply grows_insert.
    intros q Hq. simplify_eq. apply Hev.
  - intros Hc. eapply good_ext; [|by eapply good_evolve; eauto]. intros o. symmetry. by apply claims_world.
Qed.

Lemma spawn_inv closing w hs i : inv closing w hs → hs !! i = None → inv closing w (<[i := HNothing]> hs).
Proof.
  intros (Hb & Hk & Hg) Hi. split_and!; [done|by apply map_Forall_insert_2|]. intros Hc.
  eapply good_ext; [|by apply Hg]. intros o. rewrite claims_hold. unfold assign. case_decide as Ho; [|done].
  rewrite Ho. cbn. by rewrite Hi.
Qed.

Lemma inv_new closing : inv closing world_new ∅.
Proof.
  split_and!; [split; [cbn [processes world_new]; rewrite map_size_empty; lia|done]|apply map_Forall_empty|]. intros _. split; try done; by intros [?|?].
Qed.

Lemma calls_inv closing c :
  pool_reachable env_ok (if closing : bool then call_or_close else call) disturb world_new c →
  pool_inv assume (effect closing) (inv closing) post c.
Proof.
  intros Hr. eapply (pool_invariant _ _ _ _ _ _ HNothing post); [..|apply inv_new|exact Hr].
  - intros w hs i h e (Hb & _) _ He. by split.
  - intros. by eapply effect_inv.
  - intros w hs i p Hinv Hi Hp. split; [by apply spawn_inv|].
    assert (call p ∨ (closing = true ∧ p = handle_terminate_all)) as [Hcall|[Hc ->]]
      by (destruct closing; [destruct Hp|]; auto); [|by apply handle_terminate_safe].
    destruct Hcall; [apply handle_exec_safe|apply handle_write_safe].
  - intros. by eapply disturb_inv.
Qed.

(** C17. The open processes of a session, under all interleavings of calls of the two tools,
    while processes write and end at any time: no more than 64 are in the store, each under
    its own identifier, which is reserved; no process is there twice and none that was killed;
    and no process is lost: once no call is in flight, every one that was started has ended,
    was killed to make room, or is in the store, where it can be polled. *)
Theorem open_processes c :
  pool_reachable env_ok call disturb world_new c →
  let w := world c in
  (size (processes w) ≤ MAX_UNIFIED_EXEC_PROCESSES)%nat ∧
  (∀ id entry, processes w !! id = Some entry → process_id entry = id ∧ id ∈ reserved_process_ids w ∧
     ∃ p, started w !! process entry = Some p ∧ terminated p = false) ∧
  (∀ id id' entry entry', processes w !! id = Some entry → processes w !! id' = Some entry' →
     process entry = process entry' → id = id') ∧
  ((∀ i p, threads c !! i = Some p → ∃ r, p = Done (Some r)) →
   ∀ n p, started w !! n = Some p → ended p ∨ terminated p = true ∨
     ∃ id entry, processes w !! id = Some entry ∧ process entry = n).
Proof.
  intros Hr w. destruct (calls_inv false c Hr) as (hs & (Hb & _ & Hg) & Hdom & Hsafe). specialize (Hg eq_refl).
  fold w in Hb, Hg. split_and!.
  - apply Hb.
  - intros id entry He. assert (claims_of w hs (inl id) = Some (id, Some (process entry))) as Hc by (cbn; by rewrite He).
    split_and!; [by apply Hb|by eapply (good_reserved _ _ _ Hg)|by eapply (good_live _ _ _ Hg)].
  - intros id id' entry entry' He He' Hp.
    assert (inl id = inl id' :> Owner) as Ho; [|congruence].
    eapply (good_process _ _ _ Hg); cbn; [by rewrite He|by rewrite He', Hp].
  - intros Hdone n p Hn. destruct (good_owned _ _ _ Hg n p Hn) as [(q & Hq & [?|?])|([id|i] & id' & Hc)];
      [simplify_eq; auto..| |].
    + cbn in Hc. destruct (processes w !! id) as [entry|] eqn:He; [|done]. cbn in Hc. simplify_eq. eauto 10.
    + cbn in Hc. destruct (hs !! i) as [h|] eqn:Hh; [|done]. cbn in Hc. exfalso.
      assert (is_Some (threads c !! i)) as [t Ht] by (apply elem_of_dom; rewrite <-Hdom; by apply elem_of_dom).
      destruct (Hsafe i t Ht) as (h' & Hh' & Hs). destruct (Hdone i t Ht) as [r ->]. cbn in Hs. simplify_eq.
      by eapply Hs.
Qed.

(** With the end of a task among them, what is left is the bound. *)
Lemma processes_bounded c :
  pool_reachable env_ok call_or_close disturb world_new c →
  (size (processes (world c)) ≤ MAX_UNIFIED_EXEC_PROCESSES)%nat ∧
  ∀ id entry, processes (world c) !! id = Some entry → process_id entry = id.
Proof. intros Hr. destruct (calls_inv true c Hr) as (hs & ([? ?] & _) & _). done. Qed.
End Pool.

(** ** Runs *)
Lemma run_all_ok start disturb (c c' : pool World Env (option CallEnd)) schedule :
  Forall (λ ie, ∀ w, env_ok ie.2 w) schedule → run_all (λ _ _, true) schedule c = Some c' →
  rtc (pool_step env_ok start disturb) c c'.
Proof.
  intros He. revert c. induction He as [|[i e] rest Hok _ IH]; intros c; cbn.
  - by intros [= ->].
  - intros (c1 & H1 & H2)%bind_Some. eapply rtc_l; [|by apply IH]. by eapply (step_run _ _ _ _ i e).
Qed.

Definition demo_process : Process :=
  {| has_exited := false; p_exit_code := None; terminated := false; output_buffer := HeadTail.default;
     sandbox_type := SandboxNone |}.
Definition demo_env : Env :=
  {| draw := 1234; clock := 0; opened := Ok demo_process; order := λ l, l;
     round := {| arrived := [[x61]]; now := 300; cancelled := false; wake := Elapsed |};
     digits := [1; 2; 3; 4; 5; 10]%nat; accepted := true; as_patch := Ok None |}.
Lemma demo_env_ok w : env_ok demo_env w.
Proof. split; [done|]. by intros p [= <-]. Qed.
Lemma demo_schedule_ok (l : list nat) : Forall (λ ie, ∀ w, env_ok ie.2 w) (map (λ i, (i, demo_env)) l).
Proof. apply Forall_map, Forall_true. intros i w. apply demo_env_ok. Qed.

Definition demo_call : prog World Env (option CallEnd) :=
  handle_exec_command (λ l, Byte.to_N <$> l) (λ s, s) 3 3 [§"top"] true 0 None UseDefault OnRequest §"c".
Lemma demo_call_ok : call (λ l, Byte.to_N <$> l) (λ s, s) demo_call.
Proof. constructor. Qed.
Definition demo_run : option (pool World Env (option CallEnd)) :=
  run_all (λ _ _, true) (map (λ i, (i, demo_env)) (replicate 11 0%nat)) (start_all world_new [demo_call]).

(** The process of a call that has ended is in the store. *)
Lemma open_processes_witness :
  ∃ c, demo_run = Some c ∧ ∃ id entry, processes (world c) !! id = Some entry ∧ process entry = 0%nat.
Proof.
  destruct demo_run as [c|] eqn:Hrun; [|by vm_compute in Hrun]. exists c. split; [done|].
  assert (pool_reachable env_ok (call (λ l, Byte.to_N <$> l) (λ s, s)) disturb world_new c) as Hreach.
  { unfold pool_reachable. etrans; [apply start_all_reachable; constructor; [apply demo_call_ok|constructor]|].
    eapply run_all_ok; [apply demo_schedule_ok|exact Hrun]. }
  pose proof (open_processes _ _ c Hreach) as (_ & _ & _ & Hkept).
  vm_compute in Hrun. injection Hrun as <-.
  assert (∀ b, ¬ ended (set_buffer b demo_process)) as Halive by by intros b [?|[? ?]].
  match goal with H : (∀ i p, threads ?c !! i = Some p → _) → _ |- _ =>
    assert (∃ r, map_to_list (threads c) = [(0%nat, Done (Some r))]) as [r Hr] by (eexists; reflexivity) end.
  destruct (λ H, Hkept H 0%nat _ eq_refl) as [H|[H|H]]; [|by destruct (Halive _ H)|discriminate H|exact H].
  intros i p Hi%elem_of_map_to_list. rewrite Hr in Hi. apply list_elem_of_singleton in Hi as [= -> ->]. by exists r.
Defined.

(** A store that is full: 64 processes, the tenth of which has exited. *)
Definition demo_entry (i : nat) : ProcessEntry :=
  {| process := i; call_id := []; process_id := show_uint (1000 + Z.of_nat i); command := []; tty := false;
     last_used := Z.of_nat i |}.
Definition demo_started (i : nat) : Process :=
  {| has_exited := (i =? 9)%nat; p_exit_code := if (i =? 9)%nat then Some 0 else None; terminated := false;
     output_buffer := HeadTail.default; sandbox_type := SandboxNone |}.
Definition demo_full : World :=
  {| processes := list_to_map (map (λ i, (process_id (demo_entry i), demo_entry i)) (seq 0 64));
     reserved_process_ids := list_to_set (map (λ i, process_id (demo_entry i)) (seq 0 65));
     started := list_to_map (map (λ i, (i, demo_started i)) (seq 0 65)); model_warnings := [] |}.

Lemma store_makes_room_witness :
  let w' := (run_alone demo_env (store_process (demo_entry 64)) demo_full).1 in
  (size (processes w') ≤ 64)%nat ∧ processes w' !! §"1064" = Some (demo_entry 64) ∧
  processes w' !! §"1009" = None ∧ model_warnings w' = [64%nat].
Proof.
  destruct (store_makes_room demo_env demo_full (demo_entry 64)) as (Hin & Hsize & _ & _);
    [done|apply Nat.leb_le; by vm_compute|by vm_compute|].
  split_and!; [exact Hsize|exact Hin|by vm_compute|by vm_compute].
Defined.

(** *** Examples *)
(** A patch that cannot be applied leaves its call's identifier reserved for good. *)
Definition demo_patch_env : Env :=
  {| draw := 1234; clock := 0; opened := opened demo_env; order := λ l, l; round := round demo_env;
     digits := []; accepted := true; as_patch := Err §"cannot be applied" |}.
Example identifier_leaks :
  let '(w, r) := run_alone demo_patch_env demo_call world_new in
  r = Some (PatchFailed §"cannot be applied") ∧ processes w = ∅ ∧ elements (reserved_process_ids w) = [§"1234"].
Proof. vm_compute. by split_and!. Qed.

(** When everything is closed while a call is opening its process, the identifier of the call
    can be drawn again: one process takes the place of the other, which runs on and can no
    longer be reached. *)
Example process_lost :
  let calls := start_all world_new [demo_call; demo_call; handle_terminate_all] in
  let schedule := replicate 6 0%nat ++ [2%nat] ++ replicate 11 1%nat ++ replicate 5 0%nat in
  match run_all (λ _ _, true) (map (λ i, (i, demo_env)) schedule) calls with
  | Some c => map process (map_to_list (processes (world c))).*2 = [0%nat] ∧
              (terminated <$> started (world c) !! 1%nat) = Some false ∧
              (has_exited <$> started (world c) !! 1%nat) = Some false
  | None => False
  end.
Proof. vm_compute. by split_and!. Qed.
