(* ===== verification/Runtimes.v ===== *)
(** * From a request to a process
    ([core/src/tools/runtimes/mod.rs], [shell.rs] and [unified_exec.rs]; the command lines
    of [commands/shell.rs] and [commands/powershell.rs]; [open_session_with_sandbox] of
    [unified_exec/process_manager.rs] and [from_spawned] of [process.rs])

    What an attempt of the orchestrator does: the command line is made for the shell of the
    session, put under the sandbox of the attempt ([CommandExec]) and started, by the shell
    tool until it ends, by [exec_command] to stay open ([UnifiedExec]).  This is the
    [execute] that [Tools] and [Orchestrator] leave open.  Processes, and how they answer,
    are parameters. *)
From Stdlib Require Import Strings.Byte.
From S2P Require Import Prelude RustStr Paths ExecPolicy Bash CommandSafety Approval.
From S2P Require Import Orchestrator PatchSafety SessionPolicy Tools HeadTail.
From S2P Require Import CommandExec LinuxSandbox UnifiedExec.
Local Abbreviation default := (from_option id).

(** ** Command lines *)
Record Shell := { shell_type : ShellType; shell_path : str; shell_snapshot : option str }.

Definition derive_exec_args (shell : Shell) (command : str) (use_login_shell : bool) : list str :=
  match shell_type shell with
  | Zsh | Bash | Sh => [shell_path shell; if use_login_shell then §"-lc" else §"-c"; command]
  | PowerShell =>
      [shell_path shell] ++ (if negb use_login_shell then [§"-NoProfile"] else []) ++ [§"-Command"; command]
  | Cmd => [shell_path shell; §"/c"; command]
  end.

Definition POWERSHELL_FLAGS : list str := [§"-nologo"; §"-noprofile"; §"-command"; §"-c"].
(** The loop over the arguments after the shell. *)
Fixpoint powershell_script (args : list str) : option str :=
  match args with
  | flag :: (script :: _) as rest =>
      if negb (one_of (to_ascii_lowercase flag) POWERSHELL_FLAGS) then None
      else if eq_ignore_ascii_case flag §"-Command" || eq_ignore_ascii_case flag §"-c" then Some script
      else powershell_script rest
  | _ => None
  end.
Definition extract_powershell_command (command : list str) : option (str * str) :=
  if (length command <? 3)%nat then None
  else match command with
       | shell :: args =>
           match detect_shell_type shell with
           | Some PowerShell => pair shell <$> powershell_script args
           | _ => None
           end
       | [] => None
       end.

Definition UTF8_OUTPUT_PREFIX : str := §"[Console]::OutputEncoding=[System.Text.Encoding]::UTF8;" ++ [LF].
Definition with_utf8_prefix (script : str) : str :=
  if starts_with (trim_start script) UTF8_OUTPUT_PREFIX then script else UTF8_OUTPUT_PREFIX ++ script.
Definition prefix_powershell_script_with_utf8 (command : list str) : list str :=
  match extract_powershell_command command with
  | None => command
  | Some (_, script) => take (length command - 1) command ++ [with_utf8_prefix script]
  end.

Definition QUOTE : char := 34%N.
Definition sourced (snapshot_path script : str) : str :=
  §". " ++ [QUOTE] ++ snapshot_path ++ [QUOTE] ++ §" && " ++ script.
Definition maybe_wrap_shell_lc_with_snapshot (path_exists : str → bool) (command : list str) (session_shell : Shell)
    : list str :=
  match shell_snapshot session_shell with
  | None => command
  | Some snapshot_path =>
      if negb (path_exists snapshot_path) then command
      else match command with
           | shell :: flag :: script :: rest =>
               if negb (bool_decide (flag = §"-lc")) then command
               else shell :: §"-c" :: sourced snapshot_path script :: rest
           | _ => command
           end
  end.

(** What the runtimes make of the command of a request. *)
Definition prepare_command (path_exists : str → bool) (session_shell : Shell) (powershell_utf8 : bool)
    (command : list str) : list str :=
  let command := maybe_wrap_shell_lc_with_snapshot path_exists command session_shell in
  match shell_type session_shell with
  | PowerShell => if powershell_utf8 then prefix_powershell_script_with_utf8 command else command
  | _ => command
  end.

Definition build_command_spec (command : list str) (cwd : str) (env : gmap str str) (expiration : ExecExpiration)
    : result ToolError CommandSpec :=
  match command with
  | [] => Err (Rejected §"command args are empty")
  | program :: args =>
      Ok {| program := program; spec_args := args; spec_cwd := cwd; spec_env := env; spec_expiration := expiration |}
  end.

(** ** The attempts *)
(** What an attempt has of the session and the turn; [path_exists]: of the system. *)
Record SandboxAttempt := {
  at_shell : Shell;
  at_powershell_utf8 : bool;
  at_path_exists : str → bool;
  at_policy : SandboxPolicy;
  at_sandbox_cwd : str;
  at_linux_sandbox_exe : option str;
}.

Section Runtimes.
Context (policy_to_json : SandboxPolicy → str) (show_error : ExecError → str).

(** [Savfox] errors; only a denial by the sandbox is told apart by the orchestrator. *)
Definition tool_error (err : ExecError) : ToolError :=
  match err with
  | SandboxDeniedErr _ _ _ aggregated => Orchestrator.SandboxDenied aggregated
  | _ => OtherError (show_error err)
  end.
Definition env_for (a : SandboxAttempt) (sandbox : SandboxType) (spec : CommandSpec) : result ToolError ExecEnv :=
  map_err tool_error (transform policy_to_json spec (at_policy a) sandbox (at_sandbox_cwd a) (at_linux_sandbox_exe a)).

Definition attempt_env (no_command : ToolError → ToolError) (a : SandboxAttempt) (command : list str) (cwd : str)
    (env : gmap str str) (expiration : ExecExpiration) (sandbox : SandboxType) : result ToolError ExecEnv :=
  spec ← map_err no_command
           (build_command_spec (prepare_command (at_path_exists a) (at_shell a) (at_powershell_utf8 a) command)
              cwd env expiration);
  env_for a sandbox spec.

(** [ShellRuntime::run]. *)
Definition shell_run (to_lowercase : str → str) (bytes_to_string_smart : list byte → str)
    (spawn : CommandExec.Process → option Child) (a : SandboxAttempt) (req : ShellRequest) (env : gmap str str)
    (timeout_ms : option Z) (stream : bool) (sandbox : SandboxType) : result ToolError ExecToolCallOutput :=
  env ← attempt_env id a (sh_command req) (sh_cwd req) env (expiration_from timeout_ms) sandbox;
  map_err tool_error (execute_exec_env to_lowercase bytes_to_string_smart spawn stream env (at_policy a)).

(** *** [exec_command] *)
Record UnifiedExecRequest := {
  ue_command : list str;
  ue_cwd : str;
  ue_env : gmap str str;
  ue_tty : bool;
  ue_sandbox_permissions : SandboxPermissions;
  ue_justification : option str;
  ue_exec_approval_requirement : ExecApprovalRequirement;
}.
Record UnifiedExecApprovalKey := {
  uk_command : list str; uk_cwd : str; uk_tty : bool; uk_sandbox_permissions : SandboxPermissions }.
Definition unified_approval_keys (req : UnifiedExecRequest) : list UnifiedExecApprovalKey :=
  [{| uk_command := ue_command req; uk_cwd := ue_cwd req; uk_tty := ue_tty req;
      uk_sandbox_permissions := ue_sandbox_permissions req |}].
Definition unified_sandbox_mode (req : UnifiedExecRequest) : SandboxOverride :=
  if requires_escalated_permissions (ue_sandbox_permissions req)
     || skips_sandbox (ue_exec_approval_requirement req)
  then BypassSandboxFirstAttempt else NoOverride.

(** What was spawned: whether it has ended while it was waited for, its state after that,
    and the output so far. *)
Record SpawnedProcess := {
  exit_ready : bool; sp_exited : bool; sp_exit_code : option Z; sp_output : HeadTailBuffer }.

Section Open.
Context (from_utf8_lossy : list byte → str) (to_lowercase : str → str).
(** The PTY or the pipes of a process, or the error of the system. *)
Context (spawn_process : bool → CommandExec.Process → result str SpawnedProcess).

Definition check_for_sandbox_denial (p : UnifiedExec.Process) : option UnifiedExecError :=
  if bool_decide (sandbox_type p = SandboxNone) || negb (has_exited p) then None
  else sandbox_denial to_lowercase (from_utf8_lossy (concat (snapshot_chunks (output_buffer p)))) (sandbox_type p)
         (default (-1)%Z (p_exit_code p)).
Definition from_spawned (sp : SpawnedProcess) (sandbox : SandboxType) : result UnifiedExecError UnifiedExec.Process :=
  let managed := {| has_exited := sp_exited sp; p_exit_code := sp_exit_code sp; terminated := false;
                    output_buffer := sp_output sp; sandbox_type := sandbox |} in
  if exit_ready sp then
    match check_for_sandbox_denial managed with Some err => Err err | None => Ok managed end
  else Ok managed.

Definition process_of_env (program : str) (args : list str) (e : ExecEnv) : CommandExec.Process :=
  {| image := program; argv0 := default program (env_arg0 e); argv := args; proc_cwd := env_cwd e; envs := env_vars e |}.
Definition open_session_with_exec_env (e : ExecEnv) (tty : bool) : result UnifiedExecError UnifiedExec.Process :=
  match CommandExec.command e with
  | [] => Err MissingCommandLine
  | program :: args =>
      match spawn_process tty (process_of_env program args e) with
      | Err err => Err (CreateProcess err)
      | Ok sp => from_spawned sp (env_sandbox e)
      end
  end.

Definition show_unified_error (err : UnifiedExecError) : str :=
  match err with
  | CreateProcess message => §"Failed to create unified exec process: " ++ message
  | UnknownProcessId process_id => §"Unknown process id " ++ process_id
  | WriteToStdin => §"failed to write to stdin"
  | StdinClosed => §"stdin is closed for this session; rerun exec_command with tty=true to keep stdin open"
  | MissingCommandLine => §"missing command line for unified exec request"
  | SandboxDenied message _ => §"Command denied by sandbox: " ++ default [] message
  end.
Definition unified_tool_error (err : UnifiedExecError) : ToolError :=
  match err with
  | SandboxDenied _ output => Orchestrator.SandboxDenied (out_aggregated output)
  | other => Rejected (show_unified_error other)
  end.

(** [UnifiedExecRuntime::run]. *)
Definition unified_run (a : SandboxAttempt) (req : UnifiedExecRequest) (sandbox : SandboxType)
    : result ToolError UnifiedExec.Process :=
  env ← attempt_env (λ _, Rejected §"missing command line for PTY") a (ue_command req) (ue_cwd req) (ue_env req)
          DefaultTimeout sandbox;
  map_err unified_tool_error (open_session_with_exec_env env (ue_tty req)).
End Open.
End Runtimes.

(** ** Opening a process through the orchestrator *)
Section Opening.
Abbreviation Out := UnifiedExec.Process.
Context (policy_to_json : SandboxPolicy → str) (show_error : ExecError → str) (debug_error : ToolError → str).
Context (from_utf8_lossy : list byte → str) (to_lowercase : str → str).
Context (ask_user : Orchestrator.World (Out := Out) → option str → ReviewDecision)
        (serialize_key : UnifiedExecApprovalKey → option str).
(** What is spawned may depend on all that happened before. *)
Context (spawn_process : Orchestrator.World (Out := Out) → bool → CommandExec.Process → result str SpawnedProcess).
Context (target_os : TargetOs).
Context (shlex_try_join : list str → option str)
        (parse_with_powershell_ast : str → str → option (list (list str)))
        (try_parse_shell : str → option Tree).
Context {Pattern : Type} (new_case_insensitive : str → Pattern) (matches : Pattern → str → bool).

#[local] Instance UnifiedRuntime : ToolRuntime (Out := Out) UnifiedExecRequest := {
  exec_approval_requirement := λ req, Some (ue_exec_approval_requirement req);
  sandbox_mode_for_first_attempt := unified_sandbox_mode;
  should_bypass_approval := default_should_bypass_approval;
  wants_no_sandbox_approval := default_wants_no_sandbox_approval;
  sandbox_preference := Auto;
  escalate_on_failure := true;
  start_approval_async := λ req retry_reason,
    let reason := match retry_reason with Some r => Some r | None => ue_justification req end in
    with_cached_approval (serialize_key <$> unified_approval_keys req) (request_approval ask_user reason);
}.

#[local] Instance UnifiedLaws : ToolLaws (Out := Out) UnifiedExecRequest.
Proof.
  split.
  - intros req reason. apply recorded_of_adds, adds_with_cached, asking_recorded.
  - done.
  - apply default_bypass.
Qed.

Definition unified_request (params : Tools.ExecParams) (tty : bool) (env : gmap str str)
    (requirement : ExecApprovalRequirement) : UnifiedExecRequest :=
  {| ue_command := params_command params; ue_cwd := params_cwd params; ue_env := env; ue_tty := tty;
     ue_sandbox_permissions := params_sandbox_permissions params; ue_justification := params_justification params;
     ue_exec_approval_requirement := requirement |}.

(** [None]: the panic of a script without a command. *)
Definition open_session_with_sandbox (exec_policy : Policy PrefixRule) (turn : TurnContext) (a : SandboxAttempt)
    (vars : list (str * str)) (env_policy : ShellEnvironmentPolicy (Pattern := Pattern))
    (params : Tools.ExecParams) (tty : bool) : M (option (result UnifiedExecError Out)) :=
  let env := apply_unified_exec_env (populate_env new_case_insensitive matches vars env_policy) in
  match create_exec_approval_requirement_for_command shlex_try_join parse_with_powershell_ast try_parse_shell
          exec_policy (approval_request turn params) with
  | None => ret None
  | Some requirement =>
      let req := unified_request params tty env requirement in
      let execute w := unified_run policy_to_json show_error from_utf8_lossy to_lowercase (spawn_process w) a req in
      bind (orchestrate execute target_os turn req)
        (λ r, ret (Some (map_err (λ err, CreateProcess (debug_error err)) r)))
  end.

End Opening.

(** * Correctness *)

(** ** Command lines *)
Lemma extract_bash_of shell flag script :
  one_of flag [§"-lc"; §"-c"] = true →
  (match detect_shell_type shell with Some (Zsh | Bash | Sh) => true | _ => false end) = true →
  extract_bash_command [shell; flag; script] = Some (shell, script).
Proof. intros Hf Hs. unfold extract_bash_command. by rewrite Hf, Hs. Qed.

Lemma powershell_derived_script login script :
  powershell_script ((if negb login then [§"-NoProfile"] else []) ++ [§"-Command"; script]) = Some script.
Proof. by destruct login. Qed.
Lemma extract_powershell_of shell login script :
  detect_shell_type shell = Some PowerShell →
  extract_powershell_command ([shell] ++ (if negb login then [§"-NoProfile"] else []) ++ [§"-Command"; script]) =
  Some (shell, script).
Proof.
  intros Hs. unfold extract_powershell_command. replace (length _ <? 3)%nat with false by (by destruct login).
  cbn [app]. rewrite Hs. destruct login; reflexivity.
Qed.

Lemma wrap_derived path_exists shell command login :
  let args := derive_exec_args shell command login in
  maybe_wrap_shell_lc_with_snapshot path_exists args shell =
  match shell_type shell, shell_snapshot shell, login with
  | (Zsh | Bash | Sh), Some snapshot_path, true =>
      if path_exists snapshot_path then [shell_path shell; §"-c"; sourced snapshot_path command] else args
  | _, _, _ => args
  end.
Proof.
  unfold maybe_wrap_shell_lc_with_snapshot, derive_exec_args.
  destruct (shell_snapshot shell) as [p|]; [|by destruct (shell_type shell), login].
  destruct (path_exists p); by destruct (shell_type shell), login.
Qed.

Lemma prefix_derived shell login script :
  detect_shell_type shell = Some PowerShell →
  prefix_powershell_script_with_utf8 ([shell] ++ (if negb login then [§"-NoProfile"] else []) ++ [§"-Command"; script]) =
  [shell] ++ (if negb login then [§"-NoProfile"] else []) ++ [§"-Command"; with_utf8_prefix script].
Proof.
  intros Hs. unfold prefix_powershell_script_with_utf8. rewrite extract_powershell_of by done. by destruct login.
Qed.

(** A script of the model, from its text to the command line and back: the command line
    that is made for the shell of the session is read as exactly this script by what judges
    its safety, and what is run in the end is the same shell with the same script, after the
    snapshot of the environment if a login shell was asked for and there is one, or after the
    setting of UTF-8 for PowerShell if that is enabled. *)
Theorem script_of_command_line path_exists shell utf8 script login :
  detect_shell_type (shell_path shell) = Some (shell_type shell) →
  let command := derive_exec_args shell script login in
  let prepared := prepare_command path_exists shell utf8 command in
  match shell_type shell with
  | Zsh | Bash | Sh =>
      extract_bash_command command = Some (shell_path shell, script) ∧
      extract_bash_command prepared =
        Some (shell_path shell,
              match shell_snapshot shell with
              | Some p => if login && path_exists p then sourced p script else script
              | None => script
              end)
  | PowerShell =>
      extract_powershell_command command = Some (shell_path shell, script) ∧
      extract_powershell_command prepared =
        Some (shell_path shell, if utf8 then with_utf8_prefix script else script)
  | Cmd => prepared = command
  end.
Proof.
  intros Hd command prepared. subst command prepared. unfold prepare_command. rewrite wrap_derived.
  assert (∀ flag s, one_of flag [§"-lc"; §"-c"] = true →
    (match shell_type shell with Zsh | Bash | Sh => true | _ => false end) = true →
    extract_bash_command [shell_path shell; flag; s] = Some (shell_path shell, s)) as Hbash.
  { intros flag s Hf Hs. apply extract_bash_of; [done|]. rewrite Hd. by destruct (shell_type shell). }
  destruct (shell_type shell) eqn:Ht; unfold derive_exec_args; rewrite Ht.
  1,2,4: split; [apply Hbash; by destruct login|]; destruct (shell_snapshot shell) as [p|], login; cbn [andb];
    try destruct (path_exists p); by apply Hbash.
  - split; [by apply extract_powershell_of|]. destruct utf8; [rewrite prefix_derived by done|]; by apply extract_powershell_of.
  - done.
Qed.
Lemma script_of_command_line_witness :
  let shell := {| shell_type := Bash; shell_path := §"/bin/bash"; shell_snapshot := Some §"/tmp/s.sh" |} in
  extract_bash_command (prepare_command (λ _, true) shell true (derive_exec_args shell §"ls -l" true)) =
  Some (§"/bin/bash", sourced §"/tmp/s.sh" §"ls -l").
Proof.
  intros shell. exact (proj2 (script_of_command_line (λ _, true) shell true §"ls -l" true eq_refl)).
Defined.

(** ** What is started *)
Section Confined.
Context {AccessFs : Type} (from_all from_read : AccessFs → bool).
Context (kernel_ok : KernelCall → bool) (ruleset_status : Ruleset (AccessFs := AccessFs) → RulesetStatus).
Context (clap_parse : list str → option (str * str * list str)).
Context (policy_from_json : str → option SandboxPolicy) (policy_to_json : SandboxPolicy → str).
Context (host_of : gmap str str → Host) (show_error : ExecError → str).
Context {File : Type} (beneath : str → File → Prop) (known modifies : AccessFs → bool)
        (permits : Session (AccessFs := AccessFs) → LinuxSandbox.Attempt AccessFs File → Prop).
Context `{!KernelLaws from_all from_read beneath known modifies permits,
          !HelperLaws clap_parse policy_from_json policy_to_json}.

(** The process of an attempt: the shell tool and [exec_command] differ in what they add to
    the environment. *)
Definition starts (a : SandboxAttempt) (e : ExecEnv) (p : CommandExec.Process) : Prop :=
  process_of e (at_policy a) = Ok p ∨
  ∃ program args, CommandExec.command e = program :: args ∧ p = process_of_env program args e.

Lemma attempt_env_Ok no_command a command cwd env expiration sandbox e :
  attempt_env policy_to_json show_error no_command a command cwd env expiration sandbox = Ok e →
  ∃ program args, prepare_command (at_path_exists a) (at_shell a) (at_powershell_utf8 a) command = program :: args ∧
    transform policy_to_json
      {| program := program; spec_args := args; spec_cwd := cwd; spec_env := env; spec_expiration := expiration |}
      (at_policy a) sandbox (at_sandbox_cwd a) (at_linux_sandbox_exe a) = Ok e.
Proof.
  intros (spec & Hspec%map_err_Ok & He%map_err_Ok)%bind_Ok. unfold build_command_spec in Hspec.
  destruct (prepare_command _ _ _ _) as [|program args]; [done|]. injection Hspec as <-. by exists program, args.
Qed.

Lemma transform_helper spec policy cwd exe e :
  transform policy_to_json spec policy LinuxSeccomp cwd exe = Ok e →
  env_arg0 e = Some LINUX_SANDBOX_ARG0 ∧
  ∃ exe', exe = Some exe' ∧
    CommandExec.command e = exe' :: create_linux_sandbox_command_args policy_to_json (program spec :: spec_args spec) policy cwd.
Proof. unfold transform. destruct exe as [exe|]; [|done]. intros [= <-]. split; [done|]. by exists exe. Qed.

Lemma starts_helper a e p spec :
  transform policy_to_json spec (at_policy a) LinuxSeccomp (at_sandbox_cwd a) (at_linux_sandbox_exe a) = Ok e →
  starts a e p →
  argv0 p = LINUX_SANDBOX_ARG0 ∧
  argv p = create_linux_sandbox_command_args policy_to_json (program spec :: spec_args spec) (at_policy a) (at_sandbox_cwd a).
Proof.
  intros (H0 & exe & _ & Hc)%transform_helper [Hp|(program & args & Hc' & ->)].
  - unfold process_of in Hp. rewrite Hc in Hp. cbn in Hp. injection Hp as <-. cbn. by rewrite H0.
  - rewrite Hc in Hc'. injection Hc' as <- <-. cbn. by rewrite H0.
Qed.

(** C7. From the request of a tool to the kernel: whatever an attempt under the Linux sandbox
    starts, for the shell tool or for [exec_command], is the helper, and a command that it
    comes to run is the one of the request as it was made for the shell, in a process that is
    confined by the policy of the turn. *)
Theorem attempts_confined a no_command command cwd env expiration e p command' s :
  starts_with (at_sandbox_cwd a) §"-" = false →
  attempt_env policy_to_json show_error no_command a command cwd env expiration LinuxSeccomp = Ok e →
  starts a e p →
  ∃ r, helper_end from_all from_read kernel_ok ruleset_status clap_parse policy_from_json host_of p = Some r ∧
    (r = Execvp command' s →
     command' = prepare_command (at_path_exists a) (at_shell a) (at_powershell_utf8 a) command ∧
     confined beneath known modifies permits (host_of (envs p)) (at_policy a) (at_sandbox_cwd a) s).
Proof.
  intros Hcwd (program & args & -> & He)%attempt_env_Ok Hp.
  destruct (starts_helper _ _ _ _ He Hp) as [H0 Hargs].
  destruct (helper_process_spec from_all from_read kernel_ok ruleset_status clap_parse policy_from_json policy_to_json
              host_of _ _ _ p Hcwd H0 Hargs) as (r & Hr & Hexec).
  exists r. split; [done|]. intros Hx. destruct (Hexec _ _ Hx) as [-> Hs]. split; [done|].
  by eapply restricted_confined.
Qed.
End Confined.

(** ** Examples *)
Section Samples.
Definition sample_shell : Shell := {| shell_type := Bash; shell_path := §"/bin/bash"; shell_snapshot := None |}.
Definition sample_attempt : SandboxAttempt :=
  {| at_shell := sample_shell; at_powershell_utf8 := false; at_path_exists := λ _, true; at_policy := demo_policy;
     at_sandbox_cwd := §"/w"; at_linux_sandbox_exe := Some §"/bin/savfox" |}.
(** Under the sandbox it ends at once with a message, otherwise it stays open. *)
Definition sample_spawn (_ : Orchestrator.World (Out := UnifiedExec.Process)) (_ : bool) (p : CommandExec.Process)
    : result str SpawnedProcess :=
  if bool_decide (argv0 p = LINUX_SANDBOX_ARG0)
  then Ok {| exit_ready := true; sp_exited := true; sp_exit_code := Some 1%Z;
               sp_output := push_chunk [x73; x65; x63; x63; x6f; x6d; x70] HeadTail.default |}
  else Ok {| exit_ready := false; sp_exited := false; sp_exit_code := None; sp_output := HeadTail.default |}.
Definition sample_lossy (l : list byte) : str := Byte.to_N <$> l.
Definition sample_world : Orchestrator.World (Out := UnifiedExec.Process) := {| store := ∅; trace := [] |}.
Definition sample_open (policy : AskForApproval) :=
  open_session_with_sandbox demo_to_json (λ _, []) (λ _, []) sample_lossy (λ s, s) (λ _ _, ApprovedForSession)
    (λ k, Some (join [SP] (uk_command k))) sample_spawn Linux no_join no_powershell no_shell
    (λ s, s) (λ p k, bool_decide (p = k)) empty_policy (sample_turn policy) sample_attempt []
    {| inherit := All; ignore_default_excludes := true; exclude := []; env_set := ∅; include_only := [];
       use_profile := false |} (sample_params [§"make"]) true sample_world.


Lemma attempts_confined_witness :
  ∃ e p, attempt_env demo_to_json (λ _, []) id sample_attempt [§"git"; §"status"] §"/w" ∅ DefaultTimeout LinuxSeccomp = Ok e ∧
    process_of e demo_policy = Ok p ∧
    ∀ f, demo_allows (λ _, true) DWrite f = true → demo_below §"/dev/null" f = true ∨
      ∃ wr, wr ∈ get_writable_roots_with_cwd (demo_host (envs p)) demo_policy §"/w" ∧ demo_below (root wr) f = true.
Proof.
  do 2 eexists. split; [reflexivity|]. split; [reflexivity|]. intros f Hf.
  edestruct (attempts_confined demo_from_all demo_from_read (λ _, true) (λ _, FullyEnforced) demo_clap demo_from_json
    demo_to_json demo_host (λ _, []) (λ path f, demo_below path f = true) (λ _, true) demo_modifies
    (λ s a, demo_permits (λ _, true) s a = true) sample_attempt id [§"git"; §"status"] §"/w" ∅ DefaultTimeout _ _
    [§"git"; §"status"] demo_session eq_refl eq_refl (or_introl eq_refl)) as (r & Hr & Hrun).
  assert (Some r = Some (Execvp [§"git"; §"status"] demo_session)) as [= Hx] by (rewrite <-Hr; reflexivity).
  exact (proj2 (proj1 (proj2 (Hrun Hx)) eq_refl) DWrite f eq_refl eq_refl Hf).
Defined.

(** A PowerShell command line with arguments after its script: the last of them is replaced by
    the script. *)
Example powershell_arguments_lost :
  prefix_powershell_script_with_utf8 [§"pwsh"; §"-Command"; §"echo"; §"hello"] =
  [§"pwsh"; §"-Command"; §"echo"; UTF8_OUTPUT_PREFIX ++ §"echo"].
Proof. by vm_compute. Qed.

(** The snapshot binds to the first command of a script alone: if it cannot be read, the rest
    of the script runs without the first. *)
Example snapshot_guards_first_command :
  prepare_command (λ _, true) {| shell_type := Bash; shell_path := §"/bin/bash"; shell_snapshot := Some §"/s" |} false
    [§"/bin/bash"; §"-lc"; §"cd build; rm -r ."] =
  [§"/bin/bash"; §"-c"; §". " ++ [QUOTE] ++ §"/s" ++ [QUOTE] ++ §" && cd build; rm -r ."].
Proof. by vm_compute. Qed.
End Samples.
