(* ===== verification/GatewayApprovals.v ===== *)
(** * Approvals through the gateway
    ([gateway-server/src/security/approval_coordinator.rs], [exec_approval.rs], the
    approval requests of [channel/session_bridge.rs] and the resolution in
    [ws_rpc/handlers/skill.rs])

    An agent asks to run a command; a person answers, in a chat or through the API.  The
    coordinator keeps the open requests and delivers each answer to the session that
    asked; a file keeps an audit record.  Collectors of agent turns, chat messages and
    API calls run side by side: each is a program of [Coroutine], whose actions are the
    sections under a lock.  A request's identifier and nonce are private until they are
    written, so they are drawn in the action that writes them.  The redaction of
    secrets is a parameter. *)
From stdpp Require Import gmap list strings.
From S2P Require Import Prelude RustStr MachInt.
From S2P Require Import ExecPolicy Approval Orchestrator ExecutionPolicy Coroutine.
Local Open Scope Z_scope.

(** ** Requests *)
Definition DEFAULT_APPROVAL_TTL : Z := 180 * 1000.

Inductive ApprovalKind := Exec | Patch.
Inductive ApprovalDecisionKind := ApproveOnceKind | ApproveSessionKind | AllowRuleKind | DenyKind | AbortKind.
#[export] Instance ApprovalDecisionKind_eq : EqDecision ApprovalDecisionKind.
Proof. solve_decision. Defined.

Record ApprovalRequestEnvelope := {
  e_id : str;
  e_nonce : str;
  e_kind : ApprovalKind;
  e_agent_id : str;
  e_channel_instance_id : option str;
  e_account_id : option str;
  e_peer_id : option str;
  e_logical_session_id : str;
  e_core_session_id : str;
  e_turn_id : str;
  e_environment_id : option str;
  e_cwd : str;
  e_redacted_summary : str;
  e_reason : option str;
  e_available_decisions : list ApprovalDecisionKind;
  e_policy_fingerprint : str;
  e_created_at_ms : Z;
  e_expires_at_ms : Z;
}.

Record ChannelApprovalScope := {
  sc_channel : str;
  sc_channel_config_id : option str;
  sc_account_id : option str;
  sc_peer_id : str;
  sc_logical_session_id : str;
}.
#[export] Instance ChannelApprovalScope_eq : EqDecision ChannelApprovalScope.
Proof. solve_decision. Defined.

Inductive ChannelApprovalKind :=
| KExec (proposed_execpolicy_amendment : option ExecPolicyAmendment)
| KPatch.

Record ApprovalRequestMetadata := {
  m_agent_id : str;
  m_policy_fingerprint : str;
  m_cwd : str;
  m_summary : str;
  m_command : option (list str);
  m_reason : option str;
}.

Record PendingChannelApproval := {
  p_envelope : ApprovalRequestEnvelope;
  p_request_id : str;
  p_core_approval_id : str;
  p_core_session_id : str;
  p_scope : ChannelApprovalScope;
  p_kind : ChannelApprovalKind;
  p_capabilities : ApprovalClientCapabilities;
  p_expires_at : Z;
}.

(** The request as the file has it. *)
Record ExecApprovalRequest := {
  q_id : str;
  q_command : str;
  q_cwd : option str;
  q_host : option str;
  q_security : option str;
  q_ask : option str;
  q_agent_id : option str;
  q_session_id : option str;
  q_created_at_ms : Z;
  q_expires_at_ms : Z;
  q_nonce : str;
  q_kind : option str;
  q_channel_instance_id : option str;
  q_account_id : option str;
  q_peer_id : option str;
  q_logical_session_id : option str;
  q_core_session_id : option str;
  q_turn_id : option str;
  q_environment_id : option str;
  q_available_decisions : list str;
  q_policy_fingerprint : option str;
}.
Definition is_coordinator_owned (r : ExecApprovalRequest) : bool :=
  bool_decide (is_Some (q_kind r)) || bool_decide (is_Some (q_core_session_id r)) || bool_decide (is_Some (q_turn_id r)).

Record ExecApprovalResolution := {
  z_id : str;
  z_approved : bool;
  z_resolved_by : option str;
  z_reason : option str;
  z_nonce : str;
}.

(** *** What a person is shown *)
Definition ELLIPSIS : char := 0x2026%N.
Definition truncate_utf8 (value : str) (max_chars : nat) : str :=
  take max_chars value ++ (if (max_chars <? length value)%nat then [ELLIPSIS] else []).

Definition SECRET_MARKERS : list str :=
  [§"password"; §"passwd"; §"token"; §"secret"; §"api-key"; §"apikey"; §"authorization"; §"credential"].
Definition EQUALS : char := 61%N.

Definition redact_word (redact_next : bool) (word : str) : bool * str :=
  let lower := to_ascii_lowercase word in
  if redact_next then (false, §"<redacted>")
  else if existsb (λ marker, bool_decide (lower = §"--" ++ marker) || bool_decide (lower = §"-" ++ marker)) SECRET_MARKERS
  then (true, word)
  else match split_once EQUALS word with
       | Some (key, _) =>
           if existsb (λ marker, str_contains (to_ascii_lowercase key) marker) SECRET_MARKERS
           then (false, key ++ §"=<redacted>") else (false, word)
       | None => (false, word)
       end.
Fixpoint redact_words (redact_next : bool) (command : list str) : list str :=
  match command with
  | [] => []
  | word :: rest => let '(redact_next, out) := redact_word redact_next word in out :: redact_words redact_next rest
  end.

Section Gateway.
Context (redact_text_always : str → str).

Definition redacted_command_summary (command : list str) : str :=
  truncate_utf8 (redact_text_always (join §" " (redact_words false command))) 512.
Definition sanitized_approval_text (input : str) (max_chars : nat) : str :=
  truncate_utf8 (redact_text_always input) max_chars.

(** *** Decisions *)
Definition supports_session_grant (p : PendingChannelApproval) : bool :=
  supports_session_grants (p_capabilities p).
Definition has_amendment (k : ChannelApprovalKind) : bool :=
  match k with KExec (Some _) => true | _ => false end.
Definition supports_persisted_rule (p : PendingChannelApproval) : bool :=
  supports_persisted_rules (p_capabilities p) && has_amendment (p_kind p).

Inductive ApprovalReplyAction := ApproveOnce | ApproveSession | AllowRule | Deny | Abort.
Record ParsedApprovalReply := { r_action : ApprovalReplyAction; r_request_id : option str }.

Definition command_request_id (text command : str) : option str :=
  '(head, tail) ← split_once COLON text;
  if negb (eq_ignore_ascii_case head command) then None
  else let request_id := trim tail in
       if bool_decide (request_id = []) then None else Some request_id.

Definition REPLY_COMMANDS : list (str * ApprovalReplyAction) :=
  [(§"approve", ApproveOnce); (§"approve-once", ApproveOnce); (§"approve-session", ApproveSession);
   (§"allow-rule", AllowRule); (§"deny", Deny); (§"abort", Abort)].
Fixpoint first_command (text : str) (commands : list (str * ApprovalReplyAction)) : option ParsedApprovalReply :=
  match commands with
  | [] => None
  | (command, action) :: rest =>
      match command_request_id text command with
      | Some request_id => Some {| r_action := action; r_request_id := Some request_id |}
      | None => first_command text rest
      end
  end.
Definition parse_reply (text : str) : option ParsedApprovalReply :=
  let text := trim text in
  if bool_decide (text = §"+") then Some {| r_action := ApproveOnce; r_request_id := None |}
  else if bool_decide (text = §"-") then Some {| r_action := Deny; r_request_id := None |}
  else first_command text REPLY_COMMANDS.
Definition looks_like_channel_approval_reply (text : str) : bool := bool_decide (is_Some (parse_reply text)).

Definition named_action (decision : str) : option ApprovalReplyAction :=
  let decision := to_ascii_lowercase (trim decision) in
  if one_of decision [§"approve"; §"approved"; §"approve-once"] then Some ApproveOnce
  else if bool_decide (decision = §"approve-session") then Some ApproveSession
  else if bool_decide (decision = §"allow-rule") then Some AllowRule
  else if one_of decision [§"deny"; §"denied"] then Some Deny
  else if bool_decide (decision = §"abort") then Some Abort
  else None.

Definition review_decision (pending : PendingChannelApproval) (action : ApprovalReplyAction) : option ReviewDecision :=
  match action with
  | ApproveOnce => Some Approved
  | ApproveSession => Some ApprovedForSession
  | AllowRule => match p_kind pending with
                 | KExec (Some amendment) => Some (ApprovedExecpolicyAmendment amendment)
                 | KExec None | KPatch => None
                 end
  | Deny => Some Denied
  | Abort => Some AbortTurn
  end.

Definition to_opaque_string (d : ReviewDecision) : str :=
  match d with
  | Approved => §"approved"
  | ApprovedExecpolicyAmendment _ => §"approved_with_amendment"
  | ApprovedForSession => §"approved_for_session"
  | Denied => §"denied"
  | AbortTurn => §"abort"
  end.

(** What a session of Core is told. *)
Inductive Op := ExecApproval (id : str) (decision : ReviewDecision) | PatchApproval (id : str) (decision : ReviewDecision).
Definition decision_of (op : Op) : ReviewDecision :=
  match op with ExecApproval _ d | PatchApproval _ d => d end.
Definition approval_op (pending : PendingChannelApproval) (decision : ReviewDecision) : Op :=
  match p_kind pending with
  | KExec _ => ExecApproval (p_core_approval_id pending) decision
  | KPatch => PatchApproval (p_core_approval_id pending) decision
  end.

Definition supported (p : PendingChannelApproval) (action : ApprovalReplyAction) : bool :=
  match action with
  | ApproveSession => supports_session_grant p
  | AllowRule => supports_persisted_rule p
  | ApproveOnce | Deny | Abort => true
  end.

(** *** A new request *)
Definition insert_at {A} (i : nat) (x : A) (l : list A) : list A := take i l ++ x :: drop i l.
Definition available_decisions (capabilities : ApprovalClientCapabilities) (kind : ChannelApprovalKind)
    : list ApprovalDecisionKind :=
  let l := [ApproveOnceKind; DenyKind; AbortKind] in
  let l := if supports_session_grants capabilities then insert_at 1 ApproveSessionKind l else l in
  if supports_persisted_rules capabilities && has_amendment kind then insert_at 2 AllowRuleKind l else l.

(** What the environment answers an action: a random identifier and nonce, the
    monotonic and the wall clock, and whether an operation outside succeeds. *)
Record Env := { uuid : str; nonce : str; instant : Z; unix_ms : Z; succeeds : bool }.

Definition register_with_ttl (core_approval_id core_session_id : str) (scope : ChannelApprovalScope)
    (kind : ChannelApprovalKind) (capabilities : ApprovalClientCapabilities)
    (metadata : ApprovalRequestMetadata) (ttl : Z) (e : Env) : PendingChannelApproval :=
  let request_id := uuid e in
  let approval_kind := match kind with KExec _ => Exec | KPatch => Patch end in
  let redacted_summary := match approval_kind, m_command metadata with
                          | Exec, Some command => redacted_command_summary command
                          | _, _ => sanitized_approval_text (m_summary metadata) 512
                          end in
  {| p_envelope :=
       {| e_id := request_id; e_nonce := nonce e; e_kind := approval_kind; e_agent_id := m_agent_id metadata;
          e_channel_instance_id := sc_channel_config_id scope; e_account_id := sc_account_id scope;
          e_peer_id := Some (sc_peer_id scope); e_logical_session_id := sc_logical_session_id scope;
          e_core_session_id := core_session_id; e_turn_id := core_approval_id; e_environment_id := None;
          e_cwd := m_cwd metadata; e_redacted_summary := redacted_summary;
          e_reason := (λ reason, sanitized_approval_text reason 512) <$> m_reason metadata;
          e_available_decisions := available_decisions capabilities kind;
          e_policy_fingerprint := m_policy_fingerprint metadata; e_created_at_ms := unix_ms e;
          e_expires_at_ms := usat_add (unix_ms e) ttl |};
     p_request_id := request_id; p_core_approval_id := core_approval_id; p_core_session_id := core_session_id;
     p_scope := scope; p_kind := kind; p_capabilities := capabilities; p_expires_at := instant e + ttl |}.

Definition decision_name (d : ApprovalDecisionKind) : str :=
  match d with
  | ApproveOnceKind => §"approve-once"
  | ApproveSessionKind => §"approve-session"
  | AllowRuleKind => §"allow-rule"
  | DenyKind => §"deny"
  | AbortKind => §"abort"
  end.
Definition kind_name (k : ApprovalKind) : str := match k with Exec => §"exec" | Patch => §"patch" end.

Definition as_persisted_request (p : PendingChannelApproval) : ExecApprovalRequest :=
  let env := p_envelope p in
  let kind := kind_name (e_kind env) in
  {| q_id := e_id env; q_command := e_redacted_summary env; q_cwd := Some (e_cwd env); q_host := None;
     q_security := Some kind; q_ask := e_reason env; q_agent_id := Some (e_agent_id env);
     q_session_id := Some (e_logical_session_id env); q_created_at_ms := e_created_at_ms env;
     q_expires_at_ms := e_expires_at_ms env; q_nonce := e_nonce env; q_kind := Some kind;
     q_channel_instance_id := e_channel_instance_id env; q_account_id := e_account_id env;
     q_peer_id := e_peer_id env; q_logical_session_id := Some (e_logical_session_id env);
     q_core_session_id := Some (e_core_session_id env); q_turn_id := Some (e_turn_id env);
     q_environment_id := e_environment_id env;
     q_available_decisions := decision_name <$> e_available_decisions env;
     q_policy_fingerprint := Some (e_policy_fingerprint env) |}.

(** ** The shared state *)
Record ApprovalStore := { s_pending : list ExecApprovalRequest; s_resolved : list ExecApprovalResolution }.
Definition store_empty : ApprovalStore := {| s_pending := []; s_resolved := [] |}.

(** Who an operation submitted to a session comes from. *)
Inductive Source :=
| ByPeer (request_id : str) (scope : ChannelApprovalScope) (action : ApprovalReplyAction)
| ByToken (request_id nonce : str) (action : ApprovalReplyAction)
| ByCollector.
Record Delivery := { d_session : str; d_op : Op; d_source : Source }.

(** The coordinator's requests; the file ([None]: absent or unreadable); and, for the
    statements, what the sessions were told, the requests ever registered and the
    identifiers ever used. *)
Record World := {
  pending : gmap str PendingChannelApproval;
  file : option ApprovalStore;
  delivered : list Delivery;
  registered : list PendingChannelApproval;
  named : gset str;
}.
Definition world_new (file : option ApprovalStore) : World :=
  {| pending := ∅; file := file; delivered := []; registered := [];
     named := match file with
              | Some s => list_to_set (map q_id (s_pending s) ++ map z_id (s_resolved s))
              | None => ∅
              end |}.
Definition set_pending (w : World) (m : gmap str PendingChannelApproval) : World :=
  {| pending := m; file := file w; delivered := delivered w; registered := registered w; named := named w |}.
Definition set_file (w : World) (f : option ApprovalStore) : World :=
  {| pending := pending w; file := f; delivered := delivered w; registered := registered w; named := named w |}.
Definition deliver (w : World) (d : Delivery) : World :=
  {| pending := pending w; file := file w; delivered := delivered w ++ [d]; registered := registered w;
     named := named w |}.
Definition add_registered (w : World) (p : PendingChannelApproval) : World :=
  {| pending := pending w; file := file w; delivered := delivered w; registered := registered w ++ [p];
     named := {[ p_request_id p ]} ∪ named w |}.
Definition add_named (w : World) (id : str) : World :=
  {| pending := pending w; file := file w; delivered := delivered w; registered := registered w;
     named := {[ id ]} ∪ named w |}.

Abbreviation async := (prog World Env).

(** ** The file, under its lock *)
(** A file that cannot be read counts as empty. *)
Definition load_store (w : World) : ApprovalStore := default store_empty (file w).
Definition save_store (w : World) (e : Env) (s : ApprovalStore) : World * bool :=
  if succeeds e then (set_file w (Some s), true) else (w, false).

Definition upsert (request : ExecApprovalRequest) (l : list ExecApprovalRequest) : list ExecApprovalRequest :=
  match list_find (λ entry, q_id entry = q_id request) l with
  | Some (i, _) => <[i := request]> l
  | None => l ++ [request]
  end.
Definition persist_pending_approval (request : ExecApprovalRequest) (e : Env) (w : World) : World * bool :=
  let store := load_store w in
  save_store w e {| s_pending := upsert request (s_pending store); s_resolved := s_resolved store |}.

Inductive ResolveOutcome := Resolved | NotPending | NonceMismatch | LegacyMissingNonce.

Definition without_nonce (r : ExecApprovalResolution) : ExecApprovalResolution :=
  {| z_id := z_id r; z_approved := z_approved r; z_resolved_by := z_resolved_by r; z_reason := z_reason r;
     z_nonce := [] |}.
(** [None]: the file could not be written. *)
Definition persist_resolved_approval (resolution : ExecApprovalResolution) (e : Env) (w : World)
    : World * option ResolveOutcome :=
  let store := load_store w in
  match list_find (λ r, q_id r = z_id resolution) (s_pending store) with
  | Some (_, entry) =>
      if bool_decide (q_nonce entry = []) then (w, Some LegacyMissingNonce)
      else if negb (bool_decide (q_nonce entry = z_nonce resolution)) then (w, Some NonceMismatch)
      else
        let store := {| s_pending := filter (λ r, q_id r ≠ z_id resolution) (s_pending store);
                        s_resolved := s_resolved store ++ [without_nonce resolution] |} in
        let '(w, ok) := save_store w e store in
        (w, if ok then Some Resolved else None)
  | None => (w, Some NotPending)
  end.

Definition is_expired (now_ms : Z) (r : ExecApprovalRequest) : bool :=
  negb (q_expires_at_ms r =? 0) && (q_expires_at_ms r <=? now_ms).
Definition expired_resolution (r : ExecApprovalRequest) : ExecApprovalResolution :=
  {| z_id := q_id r; z_approved := false; z_resolved_by := Some §"gateway";
     z_reason := Some §"approval request expired"; z_nonce := [] |}.
Definition list_pending_approvals (e : Env) (w : World) : World * option (list ExecApprovalRequest) :=
  let store := load_store w in
  let expired := filter (λ r, is_expired (unix_ms e) r = true) (s_pending store) in
  let kept := filter (λ r, is_expired (unix_ms e) r = false) (s_pending store) in
  if bool_decide (expired = []) then (w, Some kept)
  else
    let store := {| s_pending := kept; s_resolved := s_resolved store ++ map expired_resolution expired |} in
    let '(w, ok) := save_store w e store in
    (w, if ok then Some kept else None).
(** [None]: the file could not be written. *)
Definition find_pending_approval (request_id : str) (e : Env) (w : World)
    : World * option (option ExecApprovalRequest) :=
  let '(w, l) := list_pending_approvals e w in
  (w, (λ l, snd <$> list_find (λ r, q_id r = request_id) l) <$> l).

(** ** The coordinator *)
Context (persistence_enabled : bool).

Definition persist_terminal (p : PendingChannelApproval) (approved : bool) (resolved_by reason : str) : async () :=
  if negb (persistence_enabled) then mret tt
  else
    let resolution := {| z_id := p_request_id p; z_approved := approved; z_resolved_by := Some resolved_by;
                         z_reason := Some reason; z_nonce := e_nonce (p_envelope p) |} in
    _ ← atomically (persist_resolved_approval resolution); mret tt.

Fixpoint persist_terminals (ps : list PendingChannelApproval) (reason : str) : async () :=
  match ps with
  | [] => mret tt
  | p :: rest => _ ← persist_terminal p false §"gateway" reason; persist_terminals rest reason
  end.

(** The entries with a property, taken out of the map. *)
Definition drain (take : PendingChannelApproval → bool) (w : World) : World * list PendingChannelApproval :=
  (set_pending w (filter (λ kv, take kv.2 = false) (pending w)),
   map snd (filter (λ kv, take kv.2 = true) (map_to_list (pending w)))).

Definition prune_expired : async () :=
  expired ← atomically (λ e w, drain (λ p, p_expires_at p <=? instant e) w);
  persist_terminals expired §"approval request expired".

Definition remove (request_id : str) : async () :=
  removed ← atomically (λ _ w, (set_pending w (delete request_id (pending w)), pending w !! request_id));
  match removed with
  | Some p => persist_terminal p false §"gateway" §"approval request superseded or canceled"
  | None => mret tt
  end.

Definition is_pending (request_id : str) : async bool :=
  atomically (λ _ w, (w, bool_decide (is_Some (pending w !! request_id)))).

Definition remove_for_core_session (core_session_id : str) : async () :=
  removed ← atomically (λ _ w, drain (λ p, bool_decide (p_core_session_id p = core_session_id)) w);
  persist_terminals removed §"Core session closed before approval resolution".

Definition restore (p : PendingChannelApproval) : async () :=
  atomically (λ e w, (if instant e <? p_expires_at p then set_pending w (<[p_request_id p := p]> (pending w)) else w, tt)).

Definition register (core_approval_id core_session_id : str) (scope : ChannelApprovalScope)
    (kind : ChannelApprovalKind) (capabilities : ApprovalClientCapabilities)
    (metadata : ApprovalRequestMetadata) : async (option PendingChannelApproval) :=
  persisted ← atomically (λ e w,
    let p := register_with_ttl core_approval_id core_session_id scope kind capabilities metadata
               DEFAULT_APPROVAL_TTL e in
    let '(w, ok) := persist_pending_approval (as_persisted_request p) e w in
    if ok then (add_registered w p, Some p) else (w, None));
  match persisted with
  | None => mret None
  | Some p => _ ← atomically (λ _ w, (set_pending w (<[p_request_id p := p]> (pending w)), tt)); mret (Some p)
  end.

(** *** Taking a request for an answer *)
Inductive ChannelApprovalReplyOutcome :=
| ReplyResolved (request_id decision : str)
| ReplyNoMatch
| ReplyAmbiguous
| ReplyUnsupportedDecision.
Inductive AuthenticatedApprovalOutcome :=
| AuthResolved (decision : str)
| AuthNotCoordinated
| AuthNonceMismatch
| AuthUnsupportedDecision.

Definition select_request (scope : ChannelApprovalScope) (request_id : option str)
    (m : gmap str PendingChannelApproval) : result ChannelApprovalReplyOutcome str :=
  match request_id with
  | Some request_id =>
      match m !! request_id with
      | None => Err ReplyNoMatch
      | Some request => if bool_decide (p_scope request = scope) then Ok request_id else Err ReplyNoMatch
      end
  | None =>
      match filter (λ kv, p_scope kv.2 = scope) (map_to_list m) with
      | [] => Err ReplyNoMatch
      | [(_, request)] => Ok (p_request_id request)
      | _ => Err ReplyAmbiguous
      end
  end.

(** The section under the lock of [take_for_reply]: the request and its identifier; an
    inner [None] is an [expect] that fails. *)
Definition take_selected (scope : ChannelApprovalScope) (parsed : ParsedApprovalReply)
    (m : gmap str PendingChannelApproval)
    : result ChannelApprovalReplyOutcome (option (str * PendingChannelApproval)) :=
  request_id ← select_request scope (r_request_id parsed) m;
  match m !! request_id with
  | None => Ok None
  | Some request =>
      if supported request (r_action parsed) then Ok (Some (request_id, request)) else Err ReplyUnsupportedDecision
  end.
Definition take_for_reply (scope : ChannelApprovalScope) (parsed : ParsedApprovalReply)
    : async (result ChannelApprovalReplyOutcome (option PendingChannelApproval)) :=
  _ ← prune_expired;
  atomically (λ _ w,
    match take_selected scope parsed (pending w) with
    | Ok (Some (request_id, request)) => (set_pending w (delete request_id (pending w)), Ok (Some request))
    | Ok None => (w, Ok None)
    | Err outcome => (w, Err outcome)
    end).

Definition take_nonced (request_id nonce : str) (action : ApprovalReplyAction)
    (m : gmap str PendingChannelApproval) : result AuthenticatedApprovalOutcome PendingChannelApproval :=
  match m !! request_id with
  | None => Err AuthNotCoordinated
  | Some request =>
      if negb (bool_decide (e_nonce (p_envelope request) = nonce)) then Err AuthNonceMismatch
      else if supported request action then Ok request else Err AuthUnsupportedDecision
  end.
Definition take_authenticated (request_id nonce : str) (action : ApprovalReplyAction)
    : async (result AuthenticatedApprovalOutcome PendingChannelApproval) :=
  _ ← prune_expired;
  atomically (λ _ w,
    let taken := take_nonced request_id nonce action (pending w) in
    (match taken with Ok _ => set_pending w (delete request_id (pending w)) | Err _ => w end, taken)).

(** *** Delivering an answer *)
(** [get_session] and [submit]: the session may be gone, or its channel closed. *)
Definition get_session : async bool := atomically (λ e w, (w, succeeds e)).
Definition submit (session : str) (op : Op) (source : Source) : async bool :=
  atomically (λ e w, if succeeds e
                     then (deliver w {| d_session := session; d_op := op; d_source := source |}, true) else (w, false)).

Inductive Delivered := Sent | SessionUnavailable | SubmitFailed.
(** The middle part both resolutions share. *)
Definition deliver_decision (p : PendingChannelApproval) (decision : ReviewDecision) (source : Source)
    : async Delivered :=
  found ← get_session;
  if negb found then _ ← restore p; mret SessionUnavailable
  else
    sent ← submit (p_core_session_id p) (approval_op p decision) source;
    if negb sent then _ ← restore p; mret SubmitFailed else mret Sent.

(** [None]: an error, which the caller reports. *)
Definition resolve_authenticated_approval (request_id nonce decision : str) (resolved_by reason : option str)
    : async (option AuthenticatedApprovalOutcome) :=
  match named_action decision with
  | None => mret (Some AuthUnsupportedDecision)
  | Some action =>
      taken ← take_authenticated request_id nonce action;
      match taken with
      | Err outcome => mret (Some outcome)
      | Ok p =>
          match review_decision p action with
          | None => _ ← restore p; mret (Some AuthUnsupportedDecision)
          | Some review_decision =>
              let decision_name := to_opaque_string review_decision in
              sent ← deliver_decision p review_decision (ByToken request_id nonce action);
              match sent with
              | Sent =>
                  let resolution :=
                    {| z_id := p_request_id p; z_approved := approves review_decision; z_resolved_by := resolved_by;
                       z_reason := Some (match reason with
                                         | Some reason => redact_text_always reason
                                         | None => decision_name end);
                       z_nonce := e_nonce (p_envelope p) |} in
                  _ ← atomically (persist_resolved_approval resolution);
                  mret (Some (AuthResolved decision_name))
              | _ => mret None
              end
          end
      end
  end.

(** The inner [None]: an [expect] that fails. *)
Definition resolve_channel_approval_reply (scope : ChannelApprovalScope) (text : str)
    : async (option (option ChannelApprovalReplyOutcome)) :=
  match parse_reply text with
  | None => mret (Some (Some ReplyNoMatch))
  | Some parsed =>
      taken ← take_for_reply scope parsed;
      match taken with
      | Err outcome => mret (Some (Some outcome))
      | Ok None => mret (Some None)
      | Ok (Some p) =>
          match review_decision p (r_action parsed) with
          | None => _ ← restore p; mret (Some (Some ReplyUnsupportedDecision))
          | Some decision =>
              let decision_name := to_opaque_string decision in
              sent ← deliver_decision p decision (ByPeer (p_request_id p) scope (r_action parsed));
              match sent with
              | Sent =>
                  let resolution :=
                    {| z_id := p_request_id p; z_approved := approves decision;
                       z_resolved_by := Some (§"channel-peer:" ++ sc_peer_id (p_scope p));
                       z_reason := Some decision_name; z_nonce := e_nonce (p_envelope p) |} in
                  _ ← atomically (persist_resolved_approval resolution);
                  mret (Some (Some (ReplyResolved (p_request_id p) decision_name)))
              | _ => mret None
              end
          end
      end
  end.

(** ** The collector of a turn ([invoke_agent_text_in_session_with_metadata_impl]) *)
Record PendingApproval := { a_core_id : str; a_request_id : option str; a_exec : bool }.
Definition approval_op_of (exec : bool) (core_id : str) (decision : ReviewDecision) : Op :=
  if exec then ExecApproval core_id decision else PatchApproval core_id decision.
Definition abort_op (a : PendingApproval) : Op := approval_op_of (a_exec a) (a_core_id a) AbortTurn.

Definition invocation_mode (mode : ExecutionMode) (on_approval : bool) (approval_scope : option ChannelApprovalScope)
    : ExecutionMode :=
  if bool_decide (mode = Interactive) && (negb on_approval || bool_decide (approval_scope = None))
  then Unattended else mode.
Definition approval_id_of (event_id turn_id : str) : str :=
  if bool_decide (trim turn_id = []) then event_id else turn_id.

(** The events of the session, as far as approvals are concerned, and the deadline. *)
Inductive TurnEvent :=
| EvApproval (event_id turn_id : str) (kind : ChannelApprovalKind) (metadata : ApprovalRequestMetadata)
| EvOther
| EvTurnComplete
| EvError
| EvThreadError
| EvTimeout.

Record Invocation := {
  i_session_id : str;
  i_mode : ExecutionMode;
  i_scope : option ChannelApprovalScope;
  i_capabilities : ApprovalClientCapabilities;
}.
Record Collector := { pending_approval : option PendingApproval; invocation_approval_ids : list str }.

Fixpoint remove_invocation_approvals (request_ids : list str) : async () :=
  match request_ids with
  | [] => mret tt
  | request_id :: rest => _ ← remove request_id; remove_invocation_approvals rest
  end.

(** A pending approval is given up: removed from the coordinator, aborted in Core. *)
Definition cancel_pending (inv : Invocation) (a : option PendingApproval) : async () :=
  match a with
  | None => mret tt
  | Some a =>
      _ ← match a_request_id a with Some request_id => remove request_id | None => mret tt end;
      _ ← submit (i_session_id inv) (abort_op a) ByCollector; mret tt
  end.

(** [Err]: the collector returns an error, with the identifiers it has registered. *)
Definition on_approval_request (inv : Invocation) (approval_id : str) (kind : ChannelApprovalKind)
    (metadata : ApprovalRequestMetadata) (c : Collector) : async (result (list str) Collector) :=
  let exec := match kind with KExec _ => true | KPatch => false end in
  if bool_decide (i_mode inv = Unattended) then
    sent ← submit (i_session_id inv) (approval_op_of exec approval_id Denied) ByCollector;
    mret (if (sent : bool) then Ok c else Err (invocation_approval_ids c))
  else
    _ ← cancel_pending inv (pending_approval c);
    match i_scope inv with
    | None => mret (Err (invocation_approval_ids c))
    | Some scope =>
        registered ← register approval_id (i_session_id inv) scope kind (i_capabilities inv) metadata;
        match registered with
        | None =>
            _ ← submit (i_session_id inv) (approval_op_of exec approval_id Denied) ByCollector;
            mret (Err (invocation_approval_ids c))
        | Some p =>
            mret (Ok {| pending_approval := Some {| a_core_id := approval_id; a_request_id := Some (p_request_id p);
                                                    a_exec := exec |};
                        invocation_approval_ids := invocation_approval_ids c ++ [p_request_id p] |})
        end
    end.

(** At each event, an approval that was answered meanwhile is no longer pending. *)
Definition sync_pending (c : Collector) : async Collector :=
  match pending_approval c ≫= a_request_id with
  | None => mret c
  | Some request_id =>
      still ← is_pending request_id;
      mret (if (still : bool) then c
            else {| pending_approval := None; invocation_approval_ids := invocation_approval_ids c |})
  end.

(** [Err]: the turn ended in an error. *)
Fixpoint collect (inv : Invocation) (events : list TurnEvent) (c : Collector) : async (result (list str) ()) :=
  match events with
  | [] => mret (Err (invocation_approval_ids c))
  | EvTimeout :: _ => _ ← cancel_pending inv (pending_approval c); mret (Err (invocation_approval_ids c))
  | EvThreadError :: _ => mret (Err (invocation_approval_ids c))
  | event :: rest =>
      c ← sync_pending c;
      match event with
      | EvApproval event_id turn_id kind metadata =>
          r ← on_approval_request inv (approval_id_of event_id turn_id) kind metadata c;
          match r with Ok c => collect inv rest c | Err ids => mret (Err ids) end
      | EvTurnComplete =>
          _ ← cancel_pending inv (pending_approval c);
          _ ← remove_invocation_approvals (invocation_approval_ids c); mret (Ok tt)
      | EvError => mret (Err (invocation_approval_ids c))
      | _ => collect inv rest c
      end
  end.
Definition invoke (session_id : str) (mode : ExecutionMode) (on_approval : bool)
    (approval_scope : option ChannelApprovalScope) (capabilities : ApprovalClientCapabilities)
    (events : list TurnEvent) : async (result (list str) ()) :=
  let inv := {| i_session_id := session_id; i_mode := invocation_mode mode on_approval approval_scope;
                i_scope := approval_scope; i_capabilities := capabilities |} in
  result ← collect inv events {| pending_approval := None; invocation_approval_ids := [] |};
  match result with
  | Err ids => _ ← remove_invocation_approvals ids; mret result
  | Ok _ => mret result
  end.

(** ** The API *)
Record ResolutionBody := {
  b_id : str; b_approved : bool; b_reason : option str; b_nonce : str; b_decision : option str }.
Definition decision_text (body : ResolutionBody) : str :=
  match b_decision body with
  | Some decision => decision
  | None => if b_approved body then §"approve-once" else §"deny"
  end.

Inductive Status := StatusOk | BadRequest | Forbidden | NotFound | Conflict | InternalError.

(** The part the two entry points share, after the coordinator had no such request: an
    answer that only the file records. *)
Definition resolve_durable (id : str) (approved : bool) (resolved_by reason : option str) (nonce : str) : async Status :=
  found ← atomically (find_pending_approval id);
  match found with
  | None => mret InternalError
  | Some found =>
      if (match found with Some request => is_coordinator_owned request | None => false end) then mret Conflict
      else
        outcome ← atomically (persist_resolved_approval
          {| z_id := id; z_approved := approved; z_resolved_by := resolved_by; z_reason := reason; z_nonce := nonce |});
        mret (match outcome with
              | None => InternalError
              | Some Resolved => StatusOk
              | Some NotPending => NotFound
              | Some (NonceMismatch | LegacyMissingNonce) => BadRequest
              end)
  end.

Definition resolve_request (body : ResolutionBody) (subject : str) : async Status :=
  _ ← atomically (λ _ w, (add_named w (b_id body), tt));
  let resolved_by := Some (§"token:" ++ subject) in
  let sanitized_reason := (λ reason, sanitized_approval_text reason 512) <$> b_reason body in
  outcome ← resolve_authenticated_approval (b_id body) (b_nonce body) (decision_text body) resolved_by sanitized_reason;
  match outcome with
  | None => mret InternalError
  | Some (AuthResolved _) => mret StatusOk
  | Some (AuthNonceMismatch | AuthUnsupportedDecision) => mret BadRequest
  | Some AuthNotCoordinated =>
      resolve_durable (b_id body) (b_approved body) resolved_by sanitized_reason (b_nonce body)
  end.

(** [POST /api/exec/approval/resolve]; [label]: the token's, if it has the scope;
    [body]: [None] if it does not decode. *)
Definition approval_resolve_handler (label : option str) (body : option ResolutionBody) : async Status :=
  match label, body with
  | None, _ => mret Forbidden
  | Some _, None => mret BadRequest
  | Some label, Some body => resolve_request body label
  end.

(** The WebSocket method: here [approved] is false unless given, and a delegate of
    another kind may have answered already ([taken]). *)
Definition handle_exec_approval_resolve (request_id nonce : str) (approved : option bool) (decision reason : option str)
    (taken : bool) (authenticated_subject : str) : async Status :=
  if bool_decide (trim request_id = []) || bool_decide (trim nonce = []) then mret BadRequest
  else if taken then mret StatusOk
  else resolve_request {| b_id := trim request_id; b_approved := default false approved; b_reason := reason;
                          b_nonce := trim nonce; b_decision := decision |} authenticated_subject.

(** [POST /api/exec/approval/request]: what a caller asks for, and the request that is
    kept. *)
Definition legacy_request (r : ExecApprovalRequest) (e : Env) : ExecApprovalRequest :=
  {| q_id := uuid e; q_command := sanitized_approval_text (q_command r) 2048; q_cwd := q_cwd r; q_host := q_host r;
     q_security := q_security r; q_ask := (λ reason, sanitized_approval_text reason 512) <$> q_ask r;
     q_agent_id := q_agent_id r; q_session_id := q_session_id r; q_created_at_ms := unix_ms e;
     q_expires_at_ms := usat_add (unix_ms e) 300000; q_nonce := nonce e; q_kind := None;
     q_channel_instance_id := None; q_account_id := None; q_peer_id := None; q_logical_session_id := None;
     q_core_session_id := None; q_turn_id := None; q_environment_id := None; q_available_decisions := [];
     q_policy_fingerprint := None |}.
(** A request that cannot be written is logged and reported as forwarded all the same. *)
Definition approval_request_handler (may_request : bool) (body : option ExecApprovalRequest) : async Status :=
  if negb may_request then mret Forbidden
  else match body with
       | None => mret BadRequest
       | Some r =>
           _ ← atomically (λ e w,
             let request := legacy_request r e in
             let '(w, ok) := persist_pending_approval request e w in
             ((if ok then add_named w (q_id request) else w), tt));
           mret StatusOk
       end.

(** [GET /api/exec/approvals]. *)
Definition approvals_list_handler (may_read : bool) : async (Status * list ExecApprovalRequest) :=
  if negb may_read then mret (Forbidden, [])
  else
    l ← atomically list_pending_approvals;
    mret (match l with
          | Some approvals => (StatusOk, filter (λ r, q_kind r ≠ Some §"claude") approvals)
          | None => (InternalError, [])
          end).

(** ** The programs that run side by side *)
Inductive Outcome :=
| OInvocation (r : result (list str) ())
| OReply (r : option (option ChannelApprovalReplyOutcome))
| OStatus (r : Status)
| ODone.

(** An agent's turn; a chat message; the API; a session that is closed. *)
Inductive starts : async Outcome → Prop :=
| starts_invocation session_id mode on_approval scope capabilities events :
    starts (OInvocation <$> invoke session_id mode on_approval scope capabilities events)
| starts_reply scope text : starts (OReply <$> resolve_channel_approval_reply scope text)
| starts_resolve label body : starts (OStatus <$> approval_resolve_handler label body)
| starts_rpc request_id nonce approved decision reason taken subject :
    starts (OStatus <$> handle_exec_approval_resolve request_id nonce approved decision reason taken subject)
| starts_request may body : starts (OStatus <$> approval_request_handler may body)
| starts_list may : starts ((OStatus ∘ fst) <$> approvals_list_handler may)
| starts_close core_session_id : starts ((λ _, ODone) <$> remove_for_core_session core_session_id).

(** An identifier is new: nobody has named it before.  A nonce is not empty. *)
Definition answers_new (e : Env) (w : World) : Prop := uuid e ∉ named w ∧ nonce e ≠ [].
(** A file that could not be written may be left unreadable. *)
Definition file_lost (w w' : World) : Prop := w' = set_file w None.

Definition reachable (file : option ApprovalStore) (c : pool World Env Outcome) : Prop :=
  pool_reachable answers_new starts file_lost (world_new file) c.
End Gateway.

(** ** Who may answer what *)
Definition request_of (s : Source) : option str :=
  match s with ByPeer id _ _ | ByToken id _ _ => Some id | ByCollector => None end.
Definition answered (w : World) : list str := omap (λ d, request_of (d_source d)) (delivered w).

(** A delivery is an answer to this request: to its session and its operation, with a
    decision the client offers. *)
Definition answers (p : PendingChannelApproval) (action : ApprovalReplyAction) (d : Delivery) : Prop :=
  supported p action = true ∧ d_session d = p_core_session_id p ∧
  ∃ decision, review_decision p action = Some decision ∧ d_op d = approval_op p decision.
(** What a delivery needs: from a collector, only refusals; from a person, a request with
    this identifier, and its scope or its nonce. *)
Definition authorised (l : list PendingChannelApproval) (d : Delivery) : Prop :=
  match d_source d with
  | ByCollector => approves (decision_of (d_op d)) = false
  | ByPeer id scope action => ∃ p, p ∈ l ∧ p_request_id p = id ∧ p_scope p = scope ∧ answers p action d
  | ByToken id nonce action =>
      ∃ p, p ∈ l ∧ p_request_id p = id ∧ e_nonce (p_envelope p) = nonce ∧ answers p action d
  end.
Definition approved_in_core (w : World) (id : str) : Prop :=
  ∃ d, d ∈ delivered w ∧ request_of (d_source d) = Some id ∧ approves (decision_of (d_op d)) = true.

Definition ids (l : list PendingChannelApproval) : list str := p_request_id <$> l.

(** ** The invariant *)
(** What a program holds: a request it has taken out of the coordinator; a request it has
    had approved; an identifier it was given; an identifier that the file alone knows. *)
Record Hold := {
  h_token : option PendingChannelApproval;
  h_granted : option str;
  h_named : option str;
  h_claim : option str;
}.
Definition empty_handed : Hold := {| h_token := None; h_granted := None; h_named := None; h_claim := None |}.

Definition owned_only (w : World) (id : str) : Prop :=
  id ∈ named w ∧ ∀ r, r ∈ s_pending (load_store w) → q_id r = id → id ∉ ids (registered w).

Record hold_ok (w : World) (h : Hold) : Prop := {
  token_ok : ∀ p, h_token h = Some p →
    p ∈ registered w ∧ pending w !! p_request_id p = None ∧ p_request_id p ∉ answered w;
  granted_ok : ∀ id, h_granted h = Some id → id ∈ ids (registered w) ∧ approved_in_core w id;
  named_ok : ∀ id, h_named h = Some id → id ∈ named w;
  claim_ok : ∀ id, h_claim h = Some id → owned_only w id;
}.

Record world_ok (w : World) : Prop := {
  keys_ok : ∀ id p, pending w !! id = Some p → p_request_id p = id ∧ p ∈ registered w ∧ id ∉ answered w;
  answered_once : NoDup (answered w);
  registered_once : NoDup (ids (registered w));
  registered_named : ∀ id, id ∈ ids (registered w) → id ∈ named w;
  answered_named : ∀ id, id ∈ answered w → id ∈ named w;
  delivered_ok : ∀ d, d ∈ delivered w → authorised (registered w) d;
  pending_file_ok : ∀ r, r ∈ s_pending (load_store w) → q_id r ∈ named w ∧
    (q_id r ∈ ids (registered w) → is_coordinator_owned r = true);
  resolved_file_ok : ∀ z, z ∈ s_resolved (load_store w) → z_id z ∈ named w ∧
    (z_approved z = true → z_id z ∈ ids (registered w) → approved_in_core w (z_id z));
}.

Definition distinct_tokens (hs : gmap nat Hold) : Prop :=
  ∀ i j hi hj p q, hs !! i = Some hi → hs !! j = Some hj → i ≠ j →
    h_token hi = Some p → h_token hj = Some q → p_request_id p ≠ p_request_id q.

Record pool_ok (w : World) (hs : gmap nat Hold) : Prop := {
  po_world : world_ok w;
  po_holds : ∀ i h, hs !! i = Some h → hold_ok w h;
  po_tokens : distinct_tokens hs;
}.

(** ** What an action may do *)
Definition with_token (h : Hold) (t : option PendingChannelApproval) : Hold :=
  {| h_token := t; h_granted := h_granted h; h_named := h_named h; h_claim := h_claim h |}.
Definition with_granted (h : Hold) (g : option str) : Hold :=
  {| h_token := h_token h; h_granted := g; h_named := h_named h; h_claim := h_claim h |}.
Definition with_named (h : Hold) (n : option str) : Hold :=
  {| h_token := h_token h; h_granted := h_granted h; h_named := n; h_claim := h_claim h |}.
Definition with_claim (h : Hold) (c : option str) : Hold :=
  {| h_token := h_token h; h_granted := h_granted h; h_named := h_named h; h_claim := c |}.
Definition with_file (w : World) (f : list ExecApprovalRequest → list ExecApprovalRequest) : World :=
  set_file w (Some {| s_pending := f (s_pending (load_store w)); s_resolved := s_resolved (load_store w) |}).

Inductive move (e : Env) : World * Hold → World * Hold → Prop :=
| mv_forget w h m : m ⊆ pending w → move e (w, h) (set_pending w m, h)
| mv_take w h id p :
    h_token h = None → pending w !! id = Some p →
    move e (w, h) (set_pending w (delete id (pending w)), with_token h (Some p))
| mv_drop w h : move e (w, h) (w, with_token h None)
| mv_put w h p :
    h_token h = Some p → move e (w, h) (set_pending w (<[p_request_id p := p]> (pending w)), with_token h None)
| mv_answer w h p d :
    h_token h = Some p → authorised [p] d → request_of (d_source d) = Some (p_request_id p) →
    move e (w, h) (deliver w d, with_token (if approves (decision_of (d_op d))
                                            then with_granted h (Some (p_request_id p)) else h) None)
| mv_refuse w h d :
    d_source d = ByCollector → approves (decision_of (d_op d)) = false → move e (w, h) (deliver w d, h)
| mv_resolve w h r :
    (z_approved r = true → h_granted h = Some (z_id r) ∨ h_claim h = Some (z_id r)) →
    move e (w, h) ((persist_resolved_approval r e w).1, h)
| mv_list w h : move e (w, h) ((list_pending_approvals e w).1, h)
| mv_name w h id : move e (w, h) (add_named w id, with_named h (Some id))
| mv_claim w h id :
    h_named h = Some id →
    (∀ r, r ∈ s_pending (load_store w) → q_id r = id →
      ∃ r', r' ∈ s_pending (load_store w) ∧ q_id r' = id ∧ is_coordinator_owned r' = false) →
    move e (w, h) (w, with_claim h (Some id))
| mv_register w h p :
    h_token h = None → uuid e ∉ named w → p_request_id p = uuid e → e_id (p_envelope p) = uuid e →
    move e (w, h) (add_registered (with_file w (upsert (as_persisted_request p))) p, with_token h (Some p))
| mv_legacy w h r :
    uuid e ∉ named w → q_id r = uuid e →
    move e (w, h) (add_named (with_file w (upsert r)) (q_id r), h).

Definition assume (e : Env) (w : World) (h : Hold) : Prop := answers_new e w ∧ world_ok w ∧ hold_ok w h.
Definition guarantee (e : Env) (w : World) (h : Hold) (w' : World) (h' : Hold) : Prop :=
  rtc (move e) (w, h) (w', h').

(** ** Every action keeps the invariant *)
Lemma upsert_elem r l x : x ∈ upsert r l → x = r ∨ x ∈ l.
Proof.
  unfold upsert. destruct (list_find _ l) as [[i y]|].
  - intros (k & [(-> & -> & _)|[? Hk]]%list_lookup_insert_Some)%list_elem_of_lookup; [by left|right].
    by eapply list_elem_of_lookup_2.
  - intros [?|?%list_elem_of_singleton]%elem_of_app; auto.
Qed.

Lemma authorised_mono l l' d : l ⊆ l' → authorised l d → authorised l' d.
Proof. unfold authorised. intros Hl. destruct (d_source d); [| |done]; intros (p & ? & ?); exists p; auto. Qed.

Lemma answered_deliver w d :
  answered (deliver w d) = answered w ++ match request_of (d_source d) with Some id => [id] | None => [] end.
Proof. unfold answered. cbn. rewrite omap_app. cbn. by destruct (request_of _). Qed.

Lemma approved_mono w w' id : delivered w ⊆ delivered w' → approved_in_core w id → approved_in_core w' id.
Proof. intros Hd (d & ? & ? & ?). exists d. auto. Qed.

(** What another program holds stays right while tokens and claims are respected. *)
Lemma hold_ok_stable w w' h :
  registered w ⊆ registered w' → delivered w ⊆ delivered w' → named w ⊆ named w' →
  (∀ p, h_token h = Some p → pending w !! p_request_id p = None → p_request_id p ∉ answered w →
    pending w' !! p_request_id p = None ∧ p_request_id p ∉ answered w') →
  (∀ id, owned_only w id → owned_only w' id) → hold_ok w h → hold_ok w' h.
Proof.
  intros Hr Hd Hn Ht Hc [H1 H2 H3 H4]. split.
  - intros p Hp. destruct (H1 p Hp) as (? & ? & ?). destruct (Ht p Hp) as (? & ?); auto.
  - intros id Hid. destruct (H2 id Hid) as (Hin & ?). split; [|by eapply approved_mono].
    unfold ids in *. apply list_elem_of_fmap in Hin as (p & -> & ?). apply list_elem_of_fmap. exists p. auto.
  - intros id Hid. by apply Hn, H3.
  - intros id Hid. by apply Hc, H4.
Qed.

Lemma pool_ok_step w w' hs i h h' :
  pool_ok w hs → hs !! i = Some h → world_ok w' → hold_ok w' h' →
  (∀ j hj, j ≠ i → hs !! j = Some hj → hold_ok w' hj) →
  (∀ p, h_token h' = Some p → h_token h = Some p ∨
    ∀ j hj q, hs !! j = Some hj → h_token hj = Some q → p_request_id q ≠ p_request_id p) →
  pool_ok w' (<[i := h']> hs).
Proof.
  intros [_ Hholds Htok] Hi Hw Hh Hothers Hnew. split; [done| |].
  - intros j hj. rewrite lookup_insert_Some. intros [(<- & <-)|(? & ?)]; eauto.
  - intros j k hj hk p q. rewrite !lookup_insert_Some.
    intros [(<- & <-)|(Hj & Hhj)] [(<- & <-)|(Hk & Hhk)] Hne Hp Hq; [done| | |by eauto].
    + destruct (Hnew p Hp) as [Hold|Hfresh]; [by eapply (Htok i k)|]. intros Heq. by eapply Hfresh.
    + destruct (Hnew q Hq) as [Hold|Hfresh]; [by eapply (Htok j i)|]. by eapply Hfresh.
Qed.

Lemma world_ok_set_pending w m :
  (∀ id p, m !! id = Some p → p_request_id p = id ∧ p ∈ registered w ∧ id ∉ answered w) →
  world_ok w → world_ok (set_pending w m).
Proof. intros Hm []. by split. Qed.

Lemma world_ok_forget w m : m ⊆ pending w → world_ok w → world_ok (set_pending w m).
Proof.
  intros Hm Hw. apply world_ok_set_pending; [|done]. intros id p Hp. apply (keys_ok w Hw).
  by eapply lookup_weaken.
Qed.

Lemma world_ok_deliver w d :
  authorised (registered w) d → (∀ id, request_of (d_source d) = Some id →
    id ∈ named w ∧ id ∉ answered w ∧ pending w !! id = None) →
  world_ok w → world_ok (deliver w d).
Proof.
  intros Hd Hid [H1 H2 H3 H4 H5 H6 H7 H8]. split; rewrite ?answered_deliver; cbn; try done.
  - intros id p Hp. destruct (H1 id p Hp) as (? & ? & Hna). split_and!; try done.
    destruct (request_of _) as [id'|]; [|by rewrite app_nil_r].
    intros [?| ->%list_elem_of_singleton]%elem_of_app; [done|]. destruct (Hid id' eq_refl) as (_ & _ & Hnone).
    congruence.
  - destruct (request_of _) as [id|]; [|by rewrite app_nil_r]. apply NoDup_app.
    split_and!; [done| |apply NoDup_singleton]. intros x Hx ->%list_elem_of_singleton.
    destruct (Hid id eq_refl) as (_ & ? & _). done.
  - intros id [?|Hin]%elem_of_app; [by apply H5|]. destruct (request_of _) as [id'|]; [|by apply not_elem_of_nil in Hin].
    apply list_elem_of_singleton in Hin as ->. by apply (Hid id').
  - intros d' [?| ->%list_elem_of_singleton]%elem_of_app; [by apply H6|done].
  - intros z Hz. destruct (H8 z Hz) as [? Ha]. split; [done|]. intros ? ?.
    eapply approved_mono; [|by apply Ha]. cbn. set_solver.
Qed.

(** A file whose pending requests were pending and whose answers are accounted for. *)
Lemma world_ok_set_file w s :
  (∀ r, r ∈ s_pending s → r ∈ s_pending (load_store w)) →
  (∀ z, z ∈ s_resolved s → z ∈ s_resolved (load_store w) ∨ z_id z ∈ named w ∧
    (z_approved z = true → z_id z ∈ ids (registered w) → approved_in_core w (z_id z))) →
  world_ok w → world_ok (set_file w (Some s)).
Proof.
  intros Hp Hz [H1 H2 H3 H4 H5 H6 H7 H8]. split; try done.
  - intros r Hr. by apply H7, Hp.
  - intros z Hin. destruct (Hz z Hin) as [?|?]; [by apply H8|done].
Qed.

Lemma claims_set_file w s id :
  (∀ r, r ∈ s_pending s → r ∈ s_pending (load_store w)) →
  owned_only w id → owned_only (set_file w (Some s)) id.
Proof. intros Hp [? Hall]. split; [done|]. intros r Hr. by apply Hall, Hp. Qed.

Lemma world_ok_add_named w id : world_ok w → world_ok (add_named w id).
Proof.
  intros [H1 H2 H3 H4 H5 H6 H7 H8].
  assert (named w ⊆ named (add_named w id)) as Hn by (cbn; set_solver).
  split; try done; intros x Hx; auto.
  - destruct (H7 x Hx). auto.
  - destruct (H8 x Hx). auto.
Qed.

(** A new entry of the file, under a new identifier. *)
Lemma world_ok_new w r (reg : list PendingChannelApproval) :
  q_id r ∉ named w → (∀ p, p ∈ reg → p_request_id p = q_id r ∧ is_coordinator_owned r = true) → (length reg ≤ 1)%nat →
  world_ok w →
  world_ok {| pending := pending w; file := file (with_file w (upsert r)); delivered := delivered w;
              registered := registered w ++ reg; named := {[ q_id r ]} ∪ named w |}.
Proof.
  intros Hnew Hreg Hlen [H1 H2 H3 H4 H5 H6 H7 H8].
  assert (∀ id, id ∈ ids (registered w ++ reg) → id ∈ ids (registered w) ∨ id = q_id r ∧ is_coordinator_owned r = true)
    as Hids.
  { intros id. unfold ids. rewrite fmap_app, elem_of_app, (list_elem_of_fmap _ reg).
    intros [?|(p & -> & Hp)]; [by left|right]. by apply Hreg. }
  split; cbn; try done.
  - intros id p Hp. destruct (H1 id p Hp) as (? & ? & ?). set_solver.
  - unfold ids. rewrite fmap_app. apply NoDup_app. split_and!; [done| |].
    + intros id Hid (p & -> & Hp)%list_elem_of_fmap. apply Hnew, H4. by destruct (Hreg p Hp) as [<- _].
    + destruct reg as [|p [|q reg]]; [apply NoDup_nil_2|apply NoDup_singleton|cbn in Hlen; lia].
  - intros id [?|[-> _]]%Hids; set_solver.
  - intros id Hid%H5. set_solver.
  - intros d Hd. eapply authorised_mono; [|by apply H6]. set_solver.
  - intros x [->|Hx]%upsert_elem.
    + split; [set_solver|]. intros [Hid|[_ ?]]%Hids; [|done]. by apply H4 in Hid.
    + destruct (H7 x Hx) as [? Hown]. split; [set_solver|]. intros [?|[Heq ?]]%Hids; [by apply Hown|congruence].
  - intros z Hz. destruct (H8 z Hz) as [? Ha]. split; [set_solver|]. intros ? [?|[Heq _]]%Hids; [by apply Ha|congruence].
Qed.

Lemma persist_resolved_effect r e w :
  let w' := (persist_resolved_approval r e w).1 in
  w' = w ∨ ∃ s, w' = set_file w (Some s) ∧
    (∀ x, x ∈ s_pending s → x ∈ s_pending (load_store w)) ∧
    s_resolved s = s_resolved (load_store w) ++ [without_nonce r] ∧
    ∃ entry, entry ∈ s_pending (load_store w) ∧ q_id entry = z_id r ∧ q_nonce entry = z_nonce r.
Proof.
  unfold persist_resolved_approval. destruct (list_find _ _) as [[i entry]|] eqn:Hf; [|by left].
  apply list_find_Some in Hf as (Hin%list_elem_of_lookup_2 & Hid & _).
  case_bool_decide; [by left|]. destruct (bool_decide (q_nonce entry = _)) eqn:Hn; [|by left]. cbn [negb].
  apply bool_decide_eq_true in Hn. unfold save_store. destruct (succeeds e); [right|by left].
  eexists. split_and!; [done| |done|by exists entry].
  intros x [_ ?]%list_elem_of_filter. done.
Qed.

Lemma list_pending_effect e w :
  let w' := (list_pending_approvals e w).1 in
  w' = w ∨ ∃ s, w' = set_file w (Some s) ∧
    (∀ x, x ∈ s_pending s → x ∈ s_pending (load_store w)) ∧
    (∀ z, z ∈ s_resolved s → z ∈ s_resolved (load_store w) ∨
      z_approved z = false ∧ ∃ r, r ∈ s_pending (load_store w) ∧ z_id z = q_id r).
Proof.
  unfold list_pending_approvals. case_bool_decide; [by left|]. unfold save_store.
  destruct (succeeds e); [right|by left]. eexists. split_and!; [done| |].
  - intros x [_ ?]%list_elem_of_filter. done.
  - intros z [?|(r & -> & [_ ?]%list_elem_of_filter)%list_elem_of_fmap]%elem_of_app; [by left|right].
    split; [done|]. by exists r.
Qed.

Lemma hold_ok_with_token w h : hold_ok w h → hold_ok w (with_token h None).
Proof. intros []. by split. Qed.

(** Other programs' claims survive a new entry: its identifier is new. *)
Lemma claims_new w r (reg : list PendingChannelApproval) id :
  q_id r ∉ named w → (∀ p, p ∈ reg → p_request_id p = q_id r) → owned_only w id →
  owned_only {| pending := pending w; file := file (with_file w (upsert r)); delivered := delivered w;
                registered := registered w ++ reg; named := {[ q_id r ]} ∪ named w |} id.
Proof.
  intros Hnew Hreg [Hn Hall]. split; cbn; [set_solver|].
  assert (id ≠ q_id r) as Hne by congruence.
  intros x [->|Hx]%upsert_elem Hid; [by destruct Hne|].
  unfold ids. rewrite fmap_app. intros [?|(p & -> & Hp)%list_elem_of_fmap]%elem_of_app; [by eapply Hall|].
  apply Hne. by apply Hreg.
Qed.

Definition other_holds (w : World) (hs : gmap nat Hold) (i : nat) : Prop :=
  ∀ j hj, j ≠ i → hs !! j = Some hj → hold_ok w hj.

(** Only the file changed. *)
Lemma file_move w hs i h s :
  pool_ok w hs → hs !! i = Some h → world_ok (set_file w (Some s)) →
  (∀ x, x ∈ s_pending s → x ∈ s_pending (load_store w)) →
  pool_ok (set_file w (Some s)) hs.
Proof.
  intros Hpool Hi Hw Hs. rewrite <-(insert_id hs i h Hi).
  assert (∀ hj, hold_ok w hj → hold_ok (set_file w (Some s)) hj) as Hstable.
  { intros hj. apply (hold_ok_stable w); try done. intros id. by apply claims_set_file. }
  eapply pool_ok_step; eauto using po_holds.
Qed.

Lemma pending_move w hs i h m h' :
  pool_ok w hs → hs !! i = Some h → world_ok (set_pending w m) → hold_ok (set_pending w m) h' →
  (∀ j hj p, j ≠ i → hs !! j = Some hj → h_token hj = Some p → m !! p_request_id p = None) →
  (∀ p, h_token h' = Some p → h_token h = Some p ∨
    ∀ j hj q, hs !! j = Some hj → h_token hj = Some q → p_request_id q ≠ p_request_id p) →
  pool_ok (set_pending w m) (<[i := h']> hs).
Proof.
  intros Hpool Hi Hw Hh Hothers Hnew. eapply pool_ok_step; eauto.
  intros j hj Hj Hhj. apply (hold_ok_stable w); [done|done|done| |done|by eapply po_holds].
  intros p Hp _ Hna. split; [by eapply Hothers|done].
Qed.

Lemma take_move w hs i h id p :
  pool_ok w hs → hs !! i = Some h → h_token h = None → pending w !! id = Some p →
  pool_ok (set_pending w (delete id (pending w))) (<[i := with_token h (Some p)]> hs).
Proof.
  intros Hpool Hi Hnone Hp. pose proof (po_world _ _ Hpool) as Hw.
  destruct (keys_ok _ Hw id p Hp) as (Hid & Hreg & Hna).
  pose proof (po_holds _ _ Hpool i h Hi) as Hh.
  assert (∀ j hj q, hs !! j = Some hj → h_token hj = Some q → p_request_id q ≠ id) as Hdiff.
  { intros j hj q Hj Hq Heq. destruct (token_ok _ _ (po_holds _ _ Hpool j hj Hj) q Hq) as (_ & Hn & _). congruence. }
  eapply pending_move; eauto.
  - apply world_ok_forget; [apply delete_subseteq|done].
  - destruct Hh as [_ H2 H3 H4]. split; try done. intros q [= <-]. cbn.
    rewrite Hid. split_and!; [done|by rewrite lookup_delete_eq|done].
  - intros j hj q _ Hj Hq. rewrite lookup_delete_ne by (intros ?; by eapply Hdiff).
    by destruct (token_ok _ _ (po_holds _ _ Hpool j hj Hj) q Hq) as (_ & ? & _).
  - intros q [= <-]. right. rewrite Hid. exact Hdiff.
Qed.

Lemma put_move w hs i h p :
  pool_ok w hs → hs !! i = Some h → h_token h = Some p →
  pool_ok (set_pending w (<[p_request_id p := p]> (pending w))) (<[i := with_token h None]> hs).
Proof.
  intros Hpool Hi Hp. pose proof (po_world _ _ Hpool) as Hw.
  pose proof (po_holds _ _ Hpool i h Hi) as Hh. destruct (token_ok _ _ Hh p Hp) as (Hreg & Hnone & Hna).
  eapply pending_move; eauto.
  - apply world_ok_set_pending; [|done]. intros id q. rewrite lookup_insert_Some.
    intros [(<- & <-)|(_ & ?)]; [done|by apply keys_ok].
  - destruct Hh as [_ H2 H3 H4]. by split.
  - intros j hj q Hj Hhj Hq. rewrite lookup_insert_ne; [|by eapply (po_tokens _ _ Hpool i j)].
    by destruct (token_ok _ _ (po_holds _ _ Hpool j hj Hhj) q Hq) as (_ & ? & _).
Qed.

Lemma deliver_move w hs i h d h' :
  pool_ok w hs → hs !! i = Some h → world_ok (deliver w d) → hold_ok (deliver w d) h' →
  (∀ j hj p id, j ≠ i → hs !! j = Some hj → h_token hj = Some p → request_of (d_source d) = Some id →
    p_request_id p ≠ id) →
  (∀ p, h_token h' = Some p → h_token h = Some p) →
  pool_ok (deliver w d) (<[i := h']> hs).
Proof.
  intros Hpool Hi Hw Hh Hothers Hnew. eapply pool_ok_step; eauto.
  intros j hj Hj Hhj. apply (hold_ok_stable w); [done|cbn; set_solver|done| |done|by eapply po_holds].
  intros p Hp ? Hna. split; [done|]. rewrite answered_deliver. intros [?|Hin]%elem_of_app; [done|].
  destruct (request_of (d_source d)) as [id|] eqn:E; [|by apply not_elem_of_nil in Hin].
  apply list_elem_of_singleton in Hin. by eapply Hothers.
Qed.

Lemma answer_move w hs i h p d :
  pool_ok w hs → hs !! i = Some h → h_token h = Some p → authorised [p] d →
  request_of (d_source d) = Some (p_request_id p) →
  pool_ok (deliver w d) (<[i := with_token (if approves (decision_of (d_op d))
                                            then with_granted h (Some (p_request_id p)) else h) None]> hs).
Proof.
  intros Hpool Hi Hp Hauth Hreq. pose proof (po_world _ _ Hpool) as Hw.
  pose proof (po_holds _ _ Hpool i h Hi) as Hh. destruct (token_ok _ _ Hh p Hp) as (Hreg & Hnone & Hna).
  assert (p_request_id p ∈ ids (registered w)) as Hids by by apply list_elem_of_fmap_2.
  eapply deliver_move; eauto.
  - apply world_ok_deliver; [eapply authorised_mono; [|done]; set_solver| |done].
    intros id. rewrite Hreq. intros [= <-]. split_and!; [by apply registered_named|done|done].
  - destruct Hh as [_ H2 H3 H4].
    assert (∀ id, approved_in_core w id → approved_in_core (deliver w d) id) as Hmono.
    { intros id. apply approved_mono. cbn. set_solver. }
    destruct (approves _) eqn:Ha; split; try done; cbn.
    + intros id [= <-]. split; [done|]. exists d. cbn. split_and!; [set_solver|done|done].
    + intros id Hid. destruct (H2 id Hid). auto.
  - intros j hj q id Hj Hhj Hq. rewrite Hreq. intros [= <-]. by eapply (po_tokens _ _ Hpool j i).
  - by destruct (approves _).
Qed.

Lemma new_entry_move w hs i h r reg h' :
  pool_ok w hs → hs !! i = Some h → q_id r ∉ named w →
  (∀ p, p ∈ reg → p_request_id p = q_id r ∧ is_coordinator_owned r = true) → (length reg ≤ 1)%nat →
  (h' = h ∨ ∃ p, reg = [p] ∧ h_token h = None ∧ h' = with_token h (Some p)) →
  pool_ok {| pending := pending w; file := file (with_file w (upsert r)); delivered := delivered w;
             registered := registered w ++ reg; named := {[ q_id r ]} ∪ named w |} (<[i := h']> hs).
Proof.
  intros Hpool Hi Hnew Hreg Hlen Hh'. pose proof (po_world _ _ Hpool) as Hw.
  assert (∀ hj, hold_ok w hj → hold_ok {| pending := pending w; file := file (with_file w (upsert r));
    delivered := delivered w; registered := registered w ++ reg; named := {[ q_id r ]} ∪ named w |} hj) as Hstable.
  { intros hj. apply (hold_ok_stable w); cbn; [set_solver|done|set_solver|done|].
    intros id. apply claims_new; [done|]. intros p Hp. by apply Hreg. }
  pose proof (Hstable _ (po_holds _ _ Hpool i h Hi)) as Hh.
  eapply pool_ok_step; eauto using world_ok_new, po_holds.
  - destruct Hh' as [->|(p & -> & Hnone & ->)]; [done|]. destruct Hh as [_ H2 H3 H4]. split; try done.
    intros q [= <-]. cbn. destruct (Hreg p) as [Hid _]; [set_solver|]. split_and!; [set_solver| |].
    + rewrite Hid. apply eq_None_not_Some. intros [q Hq]. destruct (keys_ok _ Hw _ _ Hq) as (<- & Hin & _).
      rewrite <-Hid in Hnew. apply Hnew. destruct (keys_ok _ Hw _ _ Hq) as (Hqid & _).
      rewrite Hid, <-Hqid. apply registered_named; [done|]. by apply list_elem_of_fmap_2.
    + intros Hin. apply Hnew. rewrite <-Hid. by apply answered_named.
  - destruct Hh' as [->|(p & -> & Hnone & ->)]; [by left|]. intros q [= <-]. right.
    intros j hj q Hj Hq Heq. destruct (Hreg p) as [Hid _]; [set_solver|].
    destruct (token_ok _ _ (po_holds _ _ Hpool j hj Hj) q Hq) as (Hin & _). apply Hnew.
    rewrite <-Hid, <-Heq. apply registered_named; [done|]. by apply list_elem_of_fmap_2.
Qed.

Lemma resolve_move w hs i h r e :
  pool_ok w hs → hs !! i = Some h →
  (z_approved r = true → h_granted h = Some (z_id r) ∨ h_claim h = Some (z_id r)) →
  pool_ok (persist_resolved_approval r e w).1 (<[i := h]> hs).
Proof.
  intros Hpool Hi Happ. rewrite insert_id by done. pose proof (po_world _ _ Hpool) as Hw.
  pose proof (po_holds _ _ Hpool i h Hi) as Hh.
  destruct (persist_resolved_effect r e w) as [->|(s & -> & Hpend & Hres & entry & Hin & Hid & _)]; [done|].
  eapply file_move; eauto. apply world_ok_set_file; try done.
  intros z. rewrite Hres. intros [?|Hz]%elem_of_app; [by left|right].
  apply list_elem_of_singleton in Hz as ->. cbn.
  destruct (pending_file_ok _ Hw entry Hin) as [Hn _]. rewrite Hid in Hn. split; [done|].
  intros Ha Hreg. destruct (Happ Ha) as [Hg|Hc]; [by apply (granted_ok _ _ Hh)|].
  destruct (claim_ok _ _ Hh _ Hc) as [_ Hnot]. by destruct (Hnot entry Hin Hid).
Qed.

Lemma list_move w hs i h e :
  pool_ok w hs → hs !! i = Some h → pool_ok (list_pending_approvals e w).1 (<[i := h]> hs).
Proof.
  intros Hpool Hi. rewrite insert_id by done. pose proof (po_world _ _ Hpool) as Hw.
  destruct (list_pending_effect e w) as [->|(s & -> & Hpend & Hres)]; [done|].
  eapply file_move; eauto. apply world_ok_set_file; try done.
  intros z Hz. destruct (Hres z Hz) as [?|(Ha & r & Hr & Hzr)]; [by left|right].
  rewrite Hzr. split; [by apply (pending_file_ok _ Hw)|]. congruence.
Qed.

Lemma local_move w hs i h h' :
  pool_ok w hs → hs !! i = Some h → hold_ok w h' → (∀ p, h_token h' = Some p → h_token h = Some p) →
  pool_ok w (<[i := h']> hs).
Proof. intros Hpool Hi Hh Hnew. eapply pool_ok_step; eauto using po_world, po_holds. Qed.

Lemma name_move w hs i h id :
  pool_ok w hs → hs !! i = Some h → pool_ok (add_named w id) (<[i := with_named h (Some id)]> hs).
Proof.
  intros Hpool Hi.
  assert (∀ hj, hold_ok w hj → hold_ok (add_named w id) hj) as Hstable.
  { intros hj. apply (hold_ok_stable w); try done; [cbn; set_solver|].
    intros x [? Hall]. split; [cbn; set_solver|done]. }
  pose proof (Hstable _ (po_holds _ _ Hpool i h Hi)) as [H1 H2 H3 H4].
  eapply pool_ok_step; eauto using po_holds.
  - apply world_ok_add_named. by eapply po_world.
  - split; try done. intros x [= <-]. cbn. set_solver.
Qed.

Lemma move_ok e w hs i h w' h' :
  pool_ok w hs → hs !! i = Some h → move e (w, h) (w', h') → pool_ok w' (<[i := h']> hs).
Proof.
  intros Hpool Hi Hmove. pose proof (po_world _ _ Hpool) as Hw.
  pose proof (po_holds _ _ Hpool i h Hi) as Hh.
  inversion Hmove as
    [w0 h0 m Hm|w0 h0 id p Ht Hp|w0 h0|w0 h0 p Ht|w0 h0 p d Ht Ha Hr|w0 h0 d Hs Ha|w0 h0 r Hr|w0 h0|w0 h0 id
    |w0 h0 id Hn Hall|w0 h0 p Ht Hu Hp He|w0 h0 r Hu Hr]; subst.
  - eapply pending_move; eauto.
    + by apply world_ok_forget.
    + apply (hold_ok_stable w); try done. intros p _ Hn Hna. split; [|done]. by eapply lookup_weaken_None.
    + intros j hj p _ Hj Hp. eapply lookup_weaken_None; [|done].
      by destruct (token_ok _ _ (po_holds _ _ Hpool j hj Hj) p Hp) as (_ & ? & _).
  - by eapply take_move.
  - eapply local_move; eauto using hold_ok_with_token. done.
  - by eapply put_move.
  - by eapply answer_move.
  - eapply deliver_move; eauto.
    + apply world_ok_deliver; [unfold authorised; by rewrite Hs| |done]. rewrite Hs. done.
    + apply (hold_ok_stable w); try done; [cbn; set_solver|].
      intros p _ ? ?. rewrite answered_deliver, Hs. cbn. by rewrite app_nil_r.
    + intros j hj p id _ _ _. rewrite Hs. done.
  - by apply resolve_move.
  - by apply list_move.
  - by apply name_move.
  - eapply local_move; eauto. destruct Hh as [H1 H2 H3 H4]. split; try done.
    intros x [= <-]. split; [by apply H3|]. intros r Hin Hid Hreg.
    destruct (Hall r Hin Hid) as (r' & Hin' & Hid' & Hown').
    destruct (pending_file_ok _ Hw r' Hin') as [_ Hown]. rewrite Hid' in Hown. specialize (Hown Hreg). congruence.
  - assert (q_id (as_persisted_request p) = uuid e) as Hq by exact He.
    assert (p_request_id p = q_id (as_persisted_request p)) as Hpq by congruence.
    unfold add_registered. cbn. rewrite Hpq.
    apply (new_entry_move w hs i h (as_persisted_request p) [p]); try done; [congruence| |].
    + intros q ->%list_elem_of_singleton. done.
    + right. by exists p.
  - assert (pool_ok {| pending := pending w; file := file (with_file w (upsert r)); delivered := delivered w;
      registered := registered w ++ []; named := {[ q_id r ]} ∪ named w |} (<[i := h']> hs)) as Hok.
    { apply (new_entry_move w hs i h' r []); try done; [congruence| |cbn; lia|by left].
      by intros p ?%not_elem_of_nil. }
    by rewrite app_nil_r in Hok.
Qed.

(** ** Every program keeps to its actions *)
Local Notation ok Q p h := (safe assume guarantee Q p h) (only parsing).

Lemma one_move e w h w' h' : move e (w, h) (w', h') → guarantee e w h w' h'.
Proof. intros. by apply rtc_once. Qed.
#[local] Hint Resolve one_move : core.
#[local] Hint Constructors move : core.

Lemma with_token_id h : h_token h = None → with_token h None = h.
Proof. by destruct h; cbn; intros ->. Qed.

Section Safety.
Context (redact : str → str) (persistent : bool).

Lemma persist_resolved_safe (Q : option ResolveOutcome → Hold → Prop) r h :
  (z_approved r = true → h_granted h = Some (z_id r) ∨ h_claim h = Some (z_id r)) →
  (∀ o, Q o h) → ok Q (atomically (persist_resolved_approval r)) h.
Proof. intros Hr HQ. apply safe_atomically. intros e w _. exists h. split; [|done]. apply one_move. by constructor. Qed.

Lemma persist_terminal_safe Q p by_ reason h : Q tt h → ok Q (persist_terminal persistent p false by_ reason) h.
Proof.
  intros HQ. unfold persist_terminal. destruct (negb persistent); [done|].
  apply safe_bind, persist_resolved_safe; [done|]. by intros o.
Qed.

Lemma persist_terminals_safe Q ps reason h : Q tt h → ok Q (persist_terminals persistent ps reason) h.
Proof.
  intros HQ. induction ps as [|p ps IH]; cbn [persist_terminals]; [done|].
  by apply safe_bind, persist_terminal_safe.
Qed.

Lemma drain_move f e w h : move e (w, h) ((drain f w).1, h).
Proof. apply (mv_forget e w h (pending (drain f w).1)). cbn. apply map_filter_subseteq. Qed.

Lemma prune_expired_safe Q h : Q tt h → ok Q (prune_expired persistent) h.
Proof.
  intros HQ. apply safe_step. intros e w _. exists h. split; [|by apply persist_terminals_safe].
  apply one_move, drain_move.
Qed.

Lemma remove_for_core_session_safe Q id h : Q tt h → ok Q (remove_for_core_session persistent id) h.
Proof.
  intros HQ. apply safe_step. intros e w _. exists h. split; [|by apply persist_terminals_safe].
  apply one_move, drain_move.
Qed.

Lemma remove_safe Q id h : Q tt h → ok Q (remove persistent id) h.
Proof.
  intros HQ. apply safe_step. intros e w _. exists h. cbn. split; [apply one_move, mv_forget, delete_subseteq|].
  destruct (pending w !! id); [by apply persist_terminal_safe|done].
Qed.

Lemma is_pending_safe Q id h : (∀ b, Q b h) → ok Q (is_pending id) h.
Proof. intros HQ. apply safe_atomically. intros e w _. exists h. split; [by apply rtc_refl|done]. Qed.

Lemma restore_safe Q p h : h_token h = Some p → Q tt (with_token h None) → ok Q (restore p) h.
Proof.
  intros Hp HQ. apply safe_atomically. intros e w _. exists (with_token h None). cbn. split; [|done].
  destruct (instant e <? p_expires_at p); auto.
Qed.

Lemma submit_safe Q session op source h :
  source = ByCollector → approves (decision_of op) = false → (∀ b, Q b h) → ok Q (submit session op source) h.
Proof.
  intros Hs Ha HQ. apply safe_atomically. intros e w _. exists h.
  destruct (succeeds e); cbn; (split; [|done]); [auto|by apply rtc_refl].
Qed.

Lemma register_safe Q core_id session scope kind caps metadata h :
  h_token h = None → (∀ r, Q r h) → ok Q (register redact core_id session scope kind caps metadata) h.
Proof.
  intros Ht HQ. apply safe_step. intros e w [[Hu _] _].
  unfold persist_pending_approval, save_store. destruct (succeeds e); cbn [fst snd].
  - set (p := register_with_ttl redact core_id session scope kind caps metadata DEFAULT_APPROVAL_TTL e).
    exists (with_token h (Some p)). split; [by apply one_move, mv_register|].
    apply safe_step. intros e' w' _. exists (with_token (with_token h (Some p)) None). cbn [fst snd]. split.
    + apply one_move. by apply mv_put.
    + apply safe_ret. change (with_token (with_token h (Some p)) None) with (with_token h None).
      by rewrite with_token_id.
  - exists h. split; [by apply rtc_refl|by apply safe_ret].
Qed.

Lemma select_request_ok w scope rid id :
  world_ok w → select_request scope rid (pending w) = Ok id →
  ∃ p, pending w !! id = Some p ∧ p_scope p = scope.
Proof.
  intros Hw. unfold select_request. destruct rid as [rid|].
  - destruct (pending w !! rid) as [p|] eqn:Hp; [|done]. case_bool_decide; [|done]. intros [= <-]. eauto.
  - destruct (filter _ _) as [|[k p] [|]] eqn:Hf; [done| |done]. intros [= <-].
    assert ((k, p) ∈ filter (λ kv, p_scope kv.2 = scope) (map_to_list (pending w))) as Hin by (rewrite Hf; by left).
    apply list_elem_of_filter in Hin as (Hs & Hin%elem_of_map_to_list).
    destruct (keys_ok _ Hw k p Hin) as (-> & _). eauto.
Qed.

Lemma take_for_reply_safe Q scope parsed h :
  h_token h = None → (∀ o, Q (Err o) h) →
  (∀ p, supported p (r_action parsed) = true → p_scope p = scope → Q (Ok (Some p)) (with_token h (Some p))) →
  ok Q (take_for_reply persistent scope parsed) h.
Proof.
  intros Ht HE HO. apply safe_bind, prune_expired_safe, safe_atomically. intros e w (_ & Hw & _).
  unfold take_selected. destruct (select_request scope _ _) as [id|o] eqn:Hs; cbn.
  - destruct (select_request_ok _ _ _ _ Hw Hs) as (p & Hp & Hscope). rewrite Hp.
    destruct (supported p _) eqn:Hsup; cbn.
    + exists (with_token h (Some p)). split; [by apply one_move, mv_take|by apply HO].
    + exists h. split; [by apply rtc_refl|by apply HE].
  - exists h. split; [by apply rtc_refl|by apply HE].
Qed.

Lemma take_authenticated_safe Q id nonce action h :
  h_token h = None → (∀ o, Q (Err o) h) →
  (∀ p, supported p action = true → p_request_id p = id → e_nonce (p_envelope p) = nonce →
    Q (Ok p) (with_token h (Some p))) →
  ok Q (take_authenticated persistent id nonce action) h.
Proof.
  intros Ht HE HO. apply safe_bind, prune_expired_safe, safe_atomically. intros e w (_ & Hw & _).
  unfold take_nonced. destruct (pending w !! id) as [p|] eqn:Hp; cbn.
  - destruct (keys_ok _ Hw _ _ Hp) as (Hid & _).
    destruct (bool_decide (e_nonce (p_envelope p) = nonce)) eqn:Hn; cbn [negb].
    + apply bool_decide_eq_true in Hn. destruct (supported p action) eqn:Hsup; cbn.
      * exists (with_token h (Some p)). split; [by apply one_move, mv_take|by apply HO].
      * exists h. split; [by apply rtc_refl|by apply HE].
    + exists h. split; [by apply rtc_refl|by apply HE].
  - exists h. split; [by apply rtc_refl|by apply HE].
Qed.

(** What is held after a delivery. *)
Definition after_delivery (h : Hold) (p : PendingChannelApproval) (decision : ReviewDecision) : Hold :=
  with_token (if approves decision then with_granted h (Some (p_request_id p)) else h) None.

Lemma decision_of_approval_op p decision : decision_of (approval_op p decision) = decision.
Proof. unfold approval_op. by destruct (p_kind p). Qed.

Lemma deliver_decision_safe Q p decision source h :
  h_token h = Some p → request_of source = Some (p_request_id p) →
  authorised [p] {| d_session := p_core_session_id p; d_op := approval_op p decision; d_source := source |} →
  Q Sent (after_delivery h p decision) → (∀ r, r ≠ Sent → Q r (with_token h None)) →
  ok Q (deliver_decision p decision source) h.
Proof.
  intros Ht Hreq Hauth HS HF. apply safe_step. intros e w _. exists h. split; [by apply rtc_refl|]. cbn [fst snd].
  destruct (succeeds e); cbn [negb].
  - apply safe_step. intros e' w' _. destruct (succeeds e'); cbn [fst snd negb].
    + exists (after_delivery h p decision). split; [|done]. apply one_move. unfold after_delivery.
      set (d := {| d_session := _ |}) in Hauth |- *.
      replace decision with (decision_of (d_op d)) by apply decision_of_approval_op. by apply mv_answer.
    + exists h. split; [by apply rtc_refl|]. apply safe_bind, restore_safe; [done|]. by apply HF.
  - apply safe_bind, restore_safe; [done|]. by apply HF.
Qed.

Lemma resolution_allowed h p decision r :
  z_id r = p_request_id p → z_approved r = approves decision →
  z_approved r = true →
  h_granted (after_delivery h p decision) = Some (z_id r) ∨ h_claim (after_delivery h p decision) = Some (z_id r).
Proof. intros -> -> Ha. left. unfold after_delivery. by rewrite Ha. Qed.

Lemma supported_review p action : supported p action = true → ∃ decision, review_decision p action = Some decision.
Proof.
  unfold supported, supports_persisted_rule, has_amendment, review_decision.
  destruct action; eauto. destruct (p_kind p) as [[]|]; rewrite ?andb_false_r; eauto; done.
Qed.

Lemma resolve_reply_safe scope text :
  ok (λ r _, r ≠ Some None) (resolve_channel_approval_reply persistent scope text) empty_handed.
Proof.
  unfold resolve_channel_approval_reply. destruct (parse_reply text) as [parsed|]; [|by apply safe_ret].
  apply safe_bind, take_for_reply_safe; [done|by intros o; apply safe_ret|].
  intros p Hsup Hscope. destruct (supported_review _ _ Hsup) as (decision & Hrev). rewrite Hrev.
  apply safe_bind, deliver_decision_safe; [done|done| | |].
  - exists p. split_and!; [set_solver|done|done|]. split_and!; [done|done|eauto].
  - apply safe_bind, persist_resolved_safe; [by apply (resolution_allowed _ p decision)|]. intros o. by apply safe_ret.
  - intros [] ?; [done|by apply safe_ret..].
Qed.

Lemma resolve_authenticated_safe Q id nonce decision by_ reason h :
  h_token h = None → Q (Some AuthNotCoordinated) h → (∀ o h', o ≠ Some AuthNotCoordinated → Q o h') →
  ok Q (resolve_authenticated_approval redact persistent id nonce decision by_ reason) h.
Proof.
  intros Ht HN HQ. unfold resolve_authenticated_approval.
  destruct (named_action decision) as [action|]; [|by apply safe_ret, HQ].
  apply safe_bind, take_authenticated_safe; [done| |].
  { intros o. apply safe_ret. destruct o; try (by apply HQ). done. }
  intros p Hsup Hid Hn. destruct (supported_review _ _ Hsup) as (d & Hrev). rewrite Hrev.
  apply safe_bind, deliver_decision_safe; [done|by cbn; rewrite Hid| | |].
  - exists p. split_and!; [set_solver|done|done|]. split_and!; [done|done|eauto].
  - apply safe_bind, persist_resolved_safe; [by apply (resolution_allowed _ p d)|]. intros o. by apply safe_ret, HQ.
  - intros [] ?; [done|by apply safe_ret, HQ..].
Qed.

Lemma listed_pending e w l :
  (list_pending_approvals e w).2 = Some l → s_pending (load_store (list_pending_approvals e w).1) = l.
Proof.
  unfold list_pending_approvals. case_bool_decide as He; [|unfold save_store; destruct (succeeds e); by intros [= <-]].
  intros [= <-]. cbn. generalize dependent (s_pending (load_store w)). intros l He.
  induction l as [|r l IH]; [done|]. rewrite filter_cons in He. rewrite filter_cons.
  destruct (is_expired (unix_ms e) r); [by rewrite decide_True in He|].
  rewrite decide_False in He by done. rewrite decide_True by done. f_equal. by apply IH.
Qed.

Definition owned_request (found : option ExecApprovalRequest) : bool :=
  match found with Some request => is_coordinator_owned request | None => false end.

Lemma find_pending_safe (Q : option (option ExecApprovalRequest) → Hold → Prop) id h :
  h_named h = Some id → Q None h → (∀ found, owned_request found = true → Q (Some found) h) →
  (∀ found, owned_request found = false → Q (Some found) (with_claim h (Some id))) →
  ok Q (atomically (find_pending_approval id)) h.
Proof.
  intros Hn HF HO HC. apply safe_atomically. intros e w _.
  pose proof (mv_list e w h) as Hlist. pose proof (listed_pending e w) as Hl. unfold find_pending_approval.
  destruct (list_pending_approvals e w) as [w' [l|]]; cbn [fst snd fmap option_fmap option_map] in *;
    [|exists h; split; [by apply one_move|done]].
  specialize (Hl l eq_refl). set (found := snd <$> _).
  destruct (owned_request found) eqn:Hown; [exists h; split; [by apply one_move|by apply HO]|].
  exists (with_claim h (Some id)). split; [|by apply HC].
  eapply rtc_l; [exact Hlist|]. apply rtc_once, mv_claim; [done|]. rewrite Hl. intros r Hr Hid. unfold found in Hown.
  destruct (list_find (λ r, q_id r = id) l) as [[i r']|] eqn:Hf; cbn in Hown.
  - apply list_find_Some in Hf as (?%list_elem_of_lookup_2 & ? & _). by exists r'.
  - rewrite list_find_None, Forall_forall in Hf. by destruct (Hf r Hr).
Qed.

Lemma resolve_durable_safe Q id approved by_ reason nonce h :
  h_named h = Some id → (∀ s h', Q s h') → ok Q (resolve_durable id approved by_ reason nonce) h.
Proof.
  intros Hn HQ. apply safe_bind, find_pending_safe; [done|by apply safe_ret| |].
  - intros found Hown. unfold owned_request in Hown. rewrite Hown. by apply safe_ret.
  - intros found Hown. unfold owned_request in Hown. rewrite Hown.
    apply safe_bind, persist_resolved_safe; [by right|]. intros o. by apply safe_ret.
Qed.

Lemma resolve_request_safe (Q : Status → Hold → Prop) body subject h :
  h_token h = None → (∀ s h', Q s h') → ok Q (resolve_request redact persistent body subject) h.
Proof.
  intros Ht HQ. apply safe_step. intros e w _. exists (with_named h (Some (b_id body))). split; [by apply one_move, mv_name|].
  apply safe_bind, resolve_authenticated_safe; [done| |].
  - apply resolve_durable_safe; [done|apply HQ].
  - intros [[]|] h' Ho; try (by apply safe_ret, HQ). done.
Qed.

(** *** The collector *)
Lemma cancel_pending_safe Q inv a h : Q tt h → ok Q (cancel_pending persistent inv a) h.
Proof.
  intros HQ. destruct a as [a|]; [|done]. cbn [cancel_pending]. apply safe_bind.
  destruct (a_request_id a); [apply remove_safe|apply safe_ret];
    (apply safe_bind, submit_safe; [done|by unfold abort_op, approval_op_of; destruct (a_exec a)|by intros b; apply safe_ret]).
Qed.

Lemma remove_invocation_approvals_safe Q l h : Q tt h → ok Q (remove_invocation_approvals persistent l) h.
Proof.
  intros HQ. induction l as [|id l IH]; cbn [remove_invocation_approvals]; [done|]. by apply safe_bind, remove_safe.
Qed.

Lemma denied_op b id : approves (decision_of (approval_op_of b id Denied)) = false.
Proof. by destruct b. Qed.

Lemma on_approval_request_safe Q inv id kind metadata c h :
  h_token h = None → (∀ r, Q r h) → ok Q (on_approval_request redact persistent inv id kind metadata c) h.
Proof.
  intros Ht HQ. unfold on_approval_request. case_bool_decide.
  - apply safe_bind, submit_safe; [done|apply denied_op|]. intros b. by apply safe_ret.
  - apply safe_bind, cancel_pending_safe. destruct (i_scope inv) as [scope|]; [|by apply safe_ret].
    apply safe_bind, register_safe; [done|]. intros [p|]; [by apply safe_ret|].
    apply safe_bind, submit_safe; [done|apply denied_op|]. intros b. by apply safe_ret.
Qed.

Lemma sync_pending_safe Q c h : (∀ c', Q c' h) → ok Q (sync_pending c) h.
Proof.
  intros HQ. unfold sync_pending. destruct (pending_approval c ≫= a_request_id); [|by apply safe_ret].
  apply safe_bind, is_pending_safe. intros b. by apply safe_ret.
Qed.

Lemma collect_safe Q inv events c h :
  h_token h = None → (∀ r, Q r h) → ok Q (collect redact persistent inv events c) h.
Proof.
  intros Ht HQ. revert c. induction events as [|event rest IH]; intros c; cbn [collect]; [by apply safe_ret|].
  destruct event as [eid tid kind metadata| | | | |];
    first [by apply safe_ret | by apply safe_bind, cancel_pending_safe, safe_ret | apply safe_bind, sync_pending_safe; intros c'].
  - apply safe_bind, on_approval_request_safe; [done|]. intros [c''|ids']; [by apply IH|by apply safe_ret].
  - by apply IH.
  - by apply safe_bind, cancel_pending_safe, safe_bind, remove_invocation_approvals_safe, safe_ret.
  - by apply safe_ret.
Qed.

Lemma invoke_safe Q session mode on scope caps events h :
  h_token h = None → (∀ r, Q r h) → ok Q (invoke redact persistent session mode on scope caps events) h.
Proof.
  intros Ht HQ. apply safe_bind, collect_safe; [done|]. intros [[]|ids']; [by apply safe_ret|].
  by apply safe_bind, remove_invocation_approvals_safe, safe_ret.
Qed.

(** An [expect] of the coordinator never fails. *)
Definition no_panic (r : Outcome) : Prop := r ≠ OReply (Some None).

Lemma starts_safe p : starts redact persistent p → ok (λ r _, no_panic r) p empty_handed.
Proof.
  intros [session mode on scope caps events|scope text|label body|id n approved decision reason taken subject
         |may body|may|session]; apply safe_fmap.
  - by apply invoke_safe.
  - eapply safe_mono; [|apply resolve_reply_safe]. intros r h Hr [= ->]. done.
  - destruct label as [label|], body as [body|]; try (by apply safe_ret). by apply resolve_request_safe.
  - unfold handle_exec_approval_resolve. destruct (_ || _); [by apply safe_ret|].
    destruct taken; [by apply safe_ret|by apply resolve_request_safe].
  - unfold approval_request_handler. destruct (negb may); [by apply safe_ret|].
    destruct body as [r|]; [|by apply safe_ret]. apply safe_step. intros e w [[Hu _] _]. exists empty_handed.
    unfold persist_pending_approval, save_store. destruct (succeeds e); cbn [fst snd]; (split; [|by apply safe_ret]).
    + by apply one_move, (mv_legacy e w empty_handed (legacy_request redact r e)).
    + by apply rtc_refl.
  - unfold approvals_list_handler. destruct (negb may); [by apply safe_ret|].
    apply safe_step. intros e w _. exists empty_handed. split; [by apply one_move, mv_list|by apply safe_ret].
  - by apply remove_for_core_session_safe.
Qed.

(** *** The pool *)
Lemma world_new_ok file : world_ok (world_new file).
Proof.
  split; cbn; try done.
  - apply NoDup_nil_2.
  - apply NoDup_nil_2.
  - by intros id ?%not_elem_of_nil.
  - by intros id ?%not_elem_of_nil.
  - by intros d ?%not_elem_of_nil.
  - intros r Hr. split; [|by intros ?%not_elem_of_nil]. destruct file as [s|]; cbn in *; [|by apply not_elem_of_nil in Hr].
    apply elem_of_list_to_set, elem_of_app. left. by apply list_elem_of_fmap_2.
  - intros z Hz. split; [|by intros _ ?%not_elem_of_nil]. destruct file as [s|]; cbn in *; [|by apply not_elem_of_nil in Hz].
    apply elem_of_list_to_set, elem_of_app. right. by apply list_elem_of_fmap_2.
Qed.

Lemma file_lost_ok w hs w' : pool_ok w hs → file_lost w w' → pool_ok w' hs.
Proof.
  intros [[H1 H2 H3 H4 H5 H6 H7 H8] Hh Ht] ->. split; [| |done].
  - split; try done; cbn; by intros x ?%not_elem_of_nil.
  - intros i h Hi. apply (hold_ok_stable w); try done; [|by eapply Hh].
    intros id [? _]. split; [done|]. cbn. by intros r ?%not_elem_of_nil.
Qed.

Lemma reachable_pool_ok file c :
  reachable redact persistent file c →
  pool_inv assume guarantee pool_ok (λ r _, no_panic r) c.
Proof.
  apply (pool_invariant _ _ _ assume guarantee pool_ok empty_handed).
  - intros w hs i h e Hpool Hi He. split_and!; [done|by eapply po_world|by eapply po_holds].
  - intros w hs i h e w' h' Hpool Hi _ Hg.
    enough (∀ a b, rtc (move e) a b → ∀ hs, pool_ok a.1 hs → hs !! i = Some a.2 → pool_ok b.1 (<[i := b.2]> hs)) as Hrtc
      by (by apply (Hrtc (w, h) (w', h'))).
    clear. intros a b Hab. induction Hab as [a|[w h] [w1 h1] b Hm _ IH]; intros hs Hpool Hi.
    + by rewrite insert_id.
    + cbn in *. rewrite <-(insert_insert_eq hs i b.2 h1). apply IH; [by eapply move_ok|]. by rewrite lookup_insert_eq.
  - intros w hs i p Hpool Hi Hp. split; [|by apply starts_safe]. destruct Hpool as [Hw Hh Ht]. split; [done| |].
    + intros j hj. rewrite lookup_insert_Some. intros [(<- & <-)|(? & ?)]; [by split|by eapply Hh].
    + intros j k hj hk q q'. rewrite !lookup_insert_Some.
      intros [(<- & <-)|(? & ?)] [(<- & <-)|(? & ?)] ? ? ?; [done|done|done|by eapply (Ht j k)].
  - intros w hs w'. apply file_lost_ok.
  - split; [apply world_new_ok|intros i h; by rewrite lookup_empty|intros i j hi hj p q; by rewrite lookup_empty].
Qed.
End Safety.

(** C11. However turns, chat messages, API calls and failures interleave: what reaches a
    session of Core is a refusal by the collector of its own turn, or the answer to a
    registered request, given for that request's session, operation and kind, with a
    decision its client offers, by someone in the very conversation that was asked or by
    someone who presents its nonce; a request is answered at most once, and once answered
    it is no longer open; and no internal expectation fails. *)
Theorem answers_reach_their_request redact persistent file c :
  reachable redact persistent file c →
  let w := world c in
  (∀ d, d ∈ delivered w → authorised (registered w) d) ∧
  NoDup (answered w) ∧ NoDup (ids (registered w)) ∧
  (∀ id, id ∈ answered w → pending w !! id = None) ∧
  (∀ i r, threads c !! i = Some (Done r) → no_panic r).
Proof.
  intros (hs & Hpool & _ & Hall)%reachable_pool_ok w. destruct (po_world _ _ Hpool) as [H1 H2 H3 H4 H5 H6 H7 H8].
  split_and!; try done.
  - intros id Hid. apply eq_None_not_Some. intros [p Hp]. by destruct (H1 id p Hp) as (_ & _ & ?).
  - intros i r Hi. by destruct (Hall i _ Hi) as (h & _ & ?).
Qed.

(** The audit record agrees with Core: whatever is written, lost or raced for, the file
    says that a coordinator's request was approved only if an approving answer to that
    request reached its session; and its open entry is marked as the coordinator's, so
    that the file-only path refuses to resolve it. *)
Theorem audit_agrees_with_core redact persistent file c :
  reachable redact persistent file c →
  let w := world c in
  (∀ z, z ∈ s_resolved (load_store w) → z_approved z = true → z_id z ∈ ids (registered w) →
    approved_in_core w (z_id z)) ∧
  (∀ r, r ∈ s_pending (load_store w) → q_id r ∈ ids (registered w) → is_coordinator_owned r = true).
Proof.
  intros (hs & Hpool & _ & Hall)%reachable_pool_ok w. destruct (po_world _ _ Hpool) as [H1 H2 H3 H4 H5 H6 H7 H8].
  split; [intros z Hz Ha Hid; by apply H8|intros r Hr; by apply H7].
Qed.

(** ** One answer, on every branch *)
Section Outcome.
Context (persistent : bool) (e : Env) (w : World).
Hypothesis keys : ∀ id p, pending w !! id = Some p → p_request_id p = id.
Hypothesis unexpired : ∀ id p, pending w !! id = Some p → instant e < p_expires_at p.

Lemma set_pending_id : set_pending w (pending w) = w.
Proof. by destruct w. Qed.

Lemma prune_nothing : run_alone e (prune_expired persistent) w = (w, tt).
Proof.
  unfold prune_expired. autorewrite with alone. unfold drain. cbn [fst snd].
  assert (filter (λ kv : str * PendingChannelApproval, (p_expires_at kv.2 <=? instant e) = true)
            (map_to_list (pending w)) = []) as ->.
  { apply filter_none, Forall_forall. intros [id p] Hin%elem_of_map_to_list. apply unexpired in Hin. cbn. lia. }
  rewrite map_filter_id, set_pending_id; [done|]. intros id p Hp%unexpired. cbn. lia.
Qed.

Lemma select_request_unique scope rid id :
  select_request scope rid (pending w) = Ok id →
  ∃ p, pending w !! id = Some p ∧ p_scope p = scope ∧
    (rid = None → ∀ id' p', pending w !! id' = Some p' → p_scope p' = scope → id' = id).
Proof.
  unfold select_request. destruct rid as [rid|].
  - destruct (pending w !! rid) as [p|] eqn:Hp; [|done]. case_bool_decide; [|done]. intros [= <-]. naive_solver.
  - destruct (filter _ _) as [|[k p] [|]] eqn:Hf; [done| |done]. intros [= <-].
    assert (∀ k' p', pending w !! k' = Some p' → p_scope p' = scope → (k', p') = (k, p)) as Hall.
    { intros k' p' Hp' Hs. apply list_elem_of_singleton. rewrite <-Hf. apply list_elem_of_filter.
      split; [done|by apply elem_of_map_to_list]. }
    assert ((k, p) ∈ filter (λ kv, p_scope kv.2 = scope) (map_to_list (pending w))) as Hin by (rewrite Hf; by left).
    apply list_elem_of_filter in Hin as (Hs & Hin%elem_of_map_to_list). rewrite (keys k p Hin).
    exists p. split_and!; [done|done|]. intros _ id' p' Hp' Hs'. by injection (Hall id' p' Hp' Hs').
Qed.

Lemma restore_taken id p :
  pending w !! id = Some p →
  run_alone e (restore p) (set_pending w (delete id (pending w))) = (w, tt).
Proof.
  intros Hp. unfold restore. rewrite run_alone_atomically. cbn [pending set_pending].
  rewrite (proj2 (Z.ltb_lt _ _) (unexpired _ _ Hp)), (keys _ _ Hp), insert_delete_id by done.
  unfold set_pending. by destruct w.
Qed.

(** An answer in a conversation, when no request has run out: it goes to the request it
    names, or to the only one the conversation has; anything else is refused and changes
    nothing; a decision its client does not offer is refused; otherwise it is delivered,
    exactly as decided, and the request is closed; and when it cannot be delivered, the
    request is open again just as before. *)
Theorem reply_outcome scope text parsed :
  parse_reply text = Some parsed →
  let '(w', r) := run_alone e (resolve_channel_approval_reply persistent scope text) w in
  match select_request scope (r_request_id parsed) (pending w) with
  | Err outcome => r = Some (Some outcome) ∧ w' = w
  | Ok id => ∃ p, pending w !! id = Some p ∧ p_scope p = scope ∧
      (r_request_id parsed = None → ∀ id' p', pending w !! id' = Some p' → p_scope p' = scope → id' = id) ∧
      if supported p (r_action parsed) then
        if succeeds e then
          ∃ decision, review_decision p (r_action parsed) = Some decision ∧
            r = Some (Some (ReplyResolved id (to_opaque_string decision))) ∧
            pending w' = delete id (pending w) ∧
            delivered w' = delivered w ++ [{| d_session := p_core_session_id p; d_op := approval_op p decision;
                                              d_source := ByPeer id scope (r_action parsed) |}]
        else r = None ∧ w' = w
      else r = Some (Some ReplyUnsupportedDecision) ∧ w' = w
  end.
Proof.
  intros Hparse. destruct (run_alone _ _ _) as [w' r] eqn:Hrun. revert Hrun.
  unfold resolve_channel_approval_reply. rewrite Hparse. unfold take_for_reply.
  autorewrite with alone. rewrite prune_nothing. cbn [fst snd]. unfold take_selected.
  destruct (select_request scope (r_request_id parsed) (pending w)) as [id|outcome] eqn:Hs; cbn [mbind result_bind fst snd];
    [|by intros [= <- <-]].
  destruct (select_request_unique _ _ _ Hs) as (p & Hp & Hscope & Huniq). rewrite Hp. pose proof (keys _ _ Hp) as Hid.
  destruct (supported p (r_action parsed)) eqn:Hsup; cbn [fst snd]; [|intros [= <- <-]; exists p; by rewrite Hsup].
  destruct (supported_review _ _ Hsup) as (decision & Hrev). rewrite Hrev. unfold deliver_decision, get_session, submit.
  autorewrite with alone. cbn [fst snd].
  destruct (succeeds e) eqn:Hok; cbn [negb].
  - autorewrite with alone. cbn [fst snd]. rewrite Hok. cbn [fst snd negb run_alone mret prog_ret].
    autorewrite with alone. cbn [fst snd run_alone mret prog_ret].
    set (res := {| z_id := _ |}). set (w1 := deliver _ _).
    pose proof (persist_resolved_effect res e w1) as Heff. cbn zeta in Heff.
    intros [= <- <-]. exists p. rewrite Hsup. split_and!; try done. exists decision. rewrite Hid.
    assert (∀ w2, w2 = w1 ∨ (∃ s, w2 = set_file w1 (Some s)) → pending w2 = pending w1 ∧ delivered w2 = delivered w1)
      as Hsame by (intros w2 [->|[s ->]]; done).
    destruct (Hsame (persist_resolved_approval res e w1).1) as [-> ->]; [destruct Heff as [?|(s & ? & _)]; eauto|].
    unfold w1. cbn. by rewrite Hid.
  - autorewrite with alone. rewrite (restore_taken id p Hp). cbn [fst snd run_alone mret prog_ret].
    intros [= <- <-]. exists p. by rewrite Hsup.
Qed.
End Outcome.

(** ** Examples and witnesses *)
Definition same_text (s : str) : str := s.
Definition demo_scope (peer : str) : ChannelApprovalScope :=
  {| sc_channel := §"slack"; sc_channel_config_id := None; sc_account_id := None; sc_peer_id := peer;
     sc_logical_session_id := §"L" |}.
Definition demo_metadata (command : list str) : ApprovalRequestMetadata :=
  {| m_agent_id := §"ops"; m_policy_fingerprint := §"f"; m_cwd := §"/w"; m_summary := []; m_command := Some command;
     m_reason := None |}.
Definition demo_env (id : str) (t : Z) (ok : bool) : Env :=
  {| uuid := id; nonce := §"n-" ++ id; instant := t; unix_ms := t; succeeds := ok |}.
Definition answers_newb (e : Env) (w : World) : bool :=
  bool_decide (uuid e ∉ named w) && negb (bool_decide (nonce e = [])).
Lemma answers_newb_ok e w : answers_newb e w = true → answers_new e w.
Proof. by intros [?%bool_decide_eq_true ?%negb_true_iff%bool_decide_eq_false]%andb_true_iff. Qed.

(** A turn that asks once; its user; somebody in another conversation; and an operator
    who knows the identifier and the nonce. *)
Definition demo_threads : list (prog World Env Outcome) :=
  [OInvocation <$> invoke same_text true §"S" Interactive true (Some (demo_scope §"alice")) interactive
     [EvApproval §"e1" §"turn" (KExec None) (demo_metadata [§"rm"; §"x"; §"--token"; §"t0p"]); EvOther; EvTurnComplete];
   OReply <$> resolve_channel_approval_reply true (demo_scope §"alice") §" + ";
   OReply <$> resolve_channel_approval_reply true (demo_scope §"mallory") §"approve:r1";
   OStatus <$> approval_resolve_handler same_text true (Some §"op")
     (Some {| b_id := §"r1"; b_approved := true; b_reason := None; b_nonce := §"n-r1"; b_decision := None |})].
Definition demo_start : pool World Env Outcome := start_all (world_new None) demo_threads.
Definition acts (i : nat) (n : nat) (e : Env) : list (nat * Env) := replicate n (i, e).
Definition demo_run (schedule : list (nat * Env)) : option (pool World Env Outcome) :=
  run_all answers_newb schedule demo_start.

Lemma demo_run_reachable schedule c : demo_run schedule = Some c → reachable same_text true None c.
Proof.
  intros Hrun. unfold reachable, pool_reachable. etrans.
  - apply (start_all_reachable answers_new (starts same_text true) file_lost (world_new None) demo_threads).
    repeat constructor.
  - eapply run_all_reachable; [apply answers_newb_ok|exact Hrun].
Qed.

(** The request is written and opened; the outsider is refused; user and operator race, and
    the user takes the request first; the turn ends. *)
Definition race : list (nat * Env) :=
  acts 0 1 (demo_env §"r1" 0 true) ++ acts 0 1 (demo_env §"r2" 0 true) ++ acts 2 2 (demo_env §"r2" 1 true) ++ acts 3 2 (demo_env §"r2" 2 true) ++
  acts 1 4 (demo_env §"r2" 3 true) ++ acts 3 2 (demo_env §"r2" 4 true) ++ acts 1 1 (demo_env §"r2" 5 true) ++
  acts 0 2 (demo_env §"r2" 6 true).
Definition outcome_of (i : nat) (c : pool World Env Outcome) : option Outcome :=
  match threads c !! i with Some (Done r) => Some r | _ => None end.
Definition summary (schedule : list (nat * Env)) :=
  (λ c, (delivered (world c), size (pending (world c)), (λ i, outcome_of i c) <$> [0; 1; 2; 3]%nat,
         (λ z, (z_id z, z_approved z)) <$> s_resolved (load_store (world c)))) <$> demo_run schedule.

Example race_summary :
  summary race =
  Some ([{| d_session := §"S"; d_op := ExecApproval §"turn" Approved;
            d_source := ByPeer §"r1" (demo_scope §"alice") ApproveOnce |}],
        0%nat,
        [Some (OInvocation (Ok tt)); Some (OReply (Some (Some (ReplyResolved §"r1" §"approved"))));
         Some (OReply (Some (Some ReplyNoMatch))); Some (OStatus Conflict)],
        [(§"r1", true)]).
Proof. by vm_compute. Qed.

(** A delivery that fails after the turn has ended opens the request again, for nobody. *)
Definition late_failure : list (nat * Env) :=
  acts 0 1 (demo_env §"r1" 0 true) ++ acts 0 1 (demo_env §"r2" 0 true) ++ acts 1 2 (demo_env §"r2" 1 true) ++ acts 0 2 (demo_env §"r2" 2 true) ++
  acts 1 2 (demo_env §"r2" 3 false).
Example restored_after_removal :
  summary late_failure = Some ([], 1%nat, [Some (OInvocation (Ok tt)); Some (OReply None); None; None], []).
Proof. by vm_compute. Qed.

(** A request without a coordinator is resolved by [approved], whatever [decision] says. *)
Definition legacy_run : World * Status :=
  let request := legacy_request same_text (as_persisted_request
    (register_with_ttl same_text §"t" §"S" (demo_scope §"p") KPatch interactive (demo_metadata []) 0 (demo_env §"q" 0 true))) in
  let '(w, _) := run_alone (demo_env §"q" 0 true)
    (approval_request_handler same_text true (Some (request (demo_env §"q" 0 true)))) (world_new None) in
  run_alone (demo_env §"q2" 1 true)
    (approval_resolve_handler same_text true (Some §"op")
       (Some {| b_id := §"q"; b_approved := true; b_reason := None; b_nonce := §"n-q"; b_decision := Some §"deny" |})) w.
Example decision_ignored :
  legacy_run.2 = StatusOk ∧ (λ z, (z_id z, z_approved z)) <$> s_resolved (load_store legacy_run.1) = [(§"q", true)].
Proof. by vm_compute. Qed.

(** What a person is shown hides the value of a flag that names a secret. *)
Example summary_redacted :
  redacted_command_summary same_text [§"curl"; §"--token"; §"t0p"; §"API_TOKEN=x"; §"u"] =
  §"curl --token <redacted> API_TOKEN=<redacted> u".
Proof. by vm_compute. Qed.

Example replies :
  parse_reply §" + " = Some {| r_action := ApproveOnce; r_request_id := None |} ∧
  parse_reply §"Approve-Session: r1" = Some {| r_action := ApproveSession; r_request_id := Some §"r1" |} ∧
  parse_reply §"approve:" = None ∧ parse_reply §"approve" = None.
Proof. by vm_compute. Qed.

Lemma answers_reach_their_request_witness :
  ∃ c, demo_run race = Some c ∧ length (delivered (world c)) = 1%nat ∧
    (∀ d, d ∈ delivered (world c) → authorised (registered (world c)) d) ∧ NoDup (answered (world c)).
Proof.
  destruct (demo_run race) as [c|] eqn:Hrun; [|by vm_compute in Hrun].
  destruct (answers_reach_their_request same_text true None c (demo_run_reachable race c Hrun)) as (Ha & Hn & _).
  exists c. split; [done|]. split; [|by split].
  pose proof race_summary as Hs. unfold summary in Hs. rewrite Hrun in Hs. cbn [fmap option_fmap option_map] in Hs.
  injection Hs as Hd _. by rewrite Hd.
Defined.

Lemma audit_agrees_with_core_witness :
  ∃ c, demo_run race = Some c ∧ ∃ z, z ∈ s_resolved (load_store (world c)) ∧ z_approved z = true ∧
    (z_id z ∈ ids (registered (world c)) → approved_in_core (world c) (z_id z)).
Proof.
  destruct (demo_run race) as [c|] eqn:Hrun; [|by vm_compute in Hrun].
  destruct (audit_agrees_with_core same_text true None c (demo_run_reachable race c Hrun)) as [Ha _].
  exists c. split; [done|].
  pose proof race_summary as Hs. unfold summary in Hs. rewrite Hrun in Hs. cbn [fmap option_fmap option_map] in Hs.
  injection Hs as _ _ _ _ _ _ Hres. destruct (s_resolved (load_store (world c))) as [|z l]; [done|].
  injection Hres as _ Happ _. exists z. split; [by left|]. split; [done|]. apply Ha; [by left|done].
Defined.

Definition demo_pending : PendingChannelApproval :=
  register_with_ttl same_text §"turn" §"S" (demo_scope §"alice") (KExec None) interactive (demo_metadata [§"ls"])
    DEFAULT_APPROVAL_TTL (demo_env §"r1" 0 true).
Definition demo_world : World := set_pending (world_new None) {[ §"r1" := demo_pending ]}.
Lemma reply_outcome_witness :
  parse_reply §"+" = Some {| r_action := ApproveOnce; r_request_id := None |} ∧
  (run_alone (demo_env §"r2" 5 false) (resolve_channel_approval_reply true (demo_scope §"alice") §"+") demo_world).1 = demo_world.
Proof.
  assert (∀ id p, pending demo_world !! id = Some p → p_request_id p = id) as Hk.
  { intros id p. cbn. rewrite lookup_singleton_Some. by intros [<- <-]. }
  assert (∀ id p, pending demo_world !! id = Some p → instant (demo_env §"r2" 5 false) < p_expires_at p) as Hu.
  { intros id p. cbn [demo_world set_pending pending]. rewrite lookup_singleton_Some. by intros [_ <-]. }
  assert (parse_reply §"+" = Some {| r_action := ApproveOnce; r_request_id := None |}) as Hp by (by vm_compute).
  split; [exact Hp|].
  pose proof (reply_outcome true (demo_env §"r2" 5 false) demo_world Hk Hu (demo_scope §"alice") §"+" _ Hp) as Ho.
  destruct (run_alone _ _ _) as [w' r]. cbn [fst].
  assert (select_request (demo_scope §"alice") None (pending demo_world) = Ok §"r1") as Hs by (by vm_compute).
  cbn [r_request_id] in Ho. rewrite Hs in Ho. destruct Ho as (p & Hlook & _ & _ & Ho). cbn in Ho. by destruct Ho.
Defined.
