(* ===== verification/Coordinator.v ===== *)
(** * Execution of inbound messages
    ([gateway-server/src/channels/runtime/coordinator.rs])

    Messages from the chat platforms are accepted up to a bound and executed by one actor
    per conversation, a few at a time, within a bound for the whole gateway.  An actor with
    nothing left retires under the lock that admission takes, so that no message is put into
    an inbox that nobody reads.  The steps below are the sections of the code between two
    awaits; calls, actors and executions interleave freely. *)
From stdpp Require Import gmap list strings.
From S2P Require Import Prelude RustStr.

(** ** State *)
Section Coordinator.
Context {T : Type}.

(** An entry of the [JoinSet] of an actor: running, or past [run] with its slot of admission
    given back, or ended. *)
Inductive Exec := Executing | Releasing | Completed.
(** Where the loop of an actor is: at its top, past [retire_if_idle], or waiting for a
    permit with a message in hand. *)
Inductive Phase := LoopTop | Receiving | Acquiring (t : T).

(** The task behind an inbox, with what its channel holds. *)
Record Actor := {
  session_key : str;
  inbox : list T;
  phase : Phase;
  running : list (T * Exec);
}.
(** The two semaphores, the registry, the calls of [dispatch] that hold a slot and wait for
    the lock, and what was accepted, started and run to its end so far. *)
Record World := {
  admission : nat;
  execution : nat;
  inboxes : gmap str nat;
  actors : gmap nat Actor;
  dispatching : list (str * T);
  accepted : list (str * T);
  started : list (str * T);
  finished : list (str * T);
}.
Record Limits := { max_accepted : nat; max_executions : nat; session_executions : nat; queue_capacity : nat }.

Definition new (lim : Limits) : World :=
  {| admission := max_accepted lim; execution := max_executions lim; inboxes := ∅; actors := ∅;
     dispatching := []; accepted := []; started := []; finished := [] |}.

Definition set_actor (c : nat) (a : Actor) (w : World) : World :=
  {| admission := admission w; execution := execution w; inboxes := inboxes w; actors := <[c := a]> (actors w);
     dispatching := dispatching w; accepted := accepted w; started := started w; finished := finished w |}.

(** ** [dispatch] *)
(** The slot of admission; [None]: there is none, and the message is not accepted. *)
Definition dispatch_begin (key : str) (t : T) (w : World) : option World :=
  match admission w with
  | 0 => None
  | S n => Some {| admission := n; execution := execution w; inboxes := inboxes w; actors := actors w;
                   dispatching := dispatching w ++ [(key, t)]; accepted := accepted w; started := started w;
                   finished := finished w |}
  end.

Definition reject (rest : list (str * T)) (w : World) : World :=
  {| admission := S (admission w); execution := execution w; inboxes := inboxes w; actors := actors w;
     dispatching := rest; accepted := accepted w; started := started w; finished := finished w |}.
Definition accept (rest : list (str * T)) (key : str) (t : T) (c : nat) (a : Actor) (boxes : gmap str nat)
    (w : World) : World :=
  {| admission := admission w; execution := execution w; inboxes := boxes; actors := <[c := a]> (actors w);
     dispatching := rest; accepted := accepted w ++ [(key, t)]; started := started w; finished := finished w |}.

Definition spawn_actor (lim : Limits) (c : nat) (rest : list (str * T)) (key : str) (t : T) (w : World) : World * bool :=
  if bool_decide (inboxes w !! key = None) && (max_accepted lim <=? size (inboxes w)) then (reject rest w, false)
  else if queue_capacity lim <=? 0 then (reject rest w, false)
  else (accept rest key t c {| session_key := key; inbox := [t]; phase := LoopTop; running := [] |}
          (<[key := c]> (inboxes w)) w, true).
(** Under the lock: [rest] are the other calls; [c] identifies a channel that may be made. *)
Definition dispatch_locked (lim : Limits) (c : nat) (rest : list (str * T)) (key : str) (t : T) (w : World)
    : World * bool :=
  match inboxes w !! key with
  | Some sender =>
      match actors w !! sender with
      | Some a =>
          if length (inbox a) <? queue_capacity lim
          then (accept rest key t sender
                  {| session_key := session_key a; inbox := inbox a ++ [t]; phase := phase a; running := running a |}
                  (inboxes w) w, true)
          else (reject rest w, false)
      | None => spawn_actor lim c rest key t w
      end
  | None => spawn_actor lim c rest key t w
  end.

(** ** An actor *)
Definition retire_if_idle (c : nat) (a : Actor) (w : World) : World * bool :=
  match inbox a with
  | _ :: _ => (set_actor c {| session_key := session_key a; inbox := inbox a; phase := Receiving; running := running a |} w,
               false)
  | [] => ({| admission := admission w; execution := execution w;
              inboxes := if bool_decide (inboxes w !! session_key a = Some c) then delete (session_key a) (inboxes w)
                         else inboxes w;
              actors := delete c (actors w);
              dispatching := dispatching w; accepted := accepted w; started := started w; finished := finished w |},
           true)
  end.

(** [receiver.recv()], at the point of the loop where it is polled; the actor has a sender
    of its own, so that its inbox does not end. *)
Definition may_receive (lim : Limits) (a : Actor) : bool :=
  match phase a with
  | Receiving => true
  | LoopTop => negb (bool_decide (length (running a) = 0)) && (length (running a) <? session_executions lim)
  | Acquiring _ => false
  end.
Definition receive (a : Actor) : option Actor :=
  match inbox a with
  | [] => None
  | t :: l => Some {| session_key := session_key a; inbox := l; phase := Acquiring t; running := running a |}
  end.

(** The permit of an execution, which starts. *)
Definition start (c : nat) (a : Actor) (w : World) : option World :=
  match phase a, execution w with
  | Acquiring t, S n =>
      Some {| admission := admission w; execution := n; inboxes := inboxes w;
              actors := <[c := {| session_key := session_key a; inbox := inbox a; phase := LoopTop;
                                  running := running a ++ [(t, Executing)] |}]> (actors w);
              dispatching := dispatching w; accepted := accepted w; started := started w ++ [(session_key a, t)];
              finished := finished w |}
  | _, _ => None
  end.

(** ** An execution, at its place in the [JoinSet] *)
Definition with_running (a : Actor) (l : list (T * Exec)) : Actor :=
  {| session_key := session_key a; inbox := inbox a; phase := phase a; running := l |}.
(** [run] has ended, or panicked: the slot of admission is free. *)
Definition run_ended (c : nat) (a : Actor) (l1 : list (T * Exec)) (t : T) (l2 : list (T * Exec)) (w : World) : World :=
  {| admission := S (admission w); execution := execution w; inboxes := inboxes w;
     actors := <[c := with_running a (l1 ++ (t, Releasing) :: l2)]> (actors w);
     dispatching := dispatching w; accepted := accepted w; started := started w;
     finished := finished w ++ [(session_key a, t)] |}.
Definition released (c : nat) (a : Actor) (l1 : list (T * Exec)) (t : T) (l2 : list (T * Exec)) (w : World) : World :=
  {| admission := admission w; execution := S (execution w); inboxes := inboxes w;
     actors := <[c := with_running a (l1 ++ (t, Completed) :: l2)]> (actors w);
     dispatching := dispatching w; accepted := accepted w; started := started w; finished := finished w |}.
(** [running.join_next()]. *)
Definition joined (c : nat) (a : Actor) (l1 l2 : list (T * Exec)) (w : World) : World :=
  set_actor c (with_running a (l1 ++ l2)) w.

(** ** Steps *)
Section Steps.
Context (lim : Limits).
Inductive internal (w : World) : World → Prop :=
| step_locked l1 l2 key t c :
    dispatching w = l1 ++ (key, t) :: l2 → actors w !! c = None →
    internal w (dispatch_locked lim c (l1 ++ l2) key t w).1
| step_top c a :
    actors w !! c = Some a → phase a = LoopTop → running a = [] → internal w (retire_if_idle c a w).1
| step_receive c a a' :
    actors w !! c = Some a → may_receive lim a = true → receive a = Some a' → internal w (set_actor c a' w)
| step_start c a w' : actors w !! c = Some a → start c a w = Some w' → internal w w'
| step_ended c a l1 t l2 :
    actors w !! c = Some a → running a = l1 ++ (t, Executing) :: l2 → internal w (run_ended c a l1 t l2 w)
| step_released c a l1 t l2 :
    actors w !! c = Some a → running a = l1 ++ (t, Releasing) :: l2 → internal w (released c a l1 t l2 w)
| step_joined c a l1 t l2 :
    actors w !! c = Some a → phase a = LoopTop → running a = l1 ++ (t, Completed) :: l2 →
    internal w (joined c a l1 l2 w).
(** A call of [dispatch] comes at any time. *)
Inductive step (w : World) : World → Prop :=
| step_dispatch key t w' : dispatch_begin key t w = Some w' → step w w'
| step_internal w' : internal w w' → step w w'.
Definition reachable (w : World) : Prop := rtc step (new lim) w.
End Steps.
End Coordinator.
Arguments World : clear implicits.
Arguments Actor : clear implicits.
Arguments Phase : clear implicits.

Definition SESSION_QUEUE_CAPACITY : nat := 32.
Definition MAX_SESSION_EXECUTIONS : nat := 2.
Definition MAX_GATEWAY_EXECUTIONS : nat := 16.
Definition MAX_ACCEPTED_TASKS : nat := 128.
Definition COORDINATOR : Limits :=
  {| max_accepted := MAX_ACCEPTED_TASKS; max_executions := MAX_GATEWAY_EXECUTIONS;
     session_executions := MAX_SESSION_EXECUTIONS; queue_capacity := SESSION_QUEUE_CAPACITY |}.

(** * Correctness *)
Section Invariant.
Context {T : Type} `{EqDecision T} (lim : Limits).
Implicit Types (w : World T) (a : Actor T).
Hypothesis some_session : 0 < session_executions lim.

(** ** What the bounds count *)
Definition in_exec (f : Exec → nat) a : nat := sum_list_with (λ te, f te.2) (running a).
Definition waiting a : list T := match phase a with Acquiring t => t :: inbox a | _ => inbox a end.
(** Slots of admission and permits of execution that an actor holds. *)
Definition held a : nat := length (waiting a) + in_exec (λ e, match e with Executing => 1 | _ => 0 end) a.
Definition busy a : nat := in_exec (λ e, match e with Completed => 0 | _ => 1 end) a.
(** Executions of one conversation. *)
Definition busy_with (key : str) w : nat :=
  total (λ a, if decide (session_key a = key) then busy a else 0) (actors w).

Definition of_key (key : str) (l : list (str * T)) : list T := (filter (λ kt, kt.1 = key) l).*2.
Definition waiting_for (key : str) w : list T :=
  match inboxes w !! key with
  | Some c => match actors w !! c with Some a => waiting a | None => [] end
  | None => []
  end.
(** How often [x] is in a list, and how often an actor runs it. *)
Definition times (x : str * T) (l : list (str * T)) : nat := length (filter (λ y, y = x) l).
Definition runs (x : str * T) a : nat :=
  sum_list_with (λ te, match te.2 with
                       | Executing => if decide ((session_key a, te.1) = x) then 1 else 0
                       | _ => 0
                       end) (running a).

Definition actor_ok a : Prop :=
  length (inbox a) ≤ queue_capacity lim ∧ length (running a) ≤ session_executions lim ∧
  match phase a with
  | LoopTop => True
  | Receiving => running a = [] ∧ inbox a ≠ []
  | Acquiring _ => length (running a) < session_executions lim
  end.

Record Inv w : Prop := {
  inv_registry : ∀ key c, inboxes w !! key = Some c ↔ ∃ a, actors w !! c = Some a ∧ session_key a = key;
  inv_order : ∀ key, of_key key (accepted w) = of_key key (started w) ++ waiting_for key w;
  inv_slots : admission w + length (dispatching w) + total held (actors w) = max_accepted lim;
  inv_permits : execution w + total busy (actors w) = max_executions lim;
  inv_actors : ∀ c a, actors w !! c = Some a → actor_ok a;
  inv_size : size (inboxes w) ≤ max_accepted lim;
  inv_count : length (accepted w) = length (finished w) + total held (actors w);
  inv_runs : ∀ x, times x (started w) = times x (finished w) + total (runs x) (actors w);
}.

#[local] Arguments times : simpl never.
Lemma of_key_app key l1 l2 : of_key key (l1 ++ l2) = of_key key l1 ++ of_key key l2.
Proof. unfold of_key. by rewrite filter_app, fmap_app. Qed.
Lemma of_key_one key key' t : of_key key [(key', t)] = if decide (key' = key) then [t] else [].
Proof. unfold of_key. rewrite filter_cons. cbn. by destruct (decide _). Qed.
Lemma of_key_pair key key' (l : list T) : of_key key (pair key' <$> l) = if decide (key' = key) then l else [].
Proof.
  unfold of_key. induction l as [|t l IH]; [by destruct (decide _)|]. rewrite fmap_cons, filter_cons.
  change ((key', t).1) with key'. destruct (decide (key' = key)); [|exact IH]. rewrite fmap_cons. by f_equal.
Qed.
Lemma times_app x l1 l2 : times x (l1 ++ l2) = times x l1 + times x l2.
Proof. unfold times. by rewrite filter_app, length_app. Qed.
Lemma times_one x y : times x [y] = if decide (y = x) then 1 else 0.
Proof. unfold times. rewrite filter_cons. by destruct (decide _). Qed.

Lemma waiting_for_actor w c a :
  Inv w → actors w !! c = Some a → waiting_for (session_key a) w = waiting a.
Proof.
  intros Hi Hc. unfold waiting_for. assert (inboxes w !! session_key a = Some c) as -> by (apply Hi; by exists a).
  by rewrite Hc.
Qed.
Lemma waiting_for_other w c a key :
  Inv w → actors w !! c = Some a → key ≠ session_key a → inboxes w !! key ≠ Some c.
Proof. intros Hi Hc Hk (a' & Ha' & <-)%(inv_registry w Hi). congruence. Qed.

Lemma coordinator_starts : Inv (new lim).
Proof.
  split; cbn; try done.
  - intros key c. rewrite lookup_empty. split; [done|]. intros (a & Ha & _). by rewrite lookup_empty in Ha.
  - by rewrite sum_empty, !Nat.add_0_r.
  - rewrite map_size_empty. lia.
Qed.

(** An actor moves on, starting the messages [news]; the rest of the state is as it was, but
    for the semaphores and the logs. *)
Lemma inv_update w c a a' w' news :
  Inv w → actors w !! c = Some a → actors w' = <[c := a']> (actors w) → session_key a' = session_key a → actor_ok a' →
  inboxes w' = inboxes w → dispatching w' = dispatching w →
  accepted w' = accepted w → started w' = started w ++ (pair (session_key a) <$> news) →
  waiting a = news ++ waiting a' →
  admission w' + held a' = admission w + held a →
  execution w' + busy a' = execution w + busy a →
  length (finished w') + held a' = length (finished w) + held a →
  (∀ x, times x (started w') + runs x a + times x (finished w) = times x (started w) + runs x a' + times x (finished w')) →
  Inv w'.
Proof.
  intros Hi Hc Ha Hkey Hok Hb Hd Hacc Hst Hw Hadm Hexe Hcount Hruns.
  pose proof (sum_update held _ c a a' Hc) as Hheld. pose proof (sum_update busy _ c a a' Hc) as Hbusy.
  destruct Hi as [H1 H2 H3 H4 H5 H6 H8 H7] eqn:Ei. clear Ei. split; rewrite ?Hb, ?Ha, ?Hd, ?Hacc.
  - intros key c'. rewrite H1. destruct (decide (c' = c)) as [->|Hne].
    + rewrite lookup_insert_eq, Hc. split; intros (? & [= <-] & <-); eauto.
    + by rewrite lookup_insert_ne.
  - intros key. rewrite H2, Hst, of_key_app, <-app_assoc. f_equal. unfold waiting_for. rewrite Hb, Ha.
    rewrite of_key_pair. destruct (decide (session_key a = key)) as [<-|Hk].
    + assert (inboxes w !! session_key a = Some c) as -> by (apply H1; by exists a).
      by rewrite Hc, lookup_insert_eq, Hw.
    + destruct (inboxes w !! key) as [c'|] eqn:Hkc; [|done]. cbn.
      rewrite lookup_insert_ne; [done|]. intros ->. apply H1 in Hkc as (? & ? & ?). congruence.
  - lia.
  - lia.
  - intros c' a0. rewrite lookup_insert_Some. intros [(_ & <-)|(_ & Hc')]; [done|by eapply H5].
  - done.
  - lia.
  - intros x. pose proof (sum_update (runs x) _ c a a' Hc). specialize (Hruns x). specialize (H7 x). lia.
Qed.

(** ** Each step keeps the invariant *)
Lemma inv_dispatch_begin key t w w' : Inv w → dispatch_begin key t w = Some w' → Inv w'.
Proof.
  intros [H1 H2 H3 H4 H5 H6 H8 H7] Hd. unfold dispatch_begin in Hd. destruct (admission w) as [|n]; [done|].
  injection Hd as <-. split; try done. cbn. rewrite length_app. cbn. lia.
Qed.
Lemma inv_reject l1 l2 kt w : Inv w → dispatching w = l1 ++ kt :: l2 → Inv (reject (l1 ++ l2) w).
Proof.
  intros [H1 H2 H3 H4 H5 H6 H8 H7] Hd. split; try done. cbn. rewrite Hd, length_app in H3. rewrite length_app. cbn in H3. lia.
Qed.

Definition queued t a : Actor T :=
  {| session_key := session_key a; inbox := inbox a ++ [t]; phase := phase a; running := running a |}.
Lemma waiting_queued t a : waiting (queued t a) = waiting a ++ [t].
Proof. unfold waiting, queued. cbn. by destruct (phase a). Qed.
Lemma held_queued t a : held (queued t a) = S (held a).
Proof. unfold held. rewrite waiting_queued, length_app. unfold in_exec. cbn. lia. Qed.

Lemma inv_queued l1 l2 key t c a w :
  Inv w → dispatching w = l1 ++ (key, t) :: l2 → inboxes w !! key = Some c → actors w !! c = Some a →
  length (inbox a) < queue_capacity lim → Inv (accept (l1 ++ l2) key t c (queued t a) (inboxes w) w).
Proof.
  intros [H1 H2 H3 H4 H5 H6 H8 H7] Hd Hk Hc Hlen. destruct (proj1 (H1 key c) Hk) as (a0 & Ha0 & <-).
  assert (a0 = a) as -> by congruence.
  pose proof (sum_update held _ c a (queued t a) Hc) as Hheld. rewrite held_queued in Hheld.
  split; cbn [accept admission execution inboxes actors dispatching accepted started finished].
  - intros key' c'. rewrite H1. destruct (decide (c' = c)) as [->|]; [|by rewrite lookup_insert_ne].
    rewrite lookup_insert_eq, Hc. split; intros (? & [= <-] & <-); eauto.
  - intros key'. rewrite of_key_app, H2, <-app_assoc, of_key_one. f_equal. unfold waiting_for. cbn.
    destruct (decide (session_key a = key')) as [<-|Hne].
    + by rewrite Hk, Hc, lookup_insert_eq, waiting_queued.
    + rewrite app_nil_r. destruct (inboxes w !! key') as [c'|] eqn:Hk'; [|done]. rewrite lookup_insert_ne; [done|].
      intros <-. apply H1 in Hk' as (? & ? & ?). congruence.
  - rewrite Hd, !length_app in H3. rewrite length_app. cbn in H3. lia.
  - pose proof (sum_update busy _ c a (queued t a) Hc). unfold busy, in_exec in *. cbn in *. lia.
  - intros c' a'. rewrite lookup_insert_Some. intros [(_ & <-)|(_ & Hc')]; [|by eapply H5].
    destruct (H5 _ _ Hc) as (_ & ? & Hp). split_and!; cbn; [rewrite length_app; cbn; lia|done|].
    destruct (phase a); [done| |done]. destruct Hp as [? _]. split; [done|]. by destruct (inbox a).
  - done.
  - rewrite length_app. cbn. lia.
  - intros x. pose proof (sum_update (runs x) _ c a (queued t a) Hc). specialize (H7 x). unfold runs in *. cbn in *. lia.
Qed.

Lemma inv_spawned l1 l2 key t c w :
  Inv w → dispatching w = l1 ++ (key, t) :: l2 → inboxes w !! key = None → actors w !! c = None →
  size (inboxes w) < max_accepted lim → 0 < queue_capacity lim →
  Inv (accept (l1 ++ l2) key t c {| session_key := key; inbox := [t]; phase := LoopTop; running := [] |}
         (<[key := c]> (inboxes w)) w).
Proof.
  intros [H1 H2 H3 H4 H5 H6 H8 H7] Hd Hk Hc Hsize Hcap.
  assert (∀ key', inboxes w !! key' ≠ Some c) as Hnew by (intros key' (? & ? & _)%H1; congruence).
  split; cbn [accept admission execution inboxes actors dispatching accepted started finished].
  - intros key' c'. rewrite lookup_insert_Some, H1. split.
    + intros [(<- & <-)|(Hne & a & Ha & <-)]; [rewrite lookup_insert_eq; eauto|].
      exists a. split; [|done]. rewrite lookup_insert_ne; [done|]. congruence.
    + intros (a & [(<- & <-)|(Hne & Ha)]%lookup_insert_Some & <-); [by left|].
      right. split; [|eauto]. intros ->. assert (inboxes w !! session_key a = Some c') by (apply H1; eauto). congruence.
  - intros key'. rewrite of_key_app, H2, <-app_assoc, of_key_one. f_equal. unfold waiting_for. cbn.
    destruct (decide (key = key')) as [<-|Hne].
    + by rewrite Hk, lookup_insert_eq, lookup_insert_eq.
    + rewrite app_nil_r, lookup_insert_ne by done. destruct (inboxes w !! key') as [c'|] eqn:Hk'; [|done].
      rewrite lookup_insert_ne; [done|]. intros <-. by eapply Hnew.
  - rewrite Hd, !length_app in H3. rewrite length_app, sum_insert by done. cbn in *. lia.
  - by rewrite sum_insert.
  - intros c' a'. rewrite lookup_insert_Some. intros [(_ & <-)|(_ & Hc')]; [|by eapply H5].
    split_and!; cbn; [lia|lia|done].
  - rewrite map_size_insert_None by done. lia.
  - rewrite length_app, sum_insert by done. cbn in *. lia.
  - intros x. by rewrite sum_insert, H7.
Qed.

Lemma inv_dispatch_locked l1 l2 key t c w :
  Inv w → dispatching w = l1 ++ (key, t) :: l2 → actors w !! c = None →
  Inv (dispatch_locked lim c (l1 ++ l2) key t w).1.
Proof.
  intros Hi Hd Hc. unfold dispatch_locked, spawn_actor.
  destruct (inboxes w !! key) as [sender|] eqn:Hk.
  - destruct (proj1 (inv_registry w Hi _ _) Hk) as (a & Ha & Hkey). rewrite Ha.
    destruct (Nat.ltb_spec (length (inbox a)) (queue_capacity lim)); cbn [fst]; [|by eapply inv_reject].
    by apply (inv_queued l1 l2 key t sender a).
  - rewrite bool_decide_true by done. cbn [andb].
    destruct (Nat.leb_spec (max_accepted lim) (size (inboxes w))); [by eapply inv_reject|].
    destruct (Nat.leb_spec (queue_capacity lim) 0); [by eapply inv_reject|]. by apply inv_spawned.
Qed.

Lemma inv_retire c a w :
  Inv w → actors w !! c = Some a → phase a = LoopTop → running a = [] → Inv (retire_if_idle c a w).1.
Proof.
  intros Hi Hc Hp Hr. unfold retire_if_idle. destruct (inbox a) as [|t l] eqn:Hin; cbn [fst].
  - assert (waiting a = []) as Hw by (unfold waiting; by rewrite Hp).
    pose proof (waiting_for_actor w c a Hi Hc) as Hwa. pose proof (waiting_for_other w c a) as Hother.
    assert (inboxes w !! session_key a = Some c) as Hk by (apply Hi; eauto).
    assert (held a = 0) as Hh by (unfold held, in_exec; by rewrite Hw, Hr).
    assert (busy a = 0) as Hb by (unfold busy, in_exec; by rewrite Hr).
    rewrite bool_decide_true by done.
    assert (∀ key' c', inboxes w !! key' = Some c' → key' ≠ session_key a → c' ≠ c) as Hne.
    { intros key' c' Hk' Hne ->. by eapply Hother. }
    destruct Hi as [H1 H2 H3 H4 H5 H6 H8 H7].
    split; cbn [admission execution inboxes actors dispatching accepted started finished].
    + intros key' c'. rewrite lookup_delete_Some, H1. split.
      * intros (Hn & a' & Ha' & <-). exists a'. split; [|done]. rewrite lookup_delete_ne; [done|].
        intros ->. congruence.
      * intros (a' & (Hn & Ha')%lookup_delete_Some & <-). split; [|eauto]. intros Heq.
        assert (inboxes w !! session_key a' = Some c') by (apply H1; eauto). congruence.
    + intros key'. rewrite H2. f_equal. destruct (decide (key' = session_key a)) as [->|Hn].
      * rewrite Hwa, Hw. unfold waiting_for. cbn. by rewrite lookup_delete_eq.
      * unfold waiting_for. cbn. rewrite lookup_delete_ne by done.
        destruct (inboxes w !! key') as [c'|] eqn:Hk'; [|done]. rewrite lookup_delete_ne; [done|].
        apply not_eq_sym. by eapply Hne.
    + rewrite (sum_delete held _ c a) in H3 by done. lia.
    + rewrite (sum_delete busy _ c a) in H4 by done. lia.
    + intros c' a' (_ & Ha')%lookup_delete_Some. by eapply H5.
    + rewrite map_size_delete_Some by done. lia.
    + rewrite (sum_delete held _ c a) in H8 by done. lia.
    + intros x. rewrite H7, (sum_delete (runs x) _ c a) by done. unfold runs at 1. by rewrite Hr.
  - destruct (inv_actors w Hi c a Hc) as (Hq & ? & _). rewrite Hin in Hq.
    eapply (inv_update w c a _ _ []); try done; cbn; rewrite ?app_nil_r; try done.
    all: unfold held, waiting; by rewrite Hp, ?Hin.
Qed.

Lemma running_split (f : Exec → nat) a l1 t e l2 :
  running a = l1 ++ (t, e) :: l2 →
  in_exec f a = sum_list_with (λ te, f te.2) l1 + (f e + sum_list_with (λ te, f te.2) l2).
Proof. intros Hr. unfold in_exec. by rewrite Hr, sum_list_with_app. Qed.

(** An entry of the [JoinSet] changes, or leaves it. *)
Lemma inv_entry c a l1 t e l2 l w w' ended :
  Inv w → actors w !! c = Some a → running a = l1 ++ (t, e) :: l2 → length l ≤ 1 →
  inboxes w' = inboxes w → actors w' = <[c := with_running a (l1 ++ l ++ l2)]> (actors w) →
  dispatching w' = dispatching w → accepted w' = accepted w → started w' = started w →
  finished w' = finished w ++ ended → (phase a = Receiving → False) →
  let one f := sum_list_with (λ te : T * Exec, f te.2) l in
  admission w' + one (λ e, match e with Executing => 1 | _ => 0 end) = admission w + match e with Executing => 1 | _ => 0 end →
  execution w' + one (λ e, match e with Completed => 0 | _ => 1 end) = execution w + match e with Completed => 0 | _ => 1 end →
  length ended + one (λ e, match e with Executing => 1 | _ => 0 end) = match e with Executing => 1 | _ => 0 end →
  (∀ x, times x ended + runs x (with_running a l) = runs x (with_running a [(t, e)])) →
  Inv w'.
Proof.
  intros Hi Hc Hr Hl Hb Ha Hd Hacc Hst Hfin Hp one Hadm Hexe Hcount Hruns.
  destruct (inv_actors w Hi c a Hc) as (Hq & Hn & Hph). rewrite Hr, length_app in Hn. cbn in Hn.
  eapply (inv_update w c a (with_running a (l1 ++ l ++ l2)) w' []); try done.
  - split_and!; cbn; [done|rewrite !length_app; lia|]. destruct (phase a); [done|done|].
    rewrite Hr in Hph. rewrite !length_app in *. cbn in Hph. lia.
  - by rewrite Hst, app_nil_r.
  - unfold held. rewrite (running_split _ _ _ _ _ _ Hr). unfold in_exec, with_running, waiting. cbn.
    rewrite !sum_list_with_app. unfold one in Hadm. lia.
  - unfold busy. rewrite (running_split _ _ _ _ _ _ Hr). unfold in_exec, with_running. cbn.
    rewrite !sum_list_with_app. unfold one in Hexe. lia.
  - rewrite Hfin, length_app. unfold held. rewrite (running_split _ _ _ _ _ _ Hr). unfold in_exec, with_running, waiting.
    cbn. rewrite !sum_list_with_app. unfold one in Hcount. lia.
  - intros x. rewrite Hst, Hfin, times_app. specialize (Hruns x). unfold runs, with_running in *. cbn in *.
    rewrite Hr, !sum_list_with_app. cbn. lia.
Qed.

Lemma inv_internal w w' : Inv w → internal lim w w' → Inv w'.
Proof.
  intros Hi Hs. destruct Hs as [l1 l2 key t c Hd Hc|c a Hc Hp Hr|c a a' Hc Hm Hr|c a w' Hc Hst|c a l1 t l2 Hc Hr
                               |c a l1 t l2 Hc Hr|c a l1 t l2 Hc Hp Hr].
  - by apply inv_dispatch_locked.
  - by apply inv_retire.
  - destruct (inv_actors w Hi c a Hc) as (Hq & Hn & Hph). unfold receive in Hr.
    destruct (inbox a) as [|t l] eqn:Hin; [done|]. injection Hr as <-. unfold may_receive in Hm.
    assert (length (running a) < session_executions lim ∧ waiting a = t :: l) as [Hlt Hw].
    { unfold waiting. destruct (phase a); [|by destruct Hph as [-> _]; rewrite <-Hin|done]. split; [|done].
      apply andb_true_iff in Hm as [_ Hm]. by apply Nat.ltb_lt. }
    eapply (inv_update w c a _ _ []); try done; cbn; rewrite ?app_nil_r; try done.
    + split_and!; cbn in *; [lia|lia|done].
    + unfold held. by rewrite Hw.
    + unfold held. by rewrite Hw.
  - unfold start in Hst. destruct (phase a) as [| |t] eqn:Hp; try done. destruct (execution w) as [|n] eqn:He; [done|].
    injection Hst as <-. destruct (inv_actors w Hi c a Hc) as (Hq & Hn & Hph). rewrite Hp in Hph.
    eapply (inv_update w c a _ _ [t]); try done; cbn.
    + split_and!; cbn; [done|rewrite length_app; cbn; lia|done].
    + unfold waiting. by rewrite Hp.
    + unfold held, waiting, in_exec. rewrite Hp. cbn. rewrite sum_list_with_app. cbn. lia.
    + rewrite He. unfold busy, in_exec. cbn. rewrite sum_list_with_app. cbn. lia.
    + unfold held, waiting, in_exec. rewrite Hp. cbn. rewrite sum_list_with_app. cbn. lia.
    + intros x. rewrite times_app, times_one. unfold runs. cbn. rewrite sum_list_with_app. cbn. lia.
  - eapply (inv_entry c a l1 t Executing l2 [(t, Releasing)] _ _ [(session_key a, t)]); try done; cbn; try lia.
    + intros Hp. destruct (inv_actors w Hi c a Hc) as (_ & _ & Hph). rewrite Hp, Hr in Hph. by destruct Hph as [? _], l1.
    + intros x. rewrite times_one. unfold runs. cbn. lia.
  - eapply (inv_entry c a l1 t Releasing l2 [(t, Completed)] _ _ []); try done; cbn; rewrite ?app_nil_r; try done; try lia.
    intros Hp. destruct (inv_actors w Hi c a Hc) as (_ & _ & Hph). rewrite Hp, Hr in Hph. by destruct Hph as [? _], l1.
  - eapply (inv_entry c a l1 t Completed l2 [] _ _ []); try done; cbn; rewrite ?app_nil_r; try done; try lia.
    by rewrite Hp.
Qed.

Theorem reachable_inv w : reachable lim w → Inv w.
Proof.
  intros Hr. unfold reachable in Hr. remember (new lim) as w0 eqn:E0.
  assert (Inv w0) as H0 by (rewrite E0; apply coordinator_starts). clear E0.
  induction Hr as [|w0 w1 w2 Hs _ IH]; [done|]. apply IH. destruct Hs as [key t w' Hd|w' Hs].
  - by eapply inv_dispatch_begin.
  - by eapply inv_internal.
Qed.

(** ** Order and number of executions *)
Lemma busy_running a : busy a ≤ length (running a).
Proof. unfold busy, in_exec. induction (running a) as [|[t []] l IH]; cbn; lia. Qed.
Lemma busy_with_bound w key : Inv w → busy_with key w ≤ session_executions lim.
Proof.
  intros Hi. unfold busy_with. destruct (inboxes w !! key) as [c|] eqn:Hk.
  - destruct (proj1 (inv_registry w Hi _ _) Hk) as (a & Ha & <-).
    rewrite (sum_delete _ _ c a) by done. rewrite decide_True by done. rewrite sum_zero.
    + destruct (inv_actors w Hi c a Ha) as (_ & ? & _). pose proof (busy_running a). lia.
    + intros c' a' (Hne & Ha')%lookup_delete_Some. rewrite decide_False; [done|]. intros Heq.
      assert (inboxes w !! session_key a = Some c') by (apply (inv_registry w Hi); eauto). congruence.
  - rewrite sum_zero; [lia|]. intros c a Ha. rewrite decide_False; [done|]. intros <-.
    assert (inboxes w !! session_key a = Some c) by (apply (inv_registry w Hi); eauto). congruence.
Qed.

(** ** Every internal step takes some work forward *)
Definition work a : nat :=
  10 * length (inbox a) + in_exec (λ e, match e with Executing => 6 | Releasing => 4 | Completed => 2 end) a
  + match phase a with LoopTop => 1 | Receiving => 0 | Acquiring _ => 8 end.
Definition measure w : nat := 12 * length (dispatching w) + total work (actors w).

Lemma work_decreases w w' : internal lim w w' → measure w' < measure w.
Proof.
  intros Hs. destruct Hs as [l1 l2 key t c Hd Hc|c a Hc Hp Hr|c a a' Hc Hm Hr|c a w' Hc Hst|c a l1 t l2 Hc Hr
                            |c a l1 t l2 Hc Hr|c a l1 t l2 Hc Hp Hr]; unfold measure.
  - assert (length (dispatching w) = S (length (l1 ++ l2))) as Hlen by (rewrite Hd, !length_app; cbn; lia).
    unfold dispatch_locked, spawn_actor.
    destruct (inboxes w !! key) as [sender|]; [destruct (actors w !! sender) as [a|] eqn:Ha|];
      repeat case_match; cbn [reject accept fst dispatching actors]; try lia;
      try (rewrite sum_insert by done; unfold work, in_exec; cbn; lia).
    pose proof (sum_update work _ sender a (queued t a) Ha) as Hu.
    assert (work (queued t a) = 10 + work a) by (unfold work, in_exec; cbn; rewrite length_app; cbn; lia).
    change {| session_key := session_key a; inbox := inbox a ++ [t]; phase := phase a; running := running a |}
      with (queued t a). lia.
  - unfold retire_if_idle. destruct (inbox a) as [|t l] eqn:Hin; cbn.
    + rewrite (sum_delete work (actors w) c a) by done. unfold work at 2. rewrite Hp. lia.
    + pose proof (sum_update work _ c a {| session_key := session_key a; inbox := t :: l; phase := Receiving;
                                             running := running a |} Hc) as Hu.
      unfold work at 1 3, in_exec in Hu. rewrite Hp, Hin in Hu. cbn in *. lia.
  - unfold receive in Hr. destruct (inbox a) as [|t l] eqn:Hin; [done|]. injection Hr as <-. cbn.
    pose proof (sum_update work _ c a {| session_key := session_key a; inbox := l; phase := Acquiring t;
                                           running := running a |} Hc) as Hu.
    unfold work at 1 3, in_exec in Hu. rewrite Hin in Hu. cbn in *. lia.
  - unfold start in Hst. destruct (phase a) as [| |t] eqn:Hp; try done. destruct (execution w); [done|].
    injection Hst as <-. cbn.
    pose proof (sum_update work _ c a {| session_key := session_key a; inbox := inbox a; phase := LoopTop;
                                           running := running a ++ [(t, Executing)] |} Hc) as Hu.
    unfold work at 1 3, in_exec in Hu. cbn in Hu. rewrite Hp, sum_list_with_app in Hu. cbn in *. lia.
  - cbn. pose proof (sum_update work _ c a (with_running a (l1 ++ (t, Releasing) :: l2)) Hc) as Hu.
    unfold work at 1 3, in_exec in Hu. cbn in Hu. rewrite Hr, !sum_list_with_app in Hu. cbn in *. lia.
  - cbn. pose proof (sum_update work _ c a (with_running a (l1 ++ (t, Completed) :: l2)) Hc) as Hu.
    unfold work at 1 3, in_exec in Hu. cbn in Hu. rewrite Hr, !sum_list_with_app in Hu. cbn in *. lia.
  - cbn. pose proof (sum_update work _ c a (with_running a (l1 ++ l2)) Hc) as Hu.
    unfold work at 1 3, in_exec in Hu. cbn in Hu. rewrite Hr, !sum_list_with_app in Hu. cbn in *. lia.
Qed.

(** ** Nothing is left behind *)
Lemma stuck_entries w c a t e :
  nf (internal lim) w → actors w !! c = Some a → (t, e) ∈ running a → e = Completed.
Proof.
  intros Hnf Hc (l1 & l2 & Hr)%list_elem_of_split. destruct e; [| |done]; destruct Hnf.
  - eexists. by eapply step_ended.
  - eexists. by eapply step_released.
Qed.
Lemma stuck_done w :
  Inv w → 0 < max_executions lim → nf (internal lim) w → dispatching w = [] ∧ actors w = ∅.
Proof.
  intros Hi Hmax Hnf. split.
  - destruct (dispatching w) as [|[key t] l] eqn:Hd; [done|]. destruct Hnf. eexists.
    apply (step_locked lim w [] l key t (fresh (dom (actors w)))); [done|].
    apply not_elem_of_dom, is_fresh.
  - apply map_empty. intros c. destruct (actors w !! c) as [a|] eqn:Hc; [exfalso|done].
    assert (total busy (actors w) = 0) as Hb.
    { apply sum_zero. intros c' a' Hc'. unfold busy, in_exec.
      assert (∀ t e, (t, e) ∈ running a' → e = Completed) as Hall by (intros t e; by apply (stuck_entries w c' a')).
      induction (running a') as [|[t e] l IH]; [done|]. cbn. rewrite (Hall t e) by (by left). apply IH.
      intros t' e' Hin. eapply Hall. by right. }
    pose proof (inv_permits w Hi) as Hp. destruct (inv_actors w Hi c a Hc) as (_ & _ & Hph).
    apply Hnf. destruct (phase a) as [| |t] eqn:Ha.
    + destruct (running a) as [|[t e] l] eqn:Hr.
      * eexists. by apply (step_top lim w c a).
      * assert (e = Completed) as -> by (eapply stuck_entries; [done|done|rewrite Hr; by left]).
        eexists. by eapply (step_joined lim w c a [] t l).
    + destruct Hph as [Hr Hin]. destruct (inbox a) as [|t l] eqn:Hi'; [done|]. eexists.
      eapply (step_receive lim w c a); [done|unfold may_receive; by rewrite Ha|unfold receive; by rewrite Hi'].
    + destruct (execution w) as [|n] eqn:He; [lia|]. eexists. eapply (step_start lim w c a); [done|].
      unfold start. by rewrite Ha, He.
Qed.

Lemma times_of_key key t l : times (key, t) l = length (filter (λ t', t' = t) (of_key key l)).
Proof.
  unfold times, of_key. induction l as [|[key' t'] l IH]; [done|]. rewrite !filter_cons. cbn [fst].
  destruct (decide (key' = key)) as [->|Hne].
  - rewrite fmap_cons, filter_cons. cbn [snd]. destruct (decide (t' = t)) as [->|Ht].
    + rewrite decide_True by done. cbn. by rewrite IH.
    + rewrite decide_False by congruence. exact IH.
  - rewrite decide_False by congruence. exact IH.
Qed.
Lemma times_cons x y l : times x (y :: l) = (if decide (y = x) then 1 else 0) + times x l.
Proof. unfold times. rewrite filter_cons. by destruct (decide _). Qed.
Lemma times_elem x l : times x l ≠ 0 → x ∈ l.
Proof.
  induction l as [|y l IH]; [done|]. rewrite times_cons. destruct (decide (y = x)) as [->|]; [by left|].
  intros. right. by apply IH.
Qed.
Lemma times_permutation l1 l2 : (∀ x, times x l1 = times x l2) → l1 ≡ₚ l2.
Proof.
  revert l2. induction l1 as [|x l1 IH]; intros l2 Hx.
  - destruct l2 as [|y l2]; [done|]. specialize (Hx y). rewrite times_cons, decide_True in Hx by done. done.
  - assert (x ∈ l2) as (l & l' & ->)%list_elem_of_split.
    { apply times_elem. rewrite <-Hx, times_cons, decide_True by done. lia. }
    rewrite <-Permutation_middle. f_equiv. apply IH. intros y. specialize (Hx y).
    rewrite times_app, !times_cons in Hx. rewrite times_app. lia.
Qed.

Lemma drained w :
  Inv w → dispatching w = [] → actors w = ∅ →
  finished w ≡ₚ accepted w ∧ (∀ key, of_key key (started w) = of_key key (accepted w)) ∧
  inboxes w = ∅ ∧ admission w = max_accepted lim ∧ execution w = max_executions lim.
Proof.
  intros [H1 H2 H3 H4 H5 H6 H8 H7] Hd Ha.
  assert (inboxes w = ∅) as Hb.
  { apply map_empty. intros key. destruct (inboxes w !! key) as [c|] eqn:Hk; [|done].
    apply H1 in Hk as (a & Hc & _). by rewrite Ha, lookup_empty in Hc. }
  assert (∀ key, of_key key (started w) = of_key key (accepted w)) as Hst.
  { intros key. rewrite H2. unfold waiting_for. by rewrite Hb, lookup_empty, app_nil_r. }
  rewrite Ha, Hd in *. split_and!; [|done|done| |].
  - apply times_permutation. intros [key t]. rewrite (times_of_key key t (accepted w)), <-Hst, <-times_of_key.
    rewrite H7. by rewrite sum_empty, Nat.add_0_r.
  - rewrite sum_empty in H3. cbn in H3. lia.
  - rewrite sum_empty in H4. lia.
Qed.
End Invariant.

(** ** The theorems *)
Section Theorems.
Context {T : Type} `{EqDecision T} (lim : Limits).
Implicit Types (w : World T).

(** C23. The bounds of the executions of inbound messages, and their order, however calls,
    actors and executions interleave: at most so many run in the gateway and in one
    conversation, at most so many are accepted and not yet run to their end, there is one
    actor at most for a conversation and so many at most in all; and the messages of a
    conversation are started in the order in which they were accepted, each once. *)
Theorem executions_bounded_in_order w :
  0 < session_executions lim → reachable lim w →
  total busy (actors w) ≤ max_executions lim ∧
  (∀ key, busy_with key w ≤ session_executions lim) ∧
  length (accepted w) ≤ length (finished w) + max_accepted lim ∧
  (∀ c c' a a', actors w !! c = Some a → actors w !! c' = Some a' → session_key a = session_key a' → c = c') ∧
  size (inboxes w) ≤ max_accepted lim ∧
  ∀ key, of_key key (started w) `prefix_of` of_key key (accepted w).
Proof.
  intros Hpos Hi%reachable_inv; [|done].
  pose proof (inv_permits _ _ Hi). pose proof (inv_slots _ _ Hi). pose proof (inv_count _ _ Hi). split_and!; [lia| |lia| | |].
  - intros key. by apply busy_with_bound.
  - intros c c' a a' Hc Hc' Heq.
    assert (inboxes w !! session_key a = Some c) by (apply (inv_registry _ _ Hi); eauto).
    assert (inboxes w !! session_key a = Some c') by (apply (inv_registry _ _ Hi); eauto). congruence.
  - apply (inv_size _ _ Hi).
  - intros key. rewrite (inv_order _ _ Hi). by exists (waiting_for key w).
Qed.

(** C22. No accepted message is lost, although actors retire while others are accepted: from
    every state that can be reached the code comes to rest, whatever it does in between, as
    long as executions end; and then every accepted message has run to its end, once and in
    the order of its conversation, all slots and permits are back, and no actor is left. *)
Theorem accepted_work_is_done w :
  0 < session_executions lim → 0 < max_executions lim → reachable lim w →
  sn (internal lim) w ∧
  ∀ w', rtc (internal lim) w w' → nf (internal lim) w' →
    finished w' ≡ₚ accepted w' ∧ (∀ key, of_key key (started w') = of_key key (accepted w')) ∧
    dispatching w' = [] ∧ actors w' = ∅ ∧ inboxes w' = ∅ ∧
    admission w' = max_accepted lim ∧ execution w' = max_executions lim.
Proof.
  intros Hpos Hexe Hr. split.
  - assert (∀ n (x : World T), measure x < n → sn (internal lim) x) as Hsn; [|by apply (Hsn (S (measure w))); lia].
    induction n as [|n IH]; intros x Hx; [lia|]. constructor. intros y Hy. apply IH.
    pose proof (work_decreases lim Hpos x y Hy). lia.
  - intros w' Hrun Hnf. assert (Inv lim w') as Hi.
    { apply reachable_inv; [done|]. unfold reachable in *. etrans; [exact Hr|].
      clear -Hrun. induction Hrun as [|w1 w2 w3 Hs _ IH]; [done|]. eapply rtc_l; [by apply step_internal|done]. }
    destruct (stuck_done lim Hpos w' Hi Hexe Hnf) as [Hd Ha]. destruct (drained lim Hpos w' Hi Hd Ha) as (? & ? & ? & ? & ?).
    done.
Qed.
End Theorems.

(** ** Examples *)
(** A run, step by step: which step is taken, for which call, actor and entry. *)
Inductive Move := MDispatch (key : str) (t : nat) | MLocked (c : nat) | MTop (c : nat) | MReceive (c : nat)
  | MStart (c : nat) | MEnded (c i : nat) | MReleased (c i : nat) | MJoined (c i : nat).
Definition entry (e : Exec) (i : nat) (a : Actor nat) : option (list (nat * Exec) * nat * list (nat * Exec)) :=
  match running a !! i, e with
  | Some (t, Executing), Executing | Some (t, Releasing), Releasing | Some (t, Completed), Completed =>
      Some (take i (running a), t, drop (S i) (running a))
  | _, _ => None
  end.
Definition move (lim : Limits) (m : Move) (w : World nat) : option (World nat) :=
  match m with
  | MDispatch key t => dispatch_begin key t w
  | MLocked c =>
      match dispatching w, actors w !! c with
      | (key, t) :: l, None => Some (dispatch_locked lim c l key t w).1
      | _, _ => None
      end
  | MTop c => a ← actors w !! c; match phase a, running a with LoopTop, [] => Some (retire_if_idle c a w).1 | _, _ => None end
  | MReceive c => a ← actors w !! c; if may_receive lim a then a' ← receive a; Some (set_actor c a' w) else None
  | MStart c => a ← actors w !! c; start c a w
  | MEnded c i => a ← actors w !! c; '(l1, t, l2) ← entry Executing i a; Some (run_ended c a l1 t l2 w)
  | MReleased c i => a ← actors w !! c; '(l1, t, l2) ← entry Releasing i a; Some (released c a l1 t l2 w)
  | MJoined c i =>
      a ← actors w !! c; '(l1, _, l2) ← entry Completed i a;
      match phase a with LoopTop => Some (joined c a l1 l2 w) | _ => None end
  end.
Fixpoint play (lim : Limits) (ms : list Move) (w : World nat) : option (World nat) :=
  match ms with [] => Some w | m :: ms => w' ← move lim m w; play lim ms w' end.

Lemma entry_Some e i a l1 t l2 : entry e i a = Some (l1, t, l2) → running a = l1 ++ (t, e) :: l2.
Proof.
  unfold entry. destruct (running a !! i) as [[t' e']|] eqn:Hi; [|done]. apply take_drop_middle in Hi.
  destruct e', e; try done; intros [= <- <- <-]; done.
Qed.
Lemma move_is_step lim m w w' : move lim m w = Some w' → step lim w w'.
Proof.
  destruct m as [key t|c|c|c|c|c i|c i|c i]; cbn [move].
  - by eapply step_dispatch.
  - destruct (dispatching w) as [|[key t] l] eqn:Hd; [done|]. destruct (actors w !! c) eqn:Hc; [done|].
    intros [= <-]. apply step_internal. by apply (step_locked lim w [] l).
  - intros (a & Ha & Hm)%bind_Some. destruct (phase a) eqn:Hp; try done. destruct (running a) eqn:Hr; [|done].
    injection Hm as <-. apply step_internal. by apply step_top.
  - intros (a & Ha & Hm)%bind_Some. destruct (may_receive lim a) eqn:Hp; [|done].
    apply bind_Some in Hm as (a' & Hr & [= <-]). apply step_internal. by eapply step_receive.
  - intros (a & Ha & Hm)%bind_Some. apply step_internal. by eapply step_start.
  - intros (a & Ha & Hm)%bind_Some. apply bind_Some in Hm as ([[l1 t] l2] & He%entry_Some & [= <-]).
    apply step_internal. by eapply step_ended.
  - intros (a & Ha & Hm)%bind_Some. apply bind_Some in Hm as ([[l1 t] l2] & He%entry_Some & [= <-]).
    apply step_internal. by eapply step_released.
  - intros (a & Ha & Hm)%bind_Some. apply bind_Some in Hm as ([[l1 t] l2] & He%entry_Some & Hm).
    destruct (phase a) eqn:Hp; try done. injection Hm as <-. apply step_internal. by eapply step_joined.
Qed.
Lemma play_reachable lim ms w : play lim ms (new lim) = Some w → reachable lim w.
Proof.
  unfold reachable. generalize (new lim : World nat) as w0. induction ms as [|m ms IH]; intros w0; cbn [play].
  - by intros [= ->].
  - intros (w1 & Hm%move_is_step & Hms)%bind_Some. eapply rtc_l; [done|by apply IH].
Qed.

(** Three messages of one conversation and one of another, with room for a single execution
    each and two in all. *)
Definition small : Limits := {| max_accepted := 4; max_executions := 2; session_executions := 1; queue_capacity := 32 |}.
Definition busy_day : list Move :=
  [MDispatch §"a" 1; MLocked 0; MDispatch §"a" 2; MDispatch §"b" 3; MLocked 1; MTop 0; MReceive 0; MStart 0; MLocked 1;
   MTop 1; MReceive 1; MStart 1; MDispatch §"a" 4; MLocked 2].
Definition rest_of_day : list Move :=
  [MEnded 0 0; MReleased 0 0; MJoined 0 0; MTop 0; MReceive 0; MStart 0; MEnded 0 0; MReleased 0 0; MJoined 0 0;
   MTop 0; MReceive 0; MStart 0; MEnded 1 0; MEnded 0 0; MReleased 1 0; MJoined 1 0; MTop 1; MReleased 0 0; MJoined 0 0; MTop 0].

Lemma executions_bounded_in_order_witness :
  ∃ w, play small busy_day (new small) = Some w ∧ total busy (actors w) = 2 ∧
    of_key §"a" (accepted w) = [1; 2; 4] ∧ of_key §"a" (started w) = [1] ∧
    total busy (actors w) ≤ max_executions small.
Proof.
  eexists. split; [by vm_compute|]. split; [by vm_compute|]. split; [by vm_compute|]. split; [by vm_compute|].
  assert (0 < session_executions small) as Hs by (cbn; lia).
  refine (proj1 (executions_bounded_in_order small _ Hs _)). apply (play_reachable small busy_day). by vm_compute.
Defined.

Lemma accepted_work_is_done_witness :
  ∃ w, play small busy_day (new small) = Some w ∧ sn (internal small) w ∧
    finished <$> play small rest_of_day w = Some [(§"a", 1); (§"a", 2); (§"b", 3); (§"a", 4)].
Proof.
  eexists. split; [by vm_compute|]. split; [|by vm_compute].
  assert (0 < session_executions small) as Hs by (cbn; lia). assert (0 < max_executions small) as He by (cbn; lia).
  refine (proj1 (accepted_work_is_done small _ Hs He _)). apply (play_reachable small busy_day). by vm_compute.
Defined.

(** The limits of the gateway. *)
Example gateway_limits :
  0 < session_executions COORDINATOR ∧ session_executions COORDINATOR < max_executions COORDINATOR < max_accepted COORDINATOR.
Proof. split_and!; apply Nat.ltb_lt; by vm_compute. Qed.
