(* ===== verification/AgentRouting.v ===== *)
(** * Which agent an inbound message is for
    ([gateway-server/src/channels/runtime/routing.rs], [runtime/agent_routing.rs]; the
    records of [config/src/channel_store.rs])

    A message names no agent: it is routed by the settings of its channel, by the thread it
    belongs to, or by an alias at the start of its text.  The files of channels, agents and
    sessions are read by functions that are arguments here; a field of a JSON object is what
    the code reads of it. *)
From stdpp Require Import gmap list strings sorting.
From S2P Require Import Prelude RustStr.

Definition COMMA : char := 44%N.
Definition non_empty (s : str) : option str := if bool_decide (s = []) then None else Some s.
(** [trim], then [to_ascii_lowercase]. *)
Definition normalized (s : str) : str := to_ascii_lowercase (trim s).

(** ** Channels ([channel_store.rs]) *)
Inductive RouteMatchType := Peer | ParentPeer | Guild | GuildRoles | Team | Account | Channel | Default.
#[export] Instance RouteMatchType_eq_dec : EqDecision RouteMatchType.
Proof. solve_decision. Defined.
Record RouteRule := {
  rule_channel : str;
  rule_filter : option str;
  rule_sender : option str;
  rule_agent_id : str;
  priority : Z;
  rule_guild_id : option str;
  rule_team_id : option str;
  rule_account_id : option str;
  roles : list str;
  rule_role_ids : list str;
  match_type : RouteMatchType;
}.
Inductive Router := AgentId (agent_id : str) | RouteRules (default_agent_id : str) (rules : list RouteRule).

Inductive AccessPolicyMode := Open | Allowlist | Denylist | Disabled.
Record ChannelAccessPolicy := { mode : AccessPolicyMode; allowlist : list str; denylist : list str }.
Definition is_allowed (p : ChannelAccessPolicy) (id : str) : bool :=
  let listed (l : list str) := existsb (λ entry, bool_decide (normalized entry = normalized id)) l in
  match mode p with
  | Open => true
  | Disabled => false
  | Allowlist => listed (allowlist p)
  | Denylist => negb (listed (denylist p))
  end.

Record ChannelConfig := {
  config_id : str;
  kind : str;
  enabled : bool;
  router : option Router;
  dm_policy : option ChannelAccessPolicy;
  group_policy : option ChannelAccessPolicy;
}.

(** ** The router ([agent_routing.rs]) *)
Record RoutingContext := {
  channel : str;
  channel_id : option str;
  sender_id : option str;
  group_id : option str;
  guild_id : option str;
  team_id : option str;
  account_id : option str;
  role_ids : list str;
  parent_sender_id : option str;
}.
Record RouteResolution := { agent_id : str; matched_rule : bool }.

Definition effective_roles (rule : RouteRule) : list str :=
  if bool_decide (roles rule = []) then rule_role_ids rule else roles rule.
(** [actual.as_deref() == Some(expected)]. *)
Definition is_some_of (expected : str) (actual : option str) : bool := bool_decide (actual = Some expected).
Definition sender_matches (sender : str) (id : option str) : bool :=
  is_some_of sender id || match id with Some id => starts_with id sender | None => false end.

Definition matches_by_match_type (rule : RouteRule) (ctx : RoutingContext) : bool :=
  match match_type rule with
  | Peer => match rule_sender rule with Some sender => sender_matches sender (sender_id ctx) | None => true end
  | ParentPeer =>
      match rule_sender rule with
      | Some sender => sender_matches sender (parent_sender_id ctx)
      | None => bool_decide (is_Some (parent_sender_id ctx))
      end
  | Guild => match rule_guild_id rule with Some guild => is_some_of guild (guild_id ctx) | None => false end
  | GuildRoles =>
      match rule_guild_id rule with
      | None => false
      | Some guild =>
          if negb (is_some_of guild (guild_id ctx)) then false
          else
            let actual_roles := to_ascii_lowercase <$> role_ids ctx in
            existsb (λ r, one_of (to_ascii_lowercase r) actual_roles) (effective_roles rule)
      end
  | Team => match rule_team_id rule with Some team => is_some_of team (team_id ctx) | None => false end
  | Account => match rule_account_id rule with Some account => is_some_of account (account_id ctx) | None => false end
  | Channel =>
      match rule_filter rule with Some f => is_some_of f (channel_id ctx) | None => false end
      || bool_decide (rule_channel rule = §"*") || bool_decide (rule_channel rule = channel ctx)
  | Default => true
  end.
Definition matches_rule (rule : RouteRule) (ctx : RoutingContext) : bool :=
  if negb (bool_decide (rule_channel rule = §"*")) && negb (bool_decide (rule_channel rule = channel ctx)) then false
  else if match rule_filter rule with
          | Some filter => negb (is_some_of filter (channel_id ctx) || is_some_of filter (group_id ctx))
          | None => false
          end then false
  else matches_by_match_type rule ctx.

(** [AgentRouter::new]: highest priority first. *)
Definition by_priority (rules : list RouteRule) : list RouteRule := sort_by_key (λ r, - priority r)%Z rules.
Definition CHAIN : list RouteMatchType := [Peer; ParentPeer; GuildRoles; Guild; Team; Account; Channel; Default].
Definition first_rule (P : RouteRule → bool) (rules : list RouteRule) : option RouteRule :=
  snd <$> list_find (λ r, P r = true) rules.
(** The loop over the chain. *)
Fixpoint chain_rule (chain : list RouteMatchType) (rules : list RouteRule) (ctx : RoutingContext) : option RouteRule :=
  match chain with
  | [] => None
  | m :: chain =>
      match first_rule (λ rule, bool_decide (match_type rule = m) && matches_rule rule ctx) rules with
      | Some rule => Some rule
      | None => chain_rule chain rules ctx
      end
  end.
Definition resolve_with_details (rules : list RouteRule) (default_agent : str) (ctx : RoutingContext) : RouteResolution :=
  match chain_rule CHAIN rules ctx with
  | Some rule => {| agent_id := rule_agent_id rule; matched_rule := true |}
  | None =>
      match first_rule (λ rule, matches_rule rule ctx) rules with
      | Some rule => {| agent_id := rule_agent_id rule; matched_rule := true |}
      | None => {| agent_id := default_agent; matched_rule := false |}
      end
  end.

(** [extract_discord_roles] and [extract_slack_groups]. *)
Definition extract_discord_roles (raw_roles : list str) : list str :=
  filter (λ s, s ≠ []) (trim <$> concat (split_on COMMA <$> raw_roles)).

(** ** Helpers of [routing.rs] *)
Fixpoint dedupe_from (seen : list str) (values : list str) : list str :=
  match values with
  | [] => []
  | value :: values =>
      let trimmed := trim value in
      let key := to_ascii_lowercase trimmed in
      if bool_decide (trimmed = []) || one_of key seen then dedupe_from seen values
      else trimmed :: dedupe_from (key :: seen) values
  end.
Definition dedupe_values_case_insensitive (values : list str) : list str := dedupe_from [] values.

Definition extract_agent_from_routing_id (routing_id : str) : option str :=
  without_prefix ← strip_prefix §"agent:" routing_id;
  head ← head (split_on COLON without_prefix);
  non_empty (trim head).

(** What the parents of threads need of the session store. *)
Record SessionEntry := {
  remote_thread_id : option str;
  thread_id : option str;
  routing_id : option str;
  parent_thread_id : option str;
}.
Definition MAX_PARENT_DEPTH : nat := 8.
Definition by_thread (entries : list SessionEntry) : gmap str SessionEntry :=
  foldl (λ m e, match (match remote_thread_id e with Some t => Some t | None => thread_id e end) with
                | Some t => <[t := e]> m
                | None => m
                end) ∅ entries.
Fixpoint parent_agent (depth : nat) (threads : gmap str SessionEntry) (current : str) : option str :=
  match depth with
  | 0 => None
  | S depth =>
      entry ← threads !! current;
      match routing_id entry ≫= extract_agent_from_routing_id with
      | Some agent => Some agent
      | None =>
          next ← parent_thread_id entry;
          if bool_decide (next = current) then None else parent_agent depth threads next
      end
  end.
Definition resolve_parent_thread_agent (entries : list SessionEntry) (parent_thread_id : option str) : option str :=
  current ← parent_thread_id; parent_agent MAX_PARENT_DEPTH (by_thread entries) current.

Definition channel_kind_matches (config_kind platform : str) : bool :=
  let config_kind := normalized config_kind in
  let platform := normalized platform in
  bool_decide (config_kind = platform)
  || (bool_decide (config_kind = §"feishu") && bool_decide (platform = §"lark"))
  || (bool_decide (config_kind = §"lark") && bool_decide (platform = §"feishu")).

Section Channels.
(** The store of channels, by identifier or kind ([None]: an error), and the identifier of
    the Matrix account that sends to a room. *)
Context (get_channel_config : str → option (option ChannelConfig)) (resolve_matrix_outbound_config : str → option str).

Definition enabled_config (answer : option (option ChannelConfig)) : option ChannelConfig :=
  match answer with
  | Some (Some config) => if enabled config then Some config else None
  | _ => None
  end.
Definition load_saved_channel_config (platform channel_id : str) (saved_channel_config_id : option str)
    : option ChannelConfig :=
  match saved_channel_config_id with
  | Some config_id =>
      config ← enabled_config (get_channel_config config_id);
      if channel_kind_matches (kind config) platform then Some config else None
  | None =>
      let matrix :=
        if eq_ignore_ascii_case platform §"matrix" then
          id ← resolve_matrix_outbound_config channel_id; enabled_config (get_channel_config id)
        else None in
      match matrix with
      | Some config => Some config
      | None => enabled_config (get_channel_config platform)
      end
  end.

(** What routing reads of [StartThreadMeta]. *)
Record RouteMeta := {
  forced_agent_id : option str;
  meta_peer_id : option str;
  meta_group_id : option str;
  meta_parent_thread_id : option str;
  meta_guild_id : option str;
  meta_team_id : option str;
  meta_account_id : option str;
  meta_parent_sender_id : option str;
  meta_role_ids : list str;
  meta_slack_groups : list str;
  meta_saved_channel_config_id : option str;
}.

Definition routing_context (platform channel_id : str) (name : option str) (meta : RouteMeta) : RoutingContext :=
  let role_values := meta_role_ids meta ++ meta_slack_groups meta in
  let role_values :=
    if eq_ignore_ascii_case platform §"discord" || eq_ignore_ascii_case platform §"slack"
    then extract_discord_roles role_values else role_values in
  {| channel := platform;
     channel_id := Some channel_id;
     sender_id := match meta_peer_id meta with Some p => Some p | None => name end;
     group_id := meta_group_id meta;
     guild_id := meta_guild_id meta;
     team_id := meta_team_id meta;
     account_id := meta_account_id meta;
     role_ids := dedupe_values_case_insensitive role_values;
     parent_sender_id := meta_parent_sender_id meta |}.

(** [sessions]: the entries of the session store. *)
Definition resolve_routed_agent (sessions : list SessionEntry) (platform channel_id : str) (name : option str)
    (meta : RouteMeta) : str :=
  match forced_agent_id meta ≫= λ id, non_empty (trim id) with
  | Some forced => forced
  | None =>
      let parent := resolve_parent_thread_agent sessions (meta_parent_thread_id meta) in
      let unrouted := from_option id §"default" parent in
      match load_saved_channel_config platform channel_id (meta_saved_channel_config_id meta) ≫= router with
      | Some (AgentId id) => if bool_decide (trim id = []) then unrouted else trim id
      | Some (RouteRules default_agent_id rules) =>
          let resolved := resolve_with_details (by_priority rules) default_agent_id
                            (routing_context platform channel_id name meta) in
          if matched_rule resolved then agent_id resolved
          else match parent with Some agent => agent | None => agent_id resolved end
      | None => unrouted
      end
  end.
End Channels.

(** ** Agents, and aliases at the start of a text *)
(** A reply setting of an agent for one channel: its key is the first of [channel_id],
    [route] and [channel] that is there, if it is a string. *)
Record ChannelReply := { route : option str; reply_activation : option str }.
Record IdleReplyFile := { idle_enabled : option bool; idle_delay_secs : option Z; idle_max_per_hour : option Z; idle_prompt : option str }.
Record AgentFile := {
  file_id : option str;
  file_name : option str;
  identity_name : option str;
  agent_aliases : list str;
  group_activation_field : option str;
  group_keywords_field : list str;
  ingest_policy_field : option str;
  external_bot_policy_field : option str;
  channel_replies : option (list ChannelReply);
  idle_reply_field : option IdleReplyFile;
}.

Definition normalize_alias (raw : str) : option str :=
  let alias := trim (trim_start_matches (λ c, bool_decide (c = AT)) (trim raw)) in
  if bool_decide (alias = []) then None else Some (to_ascii_lowercase alias).
Definition collect_agent_aliases (config : AgentFile) (fallback_id : str) : list str :=
  let named := omap id [Some fallback_id; file_id config; file_name config; identity_name config] in
  dedupe_values_case_insensitive (omap normalize_alias named ++ omap normalize_alias (agent_aliases config)).

(** The full-width comma and colon among them. *)
Definition is_alias_separator (c : char) : bool :=
  bool_decide (c ∈ [COLON; COMMA; SP; 9%N; 65292%N; 65306%N]).
Definition ends_alias (c : char) : bool := is_alias_separator c || bool_decide (c = LF) || bool_decide (c = CR).

(** The candidates in turn. *)
Fixpoint strip_candidates (trimmed : str) (candidates : list str) : option str :=
  match candidates with
  | [] => None
  | candidate :: candidates =>
      match strip_prefix candidate (to_ascii_lowercase trimmed) with
      | Some rest =>
          if match head rest with None => true | Some ch => ends_alias ch end
          then Some (trim (trim_start_matches is_alias_separator (drop (length candidate) trimmed)))
          else strip_candidates trimmed candidates
      | None => strip_candidates trimmed candidates
      end
  end.
Definition split_leading_alias (text alias : str) : option str :=
  let alias_lower := normalized alias in
  if bool_decide (alias_lower = []) then None
  else strip_candidates (trim_start text) [AT :: alias_lower; alias_lower].

Record TextTargetMatch := { target_agent_id : option str; stripped_prompt : option str }.
Definition no_target : TextTargetMatch := {| target_agent_id := None; stripped_prompt := None |}.
Definition target_candidate (stem : str) (config : AgentFile) (text alias : str) : option (nat * TextTargetMatch) :=
  stripped ← split_leading_alias text alias;
  Some (str_len alias,
        {| target_agent_id := Some (from_option id stem (file_id config)); stripped_prompt := non_empty stripped |}).
(** The longest alias, the first of the same length. *)
Definition better (best : option (nat * TextTargetMatch)) (c : nat * TextTargetMatch) : option (nat * TextTargetMatch) :=
  match best with
  | Some (rank, _) => if rank <? c.1 then Some c else best
  | None => Some c
  end.
Definition resolve_text_target_match (agents : list (str * AgentFile)) (platform text : str) : TextTargetMatch :=
  if bool_decide (platform = §"arkret") then no_target
  else
    let candidates := concat ((λ a : str * AgentFile,
                          omap (target_candidate a.1 a.2 text) (collect_agent_aliases a.2 a.1)) <$> agents) in
    from_option snd no_target (foldl better None candidates).

(** * Correctness *)

(** ** The router *)
(** The place of a rule in the chain. *)
Definition rank (m : RouteMatchType) : nat :=
  match m with
  | Peer => 0 | ParentPeer => 1 | GuildRoles => 2 | Guild => 3 | Team => 4 | Account => 5 | Channel => 6 | Default => 7
  end.
Lemma rank_inj m m' : rank m = rank m' → m = m'.
Proof. by destruct m, m'. Qed.
Lemma chain_complete m : m ∈ CHAIN.
Proof. destruct m; unfold CHAIN; set_solver. Qed.

Lemma first_rule_Some P rules r :
  first_rule P rules = Some r →
  ∃ i, list_find (λ r, P r = true) rules = Some (i, r) ∧ r ∈ rules ∧ P r = true.
Proof.
  unfold first_rule. intros ([i r'] & Hf & [= ->])%fmap_Some. exists i. split; [done|].
  apply list_find_Some in Hf as (Hi & HP & _). split; [by eapply list_elem_of_lookup_2|done].
Qed.
Lemma first_rule_None P rules r : first_rule P rules = None → r ∈ rules → P r = false.
Proof.
  unfold first_rule. intros Hf%fmap_None Hr. apply list_find_None in Hf. rewrite Forall_forall in Hf.
  specialize (Hf r Hr). by destruct (P r).
Qed.

(** The first rule of one kind, among rules sorted by priority: the highest, and the first
    written of these. *)
Lemma first_by_priority (P : RouteRule → bool) rules r :
  first_rule P (by_priority rules) = Some r →
  r ∈ rules ∧ P r = true ∧ (∀ r', r' ∈ rules → P r' = true → (priority r' ≤ priority r)%Z) ∧
  head (filter (λ r', P r' = true ∧ priority r' = priority r) rules) = Some r.
Proof.
  intros (i & Hf & Hin & HP)%first_rule_Some. unfold by_priority in *. rewrite sort_by_key_perm in Hin.
  pose proof (sort_by_key_sorted (λ r, - priority r)%Z rules) as Hsorted.
  split_and!; [done|done| |].
  - intros r' Hr' HP'. destruct (list_find_least _ _ _ _ _ Hsorted Hf) as (_ & _ & Hleast).
    specialize (Hleast r'). rewrite sort_by_key_perm in Hleast. specialize (Hleast Hr' HP'). cbn in Hleast. lia.
  - rewrite <-(sort_by_key_stable (λ r, - priority r)%Z _ (- priority r)%Z) by (intros y [_ ->]; done).
    apply list_find_Some in Hf as (Hi & _ & Hbefore). rewrite <-(take_drop_middle _ i r Hi), filter_app.
    rewrite filter_none.
    + rewrite app_nil_l, filter_cons, decide_True by done. done.
    + apply Forall_forall. intros y [j Hj]%list_elem_of_lookup [HPy _]. apply lookup_take_Some in Hj as [Hj Hlt].
      by apply (Hbefore j y).
Qed.

Lemma chain_rule_Some chain rules ctx r :
  chain_rule chain rules ctx = Some r →
  ∃ before after, chain = before ++ match_type r :: after ∧
    first_rule (λ rule, bool_decide (match_type rule = match_type r) && matches_rule rule ctx) rules = Some r ∧
    ∀ m, m ∈ before → first_rule (λ rule, bool_decide (match_type rule = m) && matches_rule rule ctx) rules = None.
Proof.
  induction chain as [|m chain IH]; cbn [chain_rule]; [done|].
  destruct (first_rule (λ rule, bool_decide (match_type rule = m) && matches_rule rule ctx) rules) as [r'|] eqn:Hf.
  - intros [= ->]. destruct (first_rule_Some _ _ _ Hf) as (_ & _ & _ & HP). bool_tac. subst m.
    exists [], chain. split_and!; [done|done|]. intros m Hm. by apply elem_of_nil in Hm.
  - intros Hc. destruct (IH Hc) as (before & after & Hchain & Hr & Hb). exists (m :: before), after.
    split_and!; [by rewrite Hchain|done|]. intros m' [->|Hm']%elem_of_cons; [done|by apply Hb].
Qed.
Lemma chain_rule_None chain rules ctx r :
  chain_rule chain rules ctx = None → match_type r ∈ chain → r ∈ rules → matches_rule r ctx = false.
Proof.
  induction chain as [|m chain IH]; cbn [chain_rule]; [by intros _ ?%elem_of_nil|].
  destruct (first_rule _ rules) as [r'|] eqn:Hf; [done|]. intros Hc [<-|Hm]%elem_of_cons Hr; [|by apply IH].
  eapply first_rule_None in Hf; [|exact Hr]. by rewrite bool_decide_true in Hf.
Qed.
Lemma rank_before before m after m' :
  CHAIN = before ++ m :: after → rank m' < rank m → m' ∈ before.
Proof.
  intros Hc. do 8 (destruct before as [|? before]; [injection Hc as <- Hc; destruct m'; cbn; set_solver by lia|
    injection Hc as <- Hc]).
  by destruct before.
Qed.

(** C26. The router: the rule that is taken matches and there is no better one: none that is
    earlier in the chain from the sender to the default, none of the same kind with a higher
    priority, and of the same priority none written before it.  Only if no rule matches it
    is the default agent. *)
Theorem router_picks_best rules default_agent ctx :
  let resolved := resolve_with_details (by_priority rules) default_agent ctx in
  if matched_rule resolved then
    ∃ r, r ∈ rules ∧ matches_rule r ctx = true ∧ agent_id resolved = rule_agent_id r ∧
      (∀ r', r' ∈ rules → matches_rule r' ctx = true →
         rank (match_type r) < rank (match_type r') ∨
         (match_type r' = match_type r ∧ (priority r' ≤ priority r)%Z)) ∧
      head (filter (λ r', match_type r' = match_type r ∧ matches_rule r' ctx = true ∧ priority r' = priority r) rules) = Some r
  else agent_id resolved = default_agent ∧ ∀ r, r ∈ rules → matches_rule r ctx = false.
Proof.
  cbn zeta. unfold resolve_with_details. destruct (chain_rule CHAIN (by_priority rules) ctx) as [r|] eqn:Hc; cbn [matched_rule agent_id].
  - apply chain_rule_Some in Hc as (before & after & Hchain & Hf & Hbefore).
    destruct (first_by_priority _ _ _ Hf) as (Hin & HP & Hprio & Hhead). bool_tac.
    exists r. split_and!; [done|done|done| |].
    + intros r' Hr' Hm'. destruct (decide (match_type r' = match_type r)) as [Heq|Hne].
      * right. split; [done|]. apply Hprio; [done|]. by rewrite bool_decide_true.
      * left. destruct (Nat.lt_trichotomy (rank (match_type r)) (rank (match_type r'))) as [|[Heq|Hlt]]; [done| |].
        -- by apply rank_inj in Heq.
        -- pose proof (Hbefore _ (rank_before _ _ _ _ Hchain Hlt)) as Hnone.
           apply (first_rule_None _ _ r') in Hnone; [|unfold by_priority; by rewrite sort_by_key_perm].
           cbv beta in Hnone. rewrite bool_decide_true in Hnone by done. cbn in Hnone. congruence.
    + rewrite <-Hhead. f_equal. apply list_filter_iff. intros y.
      rewrite andb_true_iff, bool_decide_eq_true. tauto.
  - assert (∀ r, r ∈ rules → matches_rule r ctx = false) as Hall.
    { intros r Hr. eapply chain_rule_None; [exact Hc|apply chain_complete|].
      unfold by_priority. by rewrite sort_by_key_perm. }
    destruct (first_rule _ _) as [r|] eqn:Hf; [|done].
    apply first_rule_Some in Hf as (_ & _ & Hr & Hm). unfold by_priority in Hr. rewrite sort_by_key_perm in Hr.
    rewrite Hall in Hm by done. done.
Qed.

(** ** Aliases *)
Lemma best_of l best :
  (∀ n x, best = Some (n, x) → (n, x) ∈ l) →
  ∀ rest, match foldl better best rest with
          | Some (n, x) => (n, x) ∈ l ++ rest ∧ (∀ c, c ∈ rest → c.1 ≤ n) ∧ (∀ b, best = Some b → b.1 ≤ n)
          | None => best = None ∧ rest = []
          end.
Proof.
  intros Hb rest. revert l best Hb. induction rest as [|c rest IH]; intros l best Hb; cbn [foldl].
  - destruct best as [[n x]|]; [|done]. rewrite app_nil_r. split_and!; [by apply Hb|by intros ? ?%elem_of_nil|].
    by intros b [= <-].
  - specialize (IH (l ++ [c]) (better best c)).
    assert (∀ n x, better best c = Some (n, x) → (n, x) ∈ l ++ [c]) as Hc.
    { intros n x. unfold better. destruct best as [[m y]|]; [destruct (m <? c.1)|]; intros Heq.
      - apply elem_of_app. right. apply list_elem_of_singleton. congruence.
      - apply elem_of_app. left. by apply Hb.
      - apply elem_of_app. right. apply list_elem_of_singleton. congruence. }
    specialize (IH Hc). rewrite <-app_assoc in IH. cbn in IH.
    destruct (foldl better (better best c) rest) as [[n x]|].
    + destruct IH as (Hin & Hrest & Hle). split_and!; [done| |].
      * intros c' [->|Hc']%elem_of_cons; [|by apply Hrest]. unfold better in Hle.
        destruct best as [[m y]|]; [destruct (Nat.ltb_spec m c.1)|]; specialize (Hle _ eq_refl); cbn in Hle; lia.
      * intros b ->. unfold better in Hle. destruct b as [m y].
        destruct (Nat.ltb_spec m c.1); specialize (Hle _ eq_refl); cbn in *; lia.
    + destruct IH as [Hnone _]. unfold better in Hnone. destruct best as [[m y]|]; [by destruct (m <? c.1)|done].
Qed.

(** The agent that a text names has an alias at its start, and no agent has a longer one there. *)
Theorem text_target_is_longest agents platform text agent :
  target_agent_id (resolve_text_target_match agents platform text) = Some agent →
  ∃ stem config alias,
    (stem, config) ∈ agents ∧ alias ∈ collect_agent_aliases config stem ∧ agent = from_option id stem (file_id config) ∧
    is_Some (split_leading_alias text alias) ∧
    ∀ stem' config' alias', (stem', config') ∈ agents → alias' ∈ collect_agent_aliases config' stem' →
      is_Some (split_leading_alias text alias') → str_len alias' ≤ str_len alias.
Proof.
  unfold resolve_text_target_match. destruct (bool_decide _); [done|].
  set (candidates := concat _). pose proof (best_of [] None ltac:(done) candidates) as Hbest.
  destruct (foldl better None candidates) as [[n m]|]; [|done]. cbn [from_option snd]. intros Hid.
  destruct Hbest as (Hin & Hmax & _). rewrite app_nil_l in Hin.
  assert (∀ c, c ∈ candidates ↔ ∃ stem config alias, (stem, config) ∈ agents ∧
            alias ∈ collect_agent_aliases config stem ∧ target_candidate stem config text alias = Some c) as Hc.
  { intros c. subst candidates. rewrite list_elem_of_In, in_concat. setoid_rewrite <-list_elem_of_In.
    setoid_rewrite list_elem_of_fmap. split.
    - intros (l & ([stem config] & -> & Ha) & Hl). apply list_elem_of_omap in Hl as (alias & ? & ?). by exists stem, config, alias.
    - intros (stem & config & alias & Ha & Hl & Hcand). eexists. split; [by exists (stem, config)|].
      apply list_elem_of_omap. by exists alias. }
  apply Hc in Hin as (stem & config & alias & Ha & Hal & Ht). unfold target_candidate in Ht.
  apply bind_Some in Ht as (stripped & Hs & [= <- <-]). injection Hid as <-.
  exists stem, config, alias. split_and!; [done|done|done|by eexists|].
  intros stem' config' alias' Ha' Hal' [stripped' Hs'].
  eapply (Hmax (str_len alias', _)). apply Hc. exists stem', config', alias'. split_and!; [done|done|].
  unfold target_candidate. by rewrite Hs'.
Qed.

(** ** Examples *)
Definition rule (m : RouteMatchType) (sender guild : option str) (agent : str) (prio : Z) : RouteRule :=
  {| rule_channel := §"*"; rule_filter := None; rule_sender := sender; rule_agent_id := agent; priority := prio;
     rule_guild_id := guild; rule_team_id := None; rule_account_id := None; roles := []; rule_role_ids := [];
     match_type := m |}.
Definition from_sender (id : str) : RoutingContext :=
  {| channel := §"discord"; channel_id := None; sender_id := Some id; group_id := None; guild_id := Some §"g";
     team_id := None; account_id := None; role_ids := []; parent_sender_id := None |}.

(** A rule for the sender 12 also takes the messages of 123. *)
Example sender_prefix :
  resolve_with_details (by_priority [rule Peer (Some §"12") None §"private" 0]) §"default" (from_sender §"123") =
  {| agent_id := §"private"; matched_rule := true |}.
Proof. by vm_compute. Qed.
(** A rule that names no kind is one for senders, and comes before every more specific rule,
    whatever its priority; the loop that is meant for such rules is never reached. *)
Example unspecific_rule_first :
  resolve_with_details (by_priority [rule Peer None None §"fallback" 0; rule Guild None (Some §"g") §"guild" 100])
    §"default" (from_sender §"1") = {| agent_id := §"fallback"; matched_rule := true |}.
Proof. by vm_compute. Qed.
(** An alias with a separator, and what is left of the text. *)
Example alias_at_start :
  split_leading_alias §"@Fox, run the tests" §"fox" = Some §"run the tests" ∧ split_leading_alias §"foxes" §"fox" = None.
Proof. split; by vm_compute. Qed.
