(* ===== verification/Trigger.v ===== *)
(** * Which inbound messages an agent answers
    ([gateway-server/src/channels/runtime/trigger.rs]; the admission and the decision in
    [channels/runtime.rs], [spawn_start_thread_pipeline_with_meta]; the settings of an
    agent in [channels/runtime/routing.rs])

    A message from a chat platform is admitted by the access policy of its channel, routed
    ([AgentRouting]), taken for the answer to an approval if it reads like one
    ([GatewayApprovals]), and else answered, buffered as context, or ignored.  The registry
    of runtime commands and the files are arguments; the delivery over Arkret, which adds
    checks of its own before these, is left out. *)
From stdpp Require Import gmap list strings.
From S2P Require Import Prelude RustStr GatewayApprovals AgentRouting.

(** ** Admission *)
Inductive PolicyDecision := Allow | Block.
Section Admission.
Context (get_channel_config : str → option (option ChannelConfig)) (resolve_matrix_outbound_config : str → option str).
Definition check_channel_policies (platform channel_id : str) (peer_id chat_type group_id : option str)
    (saved_channel_config_id : option str) : PolicyDecision :=
  match load_saved_channel_config get_channel_config resolve_matrix_outbound_config platform channel_id saved_channel_config_id with
  | None => if saved_channel_config_id then Block else Allow
  | Some config =>
      let is_group := match chat_type with Some t => one_of t [§"group"; §"supergroup"; §"channel"] | None => false end in
      let '(policy, check_id) :=
        if is_group then (group_policy config, from_option id channel_id group_id)
        else (dm_policy config, from_option id channel_id peer_id) in
      match policy with
      | Some policy => if negb (is_allowed policy check_id) then Block else Allow
      | None => Allow
      end
  end.
End Admission.

(** ** The decision ([trigger.rs]) *)
Inductive SenderKind := Human | SelfBot | OwnAgentGhost | ExternalBot | BridgeGhost | UnknownSender.
Inductive ConversationKind := Direct | PairRoom | Group | Broadcast | UnknownConversation.
Inductive TriggerReason := DirectMessage | PairRoomReason | MentionedMe | MentionedOtherAgent | ReplyToMyMessage
  | CommandReason | KeywordMatched | RoomDefaultAgent | ExternalBotIgnored | ExternalBotIngestOnly
  | SelfMessageIgnored | NoTrigger.
Inductive TriggerDecision := Ignore (reason : TriggerReason) | IngestOnly (reason : TriggerReason) | Reply (reason : TriggerReason).
Inductive IngestPolicy := PreserveBase | IngestNone | ReplyOnly | TargetedOnly | AllHumanMessages | AllNonBotMessages | AllMessages.
Inductive ExternalBotPolicy := BotIgnore | BotIngestOnly | ReplyAllowed.
Inductive GroupActivation := Mention | Keyword | Always | Command | Off.

(** A setting, as it is read: [trim], not empty, in lower case. *)
Definition setting (value : option str) : option str := value ≫= λ v, to_ascii_lowercase <$> non_empty (trim v).
Definition is_setting (value : option str) (s : str) : bool := bool_decide (setting value = Some s).
Definition ingest_from_str (value : option str) : IngestPolicy :=
  if is_setting value §"none" then IngestNone
  else if is_setting value §"reply_only" then ReplyOnly
  else if is_setting value §"targeted_only" then TargetedOnly
  else if is_setting value §"all_human_messages" then AllHumanMessages
  else if is_setting value §"all_non_bot_messages" then AllNonBotMessages
  else if is_setting value §"all_messages" then AllMessages
  else PreserveBase.
Definition external_bot_from_str (value : option str) : ExternalBotPolicy :=
  if is_setting value §"ingest_only" then BotIngestOnly
  else if is_setting value §"reply_allowed" then ReplyAllowed
  else BotIgnore.
Definition parse_group_activation_str (value : option str) : GroupActivation :=
  if is_setting value §"keyword" then Keyword
  else if is_setting value §"always" then Always
  else if is_setting value §"command" then Command
  else if is_setting value §"off" then Off
  else Mention.

Record IdleReplyConfig := { idle_reply_enabled : bool; delay_secs : Z; max_per_hour : Z; prompt : option str }.
Definition idle_default : IdleReplyConfig :=
  {| idle_reply_enabled := false; delay_secs := 180; max_per_hour := 1; prompt := None |}.
Record AgentTriggerConfig := {
  group_activation : GroupActivation;
  group_keywords : list str;
  ingest_policy : IngestPolicy;
  external_bot_policy : ExternalBotPolicy;
  trigger_aliases : list str;
  idle_reply : IdleReplyConfig;
}.
Definition trigger_default : AgentTriggerConfig :=
  {| group_activation := Mention; group_keywords := []; ingest_policy := PreserveBase; external_bot_policy := BotIgnore;
     trigger_aliases := []; idle_reply := idle_default |}.
Record TriggerContext := {
  sender_kind : SenderKind;
  conversation_kind : ConversationKind;
  is_mentioned : bool;
  reply_to_self : bool;
  is_command : bool;
  explicitly_targets_other_agent : bool;
  text : str;
}.

Definition effective_conversation_kind (chat_type : option str) (participant_count : option Z) : ConversationKind :=
  if bool_decide (participant_count = Some 2%Z) then PairRoom
  else match setting chat_type with
       | Some value =>
           if one_of value [§"dm"; §"private"; §"direct"; §"single"] then Direct
           else if one_of value [§"channel"; §"broadcast"] then Broadcast
           else if one_of value [§"group"; §"supergroup"; §"chat"] then Group
           else UnknownConversation
       | None => UnknownConversation
       end.

Definition decide_trigger (sender_kind : SenderKind) (chat_type : option str) (participant_count : option Z)
    (is_mentioned reply_to_self is_command used_plain_text_fallback explicitly_targets_other_agent : bool)
    : TriggerDecision :=
  match sender_kind with
  | SelfBot | OwnAgentGhost | BridgeGhost => Ignore SelfMessageIgnored
  | ExternalBot => Ignore ExternalBotIgnored
  | Human | UnknownSender =>
      if explicitly_targets_other_agent && negb is_mentioned && negb is_command then IngestOnly MentionedOtherAgent
      else if reply_to_self then Reply ReplyToMyMessage
      else if is_command then Reply CommandReason
      else if is_mentioned then Reply MentionedMe
      else match effective_conversation_kind chat_type participant_count with
           | Direct => Reply DirectMessage
           | PairRoom => Reply PairRoomReason
           | Group | Broadcast | UnknownConversation =>
               if used_plain_text_fallback then IngestOnly RoomDefaultAgent else Reply RoomDefaultAgent
           end
  end.

Definition has_group_keyword (text : str) (keywords : list str) : bool :=
  let lower := to_ascii_lowercase text in
  existsb (λ keyword, let needle := normalized keyword in
                      negb (bool_decide (needle = [])) && str_contains lower needle) keywords.

(** A room: neither a direct conversation nor one of two. *)
Definition is_room (k : ConversationKind) : bool :=
  match k with Group | Broadcast | UnknownConversation => true | _ => false end.
Definition no_reply (d : TriggerDecision) : TriggerDecision :=
  match d with Reply reason => IngestOnly reason | other => other end.
Definition activated (base : TriggerDecision) (ctx : TriggerContext) (config : AgentTriggerConfig) : TriggerDecision :=
  match group_activation config with
  | Always => match base with IngestOnly RoomDefaultAgent => Reply RoomDefaultAgent | other => other end
  | Off => no_reply base
  | Command => if is_command ctx then Reply CommandReason else no_reply base
  | Mention => if is_mentioned ctx then base else no_reply base
  | Keyword =>
      if is_mentioned ctx then base
      else if has_group_keyword (text ctx) (group_keywords config) then Reply KeywordMatched
      else no_reply base
  end.
Definition ingested (decision : TriggerDecision) (sender : SenderKind) (policy : IngestPolicy) : TriggerDecision :=
  match policy with
  | PreserveBase => decision
  | IngestNone | ReplyOnly => match decision with IngestOnly reason => Ignore reason | other => other end
  | TargetedOnly =>
      match decision with
      | IngestOnly MentionedOtherAgent => decision
      | IngestOnly reason => Ignore reason
      | other => other
      end
  | AllHumanMessages =>
      match decision, sender with Ignore NoTrigger, Human => IngestOnly NoTrigger | other, _ => other end
  | AllNonBotMessages =>
      match decision, sender with
      | Ignore NoTrigger, (Human | UnknownSender) => IngestOnly NoTrigger
      | other, _ => other
      end
  | AllMessages =>
      match decision, sender with
      | Ignore NoTrigger, (Human | UnknownSender | ExternalBot) => IngestOnly NoTrigger
      | other, _ => other
      end
  end.
Definition apply_agent_trigger_policy (base : TriggerDecision) (ctx : TriggerContext) (config : AgentTriggerConfig)
    : TriggerDecision :=
  let decision :=
    if is_room (conversation_kind ctx) && negb (explicitly_targets_other_agent ctx) && negb (reply_to_self ctx)
    then activated base ctx config else base in
  ingested decision (sender_kind ctx) (ingest_policy config).

(** [idle_reply.rs]. *)
Definition should_schedule_idle_reply (decision : TriggerDecision) (ctx : TriggerContext) (config : AgentTriggerConfig)
    : bool :=
  if negb (idle_reply_enabled (idle_reply config)) then false
  else match decision with
       | IngestOnly reason =>
           if negb (is_room (conversation_kind ctx)) then false
           else if match sender_kind ctx with Human => false | _ => true end
                   || is_mentioned ctx || is_command ctx || reply_to_self ctx || explicitly_targets_other_agent ctx
                   || bool_decide (trim (text ctx) = []) then false
           else match reason with
                | MentionedOtherAgent | ExternalBotIngestOnly | ExternalBotIgnored | SelfMessageIgnored => false
                | _ => true
                end
       | _ => false
       end.

(** ** The settings of an agent ([routing.rs]) *)
Definition sanitize_agent_file_stem (raw : str) : option str :=
  let mapped (ch : char) : char :=
    if bool_decide (ch ∈ lit "/\:*?<>|" ++ [34%N]) then MINUS
    else if bool_decide (ch < 32)%N || (bool_decide (127 ≤ ch)%N && bool_decide (ch ≤ 159)%N) then MINUS
    else ch in
  if bool_decide (trim raw = []) then None
  else
    let out := trim_matches (λ c, bool_decide (c ∈ [SP; DOT])) (mapped <$> trim raw) in
    if bool_decide (out = []) || bool_decide (out = §".") || bool_decide (out = §"..") then None else Some out.

Definition is_agent (trimmed : str) (a : str * AgentFile) : bool :=
  eq_ignore_ascii_case a.1 trimmed
  || match file_id a.2 ≫= λ id, non_empty (trim id) with Some id => eq_ignore_ascii_case id trimmed | None => false end
  || bool_decide (setting (file_name a.2) = setting (Some trimmed)).
(** [direct]: the file of that name, if it exists ([Some None]: it cannot be read); [agents]:
    all of them. *)
Definition resolve_agent_config_value (direct : str → option (option AgentFile)) (agents : list (str * AgentFile))
    (agent_ref : str) : option AgentFile :=
  let trimmed := trim agent_ref in
  if bool_decide (trimmed = []) then None
  else match sanitize_agent_file_stem trimmed ≫= direct with
       | Some config => config
       | None => (λ x, snd (snd x)) <$> list_find (λ a, is_agent trimmed a = true) agents
       end.

Definition route_context_keys (platform channel_id saved_channel_config_id : option str) : list str :=
  let platform := setting platform in
  option_list (setting saved_channel_config_id)
  ++ match setting channel_id with
     | Some channel_id =>
         channel_id :: match platform with Some p => [p ++ [COLON] ++ channel_id; p] | None => [] end
     | None => option_list platform
     end.
Definition channel_reply_group_activation (config : AgentFile) (keys : list str) : option GroupActivation :=
  if bool_decide (keys = []) then None
  else
    replies ← channel_replies config;
    '(_, reply) ← list_find (λ reply, match setting (route reply) with Some k => one_of k keys | None => false end = true) replies;
    Some (parse_group_activation_str (reply_activation reply)).
Definition parse_idle_reply_config (value : option IdleReplyFile) : IdleReplyConfig :=
  match value with
  | None => idle_default
  | Some config =>
      {| idle_reply_enabled := from_option id false (idle_enabled config);
         delay_secs := Z.max 30 (from_option id 180%Z (idle_delay_secs config));
         max_per_hour := Z.min (2 ^ 32 - 1) (Z.max 1 (from_option id 1%Z (idle_max_per_hour config)));
         prompt := idle_prompt config ≫= λ p, non_empty (trim p) |}
  end.
Definition load_agent_trigger_config (direct : str → option (option AgentFile)) (agents : list (str * AgentFile))
    (agent_ref : str) (keys : list str) : AgentTriggerConfig :=
  match resolve_agent_config_value direct agents agent_ref with
  | None => trigger_default
  | Some config =>
      {| group_activation := from_option id (parse_group_activation_str (group_activation_field config))
                               (channel_reply_group_activation config keys);
         group_keywords := group_keywords_field config;
         ingest_policy := ingest_from_str (ingest_policy_field config);
         external_bot_policy := external_bot_from_str (external_bot_policy_field config);
         trigger_aliases := collect_agent_aliases config (from_option id agent_ref (file_id config));
         idle_reply := parse_idle_reply_config (idle_reply_field config) |}
  end.

(** ** The pipeline *)
(** What it reads of [StartThreadMeta] besides [RouteMeta]. *)
Record Inbound := {
  in_platform : str;
  in_channel_id : str;
  in_name : option str;
  in_route : RouteMeta;
  in_chat_type : option str;
  in_sender_kind : SenderKind;
  in_mentioned : bool;
  in_reply_to_self : bool;
  in_command : bool;
  in_fallback : bool;
  in_participants : option Z;
  in_targets_other : bool;
  in_prompt : str;
}.
Inductive Outcome :=
| Blocked
| ApprovalAnswer (prompt : str)
| Ignored (agent : str) (reason : TriggerReason)
| Buffered (agent prompt : str) (reason : TriggerReason) (idle : bool)
| Answered (agent prompt : str) (reason : TriggerReason).

Section Pipeline.
Context (get_channel_config : str → option (option ChannelConfig)) (resolve_matrix_outbound_config : str → option str).
Context (sessions : list SessionEntry) (direct : str → option (option AgentFile)) (agents : list (str * AgentFile)).
Context (has_command : str → bool).

Definition routed (m : Inbound) : str * str * option str :=
  let target := resolve_text_target_match agents (in_platform m) (in_prompt m) in
  (from_option id (resolve_routed_agent get_channel_config resolve_matrix_outbound_config sessions (in_platform m)
                     (in_channel_id m) (in_name m) (in_route m)) (target_agent_id target),
   from_option id (in_prompt m) (stripped_prompt target ≫= non_empty),
   target_agent_id target).

(** [group_activation]: that of the session, if it has one. *)
Definition trigger_config (m : Inbound) (agent : str) (session_activation : option str) : AgentTriggerConfig :=
  let config := load_agent_trigger_config direct agents agent
                  (route_context_keys (Some (in_platform m)) (Some (in_channel_id m)) (meta_saved_channel_config_id (in_route m))) in
  match session_activation with
  | Some activation =>
      {| group_activation := parse_group_activation_str (Some activation); group_keywords := group_keywords config;
         ingest_policy := ingest_policy config; external_bot_policy := external_bot_policy config;
         trigger_aliases := trigger_aliases config; idle_reply := idle_reply config |}
  | None => config
  end.

Definition trigger_context (m : Inbound) (agent prompt : str) (target : option str) : TriggerContext :=
  let text_targets (same : bool) :=
    match target with Some agent_id => Bool.eqb (eq_ignore_ascii_case agent_id agent) same | None => false end in
  {| sender_kind := in_sender_kind m;
     conversation_kind := effective_conversation_kind (in_chat_type m) (in_participants m);
     is_mentioned := in_mentioned m || text_targets true;
     reply_to_self := in_reply_to_self m;
     is_command := in_command m || has_command prompt;
     explicitly_targets_other_agent := in_targets_other m || text_targets false;
     text := prompt |}.
Definition base_trigger_decision (m : Inbound) (ctx : TriggerContext) (config : AgentTriggerConfig) : TriggerDecision :=
  let effective_sender_kind :=
    match in_sender_kind m, external_bot_policy config with ExternalBot, ReplyAllowed => Human | k, _ => k end in
  match in_sender_kind m, external_bot_policy config with
  | ExternalBot, BotIngestOnly => IngestOnly ExternalBotIngestOnly
  | _, _ => decide_trigger effective_sender_kind (in_chat_type m) (in_participants m) (is_mentioned ctx) (reply_to_self ctx)
              (is_command ctx) (in_fallback m) (explicitly_targets_other_agent ctx)
  end.

Definition inbound (m : Inbound) (session_activation : option str) : Outcome :=
  match check_channel_policies get_channel_config resolve_matrix_outbound_config (in_platform m) (in_channel_id m)
          (meta_peer_id (in_route m)) (in_chat_type m) (meta_group_id (in_route m))
          (meta_saved_channel_config_id (in_route m)) with
  | Block => Blocked
  | Allow =>
      let '(agent, prompt, target) := routed m in
      if looks_like_channel_approval_reply prompt then ApprovalAnswer prompt
      else
        let config := trigger_config m agent session_activation in
        let ctx := trigger_context m agent prompt target in
        match apply_agent_trigger_policy (base_trigger_decision m ctx config) ctx config with
        | Ignore reason => Ignored agent reason
        | IngestOnly reason =>
            Buffered agent prompt reason (should_schedule_idle_reply (IngestOnly reason) ctx config)
        | Reply reason => Answered agent prompt reason
        end
  end.
End Pipeline.

(** * Correctness *)

(** Senders that can be answered at all, and when they are. *)
Definition heard (sender : SenderKind) (policy : ExternalBotPolicy) : bool :=
  match sender, policy with
  | (Human | UnknownSender), _ | ExternalBot, ReplyAllowed => true
  | _, _ => false
  end.
Definition answers (ctx : TriggerContext) (config : AgentTriggerConfig) : bool :=
  let heard := heard (sender_kind ctx) (external_bot_policy config) in
  if is_room (conversation_kind ctx) && negb (explicitly_targets_other_agent ctx) && negb (reply_to_self ctx) then
    match group_activation config with
    | Off => false
    | Command => is_command ctx
    | Keyword => if is_mentioned ctx then heard else has_group_keyword (text ctx) (group_keywords config)
    | Mention => is_mentioned ctx && heard
    | Always => heard
    end
  else heard && (negb (explicitly_targets_other_agent ctx) || is_mentioned ctx || is_command ctx).

Definition is_reply (d : TriggerDecision) : bool := match d with Reply _ => true | _ => false end.
Lemma ingested_reply d sender policy : is_reply (ingested d sender policy) = is_reply d.
Proof. by destruct policy, d as [[]|[]|[]], sender. Qed.

Lemma base_heard m ctx config :
  sender_kind ctx = in_sender_kind m →
  match base_trigger_decision m ctx config with
  | Reply _ | IngestOnly RoomDefaultAgent => heard (sender_kind ctx) (external_bot_policy config) = true
  | IngestOnly MentionedOtherAgent =>
      heard (sender_kind ctx) (external_bot_policy config) = true ∧ explicitly_targets_other_agent ctx = true
  | _ => heard (sender_kind ctx) (external_bot_policy config) = false
  end.
Proof.
  intros ->. unfold base_trigger_decision, decide_trigger.
  destruct (in_sender_kind m), (external_bot_policy config); cbn; try done;
    repeat case_match; try done; bool_tac; try done; congruence.
Qed.
Lemma base_reply m ctx config :
  sender_kind ctx = in_sender_kind m →
  conversation_kind ctx = effective_conversation_kind (in_chat_type m) (in_participants m) →
  is_reply (base_trigger_decision m ctx config) =
    heard (sender_kind ctx) (external_bot_policy config)
    && (negb (explicitly_targets_other_agent ctx) || is_mentioned ctx || is_command ctx)
    && (reply_to_self ctx || is_command ctx || is_mentioned ctx || negb (is_room (conversation_kind ctx)) || negb (in_fallback m)).
Proof.
  intros -> ->. unfold base_trigger_decision, decide_trigger.
  destruct (in_sender_kind m), (external_bot_policy config); cbn; try done;
    destruct (explicitly_targets_other_agent ctx), (is_mentioned ctx), (is_command ctx), (reply_to_self ctx), (in_fallback m);
    cbn; try done; by destruct (effective_conversation_kind _ _).
Qed.

Lemma policy_reply m ctx config :
  sender_kind ctx = in_sender_kind m →
  conversation_kind ctx = effective_conversation_kind (in_chat_type m) (in_participants m) →
  is_reply (apply_agent_trigger_policy (base_trigger_decision m ctx config) ctx config) = answers ctx config.
Proof.
  intros Hs Hk. pose proof (base_reply m ctx config Hs Hk) as Hr. pose proof (base_heard m ctx config Hs) as Hh.
  unfold apply_agent_trigger_policy, answers. rewrite ingested_reply.
  destruct (base_trigger_decision m ctx config) as [reason|reason|reason];
    destruct (is_room (conversation_kind ctx)), (explicitly_targets_other_agent ctx), (reply_to_self ctx); cbn in *;
    unfold activated; repeat case_match; cbn in *; try done; try congruence;
    repeat match goal with H : _ ∧ _ |- _ => destruct H end; try congruence;
    repeat match goal with H : heard _ _ = _ |- _ => rewrite H in * end; cbn in *; try done;
    destruct (is_mentioned ctx), (is_command ctx), (in_fallback m); cbn in *; congruence.
Qed.

Section Spec.
Context (get_channel_config : str → option (option ChannelConfig)) (resolve_matrix_outbound_config : str → option str).
Context (sessions : list SessionEntry) (direct : str → option (option AgentFile)) (agents : list (str * AgentFile)).
Context (has_command : str → bool).


(** A text never addresses another agent: the one it names becomes the one it is routed to. *)
Theorem text_never_targets_other m agent prompt target :
  routed get_channel_config resolve_matrix_outbound_config sessions agents m = (agent, prompt, target) →
  explicitly_targets_other_agent (trigger_context has_command m agent prompt target) = in_targets_other m.
Proof.
  unfold routed, trigger_context. cbn [explicitly_targets_other_agent]. intros [= <- <- <-].
  destruct (target_agent_id _) as [a|]; cbn; [|by rewrite orb_false_r].
  assert (eq_ignore_ascii_case a a = true) as -> by (unfold eq_ignore_ascii_case; by apply bool_decide_true).
  by rewrite orb_false_r.
Qed.
End Spec.

(** ** Examples *)
Section Samples.
Definition no_route : RouteMeta :=
  {| forced_agent_id := None; meta_peer_id := Some §"u1"; meta_group_id := Some §"g1"; meta_parent_thread_id := None;
     meta_guild_id := None; meta_team_id := None; meta_account_id := None; meta_parent_sender_id := None;
     meta_role_ids := []; meta_slack_groups := []; meta_saved_channel_config_id := None |}.
Definition group_message (sender : SenderKind) (chat_type : str) (prompt : str) : Inbound :=
  {| in_platform := §"telegram"; in_channel_id := §"c1"; in_name := None; in_route := no_route;
     in_chat_type := Some chat_type; in_sender_kind := sender; in_mentioned := false; in_reply_to_self := false;
     in_command := false; in_fallback := true; in_participants := None; in_targets_other := false; in_prompt := prompt |}.
Definition agent_with (activation keywords : list str) : AgentFile :=
  {| file_id := Some §"default"; file_name := None; identity_name := None; agent_aliases := [];
     group_activation_field := head activation; group_keywords_field := keywords; ingest_policy_field := None;
     external_bot_policy_field := None; channel_replies := None; idle_reply_field := None |}.
Definition channel_with (enabled : bool) (dm group : option ChannelAccessPolicy) : ChannelConfig :=
  {| config_id := §"telegram-main"; kind := §"telegram"; enabled := enabled; router := None; dm_policy := dm; group_policy := group |}.
Definition closed : option ChannelAccessPolicy := Some {| mode := Disabled; allowlist := []; denylist := [] |}.
Definition run_sample (channel : option (option ChannelConfig)) (agent : AgentFile) (m : Inbound) : Outcome :=
  inbound (λ _, channel) (λ _, None) [] (λ _, Some (Some agent)) [] (λ _, false) m None.

(** Under the default settings a message in a group is buffered; with a keyword it is answered. *)
Example keyword_answers :
  run_sample (Some None) (agent_with [] []) (group_message Human §"group" §"build is red") =
    Buffered §"default" §"build is red" RoomDefaultAgent false ∧
  run_sample (Some None) (agent_with [§"keyword"] [§"build"]) (group_message Human §"group" §"build is red") =
    Answered §"default" §"build is red" KeywordMatched.
Proof. split; by vm_compute. Qed.
(** The keyword is looked for in every message: the agent answers its own, and those of bots
    that are to be ignored. *)
Example answers_itself :
  run_sample (Some None) (agent_with [§"keyword"] [§"build"]) (group_message SelfBot §"group" §"the build is green") =
    Answered §"default" §"the build is green" KeywordMatched ∧
  run_sample (Some None) (agent_with [§"keyword"] [§"build"]) (group_message ExternalBot §"group" §"build #1") =
    Answered §"default" §"build #1" KeywordMatched.
Proof. split; by vm_compute. Qed.
(** The policy for groups is asked for three spellings of their kind, the decision knows more. *)
Example group_policy_by_spelling :
  run_sample (Some (Some (channel_with true None closed))) (agent_with [§"always"] []) (group_message Human §"group" §"hi") = Blocked ∧
  run_sample (Some (Some (channel_with true None closed))) (agent_with [§"always"] []) (group_message Human §"chat" §"hi") =
    Answered §"default" §"hi" RoomDefaultAgent.
Proof. split; by vm_compute. Qed.
(** A channel that is switched off, or whose file cannot be read, admits every message. *)
Example disabled_channel_admits :
  run_sample (Some (Some (channel_with false closed closed))) (agent_with [§"always"] []) (group_message Human §"group" §"hi") =
    Answered §"default" §"hi" RoomDefaultAgent ∧
  run_sample None (agent_with [§"always"] []) (group_message Human §"group" §"hi") =
    Answered §"default" §"hi" RoomDefaultAgent.
Proof. split; by vm_compute. Qed.
End Samples.
