(* ===== verification/Ambient.v ===== *)
(** * Messages that are not answered
    ([gateway-server/src/runtime/session/ambient.rs], [channels/runtime/idle_reply.rs]; their
    use in [channels/runtime.rs])

    A message that is buffered ([Trigger]) becomes context of the next reply, or of an idle
    reply when its room stays quiet.  Replies, idle replies and messages run side by side:
    each is a program of [Coroutine] over the two stores, whose sections under a lock are its
    actions.  The agent, the delivery and the clock answer through the environment; the copy
    of the stores on disk, which is read once and written after each change, is left out. *)
From stdpp Require Import gmap list strings.
From S2P Require Import Prelude RustStr MachInt Truncate Coroutine.
Local Open Scope Z_scope.
Local Abbreviation default := (from_option id).

(** ** Messages as context ([ambient.rs]) *)
Definition MAX_AMBIENT_MESSAGES : nat := 16.
Definition MAX_AMBIENT_CHARS : Z := 4000.
Record AmbientMessage := { sender_id : option str; sender_name : option str; text : str }.

Definition push_message (messages : list AmbientMessage) (message : AmbientMessage) : list AmbientMessage :=
  let entry := messages ++ [message] in
  if (MAX_AMBIENT_MESSAGES <? length entry)%nat then drop (length entry - MAX_AMBIENT_MESSAGES) entry else entry.

Definition ambient_line (message : AmbientMessage) : str :=
  let speaker := match sender_name message, sender_id message with
                 | Some n, _ => n
                 | None, Some i => i
                 | None, None => §"unknown"
                 end in
  §"- " ++ speaker ++ §": " ++ trim (text message).
(** The loop, over the messages from the last; the lines are pushed in that order. *)
Fixpoint context_lines (remaining : Z) (messages : list AmbientMessage) : list str :=
  match messages with
  | [] => []
  | message :: messages =>
      let line := ambient_line message in
      let line_len := zlen line + 1 in
      if remaining <? line_len then [] else line :: context_lines (usat_sub remaining line_len) messages
  end.
Definition CONTEXT_HEADER : str := §"[ambient context since last reply]" ++ [LF].
Definition format_ambient_context (messages : list AmbientMessage) : option str :=
  let lines := context_lines MAX_AMBIENT_CHARS (reverse messages) in
  if bool_decide (lines = []) then None else Some (CONTEXT_HEADER ++ join [LF] (reverse lines)).
Definition prepend_ambient_context (prompt : str) (ambient_context : option str) : str :=
  match ambient_context ≫= λ c, if bool_decide (trim c = []) then None else Some (trim c) with
  | None => prompt
  | Some context =>
      if bool_decide (trim prompt = []) then context
      else context ++ [LF; LF] ++ §"[current message]" ++ [LF] ++ trim prompt
  end.

(** [channels/policy.rs]. *)
Definition normalize_tone_value (value : option str) : option str :=
  value ≫= λ v, if bool_decide (trim v = []) then None else Some (trim v).
Definition append_channel_tone_suffix (prompt : str) (tone_suffix : option str) : str :=
  match normalize_tone_value tone_suffix with
  | None => prompt
  | Some tone =>
      if bool_decide (trim_end prompt = []) then §"[system tone]" ++ [LF] ++ tone
      else trim_end prompt ++ [LF; LF] ++ §"[system tone]" ++ [LF]
           ++ §"Apply the following channel style guidance in your reply:" ++ [LF] ++ tone
  end.

(** ** The stores *)
Definition ONE_HOUR_MS : Z := 60 * 60 * 1000.
Record IdleReplyPending := { pending_agent : str; scheduled_at_ms : Z; deadline_at_ms : Z }.
Record IdleReplyState := {
  generation : Z;
  pending : option IdleReplyPending;
  recent_sent_at_ms : list Z;
  last_suppressed_at_ms : option Z;
  suppressed_reason : option str;
}.
Definition idle_state_default : IdleReplyState :=
  {| generation := 0; pending := None; recent_sent_at_ms := []; last_suppressed_at_ms := None; suppressed_reason := None |}.

(** What happened, for the theorems: a message, which makes a generation of its session; the
    decision to go on with an idle reply of a generation; the end of a session's state; what
    the agent was asked, and what was discarded as answered. *)
Inductive Event :=
| Recorded (session : str) (generation : Z)
| IdleDecided (session : str) (generation : Z)
| Forgotten (session : str)
| Asked (session prompt : str)
| Cleared (session : str) (messages : list AmbientMessage).
Record World := { ambient : gmap str (list AmbientMessage); idle : gmap str IdleReplyState; log : list Event }.
Definition world_new : World := {| ambient := ∅; idle := ∅; log := [] |}.

(** What the environment answers: the clock, whether the session is still known, the agent's
    reply if it has one ([None]: an error), and whether it was delivered. *)
Record Answer := { now_ms : Z; known : bool; reply : option str; delivered : bool }.
Abbreviation program := (prog World Answer).

Definition messages_of (session : str) (w : World) : list AmbientMessage := default [] (ambient w !! session).
Definition state_of (session : str) (w : World) : IdleReplyState := default idle_state_default (idle w !! session).
Definition with_idle (session : str) (st : IdleReplyState) (events : list Event) (w : World) : World :=
  {| ambient := ambient w; idle := <[session := st]> (idle w); log := log w ++ events |}.

(** *** Ambient messages *)
Definition push_ambient_message (session_id : str) (message : AmbientMessage) : program () :=
  atomically (λ _ w,
    let session := trim session_id in
    if bool_decide (session = []) || bool_decide (trim (text message) = []) then (w, ())
    else ({| ambient := <[session := push_message (messages_of session w) message]> (ambient w); idle := idle w;
             log := log w |}, ())).
Definition peek_ambient_messages (session_id : str) : program (list AmbientMessage) :=
  atomically (λ _ w,
    let session := trim session_id in
    if bool_decide (session = []) then (w, [])
    else (w, messages_of session w)).
Definition clear_ambient_messages (session_id : str) : program () :=
  atomically (λ _ w,
    let session := trim session_id in
    if bool_decide (session = []) then (w, ())
    else ({| ambient := delete session (ambient w); idle := idle w;
             log := log w ++ [Cleared session (messages_of session w)] |}, ())).

(** *** Idle replies *)
Definition prune_recent_sent (now : Z) (st : IdleReplyState) : IdleReplyState :=
  {| generation := generation st; pending := pending st;
     recent_sent_at_ms := filter (λ timestamp, usat_sub now timestamp ≤ ONE_HOUR_MS) (recent_sent_at_ms st);
     last_suppressed_at_ms := last_suppressed_at_ms st; suppressed_reason := suppressed_reason st |}.
Definition with_pending (p : option IdleReplyPending) (suppressed : option (Z * str)) (st : IdleReplyState) : IdleReplyState :=
  {| generation := generation st; pending := p; recent_sent_at_ms := recent_sent_at_ms st;
     last_suppressed_at_ms := fst <$> suppressed; suppressed_reason := snd <$> suppressed |}.

Definition record_inbound_activity (session : str) : program Z :=
  atomically (λ _ w,
    let st := state_of session w in
    let g := usat_add (generation st) 1 in
    (with_idle session {| generation := g; pending := None; recent_sent_at_ms := recent_sent_at_ms st;
                          last_suppressed_at_ms := last_suppressed_at_ms st; suppressed_reason := suppressed_reason st |}
       [Recorded session g] w, g)).

Record IdleReplySchedule := { idle_session : str; idle_agent : str; prompt_override : option str; idle_tone : option str; idle_delay_secs : Z; idle_max_per_hour : Z }.
Inductive IdleReplyScheduleOutcome := Scheduled | RateLimited.
(** [schedule_idle_reply], under the lock. *)
Definition schedule_idle_reply (s : IdleReplySchedule) : program IdleReplyScheduleOutcome :=
  atomically (λ e w,
    let now := now_ms e in
    let st := prune_recent_sent now (state_of (idle_session s) w) in
    if Z.max 1 (idle_max_per_hour s) <=? zlen (recent_sent_at_ms st)
    then (with_idle (idle_session s) (with_pending None (Some (now, §"rate_limited")) st) [] w, RateLimited)
    else
      let p := {| pending_agent := idle_agent s; scheduled_at_ms := now;
                  deadline_at_ms := usat_add now (usat_mul (idle_delay_secs s) 1000) |} in
      (with_idle (idle_session s) (with_pending (Some p) None st) [] w, Scheduled)).

Definition clear_pending (session : str) : program () :=
  atomically (λ _ w,
    match idle w !! session with
    | Some st =>
        (with_idle session {| generation := generation st; pending := None; recent_sent_at_ms := recent_sent_at_ms st;
                              last_suppressed_at_ms := last_suppressed_at_ms st;
                              suppressed_reason := suppressed_reason st |} [] w, ())
    | None => (w, ())
    end).
Definition mark_idle_reply_failed (session reason : str) : program () :=
  atomically (λ e w, (with_idle session (with_pending None (Some (now_ms e, reason)) (state_of session w)) [] w, ())).
Definition mark_idle_reply_sent (session : str) : program () :=
  atomically (λ e w,
    let st := with_pending None None (state_of session w) in
    (with_idle session
       (prune_recent_sent (now_ms e)
          {| generation := generation st; pending := pending st; recent_sent_at_ms := recent_sent_at_ms st ++ [now_ms e];
             last_suppressed_at_ms := last_suppressed_at_ms st; suppressed_reason := suppressed_reason st |}) [] w, ())).
Definition remove_idle_reply_session (session_id : str) : program () :=
  atomically (λ _ w,
    let session := trim session_id in
    if bool_decide (session = []) then (w, ())
    else ({| ambient := ambient w; idle := delete session (idle w); log := log w ++ [Forgotten session] |}, ())).

(** The state of a session, for a client. *)
Definition get_idle_reply_status (session : str) : program IdleReplyState :=
  atomically (λ e w,
    let st := prune_recent_sent (now_ms e) (state_of session w) in (with_idle session st [] w, st)).

(** The answers of the session store and the platform, and that of the agent. *)
Definition answer {A} (f : Answer → A) : program A := atomically (λ e w, (w, f e)).
Definition ask (session prompt : str) : program (option str) :=
  atomically (λ e w, ({| ambient := ambient w; idle := idle w; log := log w ++ [Asked session prompt] |}, reply e)).

Definition idle_reply_prompt (delay_secs : Z) (prompt_override : option str) : str :=
  match prompt_override ≫= λ p, if bool_decide (trim p = []) then None else Some (trim p) with
  | Some prompt => prompt
  | None =>
      §"[idle room fallback]" ++ [LF] ++ §"The room has been quiet for " ++ show_uint delay_secs
      ++ §" seconds since the last buffered human message. Use the ambient context above and send a brief, helpful reply to address the pending last message."
  end.
(** [false]: an error. *)
Definition fire_idle_reply (s : IdleReplySchedule) : program bool :=
  is_known ← answer known;
  if negb is_known then remove_idle_reply_session (idle_session s);; mret true
  else
    messages ← peek_ambient_messages (idle_session s);
    let prompt := append_channel_tone_suffix (idle_reply_prompt (idle_delay_secs s) (prompt_override s)) (idle_tone s) in
    let prompt := prepend_ambient_context prompt (format_ambient_context messages) in
    result ← ask (idle_session s) prompt;
    match result with
    | None => mret false
    | Some text =>
        if bool_decide (trim text = []) then clear_pending (idle_session s);; mret true
        else
          sent ← answer delivered;
          if negb sent then mret false
          else clear_ambient_messages (idle_session s);; mark_idle_reply_sent (idle_session s);; mret true
    end.
(** The task of [spawn_idle_reply_task], after its delay. *)
Definition idle_reply_task (generation' : Z) (s : IdleReplySchedule) : program () :=
  go ← atomically (λ _ w,
         let current := match idle w !! idle_session s with Some st => generation st | None => 0 end in
         if bool_decide (current = generation')
         then ({| ambient := ambient w; idle := idle w; log := log w ++ [IdleDecided (idle_session s) generation'] |}, true)
         else (w, false));
  if negb go then mret ()
  else
    fired ← fire_idle_reply s;
    if negb fired then mark_idle_reply_failed (idle_session s) §"trigger_failed" else mret ().

(** ** What the pipeline does with a message ([runtime.rs]) *)
(** One that is buffered; [s]: the idle reply to schedule, if any.  What follows in the task
    that is spawned is put at the end, where the pipeline has nothing left to do. *)
Definition buffered_message (session : str) (message : AmbientMessage) (s : option IdleReplySchedule) : program () :=
  g ← record_inbound_activity session;
  push_ambient_message session message;;
  match s with
  | None => mret ()
  | Some s =>
      outcome ← schedule_idle_reply s;
      match outcome with Scheduled => idle_reply_task g s | RateLimited => mret () end
  end.
(** One that is answered. *)
Definition answered_message (session prompt : str) (tone : option str) : program () :=
  record_inbound_activity session;;
  messages ← peek_ambient_messages session;
  let effective_prompt := prepend_ambient_context (append_channel_tone_suffix prompt tone) (format_ambient_context messages) in
  result ← ask session effective_prompt;
  match result with
  | None => mret ()
  | Some text => sent ← answer delivered; if sent : bool then clear_ambient_messages session else mret ()
  end.
(** A message that is ignored or answers an approval. *)
Definition other_message (session : str) : program () := record_inbound_activity session;; mret ().
(** [cleanup_session_runtime_state], for one session. *)
Definition cleanup_session (session : str) : program () :=
  clear_ambient_messages session;; remove_idle_reply_session session.

(** * Correctness *)

(** ** The context of a reply *)
Lemma push_message_bound l m : (length l ≤ MAX_AMBIENT_MESSAGES → length (push_message l m) ≤ MAX_AMBIENT_MESSAGES)%nat.
Proof.
  unfold push_message. cbv zeta. destruct (Nat.ltb_spec MAX_AMBIENT_MESSAGES (length (l ++ [m]))); [|done].
  rewrite length_drop. lia.
Qed.
Lemma push_message_elem l m x : x ∈ push_message l m → x ∈ l ∨ x = m.
Proof.
  unfold push_message. cbv zeta. intros Hx. assert (x ∈ l ++ [m]) as Hin.
  { destruct (_ <? _)%nat; [|done]. rewrite <-(take_drop (length (l ++ [m]) - MAX_AMBIENT_MESSAGES) (l ++ [m])).
    apply elem_of_app. by right. }
  apply elem_of_app in Hin as [?|?%list_elem_of_singleton]; auto.
Qed.

(** The room that lines take, each with the end of its line. *)
Fixpoint room (ls : list str) : Z := match ls with [] => 0 | l :: ls => zlen l + 1 + room ls end.
Lemma room_app l1 l2 : room (l1 ++ l2) = room l1 + room l2.
Proof. induction l1 as [|x l1 IH]; cbn; [done|]. rewrite IH. lia. Qed.
Lemma room_reverse l : room (reverse l) = room l.
Proof. induction l as [|x l IH]; [done|]. rewrite reverse_cons, room_app, IH. cbn. lia. Qed.
Lemma room_nonneg l : 0 ≤ room l.
Proof. induction l as [|x l IH]; cbn; [lia|]. unfold zlen. lia. Qed.
Lemma zlen_join l : l ≠ [] → zlen (join [LF] l) = room l - 1.
Proof.
  induction l as [|x l IH]; [done|]. intros _. destruct l as [|y l]; [cbn; lia|].
  change (join [LF] (x :: y :: l)) with (x ++ [LF] ++ join [LF] (y :: l)). unfold zlen in *.
  rewrite !length_app. cbn [room length] in *. specialize (IH ltac:(done)). unfold zlen in *. lia.
Qed.

Lemma context_lines_spec n messages :
  0 ≤ n →
  ∃ l1 l2, messages = l1 ++ l2 ∧ context_lines n messages = ambient_line <$> l1 ∧
    room (context_lines n messages) ≤ n ∧
    ∀ m, head l2 = Some m → n < room (context_lines n messages) + zlen (ambient_line m) + 1.
Proof.
  revert n. induction messages as [|m messages IH]; intros n Hn; cbn [context_lines].
  - exists [], []. by split_and!.
  - destruct (Z.ltb_spec n (zlen (ambient_line m) + 1)).
    + exists [], (m :: messages). split_and!; [done|done|done|]. cbn. intros ? [= <-]. lia.
    + unfold usat_sub. destruct (IH (n - (zlen (ambient_line m) + 1)) ltac:(lia)) as (l1 & l2 & -> & Hl & Hr & Hh).
      rewrite Z.max_l by lia. exists (m :: l1), l2. split_and!; [done|cbn; by rewrite Hl|cbn [room]; lia|].
      intros m' Hm'. specialize (Hh m' Hm'). cbn [room]. lia.
Qed.

(** The context is made of the last messages, as many as have room. *)
Definition context_ok (messages : list AmbientMessage) (context : option str) : Prop :=
  ∃ older recent, messages = older ++ recent ∧
    (∀ m, last older = Some m → MAX_AMBIENT_CHARS < room (ambient_line <$> recent) + zlen (ambient_line m) + 1) ∧
    match context with
    | None => recent = []
    | Some c => recent ≠ [] ∧ c = CONTEXT_HEADER ++ join [LF] (ambient_line <$> recent) ∧
                zlen c < zlen CONTEXT_HEADER + MAX_AMBIENT_CHARS
    end.
Lemma format_ambient_context_ok messages : context_ok messages (format_ambient_context messages).
Proof.
  destruct (context_lines_spec MAX_AMBIENT_CHARS (reverse messages) ltac:(done)) as (l1 & l2 & Hm & Hl & Hr & Hh).
  exists (reverse l2), (reverse l1). rewrite fmap_reverse, room_reverse, <-Hl. split_and!.
  - by rewrite <-reverse_app, <-Hm, reverse_involutive.
  - intros m. rewrite last_reverse. apply Hh.
  - unfold format_ambient_context. cbv zeta. destruct (bool_decide_reflect (context_lines MAX_AMBIENT_CHARS (reverse messages) = [])) as [He|He].
    + rewrite He in Hl. symmetry in Hl. apply fmap_nil_inv in Hl. by rewrite Hl.
    + split_and!; [|done|].
      * intros Hn. apply He. rewrite Hl. by rewrite <-(reverse_involutive l1), Hn.
      * assert (reverse (context_lines MAX_AMBIENT_CHARS (reverse messages)) ≠ []) as Hne.
        { intros Hn. apply He. by rewrite <-(reverse_involutive (context_lines _ _)), Hn. }
        pose proof (zlen_join _ Hne) as Hj. rewrite room_reverse in Hj. unfold zlen in *. rewrite length_app. lia.
Qed.

(** ** The invariant *)
Definition last_generation (session : str) (l : list Event) : Z :=
  foldl (λ g e, match e with
                | Recorded s g' => if decide (s = session) then g' else g
                | Forgotten s => if decide (s = session) then 0 else g
                | _ => g
                end) 0 l.
#[local] Arguments last_generation : simpl never.
Definition event_ok (before : list Event) (e : Event) : Prop :=
  match e with
  | Recorded s g => g = usat_add (last_generation s before) 1
  | IdleDecided s g => last_generation s before = g ∧ 1 ≤ g
  | _ => True
  end.
Definition log_ok (l : list Event) : Prop := ∀ l1 e l2, l = l1 ++ e :: l2 → event_ok l1 e.
Record WInv (w : World) : Prop := {
  inv_ambient : ∀ s l, ambient w !! s = Some l →
    (length l ≤ MAX_AMBIENT_MESSAGES)%nat ∧ ∀ m, m ∈ l → trim (text m) ≠ [];
  inv_generation : ∀ s, generation (state_of s w) = last_generation s (log w);
  inv_log : log_ok (log w);
}.

Lemma last_generation_snoc s l e :
  last_generation s (l ++ [e]) =
    match e with
    | Recorded s' g => if decide (s' = s) then g else last_generation s l
    | Forgotten s' => if decide (s' = s) then 0 else last_generation s l
    | _ => last_generation s l
    end.
Proof. unfold last_generation. by rewrite foldl_app. Qed.
Lemma log_ok_snoc l e : log_ok l → event_ok l e → log_ok (l ++ [e]).
Proof.
  intros Hl He l1 e' l2 Heq. destruct (exists_last (l := e' :: l2) ltac:(done)) as (l3 & x & Hx).
  rewrite Hx, app_assoc in Heq. apply app_inj_tail in Heq as [-> ->]. destruct l3 as [|y l3].
  - injection Hx as -> ->. by rewrite app_nil_r in He.
  - injection Hx as -> ->. by eapply Hl.
Qed.
Lemma last_generation_bounds s l : log_ok l → 0 ≤ last_generation s l ≤ USIZE_MAX.
Proof.
  induction l as [|e l IH] using rev_ind; intros Hl; [unfold last_generation, USIZE_MAX; cbn; lia|].
  assert (log_ok l) as Hl' by (intros l1 e' l2 ->; eapply (Hl l1 e' (l2 ++ [e])); by rewrite <-app_assoc).
  specialize (IH Hl'). rewrite last_generation_snoc. specialize (Hl l e [] eq_refl).
  destruct e as [s' g|s' g|s'|s' p|s' m]; cbn in Hl; try done; destruct (decide (s' = s)) as [->|]; try done.
  unfold usat_add in Hl. lia.
Qed.

Lemma state_of_insert s s' st w w' :
  idle w' = <[s := st]> (idle w) → state_of s' w' = if decide (s = s') then st else state_of s' w.
Proof.
  intros Hi. unfold state_of. rewrite Hi. destruct (decide (s = s')) as [->|]; [by rewrite lookup_insert_eq|].
  by rewrite lookup_insert_ne.
Qed.

(** A state of a session is put, with the same generation. *)
Lemma inv_with_idle s st w : WInv w → generation st = generation (state_of s w) → WInv (with_idle s st [] w).
Proof.
  intros [H1 H2 H3] Hg. split; [done| |cbn; by rewrite app_nil_r].
  intros s'. rewrite (state_of_insert s s' st w) by done. cbn [log with_idle]. rewrite app_nil_r, <-H2. by destruct (decide (s = s')) as [->|].
Qed.
Lemma inv_event w e :
  WInv w → event_ok (log w) e → match e with Recorded _ _ | Forgotten _ => False | _ => True end →
  WInv {| ambient := ambient w; idle := idle w; log := log w ++ [e] |}.
Proof.
  intros [H1 H2 H3] He Hk. split; [done| |by apply log_ok_snoc].
  intros s. unfold state_of in *. cbn. rewrite last_generation_snoc, H2. by destruct e.
Qed.
Lemma inv_ambient_put s l w events :
  WInv w → log_ok (log w ++ events) → (∀ s, last_generation s (log w ++ events) = last_generation s (log w)) →
  (length l ≤ MAX_AMBIENT_MESSAGES)%nat → (∀ m, m ∈ l → trim (text m) ≠ []) →
  WInv {| ambient := <[s := l]> (ambient w); idle := idle w; log := log w ++ events |}.
Proof.
  intros [H1 H2 H3] Hlog Hsame Hlen Hall. split; cbn; [|intros s'; by rewrite Hsame, <-H2|done].
  intros s' l'. rewrite lookup_insert_Some. intros [(_ & <-)|(_ & Hl)]; [done|by eapply H1].
Qed.

(** Every action keeps the invariant. *)
Definition any_answer (_ : Answer) (_ : World) : Prop := True.
Local Abbreviation kept := (Coroutine.kept any_answer WInv).
Lemma kept_record s : kept (λ g, 1 ≤ g) (record_inbound_activity s).
Proof.
  apply kept_atomically. intros e w _ Hi. pose proof (last_generation_bounds s _ (inv_log w Hi)) as Hb.
  pose proof (inv_generation w Hi s) as Hg. cbn [fst snd]. split; [|rewrite Hg; unfold usat_add, USIZE_MAX in *; lia].
  destruct Hi as [H1 H2 H3]. split; cbn; [done| |].
  - intros s'. rewrite (state_of_insert s s' _ w) by done. rewrite last_generation_snoc.
    destruct (decide (s = s')); [done|apply H2].
  - apply log_ok_snoc; [done|]. cbn. by rewrite Hg.
Qed.
Lemma kept_push s m : kept (λ _, True) (push_ambient_message s m).
Proof.
  apply kept_atomically. intros e w _ Hi. cbv zeta. destruct (bool_decide (trim s = [])); cbn [orb fst]; [done|].
  destruct (bool_decide_reflect (trim (text m) = [])); cbn [fst]; [done|]. split; [|done].
  rewrite <-(app_nil_r (log w)). apply inv_ambient_put; [done|rewrite app_nil_r; apply Hi|intros; by rewrite app_nil_r| |].
  - apply push_message_bound. unfold messages_of. destruct (ambient w !! trim s) eqn:Hs; [|cbn; lia]. by eapply (inv_ambient w Hi).
  - intros x [Hx| ->]%push_message_elem; [|done]. unfold messages_of in Hx.
    destruct (ambient w !! trim s) eqn:Hs; [by eapply (inv_ambient w Hi)|by apply elem_of_nil in Hx].
Qed.
Lemma kept_peek s : kept (λ _, True) (peek_ambient_messages s).
Proof. apply kept_atomically. intros e w _ Hi. cbv zeta. by destruct (bool_decide _). Qed.
Lemma kept_clear s : kept (λ _, True) (clear_ambient_messages s).
Proof.
  apply kept_atomically. intros e w _ Hi. cbv zeta. destruct (bool_decide _); [done|]. split; [|done]. cbn.
  pose proof (inv_event w (Cleared (trim s) (messages_of (trim s) w)) Hi I I) as [H1 H2 H3].
  split; [|done|done]. cbn [ambient]. intros s' l (_ & Hl)%lookup_delete_Some. by eapply H1.
Qed.
Lemma kept_forget s : kept (λ _, True) (remove_idle_reply_session s).
Proof.
  apply kept_atomically. intros e w _ [H1 H2 H3]. cbv zeta. destruct (bool_decide _); [done|]. split; [|done].
  split; cbn; [done| |by apply log_ok_snoc].
  intros s'. rewrite last_generation_snoc, <-H2. unfold state_of. cbn. destruct (decide (trim s = s')) as [->|Hne].
  - by rewrite lookup_delete_eq.
  - by rewrite lookup_delete_ne.
Qed.
Lemma kept_ask s p : kept (λ _, True) (ask s p).
Proof. apply kept_atomically. intros e w _ Hi. split; [|done]. by apply inv_event. Qed.
Lemma kept_answer {A} (f : Answer → A) : kept (λ _, True) (answer f).
Proof. apply kept_atomically. done. Qed.
Lemma kept_schedule s : kept (λ _, True) (schedule_idle_reply s).
Proof.
  apply kept_atomically. intros e w _ Hi. cbv zeta. destruct (_ <=? _); (split; [by apply inv_with_idle|done]).
Qed.
Lemma kept_clear_pending s : kept (λ _, True) (clear_pending s).
Proof.
  apply kept_atomically. intros e w _ Hi. destruct (idle w !! s) as [st|] eqn:Hs; [|done]. split; [|done].
  apply inv_with_idle; [done|]. unfold state_of. by rewrite Hs.
Qed.
Lemma kept_failed s r : kept (λ _, True) (mark_idle_reply_failed s r).
Proof. apply kept_atomically. intros e w _ Hi. split; [by apply inv_with_idle|done]. Qed.
Lemma kept_sent s : kept (λ _, True) (mark_idle_reply_sent s).
Proof. apply kept_atomically. intros e w _ Hi. split; [by apply inv_with_idle|done]. Qed.
Lemma kept_status s : kept (λ _, True) (get_idle_reply_status s).
Proof. apply kept_atomically. intros e w _ Hi. split; [by apply inv_with_idle|done]. Qed.

Create HintDb ambient.
#[local] Hint Resolve kept_push kept_peek kept_clear kept_forget kept_ask kept_answer kept_schedule kept_clear_pending
  kept_failed kept_sent kept_status : ambient.
#[local] Hint Extern 1 (Coroutine.kept _ _ _ (mret _)) => done : ambient.
Local Ltac run := repeat first
  [ solve [eauto with ambient]
  | eapply kept_then; [solve [eauto with ambient]|intros ? _]
  | case_match ].

Lemma kept_fire s : kept (λ _, True) (fire_idle_reply s).
Proof. unfold fire_idle_reply. run. Qed.
#[local] Hint Resolve kept_fire : ambient.
Lemma kept_task g s : 1 ≤ g → kept (λ _, True) (idle_reply_task g s).
Proof.
  intros Hg. unfold idle_reply_task. eapply (kept_then _ _ (λ _, True)); [|intros ? _; run].
  apply kept_atomically. intros e w _ Hi. cbv zeta. case_bool_decide as Heq; [|done]. split; [|done].
  apply inv_event; [done| |done]. cbn. rewrite <-(inv_generation w Hi). split; [|done].
  unfold state_of. by destruct (idle w !! idle_session s).
Qed.
Lemma kept_buffered session m s : kept (λ _, True) (buffered_message session m s).
Proof.
  unfold buffered_message. eapply kept_then; [apply kept_record|]. intros g Hg.
  eapply kept_then; [apply kept_push|]. intros _ _. destruct s as [s|]; [|done].
  eapply kept_then; [apply kept_schedule|]. intros [] _; [by apply kept_task|done].
Qed.
Lemma kept_recorded {S} (Q : S → Prop) session (f : Z → program S) :
  (∀ g, kept Q (f g)) → kept Q (record_inbound_activity session ≫= f).
Proof. intros Hf. eapply kept_then; [apply kept_record|]. intros; apply Hf. Qed.
Lemma kept_answered session p tone : kept (λ _, True) (answered_message session p tone).
Proof. unfold answered_message. apply kept_recorded. intros g. run. Qed.

(** What runs in a gateway: messages of any kind, in any session, questions about its state
    and the end of sessions. *)
Inductive started : program () → Prop :=
| started_buffered session m s : started (buffered_message session m s)
| started_answered session p tone : started (answered_message session p tone)
| started_other session : started (other_message session)
| started_status session : started (get_idle_reply_status session;; mret ())
| started_cleanup session : started (cleanup_session session).
Definition gateway_reachable (w : World) : Prop :=
  ∃ c, pool_reachable any_answer started (λ _ _, False) world_new c ∧ world c = w.

Lemma started_kept p : started p → kept (λ _, True) p.
Proof.
  destruct 1; [apply kept_buffered|apply kept_answered| | |].
  - unfold other_message. apply kept_recorded. done.
  - run.
  - unfold cleanup_session. run.
Qed.
Lemma world_new_inv : WInv world_new.
Proof.
  split; cbn; [by intros ? ? ?%lookup_empty_Some|done|]. intros l1 e l2 H. by destruct l1.
Qed.
Lemma ambient_inv w : gateway_reachable w → WInv w.
Proof. intros (c & Hr & <-). eapply kept_pool; [apply world_new_inv|apply started_kept| |exact Hr]. done. Qed.

Lemma log_ok_prefix l1 l2 : log_ok (l1 ++ l2) → log_ok l1.
Proof. intros Hl a e b ->. apply (Hl a e (b ++ l2)). by rewrite <-app_assoc. Qed.
Lemma last_recorded s l g :
  last_generation s l = g → 1 ≤ g → ∃ a b, l = a ++ Recorded s g :: b ∧ ∀ g', Recorded s g' ∉ b.
Proof.
  induction l as [|e l IH] using rev_ind; intros Hl Hg; [unfold last_generation in Hl; cbn in Hl; lia|].
  rewrite last_generation_snoc in Hl.
  assert (last_generation s l = g → (∀ g', e ≠ Recorded s g') →
          ∃ a b, l ++ [e] = a ++ Recorded s g :: b ∧ ∀ g', Recorded s g' ∉ b) as Hskip.
  { intros H1 H2. destruct (IH H1 Hg) as (a & b & -> & Hb). exists a, (b ++ [e]). split; [by rewrite <-app_assoc|].
    intros g'. rewrite elem_of_app, list_elem_of_singleton. intros [?|Heq]; [by eapply Hb|by eapply H2]. }
  destruct e as [s' g1|s' g1|s'|s' p|s' m]; try (by apply Hskip).
  - destruct (decide (s' = s)) as [->|Hne]; [|apply Hskip; [done|congruence]]. subst g1. exists l, [].
    split; [done|]. by intros g' ?%elem_of_nil.
  - destruct (decide (s' = s)); [lia|]. by apply Hskip.
Qed.
Lemma generations_grow s l g : log_ok l → Forgotten s ∉ l → Recorded s g ∈ l → g ≤ last_generation s l.
Proof.
  induction l as [|e l IH] using rev_ind; intros Hl Hf Hr; [by apply elem_of_nil in Hr|].
  assert (Forgotten s ∉ l ∧ e ≠ Forgotten s) as [Hf1 Hf2].
  { rewrite elem_of_app, list_elem_of_singleton in Hf. split; [tauto|]. intros ->. tauto. }
  pose proof (log_ok_prefix _ _ Hl) as Hp. specialize (Hl l e [] eq_refl). specialize (IH Hp Hf1).
  rewrite last_generation_snoc. rewrite elem_of_app, list_elem_of_singleton in Hr.
  destruct e as [s' g1|s' g1|s'|s' p|s' m]; try (destruct Hr as [Hr|Hr]; [by apply IH|done]).
  - destruct (decide (s' = s)) as [->|Hne].
    + cbn in Hl. pose proof (last_generation_bounds s l Hp). destruct Hr as [Hr|[= ->]]; [|done].
      specialize (IH Hr). unfold usat_add in Hl. lia.
    + destruct Hr as [Hr|[= -> _]]; [by apply IH|done].
  - rewrite decide_False by congruence. destruct Hr as [Hr|Hr]; [by apply IH|done].
Qed.

(** What an agent is shown of the messages that it did not answer, however messages,
    replies and idle replies interleave: at most sixteen are kept for a session, none of them
    blank, and the context is made of the last ones, in their order, as many as have room in
    4,000 characters. *)
Theorem context_of_session w session :
  gateway_reachable w →
  let messages := messages_of session w in
  (length messages ≤ MAX_AMBIENT_MESSAGES)%nat ∧ (∀ m, m ∈ messages → trim (text m) ≠ []) ∧
  context_ok messages (format_ambient_context messages).
Proof.
  intros Hi%ambient_inv messages.
  assert ((length messages ≤ MAX_AMBIENT_MESSAGES)%nat ∧ ∀ m, m ∈ messages → trim (text m) ≠ []) as [H1 H2].
  { subst messages. unfold messages_of. destruct (ambient w !! session) eqn:Hs; [by eapply (inv_ambient w Hi)|].
    split; [cbn; lia|]. by intros m ?%elem_of_nil. }
  split_and!; [done|done|apply format_ambient_context_ok].
Qed.


(** ** Examples *)
Definition at_ms (t : Z) : Answer := {| now_ms := t; known := true; reply := Some §"done"; delivered := true |}.
Definition said (t : str) : AmbientMessage := {| sender_id := Some §"u1"; sender_name := None; text := t |}.
Definition idle_of (delay : Z) : IdleReplySchedule :=
  {| idle_session := §"s"; idle_agent := §"default"; prompt_override := Some §"sum up"; idle_tone := None;
     idle_delay_secs := delay; idle_max_per_hour := 1 |}.
Definition play (ps : list (program ())) (schedule : list (nat * Answer)) : option World :=
  world <$> run_all (λ _ _, true) schedule (start_all world_new ps).
Definition quiet_schedule : list (nat * Answer) := (λ t, (0%nat, at_ms t)) <$> [1; 1; 1; 180001; 180001; 180002; 181000; 182000; 182000; 182000].

Lemma play_ambient ps schedule w : Forall started ps → play ps schedule = Some w → gateway_reachable w.
Proof.
  intros Hps (c & Hc & ->)%fmap_Some. exists c. split; [|done].
  by eapply played_reachable.
Qed.

Lemma context_of_session_witness :
  ∃ w, play [buffered_message §"s" (said §"hello") None] [(0%nat, at_ms 1); (0%nat, at_ms 2)] = Some w ∧
    messages_of §"s" w = [said §"hello"] ∧ context_ok (messages_of §"s" w) (format_ambient_context (messages_of §"s" w)).
Proof.
  eexists. split; [by vm_compute|]. split; [by vm_compute|].
  refine (proj2 (proj2 (context_of_session _ §"s" _))).
  apply (play_ambient [buffered_message §"s" (said §"hello") None] [(0%nat, at_ms 1); (0%nat, at_ms 2)]); [|by vm_compute].
  constructor; [apply started_buffered|constructor].
Defined.

(** A message that is buffered while a reply is on its way is discarded with those that the
    agent was shown. *)
Example ambient_message_lost :
  log <$> play [answered_message §"s" §"question" None; buffered_message §"s" (said §"late") None]
            ((λ i, (i, at_ms 1)) <$> [0; 0; 0; 1; 1; 0; 0]%nat) =
  Some [Recorded §"s" 1; Asked §"s" §"question"; Recorded §"s" 2; Cleared §"s" [said §"late"]].
Proof. by vm_compute. Qed.
(** The limit per hour counts the replies that were sent, not those on their way: with a
    limit of one, two go out. *)
Example rate_limit_exceeded :
  (λ w, recent_sent_at_ms (state_of §"s" w)) <$>
    play [buffered_message §"s" (said §"one") (Some (idle_of 30)); buffered_message §"s" (said §"two") (Some (idle_of 30))]
      (((λ t, (0%nat, at_ms t)) <$> [0; 0; 0; 30000; 30000; 30000; 30000]) ++
       ((λ t, (1%nat, at_ms t)) <$> [40000; 40000; 40000; 70000; 70000; 70000; 70000]) ++
       ((λ t, (0%nat, at_ms t)) <$> [80000; 80000; 80000]) ++ ((λ t, (1%nat, at_ms t)) <$> [90000; 90000; 90000])) =
  Some [80000; 90000].
Proof. by vm_compute. Qed.
(** When the state of a session is dropped its generations start again, and an idle reply of
    the old ones takes a new message for its own. *)
Example stale_idle_reply :
  (λ w, take 5 (log w)) <$>
    play [buffered_message §"s" (said §"old") (Some (idle_of 3600)); cleanup_session §"s"; buffered_message §"s" (said §"new") None]
      ((λ i, (i, at_ms 1)) <$> [0; 0; 0; 1; 1; 2; 2; 0]%nat) =
  Some [Recorded §"s" 1; Cleared §"s" [said §"old"]; Forgotten §"s"; Recorded §"s" 1; IdleDecided §"s" 1].
Proof. by vm_compute. Qed.
