(* ===== verification/Pairing.v ===== *)
(** * Pairing of nodes and devices
    ([gateway-server/src/pairing_store.rs], [ws_rpc/handlers/node.rs], [json_store.rs])

    A node may use the devices of its host once its request is approved.  The requests are
    in one file, which every operation reads and writes back without a lock, so that
    operations that run side by side overwrite each other; each is a program of [Coroutine]
    with the reading and the writing as its actions.  A write can fail, and two at once, or
    a crash, can leave a file that does not parse.  The agent that carries an invocation out,
    its parameters and its reply are left out. *)
From stdpp Require Import gmap list strings.
From S2P Require Import Prelude RustStr Coroutine.
Local Open Scope Z_scope.

(** ** Records *)
Inductive PairingStatus := Pending | Approved | Rejected | Revoked.
Record PairingRecord := {
  request_id : str;
  node_id : str;
  device_id : option str;
  device_name : option str;
  verification_code : str;
  status : PairingStatus;
  token : option str;
  created_at : Z;
  updated_at : Z;
}.
Definition decided (s : PairingStatus) (t : option str) (now : Z) (r : PairingRecord) : PairingRecord :=
  {| request_id := request_id r; node_id := node_id r; device_id := device_id r; device_name := device_name r;
     verification_code := verification_code r; status := s; token := t; created_at := created_at r; updated_at := now |}.

Definition VERIFICATION_CODE_LEN : nat := 8.
Definition CROCKFORD_BASE32_ALPHABET : str := §"0123456789ABCDEFGHJKMNPQRSTVWXYZ".
(** [digits]: what the random source gives, each below 32. *)
Definition make_verification_code (digits : list nat) : str :=
  (λ i, nth i CROCKFORD_BASE32_ALPHABET 48%N) <$> take VERIFICATION_CODE_LEN digits.
Definition ascii_upper (c : char) : char := if ((97 <=? c) && (c <=? 122))%N then (c - 32)%N else c.
Definition constant_time_code_eq (a b : str) : bool :=
  bool_decide (ascii_upper <$> trim a = ascii_upper <$> trim b).

(** ** The file *)
Inductive StoreFile := Absent | Stored (records : list PairingRecord) | Garbage.
Inductive Write := Written | NotWritten | TornError | TornOk.
(** What the environment answers: the clock, fresh identifiers, random digits, whether a
    file can be read, and what comes of a write. *)
Record Answer := { now_ms : Z; uuid : str; digits : list nat; readable : bool; write : Write }.
Record World := { file : StoreFile; invoked : list (str * str) }.
Abbreviation program := (prog World Answer).

Definition load_records : program (result str (list PairingRecord)) :=
  atomically (λ e w,
    (w, if negb (readable e) then Err §"failed to read pairing store"
        else match file w with
             | Absent => Ok []
             | Stored records => Ok records
             | Garbage => Err §"failed to parse pairing store"
             end)).
Definition save (e : Answer) (records : list PairingRecord) {A} (a : A) (w : World) : World * result str A :=
  let put f := {| file := f; invoked := invoked w |} in
  match write e with
  | Written => (put (Stored records), Ok a)
  | NotWritten => (w, Err §"failed to write pairing store")
  | TornError => (put Garbage, Err §"failed to write pairing store")
  | TornOk => (put Garbage, Ok a)
  end.

(** [records.iter_mut().find(p)], with the change that is made to what is found. *)
Fixpoint update_first (p : PairingRecord → bool) (f : PairingRecord → PairingRecord) (l : list PairingRecord)
    : option (PairingRecord * list PairingRecord) :=
  match l with
  | [] => None
  | r :: l => if p r then Some (f r, f r :: l)
              else '(r', l') ← update_first p f l; Some (r', r :: l')
  end.
Definition update_record (p : PairingRecord → bool) (f : Answer → PairingRecord → PairingRecord) (not_found : str)
    : program (result str PairingRecord) :=
  loaded ← load_records;
  match loaded with
  | Err err => mret (Err err)
  | Ok records =>
      atomically (λ e w,
        match update_first p (f e) records with
        | None => (w, Err not_found)
        | Some (r, records) => save e records r w
        end)
  end.

(** ** Operations *)
Definition create_request (node : str) (device name : option str) : program (result str PairingRecord) :=
  record ← atomically (λ e w,
    (w, {| request_id := uuid e; node_id := node; device_id := device; device_name := name;
           verification_code := make_verification_code (digits e); status := Pending; token := None;
           created_at := now_ms e; updated_at := now_ms e |}));
  loaded ← load_records;
  match loaded with
  | Err err => mret (Err err)
  | Ok records => atomically (λ e w, save e (records ++ [record]) record w)
  end.
(** Latest first. *)
Definition list_requests : program (result str (list PairingRecord)) :=
  (λ r, match r with Ok l => Ok (sort_by_key (λ x, - updated_at x) l) | Err e => Err e end) <$> load_records.

Definition has_request (id : str) (r : PairingRecord) : bool := bool_decide (request_id r = id).
Definition has_device (id : str) (r : PairingRecord) : bool := bool_decide (device_id r = Some id).
Definition request_not_found (id : str) : str := §"pairing request '" ++ id ++ §"' not found".
Definition device_not_found (id : str) : str := §"device '" ++ id ++ §"' not found".

Definition approve_request (id : str) : program (result str PairingRecord) :=
  update_record (has_request id) (λ e, decided Approved (Some (uuid e)) (now_ms e)) (request_not_found id).
Definition reject_request (id : str) : program (result str PairingRecord) :=
  update_record (has_request id) (λ e r, decided Rejected (token r) (now_ms e) r) (request_not_found id).
Definition approve_device (id : str) : program (result str PairingRecord) :=
  update_record (has_device id)
    (λ e r, decided Approved (match token r with None => Some (uuid e) | t => t end) (now_ms e) r) (device_not_found id).
Definition reject_device (id : str) : program (result str PairingRecord) :=
  update_record (has_device id) (λ e r, decided Rejected (token r) (now_ms e) r) (device_not_found id).
Definition rotate_device_token (id : str) : program (result str PairingRecord) :=
  update_record (has_device id) (λ e r, decided (status r) (Some (uuid e)) (now_ms e) r) (device_not_found id).
Definition revoke_device_token (id : str) : program (result str PairingRecord) :=
  update_record (has_device id) (λ e, decided Revoked None (now_ms e)) (device_not_found id).

Definition is_open (s : PairingStatus) : bool := match s with Pending | Approved => true | _ => false end.
(** Every record is looked at; the first that matches is kept. *)
Definition match_code (code : str) (records : list PairingRecord) : option PairingRecord :=
  foldl (λ matched r, if is_open (status r) && constant_time_code_eq (verification_code r) code
                         && bool_decide (matched = None) then Some r else matched) None records.
Definition verify_code (code : str) : program (result str (option PairingRecord)) :=
  (λ r, match r with Ok l => Ok (match_code code l) | Err e => Err e end) <$> load_records.
Definition is_device (s : PairingStatus) : bool := match s with Approved | Revoked => true | _ => false end.
Definition list_devices : program (result str (list PairingRecord)) :=
  (λ r, match r with Ok l => Ok (filter (λ x, is_device (status x) = true) l) | Err e => Err e end) <$> load_records.

(** ** Invocations ([node.rs]) *)
(** [max_by_key]: the last of the greatest. *)
Definition latest_pairing_record_for_node (node : str) (records : list PairingRecord) : option PairingRecord :=
  foldl (λ best r, match best with
                   | Some b => if updated_at b <=? updated_at r then Some r else best
                   | None => Some r
                   end) None (filter (λ r, node_id r = node) records).
Definition node_is_approved (r : option PairingRecord) : bool :=
  match r with Some r => match status r with Approved => true | _ => false end | None => false end.
Definition invoked_method (method : str) : str :=
  if bool_decide (method = §"camera.snap") || bool_decide (method = §"camera.clip") then §"system.camera"
  else if bool_decide (method = §"screen.record") then §"system.screen.record"
  else if bool_decide (method = §"location.get") then §"system.location"
  else if bool_decide (method = §"notify") then §"system.notify"
  else method.
Definition requires_pairing (method : str) : bool :=
  one_of method [§"system.camera"; §"system.screen.record"; §"system.location"; §"system.notify"; §"camera.snap";
                 §"camera.clip"; §"screen.record"; §"location.get"; §"notify"].
Definition invoke (node method : str) : program (result str ()) :=
  atomically (λ _ w, ({| file := file w; invoked := invoked w ++ [(node, method)] |}, Ok ())).
Definition handle_node_invoke (node method_raw : str) : program (result str ()) :=
  let method := invoked_method method_raw in
  if requires_pairing method then
    loaded ← list_requests;
    match loaded with
    | Err err => mret (Err err)
    | Ok records =>
        if negb (node_is_approved (latest_pairing_record_for_node node records))
        then mret (Err (§"node '" ++ node ++ §"' is not paired/approved"))
        else invoke node method
    end
  else invoke node method.
(** The aliases that are advertised, and the methods they stand for ([node_capability_catalog]). *)
Definition CATALOG : list (str * str) :=
  [(§"node.camera.snap", §"system.camera"); (§"node.camera.clip", §"system.camera");
   (§"node.screen.record", §"system.screen.record"); (§"node.location.get", §"system.location");
   (§"node.notify", §"system.notify")].

(** * Correctness *)

(** ** What the file holds *)
Section Approvals.
(** The requests and devices that somebody approves. *)
Context (approved_request approved_device : str → Prop).

Definition approved_by_someone (r : PairingRecord) : Prop :=
  approved_request (request_id r) ∨ ∃ d, device_id r = Some d ∧ approved_device d.
Definition record_ok (r : PairingRecord) : Prop :=
  status r = Approved → is_Some (token r) ∧ approved_by_someone r.
Record WInv (w : World) : Prop := {
  inv_file : ∀ l, file w = Stored l → Forall record_ok l;
  inv_invoked : ∀ node method, (node, method) ∈ invoked w → requires_pairing method = true →
    ∃ r, node_id r = node ∧ status r = Approved ∧ is_Some (token r) ∧ approved_by_someone r;
}.

Definition any_answer (_ : Answer) (_ : World) : Prop := True.
Local Abbreviation kept := (Coroutine.kept any_answer WInv).

Definition loaded_ok (r : result str (list PairingRecord)) : Prop :=
  match r with Ok l => Forall record_ok l | Err _ => True end.
Lemma kept_load : kept loaded_ok load_records.
Proof.
  apply kept_atomically. intros e w _ Hi. split; [done|]. cbn. destruct (readable e); [|done]. cbn.
  destruct (file w) eqn:Hf; cbn; [constructor|by eapply inv_file|done].
Qed.
Lemma kept_save {A} e l (a : A) w : WInv w → Forall record_ok l → WInv (save e l a w).1.
Proof. intros [H1 H2] Hl. unfold save. destruct (write e); split; cbn; try done; congruence. Qed.

Lemma update_first_ok p f l r l' :
  update_first p f l = Some (r, l') → Forall record_ok l →
  (∀ x, p x = true → record_ok x → record_ok (f x)) → Forall record_ok l'.
Proof.
  intros Hu Hl Hf. revert r l' Hu. induction Hl as [|x l Hx Hl IH]; intros r l'; cbn; [done|].
  destruct (p x) eqn:Hp.
  - intros [= <- <-]. constructor; [by apply Hf|done].
  - intros ([r1 l1] & Hu & [= <- <-])%bind_Some. constructor; [done|by eapply IH].
Qed.
Lemma kept_update p f err :
  (∀ e x, p x = true → record_ok x → record_ok (f e x)) → kept (λ _, True) (update_record p f err).
Proof.
  intros Hf. unfold update_record. eapply kept_then; [apply kept_load|]. intros [l|e] Hl; [|done].
  apply kept_atomically. intros e w _ Hi. destruct (update_first p (f e) l) as [[r l']|] eqn:Hu; [|done].
  split; [|done]. apply kept_save; [done|]. eapply update_first_ok; [done|exact Hl|apply Hf].
Qed.

Lemma kept_list : kept loaded_ok list_requests.
Proof.
  unfold list_requests. apply kept_fmap. eapply kept_mono; [|apply kept_load]. intros [l|e] Hl; [|done].
  cbn in *. by rewrite sort_by_key_perm.
Qed.

Lemma latest_elem node records r :
  latest_pairing_record_for_node node records = Some r → r ∈ records ∧ node_id r = node.
Proof.
  unfold latest_pairing_record_for_node. intros Hl.
  assert (r ∈ filter (λ r, node_id r = node) records) as Hin; [|by apply list_elem_of_filter in Hin as [? ?]].
  revert Hl. set (f := λ best x, _). generalize (filter (λ r, node_id r = node) records) as l.
  assert (∀ l best, foldl f best l = Some r → best = Some r ∨ r ∈ l) as Hfold.
  { induction l as [|x l IH]; intros best; cbn; [auto|]. intros [Hb|Hl]%IH; [|right; by right].
    unfold f in Hb. destruct best as [b|]; [destruct (_ <=? _)|]; [injection Hb as ->; right; by left|by left|injection Hb as ->; right; by left]. }
  intros l Hl. by destruct (Hfold l None Hl).
Qed.
Lemma kept_invoke node method :
  (requires_pairing method = true → ∃ r, node_id r = node ∧ status r = Approved ∧ is_Some (token r) ∧ approved_by_someone r) →
  kept (λ _, True) (invoke node method).
Proof.
  intros Hr. apply kept_atomically. intros e w _ [H1 H2]. split; [|done]. split; [done|]. cbn.
  intros n m [Hin|[= -> ->]%list_elem_of_singleton]%elem_of_app; [by apply H2|done].
Qed.
Lemma kept_node_invoke node method : kept (λ _, True) (handle_node_invoke node method).
Proof.
  unfold handle_node_invoke. destruct (requires_pairing (invoked_method method)) eqn:Hm; [|by apply kept_invoke; rewrite Hm].
  eapply kept_then; [apply kept_list|]. intros [l|e] Hl; [|done].
  destruct (node_is_approved (latest_pairing_record_for_node node l)) eqn:Ha; cbn [negb]; [|done].
  apply kept_invoke. intros _. destruct (latest_pairing_record_for_node node l) as [r|] eqn:Hr; [|done].
  apply latest_elem in Hr as [Hin Hn]. cbn in Hl. rewrite Forall_forall in Hl.
  cbn in Ha. destruct (status r) eqn:Hs; try done. destruct (Hl r Hin Hs). by exists r.
Qed.

(** The calls of clients; approvals are those of somebody. *)
Inductive started : ∀ (p : program ()), Prop :=
| started_create node d n : started ((λ _, ()) <$> create_request node d n)
| started_list : started ((λ _, ()) <$> list_requests)
| started_devices : started ((λ _, ()) <$> list_devices)
| started_verify code : started ((λ _, ()) <$> verify_code code)
| started_approve id : approved_request id → started ((λ _, ()) <$> approve_request id)
| started_reject id : started ((λ _, ()) <$> reject_request id)
| started_approve_device id : approved_device id → started ((λ _, ()) <$> approve_device id)
| started_reject_device id : started ((λ _, ()) <$> reject_device id)
| started_rotate id : started ((λ _, ()) <$> rotate_device_token id)
| started_revoke id : started ((λ _, ()) <$> revoke_device_token id)
| started_invoke node method : started ((λ _, ()) <$> handle_node_invoke node method).

Lemma pairing_calls_kept p : started p → kept (λ _, True) p.
Proof.
  assert (∀ {R} (P : R → Prop) (f : R → ()) (q : program R), kept P q → kept (λ _, True) (f <$> q)) as Hmap.
  { intros R P f q Hq. apply kept_fmap. by eapply kept_mono; [|exact Hq]. }
  destruct 1; apply (Hmap _ (λ _, True)).
  - unfold create_request. apply (kept_then _ _ record_ok); [by apply kept_atomically|]. intros r Hr.
    eapply kept_then; [apply kept_load|]. intros [l|e] Hl; [|done]. apply kept_atomically. intros e w _ Hi.
    split; [|done]. apply kept_save; [done|]. apply Forall_app. by split; [|constructor].
  - eapply kept_mono; [exact (λ _ _, I)|apply kept_list].
  - unfold list_devices. apply (kept_fmap _ _ (λ _, True)). eapply kept_mono; [exact (λ _ _, I)|apply kept_load].
  - unfold verify_code. apply (kept_fmap _ _ (λ _, True)). eapply kept_mono; [exact (λ _ _, I)|apply kept_load].
  - apply kept_update. intros e x Hp _ _. split; [by eexists|]. left. unfold has_request in Hp. bool_tac. by subst.
  - by apply kept_update.
  - apply kept_update. intros e x Hp _ _. split; [cbn; by destruct (token x)|]. right. unfold has_device in Hp. bool_tac. eauto.
  - by apply kept_update.
  - apply kept_update. intros e x _ Hx Hs. split; [by eexists|]. by apply Hx.
  - by apply kept_update.
  - apply kept_node_invoke.
Qed.

Definition world_new : World := {| file := Absent; invoked := [] |}.
Definition gateway_reachable (w : World) : Prop :=
  ∃ c, pool_reachable any_answer started (λ _ _, False) world_new c ∧ world c = w.
Lemma pairing_inv w : gateway_reachable w → WInv w.
Proof.
  intros (c & Hr & <-). eapply kept_pool; [|apply pairing_calls_kept| |exact Hr]; [|done].
  split; cbn; [done|]. by intros ? ? ?%elem_of_nil.
Qed.

End Approvals.

(** ** The code of a request *)
Lemma code_shape l :
  (Forall (λ i, i < 32) l)%nat → (VERIFICATION_CODE_LEN ≤ length l)%nat →
  length (make_verification_code l) = VERIFICATION_CODE_LEN ∧
  ∀ c, c ∈ make_verification_code l → c ∈ CROCKFORD_BASE32_ALPHABET ∧ c ∉ §"ILOUilou".
Proof.
  intros Hl Hlen. unfold make_verification_code. rewrite length_fmap, length_take. split; [lia|].
  intros c (i & -> & Hi)%list_elem_of_fmap. assert (i < 32)%nat as Hlt.
  { rewrite Forall_forall in Hl. apply Hl. rewrite <-(take_drop VERIFICATION_CODE_LEN l). apply elem_of_app. by left. }
  assert (forallb (λ i, let c := nth i CROCKFORD_BASE32_ALPHABET 48%N in
            bool_decide (c ∈ CROCKFORD_BASE32_ALPHABET) && negb (bool_decide (c ∈ §"ILOUilou"))) (seq 0 32) = true) as Hall
    by (by vm_compute).
  rewrite forallb_forall in Hall. specialize (Hall i ltac:(apply in_seq; lia)). cbv zeta in Hall. by bool_tac.
Qed.
(** A code is found however it is typed, and only in a request that is open. *)
Theorem code_found code records r :
  match_code code records = Some r →
  r ∈ records ∧ is_open (status r) = true ∧ constant_time_code_eq (verification_code r) code = true.
Proof.
  unfold match_code. set (f := λ matched x, _).
  assert (∀ l m, foldl f m l = Some r → m = Some r ∨
            (r ∈ l ∧ is_open (status r) = true ∧ constant_time_code_eq (verification_code r) code = true)) as Hfold.
  { induction l as [|x l IH]; intros m; cbn; [auto|]. intros [Hm|(? & ? & ?)]%IH; [|right; split_and!; [by right|done|done]].
    unfold f in Hm. destruct (is_open (status x)) eqn:Ho; cbn in Hm; [|by left].
    destruct (constant_time_code_eq (verification_code x) code) eqn:Hc; cbn in Hm; [|by left].
    case_bool_decide; [|by left]. injection Hm as ->. right. split_and!; [by left|done|done]. }
  intros H. by destruct (Hfold records None H).
Qed.

(** ** Examples *)
Definition reads (t : Z) : Answer := {| now_ms := t; uuid := §"u"; digits := []; readable := true; write := Written |}.
Definition play (ps : list (program ())) (schedule : list (nat * Answer)) : option World :=
  world <$> run_all (λ _ _, true) schedule (start_all world_new ps).
Definition turns (l : list nat) : list (nat * Answer) := imap (λ t i, (i, reads (Z.of_nat t))) l.
Definition unit_of {R} (p : program R) : program () := (λ _, ()) <$> p.

Lemma play_pairing AR AD ps schedule :
  Forall (started AR AD) ps → is_Some (play ps schedule) →
  gateway_reachable AR AD (from_option id world_new (play ps schedule)).
Proof.
  intros Hps (w & Hw). rewrite Hw. apply fmap_Some in Hw as (c & Hc & ->). exists c. split; [|done].
  by eapply played_reachable.
Qed.
Definition sample_calls : list (program ()) :=
  [unit_of (create_request §"n" (Some §"d") None); unit_of (approve_device §"d"); unit_of (handle_node_invoke §"n" §"camera.snap")].
Definition sample_turns : list (nat * Answer) := turns [0; 0; 0; 1; 1; 2; 2]%nat.


(** A revocation that runs beside another operation is overwritten by it: the device stays
    approved, with its token. *)
Example revocation_lost :
  (λ w, match file w with Stored (r :: _) => Some (status r, token r) | _ => None end) <$>
    play [unit_of (create_request §"n" (Some §"d") None); unit_of (approve_device §"d");
          unit_of (revoke_device_token §"d"); unit_of (create_request §"m" None None)]
      (turns [0; 0; 0; 1; 1; 3; 3; 2; 2; 3]%nat) = Some (Some (Approved, Some §"u")).
Proof. by vm_compute. Qed.
(** The aliases that the catalogue advertises as in need of pairing are not among the methods
    that [node.invoke] checks. *)
Example alias_skips_pairing :
  forallb (λ a : str * str, negb (requires_pairing (invoked_method a.1)) && requires_pairing a.2) CATALOG = true ∧
  invoked <$> play [unit_of (handle_node_invoke §"n" §"node.camera.snap")] (turns [0]%nat) =
    Some [(§"n", §"node.camera.snap")].
Proof. split; by vm_compute. Qed.
(** A new request for a node, which anybody may make, ends its approval; rotating the token
    of a revoked device gives it one again. *)
Example request_ends_approval :
  invoked <$> play [unit_of (create_request §"n" (Some §"d") None); unit_of (approve_device §"d");
                    unit_of (create_request §"n" None None); unit_of (handle_node_invoke §"n" §"notify")]
                (turns [0; 0; 0; 1; 1; 2; 2; 2; 3]%nat) = Some [] ∧
  (λ w, match file w with Stored (r :: _) => Some (status r, token r) | _ => None end) <$>
    play [unit_of (create_request §"n" (Some §"d") None); unit_of (revoke_device_token §"d"); unit_of (rotate_device_token §"d")]
      (turns [0; 0; 0; 1; 1; 2; 2]%nat) = Some (Some (Revoked, Some §"u")).
Proof. split; by vm_compute. Qed.
