(* ===== verification/Stopwatch.v ===== *)
(** * The time limit of a command that waits for the user
    ([exec-server/src/posix/stopwatch.rs])

    The stopwatch stands still while the user is asked; a task of its own watches it and
    cancels the command when its limit is reached.  The watcher reads the stopwatch under
    its lock, but waits for news of it ([Notify::notified]) only after it has released the
    lock: [notify_waiters] wakes those that wait already and leaves nothing behind.  So the
    steps of the watcher are apart, and pauses come between them.  Times are in any unit,
    from the moment the stopwatch was made. *)
From S2P Require Import Prelude.
Local Open Scope Z_scope.

Section Stopwatch.
Context (limit : Z).

(** The watcher: at the top of its loop, past the lock with what it read (what remains, if
    the clock is running), waiting for news, asleep as well until a deadline, or done; the
    flag: it was notified. *)
Inductive Watcher := AtTop | Gap (remaining : option Z) | Idle (notified : bool) | Sleeping (deadline : Z) (notified : bool) | Fired.

(** [unpaused]: the time in which no pause was active; [raced]: whether a pause or its end
    came into a gap of the watcher, or it took its deadline although it was notified. *)
Record World := {
  now : Z;
  elapsed : Z;
  running_since : option Z;
  active_pauses : nat;
  watcher : Watcher;
  unpaused : Z;
  raced : bool;
}.
Definition new : World :=
  {| now := 0; elapsed := 0; running_since := Some 0; active_pauses := 0; watcher := AtTop; unpaused := 0; raced := false |}.

(** ** The stopwatch *)
Definition notify_waiters (x : Watcher) : Watcher :=
  match x with Idle _ => Idle true | Sleeping d _ => Sleeping d true | x => x end.
Definition in_gap (x : Watcher) : bool := match x with Gap _ => true | _ => false end.

Definition pause (w : World) : World :=
  match active_pauses w, running_since w with
  | O, Some since =>
      {| now := now w; elapsed := elapsed w + (now w - since); running_since := None; active_pauses := 1;
         watcher := notify_waiters (watcher w); unpaused := unpaused w; raced := raced w || in_gap (watcher w) |}
  | n, since =>
      {| now := now w; elapsed := elapsed w; running_since := since; active_pauses := S n; watcher := watcher w;
         unpaused := unpaused w; raced := raced w |}
  end.
Definition resume (w : World) : World :=
  match active_pauses w with
  | O => w
  | S n =>
      match n, running_since w with
      | O, None =>
          {| now := now w; elapsed := elapsed w; running_since := Some (now w); active_pauses := 0;
             watcher := notify_waiters (watcher w); unpaused := unpaused w; raced := raced w || in_gap (watcher w) |}
      | n, since =>
          {| now := now w; elapsed := elapsed w; running_since := since; active_pauses := n; watcher := watcher w;
             unpaused := unpaused w; raced := raced w |}
      end
  end.
(** The clock goes on. *)
Definition advance (dt : Z) (w : World) : World :=
  {| now := now w + dt; elapsed := elapsed w; running_since := running_since w; active_pauses := active_pauses w;
     watcher := watcher w; unpaused := if bool_decide (active_pauses w = O) then unpaused w + dt else unpaused w;
     raced := raced w |}.

(** ** The watcher *)
Definition measured (w : World) : Z :=
  elapsed w + match running_since w with Some since => now w - since | None => 0 end.
Definition with_watcher (x : Watcher) (w : World) : World :=
  {| now := now w; elapsed := elapsed w; running_since := running_since w; active_pauses := active_pauses w;
     watcher := x; unpaused := unpaused w; raced := raced w |}.
(** Under the lock. *)
Definition look (w : World) : Watcher :=
  if limit <=? measured w then Fired
  else Gap (match running_since w with Some _ => Some (limit - measured w) | None => None end).
(** The waiting begins. *)
Definition arm (now : Z) (remaining : option Z) : Watcher :=
  match remaining with None => Idle false | Some r => Sleeping (now + r) false end.
(** [None]: it waits on. *)
Definition watch (w : World) : option World :=
  match watcher w with
  | AtTop => Some (with_watcher (look w) w)
  | Gap remaining => Some (with_watcher (arm (now w) remaining) w)
  | Idle notified | Sleeping _ notified => if notified then Some (with_watcher AtTop w) else None
  | Fired => None
  end.
(** The sleep is over: the other branch of the [select!]. *)
Definition sleep_over (w : World) : option World :=
  match watcher w with
  | Sleeping deadline notified =>
      if deadline <=? now w
      then Some {| now := now w; elapsed := elapsed w; running_since := running_since w; active_pauses := active_pauses w;
                   watcher := Fired; unpaused := unpaused w; raced := raced w || notified |}
      else None
  | _ => None
  end.

Inductive watch_step (w : World) : World → Prop :=
| step_watch w' : watch w = Some w' → watch_step w w'
| step_sleep_over w' : sleep_over w = Some w' → watch_step w w'.
(** [pause_for] pauses, and resumes what it has paused. *)
Inductive step (w : World) : World → Prop :=
| step_tick dt : 0 ≤ dt → step w (advance dt w)
| step_pause : step w (pause w)
| step_resume : active_pauses w ≠ O → step w (resume w)
| step_watcher w' : watch_step w w' → step w w'.
Definition reachable (w : World) : Prop := rtc step new w.

(** * Correctness *)
Definition watcher_ok (w : World) : Prop :=
  match watcher w with
  | AtTop => True
  | Gap (Some r) => 0 < r ≤ limit ∧ limit ≤ now w + r ∧
                    (raced w = false → active_pauses w = O ∧ limit ≤ unpaused w + r)
  | Gap None => raced w = false → active_pauses w ≠ O ∧ unpaused w < limit
  | Idle notified => raced w = false → notified = false → active_pauses w ≠ O ∧ unpaused w < limit
  | Sleeping d notified => d ≤ now w + limit ∧ limit ≤ d ∧
                    (raced w = false → notified = false → active_pauses w = O ∧ limit ≤ unpaused w + (d - now w))
  | Fired => limit ≤ now w ∧ (raced w = false → limit ≤ unpaused w)
  end.
Record Inv (w : World) : Prop := {
  inv_running : is_Some (running_since w) ↔ active_pauses w = O;
  inv_measured : measured w = unpaused w;
  inv_bounds : 0 ≤ unpaused w ≤ now w;
  inv_watcher : watcher_ok w;
}.

Lemma stopwatch_starts : 0 ≤ limit → Inv new.
Proof. by split. Qed.

Lemma inv_pause w : Inv w → Inv (pause w).
Proof.
  intros [Hr Hm Hb Hw]. unfold pause. destruct (active_pauses w) as [|n] eqn:Ha.
  - destruct (running_since w) as [since|] eqn:Hs; [|by destruct (proj2 Hr eq_refl)].
    unfold measured, watcher_ok in *. rewrite Hs in *. split; unfold measured, watcher_ok; cbn; [by split; [intros [? ?]|]|lia|lia|].
    destruct (watcher w) as [|[r|]|b|d b|]; cbn; rewrite ?orb_true_r; try done; try tauto; rewrite ?orb_false_r; try done.
    all: try (split_and!; [tauto..|]); intros; try done.
    all: rewrite orb_false_r in *; tauto.
  - unfold measured, watcher_ok in *. rewrite Ha in *. split; unfold measured, watcher_ok; cbn; [|done|done|].
    + split; [|done]. intros H. apply Hr in H. done.
    + destruct (watcher w) as [|[r|]|b|d b|]; cbn in *; try done; try tauto; naive_solver.
Qed.

Lemma inv_resume w : active_pauses w ≠ O → Inv w → Inv (resume w).
Proof.
  intros Hne [Hr Hm Hb Hw]. unfold resume. destruct (active_pauses w) as [|n] eqn:Ha; [done|].
  destruct (running_since w) as [since|] eqn:Hs; [by destruct (proj1 Hr ltac:(eauto))|].
  unfold measured, watcher_ok in *. rewrite Hs, Ha in *. destruct n as [|n]; split; unfold measured, watcher_ok; cbn.
  - by split; [|eauto].
  - lia.
  - lia.
  - destruct (watcher w) as [|[r|]|b|d b|]; cbn; rewrite ?orb_true_r; try done; try tauto.
    all: rewrite ?orb_false_r; naive_solver.
  - by split; [intros [? ?]|].
  - lia.
  - lia.
  - destruct (watcher w) as [|[r|]|b|d b|]; cbn in *; try done; try tauto; naive_solver.
Qed.

Lemma inv_advance dt w : 0 ≤ dt → Inv w → Inv (advance dt w).
Proof.
  intros Hdt [Hr Hm Hb Hw]. unfold measured, watcher_ok in *. split; unfold measured, watcher_ok; cbn.
  - done.
  - destruct (running_since w) as [s|] eqn:Hs.
    + rewrite (proj1 Hr) by eauto. rewrite bool_decide_true by done. lia.
    + rewrite bool_decide_false; [lia|]. intros H. by destruct (proj2 Hr H).
  - case_bool_decide; lia.
  - destruct (watcher w) as [|[r|]|b|d b|]; try done.
    + destruct Hw as (? & ? & Hw). split_and!; [lia..|]. intros Hn. destruct (Hw Hn) as [-> ?].
      rewrite bool_decide_true by done. split; [done|lia].
    + intros Hn. destruct (Hw Hn). by rewrite bool_decide_false.
    + intros Hn Hb'. destruct (Hw Hn Hb'). by rewrite bool_decide_false.
    + destruct Hw as (? & ? & Hw). split_and!; [lia..|]. intros Hn Hb'. destruct (Hw Hn Hb') as [-> ?].
      rewrite bool_decide_true by done. split; [done|lia].
    + destruct Hw as [? Hw]. split; [lia|]. intros Hn. specialize (Hw Hn). case_bool_decide; lia.
Qed.

Lemma inv_watch_step w w' : Inv w → watch_step w w' → Inv w'.
Proof.
  intros [Hr Hm Hb Hw] [w1 Hs|w1 Hs].
  - unfold watch in Hs. unfold watcher_ok in Hw. destruct (watcher w) as [|r|b|d b|] eqn:Hx; try discriminate;
      [|injection Hs as <-..|destruct b; [injection Hs as <-|discriminate]|destruct b; [injection Hs as <-|discriminate]].
    + injection Hs as <-. split; [done..|]. unfold look, watcher_ok. cbn. destruct (limit <=? measured w) eqn:El; cbn.
      * rewrite Z.leb_le in El. split; [lia|]. lia.
      * rewrite Z.leb_gt in El. destruct (running_since w) as [s|] eqn:Hsince.
        -- split_and!; [lia..|]. intros _. split; [by apply Hr; eauto|lia].
        -- intros _. split; [|lia]. intros H. by destruct (proj2 Hr H).
    + split; [done..|]. unfold watcher_ok, arm. cbn. destruct r as [r|]; [|tauto].
      destruct Hw as (? & ? & Hw). split_and!; [lia..|]. intros Hn _. destruct (Hw Hn). split; [done|lia].
    + by split.
    + by split.
  - unfold sleep_over in Hs. unfold watcher_ok in Hw. destruct (watcher w) as [|r|b|d b|] eqn:Hx; try done.
    destruct (d <=? now w) eqn:Hd; [|done]. injection Hs as <-. rewrite Z.leb_le in Hd. destruct Hw as (? & ? & Hw).
    split; [done..|]. unfold watcher_ok. cbn. split; [lia|]. intros [Hn ->]%orb_false_iff. destruct (Hw Hn eq_refl). lia.
Qed.

Lemma stopwatch_inv w : 0 ≤ limit → reachable w → Inv w.
Proof.
  intros Hl. unfold reachable. apply (rtc_ind_r (λ w, Inv w)); [by apply stopwatch_starts|].
  intros x y _ Hs IH. destruct Hs; eauto using inv_advance, inv_pause, inv_resume, inv_watch_step.
Qed.

(** C19. The time limit of a command that waits for the user.  The stopwatch counts exactly
    the time in which no question is open, however many are open at once; and the command
    is never cancelled before its limit in time on the clock.  As long as no pause begins
    or ends between a look of the watcher and its waiting, the command is cancelled only
    when it has used up its limit, and once it has the watcher comes to cancel it, at the
    latest after the time of another limit. *)
Theorem stopwatch_exact w :
  0 ≤ limit → reachable w →
  measured w = unpaused w ∧ (watcher w = Fired → limit ≤ now w) ∧
  (raced w = false →
     (watcher w = Fired → limit ≤ unpaused w) ∧
     (limit ≤ unpaused w →
        ∃ w1 dt w2, rtc watch_step w w1 ∧ 0 ≤ dt ≤ limit ∧ rtc watch_step (advance dt w1) w2 ∧ watcher w2 = Fired)).
Proof.
  intros Hl Hi%stopwatch_inv; [|done]. pose proof (inv_watcher w Hi) as Hw. unfold watcher_ok in Hw.
  split; [apply (inv_measured w Hi)|]. split; [by intros Hx; rewrite Hx in Hw; apply Hw|]. intros Hn. split.
  { intros Hx. rewrite Hx in Hw. by apply Hw. }
  intros Hu.
  assert (∀ x, Inv x → unpaused x = unpaused w → watcher x = AtTop → ∃ y, rtc watch_step (advance 0 x) y ∧ watcher y = Fired)
    as Htop.
  { intros x Hx Hux Hxt. exists (with_watcher Fired (advance 0 x)). split; [|done].
    apply rtc_once, step_watch. unfold watch. cbn. rewrite Hxt. unfold look.
    rewrite (proj2 (Z.leb_le _ _)); [done|]. rewrite (inv_measured _ (inv_advance 0 x ltac:(lia) Hx)). cbn.
    case_bool_decide; lia. }
  assert (∀ x d b, watcher x = Sleeping d b → d ≤ now x + limit → ∃ dt y, 0 ≤ dt ≤ limit ∧
            rtc watch_step (advance dt x) y ∧ watcher y = Fired) as Hsleep.
  { intros x d b Hx Hd. exists (Z.max 0 (d - now x)). eexists. split; [lia|]. split.
    - apply rtc_once, step_sleep_over. unfold sleep_over. cbn. rewrite Hx, (proj2 (Z.leb_le _ _)) by lia. done.
    - done. }
  destruct (watcher w) as [|[r|]|b|d b|] eqn:Hx.
  - destruct (Htop w Hi eq_refl Hx) as (y & ? & ?). exists w, 0, y. split_and!; [done|lia|lia|done|done].
  - destruct (Hsleep (with_watcher (arm (now w) (Some r)) w) (now w + r) false) as (dt & y & ? & ? & ?); [done|cbn; lia|].
    eexists _, dt, y. split; [|done]. apply rtc_once, step_watch. unfold watch. by rewrite Hx.
  - destruct (Hw Hn). lia.
  - destruct b; [|destruct (Hw Hn eq_refl); lia].
    assert (watch_step w (with_watcher AtTop w)) as Hs by (apply step_watch; unfold watch; by rewrite Hx).
    destruct (Htop _ (inv_watch_step _ _ Hi Hs) eq_refl eq_refl) as (y & ? & ?).
    exists (with_watcher AtTop w), 0, y. split_and!; [by apply rtc_once|lia|lia|done|done].
  - destruct (Hsleep w d b Hx) as (dt & y & ? & ? & ?); [lia|]. by exists w, dt, y.
  - exists w, 0, (advance 0 w). by split_and!; [|lia|lia| |].
Qed.

(** ** Examples *)
Inductive Move := MTick (dt : Z) | MPause | MResume | MWatch | MSleepOver.
Definition move (m : Move) (w : World) : option World :=
  match m with
  | MTick dt => if 0 <=? dt then Some (advance dt w) else None
  | MPause => Some (pause w)
  | MResume => if bool_decide (active_pauses w = O) then None else Some (resume w)
  | MWatch => watch w
  | MSleepOver => sleep_over w
  end.
Definition play (ms : list Move) : option World := foldl (λ w m, w ≫= move m) (Some new) ms.

Lemma foldl_move ms w : foldl (λ w m, w ≫= move m) (Some w) ms = None ∨
  ∃ w', foldl (λ w m, w ≫= move m) (Some w) ms = Some w' ∧ rtc step w w'.
Proof.
  revert w. induction ms as [|m ms IH]; intros w; cbn; [right; by exists w|].
  destruct (move m w) as [w1|] eqn:Hm.
  - destruct (IH w1) as [?|(w' & ? & ?)]; [by left|right]. exists w'. split; [done|]. eapply rtc_l; [|done].
    destruct m; cbn in Hm.
    + destruct (0 <=? dt) eqn:E; [|done]. injection Hm as <-. apply step_tick. lia.
    + injection Hm as <-. apply step_pause.
    + case_bool_decide; [done|]. injection Hm as <-. by apply step_resume.
    + by apply step_watcher, step_watch.
    + by apply step_watcher, step_sleep_over.
  - left. clear. by induction ms.
Qed.
Lemma stopwatch_play ms w : play ms = Some w → reachable w.
Proof.
  unfold play. intros H. destruct (foldl_move ms new) as [H'|(w' & H' & ?)]; rewrite H' in H; [done|]. by injection H as <-.
Qed.
End Stopwatch.

Definition asked_once : list Move :=
  [MWatch; MWatch; MTick 30; MPause; MWatch; MWatch; MWatch; MTick 500; MResume; MWatch; MWatch; MWatch; MTick 20; MSleepOver].
Lemma stopwatch_exact_witness :
  ∃ w, play 50 asked_once = Some w ∧ watcher w = Fired ∧ now w = 550 ∧ unpaused w = 50 ∧ measured w = unpaused w.
Proof.
  assert (play 50 asked_once = Some (default new (play 50 asked_once))) as Hp by (by vm_compute).
  eexists. split; [exact Hp|]. split; [by vm_compute|]. split; [by vm_compute|]. split; [by vm_compute|].
  exact (proj1 (stopwatch_exact 50 _ ltac:(lia) (stopwatch_play 50 _ _ Hp))).
Defined.

(** The answer comes while the watcher has read that the stopwatch stands, but does not wait
    yet: it waits for ever, and the command is not cancelled any more. *)
Example resume_lost :
  (λ w, (watcher w, unpaused w)) <$> play 50 [MPause; MWatch; MResume; MWatch; MTick 1000000] = Some (Idle false, 1000000).
Proof. by vm_compute. Qed.
(** A question that is asked at that point does not stop the clock: the command is cancelled
    while the user thinks; so it is when the deadline passes before the watcher runs. *)
Example cancelled_while_asked :
  (λ w, (watcher w, unpaused w, active_pauses w)) <$> play 50 [MWatch; MPause; MWatch; MTick 50; MSleepOver] =
    Some (Fired, 0, 1%nat) ∧
  (λ w, (watcher w, unpaused w, active_pauses w)) <$> play 50 [MWatch; MWatch; MTick 49; MPause; MTick 1; MSleepOver] =
    Some (Fired, 49, 1%nat).
Proof. split; by vm_compute. Qed.
