(* ===== verification/Frames.v ===== *)
(** * Messages with descriptors over a socket
    ([exec-server/src/posix/socket.rs])

    A message between the client and the server of [Escalation] is a frame of a stream
    socket: the length of its JSON text in four bytes, the text, and descriptors that travel
    with its first byte.  The kernel takes and gives as many bytes at a time as it likes; it
    gives descriptors with the byte they were sent with, does not glue what follows to what
    came before descriptors were attached, and drops descriptors that nobody has room for.
    The serialisation, the layout of control messages and [epoll] are left out. *)
From S2P Require Import Prelude RustStr MachInt.
Local Open Scope Z_scope.

Definition MAX_FDS_PER_MESSAGE : nat := 16.
Definition LENGTH_PREFIX_SIZE : nat := 4.
Definition MAX_DATAGRAM_SIZE : nat := 8192.

(** ** The stream *)
(** A byte on its way, with the descriptors that are attached to it. *)
Abbreviation cell := (Z * list Z)%type.

(** What a write puts on the stream. *)
Definition cells (bytes : list Z) (fds : list Z) : list cell :=
  match bytes with [] => [] | b :: bs => (b, fds) :: ((λ b, (b, [])) <$> bs) end.
(** How much a read may give: up to the next descriptors. *)
Definition glued (stream : list cell) : nat :=
  match stream with [] => 0 | _ :: rest => S (length (take_while (λ c : cell, bool_decide (c.2 = [])) rest)) end.
(** A read of at most [n] bytes, of which the kernel gives [k] if it can: at least one. *)
Definition read_size (n k : nat) (stream : list cell) : nat := Nat.max 1 (Nat.min k (Nat.min n (glued stream))).

(** ** Sending *)
Inductive IoError := InvalidInput | WriteZero | UnexpectedEof | Failed.
Definition encode_length (len : Z) : result IoError (list Z) :=
  if len <? 2 ^ 32 then Ok [len mod 256; len / 2 ^ 8 mod 256; len / 2 ^ 16 mod 256; len / 2 ^ 24 mod 256] else Err InvalidInput.
Definition make_control_message (fds : list Z) : result IoError (list Z) :=
  if (MAX_FDS_PER_MESSAGE <? length fds)%nat then Err InvalidInput else Ok fds.
(** What the kernel says to a write: it would block, takes some bytes, none, or fails. *)
Inductive Wrote := WouldBlock | Took (k : nat) | TookNone | WriteFailed.
(** The loop of [send_stream_frame]; [frame]: what is not yet written.  The result: what is
    on the stream, and how it ended; [None]: it still waits for the socket. *)
Fixpoint send_loop (writes : list Wrote) (frame : list Z) (fds : list Z) (include_fds : bool)
    : list cell * option (result IoError ()) :=
  match frame with
  | [] => ([], Some (Ok ()))
  | _ =>
      match writes with
      | [] => ([], None)
      | w :: writes =>
          match (if include_fds then make_control_message fds else Ok []) with
          | Err e => ([], Some (Err e))
          | Ok control =>
              match w with
              | WouldBlock => send_loop writes frame fds include_fds
              | TookNone => ([], Some (Err WriteZero))
              | WriteFailed => ([], Some (Err Failed))
              | Took k =>
                  let k := Nat.max 1 (Nat.min k (length frame)) in
                  let '(rest, r) := send_loop writes (drop k frame) fds false in (cells (take k frame) control ++ rest, r)
              end
          end
      end
  end.
Definition send_stream_frame (writes : list Wrote) (frame fds : list Z) : list cell * option (result IoError ()) :=
  send_loop writes frame fds (negb (bool_decide (fds = []))).
Definition send_with_fds (writes : list Wrote) (payload fds : list Z) : list cell * option (result IoError ()) :=
  match encode_length (zlen payload) with
  | Err e => ([], Some (Err e))
  | Ok header => send_stream_frame writes (header ++ payload) fds
  end.

(** ** Receiving *)
(** What the kernel says to a read; an end of the stream is a read of nothing. *)
Inductive Read := ReadBlocks | Gives (k : nat) | ReadFails.
(** Bytes until [wanted] more are there; [captured]: the first read has come, the one with
    room for descriptors.  The result: the bytes, the descriptors, what is left of the
    stream and of the answers. *)
Fixpoint read_loop (reads : list Read) (stream : list cell) (wanted : nat) (captured : bool)
    : option (result IoError (list Z * list Z * list cell * list Read)) :=
  match wanted with
  | O => Some (Ok ([], [], stream, reads))
  | _ =>
      match reads with
      | [] => None
      | ReadBlocks :: reads => read_loop reads stream wanted captured
      | ReadFails :: _ => Some (Err Failed)
      | Gives k :: reads =>
          match stream with
          | [] => Some (Err UnexpectedEof)
          | c :: _ =>
              let k := read_size wanted k stream in
              match read_loop reads (drop k stream) (wanted - k) true with
              | Some (Ok (bytes, fds, stream', reads)) =>
                  Some (Ok (map fst (take k stream) ++ bytes, (if captured then [] else c.2) ++ fds, stream', reads))
              | r => r
              end
          end
      end
  end.
Definition decode_length (header : list Z) : nat :=
  Z.to_nat (foldr (λ b n, b + 2 ^ 8 * n) 0 header).
(** The descriptors come with the header; the text follows. *)
Definition read_frame (reads : list Read) (stream : list cell)
    : option (result IoError (list Z * list Z * list cell * list Read)) :=
  match read_loop reads stream LENGTH_PREFIX_SIZE false with
  | Some (Ok (header, fds, stream, reads)) =>
      match read_loop reads stream (decode_length header) true with
      | Some (Ok (payload, _, stream, reads)) => Some (Ok (payload, fds, stream, reads))
      | r => r
      end
  | r => r
  end.
(** A client and a server receive one message after the other. *)
Fixpoint read_frames (n : nat) (reads : list Read) (stream : list cell) : option (result IoError (list (list Z * list Z))) :=
  match n with
  | O => Some (Ok [])
  | S n =>
      match read_frame reads stream with
      | Some (Ok (payload, fds, stream, reads)) =>
          match read_frames n reads stream with Some (Ok l) => Some (Ok ((payload, fds) :: l)) | r => r end
      | Some (Err e) => Some (Err e)
      | None => None
      end
  end.

(** ** Datagrams *)
(** [written]: what the kernel took of the data; [None]: an error. *)
Definition send_datagram_bytes (written : option nat) (data fds : list Z) : result IoError (list Z * list Z) :=
  match make_control_message fds with
  | Err e => Err e
  | Ok control =>
      match written with
      | None => Err Failed
      | Some n => if bool_decide (n = length data) then Ok (data, control) else Err WriteZero
      end
  end.
Definition receive_datagram_bytes (d : list Z * list Z) : list Z * list Z :=
  (take MAX_DATAGRAM_SIZE d.1, take MAX_FDS_PER_MESSAGE d.2).

(** * Correctness *)
Definition gives (reads : list Read) : nat := sum_list_with (λ r, match r with Gives _ => 1 | _ => 0 end)%nat reads.

Lemma length_roundtrip len header : 0 ≤ len → encode_length len = Ok header →
  length header = LENGTH_PREFIX_SIZE ∧ decode_length header = Z.to_nat len.
Proof.
  unfold encode_length, decode_length. intros Hlen. destruct (len <? 2 ^ 32) eqn:E; [|done]. intros [= <-]. split; [done|].
  f_equal. cbn [foldr]. apply Z.ltb_lt in E. change (2 ^ 8) with 256. change (2 ^ 16) with 65536. change (2 ^ 24) with 16777216.
  change (2 ^ 32) with 4294967296 in E. Z.to_euclidean_division_equations. lia.
Qed.

Lemma read_loop_ok reads stream rest wanted captured :
  length stream = wanted → Forall (λ r, r ≠ ReadFails) reads → (wanted ≤ gives reads)%nat →
  ∃ reads', read_loop reads (stream ++ rest) wanted captured =
    Some (Ok (map fst stream, if captured then [] else match stream with c :: _ => c.2 | [] => [] end, rest, reads')) ∧
    Forall (λ r, r ≠ ReadFails) reads' ∧ (gives reads ≤ gives reads' + wanted)%nat.
Proof.
  revert stream wanted captured. induction reads as [|r reads IH]; intros stream wanted captured Hlen Hok Hg.
  - assert (wanted = 0)%nat as -> by (unfold gives in Hg; cbn in Hg; lia). apply nil_length_inv in Hlen as ->.
    exists []. by destruct captured.
  - destruct wanted as [|n]; [apply nil_length_inv in Hlen as ->; exists (r :: reads); split_and!; [by destruct captured|done|lia]|].
    apply Forall_cons in Hok as [Hr Hok]. destruct r as [|k|]; [|clear Hr|done].
    + destruct (IH stream (S n) captured Hlen Hok Hg) as (reads' & He & Hok' & Hg'). by exists reads'.
    + destruct stream as [|c stream]; [done|]. cbn [read_loop app].
      set (m := read_size (S n) k (c :: stream ++ rest)). assert (1 ≤ m ≤ S n)%nat as Hm by (unfold m, read_size; lia).
      change (gives (Gives k :: reads)) with (S (gives reads)) in *.
      assert (drop m (c :: stream ++ rest) = drop m (c :: stream) ++ rest) as ->.
      { change (c :: stream ++ rest) with ((c :: stream) ++ rest). by rewrite drop_app_le by lia. }
      assert (take m (c :: stream ++ rest) = take m (c :: stream)) as ->.
      { change (c :: stream ++ rest) with ((c :: stream) ++ rest). by rewrite take_app_le by lia. }
      destruct (IH (drop m (c :: stream)) (S n - m)%nat true) as (reads' & -> & Hok' & Hg'); [|done|lia|].
      { rewrite length_drop. lia. }
      exists reads'. split_and!; [|done|lia]. rewrite <-(map_app fst), take_drop, app_nil_r. by destruct captured.
Qed.

Lemma cells_fst bytes fds : map fst (cells bytes fds) = bytes.
Proof. destruct bytes as [|b bs]; [done|]. cbn. f_equal. rewrite <-list_fmap_compose. apply list_fmap_id. Qed.
Lemma send_loop_ok writes frame fds include_fds stream :
  send_loop writes frame fds include_fds = (stream, Some (Ok ())) →
  map fst stream = frame ∧ match stream with c :: _ => c.2 = if include_fds then fds else [] | [] => frame = [] end.
Proof.
  revert frame include_fds stream. induction writes as [|w writes IH]; intros frame include_fds stream; destruct frame as [|b frame];
    cbn [send_loop]; try (by intros [= <-]).
  destruct (if include_fds then make_control_message fds else Ok []) as [control|] eqn:Hc; [|done].
  assert (control = if include_fds then fds else []) as ->.
  { destruct include_fds; [|by injection Hc]. unfold make_control_message in Hc. destruct (_ <? _)%nat; [done|by injection Hc]. }
  destruct w as [|k| |]; [apply IH| |done|done].
  set (m := Nat.max 1 (Nat.min k (length (b :: frame)))). destruct (send_loop writes _ fds false) as [rest r] eqn:Hl.
  intros [= <- ->]. apply IH in Hl as [Hl _]. rewrite map_app, cells_fst, Hl, take_drop. split; [done|].
  destruct m as [|m'] eqn:Hm; [lia|]. done.
Qed.
Lemma sent_frame writes payload fds stream :
  send_with_fds writes payload fds = (stream, Some (Ok ())) →
  ∃ header text, stream = header ++ text ∧ encode_length (zlen payload) = Ok (map fst header) ∧ map fst text = payload ∧
    match header with c :: _ => c.2 = fds | [] => False end.
Proof.
  unfold send_with_fds. destruct (encode_length (zlen payload)) as [header|] eqn:He; [|done]. intros Hs%send_loop_ok.
  destruct Hs as [Hfst Hhead]. destruct (length_roundtrip _ _ (zlen_nonneg _) He) as [Hlen _].
  exists (take 4 stream), (drop 4 stream). rewrite take_drop. split; [done|].
  assert (length stream = length (header ++ payload)) as Hl by (by rewrite <-Hfst, length_map).
  rewrite length_app, Hlen in Hl. unfold LENGTH_PREFIX_SIZE in *.
  rewrite <-firstn_map, <-skipn_map, Hfst, (take_app_length' header) , (drop_app_length' header) by done.
  split_and!; [done|done|]. destruct stream as [|c stream]; [cbn in Hl; lia|]. cbn in *. rewrite Hhead. by case_bool_decide.
Qed.

Lemma read_frame_ok writes payload fds stream rest reads :
  send_with_fds writes payload fds = (stream, Some (Ok ())) → Forall (λ r, r ≠ ReadFails) reads →
  (length stream ≤ gives reads)%nat →
  ∃ reads', read_frame reads (stream ++ rest) = Some (Ok (payload, fds, rest, reads')) ∧
    Forall (λ r, r ≠ ReadFails) reads' ∧ (gives reads ≤ gives reads' + length stream)%nat.
Proof.
  intros Hs Hok Hg. destruct (sent_frame _ _ _ _ Hs) as (header & text & -> & He & Htext & Hhead).
  destruct (length_roundtrip _ _ (zlen_nonneg _) He) as [Hlen Hdec]. rewrite length_map in Hlen. rewrite length_app in *.
  destruct (read_loop_ok reads header (text ++ rest) LENGTH_PREFIX_SIZE false) as (reads1 & Hr1 & Hok1 & Hg1); [done..|lia|].
  destruct (read_loop_ok reads1 text rest (length text) true) as (reads2 & Hr2 & Hok2 & Hg2); [done..|lia|].
  exists reads2. split_and!; [|done|lia]. unfold read_frame. rewrite <-app_assoc, Hr1, Hdec.
  replace (Z.to_nat (zlen payload)) with (length text) by (unfold zlen; rewrite <-Htext, length_map; lia).
  rewrite Hr2, Htext. destruct header as [|c header]; [done|]. by rewrite Hhead.
Qed.

(** C34. Messages between the client and the server of the escalation, each with its
    descriptors: when they are sent without an error they are received as they were, in
    their order and each with its own descriptors, in whatever pieces the kernel takes and
    gives the bytes. *)
Theorem messages_arrive (messages : list (list Z * list Z)) streams reads :
  Forall2 (λ m stream, ∃ writes, send_with_fds writes m.1 m.2 = (stream, Some (Ok ()))) messages streams →
  Forall (λ r, r ≠ ReadFails) reads → (length (concat streams) ≤ gives reads)%nat →
  read_frames (length messages) reads (concat streams) = Some (Ok messages).
Proof.
  intros Hs. revert reads. induction Hs as [|[payload fds] stream messages streams [writes Hw] _ IH]; intros reads Hok Hg; [done|].
  cbn [concat length read_frames] in *. rewrite length_app in Hg.
  destruct (read_frame_ok writes payload fds stream (concat streams) reads) as (reads' & -> & Hok' & Hg'); [done..|lia|].
  by rewrite IH by (done || lia).
Qed.

(** ** Examples *)
Definition hello : list Z := [104; 101; 108; 108; 111].
Lemma messages_arrive_witness :
  read_frames 2 (replicate 18 (Gives 3)) (concat [(send_with_fds [Took 3; WouldBlock; Took 100] hello [7; 8]).1;
                                                  (send_with_fds [Took 9] hello []).1]) = Some (Ok [(hello, [7; 8]); (hello, [])]).
Proof.
  apply (messages_arrive [(hello, [7; 8]); (hello, [])]).
  - repeat constructor; [by exists [Took 3; WouldBlock; Took 100]|by exists [Took 9]].
  - by apply Forall_replicate.
  - vm_compute. lia.
Defined.

(** Too many descriptors are refused before anything is sent; a peer that is gone in the
    middle of a message is an error; descriptors that come later than the first byte that is
    read are lost. *)
Example refused_and_lost :
  send_with_fds [Took 9] hello (seqZ 0 17) = ([], Some (Err InvalidInput)) ∧
  read_frame (replicate 9 (Gives 9)) (take 6 (send_with_fds [Took 9] hello []).1) = Some (Err UnexpectedEof) ∧
  read_frame (replicate 9 (Gives 9)) (cells [5] [] ++ cells ([0; 0; 0] ++ hello) [7]) =
    Some (Ok (hello, [], [], replicate 6 (Gives 9))).
Proof. split_and!; by vm_compute. Qed.
