(* ===== verification/Escalation.v ===== *)
(** * Escalation of the commands of a sandboxed shell
    ([exec-server/src/posix.rs], [posix/mcp.rs], [mcp_escalation_policy.rs],
    [escalate_server.rs] and [escalate_client.rs])

    The [shell] tool of the MCP server runs a patched bash in the sandbox; each command that
    this bash would execute is first sent to the server, which lets it run in the sandbox,
    runs it itself outside, or denies it, by the rules of [ExecPolicy] and the user.  The
    server is modelled against any request, since what runs in the sandbox inherits the
    socket and may send its own; the client is the wrapper that bash calls.  Failures of the
    sockets, of the clock and of [fork] are answers of the environment; the shell quoting of
    a question (shlex), absolute paths and the user are parameters.  The stopwatch that
    stands still while the user is asked is [Stopwatch]. *)
From S2P Require Import Prelude RustStr Paths ExecPolicy Bash CommandSafety Approval Orchestrator CommandExec.
Local Open Scope Z_scope.

(** ** Results with the events on the way *)
Inductive Fault := Failed | Panicked.
Inductive EscalateAction := RunAction | Escalate | Deny (reason : option str).
Inductive Fd := DevNull | Forwarded (i : nat).
(** A process that the server starts, with the descriptors it is given. *)
Record Escalated := {
  es_file : str;
  es_argv0 : str;
  es_args : list str;
  es_env : gmap str str;
  es_dir : str;
  es_fds : gmap Z Fd;
}.
Inductive Event := Asked (message : str) | Responded (action : EscalateAction) | Started (p : Escalated) | Reported (exit_code : Z).

Record Run (A : Type) := { events : list Event; outcome : result Fault A }.
Arguments events {A} r.
Arguments outcome {A} r.
#[export] Instance run_ret : MRet Run := λ A a, {| events := []; outcome := Ok a |}.
#[export] Instance run_bind : MBind Run := λ A B f r,
  match outcome r with
  | Err e => {| events := events r; outcome := Err e |}
  | Ok a => {| events := events r ++ events (f a); outcome := outcome (f a) |}
  end.
Definition emit (e : Event) : Run () := {| events := [e]; outcome := Ok () |}.
Definition fault {A} (e : Fault) : Run A := {| events := []; outcome := Err e |}.
Definition from_option_or_fail {A} (o : option A) : Run A :=
  match o with Some a => mret a | None => fault Failed end.

(** ** The policy ([posix.rs], [mcp_escalation_policy.rs]) *)
Inductive ExecPolicyOutcome :=
| AllowOutcome (sandbox_permissions : SandboxPermissions)
| PromptOutcome (sandbox_permissions : SandboxPermissions)
| ForbiddenOutcome.
(** [Other]: an answer that is none of the three. *)
Inductive ElicitationAction := Accept | Decline | Cancel | Other.

Definition format_program_name (path : str) (preserve_program_paths : bool) : option str :=
  if preserve_program_paths then Some path else file_name path.

Section Server.
Context (try_parse_shell : str → option Tree) (policy : Policy PrefixRule) (preserve_program_paths : bool).
Context (try_join : list str → option str).

Definition fallback (cmd : list str) : Decision :=
  if command_might_be_dangerous try_parse_shell cmd then Prompt else Allow.
Definition driven_by_policy (evaluation : Evaluation) : bool :=
  existsb (λ m, match m with
                | HeuristicsRuleMatch _ _ => false
                | PrefixRuleMatch _ d _ => bool_decide (d = ev_decision evaluation)
                end) (ev_matched_rules evaluation).
Definition evaluate_exec_policy (file : str) (argv : list str) : result Fault ExecPolicyOutcome :=
  match format_program_name file preserve_program_paths with
  | None => Err Failed
  | Some program_name =>
      let command := program_name :: drop 1 argv in
      match check policy command fallback with
      | None => Err Panicked
      | Some evaluation =>
          let sandbox_permissions := if driven_by_policy evaluation then RequireEscalated else UseDefault in
          Ok match ev_decision evaluation with
             | Forbidden => ForbiddenOutcome
             | Prompt => PromptOutcome sandbox_permissions
             | Allow => AllowOutcome sandbox_permissions
             end
      end
  end.

Definition prompt_message (file : str) (argv : list str) (workdir : str) : str :=
  let args := default [] (try_join (drop 1 argv)) in
  let command := if bool_decide (args = []) then file else file ++ §" " ++ args in
  §"Allow agent to run `" ++ command ++ §"` in `" ++ workdir ++ §"`?".

Definition permitted (p : SandboxPermissions) : EscalateAction :=
  if requires_escalated_permissions p then Escalate else RunAction.
(** [answer]: what the user says; [None]: the question fails. *)
Definition determine_action (answer : str → option ElicitationAction) (file : str) (argv : list str) (workdir : str)
    : Run EscalateAction :=
  match evaluate_exec_policy file argv with
  | Err e => fault e
  | Ok (AllowOutcome p) => mret (permitted p)
  | Ok (PromptOutcome p) =>
      emit (Asked (prompt_message file argv workdir));;
      action ← from_option_or_fail (answer (prompt_message file argv workdir));
      mret match action with
           | Accept => permitted p
           | Decline => Deny (Some §"User declined execution")
           | Cancel => Deny (Some §"User cancelled execution")
           | Other => Deny (Some §"Unsupported elicitation response")
           end
  | Ok ForbiddenOutcome => mret (Deny (Some §"Execution forbidden by policy"))
  end.

(** ** A session of the server ([escalate_server.rs]) *)
Record EscalateRequest := { req_file : str; req_argv : list str; req_workdir : str; req_env : gmap str str }.
(** The numbers of the descriptors in the client, and those under which the server got them. *)
Record SuperExec := { msg_fds : list Z; got_fds : list Z }.
Inductive ChildEnd := NotStarted | NotWaited | Ended (status : Z).
Record SessionIo := {
  io_request : option EscalateRequest;
  io_absolutize : str → option str;
  io_answer : str → option ElicitationAction;
  io_respond : bool;
  io_super : option SuperExec;
  io_child : Escalated → ChildEnd;
  io_report : bool;
}.

(** The descriptors of the child: the three standard ones are set to [/dev/null], then
    [dup2] copies each that was forwarded to its number; the received ones themselves are
    closed by [exec]. *)
Definition inherited (got : list Z) : gmap Z Fd :=
  <[0 := DevNull]> (<[1 := DevNull]> (<[2 := DevNull]> (list_to_map (imap (λ i fd, (fd, Forwarded i)) got)))).
Definition dup2 (fds : gmap Z Fd) (dst_src : Z * Z) : gmap Z Fd :=
  match fds !! dst_src.2 with Some fd => <[dst_src.1 := fd]> fds | None => fds end.
Definition child_fds (x : SuperExec) : gmap Z Fd :=
  filter (λ kv, kv.1 ∈ [0; 1; 2] ++ msg_fds x) (foldl dup2 (inherited (got_fds x)) (zip (msg_fds x) (got_fds x))).

Definition send (ok : bool) (e : Event) : Run () := if ok then emit e else fault Failed.
Definition run_escalated (server_env : gmap str str) (io : SessionIo) (file workdir : str) (req : EscalateRequest) : Run () :=
  x ← from_option_or_fail (io_super io);
  if negb (bool_decide (length (got_fds x) = length (msg_fds x))) then fault Failed
  else if existsb (λ src_fd, bool_decide (src_fd ∈ got_fds x)) (msg_fds x) then fault Failed
  else
    match req_argv req with
    | [] => fault Panicked
    | argv0 :: args =>
        let p := {| es_file := file; es_argv0 := argv0; es_args := args; es_env := req_env req ∪ server_env;
                    es_dir := workdir; es_fds := child_fds x |} in
        match io_child io p with
        | NotStarted => fault Failed
        | NotWaited => emit (Started p);; fault Failed
        | Ended status => emit (Started p);; send (io_report io) (Reported (default 127 (code status)))
        end
    end.
Definition handle_escalate_session_with_policy (server_env : gmap str str) (io : SessionIo) : Run () :=
  req ← from_option_or_fail (io_request io);
  file ← from_option_or_fail (io_absolutize io (req_file req));
  workdir ← from_option_or_fail (io_absolutize io (req_workdir req));
  action ← determine_action (io_answer io) file (req_argv req) workdir;
  send (io_respond io) (Responded action);;
  match action with
  | Escalate => run_escalated server_env io file workdir req
  | _ => mret ()
  end.
End Server.

(** The loop that accepts sessions: for each datagram what its descriptors are, each usable
    as a socket or not; [None]: the reception fails.  The result: the sessions, by the
    datagram, and whether the loop still runs. *)
Fixpoint escalate_task (i : nat) (datagrams : list (option (list bool))) : list nat * bool :=
  match datagrams with
  | [] => ([], true)
  | None :: _ => ([], false)
  | Some [usable] :: rest =>
      if usable then let '(sessions, alive) := escalate_task (S i) rest in (i :: sessions, alive) else ([], false)
  | Some _ :: rest => escalate_task (S i) rest
  end.

(** ** The client ([escalate_client.rs]) *)
Definition ESCALATE_SOCKET_ENV_VAR : str := §"SAVFOX_ESCALATE_SOCKET".
Definition BASH_EXEC_WRAPPER_ENV_VAR : str := §"BASH_EXEC_WRAPPER".

Definition client_request (file : str) (argv : list str) (cwd : str) (env : gmap str str) : EscalateRequest :=
  {| req_file := file; req_argv := argv; req_workdir := cwd;
     req_env := filter (λ kv, negb (one_of kv.1 [ESCALATE_SOCKET_ENV_VAR; BASH_EXEC_WRAPPER_ENV_VAR]) = true) env |}.
Definition get_escalate_client (fd : option Z) : option Z := fd ≫= λ fd, if fd <? 0 then None else Some fd.
(** How the wrapper ends: it became the command, or with an exit code, or with an error. *)
Inductive ClientEnd := Execed (file : str) (argv : list str) | Exited (exit_code : Z) | ClientFailed.
Record ClientIo := {
  cl_fd : option Z;
  cl_handshake : bool;
  cl_request : bool;
  cl_response : option EscalateAction;
  cl_super : bool;
  cl_result : option Z;
  cl_exec : bool;
}.
Definition CLIENT_FDS : list Z := [0; 1; 2].
Definition nul_in (s : str) : bool := bool_decide (0%N ∈ s).
Definition client_run (io : ClientIo) (file : str) (argv : list str) : ClientEnd :=
  match get_escalate_client (cl_fd io) with
  | None => ClientFailed
  | Some _ =>
      if negb (cl_handshake io) || negb (cl_request io) then ClientFailed
      else match cl_response io with
           | None => ClientFailed
           | Some Escalate =>
               if negb (cl_super io) then ClientFailed
               else match cl_result io with Some exit_code => Exited exit_code | None => ClientFailed end
           | Some RunAction =>
               if existsb nul_in (file :: argv) then ClientFailed
               else if cl_exec io then Execed file argv else ClientFailed
           | Some (Deny _) => Exited 1
           end
  end.

(** ** A command of the shell: client and server together *)
(** What fails between them: [None] and [false] are failures. *)
Record Link := {
  ln_fd : option Z;
  ln_handshake : bool;
  ln_request : bool;
  ln_respond : bool;
  ln_response : bool;
  ln_super : option (list Z);
  ln_report : bool;
  ln_result : bool;
  ln_exec : bool;
}.
Definition responded (l : list Event) : option EscalateAction :=
  head (omap (λ e, match e with Responded a => Some a | _ => None end) l).
Definition reported (l : list Event) : option Z :=
  head (omap (λ e, match e with Reported c => Some c | _ => None end) l).
Definition connected (ln : Link) : bool :=
  bool_decide (is_Some (get_escalate_client (ln_fd ln))) && ln_handshake ln && ln_request ln.

Section Intercept.
Context (try_parse_shell : str → option Tree) (policy : Policy PrefixRule) (preserve_program_paths : bool).
Context (try_join : list str → option str) (absolutize : str → option str) (answer : str → option ElicitationAction).
Context (child : Escalated → ChildEnd) (server_env : gmap str str).

Definition intercept (ln : Link) (file : str) (argv : list str) (cwd : str) (env : gmap str str) : Run () * ClientEnd :=
  let session :=
    handle_escalate_session_with_policy try_parse_shell policy preserve_program_paths try_join server_env
      {| io_request := if connected ln then Some (client_request file argv cwd env) else None;
         io_absolutize := absolutize; io_answer := answer; io_respond := ln_respond ln;
         io_super := if ln_response ln then (λ got, {| msg_fds := CLIENT_FDS; got_fds := got |}) <$> ln_super ln else None;
         io_child := child; io_report := ln_report ln |} in
  (session,
   client_run {| cl_fd := ln_fd ln; cl_handshake := ln_handshake ln; cl_request := ln_request ln;
                 cl_response := if ln_response ln then responded (events session) else None;
                 cl_super := bool_decide (is_Some (ln_super ln));
                 cl_result := if ln_result ln then reported (events session) else None;
                 cl_exec := ln_exec ln |} file argv).
End Intercept.

(** ** The tool ([mcp.rs], [EscalateServer::exec]) *)
Record ExecParams := { ep_command : str; ep_workdir : str; ep_timeout_ms : option Z; ep_login : option bool }.
Record SandboxState := { ss_sandbox_policy : SandboxPolicy; ss_linux_sandbox_exe : option str; ss_sandbox_cwd : str }.
Record ExecResult := { er_exit_code : Z; er_output : str; er_timed_out : bool }.

Section Shell.
Context (to_lowercase : str → str) (bytes_to_string_smart : list Byte.byte → str) (policy_to_json : SandboxPolicy → str).
Context (spawn : Process → option Child).
Context (bash_path execve_wrapper : str) (server_env : gmap str str).

Definition shell_env (client_socket : str) : gmap str str :=
  <[BASH_EXEC_WRAPPER_ENV_VAR := execve_wrapper]> (<[ESCALATE_SOCKET_ENV_VAR := client_socket]> server_env).
Definition shell_command (params : ExecParams) : list str :=
  [bash_path; if bool_decide (ep_login params = Some false) then §"-c" else §"-lc"; ep_command params].
(** [client_socket]: the number of the descriptor that the shell inherits; [None]: there is
    no pair of sockets.  Second result: whether the loop that accepts sessions is left
    running. *)
Definition escalate_exec (client_socket : option str) (params : ExecParams) (st : SandboxState)
    : result ExecError ExecResult * bool :=
  match client_socket with
  | None => (Err IoError, false)
  | Some fd =>
      match process_exec_tool_call to_lowercase bytes_to_string_smart policy_to_json spawn (shell_command params)
              (ep_workdir params) Cancellation (shell_env fd) (ss_sandbox_policy st) (ss_sandbox_cwd st)
              (ss_linux_sandbox_exe st) false with
      | Err e => (Err e, true)
      | Ok out => (Ok {| er_exit_code := exit_code out; er_output := out_aggregated out; er_timed_out := out_timed_out out |},
                   false)
      end
  end.
Definition effective_timeout (params : ExecParams) : Z := default DEFAULT_EXEC_COMMAND_TIMEOUT_MS (ep_timeout_ms params).
Definition shell (client_socket : option str) (state : option SandboxState) (params : ExecParams)
    : result ExecError ExecResult * bool :=
  escalate_exec client_socket params
    (default {| ss_sandbox_policy := ReadOnly; ss_linux_sandbox_exe := None; ss_sandbox_cwd := ep_workdir params |} state).
End Shell.

(** * Correctness *)

(** ** Events *)
Lemma event_of_bind {A B} (m : Run A) (f : A → Run B) e :
  e ∈ events (m ≫= f) ↔ e ∈ events m ∨ ∃ a, outcome m = Ok a ∧ e ∈ events (f a).
Proof.
  unfold mbind, run_bind. destruct (outcome m); cbn; rewrite ?elem_of_app; naive_solver.
Qed.
Lemma event_of_option {A} (o : option A) e : e ∉ events (from_option_or_fail o).
Proof. destruct o; apply not_elem_of_nil. Qed.
Lemma option_or_fail_ok {A} (o : option A) a : outcome (from_option_or_fail o) = Ok a ↔ o = Some a.
Proof. destruct o; cbn; naive_solver. Qed.
Lemma event_of_emit e e' : e ∈ events (emit e') ↔ e = e'.
Proof. apply list_elem_of_singleton. Qed.
Lemma event_of_ret {A} (a : A) e : e ∉ events (mret a : Run A).
Proof. apply not_elem_of_nil. Qed.
Lemma event_of_fault {A} x e : e ∉ events (fault x : Run A).
Proof. apply not_elem_of_nil. Qed.
Lemma event_of_send ok e e' : e ∈ events (send ok e') ↔ ok = true ∧ e = e'.
Proof. destruct ok; cbn; rewrite ?list_elem_of_singleton; [naive_solver|]. split; [by intros ?%elem_of_nil|naive_solver]. Qed.
(** Where an event of a run comes from. *)
Ltac run_inv :=
  repeat match goal with
         | H : _ ∈ events (_ ≫= _) |- _ => apply event_of_bind in H as [H|(? & ? & H)]
         | H : _ ∈ events (from_option_or_fail _) |- _ => by apply event_of_option in H
         | H : _ ∈ events (mret _) |- _ => by apply event_of_ret in H
         | H : _ ∈ events (fault _) |- _ => by apply event_of_fault in H
         | H : _ ∈ events (emit _) |- _ => apply event_of_emit in H
         | H : _ ∈ events (send _ _) |- _ => apply event_of_send in H as [? H]
         | H : outcome (from_option_or_fail _) = Ok _ |- _ => apply option_or_fail_ok in H
         end.

(** ** What the policy says *)
Section Policy.
Context (try_parse_shell : str → option Tree) (policy : Policy PrefixRule) (preserve_program_paths : bool).
Context (try_join : list str → option str).
Notation fallback := (fallback try_parse_shell).
Notation evaluate := (evaluate_exec_policy try_parse_shell policy preserve_program_paths).
Notation determine := (determine_action try_parse_shell policy preserve_program_paths try_join).

Definition outcome_of (d : Decision) (p : SandboxPermissions) : ExecPolicyOutcome :=
  match d with Forbidden => ForbiddenOutcome | Prompt => PromptOutcome p | Allow => AllowOutcome p end.
(** The decision on a command: by the rules that match, or else by the heuristics; outside
    the sandbox if by the rules. *)
Definition judged (command : list str) (d : Decision) (p : SandboxPermissions) : Prop :=
  match rules_for policy command with
  | [] => d = fallback command ∧ p = UseDefault
  | ms => severest ms d ∧ p = RequireEscalated
  end.

Lemma rules_for_prefix command m : m ∈ rules_for policy command → ∃ q d j, m = PrefixRuleMatch q d j.
Proof.
  unfold rules_for. destruct command as [|c args]; [by intros ?%elem_of_nil|].
  assert (∀ (rules : list PrefixRule) cmd, m ∈ omap (λ r, rule_matches r cmd) rules → ∃ q d j, m = PrefixRuleMatch q d j) as Hom.
  { intros rules cmd (r & _ & Hr)%list_elem_of_omap. cbn in Hr. destruct (matches_prefix _ _); [|done]. injection Hr as <-. eauto. }
  destruct (_ !! c); [apply Hom|]. destruct (program_basename c) as [base|]; [|by intros ?%elem_of_nil].
  case_bool_decide; [by intros ?%elem_of_nil|]. destruct (_ !! base); [apply Hom|by intros ?%elem_of_nil].
Qed.

Lemma evaluate_judged file argv name :
  format_program_name file preserve_program_paths = Some name →
  ∃ d p, judged (name :: drop 1 argv) d p ∧ evaluate file argv = Ok (outcome_of d p).
Proof.
  intros Hn. unfold evaluate_exec_policy. rewrite Hn. set (command := name :: drop 1 argv).
  destruct (check_cases policy command fallback) as (ev & -> & Hs & Hrules & Hnone).
  assert (judged command (ev_decision ev) (if driven_by_policy ev then RequireEscalated else UseDefault)) as Hj.
  { unfold judged. destruct (rules_for policy command) as [|m ms] eqn:Hr.
    - destruct (Hnone eq_refl) as [Hms Hd]. split; [done|]. unfold driven_by_policy. by rewrite Hms.
    - pose proof (Hrules ltac:(done)) as Hms. rewrite Hms in Hs. split; [done|].
      destruct Hs as [_ (m' & Hin & Hd)].
      assert (driven_by_policy ev = true) as ->; [|done]. unfold driven_by_policy. rewrite Hms. apply existsb_exists.
      exists m'. split; [by apply list_elem_of_In|].
      destruct (rules_for_prefix command m') as (q & d & j & ->); [by rewrite Hr|]. cbn in Hd. by apply bool_decide_eq_true. }
  exists (ev_decision ev), (if driven_by_policy ev then RequireEscalated else UseDefault). split; [done|].
  by destruct (ev_decision ev).
Qed.

Lemma judged_escalated command d : judged command d RequireEscalated → rules_for policy command ≠ [] ∧ severest (rules_for policy command) d.
Proof. unfold judged. destruct (rules_for policy command); [by intros [_ ?]|]. by intros [? _]. Qed.
Lemma judged_default command d : judged command d UseDefault → rules_for policy command = [] ∧ d = fallback command.
Proof. unfold judged. destruct (rules_for policy command); [by intros [? _]|by intros [_ ?]]. Qed.

Lemma determine_events answer file argv workdir e :
  e ∈ events (determine answer file argv workdir) → ∃ message, e = Asked message.
Proof.
  unfold determine_action. destruct (evaluate file argv) as [[p|p|]|]; intros H; run_inv. by eexists.
Qed.

(** The actions, by the decision and the answer. *)
Lemma determine_ok answer file argv workdir action :
  outcome (determine answer file argv workdir) = Ok action →
  ∃ name d p, format_program_name file preserve_program_paths = Some name ∧ judged (name :: drop 1 argv) d p ∧
    match d with
    | Allow => action = permitted p
    | Prompt => ∃ a, answer (prompt_message try_join file argv workdir) = Some a ∧
                  match a with Accept => action = permitted p | _ => ∃ reason, action = Deny reason end
    | Forbidden => ∃ reason, action = Deny reason
    end.
Proof.
  unfold determine_action. destruct (format_program_name file preserve_program_paths) as [name|] eqn:Hn.
  2: { unfold evaluate_exec_policy. by rewrite Hn. }
  destruct (evaluate_judged file argv name Hn) as (d & p & Hj & ->). intros H. exists name, d, p. split; [done|]. split; [done|].
  destruct d; cbn in H.
  - by injection H as <-.
  - destruct (answer _) as [a|]; [|done]. cbn in H. exists a. split; [done|]. injection H as <-. destruct a; eauto.
  - injection H as <-. eauto.
Qed.

(** ** What is run outside the sandbox *)
Lemma foldl_dup2_other l fds k :
  k ∉ l.*1 → foldl dup2 fds l !! k = fds !! k.
Proof.
  revert fds. induction l as [|[dst src] l IH]; intros fds Hk; cbn; [done|]. cbn in Hk. apply not_elem_of_cons in Hk as [Hne Hk].
  rewrite IH by done. unfold dup2. cbn. destruct (fds !! src); [|done]. by rewrite lookup_insert_ne.
Qed.
Lemma foldl_dup2 l fds i dst src fd :
  NoDup l.*1 → (∀ s, s ∈ l.*2 → s ∉ l.*1) → l !! i = Some (dst, src) → fds !! src = Some fd →
  foldl dup2 fds l !! dst = Some fd.
Proof.
  revert fds i. induction l as [|[d s] l IH]; intros fds i Hnd Hdisj Hi Hfd; [done|]. cbn in Hnd. apply NoDup_cons in Hnd as [Hd Hnd].
  destruct i as [|i]; cbn in *.
  - injection Hi as -> ->. rewrite foldl_dup2_other by done. unfold dup2. cbn. rewrite Hfd. by rewrite lookup_insert_eq.
  - apply IH with i; [done| |done|].
    + intros s' Hs' Hin. apply (Hdisj s'); [by right|by right].
    + unfold dup2. cbn. destruct (fds !! s); [|done]. rewrite lookup_insert_ne; [done|].
      intros ->. apply (Hdisj src); [|by left]. right. apply list_elem_of_fmap. exists (dst, src). split; [done|].
      by eapply list_elem_of_lookup_2.
Qed.
Lemma child_fds_forwarded x i dst :
  length (got_fds x) = length (msg_fds x) → NoDup (msg_fds x) → NoDup (got_fds x) →
  (∀ fd, fd ∈ got_fds x → 2 < fd) → (∀ fd, fd ∈ msg_fds x → fd ∉ got_fds x) →
  msg_fds x !! i = Some dst → child_fds x !! dst = Some (Forwarded i).
Proof.
  intros Hlen Hm Hg Hstd Hdisj Hi. unfold child_fds. apply map_lookup_filter_Some. split.
  2: { cbn [fst]. apply elem_of_app. right. by eapply list_elem_of_lookup_2. }
  destruct (lookup_lt_is_Some_2 (got_fds x) i) as [src Hsrc].
  { rewrite Hlen. by eapply lookup_lt_Some. }
  assert (src ∈ got_fds x) as Hin by (by eapply list_elem_of_lookup_2).
  eapply foldl_dup2 with (i := i) (src := src).
  - by rewrite fst_zip by lia.
  - rewrite fst_zip, snd_zip by lia. intros s Hs Hs'. by apply (Hdisj s).
  - apply lookup_zip_with_Some. by exists dst, src.
  - unfold inherited. pose proof (Hstd _ Hin). rewrite !lookup_insert_ne by lia. apply elem_of_list_to_map_1.
    + rewrite fmap_imap, (imap_ext _ (const id)) by done. by rewrite imap_const, list_fmap_id.
    + apply elem_of_lookup_imap. by exists i, src.
Qed.

Notation session server_env := (handle_escalate_session_with_policy try_parse_shell policy preserve_program_paths try_join server_env).

Lemma run_escalated_started server_env io file workdir req e :
  e ∈ events (run_escalated server_env io file workdir req) →
  ∃ x argv0 args, io_super io = Some x ∧ length (got_fds x) = length (msg_fds x) ∧
    (∀ fd, fd ∈ msg_fds x → fd ∉ got_fds x) ∧ req_argv req = argv0 :: args ∧
    let p := {| es_file := file; es_argv0 := argv0; es_args := args; es_env := req_env req ∪ server_env; es_dir := workdir;
                es_fds := child_fds x |} in
    e = Started p ∨ ∃ status, io_child io p = Ended status ∧ e = Reported (default 127 (code status)).
Proof.
  unfold run_escalated. intros H. run_inv. destruct (bool_decide _) eqn:Hl; cbn [negb] in H; [|by run_inv].
  apply bool_decide_eq_true in Hl. destruct (existsb _ _) eqn:He; [by run_inv|].
  destruct (req_argv req) as [|argv0 args]; [by run_inv|]. eexists _, argv0, args. split; [done|]. split; [done|]. split.
  { intros fd Hm Hg. apply not_true_iff_false in He. apply He, existsb_exists. exists fd.
    split; [by apply list_elem_of_In|by apply bool_decide_eq_true]. }
  split; [done|]. cbn zeta. destruct (io_child io _) as [| |status]; run_inv; eauto.
Qed.

(** C1. What is run outside of the sandbox, whatever requests are sent to the server: the
    very command that was judged, in the directory and with the environment of the
    request, and only when rules match it and the severest of them allows it, or asks and
    the user accepted that command; and it gets the descriptors that were forwarded, each
    under its own number. *)
Theorem escalation_guarded server_env io p :
  Started p ∈ events (session server_env io) →
  (∃ req name, io_request io = Some req ∧ io_absolutize io (req_file req) = Some (es_file p) ∧
     io_absolutize io (req_workdir req) = Some (es_dir p) ∧ req_argv req = es_argv0 p :: es_args p ∧
     es_env p = req_env req ∪ server_env ∧ format_program_name (es_file p) preserve_program_paths = Some name ∧
     let matches := rules_for policy (name :: es_args p) in
     matches ≠ [] ∧
     (severest matches Allow ∨
      severest matches Prompt ∧
      io_answer io (prompt_message try_join (es_file p) (req_argv req) (es_dir p)) = Some Accept)) ∧
  (∃ x, io_super io = Some x ∧
     (NoDup (msg_fds x) → NoDup (got_fds x) → (∀ fd, fd ∈ got_fds x → 2 < fd) →
      ∀ i dst, msg_fds x !! i = Some dst → es_fds p !! dst = Some (Forwarded i))).
Proof.
  unfold handle_escalate_session_with_policy. intros H. run_inv; [by destruct (determine_events _ _ _ _ _ H)| |].
  { done. }
  rename x into req, x0 into file, x1 into workdir, x2 into action. destruct action; try by run_inv.
  destruct (run_escalated_started _ _ _ _ _ _ H) as (x & argv0 & args & Hx & Hlen & Hdisj & Hargv & [Hp|(st & _ & Hp)]); [|done].
  injection Hp as ->. cbn [es_file es_dir es_argv0 es_args es_env es_fds].
  match goal with H : outcome (determine _ _ _ _) = Ok _ |- _ => rename H into Hdet end.
  destruct (determine_ok _ _ _ _ _ Hdet) as (name & d & p & Hname & Hj & Haction). rewrite Hargv in Hj. cbn [drop] in Hj.
  split.
  - exists req, name. split_and!; try done; cbn zeta.
    + destruct d; [destruct p; [done|]|destruct Haction as (a & _ & Ha); destruct a; try (by destruct Ha); destruct p; [done|]
                  |by destruct Haction]; by destruct (judged_escalated _ _ Hj).
    + destruct d; [left; destruct p; [done|]|right; destruct Haction as (a & ? & Ha); destruct a; try (by destruct Ha);
                   destruct p; [done|]|by destruct Haction].
      * by destruct (judged_escalated _ _ Hj).
      * by destruct (judged_escalated _ _ Hj).
  - exists x. split; [done|]. intros. by apply child_fds_forwarded.
Qed.
End Policy.

(** ** A command of the shell *)
Definition started (l : list Event) : list Escalated := omap (λ e, match e with Started p => Some p | _ => None end) l.

Section Joint.
Context (try_parse_shell : str → option Tree) (policy : Policy PrefixRule) (preserve_program_paths : bool).
Context (try_join : list str → option str) (absolutize : str → option str) (answer : str → option ElicitationAction).
Context (child : Escalated → ChildEnd) (server_env : gmap str str).
Notation intercept := (intercept try_parse_shell policy preserve_program_paths try_join absolutize answer child server_env).

(** Nothing fails between the client and the server. *)
Definition lossless (ln : Link) : Prop :=
  connected ln = true ∧ ln_respond ln = true ∧ ln_response ln = true ∧ ln_report ln = true ∧ ln_result ln = true ∧
  ln_exec ln = true ∧ ∃ got, ln_super ln = Some got ∧ length got = 3%nat ∧ ∀ fd, fd ∈ got → 2 < fd.

Definition refused (r : Run () * ClientEnd) : Prop := r.2 = Exited 1 ∧ started (events r.1) = [].
(** It has been run: in the sandbox if no rule matched, and outside of it if one did. *)
Definition run_in_place (matches : list RuleMatch) (file : str) (argv : list str) (r : Run () * ClientEnd) : Prop :=
  match matches with
  | [] => r.2 = Execed file argv ∧ started (events r.1) = []
  | _ => ∃ p status, started (events r.1) = [p] ∧ child p = Ended status ∧ r.2 = Exited (default 127 (code status))
  end.

Lemma connected_client ln file argv response super result :
  connected ln = true →
  client_run {| cl_fd := ln_fd ln; cl_handshake := ln_handshake ln; cl_request := ln_request ln; cl_response := response;
                cl_super := super; cl_result := result; cl_exec := ln_exec ln |} file argv =
  match response with
  | None => ClientFailed
  | Some Escalate => if negb super then ClientFailed else match result with Some c => Exited c | None => ClientFailed end
  | Some RunAction => if existsb nul_in (file :: argv) then ClientFailed else if ln_exec ln then Execed file argv else ClientFailed
  | Some (Deny _) => Exited 1
  end.
Proof.
  unfold connected, client_run. rewrite !andb_true_iff, bool_decide_eq_true. intros [[[fd Hfd] H1] H2].
  cbn [cl_fd cl_handshake cl_request cl_response cl_super cl_result cl_exec]. by rewrite Hfd, H1, H2.
Qed.

(** What comes of each action. *)
Definition carried_out (action : EscalateAction) (file : str) (argv : list str) (r : Run () * ClientEnd) : Prop :=
  match action with
  | Deny _ => refused r
  | RunAction => r.2 = Execed file argv ∧ started (events r.1) = []
  | Escalate => ∃ p status, started (events r.1) = [p] ∧ child p = Ended status ∧ r.2 = Exited (default 127 (code status))
  end.
(** The session, once the decision is known. *)
Lemma session_of_action ln file argv0 args cwd env abs dir action asked :
  lossless ln → absolutize file = Some abs → absolutize cwd = Some dir →
  determine_action try_parse_shell policy preserve_program_paths try_join answer abs (argv0 :: args) dir =
    {| events := asked; outcome := Ok action |} → Forall (λ e, ∃ m, e = Asked m) asked →
  existsb nul_in (file :: argv0 :: args) = false → (∀ p, ∃ status, child p = Ended status) →
  let r := intercept ln file (argv0 :: args) cwd env in
  carried_out action file (argv0 :: args) r ∧ ∀ e, e ∈ asked → e ∈ events r.1.
Proof.
  intros (Hc & Hrs & Hrsp & Hrep & Hres & Hex & got & Hsup & Hlen & Hstd) Habs Hdir Hdet Hasked Hnul Hchild. cbn zeta.
  unfold intercept, handle_escalate_session_with_policy. cbn [fst snd]. rewrite connected_client by done.
  rewrite Hc, Hrs, Hrsp, Hrep, Hres, Hex, Hsup, Hnul.
  unfold mbind, run_bind. cbn. rewrite Habs. cbn. rewrite Hdir. cbn. rewrite Hdet. cbn.
  assert (∀ B (f : Event → option B) l, (∀ m, f (Asked m) = None) → omap f (asked ++ l) = omap f l) as Hskip.
  { intros B f l Hf. rewrite omap_app. replace (omap f asked) with (@nil B); [done|]. symmetry.
    clear -Hasked Hf. induction Hasked as [|e l [m ->] _ IH]; [done|]. cbn. by rewrite Hf. }
  split; [|by intros e He; apply elem_of_app; left].
  unfold carried_out, refused, responded, reported, started. destruct action as [| |reason]; cbn.
  - rewrite !Hskip by done. done.
  - unfold run_escalated. cbn. unfold mbind, run_bind. cbn.
    destruct (decide (length got = 3%nat)) as [_|]; [|done]. rewrite bool_decide_true by done. cbn.
    assert (∀ fd, fd ∈ CLIENT_FDS → bool_decide (fd ∈ got) = false) as Hfd.
    { intros fd Hin. apply bool_decide_eq_false. intros Hg%Hstd. unfold CLIENT_FDS in Hin. set_solver by lia. }
    rewrite !Hfd by (unfold CLIENT_FDS; set_solver). cbn.
    destruct (Hchild {| es_file := abs; es_argv0 := argv0; es_args := args;
                        es_env := req_env (client_request file (argv0 :: args) cwd env) ∪ server_env; es_dir := dir;
                        es_fds := child_fds {| msg_fds := CLIENT_FDS; got_fds := got |} |}) as [status Hst].
    unfold client_request in Hst. cbn in Hst. rewrite Hst. cbn. rewrite !Hskip by done. cbn. eauto.
  - rewrite !Hskip by done. done.
Qed.

(** The shape of a session: questions, the response, and after [Escalate] one process at most. *)
Lemma session_shape io :
  let l := events (handle_escalate_session_with_policy try_parse_shell policy preserve_program_paths try_join server_env io) in
  Forall (λ e, ∃ m, e = Asked m) l ∨
  ∃ asked action rest, l = asked ++ Responded action :: rest ∧ Forall (λ e, ∃ m, e = Asked m) asked ∧
    (action ≠ Escalate → rest = []) ∧ (length (started rest) ≤ 1)%nat.
Proof.
  cbn zeta. unfold handle_escalate_session_with_policy, mbind, run_bind.
  destruct (io_request io) as [req|]; [|by left]. cbn. destruct (io_absolutize io (req_file req)) as [file|]; [|by left]. cbn.
  destruct (io_absolutize io (req_workdir req)) as [workdir|]; [|by left]. cbn.
  set (d := determine_action _ _ _ _ _ _ _ _). assert (Forall (λ e, ∃ m, e = Asked m) (events d)) as Hd.
  { apply Forall_forall. intros e He. by eapply determine_events. }
  destruct (outcome d) as [action|]; [|by left]. cbn. destruct (io_respond io); [|cbn; left; by rewrite app_nil_r]. cbn.
  right. eexists _, action, _. split_and!; [done|done|by destruct action|]. destruct action; cbn; [lia| |lia].
  unfold run_escalated, mbind, run_bind. destruct (io_super io); cbn; [|lia]. destruct (negb _); cbn; [lia|].
  destruct (existsb _ _); cbn; [lia|]. destruct (req_argv req); cbn; [lia|]. destruct (io_child io _); cbn; [lia..|].
  destruct (io_report io); cbn; lia.
Qed.
Lemma asked_app l k :
  Forall (λ e, ∃ m, e = Asked m) l → started (l ++ k) = started k ∧ responded (l ++ k) = responded k.
Proof. unfold started, responded. induction 1 as [|e l [m ->] _ IH]; [done|]. done. Qed.

(** Whatever fails between client and server: the command is started once at most, and in
    the sandbox only if the server has not started it outside. *)
Theorem started_at_most_once ln file argv cwd env :
  let r := intercept ln file argv cwd env in
  (length (started (events r.1)) ≤ 1)%nat ∧
  ∀ f a, r.2 = Execed f a → f = file ∧ a = argv ∧ started (events r.1) = [].
Proof.
  cbn zeta. unfold intercept. cbn [fst snd]. match goal with |- context [handle_escalate_session_with_policy _ _ _ _ _ ?io] =>
    destruct (session_shape io) as [Hl|(asked & action & rest & Hl & Hasked & Hrest & Hone)] end.
  - destruct (asked_app _ [] Hl) as [Hs Hr]. rewrite app_nil_r in Hs, Hr. rewrite Hs. split; [cbn; lia|]. intros f a.
    unfold client_run. cbn [cl_response cl_fd cl_handshake cl_request]. rewrite Hr.
    destruct (ln_response ln); (destruct (get_escalate_client _); [|done]; by destruct (_ || _)).
  - rewrite Hl. destruct (asked_app _ (Responded action :: rest) Hasked) as [-> Hr]. split; [done|]. intros f a.
    unfold client_run. cbn [cl_response cl_fd cl_handshake cl_request cl_super cl_result cl_exec]. rewrite Hr.
    change (responded (Responded action :: rest)) with (Some action).
    destruct (get_escalate_client _); [|done]. destruct (_ || _); [done|]. destruct (ln_response ln); [|done].
    destruct action; [|destruct (negb _); [done|];
      match goal with |- context [match ?x with Some c => Exited c | None => _ end] => by destruct x end|done].
    rewrite Hrest by done. destruct (existsb _ _); [done|]. by destruct (ln_exec ln); [intros [= <- <-]|].
Qed.

(** C8. What becomes of a command of the shell when nothing fails on the way: by the severest
    rule that matches, or else by the heuristics, it is denied, or the user is asked and may
    decline, and the wrapper ends with 1; or it is run, once: in the sandbox, as the process
    of the wrapper, if no rule matches it, and else outside of it, and the wrapper ends with
    its exit code. *)
Theorem command_in_its_place ln file argv0 args cwd env abs dir name :
  lossless ln → absolutize file = Some abs → absolutize cwd = Some dir →
  format_program_name abs preserve_program_paths = Some name →
  existsb nul_in (file :: argv0 :: args) = false → (∀ p, ∃ status, child p = Ended status) →
  let question := prompt_message try_join abs (argv0 :: args) dir in
  let matches := rules_for policy (name :: args) in
  let r := intercept ln file (argv0 :: args) cwd env in
  ∃ d, match matches with [] => d = fallback try_parse_shell (name :: args) | _ => severest matches d end ∧
    match d with
    | Allow => run_in_place matches file (argv0 :: args) r
    | Prompt => ∀ a, answer question = Some a →
                  Asked question ∈ events r.1 ∧
                  match a with Accept => run_in_place matches file (argv0 :: args) r | _ => refused r end
    | Forbidden => refused r
    end.
Proof.
  intros Hln Habs Hdir Hname Hnul Hchild question matches r.
  destruct (evaluate_judged try_parse_shell policy preserve_program_paths abs (argv0 :: args) name Hname) as (d & p & Hj & He).
  cbn [drop] in Hj. exists d. split; [unfold judged in Hj; subst matches; by destruct (rules_for _ _); destruct Hj|].
  pose proof (λ action asked Hdet Hasked, session_of_action ln file argv0 args cwd env abs dir action asked
                Hln Habs Hdir Hdet Hasked Hnul Hchild) as Hs. cbn zeta in Hs. fold r in Hs.
  unfold determine_action in Hs. rewrite He in Hs. fold question in Hs.
  assert (carried_out (permitted p) file (argv0 :: args) r → run_in_place matches file (argv0 :: args) r) as Hrun.
  { unfold run_in_place, judged in *. subst matches. destruct (rules_for _ _); by destruct Hj as [_ ->]. }
  destruct d; cbn in Hs.
  - by apply Hrun, (Hs _ []).
  - intros a Ha. rewrite Ha in Hs. unfold mbind, run_bind in Hs. cbn in Hs.
    destruct (Hs _ _ eq_refl) as [Hc Hasked]; [by repeat econstructor|].
    split; [by apply Hasked, list_elem_of_singleton|]. by destruct a; [apply Hrun|..].
  - exact (proj1 (Hs _ _ eq_refl (Forall_nil_2 _))).
Qed.
End Joint.

(** ** The tool *)
Section Tool.
Context (to_lowercase : str → str) (bytes_to_string_smart : list Byte.byte → str) (policy_to_json : SandboxPolicy → str).
Context (spawn : Process → option Child) (bash_path execve_wrapper : str) (server_env : gmap str str).
Notation shell := (shell to_lowercase bytes_to_string_smart policy_to_json spawn bash_path execve_wrapper server_env).

(** A result never says that the time was over: that is an error, and its output is lost. *)
Lemma never_timed_out socket state params r alive : shell socket state params = (Ok r, alive) → er_timed_out r = false.
Proof.
  unfold shell, escalate_exec. destruct socket as [fd|]; [|done].
  destruct (process_exec_tool_call _ _ _ _ _ _ _ _ _ _ _ _) as [out|] eqn:He; [|done]. intros [= <- _]. cbn.
  unfold process_exec_tool_call in He. destruct (split_first _) as [[program args]|]; [|done]. cbn in He.
  destruct (transform _ _ _ _ _ _) as [e|]; [|done]. cbn in He. unfold execute_exec_env, exec in He.
  destruct (process_of e _) as [p|]; cbn in He; [|done]. destruct (spawn p) as [c|]; [|done].
  change (finalize_exec_result to_lowercase bytes_to_string_smart (consume_truncated_output false c) (env_sandbox e) = Ok out) in He.
  pose proof (finalize_ok to_lowercase bytes_to_string_smart false (env_sandbox e) c) as Hok. rewrite He in Hok.
  by destruct Hok as (? & _ & _ & _ & _ & ?).
Qed.

(** Before the client has sent the state of its sandbox every command fails: the state that
    is put in its place names no executable for the sandbox of Linux. *)
Lemma fails_without_state socket params :
  shell (Some socket) None params = (Err LandlockSandboxExecutableNotProvided, true).
Proof. done. Qed.

(** With a state that confines, what is spawned is the helper of the sandbox, with the shell
    as its command. *)
Lemma shell_confined params st (fd : str) e p :
  ss_sandbox_policy st ≠ DangerFullAccess → (∀ n, ss_sandbox_policy st ≠ ExternalSandbox n) →
  transform policy_to_json
    {| program := bash_path; spec_args := drop 1 (shell_command bash_path params); spec_cwd := ep_workdir params;
       spec_env := shell_env execve_wrapper server_env fd; spec_expiration := Cancellation |}
    (ss_sandbox_policy st) (select_initial Linux (ss_sandbox_policy st) Auto false) (ss_sandbox_cwd st)
    (ss_linux_sandbox_exe st) = Ok e →
  process_of e (ss_sandbox_policy st) = Ok p →
  argv0 p = LINUX_SANDBOX_ARG0 ∧ Some (image p) = ss_linux_sandbox_exe st ∧
  argv p = create_linux_sandbox_command_args policy_to_json (shell_command bash_path params) (ss_sandbox_policy st) (ss_sandbox_cwd st).
Proof.
  intros Hf Hx. destruct (ss_sandbox_policy st) eqn:Hp; try done; [|by destruct (Hx network_access)|];
    cbn; destruct (ss_linux_sandbox_exe st) as [exe|]; try done; intros [= <-] [= <-]; done.
Qed.
End Tool.

(** ** Examples *)
Definition rule_for (program : str) (d : Decision) : PrefixRule :=
  {| pattern := {| first := program; rest := [] |}; decision := d; justification := None |}.
Definition sample_rules : Policy PrefixRule :=
  {| rules_by_program := {[ §"git" := [rule_for §"git" Allow]; §"deploy" := [rule_for §"deploy" Prompt];
                            §"dd" := [rule_for §"dd" Forbidden] ]} |}.
Definition sound_link : Link :=
  {| ln_fd := Some 5; ln_handshake := true; ln_request := true; ln_respond := true; ln_response := true;
     ln_super := Some [7; 8; 9]; ln_report := true; ln_result := true; ln_exec := true |}.
Definition ask_sample (preserve : bool) (answer : option ElicitationAction) (file : str) (argv : list str) : Run () * ClientEnd :=
  intercept (λ _, None) sample_rules preserve (λ l, Some (join [SP] l)) Some (λ _, answer) (λ _, Ended 768) ∅ sound_link file argv §"/w" ∅.
Definition sample_io (answer : option ElicitationAction) (file : str) (argv : list str) : SessionIo :=
  {| io_request := Some {| req_file := file; req_argv := argv; req_workdir := §"/w"; req_env := ∅ |}; io_absolutize := Some;
     io_answer := λ _, answer; io_respond := true; io_super := Some {| msg_fds := [0; 1; 2]; got_fds := [7; 8; 9] |};
     io_child := λ _, Ended 0; io_report := true |}.

Lemma escalation_guarded_witness :
  ∃ p, started (events (handle_escalate_session_with_policy (λ _, None) sample_rules false (λ l, Some (join [SP] l)) ∅
         (sample_io (Some Accept) §"/usr/bin/deploy" [§"deploy"; §"now"]))) = [p] ∧
    es_file p = §"/usr/bin/deploy" ∧ es_args p = [§"now"] ∧ es_fds p !! 1 = Some (Forwarded 1).
Proof.
  eexists. split; [vm_compute; reflexivity|]. split; [done|]. split; [done|].
  edestruct (escalation_guarded (λ _, None) sample_rules false (λ l, Some (join [SP] l)) ∅
              (sample_io (Some Accept) §"/usr/bin/deploy" [§"deploy"; §"now"])) as [_ (x & Hx & Hfds)].
  { vm_compute. right. right. left. }
  injection Hx as <-. apply (Hfds ltac:(by repeat constructor; set_solver) ltac:(by repeat constructor; set_solver)
    ltac:(cbn; set_solver by lia) 1%nat 1 eq_refl).
Defined.

Lemma command_in_its_place_witness :
  (ask_sample false (Some Accept) §"/bin/deploy" [§"deploy"]).2 = Exited 3 ∧
  (ask_sample false (Some Decline) §"/bin/deploy" [§"deploy"]).2 = Exited 1.
Proof.
  assert (lossless sound_link) as Hln.
  { unfold lossless. repeat split. exists [7; 8; 9]. split_and!; [done|done|]. cbn. set_solver by lia. }
  split.
  - destruct (command_in_its_place (λ _, None) sample_rules false (λ l, Some (join [SP] l)) Some (λ _, Some Accept) (λ _, Ended 768) ∅
              sound_link §"/bin/deploy" §"deploy" [] §"/w" ∅ _ _ §"deploy" Hln eq_refl eq_refl ltac:(by vm_compute) ltac:(by vm_compute)
              ltac:(by eexists)) as (d & Hd & Hr).
    assert (rules_for sample_rules [§"deploy"] = [PrefixRuleMatch [§"deploy"] Prompt None]) as Hrules by (by vm_compute).
    rewrite Hrules in Hd. assert (d = Prompt) as ->.
    { destruct Hd as [_ (m & ->%list_elem_of_singleton & Hm)]. done. }
    destruct (Hr Accept eq_refl) as [_ Hrun]. rewrite Hrules in Hrun. by destruct Hrun as (p & status & _ & [= <-] & ?).
  - by vm_compute.
Defined.

(** The rule is found by the base name of the program: a file called git that the agent has
    written runs outside of the sandbox, and the option to keep paths does not change that. *)
Example escalated_by_name :
  map es_file (started (events (ask_sample false None §"/w/git" [§"git"; §"status"]).1)) = [§"/w/git"] ∧
  map es_file (started (events (ask_sample true None §"/w/git" [§"git"; §"status"]).1)) = [§"/w/git"].
Proof. split; by vm_compute. Qed.
(** Without arguments, not even the zeroth, the session panics and the wrapper fails. *)
Example no_arguments :
  (outcome (ask_sample false None §"/usr/bin/git" []).1, (ask_sample false None §"/usr/bin/git" []).2) = (Err Panicked, ClientFailed).
Proof. by vm_compute. Qed.
(** A forbidden command, one that no rule knows, and one that the heuristics take for
    dangerous. *)
Example other_commands :
  (ask_sample false None §"/bin/dd" [§"dd"]).2 = Exited 1 ∧
  (ask_sample false None §"/bin/ls" [§"ls"]).2 = Execed §"/bin/ls" [§"ls"] ∧
  (ask_sample false (Some Accept) §"/bin/rm" [§"rm"; §"-rf"; §"/w"]).2 = Execed §"/bin/rm" [§"rm"; §"-rf"; §"/w"].
Proof. split_and!; by vm_compute. Qed.
(** A descriptor that is not a socket ends the loop: the commands that follow are not heard. *)
Example loop_ends : escalate_task 0 [Some [true]; Some []; Some [false]; Some [true]] = ([0%nat], false).
Proof. done. Qed.
