(* ===== verification/SubAgents.v ===== *)
(** * Agents that an agent starts
    ([core/src/agent/guards.rs], [agent/control.rs], [tools/handlers/collab.rs])

    A session may have agents of its own, up to a number and a depth.  The number is counted
    by an atomic counter, in which a slot is taken before a session is made, and a set of
    the sessions that hold one.  The tools of all sessions share both and run side by side;
    each is a program of [Coroutine].  Sessions are identified by numbers; a new one gets a
    number that was never used, as a fresh UUID is.  The configuration of an agent, its
    workspace, the events for the user and the tool [wait] beyond its time limit are left
    out. *)
From stdpp Require Import gmap list.
From S2P Require Import Prelude RustStr MachInt Coroutine.

(** ** State *)
Inductive AgentStatus := PendingInit | Running | Completed (last_agent_message : option str) | Errored (message : str)
  | Shutdown | NotFound.
Definition is_final (s : AgentStatus) : bool := match s with PendingInit | Running => false | _ => true end.
Record AgentSession := { depth : Z; status : AgentStatus }.

(** [Guards], with the sessions of the manager that are agents, and every identifier that
    was ever given. *)
Record World := {
  total_count : nat;
  sessions_set : gset nat;
  sessions : gmap nat AgentSession;
  used : gset nat;
}.
Definition world_new : World := {| total_count := 0; sessions_set := ∅; sessions := ∅; used := ∅ |}.
(** What the environment answers: whether the manager is still there, whether a weak
    exchange fails for no reason, whether a session can be made and under which identifier,
    and what becomes of a submission. *)
Inductive SendEnd := Sent | AgentDied | SessionNotFound | SendFailed.
Record Answer := { manager : bool; spurious : bool; created : bool; new_id : nat; submitted : SendEnd }.
Abbreviation program := (prog World Answer).

(** ** Depth *)
Definition MAX_THREAD_SPAWN_DEPTH : Z := 1.
Definition I32_MAX : Z := 2147483647.
(** [None]: a session that no agent has spawned, or a sub-agent of another kind. *)
Definition session_depth (spawned_at : option Z) : Z := default 0%Z spawned_at.
Definition next_session_spawn_depth (spawned_at : option Z) : Z := Z.min I32_MAX (session_depth spawned_at + 1).
Definition exceeds_session_spawn_depth_limit (depth : Z) : bool := (MAX_THREAD_SPAWN_DEPTH <? depth)%Z.

(** ** [Guards] *)
Definition with_count (n : nat) (w : World) : World :=
  {| total_count := n; sessions_set := sessions_set w; sessions := sessions w; used := used w |}.
Definition with_set (s : gset nat) (w : World) : World :=
  {| total_count := total_count w; sessions_set := s; sessions := sessions w; used := used w |}.
Definition with_sessions (m : gmap nat AgentSession) (w : World) : World :=
  {| total_count := total_count w; sessions_set := sessions_set w; sessions := m; used := used w |}.

Definition load_count : program nat := atomically (λ _ w, (w, total_count w)).
Definition fetch_add : program () := atomically (λ _ w, (with_count (S (total_count w)) w, ())).
Definition fetch_sub : program () := atomically (λ _ w, (with_count (pred (total_count w)) w, ())).
(** [None]: exchanged; otherwise what was found. *)
Definition compare_exchange_weak (current : nat) : program (option nat) :=
  atomically (λ e w, if bool_decide (total_count w = current) && negb (spurious e)
                     then (with_count (S current) w, None) else (w, Some (total_count w))).
(** The loop of [try_increment_spawned].  The fuel bounds how often others are faster;
    [None]: it has not come through yet. *)
Fixpoint exchange_loop (fuel max_sessions current : nat) : program (option bool) :=
  match fuel with
  | 0 => mret None
  | S fuel =>
      if max_sessions <=? current then mret (Some false)
      else
        updated ← compare_exchange_weak current;
        match updated with
        | None => mret (Some true)
        | Some updated => exchange_loop fuel max_sessions updated
        end
  end.
Definition try_increment_spawned (fuel max_sessions : nat) : program (option bool) :=
  current ← load_count; exchange_loop fuel max_sessions current.
Definition reserve_spawn_slot (fuel : nat) (max_sessions : option nat) : program (option bool) :=
  match max_sessions with
  | Some max_sessions => try_increment_spawned fuel max_sessions
  | None => fetch_add;; mret (Some true)
  end.
Definition register_spawned_session (id : nat) : program () :=
  atomically (λ _ w, (with_set ({[id]} ∪ sessions_set w) w, ())).
Definition release_spawned_session (id : nat) : program () :=
  removed ← atomically (λ _ w, (with_set (sessions_set w ∖ {[id]}) w, bool_decide (id ∈ sessions_set w)));
  if removed : bool then fetch_sub else mret ().

(** ** [AgentControl] *)
Definition upgrade : program bool := atomically (λ e w, (w, manager e)).
Definition send_op (id : nat) : program SendEnd :=
  atomically (λ e w, (w, match sessions w !! id with None => SessionNotFound | Some _ => submitted e end)).
Definition remove_session (id : nat) : program () := atomically (λ _ w, (with_sessions (delete id (sessions w)) w, ())).
(** [None]: the session could not be made. *)
Definition spawn_new_session_with_source (d : Z) : program (option nat) :=
  atomically (λ e w,
    if created e
    then ({| total_count := total_count w; sessions_set := sessions_set w;
             sessions := <[new_id e := {| depth := d; status := PendingInit |}]> (sessions w); used := {[new_id e]} ∪ used w |},
          Some (new_id e))
    else (w, None)).
Definition send_prompt (id : nat) : program bool :=
  alive ← upgrade;
  if negb alive then mret false
  else
    result ← send_op id;
    match result with
    | AgentDied => remove_session id;; release_spawned_session id;; mret false
    | Sent => mret true
    | _ => mret false
    end.
Definition interrupt_agent (id : nat) : program bool :=
  alive ← upgrade;
  if negb alive then mret false else result ← send_op id; mret (match result with Sent => true | _ => false end).
Definition shutdown_agent (id : nat) : program bool :=
  alive ← upgrade;
  if negb alive then mret false
  else
    result ← send_op id;
    remove_session id;; release_spawned_session id;;
    mret (match result with Sent => true | _ => false end).
Definition get_status (id : nat) : program AgentStatus :=
  atomically (λ e w, (w, if manager e then match sessions w !! id with Some s => status s | None => NotFound end else NotFound)).
Definition spawn_agent (fuel : nat) (max_sessions : option nat) (d : Z) : program (option nat) :=
  alive ← upgrade;
  if negb alive then mret None
  else
    slot ← reserve_spawn_slot fuel max_sessions;
    match slot with
    | Some true =>
        session ← spawn_new_session_with_source d;
        match session with
        | None => fetch_sub;; mret None
        | Some id =>
            register_spawned_session id;;
            sent ← send_prompt id;
            mret (if sent : bool then Some id else None)
        end
    | _ => mret None
    end.

(** ** The tools ([collab.rs]) *)
Definition spawn_tool (fuel : nat) (spawned_at : option Z) (max_sessions : option nat) (prompt : str) : program (option nat) :=
  if bool_decide (trim prompt = []) then mret None
  else
    let child_depth := next_session_spawn_depth spawned_at in
    if exceeds_session_spawn_depth_limit child_depth then mret None
    else spawn_agent fuel max_sessions child_depth.
(** Whether the agent may have tools of this kind itself. *)
Definition keeps_collab (child_depth : Z) : bool := negb (exceeds_session_spawn_depth_limit (child_depth + 1)).
Definition send_input_tool (id : nat) (prompt : str) (interrupt : bool) : program bool :=
  if bool_decide (trim prompt = []) then mret false
  else
    go ← (if interrupt then interrupt_agent id else mret true);
    if negb go then mret false else send_prompt id.
Definition subscribe_status (id : nat) : program (option AgentStatus) :=
  atomically (λ e w, (w, if manager e then status <$> sessions w !! id else None)).
Definition close_tool (id : nat) : program bool :=
  subscribed ← subscribe_status id;
  match subscribed with
  | None => mret false
  | Some Shutdown => mret true
  | Some _ => shutdown_agent id
  end.
Definition MIN_WAIT_TIMEOUT_MS : Z := 10000.
Definition DEFAULT_WAIT_TIMEOUT_MS : Z := 30000.
Definition MAX_WAIT_TIMEOUT_MS : Z := 300000.
(** [None]: refused. *)
Definition wait_timeout (timeout_ms : option Z) : option Z :=
  let ms := default DEFAULT_WAIT_TIMEOUT_MS timeout_ms in
  if (ms <=? 0)%Z then None else Some (Z.max MIN_WAIT_TIMEOUT_MS (Z.min ms MAX_WAIT_TIMEOUT_MS)).

(** * Correctness *)

(** What a program holds: a slot it has taken, before and after the session is made; a
    session that it knows was once made; one that it has removed; a slot that it has yet to
    give back. *)
Inductive Held := Nothing | Reserved (id : option nat) | Known (id : nat) | Removing (id : nat) | Owing.
Definition cost (h : Held) : nat := match h with Reserved _ | Owing => 1 | _ => 0 end.

Section Bounds.
(** The bound that all sessions are configured with. *)
Context (M : nat).

Definition held_ok (w : World) (h : Held) : Prop :=
  match h with
  | Reserved (Some id) => id ∈ used w ∧ id ∉ sessions_set w
  | Known id => id ∈ used w
  | Removing id => id ∈ used w ∧ sessions w !! id = None
  | _ => True
  end.
Definition session_ok (s : AgentSession) : Prop := (0 < depth s ≤ MAX_THREAD_SPAWN_DEPTH)%Z.
Record Inv (w : World) (hs : gmap nat Held) : Prop := {
  inv_count : total_count w = size (sessions_set w) + total cost hs;
  inv_max : total_count w ≤ M;
  inv_used : sessions_set w ⊆ used w;
  inv_sessions : ∀ id s, sessions w !! id = Some s →
    id ∈ used w ∧ session_ok s ∧ (id ∈ sessions_set w ∨ ∃ i, hs !! i = Some (Reserved (Some id)));
  inv_held : ∀ i h, hs !! i = Some h → held_ok w h;
  inv_distinct : ∀ i j id, hs !! i = Some (Reserved (Some id)) → hs !! j = Some (Reserved (Some id)) → i = j;
}.

Definition env (e : Answer) (w : World) : Prop := new_id e ∉ used w.
(** Sessions end, change and are removed by other hands. *)
Inductive disturb (w : World) : World → Prop :=
| disturb_status id s x : sessions w !! id = Some s →
    disturb w (with_sessions (<[id := {| depth := depth s; status := x |}]> (sessions w)) w)
| disturb_remove id : disturb w (with_sessions (delete id (sessions w)) w).

(** An action may be taken when it keeps the invariant, whatever else is held. *)
Definition assume (e : Answer) (w : World) (h : Held) : Prop := env e w ∧ ∃ hs i, Inv w hs ∧ hs !! i = Some h.
Definition guarantee (e : Answer) (w : World) (h : Held) (w' : World) (h' : Held) : Prop :=
  ∀ hs i, Inv w hs → hs !! i = Some h → Inv w' (<[i := h']> hs).
Notation safe := (safe assume guarantee).

Lemma keep_same w hs i h : Inv w hs → hs !! i = Some h → Inv w (<[i := h]> hs).
Proof. intros Hi Hh. by rewrite insert_id. Qed.
(** What is held changes, and costs the same. *)
Lemma keep_held w hs i h h' :
  Inv w hs → hs !! i = Some h → cost h = cost h' → (∀ id, h ≠ Reserved (Some id)) → (∀ id, h' ≠ Reserved (Some id)) →
  held_ok w h' → Inv w (<[i := h']> hs).
Proof.
  intros [H1 H2 H3 H4 H5 H6] Hh Hc Hno Hno' Hok. pose proof (sum_update cost hs i h h' Hh). split; [lia|done|done| | |].
  - intros id s Hs. destruct (H4 id s Hs) as (? & ? & [?|[j Hj]]); [by auto|split_and!; [done|done|]]. right. exists j.
    rewrite lookup_insert_ne; [done|]. intros ->. rewrite Hh in Hj. injection Hj as ->. by eapply Hno.
  - intros j x. rewrite lookup_insert_Some. intros [[_ <-]|[_ Hj]]; [done|by eapply H5].
  - intros j k id. rewrite !lookup_insert_Some. intros [[_ ?]|[_ Hj]] [[_ ?]|[_ Hk]]; [by destruct (Hno' id)..|by eapply H6].
Qed.

(** ** The actions *)
Lemma safe_look {R S} (Q : S → Held → Prop) (f : Answer → World → R) (g : R → program S) h :
  (∀ e w, assume e w h → safe Q (g (f e w)) h) → safe Q (atomically (λ e w, (w, f e w)) ≫= g) h.
Proof. intros Hg. apply safe_step. intros e w Ha. exists h. split; [|by apply Hg]. intros hs i. apply keep_same. Qed.

Lemma taken w hs i : Inv w hs → hs !! i = Some Nothing → total_count w < M →
  Inv (with_count (S (total_count w)) w) (<[i := Reserved None]> hs).
Proof.
  intros [H1 H2 H3 H4 H5 H6] Hh Hlt. pose proof (sum_update cost hs i _ (Reserved None) Hh) as Hc. cbn in Hc.
  split; cbn; [lia|lia|done| | |].
  - intros id s Hs. destruct (H4 id s Hs) as (? & ? & [?|[j Hj]]); [by auto|split_and!; [done|done|]]. right. exists j.
    rewrite lookup_insert_ne; [done|]. congruence.
  - intros j x. rewrite lookup_insert_Some. intros [[_ <-]|[_ Hj]]; [done|by apply (H5 j x)].
  - intros j k id. rewrite !lookup_insert_Some. intros [[_ ?]|[_ Hj]] [[_ ?]|[_ Hk]]; [done..|by eapply H6].
Qed.
(** A slot is given back. *)
Lemma given_back w hs i h : Inv w hs → hs !! i = Some h → h = Reserved None ∨ h = Owing →
  Inv (with_count (pred (total_count w)) w) (<[i := Nothing]> hs).
Proof.
  intros [H1 H2 H3 H4 H5 H6] Hh Hor. pose proof (sum_update cost hs i _ Nothing Hh) as Hc. pose proof (sum_elem cost hs i h Hh).
  assert (cost h = 1) as Hone by (by destruct Hor as [->| ->]). cbn in Hc. split; cbn; [lia|lia|done| | |].
  - intros id s Hs. destruct (H4 id s Hs) as (? & ? & [?|[j Hj]]); [by auto|split_and!; [done|done|]]. right. exists j.
    rewrite lookup_insert_ne; [done|]. intros ->. rewrite Hh in Hj. injection Hj as ->. by destruct Hor.
  - intros j x. rewrite lookup_insert_Some. intros [[_ <-]|[_ Hj]]; [done|by apply (H5 j x)].
  - intros j k id. rewrite !lookup_insert_Some. intros [[_ ?]|[_ Hj]] [[_ ?]|[_ Hk]]; [done..|by eapply H6].
Qed.
Lemma made w hs i id s : Inv w hs → hs !! i = Some (Reserved None) → id ∉ used w → session_ok s →
  Inv {| total_count := total_count w; sessions_set := sessions_set w; sessions := <[id := s]> (sessions w);
         used := {[id]} ∪ used w |} (<[i := Reserved (Some id)]> hs).
Proof.
  intros [H1 H2 H3 H4 H5 H6] Hh Hnew Hs. pose proof (sum_update cost hs i _ (Reserved (Some id)) Hh) as Hc. cbn in Hc.
  split; cbn; [lia|done|set_solver| | |].
  - intros id' s'. rewrite lookup_insert_Some. intros [[<- <-]|[Hne Hs']].
    + split_and!; [set_solver|done|]. right. exists i. by rewrite lookup_insert_eq.
    + destruct (H4 id' s' Hs') as (? & ? & [?|[j Hj]]); [split_and!; [set_solver|done|by left]|].
      split_and!; [set_solver|done|]. right. exists j. rewrite lookup_insert_ne; [done|]. congruence.
  - intros j x. rewrite lookup_insert_Some. intros [[_ <-]|[_ Hj]]; [set_solver|].
    specialize (H5 j x Hj). destruct x as [|[id'|]|id'|id'|]; cbn in *; try done; [set_solver|set_solver|].
    destruct H5. split; [set_solver|]. rewrite lookup_insert_ne; [done|]. intros ->. set_solver.
  - intros j k id'. rewrite !lookup_insert_Some. intros [[<- ?]|[_ Hj]] [[<- ?]|[_ Hk]]; [done| | |by eapply H6].
    + simplify_eq. destruct (H5 k _ Hk). set_solver.
    + simplify_eq. destruct (H5 j _ Hj). set_solver.
Qed.
Lemma registered w hs i id : Inv w hs → hs !! i = Some (Reserved (Some id)) →
  Inv (with_set ({[id]} ∪ sessions_set w) w) (<[i := Nothing]> hs).
Proof.
  intros [H1 H2 H3 H4 H5 H6] Hh. pose proof (sum_update cost hs i _ Nothing Hh) as Hc. cbn in Hc.
  destruct (H5 i _ Hh) as [Hu Hn]. split; cbn; [|done|set_solver| | |].
  - rewrite size_union, size_singleton by set_solver. lia.
  - intros id' s' Hs'. destruct (H4 id' s' Hs') as (? & ? & [?|[j Hj]]); [split_and!; [done|done|left; set_solver]|].
    split_and!; [done|done|]. destruct (decide (j = i)) as [->|Hne]; [left; rewrite Hh in Hj; simplify_eq; set_solver|right].
    exists j. by rewrite lookup_insert_ne.
  - intros j x. rewrite lookup_insert_Some. intros [[_ <-]|[Hne Hj]]; [done|].
    pose proof (H5 j x Hj) as Hx. destruct x as [|[id'|]|id'|id'|]; cbn in *; try done. destruct Hx. split; [done|].
    assert (id' ≠ id) by (intros ->; apply Hne; by eapply H6). set_solver.
  - intros j k id'. rewrite !lookup_insert_Some. intros [[_ ?]|[_ Hj]] [[_ ?]|[_ Hk]]; [done..|by eapply H6].
Qed.
Lemma removed w hs id : Inv w hs → Inv (with_sessions (delete id (sessions w)) w) hs.
Proof.
  intros [H1 H2 H3 H4 H5 H6]. split; cbn; [done..| | |done].
  - intros id' s'. rewrite lookup_delete_Some. intros [_ ?]. by apply H4.
  - intros i h Hh. pose proof (H5 i h Hh) as Hx. destruct h as [|[id'|]|id'|id'|]; cbn in *; try done. destruct Hx. split; [done|].
    by apply lookup_delete_None; right.
Qed.
Lemma released w hs i id : Inv w hs → hs !! i = Some (Removing id) → id ∈ sessions_set w →
  Inv (with_set (sessions_set w ∖ {[id]}) w) (<[i := Owing]> hs).
Proof.
  intros [H1 H2 H3 H4 H5 H6] Hh Hin. pose proof (sum_update cost hs i _ Owing Hh) as Hc. cbn in Hc.
  destruct (H5 i _ Hh) as [Hu Hn]. split; cbn; [|done|set_solver| | |].
  - rewrite size_difference, size_singleton by set_solver.
    assert (size {[id]} ≤ size (sessions_set w)) as Hsz by (apply subseteq_size; set_solver). rewrite size_singleton in Hsz. lia.
  - intros id' s' Hs'. assert (id' ≠ id) by (intros ->; congruence).
    destruct (H4 id' s' Hs') as (? & ? & [?|[j Hj]]); [split_and!; [done|done|left; set_solver]|].
    split_and!; [done|done|]. right. exists j. rewrite lookup_insert_ne; [done|]. congruence.
  - intros j x. rewrite lookup_insert_Some. intros [[_ <-]|[Hne Hj]]; [done|].
    pose proof (H5 j x Hj) as Hx. destruct x as [|[id'|]|id'|id'|]; cbn in *; try done. set_solver.
  - intros j k id'. rewrite !lookup_insert_Some. intros [[_ ?]|[_ Hj]] [[_ ?]|[_ Hk]]; [done..|by eapply H6].
Qed.

(** ** The programs *)
Lemma safe_any {R} (Q : R → Held → Prop) r h : (∀ r h, Q r h) → safe Q (mret r) h.
Proof. intros HQ. apply HQ. Qed.

Lemma exchange_safe (Q : option bool → Held → Prop) fuel max_sessions current :
  max_sessions ≤ M → (∀ r, r ≠ Some true → Q r Nothing) → Q (Some true) (Reserved None) →
  safe Q (exchange_loop fuel max_sessions current) Nothing.
Proof.
  intros Hmax Hno Hyes. revert current. induction fuel as [|fuel IH]; intros current; cbn [exchange_loop]; [by apply Hno|].
  destruct (max_sessions <=? current) eqn:Hle; [by apply Hno|]. apply Nat.leb_gt in Hle.
  apply safe_step. intros e w _. case_bool_decide as Heq; cbn [andb]; [destruct (spurious e)|]; cbn [negb fst snd].
  - exists Nothing. split; [|apply IH]. intros hs i. apply keep_same.
  - exists (Reserved None). split; [|exact Hyes]. intros hs i Hi Hh. rewrite <-Heq. apply taken; [done|done|lia].
  - exists Nothing. split; [|apply IH]. intros hs i. apply keep_same.
Qed.

Lemma release_spawned_safe {S} (Q : S → Held → Prop) (f : () → program S) id :
  (∀ h, safe Q (f ()) h) → safe Q (release_spawned_session id ≫= f) (Removing id).
Proof.
  intros HQ. apply safe_bind. apply safe_step. intros e w _. case_bool_decide as Hin; cbn [fst snd].
  - exists Owing. split; [intros hs i Hi Hh; by apply released|]. apply safe_atomically. intros e' w' _. exists Nothing. cbn [fst snd].
    split; [|apply HQ]. intros hs i Hi Hh. eapply given_back; eauto.
  - exists Nothing. split; [|apply HQ]. intros hs i Hi Hh. replace (with_set _ w) with w.
    + by eapply keep_held.
    + destruct w. unfold with_set. cbn in *. f_equal. set_solver.
Qed.
Lemma remove_release_safe {S} (Q : S → Held → Prop) (f : () → program S) id :
  (∀ h, safe Q (f ()) h) → safe Q (remove_session id ≫= λ _, release_spawned_session id ≫= f) (Known id).
Proof.
  intros HQ. apply safe_step. intros e w _. exists (Removing id). cbn [fst snd]. split; [|by apply release_spawned_safe].
  intros hs i Hi Hh. apply (keep_held _ hs i (Known id)); [by apply removed|done|done|done|done|]. cbn.
  split; [exact (inv_held _ _ Hi i _ Hh)|]. by apply lookup_delete_eq.
Qed.

Lemma send_op_known {S} (Q : S → Held → Prop) (f : SendEnd → program S) id :
  (∀ r h, h = Known id ∨ (r = SessionNotFound ∧ h = Nothing) → safe Q (f r) h) → safe Q (send_op id ≫= f) Nothing.
Proof.
  intros HQ. apply safe_step. intros e w _. cbn [fst snd]. destruct (sessions w !! id) as [s|] eqn:Hs.
  - exists (Known id). split; [|apply HQ; by left]. intros hs i Hi Hh. eapply keep_held; try done. cbn. by apply (inv_sessions _ _ Hi id s).
  - exists Nothing. split; [|apply HQ; by right]. intros hs i. apply keep_same.
Qed.
Lemma send_prompt_safe (Q : bool → Held → Prop) id : (∀ b h, Q b h) → safe Q (send_prompt id) Nothing.
Proof.
  intros HQ. apply safe_look. intros e w _. destruct (manager e); cbn [negb]; [|apply HQ].
  apply send_op_known. intros r h Hr. destruct r; try apply HQ. destruct Hr as [->|[? _]]; [|done].
  apply remove_release_safe. intros h. apply HQ.
Qed.

Lemma spawn_agent_safe Q fuel max_sessions d :
  (∃ m, max_sessions = Some m ∧ m ≤ M) → (0 < d ≤ MAX_THREAD_SPAWN_DEPTH)%Z → (∀ r h, Q r h) →
  safe Q (spawn_agent fuel max_sessions d) Nothing.
Proof.
  intros (m & -> & Hm) Hd HQ. apply safe_look. intros e w _. destruct (manager e); cbn [negb]; [|by apply safe_any].
  apply safe_bind, safe_look. intros e1 w1 _. apply exchange_safe; [done|by intros [[|]|] ?; try done; apply HQ|].
  apply safe_step. intros e2 w2 [Hnew _]. destruct (created e2); cbn [fst snd].
  - exists (Reserved (Some (new_id e2))). split; [intros hs i Hi Hh; by apply made|].
    apply safe_step. intros e3 w3 _. exists Nothing. cbn [fst snd]. split; [intros hs i Hi Hh; by apply registered|].
    apply safe_bind, send_prompt_safe. intros b h. apply HQ.
  - exists (Reserved None). split; [intros hs i; apply keep_same|].
    apply safe_step. intros e3 w3 _. exists Nothing. cbn [fst snd]. split; [|apply HQ]. intros hs i Hi Hh.
    eapply given_back; eauto.
Qed.
Lemma shutdown_agent_safe Q id : (∀ r h, Q r h) → safe Q (shutdown_agent id) (Known id).
Proof.
  intros HQ. apply safe_look. intros e w _. destruct (manager e); cbn [negb]; [|apply HQ].
  unfold send_op. apply safe_look. intros e1 w1 _. apply remove_release_safe. intros h. apply HQ.
Qed.

(** ** Every run *)
Inductive started : program () → Prop :=
| started_spawn fuel spawned_at m prompt : m ≤ M → (∀ d, spawned_at = Some d → 0 ≤ d)%Z →
    started (spawn_tool fuel spawned_at (Some m) prompt;; mret ())
| started_send id prompt interrupt : started (send_input_tool id prompt interrupt;; mret ())
| started_close id : started (close_tool id;; mret ())
| started_status id : started (get_status id;; mret ()).

Lemma tools_safe p : started p → safe (λ _ _, True) p Nothing.
Proof.
  intros [fuel spawned_at m prompt Hm Hd|id prompt interrupt|id|id]; apply safe_bind.
  - unfold spawn_tool. case_bool_decide; [done|]. destruct (exceeds_session_spawn_depth_limit _) eqn:He; [done|].
    apply spawn_agent_safe; [by eexists| |done]. unfold exceeds_session_spawn_depth_limit in He. apply Z.ltb_ge in He.
    split; [|done]. unfold next_session_spawn_depth, session_depth, I32_MAX. destruct spawned_at as [d|]; cbn; [|lia].
    specialize (Hd d eq_refl). lia.
  - unfold send_input_tool. case_bool_decide; [done|]. apply safe_bind. destruct interrupt.
    + apply safe_look. intros e w _. destruct (manager e); cbn [negb]; [|done]. unfold send_op. apply safe_look. intros e1 w1 _.
      apply safe_ret. destruct (match sessions w1 !! id with Some _ => _ | None => _ end); cbn [negb]; try done.
      by apply send_prompt_safe.
    + by apply send_prompt_safe.
  - apply safe_step. intros e w _. destruct (manager e) eqn:Hm; cbn [fst snd].
    + destruct (sessions w !! id) as [s|] eqn:Hs; cbn.
      * exists (Known id). split.
        -- intros hs i Hi Hh. eapply keep_held; try done. cbn. by apply (inv_sessions _ _ Hi id s).
        -- destruct (status s); try done; by apply shutdown_agent_safe.
      * exists Nothing. split; [|done]. intros hs i. apply keep_same.
    + exists Nothing. split; [|done]. intros hs i. apply keep_same.
  - apply safe_atomically. intros e w _. exists Nothing. split; [|done]. intros hs i. apply keep_same.
Qed.

Definition agents_reachable (w : World) : Prop :=
  ∃ c, pool_reachable env started disturb world_new c ∧ world c = w.

Lemma agents_disturb_inv w hs w' : Inv w hs → disturb w w' → Inv w' hs.
Proof.
  intros Hi [id s x Hs|id]; [|by apply removed]. destruct Hi as [H1 H2 H3 H4 H5 H6]. split; cbn; [done..| | |done].
  - intros id' s'. rewrite lookup_insert_Some. intros [[<- <-]|[_ ?]]; [|by apply H4]. by apply (H4 id s).
  - intros i h Hh. pose proof (H5 i h Hh) as Hx. destruct h as [|[id'|]|id'|id'|]; cbn in *; try done. destruct Hx. split; [done|].
    rewrite lookup_insert_ne; [done|]. congruence.
Qed.
Lemma agents_inv w : agents_reachable w → ∃ hs, Inv w hs.
Proof.
  intros (c & Hr & <-).
  assert (pool_inv assume guarantee Inv (λ _ _, True) c) as (hs & Hi & _); [|by eexists].
  eapply (pool_invariant env started disturb _ _ _ Nothing); [| | | | |exact Hr].
  - intros w hs i h e Hi Hh He. split; [done|by eauto].
  - intros w hs i h e w' h' Hi Hh _ Hg. by apply Hg.
  - intros w hs i p Hi Hnone Hp. split; [|by apply tools_safe]. destruct Hi as [H1 H2 H3 H4 H5 H6].
    split; [rewrite sum_insert by done; cbn; lia|done|done| | |].
    + intros id s Hs. destruct (H4 id s Hs) as (? & ? & [?|[j Hj]]); [by auto|split_and!; [done|done|]]. right. exists j.
      rewrite lookup_insert_ne; [done|]. congruence.
    + intros j x. rewrite lookup_insert_Some. intros [[_ <-]|[_ Hj]]; [done|by eapply H5].
    + intros j k id. rewrite !lookup_insert_Some. intros [[_ ?]|[_ Hj]] [[_ ?]|[_ Hk]]; [done..|by eapply H6].
  - intros w hs w'. apply agents_disturb_inv.
  - split; cbn; [done|lia|done|by intros id s; rewrite lookup_empty|by intros i h; rewrite lookup_empty|by intros i j id; rewrite lookup_empty].
Qed.

(** Sessions that wait for their slot to be registered each have a slot of their own. *)
Lemma waiting_covered (hs : gmap nat Held) (X : gset nat) :
  (∀ id, id ∈ X → ∃ i, hs !! i = Some (Reserved (Some id))) → size X ≤ total cost hs.
Proof.
  revert X. induction hs as [|i h hs Hi IH] using map_ind; intros X HX.
  - assert (X = ∅) as -> by (apply set_eq; intros id; split; [intros Hid; destruct (HX id Hid) as [j Hj]; by rewrite lookup_empty in Hj|set_solver]).
    done.
  - rewrite sum_insert by done.
    assert (size (X ∖ match h with Reserved (Some id) => {[id]} | _ => ∅ end) ≤ total cost hs) as Hle.
    { apply IH. intros id [Hid Hne]%elem_of_difference. destruct (HX id Hid) as [j Hj]. exists j.
      apply lookup_insert_Some in Hj as [[_ ->]|[_ Hj]]; [set_solver|done]. }
    rewrite size_difference_alt in Hle.
    assert (size (X ∩ match h with Reserved (Some id) => {[id]} | _ => ∅ end) ≤ cost h); [|lia].
    destruct h as [|[id|]|id|id|]; cbn [cost];
      try (replace (X ∩ ∅) with (∅ : gset nat) by set_solver; rewrite size_empty; lia).
    rewrite <-(size_singleton (C := gset nat) id). apply subseteq_size. clear. set_solver.
Qed.

(** C18. The agents of a session, whatever its tools and those of its agents do side by side,
    and however agents end: there are never more than configured, counted from before they
    are made until after they are gone; the counter never runs below what it counts; and no
    agent is deeper than allowed, or has tools to start agents of its own. *)
Theorem agents_bounded w :
  agents_reachable w →
  size (dom (sessions w)) ≤ total_count w ≤ M ∧ size (sessions_set w) ≤ total_count w ∧
  ∀ id s, sessions w !! id = Some s → (0 < depth s ≤ MAX_THREAD_SPAWN_DEPTH)%Z ∧ keeps_collab (depth s) = false.
Proof.
  intros [hs [H1 H2 H3 H4 H5 H6]]%agents_inv. split_and!; [|done|lia|].
  - assert (size (dom (sessions w) ∖ sessions_set w) ≤ total cost hs) as Hle.
    { apply waiting_covered. intros id [Hid Hno]%elem_of_difference. apply elem_of_dom in Hid as [s Hs].
      by destruct (H4 id s Hs) as (_ & _ & [?|?]). }
    pose proof (size_union_alt (sessions_set w) (dom (sessions w))) as Hu.
    assert (size (dom (sessions w)) ≤ size (sessions_set w ∪ dom (sessions w))) by (apply subseteq_size; set_solver). lia.
  - intros id s Hs. destruct (H4 id s Hs) as (_ & Hd & _). split; [done|]. unfold session_ok in Hd.
    unfold keeps_collab, exceeds_session_spawn_depth_limit. rewrite (proj2 (Z.ltb_lt _ _)); [done|]. unfold MAX_THREAD_SPAWN_DEPTH. lia.
Qed.
End Bounds.

(** ** The loop comes through *)
(** An exchange fails only for no reason, or when another call has changed the counter since
    it was read: whoever waits, waits for calls that got on. *)
Lemma exchange_fails_after_change e current w w' found :
  run_alone e (compare_exchange_weak current) w = (w', Some found) →
  w' = w ∧ found = total_count w ∧ (spurious e = true ∨ total_count w ≠ current).
Proof.
  unfold compare_exchange_weak. rewrite run_alone_atomically. case_bool_decide; cbn [andb]; [|naive_solver].
  destruct (spurious e); naive_solver.
Qed.
(** So a call that is not disturbed decides, with any fuel: it has taken a slot exactly if
    there was one. *)
Lemma slot_decided e fuel max_sessions w :
  spurious e = false →
  run_alone e (try_increment_spawned (S fuel) max_sessions) w =
  if max_sessions <=? total_count w then (w, Some false) else (with_count (S (total_count w)) w, Some true).
Proof.
  intros He. unfold try_increment_spawned, load_count. autorewrite with alone. cbn [exchange_loop fst snd].
  destruct (max_sessions <=? total_count w); [done|]. rewrite run_alone_bind. unfold compare_exchange_weak.
  rewrite run_alone_atomically, He, bool_decide_eq_true_2 by done. done.
Qed.

(** ** Examples *)
Definition answers (id : nat) (end_ : SendEnd) : Answer :=
  {| manager := true; spurious := false; created := true; new_id := id; submitted := end_ |}.
Definition fresh (e : Answer) (w : World) : bool := bool_decide (new_id e ∉ used w).
(** Two calls that start an agent, with room for one: both read the counter before either
    takes a slot. *)
Definition contended : list (nat * Answer) :=
  [(0, answers 1 Sent); (1, answers 1 Sent); (0, answers 1 Sent); (1, answers 1 Sent); (0, answers 1 Sent); (0, answers 1 Sent);
   (1, answers 2 Sent); (0, answers 2 Sent); (0, answers 2 Sent); (0, answers 2 Sent)].
Definition two_spawns : list (program ()) :=
  let p := spawn_tool 5 None (Some 1) §"look" ≫= λ _, mret () in [p; p].

Lemma agents_bounded_witness :
  ∃ c, run_all fresh contended (start_all world_new two_spawns) = Some c ∧
    total_count (world c) = 1 ∧ size (dom (sessions (world c))) ≤ 1 ∧ sessions (world c) !! 1 = Some {| depth := 1; status := PendingInit |}.
Proof.
  assert ((λ c : pool World Answer (), (total_count (world c), sessions (world c) !! 1)) <$>
            run_all fresh contended (start_all world_new two_spawns) = Some (1, Some {| depth := 1; status := PendingInit |})) as Hw
    by (by vm_compute).
  destruct (run_all fresh contended (start_all world_new two_spawns)) as [c|] eqn:Hc; [|done]. exists c. split; [done|].
  injection Hw as Ht Hs. split; [done|]. split; [|done].
  assert (agents_reachable 1 (world c)) as Hr.
  { exists c. split; [|done]. apply (played_reachable env (started 1) disturb fresh world_new two_spawns contended).
    - unfold two_spawns. repeat constructor; done.
    - intros e w He. by apply bool_decide_eq_true in He.
    - exact Hc. }
  pose proof (proj1 (agents_bounded 1 (world c) Hr)). lia.
Defined.

(** An agent that has shut down by itself keeps its slot when it is closed, and one that is
    gone from the manager cannot be closed any more: no other agent can be started. *)
Example slot_leaked :
  let w := (run_alone (answers 1 Sent) (spawn_tool 5 None (Some 1) §"look") world_new).1 in
  let ended := with_sessions {[1 := {| depth := 1; status := Shutdown |}]} w in
  let gone := with_sessions ∅ w in
  (total_count w, sessions_set w) = (1, {[1]}) ∧
  (let '(w', closed) := run_alone (answers 2 Sent) (close_tool 1) ended in
   (closed, total_count w', (run_alone (answers 2 Sent) (spawn_tool 5 None (Some 1) §"look") w').2)) = (true, 1, None) ∧
  (let '(w', closed) := run_alone (answers 2 Sent) (close_tool 1) gone in
   (closed, total_count w', (run_alone (answers 2 Sent) (spawn_tool 5 None (Some 1) §"look") w').2)) = (false, 1, None).
Proof. split_and!; by vm_compute. Qed.
(** An agent whose prompt cannot be delivered runs on in its slot, and its identifier is lost. *)
Example orphaned :
  let '(w, id) := run_alone (answers 1 SendFailed) (spawn_tool 5 None (Some 1) §"look") world_new in
  id = None ∧ total_count w = 1 ∧ sessions w !! 1 = Some {| depth := 1; status := PendingInit |}.
Proof. by vm_compute. Qed.
Example timeouts : wait_timeout None = Some 30000%Z ∧ wait_timeout (Some 1%Z) = Some 10000%Z ∧ wait_timeout (Some 0%Z) = None.
Proof. done. Qed.
